(* ===== verification/_CoqProject ===== *)
-Q . S2P
Prelude.v
JsNumber.v
JsExact.v
WireProtocol.v
FrameChannel.v
JsMap.v
JsValue.v
JsString.v
JsRegExp.v
JsJson.v
ModelKeys.v
TokenEstimate.v
TokenIndex.v
SessionText.v
Budgets.v
Boundary.v
HistorianValidation.v
CompartmentParser.v
References.v
ReferenceRoundtrip.v
Leases.v
LkgSlots.v
KernelState.v
KernelWire.v
SessionChunk.v
Cron.v
SmartNotes.v
Ssrf.v
Tagger.v
Reclaim.v
SearchBounds.v
TextSplitter.v
EmbeddingChunks.v
SearchPool.v
SearchTrace.v
WindowGeometry.v
ModelLimits.v
Thresholds.v
Access.v
SessionRow.v
SessionMeta.v
SessionBlobs.v
SessionCalls.v
TaskScheduler.v
RawSession.v
MessageIndex.v
SessionSource.v
CompartmentTrigger.v
