(* ===== verification/Prelude.v ===== *)
(** * Magic Context: a verification library

    Magic Context is a plugin for coding agents that keeps long sessions within
    a model's context window: it measures the raw messages of a session, tags
    them, moves a boundary between an eligible head and a protected tail, cuts
    the head into chunks, has a historian model summarise each chunk into
    compartments, checks what the historian returns, embeds the chunks for
    search, drops old tool output when space runs out, and keeps prompt prefixes
    stable meanwhile.  Background work (a dreamer, smart notes) runs under leases
    on schedules, and a host daemon is reached over a binary frame protocol.
    This library models the TypeScript core of it, packages/plugin/src under
    src/, and proves it correct.  All source paths below are relative to that
    directory; hooks/ and features/ paths lie in their magic-context folders.

    ** Files and what they model

    Foundations:

    - Prelude: results of fallible code, JavaScript array access, 32-bit
      integers, shared tactics and list lemmas.
    - JsNumber: JavaScript numbers as IEEE 754 doubles, with their order and the
      integers they represent exactly.
    - JsExact: exact sums, differences, minima and comparisons of the doubles that
      are whole numbers.
    - JsMap: insertion-ordered maps and the stable sort, with their lemmas.
    - JsValue: JSON-like values, string helpers, shared/record-type-guard.ts and
      shared/stable-json.ts.
    - JsString: decimals, hexadecimal digits, trimming and splitting of strings.
    - JsRegExp: the backtracking matcher of regular expressions, searches and
      replacements; a match spells what the expression allows
      ([outcomes_goes]).
    - JsJson: JSON.parse and JSON.stringify with the printing and reading of
      numerals as a class ([JsonEngine]); what is printed of a plain value reads
      back, sorted or not ([json_roundtrip], [stable_roundtrip]).
    - Access: a call of a process as a sequence of accesses to a shared database,
      between which other processes commit and any of which may fail ([M], [pause]);
      calls that keep a relation whatever others do ([guarded]), calls of a process
      alone ([wp]) and calls that end when nothing fails ([ends]).

    The host protocol:

    - WireProtocol: shared/mc-host-client/protocol.ts.  Encoding and decoding
      frame headers are inverse ([encode_decode_header]), accept exactly the
      well-formed headers, and the decoder reports the first rule, in its order,
      that the bytes break ([decodeHeader_errors]).
    - FrameChannel: shared/mc-host-client/frame-channel.ts (byte budget, receive
      lease, bounded producer, frame bodies, header rules).  A producer calls its
      transport back in one of four orders whatever its holder does, detaches its
      segments and is inert afterwards ([producer_settles_once]),
      the UTF-8 writer stores the encoding of the text ([writeUtf8_stores_text]),
      a receive lease calls back once ([lease_settles_once]).
    - KernelState and KernelWire: shared/kernel-client/state.ts and wire.ts.  The
      guidance table is total and exact ([guidance_total]); the parsers recover
      what a daemon sends ([responses_roundtrip]) and accept nothing else
      ([parsed_responses_sound]).

    Measuring, cutting and summarising a session:

    - RawSession: hooks/read-session-raw.ts and a count of hooks/read-session-db.ts,
      over the rows of the host's tables.  All readers number the messages alike
      when no row has the number 1 as its summary flag ([readers_agree]); reading a tail, from the database or from the messages at
      hand, is the end of reading everything ([tails_agree]).
    - TokenEstimate and TokenIndex: hooks/read-session-true-raw-tokens.ts.  Tool
      calls and results are matched first in, first out ([buildToolArcs_fifo]);
      the index answers every range query with the sum of the messages
      ([index_queries_are_sums], [findSuffixStart_latest]).
    - SessionText: shared/system-directive.ts and parts of
      hooks/read-session-formatting.ts.
    - Budgets: hooks/derive-budgets.ts, shared/escalation-bands.ts.
    - Boundary: hooks/protected-tail-boundary.ts.  A resolved snapshot is ordered
      and within the session ([live_snapshot_ordered]); the wrap-up fence is the
      greatest boundary that splits no completed arc ([wrapup_fence_greatest]).
    - SessionChunk: readSessionChunk of hooks/read-session-chunk.ts.  A chunk
      covers a prefix of the eligible messages without omission
      ([chunk_covers]); reading makes progress and keeps to its budget
      ([chunk_progress]).
    - SessionSource: the providers, caches and readers around readSessionChunk,
      resolveBoundaryContext of hooks/protected-tail-boundary.ts, and the statements
      on tags, compartments and pending operations they run.
    - CompartmentTrigger: hooks/compartment-trigger.ts.  A fired trigger hands over a
      boundary with a head to summarise, whatever fails ([fired_trigger_has_head]);
      after its cheap gate it decides alike from the messages of the transform and
      from the host's database ([tail_source_irrelevant]).
    - References: hooks/reference-retrieval.ts.  As many distinct example seeds as
      asked for are chosen ([seeds_selected]).
    - CompartmentParser: hooks/compartment-parser.ts and the escapes of
      features/compartment-storage.ts.  Whatever a model answers, what is parsed is
      well formed ([parsed_output_sound]).
    - ReferenceRoundtrip: what References renders CompartmentParser reads back, for
      compartments whose texts spell no entity ([renderable],
      [references_parse_back]), and an answer in that form that tiles the chunk is
      stored, its tiers trimmed ([rendered_answer_accepted]).
    - HistorianValidation: hooks/compartment-runner-validation.ts and
      compartment-runner-mapping.ts.  Accepted output tiles the chunk up to where it
      stops and splits no completed arc ([accepted_output_sound]); output with gaps in tool-only
      ranges heals and is accepted ([healed_output_accepted]).
    - LkgSlots: hooks/lkg-slot.ts and shared/bounded-session-map.ts.  The byte
      ledger and eviction order of the slots ([slot_ledger]) and incremental
      digests equal to a full recomputation ([incremental_digests_full]).

    Tags and reclaiming space:

    - Tagger: features/tagger.ts and the statements of features/storage-tags.ts
      it runs, over a database that other connections add to between any two
      statements and whose statements may fail.  The other connections insert,
      adopt and backfill tags and raise counters; the writers that delete tags or
      move them to other ids (event-handler.ts, storage-tags.ts,
      storage-meta-session.ts) are not among them.  The tagger refines an atomic
      allocation ([tagger_refines]), its answers agree ([answers_agree]) and
      every request is answered ([requests_answered]).
    - Reclaim: hooks/emergency-drop.ts and the tag-reclaim, supersession and
      edit planners.  Emergency drops take whole tiers in order until enough is
      reclaimed ([emergency_plan]); the newest calls are kept
      ([newest_calls_kept]).

    Models and their limits:

    - ModelKeys: shared/model-aliases and the lookup keys of model
      configurations.  Names different harnesses give a model are interchangeable
      ([aliases_resolve_alike]) and the most specific key wins
      ([most_specific_key]).
    - WindowGeometry: shared/window-geometry.ts.  Soft and hard windows are
      ordered, bounded below and capped by a detected limit ([geometry_bounds]); the legacy limit is
      the geometry's ([legacy_limit_agrees]).
    - ModelLimits: shared/models-dev-cache.ts.  What a process learns of the models
      survives a restart ([limits_survive_restart]); after a failure of
      authentication one refresh runs at a time, and a failed one is tried again
      ([auth_refresh_single]).
    - Thresholds: hooks/event-resolvers.ts and features/scheduler.ts.  The execute
      threshold is bounded ([execute_threshold_bounded]) and the scheduler decides
      by it and by the age of the cache ([scheduler_decides]).

    Session state:

    - SessionRow: the rows of session_meta with their defaults and constraints, and
      the statements on them.
    - SessionMeta: the scalar columns of features/storage-meta-persisted.ts.  A
      recovery whose write fails is still remembered, and ends in memory only with
      its row ([recovery_fails_closed]); a
      nudge is settled by the claim that holds it ([channel2_delivers_once]); a
      live wrap-up lease is not taken over ([wrapup_lease_exclusive]); reservations
      keep to the drain budget ([drain_budget_respected]).
    - SessionBlobs: the columns of that file that hold JSON.  A compare-and-swap
      merge acts at one instant or not at all ([cas_update_linearizes]).
    - SessionCalls: all calls of both files as one list.  Ids of stripped messages
      are never taken back, whatever calls interleave ([frozen_ids_never_shrink]);
      the compaction markers are slots of one marker ([pending_markers_refine]).

    Background work:

    - Leases: features/compartment-lease.ts, dreamer/lease.ts and
      dreamer/storage-dream-state.ts.  Mutual exclusion over every interleaving
      ([compartment_lease_exclusive], [dream_lease_exclusive]) and fencing of
      stale holders by generation ([stale_holder_fenced]).
    - TaskScheduler: features/dreamer/task-scheduler.ts and its statements, over a
      database other processes write to.  Tasks follow their schedules
      ([schedules_followed]), a due slot runs a bounded number of times
      ([slot_runs_bounded]), and a group gives its lease back however it ends
      ([group_releases_lease]).
    - Cron: features/dreamer/cron.ts.  The next due instant is the first one, and
      the bounded search always decides ([next_due_is_first]).
    - SmartNotes: features/smart-notes (reducer, schedule, evaluator) and the
      smart-note statements of its storage.  An evaluation commits only onto the
      state it started from ([evaluation_fenced]), the lifecycle keeps its
      invariant ([lifecycle_invariant]) and a pending note is always selected by
      one of the passes ([pending_selected]).
    - Ssrf: features/smart-notes/ssrf-guard.ts.  A guarded request goes to the host
      of its URL at globally reachable addresses only ([guarded_requests_global],
      [ipv4_guard_decides]) and its response is bounded ([response_bounded]).

    Search:

    - MessageIndex: features/message-index.ts and the jobs of
      features/message-index-async.ts, over a database any access to which may fail.
      The full-text index answers for what it claims to cover ([index_covers]);
      reconciliation ends with the index of the session ([reconciliation_completes]).
    - SearchBounds: features/search-bounds.ts.  Query caps and UTF-8 slices
      ([automatic_query_accepted]).
    - TextSplitter: the recursive character splitter.
    - EmbeddingChunks: the windows of features/compartment-chunk-embedding.ts.
      Windows keep the text in order and within the limits ([windows_keep_text],
      [indexed_windows_ordered]).
    - SearchPool: the store and the decoded pool of the same file, over a database
      others change.  What a search answers are the stored rows
      ([search_pool_coherent]); replaced windows are current
      ([replaced_windows_current]).
    - SearchTrace: features/search-trace.ts.  The accounting of a trace is exact
      ([trace_accounting]) and recorded traces pass it
      ([recorded_traces_analyzed]).

    ** How the parts meet

    TokenEstimate supplies the tool arcs and the fence to Boundary, and the cache
    to TokenIndex; TokenIndex is the index Boundary walks; SessionText decides
    which user messages count in Boundary and SessionChunk and defines the lines
    HistorianValidation checks; [chunk_covers] proves that the chunk SessionChunk
    reads passes the coverage check of HistorianValidation, whose input
    CompartmentParser reads out of the model's answer; Budgets gives Boundary
    its trigger budget and bands; WireProtocol's headers are what FrameChannel's
    rules judge.  CompartmentTrigger inspects the tail that SessionSource reads with
    RawSession's readers, resolves its boundary with Boundary (whose snapshots are
    ordered, [live_snapshot_ordered]) under the policy row of SessionMeta, and reads
    its chunk with SessionChunk.  RawSession's readers are also the source of
    MessageIndex, which cleans their texts with SessionText.  Reclaim plans over the tag rows of Tagger.
    TaskScheduler takes its due instants from Cron and its leases from Leases; it,
    the session state, MessageIndex and CompartmentTrigger run over Access.  EmbeddingChunks cuts
    with SearchBounds' UTF-8 slices and TextSplitter, and SearchPool stores its
    windows.  Thresholds asks ModelLimits and WindowGeometry for a model's window
    under the keys of ModelKeys; SessionMeta normalises the model of a detected limit
    with ModelKeys and takes the force band of Budgets for the emergency latch.

    ** Conventions

    - Integers (ordinals, byte counts, instants in milliseconds) are Z; numbers
      that come from division, percentages, configuration or JSON are doubles.
      Where a function truncates to 32 bits or multiplies modulo 2^32 that is
      written out.
    - Strings are sequences of 8-bit code units; FrameChannel's writer,
      SearchBounds, TextSplitter and EmbeddingChunks, where surrogates matter,
      work on lists of 16-bit units.
    - A function that mutates an object or a module variable takes the state and
      returns the new one; one that throws returns a result or an option.  Calls on
      a shared database use the monad of Access, the tagger one of its own, with the
      memory of the process and a script of what the other connections do.
    - Loops over lists are recursion on the list.  The others carry fuel, chosen
      from the loop's measure: the size of the searched interval (TokenIndex,
      SearchBounds), one unit per arc plus one (the fences), one per code unit
      (text scanners, splitters), per minute up to the cap (Cron), per attempt
      (Tagger), per unit left (JsRegExp), per turn (References), per span (SearchTrace), per message (MessageIndex).  Each theorem states the exact result, so
      running out of fuel would falsify it.
    - Third-party or host facilities are parameters: the tokenizer, the printing
      and reading of numerals, JSON.parse in SmartNotes, SHA-256, the local time zone, URL parsing and name
      resolution, ArrayBuffer transfer, the clock readings and the rows a
      database returns.

    ** Not modelled

    The SQL layer apart from the rows of the host's messages, the leases, the task
    schedule, tags, pending operations, session state, smart notes, chunk embeddings
    and the message index; deletions and re-keying of tags and moves of sessions between projects; the bodies and
    the gates of the dreamer's tasks (arguments of TaskScheduler); the timers that
    decide when a job of MessageIndex runs; transport and process management of the
    host client; the prompts of the historian and its calls to the model; the context transform; the search lanes
    themselves; the terminal and Pi front ends; and the Rust daemon.  Values are
    finite trees: cycles, which stable-json.ts and lkg-slot.ts guard against, cannot
    be expressed.

    ** What could follow

    The nudges; the gates of the dreamer's tasks; the rendering of compartments
    into the prompt (hooks/decay-render.ts); and the context transform. *)

From stdpp Require Export base tactics option list list_numbers gmap strings fin_maps.
From Stdlib Require Export ZArith Lia.

#[global] Open Scope Z_scope.

(** ** Results of fallible code

    A JavaScript function that throws returns an [Err] carrying the thrown
    error; [←] chains fallible steps the way consecutive statements do. *)
Inductive result (E A : Type) : Type :=
| Ok (a : A)
| Err (e : E).
Arguments Ok {E A} _.
Arguments Err {E A} _.

#[export] Instance result_ret {E} : MRet (result E) := fun A a => Ok a.
#[export] Instance result_bind {E} : MBind (result E) :=
  fun A B f m => match m with Ok a => f a | Err e => Err e end.

(** [throw_if b e] is the statement [if (b) throw e;]. *)
Definition throw_if {E} (b : bool) (e : E) : result E unit :=
  if b then Err e else Ok ().

Definition is_ok {E A} (r : result E A) : bool :=
  match r with Ok _ => true | Err _ => false end.

(** [xs[i]] of a JavaScript array for an integer [i]: [undefined] out of range. *)
Definition at_index {A} (l : list A) (i : Z) : option A :=
  if i <? 0 then None else l !! Z.to_nat i.

(** [Array.prototype.slice(0, n)] and [slice(n)] for a non-negative [n]. *)
Definition slice_to {A} (n : Z) (l : list A) : list A := take (Z.to_nat n) l.
Definition slice_from {A} (n : Z) (l : list A) : list A := drop (Z.to_nat n) l.

(** [length] as the integer the code computes with. *)
Definition lengthZ {A} (l : list A) : Z := Z.of_nat (length l).

(** [Array.prototype.reduce((s, x) => s + f(x), 0)]. *)
Definition sumZ {A} (f : A → Z) (l : list A) : Z :=
  fold_right (fun x s => f x + s) 0 l.

(** [ToInt32] and [ToUint32], which the bitwise operators apply. *)
Definition uint32 (z : Z) : Z := z mod 2 ^ 32.
Definition int32 (z : Z) : Z := (z + 2 ^ 31) mod 2 ^ 32 - 2 ^ 31.

(** ** Automation *)

(** Case analysis on the tests a hypothesis about the code branched on. *)
Ltac case_hyp H :=
  match type of H with
  | context [match ?x with _ => _ end] =>
      lazymatch x with
      | context [match _ with _ => _ end] => fail
      | _ => destruct x eqn:?
      end
  end.

Ltac case_goal :=
  match goal with
  | |- context [match ?x with _ => _ end] =>
      lazymatch x with
      | context [match _ with _ => _ end] => fail
      | _ => destruct x eqn:?
      end
  end.

(** Turns the boolean connectives of hypotheses into propositions. *)
Ltac bool_hyps :=
  repeat match goal with
  | H : _ && _ = true |- _ => apply andb_true_iff in H as [? ?]
  | H : _ || _ = false |- _ => apply orb_false_iff in H as [? ?]
  | H : negb _ = true |- _ => apply negb_true_iff in H
  | H : negb _ = false |- _ => apply negb_false_iff in H
  end.

(** A throwing step that did not throw: its guard was false. *)
Lemma throw_if_ok {E} (b : bool) (e : E) u : throw_if b e = Ok u → b = false.
Proof. destruct b; [discriminate | done]. Qed.

Lemma throw_if_bind_ok {E A} (b : bool) (e : E) (k : result E A) a :
  (throw_if b e ≫= fun _ => k) = Ok a ↔ b = false ∧ k = Ok a.
Proof. destruct b; cbn; firstorder congruence. Qed.

Lemma throw_if_err {E} (b : bool) (e e' : E) : throw_if b e = Err e' ↔ b = true ∧ e' = e.
Proof. destruct b; cbn; firstorder congruence. Qed.

Lemma throw_if_bind_err {E A} (b : bool) (e e' : E) (k : result E A) :
  (throw_if b e ≫= fun _ => k) = Err e' ↔ (b = true ∧ e' = e) ∨ (b = false ∧ k = Err e').
Proof. destruct b; cbn; firstorder congruence. Qed.

Lemma bind_ok {E A B} (m : result E A) (k : A → result E B) b :
  (m ≫= k) = Ok b ↔ ∃ a, m = Ok a ∧ k a = Ok b.
Proof. destruct m; cbn; split; [eauto|intros (?&?&?); congruence|discriminate|intros (?&?&?); congruence]. Qed.

Lemma is_ok_iff {E A} (r : result E A) : is_ok r = true ↔ ∃ a, r = Ok a.
Proof. destruct r; cbn; split; [eauto|done|discriminate|intros [? ?]; congruence]. Qed.

(** Unfolds a successful chain of throwing steps into its guards and results. *)
Ltac inv_ok :=
  repeat match goal with
  | H : (throw_if _ _ ≫= _) = Ok _ |- _ => apply throw_if_bind_ok in H as [? H]
  | H : throw_if _ _ = Ok _ |- _ => apply throw_if_ok in H
  | H : Ok _ = Err _ |- _ => discriminate H
  | H : (_ ≫= _) = Ok _ |- _ => apply bind_ok in H as (? & ? & H)
  | H : Ok _ = Ok _ |- _ => injection H as H; subst
  | H : mret _ = Ok _ |- _ => injection H as H; subst
  | H : Err _ = Ok _ |- _ => discriminate H
  end.

(** The same for a chain that threw: one case per guard. *)
Ltac inv_err :=
  repeat match goal with
  | H : (throw_if _ _ ≫= _) = Err _ |- _ => apply throw_if_bind_err in H as [[? ?]|[? H]]; simplify_eq
  | H : throw_if _ _ = Err _ |- _ => apply throw_if_err in H as [? ?]; simplify_eq
  | H : Err _ = Err _ |- _ => injection H as H; subst
  | H : Ok _ = Err _ |- _ => discriminate H
  | H : mret _ = Err _ |- _ => discriminate H
  end.

(** ** Lists and sums *)

Lemma sumZ_cons {A} (f : A → Z) x l : sumZ f (x :: l) = f x + sumZ f l.
Proof. done. Qed.

Lemma sumZ_app {A} (f : A → Z) l1 l2 : sumZ f (l1 ++ l2) = sumZ f l1 + sumZ f l2.
Proof. unfold sumZ. induction l1; cbn; lia. Qed.

Lemma sumZ_nonneg {A} (f : A → Z) l : (∀ x, x ∈ l → 0 ≤ f x) → 0 ≤ sumZ f l.
Proof.
  unfold sumZ. induction l as [|x l IH]; cbn; intros Hf; [done|].
  specialize (IH ltac:(set_solver)). specialize (Hf x ltac:(set_solver)). lia.
Qed.

Lemma sumZ_ext {A} (f g : A → Z) l : (∀ x, x ∈ l → f x = g x) → sumZ f l = sumZ g l.
Proof.
  unfold sumZ. induction l as [|x l IH]; cbn; intros Hf; [done|].
  rewrite (Hf x) by set_solver. rewrite IH by set_solver. done.
Qed.

Lemma lengthZ_app {A} (l1 l2 : list A) : lengthZ (l1 ++ l2) = lengthZ l1 + lengthZ l2.
Proof. unfold lengthZ. rewrite length_app. lia. Qed.

Lemma lengthZ_cons {A} (x : A) l : lengthZ (x :: l) = 1 + lengthZ l.
Proof. unfold lengthZ. cbn. lia. Qed.

Lemma lengthZ_nonneg {A} (l : list A) : 0 ≤ lengthZ l.
Proof. unfold lengthZ. lia. Qed.

Lemma take_all_same {A} n (l : list A) : (length l ≤ n)%nat → take n l = l.
Proof. apply take_ge. Qed.

Lemma filter_none {A} (P : A → Prop) `{∀ x, Decision (P x)} (l : list A) :
  (∀ x, x ∈ l → ¬ P x) → filter P l = [].
Proof.
  induction l as [|x l IH]; intros HP; [done|].
  rewrite filter_cons_False by (apply HP; left). apply IH. intros y Hy. apply HP. by right.
Qed.

Lemma filter_all {A} (P : A → Prop) `{∀ x, Decision (P x)} (l : list A) :
  (∀ x, x ∈ l → P x) → filter P l = l.
Proof.
  induction l as [|x l IH]; intros HP; [done|].
  rewrite filter_cons_True by (apply HP; left). f_equal. apply IH. intros y Hy. apply HP. by right.
Qed.

(** ** Bit fields *)

(** Setting the low bits of a number whose low bits are clear adds them. *)
Lemma lor_low_bits h b k : 0 ≤ k → 0 ≤ b < 2 ^ k → Z.lor (h * 2 ^ k) b = h * 2 ^ k + b.
Proof.
  intros Hk Hb. rewrite <- (Z.add_lor_land (h * 2 ^ k) b).
  assert (Z.land (h * 2 ^ k) b = 0) as ->; [|lia].
  apply Z.bits_inj'. intros n Hn. rewrite Z.land_spec, Z.bits_0.
  destruct (Z.lt_ge_cases n k).
  - by rewrite Z.mul_pow2_bits_low.
  - assert (Z.testbit b n = false) as ->; [|apply andb_false_r].
    apply Z.testbit_false; [done|]. rewrite Z.div_small; [done|].
    split; [lia|]. apply Z.lt_le_trans with (2 ^ k); [lia|]. apply Z.pow_le_mono_r; lia.
Qed.

(** Masking with ones is a remainder. *)
Lemma land_ones_mod a k : 0 ≤ k → Z.land a (2 ^ k - 1) = a mod 2 ^ k.
Proof. intros. by rewrite <- Z.land_ones, Z.ones_equiv, Z.sub_1_r by done. Qed.

Lemma int32_small z : - 2 ^ 31 ≤ z < 2 ^ 31 → int32 z = z.
Proof. intros ?. unfold int32. rewrite Z.mod_small; lia. Qed.

Create HintDb magic discriminated.
#[export] Hint Resolve lengthZ_nonneg : magic.
