(* ===== verification/JsNumber.v ===== *)
(** * JavaScript numbers

    A JavaScript [number] is an IEEE 754 binary64 value.  [num] is the
    specification type of the Standard Library's [SpecFloat] at precision 53
    and exponent bound 1024, so every arithmetic operation rounds the way the
    engine's does, and NaN and the infinities are values like any other. *)

From S2P Require Import Prelude.
From Stdlib Require Import SpecFloat.

Abbreviation num := spec_float.

Definition NaN : num := S754_nan.
Definition PosInf : num := S754_infinity false.

Definition nadd : num → num → num := SFadd 53 1024.
Definition nsub : num → num → num := SFsub 53 1024.
Definition nmul : num → num → num := SFmul 53 1024.
Definition ndiv : num → num → num := SFdiv 53 1024.
Definition nltb : num → num → bool := SFltb.
Definition nleb : num → num → bool := SFleb.
Definition neqb : num → num → bool := SFeqb.

(** The double nearest to an integer; exact up to 2^53. *)
Definition nofZ (z : Z) : num := binary_normalize 53 1024 z 0 false.

(** The double a decimal literal [p/q] denotes, for [p] and [q] below 2^53. *)
Definition nlit (p q : Z) : num := ndiv (nofZ p) (nofZ q).

Definition isNaN (x : num) : bool :=
  match x with S754_nan => true | _ => false end.

(** [Number.isFinite]. *)
Definition isFinite (x : num) : bool :=
  match x with S754_nan | S754_infinity _ => false | _ => true end.

(** The largest integer not above a finite number; 0 for the others. *)
Definition floorZ (x : num) : Z :=
  match x with
  | S754_finite s m e =>
      let v := if s then Zneg m else Zpos m in
      if 0 <=? e then v * 2 ^ e else v / 2 ^ (- e)
  | _ => 0
  end.

(** The finite number is an integer. *)
Definition is_integral (x : num) : bool :=
  match x with
  | S754_finite s m e => (0 <=? e) || (Zpos m mod 2 ^ (- e) =? 0)
  | S754_zero _ => true
  | _ => false
  end.

(** [Math.floor]: a zero keeps its sign. *)
Definition nfloor (x : num) : num :=
  match x with S754_finite _ _ _ => nofZ (floorZ x) | _ => x end.

(** [Math.ceil]: a negative number above -1 gives -0. *)
Definition nceil (x : num) : num :=
  match x with
  | S754_finite s m e =>
      let z := - floorZ (S754_finite (negb s) m e) in
      if z =? 0 then S754_zero s else nofZ z
  | _ => x
  end.

(** [Math.round]: the nearest integer, halves towards +Infinity. *)
Definition roundZ (x : num) : Z :=
  match x with
  | S754_finite s m e =>
      let v := if s then Zneg m else Zpos m in
      if 0 <=? e then v * 2 ^ e else (2 * v + 2 ^ (- e)) / 2 ^ (1 - e)
  | _ => 0
  end.

Definition nround (x : num) : num :=
  match x with
  | S754_finite s _ _ => if roundZ x =? 0 then S754_zero s else nofZ (roundZ x)
  | _ => x
  end.

(** [Math.max] and [Math.min] of two arguments: NaN is contagious and +0 is
    above -0. *)
Definition nmax (x y : num) : num :=
  match x, y with
  | S754_nan, _ | _, S754_nan => S754_nan
  | S754_zero s, S754_zero t => S754_zero (s && t)
  | _, _ => if nltb x y then y else x
  end.

Definition nmin (x y : num) : num :=
  match x, y with
  | S754_nan, _ | _, S754_nan => S754_nan
  | S754_zero s, S754_zero t => S754_zero (s || t)
  | _, _ => if nltb y x then y else x
  end.

(** [Number.MAX_SAFE_INTEGER]. *)
Definition MAX_SAFE_INTEGER : Z := 2 ^ 53 - 1.

(** [Number.isSafeInteger]. *)
Definition isSafeInteger (x : num) : bool :=
  is_integral x && (Z.abs (floorZ x) <=? MAX_SAFE_INTEGER).

(** ** Order

    On numbers other than NaN the comparisons are a total preorder: the one of
    a key that puts the infinities outside and orders finite numbers by sign,
    exponent and mantissa. *)

Definition nkey (x : num) : Z * Z * Z :=
  match x with
  | S754_nan => (3, 0, 0)
  | S754_infinity true => (-2, 0, 0)
  | S754_finite true m e => (-1, - e, - Z.pos m)
  | S754_zero _ => (0, 0, 0)
  | S754_finite false m e => (1, e, Z.pos m)
  | S754_infinity false => (2, 0, 0)
  end.

Definition key_le (a b : Z * Z * Z) : Prop :=
  a.1.1 < b.1.1 ∨ a.1.1 = b.1.1 ∧ (a.1.2 < b.1.2 ∨ a.1.2 = b.1.2 ∧ a.2 ≤ b.2).

Definition nle (x y : num) : Prop := isNaN x = false ∧ isNaN y = false ∧ key_le (nkey x) (nkey y).

Lemma pos_compare_cont m1 m2 : Pos.compare_cont Eq m1 m2 = Z.compare (Z.pos m1) (Z.pos m2).
Proof. done. Qed.

Lemma nleb_nle x y : nleb x y = true ↔ nle x y.
Proof.
  unfold nleb, SFleb, nle, key_le.
  destruct x as [s1|s1| |s1 m1 e1], y as [s2|s2| |s2 m2 e2]; cbn;
    try destruct s1; try destruct s2; cbn;
    rewrite ?pos_compare_cont;
    repeat match goal with
    | |- context [Z.compare ?a ?b] => destruct (Z.compare_spec a b)
    end; cbn; intuition (lia || done).
Qed.

Lemma nle_refl x : isNaN x = false → nle x x.
Proof. intros Hx. unfold nle, key_le. rewrite Hx. intuition lia. Qed.

Lemma nle_trans x y z : nle x y → nle y z → nle x z.
Proof. unfold nle, key_le. intuition lia. Qed.

Lemma nle_total x y : isNaN x = false → isNaN y = false → nle x y ∨ nle y x.
Proof.
  intros Hx Hy. unfold nle, key_le. rewrite Hx, Hy.
  destruct (nkey x) as [[a b] c], (nkey y) as [[a' b'] c']. cbn.
  destruct (Z.lt_trichotomy a a') as [?|[?|?]], (Z.lt_trichotomy b b') as [?|[?|?]]; intuition lia.
Qed.

Lemma nltb_nle x y : isNaN x = false → isNaN y = false → nltb x y = false → nle y x.
Proof.
  intros Hx Hy. unfold nltb, SFltb, nle, key_le. rewrite Hx, Hy.
  destruct x as [s1|s1| |s1 m1 e1], y as [s2|s2| |s2 m2 e2]; cbn in *; try done;
    try destruct s1; try destruct s2; cbn; rewrite ?pos_compare_cont;
    repeat match goal with
    | |- context [Z.compare ?a ?b] => destruct (Z.compare_spec a b)
    end; cbn; intuition (lia || done).
Qed.

Lemma nltb_true_nle x y : nltb x y = true → nle x y.
Proof.
  unfold nltb, SFltb, nle, key_le.
  destruct x as [s1|s1| |s1 m1 e1], y as [s2|s2| |s2 m2 e2]; cbn in *; try done;
    try destruct s1; try destruct s2; cbn; rewrite ?pos_compare_cont;
    repeat match goal with
    | |- context [Z.compare ?a ?b] => destruct (Z.compare_spec a b)
    end; cbn; intuition (lia || done).
Qed.

(** [Math.max] and [Math.min] are NaN exactly when an argument is. *)
Lemma nmax_nan x y : isNaN (nmax x y) = isNaN x || isNaN y.
Proof. destruct x, y; cbn; try done; by case_match. Qed.

Lemma nmin_nan x y : isNaN (nmin x y) = isNaN x || isNaN y.
Proof. destruct x, y; cbn; try done; by case_match. Qed.

Lemma nmax_cases x y :
  isNaN x = false → isNaN y = false →
  nle x (nmax x y) ∧ nle y (nmax x y) ∧
  (nkey (nmax x y) = nkey x ∨ nkey (nmax x y) = nkey y).
Proof.
  intros Hx Hy. destruct x as [s1|s1| |s1 m1 e1] eqn:Ex; try done;
    destruct y as [s2|s2| |s2 m2 e2] eqn:Ey; try done; rewrite <- ?Ex, <- ?Ey in *.
  1: { subst. cbn. unfold nle, key_le. cbn. intuition lia. }
  all: assert (nmax x y = if nltb x y then y else x) as -> by (subst; done).
  all: destruct (nltb x y) eqn:E;
    [apply nltb_true_nle in E|apply nltb_nle in E; [|done|done]];
    auto using nle_refl.
Qed.

Lemma nmin_cases x y :
  isNaN x = false → isNaN y = false →
  nle (nmin x y) x ∧ nle (nmin x y) y ∧
  (nkey (nmin x y) = nkey x ∨ nkey (nmin x y) = nkey y).
Proof.
  intros Hx Hy. destruct x as [s1|s1| |s1 m1 e1] eqn:Ex; try done;
    destruct y as [s2|s2| |s2 m2 e2] eqn:Ey; try done; rewrite <- ?Ex, <- ?Ey in *.
  1: { subst. cbn. unfold nle, key_le. cbn. intuition lia. }
  all: assert (nmin x y = if nltb y x then y else x) as -> by (subst; done).
  all: destruct (nltb y x) eqn:E;
    [apply nltb_true_nle in E|apply nltb_nle in E; [|done|done]];
    auto using nle_refl.
Qed.

Lemma nmax_lub x y z : nle x z → nle y z → nle (nmax x y) z.
Proof.
  intros (Hx & Hz & Hxz) (Hy & _ & Hyz). destruct (nmax_cases x y Hx Hy) as (_ & _ & [E|E]);
    (split; [by rewrite nmax_nan, Hx, Hy|]; by rewrite E).
Qed.

Lemma nmin_glb x y z : nle z x → nle z y → nle z (nmin x y).
Proof.
  intros (Hz & Hx & Hxz) (_ & Hy & Hyz). destruct (nmin_cases x y Hx Hy) as (_ & _ & [E|E]);
    (split; [done|]; split; [by rewrite nmin_nan, Hx, Hy|]; by rewrite E).
Qed.

Lemma nmax_l x y : isNaN x = false → isNaN y = false → nle x (nmax x y).
Proof. intros Hx Hy. apply (nmax_cases x y Hx Hy). Qed.
Lemma nmax_r x y : isNaN x = false → isNaN y = false → nle y (nmax x y).
Proof. intros Hx Hy. apply (nmax_cases x y Hx Hy). Qed.
Lemma nmin_l x y : isNaN x = false → isNaN y = false → nle (nmin x y) x.
Proof. intros Hx Hy. apply (nmin_cases x y Hx Hy). Qed.
Lemma nmin_r x y : isNaN x = false → isNaN y = false → nle (nmin x y) y.
Proof. intros Hx Hy. apply (nmin_cases x y Hx Hy). Qed.

(** Comparing two constants. *)
Ltac nle_const := apply nleb_nle; vm_compute; reflexivity.

#[export] Hint Resolve nmax_lub nmin_glb nmax_l nmax_r nmin_l nmin_r nle_refl : magic.

(** *** Integers up to 2^53 are exact *)

Lemma digits2_size m : digits2_pos m = Pos.size m.
Proof. induction m as [m IH|m IH|]; cbn; by rewrite ?IH. Qed.

Lemma size_bounds m : 2 ^ (Zpos (Pos.size m) - 1) ≤ Zpos m < 2 ^ Zpos (Pos.size m).
Proof.
  pose proof (Pos.size_gt m) as Hgt. pose proof (Pos.size_le m) as Hle.
  apply Pos2Z.pos_lt_pos in Hgt. apply Pos2Z.pos_le_pos in Hle. rewrite Pos2Z.inj_pow in *.
  split; [|done]. change (Z.pos m~0) with (2 * Z.pos m) in Hle.
  pose proof (Z.pow_succ_r 2 (Z.pos (Pos.size m) - 1) ltac:(lia)) as E.
  replace (Z.succ (Z.pos (Pos.size m) - 1)) with (Z.pos (Pos.size m)) in E by lia. lia.
Qed.

Lemma iter_xO m k : Pos.iter xO m k = Pos.shiftl m (Npos k) ∧ Zpos (Pos.iter xO m k) = Zpos m * 2 ^ Zpos k ∧
  Zpos (Pos.size (Pos.iter xO m k)) = Zpos (Pos.size m) + Zpos k.
Proof.
  split; [done|]. induction k as [|k IH] using Pos.peano_ind; [cbn; lia|].
  rewrite Pos.iter_succ. destruct IH as [IH1 IH2]. rewrite Pos2Z.inj_xO, IH1, Pos2Z.inj_succ, Z.pow_succ_r by lia.
  split; [lia|]. cbn [Pos.size]. rewrite Pos2Z.inj_succ, IH2. lia.
Qed.

(** The double of a positive integer below 2^53: its mantissa has 53 bits. *)
Lemma nofZ_pos m : Zpos m < 2 ^ 53 →
  ∃ mz, nofZ (Zpos m) = S754_finite false mz (Zpos (Pos.size m) - 53) ∧
    Zpos mz = Zpos m * 2 ^ (53 - Zpos (Pos.size m)) ∧ Zpos (Pos.size m) ≤ 53.
Proof.
  intros Hm. pose proof (size_bounds m) as Hb.
  assert (Zpos (Pos.size m) ≤ 53) as Hd.
  { destruct (Z.le_gt_cases (Zpos (Pos.size m)) 53); [done|].
    pose proof (Z.pow_le_mono_r 2 53 (Zpos (Pos.size m) - 1)). lia. }
  set (d := Zpos (Pos.size m)) in *.
  assert (∃ mz, shl_align m 0 (fexp 53 1024 (Zpos (digits2_pos m) + 0)) = (mz, d - 53) ∧
    Zpos mz = Zpos m * 2 ^ (53 - d) ∧ Zpos (Pos.size mz) = 53) as (mz & Ea & Ez & Es).
  { rewrite digits2_size. fold d. rewrite Z.add_0_r.
    assert (fexp 53 1024 d = d - 53) as -> by (unfold fexp, emin; lia).
    unfold shl_align. rewrite Z.sub_0_r. destruct (d - 53) as [|p|p] eqn:Ep.
    - exists m. replace (53 - d) with 0 by lia. split_and!; [f_equal; lia|lia|fold d; lia].
    - lia.
    - exists (Pos.iter xO m p). destruct (iter_xO m p) as (_ & E1 & E2).
      replace (53 - d) with (Zpos p) by lia. split_and!; [done|done|rewrite E2; fold d; lia]. }
  exists mz. split_and!; [|done|done]. unfold nofZ, binary_normalize, binary_round.
  rewrite Ea. unfold binary_round_aux.
  assert (shr_fexp 53 1024 (Zpos mz) (d - 53) loc_Exact =
    ({| shr_m := Zpos mz; shr_r := false; shr_s := false |}, d - 53)) as E1.
  { unfold shr_fexp. cbn [Zdigits2]. rewrite digits2_size, Es.
    assert (fexp 53 1024 (53 + (d - 53)) - (d - 53) = 0) as -> by (unfold fexp, emin; lia). done. }
  rewrite E1. cbn [shr_m loc_of_shr_record round_nearest_even]. rewrite E1. cbn [shr_m].
  by rewrite (proj2 (Z.leb_le _ _)) by lia.
Qed.

Lemma floorZ_nofZ n : 0 ≤ n < 2 ^ 53 → floorZ (nofZ n) = n.
Proof.
  intros Hn. destruct n as [|m|m]; [done| |lia].
  destruct (nofZ_pos m) as (mz & -> & Ez & Hd); [lia|]. cbn.
  destruct (0 <=? Z.pos (Pos.size m) - 53) eqn:E.
  - replace (53 - Z.pos (Pos.size m)) with 0 in Ez by lia.
    replace (Z.pos (Pos.size m) - 53) with 0 by lia. cbn in *. lia.
  - replace (- (Z.pos (Pos.size m) - 53)) with (53 - Z.pos (Pos.size m)) by lia.
    rewrite Ez, Z.div_mul; [done|]. apply Z.pow_nonzero; lia.
Qed.

Lemma is_integral_nofZ n : 0 ≤ n < 2 ^ 53 → is_integral (nofZ n) = true.
Proof.
  intros Hn. destruct n as [|m|m]; [done| |lia].
  destruct (nofZ_pos m) as (mz & -> & Ez & Hd); [lia|]. unfold is_integral.
  replace (- (Z.pos (Pos.size m) - 53)) with (53 - Z.pos (Pos.size m)) by lia.
  rewrite Ez, Z.mod_mul by (apply Z.pow_nonzero; lia). apply orb_true_r.
Qed.

Lemma isFinite_nofZ n : 0 ≤ n < 2 ^ 53 → isFinite (nofZ n) = true ∧ isNaN (nofZ n) = false.
Proof.
  intros Hn. destruct n as [|m|m]; [done| |lia].
  by destruct (nofZ_pos m) as (mz & -> & _); [lia|].
Qed.

Lemma nltb_nofZ a b : 0 ≤ a < 2 ^ 53 → 0 ≤ b < 2 ^ 53 → nltb (nofZ a) (nofZ b) = (a <? b).
Proof.
  intros Ha Hb. destruct a as [|a|a], b as [|b|b]; try lia; [done|..].
  - by destruct (nofZ_pos b) as (mz & -> & _); [lia|].
  - by destruct (nofZ_pos a) as (mz & -> & _); [lia|].
  - destruct (nofZ_pos a) as (ma & -> & Ea & Hda); [lia|].
    destruct (nofZ_pos b) as (mb & -> & Eb & Hdb); [lia|].
    pose proof (size_bounds a) as Ba. pose proof (size_bounds b) as Bb.
    unfold nltb, SFltb, SFcompare. rewrite pos_compare_cont, Ea, Eb.
    destruct (Z.compare_spec (Z.pos (Pos.size a) - 53) (Z.pos (Pos.size b) - 53)) as [E|E|E].
    + replace (53 - Z.pos (Pos.size b)) with (53 - Z.pos (Pos.size a)) by lia.
      assert (0 < 2 ^ (53 - Z.pos (Pos.size a))) by (apply Z.pow_pos_nonneg; lia).
      destruct (Z.compare_spec (Z.pos a * 2 ^ (53 - Z.pos (Pos.size a)))
                 (Z.pos b * 2 ^ (53 - Z.pos (Pos.size a)))); symmetry; [apply Z.ltb_ge|apply Z.ltb_lt|apply Z.ltb_ge]; nia.
    + symmetry. apply Z.ltb_lt.
      pose proof (Z.pow_le_mono_r 2 (Z.pos (Pos.size a)) (Z.pos (Pos.size b) - 1)). lia.
    + symmetry. apply Z.ltb_ge.
      pose proof (Z.pow_le_mono_r 2 (Z.pos (Pos.size b)) (Z.pos (Pos.size a) - 1)). lia.
Qed.

Lemma neqb_nofZ a b : 0 ≤ a < 2 ^ 53 → 0 ≤ b < 2 ^ 53 → neqb (nofZ a) (nofZ b) = (a =? b).
Proof.
  intros Ha Hb. pose proof (nltb_nofZ a b Ha Hb) as H1. pose proof (nltb_nofZ b a Hb Ha) as H2.
  unfold neqb, SFeqb. unfold nltb, SFltb in *.
  destruct (isFinite_nofZ a Ha) as [Fa _], (isFinite_nofZ b Hb) as [Fb _].
  assert (SFcompare (nofZ b) (nofZ a) = CompOpp <$> SFcompare (nofZ a) (nofZ b)) as E.
  { clear -Fa Fb. destruct (nofZ a) as [s1|s1| |s1 m1 e1], (nofZ b) as [s2|s2| |s2 m2 e2]; try done; cbn;
      try (by destruct s1); try (by destruct s2). rewrite !pos_compare_cont.
    rewrite (Z.compare_antisym e1 e2), (Z.compare_antisym (Zpos m1) (Zpos m2)).
    destruct s1, s2; try done; destruct (Z.compare e1 e2); try done;
      by destruct (Z.compare (Zpos m1) (Zpos m2)). }
  rewrite E in H2. destruct (SFcompare (nofZ a) (nofZ b)) as [[]|] eqn:Ec; cbn in *.
  - symmetry. apply Z.eqb_eq. lia.
  - symmetry. apply Z.eqb_neq. lia.
  - symmetry. apply Z.eqb_neq. lia.
  - destruct (nofZ a), (nofZ b); done.
Qed.
