(* ===== verification/JsExact.v ===== *)
(** * Exact arithmetic on JavaScript numbers

    The double of [m * 2^e] with [m] below 2^53 is exact, so sums, differences,
    products and comparisons of such numbers are those of the integers, as long as
    the result has 53 bits.  Token counts and the quarters and halves the code
    takes of them are numbers of this kind. *)

From S2P Require Import Prelude JsNumber.
From Stdlib Require Import SpecFloat.

(** The double nearest to [m * 2^e]. *)
Definition dyadic (m e : Z) : num := binary_normalize 53 1024 m e false.

Lemma nofZ_dyadic z : nofZ z = dyadic z 0.
Proof. done. Qed.

(** ** Rounding what needs no rounding *)

(** The mantissa of 53 bits. *)
Definition mantissa (p : positive) : positive := Z.to_pos (Zpos p * 2 ^ (53 - Zpos (Pos.size p))).

Definition exact_record (m : Z) : shr_record := {| shr_m := m; shr_r := false; shr_s := false |}.

Lemma shr_exact n : ∀ q, iter_pos shr_1 n (exact_record (Zpos q * 2 ^ Zpos n)) = exact_record (Zpos q).
Proof.
  assert (∀ z q, z = Zpos q * 2 → shr_1 (exact_record z) = exact_record (Zpos q)) as H1 by (intros ? q ->; by rewrite Z.mul_comm).
  assert (∀ q n, ∃ r, Zpos q * 2 ^ Zpos n = Zpos r) as Hr.
  { intros q k. exists (q * 2 ^ k)%positive. by rewrite Pos2Z.inj_mul, Pos2Z.inj_pow. }
  induction n as [n IH|n IH|]; intros q; cbn [iter_pos].
  - destruct (Hr q n) as [r E]. destruct (Hr r n) as [r' E'].
    rewrite (H1 _ r'); [rewrite <- E', IH, <- E; apply IH|].
    rewrite <- E', <- E. replace (Zpos n~1) with (Zpos n + Zpos n + 1) by lia.
    rewrite !Z.pow_add_r by lia. lia.
  - destruct (Hr q n) as [r E]. replace (Zpos n~0) with (Zpos n + Zpos n) by lia.
    rewrite Z.pow_add_r, Z.mul_assoc, E by lia. rewrite IH, <- E. apply IH.
  - by apply H1.
Qed.

Lemma size_unique p d : 2 ^ (d - 1) ≤ Zpos p < 2 ^ d → Zpos (Pos.size p) = d.
Proof.
  intros Hp. pose proof (size_bounds p) as Hs.
  destruct (Z.lt_trichotomy (Zpos (Pos.size p)) d) as [H|[H|H]]; [|done|].
  - pose proof (Z.pow_le_mono_r 2 (Zpos (Pos.size p)) (d - 1)). lia.
  - pose proof (Z.pow_le_mono_r 2 d (Zpos (Pos.size p) - 1)). lia.
Qed.

Lemma size_scaled m p k : 0 ≤ k → Zpos m = Zpos p * 2 ^ k → Zpos (Pos.size m) = Zpos (Pos.size p) + k.
Proof.
  intros Hk E. apply size_unique. rewrite E. pose proof (size_bounds p) as [H1 H2].
  replace (Zpos (Pos.size p) + k - 1) with (Zpos (Pos.size p) - 1 + k) by lia.
  rewrite !Z.pow_add_r by lia. pose proof (Z.pow_pos_nonneg 2 k). nia.
Qed.

Lemma mantissa_spec p : Zpos (Pos.size p) ≤ 53 →
  Zpos (mantissa p) = Zpos p * 2 ^ (53 - Zpos (Pos.size p)) ∧ Zpos (Pos.size (mantissa p)) = 53.
Proof.
  intros Hd. assert (Zpos (mantissa p) = Zpos p * 2 ^ (53 - Zpos (Pos.size p))) as E.
  { unfold mantissa. rewrite Z2Pos.id; [done|]. pose proof (Z.pow_pos_nonneg 2 (53 - Zpos (Pos.size p))). nia. }
  split; [done|]. rewrite (size_scaled _ p (53 - Zpos (Pos.size p))); [lia|lia|done].
Qed.

Lemma round_aux_exact s m e p k :
  Zpos m = Zpos p * 2 ^ k → 0 ≤ k → Zpos (Pos.size p) ≤ 53 → 53 ≤ Zpos (Pos.size m) →
  -1000 ≤ Zpos (Pos.size m) + e ≤ 1000 →
  binary_round_aux 53 1024 s (Zpos m) e loc_Exact =
    S754_finite s (mantissa p) (Zpos (Pos.size m) + e - 53).
Proof.
  intros E Hk Hp Hm He. destruct (mantissa_spec p Hp) as [Em Es].
  pose proof (size_scaled m p k Hk E) as Ed. unfold binary_round_aux.
  assert (∀ z, shr_fexp 53 1024 (Zpos (mantissa p)) (Zpos (Pos.size m) + e - 53) z =
               (shr_record_of_loc (Zpos (mantissa p)) z, Zpos (Pos.size m) + e - 53)) as E2.
  { intros z. unfold shr_fexp. cbn [Zdigits2]. rewrite (digits2_size (mantissa p)), Es.
    assert (fexp 53 1024 (53 + (Zpos (Pos.size m) + e - 53)) - (Zpos (Pos.size m) + e - 53) = 0) as ->
      by (unfold fexp, emin; lia). done. }
  assert (shr_fexp 53 1024 (Zpos m) e loc_Exact = (exact_record (Zpos (mantissa p)), Zpos (Pos.size m) + e - 53)) as E1.
  { unfold shr_fexp. cbn [Zdigits2]. rewrite (digits2_size m).
    assert (fexp 53 1024 (Zpos (Pos.size m) + e) - e = Zpos (Pos.size m) - 53) as -> by (unfold fexp, emin; lia).
    destruct (Zpos (Pos.size m) - 53) as [|n|n] eqn:En; [| |lia].
    - assert (Zpos m = Zpos (mantissa p)) as -> by (rewrite Em, E; f_equal; f_equal; lia).
      unfold shr, exact_record. cbn [shr_record_of_loc]. f_equal. lia.
    - unfold shr. cbn [shr_record_of_loc]. replace (Zpos m) with (Zpos (mantissa p) * 2 ^ Zpos n).
      + change {| shr_m := ?z; shr_r := false; shr_s := false |} with (exact_record z). rewrite shr_exact. f_equal. lia.
      + rewrite Em, E, <- Z.mul_assoc, <- Z.pow_add_r by lia. f_equal. f_equal. lia. }
  rewrite E1. cbn [exact_record shr_m loc_of_shr_record round_nearest_even]. rewrite E2. cbn [shr_record_of_loc shr_m].
  by rewrite (proj2 (Z.leb_le _ _)) by lia.
Qed.

Lemma round_exact s m e p k :
  Zpos m = Zpos p * 2 ^ k → 0 ≤ k → Zpos (Pos.size p) ≤ 53 → -1000 ≤ Zpos (Pos.size m) + e ≤ 1000 →
  binary_round 53 1024 s m e = S754_finite s (mantissa p) (Zpos (Pos.size m) + e - 53).
Proof.
  intros E Hk Hp He. unfold binary_round. rewrite (digits2_size m).
  assert (fexp 53 1024 (Zpos (Pos.size m) + e) = Zpos (Pos.size m) + e - 53) as -> by (unfold fexp, emin; lia).
  unfold shl_align. destruct (Zpos (Pos.size m) + e - 53 - e) as [|n|n] eqn:En.
  - rewrite (round_aux_exact s m e p k); [done|done|done|done|lia|lia].
  - rewrite (round_aux_exact s m e p k); [done|done|done|done|lia|lia].
  - destruct (iter_xO m n) as (_ & E1 & E2).
    rewrite (round_aux_exact s _ _ p (k + Zpos n)).
    + rewrite E2. f_equal. lia.
    + rewrite E1, E, Z.pow_add_r by lia. lia.
    + lia.
    + done.
    + lia.
    + rewrite E2. lia.
Qed.

(** ** Exact numbers *)

Lemma size_small p : Zpos p < 2 ^ 53 → Zpos (Pos.size p) ≤ 53.
Proof.
  intros Hp. pose proof (size_bounds p) as [H1 _].
  destruct (Z.le_gt_cases (Zpos (Pos.size p)) 53); [done|].
  pose proof (Z.pow_le_mono_r 2 53 (Zpos (Pos.size p) - 1)). lia.
Qed.

Lemma dyadic_pos p e : Zpos p < 2 ^ 53 → -900 ≤ e ≤ 900 →
  dyadic (Zpos p) e = S754_finite false (mantissa p) (Zpos (Pos.size p) + e - 53).
Proof.
  intros Hp He. pose proof (size_small p Hp). unfold dyadic, binary_normalize.
  apply (round_exact false p e p 0); [lia|done|done|lia].
Qed.

(** Zeros at the end of the integer can move to the exponent, also where there are
    more bits than a double holds. *)
Lemma dyadic_scale z k e : 0 ≤ z < 2 ^ 53 → 0 ≤ k ≤ 100 → -800 ≤ e ≤ 800 →
  dyadic (z * 2 ^ k) e = dyadic z (e + k).
Proof.
  intros Hz Hk He. destruct z as [|p|p]; [done| |lia].
  assert (∃ m, Zpos p * 2 ^ k = Zpos m) as [m E].
  { pose proof (Z.pow_pos_nonneg 2 k). destruct (Zpos p * 2 ^ k) as [|m|m] eqn:Em; [nia|by exists m|nia]. }
  pose proof (size_small p ltac:(lia)) as Hp. pose proof (size_scaled m p k ltac:(lia) (eq_sym E)) as Ed.
  rewrite dyadic_pos, E by lia. unfold dyadic, binary_normalize.
  rewrite (round_exact false m e p k); [|done|lia|lia|lia]. f_equal. lia.
Qed.

Lemma align_exact p e ez : Zpos p < 2 ^ 53 → ez ≤ Zpos (Pos.size p) + e - 53 →
  Zpos (shl_align (mantissa p) (Zpos (Pos.size p) + e - 53) ez).1 = Zpos p * 2 ^ (e - ez).
Proof.
  intros Hp Hez. pose proof (size_small p Hp) as Hd. destruct (mantissa_spec p Hd) as [Em _].
  unfold shl_align. destruct (ez - (Zpos (Pos.size p) + e - 53)) as [|n|n] eqn:En; [|lia|].
  - cbn [fst]. rewrite Em. f_equal. f_equal. lia.
  - cbn [fst]. destruct (iter_xO (mantissa p) n) as (_ & E1 & _).
    rewrite E1, Em, <- Z.mul_assoc, <- Z.pow_add_r by lia. f_equal. f_equal. lia.
Qed.

Lemma size_pos p : 1 ≤ Zpos (Pos.size p).
Proof. lia. Qed.

Lemma sub_dyadic a b e : 0 ≤ b ≤ a → a < 2 ^ 53 → -600 ≤ e ≤ 600 →
  nsub (dyadic a e) (dyadic b e) = dyadic (a - b) e.
Proof.
  intros Hb Ha He. destruct b as [|b|b]; [| |lia].
  - rewrite Z.sub_0_r. destruct a as [|a|a]; [done| |lia]. by rewrite dyadic_pos by lia.
  - destruct a as [|a|a]; [lia| |lia]. pose proof (size_small a Ha). pose proof (size_small b ltac:(lia)).
    pose proof (size_pos a). pose proof (size_pos b).
    rewrite !dyadic_pos by lia. cbn [nsub SFsub cond_Zopp].
    set (ez := Z.min _ _). rewrite !align_exact by lia. rewrite <- Z.mul_sub_distr_r.
    change (binary_normalize 53 1024 ((Zpos a - Zpos b) * 2 ^ (e - ez)) ez false)
      with (dyadic ((Zpos a - Zpos b) * 2 ^ (e - ez)) ez).
    rewrite dyadic_scale by lia. f_equal. lia.
Qed.

Lemma add_dyadic a b e : 0 ≤ a → 0 ≤ b → a + b < 2 ^ 53 → -600 ≤ e ≤ 600 →
  nadd (dyadic a e) (dyadic b e) = dyadic (a + b) e.
Proof.
  intros Ha Hb Hab He. destruct b as [|b|b]; [| |lia].
  - rewrite Z.add_0_r. destruct a as [|a|a]; [done| |lia]. by rewrite dyadic_pos by lia.
  - destruct a as [|a|a]; [by rewrite Z.add_0_l, dyadic_pos by lia| |lia].
    pose proof (size_small a ltac:(lia)). pose proof (size_small b ltac:(lia)).
    pose proof (size_pos a). pose proof (size_pos b).
    rewrite !dyadic_pos by lia. cbn [nadd SFadd cond_Zopp].
    set (ez := Z.min _ _). rewrite !align_exact by lia. rewrite <- Z.mul_add_distr_r.
    change (binary_normalize 53 1024 ((Zpos a + Zpos b) * 2 ^ (e - ez)) ez false)
      with (dyadic ((Zpos a + Zpos b) * 2 ^ (e - ez)) ez).
    rewrite dyadic_scale by lia. f_equal. lia.
Qed.

Lemma mul_dyadic a b e f : 0 ≤ a < 2 ^ 53 → 0 ≤ b < 2 ^ 53 → a * b < 2 ^ 53 → -300 ≤ e ≤ 300 → -300 ≤ f ≤ 300 →
  nmul (dyadic a e) (dyadic b f) = dyadic (a * b) (e + f).
Proof.
  intros Ha Hb Hab He Hf. destruct a as [|a|a]; [| |lia].
  { destruct b as [|b|b]; [done| |lia]. by rewrite (dyadic_pos b) by lia. }
  destruct b as [|b|b]; [| |lia].
  { rewrite (dyadic_pos a), Z.mul_0_r by lia. done. }
  destruct Ha as [_ Ha]. destruct Hb as [_ Hb].
  pose proof (size_small a Ha). pose proof (size_small b Hb). pose proof (size_pos a). pose proof (size_pos b).
  destruct (mantissa_spec a) as [Ea _]; [done|]. destruct (mantissa_spec b) as [Eb _]; [done|].
  change (Zpos a * Zpos b) with (Zpos (a * b)) in *. pose proof (size_small _ Hab).
  rewrite !dyadic_pos by lia. cbn [nmul SFmul xorb].
  set (k := 106 - Zpos (Pos.size a) - Zpos (Pos.size b)).
  assert (Zpos (mantissa a * mantissa b) = Zpos (a * b) * 2 ^ k) as E.
  { rewrite !Pos2Z.inj_mul, Ea, Eb. replace k with (53 - Zpos (Pos.size a) + (53 - Zpos (Pos.size b))) by lia.
    rewrite Z.pow_add_r by lia. lia. }
  pose proof (size_scaled _ _ k ltac:(lia) E) as Ed.
  assert (Zpos (Pos.size a) + Zpos (Pos.size b) - 1 ≤ Zpos (Pos.size (a * b))) as Hs.
  { pose proof (size_bounds a) as [A1 A2]. pose proof (size_bounds b) as [B1 B2].
    pose proof (size_bounds (a * b)) as [_ C].
    destruct (Z.le_gt_cases (Zpos (Pos.size a) + Zpos (Pos.size b) - 1) (Zpos (Pos.size (a * b)))); [done|].
    pose proof (Z.pow_le_mono_r 2 (Zpos (Pos.size (a * b))) (Zpos (Pos.size a) - 1 + (Zpos (Pos.size b) - 1))).
    assert (2 ^ (Zpos (Pos.size a) - 1 + (Zpos (Pos.size b) - 1)) ≤ Zpos (a * b)); [|lia].
    rewrite Z.pow_add_r, Pos2Z.inj_mul by lia. apply Z.mul_le_mono_nonneg; try lia; apply Z.pow_nonneg; lia. }
  rewrite (round_aux_exact false _ _ (a * b) k); [f_equal; lia|done|lia|done|lia|lia].
Qed.

(** ** Comparing and rounding *)

Lemma nltb_dyadic a b e : 0 ≤ a < 2 ^ 53 → 0 ≤ b < 2 ^ 53 → -600 ≤ e ≤ 600 →
  nltb (dyadic a e) (dyadic b e) = (a <? b).
Proof.
  intros Ha Hb He. destruct a as [|a|a], b as [|b|b]; try lia; [done|..].
  - by rewrite (dyadic_pos b) by lia.
  - by rewrite (dyadic_pos a) by lia.
  - pose proof (size_bounds a) as Ba. pose proof (size_bounds b) as Bb.
    pose proof (size_small a ltac:(lia)) as Hda. pose proof (size_small b ltac:(lia)) as Hdb.
    destruct (mantissa_spec a Hda) as [Ea _]. destruct (mantissa_spec b Hdb) as [Eb _].
    rewrite !dyadic_pos by lia. unfold nltb, SFltb, SFcompare. rewrite pos_compare_cont, Ea, Eb.
    destruct (Z.compare_spec (Zpos (Pos.size a) + e - 53) (Zpos (Pos.size b) + e - 53)) as [E|E|E].
    + replace (53 - Zpos (Pos.size b)) with (53 - Zpos (Pos.size a)) by lia.
      assert (0 < 2 ^ (53 - Zpos (Pos.size a))) by (apply Z.pow_pos_nonneg; lia).
      destruct (Z.compare_spec (Zpos a * 2 ^ (53 - Zpos (Pos.size a)))
                 (Zpos b * 2 ^ (53 - Zpos (Pos.size a)))); symmetry; [apply Z.ltb_ge|apply Z.ltb_lt|apply Z.ltb_ge]; nia.
    + symmetry. apply Z.ltb_lt. pose proof (Z.pow_le_mono_r 2 (Zpos (Pos.size a)) (Zpos (Pos.size b) - 1)). lia.
    + symmetry. apply Z.ltb_ge. pose proof (Z.pow_le_mono_r 2 (Zpos (Pos.size b)) (Zpos (Pos.size a) - 1)). lia.
Qed.

Lemma nmin_dyadic a b e : 0 ≤ a < 2 ^ 53 → 0 ≤ b < 2 ^ 53 → -600 ≤ e ≤ 600 →
  nmin (dyadic a e) (dyadic b e) = dyadic (Z.min a b) e.
Proof.
  intros Ha Hb He. assert (nmin (dyadic a e) (dyadic b e) =
    if nltb (dyadic b e) (dyadic a e) then dyadic b e else dyadic a e) as ->.
  { destruct a as [|a|a], b as [|b|b]; try lia; rewrite ?dyadic_pos by lia; done. }
  rewrite nltb_dyadic by done. destruct (Z.ltb_spec b a); f_equal; lia.
Qed.

Lemma nmax_dyadic a b e : 0 ≤ a < 2 ^ 53 → 0 ≤ b < 2 ^ 53 → -600 ≤ e ≤ 600 →
  nmax (dyadic a e) (dyadic b e) = dyadic (Z.max a b) e.
Proof.
  intros Ha Hb He. assert (nmax (dyadic a e) (dyadic b e) =
    if nltb (dyadic a e) (dyadic b e) then dyadic b e else dyadic a e) as ->.
  { destruct a as [|a|a], b as [|b|b]; try lia; rewrite ?dyadic_pos by lia; done. }
  rewrite nltb_dyadic by done. destruct (Z.ltb_spec a b); f_equal; lia.
Qed.

Lemma nfloor_dyadic a k : 0 ≤ a < 2 ^ 53 → 0 ≤ k ≤ 50 → nfloor (dyadic a (- k)) = nofZ (a / 2 ^ k).
Proof.
  intros Ha Hk. destruct a as [|a|a]; [by rewrite Z.div_0_l by (apply Z.pow_nonzero; lia)| |lia].
  pose proof (size_small a ltac:(lia)) as Hd. destruct (mantissa_spec a Hd) as [Em _].
  rewrite dyadic_pos by lia. cbn [nfloor]. f_equal. unfold floorZ.
  destruct (Z.leb_spec 0 (Zpos (Pos.size a) + - k - 53)) as [H|H].
  - assert (k = 0) as -> by lia. rewrite Em. replace (53 - Zpos (Pos.size a)) with 0 by lia.
    replace (Zpos (Pos.size a) + - 0 - 53) with 0 by lia. rewrite !Z.mul_1_r. by rewrite Z.div_1_r.
  - rewrite Em. replace (- (Zpos (Pos.size a) + - k - 53)) with (53 - Zpos (Pos.size a) + k) by lia.
    rewrite Z.pow_add_r by lia. rewrite <- Z.div_div by (first [apply Z.pow_nonzero|apply Z.pow_pos_nonneg]; lia).
    rewrite Z.div_mul; [done|]. apply Z.pow_nonzero; lia.
Qed.

(** ** Below zero *)

Lemma dyadic_neg p e : Zpos p < 2 ^ 53 → -900 ≤ e ≤ 900 →
  dyadic (Zneg p) e = S754_finite true (mantissa p) (Zpos (Pos.size p) + e - 53).
Proof.
  intros Hp He. pose proof (size_small p Hp). unfold dyadic, binary_normalize.
  apply (round_exact true p e p 0); [lia|done|done|lia].
Qed.

(** A difference below zero. *)
Lemma sub_dyadic_neg a b e : 0 ≤ a < b → b < 2 ^ 53 → -600 ≤ e ≤ 600 →
  ∃ p, Zpos p = b - a ∧ nsub (dyadic a e) (dyadic b e) = dyadic (Zneg p) e.
Proof.
  intros Ha Hb He. exists (Z.to_pos (b - a)). rewrite Z2Pos.id by lia. split; [done|].
  destruct b as [|b|b]; [lia| |lia]. destruct a as [|a|a]; [| |lia].
  - rewrite Z.sub_0_r. cbn [Z.to_pos]. rewrite dyadic_neg, dyadic_pos by lia. done.
  - pose proof (size_small a ltac:(lia)). pose proof (size_small b ltac:(lia)).
    pose proof (size_pos a). pose proof (size_pos b).
    assert (∃ p, Zpos p = Zpos b - Zpos a) as [p Ep] by (exists (b - a)%positive; lia).
    replace (Z.to_pos (Zpos b - Zpos a)) with p by (rewrite <- Ep; done).
    rewrite !dyadic_pos by lia. cbn [nsub SFsub cond_Zopp].
    set (ez := Z.min _ _). rewrite !align_exact by lia. rewrite <- Z.mul_sub_distr_r.
    replace (Zpos a - Zpos b) with (Zneg p) by lia.
    pose proof (size_small p ltac:(lia)). pose proof (size_pos p).
    assert (∃ m, Zpos p * 2 ^ (e - ez) = Zpos m) as [m Em].
    { pose proof (Z.pow_pos_nonneg 2 (e - ez)). destruct (Zpos p * 2 ^ (e - ez)) as [|m|m] eqn:Em; [nia|by exists m|nia]. }
    pose proof (size_scaled m p (e - ez) ltac:(lia) (eq_sym Em)) as Ed.
    replace (Zneg p * 2 ^ (e - ez)) with (Zneg m) by lia. cbn [binary_normalize].
    rewrite (round_exact true m ez p (e - ez)); [|done|lia|lia|lia]. rewrite dyadic_neg by lia. f_equal. lia.
Qed.

Lemma nmax_sub a b e : 0 ≤ a < 2 ^ 53 → 0 ≤ b < 2 ^ 53 → -600 ≤ e ≤ 600 →
  nmax (nofZ 0) (nsub (dyadic a e) (dyadic b e)) = dyadic (Z.max 0 (a - b)) e.
Proof.
  intros Ha Hb He. destruct (Z.le_gt_cases b a) as [H|H].
  - rewrite sub_dyadic, Z.max_r by lia.
    change (nofZ 0) with (dyadic 0 e). rewrite nmax_dyadic by lia. f_equal. lia.
  - destruct (sub_dyadic_neg a b e) as (p & Ep & ->); [lia|lia|done|].
    rewrite dyadic_neg, Z.max_l by lia. done.
Qed.

Lemma nfloor_neg p : Zpos p < 2 ^ 53 → nfloor (dyadic (Zneg p) 0) = dyadic (Zneg p) 0.
Proof.
  intros Hp. pose proof (size_small p Hp) as Hd. destruct (mantissa_spec p Hd) as [Em _].
  rewrite dyadic_neg at 1 by lia. cbn [nfloor]. change (dyadic (Zneg p) 0) with (nofZ (Zneg p)). f_equal.
  unfold floorZ. change (Zneg (mantissa p)) with (- Zpos (mantissa p)). rewrite Em.
  destruct (Z.leb_spec 0 (Zpos (Pos.size p) + 0 - 53)) as [H|H].
  - replace (53 - Zpos (Pos.size p)) with 0 by lia. replace (Zpos (Pos.size p) + 0 - 53) with 0 by lia. lia.
  - replace (- (Zpos (Pos.size p) + 0 - 53)) with (53 - Zpos (Pos.size p)) by lia.
    rewrite <- Z.mul_opp_l, Z.div_mul; [done|]. apply Z.pow_nonzero; lia.
Qed.

(** [Math.max(c, Math.floor(a - b))] of whole numbers. *)
Lemma nmax_floor_sub c a b : 0 < c < 2 ^ 53 → 0 ≤ a < 2 ^ 53 → 0 ≤ b < 2 ^ 53 →
  nmax (nofZ c) (nfloor (nsub (nofZ a) (nofZ b))) = nofZ (Z.max c (a - b)).
Proof.
  intros Hc Ha Hb. rewrite !nofZ_dyadic. destruct (Z.le_gt_cases b a) as [H|H].
  - rewrite sub_dyadic by lia. change (dyadic (a - b) 0) with (dyadic (a - b) (- 0)).
    rewrite nfloor_dyadic by lia. rewrite Z.div_1_r, nofZ_dyadic, nmax_dyadic by lia. done.
  - destruct (sub_dyadic_neg a b 0) as (p & Ep & ->); [lia|lia|lia|]. rewrite nfloor_neg, dyadic_neg by lia.
    destruct c as [|c|c]; [lia| |lia]. rewrite dyadic_pos by lia. cbn. rewrite Z.max_l by lia.
    by rewrite dyadic_pos by lia.
Qed.

(** ** Signs *)

Lemma shr_nonneg n : ∀ r, 0 ≤ shr_m r → 0 ≤ shr_m (iter_pos shr_1 n r).
Proof.
  assert (∀ r, 0 ≤ shr_m r → 0 ≤ shr_m (shr_1 r)) as H1.
  { intros [[|[m|m|]|m] r s] Hm; cbn in *; lia. }
  induction n as [n IH|n IH|]; intros r Hr; cbn [iter_pos]; auto.
Qed.

Lemma shr_fexp_nonneg m e l : 0 ≤ m → 0 ≤ shr_m (shr_fexp 53 1024 m e l).1.
Proof.
  intros Hm. unfold shr_fexp, shr.
  assert (0 ≤ shr_m (shr_record_of_loc m l)) as H by (by destruct l as [|[]]).
  destruct (_ - e); cbn [fst]; [done|by apply shr_nonneg|done].
Qed.

(** A number of sign [s], which NaN has not. *)
Definition signed (s : bool) (x : num) : Prop :=
  match x with
  | S754_nan => False
  | S754_zero t | S754_infinity t | S754_finite t _ _ => t = s
  end.

Lemma round_aux_signed s m e l : 0 ≤ m → signed s (binary_round_aux 53 1024 s m e l).
Proof.
  intros Hm. unfold binary_round_aux. pose proof (shr_fexp_nonneg m e l Hm) as H1.
  destruct (shr_fexp 53 1024 m e l) as [r1 e1]. cbn [fst] in H1.
  assert (0 ≤ round_nearest_even (shr_m r1) (loc_of_shr_record r1)) as H2.
  { unfold round_nearest_even. repeat case_match; lia. }
  pose proof (shr_fexp_nonneg _ e1 loc_Exact H2) as H3. destruct (shr_fexp _ _ _ _ _) as [r2 e2]. cbn [fst] in H3.
  destruct (shr_m r2); [done| |lia]. by destruct (_ <=? _).
Qed.

Lemma binary_round_signed s m e : signed s (binary_round 53 1024 s m e).
Proof. unfold binary_round. destruct (shl_align _ _ _) as [mz ez]. by apply round_aux_signed. Qed.

(** Differences of finite numbers are numbers. *)
Lemma nsub_nan x y : isFinite x = true → isFinite y = true → isNaN (nsub x y) = false.
Proof.
  destruct x as [s1|s1| |s1 m1 e1], y as [s2|s2| |s2 m2 e2]; try done; intros _ _; cbn [nsub SFsub].
  - by destruct s1, s2.
  - unfold binary_normalize. destruct (_ - _) as [|m|m]; [done| |];
      (match goal with |- context [binary_round _ _ ?s ?m ?e] => pose proof (binary_round_signed s m e) as H end);
      by destruct (binary_round _ _ _ _ _).
Qed.

Lemma nmul_signed x y : isFinite x = true → isFinite y = true → signed false x → signed false y →
  signed false (nmul x y).
Proof.
  destruct x as [s1|s1| |s1 m1 e1], y as [s2|s2| |s2 m2 e2]; try done; cbn; intros _ _ -> ->; [done..|].
  by apply round_aux_signed.
Qed.

(** A number below another is not at least as large. *)
Lemma nltb_not_nle x y : nltb x y = true → ¬ nle y x.
Proof.
  unfold nltb, SFltb, nle, key_le.
  destruct x as [s1|s1| |s1 m1 e1], y as [s2|s2| |s2 m2 e2]; cbn in *; try done;
    try destruct s1; try destruct s2; cbn; rewrite ?pos_compare_cont;
    repeat match goal with
    | |- context [Z.compare ?a ?b] => destruct (Z.compare_spec a b)
    end; cbn; intuition (lia || done).
Qed.
