(* ===== verification/WireProtocol.v ===== *)
(** * The mc-host wire protocol: frame headers

    Models packages/plugin/src/shared/mc-host-client/protocol.ts: the 21-byte
    little-endian envelope header, its flag byte, the structural validation
    shared by both directions, and the direction and correlation tables.
    Header fields are integers; a byte is a [Z] in 0..255. *)

From S2P Require Import Prelude.

Definition PROTOCOL_VERSION : Z := 2.
Definition HEADER_LEN : Z := 21.
Definition FROZEN_PREFIX_LEN : Z := 5.
Definition MAX_FRAME_BODY_LEN : Z := 67108864.
Definition MAX_CORRELATION : Z := 0xffffffffffffffff.

(** ** Frame types *)

Module FrameType.
Definition Request : Z := 0.
Definition Response : Z := 1.
Definition Push : Z := 2.
Definition StreamData : Z := 3.
Definition StreamEnd : Z := 4.
Definition Error : Z := 5.
Definition Cancel : Z := 6.
Definition Ping : Z := 7.
Definition Pong : Z := 8.
Definition Hello : Z := 9.
Definition HelloAck : Z := 10.
Definition Goodbye : Z := 11.
End FrameType.

Definition FRAME_TYPE_MAX : Z := FrameType.Goodbye.

Definition isPureHeader (ty : Z) : bool :=
  (ty =? FrameType.Cancel) || (ty =? FrameType.Ping) ||
  (ty =? FrameType.Pong) || (ty =? FrameType.Goodbye).

(** ** The flag byte *)

Definition FLAG_BINARY : Z := 1.
Definition FLAG_PRIORITY_MASK : Z := 6.
Definition FLAG_PRIORITY_SHIFT : Z := 1.
Definition FLAG_LAST : Z := 8.
Definition FLAG_ADMISSION_MASK : Z := 48.
Definition FLAG_ADMISSION_SHIFT : Z := 4.
Definition FLAG_RESERVED_MASK : Z := 192.

(** [types.ts]: the values of [Priority] and [AdmissionClass]. *)
Inductive Priority := Passive | Interactive | Background.
Inductive AdmissionClass := Normal | Expedite | Sheddable.

Definition priority_code (p : Priority) : Z :=
  match p with Passive => 0 | Interactive => 1 | Background => 2 end.
Definition admission_code (a : AdmissionClass) : Z :=
  match a with Normal => 0 | Expedite => 1 | Sheddable => 2 end.

Definition buildFlags (binary : bool) (priority : Priority) (last : bool)
    (admissionClass : AdmissionClass) : Z :=
  let flags := 0 in
  let flags := if binary then Z.lor flags FLAG_BINARY else flags in
  let flags := Z.lor flags (Z.shiftl (priority_code priority) FLAG_PRIORITY_SHIFT) in
  let flags := if last then Z.lor flags FLAG_LAST else flags in
  Z.lor flags (Z.shiftl (admission_code admissionClass) FLAG_ADMISSION_SHIFT).

Definition flagsBinary (flags : Z) : bool := negb (Z.land flags FLAG_BINARY =? 0).

Definition flagsPriority (flags : Z) : Z :=
  Z.shiftr (Z.land flags FLAG_PRIORITY_MASK) FLAG_PRIORITY_SHIFT.

Definition flagsLast (flags : Z) : bool := negb (Z.land flags FLAG_LAST =? 0).

Definition flagsAdmissionClass (flags : Z) : Z :=
  Z.shiftr (Z.land flags FLAG_ADMISSION_MASK) FLAG_ADMISSION_SHIFT.

(** ** Headers and their validation *)

Inductive DecodeErrorCode :=
| too_short_for_prefix
| unsupported_version
| too_short_for_header
| unknown_frame_type
| reserved_flag_bits
| reserved_priority_bits
| reserved_admission_class
| sheddable_illegal_frame_type
| nonzero_epoch_on_control_channel
| zero_epoch_on_routed_channel
| pure_header_frame_with_body
| pure_header_frame_flags
| frame_body_too_large
| role_or_identity_violation.

(** What the codec throws: a [DecodeError] with its code, or the [RangeError]
    of [requireUint] and of the correlation check, naming the field. *)
Inductive codec_error :=
| DecodeError (code : DecodeErrorCode)
| RangeError (field : string).

Record EnvelopeHeader := {
  h_len : Z;
  h_ver : Z;
  h_ty : Z;
  h_flags : Z;
  h_channel : Z;
  h_epoch : Z;
  h_corr : Z
}.

Definition requireUint (value max : Z) (field : string) : result codec_error unit :=
  throw_if ((value <? 0) || (max <? value)) (RangeError field).

Definition validateHeader (header : EnvelopeHeader) : result codec_error unit :=
  let reject b code := throw_if b (DecodeError code) in
  reject (negb (h_ver header =? PROTOCOL_VERSION)) unsupported_version;;
  reject ((h_ty header <? 0) || (FRAME_TYPE_MAX <? h_ty header)) unknown_frame_type;;
  reject (MAX_FRAME_BODY_LEN <? h_len header) frame_body_too_large;;
  let flags := h_flags header in
  reject (negb (Z.land flags FLAG_RESERVED_MASK =? 0)) reserved_flag_bits;;
  reject (Z.shiftr (Z.land flags FLAG_PRIORITY_MASK) FLAG_PRIORITY_SHIFT =? 3)
    reserved_priority_bits;;
  let admission := Z.shiftr (Z.land flags FLAG_ADMISSION_MASK) FLAG_ADMISSION_SHIFT in
  reject (admission =? 3) reserved_admission_class;;
  reject ((admission =? admission_code Sheddable) &&
          negb (h_ty header =? FrameType.Push) &&
          negb (h_ty header =? FrameType.StreamData)) sheddable_illegal_frame_type;;
  reject ((h_channel header =? 0) && negb (h_epoch header =? 0))
    nonzero_epoch_on_control_channel;;
  reject (negb (h_channel header =? 0) && (h_epoch header =? 0))
    zero_epoch_on_routed_channel;;
  if isPureHeader (h_ty header) then
    reject (negb (h_len header =? 0)) pure_header_frame_with_body;;
    reject (flagsBinary flags || flagsLast flags ||
            negb (admission =? admission_code Normal)) pure_header_frame_flags
  else mret ().

(** ** Serialization *)

(** [DataView.setUintN(offset, value, true)] and [getUintN(offset, true)]: the
    [n] low bytes of a value, least significant first. *)
Fixpoint setUintLE (n : nat) (value : Z) : list Z :=
  match n with
  | O => []
  | S n => value mod 256 :: setUintLE n (value / 256)
  end.

Fixpoint getUintLE (bytes : list Z) : Z :=
  match bytes with
  | [] => 0
  | b :: bytes => b + 256 * getUintLE bytes
  end.

Definition view_get (bytes : list Z) (offset width : nat) : Z :=
  getUintLE (take width (drop offset bytes)).

Definition encodeHeader (header : EnvelopeHeader) : result codec_error (list Z) :=
  requireUint (h_len header) 0xffffffff "header len";;
  requireUint (h_ver header) 0xff "header ver";;
  requireUint (h_ty header) 0xff "header type";;
  requireUint (h_flags header) 0xff "header flags";;
  requireUint (h_channel header) 0xffff "header channel";;
  requireUint (h_epoch header) 0xffffffff "header epoch";;
  throw_if ((h_corr header <? 0) || (MAX_CORRELATION <? h_corr header))
    (RangeError "header corr");;
  validateHeader header;;
  mret (setUintLE 4 (h_len header) ++ [h_ver header] ++ [h_ty header] ++
        [h_flags header] ++ setUintLE 2 (h_channel header) ++
        setUintLE 4 (h_epoch header) ++ setUintLE 8 (h_corr header)).

Definition decodeHeader (bytes : list Z) : result codec_error EnvelopeHeader :=
  throw_if (lengthZ bytes <? FROZEN_PREFIX_LEN) (DecodeError too_short_for_prefix);;
  let ver := view_get bytes 4 1 in
  throw_if (negb (ver =? PROTOCOL_VERSION)) (DecodeError unsupported_version);;
  throw_if (lengthZ bytes <? HEADER_LEN) (DecodeError too_short_for_header);;
  let header := {|
    h_len := view_get bytes 0 4;
    h_ver := ver;
    h_ty := view_get bytes 5 1;
    h_flags := view_get bytes 6 1;
    h_channel := view_get bytes 7 2;
    h_epoch := view_get bytes 9 4;
    h_corr := view_get bytes 13 8
  |} in
  validateHeader header;;
  mret header.

(** ** Directions and correlation namespaces *)

Definition HOST_TO_CONSUMER_TYPES : list Z :=
  [FrameType.Response; FrameType.Error; FrameType.StreamData; FrameType.StreamEnd;
   FrameType.Ping; FrameType.Push; FrameType.Goodbye].

Definition CONSUMER_TO_HOST_TYPES : list Z :=
  [FrameType.Request; FrameType.Cancel; FrameType.Pong; FrameType.Goodbye].

Definition isLegalHostToConsumerType (ty : Z) : bool :=
  existsb (Z.eqb ty) HOST_TO_CONSUMER_TYPES.

Definition isLegalConsumerToHostType (ty : Z) : bool :=
  existsb (Z.eqb ty) CONSUMER_TO_HOST_TYPES.

Inductive CorrelationNamespace := NsConsumer | NsHost.

Definition settledCorrelationNamespace (ty : Z) : option CorrelationNamespace :=
  if (ty =? FrameType.Response) || (ty =? FrameType.Error) ||
     (ty =? FrameType.StreamData) || (ty =? FrameType.StreamEnd)
  then Some NsConsumer
  else if ty =? FrameType.Pong then Some NsHost
  else None.

(** ** Specification: the well-formed headers *)

(** Every element of a [Uint8Array] is a byte. *)
Definition is_bytes (bytes : list Z) : Prop := Forall (fun b => 0 ≤ b < 256) bytes.

(** The structural rules of section 6 of the protocol, read off the header's
    fields and the decoded flag byte. *)
Record wf_header (h : EnvelopeHeader) : Prop := {
  wf_ver : h_ver h = 2;
  wf_ty : 0 ≤ h_ty h ≤ 11;
  wf_len : h_len h ≤ MAX_FRAME_BODY_LEN;
  wf_reserved : Z.land (h_flags h) FLAG_RESERVED_MASK = 0;
  wf_priority : flagsPriority (h_flags h) ≠ 3;
  wf_admission : flagsAdmissionClass (h_flags h) ≠ 3;
  wf_sheddable : flagsAdmissionClass (h_flags h) = 2 →
    h_ty h = FrameType.Push ∨ h_ty h = FrameType.StreamData;
  wf_epoch : h_channel h = 0 ↔ h_epoch h = 0;
  wf_pure : isPureHeader (h_ty h) = true →
    h_len h = 0 ∧ flagsBinary (h_flags h) = false ∧
    flagsLast (h_flags h) = false ∧ flagsAdmissionClass (h_flags h) = 0
}.

(** The fields fit the widths of the wire layout. *)
Record fits_layout (h : EnvelopeHeader) : Prop := {
  fit_len : 0 ≤ h_len h < 2 ^ 32;
  fit_ver : 0 ≤ h_ver h < 2 ^ 8;
  fit_ty : 0 ≤ h_ty h < 2 ^ 8;
  fit_flags : 0 ≤ h_flags h < 2 ^ 8;
  fit_channel : 0 ≤ h_channel h < 2 ^ 16;
  fit_epoch : 0 ≤ h_epoch h < 2 ^ 32;
  fit_corr : 0 ≤ h_corr h < 2 ^ 64
}.

(** The rule each code stands for, as what the bytes of a frame that break it look
    like: every field at its offset of the layout, the flag byte by its bits. *)
Definition breaks (bs : list Z) (code : DecodeErrorCode) : Prop :=
  let len := view_get bs 0 4 in
  let ty := view_get bs 5 1 in
  let flags := view_get bs 6 1 in
  let admission := flags / 16 mod 4 in
  let channel := view_get bs 7 2 in
  let epoch := view_get bs 9 4 in
  match code with
  | too_short_for_prefix => lengthZ bs < 5
  | unsupported_version => view_get bs 4 1 ≠ 2
  | too_short_for_header => lengthZ bs < 21
  | unknown_frame_type => 11 < ty
  | frame_body_too_large => 2 ^ 26 < len
  | reserved_flag_bits => 64 ≤ flags
  | reserved_priority_bits => flags / 2 mod 4 = 3
  | reserved_admission_class => admission = 3
  | sheddable_illegal_frame_type => admission = 2 ∧ ty ≠ 2 ∧ ty ≠ 3
  | nonzero_epoch_on_control_channel => channel = 0 ∧ epoch ≠ 0
  | zero_epoch_on_routed_channel => channel ≠ 0 ∧ epoch = 0
  | pure_header_frame_with_body => ty ∈ [6; 7; 8; 11] ∧ len ≠ 0
  | pure_header_frame_flags =>
      ty ∈ [6; 7; 8; 11] ∧ (flags mod 2 = 1 ∨ flags / 8 mod 2 = 1 ∨ admission ≠ 0)
  | role_or_identity_violation => False
  end.

(** The order the decoder judges a frame in: what it needs to read the header, then
    type and length, the flag byte, channel against epoch, and the pure frames. *)
Definition judged : list DecodeErrorCode :=
  [too_short_for_prefix; unsupported_version; too_short_for_header; unknown_frame_type;
   frame_body_too_large; reserved_flag_bits; reserved_priority_bits; reserved_admission_class;
   sheddable_illegal_frame_type; nonzero_epoch_on_control_channel; zero_epoch_on_routed_channel;
   pure_header_frame_with_body; pure_header_frame_flags].

(** The first code of a list whose rule the bytes break. *)
Definition first_broken (bs : list Z) (codes : list DecodeErrorCode) (code : DecodeErrorCode) : Prop :=
  ∃ before after, codes = before ++ code :: after ∧ breaks bs code ∧ ∀ c, c ∈ before → ¬ breaks bs c.

(** ** Lemmas *)

Lemma length_setUintLE n z : length (setUintLE n z) = n.
Proof. revert z. induction n; cbn; auto. Qed.

Lemma get_setUintLE n z : getUintLE (setUintLE n z) = z mod 256 ^ Z.of_nat n.
Proof.
  revert z. induction n as [|n IH]; intros z; cbn [setUintLE getUintLE].
  - rewrite Z.mod_1_r. done.
  - rewrite IH, Nat2Z.inj_succ, Z.pow_succ_r, Z.rem_mul_r by lia. lia.
Qed.

Lemma set_getUintLE bytes :
  is_bytes bytes → setUintLE (length bytes) (getUintLE bytes) = bytes.
Proof.
  induction 1 as [|b bytes Hb _ IH]; cbn [length setUintLE getUintLE]; [done|].
  replace ((b + 256 * getUintLE bytes) mod 256) with b.
  2: { rewrite Z.mul_comm, Z_mod_plus_full, Z.mod_small by lia. done. }
  replace ((b + 256 * getUintLE bytes) / 256) with (getUintLE bytes).
  2: { rewrite Z.mul_comm, Z.div_add, Z.div_small by lia. lia. }
  rewrite IH. done.
Qed.

Lemma is_bytes_setUintLE n z : is_bytes (setUintLE n z).
Proof.
  unfold is_bytes. revert z. induction n; cbn; intros; constructor; auto.
  apply Z.mod_pos_bound. lia.
Qed.

Lemma getUintLE_bound bytes :
  is_bytes bytes → 0 ≤ getUintLE bytes < 256 ^ Z.of_nat (length bytes).
Proof.
  induction 1 as [|b bytes Hb _ IH]; cbn [length getUintLE]; [lia|].
  rewrite Nat2Z.inj_succ, Z.pow_succ_r by lia. lia.
Qed.

(** [validateHeader] decides exactly the well-formed headers. *)
Lemma validateHeader_iff h : validateHeader h = Ok () ↔ wf_header h.
Proof.
  unfold validateHeader, mret, result_ret. split.
  - intros H. repeat (apply throw_if_bind_ok in H as [? H]).
    fold (flagsPriority (h_flags h)) in *. fold (flagsAdmissionClass (h_flags h)) in *.
    unfold PROTOCOL_VERSION, FRAME_TYPE_MAX, FrameType.Goodbye in *.
    unfold FrameType.Push, FrameType.StreamData in *. cbn [admission_code] in *.
    constructor; unfold FrameType.Push, FrameType.StreamData; try lia.
    intros Hp. rewrite Hp in H. apply throw_if_bind_ok in H as [? H].
    apply throw_if_ok in H. bool_hyps.
    repeat split; try assumption; lia.
  - intros [Hver Hty Hlen Hres Hprio Hadm Hshed Hep Hpure].
    fold (flagsPriority (h_flags h)). fold (flagsAdmissionClass (h_flags h)).
    unfold PROTOCOL_VERSION, FRAME_TYPE_MAX, FrameType.Goodbye, FrameType.Push,
      FrameType.StreamData in *.
    repeat (apply throw_if_bind_ok; split; [cbn [admission_code]; lia|]).
    destruct (isPureHeader (h_ty h)); [|done].
    destruct Hpure as (? & Hb & Hl & ?); [done|]. rewrite Hb, Hl.
    apply throw_if_bind_ok; split; [lia|]. cbn [admission_code].
    replace (flagsAdmissionClass (h_flags h) =? 0) with true by lia. done.
Qed.

Lemma encodeHeader_ok h bs :
  encodeHeader h = Ok bs ↔
  fits_layout h ∧ wf_header h ∧
  bs = setUintLE 4 (h_len h) ++ [h_ver h] ++ [h_ty h] ++ [h_flags h] ++
       setUintLE 2 (h_channel h) ++ setUintLE 4 (h_epoch h) ++ setUintLE 8 (h_corr h).
Proof.
  unfold encodeHeader, requireUint, MAX_CORRELATION. split.
  - intros H. repeat (apply throw_if_bind_ok in H as [? H]).
    apply bind_ok in H as ([] & Hv & H). apply validateHeader_iff in Hv.
    injection H as <-. split; [constructor; lia|]. split; [exact Hv|done].
  - intros ([? ? ? ? ? ? ?] & Hw & ->). apply validateHeader_iff in Hw.
    repeat (apply throw_if_bind_ok; split; [lia|]).
    rewrite Hw. done.
Qed.

Lemma decodeHeader_ok bs h :
  decodeHeader bs = Ok h ↔
  HEADER_LEN ≤ lengthZ bs ∧ wf_header h ∧
  h = {| h_len := view_get bs 0 4; h_ver := view_get bs 4 1; h_ty := view_get bs 5 1;
         h_flags := view_get bs 6 1; h_channel := view_get bs 7 2;
         h_epoch := view_get bs 9 4; h_corr := view_get bs 13 8 |}.
Proof.
  unfold decodeHeader, HEADER_LEN, FROZEN_PREFIX_LEN, PROTOCOL_VERSION. split.
  - intros H. repeat (apply throw_if_bind_ok in H as [? H]).
    apply bind_ok in H as ([] & Hv & H). apply validateHeader_iff in Hv.
    injection H as <-. split; [lia|]. split; [exact Hv|done].
  - intros (Hlen & Hw & ->). pose proof (wf_ver _ Hw) as Hver. cbn in Hver.
    repeat (apply throw_if_bind_ok; split; [lia|]).
    apply validateHeader_iff in Hw. rewrite Hw. done.
Qed.

(** Reading back a field that was written at the same offset. *)
Lemma view_of_field bs offset width l z :
  take width (drop offset bs) = l → l = setUintLE width z →
  0 ≤ z < 256 ^ Z.of_nat width → view_get bs offset width = z.
Proof.
  intros Hl -> Hz. unfold view_get. rewrite Hl, get_setUintLE. by apply Z.mod_small.
Qed.

Lemma view_of_byte bs offset b :
  take 1 (drop offset bs) = [b] → view_get bs offset 1 = b.
Proof. intros Hl. unfold view_get. rewrite Hl. cbn. lia. Qed.

Lemma is_bytes_take n bs : is_bytes bs → is_bytes (take n bs).
Proof. apply Forall_take. Qed.

Lemma is_bytes_drop n bs : is_bytes bs → is_bytes (drop n bs).
Proof. apply Forall_drop. Qed.
#[export] Hint Resolve is_bytes_take is_bytes_drop is_bytes_setUintLE : magic.

(** A slice of the right length is the serialization of the value read there. *)
Lemma set_view_get bs offset width :
  is_bytes bs → (offset + width ≤ length bs)%nat →
  setUintLE width (view_get bs offset width) = take width (drop offset bs).
Proof.
  intros Hbs Hlen. unfold view_get. set (l := take width (drop offset bs)).
  assert (length l = width) as Hw by (subst l; rewrite length_take, length_drop; lia).
  rewrite <- Hw at 1. apply set_getUintLE. subst l. auto with magic.
Qed.

Lemma view_get_bound bs offset width :
  is_bytes bs → 0 ≤ view_get bs offset width < 256 ^ Z.of_nat width.
Proof.
  intros Hbs. unfold view_get.
  destruct (getUintLE_bound (take width (drop offset bs))) as [H1 H2]; [auto with magic|].
  split; [done|]. eapply Z.lt_le_trans; [exact H2|].
  apply Z.pow_le_mono_r; [lia|]. rewrite length_take. lia.
Qed.

Lemma byte_of_view bs offset :
  is_bytes bs → (offset + 1 ≤ length bs)%nat →
  [view_get bs offset 1] = take 1 (drop offset bs).
Proof.
  intros Hbs Hlen. rewrite <- set_view_get by done. cbn.
  f_equal. symmetry. apply Z.mod_small.
  pose proof (view_get_bound bs offset 1 Hbs). cbn in *. lia.
Qed.

(** ** Properties *)

(** C35: every header the encoder accepts is encoded in exactly [HEADER_LEN]
    bytes, from which the decoder recovers the header itself. *)
Theorem encode_decode_header h bs :
  encodeHeader h = Ok bs →
  lengthZ bs = HEADER_LEN ∧ is_bytes bs ∧ decodeHeader bs = Ok h.
Proof.
  intros (Hfit & Hw & ->)%encodeHeader_ok. destruct Hfit.
  split; [reflexivity|]. split.
  - unfold is_bytes. repeat (apply Forall_app; split); try apply is_bytes_setUintLE;
      repeat constructor; lia.
  - apply decodeHeader_ok. split; [reflexivity|]. split; [done|].
    destruct h; cbn [h_len h_ver h_ty h_flags h_channel h_epoch h_corr] in *.
    f_equal; symmetry; first [ apply view_of_byte; reflexivity
      | eapply view_of_field; [reflexivity|reflexivity|]; cbn; lia ].
Qed.

(** The decoder only accepts canonical bytes: re-encoding a decoded header
    gives back the first [HEADER_LEN] bytes it was decoded from. *)
Theorem decode_encode_header bs h :
  is_bytes bs → decodeHeader bs = Ok h →
  encodeHeader h = Ok (slice_to HEADER_LEN bs).
Proof.
  intros Hbs (Hlen & Hw & ->)%decodeHeader_ok.
  assert (21 ≤ length bs)%nat as Hl by (unfold lengthZ, HEADER_LEN in Hlen; lia).
  apply encodeHeader_ok. split; [|split; [done|]].
  - constructor; match goal with
    | |- 0 ≤ ?f {| h_len := _ |} < _ => cbn [f]
    end; match goal with
    | |- 0 ≤ view_get bs ?o ?w < _ => exact (view_get_bound bs o w Hbs)
    end.
  - cbn [h_len h_ver h_ty h_flags h_channel h_epoch h_corr].
    rewrite !set_view_get, !byte_of_view by (done || lia).
    do 21 (destruct bs as [|? bs]; [cbn in Hl; lia|]). reflexivity.
Qed.

(** Encoding and decoding accept the same headers. The encoder rejects a
    header exactly when a field leaves its width or a structural rule is
    broken, and a decoded header always satisfies the structural rules, its
    fields within their widths. *)
Theorem codec_accepts_well_formed h bs :
  (is_ok (encodeHeader h) = true ↔ fits_layout h ∧ wf_header h) ∧
  (is_bytes bs → decodeHeader bs = Ok h → fits_layout h ∧ wf_header h).
Proof.
  split.
  - rewrite is_ok_iff. split.
    + intros (b & (Hf & Hw & _)%encodeHeader_ok). done.
    + intros [Hf Hw]. eexists. apply encodeHeader_ok. done.
  - intros Hbs Hd. pose proof (decode_encode_header _ _ Hbs Hd) as He.
    apply encodeHeader_ok in He as (? & ? & _). done.
Qed.

(** A result that judges the bytes by a list of codes in order. *)
Definition judges {A} (bs : list Z) (codes : list DecodeErrorCode) (r : result codec_error A) : Prop :=
  match r with
  | Ok _ => ∀ c, c ∈ codes → ¬ breaks bs c
  | Err (DecodeError code) => first_broken bs codes code
  | Err (RangeError _) => False
  end.

Lemma judges_step {A} bs c codes b (r : result codec_error A) :
  (b = true ↔ breaks bs c) → (¬ breaks bs c → judges bs codes r) →
  judges bs (c :: codes) (throw_if b (DecodeError c);; r).
Proof.
  intros Hb Hr. destruct b; cbn.
  - exists [], codes. split_and!; [done|by apply Hb|]. by intros ? ?%elem_of_nil.
  - assert (¬ breaks bs c) as Hc by (intros ?%Hb; done). specialize (Hr Hc).
    destruct r as [a|[code|]]; cbn in *; [|destruct Hr as (before & after & -> & ? & Hbefore)|done].
    + intros c' [->|?]%elem_of_cons; auto.
    + exists (c :: before), after. split_and!; [done..|]. intros c' [->|?]%elem_of_cons; auto.
Qed.

Lemma judges_last bs c b :
  (b = true ↔ breaks bs c) → judges bs [c] (throw_if b (DecodeError c)).
Proof.
  intros Hb. assert (judges bs [c] (throw_if b (DecodeError c);; mret ())) as H.
  { apply judges_step; [done|]. by intros _ ? ?%elem_of_nil. }
  by destruct b.
Qed.

Lemma judges_pass {A} bs codes b e (r : result codec_error A) :
  b = false → judges bs codes r → judges bs codes (throw_if b e;; r).
Proof. by intros ->. Qed.

Lemma judges_ret {A B} bs codes (r : result codec_error A) (x : B) :
  judges bs codes r → judges bs codes (r;; mret x).
Proof. by destruct r. Qed.

(** The flag accessors, bit by bit. *)
Lemma flag_bits_table :
  forallb (fun f =>
    Bool.eqb (Z.land f FLAG_RESERVED_MASK =? 0) (f <? 64) &&
    (flagsPriority f =? f / 2 mod 4) && (flagsAdmissionClass f =? f / 16 mod 4) &&
    Bool.eqb (flagsBinary f) (f mod 2 =? 1) && Bool.eqb (flagsLast f) (f / 8 mod 2 =? 1))
    (seqZ 0 256) = true.
Proof. vm_compute. reflexivity. Qed.

Lemma flag_bits f : 0 ≤ f < 256 →
  (Z.land f FLAG_RESERVED_MASK =? 0) = (f <? 64) ∧ flagsPriority f = f / 2 mod 4 ∧
  flagsAdmissionClass f = f / 16 mod 4 ∧ flagsBinary f = (f mod 2 =? 1) ∧
  flagsLast f = (f / 8 mod 2 =? 1).
Proof.
  intros Hf. pose proof (proj1 (forallb_forall _ _) flag_bits_table f) as H.
  specialize (H ltac:(apply list_elem_of_In, elem_of_seqZ; lia)).
  repeat apply andb_true_iff in H as [H ?].
  rewrite ?eqb_true_iff, ?Z.eqb_eq in *. done.
Qed.

Lemma isPureHeader_iff ty : isPureHeader ty = true ↔ ty ∈ [6; 7; 8; 11].
Proof.
  unfold isPureHeader, FrameType.Cancel, FrameType.Ping, FrameType.Pong, FrameType.Goodbye.
  rewrite !elem_of_cons, elem_of_nil. lia.
Qed.

(** The shared validation of a header read from the bytes. *)
Lemma validateHeader_judges bs h :
  is_bytes bs → h_ver h = PROTOCOL_VERSION → h_len h = view_get bs 0 4 → h_ty h = view_get bs 5 1 →
  h_flags h = view_get bs 6 1 → h_channel h = view_get bs 7 2 → h_epoch h = view_get bs 9 4 →
  judges bs (drop 3 judged) (validateHeader h).
Proof.
  intros Hbs Hver Hlen Hty Hflags Hch Hep. unfold validateHeader.
  rewrite Hver, Hlen, Hty, Hflags, Hch, Hep.
  pose proof (view_get_bound bs 5 1 Hbs) as Ht. pose proof (view_get_bound bs 6 1 Hbs) as Hf.
  cbn in Ht. destruct (flag_bits _ Hf) as (Hr & Hp & Ha & Hb & Hl).
  fold (flagsPriority (view_get bs 6 1)). fold (flagsAdmissionClass (view_get bs 6 1)).
  rewrite Hr, Hp, Ha, Hb, Hl. apply judges_pass; [done|].
  cbn [drop judged]. unfold FRAME_TYPE_MAX, MAX_FRAME_BODY_LEN, FrameType.Goodbye, FrameType.Push,
    FrameType.StreamData. cbn [admission_code].
  do 8 (apply judges_step; [cbn [breaks]; lia|intros _]).
  destruct (isPureHeader (view_get bs 5 1)) eqn:Hpure.
  - apply isPureHeader_iff in Hpure. apply judges_step; [cbn [breaks]; intuition lia|intros _].
    apply judges_last. cbn [breaks]. rewrite !orb_true_iff, negb_true_iff. intuition lia.
  - assert (view_get bs 5 1 ∉ [6; 7; 8; 11]) as Hn by (rewrite <- isPureHeader_iff, Hpure; done).
    intros c. rewrite !elem_of_cons, elem_of_nil. intros [->|[->|[]]] [? _]; done.
Qed.

(** C36: the decoder judges a frame by thirteen rules in one fixed order and reports
    the first the bytes break; it returns a header exactly when they break none, and
    then the one read from them.  The order is: room for the frozen prefix, the
    version byte, room for the header, the frame type (offset 5), the body length
    (offset 0), the flag byte (offset 6), the epoch against the channel (offsets 9
    and 7), and the two rules of pure frames.  The role code and the encoder's range
    errors are never produced. *)
Theorem decodeHeader_errors bs :
  is_bytes bs →
  match decodeHeader bs with
  | Ok h =>
      (∀ code, ¬ breaks bs code) ∧
      h = {| h_len := view_get bs 0 4; h_ver := 2; h_ty := view_get bs 5 1;
             h_flags := view_get bs 6 1; h_channel := view_get bs 7 2;
             h_epoch := view_get bs 9 4; h_corr := view_get bs 13 8 |}
  | Err (DecodeError code) => first_broken bs judged code
  | Err (RangeError _) => False
  end.
Proof.
  intros Hbs. assert (judges bs judged (decodeHeader bs)) as H.
  { unfold decodeHeader, FROZEN_PREFIX_LEN, HEADER_LEN, PROTOCOL_VERSION. unfold judged.
    apply judges_step; [cbn [breaks]; lia|intros _].
    apply judges_step; [cbn [breaks]; lia|intros Hver]. cbn [breaks] in Hver.
    apply judges_step; [cbn [breaks]; lia|intros _].
    apply judges_ret, validateHeader_judges; try done. cbn. unfold PROTOCOL_VERSION. lia. }
  destruct (decodeHeader bs) as [h|[code|]] eqn:E; cbn in H; [|done..].
  apply decodeHeader_ok in E as (_ & Hw & ->). split.
  - intros code. destruct code; try (apply H; unfold judged; set_solver). by intros [].
  - f_equal. apply (wf_ver _ Hw).
Qed.

(** The 64 flag bytes that use no reserved bit or code, as the builder's image. *)
Definition all_flags : list (bool * Priority * bool * AdmissionClass) :=
  b ← [false; true]; p ← [Passive; Interactive; Background];
  l ← [false; true]; a ← [Normal; Expedite; Sheddable]; [(b, p, l, a)].

Lemma flag_byte_in_image :
  forallb (fun f =>
    negb (Z.land f FLAG_RESERVED_MASK =? 0) || (flagsPriority f =? 3) ||
    (flagsAdmissionClass f =? 3) ||
    existsb (fun '(b, p, l, a) => f =? buildFlags b p l a) all_flags)
    (seqZ 0 256) = true.
Proof. vm_compute. reflexivity. Qed.

(** The flag byte is a bijective packing. The four accessors recover what
    [buildFlags] was given, its result always passes the reserved-bit checks of
    [validateHeader], and every byte that passes them is built by exactly one
    choice of arguments. *)
Theorem buildFlags_bijective :
  (∀ b p l a, let f := buildFlags b p l a in
     0 ≤ f < 2 ^ 6 ∧ Z.land f FLAG_RESERVED_MASK = 0 ∧
     flagsBinary f = b ∧ flagsPriority f = priority_code p ∧
     flagsLast f = l ∧ flagsAdmissionClass f = admission_code a) ∧
  (∀ f, 0 ≤ f < 256 → Z.land f FLAG_RESERVED_MASK = 0 →
     flagsPriority f ≠ 3 → flagsAdmissionClass f ≠ 3 →
     ∃ b p l a, f = buildFlags b p l a) ∧
  (∀ b p l a b' p' l' a', buildFlags b p l a = buildFlags b' p' l' a' →
     b = b' ∧ p = p' ∧ l = l' ∧ a = a').
Proof.
  split; [|split].
  - intros [] [] [] []; vm_compute; repeat split; discriminate.
  - intros f Hf Hr Hp Ha.
    pose proof (proj1 (forallb_forall _ _) flag_byte_in_image f) as H.
    specialize (H ltac:(apply list_elem_of_In, elem_of_seqZ; lia)).
    apply Z.eqb_neq in Hp, Ha. cbv beta in H. rewrite Hr, Hp, Ha in H.
    apply existsb_exists in H as ([[[b p] l] a] & _ & Hx).
    exists b, p, l, a. lia.
  - intros [] [] [] [] [] [] [] []; vm_compute; intros; simplify_eq; done.
Qed.

(** ** Witnesses *)

Definition sample_header : EnvelopeHeader := {|
  h_len := 300; h_ver := 2; h_ty := FrameType.StreamData;
  h_flags := buildFlags true Interactive true Sheddable;
  h_channel := 513; h_epoch := 70000; h_corr := MAX_CORRELATION
|}.

Definition sample_bytes : list Z :=
  [44; 1; 0; 0; 2; 3; 43; 1; 2; 112; 17; 1; 0; 255; 255; 255; 255; 255; 255; 255; 255].

Lemma sample_is_bytes extra : is_bytes extra → is_bytes (sample_bytes ++ extra).
Proof. intros H. repeat (constructor; [lia|]). exact H. Qed.

Lemma encode_decode_header_witness :
  lengthZ sample_bytes = HEADER_LEN ∧ is_bytes sample_bytes ∧
  decodeHeader sample_bytes = Ok sample_header.
Proof. apply encode_decode_header. vm_compute. reflexivity. Defined.

Lemma decode_encode_header_witness :
  encodeHeader sample_header = Ok (slice_to HEADER_LEN (sample_bytes ++ [7; 8])).
Proof.
  apply decode_encode_header.
  - apply sample_is_bytes. repeat (constructor; [lia|]). constructor.
  - vm_compute. reflexivity.
Defined.

(** Two defects at once: a long body at offset 0 and an unknown type at offset 5. *)
Lemma decodeHeader_errors_witness :
  let bs := [0; 0; 0; 255; 2; 12; 0; 0; 0; 0; 0; 0; 0; 0; 0; 0; 0; 0; 0; 0; 0] in
  breaks bs frame_body_too_large ∧ decodeHeader bs = Err (DecodeError unknown_frame_type) ∧
  first_broken bs judged unknown_frame_type.
Proof.
  intros bs. assert (decodeHeader bs = Err (DecodeError unknown_frame_type)) as E by reflexivity.
  pose proof (decodeHeader_errors bs) as H. rewrite E in H.
  split; [vm_compute; reflexivity|]. split; [exact E|]. apply H.
  repeat (constructor; [lia|]). constructor.
Defined.

Lemma codec_accepts_well_formed_witness :
  fits_layout sample_header ∧ wf_header sample_header.
Proof.
  apply (codec_accepts_well_formed sample_header (sample_bytes ++ [])).
  - apply sample_is_bytes. constructor.
  - vm_compute. reflexivity.
Defined.

Lemma buildFlags_bijective_witness :
  ∃ b p l a, 41 = buildFlags b p l a.
Proof.
  apply (proj1 (proj2 buildFlags_bijective)); [lia|reflexivity|discriminate|discriminate].
Defined.
