(* ===== verification/FrameChannel.v ===== *)
(** * Frame bodies, leases and the byte budget

    Models packages/plugin/src/shared/mc-host-client/frame-channel.ts: the
    receive lease over transport memory, the bounded producer that fills a
    reservation made of several segments, the UTF-8 writer that streams a
    string through it, the byte budget and the per-type header rules.

    Memory is a list of segments, each the list of its bytes.  The callbacks a
    producer or a lease is built with, and the engine's transfer of an
    [ArrayBuffer], are parameters; what they were called with is recorded. *)

From S2P Require Import Prelude JsNumber WireProtocol.

(** ** Byte budget *)

Module ByteBudget.

Record t := mk { cap : Z; used : Z; peak : Z; frozen : bool }.

Definition new (cap : Z) : t := mk cap 0 0 false.

Definition wouldExceed (bytes : Z) (b : t) : bool := cap b <? used b + bytes.

Definition charge (bytes : Z) (b : t) : t :=
  let used' := used b + bytes in
  mk (cap b) used' (if peak b <? used' then used' else peak b) (frozen b).

(** The flag tells whether [onRelease] is notified. *)
Definition release (bytes : Z) (b : t) : t * bool :=
  if frozen b then (b, false)
  else (mk (cap b) (used b - bytes) (peak b) (frozen b), true).

Definition freeze (b : t) : t := mk (cap b) 0 (peak b) true.

End ByteBudget.

(** ** Receive leases *)

Inductive ReceiveReleaseOutcome := released | quarantined.

(** What transferring a segment's buffer does: the structured clone throws, or
    it leaves the buffer with a byte length. *)
Inductive transfer_result := TransferThrows | TransferLeaves (byteLength : nat).

(** A leased segment: its bytes, whether it spans an [ArrayBuffer] exactly,
    whether at release its buffer is still an [ArrayBuffer] and how long, and
    how that buffer reacts to being transferred. *)
Record lease_segment := {
  ls_bytes : list Z;
  ls_exact_bounds : bool;
  ls_is_array_buffer : bool;
  ls_buffer_length : nat;
  ls_transfer : transfer_result
}.

Inductive lease_error :=
| LeaseRangeError
| LeaseReleased
| LeaseQuarantined.

Record ReceiveLease := {
  rl_segments : list lease_segment;
  rl_originalLengths : list nat;
  rl_released : bool;
  (** [detachAliases], when given: its outcome, or [None] when it throws. *)
  rl_detachAliases : option (option ReceiveReleaseOutcome);
  (** [onRelease] calls and owned copies recorded so far. *)
  rl_onRelease : list ReceiveReleaseOutcome;
  rl_copies : Z
}.

Definition new_lease (segments : list lease_segment)
    (detachAliases : option (option ReceiveReleaseOutcome)) : result lease_error ReceiveLease :=
  throw_if (negb (forallb ls_exact_bounds segments)) LeaseRangeError;;
  mret {| rl_segments := segments;
          rl_originalLengths := (fun s => length (ls_bytes s)) <$> segments;
          rl_released := false;
          rl_detachAliases := detachAliases;
          rl_onRelease := [];
          rl_copies := 0 |}.

Definition assertLeaseActive (l : ReceiveLease) : result lease_error unit :=
  throw_if (rl_released l) LeaseReleased.

Definition lease_byteLength (l : ReceiveLease) : result lease_error nat :=
  assertLeaseActive l;; mret (sum_list (rl_originalLengths l)).

Definition lease_segmentCount (l : ReceiveLease) : result lease_error nat :=
  assertLeaseActive l;; mret (length (rl_segments l)).

Definition lease_segment_at (index : Z) (l : ReceiveLease) : result lease_error (list Z) :=
  assertLeaseActive l;;
  match at_index (rl_segments l) index with
  | Some s => mret (ls_bytes s)
  | None => Err LeaseRangeError
  end.

(** One iteration of the detaching loop in [release]. *)
Definition detach_segment (segment : lease_segment) (expected : nat) : ReceiveReleaseOutcome :=
  if negb (ls_is_array_buffer segment) ||
     ((0 <? Z.of_nat expected) && (Z.of_nat (ls_buffer_length segment) =? 0))
  then quarantined
  else match ls_transfer segment with
       | TransferThrows => quarantined
       | TransferLeaves 0 => released
       | TransferLeaves _ => quarantined
       end.

Definition worst (a b : ReceiveReleaseOutcome) : ReceiveReleaseOutcome :=
  match a, b with released, released => released | _, _ => quarantined end.

Definition release_outcome (l : ReceiveLease) : ReceiveReleaseOutcome :=
  match rl_detachAliases l with
  | Some (Some outcome) => outcome
  | Some None => quarantined
  | None => foldr worst released (zip_with detach_segment (rl_segments l) (rl_originalLengths l))
  end.

(** [release()]: the new lease, and whether it returned a boolean or threw. *)
Definition lease_release (l : ReceiveLease) : ReceiveLease * result lease_error bool :=
  if rl_released l then (l, Ok false)
  else
    let outcome := release_outcome l in
    let l' := {| rl_segments := rl_segments l;
                 rl_originalLengths := rl_originalLengths l;
                 rl_released := true;
                 rl_detachAliases := rl_detachAliases l;
                 rl_onRelease := rl_onRelease l ++ [outcome];
                 rl_copies := rl_copies l |} in
    match outcome with
    | quarantined => (l', Err LeaseQuarantined)
    | released => (l', Ok true)
    end.

Definition record_copy (l : ReceiveLease) : ReceiveLease :=
  {| rl_segments := rl_segments l; rl_originalLengths := rl_originalLengths l;
     rl_released := rl_released l; rl_detachAliases := rl_detachAliases l;
     rl_onRelease := rl_onRelease l; rl_copies := rl_copies l + 1 |}.

(** [owned.set(segment, offset)] for each segment in turn: the bytes copied so
    far, or a [RangeError] when a segment does not fit the buffer. *)
Fixpoint copy_segments (capacity : nat) (owned : list Z) (segments : list lease_segment)
    : result lease_error (list Z) :=
  match segments with
  | [] => Ok owned
  | s :: segments =>
      throw_if (Z.of_nat capacity <? lengthZ owned + lengthZ (ls_bytes s)) LeaseRangeError;;
      copy_segments capacity (owned ++ ls_bytes s) segments
  end.

Definition lease_takeOwned (l : ReceiveLease) : ReceiveLease * result lease_error (list Z) :=
  match lease_byteLength l with
  | Err e => (l, Err e)
  | Ok total =>
      match copy_segments total [] (rl_segments l) with
      | Err e => (l, Err e)
      | Ok owned =>
          let '(l', r) := lease_release (record_copy l) in
          (l', match r with Ok _ => Ok owned | Err e => Err e end)
      end
  end.

(** ** The bounded producer *)

Inductive ProducerErrorCode :=
| producer_aborted
| producer_overflow
| producer_underfill
| producer_commit_outside_reservation.

Inductive producer_error :=
| ProducerError (code : ProducerErrorCode)
| ProducerRangeError
| DetachError
| CallbackError.

(** What a producer is built with: how the buffer of the i-th segment reacts to
    being transferred, whether [releaseReservation] returns, and the
    [detachOnCommit] flag.  The callbacks neither re-enter the producer nor
    touch its segments, and no two segments share a buffer. *)
Record producer_env := {
  pe_transfer : nat → transfer_result;
  pe_release_ok : bool;
  pe_detachOnCommit : bool
}.

(** The outcomes of the callbacks of one commit: whether [prepareCommit] and
    the [publish] it returned come back. *)
Record commit_env := {
  ce_prepare_ok : list (list Z) → Z → bool;
  ce_publish_ok : bool
}.

(** The calls of its callbacks, in order: [prepareCommit] with the contents of
    the committed segments, [publish] and [releaseReservation], each recorded
    when it is called, whether or not it returns. *)
Inductive transport_event :=
| PrepareCommit (segments : list (list Z)) (exactLength : Z)
| Publish
| ReleaseReservation.

Record producer := {
  p_segments : list (list Z);
  p_capacity : Z;
  p_env : producer_env;
  p_cursor : Z;
  p_active : bool;
  p_events : list transport_event
}.

Definition set_memory (segments : list (list Z)) (p : producer) : producer :=
  {| p_segments := segments; p_capacity := p_capacity p; p_env := p_env p;
     p_cursor := p_cursor p; p_active := p_active p; p_events := p_events p |}.

Definition set_cursor (cursor : Z) (p : producer) : producer :=
  {| p_segments := p_segments p; p_capacity := p_capacity p; p_env := p_env p;
     p_cursor := cursor; p_active := p_active p; p_events := p_events p |}.

Definition deactivate (p : producer) : producer :=
  {| p_segments := p_segments p; p_capacity := p_capacity p; p_env := p_env p;
     p_cursor := p_cursor p; p_active := false; p_events := p_events p |}.

Definition emit (e : transport_event) (p : producer) : producer :=
  {| p_segments := p_segments p; p_capacity := p_capacity p; p_env := p_env p;
     p_cursor := p_cursor p; p_active := p_active p; p_events := p_events p ++ [e] |}.

(** [this.releaseReservation()]: recorded, and it may throw. *)
Definition release_reservation (p : producer) : producer * result producer_error unit :=
  (emit ReleaseReservation p,
   if pe_release_ok (p_env p) then Ok () else Err CallbackError).

Definition memory_length (segments : list (list Z)) : Z := sumZ lengthZ segments.

(** The constructor: a rejected reservation is given back before the throw.
    Each segment comes with whether it spans an [ArrayBuffer] exactly. *)
Definition new_producer (segments : list (list Z * bool)) (capacity : Z) (env : producer_env)
    : producer * result producer_error unit :=
  let p := {| p_segments := segments.*1; p_capacity := capacity; p_env := env;
              p_cursor := 0; p_active := true; p_events := [] |} in
  if negb (forallb snd segments) ||
     (capacity <? 0) || (2 ^ 53 - 1 <? capacity) ||
     (memory_length (segments.*1) <? capacity)
  then match release_reservation (deactivate p) with
       | (p, Err e) => (p, Err e)
       | (p, Ok _) => (p, Err ProducerRangeError)
       end
  else (p, Ok ()).

Definition p_written (p : producer) : Z := p_cursor p.
Definition p_remaining (p : producer) : Z := p_capacity p - p_cursor p.

(** The loop of [detachProducerAliases(strict)] from segment [index] on: what
    is left of the segments, and whether it returned.  A detached buffer, and
    the segment over it, has length zero. *)
Fixpoint detach_loop (strict : bool) (transfer : nat → transfer_result) (index : nat)
    (segments : list (list Z)) : list (list Z) * bool :=
  match segments with
  | [] => ([], true)
  | segment :: rest =>
      let continue segment :=
        let '(rest, ok) := detach_loop strict transfer (S index) rest in
        (segment :: rest, ok) in
      if lengthZ segment =? 0 then continue segment
      else match transfer index with
           | TransferThrows => if strict then (segment :: rest, false) else continue segment
           | TransferLeaves n =>
               let segment := take n segment in
               if strict && negb (lengthZ segment =? 0) then (segment :: rest, false)
               else continue segment
           end
  end.

Definition detachProducerAliases (strict : bool) (p : producer)
    : producer * result producer_error unit :=
  let '(segments, ok) := detach_loop strict (pe_transfer (p_env p)) 0 (p_segments p) in
  (set_memory segments p, if ok then Ok () else Err DetachError).

Definition abort (p : producer) : producer * result producer_error unit :=
  if negb (p_active p) then (p, Ok ())
  else match release_reservation (deactivate p) with
       | (p, Err e) => (p, Err e)
       | (p, Ok _) => detachProducerAliases false p
       end.

(** An exception [e] follows the abort, unless the abort itself throws. *)
Definition abort_then_throw {A} (e : producer_error) (p : producer)
    : producer * result producer_error A :=
  match abort p with
  | (p, Err e') => (p, Err e')
  | (p, Ok _) => (p, Err e)
  end.

(** [abortWith(code)] never returns. *)
Definition abortWith {A} (code : ProducerErrorCode) (p : producer)
    : producer * result producer_error A := abort_then_throw (ProducerError code) p.

(** The writable view: segment index, offset in it and length; [None] is the
    empty array returned past the last segment. *)
Fixpoint view_in (segments : list (list Z)) (index : nat) (offset remaining : Z)
    : option (nat * Z * Z) :=
  match segments with
  | [] => None
  | segment :: segments =>
      if offset <? lengthZ segment
      then Some (index, offset, Z.min (lengthZ segment) (offset + remaining) - offset)
      else view_in segments (S index) (offset - lengthZ segment) remaining
  end.

Definition p_view (p : producer) : result producer_error (option (nat * Z * Z)) :=
  throw_if (negb (p_active p)) (ProducerError producer_aborted);;
  mret (view_in (p_segments p) 0 (p_cursor p) (p_remaining p)).

Definition advance (bytes : Z) (p : producer) : producer * result producer_error unit :=
  if negb (p_active p) then (p, Err (ProducerError producer_aborted))
  else if (bytes <? 0) || (2 ^ 53 - 1 <? bytes) || (p_remaining p <? bytes)
  then abortWith producer_overflow p
  else (set_cursor (p_cursor p + bytes) p, Ok ()).

(** The copying loop of [write]. *)
Fixpoint write_loop (segments : list (list Z)) (absolute : Z) (source : list Z)
    : list (list Z) :=
  match segments with
  | [] => []
  | segment :: rest =>
      match source with
      | [] => segments
      | _ =>
          if lengthZ segment <=? absolute
          then segment :: write_loop rest (absolute - lengthZ segment) source
          else
            let n := Z.min (lengthZ segment - absolute) (lengthZ source) in
            (slice_to absolute segment ++ slice_to n source ++
             slice_from (absolute + n) segment)
            :: write_loop rest 0 (slice_from n source)
      end
  end.

Definition write (bytes : list Z) (p : producer) : producer * result producer_error unit :=
  if negb (p_active p) then (p, Err (ProducerError producer_aborted))
  else if p_remaining p <? lengthZ bytes then abortWith producer_overflow p
  else (set_cursor (p_cursor p + lengthZ bytes)
          (set_memory (write_loop (p_segments p) (p_cursor p) bytes) p), Ok ()).

Fixpoint committedSegments (segments : list (list Z)) (remaining : Z) : list (list Z) :=
  match segments with
  | [] => []
  | segment :: segments =>
      if remaining =? 0 then []
      else let n := Z.min (lengthZ segment) remaining in
           slice_to n segment :: committedSegments segments (remaining - n)
  end.

Definition commit (env : commit_env) (exactLength : Z) (p : producer)
    : producer * result producer_error unit :=
  if negb (p_active p) then (p, Err (ProducerError producer_aborted))
  else if (exactLength <? 0) || (2 ^ 53 - 1 <? exactLength) || (p_capacity p <? exactLength)
  then abortWith producer_commit_outside_reservation p
  else if negb (p_cursor p =? exactLength) then abortWith producer_underfill p
  else
    let committed := committedSegments (p_segments p) exactLength in
    let p := emit (PrepareCommit committed exactLength) p in
    if negb (ce_prepare_ok env committed exactLength) then abort_then_throw CallbackError p
    else
      let '(p, detached) :=
        if pe_detachOnCommit (p_env p) then detachProducerAliases true p else (p, Ok ()) in
      match detached with
      | Err e => abort_then_throw e p
      | Ok _ =>
          let p := emit Publish (deactivate p) in
          if ce_publish_ok env then (p, Ok ())
          else match release_reservation p with
               | (p, Err e) => (p, Err e)
               | (p, Ok _) => (p, Err CallbackError)
               end
      end.

(** ** The UTF-8 writer *)

(** [encodeCodePoint(codePoint, out)]: the bytes it stores. *)
Definition encodeCodePoint (codePoint : Z) : list Z :=
  if codePoint <=? 0x7f then [codePoint]
  else if codePoint <=? 0x7ff then
    [Z.lor 0xc0 (Z.shiftr codePoint 6); Z.lor 0x80 (Z.land codePoint 0x3f)]
  else if codePoint <=? 0xffff then
    [Z.lor 0xe0 (Z.shiftr codePoint 12);
     Z.lor 0x80 (Z.land (Z.shiftr codePoint 6) 0x3f);
     Z.lor 0x80 (Z.land codePoint 0x3f)]
  else
    [Z.lor 0xf0 (Z.shiftr codePoint 18);
     Z.lor 0x80 (Z.land (Z.shiftr codePoint 12) 0x3f);
     Z.lor 0x80 (Z.land (Z.shiftr codePoint 6) 0x3f);
     Z.lor 0x80 (Z.land codePoint 0x3f)].

Definition is_high_surrogate (u : Z) : bool := (0xd800 <=? u) && (u <=? 0xdbff).
Definition is_low_surrogate (u : Z) : bool := (0xdc00 <=? u) && (u <=? 0xdfff).

(** [text.codePointAt(0)] of a string given by its UTF-16 code units. *)
Definition codePointAt0 (text : list Z) : option Z :=
  match text with
  | [] => None
  | u :: rest =>
      match rest with
      | v :: _ =>
          if is_high_surrogate u && is_low_surrogate v
          then Some (0x10000 + (u - 0xd800) * 0x400 + (v - 0xdc00))
          else Some u
      | [] => Some u
      end
  end.

(** A lone surrogate is replaced by U+FFFD. *)
Definition scalar_of (codePoint : Z) : Z :=
  if (0xd800 <=? codePoint) && (codePoint <=? 0xdfff) then 0xfffd else codePoint.

Definition units_of (codePoint : Z) : nat := if 0xffff <? codePoint then 2 else 1.

(** The scalar values of a string, each with the code units it took. *)
Fixpoint scalars (text : list Z) : list (Z * nat) :=
  match text with
  | [] => []
  | u :: rest =>
      match rest with
      | v :: rest' =>
          if is_high_surrogate u && is_low_surrogate v
          then (0x10000 + (u - 0xd800) * 0x400 + (v - 0xdc00), 2%nat) :: scalars rest'
          else (scalar_of u, 1%nat) :: scalars rest
      | [] => [(scalar_of u, 1%nat)]
      end
  end.

(** UTF-8 of a scalar value as the Encoding Standard states it, with the
    engine's [TextEncoder] as its implementation. *)
Definition utf8_scalar (c : Z) : list Z :=
  if c <? 128 then [c]
  else if c <? 2048 then [192 + c / 64; 128 + c mod 64]
  else if c <? 65536 then [224 + c / 4096; 128 + c / 64 mod 64; 128 + c mod 64]
  else [240 + c / 262144; 128 + c / 4096 mod 64; 128 + c / 64 mod 64; 128 + c mod 64].

Definition utf8_scalars (ss : list (Z * nat)) : list Z := ss ≫= (fun '(c, _) => utf8_scalar c).

(** [Buffer.from(text, "utf8")]. *)
Definition utf8 (text : list Z) : list Z := utf8_scalars (scalars text).

(** [TextEncoder.encodeInto]: as many whole scalar values as fit the room. *)
Fixpoint encode_fit (ss : list (Z * nat)) (room : Z) : list Z * nat :=
  match ss with
  | [] => ([], 0%nat)
  | (c, w) :: ss =>
      if room <? lengthZ (utf8_scalar c) then ([], 0%nat)
      else let '(bytes, read) := encode_fit ss (room - lengthZ (utf8_scalar c)) in
           (utf8_scalar c ++ bytes, (w + read)%nat)
  end.

Definition encodeInto (text : list Z) (room : Z) : list Z * nat :=
  encode_fit (scalars text) room.

(** Storing bytes through the array [view()] returned. *)
Definition poke_view (view : option (nat * Z * Z)) (bytes : list Z)
    (segments : list (list Z)) : list (list Z) :=
  match view with
  | Some (index, offset, _) =>
      alter (fun segment => slice_to offset segment ++ bytes ++
                            slice_from (offset + lengthZ bytes) segment) index segments
  | None => segments
  end.

Definition view_room (view : option (nat * Z * Z)) : Z :=
  match view with Some (_, _, n) => n | None => 0 end.

(** The loop of [writeUtf8] over the text still to be written. *)
Fixpoint writeUtf8_loop (fuel : nat) (text : list Z) (p : producer)
    : producer * result producer_error unit :=
  match text, fuel with
  | [], _ => (p, Ok ())
  | _, O => (p, Err ProducerRangeError)
  | _, S fuel =>
      match p_view p with
      | Err e => (p, Err e)
      | Ok view =>
          let '(encoded, read) := encodeInto text (view_room view) in
          if (0 <? read)%nat then
            let p := set_memory (poke_view view encoded (p_segments p)) p in
            match advance (lengthZ encoded) p with
            | (p, Err e) => (p, Err e)
            | (p, Ok _) => writeUtf8_loop fuel (drop read text) p
            end
          else
            match codePointAt0 text with
            | None => (p, Err ProducerRangeError)
            | Some sourceCodePoint =>
                match write (encodeCodePoint (scalar_of sourceCodePoint)) p with
                | (p, Err e) => (p, Err e)
                | (p, Ok _) => writeUtf8_loop fuel (drop (units_of sourceCodePoint) text) p
                end
            end
      end
  end.

Definition writeUtf8 (text : list Z) (byteLength : Z) (p : producer)
    : producer * result producer_error unit :=
  let initialWritten := p_written p in
  match writeUtf8_loop (length text) text p with
  | (p, Err e) => (p, Err e)
  | (p, Ok _) =>
      if negb (p_written p - initialWritten =? byteLength)
      then (p, Err ProducerRangeError) else (p, Ok ())
  end.

(** [utf8FrameBody(text)] and [bytesFrameBody(bytes)]: a body's length and how
    it fills a producer. *)
Record DirectFrameBody := {
  fb_byteLength : Z;
  fb_fill : producer → producer * result producer_error unit
}.

Definition bytesFrameBody (bytes : list Z) : DirectFrameBody :=
  {| fb_byteLength := lengthZ bytes; fb_fill := write bytes |}.

Definition utf8FrameBody (text : list Z) : DirectFrameBody :=
  {| fb_byteLength := lengthZ (utf8 text);
     fb_fill := writeUtf8 text (lengthZ (utf8 text)) |}.

(** ** Header rules of the inbound direction *)

Inductive violation := role_violation | protocol_violation.

Definition headerViolation (header : EnvelopeHeader) : option violation :=
  let ty := h_ty header in
  if negb (isLegalHostToConsumerType ty) then Some role_violation
  else if (ty =? FrameType.Response) || (ty =? FrameType.Error) ||
          (ty =? FrameType.StreamData) || (ty =? FrameType.StreamEnd) then
    if h_corr header =? 0 then Some protocol_violation
    else if (ty =? FrameType.StreamEnd) && negb (h_len header =? 0)
    then Some protocol_violation else None
  else if ty =? FrameType.Ping then
    if negb (h_channel header =? 0) || (h_corr header =? 0)
    then Some protocol_violation else None
  else if ty =? FrameType.Push then
    if negb (h_corr header =? 0) || (h_channel header =? 0)
    then Some protocol_violation else None
  else if ty =? FrameType.Goodbye then
    if negb (h_corr header =? 0) then Some protocol_violation else None
  else None.

(** ** Specification *)

Definition flat (p : producer) : list Z := concat (p_segments p).

(** The memory after [bytes] are stored at an absolute position. *)
Definition patch (memory : list Z) (position : Z) (bytes : list Z) : list Z :=
  slice_to position memory ++ bytes ++ slice_from (position + lengthZ bytes) memory.

(** The traces of an inactive producer: the reservation was given back without
    a commit, after a commit that failed before publication, or after a
    [publish] that threw; or it was handed over for publication. *)
Inductive settled : list transport_event → Prop :=
| settled_aborted : settled [ReleaseReservation]
| settled_commit_failed committed n : settled [PrepareCommit committed n; ReleaseReservation]
| settled_published committed n : settled [PrepareCommit committed n; Publish]
| settled_publish_failed committed n :
    settled [PrepareCommit committed n; Publish; ReleaseReservation].

(** A transport whose buffers detach and whose release returns. *)
Definition detaches (env : producer_env) : Prop :=
  pe_detachOnCommit env = true ∧ pe_release_ok env = true ∧
  ∀ i, pe_transfer env i = TransferLeaves 0.

(** The producer invariant: the cursor stays within the capacity; while it is
    active the capacity is within the memory and the transport has heard
    nothing; once it is inactive the trace is settled, and over a transport
    that detaches no memory is left. *)
Record wf_producer (p : producer) : Prop := {
  wfp_cursor : 0 ≤ p_cursor p ≤ p_capacity p;
  wfp_active : if p_active p
    then p_capacity p ≤ lengthZ (flat p) ∧ p_events p = []
    else settled (p_events p) ∧ (detaches (p_env p) → flat p = [])
}.

(** [q] is [p] after [bytes] were appended to what it had written. *)
Record stored (p : producer) (bytes : list Z) (q : producer) : Prop := {
  st_memory : flat q = patch (flat p) (p_cursor p) bytes;
  st_cursor : p_cursor q = p_cursor p + lengthZ bytes;
  st_active : p_active q = p_active p;
  st_capacity : p_capacity q = p_capacity p;
  st_env : p_env q = p_env p;
  st_events : p_events q = p_events p
}.

(** The operations a holder of the producer can perform, in any order. *)
Inductive producer_step : producer → producer → Prop :=
| step_advance n p : producer_step p (advance n p).1
| step_write bytes p : producer_step p (write bytes p).1
| step_fill view bytes p :
    p_view p = Ok view → lengthZ bytes ≤ view_room view →
    producer_step p (set_memory (poke_view view bytes (p_segments p)) p)
| step_utf8 text n p : producer_step p (writeUtf8 text n p).1
| step_abort p : producer_step p (abort p).1
| step_commit env n p : producer_step p (commit env n p).1.

(** ** Lemmas: memory *)

Section memory.
Implicit Types memory bytes : list Z.

Lemma patch_length memory position bytes :
  0 ≤ position → position + lengthZ bytes ≤ lengthZ memory →
  lengthZ (patch memory position bytes) = lengthZ memory.
Proof.
  unfold patch, slice_to, slice_from, lengthZ. intros ??.
  rewrite !length_app, length_take, length_drop. lia.
Qed.

Lemma patch_nil memory position : 0 ≤ position → patch memory position [] = memory.
Proof.
  intros ?. unfold patch, slice_to, slice_from, lengthZ. cbn [length app].
  rewrite Z.add_0_r. apply take_drop.
Qed.

(** What lies before the patched range and the range itself. *)
Lemma patch_prefix memory position bytes :
  0 ≤ position → position + lengthZ bytes ≤ lengthZ memory →
  slice_to (position + lengthZ bytes) (patch memory position bytes)
  = slice_to position memory ++ bytes.
Proof.
  intros ??. unfold patch, slice_to, slice_from. rewrite app_assoc. apply take_app_length'.
  unfold lengthZ in *. rewrite length_app, length_take. lia.
Qed.

(** Two adjacent patches are one. *)
Lemma patch_patch memory position b1 b2 :
  0 ≤ position → position + lengthZ b1 + lengthZ b2 ≤ lengthZ memory →
  patch (patch memory position b1) (position + lengthZ b1) b2 = patch memory position (b1 ++ b2).
Proof.
  intros ??.
  assert (0 ≤ lengthZ b1) by auto with magic. assert (0 ≤ lengthZ b2) by auto with magic.
  unfold patch at 1. rewrite patch_prefix by lia.
  unfold patch. rewrite lengthZ_app, <- !app_assoc. do 2 f_equal. f_equal.
  unfold slice_from, slice_to. rewrite app_assoc, drop_app_ge.
  - rewrite drop_drop, length_app, length_take. f_equal. unfold lengthZ in *. lia.
  - rewrite length_app, length_take. unfold lengthZ in *. lia.
Qed.

(** A patch that lies in the part after a prefix, and one inside the prefix. *)
Lemma patch_app_r m1 m2 position bytes :
  lengthZ m1 ≤ position →
  patch (m1 ++ m2) position bytes = m1 ++ patch m2 (position - lengthZ m1) bytes.
Proof.
  intros ?. assert (0 ≤ lengthZ bytes) by auto with magic.
  unfold patch, slice_to, slice_from, lengthZ in *.
  rewrite take_app_ge, drop_app_ge, <- app_assoc by lia.
  do 2 f_equal; [f_equal; lia|]. f_equal. f_equal. lia.
Qed.

Lemma patch_app_l m1 m2 position bytes :
  0 ≤ position → position + lengthZ bytes ≤ lengthZ m1 →
  patch (m1 ++ m2) position bytes = patch m1 position bytes ++ m2.
Proof.
  intros ??. assert (0 ≤ lengthZ bytes) by auto with magic.
  unfold patch, slice_to, slice_from, lengthZ in *.
  rewrite take_app_le, drop_app_le, <- !app_assoc by lia. done.
Qed.

Lemma slice_split (n : Z) memory : slice_to n memory ++ slice_from n memory = memory.
Proof. apply take_drop. Qed.

Lemma slice_to_length (n : Z) memory :
  0 ≤ n ≤ lengthZ memory → lengthZ (slice_to n memory) = n.
Proof. unfold slice_to, lengthZ. rewrite length_take. lia. Qed.

Lemma memory_length_flat segments : memory_length segments = lengthZ (concat segments).
Proof.
  unfold memory_length, sumZ. induction segments as [|s segments IH]; [done|].
  cbn [foldr fold_right concat]. rewrite lengthZ_app, IH. done.
Qed.

(** Writing across segments is one patch of the flat memory. *)
Lemma write_loop_patch segments absolute source :
  0 ≤ absolute → absolute + lengthZ source ≤ lengthZ (concat segments) →
  concat (write_loop segments absolute source) = patch (concat segments) absolute source.
Proof.
  revert absolute source.
  induction segments as [|s segments IH]; intros absolute source Ha Hs.
  - cbn [concat] in *. assert (lengthZ (@nil Z) = 0) as E by done. rewrite E in Hs.
    destruct source as [|x source].
    + rewrite patch_nil by done. done.
    + unfold lengthZ in Hs. cbn [length] in Hs. lia.
  - cbn [write_loop]. destruct source as [|x source]; [by rewrite patch_nil|].
    set (src := x :: source) in *. cbn [concat] in *. rewrite lengthZ_app in Hs.
    assert (0 ≤ lengthZ src) by auto with magic.
    destruct (lengthZ s <=? absolute) eqn:Hle; cbn [concat].
    + rewrite IH by lia. rewrite patch_app_r by lia. done.
    + set (n := Z.min (lengthZ s - absolute) (lengthZ src)).
      assert (lengthZ (slice_to n src) = n) as Hn by (apply slice_to_length; lia).
      assert (lengthZ (slice_from n src) = lengthZ src - n) as Hm.
      { pose proof (f_equal lengthZ (slice_split n src)) as E.
        rewrite lengthZ_app in E. lia. }
      assert (0 ≤ lengthZ (concat segments)) by auto with magic.
      rewrite IH by (rewrite ?Hm; lia).
      replace (slice_to absolute s ++ slice_to n src ++ slice_from (absolute + n) s)
        with (patch s absolute (slice_to n src)) by (unfold patch; rewrite Hn; done).
      trans (patch (s ++ concat segments) absolute (slice_to n src ++ slice_from n src));
        [|by rewrite slice_split].
      rewrite <- patch_patch by (rewrite ?lengthZ_app, ?Hn, ?Hm; lia).
      rewrite Hn, patch_app_l by lia.
      destruct (Z.eq_dec n (lengthZ src)) as [E|E].
      * assert (slice_from n src = []) as ->.
        { apply length_zero_iff_nil. unfold lengthZ in *. lia. }
        rewrite !patch_nil by lia. done.
      * assert (absolute + n = lengthZ s) as -> by lia.
        rewrite patch_app_r by (rewrite patch_length; lia).
        rewrite patch_length, Z.sub_diag by lia. done.
Qed.

Lemma view_in_room segments index offset remaining i o n :
  0 ≤ remaining → view_in segments index offset remaining = Some (i, o, n) → n ≤ remaining.
Proof.
  intros Hr. revert index offset. induction segments as [|s segments IH]; intros index offset H;
    [done|]. cbn [view_in] in H. case_match; [|eauto]. simplify_eq. lia.
Qed.

(** Storing through the view is a patch at the cursor. *)
Lemma poke_view_patch segments index offset remaining i o n bytes :
  0 ≤ offset → view_in segments index offset remaining = Some (i, o, n) → lengthZ bytes ≤ n →
  (index ≤ i)%nat ∧
  concat (poke_view (Some ((i - index)%nat, o, n)) bytes segments)
  = patch (concat segments) offset bytes ∧ offset + lengthZ bytes ≤ lengthZ (concat segments).
Proof.
  revert index offset. induction segments as [|s segments IH];
    intros index offset Ho Hv Hn; [done|].
  cbn [view_in] in Hv. destruct (offset <? lengthZ s) eqn:Hlt.
  - simplify_eq. rewrite Nat.sub_diag. cbn. rewrite lengthZ_app.
    assert (0 ≤ lengthZ (concat segments)) by auto with magic.
    split; [done|]. rewrite patch_app_l by lia. split; [done|lia].
  - apply IH in Hv as (? & Hc & ?); [|lia|done].
    split; [lia|]. replace (i - index)%nat with (S (i - S index)) by lia.
    cbn [poke_view alter list_alter concat] in *. rewrite Hc, patch_app_r, lengthZ_app by lia.
    split; [done|lia].
Qed.

Lemma view_in_None segments index offset remaining :
  0 ≤ offset → view_in segments index offset remaining = None → lengthZ (concat segments) ≤ offset.
Proof.
  revert index offset. induction segments as [|s segments IH]; intros index offset Ho H.
  - cbn. unfold lengthZ. cbn. lia.
  - cbn [view_in] in H. case_match; [done|]. cbn [concat]. rewrite lengthZ_app.
    apply IH in H; lia.
Qed.

(** The committed segments hold exactly the written prefix. *)
Lemma committedSegments_flat segments n :
  0 ≤ n ≤ lengthZ (concat segments) →
  concat (committedSegments segments n) = slice_to n (concat segments).
Proof.
  revert n. induction segments as [|s segments IH]; intros n Hn.
  - cbn. unfold slice_to. by rewrite take_nil.
  - cbn [committedSegments]. destruct (n =? 0) eqn:E.
    + assert (n = 0) as -> by lia. done.
    + cbn [concat] in *. rewrite lengthZ_app in Hn. assert (0 ≤ lengthZ s) by auto with magic.
      assert (0 ≤ lengthZ (concat segments)) by auto with magic.
      rewrite IH by lia. unfold slice_to, lengthZ in *. rewrite take_app.
      f_equal; [|f_equal; lia].
      destruct (decide (Z.of_nat (length s) ≤ n)) as [Hge|Hlt].
      * rewrite !take_ge by lia. done.
      * f_equal. lia.
Qed.

End memory.

(** ** Lemmas: UTF-8 *)

Section utf8.

(** Code units of a JavaScript string. *)
Definition is_units (text : list Z) : Prop := Forall (fun u => 0 ≤ u < 65536) text.

Lemma continuation_byte c : Z.lor 128 (Z.land c 63) = 128 + c mod 64.
Proof.
  change 63 with (2 ^ 6 - 1). rewrite land_ones_mod by lia. apply (lor_low_bits 2 _ 6); [lia|].
  apply Z.mod_pos_bound. lia.
Qed.

Lemma encodeCodePoint_utf8 c : 0 ≤ c < 0x110000 → encodeCodePoint c = utf8_scalar c.
Proof.
  intros Hc. unfold encodeCodePoint, utf8_scalar.
  rewrite !continuation_byte, !Z.shiftr_div_pow2 by lia.
  change (2 ^ 6) with 64. change (2 ^ 12) with 4096. change (2 ^ 18) with 262144.
  destruct (c <=? 127) eqn:?; [rewrite (proj2 (Z.ltb_lt c 128)) by lia; done|].
  rewrite (proj2 (Z.ltb_ge c 128)) by lia.
  destruct (c <=? 2047) eqn:?.
  { rewrite (proj2 (Z.ltb_lt c 2048)) by lia. f_equal.
    apply (lor_low_bits 6 _ 5); [lia|]. split; [apply Z.div_pos; lia|].
    apply Z.div_lt_upper_bound; lia. }
  rewrite (proj2 (Z.ltb_ge c 2048)) by lia.
  destruct (c <=? 65535) eqn:?.
  { rewrite (proj2 (Z.ltb_lt c 65536)) by lia. f_equal.
    apply (lor_low_bits 14 _ 4); [lia|]. split; [apply Z.div_pos; lia|].
    apply Z.div_lt_upper_bound; lia. }
  rewrite (proj2 (Z.ltb_ge c 65536)) by lia. f_equal.
  apply (lor_low_bits 30 _ 3); [lia|]. split; [apply Z.div_pos; lia|].
  apply Z.div_lt_upper_bound; lia.
Qed.

(** A non-empty string starts with one scalar value. *)
Lemma scalars_cons text :
  is_units text → text ≠ [] →
  ∃ source, codePointAt0 text = Some source ∧ 0 ≤ scalar_of source < 0x110000 ∧
    (1 ≤ units_of source ≤ length text)%nat ∧
    scalars text = (scalar_of source, units_of source) :: scalars (drop (units_of source) text).
Proof.
  intros Hu Hne. destruct text as [|u [|v rest]]; [done| |].
  - apply Forall_cons in Hu as [? _]. exists u. split; [done|].
    assert (units_of u = 1%nat) as -> by (unfold units_of; case_match; lia).
    split; [unfold scalar_of; case_match; lia|]. cbn [length]. split; [lia|done].
  - apply Forall_cons in Hu as [? [? _]%Forall_cons]. cbn [codePointAt0 scalars].
    destruct (is_high_surrogate u && is_low_surrogate v) eqn:E.
    + unfold is_high_surrogate, is_low_surrogate in E. bool_hyps.
      eexists; split; [done|]. unfold scalar_of, units_of.
      rewrite (proj2 (Z.ltb_lt 0xffff _)) by lia.
      rewrite (proj2 (andb_false_iff _ _)) by (right; lia).
      cbn [length drop]. split; [lia|]. split; [lia|done].
    + exists u. split; [done|].
      assert (units_of u = 1%nat) as -> by (unfold units_of; case_match; lia).
      split; [unfold scalar_of; case_match; lia|]. cbn [length]. split; [lia|done].
Qed.

Lemma is_units_drop n text : is_units text → is_units (drop n text).
Proof. apply Forall_drop. Qed.

(** Strings by their scalar values. *)
Lemma scalars_ind (P : list Z → Prop) :
  P [] →
  (∀ text source, is_units text → text ≠ [] → codePointAt0 text = Some source →
    P (drop (units_of source) text) → P text) →
  ∀ text, is_units text → P text.
Proof.
  intros Hnil Hcons text. remember (length text) as n eqn:Hn.
  revert text Hn. induction n as [n IH] using lt_wf_ind. intros text -> Hu.
  destruct (decide (text = [])) as [->|Hne]; [done|].
  destruct (scalars_cons text Hu Hne) as (source & Hs & _ & ? & _).
  apply (Hcons text source); [done..|]. eapply IH; [|done|by apply is_units_drop].
  rewrite length_drop. lia.
Qed.

Lemma utf8_cons text source :
  is_units text → text ≠ [] → codePointAt0 text = Some source →
  utf8 text = encodeCodePoint (scalar_of source) ++ utf8 (drop (units_of source) text).
Proof.
  intros Hu Hne Hs. destruct (scalars_cons text Hu Hne) as (s & Hs' & ? & _ & E).
  simplify_eq. rewrite encodeCodePoint_utf8 by done. unfold utf8. rewrite E. done.
Qed.

(** [encodeInto] consumes whole scalar values and nothing it has no room for. *)
Lemma encodeInto_spec text : is_units text → ∀ room bytes read,
  0 ≤ room → encodeInto text room = (bytes, read) →
  lengthZ bytes ≤ room ∧ (read ≤ length text)%nat ∧
  bytes ++ utf8 (drop read text) = utf8 text.
Proof.
  revert text. refine (scalars_ind _ _ _).
  - intros room bytes read Hr [= <- <-]. split; [done|]. split; [done|]. done.
  - intros text source Hu Hne Hs IH room bytes read Hr He.
    rewrite (utf8_cons text source Hu Hne Hs).
    destruct (scalars_cons text Hu Hne) as (s & Hs' & Hsc & Hw & E). simplify_eq.
    rewrite encodeCodePoint_utf8 by done.
    unfold encodeInto in He. rewrite E in He. cbn [encode_fit] in He.
    destruct (room <? lengthZ (utf8_scalar (scalar_of source))) eqn:Hfit.
    { simplify_eq. split; [done|]. split; [lia|].
      rewrite drop_0. cbn [app]. rewrite (utf8_cons text source Hu Hne Hs), encodeCodePoint_utf8 by done.
      done. }
    destruct (encode_fit _ _) as [bs rd] eqn:Hrec. simplify_eq.
    apply IH in Hrec as (? & Hl & Heq); [|lia].
    rewrite lengthZ_app. split; [lia|]. rewrite length_drop in Hl. split; [lia|].
    rewrite <- app_assoc. f_equal. rewrite <- Heq, drop_drop. done.
Qed.

End utf8.

(** ** Lemmas: producer operations *)

Section producer_ops.
Implicit Types p q : producer.

(** What every operation keeps: the invariant, what the producer was built
    with and, as long as it stays active, the size of the memory. *)
Definition keeps (p q : producer) : Prop :=
  wf_producer p →
  wf_producer q ∧ p_capacity q = p_capacity p ∧ p_env q = p_env p ∧
  (p_active q = true → p_active p = true ∧ lengthZ (flat q) = lengthZ (flat p)).

Lemma keeps_refl p : keeps p p.
Proof. by intros ?. Qed.

Lemma keeps_trans p q r : keeps p q → keeps q r → keeps p r.
Proof.
  intros H1 H2 Hp. destruct (H1 Hp) as (Hq & ? & ? & Hpq). destruct (H2 Hq) as (? & ? & ? & Hqr).
  split_and!; [done|congruence..|]. intros Hr.
  destruct (Hqr Hr) as [Hqa ?]. destruct (Hpq Hqa). split; [done|lia].
Qed.

Lemma detach_loop_empty strict transfer index segments :
  (∀ i, transfer i = TransferLeaves 0) →
  concat (detach_loop strict transfer index segments).1 = [] ∧
  (detach_loop strict transfer index segments).2 = true.
Proof.
  intros Ht. revert index. induction segments as [|s segments IH]; intros index; [done|].
  cbn [detach_loop]. destruct (IH (S index)) as [E1 E2].
  destruct (detach_loop strict transfer (S index) segments) as [rest ok]. cbn in E1, E2. subst ok.
  rewrite Ht. cbn [take]. rewrite andb_false_r.
  destruct (lengthZ s =? 0) eqn:Hz; cbn [fst snd concat]; [|done].
  assert (s = []) as -> by (apply length_zero_iff_nil; unfold lengthZ in Hz; lia). done.
Qed.

Lemma detach_spec strict p :
  let q := (detachProducerAliases strict p).1 in
  q = set_memory (p_segments q) p ∧
  ((∀ i, pe_transfer (p_env p) i = TransferLeaves 0) → flat q = []).
Proof.
  unfold detachProducerAliases, flat.
  pose proof (detach_loop_empty strict (pe_transfer (p_env p)) 0 (p_segments p)) as He.
  destruct (detach_loop _ _ _ _) as [segments ok]. cbn. split; [done|]. intros Ht.
  by apply He.
Qed.

(** An inactive producer after its trace is settled. *)
Lemma keeps_settled p q :
  p_cursor q = p_cursor p → p_capacity q = p_capacity p → p_env q = p_env p →
  p_active q = false → settled (p_events q) → (detaches (p_env p) → flat q = []) → keeps p q.
Proof.
  intros Hc Hcap He Ha Hs Hd [Hcur _]. split_and!; [|done..|by rewrite Ha].
  constructor; [by rewrite Hc, Hcap|]. rewrite Ha, He. done.
Qed.

(** Every way out of [abort] on an active producer. *)
Lemma abort_spec p :
  p_active p = true →
  let q := (abort p).1 in
  p_cursor q = p_cursor p ∧ p_capacity q = p_capacity p ∧ p_env q = p_env p ∧
  p_active q = false ∧ p_events q = p_events p ++ [ReleaseReservation] ∧
  (detaches (p_env p) → flat q = []).
Proof.
  intros Hact. unfold abort. rewrite Hact. cbn [negb]. unfold release_reservation.
  change (p_env (deactivate p)) with (p_env p).
  destruct (pe_release_ok (p_env p)) eqn:Hrel.
  - destruct (detach_spec false (emit ReleaseReservation (deactivate p))) as [E Hd].
    set (q := (detachProducerAliases _ _).1) in *. rewrite E. cbn.
    split_and!; [done..|]. intros (_ & _ & Ht). unfold flat in *. cbn. by apply Hd.
  - cbn. split_and!; [done..|]. intros (_ & ? & _). congruence.
Qed.

Lemma fst_abort_then_throw {A} e p : (@abort_then_throw A e p).1 = (abort p).1.
Proof. unfold abort_then_throw. by destruct (abort p) as [? [[]|]]. Qed.

Lemma keeps_abort p : keeps p (abort p).1.
Proof.
  destruct (p_active p) eqn:Hact.
  - intros Hw. destruct (abort_spec p Hact) as (?&?&?&?& He &?).
    pose proof (wfp_active _ Hw) as Ha. rewrite Hact in Ha. destruct Ha as [_ Ha].
    rewrite Ha in He. apply keeps_settled; try done. rewrite He. constructor.
  - unfold abort. rewrite Hact. apply keeps_refl.
Qed.

Lemma keeps_abort_then_throw {A} e p : keeps p (@abort_then_throw A e p).1.
Proof. rewrite fst_abort_then_throw. apply keeps_abort. Qed.

Lemma keeps_set_cursor p c :
  p_active p = true → 0 ≤ c ≤ p_capacity p → keeps p (set_cursor c p).
Proof. intros ?? [??]. split_and!; [by constructor|done..]. Qed.

Lemma keeps_set_memory p segments :
  p_active p = true → lengthZ (concat segments) = lengthZ (flat p) →
  keeps p (set_memory segments p).
Proof.
  intros Hact E [? Ha]. split_and!; [|done..]. constructor; [done|].
  change (p_active (set_memory segments p)) with (p_active p). rewrite Hact in *.
  unfold flat in *. cbn. destruct Ha. split; [lia|done].
Qed.

Lemma keeps_advance n p : keeps p (advance n p).1.
Proof.
  unfold advance. repeat case_match; cbn [fst abortWith]; try apply keeps_refl;
    try apply keeps_abort_then_throw.
  bool_hyps. intros Hw. pose proof (wfp_cursor _ Hw). unfold p_remaining in *.
  apply keeps_set_cursor; [done|lia|done].
Qed.

Lemma write_ok p bytes :
  wf_producer p → p_active p = true → lengthZ bytes ≤ p_remaining p →
  ∃ q, write bytes p = (q, Ok ()) ∧ stored p bytes q.
Proof.
  intros [? Ha] Hact Hr. rewrite Hact in Ha. destruct Ha.
  unfold write. rewrite Hact. cbn [negb].
  rewrite (proj2 (Z.ltb_ge _ _) Hr). eexists; split; [done|].
  unfold p_remaining, flat in *. constructor; cbn; [|done..].
  unfold flat. cbn. rewrite write_loop_patch by lia. done.
Qed.

Lemma write_overflow p bytes :
  p_active p = true → p_remaining p < lengthZ bytes → (write bytes p).1 = (abort p).1.
Proof.
  intros Hact Hr. unfold write. rewrite Hact, (proj2 (Z.ltb_lt _ _) Hr).
  apply fst_abort_then_throw.
Qed.

Lemma keeps_write bytes p : keeps p (write bytes p).1.
Proof.
  destruct (p_active p) eqn:Hact.
  2:{ unfold write. rewrite Hact. apply keeps_refl. }
  intros Hw.
  destruct (decide (lengthZ bytes ≤ p_remaining p)) as [Hle|Hgt].
  - destruct (write_ok p bytes Hw Hact Hle) as (q & E & [Hf Hc Ha Hcap He Hev]).
    rewrite E. cbn [fst]. destruct Hw as [? Hw]. rewrite Hact in Hw. destruct Hw.
    unfold p_remaining in *.
    assert (lengthZ (flat q) = lengthZ (flat p)) as Hl by (rewrite Hf, patch_length; lia).
    assert (0 ≤ lengthZ bytes) by auto with magic.
    split_and!; [|done..|done]. constructor; [lia|]. rewrite Ha, Hact, Hev. split; [lia|done].
  - rewrite write_overflow by (done || lia). by apply keeps_abort.
Qed.

Lemma p_view_ok p view :
  p_view p = Ok view →
  p_active p = true ∧ view_in (p_segments p) 0 (p_cursor p) (p_remaining p) = view.
Proof. unfold p_view. intros Hv. inv_ok. split; [by apply negb_false_iff|done]. Qed.

(** Filling (part of) the view. *)
Lemma poke_ok p view bytes :
  wf_producer p → p_view p = Ok view → lengthZ bytes ≤ view_room view →
  concat (poke_view view bytes (p_segments p)) = patch (flat p) (p_cursor p) bytes ∧
  lengthZ bytes ≤ p_remaining p.
Proof.
  intros [? Hw] [Hact Hv]%p_view_ok Hb. rewrite Hact in Hw. destruct Hw.
  unfold p_remaining, flat in *.
  assert (0 ≤ lengthZ bytes) by auto with magic.
  destruct view as [[[i o] n]|].
  - cbn [view_room] in Hb.
    assert (n ≤ p_capacity p - p_cursor p) by (eapply view_in_room; [|exact Hv]; lia).
    eapply poke_view_patch in Hv as (? & E & ?); [|lia|done].
    rewrite Nat.sub_0_r in E. split; [done|lia].
  - cbn [view_room poke_view] in *. assert (bytes = []) as ->.
    { apply length_zero_iff_nil. unfold lengthZ in *. lia. }
    rewrite patch_nil by lia. split; [done|]. unfold lengthZ. cbn. lia.
Qed.

Lemma keeps_poke p view bytes :
  p_view p = Ok view → lengthZ bytes ≤ view_room view →
  keeps p (set_memory (poke_view view bytes (p_segments p)) p).
Proof.
  intros Hv Hb Hw. destruct (poke_ok p view bytes Hw Hv Hb) as [E ?].
  apply p_view_ok in Hv as [Hact _]. apply keeps_set_memory; [done| |done].
  destruct Hw as [? Hw]. rewrite Hact in Hw. destruct Hw. unfold p_remaining in *.
  rewrite E, patch_length; lia.
Qed.

Lemma view_room_nonneg p view : wf_producer p → p_view p = Ok view → 0 ≤ view_room view.
Proof.
  intros [??] [_ Hv]%p_view_ok. destruct view as [[[i o] n]|]; [|done].
  cbn [view_room]. unfold p_remaining in *. revert Hv. generalize 0%nat.
  assert (0 ≤ p_cursor p) as Hc by lia. revert Hc. generalize (p_cursor p) at 1 2.
  induction (p_segments p) as [|s ss IH]; intros off Ho idx Hv; [done|].
  cbn [view_in] in Hv. case_match; [simplify_eq; lia|]. eapply IH; [|done]. lia.
Qed.

Lemma encode_fit_room ss room bytes read :
  0 ≤ room → encode_fit ss room = (bytes, read) → lengthZ bytes ≤ room.
Proof.
  revert room bytes read. induction ss as [|[c w] ss IH]; intros room bytes read Hr; cbn.
  - intros [= <- <-]. done.
  - case_match; [by intros [= <- <-]|]. destruct (encode_fit _ _) eqn:E. intros [= <- <-].
    apply IH in E; [|lia]. rewrite lengthZ_app. lia.
Qed.

Lemma keeps_writeUtf8_loop fuel text p : keeps p (writeUtf8_loop fuel text p).1.
Proof.
  revert text p. induction fuel as [|fuel IH]; intros text p;
    destruct text as [|u text]; try apply keeps_refl.
  intros Hw. cbn [writeUtf8_loop]. set (t := u :: text) in *.
  destruct (p_view p) as [view|] eqn:Hv; [|by apply keeps_refl].
  destruct (encodeInto t (view_room view)) as [encoded read] eqn:He.
  pose proof (encode_fit_room _ _ _ _ (view_room_nonneg _ _ Hw Hv) He) as Hroom.
  destruct (0 <? read)%nat.
  - pose proof (keeps_poke p view encoded Hv Hroom) as Hk.
    set (p1 := set_memory _ p) in *.
    pose proof (keeps_advance (lengthZ encoded) p1) as Ha.
    destruct (advance (lengthZ encoded) p1) as [p2 [[]|e]]; cbn [fst] in *;
      pose proof (keeps_trans _ _ _ Hk Ha) as Hk2; [|by apply Hk2].
    eapply keeps_trans; [exact Hk2|apply IH|done].
  - destruct (codePointAt0 t) as [source|]; [|by apply keeps_refl].
    pose proof (keeps_write (encodeCodePoint (scalar_of source)) p) as Hk.
    destruct (write _ p) as [p2 [[]|e]]; cbn [fst] in *; [|by apply Hk].
    eapply keeps_trans; [exact Hk|apply IH|done].
Qed.

Lemma keeps_writeUtf8 text n p : keeps p (writeUtf8 text n p).1.
Proof.
  unfold writeUtf8. pose proof (keeps_writeUtf8_loop (length text) text p).
  destruct (writeUtf8_loop _ _ _) as [q [[]|e]]; [case_match|]; done.
Qed.

(** What follows [prepareCommit] in a commit, whatever the callbacks do. *)
Lemma commit_prepared_settled env committed n p :
  p_active p = true → p_events p = [] →
  let q := emit (PrepareCommit committed n) p in
  let d := if pe_detachOnCommit (p_env q) then detachProducerAliases true q else (q, Ok ()) in
  keeps p (match d with
           | (q, Err e) => abort_then_throw e q
           | (q, Ok _) =>
               if ce_publish_ok env then (emit Publish (deactivate q), Ok ())
               else match release_reservation (emit Publish (deactivate q)) with
                    | (q, Err e) => (q, Err e)
                    | (q, Ok _) => (q, Err CallbackError)
                    end
           end).1.
Proof.
  intros Hact Hev q d.
  assert (d.1 = set_memory (p_segments d.1) q ∧ (detaches (p_env p) → flat d.1 = [])) as [E Hd].
  { subst d. destruct (pe_detachOnCommit (p_env q)) eqn:Hdet.
    - destruct (detach_spec true q) as [E Hd]. split; [done|]. intros (_ & _ & Ht). by apply Hd.
    - split; [by destruct p|]. intros (Hdet' & _). unfold q in Hdet. cbn in Hdet. congruence. }
  destruct d as [d r]. cbn [fst] in *.
  assert (p_active d = true ∧ p_cursor d = p_cursor p ∧ p_capacity d = p_capacity p ∧
          p_env d = p_env p ∧ p_events d = [PrepareCommit committed n]) as (Ha&?&?&He&Hed).
  { rewrite E. cbn. by rewrite Hev. }
  destruct r as [[]|e].
  - unfold release_reservation. cbn [p_env emit deactivate]. unfold flat in *.
    repeat case_match; simplify_eq/=; apply keeps_settled; cbn; try done;
      try (rewrite Hed; constructor); exact Hd.
  - rewrite fst_abort_then_throw. destruct (abort_spec d Ha) as (?&?&?&?& Hea &?).
    apply keeps_settled; try congruence; [|rewrite <- He; done]. rewrite Hea, Hed. constructor.
Qed.

Lemma keeps_commit env n p : keeps p (commit env n p).1.
Proof.
  unfold commit. destruct (p_active p) eqn:Hact; cbn [negb]; [|apply keeps_refl].
  case_match; [apply keeps_abort_then_throw|]. case_match; [apply keeps_abort_then_throw|].
  intros Hw. pose proof (wfp_active _ Hw) as Ha. rewrite Hact in Ha. destruct Ha as [_ Hev].
  revert Hw. case_match.
  - rewrite fst_abort_then_throw.
    match goal with |- wf_producer p → wf_producer (abort ?q).1 ∧ _ => set (q0 := q) in * end.
    destruct (abort_spec q0 Hact) as (?&?&?&?& He &?).
    apply keeps_settled; try done. rewrite He. cbn. rewrite Hev. constructor.
  - pose proof (commit_prepared_settled env (committedSegments (p_segments p) n) n p Hact Hev) as Hk.
    cbv zeta in Hk. destruct (if pe_detachOnCommit _ then _ else _) as [q [[]|e]]; exact Hk.
Qed.

Lemma keeps_step p q : producer_step p q → keeps p q.
Proof.
  destruct 1; eauto using keeps_advance, keeps_write, keeps_poke, keeps_writeUtf8,
    keeps_abort, keeps_commit.
Qed.

Lemma keeps_steps p q : rtc producer_step p q → keeps p q.
Proof. induction 1; eauto using keeps_refl, keeps_trans, keeps_step. Qed.

Lemma new_producer_ok segments capacity env p :
  new_producer segments capacity env = (p, Ok ()) →
  wf_producer p ∧ p_capacity p = capacity ∧ capacity ≤ 2 ^ 53 - 1 ∧ p_env p = env ∧
  p_cursor p = 0 ∧ p_active p = true ∧ p_events p = [].
Proof.
  unfold new_producer. case_match; [by destruct (release_reservation _) as [? []]|].
  intros [= <-]. bool_hyps.
  rewrite memory_length_flat in *. split; [|split_and!; [done|lia|done..]]. constructor; cbn; unfold flat; cbn; [lia|].
  split; [lia|done].
Qed.

End producer_ops.

Section storing.
Implicit Types p q r : producer.

Lemma stored_wf p bytes q :
  wf_producer p → p_active p = true → lengthZ bytes ≤ p_remaining p → stored p bytes q →
  wf_producer q.
Proof.
  intros [? Hw] Hact ? [Hf Hc Ha Hcap He Hev]. unfold p_remaining in *. rewrite Hact in Hw.
  destruct Hw. assert (0 ≤ lengthZ bytes) by auto with magic.
  constructor; [lia|]. rewrite Ha, Hact, Hev, Hf, patch_length by lia. split; [lia|done].
Qed.

Lemma stored_nil p : wf_producer p → stored p [] p.
Proof.
  intros [??]. constructor; try done; [by rewrite patch_nil by lia|].
  unfold lengthZ. cbn. lia.
Qed.

Lemma stored_app p b1 q b2 r :
  wf_producer p → p_active p = true → lengthZ b1 + lengthZ b2 ≤ p_remaining p →
  stored p b1 q → stored q b2 r → stored p (b1 ++ b2) r.
Proof.
  intros [? Hw] Hact ? [] []. rewrite Hact in Hw. destruct Hw. unfold p_remaining in *.
  constructor; [|rewrite lengthZ_app; lia|congruence..].
  rewrite <- patch_patch by lia. congruence.
Qed.

Lemma poke_advance_ok p view bytes :
  wf_producer p → p_view p = Ok view → lengthZ bytes ≤ view_room view →
  lengthZ bytes ≤ 2 ^ 53 - 1 →
  ∃ q, advance (lengthZ bytes) (set_memory (poke_view view bytes (p_segments p)) p) = (q, Ok ()) ∧
    stored p bytes q.
Proof.
  intros Hw Hv Hb Hsafe. destruct (poke_ok p view bytes Hw Hv Hb) as [E ?].
  apply p_view_ok in Hv as [Hact _]. assert (0 ≤ lengthZ bytes) by auto with magic.
  unfold advance. change (p_active (set_memory _ p)) with (p_active p).
  change (p_remaining (set_memory _ p)) with (p_remaining p). rewrite Hact. cbn [negb].
  rewrite !(proj2 (Z.ltb_ge _ _)) by lia. eexists; split; [done|]. by constructor.
Qed.

(** A loop stores a text from a producer on. *)
Definition writes_text (loop : list Z → producer → producer * result producer_error unit) text p : Prop :=
  ∃ q, loop text p = (q, Ok ()) ∧ stored p (utf8 text) q.

(** One iteration: the bytes just stored, then the rest of the text. *)
Lemma writeUtf8_step loop p p1 bytes rest :
  wf_producer p → p_active p = true → p_capacity p ≤ 2 ^ 53 - 1 →
  lengthZ bytes + lengthZ (utf8 rest) ≤ p_remaining p → stored p bytes p1 →
  (wf_producer p1 → p_active p1 = true → p_capacity p1 ≤ 2 ^ 53 - 1 →
   lengthZ (utf8 rest) ≤ p_remaining p1 → writes_text loop rest p1) →
  ∃ q, loop rest p1 = (q, Ok ()) ∧ stored p (bytes ++ utf8 rest) q.
Proof.
  intros Hw Hact Hsafe Hrem Hs Hloop. assert (0 ≤ lengthZ (utf8 rest)) by auto with magic.
  destruct Hloop as (q & Eq & Hs2).
  - eapply stored_wf; [done|done| |done]. lia.
  - by rewrite (st_active _ _ _ Hs).
  - by rewrite (st_capacity _ _ _ Hs).
  - unfold p_remaining in *. rewrite (st_capacity _ _ _ Hs), (st_cursor _ _ _ Hs). lia.
  - exists q. split; [done|]. by eapply stored_app.
Qed.

(** The streaming writer stores exactly the UTF-8 form of the text, whatever
    the segment boundaries: one unit of fuel per code unit is enough. *)
Lemma writeUtf8_loop_ok fuel text p :
  is_units text → wf_producer p → p_active p = true → p_capacity p ≤ 2 ^ 53 - 1 →
  (length text ≤ fuel)%nat → lengthZ (utf8 text) ≤ p_remaining p →
  writes_text (writeUtf8_loop fuel) text p.
Proof.
  unfold writes_text. revert text p. induction fuel as [|fuel IH]; intros text p Hu Hw Hact Hsafe Hfuel Hrem;
    (destruct (decide (text = [])) as [->|Hne]; [exists p; split; [done|by apply stored_nil]|]).
  { destruct text; cbn in Hfuel; [done|lia]. }
  assert (∃ v, p_view p = Ok v) as [view Hv].
  { unfold p_view. rewrite Hact. cbn. eauto. }
  destruct (encodeInto text (view_room view)) as [encoded read] eqn:He.
  pose proof (view_room_nonneg p view Hw Hv) as Hroom.
  destruct (encodeInto_spec text Hu _ _ _ Hroom He) as (Hlen & Hread & Happ).
  assert (0 ≤ lengthZ (utf8 (drop read text))) by auto with magic.
  pose proof (f_equal lengthZ Happ) as Hsum. rewrite lengthZ_app in Hsum.
  destruct text as [|u0 text0]; [done|]. set (text := u0 :: text0) in *.
  cbn [writeUtf8_loop]. fold text. rewrite Hv, He.
  destruct (0 <? read)%nat eqn:Hpos.
  - apply Nat.ltb_lt in Hpos. pose proof (wfp_cursor _ Hw). unfold p_remaining in Hrem.
    destruct (poke_advance_ok p view encoded Hw Hv Hlen ltac:(lia)) as (p1 & E1 & Hs1).
    rewrite E1.
    rewrite <- Happ. eapply writeUtf8_step; try done; [unfold p_remaining; lia|].
    intros ????. apply IH; try done; [by apply is_units_drop|rewrite length_drop; lia].
  - destruct (scalars_cons text Hu Hne) as (source & Hs & _ & Hwidth & _).
    rewrite Hs. pose proof (utf8_cons text source Hu Hne Hs) as Happ'.
    set (enc := encodeCodePoint (scalar_of source)) in *.
    pose proof (f_equal lengthZ Happ') as Hsum'. rewrite lengthZ_app in Hsum'.
    assert (0 ≤ lengthZ (utf8 (drop (units_of source) text))) by auto with magic.
    destruct (write_ok p enc Hw Hact ltac:(lia)) as (p1 & E1 & Hs1). rewrite E1.
    rewrite Happ'. eapply writeUtf8_step; try done; [lia|].
    intros ????. apply IH; try done; [by apply is_units_drop|rewrite length_drop; lia].
Qed.

(** A sequence of writes that fits stores the concatenation. *)
Lemma writes_ok chunks p :
  wf_producer p → p_active p = true → lengthZ (concat chunks) ≤ p_remaining p →
  stored p (concat chunks) (foldl (fun p bytes => (write bytes p).1) p chunks).
Proof.
  revert p. induction chunks as [|b chunks IH]; intros p Hw Hact Hr; [by apply stored_nil|].
  cbn [concat foldl] in *. rewrite lengthZ_app in Hr.
  assert (0 ≤ lengthZ (concat chunks)) by auto with magic.
  destruct (write_ok p b Hw Hact ltac:(lia)) as (q & -> & Hs). cbn [fst].
  eapply stored_app; [done|done|lia|done|]. apply IH.
  - eapply stored_wf; [done|done| |done]. lia.
  - by rewrite (st_active _ _ _ Hs).
  - unfold p_remaining in *. rewrite (st_capacity _ _ _ Hs), (st_cursor _ _ _ Hs). lia.
Qed.

End storing.

Lemma inactive_step p q : producer_step p q → p_active p = false → q = p.
Proof.
  destruct 1; intros Hact; unfold advance, write, abort, commit; rewrite ?Hact; try done.
  - apply p_view_ok in H as [? _]. congruence.
  - unfold writeUtf8. destruct text as [|u text]; cbn [length writeUtf8_loop].
    + by case_match.
    + unfold p_view. by rewrite Hact.
Qed.

Lemma inactive_steps p q : rtc producer_step p q → p_active p = false → q = p.
Proof.
  induction 1 as [|p q r Hs _ IH]; intros Hact; [done|].
  pose proof (inactive_step _ _ Hs Hact) as ->. auto.
Qed.

(** An inactive producer takes no further writes. *)
Lemma writes_inactive chunks p :
  p_active p = false → foldl (fun p bytes => (write bytes p).1) p chunks = p.
Proof.
  intros H0. induction chunks as [|b chunks IH]; cbn; [done|].
  unfold write at 2. by rewrite H0.
Qed.

(** Chunks that exceed the room end in an abort, at the first that does not fit. *)
Lemma writes_overflow chunks p :
  wf_producer p → p_active p = true → p_remaining p < lengthZ (concat chunks) →
  let q := foldl (fun p bytes => (write bytes p).1) p chunks in
  p_active q = false ∧ p_events q = p_events p ++ [ReleaseReservation].
Proof.
  cbv zeta. revert p.
  induction chunks as [|b chunks IH]; intros p Hw Hact Hr; cbn [concat foldl] in *.
  { destruct Hw. unfold p_remaining, lengthZ in *. cbn in *. lia. }
  rewrite lengthZ_app in Hr. destruct (decide (lengthZ b ≤ p_remaining p)) as [Hb|Hb].
  - destruct (write_ok p b Hw Hact Hb) as (p1 & -> & Hs). cbn [fst].
    rewrite <- (st_events _ _ _ Hs). apply IH.
    + by eapply stored_wf.
    + by rewrite (st_active _ _ _ Hs).
    + unfold p_remaining in *. rewrite (st_capacity _ _ _ Hs), (st_cursor _ _ _ Hs). lia.
  - rewrite write_overflow by (done || lia).
    destruct (abort_spec p Hact) as (_ & _ & _ & Ha & He & _).
    by rewrite writes_inactive.
Qed.

(** ** Properties *)


(** Chunks written in sequence and committed are handed to [prepareCommit] once
    and published, and the segments handed over hold exactly their
    concatenation, whatever the chunk and segment boundaries; chunks that
    exceed the capacity are refused by an overflow that gives the reservation
    back. *)
Theorem writes_then_commit segments capacity env p chunks cenv :
  new_producer segments capacity env = (p, Ok ()) →
  (∀ s n, ce_prepare_ok cenv s n = true) → ce_publish_ok cenv = true →
  (∀ i, pe_transfer env i = TransferLeaves 0) →
  let q := foldl (fun p bytes => (write bytes p).1) p chunks in
  let total := lengthZ (concat chunks) in
  (total ≤ capacity →
   ∃ q' committed, commit cenv total q = (q', Ok ()) ∧
     p_events q' = [PrepareCommit committed total; Publish] ∧
     concat committed = concat chunks) ∧
  (capacity < total → p_active q = false ∧ p_events q = [ReleaseReservation] ∧
   commit cenv total q = (q, Err (ProducerError producer_aborted))).
Proof.
  intros Hn Hprep Hpub Htr q total.
  destruct (new_producer_ok _ _ _ _ Hn) as (Hw & Hc & Hsafe & Henv & Hcur & Hact & Hev).
  split; intros Ht.
  - assert (total ≤ p_remaining p) as Hr by (unfold p_remaining; lia).
    pose proof (writes_ok chunks p Hw Hact Hr) as Hs. fold q in Hs.
    pose proof (wfp_active _ Hw) as Hcap. rewrite Hact in Hcap. destruct Hcap as [Hcap _].
    destruct Hs as [Hf Hcu Ha Hcp Hen He].
    assert (0 ≤ total) by (unfold total; auto with magic).
    unfold commit. rewrite Ha, Hact. cbn [negb].
    rewrite !(proj2 (Z.ltb_ge _ _)) by lia. cbn [orb].
    rewrite (proj2 (Z.eqb_eq _ _)) by lia. cbn [negb].
    rewrite Hprep, Hpub. cbn [negb].
    set (committed := committedSegments (p_segments q) total).
    assert (concat committed = concat chunks) as Hcom.
    { unfold committed. rewrite committedSegments_flat; fold (flat q); rewrite Hf, Hcur; fold total.
      - replace total with (0 + lengthZ (concat chunks)) at 1 by (unfold total; lia).
        rewrite patch_prefix; [done|lia|]. fold total. lia.
      - rewrite patch_length by (fold total; lia). lia. }
    exists (emit Publish (deactivate (set_memory
      (if pe_detachOnCommit (p_env q)
       then (detach_loop true (pe_transfer (p_env q)) 0 (p_segments q)).1
       else p_segments q) (emit (PrepareCommit committed total) q)))), committed.
    cbn [p_env emit]. destruct (pe_detachOnCommit (p_env q)).
    + unfold detachProducerAliases. cbn [p_env p_segments emit].
      destruct (detach_loop_empty true (pe_transfer (p_env q)) 0 (p_segments q)) as [_ Hok];
        [by rewrite Hen, Henv|].
      destruct (detach_loop _ _ _ _) as [segs ok]. cbn in Hok. subst ok. cbn.
      by rewrite He, Hev.
    + destruct q. cbn in *. by rewrite He, Hev.
  - destruct (writes_overflow chunks p Hw Hact) as [Hq Hq'];
      [unfold p_remaining; fold total; lia|].
    fold q in Hq, Hq'. rewrite Hev in Hq'.
    split; [done|]. split; [done|]. unfold commit. by rewrite Hq.
Qed.

(** [writeUtf8] on a producer with room for the text's UTF-8 length stores
    exactly the UTF-8 encoding at the cursor, splitting scalar values over
    segment boundaries where it must, and returns without error; a lone
    surrogate is stored as U+FFFD. *)
Theorem writeUtf8_stores_text p text :
  is_units text → wf_producer p → p_active p = true → p_capacity p ≤ MAX_SAFE_INTEGER →
  lengthZ (utf8 text) ≤ p_remaining p →
  ∃ q, fb_fill (utf8FrameBody text) p = (q, Ok ()) ∧
    flat q = patch (flat p) (p_cursor p) (utf8 text) ∧
    p_cursor q = p_cursor p + fb_byteLength (utf8FrameBody text) ∧
    p_active q = true ∧ p_events q = p_events p.
Proof.
  intros Hu Hw Hact Hsafe Hr. cbn [fb_fill fb_byteLength utf8FrameBody]. unfold writeUtf8.
  destruct (writeUtf8_loop_ok (length text) text p Hu Hw Hact Hsafe (le_n _) Hr)
    as (q & -> & [Hf Hc Ha Hcap He]).
  exists q. unfold p_written. rewrite Hc.
  rewrite (proj2 (Z.eqb_eq _ _)) by lia. by rewrite Ha.
Qed.

(** The operations of a lease holder. *)
Inductive lease_op := op_release | op_takeOwned.

Definition lease_apply (l : ReceiveLease) (op : lease_op) : ReceiveLease :=
  match op with
  | op_release => (lease_release l).1
  | op_takeOwned => (lease_takeOwned l).1
  end.

Lemma copy_segments_ok capacity owned segments :
  (length owned + sum_list ((fun s => length (ls_bytes s)) <$> segments) = capacity)%nat →
  copy_segments capacity owned segments = Ok (owned ++ concat (ls_bytes <$> segments)).
Proof.
  revert owned. induction segments as [|s segments IH]; intros owned H; cbn in *.
  - by rewrite app_nil_r.
  - rewrite (proj2 (Z.ltb_ge _ _)) by (unfold lengthZ; lia). cbn.
    rewrite IH by (rewrite length_app; lia). by rewrite app_assoc.
Qed.

Definition settle (l : ReceiveLease) : ReceiveLease :=
  {| rl_segments := rl_segments l; rl_originalLengths := rl_originalLengths l;
     rl_released := true; rl_detachAliases := rl_detachAliases l;
     rl_onRelease := rl_onRelease l ++ [release_outcome l]; rl_copies := rl_copies l |}.

Lemma release_active l :
  rl_released l = false →
  lease_release l = (settle l, match release_outcome l with
                               | quarantined => Err LeaseQuarantined
                               | released => Ok true
                               end).
Proof. intros Hr. unfold lease_release, settle. rewrite Hr. by destruct (release_outcome l). Qed.

Lemma takeOwned_active l :
  rl_released l = false →
  rl_originalLengths l = (fun s => length (ls_bytes s)) <$> rl_segments l →
  lease_takeOwned l = (settle (record_copy l), match release_outcome l with
                                 | quarantined => Err LeaseQuarantined
                                 | released => Ok (concat (ls_bytes <$> rl_segments l))
                                 end).
Proof.
  intros Hr Hl. unfold lease_takeOwned, lease_byteLength, assertLeaseActive.
  rewrite Hr. cbn [throw_if mbind result_bind mret result_ret].
  rewrite copy_segments_ok by by rewrite Hl.
  rewrite release_active by done.
  change (release_outcome (record_copy l)) with (release_outcome l).
  by destruct (release_outcome l).
Qed.

Lemma released_apply l ops : rl_released l = true → foldl lease_apply l ops = l.
Proof.
  intros Hr. induction ops as [|op ops IH]; [done|]. cbn [foldl].
  assert (lease_apply l op = l) as ->; [|done].
  destruct op; cbn; unfold lease_release, lease_takeOwned, lease_byteLength, assertLeaseActive;
    by rewrite Hr.
Qed.

(** Whatever a holder does with a fresh lease, its storage is settled by
    the first [release] or [takeOwned] and exactly once; [takeOwned] returns
    the concatenation of the segments, unless the storage was quarantined;
    afterwards every accessor throws, and a further [release] returns [false]
    without notifying again. *)
Theorem lease_settles_once segments detachAliases l op ops i :
  new_lease segments detachAliases = Ok l →
  let l' := foldl lease_apply l (op :: ops) in
  rl_onRelease l' = [release_outcome l] ∧
  rl_copies l' = (match op with op_takeOwned => 1 | op_release => 0 end) ∧
  (lease_takeOwned l).2 =
    (match release_outcome l with
     | released => Ok (concat (ls_bytes <$> segments))
     | quarantined => Err LeaseQuarantined
     end) ∧
  lease_byteLength l' = Err LeaseReleased ∧ lease_segmentCount l' = Err LeaseReleased ∧
  lease_segment_at i l' = Err LeaseReleased ∧ lease_takeOwned l' = (l', Err LeaseReleased) ∧
  lease_release l' = (l', Ok false).
Proof.
  intros Hn. unfold new_lease in Hn. inv_ok. intros l'.
  set (l := Build_ReceiveLease _ _ _ _ _ _) in *.
  pose proof (takeOwned_active l eq_refl eq_refl) as Ht.
  pose proof (release_active l eq_refl) as Hrel.
  assert (rl_onRelease (lease_apply l op) = [release_outcome l] ∧
          rl_released (lease_apply l op) = true ∧
          rl_copies (lease_apply l op) =
            (match op with op_takeOwned => 1 | op_release => 0 end)) as (Ho & Hr & Hcp).
  { destruct op; cbn [lease_apply]; [rewrite Hrel|rewrite Ht]; done. }
  assert (l' = lease_apply l op) as ->
    by exact (released_apply (lease_apply l op) ops Hr).
  split; [done|]. split; [done|]. split; [by rewrite Ht|].
  unfold lease_byteLength, lease_segmentCount, lease_segment_at, lease_takeOwned,
    lease_release, lease_byteLength, assertLeaseActive. by rewrite Hr.
Qed.

(** ** Witnesses: a reservation of five bytes in two segments *)

Definition sample_segments : list (list Z * bool) := [([0; 0], true); ([0; 0; 0], true)].

(** A transport whose buffers detach, and one whose second buffer refuses. *)
Definition sample_env : producer_env :=
  {| pe_transfer := fun _ => TransferLeaves 0; pe_release_ok := true;
     pe_detachOnCommit := true |}.
Definition stuck_env : producer_env :=
  {| pe_transfer := fun i => if decide (i = 1%nat) then TransferThrows else TransferLeaves 0;
     pe_release_ok := true; pe_detachOnCommit := true |}.

Definition sample_producer : producer := (new_producer sample_segments 5 sample_env).1.

(** Both callbacks of the commit return, and a [publish] that throws. *)
Definition calm_env : commit_env :=
  {| ce_prepare_ok := fun _ _ => true; ce_publish_ok := true |}.
Definition publish_throws : commit_env :=
  {| ce_prepare_ok := fun _ _ => true; ce_publish_ok := false |}.

(** A buffer that cannot be detached fails the commit; the others are gone. *)
Example commit_detach_fails :
  let p := (new_producer sample_segments 5 stuck_env).1 in
  let '(q, r) := commit calm_env 3 (write [1; 2; 3] p).1 in
  r = Err DetachError ∧ p_segments q = [[]; [3; 0; 0]] ∧
  p_events q = [PrepareCommit [[1; 2]; [3]] 3; ReleaseReservation].
Proof. vm_compute. done. Qed.

(** A [publish] that throws is called, and the reservation given back. *)
Example commit_publish_fails :
  let '(q, r) := commit publish_throws 3 (write [1; 2; 3] sample_producer).1 in
  r = Err CallbackError ∧ p_segments q = [[]; []] ∧
  p_events q = [PrepareCommit [[1; 2]; [3]] 3; Publish; ReleaseReservation].
Proof. vm_compute. done. Qed.


Lemma writes_then_commit_witness :
  ∃ q' committed,
    commit calm_env 4 (write [3; 4] (write [1; 2] sample_producer).1).1 = (q', Ok ()) ∧
    p_events q' = [PrepareCommit committed 4; Publish] ∧ concat committed = [1; 2; 3; 4].
Proof.
  apply (writes_then_commit sample_segments 5 sample_env sample_producer [[1; 2]; [3; 4]] calm_env);
    [reflexivity|reflexivity|reflexivity|reflexivity|discriminate].
Defined.

(** The euro sign, split over the two segments, and a letter. *)
Lemma writeUtf8_stores_text_witness :
  ∃ q, fb_fill (utf8FrameBody [0x20ac; 0x41]) sample_producer = (q, Ok ()) ∧
    flat q = [0xe2; 0x82; 0xac; 0x41; 0].
Proof.
  destruct (writeUtf8_stores_text sample_producer [0x20ac; 0x41]) as (q & E & Hf & _).
  - repeat constructor; lia.
  - apply (new_producer_ok sample_segments 5 sample_env). reflexivity.
  - reflexivity.
  - vm_compute. discriminate.
  - vm_compute. discriminate.
  - exists q. split; [exact E|]. rewrite Hf. vm_compute. reflexivity.
Defined.

Definition sample_lease_segment (bytes : list Z) : lease_segment :=
  {| ls_bytes := bytes; ls_exact_bounds := true; ls_is_array_buffer := true;
     ls_buffer_length := length bytes; ls_transfer := TransferLeaves 0 |}.

Definition sample_lease : ReceiveLease :=
  {| rl_segments := sample_lease_segment <$> [[1; 2]; [3]]; rl_originalLengths := [2; 1]%nat;
     rl_released := false; rl_detachAliases := None; rl_onRelease := []; rl_copies := 0 |}.

Lemma lease_settles_once_witness :
  new_lease (sample_lease_segment <$> [[1; 2]; [3]]) None = Ok sample_lease ∧
  (lease_takeOwned sample_lease).2 = Ok [1; 2; 3] ∧
  rl_onRelease (foldl lease_apply sample_lease [op_takeOwned; op_release]) = [released].
Proof.
  assert (new_lease (sample_lease_segment <$> [[1; 2]; [3]]) None = Ok sample_lease) as Hn
    by (vm_compute; reflexivity).
  destruct (lease_settles_once _ _ _ op_takeOwned [op_release] 0 Hn) as (Ho & _ & Ht & _).
  split; [exact Hn|]. split; [exact Ht|exact Ho].
Defined.
