(* ===== verification/JsMap.v ===== *)
(** * Insertion-ordered maps and stable sorting

    A JavaScript [Map] iterates in insertion order: [set] of a present key
    keeps the key's place, [delete] followed by [set] moves it to the end, and
    the code uses both (least-recently-used caches take the first key as the
    victim).  A map is the list of its entries in iteration order. *)

From S2P Require Import Prelude.
From Stdlib Require Export Sorted.

Abbreviation jsmap K V := (list (K * V)).

Module JsMap.
Section ops.
Context {K V : Type} `{EqDecision K}.
Implicit Types (m : jsmap K V) (k : K) (v : V).

Fixpoint get m k : option V :=
  match m with
  | [] => None
  | (k', v) :: m => if decide (k = k') then Some v else get m k
  end.

Definition has m k : bool := match get m k with Some _ => true | None => false end.

(** The flag of [Map.prototype.delete] is [has] of the map before. *)
Definition delete m k : jsmap K V := filter (fun e => e.1 ≠ k) m.

Fixpoint set m k v : jsmap K V :=
  match m with
  | [] => [(k, v)]
  | (k', v') :: m => if decide (k = k') then (k', v) :: m else (k', v') :: set m k v
  end.

Definition size m : Z := lengthZ m.
Definition keys m : list K := m.*1.
Definition values m : list V := m.*2.

(** [m.keys().next().value]. *)
Definition first_key m : option K := head (keys m).

(** The keys of a map are distinct. *)
Definition wf m : Prop := NoDup (keys m).

(** [delete] followed by [set]: the key moves to the end. *)
Definition touch m k v : jsmap K V := set (delete m k) k v.

End ops.
End JsMap.

Section lemmas.
Context {K V : Type} `{EqDecision K}.
Implicit Types (m : jsmap K V) (k : K) (v : V).

Lemma get_Some_in m k v : JsMap.get m k = Some v → (k, v) ∈ m.
Proof.
  induction m as [|[k' v'] m IH]; cbn; [done|]. case_decide; intros Hg; simplify_eq; set_solver.
Qed.

Lemma get_None m k : JsMap.get m k = None ↔ k ∉ JsMap.keys m.
Proof.
  induction m as [|[k' v'] m IH]; cbn.
  { split; [intros _; apply not_elem_of_nil|done]. }
  case_decide; [subst; split; [done|set_solver]|]. rewrite IH, not_elem_of_cons. tauto.
Qed.

Lemma get_in m k v : JsMap.wf m → (k, v) ∈ m → JsMap.get m k = Some v.
Proof.
  induction m as [|[k' v'] m IH]; cbn; [set_solver|].
  intros [Hk Hm]%NoDup_cons [E|Hin]%elem_of_cons.
  - simplify_eq. by rewrite decide_True.
  - case_decide; [subst|by apply IH]. exfalso. apply Hk.
    apply list_elem_of_fmap. by exists (k', v).
Qed.

Lemma get_app m1 m2 k :
  JsMap.get (m1 ++ m2) k = match JsMap.get m1 k with Some v => Some v | None => JsMap.get m2 k end.
Proof. induction m1 as [|[k' v'] m1 IH]; cbn; [done|]. by case_decide. Qed.

Lemma get_set_eq m k v : JsMap.get (JsMap.set m k v) k = Some v.
Proof.
  induction m as [|[k' v'] m IH]; cbn; [by rewrite decide_True|].
  destruct (decide (k = k')) as [->|Hne]; cbn.
  - by rewrite decide_True.
  - by rewrite decide_False.
Qed.

Lemma get_set_ne m k k' v : k ≠ k' → JsMap.get (JsMap.set m k v) k' = JsMap.get m k'.
Proof.
  intros Hne. induction m as [|[k0 v0] m IH]; cbn; [by rewrite decide_False by done|].
  destruct (decide (k = k0)) as [->|]; cbn.
  - by rewrite !decide_False by done.
  - by case_decide.
Qed.

Lemma get_delete_eq m k : JsMap.get (JsMap.delete m k) k = None.
Proof.
  apply get_None. unfold JsMap.keys, JsMap.delete. intros ([k' v] & E & H)%list_elem_of_fmap.
  cbn in E. subst. apply list_elem_of_filter in H as [? _]. done.
Qed.

Lemma get_delete_ne m k k' : k ≠ k' → JsMap.get (JsMap.delete m k) k' = JsMap.get m k'.
Proof.
  intros Hne. induction m as [|[k0 v0] m IH]; [done|].
  unfold JsMap.delete in *. rewrite filter_cons. cbn [fst].
  destruct (decide (k0 ≠ k)) as [Hk|Hk]; cbn; rewrite IH; [done|].
  rewrite decide_False; [done|]. intros ->. by apply Hk.
Qed.

Lemma set_absent m k v : k ∉ JsMap.keys m → JsMap.set m k v = m ++ [(k, v)].
Proof.
  induction m as [|[k' v'] m IH]; cbn; [done|]. intros Hk.
  rewrite decide_False by set_solver. rewrite IH by set_solver. done.
Qed.

Lemma keys_set_present m k v : k ∈ JsMap.keys m → JsMap.keys (JsMap.set m k v) = JsMap.keys m.
Proof.
  induction m as [|[k' v'] m IH]; cbn; [set_solver|]. intros Hk.
  destruct (decide (k = k')) as [->|]; cbn; [done|]. f_equal. apply IH. set_solver.
Qed.

Lemma keys_set m k v :
  JsMap.keys (JsMap.set m k v) = JsMap.keys m ++ (if decide (k ∈ JsMap.keys m) then [] else [k]).
Proof.
  case_decide as Hk.
  - by rewrite keys_set_present, app_nil_r.
  - rewrite set_absent by done. unfold JsMap.keys. by rewrite fmap_app.
Qed.

Lemma delete_absent m k : k ∉ JsMap.keys m → JsMap.delete m k = m.
Proof.
  induction m as [|[k' v'] m IH]; [done|]. intros Hk. cbn in Hk. unfold JsMap.delete.
  rewrite filter_cons_True by (cbn; set_solver). f_equal. apply IH. set_solver.
Qed.

Lemma keys_delete m k : JsMap.keys (JsMap.delete m k) = filter (.≠ k) (JsMap.keys m).
Proof.
  induction m as [|[k' v'] m IH]; [done|]. unfold JsMap.delete, JsMap.keys in *.
  rewrite fmap_cons, !filter_cons. cbn [fst].
  destruct (decide (k' ≠ k)); [rewrite fmap_cons, IH|]; done.
Qed.

Lemma touch_eq m k v : JsMap.touch m k v = JsMap.delete m k ++ [(k, v)].
Proof.
  unfold JsMap.touch. apply set_absent. rewrite keys_delete, list_elem_of_filter. by intros [? _].
Qed.

Lemma wf_delete m k : JsMap.wf m → JsMap.wf (JsMap.delete m k).
Proof. unfold JsMap.wf. rewrite keys_delete. apply NoDup_filter. Qed.

Lemma wf_set m k v : JsMap.wf m → JsMap.wf (JsMap.set m k v).
Proof.
  unfold JsMap.wf. rewrite keys_set. intros Hm. case_decide; [by rewrite app_nil_r|].
  apply NoDup_app. split; [done|]. split; [set_solver|]. apply NoDup_singleton.
Qed.

Lemma wf_touch m k v : JsMap.wf m → JsMap.wf (JsMap.touch m k v).
Proof. intros. by apply wf_set, wf_delete. Qed.

Lemma wf_tail e m : JsMap.wf (e :: m) → JsMap.wf m.
Proof. apply NoDup_cons_1_2. Qed.

(** Deleting the first key drops the first entry. *)
Lemma delete_first e m : JsMap.wf (e :: m) → JsMap.delete (e :: m) e.1 = m.
Proof.
  destruct e as [k v]. intros [Hk Hm]%NoDup_cons. cbn [fst]. unfold JsMap.delete.
  rewrite filter_cons_False by (cbn; auto). by apply delete_absent.
Qed.

(** Sums over the entries of a map. *)
Lemma sumZ_delete (f : K * V → Z) m k :
  JsMap.wf m →
  sumZ f (JsMap.delete m k) =
  sumZ f m - (match JsMap.get m k with Some v => f (k, v) | None => 0 end).
Proof.
  intros Hm. induction m as [|[k' v'] m IH]; [done|].
  pose proof (wf_tail _ _ Hm) as Hm'. specialize (IH Hm').
  unfold JsMap.wf in Hm. cbn in Hm. apply NoDup_cons in Hm as [Hk _].
  unfold JsMap.delete in *. rewrite filter_cons. cbn [fst JsMap.get].
  destruct (decide (k' ≠ k)) as [Hne|He]; cbn [sumZ fold_right] in *.
  - rewrite (decide_False (P := k = k')) by congruence.
    change (fold_right _ 0 ?l) with (sumZ f l) in *. lia.
  - assert (k = k') as -> by (destruct (decide (k = k')); [done|]; exfalso; apply He; congruence).
    rewrite decide_True by done. rewrite IH.
    rewrite (proj2 (get_None m k') Hk). change (fold_right _ 0 ?l) with (sumZ f l). lia.
Qed.

Lemma sumZ_set (f : K * V → Z) m k v :
  JsMap.wf m →
  sumZ f (JsMap.set m k v) =
  sumZ f m - (match JsMap.get m k with Some v' => f (k, v') | None => 0 end) + f (k, v).
Proof.
  intros Hm. induction m as [|[k' v'] m IH]; [cbn; lia|].
  specialize (IH (wf_tail _ _ Hm)). cbn [JsMap.set JsMap.get].
  destruct (decide (k = k')) as [->|Hne]; cbn [sumZ fold_right];
    change (fold_right _ 0 ?l) with (sumZ f l) in *; lia.
Qed.

Lemma sumZ_get_le (f : K * V → Z) m k v :
  (∀ e, e ∈ m → 0 ≤ f e) → JsMap.get m k = Some v → f (k, v) ≤ sumZ f m.
Proof.
  intros Hf Hg. apply get_Some_in in Hg. apply list_elem_of_split in Hg as (l1 & l2 & ->).
  rewrite sumZ_app. cbn [sumZ fold_right]. change (fold_right _ 0 ?l) with (sumZ f l).
  assert (0 ≤ sumZ f l1) by (apply sumZ_nonneg; set_solver).
  assert (0 ≤ sumZ f l2) by (apply sumZ_nonneg; set_solver). lia.
Qed.

(** A map whose entries all come from another is no larger in size or sum. *)
Lemma sub_sums m1 m2 (f : K * V → Z) :
  JsMap.wf m1 → (∀ e, e ∈ m1 → e ∈ m2) → (∀ e, e ∈ m2 → 0 ≤ f e) →
  (length m1 ≤ length m2)%nat ∧ sumZ f m1 ≤ sumZ f m2.
Proof.
  intros Hw Hsub Hf.
  assert (m1 ⊆+ m2) as Hs.
  { apply NoDup_submseteq; [|done]. eapply NoDup_fmap_1. exact Hw. }
  split; [by apply submseteq_length|].
  apply submseteq_Permutation in Hs as [rest Hp].
  assert (sumZ f m2 = sumZ f (m1 ++ rest)) as ->.
  { clear -Hp. unfold sumZ. induction Hp; cbn; lia. }
  rewrite sumZ_app. assert (0 ≤ sumZ f rest); [|lia].
  apply sumZ_nonneg. intros e He. apply Hf. rewrite Hp. set_solver.
Qed.

End lemmas.

Lemma StronglySorted_all {A} (R : A → A → Prop) l :
  (∀ a b, a ∈ l → b ∈ l → R a b) → StronglySorted R l.
Proof.
  induction l as [|x l IH]; intros HR; constructor.
  - apply IH. intros a b ??. apply HR; set_solver.
  - apply Forall_forall. intros y Hy. apply HR; set_solver.
Qed.

(** ** [Array.prototype.sort]

    The engine's sort is stable; with a comparison that is a total preorder
    every stable sort gives the same array.  [cmp a b <= 0] leaves [a] before
    [b]. *)
Section sort.
Context {A : Type} (cmp : A → A → Z).

Fixpoint sort_insert (x : A) (l : list A) : list A :=
  match l with
  | [] => [x]
  | y :: l => if cmp y x <=? 0 then y :: sort_insert x l else x :: y :: l
  end.

Definition js_sort (l : list A) : list A := foldl (fun acc x => sort_insert x acc) [] l.

Lemma sort_insert_perm x l : sort_insert x l ≡ₚ x :: l.
Proof.
  induction l as [|y l IH]; [done|]. cbn. case_match; [|done].
  rewrite IH. apply Permutation_swap.
Qed.

Lemma foldl_insert_perm acc l : foldl (fun acc x => sort_insert x acc) acc l ≡ₚ l ++ acc.
Proof.
  revert acc. induction l as [|x l IH]; intros acc; cbn; [done|].
  rewrite IH, sort_insert_perm. symmetry. apply Permutation_middle.
Qed.

Lemma js_sort_perm l : js_sort l ≡ₚ l.
Proof. unfold js_sort. by rewrite foldl_insert_perm, app_nil_r. Qed.

Lemma js_sort_in x l : x ∈ js_sort l ↔ x ∈ l.
Proof. by rewrite js_sort_perm. Qed.

Context (Htotal : ∀ a b, cmp a b ≤ 0 ∨ cmp b a ≤ 0)
        (Htrans : ∀ a b c, cmp a b ≤ 0 → cmp b c ≤ 0 → cmp a c ≤ 0).

Let R a b := cmp a b ≤ 0.

Lemma sort_insert_sorted x l : StronglySorted R l → StronglySorted R (sort_insert x l).
Proof.
  induction 1 as [|y l Hs IH Hy]; cbn; [repeat constructor|].
  destruct (cmp y x <=? 0) eqn:E.
  - constructor; [done|]. rewrite sort_insert_perm. constructor; [unfold R; lia|done].
  - assert (R x y) by (unfold R; destruct (Htotal x y); lia).
    constructor; [by constructor|]. constructor; [done|].
    eapply Forall_impl; [exact Hy|]. intros z Hz. unfold R in *. eauto.
Qed.

Lemma js_sort_sorted l : StronglySorted R (js_sort l).
Proof.
  unfold js_sort. assert (StronglySorted R (@nil A)) as H by constructor. revert H.
  generalize (@nil A). induction l as [|x l IH]; intros acc H; cbn; [done|].
  by apply IH, sort_insert_sorted.
Qed.

(** Sorting keeps what a filter selects, in its sorted order. *)
Lemma sort_insert_filter (P : A → Prop) `{∀ x, Decision (P x)} x l :
  StronglySorted R l →
  filter P (sort_insert x l) =
  if decide (P x) then sort_insert x (filter P l) else filter P l.
Proof.
  induction 1 as [|y l Hs IH Hy]; cbn [sort_insert].
  { rewrite filter_cons, filter_nil. by case_decide. }
  destruct (cmp y x <=? 0) eqn:E.
  - rewrite !filter_cons, IH. destruct (decide (P y)), (decide (P x)); cbn; rewrite ?E; done.
  - rewrite !filter_cons. destruct (decide (P x)); [|done].
    destruct (decide (P y)); cbn; rewrite ?E; [done|].
    assert (Forall (fun z => cmp z x <=? 0 = false) (filter P l)) as Hf.
    { apply Forall_forall. intros z [_ Hz]%list_elem_of_filter.
      eapply Forall_forall in Hy; [|exact Hz]. unfold R in Hy.
      destruct (Z.leb_spec (cmp z x) 0) as [Hzx|]; [|done].
      exfalso. pose proof (Htrans _ _ _ Hy Hzx). lia. }
    destruct (filter P l) as [|z l']; [done|]. apply Forall_cons in Hf as [Hz _].
    cbn. by rewrite Hz.
Qed.

Lemma js_sort_filter (P : A → Prop) `{∀ x, Decision (P x)} l :
  filter P (js_sort l) = js_sort (filter P l).
Proof.
  unfold js_sort. assert (StronglySorted R (@nil A)) as Hs by constructor.
  change (@nil A) with (filter P (@nil A)) at 2. revert Hs. generalize (@nil A).
  induction l as [|x l IH]; intros acc Hs; [done|]. rewrite filter_cons. cbn [foldl].
  rewrite IH by by apply sort_insert_sorted. rewrite sort_insert_filter by done.
  by case_decide.
Qed.

(** A sorted array is its own sort. *)
Lemma sort_insert_last x l : Forall (fun y => R y x) l → sort_insert x l = l ++ [x].
Proof.
  induction 1 as [|y l Hy Hl IH]; [done|]. cbn. unfold R in Hy.
  rewrite (proj2 (Z.leb_le _ _) Hy). by rewrite IH.
Qed.

Lemma js_sort_id l : StronglySorted R l → js_sort l = l.
Proof.
  intros Hs. unfold js_sort. change l with ([] ++ l) at 2.
  assert (∀ acc, Forall (fun y => Forall (R y) l) acc →
    foldl (fun acc x => sort_insert x acc) acc l = acc ++ l) as Hgen; [|by apply Hgen].
  induction Hs as [|x l Hs IH Hx]; intros acc Hacc; cbn; [by rewrite app_nil_r|].
  rewrite sort_insert_last.
  - rewrite IH; [by rewrite <- app_assoc|]. apply Forall_app. split.
    + eapply Forall_impl; [exact Hacc|]. intros y Hy. by apply Forall_cons in Hy as [_ ?].
    + by constructor.
  - eapply Forall_impl; [exact Hacc|]. intros y Hy. by apply Forall_cons in Hy as [? _].
Qed.

End sort.

(** ** Sets in insertion order *)

Section js_set.
Context {A : Type} `{EqDecision A}.

Fixpoint js_set_from (seen l : list A) : list A :=
  match l with
  | [] => []
  | x :: l => if decide (x ∈ seen) then js_set_from seen l else x :: js_set_from (x :: seen) l
  end.

(** [[...new Set(l)]]: the first occurrence of each element. *)
Definition js_set (l : list A) : list A := js_set_from [] l.

Lemma js_set_from_in x l : ∀ seen, x ∈ js_set_from seen l ↔ x ∈ l ∧ x ∉ seen.
Proof.
  induction l as [|y l IH]; intros seen; cbn [js_set_from]; [set_solver|].
  case_decide; [rewrite IH; set_solver|]. rewrite !elem_of_cons, IH. destruct (decide (x = y)); set_solver.
Qed.

Lemma js_set_in x l : x ∈ js_set l ↔ x ∈ l.
Proof. unfold js_set. rewrite js_set_from_in. set_solver. Qed.

Lemma js_set_from_NoDup l : ∀ seen, NoDup (js_set_from seen l).
Proof.
  induction l as [|y l IH]; intros seen; cbn [js_set_from]; [constructor|].
  case_decide; [done|]. constructor; [|done]. rewrite js_set_from_in. set_solver.
Qed.

Lemma js_set_NoDup l : NoDup (js_set l).
Proof. apply js_set_from_NoDup. Qed.

End js_set.
