(* ===== verification/JsValue.v ===== *)
(** * JavaScript values and strings

    The dynamically typed values the code reads out of parsed JSON: message
    parts, tool states and wire responses.  They are trees, which is what
    [JSON.parse] builds, so no object is reached twice.  A string is its
    sequence of code units, one character each.

    Models packages/plugin/src/shared/record-type-guard.ts and
    packages/plugin/src/shared/stable-json.ts.  How the engine prints a number
    is a parameter ([Engine]). *)

From S2P Require Import Prelude JsNumber JsMap.
From Stdlib Require Export Ascii.

#[global] Open Scope Z_scope.

Inductive value :=
| VUndefined
| VNull
| VBool (b : bool)
| VNum (n : num)
| VStr (s : string)
| VArr (items : list value)
| VObj (entries : list (string * value)).

Class Engine := { numberToString : num → string }.

(** ** Strings *)

Definition str_length (s : string) : Z := Z.of_nat (String.length s).

Definition code_units (s : string) : list Z :=
  (fun c => Z.of_N (N_of_ascii c)) <$> String.list_ascii_of_string s.

Definition of_code_units (l : list Z) : string :=
  String.string_of_list_ascii ((fun u => ascii_of_N (Z.to_N u)) <$> l).

(** The comparison [<] and [>] make of two strings. *)
Definition str_cmp (a b : string) : Z :=
  match String.compare a b with Lt => -1 | Eq => 0 | Gt => 1 end.

Fixpoint join (sep : string) (l : list string) : string :=
  match l with
  | [] => EmptyString
  | [s] => s
  | s :: l => (s ++ sep ++ join sep l)%string
  end.

Definition startsWith (s p : string) : bool := String.prefix p s.

(** [s.includes(p)]. *)
Fixpoint includes (s p : string) : bool :=
  String.prefix p s || match s with EmptyString => false | String _ s => includes s p end.

(** [toLowerCase] of a code unit below 256. *)
Definition lower_unit (u : Z) : Z :=
  if ((65 <=? u) && (u <=? 90)) || ((192 <=? u) && (u <=? 222) && negb (u =? 215))
  then u + 32 else u.

Definition toLowerCase (s : string) : string := of_code_units (lower_unit <$> code_units s).

Definition str_of_unit (u : Z) : string := of_code_units [u].
Definition quote : string := str_of_unit 34.

(** A digit of [Number.prototype.toString(16)]. *)
Definition hex_digit (d : Z) : string := str_of_unit (if d <? 10 then 48 + d else 87 + d).

(** The last [n] hexadecimal digits. *)
Fixpoint hex_digits (n : nat) (z : Z) : string :=
  match n with
  | O => EmptyString
  | S n => (hex_digits n (z / 16) ++ hex_digit (z mod 16))%string
  end.

(** [z.toString(16).padStart(n, "0")] for [0 <= z < 16^n]. *)
Definition hex_padded (n : nat) (z : Z) : string := hex_digits n z.

(** A backslash followed by [s]. *)
Definition escape (s : string) : string := (str_of_unit 92 ++ s)%string.

(** [JSON.stringify] of a code unit inside a string. *)
Definition json_unit (u : Z) : string :=
  if u =? 34 then escape quote
  else if u =? 92 then escape (str_of_unit 92)
  else if u =? 8 then escape "b"
  else if u =? 9 then escape "t"
  else if u =? 10 then escape "n"
  else if u =? 12 then escape "f"
  else if u =? 13 then escape "r"
  else if u <? 32 then escape ("u" ++ hex_padded 4 u)
  else str_of_unit u.

Definition json_string (s : string) : string :=
  (quote ++ String.concat "" (json_unit <$> code_units s) ++ quote)%string.

(** ** Values *)

(** [isRecord(value)]: the record's entries. *)
Definition isRecord (v : value) : option (list (string * value)) :=
  match v with VObj entries => Some entries | _ => None end.

(** [record[key]]: [undefined] when there is no such property. *)
Definition field (record : list (string * value)) (key : string) : value :=
  match JsMap.get record key with Some v => v | None => VUndefined end.

(** [Object.hasOwn(record, key)]. *)
Definition hasOwn (record : list (string * value)) (key : string) : bool :=
  JsMap.has record key.

Definition is_undefined (v : value) : bool :=
  match v with VUndefined => true | _ => false end.

(** [value === undefined || value === null]. *)
Definition is_nullish (v : value) : bool :=
  match v with VUndefined | VNull => true | _ => false end.

(** [a ?? b]. *)
Definition coalesce (a b : value) : value := if is_nullish a then b else a.

Section engine.
Context `{Engine}.

(** [JSON.stringify] of a number: the non-finite ones print as null. *)
Definition json_number (n : num) : string :=
  if isFinite n then numberToString n else "null".

Fixpoint stableStringify (v : value) : string :=
  match v with
  | VUndefined => "undefined"
  | VNull => "null"
  | VBool b => if b then "true" else "false"
  | VNum n => json_number n
  | VStr s => json_string s
  | VArr items => ("[" ++ join "," (List.map stableStringify items) ++ "]")%string
  | VObj entries =>
      ("{" ++ join "," (List.map (fun e => json_string e.1 ++ ":" ++ e.2)%string
         (js_sort (fun a b => str_cmp a.1 b.1)
            (List.map (fun '(k, child) => (k, stableStringify child)) entries))) ++ "}")%string
  end.

(** [String(value)]. *)
Fixpoint js_String (v : value) : string :=
  match v with
  | VUndefined => "undefined"
  | VNull => "null"
  | VBool b => if b then "true" else "false"
  | VNum n => numberToString n
  | VStr s => s
  | VArr items =>
      join "," (List.map (fun x => match x with
                                   | VUndefined | VNull => EmptyString
                                   | _ => js_String x
                                   end) items)
  | VObj _ => "[object Object]"
  end.

End engine.

(** ** Lemmas *)

Lemma str_cmp_total a b : str_cmp a b ≤ 0 ∨ str_cmp b a ≤ 0.
Proof.
  unfold str_cmp. rewrite (String.compare_antisym a b). destruct (String.compare b a); cbn; lia.
Qed.

Lemma str_cmp_eq a b : str_cmp a b = 0 ↔ a = b.
Proof.
  unfold str_cmp. split.
  - destruct (String.compare a b) eqn:E; try discriminate. intros _. by apply String.compare_eq_iff.
  - intros ->. pose proof (String.compare_antisym b b) as E. by destruct (String.compare b b).
Qed.

Lemma str_cmp_antisym a b : str_cmp b a = - str_cmp a b.
Proof. unfold str_cmp. rewrite (String.compare_antisym a b). by destruct (String.compare a b), (String.compare b a). Qed.

Lemma str_cmp_trans a : ∀ b c, str_cmp a b ≤ 0 → str_cmp b c ≤ 0 → str_cmp a c ≤ 0.
Proof.
  unfold str_cmp. induction a as [|x a IH]; intros [|y b] [|z c]; cbn [String.compare]; try (cbn; lia).
  unfold Ascii.compare. specialize (IH b c).
  destruct (N.compare_spec (N_of_ascii x) (N_of_ascii y)), (N.compare_spec (N_of_ascii y) (N_of_ascii z)),
    (N.compare_spec (N_of_ascii x) (N_of_ascii z)); try lia; tauto.
Qed.

Lemma length_app_string (a b : string) :
  String.length (a ++ b)%string = (String.length a + String.length b)%nat.
Proof.
  induction a as [|c a IH]; [done|].
  change (String c a +:+ b)%string with (String c (a +:+ b)%string).
  cbn [String.length]. by rewrite IH.
Qed.

Lemma hex_padded_length n z : String.length (hex_padded n z) = n.
Proof.
  unfold hex_padded. revert z. induction n as [|n IH]; intros z; [done|].
  cbn [hex_digits]. rewrite length_app_string, IH. cbn. lia.
Qed.

Lemma code_units_bound s : Forall (fun u => 0 ≤ u < 256) (code_units s).
Proof.
  unfold code_units. apply Forall_fmap, Forall_forall. intros c _. cbn.
  pose proof (N_ascii_bounded c). lia.
Qed.

Lemma code_units_app (s1 s2 : string) : code_units (s1 ++ s2)%string = code_units s1 ++ code_units s2.
Proof.
  unfold code_units. rewrite <- fmap_app. f_equal. induction s1 as [|c s1 IH]; [done|].
  change (c :: String.list_ascii_of_string (s1 ++ s2) =
          c :: (String.list_ascii_of_string s1 ++ String.list_ascii_of_string s2)).
  by rewrite IH.
Qed.
