(* ===== verification/JsString.v ===== *)
(** * Strings as code units

    The string operations the scanners share: trimming, prefixes and searches,
    splitting, decimal digits, and the lemmas that relate them.  A string is
    worked on as its list of code units. *)

From S2P Require Import Prelude JsNumber JsMap JsValue.

(** ** Trimming and searching code units *)

(** White space and line terminators: what [trim] removes and [\s] matches. *)
Definition is_space (u : Z) : bool :=
  ((9 <=? u) && (u <=? 13)) || (u =? 32) || (u =? 160) ||
  existsb (Z.eqb u) [0x1680; 0x2028; 0x2029; 0x202f; 0x205f; 0x3000; 0xfeff] ||
  ((0x2000 <=? u) && (u <=? 0x200a)).

Fixpoint drop_spaces (l : list Z) : list Z :=
  match l with
  | [] => []
  | u :: l' => if is_space u then drop_spaces l' else l
  end.

Definition trim_start_units (l : list Z) : list Z := drop_spaces l.
Definition trim_units (l : list Z) : list Z := rev (drop_spaces (rev (drop_spaces l))).

Definition trim (s : string) : string := of_code_units (trim_units (code_units s)).
Definition trimStart (s : string) : string := of_code_units (trim_start_units (code_units s)).

(** The case folding of a regular expression with the [i] flag, below 256. *)
Definition fold_unit (u : Z) : Z := if (97 <=? u) && (u <=? 122) then u - 32 else u.

(** The rest of [l] after the prefix [p], when [l] starts with it. *)
Fixpoint strip_prefix (eq : Z → Z → bool) (p l : list Z) : option (list Z) :=
  match p, l with
  | [], _ => Some l
  | x :: p, y :: l => if eq x y then strip_prefix eq p l else None
  | _ :: _, [] => None
  end.

(** The rest after the first occurrence of [p]. *)
Fixpoint after_first (eq : Z → Z → bool) (p l : list Z) : option (list Z) :=
  match strip_prefix eq p l with
  | Some rest => Some rest
  | None => match l with [] => None | _ :: l => after_first eq p l end
  end.

Definition same_fold (a b : Z) : bool := fold_unit a =? fold_unit b.

(** ** Splitting and digits *)

(** [s.split(separator)] for a one-unit separator. *)
Fixpoint split_units (sep : Z) (cur l : list Z) : list (list Z) :=
  match l with
  | [] => [cur]
  | u :: l => if u =? sep then cur :: split_units sep [] l else split_units sep (cur ++ [u]) l
  end.

Definition is_digit (u : Z) : bool := (48 <=? u) && (u <=? 57).

(** [/^\d+$/.test(s) ? Number(s) : null]. *)
Definition decimal (l : list Z) : option Z :=
  match l with
  | [] => None
  | _ => if forallb is_digit l then Some (foldl (fun n u => 10 * n + (u - 48)) 0 l) else None
  end.

(** [s.split(separator)] for a longer separator: one unit of fuel per code unit. *)
Fixpoint split_seq (fuel : nat) (sep cur l : list Z) : list (list Z) :=
  match fuel, l with
  | S fuel, u :: l' =>
      match strip_prefix Z.eqb sep l with
      | Some rest => cur :: split_seq fuel sep [] rest
      | None => split_seq fuel sep (cur ++ [u]) l'
      end
  | _, _ => [cur ++ l]
  end.

(** The parts of [l] before and after the last occurrence of a unit. *)
Fixpoint split_last (u : Z) (l : list Z) : option (list Z * list Z) :=
  match l with
  | [] => None
  | x :: l =>
      match split_last u l with
      | Some (before, after) => Some (x :: before, after)
      | None => if x =? u then Some ([], l) else None
      end
  end.

Definition has_unit (u : Z) (l : list Z) : bool := existsb (Z.eqb u) l.

(** The value of a sequence of decimal digits. *)
Definition digits_value (l : list Z) : Z := foldl (fun n u => 10 * n + (u - 48)) 0 l.

(** The decimal digits of a non-negative integer. *)
Fixpoint decimal_from (fuel : nat) (n : Z) : list Z :=
  match fuel with
  | O => []
  | S fuel => if n <? 10 then [48 + n] else decimal_from fuel (n / 10) ++ [48 + n mod 10]
  end.

Definition decimal_units (n : Z) : list Z := decimal_from (S (Z.to_nat (Z.log2 n))) n.

(** ** Lemmas *)

Lemma code_units_of l : Forall (fun u => 0 ≤ u < 256) l → code_units (of_code_units l) = l.
Proof.
  intros H. unfold code_units, of_code_units.
  rewrite String.list_ascii_of_string_of_list_ascii, <- list_fmap_compose.
  induction H as [|u l Hu _ IH]; [done|]. cbn. f_equal; [|done].
  rewrite N_ascii_embedding by lia. lia.
Qed.

Lemma of_code_units_units s : of_code_units (code_units s) = s.
Proof.
  unfold code_units, of_code_units. rewrite <- list_fmap_compose.
  rewrite <- (String.string_of_list_ascii_of_string s) at 2. f_equal.
  induction (String.list_ascii_of_string s) as [|c l IH]; [done|]. cbn. f_equal; [|done].
  by rewrite N2Z.id, ascii_N_embedding.
Qed.

Lemma code_units_inj s1 s2 : code_units s1 = code_units s2 → s1 = s2.
Proof. intros E. by rewrite <- (of_code_units_units s1), E, of_code_units_units. Qed.

Lemma split_units_cons sep cur l :
  ∃ p rest, split_units sep cur l = p :: rest.
Proof.
  revert cur. induction l as [|u l IH]; intros cur; cbn; [eauto|]. case_match; eauto.
Qed.

(** A part without separators splits off up to the next separator. *)
Lemma split_units_app sep cur p l :
  sep ∉ p → split_units sep cur (p ++ sep :: l) = (cur ++ p) :: split_units sep [] l.
Proof.
  revert cur. induction p as [|u p IH]; intros cur Hp; cbn.
  - by rewrite Z.eqb_refl, app_nil_r.
  - rewrite (proj2 (Z.eqb_neq _ _)) by set_solver. rewrite IH by set_solver.
    by rewrite <- app_assoc.
Qed.

Lemma split_units_last sep cur p : sep ∉ p → split_units sep cur p = [cur ++ p].
Proof.
  revert cur. induction p as [|u p IH]; intros cur Hp; cbn; [by rewrite app_nil_r|].
  rewrite (proj2 (Z.eqb_neq _ _)) by set_solver. rewrite IH by set_solver.
  by rewrite <- app_assoc.
Qed.

(** *** Trimming *)

Definition unspaced_head (l : list Z) : Prop := ∀ u, head l = Some u → is_space u = false.
Definition unspaced_last (l : list Z) : Prop := ∀ u, last l = Some u → is_space u = false.

Lemma drop_spaces_split l :
  ∃ s, l = s ++ drop_spaces l ∧ Forall (fun u => is_space u = true) s ∧ unspaced_head (drop_spaces l).
Proof.
  induction l as [|u l (s & E & Hs & Hh)]; [by exists []|]. cbn. destruct (is_space u) eqn:Hu.
  - exists (u :: s). split; [by rewrite E at 1|]. by split; [constructor|].
  - exists []. split_and!; [done..|]. by intros x [= <-].
Qed.

Lemma drop_spaces_id l : unspaced_head l → drop_spaces l = l.
Proof. destruct l as [|u l]; [done|]. intros Hh. cbn. by rewrite (Hh u). Qed.

Lemma head_rev {A} (l : list A) : head (rev l) = last l.
Proof. rewrite rev_alt. change (head (reverse l) = last l). by rewrite head_reverse. Qed.

(** Trimming takes white space off both ends and leaves none there. *)
Lemma trim_units_split l :
  ∃ s1 s2, l = s1 ++ trim_units l ++ s2 ∧
    Forall (fun u => is_space u = true) s1 ∧ Forall (fun u => is_space u = true) s2 ∧
    unspaced_head (trim_units l) ∧ unspaced_last (trim_units l).
Proof.
  unfold trim_units. destruct (drop_spaces_split l) as (s1 & E1 & Hs1 & Hh1).
  set (l1 := drop_spaces l) in *. destruct (drop_spaces_split (rev l1)) as (s2 & E2 & Hs2 & Hh2).
  apply (f_equal (@rev Z)) in E2. rewrite rev_involutive, rev_app_distr in E2.
  exists s1, (rev s2). split_and!; [by rewrite <- E2|done|by apply Forall_rev| |].
  - intros u Hu. apply Hh1. rewrite E2.
    destruct (rev (drop_spaces (rev l1))); [discriminate Hu|exact Hu].
  - intros u Hu. apply Hh2. by rewrite <- head_rev, rev_involutive in Hu.
Qed.

Lemma trim_units_id l : unspaced_head l → unspaced_last l → trim_units l = l.
Proof.
  intros Hh Hl. unfold trim_units. rewrite (drop_spaces_id l) by done.
  rewrite drop_spaces_id, rev_involutive; [done|]. intros u Hu. apply Hl. by rewrite head_rev in Hu.
Qed.

Lemma trim_units_idem l : trim_units (trim_units l) = trim_units l.
Proof. destruct (trim_units_split l) as (? & ? & _ & _ & _ & ? & ?). by apply trim_units_id. Qed.

(** *** Digits *)

Lemma decimal_from_spec fuel : ∀ n, 0 ≤ n < 2 ^ Z.of_nat fuel → (0 < fuel)%nat →
  digits_value (decimal_from fuel n) = n ∧ Forall (fun u => is_digit u = true) (decimal_from fuel n) ∧
  decimal_from fuel n ≠ [].
Proof.
  induction fuel as [|fuel IH]; intros n Hn Hf; [lia|]. cbn [decimal_from].
  destruct (n <? 10) eqn:Hs.
  - unfold digits_value. cbn. split_and!; [lia| |done]. constructor; [|constructor]. unfold is_digit. lia.
  - pose proof (Z.div_mod n 10 ltac:(lia)) as Hdm. pose proof (Z.mod_pos_bound n 10 ltac:(lia)) as Hm.
    destruct fuel as [|fuel]; [change (2 ^ Z.of_nat 1) with 2 in Hn; lia|].
    rewrite Nat2Z.inj_succ, Z.pow_succ_r in Hn by lia.
    destruct (IH (n / 10)) as (Hv & Hd & _); [split; [lia|]|lia|].
    + apply Z.div_lt_upper_bound; lia.
    + split_and!; [|apply Forall_app; split; [done|constructor; [unfold is_digit; lia|constructor]]|].
      * unfold digits_value in *. rewrite foldl_snoc, Hv. lia.
      * intros E. by apply app_nil in E as [_ [=]].
Qed.

Lemma decimal_units_spec n : 0 ≤ n →
  digits_value (decimal_units n) = n ∧ Forall (fun u => is_digit u = true) (decimal_units n) ∧
  decimal_units n ≠ [].
Proof.
  intros Hn. apply decimal_from_spec; [|lia]. split; [done|].
  rewrite Nat2Z.inj_succ, Z2Nat.id by apply Z.log2_nonneg.
  destruct (decide (n = 0)) as [->|Hne]; [done|]. apply Z.log2_spec. lia.
Qed.
