(* ===== verification/JsRegExp.v ===== *)
(** * Regular expressions

    The backtracking matcher of the language's regular expressions, for the
    forms the parsers use: classes of code units, literals, sequences,
    alternatives, greedy and lazy repetition, capturing groups, back
    references, line anchors and word boundaries.

    [outcomes] lists every way an expression can match from a position, in the
    order in which backtracking tries them; [exec] takes the first.  [search]
    looks for the first position with a match, and [matchAll] and the two
    replacements repeat it.  No expression modelled here repeats a group. *)

From S2P Require Import Prelude JsNumber JsMap JsValue JsString.

Inductive regex :=
| Empty
| Cls (p : Z → bool)
| Lit (l : list Z)
| Seq (r1 r2 : regex)
| Alt (r1 r2 : regex)
| Star (greedy : bool) (r : regex)
| Group (n : nat) (r : regex)
| BackRef (n : nat)
| LineStart
| LineEnd
| WordBoundary.

(** A position in the input, the units before it last first, and the groups
    captured so far, the latest first. *)
Record mstate := { before : list Z; rest : list Z; caps : list (nat * list Z) }.

Definition start_at (bef l : list Z) : mstate := {| before := bef; rest := l; caps := [] |}.

(** The position [n] units further. *)
Definition advance (n : nat) (s : mstate) : mstate :=
  {| before := rev (take n (rest s)) ++ before s; rest := drop n (rest s); caps := caps s |}.

Definition group_of (caps : list (nat * list Z)) (n : nat) : option (list Z) :=
  snd <$> List.find (fun c => Nat.eqb c.1 n) caps.

(** What lies between two positions. *)
Definition between (s e : mstate) : list Z := take (length (rest s) - length (rest e)) (rest s).

Definition capture (n : nat) (s e : mstate) : mstate :=
  {| before := before e; rest := rest e; caps := (n, between s e) :: caps e |}.

Definition is_line_terminator (u : Z) : bool :=
  (u =? 10) || (u =? 13) || (u =? 0x2028) || (u =? 0x2029).

Definition is_word (u : Z) : bool :=
  is_digit u || ((65 <=? u) && (u <=? 90)) || ((97 <=? u) && (u <=? 122)) || (u =? 95).

Definition edge (f : Z → bool) (l : list Z) : bool := match l with u :: _ => f u | [] => false end.

(** Repetition of a matcher: an iteration that consumes nothing is dropped. *)
Fixpoint repeat_from (m : mstate → list mstate) (greedy : bool) (fuel : nat) (s : mstate)
    : list mstate :=
  match fuel with
  | O => [s]
  | S fuel =>
      let more := flat_map (fun e =>
        if Nat.ltb (length (rest e)) (length (rest s)) then repeat_from m greedy fuel e else [])
        (m s) in
      if greedy then more ++ [s] else s :: more
  end.

Fixpoint outcomes (r : regex) (s : mstate) : list mstate :=
  match r with
  | Empty => [s]
  | Cls p => match rest s with u :: _ => if p u then [advance 1 s] else [] | [] => [] end
  | Lit l => match strip_prefix Z.eqb l (rest s) with
             | Some _ => [advance (length l) s]
             | None => []
             end
  | Seq r1 r2 => flat_map (outcomes r2) (outcomes r1 s)
  | Alt r1 r2 => outcomes r1 s ++ outcomes r2 s
  | Star greedy r => repeat_from (outcomes r) greedy (S (length (rest s))) s
  | Group n r => List.map (capture n s) (outcomes r s)
  | BackRef n =>
      match group_of (caps s) n with
      | None => [s]
      | Some l => match strip_prefix Z.eqb l (rest s) with
                  | Some _ => [advance (length l) s]
                  | None => []
                  end
      end
  | LineStart =>
      match before s with
      | u :: _ => if is_line_terminator u then [s] else []
      | [] => [s]
      end
  | LineEnd =>
      match rest s with
      | u :: _ => if is_line_terminator u then [s] else []
      | [] => [s]
      end
  | WordBoundary =>
      if Bool.eqb (edge is_word (before s)) (edge is_word (rest s)) then [] else [s]
  end.

(** [r+] of an expression without groups. *)
Definition Plus (r : regex) : regex := Seq r (Star true r).

Fixpoint sequence (rs : list regex) : regex :=
  match rs with
  | [] => Empty
  | [r] => r
  | r :: rs => Seq r (sequence rs)
  end.

(** A literal written as text. *)
Definition lit (s : string) : regex := Lit (code_units s).

(** [\d], [\s], [.] without and with the [s] flag. *)
Definition digit : regex := Cls is_digit.
Definition space : regex := Cls is_space.
Definition dot : regex := Cls (fun u => negb (is_line_terminator u)).
Definition any : regex := Cls (fun _ => true).

Definition exec (r : regex) (bef l : list Z) : option mstate := head (outcomes r (start_at bef l)).

(** A match: what the search skipped, what was matched, and the state after. *)
Record match_result := { skipped : list Z; found : list Z; after : mstate }.

Definition skip_unit (u : Z) (m : match_result) : match_result :=
  {| skipped := u :: skipped m; found := found m; after := after m |}.

Fixpoint search (r : regex) (bef l : list Z) : option match_result :=
  match exec r bef l with
  | Some e => Some {| skipped := []; found := between (start_at bef l) e; after := e |}
  | None => match l with
            | [] => None
            | u :: l => skip_unit u <$> search r (u :: bef) l
            end
  end.

(** The group [n] of a match. *)
Definition group (n : nat) (m : match_result) : list Z := default [] (group_of (caps (after m)) n).

(** [text.match(r)] without the [g] flag. *)
Definition exec_text (r : regex) (l : list Z) : option match_result := search r [] l.

(** [text.matchAll(r)]: after an empty match the search moves on by one unit. *)
Fixpoint matches_from (fuel : nat) (r : regex) (bef l : list Z) : list match_result :=
  match fuel with
  | O => []
  | S fuel =>
      match search r bef l with
      | None => []
      | Some m =>
          m :: match found m, rest (after m) with
               | [], u :: l => matches_from fuel r (u :: before (after m)) l
               | [], [] => []
               | _, l => matches_from fuel r (before (after m)) l
               end
      end
  end.

Definition matchAll (r : regex) (l : list Z) : list match_result :=
  matches_from (S (length l)) r [] l.

(** [text.replace(r, sub)] with the [g] flag, for a replacement without [$]. *)
Fixpoint replace_from (fuel : nat) (r : regex) (sub bef l : list Z) : list Z :=
  match fuel with
  | O => l
  | S fuel =>
      match search r bef l with
      | None => l
      | Some m =>
          skipped m ++ sub ++
          match found m, rest (after m) with
          | [], u :: l => u :: replace_from fuel r sub (u :: before (after m)) l
          | [], [] => []
          | _, l => replace_from fuel r sub (before (after m)) l
          end
      end
  end.

Definition replaceAll (r : regex) (sub l : list Z) : list Z :=
  replace_from (S (length l)) r sub [] l.

(** [text.replace(r, sub)] without the [g] flag. *)
Definition replaceFirst (r : regex) (sub l : list Z) : list Z :=
  match exec_text r l with
  | None => l
  | Some m => skipped m ++ sub ++ rest (after m)
  end.

(** ** Lemmas *)

Lemma flat_map_none {A B} (f : A → list B) l : (∀ x, x ∈ l → f x = []) → flat_map f l = [].
Proof.
  induction l as [|x l IH]; intros H; [done|]. cbn. rewrite H by set_solver. apply IH. set_solver.
Qed.

Lemma flat_map_eq {A B} (f g : A → list B) l : (∀ x, x ∈ l → f x = g x) → flat_map f l = flat_map g l.
Proof.
  induction l as [|x l IH]; intros H; [done|]. cbn. rewrite H by set_solver. f_equal. apply IH. set_solver.
Qed.

Lemma head_app_l {A} (l k : list A) x : head l = Some x → head (l ++ k) = Some x.
Proof. by destruct l. Qed.

Lemma advance_app b bef l c n : n = length b →
  advance n (Build_mstate bef (b ++ l) c) = Build_mstate (rev b ++ bef) l c.
Proof. intros ->. unfold advance. cbn. by rewrite take_app_length, drop_app_length. Qed.

Lemma between_app s b bef l c : rest s = b ++ l → between s (Build_mstate bef l c) = b.
Proof.
  intros E. unfold between. rewrite E. cbn. rewrite length_app.
  replace (length b + length l - length l)%nat with (length b) by lia. apply take_app_length.
Qed.

Lemma strip_prefix_app p l : strip_prefix Z.eqb p (p ++ l) = Some l.
Proof. induction p as [|u p IH]; cbn; [done|]. by rewrite Z.eqb_refl. Qed.

Lemma strip_prefix_inv p l l' : strip_prefix Z.eqb p l = Some l' → l = p ++ l'.
Proof.
  revert l. induction p as [|u p IH]; intros [|v l]; cbn; [by intros [= ->]..|done|].
  case_match eqn:E; [|done]. apply Z.eqb_eq in E as ->. intros H. f_equal. by apply IH.
Qed.

Lemma lit_here p bef l c :
  outcomes (Lit p) (Build_mstate bef (p ++ l) c) = [Build_mstate (rev p ++ bef) l c].
Proof. cbn [outcomes rest]. rewrite strip_prefix_app. by rewrite advance_app. Qed.

Lemma seq_lit p K bef l c :
  outcomes (Seq (Lit p) K) (Build_mstate bef (p ++ l) c) = outcomes K (Build_mstate (rev p ++ bef) l c).
Proof. cbn [outcomes rest]. rewrite strip_prefix_app, advance_app by done. cbn. by rewrite app_nil_r. Qed.

Lemma seq_group n R K s :
  outcomes (Seq (Group n R) K) s = flat_map (fun e => outcomes K (capture n s e)) (outcomes R s).
Proof.
  cbn [outcomes]. induction (outcomes R s) as [|e l IH]; [done|]. cbn. by rewrite IH.
Qed.

(** Repetition does not depend on the fuel once it exceeds the input. *)
Lemma repeat_from_fuel m greedy : ∀ f1 f2 s, (length (rest s) < f1)%nat → (length (rest s) < f2)%nat →
  repeat_from m greedy f1 s = repeat_from m greedy f2 s.
Proof.
  induction f1 as [|f1 IH]; intros [|f2] s H1 H2; [lia..|]. cbn [repeat_from].
  rewrite (flat_map_eq _ (fun e =>
    if Nat.ltb (length (rest e)) (length (rest s)) then repeat_from m greedy f2 e else [])); [done|].
  intros e _. case_match eqn:E; [|done]. apply Nat.ltb_lt in E. apply IH; lia.
Qed.

(** Repetition of a class of units, one unit at a time. *)
Lemma star_cls g p s : outcomes (Star g (Cls p)) s =
  let more := match rest s with
              | u :: _ => if p u then outcomes (Star g (Cls p)) (advance 1 s) else []
              | [] => []
              end in
  if g then more ++ [s] else s :: more.
Proof.
  cbn [outcomes]. set (m := outcomes (Cls p)). change (fun s0 => _) with m.
  cbn [repeat_from]. assert (flat_map (fun e => if Nat.ltb (length (rest e)) (length (rest s))
      then repeat_from m g (length (rest s)) e else []) (m s) =
    match rest s with
    | u :: _ => if p u then repeat_from m g (S (length (rest (advance 1 s)))) (advance 1 s) else []
    | [] => []
    end) as ->; [|done].
  unfold m at 2. cbn [outcomes]. destruct (rest s) as [|u l] eqn:E; [done|]. destruct (p u); [|done].
  assert (rest (advance 1 s) = l) as El by (unfold advance; by rewrite E).
  cbn [flat_map length]. rewrite app_nil_r, El, (proj2 (Nat.ltb_lt _ _)) by (cbn; lia).
  apply repeat_from_fuel; rewrite El; cbn; lia.
Qed.

(** A lazy run stops at the first position from which what follows matches. *)
Lemma lazy_until p (f : mstate → list mstate) c e b l : ∀ bef,
  forallb p b = true →
  (∀ b1 u b2, b = b1 ++ u :: b2 → f (Build_mstate (rev b1 ++ bef) (u :: b2 ++ l) c) = []) →
  head (f (Build_mstate (rev b ++ bef) l c)) = Some e →
  head (flat_map f (outcomes (Star false (Cls p)) (Build_mstate bef (b ++ l) c))) = Some e.
Proof.
  induction b as [|u b IH]; intros bef Hp Hf He; rewrite star_cls.
  { cbn [flat_map]. by apply head_app_l. }
  cbn in Hp. apply andb_true_iff in Hp as [Hu Hp]. cbn [flat_map rest app].
  pose proof (Hf [] u b eq_refl) as E0. cbn in E0. rewrite E0, Hu. cbn [app]. apply IH; [done| |].
  - intros b1 v b2 ->. specialize (Hf (u :: b1) v b2 eq_refl). cbn in Hf. by rewrite <- app_assoc in Hf.
  - cbn in He. by rewrite <- app_assoc in He.
Qed.

(** A greedy run takes all it can when what follows matches there. *)
Lemma greedy_run p (f : mstate → list mstate) c e b l : ∀ bef,
  forallb p b = true → edge p l = false →
  head (f (Build_mstate (rev b ++ bef) l c)) = Some e →
  head (flat_map f (outcomes (Star true (Cls p)) (Build_mstate bef (b ++ l) c))) = Some e.
Proof.
  induction b as [|u b IH]; intros bef Hp Hl He; rewrite star_cls.
  { cbn [flat_map rest app]. destruct l as [|v l]; cbn in Hl; rewrite ?Hl; cbn; by rewrite app_nil_r. }
  cbn in Hp. apply andb_true_iff in Hp as [Hu Hp]. cbn [rest app]. rewrite Hu, flat_map_app.
  apply head_app_l, IH; [done..|]. cbn in He. by rewrite <- app_assoc in He.
Qed.

(** A run fails when what follows matches after no part of it. *)
Lemma run_fails g p (f : mstate → list mstate) c b l : ∀ bef,
  forallb p b = true → edge p l = false →
  (∀ b1 b2, b = b1 ++ b2 → f (Build_mstate (rev b1 ++ bef) (b2 ++ l) c) = []) →
  flat_map f (outcomes (Star g (Cls p)) (Build_mstate bef (b ++ l) c)) = [].
Proof.
  induction b as [|u b IH]; intros bef Hp Hl Hf; rewrite star_cls; cbn [rest app].
  { assert (match l with [] => [] | u :: _ => if p u then outcomes (Star g (Cls p))
      (advance 1 (Build_mstate bef l c)) else [] end = []) as -> by (destruct l; cbn in Hl; by rewrite ?Hl).
    specialize (Hf [] []). cbn in Hf. destruct g; cbn; by rewrite Hf. }
  cbn in Hp. apply andb_true_iff in Hp as [Hu Hp]. rewrite Hu.
  assert (flat_map f (outcomes (Star g (Cls p)) (Build_mstate (rev [u] ++ bef) (b ++ l) c)) = []) as E.
  { apply IH; [done..|]. intros b1 b2 ->. specialize (Hf (u :: b1) b2 eq_refl). cbn in Hf.
    by rewrite <- app_assoc in Hf. }
  change (Build_mstate (rev [u] ++ bef) (b ++ l) c)
    with (advance 1 (Build_mstate bef (u :: b ++ l) c)) in E.
  pose proof (Hf [] (u :: b) eq_refl) as E0. cbn in E0.
  destruct g; [rewrite flat_map_app|cbn [flat_map]]; rewrite E; cbn; by rewrite ?E0.
Qed.

(** *** Searching *)

(** No match of [r] starts within [g], which [bef] precedes and [l] follows. *)
Definition passes (r : regex) (bef g l : list Z) : Prop :=
  ∀ b1 u b2, g = b1 ++ u :: b2 → outcomes r (start_at (rev b1 ++ bef) (u :: b2 ++ l)) = [].

Definition skip_units (g : list Z) (m : match_result) : match_result :=
  {| skipped := g ++ skipped m; found := found m; after := after m |}.

Lemma search_here r bef l e : exec r bef l = Some e →
  search r bef l = Some {| skipped := []; found := between (start_at bef l) e; after := e |}.
Proof. intros H. destruct l; cbn [search]; by rewrite H. Qed.

Lemma search_skip r g l : ∀ bef, passes r bef g l →
  search r bef (g ++ l) = skip_units g <$> search r (rev g ++ bef) l.
Proof.
  induction g as [|u g IH]; intros bef H.
  { cbn. by destruct (search r bef l) as [[]|]. }
  cbn [app search]. unfold exec. pose proof (H [] u g eq_refl) as E. cbn in E. rewrite E. cbn [head].
  rewrite IH.
  - cbn [rev]. rewrite <- app_assoc. cbn [app]. by destruct (search r _ l) as [[]|].
  - intros b1 v b2 ->. specialize (H (u :: b1) v b2 eq_refl). cbn in H. by rewrite <- app_assoc in H.
Qed.

Lemma search_none r bef g : passes r bef g [] → outcomes r (start_at (rev g ++ bef) []) = [] →
  search r bef g = None.
Proof.
  intros H He. rewrite <- (app_nil_r g), search_skip by done. cbn. unfold exec. by rewrite He.
Qed.

Lemma passes_app r bef g1 g2 l :
  passes r bef g1 (g2 ++ l) → passes r (rev g1 ++ bef) g2 l → passes r bef (g1 ++ g2) l.
Proof.
  intros H1 H2 b1 u b2 E.
  apply app_eq_inv in E as [(k & -> & E)|(k & -> & E)].
  - destruct k as [|v k]; cbn in E; simplify_eq.
    + specialize (H2 [] u b2 eq_refl). by rewrite app_nil_r in H2.
    + specialize (H1 b1 v k eq_refl). by rewrite app_assoc in H1.
  - subst. specialize (H2 k u b2 eq_refl). by rewrite rev_app_distr, <- app_assoc.
Qed.

(** A match starts with the literal [p]. *)
Definition guarded (p : list Z) (r : regex) : Prop :=
  ∀ s, strip_prefix Z.eqb p (rest s) = None → outcomes r s = [].

Lemma guarded_lit p : guarded p (Lit p).
Proof. intros s H. cbn. by rewrite H. Qed.

Lemma guarded_seq p r K : guarded p r → guarded p (Seq r K).
Proof. intros H s E. cbn. by rewrite H. Qed.

Lemma guarded_word p K : guarded p K → guarded p (Seq WordBoundary K).
Proof. intros H s E. cbn. case_match; [done|]. cbn. by rewrite H. Qed.

(** The literal [p] starts nowhere within [g], which [l] follows. *)
Fixpoint absent (p g l : list Z) : bool :=
  match g with
  | [] => true
  | _ :: g' => match strip_prefix Z.eqb p (g ++ l) with None => absent p g' l | Some _ => false end
  end.

Lemma absent_iff p g l : absent p g l = true ↔
  ∀ b1 u b2, g = b1 ++ u :: b2 → strip_prefix Z.eqb p (u :: b2 ++ l) = None.
Proof.
  induction g as [|u g IH].
  { split; [|done]. intros _ b1 u b2 E. by destruct b1. }
  cbn [absent app]. split.
  - case_match eqn:E; [done|]. intros H b1 v b2 Eg. destruct b1 as [|w b1]; cbn in Eg; simplify_eq; [done|].
    by eapply IH.
  - intros H. rewrite (H [] u g eq_refl). apply IH. intros b1 v b2 ->. by apply (H (u :: b1)).
Qed.

Lemma passes_guarded p r bef g l : guarded p r → absent p g l = true → passes r bef g l.
Proof. intros Hr Ha b1 u b2 E. apply Hr. cbn. by eapply absent_iff. Qed.

Lemma absent_app p g1 g2 l : absent p (g1 ++ g2) l = absent p g1 (g2 ++ l) && absent p g2 l.
Proof.
  induction g1 as [|u g1 IH]; [done|]. cbn [absent app]. rewrite <- app_assoc. by case_match.
Qed.

Lemma absent_free u p g l : u ∉ g → absent (u :: p) g l = true.
Proof.
  intros H. apply absent_iff. intros b1 v b2 ->. cbn. case_match eqn:E; [|done].
  apply Z.eqb_eq in E as ->. set_solver.
Qed.

Lemma absent_free_app u p g l l' : u ∉ g → absent (u :: p) (g ++ l) l' = absent (u :: p) l l'.
Proof. intros H. by rewrite absent_app, absent_free. Qed.

Lemma search_guarded_none p r g : guarded p r → p ≠ [] → absent p g [] = true → search r [] g = None.
Proof.
  intros Hr Hp Ha. apply search_none; [by eapply passes_guarded|]. apply Hr. by destruct p.
Qed.

(** A search that finds a match at the end of [g]. *)
Lemma search_at r bef g l e : passes r bef g l → exec r (rev g ++ bef) l = Some e →
  search r bef (g ++ l) =
  Some {| skipped := g; found := between (start_at (rev g ++ bef) l) e; after := e |}.
Proof.
  intros Hp He. rewrite search_skip by done. rewrite (search_here _ _ _ e) by done. cbn.
  unfold skip_units. cbn. by rewrite app_nil_r.
Qed.

(** *** Replacing a literal *)

Section literal.
Context (p sub : list Z) (Hp : p ≠ []).

Fixpoint lit_replace (fuel : nat) (l : list Z) : list Z :=
  match fuel with
  | O => l
  | S fuel =>
      match strip_prefix Z.eqb p l with
      | Some l' => sub ++ lit_replace fuel l'
      | None => match l with [] => [] | u :: l => u :: lit_replace fuel l end
      end
  end.

Lemma strip_prefix_shorter l l' : strip_prefix Z.eqb p l = Some l' → (length l' < length l)%nat.
Proof. intros ->%strip_prefix_inv. rewrite length_app. destruct p; [done|cbn; lia]. Qed.

Lemma strip_prefix_nil : strip_prefix Z.eqb p [] = None.
Proof. clear sub. by destruct p. Qed.

Lemma lit_replace_fuel f1 : ∀ f2 l, (length l < f1)%nat → (length l < f2)%nat →
  lit_replace f1 l = lit_replace f2 l.
Proof.
  induction f1 as [|f1 IH]; intros [|f2] l H1 H2; [lia..|]. cbn [lit_replace].
  destruct (strip_prefix Z.eqb p l) as [l'|] eqn:E.
  - apply strip_prefix_shorter in E. f_equal. apply IH; lia.
  - destruct l as [|u l]; [done|]. cbn in H1, H2. f_equal. apply IH; lia.
Qed.

Lemma replace_from_hit f bef l :
  replace_from (S f) (Lit p) sub bef (p ++ l) = sub ++ replace_from f (Lit p) sub (rev p ++ bef) l.
Proof.
  cbn [replace_from]. rewrite (search_here _ _ _ (Build_mstate (rev p ++ bef) l [])).
  - cbn [skipped found after before rest app]. rewrite between_app with (b := p) by done.
    destruct p as [|u p']; [done|]. by destruct l.
  - unfold exec, start_at. by rewrite lit_here.
Qed.

Lemma replace_from_miss f bef u l : strip_prefix Z.eqb p (u :: l) = None →
  replace_from (S f) (Lit p) sub bef (u :: l) = u :: replace_from (S f) (Lit p) sub (u :: bef) l.
Proof.
  intros E. assert (search (Lit p) bef (u :: l) = skip_unit u <$> search (Lit p) (u :: bef) l) as Es.
  { cbn [search]. unfold exec. by rewrite (guarded_lit p). }
  cbn [replace_from]. rewrite Es. by destruct (search (Lit p) (u :: bef) l) as [m|].
Qed.

Lemma replace_from_lit f : ∀ l bef, (length l < f)%nat →
  replace_from f (Lit p) sub bef l = lit_replace f l.
Proof.
  induction f as [|f IHf]; intros l bef Hl; [lia|]. revert bef.
  induction l as [|u l IHl]; intros bef.
  { cbn [replace_from search lit_replace]. unfold exec.
    by rewrite (guarded_lit p), strip_prefix_nil by apply strip_prefix_nil. }
  cbn [length] in Hl. destruct (strip_prefix Z.eqb p (u :: l)) as [l'|] eqn:E.
  - cbn [lit_replace]. rewrite E. pose proof (strip_prefix_shorter _ _ E) as Hs. cbn in Hs.
    rewrite (strip_prefix_inv _ _ _ E), replace_from_hit. f_equal. apply IHf. lia.
  - rewrite replace_from_miss by done. cbn [lit_replace]. rewrite E. f_equal.
    rewrite IHl by lia. destruct f as [|f]; [lia|]. by apply lit_replace_fuel; lia.
Qed.

Lemma replaceAll_nil : replaceAll (Lit p) sub [] = [].
Proof.
  unfold replaceAll. rewrite replace_from_lit by (cbn; lia). cbn. by rewrite strip_prefix_nil.
Qed.

Lemma replaceAll_hit l : replaceAll (Lit p) sub (p ++ l) = sub ++ replaceAll (Lit p) sub l.
Proof.
  unfold replaceAll. rewrite replace_from_hit, !replace_from_lit;
    [|lia|rewrite length_app; destruct p; [done|cbn; lia]].
  f_equal. apply lit_replace_fuel; [|lia]. rewrite length_app. destruct p; [done|cbn; lia].
Qed.

Lemma replaceAll_miss u l : strip_prefix Z.eqb p (u :: l) = None →
  replaceAll (Lit p) sub (u :: l) = u :: replaceAll (Lit p) sub l.
Proof.
  intros E. unfold replaceAll. rewrite replace_from_miss by done.
  rewrite !replace_from_lit by (cbn; lia). f_equal. apply lit_replace_fuel; cbn; lia.
Qed.

Lemma replaceAll_absent g l : absent p g l = true →
  replaceAll (Lit p) sub (g ++ l) = g ++ replaceAll (Lit p) sub l.
Proof.
  induction g as [|u g IH]; intros H; [done|]. cbn [absent app] in *.
  case_match eqn:E; [done|]. rewrite replaceAll_miss by done. by rewrite IH.
Qed.

End literal.

(** *** What a match spells

    The words an expression can match, where a back reference may stand for any
    word and the assertions for the empty one. *)
Inductive spells : regex → list Z → Prop :=
| spells_empty : spells Empty []
| spells_cls p u : p u = true → spells (Cls p) [u]
| spells_lit l : spells (Lit l) l
| spells_seq r1 r2 b1 b2 : spells r1 b1 → spells r2 b2 → spells (Seq r1 r2) (b1 ++ b2)
| spells_left r1 r2 b : spells r1 b → spells (Alt r1 r2) b
| spells_right r1 r2 b : spells r2 b → spells (Alt r1 r2) b
| spells_none g r : spells (Star g r) []
| spells_more g r b1 b2 : spells r b1 → spells (Star g r) b2 → spells (Star g r) (b1 ++ b2)
| spells_group n r b : spells r b → spells (Group n r) b
| spells_back n b : spells (BackRef n) b
| spells_start : spells LineStart []
| spells_end : spells LineEnd []
| spells_word : spells WordBoundary [].

(** The groups of [r] capture only what [good] admits for their number. *)
Fixpoint respects (good : nat → list Z → Prop) (r : regex) : Prop :=
  match r with
  | Seq r1 r2 | Alt r1 r2 => respects good r1 ∧ respects good r2
  | Star _ r => respects good r
  | Group n r => respects good r ∧ ∀ b, spells r b → good n b
  | _ => True
  end.

(** Every match of [r] captures the group [n]. *)
Fixpoint captures (n : nat) (r : regex) : bool :=
  match r with
  | Seq r1 r2 => captures n r1 || captures n r2
  | Group m r => Nat.eqb m n || captures n r
  | _ => false
  end.

(** From [s] to [e] the expression [r] consumed a word it spells, and captured. *)
Definition goes (good : nat → list Z → Prop) (r : regex) (s e : mstate) : Prop :=
  ∃ b k, rest s = b ++ rest e ∧ before e = rev b ++ before s ∧ spells r b ∧
    caps e = k ++ caps s ∧ Forall (fun c => good c.1 c.2) k ∧
    Forall (fun c => c.2 ⊆ rest s) k ∧ (∀ n, captures n r = true → ∃ b', (n, b') ∈ k).

Lemma goes_stay good r s : spells r [] → (∀ n, captures n r = false) → goes good r s s.
Proof. intros Hs Hc. exists [], []. split_and!; try done. intros n Hn. by rewrite Hc in Hn. Qed.

Lemma goes_step good r s b : rest s = b ++ drop (length b) (rest s) → spells r b →
  (∀ n, captures n r = false) → goes good r s (advance (length b) s).
Proof.
  intros E Hb Hc. exists b, []. split_and!; try done.
  - cbn. by rewrite E at 1; rewrite take_app_length.
  - intros n Hn. by rewrite Hc in Hn.
Qed.

Lemma goes_seq good r1 r2 s m e : goes good r1 s m → goes good r2 m e → goes good (Seq r1 r2) s e.
Proof.
  intros (b1 & k1 & R1 & B1 & S1 & C1 & G1 & I1 & P1) (b2 & k2 & R2 & B2 & S2 & C2 & G2 & I2 & P2).
  assert (Forall (fun c => c.2 ⊆ rest s) (k2 ++ k1)) as I.
  { apply Forall_app. split; [|done]. eapply Forall_impl; [exact I2|]. cbn. rewrite R1. set_solver. }
  exists (b1 ++ b2), (k2 ++ k1). rewrite <- app_assoc, B2, B1, C2, C1, <- !app_assoc, rev_app_distr, <- app_assoc.
  split_and!; try done; [by rewrite R1, R2|by constructor|by apply Forall_app|].
  cbn. intros n [Hn|Hn]%orb_true_iff;
    [apply P1 in Hn as [b Hb]|apply P2 in Hn as [b Hb]]; exists b; set_solver.
Qed.

Lemma goes_impl good r r' s e :
  (∀ b, spells r b → spells r' b) → (∀ n, captures n r' = true → captures n r = true) →
  goes good r s e → goes good r' s e.
Proof. intros Hs Hc (b & k & ? & ? & ? & ? & ? & ? & HP). exists b, k. split_and!; auto. Qed.

Lemma goes_repeat good g r (m : mstate → list mstate) :
  (∀ s e, e ∈ m s → goes good r s e) →
  ∀ fuel s e, e ∈ repeat_from m g fuel s → goes good (Star g r) s e.
Proof.
  intros Hm fuel. induction fuel as [|fuel IH]; intros s e He.
  { cbn in He. apply list_elem_of_singleton in He as ->. by apply goes_stay; [constructor|]. }
  cbn [repeat_from] in He. assert (e = s ∨ ∃ e1, e1 ∈ m s ∧ e ∈ repeat_from m g fuel e1) as H.
  { cut (e = s ∨ e ∈ flat_map (fun e => if Nat.ltb (length (rest e)) (length (rest s))
                                then repeat_from m g fuel e else []) (m s)).
    - intros [->|H]; [by left|right]. apply list_elem_of_In, in_flat_map in H as (e1 & H1 & H2).
      exists e1. rewrite !list_elem_of_In. by case_match.
    - destruct g; [apply elem_of_app in He as [He|He]|apply elem_of_cons in He as [He|He]]; auto.
      apply list_elem_of_singleton in He as ->. by left. }
  destruct H as [->|(e1 & H1 & H2)]; [by apply goes_stay; [constructor|]|].
  eapply goes_impl; [| |by eapply goes_seq; [apply Hm|apply IH]]; [|done].
  intros b Hb. inversion Hb; subst. by constructor.
Qed.

Lemma prefix_drop p l l' : strip_prefix Z.eqb p l = Some l' → l = p ++ drop (length p) l.
Proof. intros ->%strip_prefix_inv. by rewrite drop_app_length. Qed.

Lemma outcomes_goes good r : respects good r → ∀ s e, e ∈ outcomes r s → goes good r s e.
Proof.
  induction r as [|p|l|r1 IH1 r2 IH2|r1 IH1 r2 IH2|g r IH|n r IH|n| | |]; intros Hr s e He.
  - apply list_elem_of_singleton in He as ->. by apply goes_stay; [constructor|].
  - cbn in He. destruct (rest s) as [|u l] eqn:E; [by apply elem_of_nil in He|].
    case_match eqn:Hp; [|by apply elem_of_nil in He]. apply list_elem_of_singleton in He as ->.
    apply (goes_step good (Cls p) s [u]); [by rewrite E|by constructor|done].
  - cbn in He. case_match eqn:E; [|by apply elem_of_nil in He].
    apply list_elem_of_singleton in He as ->. apply goes_step; [by eapply prefix_drop|constructor|done].
  - cbn in He, Hr. apply list_elem_of_In, in_flat_map in He as (m & Hm & He).
    rewrite <- !list_elem_of_In in *. destruct Hr. by eapply goes_seq; eauto.
  - cbn in He, Hr. destruct Hr. apply elem_of_app in He as [He|He];
      (eapply goes_impl; [| |by eauto]); [by constructor|done|by apply spells_right|done].
  - cbn [outcomes] in He. eapply goes_repeat; [|exact He]. by apply IH.
  - cbn in He, Hr. destruct Hr as [Hr Hg]. apply list_elem_of_In, in_map_iff in He as (e' & <- & He).
    rewrite <- list_elem_of_In in He. destruct (IH Hr _ _ He) as (b & k & R & B & S & C & G & I & P).
    exists b, ((n, b) :: k). assert (between s e' = b) as Eb.
    { unfold between. rewrite R, length_app.
      replace (length b + length (rest e') - length (rest e'))%nat with (length b) by lia.
      apply take_app_length. }
    split_and!; try done; [by constructor|by cbn; rewrite Eb, C|by constructor; auto|
      constructor; [rewrite R; cbn; set_solver|done]|].
    cbn. intros m [->%Nat.eqb_eq|Hm]%orb_true_iff; [exists b; set_solver|].
    apply P in Hm as [b' ?]. exists b'. set_solver.
  - cbn in He. case_match; [|apply list_elem_of_singleton in He as ->; by apply goes_stay; [constructor|]].
    case_match eqn:E; [|by apply elem_of_nil in He]. apply list_elem_of_singleton in He as ->.
    apply goes_step; [by eapply prefix_drop|constructor|done].
  - cbn in He. repeat case_match; try (by apply elem_of_nil in He);
      apply list_elem_of_singleton in He as ->; by apply goes_stay; [constructor|].
  - cbn in He. repeat case_match; try (by apply elem_of_nil in He);
      apply list_elem_of_singleton in He as ->; by apply goes_stay; [constructor|].
  - cbn in He. case_match; [by apply elem_of_nil in He|].
    apply list_elem_of_singleton in He as ->; by apply goes_stay; [constructor|].
Qed.

(** The match a search reports. *)
Lemma search_exec r l : ∀ bef m, search r bef l = Some m →
  ∃ b l', l = skipped m ++ l' ∧ b = rev (skipped m) ++ bef ∧ after m ∈ outcomes r (start_at b l').
Proof.
  induction l as [|u l IH]; intros bef m H; cbn in H; unfold exec in H.
  - destruct (outcomes r (start_at bef [])) as [|e es] eqn:E; cbn in H; [done|]. simplify_eq.
    exists bef, []. cbn. rewrite E. split_and!; [done..|]. by left.
  - destruct (outcomes r (start_at bef (u :: l))) as [|e es] eqn:E; cbn in H.
    + destruct (search r (u :: bef) l) as [m'|] eqn:Em; [|done]. cbn in H. simplify_eq.
      apply IH in Em as (b & l' & -> & -> & He). eexists _, l'. cbn. rewrite <- app_assoc. by split_and!.
    + simplify_eq. exists bef, (u :: l). cbn. rewrite E. split_and!; [done..|]. by left.
Qed.

Lemma matches_search r fuel : ∀ bef l m, m ∈ matches_from fuel r bef l → ∃ bef' l', search r bef' l' = Some m.
Proof.
  induction fuel as [|fuel IH]; intros bef l m Hm; cbn in Hm; [by apply elem_of_nil in Hm|].
  destruct (search r bef l) as [m'|] eqn:E; [|by apply elem_of_nil in Hm].
  apply elem_of_cons in Hm as [->|Hm]; [by eauto|].
  repeat case_match; try (by apply elem_of_nil in Hm); by eapply IH.
Qed.

(** A group of a reported match satisfies what the expression respects. *)
Lemma group_good good r n bef l m :
  respects good r → captures n r = true → search r bef l = Some m → good n (group n m).
Proof.
  intros Hr Hc Hs. apply search_exec in Hs as (b & l' & _ & _ & He).
  destruct (outcomes_goes good r Hr _ _ He) as (b' & k & _ & _ & _ & C & G & _ & P).
  unfold group, group_of. rewrite C. cbn. rewrite app_nil_r. destruct (P n Hc) as [x Hx].
  destruct (List.find (fun c => Nat.eqb c.1 n) k) as [[i y]|] eqn:E; cbn.
  - apply List.find_some in E as [Hin E]. cbn in E. apply Nat.eqb_eq in E as ->.
    rewrite <- list_elem_of_In in Hin. by eapply Forall_forall in G; [|exact Hin].
  - eapply List.find_none in E; [|by apply list_elem_of_In]. cbn in E. by rewrite Nat.eqb_refl in E.
Qed.

Lemma group_all good r n l m :
  respects good r → captures n r = true → m ∈ matchAll r l → good n (group n m).
Proof. intros ?? (bef & l' & ?)%matches_search. by eapply group_good. Qed.

Lemma spells_run g p b : spells (Star g (Cls p)) b → Forall (fun u => p u = true) b.
Proof.
  remember (Star g (Cls p)) as r eqn:E. induction 1; simplify_eq; [constructor|].
  apply Forall_app. split; [|by auto]. match goal with H : spells (Cls _) _ |- _ => inversion H; subst end.
  by constructor.
Qed.

Lemma spells_plus p b : spells (Plus (Cls p)) b → b ≠ [] ∧ Forall (fun u => p u = true) b.
Proof.
  intros H. inversion H; subst. match goal with H : spells (Cls _) _ |- _ => inversion H; subst end.
  split; [done|]. constructor; [done|]. by eapply spells_run.
Qed.

(** What a search reports is part of the input. *)
Lemma respects_anything r : respects (fun _ _ => True) r.
Proof. induction r; cbn; auto. Qed.

Lemma search_within r bef l m : search r bef l = Some m →
  skipped m ⊆ l ∧ rest (after m) ⊆ l ∧ ∀ n, group n m ⊆ l.
Proof.
  intros Hs. apply search_exec in Hs as (b & l' & -> & _ & He).
  destruct (outcomes_goes (fun _ _ => True) r (respects_anything r) _ _ He)
    as (b' & k & R & _ & _ & C & _ & I & _). cbn in R.
  split; [set_solver|]. split; [rewrite R; set_solver|]. intros n. unfold group, group_of.
  rewrite C. cbn. rewrite app_nil_r.
  destruct (List.find (fun c => Nat.eqb c.1 n) k) as [[i y]|] eqn:E; cbn; [|set_solver].
  apply List.find_some in E as [Hin _]. rewrite <- list_elem_of_In in Hin.
  eapply Forall_forall in I; [|exact Hin]. cbn in I. set_solver.
Qed.

Lemma matches_within r fuel : ∀ bef l m n, m ∈ matches_from fuel r bef l → group n m ⊆ l.
Proof.
  induction fuel as [|fuel IH]; intros bef l m n Hm; cbn in Hm; [by apply elem_of_nil in Hm|].
  destruct (search r bef l) as [m'|] eqn:E; [|by apply elem_of_nil in Hm].
  destruct (search_within _ _ _ _ E) as (_ & Hr & Hg).
  apply elem_of_cons in Hm as [->|Hm]; [done|].
  repeat case_match; try (by apply elem_of_nil in Hm); apply IH with (n := n) in Hm; set_solver.
Qed.

(** *** Repeated searches

    A text made of gaps, in which nothing matches, and of pieces that match. *)
Section pieces.
Context {T : Type} (good : T → Prop) (r : regex) (elt : T → list Z) (K : T → list (nat * list Z)).
Context (Hexec : ∀ t bef l, good t →
           exec r bef (elt t ++ l) = Some (Build_mstate (rev (elt t) ++ bef) l (K t)))
        (Hne : ∀ t, elt t ≠ []).

Definition pieces_text (ps : list (list Z * T)) : list Z := flat_map (fun p => p.1 ++ elt p.2) ps.

Definition gaps_pass (ps : list (list Z * T)) : Prop :=
  Forall (fun p => good p.2 ∧ ∀ bef l, passes r bef p.1 (elt p.2 ++ l)) ps.

Lemma search_piece g t bef l : good t → passes r bef g (elt t ++ l) →
  search r bef (g ++ elt t ++ l) =
  Some {| skipped := g; found := elt t; after := Build_mstate (rev (elt t) ++ rev g ++ bef) l (K t) |}.
Proof.
  intros Ht Hg. rewrite (search_at _ _ _ _ _ Hg (Hexec _ _ _ Ht)). by rewrite between_app with (b := elt t).
Qed.

Lemma matches_pieces tail : (∀ bef, search r bef tail = None) → ∀ ps fuel bef,
  gaps_pass ps → (length ps < fuel)%nat →
  List.map (fun m => caps (after m)) (matches_from fuel r bef (pieces_text ps ++ tail)) = List.map (fun p => K p.2) ps.
Proof.
  intros Ht. induction ps as [|[g t] ps IH]; intros [|fuel] bef Hg Hf; cbn in Hf; try lia; cbn [matches_from].
  { cbn. by rewrite Ht. }
  apply Forall_cons in Hg as [[Hgt Hg] Hgs]. cbn [pieces_text flat_map fst snd] in *. rewrite <- !app_assoc.
  rewrite search_piece by done. cbn [List.map found after before rest caps].
  destruct (elt t) as [|u b] eqn:E; [by apply Hne in E|]. f_equal. apply IH; [done|lia].
Qed.

Lemma replace_pieces tail : (∀ bef, search r bef tail = None) → ∀ ps fuel bef,
  gaps_pass ps → (length ps < fuel)%nat →
  replace_from fuel r [] bef (pieces_text ps ++ tail) = flat_map fst ps ++ tail.
Proof.
  intros Ht. induction ps as [|[g t] ps IH]; intros [|fuel] bef Hg Hf; cbn in Hf; try lia; cbn [replace_from].
  { cbn. by rewrite Ht. }
  apply Forall_cons in Hg as [[Hgt Hg] Hgs]. cbn [pieces_text flat_map fst snd] in *. rewrite <- !app_assoc.
  rewrite search_piece by done. cbn [skipped found after before rest].
  destruct (elt t) as [|u b] eqn:E; [by apply Hne in E|]. cbn [app]. f_equal. apply IH; [done|lia].
Qed.

Lemma pieces_length ps : (length ps <= length (pieces_text ps))%nat.
Proof.
  induction ps as [|[g t] ps IH]; [done|]. cbn. rewrite !length_app. pose proof (Hne t).
  destruct (elt t); [done|]. cbn. fold (pieces_text ps). lia.
Qed.

End pieces.
