(* ===== verification/JsJson.v ===== *)
(** * JSON text

    [JSON.parse] and [JSON.stringify] on the values of JsValue.  The text is read by
    the grammar of ECMA-404; how the engine prints a number and which number a numeral
    denotes are parameters ([JsonEngine]), related only where a theorem says so.
    [json_roundtrip] reads back what was printed. *)

From S2P Require Import Prelude JsNumber JsMap JsValue JsString.

Class JsonEngine := { json_engine :: Engine; numberOfText : string → num }.

(** ** Printing *)

Section print.
Context `{Engine}.

(** [JSON.stringify]; [None] is undefined. *)
Fixpoint json_stringify (v : value) : option string :=
  match v with
  | VUndefined => None
  | VNull => Some "null"%string
  | VBool b => Some (if b then "true" else "false")%string
  | VNum n => Some (json_number n)
  | VStr s => Some (json_string s)
  | VArr items =>
      Some ("[" ++ join "," (List.map (fun i => default "null"%string (json_stringify i)) items) ++ "]")%string
  | VObj entries =>
      Some ("{" ++ join "," (List.concat (List.map (fun '(k, child) =>
              match json_stringify child with
              | Some text => [(json_string k ++ ":" ++ text)%string]
              | None => []
              end) entries)) ++ "}")%string
  end.

End print.

(** ** String literals *)

Definition hex_value (u : Z) : option Z :=
  if (48 <=? u) && (u <=? 57) then Some (u - 48)
  else if (97 <=? u) && (u <=? 102) then Some (u - 87)
  else if (65 <=? u) && (u <=? 70) then Some (u - 55)
  else None.

Definition unescape (u : Z) : option Z :=
  if (u =? 34) || (u =? 92) || (u =? 47) then Some u
  else if u =? 98 then Some 8 else if u =? 102 then Some 12 else if u =? 110 then Some 10
  else if u =? 114 then Some 13 else if u =? 116 then Some 9 else None.

(** The rest of a string literal after its opening quote: the value and what follows. *)
Fixpoint parse_literal (l : list Z) : option (list Z * list Z) :=
  match l with
  | [] => None
  | u :: rest =>
      if u =? 34 then Some ([], rest)
      else if u <? 32 then None
      else if u =? 92 then
        match rest with
        | [] => None
        | e :: rest1 =>
            if e =? 117 then
              match rest1 with
              | h0 :: h1 :: h2 :: h3 :: rest2 =>
                  match hex_value h0, hex_value h1, hex_value h2, hex_value h3, parse_literal rest2 with
                  | Some v0, Some v1, Some v2, Some v3, Some (s, after) =>
                      Some (4096 * v0 + 256 * v1 + 16 * v2 + v3 :: s, after)
                  | _, _, _, _, _ => None
                  end
              | _ => None
              end
            else
              match unescape e, parse_literal rest1 with
              | Some c, Some (s, after) => Some (c :: s, after)
              | _, _ => None
              end
        end
      else
        match parse_literal rest with
        | Some (s, after) => Some (u :: s, after)
        | None => None
        end
  end.

(** ** Numerals *)

Definition is_numeral_unit (u : Z) : bool :=
  is_digit u || (u =? 43) || (u =? 45) || (u =? 46) || (u =? 69) || (u =? 101).

(** The longest prefix that satisfies [p], and the rest. *)
Fixpoint span (p : Z → bool) (l : list Z) : list Z * list Z :=
  match l with
  | [] => ([], [])
  | u :: l' => if p u then let '(a, b) := span p l' in (u :: a, b) else ([], l)
  end.

(** Digits, and at least one. *)
Definition some_digits (l : list Z) : bool := negb (bool_decide (l = [])) && forallb is_digit l.

Definition is_exponent (l : list Z) : bool :=
  match l with
  | [] => true
  | e :: l => ((e =? 69) || (e =? 101)) &&
              match l with
              | s :: l' => some_digits (if (s =? 43) || (s =? 45) then l' else l)
              | [] => false
              end
  end.

(** [-? (0 | [1-9] [0-9]* ) (. [0-9]+)? ([eE] [+-]? [0-9]+)?] *)
Definition is_numeral (l : list Z) : bool :=
  let l := match l with 45 :: l' => l' | _ => l end in
  let '(whole, rest) := span is_digit l in
  match whole with
  | [] => false
  | d :: more =>
      (negb (d =? 48) || bool_decide (more = [])) &&
      match rest with
      | 46 :: rest => let '(fraction, exponent) := span is_digit rest in
                      some_digits fraction && is_exponent exponent
      | _ => is_exponent rest
      end
  end.

(** ** Parsing *)

Definition is_json_space (u : Z) : bool := (u =? 32) || (u =? 9) || (u =? 10) || (u =? 13).

Fixpoint skip_spaces (l : list Z) : list Z :=
  match l with u :: l' => if is_json_space u then skip_spaces l' else l | [] => [] end.

Definition NULL_UNITS : list Z := [110; 117; 108; 108].
Definition TRUE_UNITS : list Z := [116; 114; 117; 101].
Definition FALSE_UNITS : list Z := [102; 97; 108; 115; 101].

Section parse.
Context `{JsonEngine}.

(** A literal name or a numeral. *)
Definition parse_atom (l : list Z) : option (value * list Z) :=
  match strip_prefix Z.eqb NULL_UNITS l with
  | Some rest => Some (VNull, rest)
  | None =>
      match strip_prefix Z.eqb TRUE_UNITS l with
      | Some rest => Some (VBool true, rest)
      | None =>
          match strip_prefix Z.eqb FALSE_UNITS l with
          | Some rest => Some (VBool false, rest)
          | None =>
              let '(numeral, rest) := span is_numeral_unit l in
              if is_numeral numeral then Some (VNum (numberOfText (of_code_units numeral)), rest) else None
          end
      end
  end.

(** A value; the items of an array after [acc]; the members of an object after [acc].
    Each call takes one unit of fuel. *)
Fixpoint parse_value (fuel : nat) (l : list Z) : option (value * list Z) :=
  match fuel with
  | O => None
  | S fuel =>
      match skip_spaces l with
      | 34 :: l => '(s, rest) ← parse_literal l; Some (VStr (of_code_units s), rest)
      | 91 :: l =>
          match skip_spaces l with
          | 93 :: rest => Some (VArr [], rest)
          | _ => parse_items fuel [] l
          end
      | 123 :: l =>
          match skip_spaces l with
          | 125 :: rest => Some (VObj [], rest)
          | _ => parse_members fuel [] l
          end
      | l => parse_atom l
      end
  end
with parse_items (fuel : nat) (acc : list value) (l : list Z) : option (value * list Z) :=
  match fuel with
  | O => None
  | S fuel =>
      '(v, rest) ← parse_value fuel l;
      match skip_spaces rest with
      | 44 :: rest => parse_items fuel (acc ++ [v]) rest
      | 93 :: rest => Some (VArr (acc ++ [v]), rest)
      | _ => None
      end
  end
with parse_members (fuel : nat) (acc : jsmap string value) (l : list Z) : option (value * list Z) :=
  match fuel with
  | O => None
  | S fuel =>
      match skip_spaces l with
      | 34 :: l =>
          '(k, rest) ← parse_literal l;
          match skip_spaces rest with
          | 58 :: rest =>
              '(v, rest) ← parse_value fuel rest;
              let acc := JsMap.set acc (of_code_units k) v in
              match skip_spaces rest with
              | 44 :: rest => parse_members fuel acc rest
              | 125 :: rest => Some (VObj acc, rest)
              | _ => None
              end
          | _ => None
          end
      | _ => None
      end
  end.

(** [JSON.parse]; [None] is a throw. *)
Definition json_parse (s : string) : option value :=
  let l := code_units s in
  '(v, rest) ← parse_value (2 * length l + 2) l;
  match skip_spaces rest with [] => Some v | _ => None end.

End parse.

(** ** Lemmas: literals *)

Lemma code_units_single u : 0 ≤ u < 256 → code_units (str_of_unit u) = [u].
Proof. intros Hu. apply code_units_of. by constructor. Qed.

Definition consed (u : Z) (r : option (list Z * list Z)) : option (list Z * list Z) :=
  match r with Some (s, after) => Some (u :: s, after) | None => None end.

Lemma parse_literal_control u l : 0 ≤ u < 32 →
  parse_literal (code_units (escape ("u" ++ hex_padded 4 u)%string) ++ l) = consed u (parse_literal l).
Proof.
  intros Hu.
  assert (∃ h2 h3 v2 v3, code_units (escape ("u" ++ hex_padded 4 u)%string) = [92; 117; 48; 48; h2; h3] ∧
    hex_value h2 = Some v2 ∧ hex_value h3 = Some v3 ∧ 16 * v2 + v3 = u) as (h2 & h3 & v2 & v3 & -> & E2 & E3 & E).
  { assert (u = 0 ∨ u = 1 ∨ u = 2 ∨ u = 3 ∨ u = 4 ∨ u = 5 ∨ u = 6 ∨ u = 7 ∨ u = 8 ∨ u = 9 ∨ u = 10 ∨ u = 11 ∨
      u = 12 ∨ u = 13 ∨ u = 14 ∨ u = 15 ∨ u = 16 ∨ u = 17 ∨ u = 18 ∨ u = 19 ∨ u = 20 ∨ u = 21 ∨ u = 22 ∨
      u = 23 ∨ u = 24 ∨ u = 25 ∨ u = 26 ∨ u = 27 ∨ u = 28 ∨ u = 29 ∨ u = 30 ∨ u = 31) as Hcases by lia.
    clear Hu. repeat destruct Hcases as [Hcases|Hcases]; subst u; do 4 eexists; split_and!;
      vm_compute; reflexivity. }
  cbn [app parse_literal]. rewrite E2, E3. cbn. unfold consed.
  destruct (parse_literal l) as [[s after]|]; [|done]. do 3 f_equal. lia.
Qed.

Lemma parse_literal_unit u l : 0 ≤ u < 256 →
  parse_literal (code_units (json_unit u) ++ l) = consed u (parse_literal l).
Proof.
  intros Hu. unfold json_unit.
  destruct (u =? 34) eqn:E1; [by apply Z.eqb_eq in E1 as ->|].
  destruct (u =? 92) eqn:E2; [by apply Z.eqb_eq in E2 as ->|].
  destruct (u =? 8) eqn:E3; [by apply Z.eqb_eq in E3 as ->|].
  destruct (u =? 9) eqn:E4; [by apply Z.eqb_eq in E4 as ->|].
  destruct (u =? 10) eqn:E5; [by apply Z.eqb_eq in E5 as ->|].
  destruct (u =? 12) eqn:E6; [by apply Z.eqb_eq in E6 as ->|].
  destruct (u =? 13) eqn:E7; [by apply Z.eqb_eq in E7 as ->|].
  destruct (u <? 32) eqn:E8; [apply parse_literal_control; lia|].
  rewrite code_units_single by done. cbn [app parse_literal]. by rewrite E1, E8, E2.
Qed.

Lemma parse_literal_units us l : Forall (fun u => 0 ≤ u < 256) us →
  parse_literal (code_units (String.concat "" (json_unit <$> us)) ++ 34 :: l) = Some (us, l).
Proof.
  induction 1 as [|u us Hu Hus IH]; [done|].
  assert (code_units (String.concat "" (json_unit <$> (u :: us))) =
    code_units (json_unit u) ++ code_units (String.concat "" (json_unit <$> us))) as ->.
  { destruct us as [|v us]; [by cbn; rewrite app_nil_r|].
    change (String.concat "" (json_unit <$> u :: v :: us))
      with (json_unit u ++ "" ++ String.concat "" (json_unit <$> v :: us))%string.
    by rewrite !code_units_app. }
  rewrite <- app_assoc, parse_literal_unit by done. by rewrite IH.
Qed.

(** A printed string is a quote, and a literal that reads back. *)
Lemma json_string_units s l : ∃ body, code_units (json_string s) ++ l = 34 :: body ∧ parse_literal body = Some (code_units s, l).
Proof.
  unfold json_string, quote. rewrite !code_units_app, !code_units_single by lia. rewrite <- !app_assoc.
  eexists. split; [reflexivity|]. apply parse_literal_units, code_units_bound.
Qed.

(** ** Lemmas: printed values *)

Lemma span_app p a l : forallb p a = true → match l with u :: _ => p u = false | [] => True end →
  span p (a ++ l) = (a, l).
Proof.
  induction a as [|u a IH]; cbn [forallb app span]; intros Ha Hl.
  - destruct l as [|u l]; [done|]. cbn [span]. by rewrite Hl.
  - apply andb_prop in Ha as [-> Ha]. by rewrite IH.
Qed.

(** What may follow a value inside a text: not a unit a numeral could go on with. *)
Definition ends_value (l : list Z) : Prop := match l with u :: _ => is_numeral_unit u = false | [] => True end.

Section roundtrip.
Context `{JsonEngine}.

(** The engine prints the number as a numeral that denotes it. *)
Definition numeral_ok (n : num) : Prop :=
  isFinite n = true ∧ forallb is_numeral_unit (code_units (numberToString n)) = true ∧
  is_numeral (code_units (numberToString n)) = true ∧ numberOfText (numberToString n) = n.

(** What JSON can express: nothing undefined, each key once, numbers that read back. *)
Fixpoint plain (v : value) : Prop :=
  match v with
  | VUndefined => False
  | VNull | VBool _ | VStr _ => True
  | VNum n => numeral_ok n
  | VArr items => List.fold_right (fun i P => plain i ∧ P) True items
  | VObj entries => NoDup (JsMap.keys entries) ∧ List.fold_right (fun e P => plain e.2 ∧ P) True entries
  end.

Fixpoint vsize (v : value) : nat :=
  match v with
  | VArr items => S (List.fold_right (fun i n => (S (vsize i) + n)%nat) O items)
  | VObj entries => S (List.fold_right (fun e n => (S (vsize e.2) + n)%nat) O entries)
  | _ => 1
  end.

Definition text (v : value) : string := default "null"%string (json_stringify v).

Definition item_units (items : list value) : list Z := code_units (join "," (List.map text items)).

Definition member_text (e : string * value) : string := (json_string e.1 ++ ":" ++ text e.2)%string.

Definition member_units (entries : list (string * value)) : list Z :=
  code_units (join "," (List.map member_text entries)).

Lemma plain_text v : plain v → json_stringify v = Some (text v).
Proof. unfold text. by destruct v. Qed.

Lemma plain_members entries : List.fold_right (fun e P => plain e.2 ∧ P) True entries →
  List.concat (List.map (fun '(k, child) =>
    match json_stringify child with
    | Some text => [(json_string k ++ ":" ++ text)%string]
    | None => []
    end) entries) = List.map member_text entries.
Proof.
  induction entries as [|[k v] l IH]; cbn [List.fold_right List.map List.concat]; [done|]. intros [Hv Hl].
  cbn [snd] in Hv. rewrite plain_text, IH by done. done.
Qed.

Lemma text_arr items : code_units (text (VArr items)) = 91 :: item_units items ++ [93].
Proof. unfold text, item_units. cbn [json_stringify from_option id]. by rewrite !code_units_app. Qed.

Lemma text_obj entries : plain (VObj entries) →
  code_units (text (VObj entries)) = 123 :: member_units entries ++ [125].
Proof.
  intros [_ Hp]. unfold text, member_units. cbn [json_stringify from_option id].
  by rewrite plain_members, !code_units_app.
Qed.

Lemma join_cons sep s l : l ≠ [] → join sep (s :: l) = (s ++ sep ++ join sep l)%string.
Proof. by destruct l. Qed.

Lemma item_units_cons v w items :
  item_units (v :: w :: items) = code_units (text v) ++ 44 :: item_units (w :: items).
Proof. unfold item_units. cbn [List.map]. by rewrite join_cons, !code_units_app by done. Qed.

Lemma member_units_cons e f entries :
  member_units (e :: f :: entries) = code_units (member_text e) ++ 44 :: member_units (f :: entries).
Proof. unfold member_units. cbn [List.map]. by rewrite join_cons, !code_units_app by done. Qed.

Lemma member_text_units e l : ∃ body, code_units (member_text e) ++ l = 34 :: body ∧
  parse_literal body = Some (code_units e.1, 58 :: code_units (text e.2) ++ l).
Proof.
  unfold member_text. rewrite !code_units_app, <- !app_assoc.
  destruct (json_string_units e.1 (58 :: code_units (text e.2) ++ l)) as (body & Hb & Hp). by exists body.
Qed.

(** A text starts with a unit that is neither space nor a closing bracket. *)
Lemma numeral_head l : is_numeral l = true → ∃ u l', l = u :: l' ∧ (u = 45 ∨ is_digit u = true).
Proof.
  destruct l as [|u l]; [by cbn|]. intros E. exists u, l. split; [done|].
  destruct (decide (u = 45)) as [->|Hne]; [by left|right].
  unfold is_numeral in E.
  replace (match u :: l with 45 :: l' => l' | _ => u :: l end) with (u :: l) in E
    by (destruct u as [|p|p]; try done; do 6 (destruct p as [p|p|]; try done)).
  cbn [span] in E. destruct (is_digit u) eqn:Ed; [done|]. by cbn in E.
Qed.

Lemma numeral_unit_cases u : u = 45 ∨ is_digit u = true →
  is_json_space u = false ∧ is_numeral_unit u = true ∧ u ≠ 34 ∧ u ≠ 91 ∧ u ≠ 93 ∧ u ≠ 123 ∧ u ≠ 125.
Proof. unfold is_json_space, is_numeral_unit, is_digit. intros Hu. lia. Qed.

(** A literal name never starts a numeral. *)
Lemma strip_numeral p u l : p ∈ [110; 116; 102] → (u = 45 ∨ is_digit u = true) → ∀ q,
  strip_prefix Z.eqb (p :: q) (u :: l) = None.
Proof.
  intros Hp Hu q. cbn [strip_prefix]. destruct (p =? u) eqn:E; [|done]. exfalso. unfold is_digit in Hu.
  rewrite !elem_of_cons, elem_of_nil in Hp. lia.
Qed.

Lemma parse_atom_numeral n l : numeral_ok n → ends_value l →
  parse_atom (code_units (numberToString n) ++ l) = Some (VNum n, l).
Proof.
  intros (Hf & Hu & Hn & Hv) Hl. destruct (numeral_head _ Hn) as (u & l' & E & Hd).
  unfold parse_atom, NULL_UNITS, TRUE_UNITS, FALSE_UNITS. rewrite E. cbn [app].
  rewrite !strip_numeral by (done || set_solver). change (u :: l' ++ l) with ((u :: l') ++ l). rewrite <- E.
  rewrite span_app by done. by rewrite Hn, of_code_units_units, Hv.
Qed.

Lemma text_num n : numeral_ok n → text (VNum n) = numberToString n.
Proof. intros (Hf & _). unfold text. cbn [json_stringify from_option id]. unfold json_number. by rewrite Hf. Qed.

(** The first unit of a printed value. *)
Lemma text_head v : plain v → ∃ u l, code_units (text v) = u :: l ∧ is_json_space u = false ∧ u ≠ 93 ∧ u ≠ 125.
Proof.
  destruct v as [| |[]|n|s|items|entries]; intros Hp; try done.
  - by exists 110, [117; 108; 108].
  - by exists 116, [114; 117; 101].
  - by exists 102, [97; 108; 115; 101].
  - rewrite text_num by done. destruct Hp as (_ & _ & Hn & _). destruct (numeral_head _ Hn) as (u & l & -> & Hd).
    apply numeral_unit_cases in Hd as (? & ? & ? & ? & ? & ? & ?). by exists u, l.
  - destruct (json_string_units s []) as (body & Hb & _). rewrite app_nil_r in Hb. by exists 34, body.
  - rewrite text_arr. by exists 91, (item_units items ++ [93]).
  - rewrite text_obj by done. by exists 123, (member_units entries ++ [125]).
Qed.

Lemma parse_value_atom n u l : is_json_space u = false → u ≠ 34 → u ≠ 91 → u ≠ 123 →
  parse_value (S n) (u :: l) = parse_atom (u :: l).
Proof.
  intros Hs H1 H2 H3. cbn [parse_value skip_spaces]. rewrite Hs.
  destruct u as [|p|p]; try done. do 7 (destruct p as [p|p|]; try done).
Qed.

Lemma parse_value_items n u l : is_json_space u = false → u ≠ 93 →
  parse_value (S n) (91 :: u :: l) = parse_items n [] (u :: l).
Proof.
  intros Hs H1. cbn [parse_value skip_spaces]. change (is_json_space 91) with false. cbn [skip_spaces].
  rewrite Hs. destruct u as [|p|p]; try done. do 7 (destruct p as [p|p|]; try done).
Qed.

Lemma parse_value_members n l : parse_value (S n) (123 :: 34 :: l) = parse_members n [] (34 :: l).
Proof. done. Qed.

Definition printed (n : nat) : Prop :=
  (∀ v l, plain v → (vsize v ≤ n)%nat → ends_value l → parse_value n (code_units (text v) ++ l) = Some (v, l)) ∧
  (∀ items acc l, items ≠ [] → List.fold_right (fun i P => plain i ∧ P) True items →
     (List.fold_right (fun i n => S (vsize i) + n) O items ≤ n)%nat →
     parse_items n acc (item_units items ++ 93 :: l) = Some (VArr (acc ++ items), l)) ∧
  (∀ entries acc l, entries ≠ [] → NoDup (JsMap.keys (acc ++ entries)) →
     List.fold_right (fun e P => plain e.2 ∧ P) True entries →
     (List.fold_right (fun e n => S (vsize e.2) + n) O entries ≤ n)%nat →
     parse_members n acc (member_units entries ++ 125 :: l) = Some (VObj (acc ++ entries), l)).

Lemma parse_printed_value n : printed n → ∀ v l, plain v → (vsize v ≤ S n)%nat → ends_value l →
  parse_value (S n) (code_units (text v) ++ l) = Some (v, l).
Proof.
  intros (_ & Hitems & Hmembers) v l Hp Hn Hl. destruct v as [| |[]|x|s|items|entries]; try done.
  - rewrite text_num by done. pose proof Hp as (_ & _ & Hx & _). destruct (numeral_head _ Hx) as (u & l' & E & Hd).
    pose proof (parse_atom_numeral x l Hp Hl) as Ha. rewrite E in *. cbn [app] in *.
    apply numeral_unit_cases in Hd as (? & ? & ? & ? & ? & ? & ?). by rewrite parse_value_atom.
  - destruct (json_string_units s l) as (body & Hb & Hs). unfold text. cbn [json_stringify from_option id].
    rewrite Hb. change (parse_value (S n) (34 :: body))
      with ('(s0, rest) ← parse_literal body; Some (VStr (of_code_units s0), rest)).
    rewrite Hs. cbn [mbind option_bind]. by rewrite of_code_units_units.
  - rewrite text_arr. cbn [app]. rewrite <- app_assoc. cbn [app]. destruct items as [|v items]; [done|].
    cbn [plain vsize List.fold_right] in Hp, Hn. destruct Hp as [Hv Hvs].
    destruct (text_head v Hv) as (u & l' & E & Hs & H1 & _).
    assert (∃ l2, item_units (v :: items) ++ 93 :: l = u :: l2) as [l2 E2].
    { destruct items as [|w items]; [unfold item_units; cbn [List.map join]|rewrite item_units_cons]; rewrite E;
        cbn [app]; by eexists. }
    rewrite E2, parse_value_items, <- E2 by done. apply (Hitems _ []); [done|done|]. cbn [List.fold_right]. lia.
  - rewrite text_obj by done. cbn [app]. rewrite <- app_assoc. cbn [app]. destruct entries as [|e entries]; [done|].
    destruct Hp as [Hd Hp]. cbn [vsize] in Hn.
    assert (∃ l2, member_units (e :: entries) ++ 125 :: l = 34 :: l2) as [l2 E2].
    { destruct (member_text_units e []) as (body & Hb & _). rewrite app_nil_r in Hb.
      destruct entries as [|w entries]; [unfold member_units; cbn [List.map join]|rewrite member_units_cons];
        rewrite Hb; cbn [app]; by eexists. }
    rewrite E2, parse_value_members, <- E2. apply (Hmembers _ []); [done|done|done|]. lia.
Qed.

Lemma parse_printed n : printed n.
Proof.
  induction n as [|n IH]; [split_and!|].
  - intros v l _ Hn. destruct v; cbn [vsize] in Hn; lia.
  - intros items acc l Hne _ Hn. destruct items; cbn [List.fold_right] in Hn; [done|lia].
  - intros entries acc l Hne _ _ Hn. destruct entries; cbn [List.fold_right] in Hn; [done|lia].
  - pose proof (parse_printed_value n IH) as Hvalue. destruct IH as (Hv & Hi & Hm). split_and!; [done| |].
    + intros items acc l Hne Hp Hn. destruct items as [|v items]; [done|]. destruct Hp as [Hp Hps]. cbn [List.fold_right] in Hn. cbn [parse_items].
      destruct items as [|w items].
      * unfold item_units. cbn [List.map join]. rewrite Hv by (done || lia). cbn.
        done.
      * rewrite item_units_cons, <- app_assoc. cbn [app]. rewrite Hv by (done || lia). cbn [mbind option_bind].
        change (skip_spaces (44 :: ?x)) with (44 :: x). cbv beta iota.
        rewrite Hi by (done || lia). by rewrite <- app_assoc.
    + intros entries acc l Hne Hd Hp Hn. destruct entries as [|e entries]; [done|]. destruct Hp as [Hp Hps]. cbn [List.fold_right] in Hn. cbn [parse_members].
      assert (JsMap.set acc e.1 e.2 = acc ++ [e]) as Hset.
      { rewrite JsMap.set_absent; [by destruct e|]. intros Hin. unfold JsMap.keys in Hd, Hin.
        rewrite fmap_app in Hd. apply NoDup_app in Hd as (_ & Hd & _). apply (Hd _ Hin). cbn. set_solver. }
      destruct entries as [|f entries].
      * unfold member_units. cbn [List.map join]. destruct (member_text_units e (125 :: l)) as (body & -> & Hb).
        change (skip_spaces (34 :: body)) with (34 :: body). cbv beta iota. rewrite Hb. cbn [mbind option_bind].
        change (skip_spaces (58 :: ?x)) with (58 :: x). cbv beta iota. rewrite Hv by (done || lia).
        cbn [mbind option_bind]. rewrite of_code_units_units, Hset. done.
      * rewrite member_units_cons, <- app_assoc. cbn [app].
        destruct (member_text_units e (44 :: member_units (f :: entries) ++ 125 :: l)) as (body & -> & Hb).
        change (skip_spaces (34 :: body)) with (34 :: body). cbv beta iota. rewrite Hb. cbn [mbind option_bind].
        change (skip_spaces (58 :: ?x)) with (58 :: x). cbv beta iota. rewrite Hv by (done || lia).
        cbn [mbind option_bind]. rewrite of_code_units_units, Hset.
        change (skip_spaces (44 :: ?x)) with (44 :: x). cbv beta iota.
        rewrite Hm; [by rewrite <- app_assoc|done|by rewrite <- app_assoc|done|lia].
Qed.

Lemma vsize_text n : ∀ v, (vsize v ≤ n)%nat → plain v → (vsize v ≤ 2 * length (code_units (text v)))%nat.
Proof.
  induction n as [|n IH]; intros v Hn Hp; [destruct v; cbn [vsize] in Hn; lia|].
  destruct (text_head v Hp) as (u & l & E & _).
  destruct v as [| |b|x|s|items|entries]; try (rewrite E; cbn [vsize length]; lia).
  - clear E. rewrite text_arr. cbn [length vsize] in *. rewrite length_app. cbn [length plain] in *.
    enough (List.fold_right (fun i n => (S (vsize i) + n)%nat) O items ≤ 2 * length (item_units items) + 2)%nat by lia.
    induction items as [|v items IHl]; cbn [List.fold_right] in *; [lia|]. destruct Hp as [Hv Hps].
    pose proof (IH v ltac:(lia) Hv). destruct items as [|w items].
    + unfold item_units. cbn [List.map join List.fold_right]. lia.
    + rewrite item_units_cons, length_app. cbn [length]. specialize (IHl ltac:(lia) Hps). lia.
  - clear E. rewrite text_obj by done. cbn [length vsize] in *. rewrite length_app. cbn [length plain] in *.
    destruct Hp as [_ Hp].
    enough (List.fold_right (fun e n => (S (vsize e.2) + n)%nat) O entries ≤ 2 * length (member_units entries) + 2)%nat by lia.
    induction entries as [|e entries IHl]; cbn [List.fold_right] in *; [lia|]. destruct Hp as [Hv Hps].
    pose proof (IH e.2 ltac:(lia) Hv).
    assert (length (code_units (text e.2)) ≤ length (code_units (member_text e)))%nat as Hle.
    { unfold member_text. rewrite !code_units_app, !length_app. lia. }
    destruct entries as [|f entries].
    + unfold member_units. cbn [List.map join List.fold_right]. lia.
    + rewrite member_units_cons, length_app. cbn [length]. specialize (IHl ltac:(lia) Hps). lia.
Qed.

(** What [JSON.stringify] prints of a plain value, [JSON.parse] reads back. *)
Lemma json_roundtrip v : plain v → json_parse (text v) = Some v.
Proof.
  intros Hp. unfold json_parse. destruct (parse_printed (2 * length (code_units (text v)) + 2)) as (Hv & _).
  pose proof (vsize_text _ v (le_n _) Hp). rewrite <- (app_nil_r (code_units (text v))) at 2.
  rewrite Hv by (done || lia). done.
Qed.

(** *** Sorted keys *)

Definition by_key {A} (a b : string * A) : Z := str_cmp a.1 b.1.

(** The value with the entries of every object sorted by key. *)
Fixpoint normal (v : value) : value :=
  match v with
  | VArr items => VArr (List.map normal items)
  | VObj entries => VObj (js_sort by_key (List.map (fun '(k, child) => (k, normal child)) entries))
  | _ => v
  end.

Lemma sort_insert_map {A B} (cmp : A → A → Z) (cmp' : B → B → Z) (f : A → B) :
  (∀ a b, cmp' (f a) (f b) = cmp a b) → ∀ x l,
  sort_insert cmp' (f x) (List.map f l) = List.map f (sort_insert cmp x l).
Proof.
  intros Hf x l. induction l as [|y l IH]; [done|]. cbn [List.map sort_insert]. rewrite Hf.
  destruct (cmp y x <=? 0); cbn [List.map]; [|done]. by rewrite IH.
Qed.

Lemma js_sort_map {A B} (cmp : A → A → Z) (cmp' : B → B → Z) (f : A → B) l :
  (∀ a b, cmp' (f a) (f b) = cmp a b) → js_sort cmp' (List.map f l) = List.map f (js_sort cmp l).
Proof.
  intros Hf. unfold js_sort. change (@nil B) with (List.map f []). generalize (@nil A) as acc.
  induction l as [|x l IH]; intros acc; [done|]. cbn [List.map foldl].
  rewrite (sort_insert_map cmp cmp' f Hf). apply IH.
Qed.

Lemma fold_forall {A} (P : A → Prop) l : List.fold_right (fun x Q => P x ∧ Q) True l ↔ Forall P l.
Proof.
  induction l as [|x l IH]; cbn [List.fold_right]; [by split|]. rewrite IH.
  split; [intros [? ?]; by constructor|intros Hl; by inversion Hl].
Qed.

Lemma plain_normal n : ∀ v, (vsize v ≤ n)%nat → plain v → plain (normal v) ∧ stableStringify v = text (normal v).
Proof.
  induction n as [|n IH]; intros v Hn Hp; [destruct v; cbn [vsize] in Hn; lia|].
  destruct v as [| |b|x|s|items|entries]; try done.
  - cbn [plain normal vsize] in *.
    assert (Forall (fun v => plain (normal v) ∧ stableStringify v = text (normal v)) items) as Hf.
    { apply fold_forall in Hp. apply Forall_forall. intros v Hv. apply IH.
      - clear Hp IH. induction items as [|w items IHl]; [by apply elem_of_nil in Hv|].
        cbn [List.fold_right] in Hn. apply elem_of_cons in Hv as [<-|Hv]; [lia|]. apply IHl; [lia|done].
      - rewrite Forall_forall in Hp. by apply Hp. }
    split.
    + apply fold_forall. apply Forall_forall. intros w Hw. apply list_elem_of_In, in_map_iff in Hw as (v & <- & Hv).
      rewrite Forall_forall in Hf. apply Hf. by apply list_elem_of_In.
    + unfold text. cbn [stableStringify json_stringify from_option id]. do 3 f_equal. rewrite List.map_map.
      clear Hp Hn. induction Hf as [|v items [Hv1 Hv2] Hf IHl]; [done|]. cbn [List.map]. f_equal; [done|exact IHl].
  - cbn [plain normal vsize] in *. destruct Hp as [Hd Hp].
    assert (Forall (fun e => plain (normal e.2) ∧ stableStringify e.2 = text (normal e.2)) entries) as Hf.
    { apply (fold_forall (fun e => plain e.2)) in Hp. apply Forall_forall. intros e He. apply IH.
      - clear Hp IH Hd. induction entries as [|w entries IHl]; [by apply elem_of_nil in He|].
        cbn [List.fold_right] in Hn. apply elem_of_cons in He as [<-|He]; [lia|]. apply IHl; [lia|done].
      - rewrite Forall_forall in Hp. by apply Hp. }
    set (l := List.map (fun '(k, child) => (k, normal child)) entries) in *.
    assert (plain (VObj (js_sort by_key l))) as Hplain.
    { cbn [plain]. split.
      - unfold JsMap.keys. rewrite js_sort_perm. unfold l. clear -Hd. unfold JsMap.keys in Hd.
        assert ((List.map (λ '(k, child), (k, normal child)) entries).*1 = entries.*1) as ->; [|done].
        induction entries as [|[k v] l IHl]; [done|]. cbn in *. f_equal. apply IHl. by inversion Hd.
      - apply (fold_forall (fun e => plain e.2)). apply Forall_forall. intros e He. rewrite js_sort_in in He.
        unfold l in He. apply list_elem_of_In, in_map_iff in He as ([k v] & <- & Hv).
        rewrite Forall_forall in Hf. apply (Hf (k, v)). by apply list_elem_of_In. }
    split; [done|]. unfold text. cbn [stableStringify json_stringify from_option id].
    rewrite plain_members by apply Hplain. do 3 f_equal. unfold l.
    assert (List.map (fun '(k, child) => (k, stableStringify child)) entries =
            List.map (fun e => (e.1, text e.2)) (List.map (fun '(k, child) => (k, normal child)) entries)) as ->.
    { rewrite List.map_map. clear -Hf. induction Hf as [|[k v] entries [_ Hv] Hf IHl]; [done|].
      cbn [List.map fst snd] in *. f_equal; [by f_equal|done]. }
    rewrite (js_sort_map by_key) by done. rewrite List.map_map. done.
Qed.

(** What [stableStringify] prints, [JSON.parse] reads back with sorted keys. *)
Lemma stable_roundtrip v : plain v → json_parse (stableStringify v) = Some (normal v).
Proof. intros Hp. destruct (plain_normal _ v (le_n _) Hp) as [Hn ->]. by apply json_roundtrip. Qed.

Lemma normal_field entries k : NoDup (JsMap.keys entries) →
  field (match normal (VObj entries) with VObj e => e | _ => [] end) k = normal (field entries k).
Proof.
  intros Hd. cbn [normal]. unfold field.
  set (l := List.map (fun '(k, child) => (k, normal child)) entries).
  assert (JsMap.keys l = JsMap.keys entries) as Hk.
  { unfold l, JsMap.keys. clear. induction entries as [|[k v] l IHl]; [done|]. cbn in *. by f_equal. }
  assert (NoDup (JsMap.keys (js_sort by_key l))) as Hs.
  { unfold JsMap.keys. rewrite js_sort_perm. change (l.*1) with (JsMap.keys l). by rewrite Hk. }
  destruct (JsMap.get entries k) as [v|] eqn:E.
  - apply JsMap.get_Some_in in E. rewrite (JsMap.get_in _ k (normal v)); [done|done|].
    rewrite js_sort_in. unfold l. apply list_elem_of_In, in_map_iff. exists (k, v). split; [done|]. by apply list_elem_of_In.
  - replace (JsMap.get (js_sort by_key l) k) with (@None value); [done|]. symmetry. apply JsMap.get_None.
    unfold JsMap.keys. rewrite js_sort_perm. change (l.*1) with (JsMap.keys l). rewrite Hk. by apply JsMap.get_None.
Qed.

End roundtrip.

(** An engine for whole numbers: their digits, and back. *)
Definition integer_engine : JsonEngine :=
  {| json_engine := {| numberToString n := of_code_units (decimal_units (floorZ n)) |};
     numberOfText s := nofZ (digits_value (code_units s)) |}.
