(* ===== verification/ModelKeys.v ===== *)
(** * Model keys

    Models packages/plugin/src/shared/harness-provider-map.ts, the model lookups of
    shared/prompt-surface.ts and of hooks/magic-context/event-resolvers.ts: which
    configuration keys apply to a model, in which order, and the value they give.

    A configuration object is the map of its own properties. *)

From S2P Require Import Prelude JsNumber JsMap JsValue JsString.

(** ** Cutting strings *)

(** The parts before and after the first [u]. *)
Fixpoint cut (u : ascii) (s : string) : option (string * string) :=
  match s with
  | EmptyString => None
  | String c s =>
      if Ascii.eqb c u then Some (EmptyString, s)
      else '(a, b) ← cut u s; Some (String c a, b)
  end.

(** The parts before and after the last [u]. *)
Fixpoint cut_last (u : ascii) (s : string) : option (string * string) :=
  match s with
  | EmptyString => None
  | String c s =>
      match cut_last u s with
      | Some (a, b) => Some (String c a, b)
      | None => if Ascii.eqb c u then Some (EmptyString, s) else None
      end
  end.

Definition is_empty (s : string) : bool :=
  match s with EmptyString => true | _ => false end.

(** ** Providers of the harnesses *)

Definition CANONICAL_TO_PI_PROVIDER : jsmap string string :=
  [("openai", "openai-codex"); ("google", "google-antigravity")]%string.
Definition PI_TO_CANONICAL_PROVIDER : jsmap string string :=
  [("openai-codex", "openai"); ("google-antigravity", "google")]%string.
Definition CANONICAL_TO_OMP_PROVIDER : jsmap string string :=
  [("openai", "openai-codex"); ("google", "google-antigravity")]%string.
Definition OMP_TO_CANONICAL_PROVIDER : jsmap string string :=
  [("openai-codex", "openai"); ("google-antigravity", "google")]%string.

Definition remapProviderPrefix (ref : string) (map : jsmap string string) : string :=
  match cut "/" ref with
  | Some (provider, rest) =>
      if is_empty provider then ref
      else match JsMap.get map provider with
           | Some mapped => (mapped ++ "/" ++ rest)%string
           | None => ref
           end
  | None => ref
  end.

Definition piModelRefToCanonical (ref : string) : string := remapProviderPrefix ref PI_TO_CANONICAL_PROVIDER.
Definition ompModelRefToCanonical (ref : string) : string := remapProviderPrefix ref OMP_TO_CANONICAL_PROVIDER.

Definition resolveModelRefForPi (ref : string) : string :=
  remapProviderPrefix (piModelRefToCanonical ref) CANONICAL_TO_PI_PROVIDER.
Definition resolveModelRefForOmp (ref : string) : string :=
  remapProviderPrefix (ompModelRefToCanonical ref) CANONICAL_TO_OMP_PROVIDER.

Definition modelRefLookupOrder (ref : string) : list string :=
  let canonical := piModelRefToCanonical (ompModelRefToCanonical ref) in
  js_set [canonical; ref; resolveModelRefForPi canonical; resolveModelRefForOmp canonical].

(** ** Candidates *)

(** What [ref.slice(0, ref.indexOf("/"))] is for a reference with a slash. *)
Definition provider_of (ref : string) : string :=
  match cut "/" ref with Some (provider, _) => provider | None => EmptyString end.

(** The loop that drops dash-separated segments from the end of a model id; each
    turn shortens the id. *)
Fixpoint base_ids (fuel : nat) (modelId : string) : list string :=
  match fuel with
  | O => []
  | S fuel =>
      if is_empty modelId then []
      else modelId :: match cut_last "-" modelId with
                      | Some (base, _) => if is_empty base then [] else base_ids fuel base
                      | None => []
                      end
  end.

Definition bases (modelId : string) : list string := base_ids (String.length modelId) modelId.

Inductive ModelKeyLookupSource := exact | bare | wildcard.

(** The keys of one turn of the loop: under each provider, then bare. *)
Definition keys_of_base (providers : list string) (modelId : string) : list (string * ModelKeyLookupSource) :=
  (List.map (fun provider => ((provider ++ "/" ++ modelId)%string, exact)) providers) ++ [(modelId, bare)].

(** [modelKeyLookupOrder] of event-resolvers.ts. *)
Definition thresholdKeyOrder (modelKey : string) : list string :=
  let '(providerRefs, modelId) :=
    match cut "/" modelKey with
    | Some (_, modelId) => (modelRefLookupOrder modelKey, modelId)
    | None => ([], modelKey)
    end in
  (List.concat (List.map (keys_of_base (List.map provider_of providerRefs)) (bases modelId))).*1.

(** [candidates.filter]: the first candidate of each key. *)
Fixpoint first_of_key (seen : list string) (candidates : list (string * ModelKeyLookupSource))
    : list (string * ModelKeyLookupSource) :=
  match candidates with
  | [] => []
  | c :: candidates =>
      if bool_decide (c.1 ∈ seen) then first_of_key seen candidates
      else c :: first_of_key (c.1 :: seen) candidates
  end.

(** [modelKeyLookupOrder] of prompt-surface.ts. *)
Definition modelKeyLookupOrder (modelKey : option string) : list (string * ModelKeyLookupSource) :=
  match modelKey with
  | None => []
  | Some modelKey =>
      match cut "/" modelKey with
      | None => []
      | Some (provider, modelID) =>
          if is_empty provider || is_empty modelID then []
          else
            let providers := List.map provider_of (modelRefLookupOrder (provider ++ "/" ++ modelID)) in
            first_of_key []
              (List.concat (List.map (keys_of_base providers) (bases modelID)) ++
               List.map (fun provider => ((provider ++ "/*")%string, wildcard)) providers)
      end
  end.

(** ** Values *)

(** The loop over the candidates: the first one with a value. *)
Fixpoint first_value {A T S} (value : A → option T) (candidates : list (A * S)) : option (T * S) :=
  match candidates with
  | [] => None
  | c :: candidates =>
      match value c.1 with
      | Some v => Some (v, c.2)
      | None => first_value value candidates
      end
  end.

Definition resolveModelConfigValue {T} (values : option (jsmap string T)) (modelKey : option string)
    : option (T * ModelKeyLookupSource) :=
  values ← values;
  first_value (JsMap.get values) (modelKeyLookupOrder modelKey).

Definition resolveModelConfigOrDefault {T} (values : jsmap string T) (modelKey : option string)
    (fallback : T) : T :=
  match resolveModelConfigValue (Some values) modelKey with Some (v, _) => v | None => fallback end.

Inductive PromptSurfacePreset := preset_full | preset_light.

Record PromptSurfaceConfig := {
  sf_default : option PromptSurfacePreset;
  sf_models : option (jsmap string PromptSurfacePreset)
}.

(** [None] is the source "default". *)
Definition resolvePromptSurface (config : option PromptSurfaceConfig) (modelKey : option string)
    : PromptSurfacePreset * option ModelKeyLookupSource :=
  let fallback := default preset_full (config ≫= sf_default) in
  match resolveModelConfigValue (config ≫= sf_models) modelKey with
  | Some (preset, source) => (preset, Some source)
  | None => (fallback, None)
  end.

Definition has_char (u : ascii) (s : string) : bool := existsb (fun c => Ascii.eqb c u) (String.list_ascii_of_string s).

Definition ends_with_slash (s : string) : bool :=
  match cut_last "/" s with Some (_, rest) => is_empty rest | None => false end.

Definition isValidPromptSurfaceModelKey (key : string) : bool :=
  if is_empty key || negb (String.eqb (trim key) key) then false
  else
    match cut "/" key with
    | None => negb (has_char "*" key)
    | Some (provider, modelID) =>
        if is_empty provider || is_empty modelID then false
        else if negb (String.eqb (trim provider) provider) || negb (String.eqb (trim modelID) modelID) ||
                has_char "*" provider || (has_char "*" modelID && negb (String.eqb modelID "*")) then false
        else if String.eqb modelID "*" then true
        else negb (startsWith modelID "/") && negb (ends_with_slash modelID) && negb (includes modelID "//")
    end.

(** [resolveModelKey] of event-resolvers.ts. *)
Definition resolveModelKey (providerID modelID : option string) : option string :=
  match providerID, modelID with
  | Some p, Some m => if is_empty p || is_empty m then None
                      else Some (piModelRefToCanonical (p ++ "/" ++ m))
  | _, _ => None
  end.

(** ** Lemmas: cutting *)

Lemma app_String c a b : (String c a ++ b = String c (a ++ b))%string.
Proof. done. Qed.

Lemma app_Empty b : (EmptyString ++ b = b)%string.
Proof. done. Qed.

Lemma app_assoc_string (a b c : string) : (a ++ b ++ c = (a ++ b) ++ c)%string.
Proof. induction a as [|d a IH]; [done|]. by rewrite !app_String, IH. Qed.

Lemma has_char_String u c s : has_char u (String c s) = Ascii.eqb c u || has_char u s.
Proof. done. Qed.

Lemma has_char_app u a b : has_char u (a ++ b)%string = has_char u a || has_char u b.
Proof. induction a as [|c a IH]; [done|]. by rewrite app_String, !has_char_String, IH, orb_assoc. Qed.

Lemma cut_app u a b : has_char u a = false → cut u (a ++ String u b) = Some (a, b).
Proof.
  induction a as [|c a IH]; intros Ha.
  - rewrite app_Empty. cbn [cut]. by rewrite Ascii.eqb_refl.
  - rewrite has_char_String in Ha. apply orb_false_iff in Ha as [Hc Ha].
    rewrite app_String. cbn [cut]. by rewrite Hc, IH.
Qed.

Lemma cut_spec u s a b : cut u s = Some (a, b) ↔ s = (a ++ String u b)%string ∧ has_char u a = false.
Proof.
  split.
  - revert a b. induction s as [|c s IH]; intros a b; cbn [cut]; [done|].
    destruct (Ascii.eqb c u) eqn:Ec; [apply Ascii.eqb_eq in Ec as ->; by intros [= <- <-]|].
    destruct (cut u s) as [[a' b']|] eqn:E; cbn; [|done]. intros [= <- <-].
    destruct (IH a' b' eq_refl) as [-> Ha]. by rewrite has_char_String, Ec.
  - intros [-> Ha]. by apply cut_app.
Qed.

Lemma cut_last_None u s : cut_last u s = None → has_char u s = false.
Proof.
  induction s as [|c s IH]; cbn [cut_last]; [done|]. destruct (cut_last u s) as [[a b]|]; [done|].
  destruct (Ascii.eqb c u) eqn:E; [done|]. intros _. by rewrite has_char_String, E, IH.
Qed.

Lemma cut_last_spec u s a b : cut_last u s = Some (a, b) → s = (a ++ String u b)%string ∧ has_char u b = false.
Proof.
  revert a b. induction s as [|c s IH]; intros a b; cbn [cut_last]; [done|].
  destruct (cut_last u s) as [[a' b']|] eqn:E.
  - intros [= <- <-]. by destruct (IH a' b' eq_refl) as [-> Hb].
  - destruct (Ascii.eqb c u) eqn:Ec; [|done]. apply Ascii.eqb_eq in Ec as ->.
    intros [= <- <-]. split; [done|]. by apply cut_last_None.
Qed.

Lemma is_empty_false s : is_empty s = false ↔ s ≠ EmptyString.
Proof. by destruct s. Qed.

(** ** Lemmas: bases *)

(** [b] is the model id or what precedes one of its dashes. *)
Definition base_of (b m : string) : Prop :=
  b ≠ EmptyString ∧ (m = b ∨ ∃ rest, m = (b ++ String "-" rest)%string).

Lemma base_of_Empty b : ¬ base_of b EmptyString.
Proof. intros [Hb [<-|[rest E]]]; [done|]. by destruct b. Qed.

Lemma app_split_last (a b c d : string) u : (a ++ String u b = c ++ String u d)%string → has_char u b = false →
  a = c ∨ ∃ r, a = (c ++ String u r)%string.
Proof.
  revert c. induction a as [|x a IH]; intros c E Hb.
  - destruct c as [|y c]; [by left|]. rewrite app_Empty, app_String in E. injection E as -> E. subst b.
    rewrite has_char_app, has_char_String, Ascii.eqb_refl in Hb. by rewrite orb_true_r in Hb.
  - destruct c as [|y c]; rewrite app_String in E.
    + rewrite app_Empty in E. injection E as -> E. right. by exists a.
    + rewrite app_String in E. injection E as -> E.
      destruct (IH c E Hb) as [->|[r ->]]; [by left|right; by exists r].
Qed.

Lemma base_of_shorter b m a r : cut_last "-" m = Some (a, r) → (base_of b m ↔ b = m ∧ b ≠ EmptyString ∨ base_of b a).
Proof.
  intros Hc. apply cut_last_spec in Hc as [-> Hr]. unfold base_of. split.
  - intros [Hb [<-|[rest E]]]; [by left|]. right. split; [done|].
    destruct (app_split_last a r b rest "-" E Hr) as [->|[r' ->]]; [by left|right; by exists r'].
  - intros [[-> Hb]|[Hb [->|[rest ->]]]]; (split; [done|]); [by left|right; by exists r|right].
    exists (rest ++ String "-" r)%string. by rewrite <- app_assoc_string.
Qed.

Lemma base_of_uncut b m : cut_last "-" m = None → base_of b m → b = m.
Proof.
  intros Hc [_ [->|[rest ->]]]; [done|]. apply cut_last_None in Hc.
  rewrite has_char_app, has_char_String, Ascii.eqb_refl in Hc. by rewrite orb_true_r in Hc.
Qed.

Lemma cut_last_shorter u m a r : cut_last u m = Some (a, r) → (String.length a < String.length m)%nat.
Proof. intros Hc. apply cut_last_spec in Hc as [-> _]. rewrite length_app_string. cbn. lia. Qed.

Lemma base_ids_spec fuel : ∀ m b, (String.length m ≤ fuel)%nat → b ∈ base_ids fuel m ↔ base_of b m.
Proof.
  induction fuel as [|fuel IH]; intros m b Hm; cbn [base_ids].
  - destruct m; [|cbn in Hm; lia]. split; [by intros ?%elem_of_nil|by intros ?%base_of_Empty].
  - destruct (is_empty m) eqn:Em.
    { destruct m; [|done]. split; [by intros ?%elem_of_nil|by intros ?%base_of_Empty]. }
    apply is_empty_false in Em. rewrite elem_of_cons. destruct (cut_last "-" m) as [[a r]|] eqn:Ec.
    + rewrite (base_of_shorter b m a r Ec). pose proof (cut_last_shorter _ _ _ _ Ec). destruct (is_empty a) eqn:Ea.
      * destruct a; [|done]. split; [intros [->|?%elem_of_nil]; [by left|done]|].
        intros [[-> _]|?%base_of_Empty]; [by left|done].
      * rewrite IH by lia. split; [intros [->|?]; [by left|by right]|intros [[-> _]|?]; [by left|by right]].
    + split; [intros [->|?%elem_of_nil]; [split; [done|by left]|done]|]. intros Hb. left. by eapply base_of_uncut.
Qed.

Lemma bases_spec m b : b ∈ bases m ↔ base_of b m.
Proof. by apply base_ids_spec. Qed.

Definition longer (a b : string) : Prop := (String.length b < String.length a)%nat.

Lemma base_ids_length fuel : ∀ m b, b ∈ base_ids fuel m → (String.length b ≤ String.length m)%nat.
Proof.
  induction fuel as [|fuel IH]; intros m b Hb; [by apply elem_of_nil in Hb|].
  cbn [base_ids] in Hb. destruct (is_empty m); [by apply elem_of_nil in Hb|].
  apply elem_of_cons in Hb as [->|Hb]; [done|].
  destruct (cut_last "-" m) as [[a r]|] eqn:Ec; [|by apply elem_of_nil in Hb].
  destruct (is_empty a); [by apply elem_of_nil in Hb|]. apply IH in Hb.
  apply cut_last_shorter in Ec. lia.
Qed.

Lemma base_ids_sorted fuel : ∀ m, StronglySorted longer (base_ids fuel m).
Proof.
  induction fuel as [|fuel IH]; intros m; cbn [base_ids]; [constructor|].
  destruct (is_empty m); [constructor|]. destruct (cut_last "-" m) as [[a r]|] eqn:Ec; [|repeat constructor].
  destruct (is_empty a); [repeat constructor|]. constructor; [apply IH|].
  apply cut_last_shorter in Ec. apply Forall_forall. intros b Hb%base_ids_length. unfold longer. lia.
Qed.

(** ** Lemmas: aliases *)

Definition canonical_provider (p : string) : string := default p (JsMap.get PI_TO_CANONICAL_PROVIDER p).

(** The names a provider goes by, canonical first. *)
Definition aliases (p : string) : list string :=
  let c := canonical_provider p in
  if String.eqb c "openai" then ["openai"; "openai-codex"]%string
  else if String.eqb c "google" then ["google"; "google-antigravity"]%string
  else [c].

Definition under (m q : string) : string := (q ++ "/" ++ m)%string.

Lemma under_inj m q q' : under m q = under m q' → q = q'.
Proof.
  unfold under. revert q'. induction q as [|c q IH]; intros [|c' q'] E; [done|exfalso|exfalso|].
  - apply (f_equal String.length) in E. rewrite !length_app_string in E. cbn in E. lia.
  - apply (f_equal String.length) in E. rewrite !length_app_string in E. cbn in E. lia.
  - rewrite !app_String in E. injection E as -> E. by rewrite (IH q').
Qed.

Lemma remap_under map p m : has_char "/" p = false → JsMap.get map EmptyString = None →
  remapProviderPrefix (under m p) map = under m (default p (JsMap.get map p)).
Proof.
  intros Hp Hm. unfold remapProviderPrefix. change (under m p) with (p ++ String "/" m)%string.
  rewrite cut_app by done. destruct p as [|c p]; [by rewrite Hm|]. cbn [is_empty].
  by destruct (JsMap.get map (String c p)).
Qed.

Lemma js_set_quad {A} `{EqDecision A} (x y : A) z w : y = x ∨ y = z → w = z →
  js_set [x; y; z; w] = js_set [x; z].
Proof.
  intros Hy ->. unfold js_set. cbn [js_set_from]. repeat case_decide; set_solver.
Qed.

Lemma js_set_map (f : string → string) l : (∀ x y, f x = f y → x = y) → js_set (List.map f l) = List.map f (js_set l).
Proof.
  intros Hf. unfold js_set. change (@nil string) with (List.map f []) at 1. generalize (@nil string) as seen.
  induction l as [|x l IH]; intros seen; [done|]. cbn [List.map js_set_from].
  assert (f x ∈ List.map f seen ↔ x ∈ seen) as Hin.
  { rewrite list_elem_of_fmap. split; [intros (y & E & Hy); by rewrite (Hf x y E)|intros Hx; by exists x]. }
  destruct (decide (f x ∈ List.map f seen)), (decide (x ∈ seen)); try (exfalso; tauto); [apply IH|].
  cbn [List.map]. f_equal. apply (IH (x :: seen)).
Qed.

Lemma lookup_order_under p m : has_char "/" p = false →
  modelRefLookupOrder (under m p) = List.map (under m) (aliases p).
Proof.
  intros Hp. unfold modelRefLookupOrder, resolveModelRefForPi, resolveModelRefForOmp,
    piModelRefToCanonical, ompModelRefToCanonical.
  change OMP_TO_CANONICAL_PROVIDER with PI_TO_CANONICAL_PROVIDER.
  change CANONICAL_TO_OMP_PROVIDER with CANONICAL_TO_PI_PROVIDER.
  rewrite (remap_under _ p) by done. fold (canonical_provider p).
  assert (canonical_provider p = "openai" ∧ (p = "openai" ∨ p = "openai-codex") ∨
          canonical_provider p = "google" ∧ (p = "google" ∨ p = "google-antigravity") ∨
          canonical_provider p = p ∧ p ≠ "openai" ∧ p ≠ "openai-codex" ∧ p ≠ "google" ∧ p ≠ "google-antigravity")%string
    as Hc.
  { unfold canonical_provider, PI_TO_CANONICAL_PROVIDER. cbn [JsMap.get fst snd].
    destruct (decide (p = "openai-codex")%string) as [->|]; [left; split; [done|by right]|].
    destruct (decide (p = "google-antigravity")%string) as [->|]; [right; left; split; [done|by right]|].
    repeat case_decide; try done.
    destruct (decide (p = "openai")%string) as [->|]; [left; split; [done|by left]|].
    destruct (decide (p = "google")%string) as [->|]; [right; left; split; [done|by left]|].
    by right; right. }
  unfold aliases. destruct Hc as [[-> Hp']|[[-> Hp']|(-> & H1 & H2 & H3 & H4)]].
  - assert (default "openai" (JsMap.get PI_TO_CANONICAL_PROVIDER "openai") = "openai")%string as E1 by done.
    assert (default "openai" (JsMap.get CANONICAL_TO_PI_PROVIDER "openai") = "openai-codex")%string as E2 by done.
    repeat (rewrite (remap_under _ "openai") by done; rewrite ?E1, ?E2).
    rewrite js_set_quad; [|destruct Hp' as [->| ->]; [by left|by right]|done].
    change [under m ?x; under m ?y] with (List.map (under m) [x; y]). rewrite js_set_map by apply under_inj. done.
  - assert (default "google" (JsMap.get PI_TO_CANONICAL_PROVIDER "google") = "google")%string as E1 by done.
    assert (default "google" (JsMap.get CANONICAL_TO_PI_PROVIDER "google") = "google-antigravity")%string as E2 by done.
    repeat (rewrite (remap_under _ "google") by done; rewrite ?E1, ?E2).
    rewrite js_set_quad; [|destruct Hp' as [->| ->]; [by left|by right]|done].
    change [under m ?x; under m ?y] with (List.map (under m) [x; y]). rewrite js_set_map by apply under_inj. done.
  - assert (JsMap.get PI_TO_CANONICAL_PROVIDER p = None ∧ JsMap.get CANONICAL_TO_PI_PROVIDER p = None) as [E1 E2].
    { unfold PI_TO_CANONICAL_PROVIDER, CANONICAL_TO_PI_PROVIDER. cbn [JsMap.get fst snd]. by repeat case_decide. }
    repeat (rewrite (remap_under _ p) by done; rewrite ?E1, ?E2; cbn [default]).
    rewrite (proj2 (String.eqb_neq _ _) H1), (proj2 (String.eqb_neq _ _) H3).
    unfold js_set. cbn [js_set_from]. repeat case_decide; set_solver.
Qed.

Lemma aliases_no_slash p q : has_char "/" p = false → q ∈ aliases p → has_char "/" q = false.
Proof.
  intros Hp. unfold aliases, canonical_provider. intros Hq.
  destruct (String.eqb_spec (default p (JsMap.get PI_TO_CANONICAL_PROVIDER p)) "openai");
    [set_unfold in Hq; by destruct Hq as [->|[->|[]]]|].
  destruct (String.eqb_spec (default p (JsMap.get PI_TO_CANONICAL_PROVIDER p)) "google");
    [set_unfold in Hq; by destruct Hq as [->|[->|[]]]|].
  apply list_elem_of_singleton in Hq as ->. unfold PI_TO_CANONICAL_PROVIDER. cbn [JsMap.get fst snd].
  by repeat case_decide.
Qed.

Lemma provider_of_under m q : has_char "/" q = false → provider_of (under m q) = q.
Proof. intros Hq. unfold provider_of. change (under m q) with (q ++ String "/" m)%string. by rewrite cut_app. Qed.

Lemma providers_under p m : has_char "/" p = false →
  List.map provider_of (modelRefLookupOrder (under m p)) = aliases p.
Proof.
  intros Hp. rewrite lookup_order_under, List.map_map by done.
  pose proof (aliases_no_slash p) as Ha. induction (aliases p) as [|q l IH]; [done|]. cbn [List.map].
  rewrite provider_of_under by (apply Ha; [done|by left]). f_equal. apply IH. intros q' H1 H2. apply Ha; [done|by right].
Qed.

Lemma key_order_under p m : has_char "/" p = false →
  modelKeyLookupOrder (Some (under m p)) =
    if is_empty p || is_empty m then []
    else first_of_key []
           (List.concat (List.map (keys_of_base (aliases p)) (bases m)) ++
            List.map (fun q => ((q ++ "/*")%string, wildcard)) (aliases p)).
Proof.
  intros Hp. unfold modelKeyLookupOrder. change (under m p) with (p ++ String "/" m)%string.
  rewrite cut_app by done. destruct (is_empty p || is_empty m); [done|].
  change (p ++ "/" ++ m)%string with (under m p). by rewrite (providers_under p m Hp).
Qed.

(** ** Lemmas: the first value *)

Section first_value.
Context {T : Type} (value : string → option T).
Abbreviation fv := (first_value value).

Lemma first_value_app {S} (l1 l2 : list (string * S)) :
  fv (l1 ++ l2) = match fv l1 with Some r => Some r | None => fv l2 end.
Proof. induction l1 as [|c l1 IH]; [done|]. cbn. by destruct (value c.1). Qed.

Lemma first_of_key_value l : ∀ seen, (∀ k, k ∈ seen → value k = None) → fv (first_of_key seen l) = fv l.
Proof.
  induction l as [|c l IH]; intros seen Hs; [done|]. cbn [first_of_key first_value].
  destruct (bool_decide (c.1 ∈ seen)) eqn:E.
  - apply bool_decide_eq_true in E. rewrite (Hs _ E). by apply IH.
  - cbn [first_value]. destruct (value c.1) eqn:Ev; [done|]. apply IH. set_solver.
Qed.

Lemma first_value_map {S} (f : string → string) (s : S) l :
  match fv (List.map (fun q => (f q, s)) l) with
  | Some (v, s') => s' = s ∧ ∃ q, q ∈ l ∧ value (f q) = Some v
  | None => ∀ q, q ∈ l → value (f q) = None
  end.
Proof.
  induction l as [|q l IH]; cbn [List.map first_value]; [by intros ? ?%elem_of_nil|]. cbn [fst snd].
  destruct (value (f q)) as [v|] eqn:E; [split; [done|]; exists q; split; [by left|done]|].
  destruct (fv (List.map (fun q => (f q, s)) l)) as [[v s']|].
  - destruct IH as (-> & q' & Hq & Hv). split; [done|]. exists q'. split; [by right|done].
  - intros q' [->|Hq]%elem_of_cons; [done|by apply IH].
Qed.

(** No entry for [b], bare or under a provider of [ps]. *)
Definition unconfigured (ps : list string) (b : string) : Prop :=
  value b = None ∧ ∀ q, q ∈ ps → value (under b q) = None.

Lemma first_value_turn ps b :
  match fv (keys_of_base ps b) with
  | Some (v, exact) => ∃ q, q ∈ ps ∧ value (under b q) = Some v
  | Some (v, bare) => value b = Some v ∧ ∀ q, q ∈ ps → value (under b q) = None
  | Some (_, wildcard) => False
  | None => unconfigured ps b
  end.
Proof.
  unfold keys_of_base. rewrite first_value_app. pose proof (first_value_map (under b) exact ps) as H.
  change (fun provider => ((provider ++ "/" ++ b)%string, exact)) with (fun q => (under b q, exact)).
  destruct (fv (List.map (fun q => (under b q, exact)) ps)) as [[v s]|]; [by destruct H as (-> & ?)|].
  cbn. destruct (value b) as [v|] eqn:E; [done|]. done.
Qed.

Lemma first_value_bases ps bs : StronglySorted longer bs →
  match fv (List.concat (List.map (keys_of_base ps) bs)) with
  | Some r => ∃ b, b ∈ bs ∧ fv (keys_of_base ps b) = Some r ∧ ∀ b', b' ∈ bs → longer b' b → unconfigured ps b'
  | None => ∀ b, b ∈ bs → unconfigured ps b
  end.
Proof.
  induction 1 as [|b bs Hs IH Hb]; [by intros ? ?%elem_of_nil|]. cbn [List.map List.concat].
  rewrite first_value_app. pose proof (first_value_turn ps b) as Ht.
  destruct (fv (keys_of_base ps b)) as [r|] eqn:E.
  - exists b. split; [by left|]. split; [done|]. intros b' [->|Hb']%elem_of_cons Hl.
    + unfold longer in Hl. lia.
    + rewrite Forall_forall in Hb. specialize (Hb b' Hb'). unfold longer in *. lia.
  - destruct (fv (List.concat (List.map (keys_of_base ps) bs))) as [r|].
    + destruct IH as (b' & Hin & E' & Hl). exists b'. split; [by right|]. split; [done|].
      intros b'' [->|Hb'']%elem_of_cons Hlb; [done|by apply Hl].
    + intros b' [->|Hb']%elem_of_cons; [done|by apply IH].
Qed.

End first_value.

(** What the value found for a model is. *)
Definition most_specific {T} (values : jsmap string T) (p m : string)
    (found : option (T * ModelKeyLookupSource)) : Prop :=
  let unset := unconfigured (JsMap.get values) (aliases p) in
  match found with
  | Some (v, exact) => ∃ q b, q ∈ aliases p ∧ base_of b m ∧ JsMap.get values (under b q) = Some v ∧
                       ∀ b', base_of b' m → longer b' b → unset b'
  | Some (v, bare) => ∃ b, base_of b m ∧ JsMap.get values b = Some v ∧
                      (∀ q, q ∈ aliases p → JsMap.get values (under b q) = None) ∧
                      ∀ b', base_of b' m → longer b' b → unset b'
  | Some (v, wildcard) => (∃ q, q ∈ aliases p ∧ JsMap.get values (under "*" q) = Some v) ∧
                          ∀ b, base_of b m → unset b
  | None => (∀ q, q ∈ aliases p → JsMap.get values (under "*" q) = None) ∧ ∀ b, base_of b m → unset b
  end.

Lemma first_value_most_specific {T} (values : jsmap string T) p m :
  most_specific values p m
    (first_value (JsMap.get values)
       (List.concat (List.map (keys_of_base (aliases p)) (bases m)) ++
        List.map (fun q => (under "*" q, wildcard)) (aliases p))).
Proof.
  unfold most_specific. rewrite first_value_app.
  pose proof (first_value_bases (JsMap.get values) (aliases p) (bases m) (base_ids_sorted _ m)) as Hb.
  destruct (first_value (JsMap.get values) (List.concat _)) as [[v s]|].
  - destruct Hb as (b & Hin & Et & Hl). apply bases_spec in Hin.
    pose proof (first_value_turn (JsMap.get values) (aliases p) b) as Ht. rewrite Et in Ht.
    assert (∀ b', base_of b' m → longer b' b → unconfigured (JsMap.get values) (aliases p) b') as Hl'.
    { intros b' Hb'. apply Hl. by apply bases_spec. }
    destruct s; [|destruct Ht as [Hv Hn]|done].
    + destruct Ht as (q & Hq & Hv). by exists q, b.
    + by exists b.
  - pose proof (first_value_map (JsMap.get values) (under "*") wildcard (aliases p)) as Hw.
    assert (∀ b, base_of b m → unconfigured (JsMap.get values) (aliases p) b) as Hb'.
    { intros b Hbm. apply Hb. by apply bases_spec. }
    destruct (first_value (JsMap.get values) (List.map _ _)) as [[v s]|]; [|done].
    by destruct Hw as (-> & Hw).
Qed.

(** ** Properties *)

Lemma under_cut key p m : cut "/" key = Some (p, m) ↔ key = under m p ∧ has_char "/" p = false.
Proof. apply cut_spec. Qed.

Lemma canonical_no_slash key : cut "/" key = None → piModelRefToCanonical key = key.
Proof. intros Hc. unfold piModelRefToCanonical, remapProviderPrefix. by rewrite Hc. Qed.

Lemma canonical_under m p : has_char "/" p = false →
  piModelRefToCanonical (under m p) = under m (canonical_provider p).
Proof. intros Hp. unfold piModelRefToCanonical. by rewrite remap_under. Qed.

Lemma canonical_provider_no_slash p : has_char "/" p = false → has_char "/" (canonical_provider p) = false.
Proof.
  intros Hp. unfold canonical_provider, PI_TO_CANONICAL_PROVIDER. cbn [JsMap.get fst snd].
  by repeat case_decide.
Qed.

(** The parts of two references the harnesses name alike. *)
Lemma canonical_provider_idem p : canonical_provider (canonical_provider p) = canonical_provider p.
Proof.
  unfold canonical_provider, PI_TO_CANONICAL_PROVIDER. cbn [JsMap.get].
  destruct (decide (p = "openai-codex"%string)) as [->|H1]; [reflexivity|].
  destruct (decide (p = "google-antigravity"%string)) as [->|H2]; [reflexivity|].
  cbn [from_option id]. by rewrite !decide_False by done.
Qed.

Lemma canonical_idem key : piModelRefToCanonical (piModelRefToCanonical key) = piModelRefToCanonical key.
Proof.
  destruct (cut "/" key) as [[p m]|] eqn:Ec.
  - apply under_cut in Ec as [-> Hp]. rewrite !canonical_under; [|by apply canonical_provider_no_slash|done].
    by rewrite canonical_provider_idem.
  - by rewrite !(canonical_no_slash key).
Qed.

Lemma canonical_parts k1 k2 : piModelRefToCanonical k1 = piModelRefToCanonical k2 →
  k1 = k2 ∨ ∃ p1 p2 m, k1 = under m p1 ∧ k2 = under m p2 ∧ has_char "/" p1 = false ∧ has_char "/" p2 = false ∧
                       canonical_provider p1 = canonical_provider p2.
Proof.
  intros E. destruct (cut "/" k1) as [[p1 m1]|] eqn:E1, (cut "/" k2) as [[p2 m2]|] eqn:E2.
  - apply under_cut in E1 as [-> H1]. apply under_cut in E2 as [-> H2]. rewrite !canonical_under in E by done.
    pose proof (proj2 (under_cut (under m1 (canonical_provider p1)) _ m1) (conj eq_refl (canonical_provider_no_slash p1 H1))) as C1.
    pose proof (proj2 (under_cut (under m2 (canonical_provider p2)) _ m2) (conj eq_refl (canonical_provider_no_slash p2 H2))) as C2.
    rewrite E, C2 in C1. injection C1 as Ep ->. right. by exists p1, p2, m1.
  - apply under_cut in E1 as [-> H1]. rewrite canonical_under, (canonical_no_slash k2) in E by done. exfalso.
    pose proof (proj2 (under_cut k2 _ m1) (conj (eq_sym E) (canonical_provider_no_slash p1 H1))). congruence.
  - apply under_cut in E2 as [-> H2]. rewrite canonical_under, (canonical_no_slash k1) in E by done. exfalso.
    pose proof (proj2 (under_cut k1 _ m2) (conj E (canonical_provider_no_slash p2 H2))). congruence.
  - left. by rewrite !canonical_no_slash in E.
Qed.

Lemma aliases_canonical p1 p2 : canonical_provider p1 = canonical_provider p2 → aliases p1 = aliases p2.
Proof. unfold aliases. by intros ->. Qed.

Lemma is_empty_canonical p : is_empty (canonical_provider p) = is_empty p.
Proof.
  unfold canonical_provider, PI_TO_CANONICAL_PROVIDER. cbn [JsMap.get fst snd].
  repeat case_decide; subst; done.
Qed.

(** The names different harnesses give a model are interchangeable: references with
    one canonical form have the same aliases, and every configuration, per model or
    per threshold, is looked up under the same keys in the same order. *)
Theorem aliases_resolve_alike k1 k2 :
  piModelRefToCanonical k1 = piModelRefToCanonical k2 →
  modelRefLookupOrder k1 = modelRefLookupOrder k2 ∧
  thresholdKeyOrder k1 = thresholdKeyOrder k2 ∧
  modelKeyLookupOrder (Some k1) = modelKeyLookupOrder (Some k2).
Proof.
  intros E. apply canonical_parts in E as [->|(p1 & p2 & m & -> & -> & H1 & H2 & Ec)]; [done|].
  pose proof (aliases_canonical _ _ Ec) as Ea. split_and!.
  - by rewrite !lookup_order_under, Ea.
  - unfold thresholdKeyOrder.
    rewrite (proj2 (under_cut (under m p1) p1 m)), (proj2 (under_cut (under m p2) p2 m)) by done.
    by rewrite !providers_under, Ea.
  - rewrite !key_order_under by done. by rewrite Ea, <- (is_empty_canonical p1), <- (is_empty_canonical p2), Ec.
Qed.

(** The value configured for a model is that of its most specific key: the longest
    dash-separated prefix of the model id that has an entry, under any name of the
    provider before the bare id, and the provider's wildcard only when no prefix has
    one; nothing is found just when no key has an entry. *)
Theorem most_specific_key {T} (values : jsmap string T) key p m :
  cut "/" key = Some (p, m) → is_empty p = false → is_empty m = false →
  most_specific values p m (resolveModelConfigValue (Some values) (Some key)).
Proof.
  intros Hc Hp Hm. apply under_cut in Hc as [-> Hs]. unfold resolveModelConfigValue. cbn [mbind option_bind].
  rewrite key_order_under, Hp, Hm by done. cbn [orb]. rewrite first_of_key_value; [|by intros ? ?%elem_of_nil].
  apply first_value_most_specific.
Qed.

(** ** Witnesses *)

Lemma aliases_resolve_alike_witness :
  thresholdKeyOrder "openai-codex/gpt-5.4-fast" =
    ["openai/gpt-5.4-fast"; "openai-codex/gpt-5.4-fast"; "gpt-5.4-fast";
     "openai/gpt-5.4"; "openai-codex/gpt-5.4"; "gpt-5.4";
     "openai/gpt"; "openai-codex/gpt"; "gpt"]%string ∧
  thresholdKeyOrder "openai-codex/gpt-5.4-fast" = thresholdKeyOrder "openai/gpt-5.4-fast".
Proof.
  split; [vm_compute; reflexivity|].
  apply (aliases_resolve_alike "openai-codex/gpt-5.4-fast" "openai/gpt-5.4-fast"). vm_compute. reflexivity.
Defined.

Lemma most_specific_key_witness :
  let values := [("openai/*", 1); ("gpt-5.4", 2); ("openai-codex/gpt-5.4", 3)]%string in
  resolveModelConfigValue (Some values) (Some "openai/gpt-5.4-fast"%string) = Some (3, exact) ∧
  most_specific values "openai" "gpt-5.4-fast" (Some (3, exact)).
Proof.
  intros values. split; [vm_compute; reflexivity|].
  change (Some (3, exact)) with (resolveModelConfigValue (Some values) (Some "openai/gpt-5.4-fast"%string)).
  apply (most_specific_key values "openai/gpt-5.4-fast" "openai" "gpt-5.4-fast"); vm_compute; reflexivity.
Defined.
