(* ===== verification/TokenEstimate.v ===== *)
(** * Token estimates of raw messages

    Models the first half of
    packages/plugin/src/hooks/magic-context/read-session-true-raw-tokens.ts:
    how a message part is read as a tool signal, what a message costs in
    tokens, the process-wide estimate cache, the tool arcs of a session and the
    fence that keeps a boundary from splitting them, and the fingerprint of a
    range.

    The tokenizer is a parameter ([Tokenizer]). *)

From S2P Require Import Prelude JsNumber JsMap JsValue.

Class Tokenizer := { estimateTokens : string → num }.

Record RawMessage := {
  rm_ordinal : Z;
  rm_id : string;
  rm_role : string;
  rm_parts : list value
}.

Definition completedToolArcCrossesBoundary (invOrdinal resOrdinal boundary : Z) : bool :=
  (invOrdinal <? boundary) && (boundary <=? resOrdinal).

(** ** Breakdowns *)

Record TrueRawTokenBreakdown := {
  b_text : Z; b_reasoning : Z; b_toolInput : Z; b_toolOutput : Z; b_image : Z; b_other : Z;
  b_total : Z
}.

Inductive breakdown_kind :=
  k_text | k_reasoning | k_toolInput | k_toolOutput | k_image | k_other | k_total.

Definition EMPTY_BREAKDOWN : TrueRawTokenBreakdown :=
  {| b_text := 0; b_reasoning := 0; b_toolInput := 0; b_toolOutput := 0; b_image := 0;
     b_other := 0; b_total := 0 |}.

Definition safe_value (v : num) : Z :=
  if isFinite v && nltb (nofZ 0) v then roundZ v else 0.

Definition addBreakdown (target : TrueRawTokenBreakdown) (kind : breakdown_kind) (v : num)
    : TrueRawTokenBreakdown :=
  let n := safe_value v in
  let '{| b_text := t; b_reasoning := r; b_toolInput := ti; b_toolOutput := to; b_image := i;
          b_other := o; b_total := total |} := target in
  match kind with
  | k_total => target
  | k_text => Build_TrueRawTokenBreakdown (t + n) r ti to i o (total + n)
  | k_reasoning => Build_TrueRawTokenBreakdown t (r + n) ti to i o (total + n)
  | k_toolInput => Build_TrueRawTokenBreakdown t r (ti + n) to i o (total + n)
  | k_toolOutput => Build_TrueRawTokenBreakdown t r ti (to + n) i o (total + n)
  | k_image => Build_TrueRawTokenBreakdown t r ti to (i + n) o (total + n)
  | k_other => Build_TrueRawTokenBreakdown t r ti to i (o + n) (total + n)
  end.

(** ** Reading parts *)

(** The first of the fields that is a non-empty string. *)
Fixpoint firstStringField (record : list (string * value)) (fields : list string)
    : option string :=
  match fields with
  | [] => None
  | f :: fields =>
      match field record f with
      | VStr s => if 0 <? str_length s then Some s else firstStringField record fields
      | _ => firstStringField record fields
      end
  end.

Definition str_field (part : list (string * value)) (key : string) : string :=
  match field part key with VStr s => s | _ => EmptyString end.

Definition partType (part : list (string * value)) : string := str_field part "type".

Definition looksImageLike (part : list (string * value)) : bool :=
  let type := toLowerCase (str_field part "type") in
  let mime := toLowerCase (str_field part "mime") in
  let mediaType := toLowerCase (str_field part "mediaType") in
  includes type "image" || startsWith mime "image/" || startsWith mediaType "image/" ||
  negb (is_undefined (field part "image_url")) ||
  negb (is_undefined (field part "imageUrl")) ||
  negb (is_undefined (field part "image")).

Definition defaultImageTokenHeuristic (part : value) : num :=
  match isRecord part with
  | Some part =>
      match field part "width", field part "height" with
      | VNum width, VNum height =>
          if nltb (nofZ 0) width && nltb (nofZ 0) height
          then nmax (nofZ 256) (nmin (nofZ 4096) (nceil (ndiv (nmul width height) (nofZ 750))))
          else nofZ 1024
      | _, _ => nofZ 1024
      end
  | None => nofZ 1024
  end.

Definition typeof (v : value) : string :=
  match v with
  | VUndefined => "undefined"
  | VNull | VArr _ | VObj _ => "object"
  | VBool _ => "boolean"
  | VNum _ => "number"
  | VStr _ => "string"
  end.

Definition CALL_ID_FIELDS : list string :=
  ["callID"; "callId"; "toolCallId"; "tool_call_id"; "id"]%string.

Definition callIdFromPart (part : list (string * value)) : string :=
  match firstStringField part CALL_ID_FIELDS with
  | Some direct => direct
  | None =>
      match isRecord (field part "state") with
      | Some state => default EmptyString (firstStringField state CALL_ID_FIELDS)
      | None => EmptyString
      end
  end.

Definition rawPartVersion (part : list (string * value)) : value :=
  coalesce (field part "__magicContextPartUpdatedAt")
    (coalesce (field part "updated_at")
      (coalesce (field part "updatedAt")
        (coalesce (field part "version")
          (coalesce (field part "revision") (VStr EmptyString))))).

(** The invocations of each call id that still await a result. *)
Abbreviation open_queues := (jsmap string (list Z)).

Record ToolSignal := {
  ts_callId : string;
  ts_hasInput : bool;
  ts_hasOutput : bool;
  ts_inputText : string;
  ts_outputText : string
}.

Record ToolArc := { a_callId : string; a_inv : Z; a_res : option Z }.

Section estimates.
Context `{Engine} `{Tokenizer}.

(** A template literal's [${n}] for an integer. *)
Definition str_of_Z (z : Z) : string := numberToString (nofZ z).

Definition estimateStructured (v : value) : num :=
  match v with
  | VStr s => estimateTokens s
  | VUndefined | VNull => nofZ 0
  | _ => estimateTokens (stableStringify v)
  end.

Definition stringValue (v : value) : string :=
  match v with
  | VStr s => s
  | VUndefined | VNull => EmptyString
  | _ => stableStringify v
  end.

Definition textFromToolResultContent (content : value) : string :=
  match content with
  | VStr s => s
  | VArr entries =>
      join (str_of_unit 10)
        (omap (fun entry =>
           match entry with
           | VStr s => Some s
           | VObj record =>
               Some (match firstStringField record ["text"; "content"; "value"]%string with
                     | Some text => text
                     | None => stableStringify entry
                     end)
           | VUndefined | VNull => None
           | _ => Some (js_String entry)
           end) entries)
  | _ => stringValue content
  end.

Fixpoint recursiveByteLength (v : value) : Z :=
  match v with
  | VNull | VUndefined => 0
  | VStr s => str_length s
  | VNum _ | VBool _ => str_length (js_String v)
  | VArr items => lengthZ items + fold_right Z.add 0 (List.map recursiveByteLength items)
  | VObj entries =>
      lengthZ entries +
      fold_right Z.add 0
        (List.map (fun '(key, child) => str_length key + recursiveByteLength child) entries)
  end.

Definition toolSignalFromPart (part : value) : option ToolSignal :=
  match isRecord part with
  | None => None
  | Some part =>
      let type := partType part in
      let state := isRecord (field part "state") in
      let callId := callIdFromPart part in
      if String.eqb callId "" && negb (String.eqb type "tool") then None
      else if String.eqb type "tool" then
        let hasInput := match state with Some state => hasOwn state "input" | None => false end in
        let outputKey :=
          match state with
          | Some state =>
              if hasOwn state "output" then Some "output"%string
              else if hasOwn state "error" then Some "error"%string
              else if hasOwn state "result" then Some "result"%string else None
          | None => None
          end in
        let hasOutput := match outputKey with Some _ => true | None => false end in
        let outputValue :=
          match outputKey, state with Some k, Some state => field state k | _, _ => VUndefined end in
        let providerExecuted :=
          match field part "providerExecuted" with VBool b => b | _ => false end in
        let openInvocation := negb providerExecuted && negb hasOutput in
        Some {| ts_callId := callId;
                ts_hasInput := hasInput || openInvocation;
                ts_hasOutput := hasOutput;
                ts_inputText := match state with
                                | Some state =>
                                    if hasInput then stringValue (field state "input")
                                    else EmptyString
                                | None => EmptyString
                                end;
                ts_outputText := if hasOutput then stringValue outputValue else EmptyString |}
      else if String.eqb type "tool-invocation" then
        let args := coalesce (field part "args") (field part "input") in
        Some {| ts_callId := callId; ts_hasInput := negb (is_undefined args);
                ts_hasOutput := false; ts_inputText := stringValue args;
                ts_outputText := EmptyString |}
      else if String.eqb type "tool_use" then
        let input := field part "input" in
        Some {| ts_callId := callId; ts_hasInput := negb (is_undefined input);
                ts_hasOutput := false; ts_inputText := stringValue input;
                ts_outputText := EmptyString |}
      else if String.eqb type "tool_result" then
        let content := coalesce (field part "content")
                         (coalesce (field part "output") (field part "result")) in
        Some {| ts_callId := callId; ts_hasInput := false;
                ts_hasOutput := negb (is_undefined content); ts_inputText := EmptyString;
                ts_outputText := textFromToolResultContent content |}
      else None
  end.

(** ** The cost of a message *)

Record TrueRawEstimateOptions := {
  o_providerShapeVersion : string;
  o_imageTokenHeuristic : option (value → num)
}.

(** [estimateNonToolPart]: the new breakdown and whether the part was handled. *)
Definition estimateNonToolPart (part : value) (options : TrueRawEstimateOptions)
    (breakdown : TrueRawTokenBreakdown) : TrueRawTokenBreakdown * bool :=
  match isRecord part with
  | None =>
      (if is_nullish part then breakdown
       else addBreakdown breakdown k_other (estimateStructured part), true)
  | Some record =>
      let type := partType record in
      if String.eqb type "step-start" || String.eqb type "step-finish" ||
         (String.eqb type "meta" && (JsMap.size record <=? 1))
      then (breakdown, true)
      else if String.eqb type "text" then
        (match firstStringField record ["text"; "content"]%string with
         | Some text => addBreakdown breakdown k_text (estimateTokens text)
         | None => breakdown
         end, true)
      else if String.eqb type "reasoning" || String.eqb type "thinking" ||
              String.eqb type "redacted_thinking" then
        (match firstStringField record ["thinking"; "text"; "content"; "reasoning"]%string with
         | Some text => addBreakdown breakdown k_reasoning (estimateTokens text)
         | None => addBreakdown breakdown k_other (estimateStructured part)
         end, true)
      else
        match firstStringField record ["thinking"; "reasoning"]%string, type with
        | Some reasoningText, EmptyString =>
            (addBreakdown breakdown k_reasoning (estimateTokens reasoningText), true)
        | _, _ =>
            if looksImageLike record then
              let breakdown :=
                addBreakdown breakdown k_image
                  (match o_imageTokenHeuristic options with
                   | Some heuristic => heuristic part
                   | None => defaultImageTokenHeuristic part
                   end) in
              (match firstStringField record ["alt"; "text"; "description"]%string with
               | Some altText => addBreakdown breakdown k_text (estimateTokens altText)
               | None => breakdown
               end, true)
            else if includes type "file" || String.eqb type "source" then
              (match firstStringField record ["content"; "text"; "source"]%string with
               | Some content => addBreakdown breakdown k_text (estimateTokens content)
               | None => addBreakdown breakdown k_other (estimateStructured part)
               end, true)
            else (breakdown, false)
        end
  end.

(** The loop state: the breakdown, the keys counted and the tool index. *)
Record estimate_state := {
  es_breakdown : TrueRawTokenBreakdown;
  es_countedInput : list string;
  es_countedOutput : list string;
  es_toolIndex : Z
}.

(** [if (!counted.has(key)) { counted.add(key); addBreakdown(...) }]. *)
Definition count_once (key : string) (counted : list string) (kind : breakdown_kind) (v : num)
    (breakdown : TrueRawTokenBreakdown) : list string * TrueRawTokenBreakdown :=
  if decide (key ∈ counted) then (counted, breakdown)
  else (counted ++ [key], addBreakdown breakdown kind v).

Definition estimate_part (ordinal : Z) (options : TrueRawEstimateOptions)
    (st : estimate_state) (part : value) : estimate_state :=
  match toolSignalFromPart part with
  | Some signal =>
      let callId := ts_callId signal in
      let localKey :=
        ((if String.eqb callId "" then "tool" else callId) ++ ":" ++ str_of_Z ordinal ++ ":" ++
         str_of_Z (es_toolIndex st))%string in
      let '(cin, b) :=
        if ts_hasInput signal
        then count_once (callId ++ ":input:" ++ str_of_Z ordinal)%string (es_countedInput st)
               k_toolInput (estimateTokens (ts_inputText signal)) (es_breakdown st)
        else (es_countedInput st, es_breakdown st) in
      let '(cout, b) :=
        if ts_hasOutput signal
        then count_once (callId ++ ":output:" ++ str_of_Z ordinal ++ ":" ++ localKey)%string
               (es_countedOutput st) k_toolOutput (estimateTokens (ts_outputText signal)) b
        else (es_countedOutput st, b) in
      {| es_breakdown := b; es_countedInput := cin; es_countedOutput := cout;
         es_toolIndex := es_toolIndex st + 1 |}
  | None =>
      let '(b, handled) := estimateNonToolPart part options (es_breakdown st) in
      {| es_breakdown := if handled then b
                         else addBreakdown b k_other (estimateStructured part);
         es_countedInput := es_countedInput st; es_countedOutput := es_countedOutput st;
         es_toolIndex := es_toolIndex st |}
  end.

Definition estimateTrueRawMessageTokens (message : RawMessage)
    (options : TrueRawEstimateOptions) : TrueRawTokenBreakdown :=
  es_breakdown
    (foldl (estimate_part (rm_ordinal message) options)
       {| es_breakdown := EMPTY_BREAKDOWN; es_countedInput := []; es_countedOutput := [];
          es_toolIndex := 0 |} (rm_parts message)).

(** ** Fingerprints *)

Definition FNV1A_32_OFFSET : Z := 0x811c9dc5.
Definition FNV1A_32_PRIME : Z := 0x01000193.

(** [next ^= unit; next = Math.imul(next, PRIME) >>> 0]. *)
Definition fnv_step (hash unit : Z) : Z :=
  uint32 (int32 (int32 (Z.lxor (int32 hash) unit) * FNV1A_32_PRIME)).

Definition updateFnv1a32 (hash : Z) (text : string) : Z :=
  foldl fnv_step hash (code_units text).

Definition contentStringsHash (fields : list string) : string :=
  hex_padded 8
    (foldl (fun hash f =>
       updateFnv1a32 (updateFnv1a32 (updateFnv1a32 hash (str_of_Z (str_length f) ++ ":")%string) f)
         (str_of_unit 0)) FNV1A_32_OFFSET fields).

Definition partCheapFingerprint (part : value) : string :=
  match isRecord part with
  | None => (typeof part ++ ":" ++ str_of_Z (recursiveByteLength part))%string
  | Some record =>
      (partType record ++ ":" ++ js_String (rawPartVersion record) ++ ":" ++
       str_of_Z (recursiveByteLength part))%string
  end.

Definition messageCacheKey (namespace : string) (message : RawMessage)
    (options : TrueRawEstimateOptions) : string :=
  join (str_of_unit 0)
    [namespace; o_providerShapeVersion options;
     (if String.eqb (rm_id message) "" then "ordinal:" ++ str_of_Z (rm_ordinal message)
      else rm_id message)%string;
     rm_role message; str_of_Z (lengthZ (rm_parts message));
     join "|" (partCheapFingerprint <$> rm_parts message)].

Definition partContentFingerprint (part : value) : string :=
  match isRecord part with
  | None => (typeof part ++ ":" ++ str_of_Z (recursiveByteLength part))%string
  | Some record =>
      match toolSignalFromPart part with
      | Some tool => contentStringsHash [ts_inputText tool; ts_outputText tool]
      | None =>
          contentStringsHash
            [default EmptyString
               (firstStringField record
                  ["text"; "thinking"; "reasoning"; "content"; "url"]%string)]
      end
  end.

Definition computeRawRangeFingerprint (messages : list RawMessage)
    (startInclusive endExclusive : Z) : string :=
  join "|"
    (omap (fun message =>
       if (rm_ordinal message <? startInclusive) || (endExclusive <=? rm_ordinal message)
       then None
       else Some (str_of_Z (rm_ordinal message) ++ ":" ++ rm_id message ++ ":" ++
                  str_of_Z (lengthZ (rm_parts message)) ++ ":" ++
                  join "," (partContentFingerprint <$> rm_parts message))%string) messages).

(** ** The estimate cache *)

Definition MAX_MESSAGE_CACHE_ENTRIES : Z := 100000.
Definition MAX_MESSAGE_CACHE_KEY_BYTES : Z := 64 * 1024 * 1024.

Record CachedMessageEstimate := { c_breakdown : TrueRawTokenBreakdown; c_keyEstimateBytes : Z }.

Record estimate_cache := {
  ec_entries : jsmap string CachedMessageEstimate;
  ec_bytes : Z
}.

(** The eviction loop: the first entry leaves while a bound is exceeded. *)
Fixpoint evict (entries : jsmap string CachedMessageEstimate) (bytes : Z) : estimate_cache :=
  match entries with
  | [] => {| ec_entries := []; ec_bytes := bytes |}
  | (first, removed) :: rest =>
      if (MAX_MESSAGE_CACHE_ENTRIES <? JsMap.size entries) || (MAX_MESSAGE_CACHE_KEY_BYTES <? bytes)
      then evict rest (bytes - c_keyEstimateBytes removed)
      else {| ec_entries := entries; ec_bytes := bytes |}
  end.

Definition setCachedEstimate (key : string) (breakdown : TrueRawTokenBreakdown)
    (cache : estimate_cache) : estimate_cache :=
  let keyEstimateBytes := str_length key * 2 + 64 in
  let bytes :=
    match JsMap.get (ec_entries cache) key with
    | Some existing => ec_bytes cache - c_keyEstimateBytes existing
    | None => ec_bytes cache
    end in
  evict (JsMap.set (ec_entries cache) key
           {| c_breakdown := breakdown; c_keyEstimateBytes := keyEstimateBytes |})
        (bytes + keyEstimateBytes).

(** [invalidateTrueRawTokenCache]: the needles are given when the arguments
    are, and are not empty strings. *)
Definition invalidate_hit (sessionId messageId : option string) (key : string) : bool :=
  let given o := match o with
                 | Some s => if String.eqb s "" then None else Some s
                 | None => None
                 end in
  (match given sessionId with None => true | Some s => includes key s end) &&
  (match given messageId with
   | None => true
   | Some s => includes key (str_of_unit 0 ++ s ++ str_of_unit 0)%string
   end).

Definition invalidateTrueRawTokenCache (sessionId messageId : option string)
    (cache : estimate_cache) : estimate_cache :=
  foldl (fun cache '(key, v) =>
    if invalidate_hit sessionId messageId key
    then {| ec_entries := JsMap.delete (ec_entries cache) key;
            ec_bytes := ec_bytes cache - c_keyEstimateBytes v |}
    else cache) cache (ec_entries cache).

Definition tokenForMessage (namespace : string) (message : RawMessage)
    (options : TrueRawEstimateOptions) (cache : estimate_cache)
    : TrueRawTokenBreakdown * estimate_cache :=
  let key := messageCacheKey namespace message options in
  match JsMap.get (ec_entries cache) key with
  | Some cached => (c_breakdown cached, cache)
  | None =>
      let breakdown := estimateTrueRawMessageTokens message options in
      (breakdown, setCachedEstimate key breakdown cache)
  end.

(** ** Tool arcs *)

(** One part of [buildToolArcs]. *)
Definition arc_step (ordinal : Z) (st : open_queues * list ToolArc) (part : value)
    : open_queues * list ToolArc :=
  let '(openQueues, arcs) := st in
  match toolSignalFromPart part with
  | None => st
  | Some signal =>
      let callId := ts_callId signal in
      let queue := default [] (JsMap.get openQueues callId) in
      if str_length callId =? 0 then st
      else if ts_hasInput signal && ts_hasOutput signal then
        (openQueues,
         arcs ++ [{| a_callId := callId; a_inv := ordinal; a_res := Some ordinal |}])
      else if ts_hasInput signal then
        (JsMap.set openQueues callId (queue ++ [ordinal]), arcs)
      else if ts_hasOutput signal then
        match queue with
        | [] => (JsMap.delete openQueues callId, arcs)
        | invOrdinal :: queue =>
            ((match queue with
              | [] => JsMap.delete openQueues callId
              | _ => JsMap.set openQueues callId queue
              end),
             arcs ++ [{| a_callId := callId; a_inv := invOrdinal; a_res := Some ordinal |}])
        end
      else st
  end.

Definition open_arcs (openQueues : open_queues) : list ToolArc :=
  openQueues ≫= (fun '(callId, queue) =>
    (fun invOrdinal => {| a_callId := callId; a_inv := invOrdinal; a_res := None |}) <$> queue).

(** [(a, b) => a.invOrdinal - b.invOrdinal || ...]. *)
Definition arc_cmp (a b : ToolArc) : Z :=
  let d := a_inv a - a_inv b in
  if d =? 0
  then default MAX_SAFE_INTEGER (a_res a) - default MAX_SAFE_INTEGER (a_res b)
  else d.

Definition scan_arcs (messages : list RawMessage) : open_queues * list ToolArc :=
  foldl (fun st message => foldl (arc_step (rm_ordinal message)) st (rm_parts message))
    ([], []) messages.

Definition buildToolArcs (messages : list RawMessage) : list ToolArc :=
  let '(openQueues, arcs) := scan_arcs messages in
  js_sort arc_cmp (arcs ++ open_arcs openQueues).

End estimates.

(** The loop of [fenceBoundaryForToolArcs]. *)
Fixpoint fenceBoundaryForToolArcs (boundary : Z) (arcs : list ToolArc)
    (lastCompartmentEndOrdinal recentOpenArcCutoff : Z) : Z :=
  match arcs with
  | [] => boundary
  | arc :: arcs =>
      match a_res arc with
      | Some res =>
          fenceBoundaryForToolArcs
            (if completedToolArcCrossesBoundary (a_inv arc) res boundary then res + 1 else boundary)
            arcs lastCompartmentEndOrdinal recentOpenArcCutoff
      | None =>
          if a_inv arc <? recentOpenArcCutoff
          then fenceBoundaryForToolArcs boundary arcs lastCompartmentEndOrdinal recentOpenArcCutoff
          else if (lastCompartmentEndOrdinal + 1 <=? a_inv arc) && (a_inv arc <? boundary)
          then a_inv arc
          else if boundary <=? a_inv arc then a_inv arc
          else fenceBoundaryForToolArcs boundary arcs lastCompartmentEndOrdinal recentOpenArcCutoff
      end
  end.

(** ** Specification *)

(** What a part says about one call id. *)
Inductive arc_event := ev_complete | ev_open | ev_result.

(** The arcs of one call id, first invocation matched with first result. *)
Fixpoint fifo (callId : string) (pending : list Z) (events : list (Z * arc_event))
    : list ToolArc :=
  match events with
  | [] => (fun i => {| a_callId := callId; a_inv := i; a_res := None |}) <$> pending
  | (o, ev_complete) :: events =>
      {| a_callId := callId; a_inv := o; a_res := Some o |} :: fifo callId pending events
  | (o, ev_open) :: events => fifo callId (pending ++ [o]) events
  | (o, ev_result) :: events =>
      match pending with
      | [] => fifo callId [] events
      | i :: pending =>
          {| a_callId := callId; a_inv := i; a_res := Some o |} :: fifo callId pending events
      end
  end.

Section arc_spec.
Context `{Engine} `{Tokenizer}.

Definition event_of (callId : string) (part : value) : option arc_event :=
  match toolSignalFromPart part with
  | Some signal =>
      if decide (ts_callId signal = callId) then
        match ts_hasInput signal, ts_hasOutput signal with
        | true, true => Some ev_complete
        | true, false => Some ev_open
        | false, true => Some ev_result
        | false, false => None
        end
      else None
  | None => None
  end.

Definition call_events (callId : string) (messages : list RawMessage) : list (Z * arc_event) :=
  messages ≫= (fun m => (fun e => (rm_ordinal m, e)) <$> omap (event_of callId) (rm_parts m)).

End arc_spec.

(** A tail starting at [boundary] keeps no completed result without its call. *)
Definition splits_no_arc (arcs : list ToolArc) (boundary : Z) : Prop :=
  ∀ arc res, arc ∈ arcs → a_res arc = Some res →
    completedToolArcCrossesBoundary (a_inv arc) res boundary = false.

(** Every arc that still awaits its result is below the cutoff. *)
Definition open_arcs_stale (arcs : list ToolArc) (cutoff : Z) : Prop :=
  ∀ arc, arc ∈ arcs → a_res arc = None → a_inv arc < cutoff.

Definition cache_wf (cache : estimate_cache) : Prop :=
  JsMap.wf (ec_entries cache) ∧
  ec_bytes cache = sumZ (fun e => c_keyEstimateBytes e.2) (ec_entries cache) ∧
  (∀ k v, (k, v) ∈ ec_entries cache → c_keyEstimateBytes v = str_length k * 2 + 64).

(** The cache operations the process performs. *)
Inductive cache_op :=
| cache_set (key : string) (breakdown : TrueRawTokenBreakdown)
| cache_invalidate (sessionId messageId : option string).

Definition cache_apply (cache : estimate_cache) (op : cache_op) : estimate_cache :=
  match op with
  | cache_set key b => setCachedEstimate key b cache
  | cache_invalidate s m => invalidateTrueRawTokenCache s m cache
  end.

(** ** Lemmas *)

Lemma arc_cmp_total a b : arc_cmp a b ≤ 0 ∨ arc_cmp b a ≤ 0.
Proof. unfold arc_cmp. repeat case_match; lia. Qed.

Lemma arc_cmp_trans a b c : arc_cmp a b ≤ 0 → arc_cmp b c ≤ 0 → arc_cmp a c ≤ 0.
Proof. unfold arc_cmp. repeat case_match; lia. Qed.

Lemma arc_cmp_inv a b : arc_cmp a b ≤ 0 → a_inv a ≤ a_inv b.
Proof. unfold arc_cmp. case_match; lia. Qed.

Lemma foldl_concat {A B} (f : A → B → A) a (l : list (list B)) :
  foldl f a (concat l) = foldl (foldl f) a l.
Proof. revert a. induction l as [|x l IH]; intros a; cbn; [done|]. by rewrite foldl_app. Qed.

Section arc_lemmas.
Context `{Engine} `{Tokenizer}.
Implicit Types (st : open_queues * list ToolArc) (callId : string).

Let of_call callId (arcs : list ToolArc) := filter (fun a : ToolArc => a_callId a = callId) arcs.

Lemma open_arcs_of_call callId openQueues :
  JsMap.wf openQueues →
  of_call callId (open_arcs openQueues) =
  (fun i => {| a_callId := callId; a_inv := i; a_res := None |}) <$>
    default [] (JsMap.get openQueues callId).
Proof.
  unfold of_call. induction openQueues as [|[c q] m IH]; intros Hw; [done|].
  unfold open_arcs. rewrite bind_cons. rewrite filter_app. fold (open_arcs m).
  rewrite IH by by eapply wf_tail. cbn [JsMap.get].
  destruct (decide (callId = c)) as [->|Hne].
  - rewrite (proj2 (get_None m c)) by by apply NoDup_cons in Hw as [? _]. cbn [from_option fmap].
    rewrite app_nil_r. cbn [from_option id]. induction q as [|i q IHq]; [done|].
    rewrite fmap_cons, filter_cons_True by done. by rewrite IHq.
  - assert (∀ q : list Z, filter (fun a : ToolArc => a_callId a = callId)
      ((fun i => {| a_callId := c; a_inv := i; a_res := None |}) <$> q) = []) as ->; [|done].
    clear -Hne. induction q as [|i q IHq]; [done|].
    rewrite fmap_cons, filter_cons_False by (cbn; congruence). done.
Qed.

Lemma arc_step_wf ordinal st part : JsMap.wf st.1 → JsMap.wf (arc_step ordinal st part).1.
Proof.
  destruct st as [m arcs]. unfold arc_step. intros Hw.
  repeat case_match; cbn; auto using wf_set, wf_delete.
Qed.

(** One part advances the queue of its own call id as [fifo] does, and leaves
    the other queues alone. *)
Lemma arc_step_fifo callId ordinal st part events :
  callId ≠ EmptyString →
  of_call callId (arc_step ordinal st part).2 ++
    fifo callId (default [] (JsMap.get (arc_step ordinal st part).1 callId)) events =
  of_call callId st.2 ++
    fifo callId (default [] (JsMap.get st.1 callId))
      (((fun e => (ordinal, e)) <$> option_list (event_of callId part)) ++ events).
Proof.
  intros Hc. destruct st as [m arcs]. unfold arc_step, event_of.
  destruct (toolSignalFromPart part) as [signal|]; [|done].
  destruct (decide (ts_callId signal = callId)) as [->|Hne].
  - rewrite (proj2 (Z.eqb_neq (str_length callId) 0)).
    2:{ destruct callId; [done|]. unfold str_length. cbn [String.length]. lia. }
    destruct (ts_hasInput signal), (ts_hasOutput signal);
      cbn [andb fst snd option_list fmap list_fmap app fifo].
    + unfold of_call. rewrite filter_app, filter_cons_True, filter_nil by done.
      by rewrite <- app_assoc.
    + by rewrite get_set_eq.
    + destruct (JsMap.get m callId) as [[|i [|j q]]|] eqn:E; cbn.
      * by rewrite get_delete_eq.
      * rewrite get_delete_eq. unfold of_call.
        rewrite filter_app, filter_cons_True, filter_nil by done. by rewrite <- app_assoc.
      * rewrite get_set_eq. unfold of_call.
        rewrite filter_app, filter_cons_True, filter_nil by done. by rewrite <- app_assoc.
      * by rewrite get_delete_eq.
    + done.
  - cbn [option_list fmap list_fmap app]. unfold of_call.
    assert (∀ o r, filter (fun a : ToolArc => a_callId a = callId)
      (arcs ++ [{| a_callId := ts_callId signal; a_inv := o; a_res := r |}]) =
      filter (fun a : ToolArc => a_callId a = callId) arcs) as Hother.
    { intros o r. rewrite filter_app, filter_cons_False, filter_nil by done. apply app_nil_r. }
    repeat case_match; cbn [fst snd]; rewrite ?Hother, ?get_set_ne, ?get_delete_ne by done; done.
Qed.

Lemma scan_arcs_fifo callId parts st events :
  callId ≠ EmptyString →
  let st' := foldl (fun st '(o, part) => arc_step o st part) st parts in
  of_call callId st'.2 ++ fifo callId (default [] (JsMap.get st'.1 callId)) events =
  of_call callId st.2 ++ fifo callId (default [] (JsMap.get st.1 callId))
    ((parts ≫= (fun '(o, part) => (fun e => (o, e)) <$> option_list (event_of callId part)))
     ++ events).
Proof.
  intros Hc. revert st. induction parts as [|[o part] parts IH]; intros st; [done|].
  cbn [foldl]. rewrite IH, arc_step_fifo by done. by rewrite bind_cons, <- app_assoc.
Qed.

(** The parts of a session, each with the ordinal of its message. *)
Definition session_parts (messages : list RawMessage) : list (Z * value) :=
  messages ≫= (fun m => (fun part => (rm_ordinal m, part)) <$> rm_parts m).

Lemma scan_arcs_parts messages :
  scan_arcs messages = foldl (fun st '(o, part) => arc_step o st part) ([], []) (session_parts messages).
Proof.
  unfold scan_arcs, session_parts. generalize (([], []) : open_queues * list ToolArc).
  induction messages as [|m messages IH]; intros st; [done|].
  rewrite bind_cons, foldl_app. cbn [foldl]. rewrite IH. f_equal.
  revert st. induction (rm_parts m) as [|p ps IHp]; intros st; [done|].
  cbn [foldl fmap list_fmap]. apply IHp.
Qed.

Lemma scan_arcs_wf messages : JsMap.wf (scan_arcs messages).1.
Proof.
  rewrite scan_arcs_parts.
  assert (JsMap.wf (([], []) : open_queues * list ToolArc).1) as Hw by apply NoDup_nil_2.
  revert Hw. generalize (([], []) : open_queues * list ToolArc).
  induction (session_parts messages) as [|[o p] ps IH]; intros st Hw; [done|].
  cbn [foldl]. by apply IH, arc_step_wf.
Qed.

Lemma call_events_parts callId messages :
  call_events callId messages =
  session_parts messages ≫= (fun '(o, part) => (fun e => (o, e)) <$> option_list (event_of callId part)).
Proof.
  unfold call_events, session_parts. induction messages as [|m messages IH]; [done|].
  rewrite !bind_cons, bind_app, IH. f_equal.
  induction (rm_parts m) as [|p ps IHp]; [done|].
  rewrite fmap_cons, bind_cons, <- IHp. cbn [omap list_omap].
  by destruct (event_of callId p).
Qed.

End arc_lemmas.

(** *** The fence *)

Lemma crosses_false i r b :
  completedToolArcCrossesBoundary i r b = false ↔ b ≤ i ∨ r < b.
Proof. unfold completedToolArcCrossesBoundary. rewrite andb_false_iff, Z.ltb_ge, Z.leb_gt. done. Qed.

(** Clearing one arc moves the boundary to the least one the arc does not cross,
    and splits no arc that started earlier and ended before the old boundary. *)
Lemma fence_bump i r b :
  let b1 := if completedToolArcCrossesBoundary i r b then r + 1 else b in
  b ≤ b1 ∧ completedToolArcCrossesBoundary i r b1 = false ∧
  (∀ b', completedToolArcCrossesBoundary i r b' = false → b ≤ b' → b1 ≤ b') ∧
  (∀ low r', low < b → low ≤ i → completedToolArcCrossesBoundary low r' b = false →
     completedToolArcCrossesBoundary low r' b1 = false).
Proof.
  cbv zeta. destruct (completedToolArcCrossesBoundary i r b) eqn:E; [|repeat split; auto with lia].
  unfold completedToolArcCrossesBoundary in E. bool_hyps.
  repeat split; [lia|apply crosses_false; lia| |]; intros *; rewrite ?crosses_false; lia.
Qed.

Section fence.
Implicit Types arcs : list ToolArc.

Lemma fence_from arcs boundary lastEnd cutoff low :
  StronglySorted (fun a b => arc_cmp a b ≤ 0) arcs → open_arcs_stale arcs cutoff →
  let r := fenceBoundaryForToolArcs boundary arcs lastEnd cutoff in
  boundary ≤ r ∧ splits_no_arc arcs r ∧
  (∀ b, splits_no_arc arcs b → boundary ≤ b → r ≤ b) ∧
  (∀ res, low < boundary → completedToolArcCrossesBoundary low res boundary = false →
    (∀ a, a ∈ arcs → low ≤ a_inv a) → completedToolArcCrossesBoundary low res r = false).
Proof.
  intros Hs. revert boundary low. induction Hs as [|arc arcs Hs IH Harc]; intros boundary low Hstale r.
  { split; [subst r; cbn; lia|]. split; [by intros ?? ?%elem_of_nil|]. split; [by intros|auto]. }
  assert (open_arcs_stale arcs cutoff) as Hstale' by (intros ???; apply Hstale; set_solver).
  assert (∀ a, a ∈ arcs → a_inv arc ≤ a_inv a) as Hinv.
  { intros a Ha. apply arc_cmp_inv. by eapply Forall_forall in Harc. }
  subst r. cbn [fenceBoundaryForToolArcs]. destruct (a_res arc) as [res|] eqn:Hres.
  - destruct (fence_bump (a_inv arc) res boundary) as (Hb1 & Hno & Hleast & Hearlier).
    set (b1 := if completedToolArcCrossesBoundary _ _ _ then _ else _) in *.
    destruct (IH b1 (a_inv arc) Hstale') as (Hle & Hsp & Hmin & Hlow).
    destruct (IH b1 low Hstale') as (_ & _ & _ & Hlow').
    split; [lia|]. split; [|split].
    + intros a res' [->|Ha]%elem_of_cons Hr; [|by eapply Hsp]. simplify_eq.
      destruct (decide (a_inv arc < b1)) as [Hlt|Hge]; [by apply Hlow|].
      (* no later arc starts below the boundary, so the rest leaves it alone *)
      apply crosses_false. left. etrans; [apply (Hmin b1); [|lia]|lia].
      intros a res' Ha _. specialize (Hinv a Ha). apply crosses_false. lia.
    + intros b Hb Hbb. apply Hmin; [intros a res' Ha; apply Hb; set_solver|].
      apply Hleast; [apply (Hb arc res); set_solver|done].
    + intros res' Hlt Hc Ha. apply Hlow'; [lia| |set_solver].
      apply Hearlier; [done|apply Ha; set_solver|done].
  - rewrite (proj2 (Z.ltb_lt _ _)) by (apply Hstale; [set_solver|done]).
    destruct (IH boundary low Hstale') as (Hle & Hsp & Hmin & Hlow).
    split; [done|]. split; [|split].
    + intros a res' [->|Ha]%elem_of_cons Hr; [congruence|by eapply Hsp].
    + intros b Hb. apply Hmin. intros a res' Ha. apply Hb. set_solver.
    + intros res' Hlt Hc Ha. apply Hlow; [done|done|set_solver].
Qed.

End fence.

(** *** Breakdowns *)

Definition breakdown_wf (b : TrueRawTokenBreakdown) : Prop :=
  0 ≤ b_text b ∧ 0 ≤ b_reasoning b ∧ 0 ≤ b_toolInput b ∧ 0 ≤ b_toolOutput b ∧
  0 ≤ b_image b ∧ 0 ≤ b_other b ∧
  b_total b = b_text b + b_reasoning b + b_toolInput b + b_toolOutput b + b_image b + b_other b.

Lemma safe_value_nonneg v : 0 ≤ safe_value v.
Proof.
  unfold safe_value. destruct v as [s|s| |s m e]; cbn [isFinite andb]; [by destruct s|done..|].
  destruct s; [done|]. case_match; [|done]. unfold roundZ. case_match.
  - apply Z.mul_nonneg_nonneg; [lia|]. apply Z.pow_nonneg. lia.
  - apply Z.div_pos; [|apply Z.pow_pos_nonneg; lia].
    assert (0 ≤ 2 ^ (- e)) by (apply Z.pow_nonneg; lia). lia.
Qed.

Lemma addBreakdown_wf b kind v : breakdown_wf b → breakdown_wf (addBreakdown b kind v).
Proof.
  pose proof (safe_value_nonneg v). destruct b. unfold breakdown_wf, addBreakdown.
  destruct kind; cbn; lia.
Qed.

#[export] Hint Resolve addBreakdown_wf : magic.

Section breakdown_lemmas.
Context `{Engine} `{Tokenizer}.

Lemma estimateNonToolPart_wf part options b :
  breakdown_wf b → breakdown_wf (estimateNonToolPart part options b).1.
Proof.
  intros Hb. unfold estimateNonToolPart. repeat case_match; cbn [fst]; auto with magic.
Qed.

Lemma count_once_wf key counted kind v b :
  breakdown_wf b → breakdown_wf (count_once key counted kind v b).2.
Proof. intros Hb. unfold count_once. case_decide; cbn [snd]; auto with magic. Qed.

Lemma estimate_part_wf ordinal options st part :
  breakdown_wf (es_breakdown st) → breakdown_wf (es_breakdown (estimate_part ordinal options st part)).
Proof.
  intros Hb. unfold estimate_part. destruct (toolSignalFromPart part) as [signal|].
  - set (r1 := if ts_hasInput signal then _ else _).
    assert (breakdown_wf r1.2) as H1.
    { subst r1. case_match; [by apply count_once_wf|done]. }
    destruct r1 as [cin b1]. cbn [snd] in H1. cbv beta iota zeta.
    set (r2 := if ts_hasOutput signal then _ else _).
    assert (breakdown_wf r2.2) as H2.
    { subst r2. case_match; [by apply count_once_wf|done]. }
    by destruct r2 as [cout b2].
  - pose proof (estimateNonToolPart_wf part options (es_breakdown st) Hb) as Hn.
    destruct (estimateNonToolPart _ _ _) as [b handled]. cbn [es_breakdown fst] in *.
    destruct handled; auto with magic.
Qed.

Lemma estimate_wf message options : breakdown_wf (estimateTrueRawMessageTokens message options).
Proof.
  unfold estimateTrueRawMessageTokens.
  assert (breakdown_wf (es_breakdown {| es_breakdown := EMPTY_BREAKDOWN; es_countedInput := [];
     es_countedOutput := []; es_toolIndex := 0 |})) as Hb by (unfold breakdown_wf; cbn; lia).
  revert Hb. generalize {| es_breakdown := EMPTY_BREAKDOWN; es_countedInput := [];
     es_countedOutput := []; es_toolIndex := 0 |}.
  induction (rm_parts message) as [|p ps IH]; intros st Hb; [done|].
  cbn [foldl]. by apply IH, estimate_part_wf.
Qed.

End breakdown_lemmas.

(** *** The cache *)

Lemma evict_wf entries bytes :
  cache_wf {| ec_entries := entries; ec_bytes := bytes |} →
  cache_wf (evict entries bytes) ∧
  JsMap.size (ec_entries (evict entries bytes)) ≤ MAX_MESSAGE_CACHE_ENTRIES ∧
  (ec_bytes (evict entries bytes) ≤ MAX_MESSAGE_CACHE_KEY_BYTES) ∧
  (∃ dropped, entries = dropped ++ ec_entries (evict entries bytes)).
Proof.
  revert bytes. induction entries as [|[k v] rest IH]; intros bytes Hw.
  { destruct Hw as (? & Hb & ?). cbn in Hb. cbn [evict ec_entries ec_bytes].
    rewrite Hb. split; [done|]. split; [done|]. split; [done|]. by exists []. }
  cbn [evict]. case_match eqn:E.
  - destruct Hw as (Hwf & Hb & Hk). cbn [ec_entries ec_bytes] in *.
    destruct (IH (bytes - c_keyEstimateBytes v)) as (? & ? & ? & d & Hd).
    { split; [by eapply wf_tail|]. split; cbn [ec_entries ec_bytes].
      - rewrite Hb. cbn [sumZ fold_right snd]. unfold sumZ. lia.
      - intros k' v' Hin. apply Hk. set_solver. }
    split; [done|]. split; [done|]. split; [done|]. exists ((k, v) :: d). cbn. by rewrite <- Hd.
  - apply orb_false_iff in E as [? ?]. cbn [ec_entries ec_bytes].
    split; [done|]. split; [lia|]. split; [lia|]. by exists [].
Qed.

Lemma set_wf key b cache :
  cache_wf cache →
  cache_wf {| ec_entries := JsMap.set (ec_entries cache) key
                {| c_breakdown := b; c_keyEstimateBytes := str_length key * 2 + 64 |};
              ec_bytes := match JsMap.get (ec_entries cache) key with
                          | Some existing => ec_bytes cache - c_keyEstimateBytes existing
                          | None => ec_bytes cache
                          end + (str_length key * 2 + 64) |}.
Proof.
  intros (Hwf & Hb & Hk). split; cbn [ec_entries ec_bytes]; [by apply wf_set|].
  split.
  - rewrite sumZ_set by done. rewrite Hb. cbn [snd c_keyEstimateBytes]. case_match; lia.
  - intros k v Hin. apply get_in in Hin; [|by apply wf_set].
    destruct (decide (key = k)) as [->|Hne].
    + rewrite get_set_eq in Hin. by simplify_eq.
    + rewrite get_set_ne in Hin by done. apply Hk. by apply get_Some_in.
Qed.

Lemma invalidate_wf sessionId messageId cache :
  cache_wf cache → cache_wf (invalidateTrueRawTokenCache sessionId messageId cache) ∧
    (∀ e, e ∈ ec_entries (invalidateTrueRawTokenCache sessionId messageId cache) →
       e ∈ ec_entries cache).
Proof.
  intros Hw. unfold invalidateTrueRawTokenCache.
  assert (∀ todo c, NoDup (JsMap.keys todo) → (∀ k v, (k, v) ∈ todo → JsMap.get (ec_entries c) k = Some v) →
    cache_wf c →
    let c' := foldl (fun cache '(key, v) =>
      if invalidate_hit sessionId messageId key
      then {| ec_entries := JsMap.delete (ec_entries cache) key;
              ec_bytes := ec_bytes cache - c_keyEstimateBytes v |}
      else cache) c todo in
    cache_wf c' ∧ ∀ e, e ∈ ec_entries c' → e ∈ ec_entries c) as Hgen.
  { intros todo. induction todo as [|[k v] todo IH]; intros c Hnd Hin Hc; [done|].
    cbn [foldl]. cbn in Hnd. apply NoDup_cons in Hnd as [Hk Hnd].
    destruct (invalidate_hit sessionId messageId k); [|apply IH; set_solver].
    pose proof (Hin k v ltac:(set_solver)) as Hg. destruct Hc as (Hwf & Hb & Hkb).
    destruct (IH {| ec_entries := JsMap.delete (ec_entries c) k;
                    ec_bytes := ec_bytes c - c_keyEstimateBytes v |}) as [Hc' Hsub]; [done| | |].
    - intros k' v' Hin'. cbn [ec_entries]. rewrite get_delete_ne; [apply Hin; set_solver|].
      intros <-. apply Hk. apply list_elem_of_fmap. by exists (k, v').
    - split; cbn [ec_entries ec_bytes]; [by apply wf_delete|]. split.
      + rewrite sumZ_delete by done. rewrite Hg, Hb. done.
      + intros k' v' [_ ?]%list_elem_of_filter. by apply Hkb.
    - split; [done|]. intros e He. apply Hsub in He. cbn [ec_entries] in He.
      by apply list_elem_of_filter in He as [_ ?]. }
  apply Hgen; [apply Hw| |done]. intros k v Hin. apply get_in; [apply Hw|done].
Qed.

Lemma cache_reachable ops c :
  cache_wf c ∧ JsMap.size (ec_entries c) ≤ MAX_MESSAGE_CACHE_ENTRIES ∧
    ec_bytes c ≤ MAX_MESSAGE_CACHE_KEY_BYTES →
  let c' := foldl cache_apply c ops in
  cache_wf c' ∧ JsMap.size (ec_entries c') ≤ MAX_MESSAGE_CACHE_ENTRIES ∧
    ec_bytes c' ≤ MAX_MESSAGE_CACHE_KEY_BYTES.
Proof.
  revert c. induction ops as [|op ops IH]; intros c Hc; [done|]. cbn [foldl]. apply IH.
  destruct Hc as (Hw & Hn & Hb). destruct op as [key b|s m]; cbn [cache_apply].
  - unfold setCachedEstimate. cbv zeta.
    destruct (evict_wf _ _ (set_wf key b c Hw)) as (?&?&?&_). done.
  - destruct (invalidate_wf s m c Hw) as [Hw' Hsub]. split; [done|].
    destruct Hw' as (Hwf & Hb' & Hkb'). destruct Hw as (Hwf0 & Hb0 & Hkb0).
    destruct (sub_sums _ _ (fun e => c_keyEstimateBytes e.2) Hwf Hsub) as [Hlen Hsum].
    { intros [k v] Hin. cbn. rewrite (Hkb0 k v Hin). unfold str_length. lia. }
    unfold JsMap.size, lengthZ in *. split; lia.
Qed.

(** The newest entry is the last; the loop stops before it when it alone fits. *)
Lemma evict_last entries bytes key v :
  cache_wf {| ec_entries := entries ++ [(key, v)]; ec_bytes := bytes |} →
  c_keyEstimateBytes v ≤ MAX_MESSAGE_CACHE_KEY_BYTES →
  ∃ kept, ec_entries (evict (entries ++ [(key, v)]) bytes) = kept ++ [(key, v)].
Proof.
  revert bytes. induction entries as [|[k0 v0] entries IH]; intros bytes Hw Hv.
  - exists []. destruct Hw as (_ & Hb & _). cbn in Hb. cbn [app evict].
    rewrite (proj2 (orb_false_iff _ _)); [done|]. split; [done|]. apply Z.ltb_ge. lia.
  - cbn [app evict]. case_match; [|by eexists (_ :: _)].
    apply IH; [|done]. destruct Hw as (Hwf & Hb & Hk). cbn [app] in *.
    split; [by eapply wf_tail|]. cbn [ec_entries ec_bytes] in *. split.
    + rewrite Hb. cbn [sumZ fold_right snd]. unfold sumZ. lia.
    + intros k' v' Hin. apply Hk. set_solver.
Qed.

Lemma set_newest_kept key b c :
  cache_wf c → JsMap.get (ec_entries c) key = None →
  str_length key * 2 + 64 ≤ MAX_MESSAGE_CACHE_KEY_BYTES →
  JsMap.get (ec_entries (setCachedEstimate key b c)) key =
    Some {| c_breakdown := b; c_keyEstimateBytes := str_length key * 2 + 64 |}.
Proof.
  intros Hw Hk Hfit. unfold setCachedEstimate. cbv zeta.
  pose proof (set_wf key b c Hw) as Hw'. rewrite Hk in *.
  rewrite set_absent in * by by apply get_None.
  destruct (evict_last _ _ _ _ Hw' Hfit) as [kept E].
  destruct (evict_wf _ _ Hw') as ((Hwf & _) & _).
  apply get_in; [done|]. rewrite E. set_solver.
Qed.

(** *** FNV-1a *)

Lemma uint32_int32 z : uint32 (int32 z) = uint32 z.
Proof.
  unfold uint32, int32. rewrite Zminus_mod_idemp_l. f_equal. lia.
Qed.

Lemma int32_cong a b : int32 a = int32 b ↔ uint32 a = uint32 b.
Proof.
  split; intros E; [by rewrite <- (uint32_int32 a), E, uint32_int32|].
  unfold int32. f_equal. unfold uint32 in E.
  rewrite Zplus_mod, E, <- Zplus_mod. done.
Qed.

Lemma uint32_lxor a b : uint32 (Z.lxor a b) = Z.lxor (uint32 a) (uint32 b).
Proof.
  unfold uint32. apply Z.bits_inj'. intros n Hn. rewrite Z.lxor_spec.
  destruct (Z.lt_ge_cases n 32).
  - by rewrite !Z.mod_pow2_bits_low, Z.lxor_spec by lia.
  - by rewrite !Z.mod_pow2_bits_high by lia.
Qed.

Lemma fnv_step_unsigned h u :
  0 ≤ h < 2 ^ 32 → 0 ≤ u < 2 ^ 32 → fnv_step h u = (Z.lxor h u * FNV1A_32_PRIME) mod 2 ^ 32.
Proof.
  intros Hh Hu. unfold fnv_step. rewrite uint32_int32. unfold uint32.
  rewrite <- Z.mul_mod_idemp_l by done. fold (uint32 (int32 (Z.lxor (int32 h) u))).
  rewrite uint32_int32, uint32_lxor, uint32_int32. unfold uint32.
  by rewrite (Z.mod_small h), (Z.mod_small u) by done.
Qed.

Lemma fnv_loop us hash :
  Forall (fun u => 0 ≤ u < 256) us → 0 ≤ hash < 2 ^ 32 →
  foldl fnv_step hash us =
    foldl (fun h u => (Z.lxor h u * FNV1A_32_PRIME) mod 2 ^ 32) hash us ∧
  0 ≤ foldl fnv_step hash us < 2 ^ 32.
Proof.
  intros Hus. revert hash. induction Hus as [|u us Hu Hus IH]; intros hash Hh; [done|].
  cbn [foldl]. rewrite fnv_step_unsigned by lia. apply IH. apply Z.mod_pos_bound. lia.
Qed.

(** ** Properties *)

(** C38: the arcs [buildToolArcs] reports for a call id are those of a single
    first-in-first-out queue run over that id's own events, whatever other ids
    are interleaved with it, and the whole list is sorted by invocation. *)
Theorem buildToolArcs_fifo `{Engine} `{Tokenizer} messages callId :
  callId ≠ EmptyString →
  filter (fun a => a_callId a = callId) (buildToolArcs messages) =
    js_sort arc_cmp (fifo callId [] (call_events callId messages)) ∧
  StronglySorted (fun a b => arc_cmp a b ≤ 0) (buildToolArcs messages).
Proof.
  intros Hc. unfold buildToolArcs. destruct (scan_arcs messages) as [m arcs] eqn:E.
  split; [|apply js_sort_sorted; [apply arc_cmp_total|apply arc_cmp_trans]].
  rewrite js_sort_filter by (apply arc_cmp_total || apply arc_cmp_trans). f_equal.
  rewrite filter_app.
  pose proof (scan_arcs_wf messages) as Hw. rewrite E in Hw.
  rewrite open_arcs_of_call by done.
  pose proof (scan_arcs_fifo callId (session_parts messages) ([], []) [] Hc) as Hf.
  cbn zeta in Hf. rewrite <- scan_arcs_parts, E in Hf. cbn [fst snd fifo] in Hf.
  rewrite app_nil_r, <- call_events_parts in Hf. exact Hf.
Qed.

(** When every open arc is older than the cutoff, the fence returns the
    least boundary at or above the candidate that splits no completed arc, on
    any list sorted the way [buildToolArcs] sorts its result. *)
Theorem fence_least_boundary arcs candidate lastEnd cutoff :
  StronglySorted (fun a b => arc_cmp a b ≤ 0) arcs → open_arcs_stale arcs cutoff →
  let r := fenceBoundaryForToolArcs candidate arcs lastEnd cutoff in
  candidate ≤ r ∧ splits_no_arc arcs r ∧
  (∀ b, candidate ≤ b → splits_no_arc arcs b → r ≤ b).
Proof.
  intros Hs Ho r. destruct (fence_from arcs candidate lastEnd cutoff 0 Hs Ho) as (?&?&?&_).
  split; [done|]. split; [done|]. auto.
Qed.

(** A message's breakdown counts nothing negative and its total is the sum
    of its six categories, whatever the parts hold and the tokenizer returns
    (NaN, infinities and negative numbers included). *)
Theorem estimate_total_is_sum `{Engine} `{Tokenizer} message options :
  breakdown_wf (estimateTrueRawMessageTokens message options).
Proof. apply estimate_wf. Qed.

(** Over every sequence of stores and invalidations the cache's byte
    counter is the sum of its entries' estimates, and neither the entry bound
    nor the byte bound is exceeded; the newest entry survives its own store
    when it alone fits the byte bound. *)
Theorem cache_ledger ops key b :
  let empty := {| ec_entries := []; ec_bytes := 0 |} in
  let c := foldl cache_apply empty ops in
  ec_bytes c = sumZ (fun e => c_keyEstimateBytes e.2) (ec_entries c) ∧
  JsMap.size (ec_entries c) ≤ MAX_MESSAGE_CACHE_ENTRIES ∧
  ec_bytes c ≤ MAX_MESSAGE_CACHE_KEY_BYTES ∧
  (JsMap.get (ec_entries c) key = None → str_length key * 2 + 64 ≤ MAX_MESSAGE_CACHE_KEY_BYTES →
   JsMap.get (ec_entries (setCachedEstimate key b c)) key =
     Some {| c_breakdown := b; c_keyEstimateBytes := str_length key * 2 + 64 |}).
Proof.
  intros empty c.
  assert (cache_wf c ∧ JsMap.size (ec_entries c) ≤ MAX_MESSAGE_CACHE_ENTRIES ∧
          ec_bytes c ≤ MAX_MESSAGE_CACHE_KEY_BYTES) as (Hw & Hn & Hb).
  { apply cache_reachable. split; [|done]. split; [apply NoDup_nil_2|].
    split; [done|]. intros k v []%elem_of_nil. }
  split; [apply Hw|]. split; [done|]. split; [done|]. intros Hk Hfit.
  by apply set_newest_kept.
Qed.

(** The fingerprint hash the code computes through signed 32-bit
    operations is 32-bit FNV-1a on unsigned integers, and a fingerprint is
    always eight hexadecimal digits. *)
Theorem fnv_reference `{Engine} hash text fields :
  0 ≤ hash < 2 ^ 32 →
  updateFnv1a32 hash text =
    foldl (fun h u => (Z.lxor h u * FNV1A_32_PRIME) mod 2 ^ 32) hash (code_units text) ∧
  0 ≤ updateFnv1a32 hash text < 2 ^ 32 ∧
  String.length (contentStringsHash fields) = 8%nat.
Proof.
  intros Hh. unfold contentStringsHash. rewrite hex_padded_length.
  destruct (fnv_loop (code_units text) hash (code_units_bound text) Hh). done.
Qed.

(** ** Witnesses *)

#[export] Instance plain_engine : Engine := {| numberToString := fun n => hex_padded 8 (floorZ n) |}.
#[export] Instance plain_tokenizer : Tokenizer :=
  {| estimateTokens := fun s => nofZ (str_length s) |}.

Definition tool_use (id : string) : value :=
  VObj [("type", VStr "tool_use"); ("id", VStr id); ("input", VStr "x")]%string.
Definition tool_result (id : string) : value :=
  VObj [("type", VStr "tool_result"); ("id", VStr id); ("content", VStr "y")]%string.
Definition msg (ordinal : Z) (parts : list value) : RawMessage :=
  {| rm_ordinal := ordinal; rm_id := "m"; rm_role := "assistant"; rm_parts := parts |}.

Definition interleaved : list RawMessage :=
  [msg 1 [tool_use "a"; tool_use "b"]; msg 2 [tool_use "a"; tool_result "b"];
   msg 3 [tool_result "a"]; msg 5 [tool_result "a"]].

Lemma buildToolArcs_fifo_witness :
  filter (fun a => a_callId a = "a"%string) (buildToolArcs interleaved) =
    [{| a_callId := "a"; a_inv := 1; a_res := Some 3 |};
     {| a_callId := "a"; a_inv := 2; a_res := Some 5 |}].
Proof.
  rewrite (proj1 (buildToolArcs_fifo interleaved "a"%string ltac:(discriminate))).
  vm_compute. reflexivity.
Defined.

Lemma fence_least_boundary_witness :
  let r := fenceBoundaryForToolArcs 2 (buildToolArcs interleaved) 0 9 in
  r = 6 ∧ splits_no_arc (buildToolArcs interleaved) r.
Proof.
  destruct (fence_least_boundary (buildToolArcs interleaved) 2 0 9) as (_ & H & _).
  - vm_compute buildToolArcs. repeat constructor; discriminate.
  - intros arc Hin. vm_compute in Hin.
    repeat (apply elem_of_cons in Hin as [->|Hin]; [discriminate|]). by apply elem_of_nil in Hin.
  - split; [vm_compute; reflexivity|exact H].
Defined.

Lemma fnv_reference_witness :
  updateFnv1a32 FNV1A_32_OFFSET "a" = 0xe40c292c ∧ 0 ≤ updateFnv1a32 FNV1A_32_OFFSET "a" < 2 ^ 32.
Proof.
  destruct (fnv_reference FNV1A_32_OFFSET "a" []) as (E & Hb & _); [split; [discriminate|reflexivity]|].
  split; [rewrite E; vm_compute; reflexivity|exact Hb].
Defined.

(** With an invocation still open inside the protected window the fence returns
    that invocation, and the boundary it returns can split a completed arc that
    the loop had already cleared: the tail keeps the result of call [a] without
    its invocation. *)
Definition open_inside : list RawMessage :=
  [msg 6 [tool_use "a"]; msg 7 [tool_use "b"]; msg 9 [tool_result "a"]].

Lemma fence_open_arc_splits_completed :
  fenceBoundaryForToolArcs 8 (buildToolArcs open_inside) 0 5 = 7 ∧
  ¬ splits_no_arc (buildToolArcs open_inside) 7.
Proof.
  split; [vm_compute; reflexivity|]. intros H.
  specialize (H {| a_callId := "a"; a_inv := 6; a_res := Some 9 |} 9).
  vm_compute buildToolArcs in H. specialize (H ltac:(set_solver) eq_refl). discriminate H.
Qed.
