(* ===== verification/TokenIndex.v ===== *)
(** * The token index of a session

    Models [buildTrueRawTokenIndex] of
    packages/plugin/src/hooks/magic-context/read-session-true-raw-tokens.ts: a
    prefix-sum array over the represented ordinals and the queries on it, the
    two binary searches included.

    Ordinals and token totals are integers.  Reading the prefix array out of
    range gives [undefined], and arithmetic on it NaN: such a result is [None]. *)

From S2P Require Import Prelude JsNumber JsMap JsValue TokenEstimate.

(** ** Prefix sums *)

(** [prefix[i] = v] for an index in range. *)
Definition store (prefix : list Z) (i v : Z) : list Z := <[Z.to_nat i := v]> prefix.

(** [for (let k = 1; k <= span; k += 1) prefix[k] += prefix[k - 1];] *)
Fixpoint accumulate (acc : Z) (l : list Z) : list Z :=
  match l with
  | [] => []
  | x :: l => (acc + x) :: accumulate (acc + x) l
  end.

Record TrueRawTokenIndex := {
  ti_first : Z;
  ti_terminal : Z;
  ti_span : Z;
  ti_rawMessageCount : Z;
  ti_prefix : list Z;
  ti_tokens : jsmap Z Z;
  ti_ids : jsmap Z string
}.

Section build.
Context `{Engine} `{Tokenizer}.

(** [storedTotalForMessage], when given, answers a total or nothing. *)
Record TrueRawTokenIndexBuildOptions := {
  bo_estimate : TrueRawEstimateOptions;
  bo_cacheNamespace : string;
  bo_storedTotalForMessage : option (RawMessage → option Z);
  bo_absoluteMessageCount : option Z
}.

Definition message_total (options : TrueRawTokenIndexBuildOptions) (message : RawMessage)
    (cache : estimate_cache) : Z * estimate_cache :=
  match bo_storedTotalForMessage options ≫= fun f => f message with
  | Some stored => (stored, cache)
  | None =>
      let '(b, cache) :=
        tokenForMessage (bo_cacheNamespace options) message (bo_estimate options) cache in
      (b_total b, cache)
  end.

(** The loop over the ordered messages. *)
Definition index_step (options : TrueRawTokenIndexBuildOptions) (firstOrdinal ordinalSpan : Z)
    (st : (list Z * jsmap Z Z * jsmap Z string) * estimate_cache) (message : RawMessage) :=
  let '((prefix, tokens, ids), cache) := st in
  let '(total, cache) := message_total options message cache in
  let relative := rm_ordinal message - firstOrdinal + 1 in
  (((if (1 <=? relative) && (relative <=? ordinalSpan) then store prefix relative total else prefix),
    JsMap.set tokens (rm_ordinal message) total,
    JsMap.set ids (rm_ordinal message) (rm_id message)), cache).

Definition ordinal_cmp (a b : RawMessage) : Z := rm_ordinal a - rm_ordinal b.

Definition buildTrueRawTokenIndex (messages : list RawMessage)
    (options : TrueRawTokenIndexBuildOptions) (cache : estimate_cache)
    : TrueRawTokenIndex * estimate_cache :=
  let ordered := js_sort ordinal_cmp messages in
  let sliceCount := lengthZ ordered in
  let firstOrdinal := match head ordered with Some m => rm_ordinal m | None => 1 end in
  let terminalOrdinal := match last ordered with Some m => rm_ordinal m | None => 0 end in
  let rawMessageCount :=
    Z.max sliceCount (Z.max terminalOrdinal (default sliceCount (bo_absoluteMessageCount options))) in
  let ordinalSpan :=
    if firstOrdinal <=? terminalOrdinal then terminalOrdinal - firstOrdinal + 1 else 0 in
  let '((prefix, tokens, ids), cache) :=
    foldl (index_step options firstOrdinal ordinalSpan)
      ((replicate (Z.to_nat (ordinalSpan + 1)) 0, [], []), cache) ordered in
  ({| ti_first := firstOrdinal; ti_terminal := terminalOrdinal; ti_span := ordinalSpan;
      ti_rawMessageCount := rawMessageCount; ti_prefix := accumulate 0 prefix;
      ti_tokens := tokens; ti_ids := ids |}, cache).

End build.

(** ** Queries *)

Definition tokenForOrdinal (ix : TrueRawTokenIndex) (ordinal : Z) : Z :=
  default 0 (JsMap.get (ti_tokens ix) ordinal).

Definition messageIdAtOrdinal (ix : TrueRawTokenIndex) (ordinal : Z) : option string :=
  JsMap.get (ti_ids ix) ordinal.

(** [prefix[i] - prefix[j]]. *)
Definition prefix_diff (ix : TrueRawTokenIndex) (i j : Z) : option Z :=
  a ← at_index (ti_prefix ix) i; b ← at_index (ti_prefix ix) j; Some (a - b).

Definition ordinalToIndex (ix : TrueRawTokenIndex) (ordinal : Z) : Z :=
  Z.max 0 (Z.min (ti_span ix) (ordinal - ti_first ix)).

Definition suffixTokensFromOrdinal (ix : TrueRawTokenIndex) (ordinal : Z) : option Z :=
  if ordinal <=? ti_first ix then at_index (ti_prefix ix) (ti_span ix)
  else if ti_terminal ix <? ordinal then Some 0
  else prefix_diff ix (ti_span ix) (ordinalToIndex ix ordinal).

Definition rangeTokens (ix : TrueRawTokenIndex) (startInclusive endExclusive : Z) : option Z :=
  let start := Z.max (ti_first ix) startInclusive in
  let end_ := Z.max start (Z.min (ti_terminal ix + 1) endExclusive) in
  prefix_diff ix (end_ - ti_first ix) (start - ti_first ix).

(** [prefix[mid] <= cut]: false when either side is not a number. *)
Definition prefix_le (ix : TrueRawTokenIndex) (mid : Z) (cut : option Z) : bool :=
  match at_index (ti_prefix ix) mid, cut with
  | Some p, Some cut => p <=? cut
  | _, _ => false
  end.

(** The binary search: the last index in range whose prefix is within the cut,
    [best] when there is none. *)
Fixpoint search (fuel : nat) (le : Z → bool) (lo hi best : Z) : Z :=
  match fuel with
  | O => best
  | S fuel =>
      if lo <=? hi then
        let mid := Z.shiftr (int32 (lo + hi)) 1 in
        if le mid then search fuel le (mid + 1) hi mid
        else search fuel le lo (mid - 1) best
      else best
  end.

Definition search_fuel (lo hi : Z) : nat := Z.to_nat (hi - lo + 1).

Definition findSuffixStartForTokens (ix : TrueRawTokenIndex) (tokens : num) : Z :=
  if negb (isFinite tokens) || nleb tokens (nofZ 0) then ti_terminal ix + 1
  else
    let target := Z.max 0 (floorZ tokens) in
    match at_index (ti_prefix ix) (ti_span ix) with
    | Some total =>
        if total <? target then ti_first ix
        else
          let cut := total - target in
          ti_first ix +
          search (search_fuel 0 (ti_span ix)) (fun mid => prefix_le ix mid (Some cut))
            0 (ti_span ix) 0
    | None => ti_first ix + 0
    end.

Definition findHeadEndForCap (ix : TrueRawTokenIndex) (startInclusive endExclusive : Z)
    (capTokens : num) : Z :=
  let start := Z.max (ti_first ix) (Z.min (ti_terminal ix + 1) startInclusive) in
  let end_ := Z.max start (Z.min (ti_terminal ix + 1) endExclusive) in
  if negb (isFinite capTokens) || nleb capTokens (nofZ 0) then start
  else
    let startIndex := start - ti_first ix in
    let endIndex := end_ - ti_first ix in
    let cut := (fun p => p + floorZ capTokens) <$> at_index (ti_prefix ix) startIndex in
    let bestEndIndex :=
      search (search_fuel (startIndex + 1) endIndex) (fun mid => prefix_le ix mid cut)
        (startIndex + 1) endIndex startIndex in
    let bestEnd := ti_first ix + bestEndIndex in
    let bestEnd := if (bestEnd =? start) && (start <? end_) then start + 1 else bestEnd in
    Z.min bestEnd end_.

(** ** Specification *)

(** The tokens of the ordinals from [a] up to, not including, [b]. *)
Definition tokens_between (ix : TrueRawTokenIndex) (a b : Z) : Z :=
  sumZ (tokenForOrdinal ix) (seqZ a (b - a)).

(** What the construction establishes. *)
Record wf_index (ix : TrueRawTokenIndex) : Prop := {
  wfi_span : ti_span ix = ti_terminal ix - ti_first ix + 1;
  wfi_span_nonneg : 0 ≤ ti_span ix;
  wfi_prefix : ∀ k, 0 ≤ k ≤ ti_span ix →
    at_index (ti_prefix ix) k = Some (tokens_between ix (ti_first ix) (ti_first ix + k));
  wfi_length : lengthZ (ti_prefix ix) = ti_span ix + 1;
  wfi_outside : ∀ o, o < ti_first ix ∨ ti_terminal ix < o → tokenForOrdinal ix o = 0
}.

Definition nonneg_tokens (ix : TrueRawTokenIndex) : Prop := ∀ o, 0 ≤ tokenForOrdinal ix o.

(** ** Lemmas: sums over ordinals *)

Section sums.
Context (ix : TrueRawTokenIndex).

Lemma tokens_between_split a b c :
  a ≤ b ≤ c → tokens_between ix a c = tokens_between ix a b + tokens_between ix b c.
Proof.
  intros ?. unfold tokens_between.
  replace (c - a) with ((b - a) + (c - b)) by lia.
  rewrite seqZ_app by lia. rewrite sumZ_app. do 2 f_equal. f_equal. lia.
Qed.

Lemma tokens_between_empty a b : b ≤ a → tokens_between ix a b = 0.
Proof. intros ?. unfold tokens_between. rewrite seqZ_nil by lia. done. Qed.

Lemma tokens_between_step a b :
  a ≤ b → tokens_between ix a (b + 1) = tokens_between ix a b + tokenForOrdinal ix b.
Proof.
  intros ?. rewrite (tokens_between_split a b) by lia. f_equal.
  unfold tokens_between. rewrite seqZ_cons, seqZ_nil by lia. cbn [sumZ fold_right]. lia.
Qed.

Lemma tokens_between_nonneg a b : nonneg_tokens ix → 0 ≤ tokens_between ix a b.
Proof. intros Hn. apply sumZ_nonneg. intros; apply Hn. Qed.

Lemma tokens_between_mono a b c :
  nonneg_tokens ix → b ≤ c → tokens_between ix a b ≤ tokens_between ix a c.
Proof.
  intros Hn Hbc. destruct (Z.le_gt_cases a b).
  - rewrite (tokens_between_split a b c) by lia.
    pose proof (tokens_between_nonneg b c Hn). lia.
  - rewrite (tokens_between_empty a b) by lia. by apply tokens_between_nonneg.
Qed.

(** The part of a range outside the index costs nothing. *)
Lemma tokens_between_zero a b :
  (∀ o, a ≤ o < b → tokenForOrdinal ix o = 0) → tokens_between ix a b = 0.
Proof.
  intros Hz. unfold tokens_between. rewrite (sumZ_ext _ (fun _ => 0)).
  - unfold sumZ. by induction (seqZ a (b - a)).
  - intros o Ho%elem_of_seqZ. apply Hz. lia.
Qed.

End sums.

(** ** Lemmas: the binary search *)

Section search_lemmas.
Context (le : Z → bool).

Lemma midpoint lo hi :
  0 ≤ lo ≤ hi → hi < 2 ^ 30 → lo ≤ Z.shiftr (int32 (lo + hi)) 1 ≤ hi.
Proof.
  intros ??. rewrite int32_small by lia. rewrite Z.shiftr_div_pow2 by lia.
  change (2 ^ 1) with 2. split; [apply Z.div_le_lower_bound; lia|].
  apply Z.div_le_upper_bound; lia.
Qed.

(** With a downward closed test the search returns the last index that passes,
    and its seed when none does. *)
Lemma search_spec fuel lo hi best :
  0 ≤ lo → hi < 2 ^ 30 → (Z.to_nat (hi - lo + 1) ≤ fuel)%nat →
  (∀ i j, lo ≤ i ≤ j → j ≤ hi → le j = true → le i = true) →
  let r := search fuel le lo hi best in
  (r = best ∧ ∀ i, lo ≤ i ≤ hi → le i = false) ∨
  (lo ≤ r ≤ hi ∧ le r = true ∧ ∀ i, r < i ≤ hi → le i = false).
Proof.
  revert lo hi best. induction fuel as [|fuel IH]; intros lo hi best Hlo Hhi Hf Hmono r;
    [left; split; [done|lia]|].
  subst r. cbn [search]. destruct (lo <=? hi) eqn:E; [|left; split; [done|lia]].
  assert (lo ≤ Z.shiftr (int32 (lo + hi)) 1 ≤ hi) as Hm by (apply midpoint; lia).
  set (mid := Z.shiftr (int32 (lo + hi)) 1) in *.
  destruct (le mid) eqn:Hle.
  - right. destruct (IH (mid + 1) hi mid) as [[-> Ha]|(? & ? & Ha)]; [lia|lia|lia| | |].
    + intros i j ???. eapply Hmono; [|done|done]. lia.
    + split; [lia|]. split; [done|]. intros i Hi. apply Ha. lia.
    + split; [lia|]. done.
  - assert (∀ i, mid ≤ i ≤ hi → le i = false) as Hup.
    { intros i Hi. destruct (le i) eqn:Hi'; [|done].
      rewrite (Hmono mid i) in Hle; [done|lia|lia|done]. }
    destruct (IH lo (mid - 1) best) as [[-> Ha]|(? & ? & Ha)]; [lia|lia|lia| | |].
    + intros i j ???. apply (Hmono i j); [done|lia|done].
    + left. split; [done|]. intros i Hi.
      destruct (Z.le_gt_cases i (mid - 1)); [apply Ha|apply Hup]; lia.
    + right. split; [lia|]. split; [done|]. intros i Hi.
      destruct (Z.le_gt_cases i (mid - 1)); [apply Ha|apply Hup]; lia.
Qed.

Lemma search_from_zero hi :
  0 ≤ hi → hi < 2 ^ 30 → le 0 = true →
  (∀ i j, 0 ≤ i ≤ j → j ≤ hi → le j = true → le i = true) →
  let r := search (search_fuel 0 hi) le 0 hi 0 in
  0 ≤ r ≤ hi ∧ le r = true ∧ (∀ i, r < i ≤ hi → le i = false).
Proof.
  intros Hhi Hb H0 Hmono. unfold search_fuel.
  destruct (search_spec (Z.to_nat (hi - 0 + 1)) 0 hi 0) as [[_ Hf]|Hr]; [lia|done|lia|done| |done].
  by rewrite Hf in H0 by lia.
Qed.

End search_lemmas.

(** ** Lemmas: the construction *)

Lemma at_index_Some {A} (l : list A) k x : at_index l k = Some x → 0 ≤ k < lengthZ l.
Proof.
  unfold at_index, lengthZ. case_match; [done|]. intros Hx%lookup_lt_Some. lia.
Qed.

Lemma at_index_None {A} (l : list A) k : lengthZ l ≤ k → at_index l k = None.
Proof.
  unfold at_index, lengthZ. intros ?. case_match; [done|]. apply lookup_ge_None. lia.
Qed.

Lemma accumulate_length acc l : length (accumulate acc l) = length l.
Proof. revert acc. induction l as [|x l IH]; intros acc; cbn; [done|]. by rewrite IH. Qed.

Lemma accumulate_0 acc l x : l !! 0%nat = Some x → accumulate acc l !! 0%nat = Some (acc + x).
Proof. destruct l; cbn; [done|]. by intros [= ->]. Qed.

Lemma accumulate_S acc l k x y :
  accumulate acc l !! k = Some x → l !! S k = Some y → accumulate acc l !! S k = Some (x + y).
Proof.
  revert acc k. induction l as [|z l IH]; intros acc k Hx Hy; [done|].
  destruct k as [|k]; cbn in Hx, Hy |- *; [|by eapply IH].
  simplify_eq. by apply accumulate_0.
Qed.

Section build_lemmas.
Context `{Engine} `{Tokenizer} (options : TrueRawTokenIndexBuildOptions).

(** The state of the filling loop. *)
Record filled (first span : Z) (prefix : list Z) (tokens : jsmap Z Z) : Prop := {
  fl_length : lengthZ prefix = span + 1;
  fl_zero : prefix !! 0%nat = Some 0;
  fl_entry : ∀ k, 1 ≤ k ≤ span →
    prefix !! Z.to_nat k = Some (default 0 (JsMap.get tokens (first + k - 1)));
  fl_outside : ∀ o, o < first ∨ first + span ≤ o → JsMap.get tokens o = None
}.

Lemma filled_init first span :
  0 ≤ span → filled first span (replicate (Z.to_nat (span + 1)) 0) [].
Proof.
  intros ?. constructor.
  - unfold lengthZ. rewrite length_replicate. lia.
  - apply lookup_replicate_2. lia.
  - intros k ?. apply lookup_replicate_2. lia.
  - done.
Qed.

Lemma filled_step first span prefix tokens m total :
  filled first span prefix tokens → first ≤ rm_ordinal m < first + span →
  filled first span (store prefix (rm_ordinal m - first + 1) total)
    (JsMap.set tokens (rm_ordinal m) total).
Proof.
  intros [Hl Hz He Ho] Hm. unfold store, lengthZ in *. constructor.
  - unfold lengthZ. by rewrite length_insert.
  - by rewrite list_lookup_insert_ne by lia.
  - intros k Hk. destruct (decide (k = rm_ordinal m - first + 1)) as [->|Hne].
    + rewrite list_lookup_insert_eq by lia.
      replace (first + (rm_ordinal m - first + 1) - 1) with (rm_ordinal m) by lia.
      by rewrite get_set_eq.
    + rewrite list_lookup_insert_ne by lia. rewrite get_set_ne by lia. auto.
  - intros o Hout. rewrite get_set_ne by lia. auto.
Qed.

Lemma filled_loop first span ms st :
  filled first span st.1.1.1 st.1.1.2 → Forall (fun m => first ≤ rm_ordinal m < first + span) ms →
  let st' := foldl (index_step options first span) st ms in
  filled first span st'.1.1.1 st'.1.1.2.
Proof.
  intros Hf Hms. revert st Hf. induction Hms as [|m ms Hm Hms IH]; intros st Hf; [done|].
  cbn [foldl]. apply IH. destruct st as [[[prefix tokens] ids] cache]. cbn [fst snd] in *.
  unfold index_step. destruct (message_total options m cache) as [total cache'].
  cbn [fst snd]. rewrite !(proj2 (Z.leb_le _ _)) by lia. cbn [andb]. by apply filled_step.
Qed.

Lemma ordinal_cmp_total a b : ordinal_cmp a b ≤ 0 ∨ ordinal_cmp b a ≤ 0.
Proof. unfold ordinal_cmp. lia. Qed.

Lemma ordinal_cmp_trans a b c : ordinal_cmp a b ≤ 0 → ordinal_cmp b c ≤ 0 → ordinal_cmp a c ≤ 0.
Proof. unfold ordinal_cmp. lia. Qed.

Lemma sorted_bounds ms :
  StronglySorted (fun a b => ordinal_cmp a b ≤ 0) ms →
  Forall (fun m =>
    match head ms with Some h => rm_ordinal h ≤ rm_ordinal m | None => False end ∧
    match last ms with Some l => rm_ordinal m ≤ rm_ordinal l | None => False end) ms.
Proof.
  induction 1 as [|m ms Hs IH Hm]; [constructor|].
  assert (∀ l, last (m :: ms) = Some l → rm_ordinal m ≤ rm_ordinal l) as Hlast.
  { intros l Hl. destruct ms as [|m' ms]; [cbn in Hl; simplify_eq; lia|].
    rewrite last_cons_cons in Hl. apply last_Some_elem_of in Hl.
    eapply Forall_forall in Hm; [|exact Hl]. unfold ordinal_cmp in Hm. lia. }
  destruct (last (m :: ms)) as [l|] eqn:El; [|by apply last_None in El].
  constructor; [split; [cbn; lia|auto]|]. cbn [head].
  apply Forall_forall. intros x Hx. split.
  - eapply Forall_forall in Hm; [|exact Hx]. unfold ordinal_cmp in Hm. lia.
  - destruct ms as [|m' ms]; [by apply elem_of_nil in Hx|].
    rewrite last_cons_cons in El. rewrite El in IH.
    eapply Forall_forall in IH; [|exact Hx]. apply IH.
Qed.

(** Every index the code builds is well formed. *)
Lemma build_wf messages cache :
  wf_index (buildTrueRawTokenIndex messages options cache).1.
Proof.
  unfold buildTrueRawTokenIndex.
  pose proof (js_sort_sorted _ ordinal_cmp_total ordinal_cmp_trans messages) as Hs.
  set (ordered := js_sort ordinal_cmp messages) in *.
  apply sorted_bounds in Hs.
  set (first := match head ordered with Some m => rm_ordinal m | None => 1 end).
  set (terminal := match last ordered with Some m => rm_ordinal m | None => 0 end).
  assert (0 ≤ terminal - first + 1 ∧
          Forall (fun m => first ≤ rm_ordinal m < first + (terminal - first + 1)) ordered)
    as [Hspan Hin].
  { subst first terminal. destruct ordered as [|m ms] eqn:E; [split; [done|constructor]|].
    rewrite <- E in *. destruct (head ordered) as [h|] eqn:Eh; [|by rewrite E in Eh].
    destruct (last ordered) as [l|] eqn:El; [|by rewrite E in El; apply last_None in El].
    split.
    - assert (m ∈ ordered) as Hm by (rewrite E; set_solver).
      eapply Forall_forall in Hs; [|exact Hm]. lia.
    - eapply Forall_impl; [exact Hs|]. cbn. lia. }
  set (span := if first <=? terminal then terminal - first + 1 else 0).
  assert (span = terminal - first + 1) as Espan
    by (subst span; destruct (Z.leb_spec first terminal); clearbody first terminal; lia).
  assert (0 ≤ span) as Hspan' by lia.
  pose proof (filled_loop first span ordered
    (replicate (Z.to_nat (span + 1)) 0, [], [], cache)
    (filled_init first span Hspan') ltac:(by rewrite Espan)) as [Hl Hz He Ho].
  destruct (foldl _ _ ordered) as [[[prefix tokens] ids] cache']. cbn [fst snd] in *.
  set (ix := Build_TrueRawTokenIndex _ _ _ _ _ _ _).
  constructor; cbn [ti_span ti_terminal ti_first ti_prefix ix].
  - done.
  - lia.
  - intros k Hk. unfold at_index. rewrite (proj2 (Z.ltb_ge k 0)) by lia.
    rewrite <- (Z2Nat.id k) at 2 by lia. assert (Z.to_nat k ≤ Z.to_nat span)%nat as Hk' by lia.
    clear Hk. induction (Z.to_nat k) as [|n IH].
    + rewrite tokens_between_empty by lia. by apply (accumulate_0 0).
    + rewrite Nat2Z.inj_succ. unfold Z.succ.
      rewrite Z.add_assoc, tokens_between_step by lia.
      apply accumulate_S; [apply IH; lia|].
      specialize (He (Z.of_nat (S n)) ltac:(lia)). rewrite Nat2Z.id in He. rewrite He.
      unfold tokenForOrdinal. cbn [ti_tokens ix]. do 3 f_equal. lia.
  - unfold lengthZ in *. by rewrite accumulate_length.
  - intros o Hout. unfold tokenForOrdinal. cbn [ti_tokens ix]. rewrite Ho; [done|]. lia.
Qed.

End build_lemmas.

(** ** Lemmas: prefixes as sums *)

Section query_lemmas.
Context (ix : TrueRawTokenIndex) (Hix : wf_index ix).

Lemma prefix_at o :
  ti_first ix ≤ o ≤ ti_terminal ix + 1 →
  at_index (ti_prefix ix) (o - ti_first ix) = Some (tokens_between ix (ti_first ix) o).
Proof.
  intros Ho. pose proof (wfi_span _ Hix).
  rewrite (wfi_prefix _ Hix) by lia. do 2 f_equal. lia.
Qed.

Lemma prefix_diff_at a b :
  ti_first ix ≤ a ≤ b → b ≤ ti_terminal ix + 1 →
  prefix_diff ix (b - ti_first ix) (a - ti_first ix) = Some (tokens_between ix a b).
Proof.
  intros ??. unfold prefix_diff. rewrite !prefix_at by lia. cbn.
  rewrite (tokens_between_split ix (ti_first ix) a b) by lia. f_equal. lia.
Qed.

(** Clamping a range to the index loses nothing. *)
Lemma tokens_between_clamp a b :
  a ≤ ti_terminal ix + 1 →
  tokens_between ix (Z.max (ti_first ix) a)
    (Z.max (Z.max (ti_first ix) a) (Z.min (ti_terminal ix + 1) b)) = tokens_between ix a b.
Proof.
  intros Ha. pose proof (wfi_span _ Hix). pose proof (wfi_span_nonneg _ Hix).
  set (s := Z.max (ti_first ix) a). set (e := Z.max s (Z.min (ti_terminal ix + 1) b)).
  destruct (Z.le_gt_cases b s) as [Hbs|Hbs].
  - replace e with s by lia. rewrite tokens_between_empty by lia.
    symmetry. apply tokens_between_zero. intros o Ho. apply (wfi_outside _ Hix). lia.
  - rewrite (tokens_between_split ix a s b) by lia.
    rewrite (tokens_between_split ix s e b) by lia.
    rewrite (tokens_between_zero ix a s), (tokens_between_zero ix e b); [lia| |];
      intros o Ho; apply (wfi_outside _ Hix); lia.
Qed.

Lemma prefix_le_at o cut :
  ti_first ix ≤ o ≤ ti_terminal ix + 1 →
  prefix_le ix (o - ti_first ix) (Some cut) = (tokens_between ix (ti_first ix) o <=? cut).
Proof. intros Ho. unfold prefix_le. by rewrite prefix_at. Qed.

End query_lemmas.

(** ** Lemmas: token totals are not negative *)

Definition cache_breakdowns_wf (cache : estimate_cache) : Prop :=
  ∀ e, e ∈ ec_entries cache → breakdown_wf (c_breakdown e.2).

Lemma evict_sub entries bytes e : e ∈ ec_entries (evict entries bytes) → e ∈ entries.
Proof.
  revert bytes. induction entries as [|[k v] rest IH]; intros bytes; [done|].
  cbn [evict]. case_match; [|done]. intros He%IH. set_solver.
Qed.

Section nonneg.
Context `{Engine} `{Tokenizer} (options : TrueRawTokenIndexBuildOptions).
Context (Hstored : ∀ f m z, bo_storedTotalForMessage options = Some f → f m = Some z → 0 ≤ z).

Lemma message_total_nonneg m cache :
  cache_breakdowns_wf cache →
  0 ≤ (message_total options m cache).1 ∧ cache_breakdowns_wf (message_total options m cache).2.
Proof.
  intros Hc. unfold message_total.
  destruct (bo_storedTotalForMessage options ≫= λ f, f m) as [stored|] eqn:E.
  { apply bind_Some in E as (f & Hf & Hm). split; [by eapply Hstored|done]. }
  unfold tokenForMessage. set (key := messageCacheKey _ _ _).
  destruct (JsMap.get (ec_entries cache) key) as [cached|] eqn:Eg.
  - apply get_Some_in in Eg. apply Hc in Eg. cbn [fst snd] in *. split; [|done].
    unfold breakdown_wf in Eg. lia.
  - pose proof (estimate_wf m (bo_estimate options)) as Hb. cbn [fst snd]. split.
    { unfold breakdown_wf in Hb. lia. }
    intros [k v] He. apply evict_sub in He. apply get_None in Eg.
    rewrite set_absent in He by done. apply elem_of_app in He as [He|He]; [by apply (Hc (k, v))|].
    apply list_elem_of_singleton in He. by simplify_eq.
Qed.

Lemma index_step_nonneg first span st m :
  (∀ e, e ∈ st.1.1.2 → 0 ≤ e.2) → cache_breakdowns_wf st.2 →
  (∀ e, e ∈ (index_step options first span st m).1.1.2 → 0 ≤ e.2) ∧
  cache_breakdowns_wf (index_step options first span st m).2.
Proof.
  destruct st as [[[prefix tokens] ids] cache]. cbn [fst snd]. intros Ht Hc.
  unfold index_step. destruct (message_total_nonneg m cache Hc) as [Hn Hc'].
  destruct (message_total options m cache) as [total cache']. cbn [fst snd] in *.
  split; [|done]. intros e. clear -Ht Hn. induction tokens as [|[k v] tokens IH]; cbn [JsMap.set].
  - intros ->%list_elem_of_singleton. done.
  - case_decide; intros [->|He]%elem_of_cons; [done|apply Ht; set_solver| |].
    + apply (Ht (k, v)). set_solver.
    + apply IH; [|done]. intros e' He'. apply Ht. set_solver.
Qed.

Lemma build_nonneg messages cache :
  cache_breakdowns_wf cache → nonneg_tokens (buildTrueRawTokenIndex messages options cache).1.
Proof.
  intros Hc. unfold buildTrueRawTokenIndex.
  set (ordered := js_sort ordinal_cmp messages).
  set (first := match head ordered with Some m => _ | None => _ end).
  set (terminal := match last ordered with Some m => _ | None => _ end).
  set (span := if first <=? terminal then _ else _). clearbody span.
  assert (∀ ms st, (∀ e, e ∈ st.1.1.2 → 0 ≤ e.2) → cache_breakdowns_wf st.2 →
    ∀ e, e ∈ (foldl (index_step options first span) st ms).1.1.2 → 0 ≤ e.2) as Hloop.
  { intros ms. induction ms as [|m ms IH]; intros st Ht Hc'; [done|]. cbn [foldl].
    destruct (index_step_nonneg first span st m Ht Hc'). by apply IH. }
  specialize (Hloop ordered (replicate (Z.to_nat (span + 1)) 0, [], [], cache)
                (fun e He => match not_elem_of_nil e He with end) Hc).
  destruct (foldl _ _ ordered) as [[[prefix tokens] ids] cache']. cbn [fst snd] in Hloop |- *.
  intros o. unfold tokenForOrdinal. cbn [ti_tokens].
  destruct (JsMap.get tokens o) as [z|] eqn:E; [|done]. cbn.
  by apply (Hloop (o, z)), get_Some_in.
Qed.

End nonneg.

(** ** Properties *)

(** On the index built from any messages, in any order, with gaps and
    duplicate ordinals allowed, a range query that starts no later than one
    past the last ordinal answers the sum of the tokens of the ordinals in the
    range, and a suffix query the sum from its ordinal on; a range that starts
    further out reads past the prefix array and is not a number. *)
Theorem index_queries_are_sums `{Engine} `{Tokenizer} options messages cache a b :
  let ix := (buildTrueRawTokenIndex messages options cache).1 in
  (a ≤ ti_terminal ix + 1 → rangeTokens ix a b = Some (tokens_between ix a b)) ∧
  (ti_terminal ix + 1 < a → rangeTokens ix a b = None) ∧
  suffixTokensFromOrdinal ix a = Some (tokens_between ix a (ti_terminal ix + 1)).
Proof.
  intros ix. pose proof (build_wf options messages cache) as Hix. fold ix in Hix.
  pose proof (wfi_span _ Hix). pose proof (wfi_span_nonneg _ Hix).
  split; [|split].
  - intros Ha. unfold rangeTokens. rewrite prefix_diff_at by (done || lia).
    by rewrite tokens_between_clamp.
  - intros Ha. unfold rangeTokens, prefix_diff. rewrite (at_index_None _ (_ - _)); [by destruct (at_index _ _)|].
    rewrite (wfi_length _ Hix). lia.
  - unfold suffixTokensFromOrdinal. destruct (a <=? ti_first ix) eqn:E1.
    + replace (ti_span ix) with (ti_terminal ix + 1 - ti_first ix) by lia.
      rewrite prefix_at by (done || lia). f_equal.
      rewrite (tokens_between_split ix a (ti_first ix)) by lia.
      rewrite (tokens_between_zero ix a); [lia|]. intros o Ho. apply (wfi_outside _ Hix). lia.
    + destruct (ti_terminal ix <? a) eqn:E2; [by rewrite tokens_between_empty by lia|].
      unfold ordinalToIndex.
      replace (Z.max 0 (Z.min (ti_span ix) (a - ti_first ix))) with (a - ti_first ix) by lia.
      replace (ti_span ix) with (ti_terminal ix + 1 - ti_first ix) by lia.
      apply prefix_diff_at; lia || done.
Qed.

(** [findSuffixStartForTokens] terminates and finds the latest ordinal
    whose suffix still holds the requested tokens, or the first ordinal when
    the whole index holds fewer. *)
Theorem findSuffixStart_latest `{Engine} `{Tokenizer} options messages cache tokens :
  let ix := (buildTrueRawTokenIndex messages options cache).1 in
  nonneg_tokens ix → ti_span ix < 2 ^ 30 →
  isFinite tokens = true → nleb tokens (nofZ 0) = false →
  let target := Z.max 0 (floorZ tokens) in
  let r := findSuffixStartForTokens ix tokens in
  let end_ := ti_terminal ix + 1 in
  ti_first ix ≤ r ≤ end_ ∧
  (tokens_between ix (ti_first ix) end_ < target → r = ti_first ix) ∧
  (target ≤ tokens_between ix (ti_first ix) end_ → target ≤ tokens_between ix r end_) ∧
  (∀ o, r < o ≤ end_ → tokens_between ix o end_ < target).
Proof.
  intros ix Hn Hspan Hfin Hpos target r end_.
  pose proof (build_wf options messages cache) as Hix. fold ix in Hix. clearbody ix.
  pose proof (wfi_span _ Hix). pose proof (wfi_span_nonneg _ Hix).
  pose proof (prefix_at ix Hix end_ ltac:(lia)) as Hp.
  replace (end_ - ti_first ix) with (ti_span ix) in Hp by lia.
  subst r. unfold findSuffixStartForTokens. rewrite Hfin, Hpos, Hp. cbn [negb orb].
  fold target. set (total := tokens_between ix (ti_first ix) end_) in *.
  assert (∀ o, ti_first ix ≤ o ≤ end_ →
    tokens_between ix o end_ = total - tokens_between ix (ti_first ix) o) as Hsuf.
  { intros o Ho. subst total. rewrite (tokens_between_split ix (ti_first ix) o end_) by lia. lia. }
  destruct (total <? target) eqn:Et.
  { split; [lia|]. split; [done|]. split; [lia|]. intros o Ho. rewrite Hsuf by lia.
    pose proof (tokens_between_nonneg ix (ti_first ix) o Hn). lia. }
  set (le := fun mid => prefix_le ix mid (Some (total - target))).
  assert (∀ k, 0 ≤ k ≤ ti_span ix →
    le k = (tokens_between ix (ti_first ix) (ti_first ix + k) <=? total - target)) as Hle.
  { intros k Hk. subst le. cbn beta. rewrite <- prefix_le_at by (done || lia).
    f_equal. lia. }
  assert (le 0 = true) as Hle0.
  { rewrite Hle, tokens_between_empty by lia. lia. }
  assert (∀ i j, 0 ≤ i ≤ j → j ≤ ti_span ix → le j = true → le i = true) as Hmono.
  { intros i j ??. rewrite !Hle by lia. intros ?.
    pose proof (tokens_between_mono ix (ti_first ix) (ti_first ix + i) (ti_first ix + j) Hn). lia. }
  destruct (search_from_zero le (ti_span ix) ltac:(lia) ltac:(lia) Hle0 Hmono) as (Hr & Hr' & Hafter).
  set (k := search _ le 0 (ti_span ix) 0) in *.
  split; [lia|]. split; [lia|]. rewrite Hle in Hr' by lia. split.
  - intros _. rewrite Hsuf by lia. lia.
  - intros o Ho. rewrite Hsuf by lia. specialize (Hafter (o - ti_first ix) ltac:(lia)).
    rewrite Hle in Hafter by lia.
    replace (ti_first ix + (o - ti_first ix)) with o in Hafter by lia. lia.
Qed.

(** [findHeadEndForCap] terminates and, over the clamped range, returns
    the furthest end whose tokens stay within the cap, except that a non-empty
    range always advances by at least one ordinal. *)
Theorem findHeadEnd_furthest `{Engine} `{Tokenizer} options messages cache a b cap :
  let ix := (buildTrueRawTokenIndex messages options cache).1 in
  nonneg_tokens ix → ti_span ix < 2 ^ 30 →
  isFinite cap = true → nleb cap (nofZ 0) = false →
  let start := Z.max (ti_first ix) (Z.min (ti_terminal ix + 1) a) in
  let end_ := Z.max start (Z.min (ti_terminal ix + 1) b) in
  let r := findHeadEndForCap ix a b cap in
  start ≤ r ≤ end_ ∧ (start < end_ → start < r) ∧
  (tokens_between ix start r ≤ floorZ cap ∨ r = start + 1 ∨ r = start) ∧
  (∀ o, r < o ≤ end_ → floorZ cap < tokens_between ix start o).
Proof.
  intros ix Hn Hspan Hfin Hpos start end_ r.
  pose proof (build_wf options messages cache) as Hix. fold ix in Hix. clearbody ix.
  pose proof (wfi_span _ Hix). pose proof (wfi_span_nonneg _ Hix).
  pose proof (prefix_at ix Hix start ltac:(lia)) as Hp.
  subst r. unfold findHeadEndForCap. fold start end_. rewrite Hfin, Hpos, Hp. cbn [negb orb].
  cbn [fmap option_fmap option_map].
  set (cut := tokens_between ix (ti_first ix) start + floorZ cap).
  set (le := fun mid => prefix_le ix mid (Some cut)).
  assert (∀ k, start - ti_first ix ≤ k ≤ end_ - ti_first ix →
    le k = (tokens_between ix start (ti_first ix + k) <=? floorZ cap)) as Hle.
  { intros k Hk. subst le. cbn beta.
    replace k with ((ti_first ix + k) - ti_first ix) at 1 by lia.
    rewrite prefix_le_at by (done || lia). subst cut.
    rewrite (tokens_between_split ix (ti_first ix) start (ti_first ix + k)) by lia.
    apply eq_true_iff_eq. rewrite !Z.leb_le. lia. }
  opose proof* (search_spec le (search_fuel (start - ti_first ix + 1) (end_ - ti_first ix))
    (start - ti_first ix + 1) (end_ - ti_first ix) (start - ti_first ix)) as Hr;
    [lia|lia|unfold search_fuel; lia| |].
  { intros i j ??. rewrite !Hle by lia. intros ?.
    pose proof (tokens_between_mono ix start (ti_first ix + i) (ti_first ix + j) Hn). lia. }
  set (k := search _ le _ _ _) in *.
  assert (∀ o, ti_first ix + k < o → start < o ≤ end_ → floorZ cap < tokens_between ix start o)
    as Hmax.
  { intros o Ho Hoe.
    assert (le (o - ti_first ix) = false) as Hafter.
    { destruct Hr as [[_ Ha]|(_ & _ & Ha)]; apply Ha; lia. }
    rewrite Hle in Hafter by lia.
    replace (ti_first ix + (o - ti_first ix)) with o in Hafter by lia. lia. }
  destruct (start <? end_) eqn:Ese.
  - destruct Hr as [[Hk _]|(Hk & Hlek & _)].
    + rewrite (proj2 (Z.eqb_eq (ti_first ix + k) start)) by lia. cbn [andb].
      split; [lia|]. split; [lia|]. split; [right; left; lia|]. intros o Ho. apply Hmax; lia.
    + rewrite (proj2 (Z.eqb_neq (ti_first ix + k) start)) by lia. cbn [andb].
      rewrite Hle in Hlek by lia.
      split; [lia|]. split; [lia|]. split.
      * left. rewrite Z.min_l by lia. lia.
      * intros o Ho. apply Hmax; lia.
  - assert (k = start - ti_first ix) as -> by (destruct Hr as [[? _]|(? & _)]; lia).
    rewrite andb_false_r. split; [lia|]. split; [lia|]. split; [right; right; lia|]. lia.
Qed.

(** ** Witnesses *)

Definition plain_options : TrueRawTokenIndexBuildOptions :=
  {| bo_estimate := {| o_providerShapeVersion := "opencode-v1"; o_imageTokenHeuristic := None |};
     bo_cacheNamespace := "ns";
     bo_storedTotalForMessage := Some (fun m => Some (10 * rm_ordinal m));
     bo_absoluteMessageCount := None |}.

Definition empty_cache : estimate_cache := {| ec_entries := []; ec_bytes := 0 |}.

(** Ordinals 3, 4 and 6: 30, 40 and 60 tokens, none at ordinal 5. *)
Definition gapped : list RawMessage := [msg 4 []; msg 3 []; msg 6 []].

Lemma gapped_nonneg : nonneg_tokens (buildTrueRawTokenIndex gapped plain_options empty_cache).1.
Proof.
  intros o. unfold tokenForOrdinal.
  change (ti_tokens (buildTrueRawTokenIndex gapped plain_options empty_cache).1)
    with [(3, 30); (4, 40); (6, 60)].
  cbn. repeat case_decide; cbn; lia.
Qed.

Lemma findSuffixStart_latest_witness :
  let ix := (buildTrueRawTokenIndex gapped plain_options empty_cache).1 in
  findSuffixStartForTokens ix (nofZ 61) = 4 ∧ 61 ≤ tokens_between ix 4 7.
Proof.
  destruct (findSuffixStart_latest plain_options gapped empty_cache (nofZ 61))
    as (_ & _ & H & _).
  - exact gapped_nonneg.
  - vm_compute. reflexivity.
  - vm_compute. reflexivity.
  - vm_compute. reflexivity.
  - split; [vm_compute; reflexivity|].
    exact (H ltac:(vm_compute; discriminate)).
Defined.

Lemma findHeadEnd_furthest_witness :
  let ix := (buildTrueRawTokenIndex gapped plain_options empty_cache).1 in
  findHeadEndForCap ix 3 7 (nofZ 75) = 6 ∧ 75 < tokens_between ix 3 7.
Proof.
  destruct (findHeadEnd_furthest plain_options gapped empty_cache 3 7 (nofZ 75))
    as (_ & _ & _ & H).
  - exact gapped_nonneg.
  - vm_compute. reflexivity.
  - vm_compute. reflexivity.
  - vm_compute. reflexivity.
  - split; [vm_compute; reflexivity|].
    exact (H 7 ltac:(vm_compute; split; [reflexivity|discriminate])).
Defined.
