(* ===== verification/SessionText.v ===== *)
(** * User text and block text

    Models packages/plugin/src/shared/system-directive.ts and the parts of
    packages/plugin/src/hooks/magic-context/read-session-formatting.ts that
    decide which user messages carry meaning and how a chunk block prints.
    The regular expressions are written out as scanners over code units, with
    the helpers of JsString. *)

From S2P Require Import Prelude JsNumber JsMap JsValue JsString TokenEstimate.

Definition REMINDER_OPEN : list Z := code_units "<system-reminder>".
Definition REMINDER_CLOSE : list Z := code_units "</system-reminder>".

(** [text.replace(/<system-reminder>[\s\S]*?<\/system-reminder>/gi, "")]: one
    unit of fuel per code unit. *)
Fixpoint remove_reminders (fuel : nat) (l : list Z) : list Z :=
  match fuel, l with
  | O, _ | _, [] => l
  | S fuel, u :: l' =>
      match strip_prefix same_fold REMINDER_OPEN l ≫= after_first same_fold REMINDER_CLOSE with
      | Some rest => remove_reminders fuel rest
      | None => u :: remove_reminders fuel l'
      end
  end.

Definition removeSystemReminders (text : string) : string :=
  let units := code_units text in
  of_code_units (trim_units (remove_reminders (length units) units)).

Definition SYSTEM_DIRECTIVE_PREFIX : string := "[SYSTEM DIRECTIVE: MAGIC-CONTEXT".

Definition isSystemDirective (text : string) : bool :=
  startsWith (trimStart text) SYSTEM_DIRECTIVE_PREFIX.

Definition OMO_INTERNAL_INITIATOR_MARKER : string := "<!-- OMO_INTERNAL_INITIATOR -->".

(** [s.replace(pattern, "")] for a string pattern: its first occurrence. *)
Fixpoint remove_first (p l : list Z) : list Z :=
  match strip_prefix Z.eqb p l with
  | Some rest => rest
  | None => match l with [] => [] | u :: l => u :: remove_first p l end
  end.

Definition clean_text (text : string) : string :=
  of_code_units
    (trim_units
       (remove_first (code_units OMO_INTERNAL_INITIATOR_MARKER)
          (code_units (removeSystemReminders text)))).

(** ** Parts of a message *)

(** A part as an object: an array has none of the named properties. *)
Definition part_fields (part : value) : option (list (string * value)) :=
  match part with VObj entries => Some entries | VArr _ => Some [] | _ => None end.

Definition is_text_part (candidate : list (string * value)) : option string :=
  match field candidate "type", field candidate "text" with
  | VStr type, VStr text => if String.eqb type "text" then Some text else None
  | _, _ => None
  end.

Definition meaningful_part (part : value) : bool :=
  match part_fields part with
  | None => false
  | Some candidate =>
      match is_text_part candidate with
      | None => false
      | Some text =>
          match field candidate "ignored" with
          | VBool true => false
          | _ =>
              let cleaned := clean_text text in
              negb (String.eqb cleaned "") && negb (isSystemDirective cleaned)
          end
      end
  end.

Definition hasMeaningfulUserText (parts : list value) : bool := existsb meaningful_part parts.

Definition extractTexts (parts : list value) : list string :=
  omap (fun part =>
    match part_fields part ≫= is_text_part with
    | Some text => if 0 <? str_length (trim text) then Some (trim text) else None
    | None => None
    end) parts.

(** ** Chunk blocks *)

Record SessionChunkLine := { scl_ordinal : Z; scl_messageId : string }.

Record ChunkBlock := {
  cb_role : string;
  cb_startOrdinal : Z;
  cb_endOrdinal : Z;
  cb_parts : list string;
  cb_meta : list SessionChunkLine;
  cb_commitHashes : list string;
  cb_isToolOnly : bool
}.

Definition MAX_COMMITS_PER_BLOCK : Z := 5.

(** The loop of [mergeCommitHashes]. *)
Fixpoint merge_loop (merged next : list string) : list string :=
  match next with
  | [] => merged
  | hash :: next =>
      if decide (hash ∈ merged) then merge_loop merged next
      else
        let merged := merged ++ [hash] in
        if MAX_COMMITS_PER_BLOCK <=? lengthZ merged then merged else merge_loop merged next
  end.

Definition mergeCommitHashes (existing next : list string) : list string :=
  match next with [] => existing | _ => merge_loop existing next end.

Section format.
Context `{Engine}.

Definition formatBlock (block : ChunkBlock) : string :=
  let range :=
    (if (cb_startOrdinal block =? cb_endOrdinal block)%Z
     then "[" ++ str_of_Z (cb_startOrdinal block) ++ "]"
     else "[" ++ str_of_Z (cb_startOrdinal block) ++ "-" ++ str_of_Z (cb_endOrdinal block) ++ "]")%string in
  let commitSuffix :=
    (if (0 <? lengthZ (cb_commitHashes block))%Z
     then " commits: " ++ join ", " (cb_commitHashes block) else "")%string in
  (range ++ " " ++ cb_role block ++ ":" ++ commitSuffix ++ " " ++ join " / " (cb_parts block))%string.

End format.

(** ** Properties *)

Lemma merge_loop_spec merged next :
  NoDup merged → lengthZ merged < MAX_COMMITS_PER_BLOCK →
  NoDup (merge_loop merged next) ∧ lengthZ (merge_loop merged next) ≤ MAX_COMMITS_PER_BLOCK ∧
  (∃ added, merge_loop merged next = merged ++ added ∧ added ⊆ next) ∧
  (lengthZ (merge_loop merged next) < MAX_COMMITS_PER_BLOCK → next ⊆ merge_loop merged next).
Proof.
  revert merged. induction next as [|h next IH]; intros merged Hnd Hl; cbn [merge_loop].
  { split; [done|]. split; [lia|]. split; [exists []; by rewrite app_nil_r|set_solver]. }
  case_decide as Hin.
  - destruct (IH merged Hnd Hl) as (? & ? & (added & E & ?) & Hall).
    split; [done|]. split; [done|]. split; [exists added; split; [done|set_solver]|].
    intros Hlt x [->|Hx]%elem_of_cons; [rewrite E; set_solver|by apply Hall].
  - assert (NoDup (merged ++ [h])) as Hnd'.
    { apply NoDup_app. split; [done|]. split; [set_solver|apply NoDup_singleton]. }
    assert (lengthZ (merged ++ [h]) = lengthZ merged + 1) as Hl' by (by rewrite lengthZ_app).
    case_match.
    + split; [done|]. split; [lia|]. split; [exists [h]; split; [done|set_solver]|]. lia.
    + destruct (IH (merged ++ [h]) Hnd' ltac:(lia)) as (? & ? & (added & E & ?) & Hall).
      split; [done|]. split; [done|]. split.
      * exists (h :: added). rewrite E, <- app_assoc. split; [done|set_solver].
      * intros Hlt x [->|Hx]%elem_of_cons; [rewrite E; set_solver|by apply Hall].
Qed.

(** Merging into a block that has not reached the bound keeps the hashes
    distinct, the old ones first, the new ones from the message, and at most
    the bound of them; nothing is left out while there is room. *)
Theorem mergeCommitHashes_bounded existing next :
  NoDup existing → lengthZ existing < MAX_COMMITS_PER_BLOCK →
  let merged := mergeCommitHashes existing next in
  NoDup merged ∧ lengthZ merged ≤ MAX_COMMITS_PER_BLOCK ∧
  (∃ added, merged = existing ++ added ∧ added ⊆ next) ∧
  (lengthZ merged < MAX_COMMITS_PER_BLOCK → next ⊆ merged).
Proof.
  intros Hnd Hl merged. destruct (merge_loop_spec existing next Hnd Hl) as (?&?&?&?).
  subst merged. unfold mergeCommitHashes. destruct next as [|h next]; [|done].
  split; [done|]. split; [lia|]. split; [exists []; by rewrite app_nil_r|set_solver].
Qed.

Lemma mergeCommitHashes_bounded_witness :
  lengthZ (mergeCommitHashes ["a1"; "b2"] ["b2"; "c3"; "d4"; "e5"; "f6"])%string ≤ 5 ∧
  NoDup (mergeCommitHashes ["a1"; "b2"] ["b2"; "c3"; "d4"; "e5"; "f6"])%string.
Proof.
  destruct (mergeCommitHashes_bounded ["a1"; "b2"]%string ["b2"; "c3"; "d4"; "e5"; "f6"]%string)
    as (Hn & Hl & _).
  - apply (bool_decide_unpack _). reflexivity.
  - reflexivity.
  - split; [exact Hl|exact Hn].
Defined.

(** The bound is tested after the push only: a block that already holds five
    hashes grows by one with every further message that brings a new one. *)
Lemma mergeCommitHashes_exceeds_bound :
  let full := ["a"; "b"; "c"; "d"; "e"]%string in
  lengthZ (mergeCommitHashes full ["f"]%string) = 6 ∧
  lengthZ (mergeCommitHashes (mergeCommitHashes full ["f"]%string) ["g"]%string) = 7.
Proof. split; vm_compute; reflexivity. Qed.
