(* ===== verification/Budgets.v ===== *)
(** * Token budgets and escalation bands

    Models packages/plugin/src/hooks/magic-context/derive-budgets.ts and
    packages/plugin/src/shared/escalation-bands.ts.  All the arithmetic is on
    doubles. *)

From S2P Require Import Prelude JsNumber.

(** [MAX_MEMORY_INJECTION_BUDGET_TOKENS] of the configuration schema. *)
Definition MAX_MEMORY_INJECTION_BUDGET_TOKENS : num := nofZ 20000.

Definition TRIGGER_BUDGET_PERCENTAGE : num := nlit 5 100.
Definition TRIGGER_BUDGET_MIN : num := nofZ 5000.
Definition TRIGGER_BUDGET_MAX : num := nofZ 50000.
Definition HISTORIAN_CHUNK_PERCENTAGE : num := nlit 25 100.
Definition HISTORIAN_CHUNK_MIN : num := nofZ 8000.
Definition HISTORIAN_CHUNK_MAX : num := nofZ 50000.

Definition deriveTriggerBudget (mainContextLimit executeThresholdPercentage : num) : num :=
  if negb (isFinite mainContextLimit) || nleb mainContextLimit (nofZ 0) then TRIGGER_BUDGET_MIN
  else
    let thresholdFraction := ndiv (nmax (nofZ 0) executeThresholdPercentage) (nofZ 100) in
    let usable := nmul mainContextLimit thresholdFraction in
    let derived := nround (nmul usable TRIGGER_BUDGET_PERCENTAGE) in
    nmax TRIGGER_BUDGET_MIN (nmin TRIGGER_BUDGET_MAX derived).

Definition deriveHistorianChunkTokens (historianContextLimit : num) : num :=
  if negb (isFinite historianContextLimit) || nleb historianContextLimit (nofZ 0)
  then HISTORIAN_CHUNK_MIN
  else
    let derived := nround (nmul historianContextLimit HISTORIAN_CHUNK_PERCENTAGE) in
    nmax HISTORIAN_CHUNK_MIN (nmin HISTORIAN_CHUNK_MAX derived).

Definition deriveHistorianMemoryTokens (historianChunkTokens : num) : num :=
  if negb (isFinite historianChunkTokens) || nleb historianChunkTokens (nofZ 0) then nofZ 0
  else nmin MAX_MEMORY_INJECTION_BUDGET_TOKENS (nfloor (ndiv historianChunkTokens (nofZ 2))).

Definition MAX_EXECUTE_THRESHOLD : num := nofZ 90.
Definition ABSOLUTE_EMERGENCY_PERCENTAGE : num := nofZ 95.

Record EscalationBands := {
  eb_forceMaterializationPercentage : num;
  eb_emergencyPercentage : num
}.

Definition escalationBands (effectiveThresholdPercentage : num) : EscalationBands :=
  let threshold :=
    if isFinite effectiveThresholdPercentage
    then nmin effectiveThresholdPercentage MAX_EXECUTE_THRESHOLD else nofZ 65 in
  {| eb_forceMaterializationPercentage := nmax (nofZ 85) (nadd threshold (nofZ 2));
     eb_emergencyPercentage := ABSOLUTE_EMERGENCY_PERCENTAGE |}.
