(* ===== verification/Boundary.v ===== *)
(** * The protected tail boundary

    Models packages/plugin/src/hooks/magic-context/protected-tail-boundary.ts:
    the token target of the protected tail, the per-run cap, the semantic snap,
    the head cap and the resolution of a boundary snapshot from the session's
    messages, the wrap-up variant, and the check that a snapshot still
    describes the session.

    What the code reads from the store is an argument: the raw messages, the
    cached absolute message count, the last compartment's end and the clock.
    Ordinals are integers; limits, percentages and token targets are doubles. *)

From S2P Require Import Prelude JsNumber JsMap JsValue JsString TokenEstimate TokenIndex SessionText Budgets.

(** ** Context and snapshot *)

Inductive BoundaryMode :=
| mode_trigger | mode_incremental_runner | mode_transform_force | mode_manual_full_recomp
| mode_manual_partial_recomp | mode_manual_wrapup | mode_pi_trigger | mode_pi_runner.

Inductive UsageSource := us_live | us_persisted | us_provisional_zero | us_manual_none.

(** [0.5 | 0.25]. *)
Inductive EmergencyTailScale := scale_half | scale_quarter.

Definition scale_num (s : EmergencyTailScale) : num :=
  match s with scale_half => nlit 1 2 | scale_quarter => nlit 1 4 end.

Record BoundaryUsage := { u_percentage : num; u_inputTokens : num }.

Record ResolvedBoundaryContext := {
  cx_sessionId : string;
  cx_mode : BoundaryMode;
  cx_contextLimit : num;
  cx_executeThresholdPercentage : num;
  cx_triggerBudget : num;
  cx_usage : option BoundaryUsage;
  cx_usageSource : UsageSource;
  cx_lastCompartmentEndOrdinal : Z;
  cx_priorBoundaryOrdinal : Z;
  cx_migrationFloorActive : bool;
  cx_emergencyTailScale : option EmergencyTailScale;
  cx_providerShapeVersion : string;
  cx_cacheNamespace : string;
  cx_createdAt : option num;
  cx_storedTokenTotals : option (jsmap string Z)
}.

(** [boundaryCtxFields]: the slice of the context a snapshot carries. *)
Record BoundaryCtxFields := {
  cf_usageSource : UsageSource;
  cf_contextLimit : num;
  cf_executeThresholdPercentage : num;
  cf_triggerBudget : num;
  cf_priorBoundaryOrdinal : Z;
  cf_migrationFloorActive : bool;
  cf_emergencyTailScale : option EmergencyTailScale;
  cf_providerShapeVersion : string;
  cf_cacheNamespace : string
}.

Definition boundaryCtxFields (ctx : ResolvedBoundaryContext) : BoundaryCtxFields :=
  {| cf_usageSource := cx_usageSource ctx;
     cf_contextLimit := cx_contextLimit ctx;
     cf_executeThresholdPercentage := cx_executeThresholdPercentage ctx;
     cf_triggerBudget := cx_triggerBudget ctx;
     cf_priorBoundaryOrdinal := cx_priorBoundaryOrdinal ctx;
     cf_migrationFloorActive := cx_migrationFloorActive ctx;
     cf_emergencyTailScale := cx_emergencyTailScale ctx;
     cf_providerShapeVersion := cx_providerShapeVersion ctx;
     cf_cacheNamespace := cx_cacheNamespace ctx |}.

Record ProtectedTailBoundarySnapshot := {
  sn_sessionId : string;
  sn_mode : BoundaryMode;
  sn_offset : Z;
  sn_offsetMessageId : option string;
  sn_protectedTailStart : Z;
  sn_protectedTailStartMessageId : option string;
  sn_eligibleEndOrdinal : Z;
  sn_eligibleEndMessageId : option string;
  sn_rawMessageCountAtTrigger : Z;
  sn_rawLastMessageIdAtTrigger : option string;
  sn_N : num;
  sn_usagePercentage : num;
  sn_usageInputTokens : num;
  sn_ctx : BoundaryCtxFields;
  sn_createdAt : num;
  sn_rawRangeFingerprint : string;
  sn_trueRawEligibleTokens : option Z;
  sn_oversizeAtomicUnit : bool;
  sn_boundaryReason : string
}.

(** [a > b] and [a <= b] for a token sum that may be NaN. *)
Definition tokens_gt (a : option Z) (b : num) : bool :=
  match a with Some a => nltb b (nofZ a) | None => false end.
Definition tokens_le (a : option Z) (b : num) : bool :=
  match a with Some a => nleb (nofZ a) b | None => false end.
Definition tokens_ge (a : option Z) (b : num) : bool :=
  match a with Some a => nleb b (nofZ a) | None => false end.
Definition tokens_sub (a b : option Z) : option Z :=
  a ← a; b ← b; Some (a - b).

(** ** Targets and caps *)

Definition ALPHA : num := nlit 3 10.
Definition FLOOR_RATIO : num := nlit 8 100.
Definition FLOOR_MIN : num := nofZ 2000.
Definition FLOOR_MAX : num := nofZ 12000.
Definition ABS_CAP : num := nofZ 96000.
Definition MAX_USABLE_RATIO : num := nlit 4 10.
Definition RESERVED_HEADROOM_MIN : num := nofZ 1000.
Definition RESERVED_HEADROOM_RATIO : num := nlit 2 100.
Definition NORMAL_HYSTERESIS_TOKENS : num := nofZ 256.
Definition MIN_FORCE_ELIGIBLE_TOKENS_CAP : num := nofZ 1000.

Definition deriveMinForceEligibleTokens (scaledN : num) : num :=
  nmin MIN_FORCE_ELIGIBLE_TOKENS_CAP (nmax (nofZ 1) (nfloor (ndiv scaledN (nofZ 8)))).

Definition clampPercentage (v : num) : num :=
  if negb (isFinite v) then nofZ 0 else nmax (nofZ 0) (nmin (nofZ 100) v).

Definition clampOrdinal (ordinal rawMessageCount : Z) : Z :=
  Z.max 1 (Z.min (rawMessageCount + 1) ordinal).

Record ProtectedTailTokenTarget := {
  tt_usable : num; tt_rawN : num; tt_floorN : num; tt_ceilingN : num;
  tt_effectiveFloor : num; tt_N : num; tt_headroom : num; tt_triggerBudget : num;
  tt_reserve : num
}.

Definition deriveProtectedTailTokenTarget
    (contextLimit executeThresholdPercentage usagePercentage : num)
    (triggerBudget : option num) : ProtectedTailTokenTarget :=
  let safeContextLimit :=
    if isFinite contextLimit && nltb (nofZ 0) contextLimit then contextLimit else nofZ 128000 in
  let safeThreshold :=
    if isFinite executeThresholdPercentage
    then nmax (nofZ 0) executeThresholdPercentage else nofZ 65 in
  let usable :=
    nmax (nofZ 1) (nround (ndiv (nmul safeContextLimit safeThreshold) (nofZ 100))) in
  let usage := clampPercentage usagePercentage in
  let triggerBudget :=
    match triggerBudget with
    | Some b => b
    | None => deriveTriggerBudget safeContextLimit safeThreshold
    end in
  let reserve := nmax RESERVED_HEADROOM_MIN (nround (nmul usable RESERVED_HEADROOM_RATIO)) in
  let rawN :=
    nround (nmul (nmul usable ALPHA) (nsub (nofZ 1) (ndiv usage (nofZ 100)))) in
  let floorN := nmin FLOOR_MAX (nmax FLOOR_MIN (nround (nmul usable FLOOR_RATIO))) in
  let headroom := nmin (nadd triggerBudget reserve) (nfloor (nmul usable (nlit 1 2))) in
  let ceilingN :=
    nmax (nofZ 1)
      (nmin (nmin ABS_CAP (nfloor (nmul usable MAX_USABLE_RATIO))) (nsub usable headroom)) in
  let effectiveFloor := nmin floorN ceilingN in
  let N := nmin ceilingN (nmax effectiveFloor rawN) in
  {| tt_usable := usable; tt_rawN := rawN; tt_floorN := floorN; tt_ceilingN := ceilingN;
     tt_effectiveFloor := effectiveFloor; tt_N := N; tt_headroom := headroom;
     tt_triggerBudget := triggerBudget; tt_reserve := reserve |}.

Record PerRunCapTier := {
  pr_minUsagePercentage : num; pr_maxCap : num; pr_nMultiplier : num;
  pr_usableFraction : num; pr_absoluteCap : num
}.

Definition TIER_FORCE95 : PerRunCapTier :=
  {| pr_minUsagePercentage := nofZ 95; pr_maxCap := nofZ 750000; pr_nMultiplier := nofZ 4;
     pr_usableFraction := nlit 5 10; pr_absoluteCap := nofZ 250000 |}.
Definition TIER_FORCE80 : PerRunCapTier :=
  {| pr_minUsagePercentage := nofZ 80; pr_maxCap := nofZ 500000; pr_nMultiplier := nofZ 3;
     pr_usableFraction := nlit 35 100; pr_absoluteCap := nofZ 150000 |}.
Definition TIER_NORMAL : PerRunCapTier :=
  {| pr_minUsagePercentage := nofZ 0; pr_maxCap := nofZ 250000; pr_nMultiplier := nofZ 2;
     pr_usableFraction := nlit 25 100; pr_absoluteCap := nofZ 100000 |}.

Definition PER_RUN_CAP_TIERS : list PerRunCapTier := [TIER_FORCE95; TIER_FORCE80; TIER_NORMAL].

Definition perRunCapForTier (tier : PerRunCapTier) (usable N : num) : num :=
  nmin (pr_maxCap tier)
    (nmax (nmul (pr_nMultiplier tier) N)
       (nmin (nround (nmul (pr_usableFraction tier) usable)) (pr_absoluteCap tier))).

Definition selectTier (usagePercentage : num) : PerRunCapTier :=
  default TIER_NORMAL
    (head (filter (fun t => nleb (pr_minUsagePercentage t) usagePercentage = true)
             PER_RUN_CAP_TIERS)).

Definition selectPerRunCap (usagePercentage N contextLimit executeThresholdPercentage : num) : num :=
  let usable :=
    nmax (nofZ 1) (nround (ndiv (nmul contextLimit executeThresholdPercentage) (nofZ 100))) in
  perRunCapForTier (selectTier usagePercentage) usable N.

(** ** Snapping and fencing *)

Definition boundaryMessageId (index : TrueRawTokenIndex) (ordinal : Z) : option string :=
  if (ordinal <? 1) || (ti_rawMessageCount index <? ordinal) then None
  else messageIdAtOrdinal index ordinal.

Section resolve.
Context `{Engine} `{Tokenizer}.

Definition is_tool_part (part : value) : bool :=
  match part with
  | VObj entries => String.eqb (if hasOwn entries "type" then js_String (field entries "type") else "")
                      "tool"
  | _ => false
  end.

Definition isSemanticBoundaryCandidate (messageParts : list value) (role : string) : bool :=
  (String.eqb role "user" && hasMeaningfulUserText messageParts) ||
  existsb is_tool_part messageParts.

(** The scan of [semanticSnapBoundary]: it stops past the candidate. *)
Fixpoint snap_scan (messages : list RawMessage) (candidate lastEnd snapped : Z) : Z :=
  match messages with
  | [] => snapped
  | message :: messages =>
      if candidate <? rm_ordinal message then snapped
      else if rm_ordinal message <? lastEnd + 1 then snap_scan messages candidate lastEnd snapped
      else if negb (isSemanticBoundaryCandidate (rm_parts message) (rm_role message))
      then snap_scan messages candidate lastEnd snapped
      else snap_scan messages candidate lastEnd (rm_ordinal message)
  end.

Definition find_ordinal (messages : list RawMessage) (ordinal : Z) : option RawMessage :=
  head (filter (fun m => rm_ordinal m = ordinal) messages).

Definition semanticSnapBoundary (messages : list RawMessage) (index : TrueRawTokenIndex)
    (candidate : Z) (scaledN : num) (lastCompartmentEndOrdinal : Z) : Z :=
  let snapped := snap_scan messages candidate lastCompartmentEndOrdinal candidate in
  if snapped =? candidate then candidate
  else
    let extraTokens := tokens_sub (suffixTokensFromOrdinal index snapped)
                         (suffixTokensFromOrdinal index candidate) in
    if tokens_gt extraTokens (nmin (nround (nmul (nlit 3 2) scaledN)) (nofZ 48000))
    then candidate
    else
      let is_user := match find_ordinal messages snapped with
                     | Some m => String.eqb (rm_role m) "user"
                     | None => false
                     end in
      if is_user && tokens_gt (Some (tokenForOrdinal index snapped))
                      (nmax (nmul (nofZ 2) scaledN) (nofZ 64000))
      then candidate else snapped.

(** [for (let ordinal = candidate; ordinal >= offset; ordinal -= 1)]: one unit
    of fuel per ordinal. *)
Fixpoint wrapup_scan (fuel : nat) (messages : list RawMessage) (index : TrueRawTokenIndex)
    (candidate offset : Z) (limit : num) (ordinal : Z) : Z :=
  match fuel with
  | O => candidate
  | S fuel =>
      if ordinal <? offset then candidate
      else
        match find_ordinal messages ordinal with
        | Some message =>
            if negb (String.eqb (rm_role message) "user") ||
               negb (hasMeaningfulUserText (rm_parts message))
            then wrapup_scan fuel messages index candidate offset limit (ordinal - 1)
            else if tokens_le (rangeTokens index ordinal candidate) limit
            then ordinal else candidate
        | None => wrapup_scan fuel messages index candidate offset limit (ordinal - 1)
        end
  end.

Definition snapWrapupBoundaryToUser (messages : list RawMessage) (index : TrueRawTokenIndex)
    (candidate offset : Z) (triggerBudget : num) : Z :=
  if candidate <=? offset then candidate
  else
    let snapTokenLimit := nmin (nmax triggerBudget (nofZ 2000)) (nofZ 48000) in
    wrapup_scan (Z.to_nat (candidate - offset + 1)) messages index candidate offset
      snapTokenLimit candidate.

(** One pass of [fenceWrapupBoundaryForToolArcs] over the arcs. *)
Definition wrapup_pass (arcs : list ToolArc) (lastCompartmentEndOrdinal next : Z) : Z :=
  foldl (fun next arc =>
    match a_res arc with
    | None => next
    | Some res =>
        if (lastCompartmentEndOrdinal + 1 <=? a_inv arc) &&
           completedToolArcCrossesBoundary (a_inv arc) res next
        then a_inv arc else next
    end) next arcs.

Fixpoint wrapup_passes (fuel : nat) (arcs : list ToolArc) (lastEnd boundary : Z) : Z :=
  match fuel with
  | O => boundary
  | S fuel =>
      let next := wrapup_pass arcs lastEnd boundary in
      if next =? boundary then boundary else wrapup_passes fuel arcs lastEnd next
  end.

Definition fenceWrapupBoundaryForToolArcs (candidate : Z) (arcs : list ToolArc)
    (lastCompartmentEndOrdinal : Z) : Z :=
  wrapup_passes (length arcs + 1) arcs lastCompartmentEndOrdinal candidate.

(** The loop of [applyHeadCap] over the arcs. *)
Definition head_step (index : TrueRawTokenIndex) (protectedTailStart offset : Z)
    (capTokens : num) (recentOpenArcCutoff : Z) (st : Z * bool) (arc : ToolArc) : Z * bool :=
  let '(end_, oversize) := st in
  match a_res arc with
  | None =>
      if (recentOpenArcCutoff <=? a_inv arc) && (offset <=? a_inv arc) && (a_inv arc <? end_)
      then (Z.min end_ (a_inv arc), oversize) else st
  | Some res =>
      if (a_inv arc <? end_) && (end_ <=? res) then
        let end_ := Z.min protectedTailStart (res + 1) in
        (end_, oversize ||
               tokens_gt (rangeTokens index (Z.max offset (a_inv arc)) end_) capTokens)
      else st
  end.

Definition applyHeadCap (index : TrueRawTokenIndex) (protectedTailStart offset : Z)
    (arcs : list ToolArc) (capTokens : num) (recentOpenArcCutoff : Z) : Z * bool :=
  if protectedTailStart <=? offset then (offset, false)
  else
    let end_ := findHeadEndForCap index offset protectedTailStart capTokens in
    let oversize := (end_ =? offset + 1) &&
                    tokens_gt (Some (tokenForOrdinal index offset)) capTokens in
    let '(end_, oversize) :=
      foldl (head_step index protectedTailStart offset capTokens recentOpenArcCutoff)
        (end_, oversize) arcs in
    if (end_ <=? offset) && (offset <? protectedTailStart) then (offset, oversize)
    else (Z.min end_ protectedTailStart, oversize).

(** ** Resolution *)

(** What a resolution reads besides its context. *)
Record boundary_store := {
  bs_messages : list RawMessage;
  bs_absoluteMessageCount : option Z;
  bs_now : num
}.

Definition index_options (ctx : ResolvedBoundaryContext) (store : boundary_store)
    : TrueRawTokenIndexBuildOptions :=
  {| bo_estimate := {| o_providerShapeVersion := cx_providerShapeVersion ctx;
                       o_imageTokenHeuristic := None |};
     bo_cacheNamespace := cx_cacheNamespace ctx;
     bo_storedTotalForMessage :=
       (fun totals m => JsMap.get totals (rm_id m)) <$> cx_storedTokenTotals ctx;
     bo_absoluteMessageCount := bs_absoluteMessageCount store |}.

(** The newest meaningful user message, scanning from the end; 0 when none. *)
Definition lastMeaningfulUser (messages : list RawMessage) : Z :=
  match head (filter (fun m => String.eqb (rm_role m) "user" &&
                               hasMeaningfulUserText (rm_parts m) = true) (rev messages)) with
  | Some m => rm_ordinal m
  | None => 0
  end.

Definition usage_of (ctx : ResolvedBoundaryContext) : num :=
  clampPercentage (match cx_usage ctx with Some u => u_percentage u | None => nofZ 0 end).
Definition input_of (ctx : ResolvedBoundaryContext) : num :=
  nmax (nofZ 0)
    (nround (match cx_usage ctx with Some u => u_inputTokens u | None => nofZ 0 end)).

Definition emptySessionSnapshot (ctx : ResolvedBoundaryContext) (offset : Z) (createdAt : num)
    : ProtectedTailBoundarySnapshot :=
  {| sn_sessionId := cx_sessionId ctx; sn_mode := cx_mode ctx; sn_offset := offset;
     sn_offsetMessageId := None; sn_protectedTailStart := 1;
     sn_protectedTailStartMessageId := None; sn_eligibleEndOrdinal := 1;
     sn_eligibleEndMessageId := None; sn_rawMessageCountAtTrigger := 0;
     sn_rawLastMessageIdAtTrigger := None; sn_N := nofZ 0;
     sn_usagePercentage := usage_of ctx; sn_usageInputTokens := input_of ctx;
     sn_ctx := boundaryCtxFields ctx; sn_createdAt := createdAt; sn_rawRangeFingerprint := "";
     sn_trueRawEligibleTokens := Some 0; sn_oversizeAtomicUnit := false;
     sn_boundaryReason := "empty-session" |}.

Definition fullRecompSnapshot (ctx : ResolvedBoundaryContext) (index : TrueRawTokenIndex)
    (messages : list RawMessage) (offset : Z) (createdAt : num)
    : ProtectedTailBoundarySnapshot :=
  let arcs := buildToolArcs messages in
  let recompTarget :=
    deriveProtectedTailTokenTarget (cx_contextLimit ctx) (cx_executeThresholdPercentage ctx)
      (nofZ 0) (Some (cx_triggerBudget ctx)) in
  let recentOpenArcCutoff := findSuffixStartForTokens index (tt_N recompTarget) in
  let firstOpenArc :=
    head (filter (fun arc => match a_res arc with
                             | None => (offset <=? a_inv arc) && (recentOpenArcCutoff <=? a_inv arc)
                             | Some _ => false
                             end = true) arcs) in
  let rawMessageCount := ti_rawMessageCount index in
  let protectedTailStart :=
    match firstOpenArc with Some arc => a_inv arc | None => rawMessageCount + 1 end in
  {| sn_sessionId := cx_sessionId ctx; sn_mode := cx_mode ctx; sn_offset := offset;
     sn_offsetMessageId := boundaryMessageId index offset;
     sn_protectedTailStart := protectedTailStart;
     sn_protectedTailStartMessageId := None;
     sn_eligibleEndOrdinal := protectedTailStart;
     sn_eligibleEndMessageId := boundaryMessageId index (protectedTailStart - 1);
     sn_rawMessageCountAtTrigger := rawMessageCount;
     sn_rawLastMessageIdAtTrigger := boundaryMessageId index rawMessageCount;
     sn_N := nofZ 0; sn_usagePercentage := nofZ 0; sn_usageInputTokens := nofZ 0;
     sn_ctx := {| cf_usageSource := us_manual_none;
                  cf_contextLimit := cx_contextLimit ctx;
                  cf_executeThresholdPercentage := cx_executeThresholdPercentage ctx;
                  cf_triggerBudget := cx_triggerBudget ctx;
                  cf_priorBoundaryOrdinal := cx_priorBoundaryOrdinal ctx;
                  cf_migrationFloorActive := false;
                  cf_emergencyTailScale := cx_emergencyTailScale ctx;
                  cf_providerShapeVersion := cx_providerShapeVersion ctx;
                  cf_cacheNamespace := cx_cacheNamespace ctx |};
     sn_createdAt := createdAt;
     sn_rawRangeFingerprint := computeRawRangeFingerprint messages offset protectedTailStart;
     sn_trueRawEligibleTokens := rangeTokens index offset protectedTailStart;
     sn_oversizeAtomicUnit := false;
     sn_boundaryReason := match firstOpenArc with
                          | Some _ => "open-tool-arc"
                          | None => "manual-full-recomp"
                          end |}.

Definition scaledTarget (ctx : ResolvedBoundaryContext) : num :=
  let target :=
    deriveProtectedTailTokenTarget (cx_contextLimit ctx) (cx_executeThresholdPercentage ctx)
      (usage_of ctx) (Some (cx_triggerBudget ctx)) in
  match cx_emergencyTailScale ctx with
  | Some scale => nmax (nofZ 1) (nfloor (nmul (tt_N target) (scale_num scale)))
  | None => tt_N target
  end.

(** The boundary before flooring, with the open-arc cutoff and the reason. *)
Definition sizeWalk (ctx : ResolvedBoundaryContext) (index : TrueRawTokenIndex)
    (messages : list RawMessage) (arcs : list ToolArc) (scaledN : num) : Z * Z * string :=
  let boundary := findSuffixStartForTokens index scaledN in
  let recentOpenArcCutoff := boundary in
  let reason := (if (boundary =? 1)%Z then "whole-session-smaller-than-tail" else "size-walk")%string in
  let '(boundary, reason) :=
    if (boundary <=? ti_rawMessageCount index) &&
       tokens_gt (Some (tokenForOrdinal index boundary))
         (nmax (nmul (nofZ 2) scaledN) (nofZ 64000)) &&
       (boundary <? ti_rawMessageCount index)
    then (boundary + 1, "huge-message-exception"%string) else (boundary, reason) in
  let boundary :=
    fenceBoundaryForToolArcs boundary arcs (cx_lastCompartmentEndOrdinal ctx)
      recentOpenArcCutoff in
  let snapped :=
    semanticSnapBoundary messages index boundary scaledN (cx_lastCompartmentEndOrdinal ctx) in
  let reason := if negb (snapped =? boundary) then "semantic-snap"%string else reason in
  (fenceBoundaryForToolArcs snapped arcs (cx_lastCompartmentEndOrdinal ctx) recentOpenArcCutoff,
   recentOpenArcCutoff, reason).

(** The floors: the offset, the migration floor, the live prompt and the
    hysteresis, then the clamp. *)
Definition floorBoundary (ctx : ResolvedBoundaryContext) (index : TrueRawTokenIndex)
    (messages : list RawMessage) (offset boundary : Z) : Z :=
  let runtimeFloor :=
    if cx_migrationFloorActive ctx then Z.max offset (cx_priorBoundaryOrdinal ctx) else offset in
  let protectedTailStart := Z.max boundary runtimeFloor in
  let force :=
    eb_forceMaterializationPercentage (escalationBands (cx_executeThresholdPercentage ctx)) in
  let protectedTailStart :=
    if match cx_emergencyTailScale ctx with None => true | Some _ => false end &&
       nltb (usage_of ctx) force
    then
      let lastMeaningfulUserOrdinal := lastMeaningfulUser messages in
      if offset <=? lastMeaningfulUserOrdinal
      then Z.min protectedTailStart lastMeaningfulUserOrdinal else protectedTailStart
    else protectedTailStart in
  let protectedTailStart :=
    if (offset <? protectedTailStart) &&
       tokens_le (rangeTokens index offset protectedTailStart) NORMAL_HYSTERESIS_TOKENS
    then offset else protectedTailStart in
  clampOrdinal protectedTailStart (ti_rawMessageCount index).

Definition liveSnapshot (ctx : ResolvedBoundaryContext) (index : TrueRawTokenIndex)
    (messages : list RawMessage) (offset : Z) (createdAt : num)
    : ProtectedTailBoundarySnapshot :=
  let scaledN := scaledTarget ctx in
  let arcs := buildToolArcs messages in
  let '(boundary, recentOpenArcCutoff, boundaryReason) :=
    sizeWalk ctx index messages arcs scaledN in
  let protectedTailStart := floorBoundary ctx index messages offset boundary in
  let perRunCap :=
    selectPerRunCap (usage_of ctx) scaledN (cx_contextLimit ctx)
      (cx_executeThresholdPercentage ctx) in
  let '(eligibleEndOrdinal, oversizeAtomicUnit) :=
    applyHeadCap index protectedTailStart offset arcs perRunCap recentOpenArcCutoff in
  let rawMessageCount := ti_rawMessageCount index in
  {| sn_sessionId := cx_sessionId ctx; sn_mode := cx_mode ctx; sn_offset := offset;
     sn_offsetMessageId := boundaryMessageId index offset;
     sn_protectedTailStart := protectedTailStart;
     sn_protectedTailStartMessageId := boundaryMessageId index protectedTailStart;
     sn_eligibleEndOrdinal := eligibleEndOrdinal;
     sn_eligibleEndMessageId := boundaryMessageId index (eligibleEndOrdinal - 1);
     sn_rawMessageCountAtTrigger := rawMessageCount;
     sn_rawLastMessageIdAtTrigger := boundaryMessageId index rawMessageCount;
     sn_N := scaledN; sn_usagePercentage := usage_of ctx; sn_usageInputTokens := input_of ctx;
     sn_ctx := boundaryCtxFields ctx; sn_createdAt := createdAt;
     sn_rawRangeFingerprint := computeRawRangeFingerprint messages offset eligibleEndOrdinal;
     sn_trueRawEligibleTokens := rangeTokens index offset protectedTailStart;
     sn_oversizeAtomicUnit := oversizeAtomicUnit; sn_boundaryReason := boundaryReason |}.

Definition resolveProtectedTailBoundary (ctx : ResolvedBoundaryContext) (store : boundary_store)
    (cache : estimate_cache) : ProtectedTailBoundarySnapshot * estimate_cache :=
  let createdAt := default (bs_now store) (cx_createdAt ctx) in
  let messages := bs_messages store in
  let '(index, cache) := buildTrueRawTokenIndex messages (index_options ctx store) cache in
  let offset := Z.max 1 (cx_lastCompartmentEndOrdinal ctx + 1) in
  (if ti_rawMessageCount index =? 0 then emptySessionSnapshot ctx offset createdAt
   else match cx_mode ctx with
        | mode_manual_full_recomp => fullRecompSnapshot ctx index messages offset createdAt
        | _ => liveSnapshot ctx index messages offset createdAt
        end, cache).

(** ** Wrap-up *)

Record WrapupBoundaryPlan := {
  wp_snapshot : ProtectedTailBoundarySnapshot;
  wp_rawMessagesAboveLastCompartment : Z;
  wp_anchorRawMessageCount : Z;
  wp_targetProtectedTailStart : Z;
  wp_targetEligibleEndOrdinal : Z
}.

(** The wrap-up target before the clamp, and the reason. *)
Definition wrapupTarget (ctx : ResolvedBoundaryContext) (index : TrueRawTokenIndex)
    (messages : list RawMessage) (offset anchorRawMessageCount above keep : Z) : Z * string :=
  if (ti_rawMessageCount index =? 0) || (above <=? keep) then
    (offset, if ti_rawMessageCount index =? 0 then "manual-wrapup-empty"%string
             else "manual-wrapup-within-keep"%string)
  else
    let target := anchorRawMessageCount - keep + 1 in
    let reason := "manual-wrapup-keep-watermark"%string in
    let arcs := buildToolArcs messages in
    let fenced := fenceWrapupBoundaryForToolArcs target arcs (cx_lastCompartmentEndOrdinal ctx) in
    let reason := if negb (fenced =? target) then "manual-wrapup-tool-arc"%string else reason in
    let snapped :=
      snapWrapupBoundaryToUser messages index fenced offset (cx_triggerBudget ctx) in
    let reason := if negb (snapped =? fenced) then "manual-wrapup-user-snap"%string else reason in
    let refenced :=
      fenceWrapupBoundaryForToolArcs snapped arcs (cx_lastCompartmentEndOrdinal ctx) in
    let reason :=
      if negb (refenced =? snapped) then "manual-wrapup-tool-arc"%string else reason in
    (refenced, reason).

Definition resolveWrapupProtectedTailBoundary (ctx : ResolvedBoundaryContext)
    (store : boundary_store) (messagesToKeep : Z) (anchor : option Z) (cache : estimate_cache)
    : WrapupBoundaryPlan * estimate_cache :=
  let createdAt := default (bs_now store) (cx_createdAt ctx) in
  let messages := bs_messages store in
  let '(index, cache) := buildTrueRawTokenIndex messages (index_options ctx store) cache in
  let rawMessageCount := ti_rawMessageCount index in
  let offset := Z.max 1 (cx_lastCompartmentEndOrdinal ctx + 1) in
  let anchorRawMessageCount :=
    Z.max 0 (Z.min rawMessageCount (default rawMessageCount anchor)) in
  let above := Z.max 0 (anchorRawMessageCount - offset + 1) in
  let keep := Z.max 1 messagesToKeep in
  let '(target0, boundaryReason) :=
    wrapupTarget ctx index messages offset anchorRawMessageCount above keep in
  let targetProtectedTailStart := clampOrdinal target0 rawMessageCount in
  let target :=
    deriveProtectedTailTokenTarget (cx_contextLimit ctx) (cx_executeThresholdPercentage ctx)
      (usage_of ctx) (Some (cx_triggerBudget ctx)) in
  let perRunCap :=
    selectPerRunCap (usage_of ctx) (tt_N target) (cx_contextLimit ctx)
      (cx_executeThresholdPercentage ctx) in
  let '(headEnd, oversizeAtomicUnit) :=
    applyHeadCap index targetProtectedTailStart offset (buildToolArcs messages) perRunCap
      targetProtectedTailStart in
  let eligibleEndOrdinal := Z.min headEnd targetProtectedTailStart in
  ({| wp_snapshot :=
        {| sn_sessionId := cx_sessionId ctx; sn_mode := mode_manual_wrapup; sn_offset := offset;
           sn_offsetMessageId := boundaryMessageId index offset;
           sn_protectedTailStart := targetProtectedTailStart;
           sn_protectedTailStartMessageId := boundaryMessageId index targetProtectedTailStart;
           sn_eligibleEndOrdinal := eligibleEndOrdinal;
           sn_eligibleEndMessageId := boundaryMessageId index (eligibleEndOrdinal - 1);
           sn_rawMessageCountAtTrigger := rawMessageCount;
           sn_rawLastMessageIdAtTrigger := boundaryMessageId index rawMessageCount;
           sn_N := nofZ keep; sn_usagePercentage := usage_of ctx;
           sn_usageInputTokens := input_of ctx; sn_ctx := boundaryCtxFields ctx;
           sn_createdAt := createdAt;
           sn_rawRangeFingerprint := computeRawRangeFingerprint messages offset eligibleEndOrdinal;
           sn_trueRawEligibleTokens := rangeTokens index offset targetProtectedTailStart;
           sn_oversizeAtomicUnit := oversizeAtomicUnit; sn_boundaryReason := boundaryReason |};
      wp_rawMessagesAboveLastCompartment := above;
      wp_anchorRawMessageCount := anchorRawMessageCount;
      wp_targetProtectedTailStart := targetProtectedTailStart;
      wp_targetEligibleEndOrdinal := targetProtectedTailStart |}, cache).

(** ** Reading a snapshot *)

Definition hasProtectedEligibleHead (s : ProtectedTailBoundarySnapshot) : bool :=
  sn_offset s <? sn_protectedTailStart s.

Definition hasRunnableCompartmentWindow (s : ProtectedTailBoundarySnapshot) : bool :=
  if sn_protectedTailStart s <=? sn_offset s then false
  else
    let force := eb_forceMaterializationPercentage
                   (escalationBands (cf_executeThresholdPercentage (sn_ctx s))) in
    if nleb force (sn_usagePercentage s) ||
       match cf_emergencyTailScale (sn_ctx s) with Some _ => true | None => false end
    then tokens_ge (sn_trueRawEligibleTokens s) (deriveMinForceEligibleTokens (sn_N s)) ||
         (sn_offset s <? sn_eligibleEndOrdinal s)
    else sn_offset s <? sn_eligibleEndOrdinal s.

Inductive validation_result :=
| valid
| model_or_limit_changed
| stale_snapshot (detail : string).

Definition idAt (messages : list RawMessage) (ordinal : Z) : option string :=
  rm_id <$> last (filter (fun m => rm_ordinal m = ordinal) messages).

Definition option_str_eqb (a b : option string) : bool :=
  match a, b with
  | None, None => true
  | Some a, Some b => String.eqb a b
  | _, _ => false
  end.

(** The first check whose id differs. *)
Definition failed_check (messages : list RawMessage) (checks : list (Z * option string * string))
    : option string :=
  (fun '(_, _, label) => label) <$>
    head (filter (fun '(ordinal, expected, _) =>
                    option_str_eqb expected (idAt messages ordinal) = false) checks).

Definition validateBoundarySnapshot (s : ProtectedTailBoundarySnapshot)
    (currentContextLimit : option num) (messages : list RawMessage) (lastCompartmentEnd : Z)
    : validation_result :=
  let limit_changed :=
    match currentContextLimit with
    | Some l => negb (isNaN l || neqb l (nofZ 0)) && negb (neqb l (cf_contextLimit (sn_ctx s)))
    | None => false
    end in
  if limit_changed then model_or_limit_changed
  else
    let currentRawMessageCount :=
      foldl (fun m message => Z.max m (rm_ordinal message)) (lengthZ messages) messages in
    if currentRawMessageCount <? sn_rawMessageCountAtTrigger s
    then stale_snapshot "raw message count shrank"
    else
      let checks :=
        [(sn_offset s, sn_offsetMessageId s, "offset"%string);
         (sn_rawMessageCountAtTrigger s, sn_rawLastMessageIdAtTrigger s, "last"%string)] ++
        (if sn_protectedTailStart s <=? sn_rawMessageCountAtTrigger s
         then [(sn_protectedTailStart s, sn_protectedTailStartMessageId s,
                "protectedTailStart"%string)] else []) ++
        (if sn_offset s <? sn_eligibleEndOrdinal s
         then [(sn_eligibleEndOrdinal s - 1, sn_eligibleEndMessageId s, "eligibleEnd"%string)]
         else []) in
      match failed_check messages checks with
      | Some label => stale_snapshot label
      | None =>
          if negb (Z.max 1 (lastCompartmentEnd + 1) =? sn_offset s)
          then stale_snapshot "last compartment moved"
          else if negb (String.eqb (computeRawRangeFingerprint messages (sn_offset s)
                                      (sn_eligibleEndOrdinal s)) (sn_rawRangeFingerprint s))
          then stale_snapshot "raw range fingerprint changed"
          else valid
      end.

End resolve.

(** ** Lemmas: ids by ordinal *)

Lemma neqb_refl x : isNaN x = false → neqb x x = true.
Proof.
  unfold neqb, SpecFloat.SFeqb. destruct x as [s|s| |s m e]; cbn; try done; try by destruct s.
  rewrite pos_compare_cont, !Z.compare_refl. by destruct s.
Qed.

Section ids.
Context `{Engine} `{Tokenizer} (options : TrueRawTokenIndexBuildOptions).

(** The id map of the index holds the last message of each ordinal. *)
Lemma ids_loop first span ms st o :
  JsMap.get (foldl (index_step options first span) st ms).1.2 o =
  match last (filter (fun m => rm_ordinal m = o) ms) with
  | Some m => Some (rm_id m)
  | None => JsMap.get st.1.2 o
  end.
Proof.
  revert st. induction ms as [|m ms IH] using rev_ind; intros st; [done|].
  rewrite foldl_app, filter_app. cbn [foldl].
  destruct (foldl (index_step options first span) st ms) as [[[prefix tokens] ids] cache] eqn:E.
  specialize (IH st). rewrite E in IH. cbn [fst snd] in IH.
  unfold index_step. destruct (message_total options m cache) as [total cache'].
  cbn [fst snd]. rewrite filter_cons, filter_nil.
  destruct (decide (rm_ordinal m = o)) as [->|Hne].
  - by rewrite get_set_eq, last_snoc.
  - by rewrite get_set_ne, app_nil_r.
Qed.

Lemma filter_sorted_ordinal messages o :
  filter (fun m => rm_ordinal m = o) (js_sort ordinal_cmp messages) =
  filter (fun m => rm_ordinal m = o) messages.
Proof.
  rewrite js_sort_filter by (apply ordinal_cmp_total || apply ordinal_cmp_trans).
  apply js_sort_id. apply StronglySorted_all. intros a b Ha Hb.
  apply list_elem_of_filter in Ha as [? _]. apply list_elem_of_filter in Hb as [? _].
  unfold ordinal_cmp. lia.
Qed.

Lemma build_ids messages cache o :
  messageIdAtOrdinal (buildTrueRawTokenIndex messages options cache).1 o = idAt messages o.
Proof.
  unfold buildTrueRawTokenIndex, messageIdAtOrdinal, idAt.
  set (ordered := js_sort ordinal_cmp messages).
  set (first := match head ordered with Some m => _ | None => _ end).
  set (terminal := match last ordered with Some m => _ | None => _ end).
  set (span := if first <=? terminal then _ else _). clearbody span.
  pose proof (ids_loop first span ordered (replicate (Z.to_nat (span + 1)) 0, [], [], cache) o)
    as Hids.
  destruct (foldl _ _ ordered) as [[[prefix tokens] ids] cache']. cbn [fst snd] in *.
  cbn [ti_ids]. rewrite Hids. subst ordered. rewrite filter_sorted_ordinal.
  by destruct (last _).
Qed.

(** The count covers every ordinal, and is no more than what the session shows
    when the cached absolute count is not. *)
Definition shown_count (messages : list RawMessage) : Z :=
  foldl (fun m message => Z.max m (rm_ordinal message)) (lengthZ messages) messages.

Lemma foldl_max_spec (messages : list RawMessage) z :
  let r := foldl (fun m message => Z.max m (rm_ordinal message)) z messages in
  z ≤ r ∧ ∀ m, m ∈ messages → rm_ordinal m ≤ r.
Proof.
  revert z. induction messages as [|m ms IH]; intros z r; [split; [subst r; cbn; lia|by intros ? ?%elem_of_nil]|].
  destruct (IH (Z.max z (rm_ordinal m))) as [H1 H2]. subst r. cbn [foldl].
  split; [lia|]. intros x [->|Hx]%elem_of_cons; [lia|auto].
Qed.

Lemma build_count messages cache :
  let count := ti_rawMessageCount (buildTrueRawTokenIndex messages options cache).1 in
  (∀ m, m ∈ messages → rm_ordinal m ≤ count) ∧ 0 ≤ count ∧
  (match bo_absoluteMessageCount options with Some n => n ≤ shown_count messages | None => True end →
   count ≤ shown_count messages).
Proof.
  unfold buildTrueRawTokenIndex.
  set (ordered := js_sort ordinal_cmp messages).
  pose proof (js_sort_sorted _ ordinal_cmp_total ordinal_cmp_trans messages) as Hs.
  fold ordered in Hs. apply sorted_bounds in Hs.
  assert (lengthZ ordered = lengthZ messages) as Hlen.
  { unfold ordered, lengthZ. by rewrite (Permutation_length (js_sort_perm ordinal_cmp messages)). }
  set (first := match head ordered with Some m => _ | None => _ end).
  destruct (foldl _ _ ordered) as [[[prefix tokens] ids] cache']. cbn [fst snd].
  cbn [ti_rawMessageCount]. rewrite Hlen.
  destruct (foldl_max_spec messages (lengthZ messages)) as [H1 H2].
  fold (shown_count messages) in H1, H2. pose proof (lengthZ_nonneg messages).
  split; [|split; [lia|]].
  - intros m Hm. apply (js_sort_in ordinal_cmp) in Hm. fold ordered in Hm.
    eapply Forall_forall in Hs; [|exact Hm]. destruct (last ordered); [|destruct Hs; done]. lia.
  - intros Habs. apply Z.max_lub; [done|]. apply Z.max_lub.
    + destruct (last ordered) as [l|] eqn:El; [|lia].
      apply last_Some_elem_of in El. apply H2, (js_sort_in ordinal_cmp), El.
    + destruct (bo_absoluteMessageCount options); cbn; lia.
Qed.

Lemma boundaryMessageId_idAt messages cache o :
  (∀ m, m ∈ messages → 1 ≤ rm_ordinal m) →
  boundaryMessageId (buildTrueRawTokenIndex messages options cache).1 o = idAt messages o.
Proof.
  intros Hpos. destruct (build_count messages cache) as [Hc _].
  unfold boundaryMessageId. rewrite build_ids. case_match eqn:E; [|done].
  symmetry. unfold idAt.
  destruct (last (filter (fun m => rm_ordinal m = o) messages)) as [m|] eqn:El; [|done].
  exfalso. apply last_Some_elem_of, list_elem_of_filter in El as [<- Hm].
  specialize (Hpos m Hm). specialize (Hc m Hm). apply orb_true_iff in E as [?|?]; lia.
Qed.

End ids.

(** ** Lemmas: the head cap *)

Section head.
Context (index : TrueRawTokenIndex) (pts offset : Z) (cap : num) (cutoff : Z).

Lemma applyHeadCap_bounds arcs :
  let '(e, _) := applyHeadCap index pts offset arcs cap cutoff in
  offset ≤ e ≤ Z.max offset pts ∧ (pts ≤ offset → e = offset).
Proof.
  unfold applyHeadCap. destruct (pts <=? offset) eqn:E; [lia|].
  destruct (foldl _ _ arcs) as [e o].
  destruct ((e <=? offset) && (offset <? pts)) eqn:E'; [lia|].
  apply andb_false_iff in E' as [?|?]; lia.
Qed.

End head.

(** ** Lemmas: the wrap-up fence *)

Section wrapup_fence.
Context (arcs : list ToolArc) (lastEnd : Z).

(** A boundary that splits no completed arc past the last compartment. *)
Definition splits_no_new_arc (arcs : list ToolArc) (boundary : Z) : Prop :=
  ∀ arc res, arc ∈ arcs → a_res arc = Some res → lastEnd + 1 ≤ a_inv arc →
    completedToolArcCrossesBoundary (a_inv arc) res boundary = false.

Let pass_step := fun next arc =>
  match a_res arc with
  | None => next
  | Some res =>
      if (lastEnd + 1 <=? a_inv arc) && completedToolArcCrossesBoundary (a_inv arc) res next
      then a_inv arc else next
  end.

Lemma pass_le l next : foldl pass_step next l ≤ next.
Proof.
  revert next. induction l as [|arc l IH]; intros next; [cbn; lia|]. cbn [foldl].
  etransitivity; [apply IH|]. unfold pass_step, completedToolArcCrossesBoundary.
  repeat case_match; bool_hyps; lia.
Qed.

Lemma pass_moves l next :
  foldl pass_step next l = next ∨ ∃ arc, arc ∈ l ∧ foldl pass_step next l ≤ a_inv arc < next.
Proof.
  revert next. induction l as [|arc l IH]; intros next; [by left|]. cbn [foldl].
  assert (pass_step next arc = next ∨ pass_step next arc = a_inv arc ∧ a_inv arc < next) as Hstep.
  { unfold pass_step, completedToolArcCrossesBoundary. repeat case_match; bool_hyps; auto with lia. }
  destruct Hstep as [->|[-> Hlt]].
  - destruct (IH next) as [?|(a & ? & ?)]; [by left|right; exists a; split; [set_solver|done]].
  - right. exists arc. pose proof (pass_le l (a_inv arc)). split; [set_solver|lia].
Qed.

(** A pass that changes nothing met no split arc. *)
Lemma pass_fixed l next : foldl pass_step next l = next → splits_no_new_arc l next.
Proof.
  induction l as [|arc l IH]; [by intros _ ?? ?%elem_of_nil|]. cbn [foldl]. intros Hfix.
  pose proof (pass_le l (pass_step next arc)) as Hle.
  assert (pass_step next arc = next) as E.
  { unfold pass_step, completedToolArcCrossesBoundary in *. repeat case_match; bool_hyps; lia. }
  rewrite E in *. intros a res [->|Ha]%elem_of_cons Hres Hnew; [|by eapply IH].
  unfold pass_step in E. rewrite Hres in E. rewrite (proj2 (Z.leb_le _ _)) in E by lia.
  cbn [andb] in E. case_match eqn:Hc; [|done].
  unfold completedToolArcCrossesBoundary in Hc. bool_hyps. lia.
Qed.

(** No pass jumps below a boundary that splits nothing. *)
Lemma pass_keeps l next b :
  splits_no_new_arc l b → b ≤ next → b ≤ foldl pass_step next l.
Proof.
  revert next. induction l as [|arc l IH]; intros next Hb Hle; [done|]. cbn [foldl].
  apply IH; [intros a res Ha; apply Hb; set_solver|].
  unfold pass_step. destruct (a_res arc) as [res|] eqn:Hres; [|done]. case_match eqn:Hc; [|done].
  bool_hyps. specialize (Hb arc res ltac:(set_solver) Hres ltac:(lia)).
  unfold completedToolArcCrossesBoundary in *. bool_hyps. apply andb_false_iff in Hb as [?|?]; lia.
Qed.

(** How many arcs start below the boundary: every moving pass lowers it. *)
Definition below (boundary : Z) : nat := length (filter (fun a => a_inv a < boundary) arcs).

Lemma below_decreases b b' : b' < b → (∃ a, a ∈ arcs ∧ b' ≤ a_inv a < b) → (below b' < below b)%nat.
Proof.
  intros Hlt (a & Ha & Hb). unfold below. clear pass_step. induction arcs as [|x l IH].
  { by apply elem_of_nil in Ha. }
  assert (length (filter (fun a => (a_inv a < b')%Z) l) ≤
          length (filter (fun a => (a_inv a < b)%Z) l))%nat
    as Hmono.
  { clear -Hlt. induction l as [|x l IH]; [done|]. rewrite !filter_cons.
    repeat case_decide; cbn; lia. }
  rewrite !filter_cons. apply elem_of_cons in Ha as [<-|Ha].
  - rewrite (decide_False (P := a_inv a < b')) by lia. rewrite decide_True by lia. cbn. lia.
  - specialize (IH Ha). repeat case_decide; cbn; lia.
Qed.

Lemma passes_spec fuel boundary :
  (below boundary < fuel)%nat →
  let r := wrapup_passes fuel arcs lastEnd boundary in
  r ≤ boundary ∧ splits_no_new_arc arcs r ∧
  ∀ b, splits_no_new_arc arcs b → b ≤ boundary → b ≤ r.
Proof.
  revert boundary. induction fuel as [|fuel IH]; intros boundary Hf r; [lia|].
  subst r. cbn [wrapup_passes]. set (next := wrapup_pass arcs lastEnd boundary).
  change (wrapup_pass arcs lastEnd boundary) with (foldl pass_step boundary arcs) in next.
  destruct (next =? boundary) eqn:E.
  - apply Z.eqb_eq in E. split; [lia|]. split; [by apply pass_fixed|]. auto.
  - destruct (pass_moves arcs boundary) as [?|(a & Ha & Hb)]; [lia|].
    destruct (IH next) as (Hle & Hs & Hmax).
    { assert (below next < below boundary)%nat; [|lia].
      apply below_decreases; [subst next; lia|by exists a]. }
    split; [lia|]. split; [done|]. intros b Hbs Hbb. apply Hmax; [done|]. by apply pass_keeps.
Qed.

End wrapup_fence.

(** ** Lemmas: validation *)

Section validation.
Context `{Engine} `{Tokenizer}.

Lemma option_str_eqb_refl o : option_str_eqb o o = true.
Proof. destruct o; cbn; [apply String.eqb_refl|done]. Qed.

(** A snapshot whose recorded ids are those of the session passes. *)
Lemma validate_ok s limit messages lastEnd :
  match limit with Some l => isNaN l = true ∨ l = cf_contextLimit (sn_ctx s) | None => True end →
  sn_rawMessageCountAtTrigger s ≤ shown_count messages →
  sn_offsetMessageId s = idAt messages (sn_offset s) →
  sn_rawLastMessageIdAtTrigger s = idAt messages (sn_rawMessageCountAtTrigger s) →
  (sn_protectedTailStart s ≤ sn_rawMessageCountAtTrigger s →
   sn_protectedTailStartMessageId s = idAt messages (sn_protectedTailStart s)) →
  (sn_offset s < sn_eligibleEndOrdinal s →
   sn_eligibleEndMessageId s = idAt messages (sn_eligibleEndOrdinal s - 1)) →
  sn_offset s = Z.max 1 (lastEnd + 1) →
  sn_rawRangeFingerprint s =
    computeRawRangeFingerprint messages (sn_offset s) (sn_eligibleEndOrdinal s) →
  validateBoundarySnapshot s limit messages lastEnd = valid.
Proof.
  intros Hlim Hcount Hoff Hlast Hpts Hend Ho Hfp. unfold validateBoundarySnapshot.
  match goal with |- context [if ?b then model_or_limit_changed else _] => assert (b = false) as -> end.
  { destruct limit as [l|]; [|done]. destruct (isNaN l) eqn:En; [done|].
    destruct Hlim as [?|<-]; [done|]. rewrite neqb_refl by done. apply andb_false_r. }
  fold (shown_count messages). rewrite (proj2 (Z.ltb_ge _ _)) by lia.
  match goal with |- context [failed_check messages ?c] => assert (failed_check messages c = None) as -> end.
  { unfold failed_check.
    match goal with |- context [head (filter ?P ?l)] => assert (filter P l = []) as -> end; [|done].
    apply filter_none. intros [[o e] lbl] Hin. apply not_false_iff_true.
    assert (e = idAt messages o) as ->; [|by rewrite option_str_eqb_refl].
    apply elem_of_app in Hin as [Hin|Hin].
    - repeat (apply elem_of_cons in Hin as [[= -> -> _]|Hin]; [done|]). by apply elem_of_nil in Hin.
    - apply elem_of_app in Hin as [Hin|Hin].
      + case_match eqn:E; [|by apply elem_of_nil in Hin].
        apply list_elem_of_singleton in Hin as [= -> -> _]. apply Hpts. lia.
      + case_match eqn:E; [|by apply elem_of_nil in Hin].
        apply list_elem_of_singleton in Hin as [= -> -> _]. apply Hend. lia. }
  rewrite (proj2 (Z.eqb_eq _ _)) by lia. cbn [negb].
  by rewrite Hfp, String.eqb_refl.
Qed.

(** The fields of a live snapshot that the validation reads. *)
Lemma live_fields ctx index messages offset createdAt :
  let s := liveSnapshot ctx index messages offset createdAt in
  sn_offset s = offset ∧ sn_ctx s = boundaryCtxFields ctx ∧
  sn_offsetMessageId s = boundaryMessageId index offset ∧
  sn_protectedTailStartMessageId s = boundaryMessageId index (sn_protectedTailStart s) ∧
  sn_eligibleEndMessageId s = boundaryMessageId index (sn_eligibleEndOrdinal s - 1) ∧
  sn_rawMessageCountAtTrigger s = ti_rawMessageCount index ∧
  sn_rawLastMessageIdAtTrigger s = boundaryMessageId index (ti_rawMessageCount index) ∧
  sn_rawRangeFingerprint s = computeRawRangeFingerprint messages offset (sn_eligibleEndOrdinal s) ∧
  1 ≤ sn_protectedTailStart s ≤ Z.max 1 (ti_rawMessageCount index + 1) ∧
  offset ≤ sn_eligibleEndOrdinal s ≤ Z.max offset (sn_protectedTailStart s) ∧
  sn_trueRawEligibleTokens s = rangeTokens index offset (sn_protectedTailStart s).
Proof.
  cbv zeta. unfold liveSnapshot.
  destruct (sizeWalk _ _ _ _ _) as [[boundary cutoff] reason].
  set (pts := floorBoundary ctx index messages offset boundary).
  set (cap := selectPerRunCap _ _ _ _).
  pose proof (applyHeadCap_bounds index pts offset cap cutoff (buildToolArcs messages)) as Hcap.
  destruct (applyHeadCap _ _ _ _ _ _) as [e o]. destruct Hcap as [Hcap _].
  cbn [sn_offset sn_ctx sn_offsetMessageId sn_protectedTailStartMessageId sn_protectedTailStart
    sn_eligibleEndMessageId sn_eligibleEndOrdinal sn_rawMessageCountAtTrigger
    sn_rawLastMessageIdAtTrigger sn_rawRangeFingerprint sn_trueRawEligibleTokens].
  assert (1 ≤ pts ≤ Z.max 1 (ti_rawMessageCount index + 1)) as Hpts.
  { subst pts. unfold floorBoundary. cbv zeta. generalize (ti_rawMessageCount index).
    unfold clampOrdinal. intros n. match goal with |- _ ≤ Z.max 1 (Z.min _ ?x) ≤ _ => generalize x end.
    lia. }
  split_and!; try done; lia.
Qed.

End validation.

(** ** Properties *)

(** A live snapshot's ordinals are in order, whatever the session and the
    numbers in the context: the protected tail starts between 1 and one past
    the last message, the eligible end lies between the offset and the tail,
    and a snapshot with a runnable window has a non-empty head before the
    tail. *)
Theorem live_snapshot_ordered `{Engine} `{Tokenizer} ctx store cache :
  cx_mode ctx ≠ mode_manual_full_recomp →
  let s := (resolveProtectedTailBoundary ctx store cache).1 in
  1 ≤ sn_protectedTailStart s ≤ sn_rawMessageCountAtTrigger s + 1 ∧
  1 ≤ sn_offset s ∧
  (sn_rawMessageCountAtTrigger s = 0 ∨
   sn_offset s ≤ sn_eligibleEndOrdinal s ≤ Z.max (sn_offset s) (sn_protectedTailStart s)) ∧
  (hasRunnableCompartmentWindow s = true →
   hasProtectedEligibleHead s = true ∧ sn_offset s ≤ sn_rawMessageCountAtTrigger s).
Proof.
  intros Hmode s. subst s. unfold resolveProtectedTailBoundary.
  pose proof (build_count (index_options ctx store) (bs_messages store) cache) as (_ & Hpos & _).
  destruct (buildTrueRawTokenIndex _ _ _) as [index cache']. cbn [fst] in *.
  set (offset := Z.max 1 (cx_lastCompartmentEndOrdinal ctx + 1)).
  assert (∀ s, (hasRunnableCompartmentWindow s = true → sn_offset s < sn_protectedTailStart s)) as Hrun.
  { intros s. unfold hasRunnableCompartmentWindow. case_match eqn:E; [done|]. lia. }
  destruct (ti_rawMessageCount index =? 0) eqn:E0.
  - cbn. split; [lia|]. split; [lia|]. split; [by left|]. intros Hr%Hrun. cbn in Hr. lia.
  - set (s := match cx_mode ctx with mode_manual_full_recomp => _ | _ => _ end).
    assert (s = liveSnapshot ctx index (bs_messages store) offset
                  (default (bs_now store) (cx_createdAt ctx))) as -> by (subst s; by destruct (cx_mode ctx)).
    destruct (live_fields ctx index (bs_messages store) offset
                (default (bs_now store) (cx_createdAt ctx)))
      as (Ho & _ & _ & _ & _ & Hc & _ & _ & Hp & He & _).
    set (s' := liveSnapshot _ _ _ _ _) in *. rewrite Ho, Hc.
    split; [lia|]. split; [lia|]. split; [right; lia|].
    intros Hr%Hrun. unfold hasProtectedEligibleHead. rewrite Ho in Hr |- *. lia.
Qed.

(** A snapshot validates against the very session it was resolved from,
    as long as the context limit, the last compartment and the messages have
    not changed and the cached message count does not exceed what the session
    shows: resolution and validation agree on ids, counts and fingerprints. *)
Theorem fresh_snapshot_validates `{Engine} `{Tokenizer} ctx store cache limit :
  cx_mode ctx ≠ mode_manual_full_recomp →
  (∀ m, m ∈ bs_messages store → 1 ≤ rm_ordinal m) →
  match bs_absoluteMessageCount store with
  | Some n => n ≤ shown_count (bs_messages store)
  | None => True
  end →
  match limit with Some l => l = cx_contextLimit ctx | None => True end →
  validateBoundarySnapshot (resolveProtectedTailBoundary ctx store cache).1 limit
    (bs_messages store) (cx_lastCompartmentEndOrdinal ctx) = valid.
Proof.
  intros Hmode Hord Habs Hlim. unfold resolveProtectedTailBoundary.
  set (options := index_options ctx store).
  destruct (build_count options (bs_messages store) cache) as (Hmax & Hpos & Hshown).
  specialize (Hshown Habs).
  pose proof (boundaryMessageId_idAt options (bs_messages store) cache) as Hid.
  destruct (buildTrueRawTokenIndex _ _ _) as [index cache'] eqn:Eix. cbn [fst] in *.
  set (offset := Z.max 1 (cx_lastCompartmentEndOrdinal ctx + 1)).
  assert (match limit with
          | Some l => isNaN l = true ∨ l = cf_contextLimit (boundaryCtxFields ctx)
          | None => True
          end) as Hlim' by (destruct limit; [by right|done]).
  destruct (ti_rawMessageCount index =? 0) eqn:E0.
  - assert (bs_messages store = []) as Hnil.
    { destruct (bs_messages store) as [|m ms]; [done|].
      specialize (Hord m ltac:(set_solver)). specialize (Hmax m ltac:(set_solver)). lia. }
    rewrite Hnil. apply validate_ok; cbn [emptySessionSnapshot sn_ctx sn_rawMessageCountAtTrigger
      sn_offset sn_offsetMessageId sn_rawLastMessageIdAtTrigger sn_protectedTailStart
      sn_protectedTailStartMessageId sn_eligibleEndOrdinal sn_eligibleEndMessageId
      sn_rawRangeFingerprint]; done.
  - set (s := match cx_mode ctx with mode_manual_full_recomp => _ | _ => _ end).
    assert (s = liveSnapshot ctx index (bs_messages store) offset
                  (default (bs_now store) (cx_createdAt ctx))) as -> by (subst s; by destruct (cx_mode ctx)).
    destruct (live_fields ctx index (bs_messages store) offset
                (default (bs_now store) (cx_createdAt ctx)))
      as (Ho & Hctx & Hoid & Hpid & Heid & Hc & Hlid & Hfp & Hp & He & _).
    set (s' := liveSnapshot _ _ _ _ _) in *.
    apply validate_ok.
    + by rewrite Hctx.
    + by rewrite Hc.
    + rewrite Hoid, Ho. by apply Hid.
    + rewrite Hlid, Hc. by apply Hid.
    + intros _. rewrite Hpid. by apply Hid.
    + intros _. rewrite Heid. by apply Hid.
    + done.
    + by rewrite Ho, Hfp.
Qed.

(** Whatever the limits and the usage, NaN and infinities included, the
    protected tail's token target is either not a number, because the ceiling
    or the raw target is not, or between 1 and the ceiling, the ceiling itself
    at most 96000 tokens, and at least the effective floor. *)
Theorem tail_target_bounds contextLimit threshold usage budget :
  let t := deriveProtectedTailTokenTarget contextLimit threshold usage budget in
  isNaN (tt_N t) = isNaN (tt_ceilingN t) || isNaN (tt_floorN t) || isNaN (tt_rawN t) ∧
  (isNaN (tt_N t) = false →
   nle (nofZ 1) (tt_effectiveFloor t) ∧ nle (tt_effectiveFloor t) (tt_N t) ∧
   nle (tt_N t) (tt_ceilingN t) ∧ nle (tt_ceilingN t) (nofZ 96000)).
Proof.
  intros t. subst t. unfold deriveProtectedTailTokenTarget. cbv zeta.
  set (usable := nmax (nofZ 1) _). set (reserve := nmax RESERVED_HEADROOM_MIN _).
  set (budget' := match budget with Some b => b | None => _ end).
  set (headroom := nmin (nadd budget' reserve) _).
  set (rawN := nround _).
  set (share := nfloor (nmul usable MAX_USABLE_RATIO)). set (left := nsub usable headroom).
  set (floored := nround (nmul usable FLOOR_RATIO)).
  cbn [tt_N tt_ceilingN tt_floorN tt_rawN tt_effectiveFloor].
  clearbody rawN share left floored. clear.
  repeat (rewrite nmin_nan || rewrite nmax_nan).
  change (isNaN (nofZ 1)) with false. change (isNaN ABS_CAP) with false.
  change (isNaN FLOOR_MAX) with false. change (isNaN FLOOR_MIN) with false. cbn [orb].
  split; [by destruct (isNaN share), (isNaN left), (isNaN floored), (isNaN rawN)|].
  intros Hn.
  destruct (isNaN share) eqn:Es; [done|]. destruct (isNaN left) eqn:El; [done|].
  destruct (isNaN floored) eqn:Ef; [done|]. destruct (isNaN rawN) eqn:Er; [done|]. clear Hn.
  set (ceilingN := nmax (nofZ 1) (nmin (nmin ABS_CAP share) left)).
  assert (isNaN (nmin (nmin ABS_CAP share) left) = false) as Hc0.
  { by rewrite !nmin_nan, Es, El. }
  assert (isNaN ceilingN = false) as Hc by (unfold ceilingN; by rewrite nmax_nan, Hc0).
  set (floorN := nmin FLOOR_MAX (nmax FLOOR_MIN floored)).
  assert (isNaN (nmax FLOOR_MIN floored) = false) as Hf0 by (by rewrite nmax_nan, Ef).
  assert (isNaN floorN = false) as Hf by (unfold floorN; by rewrite nmin_nan, Hf0).
  assert (isNaN (nmin floorN ceilingN) = false) as He by (by rewrite nmin_nan, Hf, Hc).
  assert (isNaN (nmax (nmin floorN ceilingN) rawN) = false) as Hm by (by rewrite nmax_nan, He, Er).
  assert (nle (nofZ 1) ceilingN) by (apply nmax_l; done).
  assert (nle (nofZ 1) floorN).
  { apply nmin_glb; [nle_const|]. eapply nle_trans; [|by apply nmax_l]. nle_const. }
  split; [by apply nmin_glb|]. split; [|split].
  - apply nmin_glb; [by apply nmin_r|by apply nmax_l].
  - by apply nmin_l.
  - apply nmax_lub; [nle_const|]. eapply nle_trans; [by apply nmin_l; rewrite ?nmin_nan, ?Es|].
    by apply nmin_l.
Qed.

(** C33: the wrap-up fence reaches a fixed point within its pass bound: it
    returns the greatest boundary at or below the watermark that splits no
    completed arc beyond the last compartment. *)
Theorem wrapup_fence_greatest candidate arcs lastEnd :
  let r := fenceWrapupBoundaryForToolArcs candidate arcs lastEnd in
  r ≤ candidate ∧ splits_no_new_arc lastEnd arcs r ∧
  (∀ b, splits_no_new_arc lastEnd arcs b → b ≤ candidate → b ≤ r).
Proof.
  apply passes_spec. unfold below.
  pose proof (length_filter (fun a => a_inv a < candidate) arcs). lia.
Qed.

(** ** Witnesses *)

Definition sample_context : ResolvedBoundaryContext :=
  {| cx_sessionId := "s"; cx_mode := mode_trigger; cx_contextLimit := nofZ 20000;
     cx_executeThresholdPercentage := nofZ 65; cx_triggerBudget := nofZ 5000;
     cx_usage := Some {| u_percentage := nofZ 90; u_inputTokens := nofZ 18000 |};
     cx_usageSource := us_live; cx_lastCompartmentEndOrdinal := 0;
     cx_priorBoundaryOrdinal := 1; cx_migrationFloorActive := false;
     cx_emergencyTailScale := None; cx_providerShapeVersion := "opencode-v1";
     cx_cacheNamespace := "ns"; cx_createdAt := None;
     cx_storedTokenTotals := Some [("a", 3000); ("b", 4000); ("c", 2500)]%string |}.

Definition user_msg (ordinal : Z) (id text : string) : RawMessage :=
  {| rm_ordinal := ordinal; rm_id := id; rm_role := "user";
     rm_parts := [VObj [("type", VStr "text"); ("text", VStr text)]%string] |}.

Definition sample_store : boundary_store :=
  {| bs_messages := [user_msg 1 "a" "start"; user_msg 2 "b" "go on"; user_msg 3 "c" "now"];
     bs_absoluteMessageCount := None; bs_now := nofZ 1 |}.

Definition sample_snapshot : ProtectedTailBoundarySnapshot :=
  (resolveProtectedTailBoundary sample_context sample_store empty_cache).1.

Lemma live_snapshot_ordered_witness :
  sn_protectedTailStart sample_snapshot = 3 ∧ sn_eligibleEndOrdinal sample_snapshot = 2 ∧
  hasProtectedEligibleHead sample_snapshot = true.
Proof.
  destruct (live_snapshot_ordered sample_context sample_store empty_cache) as (_ & _ & _ & H).
  - discriminate.
  - split; [vm_compute; reflexivity|]. split; [vm_compute; reflexivity|].
    apply H. vm_compute. reflexivity.
Defined.

Lemma fresh_snapshot_validates_witness :
  validateBoundarySnapshot sample_snapshot (Some (nofZ 20000)) (bs_messages sample_store) 0 = valid ∧
  validateBoundarySnapshot sample_snapshot (Some (nofZ 20000)) [user_msg 1 "a" "start"] 0
    = stale_snapshot "raw message count shrank".
Proof.
  split; [|vm_compute; reflexivity].
  apply (fresh_snapshot_validates sample_context sample_store empty_cache (Some (nofZ 20000))).
  - discriminate.
  - intros m Hm. cbn in Hm.
    repeat (apply elem_of_cons in Hm as [->|Hm]; [discriminate|]). by apply elem_of_nil in Hm.
  - exact I.
  - reflexivity.
Defined.
