(* ===== verification/HistorianValidation.v ===== *)
(** * Validation of historian output

    Models packages/plugin/src/hooks/magic-context/compartment-runner-validation.ts
    and the mapping of packages/plugin/src/hooks/magic-context/
    compartment-runner-mapping.ts: gaps between compartments are healed where a
    tool-only range covers them, the last compartment is extended over
    completed tool arcs, compartments are mapped to session lines, and the
    ranges are checked to tile the chunk.

    The parsed output is the input of the model (CompartmentParser reads it from a
    text); its facts, events and candidates pass through unread and their types are
    parameters.  Functions
    that mutate the compartments in place return the new list. *)

From S2P Require Import Prelude JsNumber JsMap JsValue JsString TokenEstimate SessionText.

Record ordinal_range := { rg_start : Z; rg_end : Z }.

Record ParsedCompartment := {
  pc_startMessage : Z;
  pc_endMessage : Z;
  pc_title : string;
  pc_content : string;
  pc_p1 : option string;
  pc_p2 : option string;
  pc_p3 : option string;
  pc_p4 : option string;
  pc_importance : option num;
  pc_episodeType : option string
}.

Definition set_end (c : ParsedCompartment) (e : Z) : ParsedCompartment :=
  {| pc_startMessage := pc_startMessage c; pc_endMessage := e; pc_title := pc_title c;
     pc_content := pc_content c; pc_p1 := pc_p1 c; pc_p2 := pc_p2 c; pc_p3 := pc_p3 c;
     pc_p4 := pc_p4 c; pc_importance := pc_importance c; pc_episodeType := pc_episodeType c |}.

Record HistorianValidationChunk := {
  ck_startIndex : Z;
  ck_endIndex : Z;
  ck_lines : list SessionChunkLine;
  ck_toolOnlyRanges : list ordinal_range;
  ck_completedToolArcs : list ordinal_range
}.

(** ** Healing *)

Definition healed (toolOnlyRanges : list ordinal_range) (prev curr : ParsedCompartment)
    : ParsedCompartment :=
  let gapStart := pc_endMessage prev + 1 in
  let gapEnd := pc_startMessage curr - 1 in
  let gapSize := gapEnd - gapStart + 1 in
  if gapSize <=? 0 then prev
  else if existsb (fun range => (rg_start range <=? gapStart) && (gapEnd <=? rg_end range))
            toolOnlyRanges
  then set_end prev gapEnd else prev.

Fixpoint healCompartmentGaps (compartments : list ParsedCompartment)
    (toolOnlyRanges : list ordinal_range) : list ParsedCompartment :=
  match compartments with
  | [] => []
  | prev :: rest =>
      match rest with
      | [] => [prev]
      | curr :: _ => healed toolOnlyRanges prev curr :: healCompartmentGaps rest toolOnlyRanges
      end
  end.

Definition boundarySplitsCompletedToolArc (boundary : Z) (arcs : list ordinal_range) : bool :=
  existsb (fun arc => completedToolArcCrossesBoundary (rg_start arc) (rg_end arc) boundary) arcs.

(** One pass of the terminal healing: the boundary is read once. *)
Definition terminal_pass (arcs : list ordinal_range) (chunkEnd lastEnd : Z) : Z :=
  let boundary := lastEnd + 1 in
  foldl (fun nextEnd arc =>
    if (rg_end arc <=? chunkEnd) &&
       completedToolArcCrossesBoundary (rg_start arc) (rg_end arc) boundary
    then Z.max nextEnd (rg_end arc) else nextEnd) lastEnd arcs.

Fixpoint terminal_passes (fuel : nat) (arcs : list ordinal_range) (chunkEnd lastEnd : Z) : Z :=
  match fuel with
  | O => lastEnd
  | S fuel =>
      let nextEnd := terminal_pass arcs chunkEnd lastEnd in
      if nextEnd =? lastEnd then lastEnd else terminal_passes fuel arcs chunkEnd nextEnd
  end.

Definition set_last_end (compartments : list ParsedCompartment) (e : Z) : list ParsedCompartment :=
  match last compartments with
  | None => compartments
  | Some c => removelast compartments ++ [set_end c e]
  end.

Definition healTerminalCompletedToolArc (compartments : list ParsedCompartment)
    (unprocessedFrom : option Z) (arcs : list ordinal_range) (chunkEnd : Z)
    : list ParsedCompartment * option Z :=
  match last compartments with
  | None => (compartments, unprocessedFrom)
  | Some c =>
      let originalEnd := pc_endMessage c in
      let lastEnd := terminal_passes (length arcs + 1) arcs chunkEnd originalEnd in
      (set_last_end compartments lastEnd,
       match unprocessedFrom with
       | Some _ => if negb (lastEnd =? originalEnd) then Some (lastEnd + 1) else unprocessedFrom
       | None => None
       end)
  end.

Definition HISTORIAN_BOUNDARY_HEALING_SLACK : Z := 2.

Definition shouldDiscardLastHistorianCompartment (compartments : list ParsedCompartment)
    (chunkEnd : Z) (completedToolArcs : list ordinal_range) : bool :=
  match rev compartments with
  | last :: previous :: _ =>
      (chunkEnd - pc_endMessage last <=? HISTORIAN_BOUNDARY_HEALING_SLACK) &&
      negb (boundarySplitsCompletedToolArc (pc_endMessage previous + 1) completedToolArcs)
  | _ => false
  end.

(** ** Mapping *)

Record CandidateCompartment := {
  cc_sequence : Z;
  cc_startMessageId : string;
  cc_endMessageId : string;
  cc_compartment : ParsedCompartment
}.

Definition line_at (lines : list SessionChunkLine) (ordinal : Z) : option SessionChunkLine :=
  head (filter (fun line => scl_ordinal line = ordinal) lines).

Inductive validation_error :=
| no_usable_compartments
| does_not_map (s e : Z)
| missing_tiers (index : Z)
| invalid_range (s e : Z)
| outside_chunk (s e : Z)
| overlap_before (expected s e : Z)
| gap_before (s expected : Z)
| unprocessed_outside (u : Z)
| unprocessed_mismatch (u expected : Z)
| uncovered (expected : Z)
| terminal_splits_arc
| omits_raw_message (expected : Z)
| coverage_ends_at (last : Z).

Fixpoint mapParsedCompartmentsToChunk (compartments : list ParsedCompartment)
    (lines : list SessionChunkLine) (sequence : Z)
    : result validation_error (list CandidateCompartment) :=
  match compartments with
  | [] => Ok []
  | c :: compartments =>
      match line_at lines (pc_startMessage c), line_at lines (pc_endMessage c) with
      | Some startLine, Some endLine =>
          rest ← mapParsedCompartmentsToChunk compartments lines (sequence + 1);
          mret ({| cc_sequence := sequence; cc_startMessageId := scl_messageId startLine;
                   cc_endMessageId := scl_messageId endLine; cc_compartment := c |} :: rest)
      | _, _ => Err (does_not_map (pc_startMessage c) (pc_endMessage c))
      end
  end.

(** ** Range checks *)

(** [!compartment.p1?.trim()]. *)
Definition missing_p1 (c : ParsedCompartment) : bool :=
  match pc_p1 c with Some p1 => String.eqb (trim p1) "" | None => true end.

(** The loop of [validateParsedCompartments]: the next expected start. *)
Fixpoint check_compartments (compartments : list ParsedCompartment)
    (index expectedStart chunkStart chunkEnd : Z) : result validation_error Z :=
  match compartments with
  | [] => Ok expectedStart
  | c :: compartments =>
      let s := pc_startMessage c in
      let e := pc_endMessage c in
      throw_if (missing_p1 c) (missing_tiers (index + 1));;
      throw_if (e <? s) (invalid_range s e);;
      throw_if ((s <? chunkStart) || (chunkEnd <? e)) (outside_chunk s e);;
      throw_if (negb (s =? expectedStart))
        (if s <? expectedStart then overlap_before expectedStart s e
         else gap_before s expectedStart);;
      check_compartments compartments (index + 1) (e + 1) chunkStart chunkEnd
  end.

(** [None] is the [null] of a valid output. *)
Definition validateParsedCompartments (compartments : list ParsedCompartment)
    (chunkStart chunkEnd : Z) (unprocessedFrom : option Z) : option validation_error :=
  match check_compartments compartments 0 chunkStart chunkStart chunkEnd with
  | Err e => Some e
  | Ok expectedStart =>
      match unprocessedFrom with
      | Some u =>
          if u =? chunkEnd + 1 then None
          else if (u <? chunkStart) || (chunkEnd <? u) then Some (unprocessed_outside u)
          else if negb (u =? expectedStart) then Some (unprocessed_mismatch u expectedStart)
          else None
      | None => if expectedStart <=? chunkEnd then Some (uncovered expectedStart) else None
      end
  end.

Fixpoint check_stored (compartments : list (Z * Z)) (expectedStart : Z) : option validation_error :=
  match compartments with
  | [] => None
  | (s, e) :: compartments =>
      if negb (s =? expectedStart) then
        Some (if s <? expectedStart then overlap_before expectedStart s e
              else gap_before s expectedStart)
      else if e <? s then Some (invalid_range s e)
      else check_stored compartments (e + 1)
  end.

Definition validateStoredCompartments (compartments : list (Z * Z)) : option validation_error :=
  check_stored compartments 1.

Fixpoint check_lines (lines : list SessionChunkLine) (expectedOrdinal : Z)
    : result validation_error Z :=
  match lines with
  | [] => Ok expectedOrdinal
  | line :: lines =>
      throw_if (negb (scl_ordinal line =? expectedOrdinal)) (omits_raw_message expectedOrdinal);;
      check_lines lines (expectedOrdinal + 1)
  end.

Definition validateChunkCoverage (startIndex endIndex : Z) (lines : list SessionChunkLine)
    : option validation_error :=
  match lines with
  | [] => None
  | _ =>
      match check_lines lines startIndex with
      | Err e => Some e
      | Ok expectedOrdinal =>
          if negb (expectedOrdinal - 1 =? endIndex)
          then Some (coverage_ends_at (expectedOrdinal - 1)) else None
      end
  end.

Definition MIN_RECOMP_CHUNK_TOKEN_BUDGET : Z := 20.

Definition getReducedRecompTokenBudget (currentBudget : Z) : option Z :=
  let reducedBudget := Z.max MIN_RECOMP_CHUNK_TOKEN_BUDGET (currentBudget / 2) in
  if reducedBudget <? currentBudget then Some reducedBudget else None.

(** ** The whole validation *)

Section validate.
Context {Fact Event Primer : Type}.

Record ParsedCompartmentOutput := {
  po_compartments : list ParsedCompartment;
  po_facts : list Fact;
  po_events : list Event;
  po_unprocessedFrom : option Z;
  po_userObservations : list string;
  po_primerCandidates : list Primer
}.

Record ValidatedHistorianPass := {
  vp_compartments : list CandidateCompartment;
  vp_facts : list Fact;
  vp_userObservations : option (list string);
  vp_primerCandidates : option (list Primer);
  vp_events : option (list Event)
}.

Definition non_empty {A} (l : list A) : option (list A) :=
  match l with [] => None | _ => Some l end.

Definition healOutput (parsed : ParsedCompartmentOutput) (chunk : HistorianValidationChunk)
    : list ParsedCompartment * option Z :=
  healTerminalCompletedToolArc
    (healCompartmentGaps (po_compartments parsed) (ck_toolOnlyRanges chunk))
    (po_unprocessedFrom parsed) (ck_completedToolArcs chunk) (ck_endIndex chunk).

Definition validateHistorianOutput (parsed : ParsedCompartmentOutput)
    (chunk : HistorianValidationChunk) (sequenceOffset : Z)
    : result validation_error ValidatedHistorianPass :=
  match po_compartments parsed with
  | [] => Err no_usable_compartments
  | _ =>
      let '(compartments, unprocessedFrom) := healOutput parsed chunk in
      mapped ← mapParsedCompartmentsToChunk compartments (ck_lines chunk) sequenceOffset;
      match validateParsedCompartments compartments (ck_startIndex chunk) (ck_endIndex chunk)
              unprocessedFrom with
      | Some e => Err e
      | None =>
          throw_if
            (match last compartments with
             | Some c => boundarySplitsCompletedToolArc (pc_endMessage c + 1)
                           (ck_completedToolArcs chunk)
             | None => false
             end) terminal_splits_arc;;
          mret {| vp_compartments := mapped;
                  vp_facts := po_facts parsed;
                  vp_userObservations := non_empty (po_userObservations parsed);
                  vp_primerCandidates := take 1 <$> non_empty (po_primerCandidates parsed);
                  vp_events := non_empty (po_events parsed) |}
      end
  end.

End validate.
Arguments ParsedCompartmentOutput : clear implicits.
Arguments ValidatedHistorianPass : clear implicits.

(** ** Specification *)

(** The ranges follow each other without gap or overlap: from [s], and the next
    free ordinal is [e]. *)
Inductive tiles : Z → list (Z * Z) → Z → Prop :=
| tiles_nil s : tiles s [] s
| tiles_cons s e rest n : s ≤ e → tiles (e + 1) rest n → tiles s ((s, e) :: rest) n.

Definition range_of (c : ParsedCompartment) : Z * Z := (pc_startMessage c, pc_endMessage c).

(** The unprocessed marker admits the next free ordinal. *)
Definition marker_ok (chunkStart chunkEnd next : Z) (unprocessedFrom : option Z) : Prop :=
  match unprocessedFrom with
  | Some u => u = chunkEnd + 1 ∨ (chunkStart ≤ u ≤ chunkEnd ∧ u = next)
  | None => chunkEnd < next
  end.

(** A terminal boundary after [e] splits no arc that ends within the chunk. *)
Definition terminal_safe (arcs : list ordinal_range) (chunkEnd e : Z) : Prop :=
  ∀ arc, arc ∈ arcs → rg_end arc ≤ chunkEnd →
    completedToolArcCrossesBoundary (rg_start arc) (rg_end arc) (e + 1) = false.

(** ** Lemmas *)

Lemma tiles_functional s l n m : tiles s l n → tiles s l m → n = m.
Proof. intros H. revert m. induction H; intros m Hm; inversion Hm; subst; auto. Qed.

Lemma tiles_bounds s l n : tiles s l n → s ≤ n ∧ Forall (fun r => s ≤ r.1 ∧ r.2 < n) l.
Proof.
  induction 1 as [s|s e rest n Hse Ht [IH1 IH2]]; [split; [lia|constructor]|].
  split; [lia|]. constructor; [cbn; lia|]. eapply Forall_impl; [exact IH2|]. cbn. lia.
Qed.

Lemma tiles_last s l c n : tiles s (l ++ [c]) n → n = c.2 + 1.
Proof.
  remember (l ++ [c]) as k eqn:E. intros H. revert l E.
  induction H as [s|s e rest n Hse Ht IH]; intros l E; [by destruct l|].
  destruct l as [|x l]; cbn in E; simplify_eq.
  - inversion Ht; subst. done.
  - by eapply IH.
Qed.

Lemma check_compartments_ok cs index s chunkStart chunkEnd n :
  chunkStart ≤ s →
  check_compartments cs index s chunkStart chunkEnd = Ok n ↔
  Forall (fun c => missing_p1 c = false) cs ∧ tiles s (range_of <$> cs) n ∧
  Forall (fun c => pc_endMessage c ≤ chunkEnd) cs.
Proof.
  revert index s. induction cs as [|c cs IH]; intros index s Hs; cbn [check_compartments].
  { split; [intros [= <-]; repeat constructor|]. intros (_ & Ht & _). by inversion Ht. }
  rewrite !throw_if_bind_ok, orb_false_iff, negb_false_iff, Z.ltb_ge, Z.ltb_ge, Z.ltb_ge, Z.eqb_eq.
  rewrite fmap_cons, !Forall_cons. split.
  - intros (Hm & He & (Hcs & Hce) & <- & H). apply IH in H as (? & ? & ?); [|lia].
    split; [done|]. split; [by constructor|done].
  - intros ((Hm & Hms) & Ht & Hce & Hces). inversion Ht; subst.
    split; [done|]. split; [done|]. split; [lia|]. split; [done|]. apply IH; [lia|done].
Qed.

Lemma check_stored_ok cs s : check_stored cs s = None ↔ ∃ n, tiles s cs n.
Proof.
  revert s. induction cs as [|[a b] cs IH]; intros s; cbn [check_stored].
  { split; [eexists; constructor|done]. }
  destruct (a =? s) eqn:E; cbn [negb].
  - apply Z.eqb_eq in E as ->. case_match eqn:Hlt.
    + split; [done|]. intros [n Ht]. inversion Ht; subst. lia.
    + rewrite IH. split; intros [n Ht]; [exists n; constructor; [lia|done]|].
      inversion Ht; subst. by exists n.
  - split; [done|]. intros [n Ht]. inversion Ht; subst. lia.
Qed.

Lemma check_lines_ok lines s n :
  check_lines lines s = Ok n ↔
  (scl_ordinal <$> lines) = seqZ s (lengthZ lines) ∧ n = s + lengthZ lines.
Proof.
  revert s. induction lines as [|line lines IH]; intros s; cbn [check_lines].
  { unfold lengthZ. cbn. rewrite Z.add_0_r. split; [intros [= <-]; done|by intros [_ ->]]. }
  rewrite throw_if_bind_ok, negb_false_iff, Z.eqb_eq, IH.
  assert (lengthZ (line :: lines) = 1 + lengthZ lines) as -> by (unfold lengthZ; cbn; lia).
  pose proof (lengthZ_nonneg lines).
  rewrite (seqZ_cons s (1 + lengthZ lines)) by lia. rewrite fmap_cons. unfold Z.succ, Z.pred.
  replace (1 + lengthZ lines + -1) with (lengthZ lines) by lia. split.
  - intros (-> & -> & ->). split; [done|lia].
  - intros [[= -> ->] ->]. split; [done|]. split; [done|lia].
Qed.

(** Terminal healing *)
Section terminal.
Context (arcs : list ordinal_range) (chunkEnd : Z).

Let bump boundary := fun nextEnd arc =>
  if (rg_end arc <=? chunkEnd) &&
     completedToolArcCrossesBoundary (rg_start arc) (rg_end arc) boundary
  then Z.max nextEnd (rg_end arc) else nextEnd.

Lemma bump_ge boundary l e : e ≤ foldl (bump boundary) e l.
Proof.
  revert e. induction l as [|a l IH]; intros e; cbn; [lia|].
  etransitivity; [|apply IH]. unfold bump. case_match; lia.
Qed.

Lemma bump_fixed boundary l e :
  e < boundary → foldl (bump boundary) e l = e →
  ∀ a, a ∈ l → rg_end a ≤ chunkEnd →
    completedToolArcCrossesBoundary (rg_start a) (rg_end a) boundary = false.
Proof.
  revert e. induction l as [|a l IH]; intros e He Hfix x Hx Hxe; [by apply elem_of_nil in Hx|].
  cbn [foldl] in Hfix. pose proof (bump_ge boundary l (bump boundary e a)) as Hge.
  assert (bump boundary e a = e) as E.
  { unfold bump in *. case_match; lia. }
  rewrite E in Hfix. apply elem_of_cons in Hx as [->|Hx]; [|by eapply IH].
  unfold bump in E. rewrite (proj2 (Z.leb_le _ _)) in E by done. cbn [andb] in E.
  case_match eqn:Hc; [|done]. unfold completedToolArcCrossesBoundary in Hc. bool_hyps. lia.
Qed.

Lemma bump_moves boundary l e :
  foldl (bump boundary) e l = e ∨
  ∃ a, a ∈ l ∧ rg_end a ≤ chunkEnd ∧ foldl (bump boundary) e l = rg_end a ∧ e < rg_end a.
Proof.
  revert e. induction l as [|a l IH]; intros e; [by left|]. cbn [foldl].
  destruct (IH (bump boundary e a)) as [->|(x & Hx & Hxe & -> & Hlt)].
  - unfold bump. case_match eqn:E; [|by left]. bool_hyps.
    destruct (Z.max_spec e (rg_end a)) as [[? ->]|[? ->]]; [|by left].
    right. exists a. split; [set_solver|]. split; [lia|done].
  - right. exists x. split; [set_solver|]. split; [done|]. split; [done|].
    unfold bump in Hlt. case_match; lia.
Qed.

(** A safe end above the current one stays above the next one. *)
Lemma bump_least boundary l e b :
  (∀ a, a ∈ l → rg_end a ≤ chunkEnd →
     completedToolArcCrossesBoundary (rg_start a) (rg_end a) (b + 1) = false) →
  boundary ≤ b + 1 → e ≤ b → foldl (bump boundary) e l ≤ b.
Proof.
  revert e. induction l as [|a l IH]; intros e Hb Hbb He; [done|]. cbn [foldl].
  apply IH; [intros x Hx; apply Hb; set_solver|done|].
  unfold bump. case_match eqn:E; [|done]. bool_hyps. apply Z.max_lub; [done|].
  specialize (Hb a ltac:(set_solver) ltac:(lia)).
  unfold completedToolArcCrossesBoundary in *. bool_hyps. apply andb_false_iff in Hb as [?|?]; lia.
Qed.

Definition above (e : Z) : nat := length (filter (fun a => e < rg_end a) arcs).

Lemma above_decreases e e' : e < e' → (∃ a, a ∈ arcs ∧ e < rg_end a ≤ e') → (above e' < above e)%nat.
Proof.
  intros Hlt (a & Ha & Hb). unfold above. clear bump. induction arcs as [|x l IH].
  { by apply elem_of_nil in Ha. }
  assert (length (filter (fun a => (e' < rg_end a)%Z) l) ≤
          length (filter (fun a => (e < rg_end a)%Z) l))%nat as Hmono.
  { clear -Hlt. induction l as [|x l IH]; [done|]. rewrite !filter_cons.
    repeat case_decide; cbn; lia. }
  rewrite !filter_cons. apply elem_of_cons in Ha as [<-|Ha].
  - rewrite (decide_False (P := e' < rg_end a)) by lia. rewrite decide_True by lia. cbn. lia.
  - specialize (IH Ha). repeat case_decide; cbn; lia.
Qed.

Lemma terminal_passes_spec fuel e :
  (above e < fuel)%nat →
  let r := terminal_passes fuel arcs chunkEnd e in
  e ≤ r ∧ terminal_safe arcs chunkEnd r ∧ (r = e ∨ r ≤ chunkEnd) ∧
  ∀ b, e ≤ b → terminal_safe arcs chunkEnd b → r ≤ b.
Proof.
  revert e. induction fuel as [|fuel IH]; intros e Hf r; [lia|]. subst r. cbn [terminal_passes].
  set (next := terminal_pass arcs chunkEnd e).
  change (terminal_pass arcs chunkEnd e) with (foldl (bump (e + 1)) e arcs) in next.
  destruct (next =? e) eqn:E.
  - apply Z.eqb_eq in E. split; [lia|]. split; [|split; [by left|auto]].
    intros a Ha Hae. apply (bump_fixed (e + 1) arcs e); [lia|done|done|done].
  - destruct (bump_moves (e + 1) arcs e) as [?|(a & Ha & Hae & Hn & Hlt)]; [lia|].
    fold next in Hn. destruct (IH next) as (Hle & Hs & Hb & Hmin).
    { assert (above next < above e)%nat; [|lia]. apply above_decreases; [lia|]. exists a. split; [done|lia]. }
    split; [lia|]. split; [done|]. split; [right; destruct Hb; lia|].
    intros b Hbe Hbs. apply Hmin; [|done]. apply bump_least; [done|lia|lia].
Qed.

End terminal.

(** Healing keeps the starts, the order and everything but the ends. *)
Lemma heal_last cs ranges : last (healCompartmentGaps cs ranges) = last cs.
Proof.
  induction cs as [|c [|d cs] IH]; [done|done|].
  change (healCompartmentGaps (c :: d :: cs) ranges)
    with (healed ranges c d :: healCompartmentGaps (d :: cs) ranges).
  rewrite last_cons, IH. rewrite (last_cons c).
  destruct (last (d :: cs)) eqn:E; [done|]. by apply last_None in E.
Qed.

Lemma heal_nil cs ranges : healCompartmentGaps cs ranges = [] → cs = [].
Proof. destruct cs as [|c [|d cs]]; done. Qed.

(** A gap a tool-only range covers. *)
Definition gap_covered (ranges : list ordinal_range) (e s : Z) : Prop :=
  s = e + 1 ∨ (e + 1 < s ∧ ∃ r, r ∈ ranges ∧ rg_start r ≤ e + 1 ∧ s - 1 ≤ rg_end r).

(** Compartments in order whose every gap is covered. *)
Fixpoint ordered_within (ranges : list ordinal_range) (cs : list ParsedCompartment) : Prop :=
  match cs with
  | [] => True
  | c :: rest =>
      pc_startMessage c ≤ pc_endMessage c ∧
      match rest with
      | [] => True
      | d :: _ => gap_covered ranges (pc_endMessage c) (pc_startMessage d)
      end ∧ ordered_within ranges rest
  end.

Lemma healed_covered ranges c d :
  gap_covered ranges (pc_endMessage c) (pc_startMessage d) →
  healed ranges c d = set_end c (pc_startMessage d - 1) ∨
  healed ranges c d = c ∧ pc_endMessage c = pc_startMessage d - 1.
Proof.
  unfold healed. intros [E|(Hlt & r & Hr & H1 & H2)].
  - rewrite (proj2 (Z.leb_le _ _)) by lia. right. split; [done|lia].
  - rewrite (proj2 (Z.leb_gt _ _)) by lia.
    rewrite (proj2 (existsb_exists _ _)); [by left|].
    exists r. split; [by apply list_elem_of_In|]. apply andb_true_iff. lia.
Qed.

Lemma heal_tiles ranges c cs :
  ordered_within ranges (c :: cs) →
  ∃ n, tiles (pc_startMessage c) (range_of <$> healCompartmentGaps (c :: cs) ranges) n ∧
    (∀ l, last (c :: cs) = Some l → n = pc_endMessage l + 1).
Proof.
  revert c. induction cs as [|d cs IH]; intros c (Hc & Hgap & Hrest).
  - exists (pc_endMessage c + 1). cbn. split; [repeat constructor; lia|]. by intros l [= ->].
  - destruct (IH d Hrest) as (n & Ht & Hl). exists n.
    change (healCompartmentGaps (c :: d :: cs) ranges)
      with (healed ranges c d :: healCompartmentGaps (d :: cs) ranges).
    rewrite fmap_cons. split; [|by rewrite last_cons_cons].
    assert (range_of (healed ranges c d) = (pc_startMessage c, pc_startMessage d - 1)) as ->.
    { destruct (healed_covered ranges c d Hgap) as [->|[-> E]]; unfold range_of; cbn; congruence. }
    constructor.
    + destruct Hgap as [?|(? & _)]; lia.
    + by replace (pc_startMessage d - 1 + 1) with (pc_startMessage d) by lia.
Qed.

Lemma map_ok cs lines seq mapped :
  mapParsedCompartmentsToChunk cs lines seq = Ok mapped →
  cc_compartment <$> mapped = cs ∧
  cc_sequence <$> mapped = seqZ seq (lengthZ cs) ∧
  Forall (fun m =>
    (∃ l, l ∈ lines ∧ scl_ordinal l = pc_startMessage (cc_compartment m) ∧
          scl_messageId l = cc_startMessageId m) ∧
    (∃ l, l ∈ lines ∧ scl_ordinal l = pc_endMessage (cc_compartment m) ∧
          scl_messageId l = cc_endMessageId m)) mapped.
Proof.
  revert seq mapped.
  induction cs as [|c cs IH]; intros seq mapped; cbn [mapParsedCompartmentsToChunk].
  { intros [= <-]. repeat constructor. }
  destruct (line_at lines (pc_startMessage c)) as [sl|] eqn:Es; [|done].
  destruct (line_at lines (pc_endMessage c)) as [el|] eqn:Ee; [|done].
  intros (rest & (H1 & H2 & H3)%IH & [= <-])%bind_ok.
  assert (lengthZ (c :: cs) = 1 + lengthZ cs) as E by (unfold lengthZ; cbn; lia).
  pose proof (lengthZ_nonneg cs).
  rewrite !fmap_cons, H1, H2, E, (seqZ_cons seq (1 + lengthZ cs)) by lia. unfold Z.succ, Z.pred.
  split; [done|]. split; [do 2 f_equal; lia|]. constructor; [|done].
  assert (∀ o l, line_at lines o = Some l → l ∈ lines ∧ scl_ordinal l = o) as Hline.
  { intros o l Hl. unfold line_at in Hl.
    assert (l ∈ filter (fun line => scl_ordinal line = o) lines) as Hin.
    { destruct (filter _ lines); cbn in Hl; simplify_eq. left. }
    by apply list_elem_of_filter in Hin as [? ?]. }
  apply Hline in Es as [? ?]. apply Hline in Ee as [? ?]. cbn. split; eauto.
Qed.

Lemma validateParsed_iff cs chunkStart chunkEnd u :
  validateParsedCompartments cs chunkStart chunkEnd u = None ↔
  Forall (fun c => missing_p1 c = false) cs ∧
  Forall (fun c => pc_endMessage c ≤ chunkEnd) cs ∧
  ∃ n, tiles chunkStart (range_of <$> cs) n ∧ marker_ok chunkStart chunkEnd n u.
Proof.
  unfold validateParsedCompartments.
  destruct (check_compartments cs 0 chunkStart chunkStart chunkEnd) as [n|e] eqn:E.
  - apply check_compartments_ok in E as (Hp & Ht & He); [|lia].
    assert ((∃ n', tiles chunkStart (range_of <$> cs) n' ∧ marker_ok chunkStart chunkEnd n' u) ↔
            marker_ok chunkStart chunkEnd n u) as Hn.
    { split; [|by exists n]. intros (n' & Ht' & Hm). by rewrite (tiles_functional _ _ _ _ Ht Ht'). }
    rewrite Hn. unfold marker_ok. destruct u as [u|].
    + destruct (u =? chunkEnd + 1) eqn:E1; [split; [intros _; split_and!; auto; lia|done]|].
      destruct ((u <? chunkStart) || (chunkEnd <? u)) eqn:E2.
      { apply orb_true_iff in E2. split; [done|]. intros (_ & _ & [?|?]); lia. }
      bool_hyps. destruct (negb (u =? n)) eqn:E3; bool_hyps.
      * split; [done|]. intros (_ & _ & [?|?]); lia.
      * split; [intros _; split_and!; auto; right; lia|done].
    + case_match eqn:E1; split; try done; [|intros _; split_and!; auto; lia].
      intros (_ & _ & ?). lia.
  - split; [done|]. intros (Hp & He & n & Ht & _).
    assert (check_compartments cs 0 chunkStart chunkStart chunkEnd = Ok n) as E'; [|congruence].
    by apply check_compartments_ok; [lia|].
Qed.

Lemma tiles_replace_last s l a b n b' :
  tiles s (l ++ [(a, b)]) n → b ≤ b' → tiles s (l ++ [(a, b')]) (b' + 1).
Proof.
  intros H Hb. remember (l ++ [(a, b)]) as k eqn:E. revert l E.
  induction H as [s|s e rest n Hse Ht IH]; intros l E; [by destruct l|].
  destruct l as [|x l]; cbn in E; simplify_eq.
  - cbn. constructor; [lia|constructor].
  - cbn. constructor; [done|]. by apply IH.
Qed.

(** The terminal healing, for a list that has a last compartment. *)
Lemma heal_terminal_spec cs c u arcs chunkEnd :
  let '(cs', u') := healTerminalCompletedToolArc (cs ++ [c]) u arcs chunkEnd in
  ∃ e, cs' = cs ++ [set_end c e] ∧ pc_endMessage c ≤ e ∧ terminal_safe arcs chunkEnd e ∧
    (e = pc_endMessage c ∨ e ≤ chunkEnd) ∧
    (∀ b, pc_endMessage c ≤ b → terminal_safe arcs chunkEnd b → e ≤ b) ∧
    u' = match u with
         | Some u => Some (if e =? pc_endMessage c then u else e + 1)
         | None => None
         end.
Proof.
  unfold healTerminalCompletedToolArc, set_last_end. rewrite last_snoc.
  destruct (terminal_passes_spec arcs chunkEnd (length arcs + 1) (pc_endMessage c))
    as (Hle & Hs & Hb & Hmin).
  { unfold above. pose proof (length_filter (fun a => pc_endMessage c < rg_end a) arcs). lia. }
  eexists. split; [by rewrite removelast_last|]. do 4 (split; [done|]).
  destruct u; [|done]. by destruct (_ =? pc_endMessage c).
Qed.

Lemma line_found lines s n o :
  (scl_ordinal <$> lines) = seqZ s n → s ≤ o < s + n → is_Some (line_at lines o).
Proof.
  intros E Ho. unfold line_at.
  assert (o ∈ scl_ordinal <$> lines) as Hin by (rewrite E; apply elem_of_seqZ; lia).
  apply list_elem_of_fmap in Hin as (l & -> & Hl).
  destruct (filter _ lines) as [|x k] eqn:Ef; [|cbn; eauto].
  assert (l ∈ filter (fun line => scl_ordinal line = scl_ordinal l) lines) as H
    by (by apply list_elem_of_filter).
  rewrite Ef in H. by apply elem_of_nil in H.
Qed.

Lemma map_complete cs lines seq s n :
  (scl_ordinal <$> lines) = seqZ s n →
  Forall (fun c => s ≤ pc_startMessage c < s + n ∧ s ≤ pc_endMessage c < s + n) cs →
  ∃ mapped, mapParsedCompartmentsToChunk cs lines seq = Ok mapped.
Proof.
  intros E Hcs. revert seq. induction Hcs as [|c cs [Ha Hb] Hcs IH]; intros seq; [by eexists|].
  cbn [mapParsedCompartmentsToChunk].
  destruct (line_found lines s n _ E Ha) as [? ->]. destruct (line_found lines s n _ E Hb) as [? ->].
  destruct (IH (seq + 1)) as [mapped ->]. eexists. reflexivity.
Qed.

Lemma heal_p1 cs ranges :
  Forall (fun c => missing_p1 c = false) cs →
  Forall (fun c => missing_p1 c = false) (healCompartmentGaps cs ranges).
Proof.
  induction cs as [|c [|d cs] IH]; intros H; [constructor|done|].
  apply Forall_cons in H as [Hc H].
  change (healCompartmentGaps (c :: d :: cs) ranges)
    with (healed ranges c d :: healCompartmentGaps (d :: cs) ranges).
  constructor; [|by apply IH]. unfold healed. by repeat case_match.
Qed.

(** Every range of a tiling lies inside it. *)
Lemma tiles_ranges s l n :
  tiles s l n → Forall (fun r => s ≤ r.1 ∧ r.1 ≤ r.2 ∧ r.2 < n) l.
Proof.
  induction 1 as [|s e rest n Hse Ht IH]; [constructor|].
  apply tiles_bounds in Ht as [? _]. constructor; [cbn; lia|].
  eapply Forall_impl; [exact IH|]. cbn. lia.
Qed.

(** Tiling compartments stay between the start and any bound on their end. *)
Lemma tiles_within start cs next upper :
  tiles start (range_of <$> cs) next → next ≤ upper + 1 →
  Forall (fun x => start ≤ pc_startMessage x ≤ upper ∧ start ≤ pc_endMessage x ≤ upper) cs.
Proof.
  intros Ht%tiles_ranges Hn. apply Forall_fmap in Ht. eapply Forall_impl; [exact Ht|].
  intros x. cbn. lia.
Qed.

(** The last of some tiling compartments ends no earlier than they start. *)
Lemma tiles_last_end start k l e :
  tiles start (range_of <$> (k ++ [set_end l e])) (e + 1) → start ≤ e.
Proof.
  intros Ht. apply (tiles_within _ _ _ e) in Ht; [|lia].
  apply Forall_app in Ht as [_ Ht]. apply Forall_cons in Ht as [[_ Ht] _]. cbn in Ht. lia.
Qed.

(** ** Properties *)

(** C21: an accepted output is sound: its compartments tile the chunk from its first
    ordinal without gap or overlap and stay inside it, carry a first paraphrase tier
    that is not blank, are numbered consecutively from the offset, and name the messages
    of the lines they start and end at. They reach the chunk's end, or the marker of
    unprocessed messages is there and names the first ordinal they leave uncovered, or
    it is the ordinal after the chunk's end, which is let through whatever they leave
    uncovered. No completed tool arc is split by the terminal boundary. *)
Theorem accepted_output_sound {Fact Event Primer : Type}
    (parsed : ParsedCompartmentOutput Fact Event Primer) chunk sequenceOffset pass :
  validateHistorianOutput parsed chunk sequenceOffset = Ok pass →
  let cs := cc_compartment <$> vp_compartments pass in
  ∃ n, tiles (ck_startIndex chunk) (range_of <$> cs) n ∧ n ≤ ck_endIndex chunk + 1 ∧
    Forall (fun c => missing_p1 c = false) cs ∧
    marker_ok (ck_startIndex chunk) (ck_endIndex chunk) n (healOutput parsed chunk).2 ∧
    cc_sequence <$> vp_compartments pass = seqZ sequenceOffset (lengthZ cs) ∧
    Forall (fun m =>
      (∃ l, l ∈ ck_lines chunk ∧ scl_ordinal l = pc_startMessage (cc_compartment m) ∧
            scl_messageId l = cc_startMessageId m) ∧
      (∃ l, l ∈ ck_lines chunk ∧ scl_ordinal l = pc_endMessage (cc_compartment m) ∧
            scl_messageId l = cc_endMessageId m)) (vp_compartments pass) ∧
    boundarySplitsCompletedToolArc n (ck_completedToolArcs chunk) = false.
Proof.
  intros H. unfold validateHistorianOutput in H.
  destruct (po_compartments parsed) as [|c0 cs0] eqn:Epo; [done|].
  destruct (healOutput parsed chunk) as [cs u] eqn:Eh. cbn [snd].
  apply bind_ok in H as (mapped & Hm & H).
  destruct (validateParsedCompartments cs _ _ u) as [e|] eqn:Ev; [done|].
  apply throw_if_bind_ok in H as [Hterm [= <-]]. cbn [vp_compartments].
  apply map_ok in Hm as (Hc & Hseq & Hids). cbv zeta. rewrite Hc.
  apply validateParsed_iff in Ev as (Hp & He & n & Ht & Hmark).
  exists n. assert (∃ l c, cs = l ++ [c]) as (l & c & ->).
  { unfold healOutput in Eh. rewrite Epo in Eh.
    destruct (last (healCompartmentGaps (c0 :: cs0) (ck_toolOnlyRanges chunk))) as [c|] eqn:El.
    - apply last_Some in El as [l El]. rewrite El in Eh.
      pose proof (heal_terminal_spec l c (po_unprocessedFrom parsed) (ck_completedToolArcs chunk)
                    (ck_endIndex chunk)) as Hs. rewrite Eh in Hs.
      destruct Hs as (e & -> & _). eauto.
    - by apply last_None, heal_nil in El. }
  rewrite fmap_app in Ht. apply tiles_last in Ht as En. cbn in En.
  rewrite last_snoc in Hterm. rewrite fmap_app.
  split; [done|]. split.
  { apply Forall_app in He as [_ He]. apply Forall_cons in He as [He _]. lia. }
  split; [done|]. split; [done|]. split; [done|]. split; [done|]. by rewrite En.
Qed.

(** The range check decides its specification: it accepts exactly the
    lists of paraphrased compartments that tile the chunk from its start, end
    inside it, and leave uncovered only what the marker announces. *)
Theorem validateParsed_decides cs chunkStart chunkEnd u :
  validateParsedCompartments cs chunkStart chunkEnd u = None ↔
  Forall (fun c => missing_p1 c = false) cs ∧
  Forall (fun c => pc_endMessage c ≤ chunkEnd) cs ∧
  ∃ n, tiles chunkStart (range_of <$> cs) n ∧ marker_ok chunkStart chunkEnd n u.
Proof. apply validateParsed_iff. Qed.

(** C22: healing is complete: output that starts at the chunk's first ordinal, whose
    compartments are in order with every gap inside a tool-only range and a first tier
    that is not blank, that ends inside the chunk, and that either reaches the chunk's
    end or marks the next ordinal as unprocessed, is accepted over a chunk whose lines
    are exactly its ordinals, whenever every completed arc ends inside the chunk. *)
Theorem healed_output_accepted {Fact Event Primer : Type}
    (parsed : ParsedCompartmentOutput Fact Event Primer) chunk sequenceOffset c cs l :
  po_compartments parsed = c :: cs → last (c :: cs) = Some l →
  pc_startMessage c = ck_startIndex chunk →
  ordered_within (ck_toolOnlyRanges chunk) (c :: cs) →
  Forall (fun c => missing_p1 c = false) (c :: cs) →
  pc_endMessage l ≤ ck_endIndex chunk →
  match po_unprocessedFrom parsed with
  | Some u => u = pc_endMessage l + 1
  | None => pc_endMessage l = ck_endIndex chunk
  end →
  (scl_ordinal <$> ck_lines chunk) =
    seqZ (ck_startIndex chunk) (ck_endIndex chunk - ck_startIndex chunk + 1) →
  (∀ arc, arc ∈ ck_completedToolArcs chunk → rg_end arc ≤ ck_endIndex chunk) →
  ∃ pass, validateHistorianOutput parsed chunk sequenceOffset = Ok pass.
Proof.
  intros Epo Hlast Hstart Hord Hp1 Hend Hmark Hlines Harcs.
  unfold validateHistorianOutput. rewrite Epo. unfold healOutput. rewrite Epo.
  set (ranges := ck_toolOnlyRanges chunk) in *.
  destruct (heal_tiles ranges c cs Hord) as (n & Ht & Hn). specialize (Hn l Hlast).
  assert (last (healCompartmentGaps (c :: cs) ranges) = Some l) as Hhl by by rewrite heal_last.
  assert (Forall (fun c => missing_p1 c = false) (healCompartmentGaps (c :: cs) ranges)) as Hp1'
    by by apply heal_p1.
  apply last_Some in Hhl as [k Ek]. rewrite Ek in *.
  pose proof (heal_terminal_spec k l (po_unprocessedFrom parsed) (ck_completedToolArcs chunk)
                (ck_endIndex chunk)) as Hs.
  destruct (healTerminalCompletedToolArc _ _ _ _) as [cs' u'].
  destruct Hs as (e & -> & Hle & Hsafe & Hb & _ & ->).
  assert (tiles (ck_startIndex chunk) (range_of <$> (k ++ [set_end l e])) (e + 1)) as Ht'.
  { rewrite fmap_app in *. rewrite <- Hstart. by eapply tiles_replace_last; [exact Ht|]. }
  pose proof (tiles_within _ _ _ (ck_endIndex chunk) Ht' ltac:(destruct Hb; lia)) as Hin.
  destruct (map_complete (k ++ [set_end l e]) (ck_lines chunk) sequenceOffset _ _ Hlines)
    as [mapped ->].
  { eapply Forall_impl; [exact Hin|]. cbn. lia. }
  cbn [mbind result_bind].
  assert (validateParsedCompartments (k ++ [set_end l e]) (ck_startIndex chunk) (ck_endIndex chunk)
            match po_unprocessedFrom parsed with
            | Some u => Some (if e =? pc_endMessage l then u else e + 1)
            | None => None
            end = None) as ->.
  { apply validateParsed_iff. split; [|split].
    - apply Forall_app in Hp1' as [? Hl]. apply Forall_app. split; [done|].
      apply Forall_cons in Hl as [? _]. by repeat constructor.
    - eapply Forall_impl; [exact Hin|]. cbn. lia.
    - exists (e + 1). split; [done|]. unfold marker_ok.
      assert (ck_startIndex chunk ≤ e) by by eapply tiles_last_end.
      destruct (po_unprocessedFrom parsed) as [u|]; [|destruct Hb; lia].
      subst u. case_match; destruct Hb; lia. }
  rewrite last_snoc. cbn [set_end pc_endMessage].
  assert (boundarySplitsCompletedToolArc (e + 1) (ck_completedToolArcs chunk) = false) as ->.
  { apply not_true_is_false. intros (a & Ha & Hc)%existsb_exists.
    apply list_elem_of_In in Ha. rewrite Hsafe in Hc by auto. done. }
  eexists. reflexivity.
Qed.

(** The terminal healing moves the last compartment's end to the least
    position at or after it whose boundary splits no completed arc of the
    chunk, within its pass bound, and moves the unprocessed marker with it. *)
Theorem terminal_heal_least cs c u arcs chunkEnd :
  let '(cs', u') := healTerminalCompletedToolArc (cs ++ [c]) u arcs chunkEnd in
  ∃ e, cs' = cs ++ [set_end c e] ∧ pc_endMessage c ≤ e ∧ terminal_safe arcs chunkEnd e ∧
    (e = pc_endMessage c ∨ e ≤ chunkEnd) ∧
    (∀ b, pc_endMessage c ≤ b → terminal_safe arcs chunkEnd b → e ≤ b) ∧
    u' = match u with
         | Some u => Some (if e =? pc_endMessage c then u else e + 1)
         | None => None
         end.
Proof. apply heal_terminal_spec. Qed.

(** Stored compartments validate exactly when they tile the session from
    message 1, and a chunk's lines exactly when they are the consecutive
    ordinals of the chunk (or there are none). *)
Theorem coverage_checks_decide stored startIndex endIndex lines :
  (validateStoredCompartments stored = None ↔ ∃ n, tiles 1 stored n) ∧
  (validateChunkCoverage startIndex endIndex lines = None ↔
   lines = [] ∨ (scl_ordinal <$> lines = seqZ startIndex (endIndex - startIndex + 1) ∧
                 startIndex ≤ endIndex)).
Proof.
  split; [apply check_stored_ok|]. unfold validateChunkCoverage.
  destruct lines as [|line lines]; [split; [by left|done]|].
  set (ls := line :: lines). assert (1 ≤ lengthZ ls) as Hlen by (unfold lengthZ; cbn; lia).
  destruct (check_lines ls startIndex) as [n|e] eqn:E.
  - apply check_lines_ok in E as [Ho ->]. rewrite Ho.
    destruct (startIndex + lengthZ ls - 1 =? endIndex) eqn:E'; cbn [negb].
    + split; [|done]. intros _. right. replace (endIndex - startIndex + 1) with (lengthZ ls) by lia.
      split; [done|lia].
    + split; [done|]. intros [?|[Hs Hle]]; [done|].
      apply (f_equal length) in Hs. rewrite !length_seqZ in Hs. lia.
  - split; [done|]. intros [?|[Hs Hle]]; [done|].
    assert (lengthZ ls = endIndex - startIndex + 1) as Hl.
    { apply (f_equal length) in Hs. rewrite length_fmap, length_seqZ in Hs. unfold lengthZ. lia. }
    rewrite <- Hl in Hs. assert (check_lines ls startIndex = Ok (startIndex + lengthZ ls)) as E'.
    { by apply check_lines_ok. }
    congruence.
Qed.

(** ** Witnesses *)

Definition compartment (s e : Z) : ParsedCompartment :=
  {| pc_startMessage := s; pc_endMessage := e; pc_title := "t"; pc_content := "c";
     pc_p1 := Some "p"%string; pc_p2 := None; pc_p3 := None; pc_p4 := None;
     pc_importance := None; pc_episodeType := None |}.

(** Messages 1 to 8; 3 and 4 are tool noise; a tool call spans 6 and 7. *)
Definition sample_chunk : HistorianValidationChunk :=
  {| ck_startIndex := 1; ck_endIndex := 8;
     ck_lines := (fun o => {| scl_ordinal := o; scl_messageId := "m" |}) <$> seqZ 1 8;
     ck_toolOnlyRanges := [{| rg_start := 3; rg_end := 4 |}];
     ck_completedToolArcs := [{| rg_start := 6; rg_end := 7 |}] |}.

Definition sample_output : ParsedCompartmentOutput unit unit unit :=
  {| po_compartments := [compartment 1 2; compartment 5 6]; po_facts := [];
     po_events := []; po_unprocessedFrom := Some 7; po_userObservations := [];
     po_primerCandidates := [] |}.

Definition sample_pass : ValidatedHistorianPass unit unit unit :=
  {| vp_compartments :=
       [{| cc_sequence := 5; cc_startMessageId := "m"; cc_endMessageId := "m";
           cc_compartment := compartment 1 4 |};
        {| cc_sequence := 6; cc_startMessageId := "m"; cc_endMessageId := "m";
           cc_compartment := compartment 5 7 |}];
     vp_facts := []; vp_userObservations := None; vp_primerCandidates := None;
     vp_events := None |}.

Lemma accepted_output_sound_witness :
  validateHistorianOutput sample_output sample_chunk 5 = Ok sample_pass ∧
  ∃ n, tiles 1 [(1, 4); (5, 7)] n.
Proof.
  assert (validateHistorianOutput sample_output sample_chunk 5 = Ok sample_pass) as H
    by (vm_compute; reflexivity).
  destruct (accepted_output_sound sample_output sample_chunk 5 sample_pass H) as (n & Ht & _).
  split; [exact H|]. exists n. exact Ht.
Defined.

Lemma healed_output_accepted_witness :
  ∃ pass, validateHistorianOutput sample_output sample_chunk 5 = Ok pass.
Proof.
  apply (healed_output_accepted sample_output sample_chunk 5 (compartment 1 2)
           [compartment 5 6] (compartment 5 6)).
  - reflexivity.
  - reflexivity.
  - reflexivity.
  - cbn. split; [lia|]. split; [|split; [lia|done]]. right. split; [lia|].
    exists {| rg_start := 3; rg_end := 4 |}. split; [left|cbn; lia].
  - repeat constructor.
  - cbn. lia.
  - reflexivity.
  - vm_compute. reflexivity.
  - intros arc Ha. apply list_elem_of_singleton in Ha as ->. cbn. lia.
Defined.

(** A marker one past the chunk's end is accepted whatever is left uncovered:
    here messages 5 to 10 belong to no compartment and to no announced suffix. *)
Lemma marker_past_end_hides_gap :
  validateParsedCompartments [compartment 1 4] 1 10 (Some 11) = None ∧
  validateParsedCompartments [compartment 1 4] 1 10 None = Some (uncovered 5).
Proof. split; vm_compute; reflexivity. Qed.
