(* ===== verification/CompartmentParser.v ===== *)
(** * The historian's answer

    Models packages/plugin/src/hooks/magic-context/compartment-parser.ts, which
    reads compartments, facts, events, observations and primer candidates out of
    the text a model wrote, and the escapes of compartment-storage.ts.  The
    regular expressions are those of the source, written out as [regex] terms;
    the parsed output is the input of HistorianValidation.

    An ordinal is the integer its digits denote as a double; [Infinity], which
    more than 308 digits give, is represented by an integer no double reaches. *)

From S2P Require Import Prelude JsNumber JsExact JsMap JsValue JsString SessionText HistorianValidation JsRegExp.
From Stdlib Require Import SpecFloat.

Record ParsedFact := { pf_category : string; pf_content : string }.

Record ParsedEvent := {
  pe_kind : string;
  pe_atCompartment : option Z;
  pe_fields : jsmap string string
}.

Record ParsedPrimerCandidate := { pp_question : string; pp_originCompartmentIndex : option Z }.

(** ** The expressions *)

Definition not_unit (u : Z) : Z → bool := fun v => negb (v =? u).
Definition maybe (r : regex) : regex := Alt r Empty.
Definition anything : regex := Star false any.
Definition tag_name : regex := Plus (Cls (fun u => ((97 <=? u) && (u <=? 122)) || (u =? 95))).

(** [<compartment\s+ATTRS\s*>BODY<\/compartment>]; the groups are [id] where the
    source has none. *)
Definition compartment_re (attrs body : regex → regex) : regex :=
  sequence [lit "<compartment"; Plus space; attrs (Star false (Cls (not_unit 62)));
            Star true space; lit ">"; body anything; lit "</compartment>"].

Definition COMPARTMENT_REGEX : regex := compartment_re (Group 1) (Group 2).

(** A double quote. *)
Definition dquote : Z := 34.

(** An attribute whose value is a number, and one whose value is text without
    double quotes: both values are quoted and group 1. *)
Definition number_attr (name : string) : regex :=
  sequence [WordBoundary; Lit (code_units name ++ [61; dquote]); Group 1 (Plus digit); Lit [dquote]].
Definition text_attr (name : string) : regex :=
  sequence [WordBoundary; Lit (code_units name ++ [61; dquote]);
            Group 1 (Star true (Cls (not_unit dquote))); Lit [dquote]].

Definition ATTR_START_REGEX : regex := number_attr "start".
Definition ATTR_END_REGEX : regex := number_attr "end".
Definition ATTR_TITLE_REGEX : regex := text_attr "title".
Definition ATTR_EPISODE_REGEX : regex := text_attr "episode_type".
Definition ATTR_IMPORTANCE_REGEX : regex := number_attr "importance".

(** [new RegExp(`<p${n}\\s*(/?)>`)]: [n] is one digit. *)
Definition makeTierOpenRegex (n : Z) : regex :=
  sequence [Lit (code_units "<p" ++ [48 + n]); Star true space; Group 1 (maybe (lit "/")); lit ">"].
Definition TIER_CLOSE_ANY_REGEX : regex := sequence [lit "</p"; digit].
Definition TIER_OPEN_ANY_REGEX : regex := sequence [lit "<p"; digit].

Definition category_name : regex :=
  Alt (lit "PROJECT_RULES") (Alt (lit "ARCHITECTURE") (Alt (lit "CONSTRAINTS")
      (Alt (lit "CONFIG_VALUES") (lit "NAMING")))).
Definition CATEGORY_BLOCK_REGEX : regex :=
  sequence [lit "<"; Group 1 category_name; lit ">"; Group 2 anything; lit "</"; BackRef 1; lit ">"].

(** [^\s*MARKER\s*(.+)$] with the [m] flag. *)
Definition item_re (marker : regex) : regex :=
  sequence [LineStart; Star true space; marker; Star true space; Group 1 (Plus dot); LineEnd].
Definition FACT_ITEM_REGEX : regex := item_re (lit "*").
Definition USER_OBS_ITEM_REGEX : regex := item_re (lit "*").
Definition PRIMER_ITEM_REGEX : regex :=
  item_re (Alt (lit "*") (Alt (lit "-") (Seq (Plus digit) (lit ".")))).

(** [<NAME>(.*?)<\/NAME>] with the [s] flag. *)
Definition block_re (name : string) : regex :=
  sequence [Lit (code_units ("<" ++ name ++ ">")%string); Group 1 anything;
            Lit (code_units ("</" ++ name ++ ">")%string)].
Definition UNPROCESSED_REGEX : regex :=
  sequence [lit "<unprocessed_from>"; Group 1 (Plus digit); lit "</unprocessed_from>"].
Definition USER_OBSERVATIONS_REGEX : regex := block_re "user_observations".
Definition PRIMER_CANDIDATES_REGEX : regex := block_re "primer_candidates".
Definition FACTS_BLOCK_REGEX : regex := block_re "facts".
Definition EVENTS_BLOCK_REGEX : regex := block_re "events".

(** The attribute [at_compartment] with its quoted digits in group [n], up to the
    end of the tag. *)
Definition at_compartment (n : nat) : list regex :=
  [Plus space; Lit (code_units "at_compartment=" ++ [dquote]); Group n (Plus digit); Lit [dquote];
   Star true space; lit ">"].
Definition PRIMER_ELEMENT_REGEX : regex :=
  sequence ([lit "<primer"] ++ at_compartment 1 ++ [Group 2 anything; lit "</primer>"]).
Definition EVENT_ELEMENT_REGEX : regex :=
  sequence ([lit "<"; Group 1 tag_name] ++ at_compartment 2 ++
            [Group 3 anything; lit "</"; BackRef 1; lit ">"]).
Definition EVENT_FIELD_REGEX : regex :=
  sequence [lit "<"; Group 1 tag_name; Star true space; lit ">"; Group 2 anything;
            lit "</"; BackRef 1; lit ">"].

(** ** The parser *)

Definition unescapeXml (s : list Z) : list Z :=
  replaceAll (lit "&gt;") [62]
    (replaceAll (lit "&lt;") [60]
      (replaceAll (lit "&quot;") [dquote]
        (replaceAll (lit "&apos;") [39]
          (replaceAll (lit "&amp;") [38] s)))).

(** [parseInt] of a sequence of digits. *)
Definition parse_ordinal (ds : list Z) : Z :=
  let n := nofZ (digits_value ds) in
  if isFinite n then floorZ n else 2 ^ 1024.

Definition extractTier (inner : list Z) (index : Z) : option (list Z) :=
  match exec_text (makeTierOpenRegex (index + 1)) inner with
  | None => None
  | Some openMatch =>
      match group 1 openMatch with
      | [47] => Some []
      | _ =>
          let from := rest (after openMatch) in
          let body := match exec_text TIER_CLOSE_ANY_REGEX from with
                      | None => from
                      | Some m => skipped m
                      end in
          let body := match exec_text TIER_OPEN_ANY_REGEX body with
                      | None => body
                      | Some m => skipped m
                      end in
          Some (unescapeXml (trim_units body))
      end
  end.

Definition text_option (o : option (list Z)) : option string := of_code_units <$> o.

(** One turn of the loop over the compartments: [None] where it continues without
    a compartment. *)
Definition parse_compartment (attrs inner : list Z) : option ParsedCompartment :=
  match exec_text ATTR_START_REGEX attrs, exec_text ATTR_END_REGEX attrs,
        exec_text ATTR_TITLE_REGEX attrs with
  | Some startMatch, Some endMatch, Some titleMatch =>
      let startMessage := parse_ordinal (group 1 startMatch) in
      let endMessage := parse_ordinal (group 1 endMatch) in
      let title := unescapeXml (group 1 titleMatch) in
      match title with
      | [] => None
      | _ =>
          let episodeType := unescapeXml ∘ group 1 <$> exec_text ATTR_EPISODE_REGEX attrs in
          let importance :=
            (fun m => nofZ (digits_value (group 1 m))) <$> exec_text ATTR_IMPORTANCE_REGEX attrs in
          let compartment content p1 p2 p3 p4 :=
            {| pc_startMessage := startMessage; pc_endMessage := endMessage;
               pc_title := of_code_units title; pc_content := of_code_units content;
               pc_p1 := text_option p1; pc_p2 := text_option p2; pc_p3 := text_option p3;
               pc_p4 := text_option p4; pc_importance := importance;
               pc_episodeType := text_option episodeType |} in
          match extractTier inner 0 with
          | Some ((_ :: _) as p1) =>
              let p2 := extractTier inner 1 in
              let p3 := extractTier inner 2 in
              let p4 := extractTier inner 3 in
              Some (compartment p1 (Some p1) (Some (default p1 p2))
                      (Some (default (default p1 p2) p3)) (Some (default [] p4)))
          | _ =>
              match unescapeXml (trim_units inner) with
              | [] => None
              | content => Some (compartment content None None None None)
              end
          end
      end
  | _, _, _ => None
  end.

(** The captured texts of the items of a list, without the empty ones. *)
Definition item_texts (r : regex) (block : list Z) : list (list Z) :=
  filter (fun l => l ≠ []) ((fun m => unescapeXml (trim_units (group 1 m))) <$> matchAll r block).

Definition factsScope (text : list Z) : list Z :=
  match exec_text FACTS_BLOCK_REGEX text with
  | Some factsBlockMatch => group 1 factsBlockMatch
  | None => replaceAll (compartment_re id id) [] (replaceFirst EVENTS_BLOCK_REGEX [] text)
  end.

Definition parse_facts (text : list Z) : list ParsedFact :=
  flat_map (fun categoryMatch =>
    List.map (fun content =>
      {| pf_category := of_code_units (group 1 categoryMatch); pf_content := of_code_units content |})
      (item_texts FACT_ITEM_REGEX (group 2 categoryMatch)))
    (matchAll CATEGORY_BLOCK_REGEX (factsScope text)).

Definition parse_observations (text : list Z) : list string :=
  match exec_text USER_OBSERVATIONS_REGEX text with
  | None => []
  | Some m => of_code_units <$> item_texts USER_OBS_ITEM_REGEX (group 1 m)
  end.

Definition parse_primers (text : list Z) : list ParsedPrimerCandidate :=
  match exec_text PRIMER_CANDIDATES_REGEX text with
  | None => []
  | Some primerMatch =>
      let block := group 1 primerMatch in
      match matchAll PRIMER_ELEMENT_REGEX block with
      | [] => (fun question => {| pp_question := of_code_units question;
                                  pp_originCompartmentIndex := None |})
                <$> item_texts PRIMER_ITEM_REGEX block
      | elements =>
          omap (fun el =>
            match unescapeXml (trim_units (group 2 el)) with
            | [] => None
            | question => Some {| pp_question := of_code_units question;
                                  pp_originCompartmentIndex := Some (parse_ordinal (group 1 el)) |}
            end) elements
      end
  end.

(** [fields[name] = value]: assigning a string to [__proto__] has no effect. *)
Definition assign_field (fields : jsmap string string) (name value : string) : jsmap string string :=
  if String.eqb name "__proto__" then fields else JsMap.set fields name value.

Definition parse_fields (body : list Z) : jsmap string string :=
  foldl (fun fields fieldMatch =>
    match unescapeXml (trim_units (group 2 fieldMatch)) with
    | [] => fields
    | value => assign_field fields (of_code_units (group 1 fieldMatch)) (of_code_units value)
    end) [] (matchAll EVENT_FIELD_REGEX body).

Definition parseEvents (text : list Z) : list ParsedEvent :=
  match exec_text EVENTS_BLOCK_REGEX text with
  | None => []
  | Some blockMatch =>
      (fun elMatch =>
        {| pe_kind := of_code_units (group 1 elMatch);
           pe_atCompartment := Some (parse_ordinal (group 2 elMatch));
           pe_fields := parse_fields (group 3 elMatch) |})
      <$> matchAll EVENT_ELEMENT_REGEX (group 1 blockMatch)
  end.

Definition by_start (a b : ParsedCompartment) : Z := pc_startMessage a - pc_startMessage b.

Definition parseCompartmentOutput (output : string)
    : ParsedCompartmentOutput ParsedFact ParsedEvent ParsedPrimerCandidate :=
  let text := code_units output in
  {| po_compartments :=
       js_sort by_start
         (omap (fun m => parse_compartment (group 1 m) (group 2 m)) (matchAll COMPARTMENT_REGEX text));
     po_facts := parse_facts text;
     po_events := parseEvents text;
     po_unprocessedFrom :=
       (fun m => parse_ordinal (group 1 m)) <$> exec_text UNPROCESSED_REGEX text;
     po_userObservations := parse_observations text;
     po_primerCandidates := parse_primers text |}.

(** [validateHistorianOutput] of a text. *)
Definition validateHistorianText (text : string) (chunk : HistorianValidationChunk)
    (sequenceOffset : Z) : result validation_error (ValidatedHistorianPass ParsedFact ParsedEvent ParsedPrimerCandidate) :=
  validateHistorianOutput (parseCompartmentOutput text) chunk sequenceOffset.

(** ** The escapes *)

Definition escape_step (c : Z) (entity : string) : list Z → list Z :=
  replaceAll (Lit [c]) (code_units entity).

Definition escapeXmlAttr (s : string) : string :=
  of_code_units (escape_step 62 "&gt;" (escape_step 60 "&lt;" (escape_step 39 "&apos;"
    (escape_step dquote "&quot;" (escape_step 38 "&amp;" (code_units s)))))).

Definition escapeXmlContent (s : string) : string :=
  of_code_units (escape_step 62 "&gt;" (escape_step 60 "&lt;" (escape_step 38 "&amp;" (code_units s)))).

(** ** Specification *)

Definition fact_categories : list string :=
  ["PROJECT_RULES"; "ARCHITECTURE"; "CONSTRAINTS"; "CONFIG_VALUES"; "NAMING"]%string.

(** A compartment has a title and a body, and either no tiers or all four, the
    first of which is the body and not blank. *)
Definition parsed_compartment_wf (c : ParsedCompartment) : Prop :=
  0 ≤ pc_startMessage c ∧ 0 ≤ pc_endMessage c ∧ pc_title c ≠ ""%string ∧ pc_content c ≠ ""%string ∧
  match pc_p1 c with
  | Some p1 => p1 = pc_content c ∧ missing_p1 c = false ∧
               is_Some (pc_p2 c) ∧ is_Some (pc_p3 c) ∧ is_Some (pc_p4 c)
  | None => pc_p2 c = None ∧ pc_p3 c = None ∧ pc_p4 c = None
  end.

Definition is_tag_name (s : string) : Prop :=
  s ≠ ""%string ∧ Forall (fun u => 97 ≤ u ≤ 122 ∨ u = 95) (code_units s).

Definition parsed_event_wf (e : ParsedEvent) : Prop :=
  is_tag_name (pe_kind e) ∧ (∃ n, pe_atCompartment e = Some n ∧ 0 ≤ n) ∧
  JsMap.wf (pe_fields e) ∧ "__proto__"%string ∉ JsMap.keys (pe_fields e) ∧
  Forall (fun f => is_tag_name f.1 ∧ f.2 ≠ ""%string) (pe_fields e).

Definition parsed_output_wf (o : ParsedCompartmentOutput ParsedFact ParsedEvent ParsedPrimerCandidate) : Prop :=
  StronglySorted (fun a b => by_start a b ≤ 0) (po_compartments o) ∧
  Forall parsed_compartment_wf (po_compartments o) ∧
  Forall (fun f => pf_category f ∈ fact_categories ∧ pf_content f ≠ ""%string) (po_facts o) ∧
  Forall parsed_event_wf (po_events o) ∧
  (∀ u, po_unprocessedFrom o = Some u → 0 ≤ u) ∧
  Forall (fun s => s ≠ ""%string) (po_userObservations o) ∧
  Forall (fun p => pp_question p ≠ ""%string) (po_primerCandidates o) ∧
  (Forall (fun p => pp_originCompartmentIndex p = None) (po_primerCandidates o) ∨
   Forall (fun p => ∃ n, pp_originCompartmentIndex p = Some n ∧ 0 ≤ n) (po_primerCandidates o)).

(** ** Escapes and entities *)

#[local] Arguments unescapeXml : simpl never.
#[local] Arguments replaceAll : simpl never.
#[local] Arguments exec_text : simpl never.
#[local] Arguments matchAll : simpl never.
#[local] Arguments extractTier : simpl never.

Lemma replace_subset p sub (P : Z → Prop) : p ≠ [] → Forall P sub → ∀ l, Forall P l →
  Forall P (replaceAll (Lit p) sub l).
Proof.
  intros Hp Hs l. remember (length l) as n eqn:E. assert (length l ≤ n)%nat as Hn by lia. clear E.
  revert l Hn. induction n as [|n IH]; intros [|u l] Hn Hl; cbn in Hn; try lia; try by rewrite replaceAll_nil.
  destruct (strip_prefix Z.eqb p (u :: l)) as [l'|] eqn:E.
  - pose proof (strip_prefix_shorter p Hp _ _ E) as Hlt. apply strip_prefix_inv in E. cbn in Hlt.
    rewrite E in Hl |- *. rewrite replaceAll_hit by done. apply Forall_app in Hl as [_ Hl].
    apply Forall_app. split; [done|]. apply IH; [lia|done].
  - rewrite replaceAll_miss by done. apply Forall_cons in Hl as [Hu Hl]. constructor; [done|]. apply IH; [lia|done].
Qed.

Lemma replace_head p c l : p ≠ [] → is_space c = false → unspaced_head l →
  unspaced_head (replaceAll (Lit p) [c] l).
Proof.
  intros Hp Hc Hl. destruct l as [|u l]; [by rewrite replaceAll_nil|].
  destruct (strip_prefix Z.eqb p (u :: l)) as [l'|] eqn:E.
  - rewrite (strip_prefix_inv _ _ _ E), replaceAll_hit by done. by intros v [= <-].
  - rewrite replaceAll_miss by done. intros v [= <-]. by apply Hl.
Qed.

Lemma unescape_head l : unspaced_head l → unspaced_head (unescapeXml l).
Proof. intros H. unfold unescapeXml, lit. by repeat apply replace_head. Qed.

Definition units_ok (l : list Z) : Prop := Forall (fun u => 0 ≤ u < 256) l.

Lemma units_sub l k : units_ok k → l ⊆ k → units_ok l.
Proof. unfold units_ok. rewrite !Forall_forall. intros H Hs u Hu. by apply H, Hs. Qed.

Lemma unescape_units l : units_ok l → units_ok (unescapeXml l).
Proof.
  intros H. unfold unescapeXml, lit, dquote.
  repeat (apply replace_subset; [done|by repeat constructor|]). done.
Qed.

Lemma trim_units_sub l : trim_units l ⊆ l.
Proof. destruct (trim_units_split l) as (s1 & s2 & E & _). rewrite E at 2. set_solver. Qed.

Lemma trim_units_head l : unspaced_head (trim_units l).
Proof. by destruct (trim_units_split l) as (s1 & s2 & _ & _ & _ & H & _). Qed.

Lemma trim_units_keeps u l : is_space u = false → trim_units (u :: l) ≠ [].
Proof.
  intros Hu E. destruct (trim_units_split (u :: l)) as (s1 & s2 & El & H1 & H2 & _). rewrite E in El. cbn in El.
  assert (u ∈ s1 ++ s2) as Hin by (rewrite <- El; by left).
  rewrite Forall_forall in H1, H2. apply elem_of_app in Hin as [Hin|Hin]; [apply H1 in Hin|apply H2 in Hin]; congruence.
Qed.

Lemma of_code_units_nonempty l : l ≠ [] → of_code_units l ≠ ""%string.
Proof. by destruct l. Qed.

Lemma floor_ordinal_nonneg n : 0 ≤ n → 0 ≤ floorZ (nofZ n).
Proof.
  intros Hn. unfold nofZ, binary_normalize. destruct n as [|p|p]; [done| |lia].
  pose proof (binary_round_signed false p 0) as H.
  destruct (binary_round 53 1024 false p 0) as [s|s| |s m e]; cbn in *; try lia. subst.
  case_match eqn:E; [|apply Z.div_pos; [lia|]]; [apply Z.mul_nonneg_nonneg; [lia|]|]; apply Z.leb_nle in E || apply Z.leb_le in E; nia.
Qed.

Lemma digits_value_nonneg ds : Forall (fun u => is_digit u = true) ds → 0 ≤ digits_value ds.
Proof.
  intros H. unfold digits_value. assert (∀ n, 0 ≤ n → 0 ≤ foldl (fun n u => 10 * n + (u - 48)) n ds) as Hg;
    [|by apply Hg].
  induction H as [|u ds Hu _ IH]; intros n Hn; cbn; [done|]. apply IH. unfold is_digit in Hu. bool_hyps. lia.
Qed.

Lemma parse_ordinal_nonneg ds : Forall (fun u => is_digit u = true) ds → 0 ≤ parse_ordinal ds.
Proof.
  intros H. unfold parse_ordinal. case_match; [by apply floor_ordinal_nonneg, digits_value_nonneg|lia].
Qed.

(** The group of digits in an attribute. *)
Definition digits_in (k : nat) : nat → list Z → Prop :=
  fun n b => n = k → Forall (fun u => is_digit u = true) b.

Lemma digit_group k : ∀ b, spells (Plus digit) b → digits_in k k b.
Proof. intros b Hb _. by apply spells_plus in Hb as [_ ?]. Qed.

Lemma number_attr_digits name l m : exec_text (number_attr name) l = Some m →
  0 ≤ parse_ordinal (group 1 m).
Proof.
  intros H. apply parse_ordinal_nonneg. refine (group_good (digits_in 1) (number_attr name) 1 _ _ _ _ eq_refl H eq_refl).
  cbn. split_and!; first [done|apply digit_group].
Qed.

Lemma extractTier_text inner i p : extractTier inner i = Some p → p ≠ [] →
  ∃ body, body ⊆ inner ∧ p = unescapeXml (trim_units body).
Proof.
  unfold extractTier. intros H Hp. destruct (exec_text _ inner) as [m|] eqn:E; [|done].
  destruct (search_within _ _ _ _ E) as (_ & Hr & _).
  assert (∃ body, body ⊆ inner ∧ Some (unescapeXml (trim_units body)) = Some p) as (body & Hb & Eb).
  { set (from := rest (after m)) in *.
    set (b1 := match exec_text TIER_CLOSE_ANY_REGEX from with None => from | Some m => skipped m end) in *.
    set (b2 := match exec_text TIER_OPEN_ANY_REGEX b1 with None => b1 | Some m => skipped m end) in *.
    assert (b1 ⊆ inner) as H1.
    { unfold b1. destruct (exec_text _ from) as [m'|] eqn:Ec; [|exact Hr]. apply search_within in Ec as (? & _). set_solver. }
    assert (b2 ⊆ inner) as H2.
    { unfold b2. destruct (exec_text _ b1) as [m'|] eqn:Ec; [|exact H1]. apply search_within in Ec as (? & _). set_solver. }
    exists b2. split; [done|]. repeat case_match; by simplify_eq. }
  exists body. by simplify_eq.
Qed.

(** A tier or body that is not empty is not blank. *)
Lemma unescaped_not_blank body : units_ok body → unescapeXml (trim_units body) ≠ [] →
  trim (of_code_units (unescapeXml (trim_units body))) ≠ ""%string.
Proof.
  intros Hu Hne. assert (units_ok (unescapeXml (trim_units body))) as Hb.
  { eapply unescape_units, units_sub, trim_units_sub. done. }
  pose proof (unescape_head _ (trim_units_head body)) as Hh. unfold trim.
  destruct (unescapeXml (trim_units body)) as [|u l]; [done|].
  rewrite code_units_of by done. apply of_code_units_nonempty, trim_units_keeps. by apply Hh.
Qed.

Lemma parse_compartment_sound attrs inner c : units_ok inner →
  parse_compartment attrs inner = Some c → parsed_compartment_wf c.
Proof.
  intros Hu H. unfold parse_compartment in H.
  destruct (exec_text ATTR_START_REGEX attrs) as [ms|] eqn:Es; [|done].
  destruct (exec_text ATTR_END_REGEX attrs) as [me|] eqn:Ee; [|done].
  destruct (exec_text ATTR_TITLE_REGEX attrs) as [mt|]; [|done].
  apply number_attr_digits in Es, Ee. destruct (unescapeXml (group 1 mt)) as [|t title]; [done|].
  assert (∀ p, extractTier inner 0 = Some p → p ≠ [] → trim (of_code_units p) ≠ ""%string) as Hb.
  { intros p Hp Hne. apply extractTier_text in Hp as (body & Hs & ->); [|done].
    apply unescaped_not_blank; [by eapply units_sub|done]. }
  destruct (extractTier inner 0) as [[|u p1]|];
    [destruct (unescapeXml (trim_units inner)) as [|u l]; [done|]| |
     destruct (unescapeXml (trim_units inner)) as [|u l]; [done|]];
    simplify_eq; unfold parsed_compartment_wf; cbn; split_and!; try done; eauto.
  refine (proj2 (String.eqb_neq _ _) (Hb (u :: p1) eq_refl _)). done.
Qed.

(** *** Unescaping what was escaped *)

(** Replacing a character by its entity, one map for all characters. *)
Definition attr_entity (u : Z) : list Z :=
  if u =? 38 then code_units "&amp;" else if u =? dquote then code_units "&quot;"
  else if u =? 39 then code_units "&apos;" else if u =? 60 then code_units "&lt;"
  else if u =? 62 then code_units "&gt;" else [u].

Definition content_entity (u : Z) : list Z :=
  if u =? 38 then code_units "&amp;" else if u =? 60 then code_units "&lt;"
  else if u =? 62 then code_units "&gt;" else [u].

(** The text spells none of the entities an unescape would read. *)
Definition literal_free (s : string) : bool :=
  forallb (fun e => absent (code_units e) (code_units s) [])
    ["&apos;"; "&quot;"; "&lt;"; "&gt;"]%string.

Lemma escape_step_map c entity l :
  escape_step c entity l = flat_map (fun u => if u =? c then code_units entity else [u]) l.
Proof.
  unfold escape_step. induction l as [|u l IH]; [by rewrite replaceAll_nil|]. cbn [flat_map].
  destruct (Z.eqb_spec u c) as [->|Hne].
  - change (c :: l) with ([c] ++ l). rewrite replaceAll_hit by done. by rewrite IH.
  - rewrite replaceAll_miss, IH; [done|done|]. cbn. case_match eqn:E; [|done]. apply Z.eqb_eq in E. congruence.
Qed.

Lemma flat_map_flat_map {A B C} (f : A → list B) (g : B → list C) l :
  flat_map g (flat_map f l) = flat_map (fun a => flat_map g (f a)) l.
Proof. induction l as [|a l IH]; [done|]. cbn. by rewrite flat_map_app, IH. Qed.

(** A unit is one of the five characters with an entity, or none of them. *)
Ltac by_entity u :=
  destruct (Z.eqb_spec u 38) as [->|?]; [|destruct (Z.eqb_spec u 34) as [->|?];
    [|destruct (Z.eqb_spec u 39) as [->|?]; [|destruct (Z.eqb_spec u 60) as [->|?];
      [|destruct (Z.eqb_spec u 62) as [->|?]]]]].

Lemma entity_units (m : Z → list Z) s :
  (∀ u, 0 ≤ u < 256 → units_ok (m u)) → units_ok (flat_map m (code_units s)).
Proof.
  intros Hm. pose proof (code_units_bound s) as H. induction H as [|u l Hu _ IH]; cbn; [constructor|].
  apply Forall_app. split; [by apply Hm|done].
Qed.

Lemma attr_entity_units u : 0 ≤ u < 256 → units_ok (attr_entity u).
Proof. intros Hu. unfold attr_entity, dquote. by_entity u; repeat constructor; lia. Qed.

Lemma content_entity_units u : 0 ≤ u < 256 → units_ok (content_entity u).
Proof. intros Hu. unfold content_entity. by_entity u; repeat constructor; lia. Qed.

Lemma escape_attr_units s : code_units (escapeXmlAttr s) = flat_map attr_entity (code_units s).
Proof.
  unfold escapeXmlAttr. rewrite !escape_step_map, !flat_map_flat_map.
  rewrite (flat_map_eq _ attr_entity); [by apply code_units_of, entity_units, attr_entity_units|].
  intros u _. unfold attr_entity, dquote. by_entity u; [done..|]. cbn.
  repeat (rewrite (proj2 (Z.eqb_neq _ _)) by done; cbn). done.
Qed.

Lemma escape_content_units s : code_units (escapeXmlContent s) = flat_map content_entity (code_units s).
Proof.
  unfold escapeXmlContent. rewrite !escape_step_map, !flat_map_flat_map.
  rewrite (flat_map_eq _ content_entity); [by apply code_units_of, entity_units, content_entity_units|].
  intros u _. unfold content_entity. by_entity u; cbn;
  repeat (rewrite (proj2 (Z.eqb_neq _ _)) by done; cbn); done.
Qed.

(** One step of the unescape on a text in which [m] replaced characters: it gives
    the character [c] back where [m] put its entity. *)
Section unescape_step.
Context (m : Z → list Z) (c : Z) (e' : list Z).
Let e := 38 :: e'.
Context (Hshape : ∀ u, m u = [u] ∨ ∃ t, m u = 38 :: t ∧ 38 ∉ t)
        (He : 38 ∉ e') (Hplain : Forall (fun x => m x = [x]) e')
        (Hc : m c = e ∨ m c = [c] ∧ c ≠ 38)
        (Hclash : ∀ u k, u ≠ c → m u ≠ [u] → strip_prefix Z.eqb e (m u ++ k) = None).

Lemma plain_prefix p : Forall (fun x => m x = [x]) p → 38 ∉ p → ∀ l k,
  strip_prefix Z.eqb p (flat_map m l) = Some k → is_Some (strip_prefix Z.eqb p l).
Proof.
  induction 1 as [|x p Hx Hp IH]; intros Hn l k H; [by eexists|].
  destruct l as [|v l]; [done|]. cbn [flat_map] in H. destruct (Hshape v) as [Hv|(t & Hv & _)]; rewrite Hv in H.
  - cbn in H |- *. case_match; [|done]. eapply IH, H. set_solver.
  - cbn in H. case_match eqn:E; [|done]. apply Z.eqb_eq in E. set_solver.
Qed.

Lemma unescape_one l : (m 38 = [38] → absent e l [] = true) →
  replaceAll (Lit e) [c] (flat_map m l) = flat_map (fun u => if u =? c then [c] else m u) l.
Proof.
  induction l as [|u l IH]; intros Hfree; [by rewrite replaceAll_nil|]. cbn [flat_map].
  assert (m 38 = [38] → absent e l [] = true) as Hl.
  { intros H. specialize (Hfree H). cbn [absent] in Hfree. by case_match. }
  specialize (IH Hl). destruct (Z.eqb_spec u c) as [->|Hne].
  - destruct Hc as [->|[-> Hc38]]; [by rewrite replaceAll_hit, IH|]. cbn [app].
    rewrite replaceAll_miss, IH; [done|done|]. unfold e. cbn [strip_prefix].
    by destruct (Z.eqb_spec 38 c).
  - destruct (decide (m u = [u])) as [Hu|Hu].
    + rewrite Hu. cbn [app]. rewrite replaceAll_miss, IH; [done|done|]. unfold e. cbn [strip_prefix].
      destruct (Z.eqb_spec 38 u) as [<-|]; [|done].
      destruct (strip_prefix Z.eqb e' (flat_map m l)) as [k|] eqn:E; [|done].
      apply plain_prefix in E as [k' E]; [|done..]. specialize (Hfree Hu). unfold e in Hfree.
      cbn [absent app] in Hfree. rewrite app_nil_r in Hfree. cbn [strip_prefix] in Hfree. rewrite Z.eqb_refl, E in Hfree. done.
    + destruct (Hshape u) as [?|(t & Ht & Hn)]; [done|].
      pose proof (Hclash u (flat_map m l) Hne Hu) as Hs. rewrite Ht in Hs |- *. cbn [app] in Hs |- *.
      rewrite replaceAll_miss by done. f_equal.
      rewrite replaceAll_absent, IH; [done|done|]. by apply absent_free.
Qed.

End unescape_step.

(** The conditions of a step, for a map given by tests on the character. *)
Ltac entity_step :=
  rewrite unescape_one;
  [| (let u := fresh "u" in intros u; unfold attr_entity, content_entity, dquote; cbn beta; by_entity u;
      first [by left|right; eexists; split; [reflexivity|]; intros Hin; repeat (apply elem_of_cons in Hin as [?|Hin]; [done|]); by apply elem_of_nil in Hin])
   | (intros Hin; repeat (apply elem_of_cons in Hin as [?|Hin]; [done|]); by apply elem_of_nil in Hin)
   | by repeat constructor
   | first [by left|by right]
   | (let u := fresh "u" in intros u ?; unfold attr_entity, content_entity, dquote; cbn beta; by_entity u; done)
   | ].

Lemma literal_free_absent s e : literal_free s = true → e ∈ ["&apos;"; "&quot;"; "&lt;"; "&gt;"]%string →
  absent (code_units e) (code_units s) [] = true.
Proof. unfold literal_free. rewrite forallb_forall. intros H He. by apply H, list_elem_of_In. Qed.

Lemma flat_map_units l : flat_map (fun u : Z => [u]) l = l.
Proof. induction l as [|u l IH]; [done|]. cbn. by rewrite IH. Qed.

(** The five steps of [unescapeXml], each of which gives one character back. *)
Ltac unescape_steps s Hs :=
  unfold unescapeXml, lit;
  change (code_units "&amp;") with (38 :: code_units "amp;"); entity_step; [|done];
  change (code_units "&apos;") with (38 :: code_units "apos;");
  entity_step; [|intros _; apply (literal_free_absent s "&apos;"); [done|set_solver]];
  change (code_units "&quot;") with (38 :: code_units "quot;");
  entity_step; [|intros _; apply (literal_free_absent s "&quot;"); [done|set_solver]];
  change (code_units "&lt;") with (38 :: code_units "lt;");
  entity_step; [|intros _; apply (literal_free_absent s "&lt;"); [done|set_solver]];
  change (code_units "&gt;") with (38 :: code_units "gt;");
  entity_step; [|intros _; apply (literal_free_absent s "&gt;"); [done|set_solver]];
  rewrite (flat_map_eq _ (fun u => [u])); [apply flat_map_units|];
  intros u _; unfold attr_entity, content_entity, dquote; by_entity u; done.

(** Unescaping gives an escaped text back, unless it spelled an entity itself. *)
Lemma unescape_attr s : literal_free s = true → unescapeXml (code_units (escapeXmlAttr s)) = code_units s.
Proof. intros Hs. rewrite escape_attr_units. unescape_steps s Hs. Qed.

Lemma unescape_content s : literal_free s = true →
  unescapeXml (code_units (escapeXmlContent s)) = code_units s.
Proof. intros Hs. rewrite escape_content_units. unescape_steps s Hs. Qed.

(** Trimming commutes with escaping. *)
Lemma drop_spaces_map (m : Z → list Z) l :
  (∀ u, is_space u = true → m u = [u]) →
  (∀ u, is_space u = false → m u ≠ [] ∧ unspaced_head (m u)) →
  drop_spaces (flat_map m l) = flat_map m (drop_spaces l).
Proof.
  intros Hs Hn. induction l as [|u l IH]; [done|]. cbn [flat_map drop_spaces].
  destruct (is_space u) eqn:Hu.
  - rewrite (Hs u Hu). cbn. by rewrite Hu.
  - cbn [flat_map]. destruct (Hn u Hu) as [Hne Hh]. destruct (m u) as [|v k]; [done|].
    cbn. by rewrite (Hh v).
Qed.

Lemma rev_flat_map {A B} (f : A → list B) l : rev (flat_map f l) = flat_map (fun a => rev (f a)) (rev l).
Proof.
  induction l as [|a l IH]; [done|]. cbn. rewrite rev_app_distr, IH, flat_map_app. cbn. by rewrite app_nil_r.
Qed.

Lemma content_entity_spaces u : is_space u = true → content_entity u = [u].
Proof. unfold content_entity. by_entity u; done. Qed.

Lemma content_entity_ends u : is_space u = false →
  (content_entity u ≠ [] ∧ unspaced_head (content_entity u)) ∧
  (rev (content_entity u) ≠ [] ∧ unspaced_head (rev (content_entity u))).
Proof. intros Hu. unfold content_entity. by_entity u; (split; (split; [done|by intros v [= <-]])). Qed.

Lemma trim_escaped l : trim_units (flat_map content_entity l) = flat_map content_entity (trim_units l).
Proof.
  unfold trim_units.
  rewrite drop_spaces_map by (apply content_entity_spaces || (intros u Hu; by apply content_entity_ends)).
  rewrite rev_flat_map, drop_spaces_map, rev_flat_map.
  - apply flat_map_eq. intros u _. apply rev_involutive.
  - intros u Hu. by rewrite content_entity_spaces.
  - intros u Hu. by apply content_entity_ends.
Qed.

(** Trimming drops white space put around a text. *)
Lemma trim_units_pad a b l : is_space a = true → is_space b = true →
  trim_units (a :: l ++ [b]) = trim_units l.
Proof.
  intros Ha Hb. unfold trim_units. cbn [drop_spaces]. rewrite Ha.
  assert (drop_spaces (l ++ [b]) = match drop_spaces l with [] => [] | k => k ++ [b] end) as ->.
  { induction l as [|u l IH]; cbn; [by rewrite Hb|]. by destruct (is_space u). }
  destruct (drop_spaces l) as [|u k]; [done|]. change ((u :: k) ++ [b]) with ((u :: k) ++ [b]).
  rewrite rev_app_distr. cbn [rev app drop_spaces]. by rewrite Hb.
Qed.

(** *** The whole output *)

Lemma item_texts_nonempty r block : Forall (fun l => l ≠ []) (item_texts r block).
Proof. apply Forall_forall. by intros l [? _]%list_elem_of_filter. Qed.

Lemma category_names b : spells category_name b → of_code_units b ∈ fact_categories.
Proof.
  intros H. unfold category_name in H.
  repeat match goal with H : spells (Alt _ _) _ |- _ => inversion H; clear H; subst end;
    match goal with H : spells (lit _) _ |- _ => inversion H; subst end;
    rewrite of_code_units_units; unfold fact_categories; set_solver.
Qed.

Lemma tag_names b : units_ok b → spells tag_name b → is_tag_name (of_code_units b).
Proof.
  intros Hu [Hne Hb]%spells_plus. split; [by apply of_code_units_nonempty|].
  rewrite code_units_of by done. eapply Forall_impl; [exact Hb|]. cbn. intros u Hx. lia.
Qed.

Lemma assign_field_wf fields name value :
  JsMap.wf fields → "__proto__"%string ∉ JsMap.keys fields →
  Forall (fun f => is_tag_name f.1 ∧ f.2 ≠ ""%string) fields → is_tag_name name → value ≠ ""%string →
  JsMap.wf (assign_field fields name value) ∧
  "__proto__"%string ∉ JsMap.keys (assign_field fields name value) ∧
  Forall (fun f => is_tag_name f.1 ∧ f.2 ≠ ""%string) (assign_field fields name value).
Proof.
  intros Hw Hk Hf Hn Hv. unfold assign_field. destruct (String.eqb_spec name "__proto__") as [|Hne]; [done|].
  split; [by apply wf_set|]. split.
  - rewrite keys_set. case_decide; set_solver.
  - clear Hw Hk. induction Hf as [|[k v] fields H Hfs IH]; cbn.
    { apply Forall_singleton. done. }
    case_decide as Hd; apply Forall_cons; [split; [by subst|done]|by split].
Qed.

Lemma parse_fields_wf body : units_ok body →
  JsMap.wf (parse_fields body) ∧ "__proto__"%string ∉ JsMap.keys (parse_fields body) ∧
  Forall (fun f => is_tag_name f.1 ∧ f.2 ≠ ""%string) (parse_fields body).
Proof.
  intros Hu. unfold parse_fields.
  assert (∀ m, m ∈ matchAll EVENT_FIELD_REGEX body → is_tag_name (of_code_units (group 1 m))) as Hn.
  { intros m Hm. apply tag_names; [eapply units_sub; [exact Hu|by eapply matches_within]|].
    refine (group_all (fun n b => n = 1%nat → spells tag_name b) EVENT_FIELD_REGEX 1 _ _ _ eq_refl Hm eq_refl).
    cbn. split_and!; done. }
  revert Hn. generalize (matchAll EVENT_FIELD_REGEX body). intros ms Hn.
  assert (∀ fields, JsMap.wf fields ∧ "__proto__"%string ∉ JsMap.keys fields ∧
    Forall (fun f => is_tag_name f.1 ∧ f.2 ≠ ""%string) fields →
    let r := foldl (fun fields fieldMatch =>
      match unescapeXml (trim_units (group 2 fieldMatch)) with
      | [] => fields
      | value => assign_field fields (of_code_units (group 1 fieldMatch)) (of_code_units value)
      end) fields ms in
    JsMap.wf r ∧ "__proto__"%string ∉ JsMap.keys r ∧ Forall (fun f => is_tag_name f.1 ∧ f.2 ≠ ""%string) r) as Hg;
    [|apply Hg; split_and!; [constructor|set_solver|constructor]].
  induction ms as [|m ms IH]; intros fields (Hw & Hk & Hf); cbn; [done|].
  apply IH; [set_solver|]. destruct (unescapeXml (trim_units (group 2 m))) as [|u l] eqn:E; [by split_and!|].
  apply assign_field_wf; try done. apply Hn. by left.
Qed.

Lemma group_units r bef l m n : units_ok l → search r bef l = Some m → units_ok (group n m).
Proof. intros Hu Hs. eapply units_sub; [exact Hu|]. by apply search_within in Hs as (_ & _ & H). Qed.

Lemma groups_units r l m n : units_ok l → m ∈ matchAll r l → units_ok (group n m).
Proof. intros Hu Hm. eapply units_sub; [exact Hu|]. by eapply matches_within. Qed.

Lemma event_wf text e : units_ok text → e ∈ parseEvents text → parsed_event_wf e.
Proof.
  intros Hu He. unfold parseEvents in He.
  destruct (exec_text EVENTS_BLOCK_REGEX text) as [b|] eqn:Eb; [|by apply elem_of_nil in He].
  apply list_elem_of_fmap in He as (m & -> & Hm). pose proof (group_units _ _ _ _ 1 Hu Eb) as Hb.
  set (good n b' := (n = 1%nat → spells tag_name b') ∧ (n = 2%nat → Forall (fun u => is_digit u = true) b')).
  assert (respects good EVENT_ELEMENT_REGEX) as Hr.
  { cbn. unfold good. split_and!; try done. intros b' Hb'. split; [done|]. intros _.
    by apply spells_plus in Hb' as [_ ?]. }
  unfold parsed_event_wf. cbn [pe_kind pe_atCompartment pe_fields]. split.
  - apply tag_names; [by eapply groups_units|].
    by apply (group_all good EVENT_ELEMENT_REGEX 1 _ _ Hr eq_refl Hm).
  - split; [|by eapply parse_fields_wf, groups_units]. eexists. split; [done|].
    apply parse_ordinal_nonneg. by apply (group_all good EVENT_ELEMENT_REGEX 2 _ _ Hr eq_refl Hm).
Qed.

Lemma fact_wf text f : f ∈ parse_facts text → pf_category f ∈ fact_categories ∧ pf_content f ≠ ""%string.
Proof.
  unfold parse_facts. intros Hf. apply list_elem_of_In, in_flat_map in Hf as (m & Hm & Hf).
  apply in_map_iff in Hf as (l & <- & Hl). cbn. apply list_elem_of_In in Hm, Hl. split.
  - apply category_names.
    refine (group_all (fun n b => n = 1%nat → spells category_name b) CATEGORY_BLOCK_REGEX 1 _ _ _ eq_refl Hm eq_refl).
    cbn. split_and!; done.
  - apply of_code_units_nonempty. by apply list_elem_of_filter in Hl as [? _].
Qed.

Lemma observations_wf text : Forall (fun s => s ≠ ""%string) (parse_observations text).
Proof.
  unfold parse_observations. case_match; [|constructor]. apply Forall_fmap.
  eapply Forall_impl; [apply item_texts_nonempty|]. intros l. apply of_code_units_nonempty.
Qed.

Lemma primers_wf text :
  Forall (fun p => pp_question p ≠ ""%string) (parse_primers text) ∧
  (Forall (fun p => pp_originCompartmentIndex p = None) (parse_primers text) ∨
   Forall (fun p => ∃ n, pp_originCompartmentIndex p = Some n ∧ 0 ≤ n) (parse_primers text)).
Proof.
  unfold parse_primers. case_match; [|split; [constructor|left; constructor]].
  destruct (matchAll PRIMER_ELEMENT_REGEX _) as [|e es] eqn:E.
  - split; [|left]; apply Forall_fmap; (eapply Forall_impl; [apply item_texts_nonempty|]); intros l Hl;
      [by apply of_code_units_nonempty|done].
  - rewrite <- E. clear E e es. split; [|right]; apply Forall_forall; intros p Hp;
      apply list_elem_of_omap in Hp as (el & Hm & Hp);
      destruct (unescapeXml (trim_units (group 2 el))) as [|u l]; simplify_eq; [done|].
    cbn. eexists. split; [done|]. apply parse_ordinal_nonneg.
    refine (group_all (digits_in 1) PRIMER_ELEMENT_REGEX 1 _ _ _ eq_refl Hm eq_refl).
    cbn. split_and!; first [done|apply digit_group].
Qed.

Lemma parsed_start_total a b : by_start a b ≤ 0 ∨ by_start b a ≤ 0.
Proof. unfold by_start. lia. Qed.

Lemma parsed_start_trans a b c : by_start a b ≤ 0 → by_start b c ≤ 0 → by_start a c ≤ 0.
Proof. unfold by_start. lia. Qed.

(** ** Properties *)

(** C9: whatever a model answers, the parsed output is well formed: compartments in
    order of their start, each with ordinals that are not negative, a title and a body
    that are not empty, and either no tier or all four, of which the first is the body
    and not blank while the others may be empty; facts of the five categories with a
    text that is not empty; events with tag-like names, a compartment that is not
    negative, and fields, none named __proto__, whose names are tag-like and whose
    values are not empty; observations and primer questions that are not empty; and of
    the primer candidates either each has an origin or none has. *)
Theorem parsed_output_sound (output : string) : parsed_output_wf (parseCompartmentOutput output).
Proof.
  pose proof (code_units_bound output : units_ok (code_units output)) as Hu.
  unfold parsed_output_wf, parseCompartmentOutput.
  cbn [po_compartments po_facts po_events po_unprocessedFrom po_userObservations po_primerCandidates].
  split_and!; try apply primers_wf; try apply observations_wf.
  - apply js_sort_sorted; [apply parsed_start_total|apply parsed_start_trans].
  - apply Forall_forall. intros c Hc. apply js_sort_in, list_elem_of_omap in Hc as (m & Hm & Hc).
    eapply parse_compartment_sound, Hc. by eapply groups_units.
  - apply Forall_forall. intros f. apply fact_wf.
  - apply Forall_forall. intros e. by apply event_wf.
  - intros u Hs. destruct (exec_text UNPROCESSED_REGEX (code_units output)) as [m|] eqn:E; [|done]. cbn in Hs. simplify_eq.
    apply parse_ordinal_nonneg.
    refine (group_good (digits_in 1) UNPROCESSED_REGEX 1 _ _ _ _ eq_refl E eq_refl).
    cbn. split_and!; first [done|apply digit_group].
Qed.
