(* ===== verification/References.v ===== *)
(** * Reference compartments for the historian's prompt

    Models packages/plugin/src/hooks/magic-context/reference-retrieval.ts: the
    choice of example seeds by a hash of the session and the chunk, and the
    rendering of the session's latest compartments in the form the historian is
    to answer in.  The seed corpus is a generated file and a parameter; a seed is
    named by its position in it, as the code compares seeds by identity. *)

From S2P Require Import Prelude JsNumber JsExact JsMap JsValue JsString TokenEstimate SessionText HistorianValidation JsRegExp CompartmentParser.

Record ReferenceCompartment := {
  rc_startMessage : Z;
  rc_endMessage : Z;
  rc_title : string;
  rc_content : string;
  rc_p1 : option string;
  rc_p2 : option string;
  rc_p3 : option string;
  rc_p4 : option string;
  rc_importance : option num;
  rc_episodeType : option string
}.

Record ReferenceSeed := { rs_importance : num; rs_block : string }.

Definition SEED_FLOOR : nat := 4.
Definition SESSION_REF_WINDOW : nat := 6.

(** ** Seeds *)

Definition SEED_BANDS : list (Z * Z) := [(85, 100); (60, 84); (30, 59); (10, 29); (1, 9)].

Fixpoint band_from (i : nat) (bands : list (Z * Z)) (importance : num) : option nat :=
  match bands with
  | [] => None
  | (lo, hi) :: bands =>
      if nleb (nofZ lo) importance && nleb importance (nofZ hi) then Some i
      else band_from (S i) bands importance
  end.

Definition seedBandIndex (importance : num) : nat :=
  match band_from 0 SEED_BANDS importance with
  | Some i => i
  | None => if nltb (nofZ 100) importance then 0 else length SEED_BANDS - 1
  end.

(** [Int32] left shift. *)
Definition shl (h k : Z) : Z := int32 (Z.shiftl h k).

Definition fnv1a_step (h unit : Z) : Z :=
  let h := Z.lxor (int32 h) unit in
  uint32 (h + (shl h 1 + shl h 4 + shl h 7 + shl h 8 + shl h 24)).

Definition fnv1a (input : string) : Z := uint32 (foldl fnv1a_step 0x811c9dc5 (code_units input)).

Section references.
Context `{Engine} (REFERENCE_SEEDS : list ReferenceSeed).

Definition seed_count : nat := length REFERENCE_SEEDS.

(** The positions of the seeds of a band. *)
Definition seeds_of_band (b : nat) : list nat :=
  filter (fun i => seedBandIndex (default NaN (rs_importance <$> REFERENCE_SEEDS !! i)) = b)
    (seq 0 seed_count).

Definition seedsByBand : list (list nat) := seeds_of_band <$> seq 0 (length SEED_BANDS).

Definition pick (candidate : nat) (picks : list nat) : list nat :=
  if decide (candidate ∈ picks) then picks else picks ++ [candidate].

(** The walk over the bands: [guard] turns are left and [bi] were taken. *)
Fixpoint walk_bands (guard : nat) (bands : list (list nat)) (bandOrder : list nat) (seed : Z)
    (count bi : nat) (picks : list nat) : list nat :=
  match guard with
  | O => picks
  | S guard =>
      if (length picks <? count)%nat then
        let band := default [] (bands !! default 0%nat (bandOrder !! (bi mod length bandOrder)%nat)) in
        let picks :=
          match band with
          | [] => picks
          | _ =>
              let idx := (seed + lengthZ picks) mod lengthZ band in
              match band !! Z.to_nat idx with
              | Some candidate => pick candidate picks
              | None => picks
              end
          end in
        walk_bands guard bands bandOrder seed count (S bi) picks
      else picks
  end.

(** The fallback over the whole corpus, from its turn [i] on. *)
Fixpoint fill (turns : nat) (seed : Z) (count : nat) (i : Z) (picks : list nat) : list nat :=
  match turns with
  | O => picks
  | S turns =>
      if (length picks <? count)%nat then
        fill turns seed count (i + 1) (pick (Z.to_nat ((seed + i) mod Z.of_nat seed_count)) picks)
      else picks
  end.

Definition band_order (seed : Z) : list nat :=
  (fun i => Z.to_nat ((Z.of_nat i + seed mod lengthZ SEED_BANDS) mod lengthZ SEED_BANDS))
    <$> seq 0 (length SEED_BANDS).

Definition select_from (seed : Z) (count : nat) : list nat :=
  fill seed_count seed count 0
    (walk_bands (length SEED_BANDS * 4) seedsByBand (band_order seed) seed count 0 []).

Definition selectSeeds (sessionId : string) (chunkStart : Z) (count : nat) : list nat :=
  select_from (fnv1a (sessionId ++ ":" ++ str_of_Z chunkStart)%string) count.

(** ** Rendering *)

Definition nl : string := str_of_unit 10.

Definition renderSeedExamplesBlock (seeds : list nat) : string :=
  match seeds with
  | [] => ""
  | _ =>
      ("<compartment_examples_from_other_projects>" ++ nl ++
       join (nl ++ nl) ((fun i => default "" (rs_block <$> REFERENCE_SEEDS !! i)) <$> seeds) ++ nl ++
       "</compartment_examples_from_other_projects>")%string
  end.

Definition quoted (name value : string) : string := (name ++ "=" ++ quote ++ value ++ quote)%string.

(** The text is present and not empty. *)
Definition text_of (o : option string) : option string :=
  match o with Some ""%string => None | o => o end.

Definition ref_attrs (c : ReferenceCompartment) : string :=
  (quoted "start" (str_of_Z (rc_startMessage c)) ++ " " ++
   quoted "end" (str_of_Z (rc_endMessage c)) ++ " " ++
   quoted "title" (escapeXmlAttr (rc_title c)) ++
   match text_of (rc_episodeType c) with
   | Some episodeType => " " ++ quoted "episode_type" (escapeXmlAttr episodeType)
   | None => ""
   end ++ " " ++
   quoted "importance" (numberToString (default (nofZ 50) (rc_importance c))))%string.

Definition tier_element (name body : string) : string :=
  ("<" ++ name ++ ">" ++ nl ++ body ++ nl ++ "</" ++ name ++ ">")%string.

Definition renderSessionRefCompartment (c : ReferenceCompartment) : string :=
  match text_of (rc_p1 c) with
  | Some p1 =>
      join nl
        ["<compartment " ++ ref_attrs c ++ ">";
         tier_element "p1" (escapeXmlContent p1);
         tier_element "p2" (escapeXmlContent (default "" (rc_p2 c)));
         tier_element "p3" (escapeXmlContent (default "" (rc_p3 c)));
         match text_of (rc_p4 c) with
         | Some p4 => tier_element "p4" (escapeXmlContent p4)
         | None => "<p4/>"
         end;
         "</compartment>"]%string
  | None =>
      ("<compartment " ++ ref_attrs c ++ ">" ++ nl ++ escapeXmlContent (rc_content c) ++ nl ++
       "</compartment>")%string
  end.

(** [slice(-SESSION_REF_WINDOW)]. *)
Definition recent (all : list ReferenceCompartment) : list ReferenceCompartment :=
  drop (length all - SESSION_REF_WINDOW) all.

Definition renderSessionReferencesBlock (all : list ReferenceCompartment) : string :=
  match all with
  | [] => ""
  | _ =>
      ("<session_references>" ++ nl ++
       join (nl ++ nl) (renderSessionRefCompartment <$> recent all) ++ nl ++
       "</session_references>")%string
  end.

Definition buildReferenceBlocks (sessionId : string) (chunkStart : Z)
    (sessionCompartments : list ReferenceCompartment) : string * string :=
  (renderSeedExamplesBlock (selectSeeds sessionId chunkStart SEED_FLOOR),
   renderSessionReferencesBlock sessionCompartments).

End references.

(** ** Lemmas: the hash *)

Lemma int32_shift z : ∃ k, int32 z = z + k * 2 ^ 32.
Proof.
  exists (- ((z + 2 ^ 31) / 2 ^ 32)). unfold int32.
  pose proof (Z.div_mod (z + 2 ^ 31) (2 ^ 32) ltac:(done)). lia.
Qed.

(** The sum of shifts is the multiplication by the prime. *)
Lemma fnv1a_step_eq h u : fnv1a_step h u = fnv_step h u.
Proof.
  unfold fnv1a_step, fnv_step, shl. set (x := Z.lxor (int32 h) u).
  rewrite uint32_int32, !Z.shiftl_mul_pow2 by lia.
  destruct (int32_shift x) as [k ->]. unfold FNV1A_32_PRIME, uint32.
  destruct (int32_shift (x * 2 ^ 1)) as [k1 ->], (int32_shift (x * 2 ^ 4)) as [k4 ->],
    (int32_shift (x * 2 ^ 7)) as [k7 ->], (int32_shift (x * 2 ^ 8)) as [k8 ->],
    (int32_shift (x * 2 ^ 24)) as [k24 ->].
  replace (x + _) with (x * 0x1000193 + (k1 + k4 + k7 + k8 + k24) * 2 ^ 32) by lia.
  replace ((x + k * 2 ^ 32) * 0x1000193) with (x * 0x1000193 + (k * 0x1000193) * 2 ^ 32) by lia.
  by rewrite !Z.mod_add by done.
Qed.

Lemma fnv1a_fold input : fnv1a input = updateFnv1a32 FNV1A_32_OFFSET input.
Proof.
  unfold fnv1a, updateFnv1a32. change 0x811c9dc5 with FNV1A_32_OFFSET.
  assert (∀ l h, foldl fnv1a_step h l = foldl fnv_step h l) as ->.
  { induction l as [|u l IH]; intros h; cbn; [done|]. by rewrite fnv1a_step_eq. }
  assert (∀ l h, 0 ≤ h < 2 ^ 32 → 0 ≤ foldl fnv_step h l < 2 ^ 32) as H.
  { induction l as [|u l IH]; intros h Hh; cbn; [done|]. apply IH. unfold fnv_step, uint32.
    apply Z.mod_pos_bound. lia. }
  apply Z.mod_small. by apply H.
Qed.

(** ** Lemmas: the seeds *)

Section seeds.
Context `{Engine} (REFERENCE_SEEDS : list ReferenceSeed).
Local Abbreviation n := (seed_count REFERENCE_SEEDS).

(** Distinct positions of the corpus, at most [count]. *)
Definition picks_ok (count : nat) (picks : list nat) : Prop :=
  NoDup picks ∧ (∀ i, i ∈ picks → (i < n)%nat) ∧ (length picks <= count)%nat.

Lemma pick_ok count i picks : picks_ok count picks → (i < n)%nat → (length picks < count)%nat →
  picks_ok count (pick i picks).
Proof.
  intros (Hn & Hb & Hl) Hi Hc. unfold pick. case_decide; [done|]. split_and!.
  - apply NoDup_app. split_and!; [done|set_solver|apply NoDup_singleton].
  - intros j [Hj|Hj%list_elem_of_singleton]%elem_of_app; [auto|by subst].
  - rewrite length_app. cbn. lia.
Qed.

Lemma pick_in i picks : i ∈ pick i picks.
Proof. unfold pick. case_decide; set_solver. Qed.

Lemma pick_sub i picks : picks ⊆ pick i picks.
Proof. unfold pick. case_decide; set_solver. Qed.

Lemma bands_bound b band i : seedsByBand REFERENCE_SEEDS !! b = Some band → i ∈ band → (i < n)%nat.
Proof.
  unfold seedsByBand, seeds_of_band. intros (x & -> & _)%list_lookup_fmap_Some [_ Hi]%list_elem_of_filter.
  apply elem_of_seq in Hi. lia.
Qed.

Lemma walk_ok guard order seed count : ∀ bi picks, picks_ok count picks →
  picks_ok count (walk_bands guard (seedsByBand REFERENCE_SEEDS) order seed count bi picks).
Proof.
  induction guard as [|guard IH]; intros bi picks Hp; cbn [walk_bands]; [done|].
  case_match eqn:Hc; [|done]. apply Nat.ltb_lt in Hc. apply IH.
  destruct (seedsByBand REFERENCE_SEEDS !! _) as [band|] eqn:E; cbn; [|done].
  destruct band as [|x band]; [done|]. case_match eqn:El; [|done].
  apply pick_ok; [done| |done]. eapply bands_bound; [exact E|]. by eapply list_elem_of_lookup_2.
Qed.

Lemma fill_ok seed count : ∀ turns i picks, picks_ok count picks → (0 < n)%nat ∨ turns = O →
  picks_ok count (fill REFERENCE_SEEDS turns seed count i picks) ∧
  picks ⊆ fill REFERENCE_SEEDS turns seed count i picks ∧
  ((length (fill REFERENCE_SEEDS turns seed count i picks) < count)%nat →
   ∀ j, 0 ≤ j < Z.of_nat turns →
     Z.to_nat ((seed + (i + j)) mod Z.of_nat n) ∈ fill REFERENCE_SEEDS turns seed count i picks).
Proof.
  induction turns as [|turns IH]; intros i picks Hp Hn; cbn [fill]; [split_and!; [done..|lia]|].
  destruct Hn as [Hn|]; [|done]. case_match eqn:Hc.
  - apply Nat.ltb_lt in Hc. pose proof (Z.mod_pos_bound (seed + i) (Z.of_nat n) ltac:(lia)) as Hm.
    set (k := Z.to_nat ((seed + i) mod Z.of_nat n)).
    destruct (IH (i + 1) (pick k picks)) as (H1 & H2 & H3); [by apply pick_ok; [|lia|]|by left|].
    split; [done|]. pose proof (pick_sub k picks). split; [set_solver|]. intros Hl j Hj.
    destruct (decide (j = 0)) as [->|].
    + rewrite Z.add_0_r. apply H2, pick_in.
    + replace (i + j) with (i + 1 + (j - 1)) by lia. apply H3; [done|lia].
  - apply Nat.ltb_ge in Hc. split_and!; [done..|]. lia.
Qed.

Lemma select_complete seed count :
  picks_ok count (select_from REFERENCE_SEEDS seed count) ∧
  length (select_from REFERENCE_SEEDS seed count) = Nat.min count n.
Proof.
  unfold select_from. set (start := walk_bands _ _ _ _ _ _ _).
  assert (picks_ok count start) as Hs.
  { unfold start. apply walk_ok. split; [constructor|]. split; [by intros i Hi%elem_of_nil|cbn; lia]. }
  clearbody start.
  destruct (fill_ok seed count n 0 start Hs) as (Hp & _ & Hall); [destruct n; [by right|left; lia]|].
  split; [done|]. destruct Hp as (Hd & Hb & Hl). set (r := fill _ _ _ _ _ _) in *.
  assert (length r <= n)%nat as Hle.
  { transitivity (length (seq 0 n)); [|by rewrite length_seq]. apply submseteq_length, NoDup_submseteq; [done|].
    intros i Hi. apply elem_of_seq. specialize (Hb i Hi). lia. }
  destruct (decide (length r < count)%nat) as [Hlt|]; [|lia]. specialize (Hall Hlt).
  assert (n <= length r)%nat; [|lia].
  transitivity (length (seq 0 n)); [by rewrite length_seq|]. apply submseteq_length, NoDup_submseteq; [apply NoDup_seq|].
  intros i Hi%elem_of_seq. pose proof (Z.mod_pos_bound (Z.of_nat i - seed) (Z.of_nat n) ltac:(lia)) as Hm.
  specialize (Hall ((Z.of_nat i - seed) mod Z.of_nat n) ltac:(lia)). rewrite Z.add_0_l in Hall.
  rewrite Zplus_mod_idemp_r in Hall. replace (seed + (Z.of_nat i - seed)) with (Z.of_nat i) in Hall by lia.
  rewrite Z.mod_small, Nat2Z.id in Hall by lia. done.
Qed.

End seeds.

(** ** Properties *)

(** The selection always gives as many distinct seeds as were asked for, or the
    whole corpus when it has fewer, whatever the session and the chunk. *)
Theorem seeds_selected `{Engine} (REFERENCE_SEEDS : list ReferenceSeed) sessionId chunkStart count :
  let picks := selectSeeds REFERENCE_SEEDS sessionId chunkStart count in
  NoDup picks ∧ (∀ i, i ∈ picks → (i < length REFERENCE_SEEDS)%nat) ∧
  length picks = Nat.min count (length REFERENCE_SEEDS).
Proof.
  destruct (select_complete REFERENCE_SEEDS
    (fnv1a (sessionId ++ ":" ++ str_of_Z chunkStart)%string) count) as ((Hn & Hb & _) & Hl).
  by split_and!.
Qed.

(** The hash of the selection is the FNV-1a hash the token index uses. *)
Theorem fnv1a_agrees input : fnv1a input = updateFnv1a32 FNV1A_32_OFFSET input.
Proof. apply fnv1a_fold. Qed.
