(* ===== verification/ReferenceRoundtrip.v ===== *)
(** * Rendered compartments are read back

    The compartments the historian is shown are rendered by
    reference-retrieval.ts in the form its answer is to have, and
    compartment-parser.ts reads that form: this file follows the expressions of
    the parser through a rendered text and shows what comes back. *)

From S2P Require Import Prelude JsNumber JsExact JsMap JsValue JsString TokenEstimate SessionText HistorianValidation JsRegExp CompartmentParser References.

#[local] Arguments outcomes : simpl never.
#[local] Arguments unescapeXml : simpl never.
#[local] Arguments exec_text : simpl never.
#[local] Arguments extractTier : simpl never.

(** ** Following an expression *)

Lemma outcomes_seq r1 r2 s : outcomes (Seq r1 r2) s = flat_map (outcomes r2) (outcomes r1 s).
Proof. done. Qed.

Lemma outcomes_cls p u bef l c : outcomes (Cls p) (Build_mstate bef (u :: l) c) =
  if p u then [Build_mstate (u :: bef) l c] else [].
Proof. done. Qed.

Lemma seq_unit u K bef l c :
  outcomes (Seq (Lit [u]) K) (Build_mstate bef (u :: l) c) = outcomes K (Build_mstate (u :: bef) l c).
Proof. exact (seq_lit [u] K bef l c). Qed.

(** [p+] takes the whole run when what follows matches there. *)
Lemma plus_run p (f : mstate → list mstate) c e u b l bef :
  p u = true → forallb p b = true → edge p l = false →
  head (f (Build_mstate (rev (u :: b) ++ bef) l c)) = Some e →
  head (flat_map f (outcomes (Plus (Cls p)) (Build_mstate bef ((u :: b) ++ l) c))) = Some e.
Proof.
  intros Hu Hb Hl He. unfold Plus. rewrite outcomes_seq. cbn [app]. rewrite outcomes_cls, Hu.
  cbn [flat_map]. rewrite app_nil_r. apply greedy_run; [done..|]. cbn in He. by rewrite <- app_assoc in He.
Qed.

(** An expression around another that adds captures of the text it matched. *)
Definition tagging (w : regex → regex) (t : list Z → list (nat * list Z)) : Prop :=
  ∀ R K s, outcomes (Seq (w R) K) s =
    flat_map (fun e => outcomes K (Build_mstate (before e) (rest e) (t (between s e) ++ caps e)))
      (outcomes R s).

Lemma tagging_group n : tagging (Group n) (fun b => [(n, b)]).
Proof. intros R K s. apply seq_group. Qed.

Lemma tagging_id : tagging id (fun _ => []).
Proof. intros R K s. unfold id. rewrite outcomes_seq. apply flat_map_eq. by intros [b r c] _. Qed.

Lemma lit_fails p K u l bef c : head p = Some u → edge (Z.eqb u) l = false →
  outcomes (Seq (Lit p) K) (Build_mstate bef l c) = [].
Proof.
  intros Hp Hl. rewrite outcomes_seq. unfold outcomes at 2. cbn [rest].
  destruct p as [|v p]; [done|]. cbn in Hp. simplify_eq. destruct l as [|w l]; [done|]. cbn in Hl |- *.
  by rewrite Hl.
Qed.

Lemma lit_absent p l bef c : strip_prefix Z.eqb p l = None →
  outcomes (Lit p) (Build_mstate bef l c) = [].
Proof. intros H. unfold outcomes. cbn. by rewrite H. Qed.

Lemma forallb_Forall {A} (p : A → bool) l : forallb p l = true ↔ Forall (fun x => p x = true) l.
Proof. rewrite forallb_forall, Forall_forall. by setoid_rewrite list_elem_of_In. Qed.

Lemma not_in_forallb u (l : list Z) : u ∉ l → forallb (not_unit u) l = true.
Proof.
  intros H. apply forallb_Forall, Forall_forall. intros v Hv. unfold not_unit.
  apply negb_true_iff, Z.eqb_neq. set_solver.
Qed.

(** ** A compartment element *)

Definition open_tag : list Z := code_units "<compartment".
Definition close_tag : list Z := code_units "</compartment>".

(** What the attributes and the body of an element may be. *)
Definition attrs_ok (A : list Z) : Prop := A ≠ [] ∧ 62 ∉ A ∧ unspaced_head A ∧ unspaced_last A.
Definition body_ok (B : list Z) : Prop := ∀ l, absent close_tag B (close_tag ++ l) = true.

(** White space and the end of the tag match nowhere before the end. *)
Lemma tag_end_fails A b1 u b2 l bef c K : attrs_ok A → A = b1 ++ u :: b2 →
  outcomes (Seq (Star true space) (Seq (lit ">") K)) (Build_mstate bef (u :: b2 ++ 62 :: l) c) = [].
Proof.
  intros (_ & Hgt & _ & Hlast) EA. rewrite outcomes_seq.
  destruct (drop_spaces_split (u :: b2)) as (sp & E & Hsp & Hh).
  destruct (drop_spaces (u :: b2)) as [|v R] eqn:ER.
  { exfalso. rewrite app_nil_r in E. rewrite E in EA. subst A.
    destruct (last sp) as [x|] eqn:Ex; [|by apply last_None in Ex; rewrite Ex in E].
    assert (is_space x = false) as Hx by (apply Hlast; by rewrite last_app, Ex).
    apply last_Some_elem_of in Ex. eapply Forall_forall in Hsp; [|exact Ex]. cbn in Hsp. congruence. }
  change (u :: b2 ++ 62 :: l) with ((u :: b2) ++ 62 :: l). rewrite E, <- app_assoc.
  apply run_fails.
  - by apply forallb_Forall.
  - cbn. by apply Hh.
  - intros s1 s2 ->. apply (lit_fails _ _ 62); [done|].
    assert (62 ∉ s2 ++ v :: R) as Hn by (rewrite EA, E in Hgt; set_solver).
    destruct s2 as [|w s2]; cbn [edge app] in Hn |- *; apply Z.eqb_neq; set_solver.
Qed.

Definition element (A B : list Z) : list Z := open_tag ++ 32 :: A ++ 62 :: B ++ close_tag.

Lemma element_match wa ta wb tb A B bef l : tagging wa ta → tagging wb tb → attrs_ok A → body_ok B →
  exec (compartment_re wa wb) bef (element A B ++ l) =
    Some (Build_mstate (rev (element A B) ++ bef) l (tb B ++ ta A)).
Proof.
  intros Hwa Hwb HA HB. pose proof HA as (Hne & Hgt & Hhead & Hlast).
  unfold exec, start_at, compartment_re, element. cbn [sequence].
  replace ((open_tag ++ 32 :: A ++ 62 :: B ++ close_tag) ++ l)
    with (open_tag ++ [32] ++ A ++ [62] ++ B ++ close_tag ++ l)
    by (rewrite <- !app_assoc; cbn; by rewrite <- !app_assoc; cbn; rewrite <- app_assoc).
  change (lit "<compartment") with (Lit open_tag). rewrite seq_lit, outcomes_seq.
  etransitivity.
  { eapply (plus_run is_space _ [] _ 32 []); [done..| |].
    { destruct A as [|a A]; [done|]. cbn. by apply Hhead. }
    rewrite (Hwa _ _ _). eapply (lazy_until (not_unit 62)).
    { by apply not_in_forallb. }
    { intros b1 u b2 E. cbn [before rest caps]. by eapply tag_end_fails. }
    cbn [before rest caps]. rewrite between_app with (b := A) by done. rewrite outcomes_seq.
    eapply (greedy_run is_space _ _ _ []); [done..|].
    change (lit ">") with (Lit [62]). rewrite seq_unit, (Hwb _ _ _).
    eapply (lazy_until (fun _ => true)).
    { by apply forallb_Forall, Forall_forall. }
    { intros b1 u b2 E. cbn [before rest caps]. apply lit_absent. 
      exact (proj1 (absent_iff close_tag B _) (HB l) b1 u b2 E). }
    cbn [before rest caps]. rewrite between_app with (b := B) by done.
    change (lit "</compartment>") with (Lit close_tag). by rewrite lit_here. }
  f_equal. f_equal; [|by rewrite ?app_nil_r].
  repeat (rewrite ?rev_app_distr; cbn [rev app]). by rewrite <- !app_assoc.
Qed.

(** ** Attributes *)

Definition attr (name : string) (value : list Z) : list Z :=
  code_units name ++ 61 :: dquote :: value ++ [dquote].

Definition attr_open (name : string) : list Z := code_units name ++ [61; dquote].

Lemma attr_app name value l : attr name value ++ l = attr_open name ++ value ++ dquote :: l.
Proof. unfold attr, attr_open. rewrite <- !app_assoc. cbn. by rewrite <- app_assoc. Qed.

Definition digits (ds : list Z) : Prop := ds ≠ [] ∧ Forall (fun u => is_digit u = true) ds.

Lemma word_here K bef u l c : edge is_word bef = false → is_word u = true →
  outcomes (Seq WordBoundary K) (Build_mstate bef (u :: l) c) = outcomes K (Build_mstate bef (u :: l) c).
Proof.
  intros Hb Hu. rewrite outcomes_seq. unfold outcomes at 2. cbn [before rest edge]. rewrite Hb, Hu. cbn.
  by rewrite app_nil_r.
Qed.

(** Attribute names start with a word character. *)
Definition word_name (name : string) : bool := edge is_word (code_units name).

Lemma attr_here name R bef value l : word_name name = true → edge is_word bef = false →
  outcomes (sequence [WordBoundary; Lit (attr_open name); R; Lit [dquote]])
    (start_at bef (attr name value ++ l)) =
  outcomes (Seq R (Lit [dquote])) (start_at (rev (attr_open name) ++ bef) (value ++ dquote :: l)).
Proof.
  intros Hn Hb. rewrite attr_app. unfold start_at. cbn [sequence].
  unfold word_name in Hn. destruct (attr_open name) as [|u p] eqn:E.
  { unfold attr_open in E. by destruct (code_units name). }
  assert (is_word u = true) as Hu.
  { unfold attr_open in E. destruct (code_units name) as [|w n]; [done|]. cbn in E, Hn. congruence. }
  cbn [app]. rewrite word_here by done. exact (seq_lit (u :: p) _ _ _ _).
Qed.

Lemma number_attr_exec name bef ds l : word_name name = true → edge is_word bef = false → digits ds →
  ∃ e, exec (number_attr name) bef (attr name ds ++ l) = Some e ∧ caps e = [(1%nat, ds)].
Proof.
  intros Hn Hb [Hne Hd]. unfold exec, number_attr. fold (attr_open name).
  rewrite (attr_here name (Group 1 (Plus digit)) bef ds l Hn Hb). unfold start_at. rewrite seq_group. destruct ds as [|d ds]; [done|]. apply Forall_cons in Hd as [Hd Hds].
  eexists. split.
  - eapply (plus_run is_digit); [done|by apply forallb_Forall|done|]. unfold capture. cbn [before rest caps].
    rewrite between_app with (b := d :: ds) by done.
    change (dquote :: l) with ([dquote] ++ l). by rewrite lit_here.
  - done.
Qed.

Lemma text_attr_exec name bef t l : word_name name = true → edge is_word bef = false → dquote ∉ t →
  ∃ e, exec (text_attr name) bef (attr name t ++ l) = Some e ∧ caps e = [(1%nat, t)].
Proof.
  intros Hn Hb Ht. unfold exec, text_attr. fold (attr_open name).
  rewrite (attr_here name (Group 1 (Star true (Cls (not_unit dquote)))) bef t l Hn Hb).
  unfold start_at. rewrite seq_group. eexists. split.
  - eapply (greedy_run (not_unit dquote)); [by apply not_in_forallb|done|]. unfold capture. cbn [before rest caps].
    rewrite between_app with (b := t) by done.
    change (dquote :: l) with ([dquote] ++ l). by rewrite lit_here.
  - done.
Qed.

Lemma found_at r g l e v : passes r [] g l → exec r (rev g ++ []) l = Some e → caps e = [(1%nat, v)] →
  ∃ m, exec_text r (g ++ l) = Some m ∧ group 1 m = v.
Proof.
  intros Hp He Hc. unfold exec_text. erewrite search_at by done. eexists. split; [done|].
  unfold group. cbn. by rewrite Hc.
Qed.

Lemma attr_guarded name R : guarded (attr_open name) (sequence [WordBoundary; Lit (attr_open name); R; Lit [dquote]]).
Proof. apply guarded_word, guarded_seq, guarded_lit. Qed.

(** A quoted value is passed: the expression of an attribute could only start in
    it by matching the closing quote. *)
Lemma first_quote (x y k k' : list Z) : x ++ dquote :: k = y ++ dquote :: k' →
  dquote ∉ x → dquote ∉ y → x = y ∧ k = k'.
Proof.
  revert y. induction x as [|u x IH]; intros [|v y] E Hx Hy; cbn [app] in E.
  - by injection E as ->.
  - injection E as <- _. set_solver.
  - injection E as -> _. set_solver.
  - injection E as -> El. apply IH in El as [-> ->]; [done|set_solver..].
Qed.

Definition plain_name (name : string) : bool := forallb (not_unit dquote) (code_units name).

Lemma plain_name_quote name : plain_name name = true → dquote ∉ code_units name.
Proof.
  unfold plain_name. rewrite forallb_Forall, Forall_forall. intros H Hq. apply H in Hq. by vm_compute in Hq.
Qed.

Lemma value_starts name t b1 u b2 k l' : dquote ∉ t → plain_name name = true → t = b1 ++ u :: b2 →
  strip_prefix Z.eqb (attr_open name) ((u :: b2) ++ dquote :: k) = Some l' →
  u :: b2 = code_units name ++ [61] ∧ l' = k.
Proof.
  intros Ht Hn%plain_name_quote Et H. apply strip_prefix_inv in H. unfold attr_open in H.
  replace ((code_units name ++ [61; dquote]) ++ l') with ((code_units name ++ [61]) ++ dquote :: l') in H
    by (rewrite <- !app_assoc; done).
  apply first_quote in H as [? ?]; [done|set_solver|]. intros Hq.
  apply elem_of_app in Hq as [|Hq]; [done|]. by apply list_elem_of_singleton in Hq.
Qed.

Lemma number_attr_passes name bef t k : dquote ∉ t → plain_name name = true → edge is_digit k = false →
  passes (number_attr name) bef t (dquote :: k).
Proof.
  intros Ht Hn Hk b1 u b2 Et. unfold number_attr. fold (attr_open name).
  destruct (strip_prefix Z.eqb (attr_open name) ((u :: b2) ++ dquote :: k)) as [l'|] eqn:E;
    [|by apply (attr_guarded name)].
  destruct (value_starts name t b1 u b2 k l' Ht Hn Et E) as [_ ->].
  pose proof (strip_prefix_inv _ _ _ E) as Er. cbn [app] in Er. cbn [sequence]. unfold start_at. rewrite Er.
  rewrite outcomes_seq. unfold outcomes at 2. case_match; [done|]. cbn [flat_map]. rewrite app_nil_r, seq_lit.
  rewrite seq_group. unfold Plus. rewrite outcomes_seq.
  destruct k as [|v k]; [done|]. unfold digit at 2. rewrite outcomes_cls. cbn in Hk. by rewrite Hk.
Qed.

Lemma text_attr_passes name bef t k : dquote ∉ t → plain_name name = true →
  (∀ t', t ≠ t' ++ code_units name ++ [61]) → passes (text_attr name) bef t (dquote :: k).
Proof.
  intros Ht Hn Hs. eapply passes_guarded; [apply (attr_guarded name)|]. apply absent_iff. intros b1 u b2 Et.
  destruct (strip_prefix _ _ _) as [l'|] eqn:E; [|done]. exfalso.
  destruct (value_starts name t b1 u b2 k l' Ht Hn Et E) as [Eu _]. apply (Hs b1). by rewrite <- Eu.
Qed.

(** ** The attributes of a rendered element *)

Lemma absent_attr p u name v k : head p = Some u → u ∉ v → u ≠ dquote →
  (∀ k, absent p (attr_open name) k = true) → absent p (attr name v) k = true.
Proof.
  intros Hp Hv Hu Ho. destruct p as [|w p]; [done|]. cbn in Hp. simplify_eq.
  pose proof (attr_app name v []) as E. rewrite app_nil_r in E. rewrite E, absent_app, Ho. cbn.
  apply absent_free. intros [?|?%list_elem_of_singleton]%elem_of_app; done.
Qed.

Lemma digits_free u ds : digits ds → is_digit u = false → u ∉ ds.
Proof. intros [_ H] Hu Hin. eapply Forall_forall in H; [|exact Hin]. cbn in H. congruence. Qed.

Section attrs.
Context (D1 D2 D3 T : list Z) (X : option (list Z)).
Context (H1 : digits D1) (H2 : digits D2) (H3 : digits D3) (HT : dquote ∉ T)
        (HX : ∀ x, X = Some x → dquote ∉ x)
        (Hend : ∀ t, T ≠ t ++ code_units "episode_type" ++ [61]).

Definition episode_attr : list Z := match X with Some x => 32 :: attr "episode_type" x | None => [] end.

Definition attr_units : list Z :=
  attr "start" D1 ++ 32 :: attr "end" D2 ++ 32 :: attr "title" T ++ episode_attr ++
  32 :: attr "importance" D3.

(** What precedes the title's value. *)
Definition before_title : list Z := attr "start" D1 ++ [32] ++ attr "end" D2 ++ [32] ++ attr_open "title".

Lemma attr_units_split :
  attr_units = before_title ++ T ++ dquote :: episode_attr ++ 32 :: attr "importance" D3.
Proof.
  unfold attr_units, before_title. rewrite (attr_app "title"). by repeat (rewrite <- app_assoc; cbn [app]).
Qed.

Lemma before_title_absent p u k : head p = Some u → is_digit u = false → u ≠ dquote → u ≠ 32 →
  (∀ k, absent p (attr_open "start") k && absent p (attr_open "end") k && absent p (attr_open "title") k = true) →
  absent p before_title k = true.
Proof.
  intros Hp Hd Hq Hs Ho. unfold before_title. rewrite !absent_app.
  assert (∀ k, absent p [32] k = true) as Hsp.
  { intros k'. destruct p as [|w p]; [done|]. cbn in Hp. simplify_eq. apply absent_free. set_solver. }
  rewrite !(absent_attr p u) by (first [done|by apply digits_free|intros k'; specialize (Ho k'); bool_hyps; done]).
  rewrite !Hsp. cbn. specialize (Ho k). by bool_hyps.
Qed.

Lemma attrs_start : ∃ m, exec_text ATTR_START_REGEX attr_units = Some m ∧ group 1 m = D1.
Proof.
  destruct (number_attr_exec "start" [] D1 (32 :: attr "end" D2 ++ 32 :: attr "title" T ++ episode_attr ++
    32 :: attr "importance" D3) eq_refl eq_refl H1) as (e & He & Hc).
  apply (found_at _ [] _ e); [|done..]. intros [|? b] u b2 Eb; done.
Qed.

Lemma attrs_end : ∃ m, exec_text ATTR_END_REGEX attr_units = Some m ∧ group 1 m = D2.
Proof.
  destruct (number_attr_exec "end" (rev (attr "start" D1 ++ [32]) ++ []) D2 (32 :: attr "title" T ++ episode_attr ++
    32 :: attr "importance" D3)) as (e & He & Hc); [done|by rewrite rev_app_distr|done|].
  replace attr_units with ((attr "start" D1 ++ [32]) ++ attr "end" D2 ++ 32 :: attr "title" T ++ episode_attr ++
    32 :: attr "importance" D3) by (unfold attr_units; by rewrite <- app_assoc).
  apply (found_at _ _ _ e); [|done..]. eapply passes_guarded; [apply (attr_guarded "end")|].
  rewrite absent_app, (absent_attr _ 101); [by vm_compute|done|by apply digits_free|done|].
  intros k. by vm_compute.
Qed.

Lemma attrs_title : ∃ m, exec_text ATTR_TITLE_REGEX attr_units = Some m ∧ group 1 m = T.
Proof.
  set (g := attr "start" D1 ++ [32] ++ attr "end" D2 ++ [32]).
  destruct (text_attr_exec "title" (rev g ++ []) T (episode_attr ++ 32 :: attr "importance" D3))
    as (e & He & Hc); [done|unfold g; by rewrite !rev_app_distr|done|].
  replace attr_units with (g ++ attr "title" T ++ episode_attr ++ 32 :: attr "importance" D3)
    by (unfold attr_units, g; cbn [app]; rewrite <- !app_assoc; cbn [app]; by rewrite <- app_assoc).
  apply (found_at _ _ _ e); [|done..]. eapply passes_guarded; [apply (attr_guarded "title")|].
  unfold g. rewrite !absent_app, !(absent_attr _ 116);
    first [done|by apply digits_free|by intros k; vm_compute|by vm_compute|idtac].
Qed.

Lemma attrs_episode :
  match X with
  | Some x => ∃ m, exec_text ATTR_EPISODE_REGEX attr_units = Some m ∧ group 1 m = x
  | None => exec_text ATTR_EPISODE_REGEX attr_units = None
  end.
Proof.
  assert (∀ bef k, passes ATTR_EPISODE_REGEX bef (before_title ++ T ++ [dquote; 32]) k) as Hp.
  { intros bef k. apply passes_app; [|apply passes_app].
    - eapply passes_guarded; [apply (attr_guarded "episode_type")|].
      apply (before_title_absent _ 101); [done..|by vm_compute].
    - by apply text_attr_passes.
    - eapply passes_guarded; [apply (attr_guarded "episode_type")|by vm_compute]. }
  destruct X as [x|] eqn:EX.
  - set (g := before_title ++ T ++ [dquote; 32]).
    destruct (text_attr_exec "episode_type" (rev g ++ []) x (32 :: attr "importance" D3)) as (e & He & Hc);
      [done|unfold g; by rewrite !rev_app_distr|by apply HX|].
    rewrite attr_units_split. unfold episode_attr. rewrite EX.
    replace (before_title ++ T ++ dquote :: (32 :: attr "episode_type" x) ++ 32 :: attr "importance" D3)
      with (g ++ attr "episode_type" x ++ 32 :: attr "importance" D3)
      by (unfold g; rewrite <- !app_assoc; done).
    by apply (found_at _ _ _ e).
  - rewrite attr_units_split. unfold episode_attr. rewrite EX. cbn [app].
    replace (before_title ++ T ++ dquote :: 32 :: attr "importance" D3)
      with ((before_title ++ T ++ [dquote; 32]) ++ attr "importance" D3) by (rewrite <- !app_assoc; done).
    apply search_none; [|by apply (attr_guarded "episode_type")].
    apply passes_app; [apply Hp|]. eapply passes_guarded; [apply (attr_guarded "episode_type")|].
    apply (absent_attr _ 101); [done|by apply digits_free|done|by vm_compute].
Qed.

Lemma attrs_importance : ∃ m, exec_text ATTR_IMPORTANCE_REGEX attr_units = Some m ∧ group 1 m = D3.
Proof.
  set (g := before_title ++ T ++
    match X with Some x => dquote :: 32 :: attr_open "episode_type" ++ x ++ [dquote; 32] | None => [dquote; 32] end).
  destruct (number_attr_exec "importance" (rev g ++ []) D3 []) as (e & He & Hc);
    [done|unfold g; destruct X; repeat (rewrite ?rev_app_distr; cbn [rev app]); done|done|].
  rewrite attr_units_split. unfold episode_attr.
  replace (before_title ++ T ++ _) with (g ++ attr "importance" D3 ++ []).
  2: { unfold g. destruct X as [x|]; rewrite app_nil_r; rewrite ?(attr_app "episode_type");
       repeat (rewrite <- ?app_assoc; cbn [app]); rewrite ?(attr_app "episode_type"); done. }
  apply (found_at _ _ _ e); [|done..]. unfold g.
  assert (∀ bef l k, absent (attr_open "importance") l k = true → passes ATTR_IMPORTANCE_REGEX bef l k) as Hp.
  { intros bef l k. apply passes_guarded, (attr_guarded "importance"). }
  apply passes_app; [|apply passes_app].
  - apply Hp, (before_title_absent _ 105); [done..|by vm_compute].
  - destruct X; by apply number_attr_passes.
  - destruct X as [x|] eqn:EX; [|apply Hp; by vm_compute].
    change (dquote :: 32 :: attr_open "episode_type" ++ x ++ [dquote; 32])
      with ((dquote :: 32 :: attr_open "episode_type") ++ x ++ [dquote; 32]).
    apply passes_app; [apply Hp; by vm_compute|]. apply passes_app; [|apply Hp; by vm_compute].
    apply number_attr_passes; [by apply HX|done|done].
Qed.
End attrs.

(** ** Tags *)

(** The two texts differ within both. *)
Fixpoint clash (p t : list Z) : bool :=
  match p, t with
  | x :: p, y :: t => if x =? y then clash p t else true
  | _, _ => false
  end.

Lemma clash_none p t l : clash p t = true → strip_prefix Z.eqb p (t ++ l) = None.
Proof.
  revert t. induction p as [|x p IH]; intros [|y t] H; try done. cbn [clash strip_prefix app] in *.
  destruct (x =? y); [by apply IH|done].
Qed.

Definition is_tag (t : list Z) : bool :=
  match t with 60 :: t => forallb (not_unit 60) t | _ => false end.

Lemma absent_tag p t k : is_tag t = true → clash p t = true → head p = Some 60 → absent p t k = true.
Proof.
  intros Ht Hc Hp. destruct t as [|u t]; [done|].
  assert (u = 60 ∧ forallb (not_unit 60) t = true) as [-> Hf].
  { unfold is_tag in Ht. by repeat case_match. }
  cbn [absent]. rewrite (clash_none p (60 :: t)) by done. destruct p as [|v p]; [done|]. cbn in Hp. simplify_eq.
  apply absent_free. intros Hin. apply forallb_Forall in Hf. eapply Forall_forall in Hf; [|exact Hin].
  by vm_compute in Hf.
Qed.

(** ** Tiers *)

Definition tier_lit (i : Z) : list Z := code_units "<p" ++ [48 + i].
Definition tier_open (i : Z) : list Z := tier_lit i ++ [62].
Definition tier_close (i : Z) : list Z := code_units "</p" ++ [48 + i; 62].
Definition tier_units (i : Z) (X : list Z) : list Z := tier_open i ++ 10 :: X ++ 10 :: tier_close i.
Definition empty_tier (i : Z) : list Z := tier_lit i ++ [47; 62].

Lemma tier_guarded i : guarded (tier_lit i) (makeTierOpenRegex i).
Proof. apply guarded_seq, guarded_lit. Qed.

(** The opening tag, with and without the slash. *)
Lemma tier_exec i bef l :
  exec (makeTierOpenRegex i) bef (tier_open i ++ l) = Some (Build_mstate (rev (tier_open i) ++ bef) l [(1%nat, [])]).
Proof.
  unfold exec, start_at, makeTierOpenRegex, tier_open. fold (tier_lit i). cbn [sequence].
  rewrite <- app_assoc, seq_lit, outcomes_seq. etransitivity.
  - eapply (greedy_run is_space _ _ _ []); [done..|]. cbn [rev app]. rewrite seq_group.
    unfold maybe. change (outcomes (Alt (lit "/") Empty) ?s) with (outcomes (lit "/") s ++ [s]).
    change (lit "/") with (Lit [47]). rewrite (lit_absent [47]) by done. cbn [app flat_map].
    unfold capture. cbn [before rest caps]. rewrite between_app with (b := []) by done.
    change (lit ">") with (Lit [62]). change (62 :: l) with ([62] ++ l). by rewrite lit_here.
  - done.
Qed.

Lemma empty_tier_exec i bef l :
  exec (makeTierOpenRegex i) bef (empty_tier i ++ l) =
  Some (Build_mstate (rev (empty_tier i) ++ bef) l [(1%nat, [47])]).
Proof.
  unfold exec, start_at, makeTierOpenRegex, empty_tier. fold (tier_lit i). cbn [sequence].
  rewrite <- app_assoc, seq_lit, outcomes_seq. etransitivity.
  - eapply (greedy_run is_space _ _ _ []); [done..|]. cbn [rev app]. rewrite seq_group.
    unfold maybe. change (outcomes (Alt (lit "/") Empty) ?s) with (outcomes (lit "/") s ++ [s]).
    change (lit "/") with (Lit [47]). change (47 :: 62 :: l) with ([47] ++ 62 :: l). rewrite lit_here.
    cbn [app flat_map]. unfold capture at 1. cbn [before rest caps].
    rewrite between_app with (b := [47]) by done.
    change (lit ">") with (Lit [62]). change (62 :: l) with ([62] ++ l). by rewrite lit_here.
  - done.
Qed.

Lemma extractTier_at g i X l : absent (tier_lit i) g (tier_units i X ++ l) = true → 60 ∉ X →
  is_digit (48 + i) = true →
  extractTier (g ++ tier_units i X ++ l) (i - 1) = Some (unescapeXml (trim_units X)).
Proof.
  intros Hg HX Hd. unfold extractTier, exec_text. replace (i - 1 + 1) with i by lia.
  unfold tier_units in *.
  replace ((tier_open i ++ 10 :: X ++ 10 :: tier_close i) ++ l)
    with (tier_open i ++ (10 :: X ++ [10]) ++ tier_close i ++ l) in *
    by (rewrite <- !app_assoc; cbn; by rewrite <- !app_assoc).
  rewrite (search_at _ _ _ _ _ (passes_guarded _ _ _ _ _ (tier_guarded i) Hg) (tier_exec _ _ _)).
  unfold group. cbn [after caps group_of List.find Nat.eqb fst snd fmap option_fmap option_map default rest].
  assert (60 ∉ 10 :: X ++ [10]) as Hn by (intros Hn; rewrite elem_of_cons, elem_of_app, list_elem_of_singleton in Hn; naive_solver).
  assert (exec TIER_CLOSE_ANY_REGEX (rev (10 :: X ++ [10]) ++ []) (tier_close i ++ l) =
    Some (Build_mstate (48 + i :: rev (code_units "</p") ++ rev (10 :: X ++ [10]) ++ []) (62 :: l) [])) as He.
  { unfold exec, start_at, TIER_CLOSE_ANY_REGEX, tier_close, lit, digit. cbn [sequence].
    rewrite <- app_assoc, seq_lit. cbn [app]. rewrite outcomes_cls, Hd. done. }
  unfold exec_text. erewrite (search_at TIER_CLOSE_ANY_REGEX); [|
    eapply passes_guarded; [apply guarded_seq, guarded_lit|apply absent_free, Hn]|exact He].
  cbn [skipped]. rewrite (search_guarded_none (code_units "<p")); [|
    apply guarded_seq, guarded_lit|done|apply absent_free, Hn].
  by rewrite trim_units_pad.
Qed.

Lemma extractTier_empty g i l : absent (tier_lit i) g (empty_tier i ++ l) = true →
  extractTier (g ++ empty_tier i ++ l) (i - 1) = Some [].
Proof.
  intros Hg. unfold extractTier, exec_text. replace (i - 1 + 1) with i by lia.
  by rewrite (search_at _ _ _ _ _ (passes_guarded _ _ _ _ _ (tier_guarded i) Hg) (empty_tier_exec _ _ _)).
Qed.

Lemma extractTier_none B i : absent (tier_lit i) B [] = true → extractTier B (i - 1) = None.
Proof.
  intros Hg. unfold extractTier, exec_text. replace (i - 1 + 1) with i by lia.
  by rewrite (search_guarded_none (tier_lit i)) by (try apply tier_guarded; done).
Qed.

(** ** Bodies *)

Definition tier_tags : list (list Z) :=
  flat_map (fun i => [tier_open i; tier_close i]) [1; 2; 3; 4] ++ [empty_tier 4].

Lemma absent_tier p i X k : head p = Some 60 → clash p (tier_open i) = true → clash p (tier_close i) = true →
  is_tag (tier_open i) = true → is_tag (tier_close i) = true → 60 ∉ X → absent p (tier_units i X) k = true.
Proof.
  intros Hp Ho Hc Ht1 Ht2 HX. unfold tier_units.
  replace (10 :: X ++ 10 :: tier_close i) with ((10 :: X ++ [10]) ++ tier_close i)
    by (cbn; by rewrite <- app_assoc).
  rewrite !absent_app, (absent_tag p (tier_open i)), (absent_tag p (tier_close i)) by done.
  destruct p as [|u p]; [done|]. cbn in Hp. simplify_eq. rewrite absent_free; [done|]. intros Hn.
  rewrite elem_of_cons, elem_of_app, list_elem_of_singleton in Hn. naive_solver.
Qed.

(** A body in tiers: the fourth may be empty. *)
Definition last_tier (X4 : option (list Z)) : list Z :=
  match X4 with Some x => tier_units 4 x | None => empty_tier 4 end.

Definition tiers_units (X1 X2 X3 : list Z) (X4 : option (list Z)) : list Z :=
  [10] ++ tier_units 1 X1 ++ [10] ++ tier_units 2 X2 ++ [10] ++ tier_units 3 X3 ++ [10] ++ last_tier X4 ++ [10].

Definition flat_units (X : list Z) : list Z := 10 :: X ++ [10].

Lemma absent_nl p k : head p = Some 60 → absent p [10] k = true.
Proof. intros Hp. destruct p as [|u p]; [done|]. cbn in Hp. simplify_eq. apply absent_free. set_solver. Qed.

Section bodies.
Context (X1 X2 X3 : list Z) (X4 : option (list Z)).
Context (H1 : 60 ∉ X1) (H2 : 60 ∉ X2) (H3 : 60 ∉ X3) (H4 : ∀ x, X4 = Some x → 60 ∉ x).

Lemma tiers_absent p k : head p = Some 60 → forallb (clash p) tier_tags = true →
  absent p (tiers_units X1 X2 X3 X4) k = true.
Proof.
  intros Hp Hc. unfold tier_tags in Hc. cbn [flat_map app forallb] in Hc. bool_hyps.
  unfold tiers_units. rewrite !absent_app, !absent_nl, !absent_tier by done.
  unfold last_tier. destruct X4 as [x|]; [by rewrite absent_tier by (first [done|by apply H4])|by rewrite absent_tag].
Qed.

Lemma tiers_read :
  extractTier (tiers_units X1 X2 X3 X4) 0 = Some (unescapeXml (trim_units X1)) ∧
  extractTier (tiers_units X1 X2 X3 X4) 1 = Some (unescapeXml (trim_units X2)) ∧
  extractTier (tiers_units X1 X2 X3 X4) 2 = Some (unescapeXml (trim_units X3)) ∧
  extractTier (tiers_units X1 X2 X3 X4) 3 =
    Some match X4 with Some x => unescapeXml (trim_units x) | None => [] end.
Proof.
  set (r3 := [10] ++ tier_units 3 X3 ++ [10] ++ last_tier X4 ++ [10]).
  set (r4 := [10] ++ last_tier X4 ++ [10]).
  assert (tiers_units X1 X2 X3 X4 = ([10] ++ tier_units 1 X1 ++ [10]) ++ tier_units 2 X2 ++ r3) as E2
    by (unfold tiers_units, r3; by rewrite <- !app_assoc).
  assert (tiers_units X1 X2 X3 X4 =
    ([10] ++ tier_units 1 X1 ++ [10] ++ tier_units 2 X2 ++ [10]) ++ tier_units 3 X3 ++ r4) as E3
    by (unfold tiers_units, r4; by rewrite <- !app_assoc).
  assert (tiers_units X1 X2 X3 X4 = ([10] ++ tier_units 1 X1 ++ [10] ++ tier_units 2 X2 ++ [10] ++
    tier_units 3 X3 ++ [10]) ++ last_tier X4 ++ [10]) as E4
    by (unfold tiers_units; by rewrite <- !app_assoc).
  split_and!.
  - apply (extractTier_at [10] 1); [by apply absent_nl|done..].
  - rewrite E2. apply (extractTier_at _ 2); [|done..]. by rewrite !absent_app, !absent_nl, !absent_tier.
  - rewrite E3. apply (extractTier_at _ 3); [|done..]. by rewrite !absent_app, !absent_nl, !absent_tier.
  - rewrite E4. unfold last_tier. destruct X4 as [x|].
    + apply (extractTier_at _ 4); [|by apply H4|done]. by rewrite !absent_app, !absent_nl, !absent_tier.
    + apply (extractTier_empty _ 4). by rewrite !absent_app, !absent_nl, !absent_tier.
Qed.
End bodies.

Lemma flat_absent p X k : head p = Some 60 → 60 ∉ X → absent p (flat_units X) k = true.
Proof.
  intros Hp HX. destruct p as [|u p]; [done|]. cbn in Hp. simplify_eq. apply absent_free. intros Hn.
  unfold flat_units in Hn. rewrite elem_of_cons, elem_of_app, list_elem_of_singleton in Hn. naive_solver.
Qed.

(** ** A rendered compartment *)

Definition episode_marker : string := "episode_type=".

(** The texts of a compartment that its rendering contains. *)
Definition rendered_texts (c : ReferenceCompartment) : list string :=
  rc_title c :: default "" (rc_episodeType c) ::
  match text_of (rc_p1 c) with
  | Some p1 => [p1; default "" (rc_p2 c); default "" (rc_p3 c); default "" (rc_p4 c)]
  | None => [rc_content c]
  end%string.

(** What a rendering needs to be read back: ordinals and importance that are
    integers, a title, a body that is not blank, no text that spells an entity,
    and no title that ends like the attribute after it begins. *)
Record renderable (c : ReferenceCompartment) : Prop := {
  rn_start : 0 ≤ rc_startMessage c < 2 ^ 53;
  rn_end : 0 ≤ rc_endMessage c < 2 ^ 53;
  rn_importance : ∀ i, rc_importance c = Some i → ∃ n, 0 ≤ n < 2 ^ 53 ∧ i = nofZ n;
  rn_title : rc_title c ≠ ""%string;
  rn_title_end : ∀ t, code_units (rc_title c) ≠ t ++ code_units episode_marker;
  rn_body : trim (default (rc_content c) (text_of (rc_p1 c))) ≠ ""%string;
  rn_literal : forallb literal_free (rendered_texts c) = true
}.

(** What is read back. *)
Definition parsed_form (c : ReferenceCompartment) : ParsedCompartment :=
  let tier o := Some (trim (default ""%string o)) in
  let tiered := text_of (rc_p1 c) in
  {| pc_startMessage := rc_startMessage c;
     pc_endMessage := rc_endMessage c;
     pc_title := rc_title c;
     pc_content := trim (default (rc_content c) tiered);
     pc_p1 := trim <$> tiered;
     pc_p2 := match tiered with Some _ => tier (rc_p2 c) | None => None end;
     pc_p3 := match tiered with Some _ => tier (rc_p3 c) | None => None end;
     pc_p4 := match tiered with Some _ => tier (rc_p4 c) | None => None end;
     pc_importance := Some (default (nofZ 50) (rc_importance c));
     pc_episodeType := text_of (rc_episodeType c) |}.

Lemma text_of_default o : default ""%string (text_of o) = default ""%string o.
Proof. by destruct o as [[|]|]. Qed.

Lemma text_of_Some o s : text_of o = Some s → o = Some s ∧ s ≠ ""%string.
Proof. destruct o as [[|]|]; cbn; by intros [= <-]. Qed.

(** *** Texts *)

Lemma entity_free (m : Z → list Z) u s : (∀ v, u ∉ m v) → u ∉ flat_map m (code_units s).
Proof.
  intros Hm Hu. apply list_elem_of_In, in_flat_map in Hu as (v & _ & Hv). apply list_elem_of_In in Hv. by eapply Hm.
Qed.

Ltac entity_lacks := intros v; unfold attr_entity, content_entity, dquote; by_entity v; cbn [code_units];
  intros Hin; apply list_elem_of_In in Hin; vm_compute in Hin; intuition congruence.

Lemma attr_entity_lacks u : u = 34 ∨ u = 60 ∨ u = 62 → ∀ v, u ∉ attr_entity v.
Proof. intros [->|[->| ->]]; entity_lacks. Qed.

Lemma content_entity_lacks u : u = 60 ∨ u = 62 → ∀ v, u ∉ content_entity v.
Proof. intros [->| ->]; entity_lacks. Qed.

Lemma absent_sub e s1 t s2 : absent e (s1 ++ t ++ s2) [] = true → absent e t [] = true.
Proof.
  rewrite !absent_app. intros H. bool_hyps. apply absent_iff. intros b1 u b2 E. rewrite app_nil_r.
  destruct (strip_prefix Z.eqb e (u :: b2)) as [l|] eqn:El; [|done]. exfalso.
  match goal with H : absent e t _ = true |- _ => pose proof (proj1 (absent_iff _ _ _) H b1 u b2 E) as Hn end.
  apply strip_prefix_inv in El. cbn [app] in Hn.
  change (u :: b2 ++ s2 ++ []) with ((u :: b2) ++ s2 ++ []) in Hn. rewrite El, <- app_assoc in Hn.
  by rewrite strip_prefix_app in Hn.
Qed.

Lemma trim_code_units s : code_units (trim s) = trim_units (code_units s).
Proof. unfold trim. apply code_units_of. eapply units_sub; [apply code_units_bound|apply trim_units_sub]. Qed.

Lemma literal_free_trim s : literal_free s = true → literal_free (trim s) = true.
Proof.
  unfold literal_free. rewrite !forallb_forall. intros H e He. specialize (H e He).
  rewrite trim_code_units. destruct (trim_units_split (code_units s)) as (s1 & s2 & E & _).
  rewrite E in H. by eapply absent_sub.
Qed.

(** A tier reads back trimmed. *)
Lemma tier_text s : literal_free s = true →
  unescapeXml (trim_units (code_units (escapeXmlContent s))) = code_units (trim s).
Proof.
  intros Hs. rewrite escape_content_units, trim_escaped, <- trim_code_units, <- escape_content_units.
  by apply unescape_content, literal_free_trim.
Qed.

(** An escaped text ends like the text where no entity can end. *)
Lemma escaped_suffix l : ∀ q t, 59 ∉ q → flat_map attr_entity l = t ++ q → ∃ t', l = t' ++ q.
Proof.
  induction l as [|c l IH] using rev_ind; intros q t Hq E.
  { cbn in E. symmetry in E. apply app_eq_nil in E as [_ ->]. by exists []. }
  destruct (list_eq_nil_dec q) as [->|Hne]; [exists (l ++ [c]); by rewrite app_nil_r|].
  destruct (exists_last Hne) as (q0 & x & ->). rewrite flat_map_app in E. cbn [flat_map] in E. rewrite app_nil_r in E.
  assert (attr_entity c = [c] ∨ ∃ k, attr_entity c = k ++ [59]) as [Ec|[k Ec]].
  { unfold attr_entity, dquote. by_entity c; 
      [right; eexists; refine (app_removelast_last 0 _); done..|by left]. }
  - rewrite Ec, app_assoc in E. apply app_inj_tail in E as [E ->].
    destruct (IH q0 t) as [t' ->]; [set_solver|done|]. exists t'. by rewrite app_assoc.
  - rewrite Ec, !app_assoc in E. apply app_inj_tail in E as [_ <-]. set_solver.
Qed.

Section roundtrip.
Context `{Engine}.
Context (numberToString_decimal :
  ∀ n, 0 ≤ n < 2 ^ 53 → code_units (numberToString (nofZ n)) = decimal_units n).

Lemma decimal_units_digits n : 0 ≤ n → digits (decimal_units n).
Proof. intros Hn. destruct (decimal_units_spec n Hn) as (_ & ? & ?). by split. Qed.

Lemma parse_decimal n : 0 ≤ n < 2 ^ 53 → parse_ordinal (decimal_units n) = n.
Proof.
  intros Hn. unfold parse_ordinal. destruct (decimal_units_spec n) as [-> _]; [lia|].
  rewrite (proj1 (isFinite_nofZ n Hn)). by apply floorZ_nofZ.
Qed.

Definition importance_of (c : ReferenceCompartment) : Z :=
  match rc_importance c with Some i => floorZ i | None => 50 end.

Lemma importance_spec c : renderable c →
  0 ≤ importance_of c < 2 ^ 53 ∧ nofZ (importance_of c) = default (nofZ 50) (rc_importance c).
Proof.
  intros Hc. unfold importance_of. destruct (rc_importance c) as [i|] eqn:E; [|done].
  destruct (rn_importance c Hc i E) as (n & Hn & ->). by rewrite floorZ_nofZ.
Qed.

(** The units of the attributes and of the body. *)
Definition attrs_of (c : ReferenceCompartment) : list Z :=
  attr_units (decimal_units (rc_startMessage c)) (decimal_units (rc_endMessage c))
    (decimal_units (importance_of c)) (code_units (escapeXmlAttr (rc_title c)))
    (code_units ∘ escapeXmlAttr <$> text_of (rc_episodeType c)).

Definition escaped (s : string) : list Z := code_units (escapeXmlContent s).

Definition body_of (c : ReferenceCompartment) : list Z :=
  match text_of (rc_p1 c) with
  | Some p1 => tiers_units (escaped p1) (escaped (default ""%string (rc_p2 c)))
                 (escaped (default ""%string (rc_p3 c))) (escaped <$> text_of (rc_p4 c))
  | None => flat_units (escaped (rc_content c))
  end.

Lemma quoted_units name v : code_units (quoted name v) = attr name (code_units v).
Proof.
  unfold quoted, attr. rewrite !code_units_app. done.
Qed.

Lemma ref_attrs_units c : renderable c → code_units (ref_attrs c) = attrs_of c.
Proof.
  intros Hc. unfold ref_attrs, attrs_of, attr_units, episode_attr, str_of_Z.
  destruct (importance_spec c Hc) as [Hi Ei]. rewrite <- Ei.
  destruct (text_of (rc_episodeType c)) as [e|]; cbn [fmap option_fmap option_map compose];
    rewrite !code_units_app, !quoted_units, !numberToString_decimal
      by (first [apply (rn_start c Hc)|apply (rn_end c Hc)|apply Hi]); done.
Qed.

Lemma nl_units : code_units nl = [10].
Proof. done. Qed.

Lemma tier_element_units i name body : code_units ("<" ++ name ++ ">") = tier_open i →
  code_units ("</" ++ name ++ ">") = tier_close i →
  code_units (tier_element name body) = tier_units i (code_units body).
Proof.
  intros Ho Hc. unfold tier_element, tier_units. rewrite <- Ho, <- Hc.
  rewrite !code_units_app, nl_units. by repeat (rewrite <- ?app_assoc; cbn [app]).
Qed.

Lemma render_units c : renderable c →
  code_units (renderSessionRefCompartment c) = element (attrs_of c) (body_of c).
Proof.
  intros Hc. unfold renderSessionRefCompartment, element, body_of.
  destruct (text_of (rc_p1 c)) as [p1|]; cbn [join];
    rewrite !code_units_app, !nl_units, ref_attrs_units by done.
  - rewrite (tier_element_units 1 "p1"), (tier_element_units 2 "p2"), (tier_element_units 3 "p3") by done.
    unfold tiers_units, last_tier.
    destruct (text_of (rc_p4 c)) as [p4|]; cbn [fmap option_fmap option_map];
      [rewrite (tier_element_units 4 "p4") by done|]; by repeat (rewrite <- ?app_assoc; cbn [app]).
  - unfold flat_units. by repeat (rewrite <- ?app_assoc; cbn [app]).
Qed.

(** *** Reading one back *)

Lemma escaped_free s : 60 ∉ escaped s.
Proof. unfold escaped. rewrite escape_content_units. apply entity_free, content_entity_lacks. by left. Qed.

Lemma title_free u s : u = 34 ∨ u = 60 ∨ u = 62 → u ∉ code_units (escapeXmlAttr s).
Proof. intros Hu. rewrite escape_attr_units. by apply entity_free, attr_entity_lacks. Qed.

Lemma title_end c : renderable c →
  ∀ t, code_units (escapeXmlAttr (rc_title c)) ≠ t ++ code_units "episode_type" ++ [61].
Proof.
  intros Hc t E. rewrite escape_attr_units in E. apply escaped_suffix in E as [t' E].
  - by apply (rn_title_end c Hc t').
  - intros Hin. apply list_elem_of_In in Hin. vm_compute in Hin. intuition congruence.
Qed.

Lemma attrs_free u c : renderable c → u = 60 ∨ u = 62 → u ∉ attrs_of c.
Proof.
  intros Hc Hu. unfold attrs_of, attr_units, episode_attr.
  assert (∀ n, 0 ≤ n → u ∉ decimal_units n) as Hd.
  { intros n Hn. apply digits_free; [by apply decimal_units_digits|]. by destruct Hu as [->| ->]. }
  assert (u ≠ 61 ∧ u ≠ dquote ∧ u ≠ 32) as (? & ? & ?) by (destruct Hu as [->| ->]; done).
  pose proof (rn_start c Hc). pose proof (rn_end c Hc). pose proof (importance_spec c Hc) as [? _].
  assert (∀ s, u ∉ code_units (escapeXmlAttr s)) as Ht by (intros s; apply title_free; tauto).
  destruct (text_of (rc_episodeType c)) as [e|]; cbn [fmap option_fmap option_map compose];
    repeat (first [apply not_elem_of_app|apply not_elem_of_cons]; split);
    first [done|apply not_elem_of_nil|by apply Ht|by apply Hd; lia|
           clear - Hu; destruct Hu as [->| ->]; intros E; by vm_compute in E].
Qed.

Lemma attrs_good c : renderable c → attrs_ok (attrs_of c).
Proof.
  intros Hc. split_and!.
  - done.
  - apply attrs_free; [done|by right].
  - by intros u [= <-].
  - unfold attrs_of, attr_units.
    intros u Hu. unfold attr in Hu. rewrite !app_comm_cons, !app_assoc, last_snoc in Hu. by simplify_eq.
Qed.

Lemma body_absent c p k : head p = Some 60 → forallb (clash p) tier_tags = true →
  absent p (body_of c) k = true.
Proof.
  intros Hp Hc. unfold body_of. destruct (text_of (rc_p1 c)) as [p1|].
  - apply tiers_absent; try done; try apply escaped_free.
    destruct (text_of (rc_p4 c)); cbn; [|done]. intros x [= <-]. apply escaped_free.
  - apply flat_absent; [done|apply escaped_free].
Qed.

Lemma body_good c : body_ok (body_of c).
Proof. intros l. by apply body_absent. Qed.

Lemma rendered_literal c s : renderable c → s ∈ rendered_texts c → literal_free s = true.
Proof. intros Hc Hs. pose proof (rn_literal c Hc) as H'. rewrite forallb_forall in H'. by apply H', list_elem_of_In. Qed.

(** The searches of the parser over the attributes. *)
Lemma attrs_read c : renderable c →
  (∃ m, exec_text ATTR_START_REGEX (attrs_of c) = Some m ∧ group 1 m = decimal_units (rc_startMessage c)) ∧
  (∃ m, exec_text ATTR_END_REGEX (attrs_of c) = Some m ∧ group 1 m = decimal_units (rc_endMessage c)) ∧
  (∃ m, exec_text ATTR_TITLE_REGEX (attrs_of c) = Some m ∧
        group 1 m = code_units (escapeXmlAttr (rc_title c))) ∧
  (∃ m, exec_text ATTR_IMPORTANCE_REGEX (attrs_of c) = Some m ∧ group 1 m = decimal_units (importance_of c)) ∧
  group 1 <$> exec_text ATTR_EPISODE_REGEX (attrs_of c) =
    code_units ∘ escapeXmlAttr <$> text_of (rc_episodeType c).
Proof.
  intros Hc. destruct (importance_spec c Hc) as [Hi _].
  assert (digits (decimal_units (rc_startMessage c))) as H1 by (apply decimal_units_digits, (rn_start c Hc)).
  assert (digits (decimal_units (rc_endMessage c))) as H2 by (apply decimal_units_digits, (rn_end c Hc)).
  assert (digits (decimal_units (importance_of c))) as H3 by (apply decimal_units_digits, Hi).
  pose proof (title_free dquote (rc_title c) (or_introl eq_refl)) as HT.
  assert (∀ x, code_units ∘ escapeXmlAttr <$> text_of (rc_episodeType c) = Some x → dquote ∉ x) as HX.
  { intros x Hx. destruct (text_of (rc_episodeType c)); cbn in Hx; simplify_eq. apply title_free. by left. }
  unfold attrs_of. split_and!.
  - by apply attrs_start.
  - by apply attrs_end.
  - by apply attrs_title.
  - apply attrs_importance; first [done|by apply title_end].
  - pose proof (attrs_episode _ _ _ _ _ H1 H2 H3 HT HX (title_end c Hc)) as E.
    destruct (text_of (rc_episodeType c)) as [e|]; cbn [fmap option_fmap option_map compose] in E |- *;
      [by destruct E as (m & -> & <-)|by rewrite E].
Qed.

Lemma unescape_title c : renderable c →
  unescapeXml (code_units (escapeXmlAttr (rc_title c))) = code_units (rc_title c).
Proof. intros Hc. apply unescape_attr, (rendered_literal c); [done|]. by left. Qed.

Lemma unescape_episode c e : renderable c → text_of (rc_episodeType c) = Some e →
  unescapeXml (code_units (escapeXmlAttr e)) = code_units e.
Proof.
  intros Hc He. apply unescape_attr, (rendered_literal c); [done|]. apply text_of_Some in He as [He _].
  unfold rendered_texts. rewrite He. right. by left.
Qed.

Lemma code_units_nonempty s : s ≠ ""%string → ∃ u l, code_units s = u :: l.
Proof. destruct s as [|a s]; [done|]. intros _. by eexists _, _. Qed.

Lemma parse_rendered c : renderable c →
  parse_compartment (attrs_of c) (body_of c) = Some (parsed_form c).
Proof.
  intros Hc. destruct (attrs_read c Hc) as ((ms & Es & Gs) & (me & Ee & Ge) & (mt & Et & Gt) & (mi & Ei & Gi) & Eep).
  destruct (importance_spec c Hc) as [Hi Ii].
  unfold parse_compartment. rewrite Es, Ee, Et, Ei, Gs, Ge, Gt, unescape_title by done.
  destruct (code_units_nonempty _ (rn_title c Hc)) as (u & l & Eu). rewrite Eu, <- Eu.
  cbn [fmap option_fmap option_map]. rewrite Gi, (proj1 (decimal_units_spec _ (proj1 Hi))), Ii.
  rewrite !parse_decimal by apply Hc.
  assert (unescapeXml ∘ group 1 <$> exec_text ATTR_EPISODE_REGEX (attrs_of c) =
          code_units <$> text_of (rc_episodeType c)) as Eep'.
  { rewrite option_fmap_compose, Eep. destruct (text_of (rc_episodeType c)) as [e|] eqn:Ee'; [|done].
    cbn [fmap option_fmap option_map compose]. by rewrite (unescape_episode c). }
  rewrite Eep'. pose proof (rn_body c Hc) as Hb. unfold body_of, parsed_form.
  assert (text_option (code_units <$> text_of (rc_episodeType c)) = text_of (rc_episodeType c)) as ->.
  { destruct (text_of (rc_episodeType c)); cbn; [by rewrite of_code_units_units|done]. }
  pose proof (rn_literal c Hc) as Hl. unfold rendered_texts in Hl. destruct (text_of (rc_p1 c)) as [p1|]; cbn [default from_option id fmap option_fmap option_map] in *.
  - destruct (tiers_read (escaped p1) (escaped (default ""%string (rc_p2 c)))
      (escaped (default ""%string (rc_p3 c))) (escaped <$> text_of (rc_p4 c))) as (T1 & T2 & T3 & T4);
      [apply escaped_free..|intros x Hx; destruct (text_of (rc_p4 c)); cbn in Hx; simplify_eq; apply escaped_free|].
    rewrite T1, T2, T3, T4. unfold escaped. cbn [forallb] in Hl.
    apply andb_true_iff in Hl as [_ Hl]. apply andb_true_iff in Hl as [_ Hl].
    apply andb_true_iff in Hl as [L1 Hl]. apply andb_true_iff in Hl as [L2 Hl].
    apply andb_true_iff in Hl as [L3 Hl]. apply andb_true_iff in Hl as [L4 _].
    rewrite !tier_text by assumption.
    destruct (code_units_nonempty _ Hb) as (v & k & Ev). rewrite Ev, <- Ev. cbn [default text_option from_option id fmap option_fmap option_map].
    rewrite !of_code_units_units. do 3 f_equal. rewrite <- (text_of_default (rc_p4 c)) in L4 |- *.
    destruct (text_of (rc_p4 c)) as [p4|]; cbn [fmap option_fmap option_map default] in L4 |- *; [|done].
    by rewrite tier_text, of_code_units_units by assumption.
  - assert (extractTier (flat_units (escaped (rc_content c))) 0 = None) as ->.
    { apply (extractTier_none _ 1), flat_absent; [done|apply escaped_free]. }
    unfold flat_units. rewrite trim_units_pad by done. unfold escaped. cbn [forallb] in Hl.
    apply andb_true_iff in Hl as [_ Hl]. apply andb_true_iff in Hl as [_ Hl].
    apply andb_true_iff in Hl as [Hl _]. rewrite tier_text by assumption.
    destruct (code_units_nonempty _ Hb) as (v & k & Ev). rewrite Ev, <- Ev. by rewrite !of_code_units_units.
Qed.

(** ** A whole text *)

Lemma element_absent c p k : renderable c → head p = Some 60 →
  forallb (clash p) (open_tag :: close_tag :: tier_tags) = true →
  absent p (element (attrs_of c) (body_of c)) k = true.
Proof.
  intros Hc Hp Hq. cbn [forallb] in Hq.
  apply andb_true_iff in Hq as [Ho Hq]. apply andb_true_iff in Hq as [Hcl Hq]. unfold element.
  change (32 :: attrs_of c ++ 62 :: body_of c ++ close_tag) with ([32] ++ attrs_of c ++ [62] ++ body_of c ++ close_tag).
  rewrite !absent_app, (absent_tag p open_tag), (absent_tag p close_tag), (body_absent c p) by done.
  destruct p as [|u p]; [done|]. cbn in Hp. simplify_eq. rewrite !absent_free by
    (first [apply attrs_free; [done|by left]|set_solver]). done.
Qed.

Lemma passes_category bef g l :
  (∀ name, name ∈ fact_categories → absent (60 :: code_units name) g l = true) →
  passes CATEGORY_BLOCK_REGEX bef g l.
Proof.
  intros Hg b1 u b2 E. unfold CATEGORY_BLOCK_REGEX. cbn [sequence]. unfold start_at.
  assert (∀ name, name ∈ fact_categories → strip_prefix Z.eqb (60 :: code_units name) (u :: b2 ++ l) = None) as Hn.
  { intros name Hin. exact (proj1 (absent_iff _ _ _) (Hg name Hin) b1 u b2 E). }
  destruct (decide (u = 60)) as [->|Hu].
  - change (lit "<") with (Lit [60]). rewrite seq_unit, seq_group. apply flat_map_none. intros e He. exfalso.
    assert (∀ name, name ∈ fact_categories → strip_prefix Z.eqb (code_units name) (b2 ++ l) = None) as Hs by exact Hn.
    unfold category_name, outcomes in He. cbn [rest] in He. unfold lit in He.
    rewrite !Hs in He by (unfold fact_categories; set_solver). by apply elem_of_nil in He.
  - change (lit "<") with (Lit [60]). apply (lit_fails [60] _ 60); [done|]. cbn [edge]. apply Z.eqb_neq. congruence.
Qed.

Section document.
Context (pre post : list Z).

Definition block_tags : list (list Z) :=
  code_units <$> ["<facts>"; "<events>"; "<unprocessed_from>"; "<user_observations>"; "<primer_candidates>"]%string.

(** The units around the elements hold no tag the parser looks for. *)
Definition plain_around : Prop :=
  (∀ p k, p ∈ open_tag :: block_tags → absent p pre k = true ∧ absent p post [] = true) ∧
  (∀ name k, name ∈ fact_categories →
    absent (60 :: code_units name) pre k = true ∧ absent (60 :: code_units name) post [] = true).

Context (Haround : plain_around).

Definition pieces_of (cs : list ReferenceCompartment) : list (list Z * ReferenceCompartment) :=
  match cs with [] => [] | c :: cs => (pre, c) :: ((fun c => ([10; 10], c)) <$> cs) end.

Definition element_of (c : ReferenceCompartment) : list Z := element (attrs_of c) (body_of c).

Definition document (cs : list ReferenceCompartment) : list Z := pieces_text element_of (pieces_of cs) ++ post.

Lemma pieces_forall (P : list Z * ReferenceCompartment → Prop) cs :
  (∀ c, c ∈ cs → P (pre, c) ∧ P ([10; 10], c)) → Forall P (pieces_of cs).
Proof.
  intros H'. destruct cs as [|c cs]; constructor; [apply H'; by left|]. apply Forall_fmap, Forall_forall.
  intros d Hd. apply H'. by right.
Qed.

Lemma document_absent cs p : Forall renderable cs → p ∈ block_tags → absent p (document cs) [] = true.
Proof.
  intros Hcs Hp. destruct Haround as [Hb _].
  assert (head p = Some 60 ∧ forallb (clash p) (open_tag :: close_tag :: tier_tags) = true) as [Hh Hq].
  { unfold block_tags in Hp. cbn [fmap list_fmap] in Hp.
    repeat (apply elem_of_cons in Hp as [->|Hp]; [by vm_compute|]). by apply elem_of_nil in Hp. }
  unfold document. rewrite absent_app, (proj2 (Hb p [] ltac:(by right))), andb_true_r. generalize (post ++ []).
  assert (Forall (fun q => renderable q.2 ∧ ∀ k, absent p q.1 k = true) (pieces_of cs)) as Hf.
  { apply pieces_forall. intros c Hc. eapply Forall_forall in Hcs; [|exact Hc].
    split; (split; [done|]); intros k; [by apply Hb; right|].
    destruct p as [|u p]; [done|]. cbn in Hh. simplify_eq. apply absent_free. set_solver. }
  induction Hf as [|[g c] ps [Hc Hg] _ IH]; intros k; [done|]. cbn [pieces_text flat_map fst snd] in *.
  rewrite !absent_app, Hg. unfold element_of at 1. rewrite element_absent by done. cbn. apply IH.
Qed.

Lemma open_tag_guards wa wb : guarded open_tag (compartment_re wa wb).
Proof. apply guarded_seq, guarded_lit. Qed.

Lemma document_gaps wa wb cs : Forall renderable cs →
  gaps_pass renderable (compartment_re wa wb) element_of (pieces_of cs).
Proof.
  intros Hcs. apply pieces_forall. intros c Hc. eapply Forall_forall in Hcs; [|exact Hc].
  split; (split; [done|]); intros bef l; (eapply passes_guarded; [apply open_tag_guards|]).
  - exact (proj1 (proj1 Haround open_tag _ ltac:(by left))).
  - apply absent_free. intros Hin. apply list_elem_of_In in Hin. vm_compute in Hin. intuition congruence.
Qed.

Lemma document_tail wa wb bef : search (compartment_re wa wb) bef post = None.
Proof.
  apply search_none; [|by apply open_tag_guards]. eapply passes_guarded; [apply open_tag_guards|].
  exact (proj2 (proj1 Haround open_tag [] ltac:(by left))).
Qed.

Lemma element_nonempty c : element_of c ≠ [].
Proof. done. Qed.

Lemma element_exec wa ta wb tb c bef l : tagging wa ta → tagging wb tb → renderable c →
  exec (compartment_re wa wb) bef (element_of c ++ l) =
  Some (Build_mstate (rev (element_of c) ++ bef) l (tb (body_of c) ++ ta (attrs_of c))).
Proof. intros Ha Hb Hc. apply element_match; [done..|by apply attrs_good|apply body_good]. Qed.

Lemma document_fuel cs : (length (pieces_of cs) < S (length (document cs)))%nat.
Proof.
  pose proof (pieces_length element_of element_nonempty (pieces_of cs)). unfold document.
  rewrite length_app. lia.
Qed.

Lemma omap_map {A B C} (f : B → option C) (g : A → B) l : omap (fun a => f (g a)) l = omap f (List.map g l).
Proof. induction l as [|a l IH]; [done|]. cbn. by rewrite IH. Qed.

Lemma pieces_omap {B} (f : ReferenceCompartment → option B) cs :
  omap (fun p => f p.2) (pieces_of cs) = omap f cs.
Proof.
  destruct cs as [|c cs]; [done|]. cbn. assert (∀ l : list ReferenceCompartment,
    omap (fun p : list Z * ReferenceCompartment => f p.2) ((fun c => ([10; 10], c)) <$> l) = omap f l) as ->;
    [|done].
  induction l as [|d l IH]; [done|]. cbn. by rewrite IH.
Qed.

Lemma document_compartments cs : Forall renderable cs →
  omap (fun m => parse_compartment (group 1 m) (group 2 m)) (matchAll COMPARTMENT_REGEX (document cs)) =
  parsed_form <$> cs.
Proof.
  intros Hcs. set (read caps := parse_compartment (default [] (group_of caps 1)) (default [] (group_of caps 2))).
  change (fun m => parse_compartment (group 1 m) (group 2 m)) with (fun m => read (caps (after m))).
  rewrite (omap_map read). unfold matchAll, document at 2.
  rewrite (matches_pieces renderable COMPARTMENT_REGEX element_of (fun c => [(2%nat, body_of c); (1%nat, attrs_of c)])).
  - rewrite <- omap_map.
    rewrite (pieces_omap (fun c => read [(2%nat, body_of c); (1%nat, attrs_of c)])).
    induction Hcs as [|c cs Hc _ IH]; [done|]. cbn [omap list_omap fmap list_fmap].
    change (read [(2%nat, body_of c); (1%nat, attrs_of c)]) with (parse_compartment (attrs_of c) (body_of c)).
    rewrite parse_rendered by done. f_equal. exact IH.
  - intros c bef l Hc. by apply (element_exec (Group 1) _ (Group 2) _ _ _ _ (tagging_group 1) (tagging_group 2)).
  - apply element_nonempty.
  - intros bef. apply document_tail.
  - by apply document_gaps.
  - apply document_fuel.
Qed.

(** No other block is found. *)
Lemma block_none cs p r : Forall renderable cs → p ∈ block_tags → guarded p r →
  exec_text r (document cs) = None.
Proof.
  intros Hcs Hp Hr. apply (search_guarded_none p); [done| |by apply document_absent].
  intros ->. unfold block_tags in Hp. cbn [fmap list_fmap] in Hp.
  repeat (apply elem_of_cons in Hp as [Hp|Hp]; [done|]). by apply elem_of_nil in Hp.
Qed.

Lemma block_re_guarded name : guarded (code_units ("<" ++ name ++ ">")%string) (block_re name).
Proof. apply guarded_seq, guarded_lit. Qed.

Lemma block_re_none cs name : Forall renderable cs →
  name ∈ ["facts"; "events"; "user_observations"; "primer_candidates"]%string →
  exec_text (block_re name) (document cs) = None.
Proof.
  intros Hcs Hname. apply (block_none cs (code_units ("<" ++ name ++ ">")%string)); [done| |apply block_re_guarded].
  unfold block_tags. apply list_elem_of_fmap. eexists. split; [done|].
  repeat (apply elem_of_cons in Hname as [->|Hname]; [cbn; set_solver|]). by apply elem_of_nil in Hname.
Qed.

Lemma unprocessed_none cs : Forall renderable cs → exec_text UNPROCESSED_REGEX (document cs) = None.
Proof.
  intros Hcs. apply (block_none cs (code_units "<unprocessed_from>")); [done| |apply guarded_seq, guarded_lit].
  unfold block_tags. apply list_elem_of_fmap. eexists. split; [done|]. set_solver.
Qed.

(** What remains once the elements are removed holds no category. *)
Lemma document_facts cs : Forall renderable cs → parse_facts (document cs) = [].
Proof.
  intros Hcs. unfold parse_facts.
  assert (factsScope (document cs) = flat_map fst (pieces_of cs) ++ post) as ->.
  { unfold factsScope, FACTS_BLOCK_REGEX, replaceFirst, EVENTS_BLOCK_REGEX.
    rewrite !block_re_none by (done || set_solver).
    unfold replaceAll, document at 2.
    apply (replace_pieces renderable (compartment_re id id) element_of (fun c => [] ++ [])).
    - intros c bef l Hc. by apply (element_exec id _ id _ _ _ _ tagging_id tagging_id).
    - apply element_nonempty.
    - intros bef. apply document_tail.
    - by apply document_gaps.
    - apply document_fuel. }
  assert (search CATEGORY_BLOCK_REGEX [] (flat_map fst (pieces_of cs) ++ post) = None) as Hn.
  { apply search_none; [|done]. apply passes_category. intros name Hname. destruct Haround as [_ Hc].
    rewrite absent_app, (proj2 (Hc name [] Hname)), andb_true_r. generalize (post ++ []).
    assert (Forall (fun q => ∀ k, absent (60 :: code_units name) q.1 k = true) (pieces_of cs)) as Hf.
    { apply pieces_forall. intros c _. split; intros k; [by apply Hc|]. apply absent_free. set_solver. }
    induction Hf as [|[g c] ps Hg _ IH]; intros k; [done|]. cbn [flat_map fst] in *.
    rewrite absent_app, Hg. cbn. apply IH. }
  unfold matchAll. cbn [matches_from]. by rewrite Hn.
Qed.

Lemma document_parsed output cs : Forall renderable cs → code_units output = document cs →
  parseCompartmentOutput output =
  {| po_compartments := js_sort by_start (parsed_form <$> cs); po_facts := []; po_events := [];
     po_unprocessedFrom := None; po_userObservations := []; po_primerCandidates := [] |}.
Proof.
  intros Hcs E. unfold parseCompartmentOutput. rewrite E, document_compartments, document_facts by done.
  unfold parseEvents, parse_observations, parse_primers, EVENTS_BLOCK_REGEX, USER_OBSERVATIONS_REGEX,
    PRIMER_CANDIDATES_REGEX.
  by rewrite unprocessed_none, !block_re_none by (done || set_solver).
Qed.
End document.

(** *** The rendered texts *)

Lemma join_document pre post cs : cs ≠ [] ∨ pre = [] → Forall renderable cs →
  pre ++ code_units (join (nl ++ nl) (renderSessionRefCompartment <$> cs)) ++ post = document pre post cs.
Proof.
  intros Hne Hcs. unfold document. destruct Hcs as [|c cs Hc Hcs].
  { destruct Hne as [Hne| ->]; done. }
  cbn [pieces_of pieces_text flat_map fst snd]. rewrite <- !app_assoc. f_equal. clear Hne. revert c Hc.
  induction Hcs as [|d cs Hd Hcs IH]; intros c Hc.
  { change (join (nl ++ nl) (renderSessionRefCompartment <$> [c])) with (renderSessionRefCompartment c).
    by rewrite render_units. }
  change (join (nl ++ nl) (renderSessionRefCompartment <$> c :: d :: cs))
    with (renderSessionRefCompartment c ++ (nl ++ nl) ++ join (nl ++ nl) (renderSessionRefCompartment <$> d :: cs))%string.
  rewrite !code_units_app, render_units, nl_units by done. rewrite <- !app_assoc. rewrite (IH d Hd).
  cbn [fmap list_fmap flat_map fst snd app]. unfold element_of. by rewrite <- !app_assoc.
Qed.

Definition wrapper_open : list Z := code_units ("<session_references>" ++ nl).
Definition wrapper_close : list Z := code_units (nl ++ "</session_references>").

Lemma plain_bare : plain_around [] [].
Proof. split; intros; by split. Qed.

Lemma plain_wrapper : plain_around wrapper_open wrapper_close.
Proof.
  split.
  - intros p k Hp. unfold block_tags in Hp. cbn [fmap list_fmap] in Hp.
    repeat (apply elem_of_cons in Hp as [->|Hp]; [by vm_compute|]). by apply elem_of_nil in Hp.
  - intros name k Hn. unfold fact_categories in Hn.
    repeat (apply elem_of_cons in Hn as [->|Hn]; [by vm_compute|]). by apply elem_of_nil in Hn.
Qed.

Lemma answer_parsed cs : Forall renderable cs →
  parseCompartmentOutput (join (nl ++ nl) (renderSessionRefCompartment <$> cs)) =
  {| po_compartments := js_sort by_start (parsed_form <$> cs); po_facts := []; po_events := [];
     po_unprocessedFrom := None; po_userObservations := []; po_primerCandidates := [] |}.
Proof.
  intros Hcs. apply (document_parsed [] [] plain_bare); [done|].
  rewrite <- (join_document [] []) by auto. cbn. by rewrite app_nil_r.
Qed.

Lemma block_parsed all : Forall renderable (recent all) →
  parseCompartmentOutput (renderSessionReferencesBlock all) =
  {| po_compartments := js_sort by_start (parsed_form <$> recent all); po_facts := []; po_events := [];
     po_unprocessedFrom := None; po_userObservations := []; po_primerCandidates := [] |}.
Proof.
  intros Hcs. destruct all as [|c all]; [by vm_compute|].
  apply (document_parsed wrapper_open wrapper_close plain_wrapper); [done|].
  rewrite <- join_document; [|left|done].
  - unfold renderSessionReferencesBlock, wrapper_open, wrapper_close. rewrite !code_units_app.
    by rewrite <- !app_assoc.
  - intros E. apply (f_equal length) in E. unfold recent in E. rewrite length_drop in E. cbn [length SESSION_REF_WINDOW] in E.
    unfold SESSION_REF_WINDOW in E. lia.
Qed.
End roundtrip.

(** ** Acceptance *)

Lemma heal_tiled s cs n ranges : tiles s (range_of <$> cs) n → healCompartmentGaps cs ranges = cs.
Proof.
  revert s. induction cs as [|c cs IH]; intros s Ht; [done|]. destruct cs as [|d cs]; [done|].
  cbn [fmap list_fmap] in Ht. unfold range_of at 1 in Ht. inversion Ht as [|? ? ? ? Hle Hd]; subst.
  change (healCompartmentGaps (c :: d :: cs) ranges) with (healed ranges c d :: healCompartmentGaps (d :: cs) ranges).
  rewrite (IH (pc_endMessage c + 1)) by exact Hd. unfold healed. unfold range_of at 1 in Hd. inversion Hd as [|? ? ? ? ? ? E]; subst.
  by rewrite (proj2 (Z.leb_le _ _)) by lia.
Qed.

Lemma set_end_same c : set_end c (pc_endMessage c) = c.
Proof. by destruct c. Qed.

(** A parsed output whose compartments tile the whole chunk is stored as it is. *)
Lemma tiling_accepted {Fact Event Primer : Type} (parsed : ParsedCompartmentOutput Fact Event Primer) chunk off :
  po_compartments parsed ≠ [] → po_unprocessedFrom parsed = None →
  Forall (fun c => missing_p1 c = false) (po_compartments parsed) →
  tiles (ck_startIndex chunk) (range_of <$> po_compartments parsed) (ck_endIndex chunk + 1) →
  (scl_ordinal <$> ck_lines chunk) =
    seqZ (ck_startIndex chunk) (ck_endIndex chunk - ck_startIndex chunk + 1) →
  (∀ arc, arc ∈ ck_completedToolArcs chunk → rg_end arc ≤ ck_endIndex chunk) →
  ∃ pass, validateHistorianOutput parsed chunk off = Ok pass ∧
    cc_compartment <$> vp_compartments pass = po_compartments parsed.
Proof.
  intros Hne Hu Hp1 Ht Hlines Harcs. set (E := ck_endIndex chunk) in *.
  destruct (exists_last Hne) as (k & l & Ek).
  assert (pc_endMessage l = E) as El.
  { rewrite Ek, fmap_app in Ht. apply tiles_last in Ht. cbn in Ht. lia. }
  assert (terminal_safe (ck_completedToolArcs chunk) E E) as Hsafe.
  { intros a _ Ha. unfold completedToolArcCrossesBoundary. apply andb_false_iff. right. lia. }
  assert (healOutput parsed chunk = (po_compartments parsed, None)) as Eh.
  { unfold healOutput. rewrite (heal_tiled _ _ _ _ Ht), Hu. rewrite Ek.
    pose proof (heal_terminal_spec k l None (ck_completedToolArcs chunk) E) as Hs.
    destruct (healTerminalCompletedToolArc _ _ _ _) as [cs' u'].
    destruct Hs as (e & -> & Hle & _ & _ & Hmin & ->). specialize (Hmin E ltac:(lia) Hsafe).
    assert (e = pc_endMessage l) as -> by lia. by rewrite set_end_same. }
  unfold validateHistorianOutput. rewrite Eh.
  pose proof (tiles_within _ _ _ E Ht ltac:(lia)) as Hin.
  destruct (map_complete (po_compartments parsed) (ck_lines chunk) off _ _ Hlines) as [mapped Hm].
  { eapply Forall_impl; [exact Hin|]. cbn. lia. }
  rewrite Hm. cbn [mbind result_bind]. fold E.
  assert (validateParsedCompartments (po_compartments parsed) (ck_startIndex chunk) E None = None) as ->.
  { apply validateParsed_iff. split_and!; [done|eapply Forall_impl; [exact Hin|]; cbn; lia|].
    exists (E + 1). split; [done|]. cbn. lia. }
  assert (boundarySplitsCompletedToolArc (E + 1) (ck_completedToolArcs chunk) = false) as Hb.
  { apply not_true_is_false. intros (a & Ha & Hc)%existsb_exists. apply list_elem_of_In in Ha.
    rewrite Hsafe in Hc by auto. done. }
  assert (last (po_compartments parsed) = Some l) as -> by (rewrite Ek; apply last_snoc).
  rewrite El, Hb. cbn [throw_if].
  destruct (po_compartments parsed) as [|c cs]; [done|]. eexists. split; [reflexivity|].
  by apply map_ok in Hm as [? _].
Qed.

Lemma tiles_sorted s cs n : tiles s (range_of <$> cs) n → StronglySorted (fun a b => by_start a b ≤ 0) cs.
Proof.
  revert s. induction cs as [|c cs IH]; intros s Ht; [constructor|]. cbn [fmap list_fmap] in Ht.
  unfold range_of at 1 in Ht. inversion Ht as [|? ? ? ? Hle Hd]; subst. constructor; [by eapply IH|].
  apply (tiles_within _ _ n (n - 1)) in Hd; [|lia]. eapply Forall_impl; [exact Hd|]. cbn. unfold by_start. lia.
Qed.

Lemma tiered_p1 c : renderable c → is_Some (text_of (rc_p1 c)) → missing_p1 (parsed_form c) = false.
Proof.
  intros Hc [p1 Hp]. unfold missing_p1, parsed_form. cbn [pc_p1]. rewrite Hp. cbn [fmap option_fmap option_map].
  pose proof (rn_body c Hc) as Hb. rewrite Hp in Hb. cbn in Hb. apply String.eqb_neq.
  assert (trim (trim p1) = trim p1) as ->; [|done]. unfold trim at 1. rewrite trim_code_units, trim_units_idem.
  by rewrite <- trim_code_units, of_code_units_units.
Qed.

(** ** Properties *)

Section properties.
Context `{Engine}.
Context (numberToString_decimal :
  ∀ n, 0 ≤ n < 2 ^ 53 → code_units (numberToString (nofZ n)) = decimal_units n).

(** C7: what the historian is shown is what its parser reads, for renderable
    compartments: ordinals and importance are integers below 2^53, the title is not
    empty and does not end in the text episode_type=, the body shown (the first tier, or
    the content without one) is not blank, and no text spells &apos;, &quot;, &lt; or
    &gt; itself. The block of session references of such compartments, parsed, gives
    back the latest ones in the order of their starts, each with its range, title,
    episode type and importance, its tiers trimmed, and nothing else. *)
Theorem references_parse_back (all : list ReferenceCompartment) :
  Forall renderable (recent all) →
  parseCompartmentOutput (renderSessionReferencesBlock all) =
  {| po_compartments := js_sort by_start (parsed_form <$> recent all);
     po_facts := []; po_events := []; po_unprocessedFrom := None;
     po_userObservations := []; po_primerCandidates := [] |}.
Proof. by apply block_parsed. Qed.

(** C8: a historian that answers in the form of its examples is believed. Take tiered,
    renderable compartments (as in C7: integers below 2^53, a title, a first tier that
    is not blank, no text that spells one of those entities) that tile the chunk, and a
    chunk with exactly one line per ordinal from its start to its end. Rendered that way
    they pass parsing, healing and validation, and what is stored is each of them in
    turn with its range, title, episode type and importance and its tiers trimmed,
    whatever the tool-only ranges, when every completed tool arc ends inside the chunk.
    *)
Theorem rendered_answer_accepted (cs : list ReferenceCompartment) (chunk : HistorianValidationChunk)
    (sequenceOffset : Z) :
  cs ≠ [] → Forall renderable cs → Forall (fun c => is_Some (text_of (rc_p1 c))) cs →
  tiles (ck_startIndex chunk) ((fun c => (rc_startMessage c, rc_endMessage c)) <$> cs)
    (ck_endIndex chunk + 1) →
  (scl_ordinal <$> ck_lines chunk) =
    seqZ (ck_startIndex chunk) (ck_endIndex chunk - ck_startIndex chunk + 1) →
  (∀ arc, arc ∈ ck_completedToolArcs chunk → rg_end arc ≤ ck_endIndex chunk) →
  ∃ pass,
    validateHistorianText (join (nl ++ nl) (renderSessionRefCompartment <$> cs)) chunk sequenceOffset = Ok pass ∧
    cc_compartment <$> vp_compartments pass = parsed_form <$> cs.
Proof.
  intros Hne Hcs Hp1 Ht Hlines Harcs.
  assert (range_of <$> (parsed_form <$> cs) = (fun c => (rc_startMessage c, rc_endMessage c)) <$> cs) as Er
    by by rewrite <- list_fmap_compose.
  rewrite <- Er in Ht. unfold validateHistorianText. rewrite (answer_parsed numberToString_decimal) by done.
  rewrite js_sort_id by (by eapply tiles_sorted).
  apply tiling_accepted; cbn [po_compartments po_unprocessedFrom]; try done.
  - by destruct cs.
  - apply Forall_fmap, Forall_forall. intros c Hc. rewrite Forall_forall in Hcs, Hp1.
    apply tiered_p1; [by apply Hcs|by apply Hp1].
Qed.
End properties.

(** ** Witnesses *)

#[local] Instance printing_engine : Engine :=
  {| numberToString := fun n => of_code_units (decimal_units (floorZ n)) |}.

Lemma printing_engine_decimal n : 0 ≤ n < 2 ^ 53 → code_units (numberToString (nofZ n)) = decimal_units n.
Proof.
  intros Hn. cbn [numberToString printing_engine]. rewrite floorZ_nofZ by done. apply code_units_of.
  destruct (decimal_units_spec n) as (_ & Hd & _); [lia|]. eapply Forall_impl; [exact Hd|].
  intros u Hu. unfold is_digit in Hu. lia.
Qed.

Definition sample_ref (s e : Z) (title : string) (p1 : option string) : ReferenceCompartment :=
  {| rc_startMessage := s; rc_endMessage := e; rc_title := title; rc_content := "a <flat> body & more";
     rc_p1 := p1; rc_p2 := Some "shorter"%string; rc_p3 := None; rc_p4 := Some ""%string;
     rc_importance := None; rc_episodeType := Some "design,infra"%string |}.

Lemma sample_renderable s e title p1 :
  0 ≤ s < 2 ^ 53 → 0 ≤ e < 2 ^ 53 → title ≠ ""%string → last (code_units title) ≠ Some 61 →
  trim (default "a <flat> body & more"%string (text_of p1)) ≠ ""%string →
  forallb literal_free (rendered_texts (sample_ref s e title p1)) = true →
  renderable (sample_ref s e title p1).
Proof.
  intros Hs He Ht Hl Hb Hf. split; try done.
  intros t E. apply Hl. cbn [rc_title sample_ref] in E. rewrite E.
  change (code_units episode_marker) with (code_units "episode_type" ++ [61]). by rewrite app_assoc, last_snoc.
Qed.

Definition sample_refs : list ReferenceCompartment :=
  [sample_ref 1 4 "Q&A <notes>" (Some "first <tier> & so on")%string; sample_ref 5 9 "Plain" None].

Lemma sample_refs_renderable : Forall renderable sample_refs.
Proof.
  repeat (apply Forall_cons; split); [| |constructor];
    (apply sample_renderable; [lia|lia|done|by vm_compute|by vm_compute|by vm_compute]).
Qed.

Lemma references_parse_back_witness :
  Forall renderable (recent sample_refs) ∧
  parseCompartmentOutput (renderSessionReferencesBlock sample_refs) =
  {| po_compartments := js_sort by_start (parsed_form <$> recent sample_refs);
     po_facts := []; po_events := []; po_unprocessedFrom := None;
     po_userObservations := []; po_primerCandidates := [] |}.
Proof.
  split; [exact sample_refs_renderable|].
  apply (references_parse_back printing_engine_decimal sample_refs). exact sample_refs_renderable.
Defined.

Definition sample_answer : list ReferenceCompartment :=
  [sample_ref 1 4 "Q&A <notes>" (Some "first <tier> & so on"%string);
   sample_ref 5 9 "Second" (Some "the rest"%string)].

Definition sample_lines_chunk : HistorianValidationChunk :=
  {| ck_startIndex := 1; ck_endIndex := 9;
     ck_lines := (fun i => {| scl_ordinal := i; scl_messageId := "m" |}) <$> seqZ 1 9;
     ck_toolOnlyRanges := []; ck_completedToolArcs := [{| rg_start := 2; rg_end := 6 |}] |}.

Lemma rendered_answer_accepted_witness :
  ∃ pass,
    validateHistorianText (join (nl ++ nl) (renderSessionRefCompartment <$> sample_answer))
      sample_lines_chunk 3 = Ok pass ∧
    cc_compartment <$> vp_compartments pass = parsed_form <$> sample_answer.
Proof.
  apply (rendered_answer_accepted printing_engine_decimal sample_answer sample_lines_chunk 3).
  - done.
  - repeat (apply Forall_cons; split); [| |constructor];
      (apply sample_renderable; [lia|lia|done|by vm_compute|by vm_compute|by vm_compute]).
  - repeat constructor; by eexists.
  - cbn. constructor; [lia|]. constructor; [lia|constructor].
  - by vm_compute.
  - intros arc Ha. apply list_elem_of_singleton in Ha as ->. cbn. lia.
Defined.

(** A text that spells an entity does not survive: it is escaped with the
    ampersand first and unescaped with the ampersand first. *)
Example entity_text_changed :
  escapeXmlContent "&lt;" = "&amp;lt;"%string ∧
  of_code_units (unescapeXml (code_units (escapeXmlContent "&lt;"))) = "<"%string.
Proof. split; vm_compute; reflexivity. Qed.

(** A title that ends in [episode_type=] is read as the start of that attribute:
    the episode type comes back as the text between the two quotes. *)
Example title_end_misread :
  pc_episodeType <$> po_compartments
    (parseCompartmentOutput (renderSessionRefCompartment (sample_ref 1 4 "on episode_type=" (Some "body"%string)))) =
  [Some " episode_type="%string].
Proof. vm_compute. reflexivity. Qed.

(** Only the first block of events is removed before facts are looked for. *)
Example second_events_block_leaks :
  po_facts (parseCompartmentOutput
    "<events></events><events><NAMING>
* from an event
</NAMING></events>"%string) =
  [{| pf_category := "NAMING"; pf_content := "from an event" |}].
Proof. vm_compute. reflexivity. Qed.
