(* ===== verification/Leases.v ===== *)
(** * Leases

    Models packages/plugin/src/features/magic-context/compartment-lease.ts (one
    row per session, every operation one SQL statement) and
    packages/plugin/src/features/magic-context/dreamer/lease.ts with
    dreamer/storage-dream-state.ts (four rows of text per lease key, every
    mutation one immediate transaction, and the heartbeat that keeps a lease).

    Statements and immediate transactions are serialised by the database, so an
    execution is a sequence of operations.  An operation reads the clock when it
    checks and again when it writes; both readings are arguments. *)

From S2P Require Import Prelude JsNumber JsMap JsValue.
From Stdlib Require Import DecimalString DecimalZ.

(** ** The compartment lease *)

Module CompartmentLease.

Definition TTL_MS : Z := 5 * 60 * 1000.

Record row := { holder_id : string; acquired_at : Z; expires_at : Z }.

(** [compartment_state_lease], by its primary key [session_id]. *)
Abbreviation table := (gmap string row).

(** INSERT .. ON CONFLICT DO UPDATE .. WHERE: the row after, or [None] when
    no row changed. *)
Definition acquire (sessionId holderId : string) (now : Z) (db : table) : table * option row :=
  let excluded :=
    {| holder_id := holderId; acquired_at := now; expires_at := now + TTL_MS |} in
  match db !! sessionId with
  | None => (<[sessionId := excluded]> db, Some excluded)
  | Some r =>
      if String.eqb (holder_id r) holderId || (expires_at r <=? now)
      then (<[sessionId := excluded]> db, Some excluded)
      else (db, None)
  end.

Definition renew (sessionId holderId : string) (now : Z) (db : table) : table * bool :=
  match db !! sessionId with
  | Some r =>
      if String.eqb (holder_id r) holderId && (now <? expires_at r)
      then (<[sessionId := {| holder_id := holderId; acquired_at := now;
                              expires_at := now + TTL_MS |}]> db, true)
      else (db, false)
  | None => (db, false)
  end.

Definition release (sessionId holderId : string) (db : table) : table :=
  match db !! sessionId with
  | Some r => if String.eqb (holder_id r) holderId then delete sessionId db else db
  | None => db
  end.

Definition is_held (sessionId holderId : string) (now : Z) (db : table) : bool :=
  match db !! sessionId with
  | Some r => String.eqb (holder_id r) holderId && (now <? expires_at r)
  | None => false
  end.

(** What a process does at an instant. *)
Inductive op :=
| op_acquire (sessionId holderId : string)
| op_renew (sessionId holderId : string)
| op_release (sessionId holderId : string).

Definition op_holder (o : op) : string :=
  match o with op_acquire _ h | op_renew _ h | op_release _ h => h end.

Definition apply (db : table) (e : Z * op) : table :=
  match e.2 with
  | op_acquire s h => (acquire s h e.1 db).1
  | op_renew s h => (renew s h e.1 db).1
  | op_release s h => release s h db
  end.

End CompartmentLease.

(** ** The dream lease *)

Module DreamLease.

Definition LEASE_DURATION_MS : Z := 2 * 60 * 1000.
Definition DREAMING_LEASE_KEY : string := "dreaming".

(** [String(z)] and [Number(s)] for integers; other text is not a number. *)
Definition String_of (z : Z) : string := NilZero.string_of_int (Z.to_int z).
Definition Number_of (s : string) : option Z := Z.of_int <$> NilZero.int_of_string s.

(** The table [dream_state]. *)
Abbreviation dream_state := (gmap string string).

Record LeaseRowKeys := { holder : string; heartbeat : string; expiry : string; generation : string }.

Definition rowKeys (leaseKey : string) : LeaseRowKeys :=
  if String.eqb leaseKey DREAMING_LEASE_KEY then
    {| holder := "dreaming_lease_holder"; heartbeat := "dreaming_lease_heartbeat";
       expiry := "dreaming_lease_expiry"; generation := "dreaming_lease_generation" |}
  else
    {| holder := "lease:" ++ leaseKey ++ ":holder";
       heartbeat := "lease:" ++ leaseKey ++ ":heartbeat";
       expiry := "lease:" ++ leaseKey ++ ":expiry";
       generation := "lease:" ++ leaseKey ++ ":generation" |}%string.

Definition getDreamState (db : dream_state) (key : string) : option string := db !! key.
Definition setDreamState (db : dream_state) (key v : string) : dream_state := <[key := v]> db.
Definition deleteDreamState (db : dream_state) (key : string) : dream_state := delete key db.

(** A row's text as a number: an empty or absent text is [null]. *)
Definition number_row (db : dream_state) (key : string) : option Z :=
  v ← getDreamState db key; if String.eqb v "" then None else Number_of v.

Definition getLeaseExpiry (db : dream_state) (keys : LeaseRowKeys) : option Z :=
  number_row db (expiry keys).

Definition isLeaseActive (db : dream_state) (leaseKey : string) (now : Z) : bool :=
  match getLeaseExpiry db (rowKeys leaseKey) with Some e => now <? e | None => false end.

Definition getLeaseHolder (db : dream_state) (leaseKey : string) : option string :=
  getDreamState db (holder (rowKeys leaseKey)).

Definition getLeaseGeneration (db : dream_state) (leaseKey : string) : option Z :=
  g ← number_row db (generation (rowKeys leaseKey));
  if (Z.abs g <=? MAX_SAFE_INTEGER) && (0 <? g) then Some g else None.

Definition holder_is (db : dream_state) (leaseKey holderId : string) : bool :=
  match getLeaseHolder db leaseKey with Some h => String.eqb h holderId | None => false end.

Definition peekLeaseHolderAndExpiry (db : dream_state) (expectedHolder leaseKey : string)
    (now : Z) : bool :=
  holder_is db leaseKey expectedHolder &&
  match number_row db (expiry (rowKeys leaseKey)) with Some e => now <=? e | None => false end.

Definition generation_is (db : dream_state) (leaseKey : string) (g : Z) : bool :=
  match getLeaseGeneration db leaseKey with Some g' => g' =? g | None => false end.

Definition leaseOwnershipMatches (db : dream_state) (expectedHolder : string)
    (expectedGeneration : Z) (leaseKey : string) (now : Z) : bool :=
  generation_is db leaseKey expectedGeneration &&
  peekLeaseHolderAndExpiry db expectedHolder leaseKey now.

Record LeaseAcquisition := { acquiredAt : Z; la_generation : Z }.

Definition write_lease (db : dream_state) (leaseKey holderId : string) (now g : Z) : dream_state :=
  let keys := rowKeys leaseKey in
  let db := setDreamState db (holder keys) holderId in
  let db := setDreamState db (heartbeat keys) (String_of now) in
  let db := setDreamState db (expiry keys) (String_of (now + LEASE_DURATION_MS)) in
  setDreamState db (generation keys) (String_of g).

Definition acquireLeaseWithAcquisition (db : dream_state) (holderId leaseKey : string)
    (checkedAt now : Z) : dream_state * option LeaseAcquisition :=
  let existingHolder := getLeaseHolder db leaseKey in
  let foreign :=
    match existingHolder with
    | Some h => negb (String.eqb h "") && negb (String.eqb h holderId)
    | None => false
    end in
  if isLeaseActive db leaseKey checkedAt && foreign then (db, None)
  else
    let priorGeneration := default 0 (getLeaseGeneration db leaseKey) in
    let g := if holder_is db leaseKey holderId then Z.max 1 priorGeneration
             else priorGeneration + 1 in
    (write_lease db leaseKey holderId now g,
     Some {| acquiredAt := now; la_generation := g |}).

Definition expected_ok (db : dream_state) (leaseKey : string) (expectedGeneration : option Z) : bool :=
  match expectedGeneration with Some g => generation_is db leaseKey g | None => true end.

Definition renewLease (db : dream_state) (holderId leaseKey : string)
    (expectedGeneration : option Z) (checkedAt now : Z) : dream_state * bool :=
  if negb (holder_is db leaseKey holderId) || negb (isLeaseActive db leaseKey checkedAt) ||
     negb (expected_ok db leaseKey expectedGeneration)
  then (db, false)
  else
    let keys := rowKeys leaseKey in
    let db := setDreamState db (heartbeat keys) (String_of now) in
    (setDreamState db (expiry keys) (String_of (now + LEASE_DURATION_MS)), true).

(** [runLeaseGuardedWrite]: whether the write is let through. *)
Definition guardedWriteAllowed (db : dream_state) (holderId leaseKey : string)
    (expectedGeneration : option Z) (now : Z) : bool :=
  peekLeaseHolderAndExpiry db holderId leaseKey now && expected_ok db leaseKey expectedGeneration.

Definition releaseLease (db : dream_state) (holderId leaseKey : string) : dream_state :=
  if holder_is db leaseKey holderId then
    let keys := rowKeys leaseKey in
    deleteDreamState (deleteDreamState (deleteDreamState db (holder keys)) (heartbeat keys))
      (expiry keys)
  else db.

(** *** Executions *)

(** An operation of some process on some lease key, with its clock readings. *)
Inductive op :=
| op_acquire (holderId leaseKey : string) (checkedAt now : Z)
| op_renew (holderId leaseKey : string) (expectedGeneration : option Z) (checkedAt now : Z)
| op_release (holderId leaseKey : string).

Definition op_holder (o : op) : string :=
  match o with op_acquire h _ _ _ | op_renew h _ _ _ _ | op_release h _ => h end.
Definition op_key (o : op) : string :=
  match o with op_acquire _ k _ _ | op_renew _ k _ _ _ | op_release _ k => k end.
(** A release reads no clock. *)
Definition op_checkedAt (o : op) : option Z :=
  match o with
  | op_acquire _ _ t _ | op_renew _ _ _ t _ => Some t
  | op_release _ _ => None
  end.

Definition apply (db : dream_state) (o : op) : dream_state :=
  match o with
  | op_acquire h k t t' => (acquireLeaseWithAcquisition db h k t t').1
  | op_renew h k g t t' => (renewLease db h k g t t').1
  | op_release h k => releaseLease db h k
  end.

(** *** The heartbeat *)

Record LeaseHeartbeat := {
  hb_expectedGeneration : option Z;
  hb_lastConfirmedAt : Z;
  hb_lost : bool;
  hb_onLost : list string
}.

(** The reasons below are the code's up to the dash, which has no counterpart
    among the 8-bit code units of the model. *)
Definition declareLost (reason : string) (hb : LeaseHeartbeat) : LeaseHeartbeat :=
  if hb_lost hb then hb
  else {| hb_expectedGeneration := hb_expectedGeneration hb;
          hb_lastConfirmedAt := hb_lastConfirmedAt hb; hb_lost := true;
          hb_onLost := hb_onLost hb ++ [reason] |}.

Definition confirm (g : option Z) (at_ : Z) (hb : LeaseHeartbeat) : LeaseHeartbeat :=
  {| hb_expectedGeneration := g; hb_lastConfirmedAt := at_; hb_lost := hb_lost hb;
     hb_onLost := hb_onLost hb |}.

(** The database call of a beat that throws, if any. *)
Inductive fault := no_fault | fault_renew | fault_generation | fault_reacquire.

(** The [catch] of a beat. *)
Definition beat_failed (now : Z) (hb : LeaseHeartbeat) : LeaseHeartbeat :=
  if LEASE_DURATION_MS <? now - hb_lastConfirmedAt hb
  then declareLost "lease renewal unconfirmed past TTL" hb else hb.

(** A beat.  Its clock readings are in the order the code takes them: in the
    renewal's check and write and after it, for the lapse test, and in the
    reacquisition's check and write and after it. *)
Record beat_clock := { bc_check : Z; bc_write : Z; bc_after : Z; bc_lapse : Z;
                       bc_recheck : Z; bc_rewrite : Z; bc_last : Z }.

Definition beat (f : fault) (holderId leaseKey : string) (c : beat_clock)
    (st : dream_state * LeaseHeartbeat) : dream_state * LeaseHeartbeat :=
  let '(db, hb) := st in
  if hb_lost hb then st
  else
    match f with
    | fault_renew => (db, beat_failed (bc_after c) hb)
    | _ =>
        let '(db, renewed) :=
          renewLease db holderId leaseKey (hb_expectedGeneration hb) (bc_check c) (bc_write c) in
        if renewed then (db, confirm (hb_expectedGeneration hb) (bc_after c) hb)
        else
          match f, hb_expectedGeneration hb with
          | fault_generation, Some _ => (db, beat_failed (bc_after c) hb)
          | _, _ =>
              if negb (expected_ok db leaseKey (hb_expectedGeneration hb))
              then (db, declareLost "lease generation changed" hb)
              else if LEASE_DURATION_MS <? bc_lapse c - hb_lastConfirmedAt hb
              then (db, declareLost "lease lapsed past TTL" hb)
              else
                match f with
                | fault_reacquire => (db, beat_failed (bc_last c) hb)
                | _ =>
                    let '(db, reacquired) :=
                      acquireLeaseWithAcquisition db holderId leaseKey (bc_recheck c)
                        (bc_rewrite c) in
                    match reacquired with
                    | Some r =>
                        match hb_expectedGeneration hb with
                        | Some g =>
                            if negb (la_generation r =? g)
                            then (db, declareLost "lease generation changed during reacquisition" hb)
                            else (db, confirm (Some (la_generation r)) (bc_last c) hb)
                        | None => (db, confirm (Some (la_generation r)) (bc_last c) hb)
                        end
                    | None => (db, declareLost "lease acquired by another holder" hb)
                    end
                end
          end
    end.

Definition startLeaseHeartbeat (db : dream_state) (leaseKey : string)
    (acquisition : option LeaseAcquisition) (now : Z) : LeaseHeartbeat :=
  {| hb_expectedGeneration :=
       match acquisition with
       | Some a => Some (la_generation a)
       | None => getLeaseGeneration db leaseKey
       end;
     hb_lastConfirmedAt := match acquisition with Some a => acquiredAt a | None => now end;
     hb_lost := false; hb_onLost := [] |}.

End DreamLease.

(** ** Lemmas: the rows of a lease key *)

Section rows.
Import DreamLease.

Lemma chars_app (a b : string) :
  String.list_ascii_of_string (a ++ b)%string =
  String.list_ascii_of_string a ++ String.list_ascii_of_string b.
Proof.
  induction a as [|c a IH]; [done|].
  change (String c a +:+ b)%string with (String c (a +:+ b)%string). cbn. by rewrite IH.
Qed.

Lemma string_app_inj_r (a b s : string) : (a ++ s)%string = (b ++ s)%string → a = b.
Proof.
  intros E. apply (f_equal String.list_ascii_of_string) in E. rewrite !chars_app in E.
  apply app_inv_tail in E.
  rewrite <- (String.string_of_list_ascii_of_string a), E.
  apply String.string_of_list_ascii_of_string.
Qed.

Lemma last_char_app (a s : string) :
  s ≠ EmptyString →
  last (String.list_ascii_of_string (a ++ s)%string) = last (String.list_ascii_of_string s).
Proof.
  intros Hs. rewrite chars_app, last_app.
  destruct (last (String.list_ascii_of_string s)) eqn:E; [done|].
  apply last_None in E. by destruct s.
Qed.

Lemma row_neq (a b s1 s2 : string) :
  s1 ≠ EmptyString → s2 ≠ EmptyString →
  last (String.list_ascii_of_string s1) ≠ last (String.list_ascii_of_string s2) →
  (a ++ s1)%string ≠ (b ++ s2)%string.
Proof.
  intros H1 H2 Hne E. apply (f_equal (fun s => last (String.list_ascii_of_string s))) in E.
  rewrite !last_char_app in E by done. done.
Qed.

Definition rows (keys : LeaseRowKeys) : list string :=
  [holder keys; heartbeat keys; expiry keys; generation keys].

(** Names with different suffixes differ, and so do names of different keys. *)
Lemma lease_row_inj k1 k2 (s1 s2 : string) :
  s1 ∈ [":holder"; ":heartbeat"; ":expiry"; ":generation"]%string →
  s2 ∈ [":holder"; ":heartbeat"; ":expiry"; ":generation"]%string →
  ("lease:" ++ k1 ++ s1)%string = ("lease:" ++ k2 ++ s2)%string → k1 = k2 ∧ s1 = s2.
Proof.
  intros H1 H2 E. apply (inj (String.append "lease:")) in E.
  assert (s1 = s2) as <-.
  { destruct (decide (s1 = s2)) as [|Hne]; [done|]. exfalso. revert E.
    apply row_neq; repeat (apply elem_of_cons in H1 as [->|H1]; [|try by apply elem_of_nil in H1]);
      repeat (apply elem_of_cons in H2 as [->|H2]; [|try by apply elem_of_nil in H2]); done. }
  split; [by eapply string_app_inj_r|done].
Qed.

Lemma rows_NoDup k : NoDup (rows (rowKeys k)).
Proof.
  unfold rows, rowKeys. case_match; cbn [holder heartbeat expiry generation].
  - apply (bool_decide_unpack _). reflexivity.
  - assert (∀ s1 s2, s1 ∈ [":holder"; ":heartbeat"; ":expiry"; ":generation"]%string →
      s2 ∈ [":holder"; ":heartbeat"; ":expiry"; ":generation"]%string →
      s1 ≠ s2 → ("lease:" ++ k ++ s1)%string ≠ ("lease:" ++ k ++ s2)%string) as Hne.
    { intros s1 s2 H1 H2 Hs E. by apply lease_row_inj in E as [_ ?]. }
    repeat (apply NoDup_cons; split; [rewrite ?not_elem_of_cons; split_and!;
      first [apply not_elem_of_nil|apply Hne; first [set_solver|done]]|]). apply NoDup_singleton.
Qed.

Lemma rows_disjoint k1 k2 r : k1 ≠ k2 → r ∈ rows (rowKeys k1) → r ∉ rows (rowKeys k2).
Proof.
  intros Hk. unfold rows, rowKeys.
  destruct (String.eqb k1 DREAMING_LEASE_KEY) eqn:E1, (String.eqb k2 DREAMING_LEASE_KEY) eqn:E2;
    cbn [holder heartbeat expiry generation].
  - apply String.eqb_eq in E1, E2. congruence.
  - intros H1 H2.
    repeat (apply elem_of_cons in H1 as [->|H1]; [|try by apply elem_of_nil in H1]);
      repeat (apply elem_of_cons in H2 as [H2|H2]; [discriminate H2|try by apply elem_of_nil in H2]).
  - intros H1 H2.
    repeat (apply elem_of_cons in H2 as [->|H2]; [|try by apply elem_of_nil in H2]);
      repeat (apply elem_of_cons in H1 as [H1|H1]; [discriminate H1|try by apply elem_of_nil in H1]).
  - intros H1 H2.
    repeat (apply elem_of_cons in H1 as [->|H1]; [|try by apply elem_of_nil in H1]);
      repeat (apply elem_of_cons in H2 as [H2|H2];
              [apply lease_row_inj in H2 as [? _]; [done|set_solver|set_solver]
              |try by apply elem_of_nil in H2]).
Qed.

Lemma Number_of_String_of z : Number_of (String_of z) = Some z.
Proof.
  unfold Number_of, String_of. rewrite NilZero.isi.
  - cbn. f_equal. apply DecimalZ.of_to.
  - destruct z; cbn; try done. intros [= E]. by apply DecimalPos.Unsigned.to_uint_nonnil in E.
  - destruct z; cbn; try done. intros [= E]. by apply DecimalPos.Unsigned.to_uint_nonnil in E.
Qed.

Lemma String_of_not_empty z : String.eqb (String_of z) "" = false.
Proof.
  apply String.eqb_neq. intros E. pose proof (Number_of_String_of z) as H. by rewrite E in H.
Qed.

End rows.

(** ** Lemmas: what an operation does to a lease *)

Section dream.
Import DreamLease.
Implicit Types (db : dream_state) (k h : string).

(** The rows of a key are the same in two states, and so is what they say. *)
Definition same_lease k db db' : Prop :=
  ∀ r, r ∈ rows (rowKeys k) → db' !! r = db !! r.

Lemma same_lease_reads k db db' :
  same_lease k db db' →
  getLeaseHolder db' k = getLeaseHolder db k ∧
  number_row db' (expiry (rowKeys k)) = number_row db (expiry (rowKeys k)) ∧
  getLeaseGeneration db' k = getLeaseGeneration db k.
Proof.
  intros Hs. unfold getLeaseHolder, getLeaseGeneration, number_row, getDreamState.
  rewrite !Hs by (unfold rows; set_solver). done.
Qed.

Lemma keys_neq k :
  let ks := rowKeys k in
  holder ks ≠ heartbeat ks ∧ holder ks ≠ expiry ks ∧ holder ks ≠ generation ks ∧
  heartbeat ks ≠ expiry ks ∧ heartbeat ks ≠ generation ks ∧ expiry ks ≠ generation ks.
Proof.
  cbv zeta. pose proof (rows_NoDup k) as H. unfold rows in H.
  apply NoDup_cons in H as [H1 H]. apply NoDup_cons in H as [H2 H].
  apply NoDup_cons in H as [H3 _]. split_and!; set_solver.
Qed.

Lemma number_row_set db r z : number_row (setDreamState db r (String_of z)) r = Some z.
Proof.
  unfold number_row, getDreamState, setDreamState. rewrite lookup_insert_eq. cbn.
  by rewrite String_of_not_empty, Number_of_String_of.
Qed.

Lemma number_row_ne db r r' v : r ≠ r' → number_row (setDreamState db r v) r' = number_row db r'.
Proof. intros. unfold number_row, getDreamState, setDreamState. by rewrite lookup_insert_ne. Qed.

Lemma write_reads db k h now g :
  getLeaseHolder (write_lease db k h now g) k = Some h ∧
  number_row (write_lease db k h now g) (expiry (rowKeys k)) = Some (now + LEASE_DURATION_MS) ∧
  number_row (write_lease db k h now g) (generation (rowKeys k)) = Some g.
Proof.
  destruct (keys_neq k) as (?&?&?&?&?&?). unfold write_lease. split; [|split].
  - unfold getLeaseHolder, getDreamState, setDreamState.
    by rewrite 3!lookup_insert_ne, lookup_insert_eq by congruence.
  - by rewrite number_row_ne, number_row_set by congruence.
  - by rewrite number_row_set.
Qed.

Lemma write_generation db k h now g :
  0 < g ≤ MAX_SAFE_INTEGER → getLeaseGeneration (write_lease db k h now g) k = Some g.
Proof.
  intros Hg. destruct (write_reads db k h now g) as (_ & _ & E).
  unfold getLeaseGeneration. rewrite E. cbn.
  rewrite (proj2 (Z.leb_le _ _)), (proj2 (Z.ltb_lt _ _)) by lia. done.
Qed.

Lemma set_other k db db' r v :
  r ∉ rows (rowKeys k) → same_lease k db db' → same_lease k db (setDreamState db' r v).
Proof.
  intros Hr Hs r' Hr'. unfold setDreamState. rewrite lookup_insert_ne; [by apply Hs|].
  intros <-. done.
Qed.

Lemma delete_other k db db' r :
  r ∉ rows (rowKeys k) → same_lease k db db' → same_lease k db (deleteDreamState db' r).
Proof.
  intros Hr Hs r' Hr'. unfold deleteDreamState. rewrite lookup_delete_ne; [by apply Hs|].
  intros <-. done.
Qed.

Lemma same_lease_refl k db : same_lease k db db.
Proof. done. Qed.

(** An operation on another key leaves the lease alone. *)
Lemma apply_other_key k db o : op_key o ≠ k → same_lease k db (apply db o).
Proof.
  intros Hk.
  assert (∀ r, r ∈ rows (rowKeys (op_key o)) → r ∉ rows (rowKeys k)) as Hd.
  { intros r. by apply rows_disjoint. }
  destruct o as [h k' t t'|h k' g t t'|h k']; cbn [apply op_key] in *.
  - unfold acquireLeaseWithAcquisition. case_match; [done|]. cbn [fst]. unfold write_lease.
    repeat apply set_other; try done; apply Hd; unfold rows; set_solver.
  - unfold renewLease. case_match; [done|]. cbn [fst].
    repeat apply set_other; try done; apply Hd; unfold rows; set_solver.
  - unfold releaseLease. case_match; [|done].
    repeat apply delete_other; try done; apply Hd; unfold rows; set_solver.
Qed.

Lemma holder_is_true db k h : holder_is db k h = true ↔ getLeaseHolder db k = Some h.
Proof.
  unfold holder_is. destruct (getLeaseHolder db k) as [h'|]; [|by split].
  rewrite String.eqb_eq. split; congruence.
Qed.

(** Another holder can neither take an active lease, renew it nor release it. *)
Lemma apply_foreign k A e db o :
  getLeaseHolder db k = Some A → A ≠ EmptyString →
  number_row db (expiry (rowKeys k)) = Some e →
  op_key o = k → op_holder o ≠ A → (∀ t, op_checkedAt o = Some t → t < e) →
  apply db o = db ∧
  (∀ h t t', o = op_acquire h k t t' → (acquireLeaseWithAcquisition db h k t t').2 = None).
Proof.
  intros HA HAne He Hk Hh Ht.
  assert (holder_is db k (op_holder o) = false) as Hno.
  { unfold holder_is. rewrite HA. by apply String.eqb_neq. }
  destruct o as [h k' t t'|h k' g t t'|h k']; cbn [apply op_key op_holder op_checkedAt] in *; subst k'.
  - assert (acquireLeaseWithAcquisition db h k t t' = (db, None)) as E.
    { unfold acquireLeaseWithAcquisition, isLeaseActive, getLeaseExpiry. rewrite HA, He.
      rewrite (proj2 (Z.ltb_lt t e)) by auto.
      rewrite (proj2 (String.eqb_neq A "")) by done.
      rewrite (proj2 (String.eqb_neq A h)) by done. done. }
    rewrite E. split; [done|]. intros h' t1 t2 [= <- <- <-]. by rewrite E.
  - unfold renewLease. rewrite Hno. done.
  - unfold releaseLease. by rewrite Hno.
Qed.

(** *** Generations *)

Definition gen db k : Z := default 0 (getLeaseGeneration db k).

Lemma gen_nonneg db k : 0 ≤ gen db k.
Proof.
  unfold gen, getLeaseGeneration. destruct (number_row db _) as [g|]; cbn; [|done].
  destruct ((Z.abs g <=? MAX_SAFE_INTEGER) && (0 <? g)) eqn:E; [|done]. bool_hyps. cbn. lia.
Qed.

(** What any operation on any key does to a generation and its holder: the
    generation never falls and rises by at most one; a change of holder raises
    it. *)
Lemma apply_gen k db o :
  gen db k < MAX_SAFE_INTEGER →
  gen db k ≤ gen (apply db o) k ≤ gen db k + 1 ∧
  (∀ h, getLeaseHolder (apply db o) k = Some h →
    getLeaseHolder db k = Some h ∨ gen db k < gen (apply db o) k).
Proof.
  intros Hmax. pose proof (gen_nonneg db k) as Hpos.
  destruct (decide (op_key o = k)) as [Hk|Hk].
  2:{ destruct (same_lease_reads k db (apply db o) (apply_other_key k db o Hk)) as (Eh & _ & Eg).
      unfold gen. rewrite Eg, Eh. split; [lia|]. auto. }
  destruct o as [h k' t t'|h k' g t t'|h k']; cbn [apply op_key] in *; subst k'.
  - unfold acquireLeaseWithAcquisition. case_match; cbn [fst]; [split; [lia|auto]|].
    fold (gen db k). set (g := if holder_is db k h then _ else _).
    assert (0 < g ≤ MAX_SAFE_INTEGER ∧ gen db k ≤ g ≤ gen db k + 1) as [Hg Hg'].
    { subst g. unfold MAX_SAFE_INTEGER in *. destruct (holder_is db k h); lia. }
    assert (gen (write_lease db k h t' g) k = g) as ->
      by (unfold gen; by rewrite write_generation).
    split; [done|]. intros h'. rewrite (proj1 (write_reads db k h t' g)). intros [= <-].
    destruct (holder_is db k h) eqn:E; [left; by apply holder_is_true|right; subst g; lia].
  - unfold renewLease. case_match; cbn [fst]; [split; [lia|auto]|].
    destruct (keys_neq k) as (?&?&?&?&?&?).
    assert (∀ v1 v2, getLeaseGeneration (setDreamState (setDreamState db (heartbeat (rowKeys k)) v1)
      (expiry (rowKeys k)) v2) k = getLeaseGeneration db k) as Eg.
    { intros. unfold getLeaseGeneration. by rewrite !number_row_ne by congruence. }
    assert (∀ v1 v2, getLeaseHolder (setDreamState (setDreamState db (heartbeat (rowKeys k)) v1)
      (expiry (rowKeys k)) v2) k = getLeaseHolder db k) as Eh.
    { intros. unfold getLeaseHolder, getDreamState, setDreamState. by rewrite !lookup_insert_ne by congruence. }
    unfold gen. rewrite Eg, Eh. split; [lia|auto].
  - unfold releaseLease. case_match; [|split; [lia|auto]].
    destruct (keys_neq k) as (?&?&?&?&?&?).
    assert (getLeaseGeneration (deleteDreamState (deleteDreamState (deleteDreamState db
      (holder (rowKeys k))) (heartbeat (rowKeys k))) (expiry (rowKeys k))) k = getLeaseGeneration db k) as Eg.
    { unfold getLeaseGeneration, number_row, getDreamState, deleteDreamState.
      by rewrite !lookup_delete_ne by congruence. }
    unfold gen. rewrite Eg. split; [lia|]. intros h'.
    unfold getLeaseHolder, getDreamState, deleteDreamState.
    rewrite 2!lookup_delete_ne, lookup_delete_eq by congruence. done.
Qed.

Lemma trace_gen k db ops :
  gen db k + lengthZ ops ≤ MAX_SAFE_INTEGER →
  gen db k ≤ gen (foldl apply db ops) k ≤ gen db k + lengthZ ops.
Proof.
  revert db. induction ops as [|o ops IH]; intros db Hmax.
  { unfold lengthZ. cbn. lia. }
  assert (lengthZ (o :: ops) = 1 + lengthZ ops) as E by (unfold lengthZ; cbn; lia).
  pose proof (lengthZ_nonneg ops).
  rewrite E in Hmax. cbn [foldl]. destruct (apply_gen k db o ltac:(lia)) as [Hg _].
  specialize (IH (apply db o) ltac:(lia)). lia.
Qed.

(** Since [A] acquired generation [g], either somebody else moved it on, or the
    lease is still [A]'s or nobody's. *)
Lemma trace_owner k A g db ops :
  g + lengthZ ops ≤ MAX_SAFE_INTEGER → gen db k = g → getLeaseHolder db k = Some A →
  let db' := foldl apply db ops in
  g < gen db' k ∨ (gen db' k = g ∧ ∀ h, getLeaseHolder db' k = Some h → h = A).
Proof.
  intros Hmax Hg HA. induction ops as [|o ops IH] using rev_ind.
  { right. split; [done|]. intros h Hh. cbn in Hh. congruence. }
  rewrite lengthZ_app in Hmax. assert (lengthZ [o] = 1) as E1 by done. rewrite E1 in Hmax.
  pose proof (lengthZ_nonneg ops).
  cbv zeta. rewrite foldl_app. cbn [foldl].
  pose proof (trace_gen k db ops ltac:(lia)) as Htr.
  specialize (IH ltac:(lia)). cbv zeta in IH. set (db1 := foldl apply db ops) in *.
  destruct (apply_gen k db1 o ltac:(lia)) as [Hg' Hh'].
  destruct IH as [?|[Hg1 Hh1]]; [left; lia|].
  destruct (decide (gen (apply db1 o) k = g)) as [E|]; [right|left; lia].
  split; [done|]. intros h Hh. apply Hh' in Hh as [?|?]; [auto|lia].
Qed.

Lemma generation_is_gen db k g : 0 < g → generation_is db k g = true → gen db k = g.
Proof.
  unfold generation_is, gen. intros Hg. destruct (getLeaseGeneration db k); [|done]. cbn. lia.
Qed.

(** *** The heartbeat *)

Definition one_report (hb : LeaseHeartbeat) : Prop :=
  length (hb_onLost hb) = (if hb_lost hb then 1 else 0)%nat.

Lemma declareLost_one reason hb : one_report hb → one_report (declareLost reason hb).
Proof.
  unfold one_report, declareLost. destruct (hb_lost hb) eqn:E; [by rewrite E|]. cbn.
  rewrite length_app. cbn. lia.
Qed.

Lemma beat_failed_one now hb : one_report hb → one_report (beat_failed now hb).
Proof. intros H. unfold beat_failed. case_match; [by apply declareLost_one|done]. Qed.

Lemma confirm_one g t hb : one_report hb → one_report (confirm g t hb).
Proof. done. Qed.

Lemma beat_one_report f A k c st : one_report st.2 → one_report (beat f A k c st).2.
Proof.
  destruct st as [db hb]. cbn [snd]. intros H. unfold beat.
  destruct (hb_lost hb); [done|].
  destruct f; cbn [snd]; try (by apply beat_failed_one);
    destruct (renewLease _ _ _ _ _ _) as [db1 []]; cbn [snd]; try (by apply confirm_one);
    destruct (hb_expectedGeneration hb);
    repeat match goal with
    | |- one_report (snd (if ?b then _ else _)) => destruct b
    | |- one_report (snd (let '(_, _) := ?x in _)) => destruct x as [? []]
    end; cbn [snd];
    first [done|by apply beat_failed_one|by apply declareLost_one|by apply confirm_one].
Qed.

Lemma renew_reads db A k g t t' db' :
  renewLease db A k g t t' = (db', true) →
  getLeaseHolder db' k = Some A ∧
  number_row db' (expiry (rowKeys k)) = Some (t' + LEASE_DURATION_MS) ∧
  getLeaseGeneration db' k = getLeaseGeneration db k ∧ expected_ok db k g = true.
Proof.
  unfold renewLease. case_match eqn:E; [done|]. intros [= <-].
  apply orb_false_iff in E as [[Eh _]%orb_false_iff Eo]. apply negb_false_iff in Eh, Eo.
  destruct (keys_neq k) as (?&?&?&?&?&?). split; [|split; [|split; [|done]]].
  - unfold getLeaseHolder, getDreamState, setDreamState. rewrite !lookup_insert_ne by congruence.
    by apply holder_is_true.
  - apply number_row_set.
  - unfold getLeaseGeneration. by rewrite !number_row_ne by congruence.
Qed.

Lemma beat_confirms db hb A k c :
  let '(db', hb') := beat no_fault A k c (db, hb) in
  hb_lost hb' = false → gen db k < MAX_SAFE_INTEGER →
  getLeaseHolder db' k = Some A ∧
  (getLeaseExpiry db' (rowKeys k) = Some (bc_write c + LEASE_DURATION_MS) ∨
   getLeaseExpiry db' (rowKeys k) = Some (bc_rewrite c + LEASE_DURATION_MS)) ∧
  (∀ g, hb_expectedGeneration hb' = Some g → generation_is db' k g = true).
Proof.
  unfold beat. destruct (hb_lost hb) eqn:El; [by rewrite El|].
  destruct (renewLease _ _ _ _ _ _) as [db1 []] eqn:Er.
  - intros _ _. apply renew_reads in Er as (Hh & He & Hg & Ho).
    split; [done|]. split; [by left|]. cbn. intros g Hexp. rewrite Hexp in Ho. cbn in Ho.
    unfold generation_is in *. by rewrite Hg.
  - assert (db1 = db) as ->.
    { unfold renewLease in Er. case_match; [by injection Er|done]. }
    assert (∀ reason, hb_lost (declareLost reason hb) = true) as Hd.
    { intros. unfold declareLost. by rewrite El. }
    destruct (expected_ok db k (hb_expectedGeneration hb)) eqn:Eo; cbn [negb]; [|by rewrite Hd].
    destruct (LEASE_DURATION_MS <? _); [by rewrite Hd|].
    unfold acquireLeaseWithAcquisition.
    destruct (isLeaseActive _ _ _ && _); [by rewrite Hd|].
    fold (gen db k). set (g := if holder_is db k A then _ else _).
    pose proof (gen_nonneg db k) as Hpos.
    assert (gen db k < MAX_SAFE_INTEGER → 0 < g ≤ MAX_SAFE_INTEGER) as Hg.
    { subst g. unfold MAX_SAFE_INTEGER. destruct (holder_is db k A); lia. }
    clearbody g. cbn [la_generation].
    destruct (write_reads db k A (bc_rewrite c) g) as (Hh & He & _).
    assert (hb_expectedGeneration hb = None ∨ hb_expectedGeneration hb = Some g ∨
            ∃ g', hb_expectedGeneration hb = Some g' ∧ (g =? g') = false) as Hcase.
    { destruct (hb_expectedGeneration hb) as [g'|]; [|by left]. right.
      destruct (g =? g') eqn:E; [left; f_equal; lia|right; eauto]. }
    destruct Hcase as [->|[->|(g' & -> & ->)]]; cbn [negb]; rewrite ?Z.eqb_refl; cbn [negb];
      try by rewrite Hd.
    all: intros _ Hmax; split; [done|]; split; [by right|]; intros g0 [= <-];
      unfold generation_is; rewrite write_generation by auto; apply Z.eqb_refl.
Qed.

End dream.

(** ** Properties *)

(** While a holder's compartment lease has not expired, nothing another
    holder does, on any session and in any order, takes it away, renews or
    releases it; the other holder's acquisitions of it fail, and once it has
    expired the next acquisition by anybody succeeds. *)
Theorem compartment_lease_exclusive (db : CompartmentLease.table) session r ops holder now :
  db !! session = Some r →
  Forall (fun e => CompartmentLease.op_holder e.2 ≠ CompartmentLease.holder_id r ∧
                   e.1 < CompartmentLease.expires_at r) ops →
  let db' := foldl CompartmentLease.apply db ops in
  db' !! session = Some r ∧
  (holder ≠ CompartmentLease.holder_id r → now < CompartmentLease.expires_at r →
   CompartmentLease.acquire session holder now db' = (db', None)) ∧
  (CompartmentLease.expires_at r ≤ now →
   ∃ db'' row, CompartmentLease.acquire session holder now db' = (db'', Some row) ∧
     CompartmentLease.is_held session holder now db'' = true ∧
     CompartmentLease.renew session (CompartmentLease.holder_id r) now db' = (db', false)).
Proof.
  intros Hr Hops db'. assert (db' !! session = Some r) as Hr'.
  { subst db'. revert db Hr. induction Hops as [|[t o] ops [Hh Ht] Hops IH]; intros db Hr; [done|].
    cbn [foldl]. apply IH. cbn [fst snd] in *.
    destruct o as [s h|s h|s h]; unfold CompartmentLease.apply; cbn [fst snd CompartmentLease.op_holder] in *.
    - unfold CompartmentLease.acquire. destruct (decide (s = session)) as [->|Hs].
      + rewrite Hr. rewrite (proj2 (String.eqb_neq _ _)) by congruence.
        rewrite (proj2 (Z.leb_gt _ _)) by lia. done.
      + repeat case_match; cbn [fst]; rewrite ?lookup_insert_ne by done; done.
    - unfold CompartmentLease.renew. destruct (decide (s = session)) as [->|Hs].
      + rewrite Hr. rewrite (proj2 (String.eqb_neq _ _)) by congruence. done.
      + repeat case_match; cbn [fst]; rewrite ?lookup_insert_ne by done; done.
    - unfold CompartmentLease.release. destruct (decide (s = session)) as [->|Hs].
      + rewrite Hr. rewrite (proj2 (String.eqb_neq _ _)) by congruence. done.
      + repeat case_match; rewrite ?lookup_delete_ne by done; done. }
  split; [done|]. split.
  - intros Hh Hn. unfold CompartmentLease.acquire. rewrite Hr'.
    rewrite (proj2 (String.eqb_neq _ _)) by congruence. by rewrite (proj2 (Z.leb_gt _ _)) by lia.
  - intros Hn. unfold CompartmentLease.acquire, CompartmentLease.renew. rewrite Hr'.
    rewrite (proj2 (Z.leb_le _ _)) by lia. rewrite orb_true_r. eexists _, _. split; [done|].
    unfold CompartmentLease.is_held. rewrite lookup_insert_eq. cbn.
    rewrite String.eqb_refl. rewrite (proj2 (Z.ltb_lt _ _)) by (unfold CompartmentLease.TTL_MS; lia).
    rewrite (proj2 (Z.ltb_ge now _)) by lia. by rewrite andb_false_r.
Qed.

(** An active dream lease is exclusive: operations of other holders
    checked before its expiry, and operations on other lease keys at any time,
    leave its four rows as they are, and every acquisition of it among them is
    refused. *)
Theorem dream_lease_exclusive db k A e ops :
  DreamLease.getLeaseHolder db k = Some A → A ≠ EmptyString →
  DreamLease.getLeaseExpiry db (DreamLease.rowKeys k) = Some e →
  Forall (fun o => DreamLease.op_key o ≠ k ∨
    DreamLease.op_holder o ≠ A ∧ (∀ t, DreamLease.op_checkedAt o = Some t → t < e)) ops →
  let db' := foldl DreamLease.apply db ops in
  same_lease k db db' ∧
  (∀ h t t', h ≠ A → t < e → (DreamLease.acquireLeaseWithAcquisition db' h k t t').2 = None).
Proof.
  intros HA HAne He Hops db'.
  assert (same_lease k db db') as Hs.
  { subst db'. induction ops as [|o ops IH] using rev_ind; [done|].
    apply Forall_app in Hops as [Hops Ho]. apply Forall_cons in Ho as [Ho _].
    specialize (IH Hops). rewrite foldl_app. cbn [foldl].
    set (db1 := foldl DreamLease.apply db ops) in *.
    destruct (same_lease_reads k db db1 IH) as (E1 & E2 & _).
    destruct (decide (DreamLease.op_key o = k)) as [Hk|Hk].
    - destruct Ho as [?|[Hh Ht]]; [done|].
      destruct (apply_foreign k A e db1 o) as [-> _]; [congruence|done|by rewrite E2|done..].
    - intros r Hr. rewrite (apply_other_key k db1 o Hk r Hr). by apply IH. }
  split; [done|]. intros h t t' Hh Ht.
  destruct (same_lease_reads k db db' Hs) as (E1 & E2 & _).
  apply (apply_foreign k A e db' (DreamLease.op_acquire h k t t'));
    [congruence|done|by rewrite E2|done|done|by intros ? [= <-]|done].
Qed.

(** C20: fencing: after a holder acquired generation [g], if anybody else's
    acquisition of the key succeeds, then from then on, whatever else happens,
    the stale holder's fenced writes and renewals are refused and a heartbeat
    that expects [g] and beats without a database fault declares the lease
    lost. *)
Theorem stale_holder_fenced db k A g t0 t0' db0 ops1 B t t' ops2 now hb c :
  DreamLease.acquireLeaseWithAcquisition db A k t0 t0' =
    (db0, Some {| DreamLease.acquiredAt := t0'; DreamLease.la_generation := g |}) →
  gen db k + 2 + lengthZ ops1 + lengthZ ops2 ≤ MAX_SAFE_INTEGER →
  B ≠ A →
  (DreamLease.acquireLeaseWithAcquisition (foldl DreamLease.apply db0 ops1) B k t t').2 ≠ None →
  DreamLease.hb_expectedGeneration hb = Some g → DreamLease.hb_lost hb = false →
  let db' := foldl DreamLease.apply db0 (ops1 ++ DreamLease.op_acquire B k t t' :: ops2) in
  DreamLease.guardedWriteAllowed db' A k (Some g) now = false ∧
  DreamLease.renewLease db' A k (Some g) now now = (db', false) ∧
  DreamLease.hb_lost (DreamLease.beat DreamLease.no_fault A k c (db', hb)).2 = true.
Proof.
  intros Hacq Hmax HBA Hsucc Hexp Hlost db'.
  pose proof (lengthZ_nonneg ops1). pose proof (lengthZ_nonneg ops2).
  pose proof (gen_nonneg db k) as Hg0.
  assert (DreamLease.getLeaseHolder db0 k = Some A ∧ gen db0 k = g ∧ 0 < g ≤ gen db k + 1)
    as (HA & Hg & Hgpos).
  { unfold DreamLease.acquireLeaseWithAcquisition in Hacq. case_match; [done|].
    fold (gen db k) in Hacq. injection Hacq as <- <-.
    set (g := if DreamLease.holder_is db k A then _ else _).
    assert (0 < g ≤ gen db k + 1) by (subst g; destruct (DreamLease.holder_is db k A); lia).
    destruct (write_reads db k A t0' g) as (-> & _). split; [done|].
    unfold gen at 1. rewrite write_generation by (unfold MAX_SAFE_INTEGER in *; lia). done. }
  assert (g < gen (DreamLease.apply (foldl DreamLease.apply db0 ops1)
                     (DreamLease.op_acquire B k t t')) k) as Hmoved.
  { pose proof (trace_owner k A g db0 ops1 ltac:(lia) Hg HA) as Hown. cbv zeta in Hown.
    pose proof (trace_gen k db0 ops1 ltac:(lia)) as Htr.
    set (db1 := foldl DreamLease.apply db0 ops1) in *.
    destruct (apply_gen k db1 (DreamLease.op_acquire B k t t') ltac:(lia)) as [Hge Hh].
    destruct Hown as [?|[Hg1 Hh1]]; [lia|].
    assert (DreamLease.getLeaseHolder (DreamLease.apply db1 (DreamLease.op_acquire B k t t')) k
            = Some B) as HB.
    { cbn [DreamLease.apply]. unfold DreamLease.acquireLeaseWithAcquisition in *.
      case_match; [by cbn in Hsucc|]. cbn [fst]. apply write_reads. }
    apply Hh in HB as [HB|?]; [|lia]. apply Hh1 in HB. done. }
  assert (gen db' k ≠ g) as Hne.
  { subst db'. rewrite foldl_app. cbn [foldl].
    pose proof (trace_gen k db0 ops1 ltac:(lia)) as Htr.
    destruct (apply_gen k (foldl DreamLease.apply db0 ops1) (DreamLease.op_acquire B k t t')
                ltac:(lia)) as [Hge _].
    pose proof (trace_gen k (DreamLease.apply (foldl DreamLease.apply db0 ops1)
      (DreamLease.op_acquire B k t t')) ops2 ltac:(lia)). lia. }
  assert (DreamLease.expected_ok db' k (Some g) = false) as Hno.
  { apply not_true_is_false. cbn. intros E. apply generation_is_gen in E; [done|lia]. }
  assert (∀ t1 t2, DreamLease.renewLease db' A k (Some g) t1 t2 = (db', false)) as Hrenew.
  { intros. unfold DreamLease.renewLease. rewrite Hno. cbn [negb]. by rewrite orb_true_r. }
  split; [|split; [by apply Hrenew|]].
  - unfold DreamLease.guardedWriteAllowed. rewrite Hno. apply andb_false_r.
  - unfold DreamLease.beat. rewrite Hlost, Hexp, Hrenew, Hno. cbn [negb snd].
    unfold DreamLease.declareLost. by rewrite Hlost.
Qed.

(** The heartbeat reports at most one loss, over any beats and faults, and
    a lost heartbeat touches the database no more; a beat without a fault that
    leaves it alive has confirmed the lease: the holder is its own, the expiry
    is a full term from the write, and the expected generation is stored. *)
Theorem heartbeat_sound db k A acquisition start beats f c :
  let run := foldl (fun st '(f, c) => DreamLease.beat f A k c st)
               (db, DreamLease.startLeaseHeartbeat db k acquisition start) beats in
  let '(db', hb') := DreamLease.beat f A k c run in
  length (DreamLease.hb_onLost hb') = (if DreamLease.hb_lost hb' then 1 else 0)%nat ∧
  (DreamLease.hb_lost run.2 = true → DreamLease.beat f A k c run = run) ∧
  (f = DreamLease.no_fault → DreamLease.hb_lost hb' = false →
   gen run.1 k < MAX_SAFE_INTEGER →
   DreamLease.getLeaseHolder db' k = Some A ∧
   (DreamLease.getLeaseExpiry db' (DreamLease.rowKeys k) =
      Some (DreamLease.bc_write c + DreamLease.LEASE_DURATION_MS) ∨
    DreamLease.getLeaseExpiry db' (DreamLease.rowKeys k) =
      Some (DreamLease.bc_rewrite c + DreamLease.LEASE_DURATION_MS)) ∧
   (∀ g, DreamLease.hb_expectedGeneration hb' = Some g → DreamLease.generation_is db' k g = true)).
Proof.
  cbv zeta.
  assert (∀ st, one_report st.2 → one_report (DreamLease.beat f A k c st).2) as Hone.
  { intros st. apply beat_one_report. }
  set (run := foldl _ _ beats).
  assert (one_report run.2) as Hrun.
  { subst run. assert (one_report (db, DreamLease.startLeaseHeartbeat db k acquisition start).2) as H0
      by done. revert H0. generalize (db, DreamLease.startLeaseHeartbeat db k acquisition start).
    induction beats as [|[f' c'] beats IH]; intros st Hst; [done|]. cbn [foldl].
    apply IH. by apply beat_one_report. }
  specialize (Hone run Hrun). destruct run as [db1 hb]. cbn [fst snd] in *.
  pose proof (beat_confirms db1 hb A k c) as Hconf.
  destruct (DreamLease.beat f A k c (db1, hb)) as [db' hb'] eqn:Eb. cbn [snd] in Hone.
  split; [done|]. split.
  - intros Hl. rewrite <- Eb. unfold DreamLease.beat. by rewrite Hl.
  - intros -> Hl Hg. rewrite Eb in Hconf. by apply Hconf.
Qed.

(** ** Witnesses *)

Definition held_table : CompartmentLease.table :=
  (CompartmentLease.acquire "s" "a" 1000 ∅).1.

Lemma compartment_lease_exclusive_witness :
  (CompartmentLease.acquire "s" "b" 2000
     (CompartmentLease.apply held_table (1500, CompartmentLease.op_release "s" "b"))).2 = None.
Proof.
  destruct (compartment_lease_exclusive held_table "s"
    {| CompartmentLease.holder_id := "a"; CompartmentLease.acquired_at := 1000;
       CompartmentLease.expires_at := 301000 |}
    [(1500, CompartmentLease.op_release "s" "b")] "b" 2000) as (_ & H & _).
  - vm_compute. reflexivity.
  - constructor; [|constructor]. split; [discriminate|reflexivity].
  - specialize (H ltac:(discriminate) eq_refl).
    exact (f_equal snd H).
Defined.

Definition dream_held : DreamLease.dream_state :=
  (DreamLease.acquireLeaseWithAcquisition ∅ "a" "dreaming" 0 0).1.

Lemma dream_lease_exclusive_witness :
  (DreamLease.acquireLeaseWithAcquisition
     (DreamLease.apply dream_held (DreamLease.op_acquire "b" "other" 5 5)) "b" "dreaming" 9 9).2
  = None.
Proof.
  destruct (dream_lease_exclusive dream_held "dreaming" "a" 120000
              [DreamLease.op_acquire "b" "other" 5 5]) as [_ H].
  - vm_compute. reflexivity.
  - discriminate.
  - vm_compute. reflexivity.
  - constructor; [left; discriminate|constructor].
  - apply (H "b"%string 9 9); [discriminate|reflexivity].
Defined.

Definition expecting (g : Z) : DreamLease.LeaseHeartbeat :=
  {| DreamLease.hb_expectedGeneration := Some g; DreamLease.hb_lastConfirmedAt := 0;
     DreamLease.hb_lost := false; DreamLease.hb_onLost := [] |}.

Definition at_once (t : Z) : DreamLease.beat_clock :=
  {| DreamLease.bc_check := t; DreamLease.bc_write := t; DreamLease.bc_after := t;
     DreamLease.bc_lapse := t; DreamLease.bc_recheck := t; DreamLease.bc_rewrite := t;
     DreamLease.bc_last := t |}.

(** [a] holds generation 1; [b] takes over after the expiry and [a] wakes up. *)
Lemma stale_holder_fenced_witness :
  let db' := foldl DreamLease.apply dream_held [DreamLease.op_acquire "b" "dreaming" 130000 130000] in
  DreamLease.guardedWriteAllowed db' "a" "dreaming" (Some 1) 130001 = false ∧
  DreamLease.hb_lost
    (DreamLease.beat DreamLease.no_fault "a" "dreaming" (at_once 130001) (db', expecting 1)).2 = true.
Proof.
  destruct (stale_holder_fenced ∅ "dreaming" "a" 1 0 0 dream_held [] "b" 130000 130000 [] 130001
              (expecting 1) (at_once 130001)) as (H1 & _ & H2).
  - vm_compute. reflexivity.
  - vm_compute. discriminate.
  - discriminate.
  - vm_compute. discriminate.
  - reflexivity.
  - reflexivity.
  - split; [exact H1|exact H2].
Defined.
