(* ===== verification/LkgSlots.v ===== *)
(** * Last-known-good slots and bounded session maps

    Models packages/plugin/src/hooks/magic-context/lkg-slot.ts (the process-wide
    cache of last-known-good prompt prefixes, with its byte ledger, and the
    content digests that detect drift) and
    packages/plugin/src/shared/bounded-session-map.ts (a least-recently-used
    map).  Copies made on the way in and out are values here.

    The hash function is a parameter. *)

From S2P Require Import Prelude JsNumber JsMap JsValue.

(** ** The bounded session map *)

Module BoundedSessionMap.
Section ops.
Context {V : Type}.

Record t := { maxEntries : Z; store : jsmap string V }.

(** The constructor throws unless the bound is at least one. *)
Definition new (maxEntries : Z) : option t :=
  if maxEntries <? 1 then None else Some {| maxEntries := maxEntries; store := [] |}.

Definition get (m : t) (sessionId : string) : t * option V :=
  match JsMap.get (store m) sessionId with
  | None => (m, None)
  | Some v => ({| maxEntries := maxEntries m; store := JsMap.touch (store m) sessionId v |}, Some v)
  end.

Definition peek (m : t) (sessionId : string) : option V := JsMap.get (store m) sessionId.

Definition has (m : t) (sessionId : string) : bool := JsMap.has (store m) sessionId.

Definition set (m : t) (sessionId : string) (v : V) : t :=
  let s :=
    if JsMap.has (store m) sessionId then JsMap.delete (store m) sessionId
    else if maxEntries m <=? JsMap.size (store m) then
      match JsMap.first_key (store m) with
      | Some oldest => JsMap.delete (store m) oldest
      | None => store m
      end
    else store m in
  {| maxEntries := maxEntries m; store := JsMap.set s sessionId v |}.

Definition delete (m : t) (sessionId : string) : t * bool :=
  ({| maxEntries := maxEntries m; store := JsMap.delete (store m) sessionId |},
   JsMap.has (store m) sessionId).

Definition clear (m : t) : t := {| maxEntries := maxEntries m; store := [] |}.

Inductive op := op_get (k : string) | op_set (k : string) (v : V).

Definition apply (m : t) (o : op) : t :=
  match o with op_get k => (get m k).1 | op_set k v => set m k v end.

End ops.
Arguments t : clear implicits.
Arguments op : clear implicits.
End BoundedSessionMap.

(** ** Content fields and digests *)

Inductive lkg_symbol :=
| LKG_SNAPSHOT_ARRAY | LKG_SNAPSHOT_OBJECT | LKG_SNAPSHOT_KEY | LKG_SNAPSHOT_STRING
| LKG_SNAPSHOT_NUMBER | LKG_SNAPSHOT_BOOLEAN | LKG_SNAPSHOT_NULL | LKG_SNAPSHOT_UNDEFINED.

Inductive LkgContentField :=
| FSymbol (s : lkg_symbol)
| FString (s : string)
| FNumber (n : num)
| FBoolean (b : bool).

Definition description (s : lkg_symbol) : string :=
  match s with
  | LKG_SNAPSHOT_ARRAY => "array" | LKG_SNAPSHOT_OBJECT => "object" | LKG_SNAPSHOT_KEY => "key"
  | LKG_SNAPSHOT_STRING => "string" | LKG_SNAPSHOT_NUMBER => "number"
  | LKG_SNAPSHOT_BOOLEAN => "boolean" | LKG_SNAPSHOT_NULL => "null"
  | LKG_SNAPSHOT_UNDEFINED => "undefined"
  end.

(** Entries whose value is [undefined] are left out; a tree has no cycle, so the
    visit always succeeds. *)
Fixpoint lkgContentFields (v : value) : list LkgContentField :=
  match v with
  | VNull => [FSymbol LKG_SNAPSHOT_NULL]
  | VStr s => [FSymbol LKG_SNAPSHOT_STRING; FString s]
  | VNum n => [FSymbol LKG_SNAPSHOT_NUMBER; FNumber n]
  | VBool b => [FSymbol LKG_SNAPSHOT_BOOLEAN; FBoolean b]
  | VUndefined => [FSymbol LKG_SNAPSHOT_UNDEFINED]
  | VArr items =>
      FSymbol LKG_SNAPSHOT_ARRAY :: FNumber (nofZ (lengthZ items)) ::
      concat (List.map lkgContentFields items)
  | VObj entries =>
      let fields :=
        concat (List.map (fun '(key, entry) =>
          match entry with
          | VUndefined => []
          | _ => [FSymbol LKG_SNAPSHOT_KEY :: FString key :: lkgContentFields entry]
          end) entries) in
      FSymbol LKG_SNAPSHOT_OBJECT :: FNumber (nofZ (lengthZ fields)) :: concat fields
  end.

Section digests.
Context `{Engine} (sha256_base64url : string → string).

Definition field_kind (f : LkgContentField) : string :=
  match f with
  | FSymbol _ => "symbol" | FString _ => "string" | FNumber _ => "number" | FBoolean _ => "boolean"
  end.

Definition field_text (f : LkgContentField) : string :=
  match f with
  | FSymbol s => description s
  | FString s => s
  | FNumber n => numberToString n
  | FBoolean b => if b then "true" else "false"
  end.

(** What the hash is fed for a field. *)
Definition field_feed (f : LkgContentField) : string :=
  (field_kind f ++ ":" ++ numberToString (nofZ (str_length (field_text f))) ++ ":" ++
   field_text f ++ str_of_unit 0)%string.

Definition lkgContentDigestFromFields (fields : list LkgContentField) : string :=
  sha256_base64url (String.concat "" (field_feed <$> fields)).

Definition lkgContentDigest (message : value) : string :=
  lkgContentDigestFromFields (lkgContentFields message).

Record LkgDigestEntry := {
  de_id : string; de_signature : string; de_fields : list LkgContentField
}.

Record LkgDigestPrior := {
  dp_ids : list string; dp_signatures : list string; dp_digests : list string
}.

(** The length of the unchanged prefix. *)
Fixpoint reused_prefix (entries : list LkgDigestEntry) (ids signatures : list string) : nat :=
  match entries, ids, signatures with
  | e :: entries, i :: ids, s :: signatures =>
      if String.eqb (de_id e) i && String.eqb (de_signature e) s
      then S (reused_prefix entries ids signatures) else 0%nat
  | _, _, _ => 0%nat
  end.

Definition incrementalLkgContentDigests (entries : list LkgDigestEntry)
    (prior : option LkgDigestPrior) : list string * nat :=
  let fresh l := (fun e => lkgContentDigestFromFields (de_fields e)) <$> l in
  match prior with
  | Some p =>
      if (lengthZ (dp_ids p) =? lengthZ (dp_signatures p)) &&
         (lengthZ (dp_signatures p) =? lengthZ (dp_digests p))
      then
        let n := reused_prefix entries (dp_ids p) (dp_signatures p) in
        (take n (dp_digests p) ++ fresh (drop n entries), n)
      else (fresh entries, 0%nat)
  | None => (fresh entries, 0%nat)
  end.

End digests.

(** ** Slots *)

Record LkgSlot := {
  ls_jsonPrefix : string;
  ls_inputIdSeq : list string;
  ls_inputContentDigests : list string;
  ls_inputContentSignatures : option (list string);
  ls_lastInputMessageId : string;
  ls_modelKey : option string;
  ls_providerKey : option string;
  ls_capturedAt : Z;
  ls_rowVersion : option Z;
  ls_captureSequence : option Z
}.

Definition LKG_TOTAL_BYTES : Z := 64 * 1024 * 1024.
Definition LKG_SINGLE_SLOT_BYTES : Z := 24 * 1024 * 1024.
Definition LKG_METADATA_BYTES : Z := 256.

Definition slotBytes (slot : LkgSlot) : Z :=
  2 * str_length (ls_jsonPrefix slot) +
  sumZ (fun digest => 2 * str_length digest) (ls_inputContentDigests slot) + LKG_METADATA_BYTES.

Record slot_entry := { se_slot : LkgSlot; se_bytes : Z }.

(** The module's state: [slots] and [totalBytes]. *)
Record slot_store := { ss_slots : jsmap string slot_entry; ss_totalBytes : Z }.

Definition empty_store : slot_store := {| ss_slots := []; ss_totalBytes := 0 |}.

Definition is_empty (s : string) : bool := str_length s =? 0.

Definition malformed (slot : LkgSlot) : bool :=
  negb (lengthZ (ls_inputContentDigests slot) =? lengthZ (ls_inputIdSeq slot)) ||
  existsb is_empty (ls_inputContentDigests slot) ||
  match ls_inputContentSignatures slot with
  | Some signatures =>
      negb (lengthZ signatures =? lengthZ (ls_inputIdSeq slot)) || existsb is_empty signatures
  | None => false
  end.

(** The slot is older than the one stored. *)
Definition outdated (slot : LkgSlot) (prior : option slot_entry) : bool :=
  match prior with
  | Some p =>
      match ls_rowVersion (se_slot p), ls_rowVersion slot with
      | Some stored, Some version =>
          (version <? stored) ||
          ((version =? stored) &&
           (default 0 (ls_captureSequence slot) <? default 0 (ls_captureSequence (se_slot p))))
      | _, _ => false
      end
  | None => false
  end.

(** The loop that evicts the oldest slots until [bytes] fit. *)
Fixpoint make_room (slots : jsmap string slot_entry) (totalBytes bytes : Z) : slot_store :=
  match slots with
  | [] => {| ss_slots := []; ss_totalBytes := totalBytes |}
  | (_, evicted) :: rest =>
      if LKG_TOTAL_BYTES <? totalBytes + bytes
      then make_room rest (totalBytes - se_bytes evicted) bytes
      else {| ss_slots := slots; ss_totalBytes := totalBytes |}
  end.

Definition captureSlot (sessionId : string) (slot : LkgSlot) (st : slot_store)
    : slot_store * bool :=
  if malformed slot then (st, false)
  else
    let bytes := slotBytes slot in
    if LKG_SINGLE_SLOT_BYTES <? bytes then (st, false)
    else
      let prior := JsMap.get (ss_slots st) sessionId in
      if outdated slot prior then (st, false)
      else
        let totalBytes :=
          match prior with
          | Some p => ss_totalBytes st - se_bytes p
          | None => ss_totalBytes st
          end in
        let room := make_room (JsMap.delete (ss_slots st) sessionId) totalBytes bytes in
        if LKG_TOTAL_BYTES <? ss_totalBytes room + bytes then
          (match prior with
           | Some p => {| ss_slots := JsMap.set (ss_slots room) sessionId p;
                          ss_totalBytes := ss_totalBytes room + se_bytes p |}
           | None => room
           end, false)
        else
          ({| ss_slots := JsMap.set (ss_slots room) sessionId
                            {| se_slot := slot; se_bytes := bytes |};
              ss_totalBytes := ss_totalBytes room + bytes |}, true).

Definition getSlot (sessionId : string) (st : slot_store) : slot_store * option LkgSlot :=
  match JsMap.get (ss_slots st) sessionId with
  | None => (st, None)
  | Some entry =>
      ({| ss_slots := JsMap.touch (ss_slots st) sessionId entry;
          ss_totalBytes := ss_totalBytes st |}, Some (se_slot entry))
  end.

Definition dropSlot (sessionId : string) (st : slot_store) : slot_store :=
  match JsMap.get (ss_slots st) sessionId with
  | None => st
  | Some entry =>
      {| ss_slots := JsMap.delete (ss_slots st) sessionId;
         ss_totalBytes := ss_totalBytes st - se_bytes entry |}
  end.

Record LkgEntryNote := {
  en_pristineTail : list value;
  en_entryInputIds : list string;
  en_entryContentDigests : list string;
  en_anchorIndex : nat
}.

(** [message.info?.id] when it is a string. *)
Definition message_id (message : value) : string :=
  match message with
  | VObj fields =>
      match field fields "info" with
      | VObj info => match field info "id" with VStr id => id | _ => EmptyString end
      | _ => EmptyString
      end
  | _ => EmptyString
  end.

Fixpoint indexOf (l : list string) (x : string) : option nat :=
  match l with
  | [] => None
  | y :: l => if String.eqb y x then Some 0%nat else S <$> indexOf l x
  end.

Section note.
Context `{Engine} (sha256_base64url : string → string).

Definition noteEntry (sessionId : string) (messages : list value) (st : slot_store)
    : slot_store * option LkgEntryNote :=
  let '(st, slot) := getSlot sessionId st in
  match slot with
  | None => (st, None)
  | Some slot =>
      let entryInputIds := message_id <$> messages in
      match indexOf entryInputIds (ls_lastInputMessageId slot) with
      | None => (st, None)
      | Some anchorIndex =>
          (st, Some {| en_pristineTail := drop (S anchorIndex) messages;
                       en_entryInputIds := entryInputIds;
                       en_entryContentDigests :=
                         lkgContentDigest sha256_base64url <$> take (S anchorIndex) messages;
                       en_anchorIndex := anchorIndex |})
      end
  end.

End note.

Inductive slot_op :=
| op_capture (sessionId : string) (slot : LkgSlot)
| op_getSlot (sessionId : string)
| op_drop (sessionId : string).

Definition slot_apply (st : slot_store) (o : slot_op) : slot_store :=
  match o with
  | op_capture s slot => (captureSlot s slot st).1
  | op_getSlot s => (getSlot s st).1
  | op_drop s => dropSlot s st
  end.

(** ** Specification *)

Record slots_wf (st : slot_store) : Prop := {
  sw_keys : JsMap.wf (ss_slots st);
  sw_total : ss_totalBytes st = sumZ (fun e => se_bytes e.2) (ss_slots st);
  sw_entry : ∀ e, e ∈ ss_slots st → se_bytes e.2 = slotBytes (se_slot e.2) ∧
                                    se_bytes e.2 ≤ LKG_SINGLE_SLOT_BYTES;
  sw_bound : ss_totalBytes st ≤ LKG_TOTAL_BYTES
}.

(** The keys accessed, each at its last access. *)
Definition dedup_last (log : list string) : list string :=
  foldl (fun acc k => filter (.≠ k) acc ++ [k]) [] log.

Definition lastn {A} (n : nat) (l : list A) : list A := drop (length l - n) l.

Section lru_spec.
Context {V : Type}.

(** The keys a trace accesses: a write, or a read that finds its key. *)
Fixpoint accesses (m : BoundedSessionMap.t V) (ops : list (BoundedSessionMap.op V)) : list string :=
  match ops with
  | [] => []
  | o :: ops =>
      match o with
      | BoundedSessionMap.op_get k => if BoundedSessionMap.has m k then [k] else []
      | BoundedSessionMap.op_set k _ => [k]
      end ++ accesses (BoundedSessionMap.apply m o) ops
  end.

Definition last_set (k : string) (ops : list (BoundedSessionMap.op V)) : option V :=
  foldl (fun last o =>
    match o with
    | BoundedSessionMap.op_set k' v => if String.eqb k' k then Some v else last
    | BoundedSessionMap.op_get _ => last
    end) None ops.

End lru_spec.

(** The prior digests are those of the messages the prior ids and signatures
    identify. *)
Definition prior_coherent `{Engine} (sha : string → string) (entries : list LkgDigestEntry)
    (p : LkgDigestPrior) : Prop :=
  ∀ i e, entries !! i = Some e →
    dp_ids p !! i = Some (de_id e) → dp_signatures p !! i = Some (de_signature e) →
    dp_digests p !! i = Some (lkgContentDigestFromFields sha (de_fields e)).

(** The first [n] entries are as before, and the next one is not. *)
Definition unchanged_prefix (entries : list LkgDigestEntry) (p : LkgDigestPrior) (n : nat) : Prop :=
  (∀ i, (i < n)%nat → ∃ e, entries !! i = Some e ∧
     dp_ids p !! i = Some (de_id e) ∧ dp_signatures p !! i = Some (de_signature e)) ∧
  (∀ e, entries !! n = Some e →
     ¬ (dp_ids p !! n = Some (de_id e) ∧ dp_signatures p !! n = Some (de_signature e))).

(** ** Lemmas *)

Lemma slotBytes_nonneg slot : 0 ≤ slotBytes slot.
Proof.
  unfold slotBytes, LKG_METADATA_BYTES, str_length.
  assert (0 ≤ sumZ (fun digest => 2 * Z.of_nat (String.length digest)) (ls_inputContentDigests slot)).
  { apply sumZ_nonneg. intros. lia. }
  lia.
Qed.

Lemma make_room_spec slots bytes :
  bytes ≤ LKG_SINGLE_SLOT_BYTES →
  let total := sumZ (fun e => se_bytes e.2) slots in
  let room := make_room slots total bytes in
  ss_totalBytes room = sumZ (fun e => se_bytes e.2) (ss_slots room) ∧
  ss_totalBytes room + bytes ≤ LKG_TOTAL_BYTES ∧
  ∃ evicted, slots = evicted ++ ss_slots room ∧
    (total + bytes ≤ LKG_TOTAL_BYTES → evicted = []).
Proof.
  intros Hb. induction slots as [|[k e] rest IH]; cbv zeta; cbn [make_room].
  - unfold LKG_TOTAL_BYTES, LKG_SINGLE_SLOT_BYTES in *. cbn. split; [done|]. split; [lia|].
    by exists [].
  - case_match eqn:E; cbn [ss_totalBytes ss_slots].
    + assert (sumZ (fun e => se_bytes e.2) ((k, e) :: rest) - se_bytes e
              = sumZ (fun e => se_bytes e.2) rest) as -> by (cbn [sumZ fold_right snd]; unfold sumZ; lia).
      destruct IH as (H1 & H2 & d & H3 & H4). split; [done|]. split; [done|].
      exists ((k, e) :: d). split; [cbn; by rewrite <- H3|]. intros ?. lia.
    + split; [done|]. split; [lia|]. by exists [].
Qed.

(** Evicting from the front of a store keeps it well formed. *)
Lemma suffix_wf d slots :
  JsMap.wf (d ++ slots) → JsMap.wf (V := slot_entry) (K := string) slots.
Proof. unfold JsMap.wf, JsMap.keys. rewrite fmap_app. intros H. by apply NoDup_app in H as (_ & _ & ?). Qed.

Lemma capture_cases sessionId slot st :
  slots_wf st →
  (captureSlot sessionId slot st = (st, false)) ∨
  (∃ room evicted,
    captureSlot sessionId slot st =
      ({| ss_slots := room ++ [(sessionId, {| se_slot := slot; se_bytes := slotBytes slot |})];
          ss_totalBytes := sumZ (fun e => se_bytes e.2) room + slotBytes slot |}, true) ∧
    JsMap.delete (ss_slots st) sessionId = evicted ++ room ∧
    slotBytes slot ≤ LKG_SINGLE_SLOT_BYTES ∧
    sumZ (fun e => se_bytes e.2) room + slotBytes slot ≤ LKG_TOTAL_BYTES ∧
    outdated slot (JsMap.get (ss_slots st) sessionId) = false ∧
    (sumZ (fun e => se_bytes e.2) (JsMap.delete (ss_slots st) sessionId) + slotBytes slot
       ≤ LKG_TOTAL_BYTES → evicted = [])).
Proof.
  intros [Hk Ht He Hb]. unfold captureSlot.
  destruct (malformed slot); [by left|].
  destruct (LKG_SINGLE_SLOT_BYTES <? slotBytes slot) eqn:Esz; [by left|]. apply Z.ltb_ge in Esz.
  destruct (outdated slot _) eqn:Eout; [by left|]. right.
  pose proof (sumZ_delete (fun e => se_bytes e.2) (ss_slots st) sessionId Hk) as Hd.
  assert (match JsMap.get (ss_slots st) sessionId with
          | Some p => ss_totalBytes st - se_bytes p
          | None => ss_totalBytes st
          end = sumZ (fun e => se_bytes e.2) (JsMap.delete (ss_slots st) sessionId)) as ->.
  { rewrite Hd, Ht. case_match; cbn [snd]; lia. }
  destruct (make_room_spec (JsMap.delete (ss_slots st) sessionId) (slotBytes slot) Esz)
    as (H1 & H2 & evicted & H3 & H4).
  set (room := make_room _ _ _) in *. rewrite (proj2 (Z.ltb_ge _ _)) by lia.
  exists (ss_slots room), evicted. rewrite <- H1. split; [|done].
  rewrite set_absent; [done|]. intros Hin.
  assert (sessionId ∈ JsMap.keys (JsMap.delete (ss_slots st) sessionId)) as Hin'.
  { rewrite H3. unfold JsMap.keys in *. rewrite fmap_app. set_solver. }
  rewrite keys_delete in Hin'. by apply list_elem_of_filter in Hin' as [? _].
Qed.

Lemma slot_apply_wf st o : slots_wf st → slots_wf (slot_apply st o).
Proof.
  intros Hw. destruct o as [s slot|s|s]; cbn [slot_apply].
  - destruct (capture_cases s slot st Hw) as [->|(room & d & -> & Hd & Hsz & Hfit & _)]; [done|].
    cbn [fst]. destruct Hw as [Hk Ht He Hb]. constructor; cbn [ss_slots ss_totalBytes].
    + assert (JsMap.wf room) as Hr.
      { eapply (suffix_wf d). rewrite <- Hd. by apply wf_delete. }
      rewrite <- set_absent; [by apply wf_set|]. intros Hin.
      assert (s ∈ JsMap.keys (JsMap.delete (ss_slots st) s)) as Hin'.
      { rewrite Hd. unfold JsMap.keys in *. rewrite fmap_app. set_solver. }
      rewrite keys_delete in Hin'. by apply list_elem_of_filter in Hin' as [? _].
    + rewrite sumZ_app. cbn. lia.
    + intros e [Hin|Hin]%elem_of_app.
      * apply He. assert (e ∈ JsMap.delete (ss_slots st) s) as Hin' by (rewrite Hd; set_solver).
        by apply list_elem_of_filter in Hin' as [_ ?].
      * apply list_elem_of_singleton in Hin as ->. done.
    + done.
  - unfold getSlot. destruct (JsMap.get (ss_slots st) s) as [entry|] eqn:Eg; [|done].
    cbn [fst]. destruct Hw as [Hk Ht He Hb].
    pose proof (touch_eq (ss_slots st) s entry) as Etouch.
    constructor; cbn [ss_slots ss_totalBytes].
    + by apply wf_touch.
    + rewrite Etouch, sumZ_app, sumZ_delete, Eg by done. rewrite Ht. cbn. lia.
    + rewrite Etouch. intros e [Hin|Hin]%elem_of_app.
      * apply He. by apply list_elem_of_filter in Hin as [_ ?].
      * apply list_elem_of_singleton in Hin as ->. apply He. by apply get_Some_in.
    + done.
  - unfold dropSlot. destruct (JsMap.get (ss_slots st) s) as [entry|] eqn:Eg; [|done].
    destruct Hw as [Hk Ht He Hb]. constructor; cbn [ss_slots ss_totalBytes].
    + by apply wf_delete.
    + rewrite sumZ_delete, Eg, Ht by done. done.
    + intros e Hin. apply He. by apply list_elem_of_filter in Hin as [_ ?].
    + apply get_Some_in in Eg. apply He in Eg as [E _]. cbn in E.
      pose proof (slotBytes_nonneg (se_slot entry)). lia.
Qed.

Lemma slots_wf_reachable ops : slots_wf (foldl slot_apply empty_store ops).
Proof.
  induction ops as [|o ops IH] using rev_ind.
  - constructor; cbn; [apply NoDup_nil_2|done|by intros ? ?%elem_of_nil|done].
  - rewrite foldl_app. by apply slot_apply_wf.
Qed.

Lemma reused_prefix_stops entries ids signatures e :
  let n := reused_prefix entries ids signatures in
  entries !! n = Some e →
  ¬ (ids !! n = Some (de_id e) ∧ signatures !! n = Some (de_signature e)).
Proof.
  revert ids signatures. induction entries as [|e' entries IH]; intros [|i ids] [|s signatures];
    cbn [reused_prefix]; try (cbn; intros; naive_solver).
  case_match eqn:E; [by apply IH|]. cbn. intros ? [? ?]. simplify_eq.
  by rewrite !String.eqb_refl in E.
Qed.

Lemma reused_prefix_spec entries ids signatures :
  let n := reused_prefix entries ids signatures in
  (n ≤ length entries ∧ n ≤ length ids ∧ n ≤ length signatures)%nat ∧
  ∀ i e, (i < n)%nat → entries !! i = Some e →
    ids !! i = Some (de_id e) ∧ signatures !! i = Some (de_signature e).
Proof.
  revert ids signatures. induction entries as [|e entries IH]; intros [|i ids] [|s signatures];
    cbn [reused_prefix length]; try (split; [lia|intros; lia]).
  case_match eqn:E; [|split; [lia|intros; lia]]. bool_hyps.
  apply String.eqb_eq in H as <-. apply String.eqb_eq in H0 as <-.
  destruct (IH ids signatures) as [Hl Hn]. split; [lia|].
  intros [|j] x Hj Hx; cbn in *; [by simplify_eq|]. apply Hn; [lia|done].
Qed.

Section lru.
Context {V : Type}.
Import BoundedSessionMap.

Lemma dedup_snoc log k : dedup_last (log ++ [k]) = filter (.≠ k) (dedup_last log) ++ [k].
Proof. unfold dedup_last. by rewrite foldl_app. Qed.

Lemma dedup_NoDup log : NoDup (dedup_last log).
Proof.
  induction log as [|k log IH] using rev_ind; [apply NoDup_nil_2|]. rewrite dedup_snoc.
  apply NoDup_app. split; [by apply NoDup_filter|]. split; [|apply NoDup_singleton].
  intros x [? _]%list_elem_of_filter. by rewrite list_elem_of_singleton.
Qed.

Lemma lastn_snoc {A} n (l : list A) x : (0 < n)%nat → lastn n (l ++ [x]) = lastn (n - 1) l ++ [x].
Proof.
  intros Hn. unfold lastn. rewrite length_app. cbn [length].
  rewrite drop_app_le by lia. do 2 f_equal. lia.
Qed.

Lemma in_drop {A} n (l : list A) x : x ∈ drop n l → x ∈ l.
Proof. intros H. rewrite <- (take_drop n l). apply elem_of_app. by right. Qed.

Lemma filter_not_in (l : list string) k : k ∉ l → filter (.≠ k) l = l.
Proof. intros H. apply filter_all. intros x Hx ->. done. Qed.

Lemma lastn_filter (l : list string) k n :
  NoDup l → lastn n (filter (.≠ k) l) =
  if decide (k ∈ lastn (S n) l) then filter (.≠ k) (lastn (S n) l) else lastn n l.
Proof.
  intros Hnd. unfold lastn.
  destruct (decide (k ∈ l)) as [Hin|Hin].
  2:{ rewrite (filter_not_in l) by done. rewrite decide_False; [done|].
      intros H. apply Hin. by apply in_drop in H. }
  apply list_elem_of_split in Hin as (l1 & l2 & ->).
  apply NoDup_app in Hnd as (Hn1 & Hd & Hn2). apply NoDup_cons in Hn2 as [Hk2 Hn2].
  assert (k ∉ l1) as Hk1 by (intros H; specialize (Hd k H); set_solver).
  rewrite filter_app, filter_cons_False, !filter_not_in by (done || tauto).
  rewrite !length_app. cbn [length].
  destruct (decide (n < length l2)%nat) as [Hlt|Hge].
  - rewrite decide_False.
    + rewrite !drop_app_ge by lia.
      replace (length l1 + S (length l2) - n - length l1)%nat with (S (length l2 - n))%nat by lia.
      cbn [drop]. f_equal. lia.
    + rewrite drop_app_ge by lia.
      replace (length l1 + S (length l2) - S n - length l1)%nat with (S (length l2 - S n))%nat by lia.
      cbn [drop]. intros H. apply Hk2. by apply in_drop in H.
  - rewrite decide_True.
    + rewrite (drop_app_le l1 (k :: l2)), (drop_app_le l1 l2) by lia.
      rewrite filter_app, filter_cons_False, (filter_not_in l2) by (done || tauto).
      rewrite filter_not_in; [do 2 f_equal; lia|]. intros H. apply Hk1. by apply in_drop in H.
    + rewrite drop_app_le by lia. set_solver.
Qed.

Lemma filter_tail_keys (x : string) (l : list string) :
  x ∉ l → filter (.≠ x) (x :: l) = l.
Proof. intros Hx. rewrite filter_cons_False by tauto. by apply filter_not_in. Qed.

Lemma has_keys (m : jsmap string V) k : JsMap.has m k = true ↔ k ∈ JsMap.keys m.
Proof.
  unfold JsMap.has. destruct (JsMap.get m k) as [v|] eqn:E.
  - split; [|done]. intros _. apply get_Some_in in E. apply list_elem_of_fmap. by exists (k, v).
  - split; [done|]. by apply get_None in E.
Qed.

(** The keys after each operation are the most recently accessed ones. *)
Lemma set_keys (m : t V) log k v :
  1 ≤ maxEntries m →
  JsMap.keys (store m) = lastn (Z.to_nat (maxEntries m)) (dedup_last log) →
  JsMap.keys (store (set m k v)) = lastn (Z.to_nat (maxEntries m)) (dedup_last (log ++ [k])).
Proof.
  intros Hmax Hkeys. set (n := Z.to_nat (maxEntries m)) in *.
  assert (0 < n)%nat as Hn by lia.
  rewrite dedup_snoc, lastn_snoc, (lastn_filter _ _ _ (dedup_NoDup log)) by done.
  replace (S (n - 1)) with n by lia. rewrite <- Hkeys.
  unfold set. cbn [store].
  pose proof (has_keys (store m) k) as Hhas.
  destruct (decide (k ∈ JsMap.keys (store m))) as [Hin|Hin].
  - rewrite (proj2 Hhas Hin). rewrite keys_set, decide_False, keys_delete; [done|].
    rewrite keys_delete, list_elem_of_filter. tauto.
  - assert (JsMap.has (store m) k = false) as -> by (apply not_true_is_false; tauto).
    rewrite keys_set.
    assert (length (JsMap.keys (store m)) = Nat.min n (length (dedup_last log))) as Hlen.
    { rewrite Hkeys. unfold lastn. rewrite length_drop. lia. }
    assert (JsMap.size (store m) = Z.of_nat (length (JsMap.keys (store m)))) as Hsize.
    { unfold JsMap.size, JsMap.keys, lengthZ. by rewrite length_fmap. }
    destruct (maxEntries m <=? JsMap.size (store m)) eqn:Efull.
    + unfold JsMap.first_key. destruct (JsMap.keys (store m)) as [|x xs] eqn:Ek.
      { cbn in Hlen. cbn in Hsize. lia. }
      cbn [head]. assert (NoDup (x :: xs)) as Hnd.
      { rewrite Hkeys. unfold lastn. apply (NoDup_app (take (length (dedup_last log) - n) (dedup_last log))).
        rewrite take_drop. apply dedup_NoDup. }
      apply NoDup_cons in Hnd as [Hx _].
      rewrite keys_delete, Ek, filter_tail_keys by done.
      rewrite decide_False by (intros ?; apply Hin; set_solver). f_equal.
      unfold lastn in *. cbn [length] in Hlen, Hsize.
      assert (n ≤ length (dedup_last log))%nat by lia.
      replace (length (dedup_last log) - (n - 1))%nat
        with (S (length (dedup_last log) - n))%nat by lia.
      replace (drop (S (length (dedup_last log) - n)) (dedup_last log))
        with (drop 1 (drop (length (dedup_last log) - n) (dedup_last log)))
        by (rewrite drop_drop; f_equal; lia).
      by rewrite <- Hkeys.
    + rewrite decide_False by done. f_equal. rewrite Hkeys. unfold lastn.
      replace (length (dedup_last log) - n)%nat with 0%nat by lia.
      replace (length (dedup_last log) - (n - 1))%nat with 0%nat by lia. done.
Qed.

(** A read that finds its key is, for the keys, the write of the value found. *)
Lemma get_as_set (m : t V) k v :
  JsMap.get (store m) k = Some v → (get m k).1 = set m k v.
Proof.
  intros E. unfold get, set, JsMap.has. by rewrite E.
Qed.

Lemma apply_bound (m : t V) o : maxEntries (apply m o) = maxEntries m.
Proof. destruct o as [k|k v]; [|done]. cbn. unfold get. by case_match. Qed.

Lemma run_bound (m : t V) ops : maxEntries (foldl apply m ops) = maxEntries m.
Proof.
  revert m. induction ops as [|o ops IH]; intros m; [done|]. cbn [foldl].
  by rewrite IH, apply_bound.
Qed.

Lemma run_keys (m : t V) ops log :
  1 ≤ maxEntries m →
  JsMap.keys (store m) = lastn (Z.to_nat (maxEntries m)) (dedup_last log) →
  JsMap.keys (store (foldl apply m ops)) =
  lastn (Z.to_nat (maxEntries m)) (dedup_last (log ++ accesses m ops)).
Proof.
  revert m log. induction ops as [|o ops IH]; intros m log Hmax Hk; cbn [foldl accesses].
  { by rewrite app_nil_r. }
  rewrite app_assoc, <- (apply_bound m o). apply IH; rewrite apply_bound; [done|].
  destruct o as [k|k v]; cbn [apply]; [|by apply set_keys].
  unfold has, JsMap.has. destruct (JsMap.get (store m) k) as [v|] eqn:E.
  - rewrite (get_as_set _ _ _ E). by apply set_keys.
  - unfold get. by rewrite E, app_nil_r.
Qed.

Lemma peek_set (m : t V) k k' v x :
  peek (set m k v) k' = Some x → (if String.eqb k k' then Some v else peek m k') = Some x.
Proof.
  unfold peek, set. cbn [store]. destruct (String.eqb_spec k k') as [->|Hne].
  { by rewrite get_set_eq. }
  rewrite get_set_ne by done.
  assert (∀ y, JsMap.get (JsMap.delete (store m) y) k' = Some x → JsMap.get (store m) k' = Some x)
    as Hd.
  { intros y Hy. destruct (decide (y = k')) as [->|?]; [by rewrite get_delete_eq in Hy|].
    by rewrite get_delete_ne in Hy. }
  repeat case_match; eauto.
Qed.

Lemma run_last_set (m : t V) ops k v :
  store m = [] → peek (foldl apply m ops) k = Some v → last_set k ops = Some v.
Proof.
  intros Hm. revert v. induction ops as [|o ops IH] using rev_ind; intros v.
  { cbn. unfold peek. by rewrite Hm. }
  unfold last_set. rewrite !foldl_app. cbn [foldl]. fold (last_set k ops).
  destruct o as [k'|k' v']; cbn [apply].
  - destruct (JsMap.get (store (foldl apply m ops)) k') as [v'|] eqn:E.
    + rewrite (get_as_set _ _ _ E). intros Hp%peek_set.
      destruct (String.eqb_spec k' k) as [->|?]; [|by apply IH].
      apply IH. unfold peek. by rewrite E.
    + unfold get. rewrite E. apply IH.
  - intros Hp%peek_set. case_match; [done|by apply IH].
Qed.

End lru.

(** ** Properties *)

(** Whatever sequence of captures, reads and drops the module serves, the
    byte ledger is the sum of the stored slots, never above the total limit,
    and every stored slot was charged its own size.  In each such state a
    capture that is refused leaves the store as it was; one that is accepted
    stores the slot under its session as the most recent entry, evicts other
    sessions only from the oldest end and only when the slot would not fit
    otherwise, and never replaces a slot by an older version. *)
Theorem slot_ledger ops :
  let st := foldl slot_apply empty_store ops in
  slots_wf st ∧
  ∀ sessionId slot,
    let others := JsMap.delete (ss_slots st) sessionId in
    match captureSlot sessionId slot st with
    | (st', false) => st' = st
    | (st', true) =>
        malformed slot = false ∧
        outdated slot (JsMap.get (ss_slots st) sessionId) = false ∧
        ∃ evicted kept,
          others = evicted ++ kept ∧
          ss_slots st' = kept ++ [(sessionId, {| se_slot := slot; se_bytes := slotBytes slot |})] ∧
          (sumZ (fun e => se_bytes e.2) others + slotBytes slot ≤ LKG_TOTAL_BYTES → evicted = [])
    end.
Proof.
  intros st. pose proof (slots_wf_reachable ops) as Hw. fold st in Hw. split; [done|].
  intros sessionId slot others.
  destruct (capture_cases sessionId slot st Hw) as [->|(room & d & E & Hd & _ & _ & Ho & He)];
    [done|].
  rewrite E. split; [|split; [done|]; by exists d, room].
  unfold captureSlot in E. by destruct (malformed slot).
Qed.

(** C39: when the prior digests are those of the messages the prior ids and
    signatures identify, the incremental computation returns exactly the
    digests a full recomputation would; it reuses the longest prefix of
    messages whose id and signature are unchanged when the three prior arrays
    have one length, and none at all when they disagree in length. *)
Theorem incremental_digests_full `{Engine} sha256_base64url entries p :
  prior_coherent sha256_base64url entries p →
  let '(digests, reused) := incrementalLkgContentDigests sha256_base64url entries (Some p) in
  digests = (incrementalLkgContentDigests sha256_base64url entries None).1 ∧
  if decide (length (dp_ids p) = length (dp_signatures p) ∧
             length (dp_signatures p) = length (dp_digests p))
  then unchanged_prefix entries p reused else reused = 0%nat.
Proof.
  intros Hco. unfold incrementalLkgContentDigests. destruct (_ && _) eqn:El.
  2:{ split; [done|]. rewrite decide_False; [done|]. intros [E1 E2]. unfold lengthZ in El.
      rewrite E1, E2, Z.eqb_refl in El. done. }
  bool_hyps. unfold lengthZ in *. rewrite decide_True by lia.
  destruct (reused_prefix_spec entries (dp_ids p) (dp_signatures p)) as [(L1 & L2 & L3) Hn].
  pose proof (reused_prefix_stops entries (dp_ids p) (dp_signatures p)) as Hstop.
  set (n := reused_prefix _ _ _) in *. clearbody n. cbn [fst]. split.
  - rewrite <- (take_drop n entries) at 2. rewrite fmap_app. f_equal.
    apply list_eq. intros i. destruct (decide (i < n)%nat) as [Hi|Hi].
    + destruct (entries !! i) as [e|] eqn:Ee; [|apply lookup_ge_None in Ee; lia].
      destruct (Hn i e Hi Ee) as [Hid Hsig].
      rewrite list_lookup_fmap, !lookup_take, !decide_True by done.
      rewrite Ee. cbn. by apply Hco.
    + rewrite list_lookup_fmap, !lookup_take, !decide_False by done. done.
  - split; [|done]. intros i Hi.
    destruct (entries !! i) as [e|] eqn:Ee; [|apply lookup_ge_None in Ee; lia].
    exists e. split; [done|]. by apply Hn.
Qed.

(** After any sequence of reads and writes a bounded session map holds
    exactly the [maxEntries] most recently accessed sessions, oldest access
    first (a read that finds nothing is no access), each with the value last
    written for it; its size never exceeds the bound. *)
Theorem lru_contents {V} maxEntries (m0 : BoundedSessionMap.t V) ops :
  BoundedSessionMap.new maxEntries = Some m0 →
  let m := foldl BoundedSessionMap.apply m0 ops in
  JsMap.keys (BoundedSessionMap.store m) = lastn (Z.to_nat maxEntries) (dedup_last (accesses m0 ops)) ∧
  JsMap.size (BoundedSessionMap.store m) ≤ maxEntries ∧
  ∀ k v, BoundedSessionMap.peek m k = Some v → last_set k ops = Some v.
Proof.
  unfold BoundedSessionMap.new. destruct (maxEntries <? 1) eqn:Emax; [done|]. intros E.
  apply Z.ltb_ge in Emax. injection E as <-.
  pose proof (run_keys {| BoundedSessionMap.maxEntries := maxEntries;
                          BoundedSessionMap.store := [] |} ops [] Emax eq_refl) as Hk.
  set (m := foldl _ _ _) in *. cbv zeta. cbn [app] in Hk.
  split; [done|]. split; [|intros k v; by apply run_last_set].
  unfold JsMap.size, lengthZ. rewrite <- (length_fmap fst). unfold JsMap.keys in Hk. rewrite Hk.
  unfold lastn. rewrite length_drop. cbn [BoundedSessionMap.maxEntries]. lia.
Qed.

(** ** Witnesses *)

Local Instance demo_engine : Engine :=
  {| numberToString := fun n => hex_padded 8 (floorZ n) |}.

Definition demo_entry (id : string) : LkgDigestEntry :=
  {| de_id := id; de_signature := "s"; de_fields := lkgContentFields (VObj [("id", VStr id)]) |}.

Definition demo_prior : LkgDigestPrior :=
  {| dp_ids := ["a"; "x"]; dp_signatures := ["s"; "s"];
     dp_digests := lkgContentDigestFromFields id ∘ de_fields ∘ demo_entry <$> ["a"; "x"] |}.

Lemma incremental_digests_full_witness :
  prior_coherent id [demo_entry "a"; demo_entry "b"] demo_prior ∧
  let '(digests, reused) :=
    incrementalLkgContentDigests id [demo_entry "a"; demo_entry "b"] (Some demo_prior) in
  digests = (incrementalLkgContentDigests id [demo_entry "a"; demo_entry "b"] None).1 ∧
  unchanged_prefix [demo_entry "a"; demo_entry "b"] demo_prior reused.
Proof.
  assert (prior_coherent id [demo_entry "a"; demo_entry "b"] demo_prior) as Hco.
  { intros [|[|[|i]]] e He Hi Hs; cbn in He, Hi; simplify_eq; vm_compute; reflexivity. }
  split; [exact Hco|]. exact (incremental_digests_full id _ demo_prior Hco).
Defined.

Lemma lru_contents_witness :
  BoundedSessionMap.new (V := nat) 2 = Some {| BoundedSessionMap.maxEntries := 2;
                                               BoundedSessionMap.store := [] |} ∧
  let ops := [BoundedSessionMap.op_set "a" 1%nat; BoundedSessionMap.op_set "b" 2%nat;
              BoundedSessionMap.op_get "a"; BoundedSessionMap.op_set "c" 3%nat] in
  let m0 := {| BoundedSessionMap.maxEntries := 2; BoundedSessionMap.store := [] |} in
  let m := foldl BoundedSessionMap.apply m0 ops in
  JsMap.keys (BoundedSessionMap.store m) = ["a"; "c"] ∧
  (JsMap.keys (BoundedSessionMap.store m) =
     lastn (Z.to_nat 2) (dedup_last (accesses m0 ops)) ∧
   JsMap.size (BoundedSessionMap.store m) ≤ 2 ∧
   ∀ k v, BoundedSessionMap.peek m k = Some v → last_set k ops = Some v).
Proof.
  split; [reflexivity|]. split; [reflexivity|]. apply (lru_contents 2). reflexivity.
Defined.
