(* ===== verification/KernelState.v ===== *)
(** * Memory states of the kernel client

    Models packages/plugin/src/shared/kernel-client/state.ts: the typed states a
    memory request can end in, the key of a state, and the guidance shown for
    it.  String-literal unions are inductive types with the text of each member
    beside them. *)

From S2P Require Import Prelude JsNumber JsMap JsValue.

(** ** Reasons *)

(** The members of the daemon come first; the client mints the last two. *)
Inductive UnavailableReason :=
| store_starting | store_unavailable | store_unsupported | store_busy | no_required_consumer
| snapshot_diverged | queue_full | daemon_absent | outcome_unknown.

Inductive ConflictReason :=
| known_as_of_advanced | retracted | superseded.

(** The client mints the last one. *)
Inductive InvalidReason :=
| project_mismatch | operation_key_reused | class_over_declared | invalid_input
| admission_policy | not_found | already_exists | revision_not_advanced | scope_reserved
| payload_too_large | page_digest | page_index | page_too_large | payload_digest
| upload_not_found | ingestion_fail_closed | artifact_unusable | internal | unrecognized_state.

Definition unavailable_text (reason : UnavailableReason) : string :=
  match reason with
  | store_starting => "store_starting"
  | store_unavailable => "store_unavailable"
  | store_unsupported => "store_unsupported"
  | store_busy => "store_busy"
  | no_required_consumer => "no_required_consumer"
  | snapshot_diverged => "snapshot_diverged"
  | queue_full => "queue_full"
  | daemon_absent => "daemon_absent"
  | outcome_unknown => "outcome_unknown"
  end.

Definition conflict_text (reason : ConflictReason) : string :=
  match reason with
  | known_as_of_advanced => "known_as_of_advanced"
  | retracted => "retracted"
  | superseded => "superseded"
  end.

Definition invalid_text (reason : InvalidReason) : string :=
  match reason with
  | project_mismatch => "project_mismatch"
  | operation_key_reused => "operation_key_reused"
  | class_over_declared => "class_over_declared"
  | invalid_input => "invalid_input"
  | admission_policy => "admission_policy"
  | not_found => "not_found"
  | already_exists => "already_exists"
  | revision_not_advanced => "revision_not_advanced"
  | scope_reserved => "scope_reserved"
  | payload_too_large => "payload_too_large"
  | page_digest => "page_digest"
  | page_index => "page_index"
  | page_too_large => "page_too_large"
  | payload_digest => "payload_digest"
  | upload_not_found => "upload_not_found"
  | ingestion_fail_closed => "ingestion_fail_closed"
  | artifact_unusable => "artifact_unusable"
  | internal => "internal"
  | unrecognized_state => "unrecognized_state"
  end.

Definition UNAVAILABLE_REASONS : list UnavailableReason :=
  [store_starting; store_unavailable; store_unsupported; store_busy; no_required_consumer;
   snapshot_diverged; queue_full].

Definition CONFLICT_REASONS : list ConflictReason :=
  [known_as_of_advanced; retracted; superseded].

Definition INVALID_REASONS : list InvalidReason :=
  [project_mismatch; operation_key_reused; class_over_declared; invalid_input;
   admission_policy; not_found; already_exists; revision_not_advanced; scope_reserved;
   payload_too_large; page_digest; page_index; page_too_large; payload_digest;
   upload_not_found; ingestion_fail_closed; artifact_unusable; internal].

(** ** States *)

Record LagFacts := { lag_positions : num; oldest_unconsumed_age_ms : num }.

Inductive MemoryState :=
| available
| stale (lag : LagFacts)
| abstained (lag : LagFacts)
| unavailable (reason : UnavailableReason)
| conflict (reason : ConflictReason)
| invalid (reason : InvalidReason)
| disabled
| cancelled.

(** [kind] of a state. *)
Definition kind (state : MemoryState) : string :=
  match state with
  | available => "available" | stale _ => "stale" | abstained _ => "abstained"
  | unavailable _ => "unavailable" | conflict _ => "conflict" | invalid _ => "invalid"
  | disabled => "disabled" | cancelled => "cancelled"
  end.

(** [state.reason], for the members that have one. *)
Definition reason_of (state : MemoryState) : option string :=
  match state with
  | unavailable reason => Some (unavailable_text reason)
  | conflict reason => Some (conflict_text reason)
  | invalid reason => Some (invalid_text reason)
  | _ => None
  end.

Definition stateKey (state : MemoryState) : string :=
  match reason_of state with
  | Some reason => (kind state ++ ":" ++ reason)%string
  | None => kind state
  end.

(** ** Guidance *)

Record Guidance := { marker : string; tool : string }.

Definition entry (key marker tool : string) : string * Guidance :=
  (key, {| marker := marker; tool := tool |}).

Definition MEMORY_STATE_GUIDANCE : jsmap string Guidance :=
  [entry "available"
     "memory: current"
     "Memory is current.";
   entry "stale"
     "memory: results may lag recent changes"
     "Memory results may lag recent changes; the projector has not caught up.";
   entry "abstained"
     "memory: automatic search withheld while the projector catches up"
     "Automatic memory search was withheld because the projector is behind; use explicit search if needed.";
   entry "unavailable:store_starting"
     "memory: store is opening"
     "Memory is unavailable while the store opens; it becomes available once opening completes.";
   entry "unavailable:store_unavailable"
     "memory: store is unavailable"
     "Memory is unavailable because the store failed or lost its lease.";
   entry "unavailable:store_unsupported"
     "memory: store cannot be opened by this build"
     "Memory is unavailable because this build cannot open the store; run the doctor check.";
   entry "unavailable:store_busy"
     "memory: store is busy"
     "Memory is unavailable because the store is busy; the next natural request re-probes.";
   entry "unavailable:no_required_consumer"
     "memory: freshness cannot be judged (no consumer registered)"
     "Memory freshness cannot be judged because no consumer is registered.";
   entry "unavailable:snapshot_diverged"
     "memory: snapshot diverged from the store"
     "Memory is unavailable because the known snapshot is ahead of the store; cached tokens were dropped.";
   entry "unavailable:queue_full"
     "memory: upload queue is full"
     "Memory is unavailable because the artifact upload queue is full.";
   entry "unavailable:daemon_absent"
     "memory: daemon not running"
     "Memory is unavailable because the daemon is not running.";
   entry "unavailable:outcome_unknown"
     "memory: request outcome unknown"
     "The memory request was interrupted after it was sent and may have been applied; read the memory back to see whether it took effect.";
   entry "conflict:known_as_of_advanced"
     "memory: object changed since it was read"
     "The object changed since it was read; read it again before writing.";
   entry "conflict:retracted"
     "memory: object was retracted"
     "The object was retracted; read again and choose a live object.";
   entry "conflict:superseded"
     "memory: object was superseded"
     "The object was superseded; read again and target its replacement.";
   entry "invalid:project_mismatch"
     "memory: request named a different project"
     "The request named a project other than the bound one.";
   entry "invalid:operation_key_reused"
     "memory: operation key reused with different content"
     "The operation key was reused with a different request digest.";
   entry "invalid:class_over_declared"
     "memory: asserted class exceeds the derived class"
     "The asserted source or sensitivity class is above what the daemon derives.";
   entry "invalid:invalid_input"
     "memory: request rejected as invalid input"
     "The kernel rejected the request as invalid input.";
   entry "invalid:admission_policy"
     "memory: request rejected by admission policy"
     "Admission policy rejected the request.";
   entry "invalid:not_found"
     "memory: named object not found"
     "The named object does not exist, is not live, or is not scoped to this project.";
   entry "invalid:already_exists"
     "memory: object id already exists"
     "The write named an id the registry already holds; retrying the same write cannot succeed.";
   entry "invalid:revision_not_advanced"
     "memory: successor revision did not advance"
     "The successor's source revision does not exceed its predecessor's; use a higher revision.";
   entry "invalid:scope_reserved"
     "memory: reserved scope occupied by a foreign scope"
     "A foreign scope occupies this project's reserved scope id; the write cannot succeed until it is removed.";
   entry "invalid:payload_too_large"
     "memory: payload too large"
     "The payload exceeds the size the kernel accepts.";
   entry "invalid:page_digest"
     "memory: upload page digest mismatch"
     "An upload page did not match its declared digest.";
   entry "invalid:page_index"
     "memory: upload page index outside the declared layout"
     "An upload page fell outside the declared layout.";
   entry "invalid:page_too_large"
     "memory: upload page too large"
     "An upload page decodes to more bytes than one page may carry.";
   entry "invalid:payload_digest"
     "memory: payload digest mismatch"
     "The assembled payload did not hash to the declared digest.";
   entry "invalid:upload_not_found"
     "memory: upload not in flight"
     "The named upload is not in flight on this route.";
   entry "invalid:ingestion_fail_closed"
     "memory: artifact ingestion is fail-closed"
     "Artifact ingestion is fail-closed until the store reopens.";
   entry "invalid:artifact_unusable"
     "memory: artifact unusable"
     "The artifact is not live or holds a secret the redactor cannot rewrite.";
   entry "invalid:internal"
     "memory: internal error"
     "Memory hit an internal error; see the plugin log.";
   entry "invalid:unrecognized_state"
     "memory: daemon answered with an unrecognized state"
     "The daemon answered with a state this client does not recognize; update the plugin or daemon.";
   entry "disabled"
     "memory: disabled by configuration"
     "Memory is disabled by configuration (memory.enabled = false).";
   entry "cancelled"
     "memory: request cancelled"
     "The memory request was cancelled before it completed."].

Definition guidanceFor (state : MemoryState) : option Guidance :=
  JsMap.get MEMORY_STATE_GUIDANCE (stateKey state).

Definition ALL_STATE_KEYS : list string := JsMap.keys MEMORY_STATE_GUIDANCE.

(** ** Specification *)

(** One state of each kind and reason; the lag facts do not matter. *)
Definition same_member (a b : MemoryState) : Prop :=
  match a, b with
  | stale _, stale _ | abstained _, abstained _ => True
  | unavailable r, unavailable r' => r = r'
  | conflict r, conflict r' => r = r'
  | invalid r, invalid r' => r = r'
  | available, available | disabled, disabled | cancelled, cancelled => True
  | _, _ => False
  end.

Definition no_lag : LagFacts := {| lag_positions := nofZ 0; oldest_unconsumed_age_ms := nofZ 0 |}.

Definition members : list MemoryState :=
  [available; stale no_lag; abstained no_lag] ++
  (unavailable <$> UNAVAILABLE_REASONS ++ [daemon_absent; outcome_unknown]) ++
  (conflict <$> CONFLICT_REASONS) ++
  (invalid <$> INVALID_REASONS ++ [unrecognized_state]) ++ [disabled; cancelled].

(** ** Lemmas *)

#[export] Instance unavailable_eq_dec : EqDecision UnavailableReason.
Proof. solve_decision. Defined.
#[export] Instance conflict_eq_dec : EqDecision ConflictReason.
Proof. solve_decision. Defined.
#[export] Instance invalid_eq_dec : EqDecision InvalidReason.
Proof. solve_decision. Defined.

#[export] Instance unavailable_text_inj : Inj (=) (=) unavailable_text.
Proof. intros [] [] E; done. Qed.
#[export] Instance conflict_text_inj : Inj (=) (=) conflict_text.
Proof. intros [] [] E; done. Qed.
#[export] Instance invalid_text_inj : Inj (=) (=) invalid_text.
Proof. intros [] [] E; done. Qed.

Lemma member_of state : ∃ s, s ∈ members ∧ same_member state s ∧ stateKey state = stateKey s.
Proof.
  destruct state as [|l|l|r|r|r| |];
    [exists available|exists (stale no_lag)|exists (abstained no_lag)|exists (unavailable r)
    |exists (conflict r)|exists (invalid r)|exists disabled|exists cancelled];
    (split; [|done]); try destruct r;
    repeat first [apply list_elem_of_here | apply list_elem_of_further].
Qed.

Lemma all_keys : ALL_STATE_KEYS = stateKey <$> members.
Proof. vm_compute. reflexivity. Qed.

Lemma keys_NoDup : NoDup (stateKey <$> members).
Proof. apply (bool_decide_unpack _). vm_compute. exact I. Qed.

(** ** Properties *)

(** The guidance table is total and exact.  Every state a request can end
    in has guidance, with a marker of the memory family and a tool sentence; two
    states share a key exactly when they are the same member (same kind and
    reason, whatever their lag facts); and the table's keys are exactly the keys
    of the states, each once. *)
Theorem guidance_total :
  (∀ state, ∃ g, guidanceFor state = Some g ∧ startsWith (marker g) "memory: " = true ∧
                 tool g ≠ EmptyString) ∧
  (∀ a b, stateKey a = stateKey b ↔ same_member a b) ∧
  NoDup ALL_STATE_KEYS ∧
  (∀ key, key ∈ ALL_STATE_KEYS ↔ ∃ state, stateKey state = key).
Proof.
  split; [|split; [|split]].
  - intros state. unfold guidanceFor.
    destruct state as [| | |r|r|r| |]; try destruct r;
      (eexists; split; [vm_compute; reflexivity|split; [reflexivity|discriminate]]).
  - intros a b. destruct a as [| | |r|r|r| |], b as [| | |r'|r'|r'| |]; cbn;
      split; try done; try (by intros ->); destruct r; try destruct r'; done.
  - rewrite all_keys. apply keys_NoDup.
  - intros key. rewrite all_keys, list_elem_of_fmap. split.
    + intros (s & -> & _). by exists s.
    + intros (s & <-). destruct (member_of s) as (s' & ? & _ & ->). by exists s'.
Qed.
