(* ===== verification/KernelWire.v ===== *)
(** * Parsing the kernel's answers

    Models packages/plugin/src/shared/kernel-client/wire.ts, the only place where
    bytes of the daemon become memory states and typed payloads.  A parser that
    returns [null] on a malformed shape is an option; numbers are doubles. *)

From S2P Require Import Prelude JsNumber JsMap JsValue KernelState.

(** ** Data *)

Inductive Sensitivity := normal | sensitive | secret.
Inductive Visibility := visible | labeled | hidden.

Definition sensitivity_text (s : Sensitivity) : string :=
  match s with normal => "normal" | sensitive => "sensitive" | secret => "secret" end.
Definition visibility_text (v : Visibility) : string :=
  match v with visible => "visible" | labeled => "labeled" | hidden => "hidden" end.

Definition SENSITIVITIES : list Sensitivity := [normal; sensitive; secret].
Definition VISIBILITIES : list Visibility := [visible; labeled; hidden].

Record ObjectRow := {
  ob_object_id : string;
  ob_object_kind : string;
  ob_domain_id : string;
  ob_source_kind : string;
  ob_source_id : string;
  ob_source_revision : num;
  ob_created_commit_seq : num;
  ob_invalidated_commit_seq : option num;
  ob_superseded_by : option string;
  ob_sensitivity : Sensitivity
}.

Record MutationToken := { tk_object_id : string; tk_known_as_of : num }.

Record ReadDecision := { de_kind : string; de_summary : string; de_rationale : string }.

Record ReadRow := {
  rr_object : ObjectRow;
  rr_visibility : Visibility;
  rr_labeled : bool;
  rr_scope_id : option string;
  rr_token : MutationToken;
  rr_decision : option ReadDecision
}.

Definition MEMORY_DOMAIN_ID : string := "memory".

Definition isMemoryDecisionRow (row : ReadRow) : bool :=
  match rr_decision row with
  | Some _ => String.eqb (ob_domain_id (rr_object row)) MEMORY_DOMAIN_ID
  | None => false
  end.

Record ReadPayload := {
  rp_known_as_of : num;
  rp_tip : num;
  rp_gated : bool;
  rp_truncated : bool;
  rp_rows : list ReadRow
}.

Record CommitPayload := {
  cp_commit_seq : num;
  cp_replayed : bool;
  cp_known_as_of : num;
  cp_tokens : list MutationToken
}.

(** ** Parsers *)

Definition UNRECOGNIZED : MemoryState := invalid unrecognized_state.

(** A type guard: the value at its narrower type. *)
Definition isNonNegativeInteger (v : value) : option num :=
  match v with
  | VNum n => if isSafeInteger n && nleb (nofZ 0) n then Some n else None
  | _ => None
  end.

Definition oneOf {A} (text : A → string) (set : list A) (v : value) : option A :=
  match v with
  | VStr s => List.find (fun a => String.eqb (text a) s) set
  | _ => None
  end.

Definition asString (v : value) : option string :=
  match v with VStr s => Some s | _ => None end.

Definition asBool (v : value) : option bool :=
  match v with VBool b => Some b | _ => None end.

(** A field that may be [null]. *)
Definition orNull {A} (parse : value → option A) (v : value) : option (option A) :=
  match v with VNull => Some None | _ => Some <$> parse v end.

(** The transport hands back either the body or [{result: body}]. *)
Definition responseBody (raw : value) : option (list (string * value)) :=
  record ← isRecord raw;
  match isRecord (field record "result") with
  | Some result => if negb (hasOwn record "state") then Some result else Some record
  | None => Some record
  end.

Definition parseLag (make : LagFacts → MemoryState) (raw : list (string * value)) : MemoryState :=
  match isNonNegativeInteger (field raw "lag_positions"),
        isNonNegativeInteger (field raw "oldest_unconsumed_age_ms") with
  | Some positions, Some age =>
      make {| lag_positions := positions; oldest_unconsumed_age_ms := age |}
  | _, _ => UNRECOGNIZED
  end.

Definition parseReason {A} (make : A → MemoryState) (text : A → string) (set : list A)
    (raw : list (string * value)) : MemoryState :=
  match oneOf text set (field raw "reason") with
  | Some reason => make reason
  | None => UNRECOGNIZED
  end.

Definition parseKernelState (raw : value) : MemoryState :=
  match isRecord raw with
  | None => UNRECOGNIZED
  | Some raw =>
      match field raw "kind" with
      | VStr kind =>
          if String.eqb kind "available" then available
          else if String.eqb kind "stale" then parseLag stale raw
          else if String.eqb kind "abstained" then parseLag abstained raw
          else if String.eqb kind "unavailable"
          then parseReason unavailable unavailable_text UNAVAILABLE_REASONS raw
          else if String.eqb kind "conflict"
          then parseReason conflict conflict_text CONFLICT_REASONS raw
          else if String.eqb kind "invalid"
          then parseReason invalid invalid_text INVALID_REASONS raw
          else UNRECOGNIZED
      | _ => UNRECOGNIZED
      end
  end.

(** The state and the rest of the body. *)
Definition parseKernelResponse (raw : value) : MemoryState * list (string * value) :=
  match responseBody raw with
  | None => (UNRECOGNIZED, [])
  | Some body => (parseKernelState (field body "state"), JsMap.delete body "state")
  end.

Definition parseToken (raw : value) : option MutationToken :=
  raw ← isRecord raw;
  object_id ← asString (field raw "object_id");
  known_as_of ← isNonNegativeInteger (field raw "known_as_of");
  Some {| tk_object_id := object_id; tk_known_as_of := known_as_of |}.

Definition parseTokens (raw : value) : option (list MutationToken) :=
  match raw with VArr items => mapM parseToken items | _ => None end.

Definition parseObjectRow (raw : value) : option ObjectRow :=
  raw ← isRecord raw;
  object_id ← asString (field raw "object_id");
  object_kind ← asString (field raw "object_kind");
  domain_id ← asString (field raw "domain_id");
  source_kind ← asString (field raw "source_kind");
  source_id ← asString (field raw "source_id");
  source_revision ← match field raw "source_revision" with
                    | VNum n => if isSafeInteger n then Some n else None
                    | _ => None
                    end;
  created ← isNonNegativeInteger (field raw "created_commit_seq");
  invalidated ← orNull isNonNegativeInteger (field raw "invalidated_commit_seq");
  superseded_by ← orNull asString (field raw "superseded_by");
  sensitivity ← oneOf sensitivity_text SENSITIVITIES (field raw "sensitivity");
  Some {| ob_object_id := object_id; ob_object_kind := object_kind; ob_domain_id := domain_id;
          ob_source_kind := source_kind; ob_source_id := source_id;
          ob_source_revision := source_revision; ob_created_commit_seq := created;
          ob_invalidated_commit_seq := invalidated; ob_superseded_by := superseded_by;
          ob_sensitivity := sensitivity |}.

(** [Some None] for an absent or null decision; [None] for a malformed one. *)
Definition parseReadDecision (raw : value) : option (option ReadDecision) :=
  if is_nullish raw then Some None
  else
    raw ← isRecord raw;
    decision_kind ← asString (field raw "decision_kind");
    payload ← isRecord (field raw "payload");
    summary ← asString (field payload "summary");
    rationale ← asString (field payload "rationale");
    Some (Some {| de_kind := decision_kind; de_summary := summary; de_rationale := rationale |}).

Definition parseReadRow (raw : value) : option ReadRow :=
  raw ← isRecord raw;
  object ← parseObjectRow (field raw "object");
  token ← parseToken (field raw "token");
  visibility ← oneOf visibility_text VISIBILITIES (field raw "visibility");
  is_labeled ← asBool (field raw "labeled");
  scope_id ← orNull asString (field raw "scope_id");
  if negb (String.eqb (tk_object_id token) (ob_object_id object)) then None
  else
    decision ← parseReadDecision (field raw "decision");
    let is_decision := String.eqb (ob_object_kind object) "decision" in
    let row := {| rr_object := object; rr_visibility := visibility; rr_labeled := is_labeled;
                  rr_scope_id := scope_id; rr_token := token; rr_decision := decision |} in
    match decision with
    | None => if is_decision then None else Some row
    | Some _ => if is_decision then Some row else None
    end.

Definition parseRowAt (known_as_of : num) (raw : value) : option ReadRow :=
  row ← parseReadRow raw;
  if neqb (tk_known_as_of (rr_token row)) known_as_of then Some row else None.

Definition parseReadPayload (payload : list (string * value)) : option ReadPayload :=
  known_as_of ← isNonNegativeInteger (field payload "known_as_of");
  tip ← isNonNegativeInteger (field payload "tip");
  if nltb tip known_as_of then None
  else
    gated ← asBool (field payload "gated");
    rows ← match field payload "rows" with VArr rows => Some rows | _ => None end;
    truncated ← match field payload "truncated" with
                | VUndefined => Some false
                | v => asBool v
                end;
    rows ← mapM (parseRowAt known_as_of) rows;
    Some {| rp_known_as_of := known_as_of; rp_tip := tip; rp_gated := gated;
            rp_truncated := truncated; rp_rows := rows |}.

Definition parseCommitPayload (payload : list (string * value)) : option CommitPayload :=
  receipt ← isRecord (field payload "receipt");
  commit_seq ← isNonNegativeInteger (field receipt "commit_seq");
  replayed ← asBool (field receipt "replayed");
  known_as_of ← isNonNegativeInteger (field payload "known_as_of");
  tokens ← parseTokens (field payload "tokens");
  Some {| cp_commit_seq := commit_seq; cp_replayed := replayed; cp_known_as_of := known_as_of;
          cp_tokens := tokens |}.

(** A payload is parsed only out of an available state; a malformed one makes
    the state unrecognized. *)
Definition parsePayload {P} (parse : list (string * value) → option P) (raw : value)
    : MemoryState * option P :=
  let '(state, payload) := parseKernelResponse raw in
  match state with
  | available =>
      match parse payload with
      | Some p => (state, Some p)
      | None => (UNRECOGNIZED, None)
      end
  | _ => (state, None)
  end.

Definition parseReadResponse : value → MemoryState * option ReadPayload :=
  parsePayload parseReadPayload.

Definition parseCommitResponse : value → MemoryState * option CommitPayload :=
  parsePayload parseCommitPayload.

(** ** Specification: what a daemon sends *)

Definition is_count (n : num) : Prop := isSafeInteger n = true ∧ nleb (nofZ 0) n = true.

Definition daemon_state (s : MemoryState) : Prop :=
  match s with
  | stale l | abstained l => is_count (lag_positions l) ∧ is_count (oldest_unconsumed_age_ms l)
  | unavailable r => r ∈ UNAVAILABLE_REASONS
  | disabled | cancelled => False
  | _ => True
  end.

Definition wf_object (o : ObjectRow) : Prop :=
  isSafeInteger (ob_source_revision o) = true ∧ is_count (ob_created_commit_seq o) ∧
  (∀ n, ob_invalidated_commit_seq o = Some n → is_count n).

Record wf_row (known_as_of : num) (r : ReadRow) : Prop := {
  wr_object : wf_object (rr_object r);
  wr_token : is_count (tk_known_as_of (rr_token r));
  wr_snapshot : neqb (tk_known_as_of (rr_token r)) known_as_of = true;
  wr_same : tk_object_id (rr_token r) = ob_object_id (rr_object r);
  wr_decision : is_Some (rr_decision r) ↔ ob_object_kind (rr_object r) = "decision"%string
}.

Record wf_read (p : ReadPayload) : Prop := {
  wp_known_as_of : is_count (rp_known_as_of p);
  wp_tip : is_count (rp_tip p);
  wp_order : nltb (rp_tip p) (rp_known_as_of p) = false;
  wp_rows : Forall (wf_row (rp_known_as_of p)) (rp_rows p)
}.

Record wf_commit (c : CommitPayload) : Prop := {
  wc_seq : is_count (cp_commit_seq c);
  wc_known_as_of : is_count (cp_known_as_of c);
  wc_tokens : Forall (fun t => is_count (tk_known_as_of t)) (cp_tokens c)
}.

Definition or_null {A} (v : A → value) (o : option A) : value :=
  match o with Some a => v a | None => VNull end.

Definition encode_lag (l : LagFacts) : list (string * value) :=
  [("lag_positions", VNum (lag_positions l));
   ("oldest_unconsumed_age_ms", VNum (oldest_unconsumed_age_ms l))]%string.

Definition encode_state (s : MemoryState) : value :=
  VObj (("kind"%string, VStr (kind s)) ::
        match s with
        | stale l | abstained l => encode_lag l
        | _ => match reason_of s with Some r => [("reason"%string, VStr r)] | None => [] end
        end).

Definition encode_token (t : MutationToken) : value :=
  VObj [("object_id", VStr (tk_object_id t)); ("known_as_of", VNum (tk_known_as_of t))]%string.

Definition encode_object (o : ObjectRow) : value :=
  VObj [("object_id", VStr (ob_object_id o)); ("object_kind", VStr (ob_object_kind o));
        ("domain_id", VStr (ob_domain_id o)); ("source_kind", VStr (ob_source_kind o));
        ("source_id", VStr (ob_source_id o)); ("source_revision", VNum (ob_source_revision o));
        ("created_commit_seq", VNum (ob_created_commit_seq o));
        ("invalidated_commit_seq", or_null VNum (ob_invalidated_commit_seq o));
        ("superseded_by", or_null VStr (ob_superseded_by o));
        ("sensitivity", VStr (sensitivity_text (ob_sensitivity o)))]%string.

Definition encode_decision (d : ReadDecision) : value :=
  VObj [("decision_kind", VStr (de_kind d));
        ("payload", VObj [("summary", VStr (de_summary d));
                          ("rationale", VStr (de_rationale d))])]%string.

Definition encode_row (r : ReadRow) : value :=
  VObj [("object", encode_object (rr_object r));
        ("visibility", VStr (visibility_text (rr_visibility r)));
        ("labeled", VBool (rr_labeled r)); ("scope_id", or_null VStr (rr_scope_id r));
        ("token", encode_token (rr_token r));
        ("decision", or_null encode_decision (rr_decision r))]%string.

Definition encode_read (p : ReadPayload) : value :=
  VObj [("state", encode_state available); ("known_as_of", VNum (rp_known_as_of p));
        ("tip", VNum (rp_tip p)); ("gated", VBool (rp_gated p));
        ("truncated", VBool (rp_truncated p)); ("rows", VArr (encode_row <$> rp_rows p))]%string.

Definition encode_commit (c : CommitPayload) : value :=
  VObj [("state", encode_state available);
        ("receipt", VObj [("commit_seq", VNum (cp_commit_seq c));
                          ("replayed", VBool (cp_replayed c))]);
        ("known_as_of", VNum (cp_known_as_of c));
        ("tokens", VArr (encode_token <$> cp_tokens c))]%string.

(** The two shapes the transport delivers a body in. *)
Definition bare (body : value) : value := body.
Definition wrapped (body : value) : value := VObj [("result"%string, body)].

(** ** Lemmas *)

#[local] Arguments isNonNegativeInteger : simpl never.
#[local] Arguments isSafeInteger : simpl never.
#[local] Arguments oneOf : simpl never.
#[local] Arguments orNull : simpl never.
#[local] Arguments or_null : simpl never.
#[local] Arguments parseReadDecision : simpl never.
#[local] Arguments neqb : simpl never.
#[local] Arguments nltb : simpl never.

Lemma oneOf_text {A} (text : A → string) `{!Inj (=) (=) text} (set : list A) a :
  a ∈ set → oneOf text set (VStr (text a)) = Some a.
Proof.
  intros Ha. unfold oneOf. induction set as [|b set IH]; [by apply elem_of_nil in Ha|].
  cbn [List.find]. destruct (String.eqb_spec (text b) (text a)) as [E|E].
  - by apply (inj text) in E as ->.
  - apply elem_of_cons in Ha as [->|?]; [done|by apply IH].
Qed.

Lemma oneOf_in {A} (text : A → string) (set : list A) v a : oneOf text set v = Some a → a ∈ set.
Proof.
  unfold oneOf. destruct v; try done. intros E%List.find_some. apply list_elem_of_In. by destruct E.
Qed.

Lemma count_some n : is_count n → isNonNegativeInteger (VNum n) = Some n.
Proof. intros [Hs Hn]. unfold isNonNegativeInteger. by rewrite Hs, Hn. Qed.

Lemma count_is v n : isNonNegativeInteger v = Some n → is_count n.
Proof.
  unfold isNonNegativeInteger. destruct v; try done. case_match eqn:E; [|done].
  intros [= <-]. by bool_hyps.
Qed.

Lemma asString_inv v s : asString v = Some s → v = VStr s.
Proof. destruct v; naive_solver. Qed.

Lemma orNull_encode {A} (parse : value → option A) (mk : A → value) o :
  (∀ a, o = Some a → mk a ≠ VNull ∧ parse (mk a) = Some a) →
  orNull parse (or_null mk o) = Some o.
Proof.
  destruct o as [a|]; [|done]. intros Ha. destruct (Ha a eq_refl) as [Hn Hp].
  unfold orNull, or_null. rewrite Hp. by destruct (mk a).
Qed.

Lemma mapM_encode {A} (parse : value → option A) (mk : A → value) l :
  Forall (fun a => parse (mk a) = Some a) l → mapM parse (mk <$> l) = Some l.
Proof.
  induction 1 as [|a l Ha _ IH]; [done|]. cbn. rewrite Ha. cbn. by rewrite IH.
Qed.

Lemma mapM_parsed {A} (parse : value → option A) (P : A → Prop) vs l :
  (∀ v a, parse v = Some a → P a) → mapM parse vs = Some l → Forall P l.
Proof.
  intros Hp Hm%mapM_Some. induction Hm; constructor; eauto.
Qed.

#[export] Instance sensitivity_text_inj : Inj (=) (=) sensitivity_text.
Proof. intros [] [] E; done. Qed.
#[export] Instance visibility_text_inj : Inj (=) (=) visibility_text.
Proof. intros [] [] E; done. Qed.

Lemma sensitivity_all s : s ∈ SENSITIVITIES.
Proof. destruct s; set_solver. Qed.
Lemma visibility_all v : v ∈ VISIBILITIES.
Proof. destruct v; set_solver. Qed.

(** Opens the successful binds of a parser. *)
Ltac inv_some :=
  repeat match goal with
  | H : mbind _ _ = Some _ |- _ => apply bind_Some in H as (? & ? & H)
  | H : Some _ = Some _ |- _ => injection H as H; subst
  | H : None = Some _ |- _ => discriminate H
  | H : (if ?b then _ else _) = Some _ |- _ => destruct b eqn:?
  end.

Lemma state_parsed raw : daemon_state (parseKernelState raw).
Proof.
  unfold parseKernelState, parseLag, parseReason.
  repeat case_match; cbn; try done; eauto using count_is, oneOf_in.
Qed.

Lemma field_cons k v m k' : field ((k, v) :: m) k' = if String.eqb k k' then v else field m k'.
Proof.
  unfold field. cbn [JsMap.get]. case_decide as E.
  - by rewrite E, String.eqb_refl.
  - by rewrite (proj2 (String.eqb_neq _ _)) by congruence.
Qed.

(** Computes a parser on an encoded record. *)
Ltac fields := cbn; unfold encode_lag; rewrite ?field_cons; cbn.

Lemma state_encoded s : daemon_state s → parseKernelState (encode_state s) = s.
Proof.
  destruct s as [|l|l|r|r|r| |]; cbn [daemon_state]; try done.
  1-2: intros [Hp Ha]; unfold parseKernelState, parseLag; fields;
    rewrite !count_some by done; by destruct l.
  - intros Hr. unfold parseKernelState, parseReason. fields.
    by rewrite oneOf_text by (apply _ || done).
  - intros _. by destruct r.
  - intros _. by destruct r.
Qed.

Lemma token_encoded t : is_count (tk_known_as_of t) → parseToken (encode_token t) = Some t.
Proof. intros Ht. unfold parseToken. fields. rewrite count_some by done. by destruct t. Qed.

Lemma object_encoded o : wf_object o → parseObjectRow (encode_object o) = Some o.
Proof.
  intros (Hr & Hc & Hi). destruct o. cbn [ob_source_revision ob_created_commit_seq
    ob_invalidated_commit_seq] in *.
  unfold parseObjectRow, encode_object. fields.
  rewrite Hr. fields. rewrite count_some by done.
  fields.
  rewrite (orNull_encode isNonNegativeInteger) by (intros a ->; split; [done|by apply count_some, Hi]).
  fields. rewrite (orNull_encode asString) by done.
  fields. by rewrite oneOf_text by (apply _ || apply sensitivity_all).
Qed.

Lemma decision_encoded d : parseReadDecision (or_null encode_decision d) = Some d.
Proof. destruct d as [[]|]; done. Qed.

Lemma row_encoded ko r : wf_row ko r → parseRowAt ko (encode_row r) = Some r.
Proof.
  intros [Ho Ht Hs Hid Hd]. unfold parseRowAt, parseReadRow.
  cbn -[parseObjectRow parseToken encode_object encode_token]. rewrite ?field_cons.
  cbn -[parseObjectRow parseToken encode_object encode_token].
  rewrite object_encoded, token_encoded by done.
  fields.
  rewrite oneOf_text by (apply _ || apply visibility_all).
  fields.
  rewrite (orNull_encode asString) by done. fields.
  rewrite Hid, String.eqb_refl. fields. rewrite decision_encoded.
  fields. destruct r as [o v l s t d]. cbn in *.
  destruct d as [d|], (String.eqb_spec (ob_object_kind o) "decision") as [E|E]; fields.
  - by rewrite Hs.
  - exfalso. apply E, Hd. by eexists.
  - exfalso. apply Hd in E as [? ?]. done.
  - by rewrite Hs.
Qed.

Lemma token_parsed raw t : parseToken raw = Some t → is_count (tk_known_as_of t).
Proof. unfold parseToken. intros H. inv_some. cbn. eauto using count_is. Qed.

Lemma orNull_is {A} (parse : value → option A) v a :
  orNull parse v = Some (Some a) → ∃ v', parse v' = Some a.
Proof. unfold orNull. destruct v; cbn; try done; intros (? & ? & [= ->])%fmap_Some; eauto. Qed.

Lemma object_parsed raw o : parseObjectRow raw = Some o → wf_object o.
Proof.
  unfold parseObjectRow. intros H. inv_some. unfold wf_object. cbn. split; [|split].
  - repeat case_match; naive_solver.
  - eauto using count_is.
  - intros n ->. match goal with H : orNull isNonNegativeInteger _ = _ |- _ =>
      apply orNull_is in H as [? ?] end. eauto using count_is.
Qed.

Lemma row_parsed ko raw r : parseRowAt ko raw = Some r → wf_row ko r.
Proof.
  unfold parseRowAt, parseReadRow. intros H. inv_some;
    simplify_eq; bool_hyps;
    repeat match goal with
    | H : (_ =? _)%string = true |- _ => apply String.eqb_eq in H
    | H : (_ =? _)%string = false |- _ => apply String.eqb_neq in H
    end;
    constructor; cbn; eauto using object_parsed, token_parsed;
    split; try done; try (by intros [? ?]); intros; by eexists.
Qed.

(** The state of a parsed answer is the parsed state of its body, unless the
    payload was malformed. *)
Lemma payload_cases {P} (parse : list (string * value) → option P) raw state o :
  parsePayload parse raw = (state, o) →
  daemon_state state ∧
  match o with
  | Some p => state = available ∧ ∃ body, parse body = Some p
  | None => state ≠ available
  end.
Proof.
  unfold parsePayload, parseKernelResponse.
  destruct (responseBody raw) as [body|]; [|by intros [= <- <-]].
  pose proof (state_parsed (field body "state")) as Hs.
  destruct (parseKernelState _) eqn:Es; try (intros [= <- <-]; done).
  case_match eqn:Ep; intros [= <- <-]; eauto.
Qed.

Lemma payload_encoded {P} (parse : list (string * value) → option P) fields p deliver :
  deliver ∈ [bare; wrapped] →
  "state"%string ∉ JsMap.keys fields → "result"%string ∉ JsMap.keys fields →
  parse fields = Some p →
  parsePayload parse (deliver (VObj (("state"%string, encode_state available) :: fields))) =
  (available, Some p).
Proof.
  intros Hd Hs Hr Hp.
  assert (responseBody (deliver (VObj (("state"%string, encode_state available) :: fields))) =
          Some (("state"%string, encode_state available) :: fields)) as Hb.
  { apply elem_of_cons in Hd as [->|Hd%list_elem_of_singleton]; [|by subst].
    unfold responseBody, bare. cbn. rewrite field_cons. cbn.
    apply get_None in Hr. unfold field. by rewrite Hr. }
  unfold parsePayload, parseKernelResponse. rewrite Hb, field_cons. cbn [String.eqb Ascii.eqb Bool.eqb].
  rewrite (state_encoded available) by done.
  assert (JsMap.delete (("state"%string, encode_state available) :: fields) "state" = fields) as ->.
  { unfold JsMap.delete. rewrite filter_cons_False by tauto. by apply delete_absent. }
  by rewrite Hp.
Qed.

(** ** Properties *)

(** The parsers recover what a daemon sends.  For every state the daemon
    can report, every well-formed read payload and every well-formed commit
    payload, parsing the encoded answer gives the state available and exactly
    that payload, whether the transport delivers the body bare or wrapped in a
    result field; every daemon state survives encoding and parsing unchanged. *)
Theorem responses_roundtrip p c s deliver :
  wf_read p → wf_commit c → daemon_state s → deliver ∈ [bare; wrapped] →
  parseReadResponse (deliver (encode_read p)) = (available, Some p) ∧
  parseCommitResponse (deliver (encode_commit c)) = (available, Some c) ∧
  parseKernelState (encode_state s) = s.
Proof.
  intros [Hk Ht Ho Hr] [Hq Hck Hct] Hs Hd. split; [|split; [|by apply state_encoded]].
  - apply payload_encoded; [done|set_solver|set_solver|].
    unfold parseReadPayload. fields. rewrite !count_some by done. fields. rewrite Ho. cbn.
    rewrite mapM_encode; [by destruct p|]. eapply Forall_impl; [exact Hr|].
    intros r. apply row_encoded.
  - apply payload_encoded; [done|set_solver|set_solver|].
    unfold parseCommitPayload. fields. rewrite !count_some by done. fields.
    rewrite count_some by done. fields.
    rewrite mapM_encode; [by destruct c|]. eapply Forall_impl; [exact Hct|].
    intros t. apply token_encoded.
Qed.

(** C34: the parsers are total and safe on arbitrary input.  Whatever value the
    transport hands over, the resulting state is one a daemon can report (never
    disabled, cancelled, or a reason only the client mints other than
    unrecognized_state); a payload is returned exactly when the state is
    available; a read payload is a snapshot not newer than its tip whose rows
    all carry a token for their own object at that snapshot, and carry a
    decision exactly when the object is one; all counters are safe
    non-negative integers. *)
Theorem parsed_responses_sound raw :
  (let '(state, o) := parseReadResponse raw in
   daemon_state state ∧ (is_Some o ↔ state = available) ∧ ∀ p, o = Some p → wf_read p) ∧
  (let '(state, o) := parseCommitResponse raw in
   daemon_state state ∧ (is_Some o ↔ state = available) ∧ ∀ c, o = Some c → wf_commit c).
Proof.
  split; [destruct (parseReadResponse raw) as [state o] eqn:E
         |destruct (parseCommitResponse raw) as [state o] eqn:E];
    apply payload_cases in E as [Hs E]; (split; [done|]);
    (destruct o as [p|];
      [destruct E as [-> [body E]]; split; [by split; eauto|]; intros p' [= <-]
      |split; [split; [by intros [? ?]|done]|done]]).
  - unfold parseReadPayload in E. inv_some. constructor; cbn; eauto using count_is.
    eapply mapM_parsed; [|eassumption]. intros. by eapply row_parsed.
  - unfold parseCommitPayload in E. inv_some. constructor; cbn; eauto using count_is.
    unfold parseTokens in *. case_match; [..|done]; try done.
    eapply mapM_parsed; [|eassumption]. apply token_parsed.
Qed.

(** ** Witnesses *)

Definition sample_object : ObjectRow :=
  {| ob_object_id := "o1"; ob_object_kind := "decision"; ob_domain_id := MEMORY_DOMAIN_ID;
     ob_source_kind := "session"; ob_source_id := "s1"; ob_source_revision := nofZ 3;
     ob_created_commit_seq := nofZ 5; ob_invalidated_commit_seq := None;
     ob_superseded_by := None; ob_sensitivity := normal |}.

Definition sample_row : ReadRow :=
  {| rr_object := sample_object; rr_visibility := visible; rr_labeled := false;
     rr_scope_id := Some "p"%string;
     rr_token := {| tk_object_id := "o1"; tk_known_as_of := nofZ 7 |};
     rr_decision := Some {| de_kind := "policy"; de_summary := "s"; de_rationale := "r" |} |}.

Definition sample_read : ReadPayload :=
  {| rp_known_as_of := nofZ 7; rp_tip := nofZ 9; rp_gated := false; rp_truncated := true;
     rp_rows := [sample_row] |}.

Definition sample_commit : CommitPayload :=
  {| cp_commit_seq := nofZ 8; cp_replayed := false; cp_known_as_of := nofZ 8;
     cp_tokens := [rr_token sample_row] |}.

Lemma responses_roundtrip_witness :
  wf_read sample_read ∧ wf_commit sample_commit ∧ daemon_state (unavailable store_busy) ∧
  (parseReadResponse (wrapped (encode_read sample_read)) = (available, Some sample_read) ∧
   parseCommitResponse (wrapped (encode_commit sample_commit)) =
     (available, Some sample_commit) ∧
   parseKernelState (encode_state (unavailable store_busy)) = unavailable store_busy).
Proof.
  assert (wf_read sample_read) as Hr.
  { constructor; [by split|by split|done|]. constructor; [|constructor].
    constructor; [|by split|done|done|by split; eauto].
    split; [done|]. split; [by split|done]. }
  assert (wf_commit sample_commit) as Hc.
  { constructor; [by split|by split|]. constructor; [by split|constructor]. }
  assert (daemon_state (unavailable store_busy)) as Hs by (cbn; set_solver).
  split; [exact Hr|]. split; [exact Hc|]. split; [exact Hs|].
  apply responses_roundtrip; [exact Hr|exact Hc|exact Hs|set_solver].
Defined.
