(* ===== verification/SessionChunk.v ===== *)
(** * Chunks of a session

    Models [readSessionChunk] of
    packages/plugin/src/hooks/magic-context/read-session-chunk.ts, with its memo of
    block token counts, the text compaction of
    packages/plugin/src/hooks/magic-context/read-session-formatting.ts it uses and
    the verb pattern of packages/plugin/src/shared/commit-detection.ts.  The
    regular expressions are scanners over code units; the raw messages and the
    absolute message count are arguments. *)

From S2P Require Import Prelude JsNumber JsMap JsValue JsString TokenEstimate SessionText HistorianValidation.

(** ** Words and separators *)

(** [\w] below 256. *)
Definition is_word (u : Z) : bool :=
  ((48 <=? u) && (u <=? 57)) || ((65 <=? u) && (u <=? 90)) || ((97 <=? u) && (u <=? 122)) ||
  (u =? 95).

Inductive piece := Word (w : list Z) | Sep (u : Z).

Definition word_piece (cur : list Z) : list piece :=
  match cur with [] => [] | _ => [Word cur] end.

(** A text as its maximal runs of word characters and the units between them:
    a word boundary is an end of a run. *)
Fixpoint pieces (cur l : list Z) : list piece :=
  match l with
  | [] => word_piece cur
  | u :: l => if is_word u then pieces (cur ++ [u]) l else word_piece cur ++ Sep u :: pieces [] l
  end.

Definition is_hex (u : Z) : bool :=
  ((48 <=? u) && (u <=? 57)) || ((65 <=? u) && (u <=? 70)) || ((97 <=? u) && (u <=? 102)).

(** A run that [\b[0-9a-f]{7,12}\b] matches with the [i] flag. *)
Definition is_hash (w : list Z) : bool :=
  (7 <=? lengthZ w) && (lengthZ w <=? 12) && forallb is_hex w.

(** [extractCommitHashes]: the distinct hashes in lower case, at most the bound
    of them; the loop is the one of [mergeCommitHashes] on an empty block. *)
Definition extractCommitHashes (text : string) : list string :=
  merge_loop []
    (omap (fun p => match p with
                    | Word w => if is_hash w then Some (of_code_units (lower_unit <$> w)) else None
                    | Sep _ => None
                    end) (pieces [] (code_units text))).

Definition COMMIT_VERBS : list string :=
  ["commit"; "committed"; "committing"; "commits"; "merge"; "merged"; "merges"; "merging";
   "rebase"; "rebased"; "rebases"; "rebasing"; "cherrypick"; "cherrypicked"; "cherrypicking";
   "cherrypicks"]%string.

Definition PICKS : list string := ["pick"; "picked"; "picking"; "picks"]%string.

Definition is_one_of (words : list string) (w : list Z) : bool :=
  existsb (String.eqb (of_code_units (lower_unit <$> w))) words.

(** [COMMIT_VERB_PATTERN.test(text)]. *)
Fixpoint mentions_verb (l : list piece) : bool :=
  match l with
  | [] => false
  | p :: l' =>
      match p with
      | Word w =>
          is_one_of COMMIT_VERBS w ||
          (is_one_of ["cherry"%string] w &&
           match l' with Sep 45 :: Word w' :: _ => is_one_of PICKS w' | _ => false end)
      | Sep _ => false
      end || mentions_verb l'
  end.

(** [text.replace(createCommitHashExtractPattern(), "")]: a hash goes with a
    backtick on either side; [after] tells that one just went. *)
Fixpoint remove_hashes (after : bool) (l : list piece) : list Z :=
  match l with
  | [] => []
  | Word w :: l' => if is_hash w then remove_hashes true l' else w ++ remove_hashes false l'
  | Sep u :: l' =>
      if u =? 96 then
        if after then remove_hashes false l'
        else match l' with
             | Word w :: l'' =>
                 if is_hash w then remove_hashes true l'' else u :: remove_hashes false l'
             | _ => u :: remove_hashes false l'
             end
      else u :: remove_hashes false l'
  end.

(** [replace(/\(\s*\)/g, "")]; one unit of fuel per code unit, here and below. *)
Fixpoint drop_empty_parens (fuel : nat) (l : list Z) : list Z :=
  match fuel, l with
  | O, _ | _, [] => l
  | S fuel, u :: l' =>
      match (if u =? 40 then drop_spaces l' else []) with
      | 41 :: rest => drop_empty_parens fuel rest
      | _ => u :: drop_empty_parens fuel l'
      end
  end.

(** [replace(/\s+([marks])/g, "$1")]: white space right before a mark goes. *)
Definition drop_spaces_before (mark : Z → bool) (l : list Z) : list Z :=
  foldr (fun u acc =>
    if is_space u && match acc with v :: _ => mark v | [] => false end then acc else u :: acc)
    [] l.

Fixpoint drop_commas (l : list Z) : list Z :=
  match l with 44 :: l' => drop_commas l' | _ => l end.

(** [replace(/,\s*,+/g, ", ")]. *)
Fixpoint collapse_commas (fuel : nat) (l : list Z) : list Z :=
  match fuel, l with
  | O, _ | _, [] => l
  | S fuel, u :: l' =>
      match (if u =? 44 then drop_spaces l' else []) with
      | 44 :: rest => 44 :: 32 :: collapse_commas fuel (drop_commas rest)
      | _ => u :: collapse_commas fuel l'
      end
  end.

(** [replace(/\s{least,}/g, " ")]. *)
Fixpoint collapse_spaces (least : nat) (run l : list Z) : list Z :=
  let flush := if decide (least ≤ length run)%nat then [32] else run in
  match l with
  | [] => match run with [] => [] | _ => flush end
  | u :: l =>
      if is_space u then collapse_spaces least (run ++ [u]) l
      else match run with [] => [] | _ => flush end ++ u :: collapse_spaces least [] l
  end.

Definition without_hashes (text : string) : string :=
  let l := remove_hashes false (pieces [] (code_units text)) in
  let l := drop_empty_parens (length l) l in
  let l := drop_spaces_before (fun u => u =? 44) l in
  let l := collapse_commas (length l) l in
  let l := collapse_spaces 2 [] l in
  let l := drop_spaces_before (fun u => (u =? 44) || (u =? 46) || (u =? 59) || (u =? 58)) l in
  of_code_units (trim_units l).

(** The text and the commit hashes taken out of it. *)
Definition compactTextForSummary (text role : string) : string * list string :=
  let commitHashes := if String.eqb role "assistant" then extractCommitHashes text else [] in
  if (lengthZ commitHashes =? 0) || negb (mentions_verb (pieces [] (code_units text)))
  then (text, commitHashes)
  else
    let withoutHashes := without_hashes text in
    (if 0 <? str_length withoutHashes then withoutHashes else text, commitHashes).

Definition normalizeText (text : string) : string :=
  of_code_units (trim_units (collapse_spaces 1 [] (code_units text))).

Definition cleanUserText (text : string) : string := clean_text text.

(** The upper case of a letter whose upper case is below 256. *)
Definition upper_unit (u : Z) : Z :=
  if ((97 <=? u) && (u <=? 122)) || ((224 <=? u) && (u <=? 254) && negb (u =? 247))
  then u - 32 else u.

Definition compactRole (role : string) : string :=
  if String.eqb role "assistant" then "A"
  else if String.eqb role "user" then "U"
  else match code_units role with
       | [] => "M"
       | u :: _ => of_code_units [upper_unit u]
       end.

(** ** Tool-call summaries *)

(** [object.key] of a value that may be no object. *)
Definition prop_of (v : value) (key : string) : value :=
  match part_fields v with Some fields => field fields key | None => VUndefined end.

Definition string_prop (v : value) (key : string) : option string :=
  match prop_of v key with VStr s => Some s | _ => None end.

(** A string that is not empty. *)
Definition truthy (s : option string) : option string :=
  match s with Some s => if String.eqb s "" then None else Some s | None => None end.

Section reader.
(** [ellipsis] is the string of the character U+2026, which is no code unit
    below 256. *)
Context `{Engine} `{Tokenizer} (ellipsis : string).

Definition truncateArg (v : string) : string :=
  if str_length v <=? 60 then v else (String.substring 0 60 v ++ ellipsis)%string.

Definition extractKeyArg (input : value) : option string :=
  match string_prop input "filePath", string_prop input "path",
        string_prop input "pattern", string_prop input "query" with
  | Some s, _, _, _ | None, Some s, _, _ | None, None, Some s, _ | None, None, None, Some s =>
      Some (truncateArg s)
  | None, None, None, None =>
      match string_prop input "symbol", string_prop input "module", string_prop input "action" with
      | Some s, _, _ | None, Some s, _ | None, None, Some s => Some s
      | None, None, None => None
      end
  end.

Definition tool_summary (part : value) : option string :=
  match string_prop part "type", string_prop part "tool" with
  | Some type, Some toolName =>
      if negb (String.eqb type "tool") then None
      else
        let state := prop_of part "state" in
        match part_fields state with
        | None => None
        | Some _ =>
            let input := prop_of state "input" in
            let metadata := prop_of state "metadata" in
            let description :=
              match truthy (string_prop input "description") with
              | Some d => Some d
              | None => truthy (string_prop metadata "description")
              end in
            match description with
            | Some d => Some ("TC: " ++ d)%string
            | None =>
                match truthy (extractKeyArg input) with
                | Some keyArg => Some ("TC: " ++ toolName ++ "(" ++ keyArg ++ ")")%string
                | None => Some ("TC: " ++ toolName)%string
                end
            end
        end
  | _, _ => None
  end.

Definition extractToolCallSummaries (parts : list value) : list string :=
  omap tool_summary parts.

(** ** What a message contributes *)

Record Contribution := {
  ct_role : string;
  ct_text : string;
  ct_commitHashes : list string;
  ct_narrative : bool
}.

(** The first half of the loop body; [None] is filtered noise.  The result of a
    tool a user message carries counts as assistant content without narrative
    and without hashes. *)
Definition contribution (msg : RawMessage) : option Contribution :=
  if String.eqb (rm_role msg) "user" && negb (hasMeaningfulUserText (rm_parts msg)) then
    match extractToolCallSummaries (rm_parts msg) with
    | [] => None
    | tcSummaries =>
        Some {| ct_role := "A"; ct_text := join " / " tcSummaries; ct_commitHashes := [];
                ct_narrative := false |}
    end
  else
    let textParts :=
      filter (fun s => 0 < str_length s)
        (normalizeText <$>
           ((fun t => if String.eqb (rm_role msg) "user" then cleanUserText t else t) <$>
              extractTexts (rm_parts msg))) in
    let toolSummaries :=
      match textParts with [] => extractToolCallSummaries (rm_parts msg) | _ => [] end in
    let '(text, commitHashes) :=
      compactTextForSummary (join " / " (textParts ++ toolSummaries)) (rm_role msg) in
    if String.eqb text "" then None
    else Some {| ct_role := compactRole (rm_role msg); ct_text := text;
                 ct_commitHashes := commitHashes;
                 ct_narrative := match textParts with [] => false | _ => true end |}.

(** ** The memo of block token counts *)

Definition BLOCK_TOKEN_MEMO_MAX : Z := 2048.

Definition block_memo : Type := jsmap string num.

Definition estimateBlockTokens (blockText : string) (memo : block_memo) : num * block_memo :=
  match JsMap.get memo blockText with
  | Some cached => (cached, JsMap.touch memo blockText cached)
  | None =>
      let count := estimateTokens blockText in
      let memo :=
        if BLOCK_TOKEN_MEMO_MAX <=? JsMap.size memo then
          match JsMap.first_key memo with
          | Some oldest => JsMap.delete memo oldest
          | None => memo
          end
        else memo in
      (count, JsMap.set memo blockText count)
  end.

(** ** The reader *)

Record reader_state := {
  rs_lines : list string;
  rs_lineMeta : list SessionChunkLine;
  rs_flushedToolOnlyBlocks : list ordinal_range;
  rs_totalTokens : num;
  rs_messagesProcessed : Z;
  rs_lastOrdinal : Z;
  rs_highestScannedOrdinal : Z;
  rs_lastMessageId : string;
  rs_firstMessageId : string;
  rs_currentBlock : option ChunkBlock;
  rs_pendingNoiseMeta : list SessionChunkLine;
  rs_commitClusters : Z;
  rs_lastFlushedRole : string;
  rs_memo : block_memo
}.

Definition initial_state (startOrdinal : Z) (memo : block_memo) : reader_state :=
  {| rs_lines := []; rs_lineMeta := []; rs_flushedToolOnlyBlocks := [];
     rs_totalTokens := nofZ 0; rs_messagesProcessed := 0; rs_lastOrdinal := startOrdinal - 1;
     rs_highestScannedOrdinal := startOrdinal - 1; rs_lastMessageId := "";
     rs_firstMessageId := ""; rs_currentBlock := None; rs_pendingNoiseMeta := [];
     rs_commitClusters := 0; rs_lastFlushedRole := ""; rs_memo := memo |}.

Definition with_block (block : option ChunkBlock) (pending : list SessionChunkLine)
    (highest : Z) (memo : block_memo) (st : reader_state) : reader_state :=
  {| rs_lines := rs_lines st; rs_lineMeta := rs_lineMeta st;
     rs_flushedToolOnlyBlocks := rs_flushedToolOnlyBlocks st;
     rs_totalTokens := rs_totalTokens st; rs_messagesProcessed := rs_messagesProcessed st;
     rs_lastOrdinal := rs_lastOrdinal st; rs_highestScannedOrdinal := highest;
     rs_lastMessageId := rs_lastMessageId st; rs_firstMessageId := rs_firstMessageId st;
     rs_currentBlock := block; rs_pendingNoiseMeta := pending;
     rs_commitClusters := rs_commitClusters st; rs_lastFlushedRole := rs_lastFlushedRole st;
     rs_memo := memo |}.

Definition recordFilteredNoise (meta : SessionChunkLine) (st : reader_state) : reader_state :=
  with_block (rs_currentBlock st) (rs_pendingNoiseMeta st ++ [meta])
    (match rs_currentBlock st with
     | None => Z.max (rs_highestScannedOrdinal st) (scl_ordinal meta)
     | Some _ => rs_highestScannedOrdinal st
     end) (rs_memo st) st.

Definition last_ordinal (block : ChunkBlock) : Z :=
  match last (cb_meta block) with
  | Some meta => scl_ordinal meta
  | None => cb_endOrdinal block
  end.

Definition message_id_of (meta : option SessionChunkLine) : string :=
  match meta with Some meta => scl_messageId meta | None => "" end.

(** What flushing a block appends once the budget allows it. *)
Definition flushed (block : ChunkBlock) (blockTokens : num) (memo : block_memo)
    (st : reader_state) : reader_state :=
  let lastOrdinal := last_ordinal block in
  {| rs_lines := rs_lines st ++ [formatBlock block];
     rs_lineMeta := rs_lineMeta st ++ cb_meta block;
     rs_flushedToolOnlyBlocks :=
       rs_flushedToolOnlyBlocks st ++
       (if cb_isToolOnly block
        then [{| rg_start := cb_startOrdinal block; rg_end := cb_endOrdinal block |}] else []);
     rs_totalTokens := nadd (rs_totalTokens st) blockTokens;
     rs_messagesProcessed := rs_messagesProcessed st + lengthZ (cb_meta block);
     rs_lastOrdinal := lastOrdinal;
     rs_highestScannedOrdinal := Z.max (rs_highestScannedOrdinal st) lastOrdinal;
     rs_lastMessageId := message_id_of (last (cb_meta block));
     rs_firstMessageId :=
       (if String.eqb (rs_firstMessageId st) "" then message_id_of (head (cb_meta block))
        else rs_firstMessageId st);
     rs_currentBlock := None;
     rs_pendingNoiseMeta := rs_pendingNoiseMeta st;
     rs_commitClusters :=
       (if String.eqb (cb_role block) "A" && (0 <? lengthZ (cb_commitHashes block)) &&
           negb (String.eqb (rs_lastFlushedRole st) "A")
        then rs_commitClusters st + 1 else rs_commitClusters st);
     rs_lastFlushedRole := cb_role block;
     rs_memo := memo |}.

Definition flushCurrentBlock (tokenBudget : num) (st : reader_state) : reader_state * bool :=
  match rs_currentBlock st with
  | None => (st, true)
  | Some block =>
      let '(blockTokens, memo) := estimateBlockTokens (formatBlock block) (rs_memo st) in
      if nltb tokenBudget (nadd (rs_totalTokens st) blockTokens) &&
         nltb (nofZ 0) (rs_totalTokens st)
      then (with_block (rs_currentBlock st) (rs_pendingNoiseMeta st)
              (rs_highestScannedOrdinal st) memo st, false)
      else (flushed block blockTokens memo st, true)
  end.

Definition extend_block (block : ChunkBlock) (c : Contribution) (ordinal : Z)
    (metas : list SessionChunkLine) : ChunkBlock :=
  {| cb_role := cb_role block; cb_startOrdinal := cb_startOrdinal block;
     cb_endOrdinal := ordinal; cb_parts := cb_parts block ++ [ct_text c];
     cb_meta := cb_meta block ++ metas;
     cb_commitHashes := mergeCommitHashes (cb_commitHashes block) (ct_commitHashes c);
     cb_isToolOnly := if ct_narrative c then false else cb_isToolOnly block |}.

Definition open_block (c : Contribution) (ordinal : Z) (metas : list SessionChunkLine)
    : ChunkBlock :=
  {| cb_role := ct_role c;
     cb_startOrdinal := match head metas with Some meta => scl_ordinal meta | None => ordinal end;
     cb_endOrdinal := ordinal; cb_parts := [ct_text c]; cb_meta := metas;
     cb_commitHashes := ct_commitHashes c; cb_isToolOnly := negb (ct_narrative c) |}.

Definition meta_of (msg : RawMessage) : SessionChunkLine :=
  {| scl_ordinal := rm_ordinal msg; scl_messageId := rm_id msg |}.

(** An iteration; [false] is a [break]. *)
Definition read_message (tokenBudget : num) (msg : RawMessage) (st : reader_state)
    : reader_state * bool :=
  match contribution msg with
  | None => (recordFilteredNoise (meta_of msg) st, true)
  | Some c =>
      let metas := rs_pendingNoiseMeta st ++ [meta_of msg] in
      let opened st :=
        with_block (Some (open_block c (rm_ordinal msg) metas)) [] (rs_highestScannedOrdinal st)
          (rs_memo st) st in
      match rs_currentBlock st with
      | Some block =>
          if String.eqb (cb_role block) (ct_role c)
          then (with_block (Some (extend_block block c (rm_ordinal msg) metas)) []
                  (rs_highestScannedOrdinal st) (rs_memo st) st, true)
          else
            let '(st, ok) := flushCurrentBlock tokenBudget st in
            if negb ok then (st, false) else (opened st, true)
      | None => (opened st, true)
      end
  end.

Fixpoint read_loop (tokenBudget : num) (startOrdinal : Z) (eligibleEndOrdinal : option Z)
    (messages : list RawMessage) (st : reader_state) : reader_state :=
  match messages with
  | [] => st
  | msg :: messages =>
      if match eligibleEndOrdinal with Some e => e <=? rm_ordinal msg | None => false end then st
      else if rm_ordinal msg <? startOrdinal
      then read_loop tokenBudget startOrdinal eligibleEndOrdinal messages st
      else
        let '(st, continue) := read_message tokenBudget msg st in
        if continue then read_loop tokenBudget startOrdinal eligibleEndOrdinal messages st else st
  end.

(** The flush after the loop. *)
Definition finish (tokenBudget : num) (st : reader_state) : reader_state :=
  let '(st, ok) := flushCurrentBlock tokenBudget st in
  match last (rs_pendingNoiseMeta st) with
  | Some meta =>
      if ok then
        with_block (rs_currentBlock st) (rs_pendingNoiseMeta st)
          (Z.max (rs_highestScannedOrdinal st) (scl_ordinal meta)) (rs_memo st) st
      else st
  | None => st
  end.

(** The loop that merges adjacent ranges. *)
Definition merge_range (ranges : list ordinal_range) (range : ordinal_range)
    : list ordinal_range :=
  match last ranges with
  | Some prior =>
      if rg_start range =? rg_end prior + 1
      then take (length ranges - 1) ranges ++
           [{| rg_start := rg_start prior; rg_end := rg_end range |}]
      else ranges ++ [range]
  | None => ranges ++ [range]
  end.

Record SessionChunk := {
  ch_startIndex : Z;
  ch_endIndex : Z;
  ch_startMessageId : string;
  ch_endMessageId : string;
  ch_messageCount : Z;
  ch_tokenEstimate : num;
  ch_hasMore : bool;
  ch_text : string;
  ch_lines : list SessionChunkLine;
  ch_commitClusterCount : Z;
  ch_toolOnlyRanges : list ordinal_range;
  ch_completedToolArcs : list ordinal_range
}.

Definition completed_arcs (messages : list RawMessage) : list ordinal_range :=
  omap (fun arc => (fun res => {| rg_start := a_inv arc; rg_end := res |}) <$> a_res arc)
    (buildToolArcs messages).

Definition readSessionChunk (messages : list RawMessage) (absoluteMessageCount : option Z)
    (tokenBudget : num) (offset : Z) (eligibleEndOrdinal : option Z) (memo : block_memo)
    : SessionChunk * block_memo :=
  let totalMessageCount := default (lengthZ messages) absoluteMessageCount in
  let startOrdinal := Z.max 1 offset in
  let st :=
    finish tokenBudget
      (read_loop tokenBudget startOrdinal eligibleEndOrdinal messages
         (initial_state startOrdinal memo)) in
  ({| ch_startIndex := startOrdinal;
      ch_endIndex := rs_lastOrdinal st;
      ch_startMessageId := rs_firstMessageId st;
      ch_endMessageId := rs_lastMessageId st;
      ch_messageCount := rs_messagesProcessed st;
      ch_tokenEstimate := rs_totalTokens st;
      ch_hasMore :=
        (Z.max (rs_lastOrdinal st) (rs_highestScannedOrdinal st) <?
         match eligibleEndOrdinal with
         | Some e => Z.min (e - 1) totalMessageCount
         | None => totalMessageCount
         end);
      ch_text := join (str_of_unit 10) (rs_lines st);
      ch_lines := rs_lineMeta st;
      ch_commitClusterCount := rs_commitClusters st;
      ch_toolOnlyRanges := foldl merge_range [] (rs_flushedToolOnlyBlocks st);
      ch_completedToolArcs := completed_arcs messages |}, rs_memo st).

End reader.

(** ** Specification *)

Section spec.
Context `{Engine} `{Tokenizer} (ellipsis : string).

(** The messages a read looks at. *)
Definition is_eligible (startOrdinal : Z) (eligibleEndOrdinal : option Z) (m : RawMessage)
    : bool :=
  (startOrdinal <=? rm_ordinal m) &&
  match eligibleEndOrdinal with Some e => rm_ordinal m <? e | None => true end.

Definition eligible (startOrdinal : Z) (eligibleEndOrdinal : option Z)
    (messages : list RawMessage) : list RawMessage :=
  filter (fun m => is_eligible startOrdinal eligibleEndOrdinal m = true) messages.

(** The ordinals of the messages are consecutive from [first]. *)
Definition consecutive (first : Z) (messages : list RawMessage) : Prop :=
  rm_ordinal <$> messages = seqZ first (lengthZ messages).

Definition is_noise (m : RawMessage) : Prop := contribution ellipsis m = None.

Definition no_narrative (m : RawMessage) : Prop :=
  from_option (fun c => ct_narrative c = false) True (contribution ellipsis m).

Definition sum_tokens (blocks : list string) : num :=
  foldl nadd (nofZ 0) (estimateTokens <$> blocks).

(** Once something was counted, no block was added past the budget. *)
Definition within_budget (tokenBudget : num) (blocks : list string) : Prop :=
  ∀ pre b post, blocks = pre ++ b :: post → nltb (nofZ 0) (sum_tokens pre) = true →
    nltb tokenBudget (sum_tokens (pre ++ [b])) = false.

Definition memo_coherent (memo : block_memo) : Prop :=
  JsMap.wf memo ∧ JsMap.size memo ≤ BLOCK_TOKEN_MEMO_MAX ∧
  ∀ text n, JsMap.get memo text = Some n → n = estimateTokens text.

(** Ranges within [lo..hi], each at least [gap] after the end of the one before. *)
Fixpoint separated (gap lo hi : Z) (ranges : list ordinal_range) : Prop :=
  match ranges with
  | [] => True
  | r :: ranges => lo ≤ rg_start r ≤ rg_end r ∧ rg_end r ≤ hi ∧
                   separated gap (rg_end r + gap) hi ranges
  end.

Definition in_ranges (n : Z) (ranges : list ordinal_range) : Prop :=
  ∃ r, r ∈ ranges ∧ rg_start r ≤ n ≤ rg_end r.

End spec.

(** ** Lemmas: the memo *)

Section memo.
Context `{Engine} `{Tokenizer}.

Lemma delete_size (m : block_memo) k v :
  JsMap.wf m → JsMap.get m k = Some v → JsMap.size (JsMap.delete m k) = JsMap.size m - 1.
Proof.
  intros Hw Hg. assert (∀ l : block_memo, JsMap.size l = sumZ (fun _ => 1) l) as Hs.
  { intros l. unfold JsMap.size, lengthZ, sumZ. induction l; cbn; lia. }
  rewrite !Hs, sumZ_delete, Hg by done. lia.
Qed.

Lemma set_size_absent (m : block_memo) k v :
  k ∉ JsMap.keys m → JsMap.size (JsMap.set m k v) = JsMap.size m + 1.
Proof. intros Hk. rewrite set_absent by done. unfold JsMap.size. by rewrite lengthZ_app. Qed.

Lemma estimate_coherent text memo n memo' :
  memo_coherent memo → estimateBlockTokens text memo = (n, memo') →
  n = estimateTokens text ∧ memo_coherent memo'.
Proof.
  intros (Hw & Hsz & Hv). unfold estimateBlockTokens.
  destruct (JsMap.get memo text) as [c|] eqn:E.
  - intros [= <- <-]. split; [by apply Hv|]. split; [by apply wf_touch|]. split.
    + unfold JsMap.touch. rewrite set_size_absent; [by rewrite (delete_size _ _ c); [lia|..]|].
      rewrite keys_delete. intros [? _]%list_elem_of_filter. done.
    + intros text' n Hg. unfold JsMap.touch in Hg. destruct (decide (text = text')) as [<-|Hne].
      * rewrite get_set_eq in Hg. simplify_eq. by apply Hv.
      * rewrite get_set_ne, get_delete_ne in Hg by done. by apply Hv.
  - intros [= <- <-]. split; [done|].
    match goal with |- context [JsMap.set ?r text _] => set (room := r) end.
    assert (JsMap.wf room ∧ JsMap.size room < BLOCK_TOKEN_MEMO_MAX ∧
            text ∉ JsMap.keys room ∧
            ∀ t n, JsMap.get room t = Some n → JsMap.get memo t = Some n) as (Hw' & Hs' & Hn' & Hg').
    { apply get_None in E. unfold room. destruct (_ <=? _) eqn:El; [|split; [done|]; split; [lia|done]].
      unfold JsMap.first_key. destruct memo as [|[k v] memo]; [by vm_compute in El|].
      change (head (JsMap.keys ((k, v) :: memo))) with (Some k). cbv iota.
      assert (JsMap.get ((k, v) :: memo) k = Some v) as Hk by (cbn; by rewrite decide_True).
      split; [by apply wf_delete|]. split; [rewrite (delete_size _ k v) by done; lia|]. split.
      - rewrite keys_delete. intros [_ ?]%list_elem_of_filter. done.
      - intros t n. destruct (decide (k = t)) as [<-|?]; [by rewrite get_delete_eq|].
        by rewrite get_delete_ne. }
    split; [by apply wf_set|]. split; [rewrite set_size_absent by done; lia|].
    intros t n. destruct (decide (text = t)) as [<-|Hne]; [rewrite get_set_eq; congruence|].
    rewrite get_set_ne by done. intros ?%Hg'. by apply Hv.
Qed.

End memo.

(** ** Lemmas: eligible messages *)

Lemma consecutive_cons first m messages :
  consecutive first (m :: messages) → rm_ordinal m = first ∧ consecutive (first + 1) messages.
Proof.
  unfold consecutive, lengthZ. cbn [length fmap list_fmap]. rewrite seqZ_cons by lia.
  intros [= ? E]. split; [done|]. rewrite E. f_equal; lia.
Qed.

Lemma consecutive_lookup first messages i m :
  consecutive first messages → messages !! i = Some m → rm_ordinal m = first + Z.of_nat i.
Proof.
  intros Hc Hm. assert ((rm_ordinal <$> messages) !! i = Some (rm_ordinal m)) as Hl
    by (by rewrite list_lookup_fmap, Hm).
  rewrite Hc in Hl. by apply lookup_seqZ in Hl as [-> _].
Qed.

Lemma eligible_past start e messages first :
  consecutive first messages → e ≤ first → eligible start (Some e) messages = [].
Proof.
  intros Hc He. apply filter_none. intros m Hm Hlt. unfold is_eligible in Hlt. bool_hyps.
  apply list_elem_of_lookup in Hm as [i Hi]. apply (consecutive_lookup _ _ _ _ Hc) in Hi. lia.
Qed.

Lemma eligible_above first start e messages :
  consecutive first messages → start ≤ first → consecutive first (eligible start e messages).
Proof.
  revert first. induction messages as [|m messages IH]; intros first Hc Hf; [done|].
  pose proof Hc as [Hm Hc']%consecutive_cons. unfold eligible.
  destruct (is_eligible start e m) eqn:Ee.
  - rewrite filter_cons_True by done. specialize (IH _ Hc' ltac:(lia)).
    unfold consecutive, lengthZ in *. cbn [fmap list_fmap length]. unfold eligible in IH.
    rewrite IH, Hm. rewrite (seqZ_cons first) by lia. f_equal. f_equal; lia.
  - rewrite filter_cons_False by congruence. unfold is_eligible in Ee.
    destruct e as [e|]; [|rewrite andb_true_r in Ee; lia].
    pose proof (eligible_past start e messages (first + 1) Hc' ltac:(lia)) as E.
    unfold eligible in E. by rewrite E.
Qed.

Lemma eligible_consecutive first start e messages :
  consecutive first messages → first ≤ start → consecutive start (eligible start e messages).
Proof.
  revert first. induction messages as [|m messages IH]; intros first Hc Hf; [done|].
  destruct (decide (first = start)) as [->|Hne]; [by apply eligible_above|].
  apply consecutive_cons in Hc as [Hm Hc']. unfold eligible.
  rewrite filter_cons_False; [apply (IH (first + 1)); [done|lia]|].
  unfold is_eligible. intros E. bool_hyps. lia.
Qed.

(** The eligible messages reach the last message or the eligible end. *)
Lemma eligible_reach first start e messages :
  consecutive first messages → first ≤ start →
  match e with
  | Some e => Z.min (e - 1) (first - 1 + lengthZ messages)
  | None => first - 1 + lengthZ messages
  end ≤ start - 1 + lengthZ (eligible start e messages).
Proof.
  intros Hm Hf. set (reach := match e with Some _ => _ | None => _ end).
  destruct (decide (reach ≤ start - 1)) as [?|Hgt]; [unfold lengthZ; lia|].
  assert (∃ x, messages !! Z.to_nat (reach - first) = Some x) as [x Hx].
  { apply lookup_lt_is_Some. unfold reach, lengthZ in *. destruct e; lia. }
  pose proof (consecutive_lookup _ _ _ _ Hm Hx) as Ho.
  assert (x ∈ eligible start e messages) as Hin.
  { apply list_elem_of_filter. split; [|by eapply list_elem_of_lookup_2].
    unfold is_eligible, reach in *. destruct e; rewrite andb_true_iff; (split; [lia|]);
      [lia|done]. }
  apply list_elem_of_lookup in Hin as [i Hi].
  pose proof (consecutive_lookup _ _ _ _ (eligible_consecutive _ _ e _ Hm Hf) Hi) as Ho'.
  apply lookup_lt_Some in Hi. unfold lengthZ. lia.
Qed.

(** ** Lemmas: ranges *)

Lemma separated_snoc gap lo hi hi' ranges r :
  separated gap lo hi ranges → hi ≤ hi' → hi + gap ≤ rg_start r ≤ rg_end r → lo ≤ rg_start r →
  rg_end r ≤ hi' → separated gap lo hi' (ranges ++ [r]).
Proof.
  revert lo. induction ranges as [|x ranges IH]; intros lo; cbn; [intuition lia|].
  intros (? & ? & ?) ???. split; [lia|]. split; [lia|]. apply IH; (done || lia).
Qed.

Lemma separated_weaken gap lo hi hi' ranges :
  separated gap lo hi ranges → hi ≤ hi' → separated gap lo hi' ranges.
Proof.
  revert lo. induction ranges as [|x ranges IH]; intros lo; cbn; [done|].
  intros (? & ? & ?) ?. split; [lia|]. split; [lia|]. by apply IH.
Qed.

Lemma separated_end gap lo hi l r : separated gap lo hi l → r ∈ l → rg_end r ≤ hi.
Proof.
  revert lo. induction l as [|y l IH]; intros lo; [by intros _ ?%elem_of_nil|].
  cbn. intros (? & ? & Hs) [->|?]%elem_of_cons; [done|]. by eapply IH.
Qed.

Lemma separated_last gap lo l p e :
  0 ≤ gap → separated gap lo (rg_end p) (l ++ [p]) → rg_end p ≤ e →
  lo ≤ rg_start p ≤ rg_end p ∧
  separated gap lo e (l ++ [{| rg_start := rg_start p; rg_end := e |}]).
Proof.
  intros Hg. revert lo. induction l as [|x l IH]; intros lo; cbn; [intuition lia|].
  intros (? & ? & Hs) ?. destruct (IH _ Hs) as [? ?]; [done|].
  split; [lia|]. split; [lia|]. split; [lia|done].
Qed.

Lemma in_ranges_app n l1 l2 : in_ranges n (l1 ++ l2) ↔ in_ranges n l1 ∨ in_ranges n l2.
Proof. unfold in_ranges. set_solver. Qed.

Lemma in_ranges_one n r : in_ranges n [r] ↔ rg_start r ≤ n ≤ rg_end r.
Proof.
  unfold in_ranges. split; [intros (? & ->%list_elem_of_singleton & ?); done|].
  intros. exists r. split; [by apply list_elem_of_singleton|done].
Qed.

Lemma in_ranges_cons n r l : in_ranges n (r :: l) ↔ rg_start r ≤ n ≤ rg_end r ∨ in_ranges n l.
Proof. by rewrite (in_ranges_app n [r] l), in_ranges_one. Qed.

(** A step of the merge keeps the ranges apart and covers the same ordinals. *)
Lemma merge_range_spec lo l p r :
  separated 2 lo (rg_end p) (l ++ [p]) → rg_end p + 1 ≤ rg_start r ≤ rg_end r →
  ∃ l' p', merge_range (l ++ [p]) r = l' ++ [p'] ∧ rg_end p' = rg_end r ∧
    separated 2 lo (rg_end p') (l' ++ [p']) ∧
    ∀ n, in_ranges n (l' ++ [p']) ↔ in_ranges n (l ++ [p]) ∨ rg_start r ≤ n ≤ rg_end r.
Proof.
  intros Hs Hr. pose proof (separated_last 2 lo l p (rg_end p) ltac:(lia) Hs ltac:(lia)) as [Hp _].
  unfold merge_range. rewrite last_snoc. destruct (_ =? _) eqn:E.
  - exists l, {| rg_start := rg_start p; rg_end := rg_end r |}. cbn.
    rewrite length_app, take_app_le, take_all_same by (cbn; lia).
    split; [done|]. split; [done|]. split; [apply (separated_last 2 lo l p); (done || lia)|].
    intros n. rewrite !in_ranges_app, !in_ranges_one. cbn. intuition lia.
  - exists (l ++ [p]), r. split; [done|]. split; [done|]. split.
    + eapply separated_snoc; [done|lia..].
    + intros n. by rewrite in_ranges_app, in_ranges_one.
Qed.

Lemma merge_ranges_spec lo hi ranges :
  separated 1 lo hi ranges →
  separated 2 lo hi (foldl merge_range [] ranges) ∧
  ∀ n, in_ranges n (foldl merge_range [] ranges) ↔ in_ranges n ranges.
Proof.
  assert (∀ ranges l p, separated 2 lo (rg_end p) (l ++ [p]) → rg_end p ≤ hi →
    separated 1 (rg_end p + 1) hi ranges →
    separated 2 lo hi (foldl merge_range (l ++ [p]) ranges) ∧
    ∀ n, in_ranges n (foldl merge_range (l ++ [p]) ranges) ↔
         in_ranges n (l ++ [p]) ∨ in_ranges n ranges) as Hall.
  { clear ranges. induction ranges as [|r ranges IH]; intros l p Hs Hp; cbn [foldl separated].
    - intros _. split; [by eapply separated_weaken|]. intros n. unfold in_ranges at 3. set_solver.
    - intros (Hr & Hh & Hrs). destruct (merge_range_spec lo l p r Hs Hr) as (l' & p' & -> & He & Hs' & Hn).
      rewrite <- He in Hrs. destruct (IH l' p' Hs') as [Ha Hb]; [lia|done|]. split; [done|].
      intros n. rewrite Hb, Hn, (in_ranges_cons n r). tauto. }
  destruct ranges as [|r ranges]; [done|]. cbn [separated]. intros (Hr & Hh & Hs).
  cbn [foldl]. change (merge_range [] r) with ([] ++ [r]).
  destruct (Hall ranges [] r) as [Ha Hb]; [cbn; lia|lia|done|]. split; [done|].
  intros n. rewrite Hb. cbn [app]. by rewrite (in_ranges_cons n r ranges), in_ranges_one.
Qed.

(** ** Lemmas: the reader's invariant *)

#[local] Arguments sum_tokens : simpl never.
#[local] Arguments nadd : simpl never.
#[local] Arguments nltb : simpl never.

Section reader_invariant.
Context `{Engine} `{Tokenizer} (ellipsis : string) (tokenBudget : num) (start : Z).

Definition block_meta (st : reader_state) : list SessionChunkLine :=
  match rs_currentBlock st with Some b => cb_meta b | None => [] end.

(** The state after the eligible messages [done] were looked at. *)
Record reader_inv (done : list RawMessage) (st : reader_state) : Prop := {
  iv_meta : rs_lineMeta st ++ block_meta st ++ rs_pendingNoiseMeta st = meta_of <$> done;
  iv_last : rs_lastOrdinal st = start - 1 + lengthZ (rs_lineMeta st);
  iv_processed : rs_messagesProcessed st = lengthZ (rs_lineMeta st);
  iv_lastId : rs_lastMessageId st = message_id_of (last (rs_lineMeta st));
  iv_pending : ∀ i m, done !! i = Some m →
    (length (rs_lineMeta st) + length (block_meta st) ≤ i)%nat → is_noise ellipsis m;
  iv_highest : start - 1 ≤ rs_highestScannedOrdinal st ≤ start - 1 + lengthZ done;
  iv_scanned : ∀ i m, done !! i = Some m → start + Z.of_nat i ≤ rs_highestScannedOrdinal st →
    (i < length (rs_lineMeta st))%nat ∨ is_noise ellipsis m;
  iv_block : ∀ b, rs_currentBlock st = Some b →
    cb_meta b ≠ [] ∧ cb_startOrdinal b = start + lengthZ (rs_lineMeta st) ∧
    cb_endOrdinal b = cb_startOrdinal b + lengthZ (cb_meta b) - 1 ∧
    (cb_isToolOnly b = true → ∀ i m, done !! i = Some m →
       cb_startOrdinal b ≤ start + Z.of_nat i ≤ cb_endOrdinal b → no_narrative ellipsis m);
  iv_ranges : separated 1 start (rs_lastOrdinal st) (rs_flushedToolOnlyBlocks st);
  iv_narrative : ∀ i m, done !! i = Some m →
    in_ranges (start + Z.of_nat i) (rs_flushedToolOnlyBlocks st) → no_narrative ellipsis m;
  iv_lines : rs_lines st = [] ↔ rs_lineMeta st = [];
  iv_tokens : rs_totalTokens st = sum_tokens (rs_lines st);
  iv_budget : within_budget tokenBudget (rs_lines st);
  iv_memo : memo_coherent (rs_memo st)
}.

(** Before the first flush nothing but noise was seen without a block. *)
Definition unopened (done : list RawMessage) (st : reader_state) : Prop :=
  rs_currentBlock st = None →
  rs_lines st = [] ∧ rs_highestScannedOrdinal st = start - 1 + lengthZ done.

Lemma noise_no_narrative m : is_noise ellipsis m → no_narrative ellipsis m.
Proof. unfold is_noise, no_narrative. by intros ->. Qed.

Lemma inv_lengths done st :
  reader_inv done st →
  (length (rs_lineMeta st) + length (block_meta st) + length (rs_pendingNoiseMeta st)
   = length done)%nat.
Proof.
  intros Hi. apply iv_meta in Hi. apply (f_equal length) in Hi.
  rewrite !length_app, length_fmap in Hi. lia.
Qed.

(** Metadata at a position has its ordinal. *)
Lemma meta_lookup done st i meta :
  reader_inv done st → consecutive start done →
  (rs_lineMeta st ++ block_meta st ++ rs_pendingNoiseMeta st) !! i = Some meta →
  scl_ordinal meta = start + Z.of_nat i.
Proof.
  intros Hi Hc. rewrite (iv_meta _ _ Hi), list_lookup_fmap.
  intros (m & Hm & ->)%fmap_Some. by apply (consecutive_lookup _ _ _ _ Hc).
Qed.

Lemma sum_tokens_snoc blocks b : sum_tokens (blocks ++ [b]) = nadd (sum_tokens blocks) (estimateTokens b).
Proof. unfold sum_tokens. by rewrite fmap_app, foldl_app. Qed.

Lemma within_budget_snoc blocks b :
  within_budget tokenBudget blocks →
  (nltb (nofZ 0) (sum_tokens blocks) = true →
   nltb tokenBudget (sum_tokens (blocks ++ [b])) = false) →
  within_budget tokenBudget (blocks ++ [b]).
Proof.
  intros Hb Hl pre x post E. destruct (decide (post = [])) as [->|Hp].
  - apply app_inj_tail in E as [<- <-]. done.
  - destruct (exists_last Hp) as (post' & y & ->).
    rewrite app_comm_cons, app_assoc in E. apply app_inj_tail in E as [-> _].
    by eapply Hb.
Qed.

Lemma inv_initial memo :
  memo_coherent memo → reader_inv [] (initial_state start memo) ∧ unopened [] (initial_state start memo).
Proof.
  intros Hm. split; [|by intros _; split; [|unfold lengthZ; cbn; lia]].
  constructor; unfold lengthZ; cbn; try done; try lia.
  intros [] ? ? E; done.
Qed.

Lemma inv_noise done st m :
  reader_inv done st → unopened done st → is_noise ellipsis m →
  rm_ordinal m = start + lengthZ done →
  reader_inv (done ++ [m]) (recordFilteredNoise (meta_of m) st) ∧
  unopened (done ++ [m]) (recordFilteredNoise (meta_of m) st).
Proof.
  intros Hi Hu Hn Ho. pose proof (inv_lengths _ _ Hi) as Hlen.
  unfold recordFilteredNoise, unopened. split.
  2:{ cbn. intros Hc. destruct (Hu Hc) as [Hl Hh]. rewrite Hc, Hh, Ho, lengthZ_app.
      split; [done|]. cbn. unfold lengthZ. cbn. lia. }
  destruct Hi. unfold block_meta in *. constructor; cbn in *; try done.
  - rewrite fmap_app, <- iv_meta0, !app_assoc. done.
  - intros i x [[? ?]|[-> <-]]%lookup_snoc_Some; [eauto|done].
  - rewrite lengthZ_app. unfold lengthZ in *. cbn. case_match; lia.
  - intros i x [[Hl Hx]|[-> <-]]%lookup_snoc_Some; [|by right].
    destruct (rs_currentBlock st) eqn:Eb; [by apply iv_scanned0|]. intros _.
    destruct (Hu Eb) as [_ Hh]. apply (iv_scanned0 _ _ Hx). rewrite Hh. unfold lengthZ. lia.
  - intros b Hb. destruct (iv_block0 b Hb) as (H1 & H2 & H3 & H4). repeat (split; [done|]).
    intros Ht i x [[? ?]|[-> <-]]%lookup_snoc_Some; [eauto|]. intros _. by apply noise_no_narrative.
  - intros i x [[? ?]|[-> <-]]%lookup_snoc_Some; [eauto|]. intros _. by apply noise_no_narrative.
Qed.

(** A block ends at the position its metadata reaches. *)
Lemma block_last_ordinal done st b :
  reader_inv done st → consecutive start done → rs_currentBlock st = Some b →
  last_ordinal b = start - 1 + lengthZ (rs_lineMeta st ++ cb_meta b).
Proof.
  intros Hi Hc Eb. destruct (iv_block _ _ Hi b Eb) as [Hb _].
  unfold last_ordinal. destruct (exists_last Hb) as (ms & x & E). rewrite E, last_snoc.
  rewrite (meta_lookup done st (length (rs_lineMeta st) + length ms) x Hi Hc).
  - rewrite !lengthZ_app. unfold lengthZ. cbn. lia.
  - unfold block_meta. rewrite Eb, E, lookup_app_r by lia. rewrite <- app_assoc.
    rewrite lookup_app_r by lia.
    by replace (_ + _ - _ - _)%nat with 0%nat by lia.
Qed.

Lemma block_sizes done st b :
  reader_inv done st → rs_currentBlock st = Some b →
  lengthZ (rs_lineMeta st ++ cb_meta b) = lengthZ (rs_lineMeta st) + lengthZ (cb_meta b) ∧
  0 ≤ lengthZ (rs_lineMeta st) ∧ 0 < lengthZ (cb_meta b) ∧
  (length (rs_lineMeta st) + length (cb_meta b) ≤ length done)%nat.
Proof.
  intros Hi Eb. pose proof (inv_lengths _ _ Hi) as Hlen. unfold block_meta in Hlen.
  rewrite Eb in Hlen. destruct (iv_block _ _ Hi b Eb) as [Hb _].
  split; [apply lengthZ_app|]. split; [apply lengthZ_nonneg|]. split; [|lia].
  unfold lengthZ. destruct (cb_meta b); [done|cbn; lia].
Qed.

Lemma inv_flush done st st' ok :
  reader_inv done st → consecutive start done → flushCurrentBlock tokenBudget st = (st', ok) →
  reader_inv done st' ∧ (rs_currentBlock st ≠ None → rs_lines st' ≠ []) ∧
  (ok = true → rs_currentBlock st' = None) ∧
  rs_pendingNoiseMeta st' = rs_pendingNoiseMeta st.
Proof.
  intros Hi Hc. pose proof (inv_lengths _ _ Hi) as Hlen. unfold flushCurrentBlock.
  destruct (rs_currentBlock st) as [b|] eqn:Eb; [|intros [= <- <-]; done].
  destruct (estimateBlockTokens _ _) as [n memo] eqn:Ee.
  apply (estimate_coherent _ _ _ _ (iv_memo _ _ Hi)) in Ee as [-> Hm].
  destruct (iv_block _ _ Hi b Eb) as (Hb1 & Hb2 & Hb3 & Hb4).
  destruct (_ && _) eqn:Ebud.
  - intros [= <- <-]. bool_hyps. split; [|split; [|done]].
    + destruct Hi. unfold block_meta in *. rewrite Eb in *. by constructor; cbn; rewrite ?Eb.
    + intros _ El. cbn in El. rewrite (iv_tokens _ _ Hi), El in H2. by vm_compute in H2.
  - intros [= <- <-]. split; [|split; [by intros _ [_ ?]%app_nil|done]].
    pose proof (block_last_ordinal _ _ _ Hi Hc Eb) as Hl.
    destruct (block_sizes _ _ _ Hi Eb) as (Hz & Hnn & Hpos & Hle).
    destruct Hi. unfold block_meta in *. rewrite Eb in *. constructor; cbn.
    + rewrite <- iv_meta0. by rewrite <- app_assoc.
    + done.
    + by rewrite lengthZ_app, iv_processed0.
    + destruct (exists_last Hb1) as (ms & x & E). by rewrite E, app_assoc, !last_snoc.
    + intros i x Hx Hii. apply (iv_pending0 i x Hx). rewrite length_app in Hii. cbn in Hii. lia.
    + unfold lengthZ in *. lia.
    + intros i x Hx Hs. rewrite length_app. destruct (decide (start + Z.of_nat i ≤ rs_highestScannedOrdinal st)).
      * destruct (iv_scanned0 i x Hx) as [?|?]; [done|left; lia|by right].
      * left. unfold lengthZ in *. lia.
    + done.
    + rewrite Hl. destruct (cb_isToolOnly b).
      * eapply separated_snoc; [exact iv_ranges0|cbn; lia..].
      * rewrite app_nil_r. eapply separated_weaken; [done|lia].
    + intros i x Hx [Hr|Hr]%in_ranges_app; [by apply (iv_narrative0 i)|].
      destruct (cb_isToolOnly b).
      * apply in_ranges_one in Hr. by apply (Hb4 eq_refl i).
      * by destruct Hr as (? & ?%elem_of_nil & _).
    + split; [by intros [_ ?]%app_nil|intros [_ ?]%app_nil; done].
    + by rewrite sum_tokens_snoc, iv_tokens0.
    + apply within_budget_snoc; [done|]. rewrite sum_tokens_snoc, <- iv_tokens0. intros Hp.
      rewrite Hp, andb_true_r in Ebud. done.
    + done.
Qed.

Lemma consecutive_snoc done m :
  consecutive start (done ++ [m]) → consecutive start done ∧ rm_ordinal m = start + lengthZ done.
Proof.
  intros Hc. split.
  - unfold consecutive in *. rewrite fmap_app, lengthZ_app, seqZ_app in Hc by (unfold lengthZ; lia).
    by apply app_inj_tail in Hc as [? _].
  - apply (consecutive_lookup start _ (length done) m Hc).
    rewrite lookup_app_r, Nat.sub_diag by lia. done.
Qed.

Lemma inv_open done st m c :
  reader_inv done st → consecutive start (done ++ [m]) → rs_currentBlock st = None →
  contribution ellipsis m = Some c →
  reader_inv (done ++ [m])
    (with_block (Some (open_block c (rm_ordinal m) (rs_pendingNoiseMeta st ++ [meta_of m]))) []
       (rs_highestScannedOrdinal st) (rs_memo st) st).
Proof.
  intros Hi [Hc Ho]%consecutive_snoc Hb Ec. pose proof (inv_lengths _ _ Hi) as Hlen.
  assert (match head (rs_pendingNoiseMeta st ++ [meta_of m]) with
          | Some meta => scl_ordinal meta
          | None => rm_ordinal m
          end = start + lengthZ (rs_lineMeta st)) as Hstart.
  { destruct (rs_pendingNoiseMeta st) as [|x pending] eqn:Ep; cbn.
    - rewrite Ho. unfold block_meta in Hlen. rewrite Hb in Hlen. cbn in Hlen. unfold lengthZ. lia.
    - apply (meta_lookup done st (length (rs_lineMeta st)) x Hi Hc).
      unfold block_meta. by rewrite Hb, lookup_app_r, Nat.sub_diag, Ep by lia. }
  destruct Hi. unfold block_meta in *. rewrite Hb in *. constructor; cbn; try done.
  - by rewrite fmap_app, <- iv_meta0, app_nil_r, <- !app_assoc.
  - intros i x Hx Hii. apply lookup_lt_Some in Hx.
    rewrite !length_app in *. cbn in *. lia.
  - rewrite lengthZ_app. unfold lengthZ in *. cbn. lia.
  - intros i x [[? Hx]|[-> <-]]%lookup_snoc_Some; [by apply iv_scanned0|]. unfold lengthZ in *. lia.
  - intros b [= <-]. cbn. rewrite Hstart, lengthZ_app. split; [by intros [_ ?]%app_nil|].
    split; [done|]. split.
    + rewrite Ho. cbn in Hlen. unfold lengthZ. cbn. lia.
    + intros Hn i x [[? Hx]|[-> <-]]%lookup_snoc_Some.
      * intros [? _]. apply noise_no_narrative, (iv_pending0 i x Hx). unfold lengthZ in *. cbn. lia.
      * intros _. unfold no_narrative. rewrite Ec. by apply negb_true_iff in Hn.
  - intros i x [[? Hx]|[-> <-]]%lookup_snoc_Some; [by apply iv_narrative0|].
    intros (r & Hr & Hr'). exfalso. apply (separated_end _ _ _ _ _ iv_ranges0) in Hr.
    cbn in Hlen. unfold lengthZ in *. lia.
Qed.

Lemma inv_extend done st m c b :
  reader_inv done st → consecutive start (done ++ [m]) → rs_currentBlock st = Some b →
  contribution ellipsis m = Some c →
  reader_inv (done ++ [m])
    (with_block (Some (extend_block b c (rm_ordinal m) (rs_pendingNoiseMeta st ++ [meta_of m]))) []
       (rs_highestScannedOrdinal st) (rs_memo st) st).
Proof.
  intros Hi [Hc Ho]%consecutive_snoc Hb Ec. pose proof (inv_lengths _ _ Hi) as Hlen.
  destruct (iv_block _ _ Hi b Hb) as (Hb1 & Hb2 & Hb3 & Hb4).
  destruct Hi. unfold block_meta in *. rewrite Hb in *. constructor; cbn; try done.
  - by rewrite fmap_app, <- iv_meta0, app_nil_r, <- !app_assoc.
  - intros i x Hx Hii. apply lookup_lt_Some in Hx. rewrite !length_app in *. cbn in *. lia.
  - rewrite lengthZ_app. unfold lengthZ in *. cbn. lia.
  - intros i x [[? Hx]|[-> <-]]%lookup_snoc_Some; [by apply iv_scanned0|]. unfold lengthZ in *. lia.
  - intros b' [= <-]. cbn. rewrite !lengthZ_app. split; [by intros [_ [_ ?]%app_nil]%app_nil|].
    split; [done|]. split.
    + rewrite Ho. unfold lengthZ in *. cbn. lia.
    + intros Hn i x. destruct (ct_narrative c) eqn:En; [done|].
      intros [[? Hx]|[-> <-]]%lookup_snoc_Some [Hlo Hhi].
      * destruct (decide (start + Z.of_nat i ≤ cb_endOrdinal b)); [by apply (Hb4 Hn i)|].
        apply noise_no_narrative, (iv_pending0 i x Hx). unfold lengthZ in *. lia.
      * unfold no_narrative. by rewrite Ec.
  - intros i x [[? Hx]|[-> <-]]%lookup_snoc_Some; [by apply iv_narrative0|].
    intros (r & Hr & Hr'). exfalso. apply (separated_end _ _ _ _ _ iv_ranges0) in Hr.
    unfold lengthZ in *. lia.
Qed.

(** An iteration that continues keeps the invariant over one more message; one
    that breaks keeps it and something was counted. *)
Lemma inv_read done st m st' continue :
  reader_inv done st → unopened done st → consecutive start (done ++ [m]) →
  read_message ellipsis tokenBudget m st = (st', continue) →
  if continue then reader_inv (done ++ [m]) st' ∧ unopened (done ++ [m]) st'
  else reader_inv done st' ∧ unopened done st' ∧ rs_lines st' ≠ [].
Proof.
  intros Hi Hu Hc. pose proof Hc as [Hc' Ho]%consecutive_snoc. unfold read_message.
  destruct (contribution ellipsis m) as [c|] eqn:Ec.
  2:{ intros [= <- <-]. by apply inv_noise. }
  destruct (rs_currentBlock st) as [b|] eqn:Eb.
  - case_match; [intros [= <- <-]; split; [by apply inv_extend|done]|].
    destruct (flushCurrentBlock tokenBudget st) as [st1 ok] eqn:Ef.
    destruct (inv_flush _ _ _ _ Hi Hc' Ef) as (Hi1 & Hl1 & Hn1 & Hp1).
    destruct ok; cbn; intros [= <- <-].
    + rewrite <- Hp1. split; [|done]. apply inv_open; auto.
    + split; [done|]. split; [|apply Hl1; by rewrite Eb].
      unfold flushCurrentBlock in Ef. rewrite Eb in Ef.
      destruct (estimateBlockTokens _ _). case_match; [|done]. injection Ef as <-. intros Hn.
      cbn in Hn. congruence.
  - intros [= <- <-]. split; [by apply inv_open|done].
Qed.

Lemma read_loop_inv e messages first done st :
  consecutive first messages → reader_inv done st → unopened done st →
  consecutive start (done ++ eligible start e messages) →
  let st' := read_loop ellipsis tokenBudget start e messages st in
  ∃ done' rest, done ++ eligible start e messages = done' ++ rest ∧
    reader_inv done' st' ∧ unopened done' st' ∧ (rest = [] ∨ rs_lines st' ≠ []).
Proof.
  cbv zeta. revert first done st.
  induction messages as [|m messages IH]; intros first done st Hm Hi Hu Hc.
  { exists done, []. eauto. }
  pose proof Hm as [Ho Hm']%consecutive_cons. cbn [read_loop].
  destruct (match e with Some e => e <=? rm_ordinal m | None => false end) eqn:Ee.
  { destruct e as [e|]; [|done]. rewrite (eligible_past start e _ first Hm ltac:(lia)) in *.
    exists done, []. eauto. }
  destruct (rm_ordinal m <? start) eqn:El.
  - unfold eligible in *. rewrite filter_cons_False in * by (unfold is_eligible; intros ?; bool_hyps; lia).
    by apply (IH (first + 1)).
  - assert (eligible start e (m :: messages) = m :: eligible start e messages) as E.
    { unfold eligible. rewrite filter_cons_True; [done|]. unfold is_eligible.
      destruct e; [rewrite andb_true_iff; lia|rewrite andb_true_r; lia]. }
    rewrite E in *.
    assert (consecutive start (done ++ [m])) as Hc1.
    { rewrite cons_middle, app_assoc in Hc. unfold consecutive in *.
      rewrite fmap_app, lengthZ_app, seqZ_app in Hc by (unfold lengthZ; lia).
      apply app_inj_1 in Hc as [? _]; [done|]. rewrite length_fmap, length_seqZ. unfold lengthZ. lia. }
    destruct (read_message _ _ m st) as [st1 continue] eqn:Er.
    apply (inv_read done st m st1 continue Hi Hu Hc1) in Er. destruct continue.
    + destruct Er as [Hi1 Hu1]. rewrite cons_middle, app_assoc in Hc |- *.
      by apply (IH (first + 1)).
    + destruct Er as (Hi1 & Hu1 & Hl). exists done, (m :: eligible start e messages). eauto.
Qed.

(** The last message looked at has been scanned when every block was flushed. *)
Lemma finish_inv done rest st :
  reader_inv done st → unopened done st → consecutive start done →
  (rest = [] ∨ rs_lines st ≠ []) →
  let st' := finish tokenBudget st in
  reader_inv done st' ∧
  (rs_lines st' ≠ [] ∨
   rest = ([] : list RawMessage)) ∧
  (rs_lines st' ≠ [] ∨
   start - 1 + lengthZ done ≤ Z.max (rs_lastOrdinal st') (rs_highestScannedOrdinal st')).
Proof.
  intros Hi Hu Hc Hr. unfold finish.
  destruct (flushCurrentBlock tokenBudget st) as [st1 ok] eqn:Ef.
  destruct (inv_flush _ _ _ _ Hi Hc Ef) as (Hi1 & Hl1 & Hn1 & Hp1).
  assert (rs_lines st1 ≠ [] ∨ rest = []) as Hlines.
  { destruct Hr as [->|Hr]; [by right|]. left. apply Hl1. intros Hn. by destruct (Hu Hn). }
  assert (∀ highest, rs_highestScannedOrdinal st1 ≤ highest ≤ start - 1 + lengthZ done → ok = true →
    reader_inv done (with_block (rs_currentBlock st1) (rs_pendingNoiseMeta st1) highest
                       (rs_memo st1) st1)) as Hup.
  { intros h Hh Hok. specialize (Hn1 Hok). destruct Hi1. unfold block_meta in *.
    rewrite Hn1 in *. constructor; cbn; try done; [lia|].
    intros i m Hm _. destruct (decide (i < length (rs_lineMeta st1))%nat); [by left|right].
    apply (iv_pending0 i m Hm). cbn. lia. }
  pose proof (inv_lengths _ _ Hi1) as Hlen.
  destruct (last (rs_pendingNoiseMeta st1)) as [meta|] eqn:Elast.
  - assert (scl_ordinal meta = start - 1 + lengthZ done) as Hlast.
    { apply last_Some in Elast as (ms & Ems).
      rewrite (meta_lookup done st1 (length (rs_lineMeta st1) + length (block_meta st1) + length ms)
                 meta Hi1 Hc).
      - rewrite Ems, length_app in Hlen. cbn in Hlen. unfold lengthZ. lia.
      - rewrite app_assoc, lookup_app_r by (rewrite length_app; lia).
        rewrite Ems, lookup_app_r by (rewrite length_app; lia). rewrite length_app.
        by replace (_ - _ - _)%nat with 0%nat by lia. }
    pose proof (iv_highest _ _ Hi1). destruct ok.
    + split; [apply Hup; [lia|done]|]. split; [done|]. right. cbn. lia.
    + assert (rs_lines st1 ≠ []) as Hne.
      { apply Hl1. intros Hn. unfold flushCurrentBlock in Ef. rewrite Hn in Ef. done. }
      split; [done|]. by split; left.
  - split; [done|]. split; [done|]. apply last_None in Elast. destruct ok.
    + right. rewrite (iv_last _ _ Hi1). unfold block_meta in Hlen. rewrite (Hn1 eq_refl), Elast in Hlen.
      cbn in Hlen. unfold lengthZ. lia.
    + left. apply Hl1. intros Hn. unfold flushCurrentBlock in Ef. rewrite Hn in Ef. done.
Qed.

End reader_invariant.

Lemma read_final `{Engine} `{Tokenizer} ellipsis tokenBudget start e messages first memo :
  consecutive first messages → first ≤ start → memo_coherent memo →
  let st := finish tokenBudget
              (read_loop ellipsis tokenBudget start e messages (initial_state start memo)) in
  ∃ done rest, eligible start e messages = done ++ rest ∧
    consecutive start done ∧ reader_inv ellipsis tokenBudget start done st ∧
    (rs_lines st ≠ [] ∨
     rest = [] ∧
     start - 1 + lengthZ done ≤ Z.max (rs_lastOrdinal st) (rs_highestScannedOrdinal st)).
Proof.
  intros Hm Hf Hmemo st.
  destruct (inv_initial ellipsis tokenBudget start memo Hmemo) as [Hi Hu].
  pose proof (eligible_consecutive first start e messages Hm Hf) as Hc.
  destruct (read_loop_inv ellipsis tokenBudget start e messages first [] _ Hm Hi Hu Hc)
    as (done & rest & E & Hi1 & Hu1 & Hr). cbn [app] in E.
  assert (consecutive start done) as Hcd.
  { unfold consecutive in *. rewrite E, fmap_app, lengthZ_app, seqZ_app in Hc by (unfold lengthZ; lia).
    apply app_inj_1 in Hc as [? _]; [done|]. rewrite length_fmap, length_seqZ. unfold lengthZ. lia. }
  destruct (finish_inv ellipsis tokenBudget start done rest _ Hi1 Hu1 Hcd Hr) as (Hi2 & H1 & H2).
  exists done, rest. split; [done|]. split; [done|]. split; [done|].
  unfold st. tauto.
Qed.

Lemma inv_lines_prefix `{Engine} `{Tokenizer} ellipsis tokenBudget start done rest st :
  reader_inv ellipsis tokenBudget start done st →
  rs_lineMeta st `prefix_of` (meta_of <$> done ++ rest).
Proof.
  intros Hi. rewrite fmap_app, <- (iv_meta _ _ _ _ _ Hi). rewrite <- app_assoc. by apply prefix_app_r.
Qed.

(** ** Properties *)

(** C23: over messages with consecutive ordinals reaching back to the start, the
    lines of a chunk are exactly the first of the eligible messages, in order and
    without omission, so the historian's coverage check accepts the chunk; the
    end index, the message count and the end id are those of the last line.  The
    tool-only ranges are disjoint, not adjacent, within the chunk, and no message
    in them contributes narrative text. *)
Theorem chunk_covers `{Engine} `{Tokenizer} ellipsis messages first absoluteMessageCount
    tokenBudget offset e memo :
  consecutive first messages → first ≤ Z.max 1 offset → memo_coherent memo →
  let chunk :=
    (readSessionChunk ellipsis messages absoluteMessageCount tokenBudget offset e memo).1 in
  let seen := eligible (Z.max 1 offset) e messages in
  ch_startIndex chunk = Z.max 1 offset ∧
  ch_lines chunk `prefix_of` (meta_of <$> seen) ∧
  validateChunkCoverage (ch_startIndex chunk) (ch_endIndex chunk) (ch_lines chunk) = None ∧
  ch_endIndex chunk = ch_startIndex chunk - 1 + ch_messageCount chunk ∧
  ch_messageCount chunk = lengthZ (ch_lines chunk) ∧
  ch_endMessageId chunk = message_id_of (last (ch_lines chunk)) ∧
  separated 2 (ch_startIndex chunk) (ch_endIndex chunk) (ch_toolOnlyRanges chunk) ∧
  ∀ m, m ∈ seen → in_ranges (rm_ordinal m) (ch_toolOnlyRanges chunk) → no_narrative ellipsis m.
Proof.
  intros Hm Hf Hmemo chunk seen. set (start := Z.max 1 offset) in *.
  destruct (read_final ellipsis tokenBudget start e messages first memo Hm Hf Hmemo)
    as (done & rest & E & Hc & Hi & _).
  unfold chunk, readSessionChunk. fold start. cbn [fst ch_startIndex ch_lines ch_endIndex
    ch_messageCount ch_endMessageId ch_toolOnlyRanges]. set (st := finish _ _) in *.
  pose proof (inv_lines_prefix _ _ _ _ rest _ Hi) as Hp. rewrite <- E in Hp.
  assert (scl_ordinal <$> rs_lineMeta st = seqZ start (lengthZ (rs_lineMeta st))) as Hord.
  { apply list_eq. intros i. rewrite list_lookup_fmap.
    destruct (rs_lineMeta st !! i) as [x|] eqn:Ex.
    - rewrite (proj2 (lookup_seqZ _ _ _ (start + Z.of_nat i))).
      2:{ apply lookup_lt_Some in Ex. unfold lengthZ. lia. }
      cbn. f_equal. eapply (meta_lookup _ _ _ done st); [done|done|]. by apply lookup_app_l_Some.
    - symmetry. apply lookup_ge_None in Ex. apply lookup_ge_None. rewrite length_seqZ.
      unfold lengthZ. lia. }
  destruct (merge_ranges_spec _ _ _ (iv_ranges _ _ _ _ _ Hi)) as [Hsep Hin].
  split; [done|]. split; [exact Hp|]. split; [|split; [|split; [|split; [|split]]]].
  - unfold validateChunkCoverage. destruct (rs_lineMeta st) as [|l ls] eqn:El; [done|].
    rewrite <- El in *. rewrite (proj2 (check_lines_ok _ _ _) (conj Hord eq_refl)).
    rewrite (iv_last _ _ _ _ _ Hi). rewrite (proj2 (Z.eqb_eq _ _)) by lia. by rewrite El.
  - rewrite (iv_last _ _ _ _ _ Hi), (iv_processed _ _ _ _ _ Hi). lia.
  - apply (iv_processed _ _ _ _ _ Hi).
  - apply (iv_lastId _ _ _ _ _ Hi).
  - done.
  - intros m Hms Hr. apply Hin in Hr. unfold seen in Hms.
    apply list_elem_of_lookup in Hms as [i Hx].
    pose proof (consecutive_lookup _ _ _ _ (eligible_consecutive _ _ e _ Hm Hf) Hx) as Ho.
    rewrite Ho in Hr. destruct (decide (i < length done)%nat) as [Hlt|Hge].
    + rewrite E, lookup_app_l in Hx by done. by eapply (iv_narrative _ _ _ _ _ Hi).
    + exfalso. destruct Hr as (r & Hr & Hb). apply (separated_end _ _ _ _ _ (iv_ranges _ _ _ _ _ Hi)) in Hr.
      pose proof (inv_lengths _ _ _ _ _ Hi). rewrite (iv_last _ _ _ _ _ Hi) in Hr.
      unfold lengthZ in Hr. lia.
Qed.


(** ** Witnesses *)

Definition text_part (s : string) : value := VObj [("type", VStr "text"); ("text", VStr s)]%string.
Definition tool_part (s : string) : value :=
  VObj [("type", VStr "tool"); ("tool", VStr s); ("state", VObj [])]%string.

Definition session_message (ordinal : Z) (role : string) (parts : list value) : RawMessage :=
  {| rm_ordinal := ordinal; rm_id := String.append "m" (hex_digit ordinal); rm_role := role;
     rm_parts := parts |}.

(** A prompt, a tool run, noise and an answer. *)
Definition short_session : list RawMessage :=
  [session_message 1 "user" [text_part "fix it"]; session_message 2 "assistant" [tool_part "read"];
   session_message 3 "assistant" []; session_message 4 "user" [text_part "and now?"];
   session_message 5 "assistant" [text_part "committed abc1234"]].

(** A budget the first two blocks fill. *)
Definition small_budget : num := nofZ 45.

Lemma chunk_covers_witness :
  let chunk := (readSessionChunk "." short_session None small_budget 1 None []).1 in
  ch_endIndex chunk = 2 ∧ ch_toolOnlyRanges chunk = [{| rg_start := 2; rg_end := 2 |}] ∧
  ch_startIndex chunk = Z.max 1 1 ∧
  ch_lines chunk `prefix_of` (meta_of <$> eligible (Z.max 1 1) None short_session) ∧
  validateChunkCoverage (ch_startIndex chunk) (ch_endIndex chunk) (ch_lines chunk) = None ∧
  ch_endIndex chunk = ch_startIndex chunk - 1 + ch_messageCount chunk ∧
  ch_messageCount chunk = lengthZ (ch_lines chunk) ∧
  ch_endMessageId chunk = message_id_of (last (ch_lines chunk)) ∧
  separated 2 (ch_startIndex chunk) (ch_endIndex chunk) (ch_toolOnlyRanges chunk) ∧
  ∀ m, m ∈ eligible (Z.max 1 1) None short_session →
    in_ranges (rm_ordinal m) (ch_toolOnlyRanges chunk) → no_narrative "." m.
Proof.
  split; [vm_compute; reflexivity|]. split; [vm_compute; reflexivity|].
  apply (chunk_covers "." short_session 1 None small_budget 1 None []).
  - reflexivity.
  - reflexivity.
  - split; [apply NoDup_nil_2|]. split; [by vm_compute|done].
Defined.

