(* ===== verification/Cron.v ===== *)
(** * Cron schedules of the dreamer

    Models packages/plugin/src/features/magic-context/dreamer/cron.ts: parsing of
    five-field expressions, matching of local civil time and the search for the
    next occurrence.  The local civil fields of an instant (the zone rules of the
    machine) are a parameter; instants are milliseconds. *)

From S2P Require Import Prelude JsNumber JsMap JsValue JsString.

(** ** Fields *)

(** A [Set<number>] in insertion order. *)
Abbreviation number_set := (list Z).

Definition set_has (s : number_set) (n : Z) : bool := existsb (Z.eqb n) s.
Definition set_add (s : number_set) (n : Z) : number_set := if set_has s n then s else s ++ [n].

Record ParsedCron := {
  cr_minute : number_set;
  cr_hour : number_set;
  cr_dom : number_set;
  cr_month : number_set;
  cr_dow : number_set;
  cr_domRestricted : bool;
  cr_dowRestricted : bool
}.

Inductive cron_error :=
| empty_expression
| wrong_field_count (got : Z)
| invalid_field (name token : string) (min max : Z).

Record FieldSpec := { fs_name : string; fs_min : Z; fs_max : Z }.

Definition FIELDS : list FieldSpec :=
  [{| fs_name := "minute"; fs_min := 0; fs_max := 59 |};
   {| fs_name := "hour"; fs_min := 0; fs_max := 23 |};
   {| fs_name := "day-of-month"; fs_min := 1; fs_max := 31 |};
   {| fs_name := "month"; fs_min := 1; fs_max := 12 |};
   {| fs_name := "day-of-week"; fs_min := 0; fs_max := 7 |}].

Definition MINUTE_MS : Z := 60000.
Definition MAX_SEARCH_MS : Z := 4 * 366 * 24 * 60 * MINUTE_MS.

(** [s.split(/\s+/)] of a trimmed string. *)
Fixpoint split_spaces (cur l : list Z) : list (list Z) :=
  match l with
  | [] => [cur]
  | u :: l' =>
      if is_space u then
        match l' with
        | v :: _ => if is_space v then split_spaces cur l' else cur :: split_spaces [] l'
        | [] => [cur; []]
        end
      else split_spaces (cur ++ [u]) l'
  end.

Definition normalize (spec : FieldSpec) (n : Z) : Z :=
  if String.eqb (fs_name spec) "day-of-week" && (n =? 7) then 0 else n.

(** [for (let v = lo; v <= hi; v += step) values.add(normalize(v));] with one
    unit of fuel per value. *)
Fixpoint add_values (fuel : nat) (spec : FieldSpec) (v hi step : Z) (values : number_set)
    : number_set :=
  match fuel with
  | O => values
  | S fuel =>
      if v <=? hi then add_values fuel spec (v + step) hi step (set_add values (normalize spec v))
      else values
  end.

(** The limits a range part denotes. *)
Definition range_limits (spec : FieldSpec) (rangePart : list Z) (has_step : bool)
    : option (Z * Z) :=
  if decide (rangePart = [42]) then Some (fs_min spec, fs_max spec)
  else if existsb (Z.eqb 45) rangePart then
    match split_units 45 [] rangePart with
    | [loStr; hiStr] => lo ← decimal loStr; hi ← decimal hiStr; Some (lo, hi)
    | _ => None
    end
  else
    lo ← decimal rangePart;
    Some (lo, if has_step then fs_max spec else lo).

(** One comma-separated part. *)
Definition parse_part (spec : FieldSpec) (values : number_set) (part : list Z)
    : option number_set :=
  let piece := trim_units part in
  if decide (piece = []) then None
  else
    match split_units 47 [] piece with
    | rangePart :: rest =>
        step ← match rest with
               | [] => Some 1
               | [stepPart] =>
                   step ← decimal stepPart; if step <? 1 then None else Some step
               | _ => None
               end;
        '(lo, hi) ← range_limits spec rangePart (match rest with [] => false | _ => true end);
        if (lo <? fs_min spec) || (fs_max spec <? lo) || (hi <? fs_min spec) || (fs_max spec <? hi)
        then None
        else if hi <? lo then None
        else Some (add_values (Z.to_nat (hi - lo + 1)) spec lo hi step values)
    | [] => None
    end.

Fixpoint parse_parts (spec : FieldSpec) (values : number_set) (parts : list (list Z))
    : option number_set :=
  match parts with
  | [] => Some values
  | part :: parts => values ← parse_part spec values part; parse_parts spec values parts
  end.

Definition parseField (token : list Z) (spec : FieldSpec) : option number_set :=
  values ← parse_parts spec [] (split_units 44 [] token);
  match values with [] => None | _ => Some values end.

Fixpoint parse_fields (tokens : list (list Z)) (specs : list FieldSpec)
    : result cron_error (list number_set) :=
  match tokens, specs with
  | token :: tokens, spec :: specs =>
      match parseField token spec with
      | None =>
          Err (invalid_field (fs_name spec) (of_code_units token) (fs_min spec) (fs_max spec))
      | Some values => sets ← parse_fields tokens specs; mret (values :: sets)
      end
  | _, _ => mret []
  end.

Definition parseCron (expression : string) : result cron_error ParsedCron :=
  let trimmed := trim_units (code_units expression) in
  match trimmed with
  | [] => Err empty_expression
  | _ =>
      let tokens := split_spaces [] trimmed in
      throw_if (negb (lengthZ tokens =? 5)) (wrong_field_count (lengthZ tokens));;
      sets ← parse_fields tokens FIELDS;
      match sets, tokens with
      | [minute; hour; dom; month; dow], [_; _; domToken; _; dowToken] =>
          mret {| cr_minute := minute; cr_hour := hour; cr_dom := dom; cr_month := month;
                  cr_dow := dow; cr_domRestricted := negb (bool_decide (domToken = [42]));
                  cr_dowRestricted := negb (bool_decide (dowToken = [42])) |}
      | _, _ => Err (wrong_field_count (lengthZ tokens))
      end
  end.

Definition isValidCron (expression : string) : bool := is_ok (parseCron expression).

(** ** Matching *)

(** The local fields of a [Date]; [getMonth] counts from 0 and [getDay] from
    Sunday. *)
Record civil := {
  getFullYear : Z; getMonth : Z; getDate : Z; getDay : Z; getHours : Z; getMinutes : Z
}.

Definition matchesDay (cron : ParsedCron) (date : civil) : bool :=
  let dom := set_has (cr_dom cron) (getDate date) in
  let dow := set_has (cr_dow cron) (getDay date) in
  if cr_domRestricted cron && cr_dowRestricted cron then dom || dow
  else if cr_domRestricted cron then dom
  else if cr_dowRestricted cron then dow
  else true.

Definition matchesCron (cron : ParsedCron) (date : civil) : bool :=
  set_has (cr_minute cron) (getMinutes date) && set_has (cr_hour cron) (getHours date) &&
  set_has (cr_month cron) (getMonth date + 1) && matchesDay cron date.

Section search.
Context `{Engine} (local : Z → civil).

(** [String(n).padStart(w, "0")]. *)
Definition padded (n w : Z) : string :=
  let s := numberToString (nofZ n) in
  (of_code_units (replicate (Z.to_nat (w - str_length s)) 48) ++ s)%string.

Definition civilMinuteKey (date : civil) : string :=
  (padded (getFullYear date) 4 ++ "-" ++ padded (getMonth date + 1) 2 ++ "-" ++
   padded (getDate date) 2 ++ " " ++ padded (getHours date) 2 ++ ":" ++
   padded (getMinutes date) 2)%string.

(** The test a candidate must pass. *)
Definition acceptable (cron : ParsedCron) (exclude : option string) (cursorMs : Z) : bool :=
  matchesCron cron (local cursorMs) &&
  match exclude with
  | None => true
  | Some key =>
      String.eqb key "" || negb (String.eqb (civilMinuteKey (local cursorMs)) key)
  end.

Fixpoint occurrence_loop (fuel : nat) (cron : ParsedCron) (exclude : option string)
    (cursorMs capMs : Z) : option Z :=
  match fuel with
  | O => None
  | S fuel =>
      if cursorMs <=? capMs then
        if acceptable cron exclude cursorMs then Some cursorMs
        else occurrence_loop fuel cron exclude (cursorMs + MINUTE_MS) capMs
      else None
  end.

Definition capMs_of (afterMs maxSearchMs : Z) : Z :=
  afterMs + Z.max 0 (Z.min MAX_SEARCH_MS maxSearchMs).

(** One unit of fuel per minute up to the cap. *)
Definition nextOccurrence (cron : ParsedCron) (afterMs : Z) (exclude : option string)
    (maxSearchMs : Z) : option Z :=
  let cursorMs := afterMs / MINUTE_MS * MINUTE_MS + MINUTE_MS in
  let capMs := capMs_of afterMs maxSearchMs in
  occurrence_loop (Z.to_nat ((capMs - cursorMs) / MINUTE_MS + 1)) cron exclude cursorMs capMs.

Definition nextDueAtMs (expression : string) (afterMs : Z) (consumedScheduledAtMs : option Z)
    (maxSearchMs : Z) : option Z :=
  match trim_units (code_units expression) with
  | [] => None
  | _ =>
      match parseCron expression with
      | Err _ => None
      | Ok cron =>
          nextOccurrence cron afterMs ((fun ms => civilMinuteKey (local ms)) <$> consumedScheduledAtMs)
            maxSearchMs
      end
  end.

End search.

(** ** Specification *)

(** A set of values of a field: not empty and within the bounds, Sunday as 0. *)
Definition field_values (spec : FieldSpec) (values : number_set) : Prop :=
  values ≠ [] ∧ NoDup values ∧
  ∀ v, v ∈ values → fs_min spec ≤ v ≤ fs_max spec ∧ (fs_name spec = "day-of-week"%string → v < 7).

Definition cron_wf (cron : ParsedCron) : Prop :=
  Forall2 field_values FIELDS
    [cr_minute cron; cr_hour cron; cr_dom cron; cr_month cron; cr_dow cron].

(** A whole minute after [afterMs], within the search, that the schedule accepts. *)
Definition due `{Engine} (local : Z → civil) (cron : ParsedCron) (afterMs maxSearchMs : Z)
    (consumed : option Z) (t : Z) : Prop :=
  t mod MINUTE_MS = 0 ∧ afterMs < t ≤ capMs_of afterMs maxSearchMs ∧
  matchesCron cron (local t) = true ∧
  ∀ c, consumed = Some c → civilMinuteKey (local t) ≠ civilMinuteKey (local c).

(** ** Lemmas *)

Lemma set_has_in s n : set_has s n = true ↔ n ∈ s.
Proof.
  unfold set_has. rewrite existsb_exists. setoid_rewrite <- list_elem_of_In.
  setoid_rewrite Z.eqb_eq. split; [by intros (? & ? & ->)|eauto].
Qed.

Lemma set_add_in s n x : x ∈ set_add s n ↔ x ∈ s ∨ x = n.
Proof.
  unfold set_add. destruct (set_has s n) eqn:E; [|set_solver].
  apply set_has_in in E. split; [by left|]. by intros [?| ->].
Qed.

Lemma set_add_NoDup s n : NoDup s → NoDup (set_add s n).
Proof.
  unfold set_add. destruct (set_has s n) eqn:E; [done|]. intros Hs. apply NoDup_app.
  split; [done|]. split; [|apply NoDup_singleton].
  intros x Hx ->%list_elem_of_singleton. apply set_has_in in Hx. congruence.
Qed.

Definition bounded_values (spec : FieldSpec) (values : number_set) : Prop :=
  NoDup values ∧
  ∀ v, v ∈ values → fs_min spec ≤ v ≤ fs_max spec ∧ (fs_name spec = "day-of-week"%string → v < 7).

Lemma normalize_bounds spec n :
  spec ∈ FIELDS → fs_min spec ≤ n ≤ fs_max spec →
  fs_min spec ≤ normalize spec n ≤ fs_max spec ∧
  (fs_name spec = "day-of-week"%string → normalize spec n < 7).
Proof.
  intros Hs Hn. unfold normalize.
  repeat (apply elem_of_cons in Hs as [->|Hs]; [cbn in *; try (split; [lia|done])|]);
    [|by apply elem_of_nil in Hs].
  destruct (n =? 7) eqn:E; cbn; lia.
Qed.

Lemma add_values_spec fuel spec v hi step values :
  spec ∈ FIELDS → fs_min spec ≤ v → hi ≤ fs_max spec → 1 ≤ step → bounded_values spec values →
  bounded_values spec (add_values fuel spec v hi step values) ∧
  values ⊆ add_values fuel spec v hi step values ∧
  ((0 < fuel)%nat → v ≤ hi → normalize spec v ∈ add_values fuel spec v hi step values).
Proof.
  intros Hs. revert v values. induction fuel as [|fuel IH]; intros v values Hv Hh Hst Hb;
    cbn [add_values]; [split; [done|]; split; [done|lia]|].
  case_match eqn:E; [|split; [done|]; split; [done|lia]].
  destruct (IH (v + step) (set_add values (normalize spec v))) as (H1 & H2 & _); [lia|lia|lia| |].
  - destruct Hb as [Hn Hb]. split; [by apply set_add_NoDup|].
    intros x [?| ->]%set_add_in; [by apply Hb|]. apply normalize_bounds; [done|lia].
  - split; [done|]. split.
    + intros x Hx. apply H2, set_add_in. by left.
    + intros _ _. apply H2, set_add_in. by right.
Qed.

Ltac inv_option :=
  repeat match goal with
  | H : mbind _ _ = Some _ |- _ => apply bind_Some in H as (? & ? & H)
  | H : Some _ = Some _ |- _ => injection H as H; subst
  | H : None = Some _ |- _ => discriminate H
  end.

Lemma parse_part_spec spec values part values' :
  spec ∈ FIELDS → bounded_values spec values → parse_part spec values part = Some values' →
  bounded_values spec values' ∧ values' ≠ [].
Proof.
  intros Hs Hb. unfold parse_part. case_decide; [done|].
  destruct (split_units 47 [] _) as [|rangePart rest]; [done|]. intros E.
  apply bind_Some in E as (step & Estep & E). apply bind_Some in E as ([lo hi] & Er & E).
  destruct (_ || _) eqn:Eb; [done|]. destruct (hi <? lo) eqn:El; [done|].
  injection E as <-. bool_hyps.
  assert (1 ≤ step) as Hstep.
  { destruct rest as [|stepPart [|]]; inv_option; [lia|].
    case_match; inv_option. lia. }
  destruct (add_values_spec (Z.to_nat (hi - lo + 1)) spec lo hi step values) as (H1' & _ & H2');
    [done|lia|lia|lia|done|].
  split; [done|]. intros En. rewrite En in H2'. apply (elem_of_nil (normalize spec lo)), H2'; lia.
Qed.

Lemma parseField_spec spec token values :
  spec ∈ FIELDS → parseField token spec = Some values → field_values spec values.
Proof.
  intros Hs. unfold parseField. intros E. apply bind_Some in E as (vs & Ep & E).
  assert (∀ parts acc vs, bounded_values spec acc → parse_parts spec acc parts = Some vs →
            bounded_values spec vs) as Hall.
  { induction parts as [|part parts IH]; intros acc vs' Hacc; cbn; [by intros [= <-]|].
    intros (acc' & Ha & Hp)%bind_Some. apply (IH acc'); [|done].
    by destruct (parse_part_spec _ _ _ _ Hs Hacc Ha). }
  apply Hall in Ep as [Hn Hb]; [|by split; [apply NoDup_nil_2|intros ? ?%elem_of_nil]].
  destruct vs; inv_option. by split.
Qed.

Lemma parse_fields_spec tokens specs sets :
  specs ⊆ FIELDS → length tokens = length specs → parse_fields tokens specs = Ok sets →
  Forall2 field_values specs sets.
Proof.
  revert specs sets. induction tokens as [|token tokens IH]; intros [|spec specs] sets Hs Hl;
    try done; cbn [parse_fields].
  { intros [= <-]. constructor. }
  destruct (parseField token spec) eqn:Ef; [|done]. intros E. inv_ok. constructor.
  - eapply parseField_spec; [|done]. apply Hs. set_solver.
  - apply IH; [set_solver|by cbn in Hl; lia|done].
Qed.

Lemma parseCron_wf expression cron : parseCron expression = Ok cron → cron_wf cron.
Proof.
  unfold parseCron. destruct (trim_units _) as [|u us]; [done|]. intros E. inv_ok.
  apply negb_false_iff, Z.eqb_eq in H. apply parse_fields_spec in H0; [|done|].
  2:{ change (length FIELDS) with 5%nat. unfold lengthZ in H. lia. }
  unfold cron_wf. repeat case_match; inv_ok; try done.
Qed.

Section search_lemmas.
Context `{Engine} (local : Z → civil).

Lemma occurrence_loop_spec fuel cron exclude cursorMs capMs :
  capMs < cursorMs + Z.of_nat fuel * MINUTE_MS →
  match occurrence_loop local fuel cron exclude cursorMs capMs with
  | Some t =>
      (∃ k, t = cursorMs + Z.of_nat k * MINUTE_MS) ∧ t ≤ capMs ∧
      acceptable local cron exclude t = true ∧
      ∀ k, cursorMs + Z.of_nat k * MINUTE_MS < t →
        acceptable local cron exclude (cursorMs + Z.of_nat k * MINUTE_MS) = false
  | None =>
      ∀ k, cursorMs + Z.of_nat k * MINUTE_MS ≤ capMs →
        acceptable local cron exclude (cursorMs + Z.of_nat k * MINUTE_MS) = false
  end.
Proof.
  unfold MINUTE_MS. revert cursorMs. induction fuel as [|fuel IH]; intros cursor Hf; cbn [occurrence_loop].
  { intros k Hk. lia. }
  destruct (cursor <=? capMs) eqn:Ec; [|intros k Hk; lia].
  destruct (acceptable local cron exclude cursor) eqn:Ea.
  - split; [exists 0%nat; lia|]. split; [lia|]. split; [done|]. intros k Hk. lia.
  - specialize (IH (cursor + MINUTE_MS)). unfold MINUTE_MS in IH.
    destruct (occurrence_loop _ _ _ _ _) as [t|].
    + destruct IH as ([k ->] & Hcap & Hacc & Hmin); [lia|].
      split; [exists (S k); lia|]. split; [done|]. split; [done|].
      intros [|j] Hj; [by rewrite Z.mul_0_l, Z.add_0_r|].
      replace (cursor + Z.of_nat (S j) * 60000) with (cursor + 60000 + Z.of_nat j * 60000) in * by lia.
      by apply Hmin.
    + intros [|j] Hj; [by rewrite Z.mul_0_l, Z.add_0_r|].
      replace (cursor + Z.of_nat (S j) * 60000) with (cursor + 60000 + Z.of_nat j * 60000) in * by lia.
      apply IH; lia.
Qed.

Lemma minute_after afterMs t :
  t mod MINUTE_MS = 0 → afterMs < t →
  ∃ k, t = afterMs / MINUTE_MS * MINUTE_MS + MINUTE_MS + Z.of_nat k * MINUTE_MS.
Proof.
  unfold MINUTE_MS. intros Hm Ht. exists (Z.to_nat (t / 60000 - afterMs / 60000 - 1)).
  pose proof (Z.div_mod t 60000 ltac:(lia)). pose proof (Z.div_mod afterMs 60000 ltac:(lia)).
  pose proof (Z.mod_pos_bound afterMs 60000 ltac:(lia)). lia.
Qed.

Lemma key_nonempty date : civilMinuteKey date ≠ EmptyString.
Proof.
  unfold civilMinuteKey. by destruct (padded (getFullYear date) 4).
Qed.

(** A due instant lies within the search, of an expression that is not blank. *)
Lemma next_due_cap expression afterMs consumed maxSearchMs t :
  nextDueAtMs local expression afterMs consumed maxSearchMs = Some t →
  afterMs < t ∧ t ≤ capMs_of afterMs maxSearchMs ∧ trim_units (code_units expression) ≠ [].
Proof.
  unfold nextDueAtMs. destruct (trim_units (code_units expression)) eqn:Et; [done|].
  destruct (parseCron expression) as [cron|]; [|done]. unfold nextOccurrence.
  set (cursor := afterMs / MINUTE_MS * MINUTE_MS + MINUTE_MS). set (cap := capMs_of afterMs maxSearchMs).
  intros E. epose proof (occurrence_loop_spec _ cron _ cursor cap _) as Hl. rewrite E in Hl.
  destruct Hl as ([k ->] & Hcap & _). split; [|done].
  unfold cursor, MINUTE_MS. pose proof (Z.div_mod afterMs 60000 ltac:(lia)).
  pose proof (Z.mod_pos_bound afterMs 60000 ltac:(lia)). lia.
  Unshelve. unfold MINUTE_MS. pose proof (Z.div_mod (cap - cursor) 60000 ltac:(lia)).
  pose proof (Z.mod_pos_bound (cap - cursor) 60000 ltac:(lia)). lia.
Qed.

End search_lemmas.

(** ** Properties *)

(** The instant the search answers is the first one due; none means none is. *)
Lemma next_due_spec `{Engine} local expression afterMs consumed maxSearchMs :
  match nextDueAtMs local expression afterMs consumed maxSearchMs with
  | Some t =>
      ∃ cron, parseCron expression = Ok cron ∧
        due local cron afterMs maxSearchMs consumed t ∧
        ∀ t', due local cron afterMs maxSearchMs consumed t' → t ≤ t'
  | None =>
      ∀ cron, parseCron expression = Ok cron →
        ∀ t, ¬ due local cron afterMs maxSearchMs consumed t
  end.
Proof.
  unfold nextDueAtMs.
  destruct (trim_units (code_units expression)) as [|u us] eqn:Et.
  { unfold parseCron. rewrite Et. done. }
  destruct (parseCron expression) as [cron|err]; [|done]. unfold nextOccurrence.
  set (exclude := _ <$> consumed). set (cap := capMs_of afterMs maxSearchMs).
  set (cursor := afterMs / MINUTE_MS * MINUTE_MS + MINUTE_MS).
  assert (∀ t, acceptable local cron exclude t = true ↔
    matchesCron cron (local t) = true ∧
    ∀ c, consumed = Some c → civilMinuteKey (local t) ≠ civilMinuteKey (local c)) as Hacc.
  { intros t. unfold acceptable. rewrite andb_true_iff. destruct consumed as [c|]; cbn.
    - rewrite (proj2 (String.eqb_neq _ _)) by apply key_nonempty. cbn.
      rewrite negb_true_iff, String.eqb_neq. naive_solver.
    - naive_solver. }
  pose proof (occurrence_loop_spec local (Z.to_nat ((cap - cursor) / MINUTE_MS + 1)) cron exclude
                cursor cap) as Hl.
  assert (cap < cursor + Z.of_nat (Z.to_nat ((cap - cursor) / MINUTE_MS + 1)) * MINUTE_MS) as Hfuel.
  { unfold MINUTE_MS. pose proof (Z.div_mod (cap - cursor) 60000 ltac:(lia)).
    pose proof (Z.mod_pos_bound (cap - cursor) 60000 ltac:(lia)). lia. }
  specialize (Hl Hfuel). destruct (occurrence_loop _ _ _ _ _ _) as [t|].
  - destruct Hl as ([k Hk] & Hcap & Ha & Hmin). apply Hacc in Ha as [Hm Hc].
    exists cron. split; [done|]. split.
    + split; [|split; [|done]].
      * rewrite Hk. unfold cursor. rewrite <- Z.mul_succ_l, <- Z.mul_add_distr_r. by apply Z_mod_mult.
      * split; [|done]. rewrite Hk. unfold cursor, MINUTE_MS.
        pose proof (Z.div_mod afterMs 60000 ltac:(lia)).
        pose proof (Z.mod_pos_bound afterMs 60000 ltac:(lia)). lia.
    + intros t' (Hmod & [Hafter _] & Hm' & Hc').
      destruct (minute_after afterMs t' Hmod Hafter) as [k' Hk'].
      fold cursor in Hk'. subst t'.
      destruct (decide (t ≤ cursor + Z.of_nat k' * MINUTE_MS)); [done|]. exfalso.
      assert (acceptable local cron exclude (cursor + Z.of_nat k' * MINUTE_MS) = true) as Ht
        by (by apply Hacc).
      rewrite Hmin in Ht by lia. done.
  - intros cron' [= <-] t (Hmod & [Hafter Hcap] & Hm & Hc).
    destruct (minute_after afterMs t Hmod Hafter) as [k Hk].
    fold cursor in Hk. subst t.
    assert (acceptable local cron exclude (cursor + Z.of_nat k * MINUTE_MS) = true) as Ht
      by (by apply Hacc).
    rewrite Hl in Ht by done. done.
Qed.

(** The next due instant is the first one.  Parsing an expression gives, for
    each of its five fields, a non-empty set of values within the field's bounds
    (Sunday as 0).  When a due instant is returned, it is a whole minute strictly
    after the given one and within the search limit, matches the schedule in
    local time, differs in civil minute from the consumed slot, and no earlier
    instant does; when none is returned for a valid expression, there is none:
    the search always ends with the right answer. *)
Theorem next_due_is_first `{Engine} local expression afterMs consumed maxSearchMs :
  (∀ cron, parseCron expression = Ok cron → cron_wf cron) ∧
  match nextDueAtMs local expression afterMs consumed maxSearchMs with
  | Some t =>
      ∃ cron, parseCron expression = Ok cron ∧
        due local cron afterMs maxSearchMs consumed t ∧
        ∀ t', due local cron afterMs maxSearchMs consumed t' → t ≤ t'
  | None =>
      ∀ cron, parseCron expression = Ok cron →
        ∀ t, ¬ due local cron afterMs maxSearchMs consumed t
  end.
Proof. split; [apply parseCron_wf|apply next_due_spec]. Qed.

Example parse_workdays :
  (fun c => (cr_minute c, cr_hour c, cr_dow c, cr_dowRestricted c)) <$>
    match parseCron "*/30 9-17/4 * * 1-3,7" with Ok c => Some c | Err _ => None end =
  Some ([0; 30], [9; 13; 17], [1; 2; 3; 0], true).
Proof. vm_compute. reflexivity. Qed.
