(* ===== verification/SmartNotes.v ===== *)
(** * Smart notes: evaluation, schedule and storage

    Models packages/plugin/src/features/magic-context/smart-notes:
    evaluation-state.ts (the reducer), schedule.ts, evaluator.ts, the selections
    and the fenced commit of storage.ts and the manifest of types.ts, over the
    mutators of ../storage-notes.ts they meet in the table.

    A smart note waits for its condition: a check is compiled for it and run on a
    schedule until it comes true.  Evaluations are slow, so they work on a copy of
    the row and commit only when its version has not moved. *)

From S2P Require Import Prelude JsNumber JsMap JsValue JsString Cron.

(** ** Notes *)

Inductive NoteStatus := active | pending | ready | dismissed.
Inductive SmartNoteCheckStatus := uncompiled | compiled | failing | fallback.
Inductive ConditionCompileStatus := cond_compiled | cond_plain | cond_refused.

#[export] Instance NoteStatus_eq_dec : EqDecision NoteStatus.
Proof. solve_decision. Defined.
#[export] Instance SmartNoteCheckStatus_eq_dec : EqDecision SmartNoteCheckStatus.
Proof. solve_decision. Defined.
#[export] Instance ConditionCompileStatus_eq_dec : EqDecision ConditionCompileStatus.
Proof. solve_decision. Defined.

Record SmartNoteLifecycleState := {
  ls_status : NoteStatus;
  ls_readyAt : option Z;
  ls_readyReason : option string;
  ls_lastCheckedAt : option Z;
  ls_updatedAt : Z;
  ls_compiledCheck : option string;
  ls_manifestJson : option string;
  ls_checkHash : option string;
  ls_checkCron : option string;
  ls_checkVersion : Z;
  ls_checkStatus : SmartNoteCheckStatus;
  ls_checkFailureCount : Z;
  ls_checkNetworkFailureCount : Z;
  ls_checkQuarantinedUntil : option Z;
  ls_checkNextDueAt : option Z;
  ls_checkCompiledAt : option Z;
  ls_checkFalseSinceAt : option Z;
  ls_checkLastLivenessAt : option Z;
  ls_policyVersion : Z
}.

(** A row of [notes] of type smart: the evaluation columns as one record. *)
Record Note := {
  n_id : Z;
  n_content : string;
  n_sessionId : option string;
  n_projectPath : option string;
  n_surfaceCondition : option string;
  n_compiledProvider : option string;
  n_compiledConfig : option string;
  n_compiledAt : option Z;
  n_compileStatus : option ConditionCompileStatus;
  n_createdAt : Z;
  n_state : SmartNoteLifecycleState;
  n_sourceRevision : Z;
  n_stateVersion : Z
}.

Definition lifecycleStateFromNote (note : Note) : SmartNoteLifecycleState := n_state note.

Definition SMART_NOTE_CHECK_POLICY_VERSION : Z := 1.
Definition SMART_NOTE_CHECK_FLOOR_MS : Z := 5 * 60 * 1000.
Definition SMART_NOTE_CHECK_CEILING_MS : Z := 24 * 60 * 60 * 1000.
Definition SMART_NOTE_CHECK_DEFAULT_INTERVAL_MS : Z := 60 * 60 * 1000.
Definition SMART_NOTE_CHECK_MAX_STALENESS_MS : Z := 7 * 24 * 60 * 60 * 1000.
Definition SMART_NOTE_CHECK_LIVENESS_RECHECK_MS : Z := 24 * 60 * 60 * 1000.
Definition MAX_COMPILATION_FAILURES : Z := 3.
Definition MAX_FAILURES_BEFORE_REAUTHOR : Z := 3.

(** ** Manifests *)

Record SmartNoteCheckManifest := {
  mf_capabilities : list value;
  mf_readFiles : option (list string);
  mf_hosts : option (list string);
  mf_urls : option (list string);
  mf_signals : option (list string);
  mf_summary : option string
}.

Definition as_string (v : value) : option string := match v with VStr s => Some s | _ => None end.

Definition stringArray (v : value) : option (list string) :=
  match v with
  | VArr items => match omap as_string items with [] => None | arr => Some arr end
  | _ => None
  end.

Definition no_manifest : SmartNoteCheckManifest :=
  {| mf_capabilities := []; mf_readFiles := None; mf_hosts := None; mf_urls := None;
     mf_signals := None; mf_summary := None |}.

Section notes.
Context `{Engine} (JSON_parse : string → option value) (local : Z → civil).

Definition capability_names : list string := ["readFile"; "gitHeadSha"; "gitTag"; "gitLog"; "httpGet"].

(** Reading a property of [null] throws, which the [try] turns into no manifest. *)
Definition parseSmartNoteManifest (json : option string) : SmartNoteCheckManifest :=
  match json with
  | None | Some EmptyString => no_manifest
  | Some json =>
      match JSON_parse json with
      | None | Some VNull | Some VUndefined => no_manifest
      | Some parsed =>
          let record := match parsed with VObj entries => entries | _ => [] end in
          {| mf_capabilities :=
               match field record "capabilities" with
               | VArr items =>
                   List.filter (fun c => existsb (String.eqb (js_String c)) capability_names) items
               | _ => []
               end;
             mf_readFiles := stringArray (field record "readFiles");
             mf_hosts := stringArray (field record "hosts");
             mf_urls := stringArray (field record "urls");
             mf_signals := stringArray (field record "signals");
             mf_summary := as_string (field record "summary") |}
      end
  end.

(** [last] is a high surrogate. *)
Definition ends_in_high_surrogate (l : list Z) : bool :=
  match last l with Some u => (55296 <=? u) && (u <=? 56319) | None => false end.

Definition note_label (noteId : Z) (text : string) : string :=
  ("Smart note #" ++ numberToString (nofZ noteId) ++ ": " ++ text)%string.

Definition dueReadyReason (noteId : Z) (manifestJson : option string) : string :=
  let manifest := parseSmartNoteManifest manifestJson in
  let signal :=
    match mf_signals manifest ≫= head, mf_summary manifest with
    | Some s, _ | None, Some s => s
    | None, None => "compiled check returned met=true"%string
    end in
  let sliced := take 240 (code_units (note_label noteId signal)) in
  of_code_units (if ends_in_high_surrogate sliced then take (length sliced - 1) sliced else sliced).

(** ** Schedule *)

Definition jitter_step (h unit : Z) : Z := int32 (Z.lxor (int32 h) unit * 16777619).

Definition deterministicJitterMs (intervalMs : Z) (noteId : option Z) (hash : option string) : Z :=
  let max := Z.min 60000 (floorZ (nmul (nofZ intervalMs) (nlit 1 10))) in
  if max <=? 0 then 0
  else
    let seed := (numberToString (nofZ (default 0%Z noteId)) ++ ":" ++ default EmptyString hash)%string in
    uint32 (foldl jitter_step 2166136261 (code_units seed)) mod (max * 2 + 1) - max.

Definition nextSmartNoteCheckDueAt (cron : option string) (now : Z) (noteId : option Z)
    (hash : option string) (floorMs ceilingMs : option Z) : Z :=
  let floorMs := default SMART_NOTE_CHECK_FLOOR_MS floorMs in
  let ceilingMs := default SMART_NOTE_CHECK_CEILING_MS ceilingMs in
  let rawNext :=
    match cron with
    | Some c => if String.eqb (trim c) "" then None else nextDueAtMs local c now None ceilingMs
    | None => None
    end in
  let rawDelta :=
    match rawNext with
    | Some t => if t =? 0 then SMART_NOTE_CHECK_DEFAULT_INTERVAL_MS else t - now
    | None => SMART_NOTE_CHECK_DEFAULT_INTERVAL_MS
    end in
  let clamped := Z.min ceilingMs (Z.max floorMs rawDelta) in
  let jittered := clamped + deterministicJitterMs clamped noteId hash in
  now + Z.min ceilingMs (Z.max floorMs jittered).

(** ** The reducer *)

Record CompiledCheckArtifact := {
  ca_compiledCheck : string; ca_manifestJson : string; ca_checkHash : string; ca_checkCron : string
}.

Inductive check_kind := met | unmet | logic_failed | network_failed.

Inductive SmartNoteEvaluationOutcome :=
| o_compiled (is_met : bool) (artifact : CompiledCheckArtifact)
| o_compilation_failed
| o_due (kind : check_kind)
| o_liveness (kind : check_kind)
| o_fallback (is_met : bool).

Record SmartNoteReduction := { rd_next : SmartNoteLifecycleState; rd_surfaced : bool }.

Definition evaluationBackoffMs (failureCount : Z) : Z :=
  Z.min (24 * 60) (5 * 2 ^ Z.max 0 (failureCount - 1)) * 60 * 1000.

Definition readyFields (s : SmartNoteLifecycleState) (reason : string) (now : Z)
    : SmartNoteLifecycleState :=
  {| ls_status := ready; ls_readyAt := Some now; ls_readyReason := Some reason;
     ls_lastCheckedAt := Some now; ls_updatedAt := now;
     ls_compiledCheck := ls_compiledCheck s; ls_manifestJson := ls_manifestJson s;
     ls_checkHash := ls_checkHash s; ls_checkCron := ls_checkCron s;
     ls_checkVersion := ls_checkVersion s; ls_checkStatus := ls_checkStatus s;
     ls_checkFailureCount := ls_checkFailureCount s;
     ls_checkNetworkFailureCount := ls_checkNetworkFailureCount s;
     ls_checkQuarantinedUntil := ls_checkQuarantinedUntil s;
     ls_checkNextDueAt := ls_checkNextDueAt s; ls_checkCompiledAt := ls_checkCompiledAt s;
     ls_checkFalseSinceAt := ls_checkFalseSinceAt s;
     ls_checkLastLivenessAt := ls_checkLastLivenessAt s; ls_policyVersion := ls_policyVersion s |}.

Definition falseFields (s : SmartNoteLifecycleState) (noteId now : Z)
    (cron hash : option string) : SmartNoteLifecycleState :=
  {| ls_status := ls_status s; ls_readyAt := ls_readyAt s; ls_readyReason := ls_readyReason s;
     ls_lastCheckedAt := Some now; ls_updatedAt := now;
     ls_compiledCheck := ls_compiledCheck s; ls_manifestJson := ls_manifestJson s;
     ls_checkHash := ls_checkHash s; ls_checkCron := ls_checkCron s;
     ls_checkVersion := ls_checkVersion s; ls_checkStatus := ls_checkStatus s;
     ls_checkFailureCount := 0; ls_checkNetworkFailureCount := 0;
     ls_checkQuarantinedUntil := ls_checkQuarantinedUntil s;
     ls_checkNextDueAt := Some (nextSmartNoteCheckDueAt cron now (Some noteId) hash None None);
     ls_checkCompiledAt := ls_checkCompiledAt s;
     ls_checkFalseSinceAt := Some (default now (ls_checkFalseSinceAt s));
     ls_checkLastLivenessAt := ls_checkLastLivenessAt s; ls_policyVersion := ls_policyVersion s |}.

(** The counters, status and due columns after a failure. *)
Definition failed_fields (s : SmartNoteLifecycleState) (now failures network : Z)
    (status : SmartNoteCheckStatus) (quarantined : option Z) (due : Z) : SmartNoteLifecycleState :=
  {| ls_status := ls_status s; ls_readyAt := ls_readyAt s; ls_readyReason := ls_readyReason s;
     ls_lastCheckedAt := ls_lastCheckedAt s; ls_updatedAt := now;
     ls_compiledCheck := ls_compiledCheck s; ls_manifestJson := ls_manifestJson s;
     ls_checkHash := ls_checkHash s; ls_checkCron := ls_checkCron s;
     ls_checkVersion := ls_checkVersion s; ls_checkStatus := status;
     ls_checkFailureCount := failures; ls_checkNetworkFailureCount := network;
     ls_checkQuarantinedUntil := quarantined; ls_checkNextDueAt := Some due;
     ls_checkCompiledAt := ls_checkCompiledAt s; ls_checkFalseSinceAt := ls_checkFalseSinceAt s;
     ls_checkLastLivenessAt := ls_checkLastLivenessAt s; ls_policyVersion := ls_policyVersion s |}.

(** The state a compiled artifact is stored with. *)
Definition stored_artifact (pre : SmartNoteLifecycleState) (artifact : CompiledCheckArtifact)
    (noteId now : Z) : SmartNoteLifecycleState :=
  {| ls_status := ls_status pre; ls_readyAt := ls_readyAt pre; ls_readyReason := ls_readyReason pre;
     ls_lastCheckedAt := ls_lastCheckedAt pre; ls_updatedAt := now;
     ls_compiledCheck := Some (ca_compiledCheck artifact);
     ls_manifestJson := Some (ca_manifestJson artifact);
     ls_checkHash := Some (ca_checkHash artifact); ls_checkCron := Some (ca_checkCron artifact);
     ls_checkVersion := 1; ls_checkStatus := compiled;
     ls_checkFailureCount := 0; ls_checkNetworkFailureCount := 0;
     ls_checkQuarantinedUntil := None;
     ls_checkNextDueAt := Some (nextSmartNoteCheckDueAt (Some (ca_checkCron artifact)) now
                                  (Some noteId) (Some (ca_checkHash artifact)) None None);
     ls_checkCompiledAt := Some now;
     ls_checkFalseSinceAt := Some (default now (ls_checkFalseSinceAt pre));
     ls_checkLastLivenessAt := None; ls_policyVersion := SMART_NOTE_CHECK_POLICY_VERSION |}.

Definition reduceCompilationFailed (pre : SmartNoteLifecycleState) (now : Z) : SmartNoteReduction :=
  let failureCount := ls_checkFailureCount pre + 1 in
  {| rd_surfaced := false;
     rd_next := failed_fields pre now failureCount (ls_checkNetworkFailureCount pre)
                  (if MAX_COMPILATION_FAILURES <=? failureCount then fallback else uncompiled)
                  (ls_checkQuarantinedUntil pre) (now + evaluationBackoffMs failureCount) |}.

Definition reduceCompile (pre : SmartNoteLifecycleState) (is_met : bool)
    (artifact : CompiledCheckArtifact) (noteId now : Z) : SmartNoteReduction :=
  let stored := stored_artifact pre artifact noteId now in
  if is_met then
    {| rd_surfaced := true;
       rd_next := readyFields stored (note_label noteId "compiled check returned met=true") now |}
  else
    {| rd_surfaced := false;
       rd_next := falseFields stored noteId now (Some (ca_checkCron artifact))
                    (Some (ca_checkHash artifact)) |}.

Definition failure_status (count : Z) : SmartNoteCheckStatus :=
  if MAX_FAILURES_BEFORE_REAUTHOR <=? count then failing else compiled.

Definition reduceCheckFailure (pre : SmartNoteLifecycleState) (network : bool) (now : Z)
    : SmartNoteLifecycleState :=
  if network then
    let networkCount := ls_checkNetworkFailureCount pre + 1 in
    let quarantinedUntil := now + evaluationBackoffMs networkCount in
    failed_fields pre now (ls_checkFailureCount pre) networkCount (failure_status networkCount)
      (Some quarantinedUntil) quarantinedUntil
  else
    let failureCount := ls_checkFailureCount pre + 1 in
    failed_fields pre now failureCount (ls_checkNetworkFailureCount pre)
      (failure_status failureCount) (ls_checkQuarantinedUntil pre)
      (now + evaluationBackoffMs failureCount).

Definition reduceDue (pre : SmartNoteLifecycleState) (kind : check_kind) (noteId now : Z)
    : SmartNoteReduction :=
  match kind with
  | met => {| rd_surfaced := true;
              rd_next := readyFields pre (dueReadyReason noteId (ls_manifestJson pre)) now |}
  | unmet => {| rd_surfaced := false;
                rd_next := falseFields pre noteId now (ls_checkCron pre) (ls_checkHash pre) |}
  | logic_failed => {| rd_surfaced := false; rd_next := reduceCheckFailure pre false now |}
  | network_failed => {| rd_surfaced := false; rd_next := reduceCheckFailure pre true now |}
  end.

(** [{ ...s, checkLastLivenessAt, updatedAt, checkStatus, lastCheckedAt }]. *)
Definition with_attempt (s : SmartNoteLifecycleState) (now : Z) (liveness lastChecked : option Z)
    (status : SmartNoteCheckStatus) : SmartNoteLifecycleState :=
  {| ls_status := ls_status s; ls_readyAt := ls_readyAt s; ls_readyReason := ls_readyReason s;
     ls_lastCheckedAt := lastChecked; ls_updatedAt := now;
     ls_compiledCheck := ls_compiledCheck s; ls_manifestJson := ls_manifestJson s;
     ls_checkHash := ls_checkHash s; ls_checkCron := ls_checkCron s;
     ls_checkVersion := ls_checkVersion s; ls_checkStatus := status;
     ls_checkFailureCount := ls_checkFailureCount s;
     ls_checkNetworkFailureCount := ls_checkNetworkFailureCount s;
     ls_checkQuarantinedUntil := ls_checkQuarantinedUntil s;
     ls_checkNextDueAt := ls_checkNextDueAt s; ls_checkCompiledAt := ls_checkCompiledAt s;
     ls_checkFalseSinceAt := ls_checkFalseSinceAt s;
     ls_checkLastLivenessAt := liveness; ls_policyVersion := ls_policyVersion s |}.

Definition reduceLiveness (pre : SmartNoteLifecycleState) (kind : check_kind) (noteId now : Z)
    : SmartNoteReduction :=
  let attempted := with_attempt pre now (Some now) (ls_lastCheckedAt pre) (ls_checkStatus pre) in
  match kind with
  | met => {| rd_surfaced := true;
              rd_next := readyFields attempted
                (note_label noteId "max-staleness liveness check returned met=true") now |}
  | unmet => {| rd_surfaced := false;
                rd_next := falseFields attempted noteId now (ls_checkCron pre) (ls_checkHash pre) |}
  | logic_failed =>
      {| rd_surfaced := false;
         rd_next := with_attempt pre now (Some now) (ls_lastCheckedAt pre) failing |}
  | network_failed => {| rd_surfaced := false; rd_next := attempted |}
  end.

Definition reduceFallback (pre : SmartNoteLifecycleState) (is_met : bool) (noteId now : Z)
    : SmartNoteReduction :=
  if is_met then
    {| rd_surfaced := true;
       rd_next := readyFields pre
         (note_label noteId "read-only confirmation evaluator returned met=true") now |}
  else
    {| rd_surfaced := false;
       rd_next := with_attempt pre now (ls_checkLastLivenessAt pre) (Some now) fallback |}.

Definition reduceSmartNoteEvaluation (pre : SmartNoteLifecycleState)
    (outcome : SmartNoteEvaluationOutcome) (noteId now : Z) : SmartNoteReduction :=
  match outcome with
  | o_compiled is_met artifact => reduceCompile pre is_met artifact noteId now
  | o_compilation_failed => reduceCompilationFailed pre now
  | o_due kind => reduceDue pre kind noteId now
  | o_liveness kind => reduceLiveness pre kind noteId now
  | o_fallback is_met => reduceFallback pre is_met noteId now
  end.

(** ** The evaluator *)

Inductive EvaluationPhase := ph_compile | ph_due | ph_liveness | ph_fallback.

(** What the compiler and the sandbox return: a result, a cancellation, or an error. *)
Inductive CompileSmartNoteResult :=
| compile_ok (artifact : CompiledCheckArtifact) (dryRun_met : bool)
| compile_error (cancelled : bool).

Inductive RunCompiledSmartNoteCheckResult :=
| run_ok (is_met : bool)
| run_error (cancelled network : bool).

Record SmartNotePhaseExecutors := {
  ex_compile : CompileSmartNoteResult;
  ex_runCompiled : string → RunCompiledSmartNoteCheckResult;
  ex_confirmFallback : option bool
}.

(** [None]: abandoned. *)
Definition evaluateCompile (ex : SmartNotePhaseExecutors) : option SmartNoteEvaluationOutcome :=
  match ex_compile ex with
  | compile_ok artifact is_met => Some (o_compiled is_met artifact)
  | compile_error true => None
  | compile_error false => Some o_compilation_failed
  end.

Definition evaluateCompiledCheck (outcome : check_kind → SmartNoteEvaluationOutcome)
    (compiledCheck : option string) (ex : SmartNotePhaseExecutors)
    : option SmartNoteEvaluationOutcome :=
  match compiledCheck with
  | None | Some EmptyString => Some (outcome logic_failed)
  | Some check =>
      match ex_runCompiled ex check with
      | run_ok is_met => Some (outcome (if is_met then met else unmet))
      | run_error true _ => None
      | run_error false network => Some (outcome (if network then network_failed else logic_failed))
      end
  end.

Definition evaluateSmartNotePhase (phase : EvaluationPhase) (compiledCheck : option string)
    (ex : SmartNotePhaseExecutors) : option SmartNoteEvaluationOutcome :=
  match phase with
  | ph_compile => evaluateCompile ex
  | ph_due => evaluateCompiledCheck o_due compiledCheck ex
  | ph_liveness => evaluateCompiledCheck o_liveness compiledCheck ex
  | ph_fallback => o_fallback <$> ex_confirmFallback ex
  end.

(** ** Storage *)

(** The table; [id] is AUTOINCREMENT, so no id is used twice. *)
Record notes_table := { nt_rows : gmap Z Note; nt_next : Z }.

Definition toNullableString (s : option string) : option string :=
  match s with Some EmptyString => None | _ => s end.

Definition note_strings (s : SmartNoteLifecycleState) : SmartNoteLifecycleState :=
  {| ls_status := ls_status s; ls_readyAt := ls_readyAt s;
     ls_readyReason := toNullableString (ls_readyReason s);
     ls_lastCheckedAt := ls_lastCheckedAt s; ls_updatedAt := ls_updatedAt s;
     ls_compiledCheck := toNullableString (ls_compiledCheck s);
     ls_manifestJson := toNullableString (ls_manifestJson s);
     ls_checkHash := toNullableString (ls_checkHash s);
     ls_checkCron := toNullableString (ls_checkCron s);
     ls_checkVersion := ls_checkVersion s; ls_checkStatus := ls_checkStatus s;
     ls_checkFailureCount := ls_checkFailureCount s;
     ls_checkNetworkFailureCount := ls_checkNetworkFailureCount s;
     ls_checkQuarantinedUntil := ls_checkQuarantinedUntil s;
     ls_checkNextDueAt := ls_checkNextDueAt s; ls_checkCompiledAt := ls_checkCompiledAt s;
     ls_checkFalseSinceAt := ls_checkFalseSinceAt s;
     ls_checkLastLivenessAt := ls_checkLastLivenessAt s; ls_policyVersion := ls_policyVersion s |}.

(** A row as it is read: empty strings become null. *)
Definition toNote (r : Note) : Note :=
  {| n_id := n_id r; n_content := n_content r; n_sessionId := toNullableString (n_sessionId r);
     n_projectPath := toNullableString (n_projectPath r);
     n_surfaceCondition := toNullableString (n_surfaceCondition r);
     n_compiledProvider := toNullableString (n_compiledProvider r);
     n_compiledConfig := toNullableString (n_compiledConfig r);
     n_compiledAt := n_compiledAt r; n_compileStatus := n_compileStatus r;
     n_createdAt := n_createdAt r; n_state := note_strings (n_state r);
     n_sourceRevision := n_sourceRevision r; n_stateVersion := n_stateVersion r |}.

Definition getNoteById (db : notes_table) (noteId : Z) : option Note :=
  toNote <$> nt_rows db !! noteId.

Definition set_row (id : Z) (r : Note) (db : notes_table) : notes_table :=
  {| nt_rows := <[id := r]> (nt_rows db); nt_next := nt_next db |}.

(** A change of the evaluation columns, which counts the version up. *)
Definition with_state (s : SmartNoteLifecycleState) (r : Note) : Note :=
  {| n_id := n_id r; n_content := n_content r; n_sessionId := n_sessionId r;
     n_projectPath := n_projectPath r; n_surfaceCondition := n_surfaceCondition r;
     n_compiledProvider := n_compiledProvider r; n_compiledConfig := n_compiledConfig r;
     n_compiledAt := n_compiledAt r; n_compileStatus := n_compileStatus r;
     n_createdAt := n_createdAt r; n_state := s; n_sourceRevision := n_sourceRevision r;
     n_stateVersion := n_stateVersion r + 1 |}.

(** The evaluation columns of a note whose check is forgotten. *)
Definition fresh_state (s : SmartNoteLifecycleState) (now : Z) : SmartNoteLifecycleState :=
  {| ls_status := pending; ls_readyAt := None; ls_readyReason := None; ls_lastCheckedAt := None;
     ls_updatedAt := now; ls_compiledCheck := None; ls_manifestJson := None; ls_checkHash := None;
     ls_checkCron := None; ls_checkVersion := 0; ls_checkStatus := uncompiled;
     ls_checkFailureCount := 0; ls_checkNetworkFailureCount := 0; ls_checkQuarantinedUntil := None;
     ls_checkNextDueAt := None; ls_checkCompiledAt := None; ls_checkFalseSinceAt := None;
     ls_checkLastLivenessAt := None; ls_policyVersion := ls_policyVersion s |}.

(** [{ ...s, status, readyAt, readyReason, lastCheckedAt, updatedAt }]. *)
Definition with_readiness (s : SmartNoteLifecycleState) (status : NoteStatus)
    (readyAt : option Z) (readyReason : option string) (lastCheckedAt : option Z) (now : Z)
    : SmartNoteLifecycleState :=
  {| ls_status := status; ls_readyAt := readyAt; ls_readyReason := readyReason;
     ls_lastCheckedAt := lastCheckedAt; ls_updatedAt := now;
     ls_compiledCheck := ls_compiledCheck s; ls_manifestJson := ls_manifestJson s;
     ls_checkHash := ls_checkHash s; ls_checkCron := ls_checkCron s;
     ls_checkVersion := ls_checkVersion s; ls_checkStatus := ls_checkStatus s;
     ls_checkFailureCount := ls_checkFailureCount s;
     ls_checkNetworkFailureCount := ls_checkNetworkFailureCount s;
     ls_checkQuarantinedUntil := ls_checkQuarantinedUntil s;
     ls_checkNextDueAt := ls_checkNextDueAt s; ls_checkCompiledAt := ls_checkCompiledAt s;
     ls_checkFalseSinceAt := ls_checkFalseSinceAt s;
     ls_checkLastLivenessAt := ls_checkLastLivenessAt s; ls_policyVersion := ls_policyVersion s |}.

Record SmartNoteInput := {
  in_content : string; in_sessionId : option string; in_projectPath : string;
  in_surfaceCondition : string; in_compiledProvider : option string;
  in_compiledConfig : option string; in_compiledAt : option Z;
  in_compileStatus : option ConditionCompileStatus
}.

(** The columns not inserted have their defaults; the policy version's is 1. *)
Definition addNote (options : SmartNoteInput) (now : Z) (db : notes_table) : notes_table :=
  {| nt_rows := <[nt_next db :=
       {| n_id := nt_next db; n_content := in_content options; n_sessionId := in_sessionId options;
          n_projectPath := Some (in_projectPath options);
          n_surfaceCondition := Some (in_surfaceCondition options);
          n_compiledProvider := in_compiledProvider options;
          n_compiledConfig := in_compiledConfig options; n_compiledAt := in_compiledAt options;
          n_compileStatus := in_compileStatus options; n_createdAt := now;
          n_state :=
            {| ls_status := pending; ls_readyAt := None; ls_readyReason := None;
               ls_lastCheckedAt := None; ls_updatedAt := now; ls_compiledCheck := None;
               ls_manifestJson := None; ls_checkHash := None; ls_checkCron := None;
               ls_checkVersion := 0; ls_checkStatus := uncompiled; ls_checkFailureCount := 0;
               ls_checkNetworkFailureCount := 0; ls_checkQuarantinedUntil := None;
               ls_checkNextDueAt := None; ls_checkCompiledAt := None; ls_checkFalseSinceAt := None;
               ls_checkLastLivenessAt := None; ls_policyVersion := 1 |};
          n_sourceRevision := 0; n_stateVersion := 0 |}]> (nt_rows db);
     nt_next := nt_next db + 1 |}.

(** Present options are [Some]; inside, [None] is null. *)
Record UpdateNoteOptions := {
  up_content : option string;
  up_sessionId : option (option string);
  up_projectPath : option (option string);
  up_surfaceCondition : option (option string);
  up_status : option NoteStatus;
  up_lastCheckedAt : option (option Z);
  up_readyAt : option (option Z);
  up_readyReason : option (option string);
  up_compiledProvider : option string;
  up_compiledConfig : option string;
  up_compiledAt : option Z;
  up_compileStatus : option ConditionCompileStatus
}.

Inductive note_error := status_with_compiler_input | dream_lease_lost.

Definition noteBelongsToScope (note : Note) (projectPath : string) : bool :=
  bool_decide (n_projectPath note = Some projectPath).

(** A present update that differs from the current value. *)
Definition changes {A} `{EqDecision A} (update : option A) (current : A) : bool :=
  match update with Some a => negb (bool_decide (a = current)) | None => false end.

(** No column is set. *)
Definition no_updates (u : UpdateNoteOptions) (inputChanged : bool) : bool :=
  match up_content u, up_sessionId u, up_projectPath u, up_surfaceCondition u, up_status u,
        up_lastCheckedAt u, up_readyAt u, up_readyReason u with
  | None, None, None, None, None, None, None, None => negb inputChanged
  | _, _, _, _, _, _, _, _ => false
  end.

(** The condition columns after an update. *)
Definition updated_condition {A} (conditionChanged moved : bool) (update current : option A)
    : option A :=
  if conditionChanged then update else if moved then None else current.

Definition updated_row (u : UpdateNoteOptions) (existing row : Note) (now : Z)
    (conditionChanged inputChanged : bool) : Note :=
  let moved := changes (up_projectPath u) (n_projectPath existing) &&
               bool_decide (n_compileStatus existing = Some cond_compiled) in
  let s := n_state row in
  {| n_id := n_id row;
     n_content := default (n_content row) (up_content u);
     n_sessionId := default (n_sessionId row) (up_sessionId u);
     n_projectPath := default (n_projectPath row) (up_projectPath u);
     n_surfaceCondition := default (n_surfaceCondition row) (up_surfaceCondition u);
     n_compiledProvider :=
       updated_condition conditionChanged (inputChanged && moved) (up_compiledProvider u) (n_compiledProvider row);
     n_compiledConfig :=
       updated_condition conditionChanged (inputChanged && moved) (up_compiledConfig u) (n_compiledConfig row);
     n_compiledAt :=
       updated_condition conditionChanged (inputChanged && moved) (up_compiledAt u) (n_compiledAt row);
     n_compileStatus :=
       updated_condition conditionChanged (inputChanged && moved) (up_compileStatus u) (n_compileStatus row);
     n_createdAt := n_createdAt row;
     n_state :=
       if inputChanged then fresh_state s now
       else with_readiness s (default (ls_status s) (up_status u))
              (default (ls_readyAt s) (up_readyAt u))
              (default (ls_readyReason s) (up_readyReason u))
              (default (ls_lastCheckedAt s) (up_lastCheckedAt u)) now;
     n_sourceRevision := n_sourceRevision row + (if inputChanged then 1 else 0);
     n_stateVersion := n_stateVersion row + 1 |}.

Definition updateNote (noteId : Z) (u : UpdateNoteOptions) (scope : string) (now : Z)
    (db : notes_table) : result note_error (option Note * notes_table) :=
  match nt_rows db !! noteId with
  | None => Ok (None, db)
  | Some row =>
      let existing := toNote row in
      if negb (noteBelongsToScope existing scope) then Ok (None, db)
      else
        let conditionChanged := changes (up_surfaceCondition u) (n_surfaceCondition existing) in
        let inputChanged := conditionChanged || changes (up_content u) (n_content existing) ||
                            changes (up_projectPath u) (n_projectPath existing) in
        if inputChanged && match up_status u with
                           | Some s => negb (bool_decide (s = pending))
                           | None => false
                           end
        then Err status_with_compiler_input
        else if no_updates u inputChanged then Ok (None, db)
        else
          let row := updated_row u existing row now conditionChanged inputChanged in
          Ok (Some (toNote row), set_row noteId row db)
  end.

Definition dismissNote (noteId : Z) (scope : string) (now : Z) (db : notes_table)
    : bool * notes_table :=
  match nt_rows db !! noteId with
  | None => (false, db)
  | Some row =>
      if negb (noteBelongsToScope (toNote row) scope) then (false, db)
      else if bool_decide (ls_status (n_state row) = dismissed) then (false, db)
      else
        let s := n_state row in
        (true, set_row noteId
                 (with_state (with_readiness s dismissed (ls_readyAt s) (ls_readyReason s)
                                (ls_lastCheckedAt s) now) row) db)
  end.

Definition markNoteReady (noteId : Z) (reason : option string) (now : Z) (db : notes_table)
    : notes_table :=
  match nt_rows db !! noteId with
  | None => db
  | Some row =>
      set_row noteId (with_state (with_readiness (n_state row) ready (Some now) reason (Some now) now)
                        row) db
  end.

Definition markNoteChecked (noteId now : Z) (db : notes_table) : notes_table :=
  match nt_rows db !! noteId with
  | None => db
  | Some row =>
      let s := n_state row in
      set_row noteId (with_state (with_readiness s (ls_status s) (ls_readyAt s) (ls_readyReason s)
                                    (Some now) now) row) db
  end.

Definition deleteNote (noteId : Z) (db : notes_table) : bool * notes_table :=
  (match nt_rows db !! noteId with Some _ => true | None => false end,
   {| nt_rows := delete noteId (nt_rows db); nt_next := nt_next db |}).

(** *** Selections *)

(** The first difference that is not zero, as [a || b] of a comparison. *)
Definition or_else (a b : Z) : Z := if a =? 0 then b else a.

Definition by_created (a b : Note) : Z :=
  or_else (n_createdAt a - n_createdAt b) (n_id a - n_id b).

Definition getPendingSmartNotes (projectPath : string) (db : notes_table) : list Note :=
  toNote <$>
    js_sort by_created
      (List.filter (fun r => bool_decide (n_projectPath r = Some projectPath) &&
                             bool_decide (ls_status (n_state r) = pending))
         ((map_to_list (nt_rows db)).*2)).

Definition eligibleSmartNotes (projectPath : string) (retinaHandoff : bool) (db : notes_table)
    : list Note :=
  List.filter (fun note => negb retinaHandoff ||
                           negb (bool_decide (n_compileStatus note = Some cond_compiled)))
    (getPendingSmartNotes projectPath db).

(** [x === null || x <= limit]. *)
Definition unset_or_le (x : option Z) (limit : Z) : bool :=
  match x with Some t => t <=? limit | None => true end.

Definition has_current_check (s : SmartNoteLifecycleState) : bool :=
  bool_decide (ls_checkStatus s = compiled) && bool_decide (is_Some (ls_compiledCheck s)) &&
  (ls_policyVersion s =? SMART_NOTE_CHECK_POLICY_VERSION).

Definition first_of (limit : Z) (l : list Note) : list Note := slice_to (Z.max 1 limit) l.

Definition getDueCompiledSmartNoteChecks (projectPath : string) (now limit : Z)
    (retinaHandoff : bool) (db : notes_table) : list Note :=
  first_of limit
    (js_sort (fun a b => or_else (default 0 (ls_checkNextDueAt (n_state a)) -
                                  default 0 (ls_checkNextDueAt (n_state b))) (n_id a - n_id b))
       (List.filter (fun note => let s := n_state note in
          has_current_check s && unset_or_le (ls_checkQuarantinedUntil s) now &&
          unset_or_le (ls_checkNextDueAt s) now)
          (eligibleSmartNotes projectPath retinaHandoff db))).

Definition needs_compilation (s : SmartNoteLifecycleState) : bool :=
  bool_decide (ls_checkStatus s = uncompiled) || bool_decide (ls_checkStatus s = failing) ||
  bool_decide (ls_compiledCheck s = None) ||
  negb (ls_policyVersion s =? SMART_NOTE_CHECK_POLICY_VERSION).

Definition getSmartNotesNeedingCompilation (projectPath : string) (now limit : Z)
    (retinaHandoff : bool) (db : notes_table) : list Note :=
  first_of limit
    (js_sort by_created
       (List.filter (fun note => unset_or_le (ls_checkNextDueAt (n_state note)) now &&
                                 needs_compilation (n_state note))
          (eligibleSmartNotes projectPath retinaHandoff db))).

(** [x !== null && x <= limit]. *)
Definition set_and_le (x : option Z) (limit : Z) : bool :=
  match x with Some t => t <=? limit | None => false end.

Definition getStaleCompiledSmartNotes (projectPath : string) (now limit : Z)
    (retinaHandoff : bool) (db : notes_table) : list Note :=
  let staleBefore := now - SMART_NOTE_CHECK_MAX_STALENESS_MS in
  let livenessBefore := now - SMART_NOTE_CHECK_LIVENESS_RECHECK_MS in
  first_of limit
    (js_sort (fun a b => or_else (default 0 (ls_checkFalseSinceAt (n_state a)) -
                                  default 0 (ls_checkFalseSinceAt (n_state b))) (n_id a - n_id b))
       (List.filter (fun note => let s := n_state note in
          has_current_check s && set_and_le (ls_checkFalseSinceAt s) staleBefore &&
          unset_or_le (ls_checkLastLivenessAt s) livenessBefore)
          (eligibleSmartNotes projectPath retinaHandoff db))).

Definition checked_rank (note : Note) : Z :=
  match ls_lastCheckedAt (n_state note) with Some _ => 1 | None => 0 end.

Definition getFallbackSmartNotes (projectPath : string) (limit : Z) (retinaHandoff : bool)
    (db : notes_table) : list Note :=
  first_of limit
    (js_sort (fun a b => or_else (checked_rank a - checked_rank b)
                           (or_else (default 0 (ls_lastCheckedAt (n_state a)) -
                                     default 0 (ls_lastCheckedAt (n_state b))) (n_id a - n_id b)))
       (List.filter (fun note => bool_decide (ls_checkStatus (n_state note) = fallback))
          (eligibleSmartNotes projectPath retinaHandoff db))).

(** *** The fenced commit *)

Record SmartNoteCommitExpectation := {
  xp_noteId : Z; xp_sourceRevision : Z; xp_stateVersion : Z
}.

Definition smartNoteCommitExpectation (note : Note) : SmartNoteCommitExpectation :=
  {| xp_noteId := n_id note; xp_sourceRevision := n_sourceRevision note;
     xp_stateVersion := n_stateVersion note |}.

Definition claimExpectedState (db : notes_table) (expected : SmartNoteCommitExpectation) : bool :=
  match nt_rows db !! xp_noteId expected with
  | Some row =>
      bool_decide (ls_status (n_state row) = pending) &&
      (n_sourceRevision row =? xp_sourceRevision expected) &&
      (n_stateVersion row =? xp_stateVersion expected)
  | None => false
  end.

Definition applySmartNoteReduction (noteId : Z) (reduction : SmartNoteReduction) (db : notes_table)
    : notes_table :=
  match nt_rows db !! noteId with
  | Some row => set_row noteId (with_state (rd_next reduction) row) db
  | None => db
  end.

(** The transaction, then the throw after a lost lease; [Ok true] committed. *)
Definition commitSmartNoteState (expected : SmartNoteCommitExpectation) (leaseHeld : bool)
    (write : notes_table → notes_table) (db : notes_table)
    : result note_error bool * notes_table :=
  if negb leaseHeld then (Err dream_lease_lost, db)
  else if claimExpectedState db expected then (Ok true, write db)
  else (Ok false, db).

(** ** Interleavings

    Mutators, selections and commits in any order; an evaluation in flight keeps
    the note it selected. *)

Record evaluation := { ev_phase : EvaluationPhase; ev_note : Note }.
Record notes_state := { st_db : notes_table; st_inflight : list evaluation }.

Inductive notes_op :=
| op_add (options : SmartNoteInput)
| op_update (noteId : Z) (u : UpdateNoteOptions) (scope : string)
| op_dismiss (noteId : Z) (scope : string)
| op_ready (noteId : Z) (reason : option string)
| op_checked (noteId : Z)
| op_delete (noteId : Z)
| op_select (phase : EvaluationPhase) (projectPath : string) (limit : Z) (retinaHandoff : bool)
| op_finish (evaluation : nat) (ex : SmartNotePhaseExecutors) (leaseHeld : bool).

Definition selection (phase : EvaluationPhase) (projectPath : string) (now limit : Z)
    (retinaHandoff : bool) (db : notes_table) : list Note :=
  match phase with
  | ph_compile => getSmartNotesNeedingCompilation projectPath now limit retinaHandoff db
  | ph_due => getDueCompiledSmartNoteChecks projectPath now limit retinaHandoff db
  | ph_liveness => getStaleCompiledSmartNotes projectPath now limit retinaHandoff db
  | ph_fallback => getFallbackSmartNotes projectPath limit retinaHandoff db
  end.

(** The rest of an evaluation: run the phase, reduce, commit. *)
Definition finish (ev : evaluation) (ex : SmartNotePhaseExecutors) (leaseHeld : bool) (now : Z)
    (db : notes_table) : bool * notes_table :=
  let note := ev_note ev in
  match evaluateSmartNotePhase (ev_phase ev) (ls_compiledCheck (n_state note)) ex with
  | None => (false, db)
  | Some outcome =>
      let reduction := reduceSmartNoteEvaluation (lifecycleStateFromNote note) outcome (n_id note) now in
      match commitSmartNoteState (smartNoteCommitExpectation note) leaseHeld
              (applySmartNoteReduction (n_id note) reduction) db with
      | (Ok committed, db) => (committed, db)
      | (Err _, db) => (false, db)
      end
  end.

Definition mutate (op : notes_op) (now : Z) (db : notes_table) : notes_table :=
  match op with
  | op_add options => addNote options now db
  | op_update id u scope => match updateNote id u scope now db with Ok (_, db) => db | Err _ => db end
  | op_dismiss id scope => (dismissNote id scope now db).2
  | op_ready id reason => markNoteReady id reason now db
  | op_checked id => markNoteChecked id now db
  | op_delete id => (deleteNote id db).2
  | _ => db
  end.

Definition notes_step (st : notes_state) (op : notes_op) (now : Z) : notes_state :=
  match op with
  | op_select phase project limit retina =>
      {| st_db := st_db st;
         st_inflight := st_inflight st ++
           ((fun note => {| ev_phase := phase; ev_note := note |}) <$>
              selection phase project now limit retina (st_db st)) |}
  | op_finish i ex leaseHeld =>
      match st_inflight st !! i with
      | Some ev =>
          {| st_db := (finish ev ex leaseHeld now (st_db st)).2;
             st_inflight := delete i (st_inflight st) |}
      | None => st
      end
  | _ => {| st_db := mutate op now (st_db st); st_inflight := st_inflight st |}
  end.

Definition empty_notes : notes_state :=
  {| st_db := {| nt_rows := ∅; nt_next := 1 |}; st_inflight := [] |}.

(** A run: every operation with the clock it read. *)
Definition notes_run (ops : list (notes_op * Z)) : notes_state :=
  foldl (fun st '(op, now) => notes_step st op now) empty_notes ops.

End notes.

(** ** Specification *)

(** The columns a pending note depends on: a compiled check is recent policy and
    has failed fewer than three times in a row, an uncompiled one may be tried
    again, and nothing is put off beyond a day after the last change. *)
Record schedule_ok (s : SmartNoteLifecycleState) : Prop := {
  so_failures : 0 ≤ ls_checkFailureCount s;
  so_network : 0 ≤ ls_checkNetworkFailureCount s;
  so_compiled : ls_checkStatus s = compiled →
    ls_checkFailureCount s < MAX_FAILURES_BEFORE_REAUTHOR ∧
    ls_checkNetworkFailureCount s < MAX_FAILURES_BEFORE_REAUTHOR ∧
    ls_policyVersion s = SMART_NOTE_CHECK_POLICY_VERSION;
  so_uncompiled : ls_checkStatus s = uncompiled → ls_checkFailureCount s < MAX_COMPILATION_FAILURES;
  so_due : ∀ t, ls_checkNextDueAt s = Some t → t ≤ ls_updatedAt s + SMART_NOTE_CHECK_CEILING_MS;
  so_quarantine : ∀ t, ls_checkQuarantinedUntil s = Some t →
    t ≤ ls_updatedAt s + SMART_NOTE_CHECK_CEILING_MS
}.

Definition state_ok (s : SmartNoteLifecycleState) : Prop :=
  schedule_ok s ∧ (ls_checkStatus s = compiled → is_Some (ls_compiledCheck s)).

(** What a phase's selection looks for in the check, whatever the time. *)
Definition suits (phase : EvaluationPhase) (s : SmartNoteLifecycleState) : Prop :=
  match phase with
  | ph_compile => True
  | ph_due | ph_liveness => has_current_check s = true
  | ph_fallback => ls_checkStatus s = fallback
  end.

Definition outcome_phase (o : SmartNoteEvaluationOutcome) : EvaluationPhase :=
  match o with
  | o_compiled _ _ | o_compilation_failed => ph_compile
  | o_due _ => ph_due
  | o_liveness _ => ph_liveness
  | o_fallback _ => ph_fallback
  end.

(** The clocks of a run never go back. *)
Definition clocks_ordered (ops : list (notes_op * Z)) : Prop := StronglySorted Z.le ops.*2.

(** ** Lemmas: schedule *)

Lemma backoff_bounds n : 0 < evaluationBackoffMs n ≤ SMART_NOTE_CHECK_CEILING_MS.
Proof.
  unfold evaluationBackoffMs, SMART_NOTE_CHECK_CEILING_MS.
  pose proof (Z.pow_pos_nonneg 2 (Z.max 0 (n - 1)) ltac:(lia) ltac:(lia)). lia.
Qed.

Lemma jitter_bounds `{Engine} interval noteId hash :
  Z.abs (deterministicJitterMs interval noteId hash) ≤ 60000.
Proof.
  unfold deterministicJitterMs. set (m := Z.min 60000 _). assert (m ≤ 60000) by lia.
  destruct (m <=? 0) eqn:E; [lia|].
  set (h := uint32 _). pose proof (Z.mod_pos_bound h (m * 2 + 1) ltac:(lia)). lia.
Qed.

Lemma next_check_range `{Engine} local cron now noteId hash :
  now + SMART_NOTE_CHECK_FLOOR_MS ≤ nextSmartNoteCheckDueAt local cron now noteId hash None None
    ≤ now + SMART_NOTE_CHECK_CEILING_MS.
Proof.
  unfold nextSmartNoteCheckDueAt. cbn [default]. unfold SMART_NOTE_CHECK_FLOOR_MS, SMART_NOTE_CHECK_CEILING_MS.
  cbn [default id from_option]. lia.
Qed.

(** ** Lemmas: the reducer *)

Section reducer.
Context `{Engine} (JSON_parse : string → option value) (local : Z → civil).

Lemma ready_schedule s reason now :
  schedule_ok s → ls_updatedAt s ≤ now → schedule_ok (readyFields s reason now).
Proof.
  intros [H1 H2 H3 H4 H5 H6] Hu. constructor; cbn; auto.
  - intros t E. specialize (H5 t E). lia.
  - intros t E. specialize (H6 t E). lia.
Qed.

Lemma attempt_schedule s now liveness checked status :
  schedule_ok s → ls_updatedAt s ≤ now →
  status = ls_checkStatus s ∨ (status ≠ compiled ∧ status ≠ uncompiled) →
  schedule_ok (with_attempt s now liveness checked status).
Proof.
  intros [H1 H2 H3 H4 H5 H6] Hu Hs. constructor; cbn; auto.
  - intros ->. destruct Hs as [E|[? _]]; [by apply H3|done].
  - intros ->. destruct Hs as [E|[_ ?]]; [by apply H4|done].
  - intros t E. specialize (H5 t E). lia.
  - intros t E. specialize (H6 t E). lia.
Qed.

Lemma false_schedule s noteId now cron hash :
  schedule_ok s → ls_updatedAt s ≤ now → schedule_ok (falseFields local s noteId now cron hash).
Proof.
  intros [H1 H2 H3 H4 H5 H6] Hu. constructor; cbn; try done.
  - intros E. unfold MAX_FAILURES_BEFORE_REAUTHOR. split_and!; [lia..|]. by apply H3.
  - intros t [= <-]. pose proof (next_check_range local cron now (Some noteId) hash). lia.
  - intros t E. specialize (H6 t E). lia.
Qed.

Lemma stored_schedule pre artifact noteId now :
  schedule_ok (stored_artifact local pre artifact noteId now).
Proof.
  constructor; cbn; try done.
  intros t [= <-].
  pose proof (next_check_range local (Some (ca_checkCron artifact)) now (Some noteId)
                (Some (ca_checkHash artifact))). lia.
Qed.

Lemma failed_schedule pre now failures network status quarantined due :
  0 ≤ failures → 0 ≤ network →
  (status = compiled → failures < MAX_FAILURES_BEFORE_REAUTHOR ∧ network < MAX_FAILURES_BEFORE_REAUTHOR ∧
     ls_policyVersion pre = SMART_NOTE_CHECK_POLICY_VERSION) →
  (status = uncompiled → failures < MAX_COMPILATION_FAILURES) →
  due ≤ now + SMART_NOTE_CHECK_CEILING_MS →
  (∀ t, quarantined = Some t → t ≤ now + SMART_NOTE_CHECK_CEILING_MS) →
  schedule_ok (failed_fields pre now failures network status quarantined due).
Proof. intros ??????. constructor; cbn; try done. by intros t [= <-]. Qed.

Lemma current_check_true s :
  has_current_check s = true →
  ls_checkStatus s = compiled ∧ is_Some (ls_compiledCheck s) ∧
  ls_policyVersion s = SMART_NOTE_CHECK_POLICY_VERSION.
Proof.
  unfold has_current_check. rewrite !andb_true_iff, !bool_decide_eq_true, Z.eqb_eq. tauto.
Qed.

Lemma check_failure_ok pre network now :
  schedule_ok pre → ls_updatedAt pre ≤ now → has_current_check pre = true →
  state_ok (reduceCheckFailure pre network now).
Proof.
  intros [H1 H2 H3 H4 H5 H6] Hu (Hc & Hs & Hp)%current_check_true.
  destruct (H3 Hc) as (F & N & _).
  pose proof (backoff_bounds (ls_checkFailureCount pre + 1)).
  pose proof (backoff_bounds (ls_checkNetworkFailureCount pre + 1)).
  unfold reduceCheckFailure, failure_status. destruct network; (split; [|done]).
  - apply failed_schedule; [lia|lia| | |lia|intros t [= <-]; lia].
    + intros E. destruct (_ <=? _) eqn:El; [done|]. unfold MAX_FAILURES_BEFORE_REAUTHOR in *. split_and!; [lia|lia|done].
    + intros E. by destruct (_ <=? _).
  - apply failed_schedule; [lia|lia| | |lia|].
    + intros E. destruct (_ <=? _) eqn:El; [done|]. unfold MAX_FAILURES_BEFORE_REAUTHOR in *. split_and!; [lia|lia|done].
    + intros E. by destruct (_ <=? _).
    + intros t E. specialize (H6 t E). lia.
Qed.

(** Every evaluation leaves the note well scheduled. *)
Lemma reduce_ok pre outcome noteId now :
  schedule_ok pre → ls_updatedAt pre ≤ now → suits (outcome_phase outcome) pre →
  state_ok (rd_next (reduceSmartNoteEvaluation JSON_parse local pre outcome noteId now)) ∧
  ls_updatedAt (rd_next (reduceSmartNoteEvaluation JSON_parse local pre outcome noteId now)) = now.
Proof.
  intros Hs Hu Hp. destruct outcome as [is_met artifact| |kind|kind|is_met]; cbn in Hp |- *.
  - unfold reduceCompile. pose proof (stored_schedule pre artifact noteId now).
    destruct is_met; cbn; (split; [split|done]); [|by cbn; eauto| |by cbn; eauto].
    + by apply ready_schedule.
    + by apply false_schedule.
  - split; [|done]. split; [|cbn; by destruct (_ <=? _)].
    destruct Hs as [H1 H2 H3 H4 H5 H6]. pose proof (backoff_bounds (ls_checkFailureCount pre + 1)).
    apply failed_schedule; [lia|lia| | |lia|].
    + by destruct (_ <=? _).
    + destruct (_ <=? _) eqn:E; [done|]. intros _. lia.
    + intros t E. specialize (H6 t E). lia.
  - destruct (current_check_true _ Hp) as (Hc & Hsome & _).
    destruct kind; cbn [reduceDue rd_next]; (split; [|done]).
    + split; [by apply ready_schedule|done].
    + split; [by apply false_schedule|done].
    + by apply check_failure_ok.
    + by apply check_failure_ok.
  - destruct (current_check_true _ Hp) as (Hc & Hsome & _).
    assert (∀ st, st = ls_checkStatus pre ∨ st ≠ compiled ∧ st ≠ uncompiled →
      schedule_ok (with_attempt pre now (Some now) (ls_lastCheckedAt pre) st)) as Ha
      by (intros; by apply attempt_schedule).
    destruct kind; cbn; (split; [split; [|done]|done]).
    + apply ready_schedule; [by auto|done].
    + apply false_schedule; [by auto|done].
    + apply Ha. by right.
    + apply Ha. by left.
  - unfold reduceFallback. destruct is_met; cbn; (split; [split|done]).
    + by apply ready_schedule.
    + cbn. by rewrite Hp.
    + apply attempt_schedule; [done..|]. by right.
    + done.
Qed.

Lemma evaluated_phase phase check ex outcome :
  evaluateSmartNotePhase phase check ex = Some outcome → outcome_phase outcome = phase.
Proof.
  destruct phase; cbn; unfold evaluateCompile, evaluateCompiledCheck; intros E;
    repeat (case_match; simplify_eq/=; try done).
  apply fmap_Some in E as (? & _ & ->). done.
Qed.

End reducer.

(** ** Lemmas: the table *)

Lemma note_strings_schedule s : schedule_ok (note_strings s) ↔ schedule_ok s.
Proof. split; intros [H1 H2 H3 H4 H5 H6]; by constructor. Qed.

(** One write of the table at [now]: a row is as before, or its successor, or new. *)
Definition successor (now : Z) (r r' : Note) : Prop :=
  n_stateVersion r' = n_stateVersion r + 1 ∧ n_id r' = n_id r ∧
  ls_updatedAt (n_state r') = now ∧
  (state_ok (n_state r) → ls_updatedAt (n_state r) ≤ now → state_ok (n_state r')).

Definition table_step (now : Z) (db db' : notes_table) : Prop :=
  nt_next db ≤ nt_next db' ∧
  ∀ id r', nt_rows db' !! id = Some r' →
    nt_rows db !! id = Some r' ∨
    (∃ r, nt_rows db !! id = Some r ∧ successor now r r') ∨
    (nt_next db ≤ id < nt_next db' ∧ n_id r' = id ∧ ls_updatedAt (n_state r') = now ∧
     state_ok (n_state r')).

Lemma same_table now db : table_step now db db.
Proof. split; [done|]. auto. Qed.

Lemma set_row_step now db id r r' :
  nt_rows db !! id = Some r → successor now r r' → table_step now db (set_row id r' db).
Proof.
  intros Hr Hs. split; [done|]. intros id' r2. cbn. destruct (decide (id = id')) as [<-|Hne].
  - rewrite lookup_insert_eq. intros [= <-]. right. left. eauto.
  - rewrite lookup_insert_ne by done. auto.
Qed.

Lemma readiness_ok s status readyAt reason checked now :
  state_ok s → ls_updatedAt s ≤ now → state_ok (with_readiness s status readyAt reason checked now).
Proof.
  intros [[H1 H2 H3 H4 H5 H6] Hc] Hu. split; [|done]. constructor; cbn; auto.
  - intros t E. specialize (H5 t E). lia.
  - intros t E. specialize (H6 t E). lia.
Qed.

Lemma fresh_ok s now : state_ok (fresh_state s now).
Proof. split; [|done]. by constructor. Qed.

Lemma mutate_step op now db : table_step now db (mutate op now db).
Proof.
  destruct op; cbn [mutate]; try apply same_table.
  - split; [cbn; lia|]. intros id r'. cbn. destruct (decide (nt_next db = id)) as [<-|Hne].
    + rewrite lookup_insert_eq. intros [= <-]. right. right. cbn. split; [lia|]. do 2 (split; [done|]).
      split; [|done]. by constructor.
    + rewrite lookup_insert_ne by done. auto.
  - unfold updateNote. destruct (nt_rows db !! noteId) as [row|] eqn:Er; [|apply same_table].
    destruct (negb _); [apply same_table|]. destruct (_ && _); [apply same_table|].
    destruct (no_updates _ _); [apply same_table|]. eapply set_row_step; [done|].
    do 2 (split; [done|]). split; [cbn; by destruct (_ || _)|]. intros Hs Hu. cbn.
    destruct (_ || _); [apply fresh_ok|by apply readiness_ok].
  - unfold dismissNote. destruct (nt_rows db !! noteId) as [row|] eqn:Er; [|apply same_table].
    destruct (negb _); [apply same_table|]. case_bool_decide; [apply same_table|].
    eapply set_row_step; [done|]. do 3 (split; [done|]). intros. by apply readiness_ok.
  - unfold markNoteReady. destruct (nt_rows db !! noteId) as [row|] eqn:Er; [|apply same_table].
    eapply set_row_step; [done|]. do 3 (split; [done|]). intros. by apply readiness_ok.
  - unfold markNoteChecked. destruct (nt_rows db !! noteId) as [row|] eqn:Er; [|apply same_table].
    eapply set_row_step; [done|]. do 3 (split; [done|]). intros. by apply readiness_ok.
  - split; [done|]. intros id r'. cbn. rewrite lookup_delete_Some. tauto.
Qed.

(** *** Selections *)

Lemma first_of_in limit l note : note ∈ first_of limit l → note ∈ l.
Proof.
  unfold first_of, slice_to. set (k := Z.to_nat _). intros Hin. rewrite <- (take_drop k l).
  apply elem_of_app. by left.
Qed.

Lemma list_filter_in {A} (p : A → bool) l x : x ∈ List.filter p l ↔ x ∈ l ∧ p x = true.
Proof. by rewrite list_elem_of_In, List.filter_In, <- list_elem_of_In. Qed.

Definition selectable (project : string) (retina : bool) (r : Note) : Prop :=
  n_projectPath r = Some project ∧ ls_status (n_state r) = pending ∧
  (retina = true → n_compileStatus r ≠ Some cond_compiled).

Lemma eligible_in project retina db note :
  note ∈ eligibleSmartNotes project retina db ↔
  ∃ id r, nt_rows db !! id = Some r ∧ note = toNote r ∧ selectable project retina r.
Proof.
  unfold eligibleSmartNotes, getPendingSmartNotes, selectable.
  rewrite list_filter_in, list_elem_of_fmap. split.
  - intros [(r & -> & Hr) Hf]. rewrite js_sort_in, list_filter_in, list_elem_of_fmap in Hr.
    destruct Hr as [([id r'] & -> & Hin%elem_of_map_to_list) Hp]. exists id, r'.
    rewrite andb_true_iff, !bool_decide_eq_true in Hp. split; [done|]. split; [done|].
    split_and!; [apply Hp..|]. intros ->. cbn in Hf. by rewrite negb_true_iff, bool_decide_eq_false in Hf.
  - intros (id & r & Hin & -> & Hp & Hs & Hc). split.
    + exists r. split; [done|]. rewrite js_sort_in, list_filter_in, list_elem_of_fmap. split.
      * exists (id, r). split; [done|]. by apply elem_of_map_to_list.
      * by rewrite andb_true_iff, !bool_decide_eq_true.
    + destruct retina; [|done]. cbn. rewrite negb_true_iff, bool_decide_eq_false. auto.
Qed.

Lemma selection_suits phase project now limit retina db note :
  note ∈ selection phase project now limit retina db →
  note ∈ eligibleSmartNotes project retina db ∧ suits phase (n_state note).
Proof.
  destruct phase; cbn; unfold getSmartNotesNeedingCompilation, getDueCompiledSmartNoteChecks,
    getStaleCompiledSmartNotes, getFallbackSmartNotes;
    intros Hin%first_of_in; rewrite js_sort_in, list_filter_in in Hin; destruct Hin as [He Hp];
    (split; [done|]); try done.
  - by bool_hyps.
  - by bool_hyps.
  - by apply bool_decide_eq_true in Hp.
Qed.

(** A selection with room takes every candidate. *)
Lemma first_of_all limit cmp l note :
  lengthZ l ≤ limit → note ∈ l → note ∈ first_of limit (js_sort cmp l).
Proof.
  intros Hl Hin. unfold first_of, slice_to. rewrite take_ge; [by apply js_sort_in|].
  rewrite js_sort_perm. unfold lengthZ in Hl. lia.
Qed.

Lemma list_filter_length {A} (p : A → bool) l : lengthZ (List.filter p l) ≤ lengthZ l.
Proof. unfold lengthZ. induction l as [|x l IH]; cbn; [done|]. case_match; cbn; lia. Qed.

Lemma eligible_length project retina db :
  lengthZ (eligibleSmartNotes project retina db) ≤ Z.of_nat (size (nt_rows db)).
Proof.
  unfold eligibleSmartNotes, getPendingSmartNotes.
  etrans; [apply list_filter_length|]. unfold lengthZ. rewrite length_fmap, js_sort_perm.
  pose proof (list_filter_length (fun r => bool_decide (n_projectPath r = Some project) &&
    bool_decide (ls_status (n_state r) = pending)) ((map_to_list (nt_rows db)).*2)) as H.
  unfold lengthZ in H. rewrite length_fmap, length_map_to_list in H. lia.
Qed.

(** ** Lemmas: interleavings *)

Section runs.
Context `{Engine} (JSON_parse : string → option value) (local : Z → civil).

Abbreviation step := (notes_step JSON_parse local).
Abbreviation finish' := (finish JSON_parse local).

(** A snapshot and the row it was read from. *)
Definition snapshot_of (db : notes_table) (ev : evaluation) (r : Note) : Prop :=
  ev_note ev = toNote r ∧ n_id r < nt_next db ∧ suits (ev_phase ev) (n_state (toNote r)) ∧
  ∀ r', nt_rows db !! n_id r = Some r' →
    n_stateVersion r ≤ n_stateVersion r' ∧ (n_stateVersion r' = n_stateVersion r → r' = r).

Definition versions_ok (st : notes_state) : Prop :=
  (∀ id r, nt_rows (st_db st) !! id = Some r → n_id r = id ∧ id < nt_next (st_db st)) ∧
  ∀ ev, ev ∈ st_inflight st → ∃ r, snapshot_of (st_db st) ev r.

Lemma snapshot_step now db db' ev r :
  snapshot_of db ev r → table_step now db db' → snapshot_of db' ev r.
Proof.
  intros (E & Hid & Hs & Hv) [Hn Ht]. split; [done|]. split; [lia|]. split; [done|].
  intros r' Hr'. destruct (Ht _ _ Hr') as [Hr|[(r0 & Hr & Es & _)|[? _]]].
  - by apply Hv.
  - destruct (Hv r0 Hr). split; lia.
  - lia.
Qed.

(** What a commit does: nothing, or the reduction of the very row selected. *)
Definition committed (ev : evaluation) (ex : SmartNotePhaseExecutors) (leaseHeld : bool) (now : Z)
    (db db' : notes_table) : Prop :=
  leaseHeld = true ∧
  ∃ r outcome, nt_rows db !! n_id (ev_note ev) = Some r ∧ ev_note ev = toNote r ∧
    ls_status (n_state r) = pending ∧
    evaluateSmartNotePhase (ev_phase ev) (ls_compiledCheck (n_state (toNote r))) ex = Some outcome ∧
    db' = set_row (n_id r)
            (with_state (rd_next (reduceSmartNoteEvaluation JSON_parse local (n_state (toNote r))
                                    outcome (n_id r) now)) r) db.

Lemma finish_spec ev ex held now db r :
  snapshot_of db ev r → (∀ id r, nt_rows db !! id = Some r → n_id r = id) →
  match finish' ev ex held now db with
  | (true, db') => committed ev ex held now db db'
  | (false, db') => db' = db
  end.
Proof.
  intros (E & _ & _ & Hv) Hid. unfold finish.
  destruct (evaluateSmartNotePhase _ _ ex) as [outcome|] eqn:Eo; [|done].
  unfold commitSmartNoteState. destruct held; [|done]. cbn [negb].
  destruct (claimExpectedState _ _) eqn:Ec; [|done].
  unfold claimExpectedState, smartNoteCommitExpectation in Ec. cbn in Ec. rewrite E in Ec. cbn in Ec.
  destruct (nt_rows db !! n_id r) as [row|] eqn:Er; [|done].
  rewrite !andb_true_iff, bool_decide_eq_true, !Z.eqb_eq in Ec. destruct Ec as [[Hp _] Hver].
  destruct (Hv row eq_refl) as [_ Heq]. specialize (Heq Hver). subst row.
  split; [done|]. exists r, outcome. rewrite E in *. cbn [n_id toNote] in *. split; [done|].
  do 3 (split; [done|]). unfold applySmartNoteReduction, lifecycleStateFromNote. by rewrite Er.
Qed.

(** A commit is a step of the table. *)
Lemma committed_step ev ex held now db db' :
  suits (ev_phase ev) (n_state (ev_note ev)) →
  (∀ id r, nt_rows db !! id = Some r → n_id r = id) →
  committed ev ex held now db db' → table_step now db db'.
Proof.
  intros Hsuits Hid (_ & r & outcome & Hr & E & _ & Eo & ->).
  rewrite E in Hr. cbn in Hr. eapply set_row_step; [exact Hr|].
  do 2 (split; [done|]). apply evaluated_phase in Eo. rewrite E in Hsuits. rewrite <- Eo in Hsuits.
  split.
  - cbn. clear. destruct outcome as [[]| |[]|[]|[]]; done.
  - intros [Hs _] Hu. apply reduce_ok; [by apply note_strings_schedule|done|done].
Qed.

Lemma finish_step ev ex held now db r :
  snapshot_of db ev r → (∀ id r, nt_rows db !! id = Some r → n_id r = id) →
  table_step now db (finish' ev ex held now db).2.
Proof.
  intros Hs Hid. pose proof (finish_spec ev ex held now db r Hs Hid) as Hf.
  destruct (finish' ev ex held now db) as [[] db']; cbn; [|subst; apply same_table].
  eapply committed_step; [|done|done]. destruct Hs as (-> & _ & ? & _). done.
Qed.

Lemma rows_step now db db' :
  (∀ id r, nt_rows db !! id = Some r → n_id r = id ∧ id < nt_next db) → table_step now db db' →
  ∀ id r, nt_rows db' !! id = Some r → n_id r = id ∧ id < nt_next db'.
Proof.
  intros Hids [Hn Ht] id r' Hr'. destruct (Ht id r' Hr') as [Hr|[(r & Hr & _ & E & _)|(? & ? & _)]].
  - destruct (Hids id r' Hr). split; [done|lia].
  - destruct (Hids id r Hr). split; [congruence|lia].
  - split; [done|lia].
Qed.

(** Every step of the state is one of the table; new snapshots are of its rows. *)
Lemma step_table st op now :
  versions_ok st →
  table_step now (st_db st) (st_db (step st op now)) ∧
  ∀ ev, ev ∈ st_inflight (step st op now) →
    ev ∈ st_inflight st ∨
    ∃ r, ev_note ev = toNote r ∧ nt_rows (st_db (step st op now)) !! n_id r = Some r ∧
         suits (ev_phase ev) (n_state (toNote r)).
Proof.
  intros [Hids Hsnap]. destruct op; cbn [notes_step]; try (split; [apply mutate_step|by auto]).
  - split; [apply same_table|]. cbn. intros ev [?|(note & -> & Hn)%list_elem_of_fmap]%elem_of_app; [by auto|].
    right. apply selection_suits in Hn as [(id & r & Hr & -> & _)%eligible_in Hs]. exists r.
    destruct (Hids id r Hr) as [-> _]. done.
  - destruct (st_inflight st !! evaluation0) as [ev|] eqn:Ee; [|by split; [apply same_table|auto]]. cbn.
    destruct (Hsnap ev) as [r Hr]; [by eapply list_elem_of_lookup_2|]. split.
    + eapply finish_step; [done|]. intros id' r' Hr'. by apply Hids.
    + intros ev' Hev'. left. rewrite <- (take_drop_middle _ _ _ Ee).
      rewrite delete_take_drop in Hev'. set_solver.
Qed.

Lemma versions_step st op now : versions_ok st → versions_ok (step st op now).
Proof.
  intros Hv. destruct (step_table st op now Hv) as [Ht Hev]. destruct Hv as [Hids Hsnap].
  pose proof (rows_step _ _ _ Hids Ht) as Hids'. split; [done|].
  intros ev [Hold|(r & E & Hr & Hs)]%Hev.
  - destruct (Hsnap ev Hold) as [r Hr]. exists r. by eapply snapshot_step.
  - exists r. split; [done|]. split; [by destruct (Hids' _ _ Hr)|]. split; [done|].
    intros r' Hr'. assert (r' = r) as -> by congruence. done.
Qed.

Lemma run_app ops op now :
  notes_run JSON_parse local (ops ++ [(op, now)]) = step (notes_run JSON_parse local ops) op now.
Proof. unfold notes_run. by rewrite foldl_app. Qed.

Lemma run_versions ops : versions_ok (notes_run JSON_parse local ops).
Proof.
  induction ops as [|[op now] ops IH] using rev_ind.
  - split; [by intros id r; cbn; rewrite lookup_empty|]. intros ev Hev. by apply not_elem_of_nil in Hev.
  - rewrite run_app. by apply versions_step.
Qed.

(** Every row is well scheduled and was written by [now]. *)
Definition rows_ok (now : Z) (db : notes_table) : Prop :=
  ∀ id r, nt_rows db !! id = Some r → state_ok (n_state r) ∧ ls_updatedAt (n_state r) ≤ now.

Lemma rows_ok_step db db' t now :
  rows_ok t db → t ≤ now → table_step now db db' → rows_ok now db'.
Proof.
  intros Hok Ht [_ Hs] id r' Hr'.
  destruct (Hs id r' Hr') as [Hr|[(r & Hr & _ & _ & Eu & Hi)|(_ & _ & Eu & Hi)]].
  - destruct (Hok id r' Hr). split; [done|lia].
  - destruct (Hok id r Hr). split; [apply Hi; [done|lia]|lia].
  - split; [done|lia].
Qed.

Lemma clocks_snoc ops op now :
  clocks_ordered (ops ++ [(op, now)]) → clocks_ordered ops ∧ ∀ t, t ∈ ops.*2 → t ≤ now.
Proof.
  unfold clocks_ordered. rewrite fmap_app. cbn. induction ops.*2 as [|t l IH]; cbn.
  - intros _. split; [constructor|]. intros t Ht. by apply not_elem_of_nil in Ht.
  - intros [Hs Hf]%StronglySorted_inv.
    destruct (IH Hs) as [Hl Hle]. apply Forall_app in Hf as [Hf Hn]. apply Forall_cons in Hn as [Hn _].
    split; [by constructor|]. intros t' [->|Ht']%elem_of_cons; [|by apply Hle]. done.
Qed.

Lemma run_rows_ok ops t :
  clocks_ordered ops → (∀ t', t' ∈ ops.*2 → t' ≤ t) →
  rows_ok t (st_db (notes_run JSON_parse local ops)).
Proof.
  revert t. induction ops as [|[op now] ops IH] using rev_ind; intros t Ho Ht.
  - intros id r. cbn. by rewrite lookup_empty.
  - apply clocks_snoc in Ho as [Ho Hnow]. rewrite run_app.
    destruct (step_table (notes_run JSON_parse local ops) op now (run_versions ops)) as [Hs _].
    assert (rows_ok now (st_db (step (notes_run JSON_parse local ops) op now))) as Hr.
    { eapply rows_ok_step; [by apply (IH now)|done|done]. }
    intros id r Hin. destruct (Hr id r Hin). split; [done|]. etrans; [done|]. apply Ht.
    rewrite fmap_app. set_solver.
Qed.

Lemma reachable_ok ops id r :
  clocks_ordered ops → nt_rows (st_db (notes_run JSON_parse local ops)) !! id = Some r →
  state_ok (n_state r).
Proof.
  intros Ho Hr. destruct ops as [|[op now] ops' _] using rev_ind;
    [by cbn in Hr; rewrite lookup_empty in Hr|].
  refine (proj1 (run_rows_ok _ now Ho _ id r Hr)).
  apply clocks_snoc in Ho as [_ Hle]. intros t.
  rewrite fmap_app, elem_of_app. cbn. rewrite list_elem_of_singleton.
  intros [?| ->]; [by apply Hle|done].
Qed.

End runs.

(** ** Properties *)

(** C4: an evaluation that commits is of the note as it stands: whatever the other
    users of the table did while it ran, a commit changes the table only if the
    lease is held and the row is still exactly the one selected, and then to the
    reduction of that very row by the outcome of its phase; otherwise nothing is
    written.  No update is lost to a stale evaluation. *)
Theorem evaluation_fenced `{Engine} JSON_parse local ops i ev ex leaseHeld now :
  st_inflight (notes_run JSON_parse local ops) !! i = Some ev →
  let db := st_db (notes_run JSON_parse local ops) in
  match finish JSON_parse local ev ex leaseHeld now db with
  | (true, db') => committed JSON_parse local ev ex leaseHeld now db db'
  | (false, db') => db' = db
  end.
Proof.
  intros Hi. destruct (run_versions JSON_parse local ops) as [Hids Hsnap].
  destruct (Hsnap ev) as [r Hr]; [by eapply list_elem_of_lookup_2|].
  apply (finish_spec _ _ _ _ _ _ _ r Hr). intros id r' Hr'. by apply Hids.
Qed.


(** No pending note is forgotten: a day after its last change at the latest,
    each pending note of the project (that the daemon does not own) is selected,
    to be compiled, to have its check run, or to be confirmed by the fallback,
    provided the selection has room for the project's notes. *)
Theorem pending_selected `{Engine} JSON_parse local ops id r project retina now limit :
  clocks_ordered ops →
  let db := st_db (notes_run JSON_parse local ops) in
  nt_rows db !! id = Some r → selectable project retina r →
  ls_updatedAt (n_state r) + SMART_NOTE_CHECK_CEILING_MS ≤ now →
  Z.of_nat (size (nt_rows db)) ≤ limit →
  toNote r ∈ getSmartNotesNeedingCompilation project now limit retina db ∨
  toNote r ∈ getDueCompiledSmartNoteChecks project now limit retina db ∨
  toNote r ∈ getFallbackSmartNotes project limit retina db.
Proof.
  intros Ho db Hr Hsel Hnow Hlimit.
  assert (toNote r ∈ eligibleSmartNotes project retina db) as He by (apply eligible_in; eauto).
  assert (schedule_ok (n_state r)) as [_ _ _ _ Hdue Hq].
  { destruct (reachable_ok JSON_parse local ops id r Ho Hr). done. }
  pose proof (eligible_length project retina db) as Hlen.
  assert (∀ p cmp, p (toNote r) = true →
    toNote r ∈ first_of limit (js_sort cmp (List.filter p (eligibleSmartNotes project retina db)))) as Hin.
  { intros p cmp Hp. apply first_of_all; [|by apply list_filter_in].
    etrans; [apply list_filter_length|]. lia. }
  assert (unset_or_le (ls_checkNextDueAt (n_state r)) now = true) as Hd.
  { destruct (ls_checkNextDueAt _) as [t|] eqn:E; [|done]. cbn. specialize (Hdue t eq_refl). lia. }
  assert (unset_or_le (ls_checkQuarantinedUntil (n_state r)) now = true) as Hqd.
  { destruct (ls_checkQuarantinedUntil _) as [t|] eqn:E; [|done]. cbn. specialize (Hq t eq_refl). lia. }
  destruct (needs_compilation (n_state (toNote r))) eqn:En.
  { left. apply Hin. cbn in *. by rewrite Hd, En. }
  right. unfold needs_compilation in En. rewrite !orb_false_iff, !bool_decide_eq_false, negb_false_iff in En.
  destruct En as [[[Hnu Hnf] Hc] Hpol].
  destruct (decide (ls_checkStatus (n_state r) = fallback)) as [Hf|Hf].
  - right. apply Hin. cbn. by apply bool_decide_eq_true.
  - left. apply Hin. cbn [n_state toNote note_strings ls_checkQuarantinedUntil ls_checkNextDueAt].
    rewrite Hd, Hqd, !andb_true_r. unfold has_current_check.
    rewrite !andb_true_iff, !bool_decide_eq_true. split; [|done].
    split; [|by apply not_eq_None_Some]. cbn in *. by destruct (ls_checkStatus (n_state r)).
Qed.

(** The next check of a note is between five minutes and a day away,
    whatever its schedule and hash; and when the schedule's next instant is at
    least five minutes away, the check is within a minute of it. *)
Theorem next_check_bounded `{Engine} local cron now noteId hash :
  let next := nextSmartNoteCheckDueAt local cron now noteId hash None None in
  now + SMART_NOTE_CHECK_FLOOR_MS ≤ next ≤ now + SMART_NOTE_CHECK_CEILING_MS ∧
  ∀ c t, cron = Some c → nextDueAtMs local c now None SMART_NOTE_CHECK_CEILING_MS = Some t → t ≠ 0 →
    now + SMART_NOTE_CHECK_FLOOR_MS ≤ t → Z.abs (next - t) ≤ 60000.
Proof.
  split; [apply next_check_range|]. intros c t -> Et Hnz Hfloor.
  destruct (next_due_cap _ _ _ _ _ _ Et) as (_ & Hcap & Htrim).
  unfold nextSmartNoteCheckDueAt. cbn [default].
  assert (String.eqb (trim c) "" = false) as ->.
  { unfold trim. by destruct (trim_units (code_units c)). }
  change (default SMART_NOTE_CHECK_CEILING_MS None) with SMART_NOTE_CHECK_CEILING_MS.
  change (default SMART_NOTE_CHECK_FLOOR_MS None) with SMART_NOTE_CHECK_FLOOR_MS.
  rewrite Et. apply Z.eqb_neq in Hnz. rewrite Hnz.
  unfold capMs_of, MAX_SEARCH_MS, MINUTE_MS, SMART_NOTE_CHECK_CEILING_MS, SMART_NOTE_CHECK_FLOOR_MS in *.
  set (clamped := Z.min _ (Z.max _ (t - now))).
  pose proof (jitter_bounds clamped noteId hash). lia.
Qed.

(** ** Examples *)

#[local] Instance sample_engine : Engine := {| numberToString := fun _ => "0"%string |}.

Definition no_json (s : string) : option value := None.
Definition noon (t : Z) : civil :=
  {| getFullYear := 2024; getMonth := 0; getDate := 1; getDay := 1; getHours := 12;
     getMinutes := t / 60000 mod 60 |}.

Definition sample_input : SmartNoteInput :=
  {| in_content := "check the release"; in_sessionId := None; in_projectPath := "p";
     in_surfaceCondition := "v2 is out"; in_compiledProvider := None; in_compiledConfig := None;
     in_compiledAt := None; in_compileStatus := None |}.

Definition sample_artifact : CompiledCheckArtifact :=
  {| ca_compiledCheck := "check"; ca_manifestJson := "{}"; ca_checkHash := "h";
     ca_checkCron := "*/30 * * * *" |}.

Definition executors (compile : CompileSmartNoteResult) (run : RunCompiledSmartNoteCheckResult)
    : SmartNotePhaseExecutors :=
  {| ex_compile := compile; ex_runCompiled := fun _ => run; ex_confirmFallback := None |}.

(** A note is compiled, and then checked while somebody marks it as checked. *)
Definition sample_ops : list (notes_op * Z) :=
  [(op_add sample_input, 0); (op_select ph_compile "p" 5 false, 0);
   (op_finish 0 (executors (compile_ok sample_artifact false) (run_ok false)) true, 1000);
   (op_select ph_due "p" 5 false, 4000000); (op_checked 1, 4000001)].

Definition checks_out : SmartNotePhaseExecutors := executors (compile_error false) (run_ok true).

Lemma evaluation_fenced_witness :
  ∃ ev, st_inflight (notes_run no_json noon (take 4 sample_ops)) !! 0%nat = Some ev ∧
    let db := st_db (notes_run no_json noon (take 4 sample_ops)) in
    ∃ db', finish no_json noon ev checks_out true 4000002 db = (true, db') ∧
           committed no_json noon ev checks_out true 4000002 db db'.
Proof.
  destruct (st_inflight (notes_run no_json noon (take 4 sample_ops)) !! 0%nat) as [ev|] eqn:E;
    [|vm_compute in E; discriminate].
  exists ev. split; [reflexivity|].
  pose proof (evaluation_fenced no_json noon (take 4 sample_ops) 0 ev checks_out true 4000002 E) as H.
  assert (fst (finish no_json noon ev checks_out true 4000002
            (st_db (notes_run no_json noon (take 4 sample_ops)))) = true) as F
    by (vm_compute in E; injection E as <-; vm_compute; reflexivity).
  cbv zeta in *. destruct (finish _ _ _ _ _ _ _) as [b db']. cbn in F. subst b.
  exists db'. split; [reflexivity|exact H].
Defined.

(** The same evaluation after the note was marked: refused. *)
Example stale_evaluation_refused :
  st_inflight (notes_run no_json noon sample_ops) !! 0%nat ≫= (fun ev =>
    Some (finish no_json noon ev checks_out true 4000002 (st_db (notes_run no_json noon sample_ops))).1)
  = Some false.
Proof. vm_compute. reflexivity. Qed.

Lemma sample_clocks : clocks_ordered sample_ops.
Proof.
  unfold clocks_ordered. cbn.
  repeat (apply SSorted_cons || apply SSorted_nil || apply List.Forall_cons || apply List.Forall_nil); lia.
Qed.


Lemma pending_selected_witness :
  let db := st_db (notes_run no_json noon sample_ops) in
  ∃ r, nt_rows db !! 1 = Some r ∧
    (toNote r ∈ getSmartNotesNeedingCompilation "p" 90500000 1 true db ∨
     toNote r ∈ getDueCompiledSmartNoteChecks "p" 90500000 1 true db ∨
     toNote r ∈ getFallbackSmartNotes "p" 1 true db).
Proof.
  cbv zeta.
  destruct (nt_rows (st_db (notes_run no_json noon sample_ops)) !! 1) as [r|] eqn:E;
    [|vm_compute in E; discriminate].
  exists r. split; [reflexivity|].
  apply (pending_selected no_json noon sample_ops 1 r "p" true 90500000 1 sample_clocks E).
  - vm_compute in E. injection E as <-. split; [reflexivity|]. split; [reflexivity|]. discriminate.
  - vm_compute in E. injection E as <-. vm_compute. discriminate.
  - vm_compute. discriminate.
Defined.

Example half_hourly_checks :
  nextSmartNoteCheckDueAt noon (Some "*/30 * * * *"%string) 60000 (Some 1) None None None = 1769886.
Proof. vm_compute. reflexivity. Qed.
