(* ===== verification/Ssrf.v ===== *)
(** * The guard of smart-note requests

    Models packages/plugin/src/features/magic-context/smart-notes/ssrf-guard.ts:
    which URLs a smart-note check may fetch, which addresses the connection may
    go to, how the candidates are tried and how a response is collected.  The
    bit operations on addresses are those of 32-bit integers and of BigInt.

    The URL parser, IDNA, the IPv6 grammar of [net.isIP], UTF-8 decoding, name
    resolution, the requests' outcomes and the abort signal are parameters. *)

From S2P Require Import Prelude JsNumber JsMap JsValue JsString.

(** ** Errors and host facilities *)

(** What is thrown; [NonError None] is a falsy value such as [undefined]. *)
Inductive thrown :=
| SmartNoteSecurityError (message : string)
| SmartNoteNetworkError (message : string) (terminal : bool)
| PlainError (message : string)
| NonError (text : option string).

Definition isTerminalSmartNoteNetworkError (error : thrown) : bool :=
  match error with SmartNoteNetworkError _ terminal => terminal | _ => false end.

Definition isSecurityError (error : thrown) : bool :=
  match error with SmartNoteSecurityError _ => true | _ => false end.

Definition toNetworkError (error : thrown) (fallback : string) : thrown :=
  match error with
  | SmartNoteNetworkError _ _ => error
  | _ =>
      let message := match error with
                     | SmartNoteSecurityError m | PlainError m => m
                     | NonError (Some text) => text
                     | _ => fallback
                     end in
      SmartNoteNetworkError
        ("SMART_NOTE_NETWORK: " ++ (if String.eqb message "" then fallback else message)) false
  end%string.

Record URL := {
  url_protocol : string; url_username : string; url_password : string; url_hash : string;
  url_hostname : string; url_port : string; url_pathname : string; url_search : string
}.

Class Node := {
  isIPv6 : string → bool;
  domainToASCII : string → string;
  parseURL : string → option URL;
  decodeUtf8 : list Z → string
}.

Record address := { ad_address : string; ad_family : Z }.

Record SmartNoteUrlValidation := {
  va_url : URL; va_hostname : string; va_addresses : list address
}.

Definition DNS_TIMEOUT_MS : Z := 3000.
Definition DEFAULT_HTTP_TIMEOUT_MS : Z := 5000.
Definition DEFAULT_HTTP_BODY_LIMIT_BYTES : Z := 64 * 1024.
Definition MAX_HTTP_ADDRESS_CANDIDATES : Z := 4.

(** ** IPv4 *)

(** [Number(part)] of a run of decimal digits, the only parts that reach it. *)
Definition Number_part (part : list Z) : option Z :=
  match part with [] => Some 0 | _ => decimal part end.

(** A decimal octet without a leading zero. *)
Definition octet (part : list Z) : option Z :=
  v ← decimal part;
  if (lengthZ part <=? 3) && (v <=? 255) &&
     ((lengthZ part =? 1) || negb (bool_decide (head part = Some 48)))
  then Some v else None.

(** [net.isIP(s) === 4]. *)
Definition isIPv4 (s : string) : bool :=
  match octet <$> split_units 46 [] (code_units s) with
  | [Some _; Some _; Some _; Some _] => true
  | _ => false
  end.

Definition is_byte (part : option Z) : bool :=
  match part with Some v => (0 <=? v) && (v <=? 255) | None => false end.

Definition ipv4ToNumber (address : string) : result thrown Z :=
  let parts := Number_part <$> split_units 46 [] (code_units address) in
  throw_if (negb (lengthZ parts =? 4) || existsb (fun p => negb (is_byte p)) parts)
    (SmartNoteSecurityError ("invalid IPv4 address: " ++ address));;
  let p i := default 0 (default None (parts !! i)) in
  mret (uint32 (uint32 (Z.shiftl (p 0%nat) 24) + int32 (Z.shiftl (p 1%nat) 16)
                + int32 (Z.shiftl (p 2%nat) 8) + p 3%nat)).

(** [(0xffffffff << (32 - bits)) >>> 0]: a shift count is taken modulo 32. *)
Definition mask (bits : Z) : Z :=
  if bits =? 0 then 0 else uint32 (int32 (Z.shiftl (int32 0xffffffff) ((32 - bits) mod 32))).

(** [(value & mask(bits)) === (base & mask(bits))]. *)
Definition inRange (value base bits : Z) : bool :=
  int32 (Z.land value (mask bits)) =? int32 (Z.land base (mask bits)).

Definition isGlobalIpv4 (value : Z) : bool :=
  negb (inRange value 0x00000000 8 ||
        inRange value 0x0a000000 8 ||
        inRange value 0x64400000 10 ||
        inRange value 0x7f000000 8 ||
        inRange value 0xa9fe0000 16 ||
        inRange value 0xac100000 12 ||
        inRange value 0xc0000000 24 ||
        inRange value 0xc0000200 24 ||
        inRange value 0xc0a80000 16 ||
        inRange value 0xc0586300 24 ||
        inRange value 0xc6120000 15 ||
        inRange value 0xc6336400 24 ||
        inRange value 0xcb007100 24 ||
        inRange value 0xe0000000 4 ||
        inRange value 0xf0000000 4 ||
        (value =? 0xffffffff)).

(** ** IPv6 *)

(** [Number.prototype.toString(16)] of a 16-bit number. *)
Fixpoint drop_zeros (l : list Z) : list Z :=
  match l with
  | [u] => [u]
  | u :: l' => if u =? 48 then drop_zeros l' else l
  | [] => []
  end.
Definition hex16 (z : Z) : list Z := drop_zeros (code_units (hex_padded 4 z)).

Definition hex_value (u : Z) : option Z :=
  if is_digit u then Some (u - 48)
  else if (97 <=? u) && (u <=? 102) then Some (u - 87)
  else if (65 <=? u) && (u <=? 70) then Some (u - 55)
  else None.

(** [/^[0-9a-f]{1,4}$/i.test(part) ? Number.parseInt(part, 16) : null]. *)
Definition parse_group (part : list Z) : option Z :=
  if (1 <=? lengthZ part) && (lengthZ part <=? 4) then
    digits ← mapM hex_value part; Some (foldl (fun n d => 16 * n + d) 0 digits)
  else None.

(** The dotted tail of an address replaced by two groups; [None] without a colon. *)
Definition expand_ipv4_tail (units : list Z) : result thrown (option (list Z)) :=
  if has_unit 46 units then
    match split_last 58 units with
    | None => mret None
    | Some (before, ipv4) =>
        v4 ← ipv4ToNumber (of_code_units ipv4);
        mret (Some (before ++ [58] ++ hex16 (Z.land (Z.shiftr v4 16) 0xffff) ++ [58] ++
                    hex16 (Z.land v4 0xffff)))
    end
  else mret (Some units).

Definition groups (half : list Z) : list (list Z) :=
  match half with [] => [] | _ => split_units 58 [] half end.

Definition parseIpv6ToParts (address : string) : result thrown (option (list Z)) :=
  let units := code_units address in
  if has_unit 37 units then mret None
  else
    expanded ← expand_ipv4_tail units;
    match expanded with
    | None => mret None
    | Some text =>
        let halves := split_seq (length text) [58; 58] [] text in
        mret (if 2 <? lengthZ halves then None
              else
                left ← mapM parse_group (groups (default [] (halves !! 0%nat)));
                right ← mapM parse_group (groups (default [] (halves !! 1%nat)));
                let missing := 8 - lengthZ left - lengthZ right in
                if (if lengthZ halves =? 1 then negb (missing =? 0) else missing <? 1) then None
                else Some (left ++ replicate (Z.to_nat missing) 0 ++ right))
    end.

Definition ipv6PartsToBigInt (parts : list Z) : Z :=
  foldl (fun acc part => Z.lor (Z.shiftl acc 16) part) 0 parts.

Definition ipv4MappedValue (parts : list Z) : option Z :=
  match parts with
  | [p0; p1; p2; p3; p4; p5; p6; p7] =>
      if existsb (fun p => negb (p =? 0)) [p0; p1; p2; p3; p4] || negb (p5 =? 0xffff) then None
      else Some (uint32 (uint32 (Z.shiftl p6 16) + p7))
  | _ => None
  end.

Definition maskBig (bits : Z) : Z :=
  if bits =? 0 then 0 else Z.shiftl (Z.shiftl 1 bits - 1) (128 - bits).

Definition inRangeBig (value base bits : Z) : bool :=
  Z.land value (maskBig bits) =? Z.land base (maskBig bits).

Definition isGlobalIpv6 (value : Z) : bool :=
  inRangeBig value 0x20000000000000000000000000000000 3 &&
  negb (inRangeBig value 0x20010000000000000000000000000000 23) &&
  negb (inRangeBig value 0x20010db8000000000000000000000000 32) &&
  negb (inRangeBig value 0x20020000000000000000000000000000 16) &&
  negb (inRangeBig value 0x64ff9b00000000000000000000000000 96) &&
  negb (inRangeBig value 0x64ff9b00010000000000000000000000 48) &&
  negb (inRangeBig value 0x10000000000000000000000000000000 64) &&
  negb (inRangeBig value 0xfc000000000000000000000000000000 7) &&
  negb (inRangeBig value 0xfe800000000000000000000000000000 10) &&
  negb (inRangeBig value 0xff000000000000000000000000000000 8) &&
  negb (value =? 0) && negb (value =? 1).

(** ** Literals *)

Inductive ip_literal :=
| Ip4 (address : string) (value : Z)
| Ip6 (address : string) (value : Z) (mappedIpv4 : option Z).

Definition literal_address (l : ip_literal) : address :=
  match l with
  | Ip4 a _ => {| ad_address := a; ad_family := 4 |}
  | Ip6 a _ _ => {| ad_address := a; ad_family := 6 |}
  end.

Definition isGlobalAddress (parsed : ip_literal) : bool :=
  match parsed with
  | Ip4 _ value => isGlobalIpv4 value
  | Ip6 _ _ (Some mapped) => isGlobalIpv4 mapped
  | Ip6 _ value None => isGlobalIpv6 value
  end.

(** [hostname.startsWith("[") && hostname.endsWith("]") ? hostname.slice(1, -1) : hostname]. *)
Definition stripIpv6Brackets (hostname : string) : string :=
  let units := code_units hostname in
  if bool_decide (head units = Some 91) && bool_decide (last units = Some 93)
  then of_code_units (take (length units - 2) (drop 1 units)) else hostname.

Section guard.
Context `{Node}.

Definition isIP (s : string) : Z := if isIPv4 s then 4 else if isIPv6 s then 6 else 0.

Definition parseIpLiteral (hostname : string) : result thrown (option ip_literal) :=
  let host := toLowerCase (stripIpv6Brackets hostname) in
  if isIP host =? 4 then value ← ipv4ToNumber host; mret (Some (Ip4 host value))
  else if isIP host =? 6 then
    parsed ← parseIpv6ToParts host;
    mret (match parsed with
          | None => None
          | Some parts => Some (Ip6 host (ipv6PartsToBigInt parts) (ipv4MappedValue parts))
          end)
  else mret None.

Definition canonicalDnsName (hostname : string) : result thrown string :=
  let ascii := domainToASCII hostname in
  throw_if (String.eqb ascii "") (SmartNoteSecurityError "invalid DNS hostname");;
  mret ascii.

Definition throwIfAborted (aborted : bool) : result thrown unit :=
  throw_if aborted (SmartNoteNetworkError "SMART_NOTE_NETWORK: aborted" false).

(** What wins the race of a promise, its timeout and the abort signal. *)
Inductive race_outcome (A : Type) :=
| settled (r : result thrown A)
| timed_out
| aborted_first.
Arguments settled {A} r.
Arguments timed_out {A}.
Arguments aborted_first {A}.

Definition withAbortAndTimeout {A} (aborted : bool) (outcome : race_outcome A)
    (timeoutMessage : string) : result thrown A :=
  throwIfAborted aborted;;
  match outcome with
  | settled r => r
  | timed_out => Err (SmartNoteNetworkError timeoutMessage false)
  | aborted_first => Err (SmartNoteNetworkError "SMART_NOTE_NETWORK: aborted" false)
  end.

Definition defaultResolver (dnsLookup : string → race_outcome (list address)) (aborted : bool)
    (hostname : string) : result thrown (list address) :=
  rows ← withAbortAndTimeout aborted (dnsLookup hostname) "DNS lookup timed out";
  mret (filter (fun row => (ad_family row =? 4) || (ad_family row =? 6)) rows).

(** [.catch(error => { throw toNetworkError(error, fallback); })]. *)
Definition catch_network {A} (r : result thrown A) (fallback : string) : result thrown A :=
  match r with Ok a => Ok a | Err error => Err (toNetworkError error fallback) end.

Definition classify (candidate : address) : result thrown (address * bool) :=
  parsed ← parseIpLiteral (ad_address candidate);
  match parsed with
  | Some (Ip4 a value as l) => mret (literal_address l, isGlobalAddress l)
  | _ => Err (SmartNoteSecurityError
                ("DNS returned an unparsable IPv4 address: " ++ ad_address candidate))
  end.

Fixpoint classify_all (candidates : list address) : result thrown (list (address * bool)) :=
  match candidates with
  | [] => mret []
  | c :: candidates => x ← classify c; rest ← classify_all candidates; mret (x :: rest)
  end.

Definition resolveHostToValidatedGlobalAddresses (aborted : bool)
    (lookup : string → result thrown (list address)) (rawHostname : string)
    : result thrown (list address) :=
  throwIfAborted aborted;;
  literal ← parseIpLiteral rawHostname;
  candidates ← match literal with
               | Some l => mret [literal_address l]
               | None =>
                   name ← canonicalDnsName rawHostname;
                   catch_network (lookup name) "DNS resolution failed"
               end;
  throw_if (lengthZ candidates =? 0)
    (SmartNoteSecurityError "DNS resolution returned no addresses");;
  let ipv4Candidates :=
    filter (fun c => negb (ad_family c =? 6) && negb (has_unit 58 (code_units (ad_address c))))
      candidates in
  throw_if (lengthZ ipv4Candidates =? 0)
    (SmartNoteNetworkError "SMART_NOTE_NETWORK: IPv6 destinations are not permitted" false);;
  classified ← classify_all ipv4Candidates;
  throw_if (existsb (fun c => negb c.2) classified)
    (SmartNoteSecurityError "URL resolves to a non-global/internal address");;
  mret classified.*1.

Definition without_hash (url : URL) : URL :=
  {| url_protocol := url_protocol url; url_username := url_username url;
     url_password := url_password url; url_hash := ""; url_hostname := url_hostname url;
     url_port := url_port url; url_pathname := url_pathname url; url_search := url_search url |}.

Definition validateSmartNoteHttpUrl (aborted : bool)
    (lookup : string → result thrown (list address)) (input : string)
    : result thrown SmartNoteUrlValidation :=
  match parseURL input with
  | None => Err (SmartNoteSecurityError "invalid URL")
  | Some url =>
      throw_if (negb (String.eqb (url_protocol url) "https:"))
        (SmartNoteSecurityError "smart-note httpGet only permits https URLs");;
      throw_if (negb (String.eqb (url_username url) "") || negb (String.eqb (url_password url) ""))
        (SmartNoteSecurityError "credentials in URLs are not allowed");;
      let url := if String.eqb (url_hash url) "" then url else without_hash url in
      let hostname := stripIpv6Brackets (url_hostname url) in
      throw_if (String.eqb hostname "") (SmartNoteSecurityError "URL host is required");;
      addresses ← resolveHostToValidatedGlobalAddresses aborted lookup hostname;
      mret {| va_url := url; va_hostname := hostname; va_addresses := addresses |}
  end.

(** ** Trying the candidates *)

Record response := { rs_status : Z; rs_body : string }.

(** The loop over the candidates: the addresses requested, in order, and what
    the function returns or throws.  [request i c] is the outcome of the [i]-th
    request and [aborted i] the signal after it failed. *)
Fixpoint try_candidates (request : nat → address → result thrown response)
    (aborted : nat → bool) (i : nat) (candidates : list address) (lastError : thrown)
    : list address * result thrown response :=
  match candidates with
  | [] => ([], Err (toNetworkError lastError "all validated addresses failed"))
  | candidate :: candidates =>
      match request i candidate with
      | Ok r => ([candidate], Ok r)
      | Err error =>
          if isSecurityError error || aborted i || isTerminalSmartNoteNetworkError error
          then ([candidate], Err error)
          else
            let '(trace, r) := try_candidates request aborted (S i) candidates error in
            (candidate :: trace, r)
      end
  end.

Definition guardedSmartNoteHttpGet (aborted : bool)
    (lookup : string → result thrown (list address))
    (request : SmartNoteUrlValidation → nat → address → result thrown response)
    (aborted_after : nat → bool) (input : string) : list address * result thrown response :=
  match validateSmartNoteHttpUrl aborted lookup input with
  | Err e => ([], Err e)
  | Ok validation =>
      let candidates := slice_to MAX_HTTP_ADDRESS_CANDIDATES (va_addresses validation) in
      try_candidates (request validation) aborted_after 0 candidates (NonError None)
  end.

(** What the lookup hook answers: the pinned address, in the shape asked for. *)
Inductive lookup_answer := one_address (a : address) | address_list (l : list address).

Definition createPinnedLookup (candidate : address) (hostname : string) (all : bool)
    : lookup_answer :=
  if all then address_list [candidate] else one_address candidate.

(** ** A request to one address *)

(** [url.host]. *)
Definition url_host (url : URL) : string :=
  if String.eqb (url_port url) "" then url_hostname url
  else (url_hostname url ++ ":" ++ url_port url)%string.

(** The options of [https.request].  A port that is no number is [None]; the lookup
    hook answers by the name and by whether all addresses are asked for. *)
Record request_options := {
  ro_protocol : string; ro_hostname : string; ro_port : option Z; ro_path : string;
  ro_method : string; ro_servername : option string; ro_headers : list (string * string);
  ro_lookup : string → bool → lookup_answer; ro_keepAlive : bool; ro_maxSockets : Z;
  ro_timeout : Z
}.

Definition request_options_of (validation : SmartNoteUrlValidation) (candidate : address)
    (timeoutMs : Z) : request_options :=
  let url := va_url validation in
  {| ro_protocol := "https:";
     ro_hostname := va_hostname validation;
     ro_port := if String.eqb (url_port url) "" then Some 443
                else Number_part (code_units (url_port url));
     ro_path := url_pathname url ++ url_search url;
     ro_method := "GET";
     ro_servername := if negb (isIP (va_hostname validation) =? 0)%Z then None
                      else Some (va_hostname validation);
     ro_headers := [("Host", url_host url);
                    ("User-Agent", "magic-context-smart-note-check/1");
                    ("Accept", "text/plain, application/json;q=0.9, */*;q=0.1")];
     ro_lookup := createPinnedLookup candidate;
     ro_keepAlive := false;
     ro_maxSockets := 1;
     ro_timeout := timeoutMs |}%string.

Inductive response_event :=
| ev_data (chunk : list Z)
| ev_response_error (error : thrown)
| ev_end (statusCode : option Z)
| ev_abort
| ev_timeout
| ev_error (error : thrown)
| ev_close.

Record exchange := {
  ex_chunks : list (list Z);
  ex_bytes : Z;
  ex_settled : option (result thrown response);
  ex_listening : bool
}.

Definition new_exchange : exchange :=
  {| ex_chunks := []; ex_bytes := 0; ex_settled := None; ex_listening := true |}.

(** [resolve] and [reject]: a promise settles once. *)
Definition settle_exchange (r : result thrown response) (x : exchange) : exchange :=
  {| ex_chunks := ex_chunks x; ex_bytes := ex_bytes x;
     ex_settled := match ex_settled x with Some r' => Some r' | None => Some r end;
     ex_listening := ex_listening x |}.

(** [options.signal.removeEventListener("abort", onAbort)]. *)
Definition stop_listening (x : exchange) : exchange :=
  {| ex_chunks := ex_chunks x; ex_bytes := ex_bytes x; ex_settled := ex_settled x;
     ex_listening := false |}.

Definition exchange_step (print_status : Z → string) (bodyLimitBytes : Z) (x : exchange)
    (e : response_event) : exchange :=
  match e with
  | ev_data chunk =>
      let bytes := ex_bytes x + lengthZ chunk in
      let x := {| ex_chunks := ex_chunks x; ex_bytes := bytes; ex_settled := ex_settled x;
                  ex_listening := ex_listening x |} in
      if bodyLimitBytes <? bytes
      then settle_exchange
             (Err (SmartNoteNetworkError "SMART_NOTE_NETWORK: response body too large" true)) x
      else {| ex_chunks := ex_chunks x ++ [chunk]; ex_bytes := bytes; ex_settled := ex_settled x;
              ex_listening := ex_listening x |}
  | ev_response_error error =>
      settle_exchange (Err (toNetworkError error "response failed")) x
  | ev_end statusCode =>
      let status := default 0 statusCode in
      settle_exchange
        (if 500 <=? status
         then Err (SmartNoteNetworkError
                     ("SMART_NOTE_NETWORK: transient HTTP " ++ print_status status)%string false)
         else Ok {| rs_status := status; rs_body := decodeUtf8 (concat (ex_chunks x)) |}) x
  | ev_abort =>
      if ex_listening x
      then stop_listening
             (settle_exchange (Err (SmartNoteNetworkError "SMART_NOTE_NETWORK: aborted" false)) x)
      else x
  | ev_timeout =>
      settle_exchange (Err (SmartNoteNetworkError "SMART_NOTE_NETWORK: request timed out" true)) x
  | ev_error error =>
      settle_exchange (Err (toNetworkError error "request failed")) (stop_listening x)
  | ev_close => stop_listening x
  end.

(** The promise after a sequence of events. *)
Definition exchange_after (print_status : Z → string) (bodyLimitBytes : Z)
    (events : list response_event) : exchange :=
  foldl (exchange_step print_status bodyLimitBytes) new_exchange events.

(** The request that is made, and the exchange its events lead to. *)
Definition requestValidatedAddress (print_status : Z → string)
    (validation : SmartNoteUrlValidation) (candidate : address) (timeoutMs bodyLimitBytes : Z)
    (events : list response_event) : request_options * exchange :=
  (request_options_of validation candidate timeoutMs,
   exchange_after print_status bodyLimitBytes events).

End guard.

(** ** Specification: dotted quads and the reserved blocks *)

Definition octet_text (v : Z) : list Z :=
  if v <? 10 then [48 + v]
  else if v <? 100 then [48 + v / 10; 48 + v mod 10]
  else [48 + v / 100; 48 + v / 10 mod 10; 48 + v mod 10].

Record quad := { q1 : Z; q2 : Z; q3 : Z; q4 : Z }.

Definition wf_quad (q : quad) : Prop :=
  0 ≤ q1 q < 256 ∧ 0 ≤ q2 q < 256 ∧ 0 ≤ q3 q < 256 ∧ 0 ≤ q4 q < 256.

Definition dotted (q : quad) : string :=
  of_code_units (octet_text (q1 q) ++ 46 :: octet_text (q2 q) ++ 46 :: octet_text (q3 q) ++
                 46 :: octet_text (q4 q)).

Definition quad_value (q : quad) : Z := q1 q * 2 ^ 24 + q2 q * 2 ^ 16 + q3 q * 2 ^ 8 + q4 q.

Definition Q (a b c d : Z) : quad := {| q1 := a; q2 := b; q3 := c; q4 := d |}.

(** First and last address of every block that is not globally reachable. *)
Definition RESERVED : list (quad * quad) :=
  [(Q 0 0 0 0, Q 0 255 255 255); (Q 10 0 0 0, Q 10 255 255 255);
   (Q 100 64 0 0, Q 100 127 255 255); (Q 127 0 0 0, Q 127 255 255 255);
   (Q 169 254 0 0, Q 169 254 255 255); (Q 172 16 0 0, Q 172 31 255 255);
   (Q 192 0 0 0, Q 192 0 0 255); (Q 192 0 2 0, Q 192 0 2 255);
   (Q 192 168 0 0, Q 192 168 255 255); (Q 192 88 99 0, Q 192 88 99 255);
   (Q 198 18 0 0, Q 198 19 255 255); (Q 198 51 100 0, Q 198 51 100 255);
   (Q 203 0 113 0, Q 203 0 113 255); (Q 224 0 0 0, Q 239 255 255 255);
   (Q 240 0 0 0, Q 255 255 255 255)].

Definition reserved (q : quad) : Prop :=
  ∃ block, block ∈ RESERVED ∧ quad_value block.1 ≤ quad_value q ≤ quad_value block.2.

(** ** Lemmas: masks *)

Lemma mask_spec bits : 0 < bits ≤ 32 → mask bits = Z.ldiff (Z.ones 32) (Z.ones (32 - bits)).
Proof.
  intros Hb. assert (bits ∈ seqZ 1 32) as Hin by (apply elem_of_seqZ; lia). clear Hb. revert bits Hin.
  apply Forall_forall. apply (bool_decide_unpack _). vm_compute. done.
Qed.

(** Masking the high bits of an [n]-bit number clears the others. *)
Lemma land_high_bits v n k :
  0 ≤ k ≤ n → 0 ≤ v < 2 ^ n →
  Z.land v (Z.ldiff (Z.ones n) (Z.ones k)) = v / 2 ^ k * 2 ^ k.
Proof.
  intros Hk Hv. rewrite Z.ldiff_land, Z.land_assoc.
  rewrite Z.land_ones, Z.mod_small, <- Z.ldiff_land by lia.
  rewrite Z.ldiff_ones_r, Z.shiftl_mul_pow2, Z.shiftr_div_pow2 by lia. done.
Qed.

(** Equal high bits, with an aligned base: membership in the block. *)
Lemma high_bits_block v base w :
  0 < w → base mod w = 0 → v / w * w = base / w * w ↔ base ≤ v < base + w.
Proof.
  intros Hw Hal.
  pose proof (Z.div_mod v w ltac:(lia)). pose proof (Z.mod_pos_bound v w ltac:(lia)).
  pose proof (Z.div_mod base w ltac:(lia)). split; [intros; nia|].
  intros Hin. assert (v / w = base / w) as ->; [|done].
  symmetry. apply (Z.div_unique v w (base / w) (v - base)); lia.
Qed.

Lemma int32_inj a b : 0 ≤ a < 2 ^ 32 → 0 ≤ b < 2 ^ 32 → int32 a = int32 b → a = b.
Proof.
  intros Ha Hb E. unfold int32 in E.
  assert ((a + 2 ^ 31) mod 2 ^ 32 = (b + 2 ^ 31) mod 2 ^ 32) as E' by lia.
  pose proof (Z.div_mod (a + 2 ^ 31) (2 ^ 32) ltac:(lia)).
  pose proof (Z.div_mod (b + 2 ^ 31) (2 ^ 32) ltac:(lia)).
  assert ((a + 2 ^ 31) / 2 ^ 32 = (b + 2 ^ 31) / 2 ^ 32); nia.
Qed.

(** Masked equality with an aligned base is membership in the block. *)
Lemma inRange_block v base bits :
  0 ≤ v < 2 ^ 32 → 0 ≤ base < 2 ^ 32 → 0 < bits ≤ 32 → base mod 2 ^ (32 - bits) = 0 →
  inRange v base bits = true ↔ base ≤ v < base + 2 ^ (32 - bits).
Proof.
  intros Hv Hbase Hbits Hal. assert (0 < 2 ^ (32 - bits)) by (apply Z.pow_pos_nonneg; lia).
  unfold inRange. rewrite Z.eqb_eq, mask_spec by done.
  rewrite <- (high_bits_block v base) by done. rewrite !land_high_bits by lia.
  set (w := 2 ^ (32 - bits)) in *.
  assert (∀ x, 0 ≤ x < 2 ^ 32 → 0 ≤ x / w * w < 2 ^ 32) as Hr.
  { intros x Hx. pose proof (Z.div_mod x w ltac:(lia)). pose proof (Z.mod_pos_bound x w ltac:(lia)).
    pose proof (Z.div_pos x w ltac:(lia) ltac:(lia)). nia. }
  split; [intros E; apply int32_inj; auto|by intros ->].
Qed.

Lemma maskBig_spec bits :
  0 < bits ≤ 128 → maskBig bits = Z.ldiff (Z.ones 128) (Z.ones (128 - bits)).
Proof.
  intros Hb. assert (bits ∈ seqZ 1 128) as Hin by (apply elem_of_seqZ; lia).
  clear Hb. revert bits Hin.
  apply Forall_forall. apply (bool_decide_unpack _). vm_compute. done.
Qed.

Lemma inRangeBig_block v base bits :
  0 ≤ v < 2 ^ 128 → 0 ≤ base < 2 ^ 128 → 0 < bits ≤ 128 → base mod 2 ^ (128 - bits) = 0 →
  inRangeBig v base bits = true ↔ base ≤ v < base + 2 ^ (128 - bits).
Proof.
  intros Hv Hbase Hbits Hal. unfold inRangeBig. rewrite Z.eqb_eq, maskBig_spec by done.
  rewrite !land_high_bits by lia. apply high_bits_block; [apply Z.pow_pos_nonneg; lia|done].
Qed.

(** Of the exclusions only three have an effect inside 2000::/3; the bases written
    for 64:ff9b::/96, 64:ff9b:1::/48 and 100::/64 miss their blocks, which lie
    outside 2000::/3 as it is. *)
Lemma isGlobalIpv6_blocks v :
  0 ≤ v < 2 ^ 128 →
  isGlobalIpv6 v = true ↔
  0x2000 * 2 ^ 112 ≤ v < 0x4000 * 2 ^ 112 ∧
  ¬ (0x2001 * 2 ^ 112 ≤ v < 0x2001 * 2 ^ 112 + 2 ^ 105) ∧
  ¬ (0x20010db8 * 2 ^ 96 ≤ v < 0x20010db9 * 2 ^ 96) ∧
  ¬ (0x2002 * 2 ^ 112 ≤ v < 0x2003 * 2 ^ 112).
Proof.
  intros Hv. unfold isGlobalIpv6. rewrite !andb_true_iff, !negb_true_iff, <- !not_true_iff_false.
  rewrite !inRangeBig_block, !Z.eqb_eq by (done || lia). lia.
Qed.

(** ** Lemmas: dotted quads *)

Lemma digit_bounds u : is_digit u = true ↔ 48 ≤ u ≤ 57.
Proof. unfold is_digit. rewrite andb_true_iff, !Z.leb_le. lia. Qed.

Lemma octet_spec part v : octet part = Some v ↔ 0 ≤ v < 256 ∧ part = octet_text v.
Proof.
  unfold octet, octet_text. split.
  - intros (w & Hw & Hc)%bind_Some. case_match eqn:E; [|done]. injection Hc as ->. bool_hyps.
    unfold decimal in Hw.
    apply Z.leb_le in H, H1. unfold lengthZ in H.
    destruct part as [|u1 [|u2 [|u3 [|]]]]; cbn in *; rewrite ?andb_true_r in *; try done;
      try lia;
      (case_match eqn:Ed; [|done]); injection Hw as <-;
      repeat (apply andb_true_iff in Ed as [?%digit_bounds Ed]);
      try apply digit_bounds in Ed; rewrite ?Z.mul_0_r, ?Z.add_0_l in *.
    + split; [lia|]. rewrite (proj2 (Z.ltb_lt _ _)) by lia. f_equal. lia.
    + assert (u1 ≠ 48) by (intros ->; done).
      split; [lia|]. rewrite (proj2 (Z.ltb_ge _ _)), (proj2 (Z.ltb_lt _ _)) by lia.
      repeat f_equal; Z.div_mod_to_equations; lia.
    + assert (u1 ≠ 48) by (intros ->; done).
      split; [lia|]. rewrite !(proj2 (Z.ltb_ge _ _)) by lia.
      repeat f_equal; Z.div_mod_to_equations; lia.
  - intros [Hv ->]. assert (v ∈ seqZ 0 256) as Hin by (apply elem_of_seqZ; lia). clear Hv.
    revert v Hin. apply Forall_forall. apply (bool_decide_unpack _). vm_compute. done.
Qed.

Lemma octet_text_units v : 0 ≤ v < 256 → 46 ∉ octet_text v ∧ Forall (fun u => 0 ≤ u < 256) (octet_text v).
Proof.
  intros Hv. assert (v ∈ seqZ 0 256) as Hin by (apply elem_of_seqZ; lia). clear Hv.
  revert v Hin. apply Forall_forall. apply (bool_decide_unpack _). vm_compute. done.
Qed.

Lemma dotted_units q :
  wf_quad q →
  code_units (dotted q) =
  octet_text (q1 q) ++ 46 :: octet_text (q2 q) ++ 46 :: octet_text (q3 q) ++ 46 :: octet_text (q4 q).
Proof.
  intros (H1 & H2 & H3 & H4). unfold dotted. apply code_units_of.
  rewrite !Forall_app, !Forall_cons, !Forall_app, !Forall_cons, !Forall_app, !Forall_cons.
  repeat split; try lia; by apply octet_text_units.
Qed.

Lemma dotted_split q :
  wf_quad q →
  split_units 46 [] (code_units (dotted q)) =
  [octet_text (q1 q); octet_text (q2 q); octet_text (q3 q); octet_text (q4 q)].
Proof.
  intros Hq. rewrite dotted_units by done. destruct Hq as (H1 & H2 & H3 & H4).
  apply octet_text_units in H1 as [??], H2 as [??], H3 as [??], H4 as [??].
  by rewrite !split_units_app, split_units_last.
Qed.

Lemma split_units_join l cur :
  ∃ parts, split_units 46 cur l = parts ∧
    foldr (fun p acc => match acc with None => Some p | Some a => Some (p ++ 46 :: a) end) None parts
    = Some (cur ++ l).
Proof.
  eexists; split; [done|]. revert cur. induction l as [|u l IH]; intros cur; cbn.
  - by rewrite app_nil_r.
  - destruct (u =? 46) eqn:E.
    + apply Z.eqb_eq in E as ->. cbn. by rewrite IH.
    + rewrite IH. by rewrite <- app_assoc.
Qed.

Lemma isIPv4_spec s : isIPv4 s = true ↔ ∃ q, wf_quad q ∧ s = dotted q.
Proof.
  unfold isIPv4. split.
  - intros H. destruct (split_units_join (code_units s) []) as (parts & E & Hj).
    rewrite E in H. clear E.
    destruct parts as [|p1 [|p2 [|p3 [|p4 [|]]]]]; cbn in H, Hj; try (repeat case_match; done).
    destruct (octet p1) as [v1|] eqn:E1, (octet p2) as [v2|] eqn:E2, (octet p3) as [v3|] eqn:E3,
      (octet p4) as [v4|] eqn:E4; try done.
    apply octet_spec in E1 as [? ->], E2 as [? ->], E3 as [? ->], E4 as [? ->].
    assert (wf_quad (Q v1 v2 v3 v4)) as Hq by (unfold wf_quad; cbn; tauto).
    exists (Q v1 v2 v3 v4). split; [done|]. apply code_units_inj.
    injection Hj as Hj. rewrite <- Hj. by rewrite dotted_units.
  - intros (q & Hq & ->). rewrite dotted_split by done. destruct Hq as (H1 & H2 & H3 & H4).
    cbn. by rewrite !(proj2 (octet_spec _ _) (conj H1 eq_refl)), !(proj2 (octet_spec _ _) (conj H2 eq_refl)),
      !(proj2 (octet_spec _ _) (conj H3 eq_refl)), !(proj2 (octet_spec _ _) (conj H4 eq_refl)).
Qed.

Lemma Number_octet_text v : 0 ≤ v < 256 → Number_part (octet_text v) = Some v.
Proof.
  intros Hv. assert (v ∈ seqZ 0 256) as Hin by (apply elem_of_seqZ; lia). clear Hv.
  revert v Hin. apply Forall_forall. apply (bool_decide_unpack _). vm_compute. done.
Qed.

Lemma ipv4ToNumber_dotted q : wf_quad q → ipv4ToNumber (dotted q) = Ok (quad_value q).
Proof.
  intros Hq. unfold ipv4ToNumber. rewrite dotted_split by done.
  destruct Hq as (H1 & H2 & H3 & H4). cbn -[Z.shiftl uint32 int32].
  rewrite !Number_octet_text by done. cbn -[Z.shiftl uint32 int32].
  rewrite !(proj2 (Z.leb_le _ _)) by lia. cbn -[Z.shiftl uint32 int32].
  unfold quad_value. rewrite !Z.shiftl_mul_pow2 by lia.
  rewrite !int32_small by lia. unfold uint32.
  rewrite (Z.mod_small (q1 q * 2 ^ 24)) by lia. by rewrite Z.mod_small by lia.
Qed.

Lemma quad_value_bounds q : wf_quad q → 0 ≤ quad_value q < 2 ^ 32.
Proof. unfold wf_quad, quad_value. lia. Qed.

Lemma isGlobalIpv4_spec q : wf_quad q → isGlobalIpv4 (quad_value q) = true ↔ ¬ reserved q.
Proof.
  intros Hq%quad_value_bounds. unfold reserved. rewrite <- Exists_exists.
  generalize dependent (quad_value q). intros v Hv.
  unfold isGlobalIpv4. rewrite negb_true_iff, <- not_true_iff_false. apply not_iff_compat.
  rewrite !orb_true_iff, Z.eqb_eq, !inRange_block by (done || lia).
  unfold RESERVED, quad_value. rewrite !Exists_cons, Exists_nil. cbn [fst snd q1 q2 q3 q4 Q].
  lia.
Qed.

(** ** Lemmas: literals and answers *)

Section flow.
Context `{Node}.

(** An address as the guard pins it. *)
Definition normalized (c : address) : address :=
  {| ad_address := toLowerCase (stripIpv6Brackets (ad_address c)); ad_family := 4 |}.

(** A dotted quad outside every reserved block. *)
Definition globally_reachable (a : address) : Prop :=
  ∃ q, wf_quad q ∧ ¬ reserved q ∧ a = {| ad_address := dotted q; ad_family := 4 |}.

Definition ipv4_answer (c : address) : Prop :=
  negb (ad_family c =? 6) && negb (has_unit 58 (code_units (ad_address c))).

(** The answers for a host: the literal it is, or what the resolver says of its
    ASCII name. *)
Definition host_answers (lookup : string → result thrown (list address)) (hostname : string)
    (answers : list address) : Prop :=
  (∃ l, parseIpLiteral hostname = Ok (Some l) ∧ answers = [literal_address l]) ∨
  (parseIpLiteral hostname = Ok None ∧ lookup (domainToASCII hostname) = Ok answers).

(** The address a request connects to, as Node documents it: its host when that is an
    IP address, else what its lookup hook answers for the host, in either shape. *)
Definition peers (options : request_options) (a : address) : Prop :=
  if negb (isIP (ro_hostname options) =? 0) then ad_address a = ro_hostname options
  else ro_lookup options (ro_hostname options) false = one_address a ∧
       ro_lookup options (ro_hostname options) true = address_list [a].

Lemma dotted_unchanged q :
  wf_quad q → stripIpv6Brackets (dotted q) = dotted q ∧ toLowerCase (dotted q) = dotted q.
Proof.
  intros Hq. assert (Forall (fun u => 46 ≤ u ≤ 57) (code_units (dotted q))) as Hu.
  { rewrite dotted_units by done. destruct Hq as (H1 & H2 & H3 & H4).
    rewrite !Forall_app, !Forall_cons, !Forall_app, !Forall_cons, !Forall_app, !Forall_cons.
    unfold octet_text. repeat split; try lia; repeat case_match;
      repeat (constructor; [Z.div_mod_to_equations; lia|]); constructor. }
  split.
  - unfold stripIpv6Brackets. rewrite bool_decide_eq_false_2; [done|]. intros Hh.
    destruct (code_units (dotted q)) as [|u us]; [done|]. simplify_eq/=.
    apply Forall_cons in Hu as [? _]. lia.
  - unfold toLowerCase. rewrite (Forall_fmap_ext_1 lower_unit id), list_fmap_id.
    + apply of_code_units_units.
    + eapply Forall_impl; [exact Hu|]. intros u Hr. cbv beta in Hr. unfold lower_unit, id.
      match goal with |- (if ?b then _ else _) = _ => destruct b eqn:E end; [lia|done].
Qed.

Lemma isIP_4 s : isIP s = 4 → ∃ q, wf_quad q ∧ s = dotted q.
Proof. unfold isIP. destruct (isIPv4 s) eqn:E; [by apply isIPv4_spec in E|by destruct (isIPv6 s)]. Qed.

Lemma parseIpLiteral_ip4 s a v :
  parseIpLiteral s = Ok (Some (Ip4 a v)) →
  a = toLowerCase (stripIpv6Brackets s) ∧ ∃ q, wf_quad q ∧ a = dotted q ∧ v = quad_value q.
Proof.
  unfold parseIpLiteral. set (host := toLowerCase _). intros E.
  destruct (isIP host =? 4) eqn:E4.
  - inv_ok. simplify_eq/=. split; [done|]. unfold isIP in E4.
    destruct (isIPv4 host) eqn:Ei; [|by destruct (isIPv6 host)].
    apply isIPv4_spec in Ei as (q & Hq & Eq). exists q. rewrite Eq in *.
    rewrite ipv4ToNumber_dotted in * by done. inv_ok. done.
  - destruct (isIP host =? 6); inv_ok; [|done]. by case_match.
Qed.

Lemma classify_ok c x :
  classify c = Ok x →
  x.1 = normalized c ∧ (x.2 = true → globally_reachable x.1).
Proof.
  unfold classify. intros E. inv_ok. case_match; [|done]. case_match; [|done]. subst. inv_ok.
  match goal with H : parseIpLiteral _ = _ |- _ => apply parseIpLiteral_ip4 in H as (-> & q & Hq & Ed & ->) end.
  cbn. split; [done|]. rewrite Ed. intros Hg%isGlobalIpv4_spec; [|done]. by exists q.
Qed.

Lemma classify_all_ok candidates l :
  classify_all candidates = Ok l →
  l.*1 = normalized <$> candidates ∧ Forall (fun x => x.2 = true → globally_reachable x.1) l.
Proof.
  revert l. induction candidates as [|c candidates IH]; intros l E; cbn in E; inv_ok; [done|].
  match goal with H : classify _ = _ |- _ => apply classify_ok in H as [E1 Hg] end.
  match goal with H : classify_all _ = _ |- _ => apply IH in H as [E2 Hl] end.
  cbn. split; [by rewrite E1, E2|by constructor].
Qed.

(** What a host resolves to, when the guard lets it through. *)
Lemma resolve_ok aborted lookup hostname addresses :
  resolveHostToValidatedGlobalAddresses aborted lookup hostname = Ok addresses →
  Forall globally_reachable addresses ∧
  ∃ answers, host_answers lookup hostname answers ∧
    addresses = normalized <$> filter ipv4_answer answers.
Proof.
  unfold resolveHostToValidatedGlobalAddresses. intros E. inv_ok.
  match goal with H : classify_all _ = _ |- _ => apply classify_all_ok in H as [E1 Hg] end.
  split.
  - apply Forall_fmap. apply Forall_forall. intros y Hy.
    rewrite Forall_forall in Hg. apply Hg; [done|]. apply not_false_is_true. intros Hf.
    match goal with H : existsb _ _ = false |- _ => rewrite <- not_true_iff_false in H; apply H end.
    apply existsb_exists. exists y. split; [by apply list_elem_of_In|by rewrite Hf].
  - eexists. split; [|exact E1]. case_match; inv_ok; [left; eauto|right].
    unfold catch_network, canonicalDnsName in *. inv_ok. case_match; inv_ok. eauto.
Qed.

Lemma try_candidates_spec request aborted i candidates e trace r :
  try_candidates request aborted i candidates e = (trace, r) →
  trace `prefix_of` candidates ∧
  (∀ resp, r = Ok resp →
     ∃ pre c, trace = pre ++ [c] ∧ request (i + length pre)%nat c = Ok resp).
Proof.
  revert i e trace r. induction candidates as [|c candidates IH]; intros i e trace r E; cbn in E.
  { simplify_eq. split; [apply prefix_nil|done]. }
  destruct (request i c) as [resp|error] eqn:Er.
  - simplify_eq. split; [by exists candidates|]. intros ? [= <-]. exists [], c.
    by rewrite Nat.add_0_r.
  - case_match.
    + simplify_eq. split; [by exists candidates|done].
    + destruct (try_candidates _ _ _ _ _) as [t r'] eqn:Et. simplify_eq.
      apply IH in Et as [Hp Hr]. split; [by apply prefix_cons|].
      intros resp Hresp. destruct (Hr resp Hresp) as (pre & c' & -> & Hq).
      exists (c :: pre), c'. split; [done|].
      cbn. by rewrite Nat.add_succ_r.
Qed.

Lemma validate_target_ok aborted lookup input v :
  validateSmartNoteHttpUrl aborted lookup input = Ok v →
  (∃ url, (parseURL input = Some url ∧ url_protocol url = "https:" ∧ url_username url = "" ∧
           url_password url = "")%string ∧
          va_url v = without_hash url ∧ va_hostname v = stripIpv6Brackets (url_hostname url)) ∧
  resolveHostToValidatedGlobalAddresses aborted lookup (va_hostname v) = Ok (va_addresses v).
Proof.
  unfold validateSmartNoteHttpUrl. intros E. case_match; [|done]. inv_ok. bool_hyps.
  repeat match goal with H : String.eqb _ _ = true |- _ => apply String.eqb_eq in H end.
  split; [|done]. eexists. split; [by split_and!|]. cbn [va_url va_hostname].
  destruct (String.eqb_spec (url_hash u) "") as [E|E]; [|done].
  split; [|done]. destruct u; cbn in *. by rewrite E.
Qed.

(** The request to a validated address connects to it: a literal host is its only
    answer, and any other host is pinned by the lookup hook. *)
Lemma validated_peer lookup hostname answers url timeoutMs c :
  host_answers lookup hostname answers → isIP hostname ≠ 6 →
  c ∈ normalized <$> filter ipv4_answer answers →
  peers (request_options_of {| va_url := url; va_hostname := hostname;
                               va_addresses := normalized <$> filter ipv4_answer answers |}
           c timeoutMs) c.
Proof.
  intros Ha H6 Hc. unfold peers. cbn [ro_hostname ro_lookup request_options_of va_hostname].
  destruct (isIP hostname =? 0) eqn:E0; cbn [negb]; [by split|].
  assert (isIP hostname = 4) as E4.
  { unfold isIP in *. destruct (isIPv4 hostname); [done|]. by destruct (isIPv6 hostname). }
  destruct (isIP_4 _ E4) as (q & Hq & ->). destruct (dotted_unchanged q Hq) as [Hs Hl].
  assert (parseIpLiteral (dotted q) = Ok (Some (Ip4 (dotted q) (quad_value q)))) as Ep.
  { unfold parseIpLiteral. rewrite Hs, Hl, E4, ipv4ToNumber_dotted by done. done. }
  destruct Ha as [(l & El & ->)|[En _]]; [|congruence].
  assert (l = Ip4 (dotted q) (quad_value q)) as -> by congruence.
  apply list_elem_of_fmap in Hc as (a & -> & Hin). apply list_elem_of_filter in Hin as [_ Hin].
  apply list_elem_of_singleton in Hin as ->. cbn. by rewrite Hs.
Qed.

Definition chunks_of (events : list response_event) : list (list Z) :=
  omap (fun e => match e with ev_data chunk => Some chunk | _ => None end) events.

Lemma settle_settled r x r' :
  ex_settled x = Some r' → ex_settled (settle_exchange r x) = Some r'.
Proof. cbn. by intros ->. Qed.

Lemma step_settled print limit x e r :
  ex_settled x = Some r → ex_settled (exchange_step print limit x e) = Some r.
Proof. intros Hx. destruct e; cbn; rewrite ?Hx; try done; case_match; cbn; by rewrite ?Hx. Qed.

Lemma steps_settled print limit events x r :
  ex_settled x = Some r → ex_settled (foldl (exchange_step print limit) x events) = Some r.
Proof. revert x. induction events; intros x Hx; cbn; [done|]. eauto using step_settled. Qed.

Lemma lengthZ_concat_snoc (l : list (list Z)) c :
  lengthZ (concat (l ++ [c])) = lengthZ (concat l) + lengthZ c.
Proof. rewrite concat_app, lengthZ_app. cbn. by rewrite app_nil_r. Qed.

(** An exchange that has not settled holds exactly the data so far. *)
Lemma unsettled_chunks print limit events :
  0 ≤ limit → ex_settled (exchange_after print limit events) = None →
  ex_chunks (exchange_after print limit events) = chunks_of events ∧
  ex_bytes (exchange_after print limit events) = lengthZ (concat (chunks_of events)) ∧
  lengthZ (concat (chunks_of events)) ≤ limit.
Proof.
  intros Hl. unfold exchange_after, chunks_of.
  induction events as [|e events IH] using rev_ind; [by cbn|].
  rewrite !foldl_app, omap_app. cbn [foldl]. set (x := foldl _ _ events) in *. intros Hs.
  assert (ex_settled x = None) as Hx.
  { destruct (ex_settled x) eqn:E; [|done]. by erewrite step_settled in Hs. }
  destruct (IH Hx) as (Ec & Eb & Hle). destruct e; cbn in *; rewrite ?Hx in Hs; try done.
  2:{ destruct (ex_listening x); cbn in *; rewrite ?Hx in Hs; [done|]. rewrite app_nil_r. by split_and!. }
  2:{ rewrite app_nil_r. by split_and!. }
  rewrite !lengthZ_concat_snoc. destruct (limit <? _) eqn:Hlim; cbn in *; rewrite ?Hx in Hs; [done|].
  rewrite Ec, Eb in *. repeat split. lia.
Qed.

(** ** Properties *)

(** The address arithmetic decides what it means to: an IPv4 literal is
    accepted exactly when it is a dotted quad of octets without leading zeros,
    its number is the quad's, and the masked comparisons call it global exactly
    when it lies in none of the fifteen reserved blocks. *)
Theorem ipv4_guard_decides :
  (∀ s, isIPv4 s = true ↔ ∃ q, wf_quad q ∧ s = dotted q) ∧
  (∀ q, wf_quad q → ipv4ToNumber (dotted q) = Ok (quad_value q)) ∧
  (∀ q, wf_quad q → isGlobalIpv4 (quad_value q) = true ↔ ¬ reserved q).
Proof.
  split; [exact isIPv4_spec|]. split; [exact ipv4ToNumber_dotted|exact isGlobalIpv4_spec].
Qed.

(** C40: the guard requests no internal address.  Whatever the URL, the resolver's
    answers, the requests' outcomes and the abort signal, either it requests nothing and
    throws; or the URL is https without credentials, every IPv4 answer for its own host -
    the literal the host is, or what the resolver says of the host's ASCII name - is a
    dotted quad outside every reserved block, and the addresses requested are the first
    of these answers, in their order and at most four.  Each request is made for the
    URL's host; unless that is an IPv6 literal, it connects to the address it was
    validated for, by the literal or by the pinned lookup.  A response that is returned is
    that of the last request. *)
Theorem guarded_requests_global (aborted : bool) lookup request aborted_after input trace r :
  guardedSmartNoteHttpGet aborted lookup request aborted_after input = (trace, r) →
  (trace = [] ∧ is_ok r = false) ∨
  ∃ url validation answers,
    (parseURL input = Some url ∧ url_protocol url = "https:" ∧
     url_username url = "" ∧ url_password url = "")%string ∧
    va_url validation = without_hash url ∧
    va_hostname validation = stripIpv6Brackets (url_hostname url) ∧
    host_answers lookup (va_hostname validation) answers ∧
    Forall (fun c => ipv4_answer c → globally_reachable (normalized c)) answers ∧
    trace `prefix_of` (normalized <$> filter ipv4_answer answers) ∧
    Forall globally_reachable trace ∧ lengthZ trace ≤ 4 ∧
    (isIP (va_hostname validation) ≠ 6 → ∀ timeoutMs,
       Forall (fun c => peers (request_options_of validation c timeoutMs) c) trace) ∧
    (∀ resp, r = Ok resp →
       ∃ pre c, trace = pre ++ [c] ∧ request validation (length pre) c = Ok resp).
Proof.
  unfold guardedSmartNoteHttpGet. intros E.
  destruct (validateSmartNoteHttpUrl _ _ _) as [v|e] eqn:Ev; simplify_eq; [right|by left].
  apply try_candidates_spec in E as [Hp Hr].
  apply validate_target_ok in Ev as [(url & (Hu1 & Hu2 & Hu3 & Hu4) & Evu & Evh) Hres].
  apply resolve_ok in Hres as (Hg & answers & Ha & Eadd).
  unfold slice_to in Hp. change (Z.to_nat MAX_HTTP_ADDRESS_CANDIDATES) with 4%nat in Hp.
  assert (trace `prefix_of` va_addresses v) as Hpre by (etrans; [exact Hp|exists (drop 4 (va_addresses v)); by rewrite take_drop]).
  assert (∀ c, c ∈ trace → c ∈ va_addresses v) as Hin.
  { intros c Hc. destruct Hpre as [rest ->]. apply elem_of_app. by left. }
  exists url, v, answers. rewrite <- Eadd. split_and!; try assumption.
  - apply Forall_forall. intros c Hc H4. rewrite Forall_forall in Hg. apply Hg. rewrite Eadd.
    apply list_elem_of_fmap. exists c. split; [done|]. by apply list_elem_of_filter.
  - apply Forall_forall. rewrite Forall_forall in Hg. auto.
  - apply prefix_length in Hp. rewrite length_take in Hp. unfold lengthZ. lia.
  - intros H6 timeoutMs. apply Forall_forall. intros c Hc%Hin. destruct v as [vu vh va].
    cbn [va_addresses va_hostname va_url] in *. rewrite Eadd in *. by apply (validated_peer lookup).
Qed.

(** An exchange settles on its first outcome; a response it resolves with
    was ended with a status below 500 and its body decodes exactly the data
    received before the end, never more than the byte limit. *)
Theorem response_bounded print limit events resp :
  0 ≤ limit → ex_settled (exchange_after print limit events) = Some (Ok resp) →
  ∃ before status after,
    events = before ++ ev_end status :: after ∧
    ex_settled (exchange_after print limit before) = None ∧
    rs_status resp = default 0 status ∧ rs_status resp < 500 ∧
    rs_body resp = decodeUtf8 (concat (chunks_of before)) ∧
    lengthZ (concat (chunks_of before)) ≤ limit.
Proof.
  intros Hl. induction events as [|e events IH] using rev_ind; [done|]. intros Hs.
  destruct (ex_settled (exchange_after print limit events)) as [r|] eqn:Ex.
  - unfold exchange_after in *. rewrite foldl_app in Hs. cbn [foldl] in Hs.
    erewrite step_settled in Hs by exact Ex.
    destruct (IH Hs) as (before & status & after & -> & H1).
    exists before, status, (after ++ [e]). by rewrite <- app_assoc.
  - destruct (unsettled_chunks _ _ _ Hl Ex) as (Ec & Eb & Hle).
    unfold exchange_after in Hs. rewrite foldl_app in Hs. cbn [foldl] in Hs.
    fold (exchange_after print limit events) in Hs.
    set (x := exchange_after print limit events) in *.
    destruct e; cbn in Hs; rewrite ?Ex in Hs; try done.
    + destruct (limit <? _); cbn in Hs; by rewrite ?Ex in Hs.
    + injection Hs as Hs. destruct (500 <=? _) eqn:E500; [done|]. simplify_eq.
      exists events, statusCode, []. cbn. rewrite <- Ec in *. split_and!; done || lia.
    + destruct (ex_listening x); cbn in Hs; by rewrite ?Ex in Hs.
Qed.

End flow.

(** A resolver that answers one public and one private address. *)
Definition sample_node : Node :=
  {| isIPv6 := fun _ => false; domainToASCII := fun s => s;
     parseURL := fun s =>
       Some {| url_protocol := "https:"; url_username := ""; url_password := ""; url_hash := "";
               url_hostname := s; url_port := ""; url_pathname := "/"; url_search := "" |};
     decodeUtf8 := of_code_units |}%string.

Definition sample_lookup (private : bool) (name : string) : result thrown (list address) :=
  Ok ({| ad_address := "2606:4700::1"; ad_family := 6 |} ::
      {| ad_address := "93.184.216.34"; ad_family := 4 |} ::
      (if private then [{| ad_address := "169.254.169.254"; ad_family := 4 |}] else []))%string.

Definition sample_request (v : SmartNoteUrlValidation) (i : nat) (a : address)
    : result thrown response := Ok {| rs_status := 200; rs_body := "ok" |}.

(** A name that also resolves to a link-local address is refused. *)
Example mixed_answers_refused :
  (@guardedSmartNoteHttpGet sample_node false (sample_lookup true) sample_request
     (fun _ => false) "example.org").1 = [].
Proof. vm_compute. reflexivity. Qed.

Lemma guarded_requests_global_witness :
  (@guardedSmartNoteHttpGet sample_node false (sample_lookup false) sample_request
     (fun _ => false) "example.org").1
  = [{| ad_address := "93.184.216.34"; ad_family := 4 |}]%string ∧
  ∃ answers, @host_answers sample_node (sample_lookup false) "example.org" answers ∧
    Forall (fun c => @ipv4_answer c → globally_reachable (normalized c)) answers.
Proof.
  split; [vm_compute; reflexivity|].
  destruct (@guarded_requests_global sample_node false (sample_lookup false) sample_request
              (fun _ => false) "example.org" [{| ad_address := "93.184.216.34"; ad_family := 4 |}]%string
              (Ok {| rs_status := 200; rs_body := "ok" |}))
    as [[Hn _]|(url & v & answers & (Eu & _) & _ & Eh & Ha & Hg & _)].
  - vm_compute. reflexivity.
  - discriminate Hn.
  - exists answers. split; [|exact Hg]. rewrite Eh in Ha. injection Eu as <-. exact Ha.
Defined.

Lemma response_bounded_witness :
  ∃ before status after,
    [ev_data [111]; ev_data [107]; ev_end (Some 200); ev_data [33]]
    = before ++ ev_end status :: after ∧ lengthZ (concat (chunks_of before)) ≤ 8.
Proof.
  destruct (@response_bounded sample_node (fun _ => ""%string) 8
              [ev_data [111]; ev_data [107]; ev_end (Some 200); ev_data [33]]
              {| rs_status := 200; rs_body := "ok" |})
    as (before & status & after & E & _ & _ & _ & _ & Hl).
  - lia.
  - vm_compute. reflexivity.
  - exists before, status, after. split; [exact E|exact Hl].
Defined.
