(* ===== verification/Tagger.v ===== *)
(** * The tagger

    Models packages/plugin/src/features/magic-context/tagger.ts with the
    statements of storage-tags.ts it runs: the numbering of a session's messages,
    files and tool calls, cached in memory and persisted in a table other
    connections write to as well.

    A call runs against a database that changes under it.  Every statement or
    transaction is one access; before an access the other connections may commit,
    and the access itself may fail.  What happens then is read off a list of
    pauses, an argument of the model. *)

From S2P Require Import Prelude JsNumber JsMap JsValue JsString.

(** ** The database *)

Inductive TagType := message | tool | file.

#[export] Instance TagType_eq_dec : EqDecision TagType.
Proof. solve_decision. Defined.

Record TagTokenCounts := {
  tokenCount : option Z; inputTokenCount : option Z; reasoningTokenCount : option Z
}.

Definition no_counts : TagTokenCounts :=
  {| tokenCount := None; inputTokenCount := None; reasoningTokenCount := None |}.

(** A row of [tags], the columns the tagger reads or writes. *)
Record row := {
  r_id : Z;
  r_session : string;
  r_message : string;
  r_type : TagType;
  r_number : Z;
  r_owner : option string;
  r_byte_size : option Z;
  r_input_byte_size : option Z;
  r_reasoning_byte_size : Z;
  r_tool_name : option string;
  r_fingerprint : option string;
  r_harness : string;
  r_counts : TagTokenCounts
}.

Record meta_row := { m_counter : Z; m_harness : string }.

(** [tags] in insertion order, [session_meta], and the data version this
    connection reads, which the commits of the others advance. *)
Record database := {
  d_tags : list row;
  d_next_id : Z;
  d_meta : gmap string meta_row;
  d_version : Z
}.

Inductive tagger_error :=
| unique_constraint
| sqlite_error (code : string)
| thunk_error (message : string)
| tool_type_forbidden
| retries_exhausted.

(** *** Statements *)

Definition in_session (sessionId : string) (r : row) : bool := String.eqb (r_session r) sessionId.

Definition is_owner (owner : string) (r : row) : bool :=
  match r_owner r with Some o => String.eqb o owner | None => false end.

Definition is_tool (r : row) : bool := bool_decide (r_type r = tool).

Definition least (l : list Z) : option Z :=
  match l with [] => None | n :: l => Some (foldl Z.min n l) end.

Definition greatest (l : list Z) : option Z :=
  match l with [] => None | n :: l => Some (foldl Z.max n l) end.

Definition select (p : row → bool) (db : database) : list row := List.filter p (d_tags db).

Definition getMaxTagNumberBySession (sessionId : string) (db : database) : Z :=
  default 0 (greatest (r_number <$> select (in_session sessionId) db)).

Definition getTagNumberByMessageId (sessionId messageId : string) (db : database) : option Z :=
  least (r_number <$> select (fun r => in_session sessionId r && String.eqb (r_message r) messageId) db).

Definition owned_by (sessionId callId ownerMsgId : string) (r : row) : bool :=
  in_session sessionId r && String.eqb (r_message r) callId && is_tool r && is_owner ownerMsgId r.

Definition getToolTagNumberByOwner (sessionId callId ownerMsgId : string) (db : database)
    : option Z :=
  r_number <$> head (select (owned_by sessionId callId ownerMsgId) db).

Definition orphan_of (sessionId callId : string) (r : row) : bool :=
  in_session sessionId r && String.eqb (r_message r) callId && is_tool r &&
  match r_owner r with None => true | Some _ => false end.

(** The orphan of least number: its id and its number. *)
Definition getNullOwnerToolTag (sessionId callId : string) (db : database) : option (Z * Z) :=
  let orphans := select (orphan_of sessionId callId) db in
  n ← least (r_number <$> orphans);
  r ← head (List.filter (fun r => r_number r =? n) orphans);
  Some (r_id r, r_number r).

Definition with_tags (tags : list row) (db : database) : database :=
  {| d_tags := tags; d_next_id := d_next_id db; d_meta := d_meta db; d_version := d_version db |}.

Definition set_owner (owner : string) (r : row) : row :=
  {| r_id := r_id r; r_session := r_session r; r_message := r_message r; r_type := r_type r;
     r_number := r_number r; r_owner := Some owner; r_byte_size := r_byte_size r;
     r_input_byte_size := r_input_byte_size r; r_reasoning_byte_size := r_reasoning_byte_size r;
     r_tool_name := r_tool_name r; r_fingerprint := r_fingerprint r; r_harness := r_harness r;
     r_counts := r_counts r |}.

Definition set_counts (counts : TagTokenCounts) (r : row) : row :=
  {| r_id := r_id r; r_session := r_session r; r_message := r_message r; r_type := r_type r;
     r_number := r_number r; r_owner := r_owner r; r_byte_size := r_byte_size r;
     r_input_byte_size := r_input_byte_size r; r_reasoning_byte_size := r_reasoning_byte_size r;
     r_tool_name := r_tool_name r; r_fingerprint := r_fingerprint r; r_harness := r_harness r;
     r_counts := counts |}.

(** The columns of the unique index over owned tool rows. *)
Definition composite (r : row) : option (string * string * string) :=
  if is_tool r then owner ← r_owner r; Some (r_session r, r_message r, owner) else None.

(** Whether a row with this number and these columns violates a unique index. *)
Definition conflicts (new r : row) : bool :=
  (in_session (r_session new) r && (r_number r =? r_number new)) ||
  match composite new with
  | Some c => bool_decide (composite r = Some c)
  | None => false
  end.

Definition row_null_owner (rowId : Z) (r : row) : bool :=
  (r_id r =? rowId) && match r_owner r with None => true | Some _ => false end.

(** UPDATE .. SET tool_owner_message_id WHERE id = ? AND it IS NULL: whether a row
    changed. *)
Definition adoptNullOwnerToolTag (rowId : Z) (ownerMsgId : string) (db : database)
    : result tagger_error (bool * database) :=
  match head (select (row_null_owner rowId) db) with
  | None => Ok (false, db)
  | Some old =>
      let new := set_owner ownerMsgId old in
      if existsb (fun r => negb (r_id r =? rowId) && conflicts new r) (d_tags db)
      then Err unique_constraint
      else Ok (true, with_tags ((fun r => if r_id r =? rowId then set_owner ownerMsgId r else r)
                                  <$> d_tags db) db)
  end.

Definition at_number (sessionId : string) (tagNumber : Z) (r : row) : bool :=
  in_session sessionId r && (r_number r =? tagNumber).

Definition tagTokenCountIsNull (sessionId : string) (tagNumber : Z) (db : database) : bool :=
  match head (select (at_number sessionId tagNumber) db) with
  | Some r => match tokenCount (r_counts r) with None => true | Some _ => false end
  | None => false
  end.

Definition backfillTagTokenCounts (sessionId : string) (tagNumber : Z) (counts : TagTokenCounts)
    (db : database) : database :=
  with_tags ((fun r =>
    if at_number sessionId tagNumber r &&
       match tokenCount (r_counts r) with None => true | Some _ => false end
    then set_counts counts r else r) <$> d_tags db) db.

(** INSERT INTO tags: the id column counts up. *)
Definition insertTag (new : row) (db : database) : result tagger_error database :=
  if existsb (conflicts new) (d_tags db) then Err unique_constraint
  else
    let new := {| r_id := d_next_id db; r_session := r_session new; r_message := r_message new;
                  r_type := r_type new; r_number := r_number new; r_owner := r_owner new;
                  r_byte_size := r_byte_size new; r_input_byte_size := r_input_byte_size new;
                  r_reasoning_byte_size := r_reasoning_byte_size new;
                  r_tool_name := r_tool_name new; r_fingerprint := r_fingerprint new;
                  r_harness := r_harness new; r_counts := r_counts new |} in
    Ok {| d_tags := d_tags db ++ [new]; d_next_id := d_next_id db + 1; d_meta := d_meta db;
          d_version := d_version db |}.

Definition set_meta (sessionId : string) (m : meta_row) (db : database) : database :=
  {| d_tags := d_tags db; d_next_id := d_next_id db; d_meta := <[sessionId := m]> (d_meta db);
     d_version := d_version db |}.

(** INSERT .. ON CONFLICT DO UPDATE SET counter = MAX(..): the harness of an
    existing row is kept. *)
Definition upsertCounter (sessionId : string) (value : Z) (harness : string) (db : database)
    : database :=
  set_meta sessionId
    match d_meta db !! sessionId with
    | Some m => {| m_counter := Z.max (m_counter m) value; m_harness := m_harness m |}
    | None => {| m_counter := value; m_harness := harness |}
    end db.

Definition resetCounterRow (sessionId harness : string) (db : database) : database :=
  set_meta sessionId
    match d_meta db !! sessionId with
    | Some m => {| m_counter := 0; m_harness := m_harness m |}
    | None => {| m_counter := 0; m_harness := harness |}
    end db.

(** *** The other connections *)

(** What another connection commits; a statement that violates a unique index
    changes nothing. *)
Inductive foreign :=
| f_insert (new : row)
| f_adopt (rowId : Z) (owner : string)
| f_backfill (sessionId : string) (tagNumber : Z) (counts : TagTokenCounts)
| f_counter (sessionId : string) (value : Z) (harness : string).

Definition bump (db : database) : database :=
  {| d_tags := d_tags db; d_next_id := d_next_id db; d_meta := d_meta db;
     d_version := d_version db + 1 |}.

Definition apply_foreign (db : database) (f : foreign) : database :=
  bump match f with
       | f_insert new => match insertTag new db with Ok db => db | Err _ => db end
       | f_adopt rowId owner =>
           if existsb (fun r => (r_id r =? rowId) && is_tool r) (d_tags db) then
             match adoptNullOwnerToolTag rowId owner db with Ok (_, db) => db | Err _ => db end
           else db
       | f_backfill s n counts => backfillTagTokenCounts s n counts db
       | f_counter s v h => upsertCounter s v h db
       end.

(** ** Memory and accesses *)

Record ToolTagAccounting := {
  ac_byteSize : Z; ac_tokenCount : option Z; ac_inputByteSize : Z; ac_inputTokenCount : option Z
}.

(** The [Database] object is an integer: equal exactly for the same object. *)
Record LoadSignature := { ls_db : Z; ls_dataVersion : Z; ls_floor : Z }.

Record memory := {
  mem_counters : gmap string Z;
  mem_assignments : gmap string (gmap string Z);
  mem_toolAccounting : gmap string (gmap Z ToolTagAccounting);
  mem_loadSignatures : gmap string LoadSignature
}.

Definition createTagger : memory :=
  {| mem_counters := ∅; mem_assignments := ∅; mem_toolAccounting := ∅; mem_loadSignatures := ∅ |}.

(** What happens before an access: commits of others, and whether it fails. *)
Record pause := { p_commits : list foreign; p_fault : option string }.
Definition no_pause : pause := {| p_commits := []; p_fault := None |}.

Record world := { w_mem : memory; w_db : database; w_pauses : list pause }.

Definition M (A : Type) : Type := world → result tagger_error A * world.

#[export] Instance M_ret : MRet M := fun A a w => (Ok a, w).
#[export] Instance M_bind : MBind M :=
  fun A B k m w => match m w with (Ok a, w) => k a w | (Err e, w) => (Err e, w) end.

Definition throw {A} (e : tagger_error) : M A := fun w => (Err e, w).

(** [try { m } catch (e) { h(e) }]. *)
Definition catch {A} (m : M A) (h : tagger_error → M A) : M A :=
  fun w => match m w with (Ok a, w) => (Ok a, w) | (Err e, w) => h e w end.

Definition gets {A} (f : memory → A) : M A := fun w => (Ok (f (w_mem w)), w).
Definition modify (f : memory → memory) : M unit :=
  fun w => (Ok (), {| w_mem := f (w_mem w); w_db := w_db w; w_pauses := w_pauses w |}).

(** A statement or a transaction: it changes the database only when it succeeds. *)
Definition access {A} (f : database → result tagger_error (A * database)) : M A :=
  fun w =>
    let p := default no_pause (head (w_pauses w)) in
    let db := foldl apply_foreign (w_db w) (p_commits p) in
    let after db := {| w_mem := w_mem w; w_db := db; w_pauses := tail (w_pauses w) |} in
    match p_fault p with
    | Some code => (Err (sqlite_error code), after db)
    | None => match f db with Ok (a, db') => (Ok a, after db') | Err e => (Err e, after db) end
    end.

Definition query {A} (f : database → A) : M A := access (fun db => Ok (f db, db)).
Definition update (f : database → database) : M unit := access (fun db => Ok ((), f db)).

(** *** Keys *)

Definition TOOL_COMPOSITE_KEY_SEP : string := str_of_unit 0.

Definition makeToolCompositeKey (ownerMsgId callId : string) : string :=
  (ownerMsgId ++ TOOL_COMPOSITE_KEY_SEP ++ callId)%string.

Definition getSessionAssignments (sessionId : string) (m : memory) : gmap string Z :=
  default ∅ (mem_assignments m !! sessionId).

Definition getSessionToolAccounting (sessionId : string) (m : memory) : gmap Z ToolTagAccounting :=
  default ∅ (mem_toolAccounting m !! sessionId).

Definition counter_of (sessionId : string) (m : memory) : Z := default 0 (mem_counters m !! sessionId).

Definition with_assignments (sessionId : string) (a : gmap string Z) (m : memory) : memory :=
  {| mem_counters := mem_counters m; mem_assignments := <[sessionId := a]> (mem_assignments m);
     mem_toolAccounting := mem_toolAccounting m; mem_loadSignatures := mem_loadSignatures m |}.

Definition bind_key (sessionId key : string) (n : Z) (m : memory) : memory :=
  with_assignments sessionId (<[key := n]> (getSessionAssignments sessionId m)) m.

Definition set_counter (sessionId : string) (n : Z) (m : memory) : memory :=
  {| mem_counters := <[sessionId := n]> (mem_counters m); mem_assignments := mem_assignments m;
     mem_toolAccounting := mem_toolAccounting m; mem_loadSignatures := mem_loadSignatures m |}.

Definition with_accounting (sessionId : string) (a : gmap Z ToolTagAccounting) (m : memory)
    : memory :=
  {| mem_counters := mem_counters m; mem_assignments := mem_assignments m;
     mem_toolAccounting := <[sessionId := a]> (mem_toolAccounting m);
     mem_loadSignatures := mem_loadSignatures m |}.

Definition setToolTagAccounting (sessionId : string) (tagNumber : Z) (a : ToolTagAccounting)
    (m : memory) : memory :=
  with_accounting sessionId (<[tagNumber := a]> (getSessionToolAccounting sessionId m)) m.

(** ** Operations *)

(** A [tokenThunk]: absent, or what calling it gives. *)
Abbreviation thunk := (option (result tagger_error TagTokenCounts)).

Section tagger.
Context (harness : string).

Definition MAX_TAG_ALLOC_RETRIES : nat := 5.

Definition call_thunk (t : result tagger_error TagTokenCounts) : M TagTokenCounts :=
  match t with Ok counts => mret counts | Err e => throw e end.

Definition syncCounterAtLeast (sessionId : string) (value : Z) : M unit :=
  if value <=? 0 then mret ()
  else
    counter ← gets (counter_of sessionId);
    let next := Z.max counter value in
    modify (set_counter sessionId next);;
    update (upsertCounter sessionId next harness).

Definition backfillToolTokensIfNull (sessionId : string) (tagNumber : Z) (tokenThunk : thunk)
    : M unit :=
  match tokenThunk with
  | None => mret ()
  | Some t =>
      catch (isNull ← query (tagTokenCountIsNull sessionId tagNumber);
             if isNull : bool then
               counts ← call_thunk t;
               update (backfillTagTokenCounts sessionId tagNumber counts)
             else mret ())
            (fun _ => mret ())
  end.

(** The backfill of [allocateTag]: reading the column is outside its [try]. *)
Definition backfill_existing (sessionId : string) (tagNumber : Z) (tokenThunk : thunk) : M unit :=
  match tokenThunk with
  | None => mret ()
  | Some t =>
      isNull ← query (tagTokenCountIsNull sessionId tagNumber);
      if isNull : bool then
        catch (counts ← call_thunk t;
               update (backfillTagTokenCounts sessionId tagNumber counts))
              (fun _ => mret ())
      else mret ()
  end.

(** The columns a caller supplies. *)
Record tag_columns := {
  tc_message : string; tc_type : TagType; tc_owner : option string; tc_byteSize : Z;
  tc_reasoningByteSize : Z; tc_toolName : option string; tc_inputByteSize : Z;
  tc_fingerprint : option string
}.

Definition new_row (sessionId : string) (c : tag_columns) (number : Z)
    (counts : option TagTokenCounts) : row :=
  {| r_id := 0; r_session := sessionId; r_message := tc_message c; r_type := tc_type c;
     r_number := number; r_owner := tc_owner c; r_byte_size := Some (tc_byteSize c);
     r_input_byte_size := Some (tc_inputByteSize c);
     r_reasoning_byte_size := tc_reasoningByteSize c; r_tool_name := tc_toolName c;
     r_fingerprint := tc_fingerprint c; r_harness := harness; r_counts := default no_counts counts |}.

(** The transaction that claims a number. *)
Definition claim (sessionId : string) (new : row) (db : database)
    : result tagger_error (unit * database) :=
  db ← insertTag new db;
  mret ((), upsertCounter sessionId (r_number new) harness db).

Definition is_unique (e : tagger_error) : bool :=
  match e with unique_constraint => true | _ => false end.

(** One attempt: [Some n] when it settled the number. *)
Definition attempt (sessionId : string) (c : tag_columns) (mapKey : string)
    (dbExistingLookup : database → option Z) (counts : option TagTokenCounts) : M (option Z) :=
  memCounter ← gets (counter_of sessionId);
  dbMax ← query (getMaxTagNumberBySession sessionId);
  let next := Z.max memCounter dbMax + 1 in
  claimed ← catch (access (claim sessionId (new_row sessionId c next counts));; mret true)
                  (fun e => if is_unique e then mret false else throw e);
  if claimed : bool then
    modify (set_counter sessionId next);;
    modify (bind_key sessionId mapKey next);;
    match tc_type c with
    | tool =>
        modify (setToolTagAccounting sessionId next
                  {| ac_byteSize := tc_byteSize c; ac_tokenCount := counts ≫= tokenCount;
                     ac_inputByteSize := tc_inputByteSize c;
                     ac_inputTokenCount := counts ≫= inputTokenCount |})
    | _ => mret ()
    end;;
    mret (Some next)
  else
    racedRow ← query dbExistingLookup;
    match racedRow with
    | Some n =>
        modify (bind_key sessionId mapKey n);;
        syncCounterAtLeast sessionId n;;
        mret (Some n)
    | None =>
        advancedDbMax ← query (getMaxTagNumberBySession sessionId);
        modify (set_counter sessionId (Z.max memCounter advancedDbMax));;
        mret None
    end.

Fixpoint attempts (fuel : nat) (sessionId : string) (c : tag_columns) (mapKey : string)
    (dbExistingLookup : database → option Z) (counts : option TagTokenCounts) : M Z :=
  match fuel with
  | O => throw retries_exhausted
  | S fuel =>
      settled ← attempt sessionId c mapKey dbExistingLookup counts;
      match settled with
      | Some n => mret n
      | None => attempts fuel sessionId c mapKey dbExistingLookup counts
      end
  end.

Definition allocateTag (sessionId : string) (c : tag_columns) (mapKey : string)
    (dbExistingLookup : database → option Z) (tokenThunk : thunk) : M Z :=
  existing ← gets (fun m => getSessionAssignments sessionId m !! mapKey);
  match existing with
  | Some n => mret n
  | None =>
      dbExisting ← query dbExistingLookup;
      match dbExisting with
      | Some n =>
          modify (bind_key sessionId mapKey n);;
          syncCounterAtLeast sessionId n;;
          backfill_existing sessionId n tokenThunk;;
          mret n
      | None =>
          tokenCounts ← match tokenThunk with
                        | None => mret None
                        | Some t => counts ← call_thunk t; mret (Some counts)
                        end;
          attempts MAX_TAG_ALLOC_RETRIES sessionId c mapKey dbExistingLookup tokenCounts
      end
  end.

Definition assignTag (sessionId messageId : string) (type : TagType) (byteSize : Z)
    (reasoningByteSize : Z) (toolName : option string) (inputByteSize : Z)
    (entryFingerprint : option string) (tokenThunk : thunk) : M Z :=
  if bool_decide (type = tool) then throw tool_type_forbidden
  else
    allocateTag sessionId
      {| tc_message := messageId; tc_type := type; tc_owner := None; tc_byteSize := byteSize;
         tc_reasoningByteSize := reasoningByteSize; tc_toolName := toolName;
         tc_inputByteSize := inputByteSize; tc_fingerprint := entryFingerprint |}
      messageId (getTagNumberByMessageId sessionId messageId) tokenThunk.

(** A row found for a tool call: bind it, sync the counter, backfill its tokens. *)
Definition settle_tool (sessionId key : string) (n : Z) (tokenThunk : thunk) : M Z :=
  modify (bind_key sessionId key n);;
  syncCounterAtLeast sessionId n;;
  backfillToolTokensIfNull sessionId n tokenThunk;;
  mret n.

(** The loop that claims an orphan: [None] when none is left or every claim lost. *)
Fixpoint adopt_loop (fuel : nat) (sessionId callId ownerMsgId key : string) (tokenThunk : thunk)
    : M (option Z) :=
  match fuel with
  | O => mret None
  | S fuel =>
      orphan ← query (getNullOwnerToolTag sessionId callId);
      match orphan with
      | None => mret None
      | Some (id, tagNumber) =>
          claimed ← access (adoptNullOwnerToolTag id ownerMsgId);
          if claimed : bool then
            n ← settle_tool sessionId key tagNumber tokenThunk; mret (Some n)
          else
            recheck ← query (getToolTagNumberByOwner sessionId callId ownerMsgId);
            match recheck with
            | Some n => n ← settle_tool sessionId key n tokenThunk; mret (Some n)
            | None => adopt_loop fuel sessionId callId ownerMsgId key tokenThunk
            end
      end
  end.

Definition assignToolTag (sessionId callId ownerMsgId : string) (byteSize reasoningByteSize : Z)
    (toolName : option string) (inputByteSize : Z) (tokenThunk : thunk) : M Z :=
  let compositeKey := makeToolCompositeKey ownerMsgId callId in
  existing ← gets (fun m => getSessionAssignments sessionId m !! compositeKey);
  match existing with
  | Some n => mret n
  | None =>
      dbHit ← query (getToolTagNumberByOwner sessionId callId ownerMsgId);
      match dbHit with
      | Some n => settle_tool sessionId compositeKey n tokenThunk
      | None =>
          adopted ← adopt_loop MAX_TAG_ALLOC_RETRIES sessionId callId ownerMsgId compositeKey
                      tokenThunk;
          match adopted with
          | Some n => mret n
          | None =>
              allocateTag sessionId
                {| tc_message := callId; tc_type := tool; tc_owner := Some ownerMsgId;
                   tc_byteSize := byteSize; tc_reasoningByteSize := reasoningByteSize;
                   tc_toolName := toolName; tc_inputByteSize := inputByteSize;
                   tc_fingerprint := None |}
                compositeKey (getToolTagNumberByOwner sessionId callId ownerMsgId) tokenThunk
          end
      end
  end.

Definition getTag (sessionId messageId : string) (m : memory) : option Z :=
  getSessionAssignments sessionId m !! messageId.

Definition getToolTag (sessionId callId ownerMsgId : string) (m : memory) : option Z :=
  getSessionAssignments sessionId m !! makeToolCompositeKey ownerMsgId callId.

Definition getToolTagAccounting (sessionId callId ownerMsgId : string) (m : memory)
    : option ToolTagAccounting :=
  n ← getToolTag sessionId callId ownerMsgId m; getSessionToolAccounting sessionId m !! n.

Definition bindTag (sessionId messageId : string) (n : Z) : memory → memory :=
  bind_key sessionId messageId n.

Definition unbindTag (sessionId messageId : string) (m : memory) : memory :=
  with_assignments sessionId (delete messageId (getSessionAssignments sessionId m)) m.

Definition bindToolTag (sessionId callId ownerMsgId : string) (n : Z) : memory → memory :=
  bind_key sessionId (makeToolCompositeKey ownerMsgId callId) n.

Definition unbindToolTag (sessionId ownerMsgId callId : string) : memory → memory :=
  unbindTag sessionId (makeToolCompositeKey ownerMsgId callId).

Definition forget (sessionId : string) (counters : gmap string Z) (m : memory) : memory :=
  {| mem_counters := counters; mem_assignments := delete sessionId (mem_assignments m);
     mem_toolAccounting := delete sessionId (mem_toolAccounting m);
     mem_loadSignatures := delete sessionId (mem_loadSignatures m) |}.

Definition resetCounter (sessionId : string) : M unit :=
  modify (fun m => forget sessionId (<[sessionId := 0]> (mem_counters m)) m);;
  update (resetCounterRow sessionId harness).

Definition cleanup (sessionId : string) : M unit :=
  modify (fun m => forget sessionId (delete sessionId (mem_counters m)) m).

(** A row the loader accepts. *)
Definition isAssignmentRow (r : row) : bool :=
  match r_byte_size r, r_input_byte_size r with Some _, Some _ => true | _, _ => false end.

(** The loader's key of a row; an orphan has none. *)
Definition row_key (r : row) : option string :=
  match r_type r with
  | tool => owner ← r_owner r; Some (makeToolCompositeKey owner (r_message r))
  | _ => Some (r_message r)
  end.

Definition number_cmp (a b : row) : Z := r_number a - r_number b.

(** The rows of a session from a floor on, by number. *)
Definition assignment_rows (sessionId : string) (floor : Z) (db : database) : list row :=
  List.filter isAssignmentRow
    (js_sort number_cmp
       (select (fun r => in_session sessionId r &&
                         (if 0 <? floor then floor <=? r_number r else true)) db)).

Definition load_key (a : gmap string Z) (r : row) : gmap string Z :=
  match row_key r with Some key => <[key := r_number r]> a | None => a end.

Definition load_accounting (a : gmap Z ToolTagAccounting) (r : row) : gmap Z ToolTagAccounting :=
  match r_type r, r_owner r with
  | tool, Some _ =>
      <[r_number r := {| ac_byteSize := default 0 (r_byte_size r);
                         ac_tokenCount := tokenCount (r_counts r);
                         ac_inputByteSize := default 0 (r_input_byte_size r);
                         ac_inputTokenCount := inputTokenCount (r_counts r) |}]> a
  | _, _ => a
  end.

Definition signature_eqb (a b : LoadSignature) : bool :=
  (ls_db a =? ls_db b) && (ls_dataVersion a =? ls_dataVersion b) && (ls_floor a =? ls_floor b).

Definition initFromDb (sessionId : string) (db : Z) (floor : Z) : M unit :=
  dataVersion ← query d_version;
  cached ← gets (fun m => mem_loadSignatures m !! sessionId);
  let signature := {| ls_db := db; ls_dataVersion := dataVersion; ls_floor := floor |} in
  if match cached with Some s => signature_eqb s signature | None => false end then mret ()
  else
    meta ← query (fun d => d_meta d !! sessionId);
    rows ← query (assignment_rows sessionId floor);
    modify (with_assignments sessionId (foldl load_key ∅ rows));;
    modify (with_accounting sessionId (foldl load_accounting ∅ rows));;
    let maxTagNumber := foldl Z.max 0 (r_number <$> rows) in
    modify (fun m =>
      set_counter sessionId
        (Z.max (Z.max (default 0 (m_counter <$> meta)) maxTagNumber) (counter_of sessionId m)) m);;
    modify (fun m =>
      {| mem_counters := mem_counters m; mem_assignments := mem_assignments m;
         mem_toolAccounting := mem_toolAccounting m;
         mem_loadSignatures := <[sessionId := signature]> (mem_loadSignatures m) |}).

End tagger.

(** ** Specification: numberings

    Abstractly a session's tags are a numbering: who holds which number.  It only
    grows: numbers are handed out once, an orphaned tool call may be given its
    owner, and an owned tool call holds one number at most. *)

Record ident := { i_type : TagType; i_message : string; i_owner : option string }.

Abbreviation numbering := (gmap (string * Z) ident).

(** What a caller asks a number for. *)
Inductive entity := Bare (messageId : string) | ToolCall (ownerMsgId callId : string).

Definition matches (e : entity) (i : ident) : Prop :=
  match e with
  | Bare m => i_message i = m
  | ToolCall o c => i_type i = tool ∧ i_message i = c ∧ i_owner i = Some o
  end.

(** Nobody in the session holds a number as this tool call. *)
Definition unclaimed (f : numbering) (s : string) (o c : string) : Prop :=
  ∀ n i, f !! (s, n) = Some i → ¬ matches (ToolCall o c) i.

Definition admissible (f : numbering) (s : string) (i : ident) : Prop :=
  ∀ o, i_type i = tool → i_owner i = Some o → unclaimed f s o (i_message i).

Inductive how := Found | Adopted | Allocated.

Record grant := { g_how : how; g_session : string; g_entity : entity; g_number : Z }.

(** A step of a numbering: [None] is somebody else's, or none at all. *)
Inductive num_step : option grant → numbering → numbering → Prop :=
| step_insert f s n i :
    f !! (s, n) = None → admissible f s i → num_step None f (<[(s, n) := i]> f)
| step_adopt f s n c o :
    f !! (s, n) = Some {| i_type := tool; i_message := c; i_owner := None |} →
    unclaimed f s o c →
    num_step None f (<[(s, n) := {| i_type := tool; i_message := c; i_owner := Some o |}]> f)
| step_found f s n e i :
    f !! (s, n) = Some i → matches e i →
    num_step (Some {| g_how := Found; g_session := s; g_entity := e; g_number := n |}) f f
| step_adopted f s n c o :
    f !! (s, n) = Some {| i_type := tool; i_message := c; i_owner := None |} →
    unclaimed f s o c →
    num_step (Some {| g_how := Adopted; g_session := s; g_entity := ToolCall o c; g_number := n |})
      f (<[(s, n) := {| i_type := tool; i_message := c; i_owner := Some o |}]> f)
| step_allocated f s n e i :
    f !! (s, n) = None → admissible f s i → matches e i →
    num_step (Some {| g_how := Allocated; g_session := s; g_entity := e; g_number := n |})
      f (<[(s, n) := i]> f).

Definition evolves : numbering → numbering → Prop := rtc (num_step None).

(** The numbering a database holds. *)
Definition ident_of (r : row) : ident :=
  {| i_type := r_type r; i_message := r_message r; i_owner := r_owner r |}.

Definition place (r : row) : string * Z := (r_session r, r_number r).

Definition numbering_of (db : database) : numbering :=
  list_to_map ((fun r => (place r, ident_of r)) <$> d_tags db).

(** NUL does not occur in the ids of messages and calls. *)
Definition no_nul (s : string) : Prop := 0 ∉ code_units s.

Definition clean_row (r : row) : Prop :=
  no_nul (r_message r) ∧ match r_owner r with Some o => no_nul o | None => True end.

Definition clean_foreign (f : foreign) : Prop :=
  match f with
  | f_insert new => clean_row new
  | f_adopt _ owner => no_nul owner
  | _ => True
  end.

(** What the unique indexes and the id column keep, and the shape of the ids. *)
Record db_wf (db : database) : Prop := {
  wf_places : NoDup (place <$> d_tags db);
  wf_composites : NoDup (omap composite (d_tags db));
  wf_ids : NoDup (r_id <$> d_tags db);
  wf_next : Forall (fun r => r_id r < d_next_id db) (d_tags db);
  wf_clean : Forall clean_row (d_tags db)
}.

(** The entity a key of the assignments stands for. *)
Fixpoint before_nul (l : list Z) : option (list Z * list Z) :=
  match l with
  | [] => None
  | u :: l => if u =? 0 then Some ([], l)
              else '(a, b) ← before_nul l; Some (u :: a, b)
  end.

Definition entity_of_key (key : string) : entity :=
  match before_nul (code_units key) with
  | Some (o, c) => ToolCall (of_code_units o) (of_code_units c)
  | None => Bare key
  end.

(** ** Sequences of calls *)

(** What a call that succeeded was asked for and answered. *)
Abbreviation answer := (string * entity * Z)%type.

Inductive call :=
| c_assignTag (sessionId messageId : string) (type : TagType) (byteSize reasoningByteSize : Z)
    (toolName : option string) (inputByteSize : Z) (entryFingerprint : option string)
    (tokenThunk : thunk)
| c_assignToolTag (sessionId callId ownerMsgId : string) (byteSize reasoningByteSize : Z)
    (toolName : option string) (inputByteSize : Z) (tokenThunk : thunk)
| c_initFromDb (sessionId : string) (db floor : Z)
| c_resetCounter (sessionId : string)
| c_cleanup (sessionId : string).

Definition clean_call (x : call) : Prop :=
  match x with
  | c_assignTag _ m _ _ _ _ _ _ _ => no_nul m
  | c_assignToolTag _ c o _ _ _ _ _ => no_nul o ∧ no_nul c
  | _ => True
  end.

Definition run_call (harness : string) (x : call) : M (option answer) :=
  match x with
  | c_assignTag s m ty bs rbs tn ibs fp t =>
      n ← assignTag harness s m ty bs rbs tn ibs fp t; mret (Some (s, Bare m, n))
  | c_assignToolTag s c o bs rbs tn ibs t =>
      n ← assignToolTag harness s c o bs rbs tn ibs t; mret (Some (s, ToolCall o c, n))
  | c_initFromDb s d fl => initFromDb s d fl;; mret None
  | c_resetCounter s => resetCounter harness s;; mret None
  | c_cleanup s => cleanup s;; mret None
  end.

(** The answers of a sequence of calls; a call that throws leaves what it did. *)
Fixpoint run_calls (harness : string) (l : list call) (w : world) : list answer * world :=
  match l with
  | [] => ([], w)
  | x :: l =>
      let '(r, w) := run_call harness x w in
      let '(rest, w) := run_calls harness l w in
      (match r with Ok (Some a) => a :: rest | _ => rest end, w)
  end.

(** What an observer of a numbering sees of its steps. *)
Inductive num_trace : list answer → numbering → numbering → Prop :=
| trace_end f : num_trace [] f f
| trace_other f f1 f2 l : num_step None f f1 → num_trace l f1 f2 → num_trace l f f2
| trace_mine f f1 f2 h s e n l :
    num_step (Some {| g_how := h; g_session := s; g_entity := e; g_number := n |}) f f1 →
    num_trace l f1 f2 → num_trace ((s, e, n) :: l) f f2.

(** The cache is backed by the table. *)
Definition coherent (m : memory) (f : numbering) : Prop :=
  ∀ s key n, getSessionAssignments s m !! key = Some n →
    ∃ i, f !! (s, n) = Some i ∧ matches (entity_of_key key) i.

(** ** Lemmas: the table and its numbering *)

Lemma select_in p db r : r ∈ select p db ↔ p r = true ∧ r ∈ d_tags db.
Proof.
  unfold select. rewrite !list_elem_of_In, List.filter_In. tauto.
Qed.

Lemma numbering_lookup db s n i :
  db_wf db →
  numbering_of db !! (s, n) = Some i ↔
  ∃ r, r ∈ d_tags db ∧ place r = (s, n) ∧ ident_of r = i.
Proof.
  intros Hw. unfold numbering_of. rewrite <- elem_of_list_to_map.
  - rewrite list_elem_of_fmap. split.
    + intros (r & [= E1 E2] & Hr). exists r. unfold place. by rewrite <- E1, <- E2.
    + intros (r & Hr & E1 & E2). exists r. by rewrite E1, E2.
  - rewrite <- list_fmap_compose. apply (wf_places _ Hw).
Qed.

Lemma numbering_free db s n :
  db_wf db → numbering_of db !! (s, n) = None ↔ ∀ r, r ∈ d_tags db → place r ≠ (s, n).
Proof.
  intros Hw. rewrite eq_None_not_Some. split.
  - intros Hn r Hr E. apply Hn. exists (ident_of r). apply numbering_lookup; eauto.
  - intros Hf [i Hi]. apply numbering_lookup in Hi as (r & Hr & E & _); [|done]. by eapply Hf.
Qed.

Lemma composite_some r c :
  composite r = Some c ↔
  r_type r = tool ∧ ∃ o, r_owner r = Some o ∧ c = (r_session r, r_message r, o).
Proof.
  unfold composite, is_tool. case_bool_decide; [|split; [done|by intros [? _]]].
  destruct (r_owner r) as [o|]; cbn; [|split; [done|by intros (_ & ? & ? & _)]].
  split; [intros [= <-]; eauto|]. intros (_ & o' & [= <-] & ->). done.
Qed.

Lemma conflicts_false new r :
  conflicts new r = false ↔
  place r ≠ place new ∧ (∀ c, composite new = Some c → composite r ≠ Some c).
Proof.
  unfold conflicts, in_session, place. rewrite orb_false_iff, andb_false_iff, String.eqb_neq, Z.eqb_neq.
  split.
  - intros [Hp Hc]. split; [intros [= ??]; tauto|]. intros c Ec. rewrite Ec in Hc.
    by apply bool_decide_eq_false in Hc.
  - intros [Hp Hc]. split.
    + destruct (decide (r_session r = r_session new)), (decide (r_number r = r_number new)); try tauto.
      exfalso. apply Hp. congruence.
    + destruct (composite new) as [c|]; [|done]. apply bool_decide_eq_false. by apply Hc.
Qed.

Lemma existsb_false {A} (p : A → bool) l : existsb p l = false ↔ ∀ x, x ∈ l → p x = false.
Proof.
  rewrite <- not_true_iff_false, existsb_exists. split.
  - intros Hn x Hx. apply not_true_is_false. intros Hp. apply Hn. exists x.
    by rewrite <- list_elem_of_In.
  - intros Hf (x & Hx%list_elem_of_In & Hp). by rewrite Hf in Hp.
Qed.

(** A row that conflicts with no other keeps tool calls unclaimed. *)
Lemma no_conflict_admissible db new :
  db_wf db → (∀ r, r ∈ d_tags db → r_id r ≠ r_id new → conflicts new r = false) →
  (∀ r, r ∈ d_tags db → r_id r = r_id new → r_owner r = None) →
  admissible (numbering_of db) (r_session new) (ident_of new).
Proof.
  intros Hw Hc Ho o Ht Eo n i Hi (H1 & H2 & H3).
  apply numbering_lookup in Hi as (r & Hr & [= Es En] & <-); [|done]. cbn in *.
  destruct (decide (r_id r = r_id new)) as [E|E].
  - by rewrite (Ho r Hr E) in H3.
  - specialize (Hc r Hr E). apply conflicts_false in Hc as [_ Hc].
    apply (Hc (r_session new, r_message new, o)); apply composite_some.
    + eauto.
    + split; [done|]. exists o. by rewrite Es, H2.
Qed.

Lemma omap_composite_in c (l : list row) : c ∈ omap composite l ↔ ∃ r, r ∈ l ∧ composite r = Some c.
Proof. apply list_elem_of_omap. Qed.

Lemma insertTag_ok new db db' :
  db_wf db → clean_row new → insertTag new db = Ok db' →
  db_wf db' ∧ numbering_of db !! place new = None ∧
  admissible (numbering_of db) (r_session new) (ident_of new) ∧
  numbering_of db' = <[place new := ident_of new]> (numbering_of db).
Proof.
  intros Hw Hclean. unfold insertTag. destruct (existsb _ _) eqn:E; [done|]. intros [= <-].
  rewrite existsb_false in E. pose proof Hw as [H1 H2 H3 H4 H5].
  assert (numbering_of db !! place new = None) as Hfree.
  { apply (numbering_free db (r_session new) (r_number new) Hw). intros r Hr Ep.
    apply E in Hr. apply conflicts_false in Hr as [Hr _]. by apply Hr. }
  assert (∀ r, r ∈ d_tags db → r_id r ≠ d_next_id db) as Hid.
  { intros r Hr. rewrite Forall_forall in H4. specialize (H4 r Hr). lia. }
  set (n := {| r_id := d_next_id db |}).
  assert (composite n = composite new) as Ec by done.
  assert (∀ r, r ∈ d_tags db → conflicts n r = false) as E'.
  { intros r Hr. specialize (E r Hr). by apply conflicts_false in E; apply conflicts_false. }
  split; [|split; [done|split]].
  - constructor; cbn.
    + rewrite fmap_app. apply NoDup_app. split; [done|]. split; [|apply NoDup_singleton].
      intros p (r & -> & Hr)%list_elem_of_fmap Hp%list_elem_of_singleton.
      apply E in Hr. apply conflicts_false in Hr as [Hr _]. by apply Hr.
    + rewrite omap_app. apply NoDup_app. split; [done|]. split.
      * intros c (r & Hr & Hcr)%omap_composite_in (r' & ->%list_elem_of_singleton & Hcn)%omap_composite_in.
        apply E' in Hr. apply conflicts_false in Hr as [_ Hr]. by eapply Hr.
      * cbn. destruct (composite n); [apply NoDup_singleton|constructor].
    + rewrite fmap_app. apply NoDup_app. split; [done|]. split; [|apply NoDup_singleton].
      intros i (r & -> & Hr)%list_elem_of_fmap Hi%list_elem_of_singleton. by eapply Hid.
    + apply Forall_app. split; [|by repeat constructor; cbn; lia].
      eapply Forall_impl; [exact H4|]. cbn. lia.
    + apply Forall_app. split; [done|]. by apply Forall_singleton.
  - apply (no_conflict_admissible db n Hw); cbn; [auto|]. intros r Hr Er. exfalso. by eapply Hid.
  - unfold numbering_of. cbn. rewrite fmap_app, list_to_map_app. cbn.
    rewrite insert_empty. change (place n) with (place new). change (ident_of n) with (ident_of new).
    apply map_eq. intros k. rewrite lookup_union.
    destruct (decide (k = place new)) as [->|Hne].
    + rewrite lookup_insert_eq. unfold numbering_of in Hfree. by rewrite Hfree, lookup_singleton_eq.
    + rewrite lookup_insert_ne, lookup_singleton_ne by done. by destruct (list_to_map _ !! k).
Qed.

Lemma filter_head {A} (p : A → bool) l x : head (List.filter p l) = Some x → x ∈ l ∧ p x = true.
Proof.
  intros E. assert (x ∈ List.filter p l) as Hx by (destruct (List.filter p l); [done|]; injection E as ->; left).
  rewrite list_elem_of_In, List.filter_In, <- list_elem_of_In in Hx. done.
Qed.

Lemma same_id db r1 r2 :
  db_wf db → r1 ∈ d_tags db → r2 ∈ d_tags db → r_id r1 = r_id r2 → r1 = r2.
Proof.
  intros Hw [i Hi]%list_elem_of_lookup [j Hj]%list_elem_of_lookup E.
  assert (i = j) as ->; [|congruence].
  eapply (NoDup_lookup _ i j (r_id r1) (wf_ids _ Hw)); rewrite list_lookup_fmap.
  - by rewrite Hi.
  - by rewrite Hj, E.
Qed.

(** What a statement that rewrites rows in place keeps. *)
Lemma rewrite_rows_wf db (g : row → row) :
  db_wf db → (∀ r, place (g r) = place r) → (∀ r, r_id (g r) = r_id r) →
  (∀ r, clean_row r → clean_row (g r)) →
  NoDup (omap composite (g <$> d_tags db)) → db_wf (with_tags (g <$> d_tags db) db).
Proof.
  intros [H1 H2 H3 H4 H5] Hp Hi Hcl Hc. constructor; cbn.
  - rewrite <- list_fmap_compose. erewrite list_fmap_ext; [exact H1|]. intros. apply Hp.
  - done.
  - rewrite <- list_fmap_compose. erewrite list_fmap_ext; [exact H3|]. intros. apply Hi.
  - apply Forall_fmap. eapply Forall_impl; [exact H4|]. cbn. intros r. by rewrite Hi.
  - apply Forall_fmap. eapply Forall_impl; [exact H5|]. done.
Qed.

(** A row apart from the others, by its id. *)
Lemma split_row db old :
  db_wf db → old ∈ d_tags db →
  ∃ l1 l2, d_tags db = l1 ++ old :: l2 ∧ ∀ r, r ∈ l1 ++ l2 → r ∈ d_tags db ∧ r_id r ≠ r_id old.
Proof.
  intros Hw (l1 & l2 & El)%list_elem_of_split. exists l1, l2. split; [done|].
  intros r Hr. assert (r ∈ d_tags db) as Hin by (rewrite El; set_solver). split; [done|].
  pose proof (wf_ids _ Hw) as Hids. rewrite El, fmap_app in Hids. cbn in Hids.
  apply NoDup_app in Hids as (_ & Hd1 & [Hd2 _]%NoDup_cons). intros E.
  apply elem_of_app in Hr as [Hr|Hr].
  - apply (Hd1 (r_id r)); [by apply list_elem_of_fmap_2|]. rewrite E. left.
  - apply Hd2. rewrite <- E. by apply list_elem_of_fmap_2.
Qed.

Definition give_owner (rowId : Z) (owner : string) (r : row) : row :=
  if r_id r =? rowId then set_owner owner r else r.

Lemma give_owner_other rowId owner r : r_id r ≠ rowId → give_owner rowId owner r = r.
Proof. intros H. unfold give_owner. by rewrite (proj2 (Z.eqb_neq _ _) H). Qed.

Lemma give_owner_place rowId owner r : place (give_owner rowId owner r) = place r.
Proof. unfold give_owner. by case_match. Qed.

Lemma give_owner_id rowId owner r : r_id (give_owner rowId owner r) = r_id r.
Proof. unfold give_owner. by case_match. Qed.

Lemma give_owner_clean rowId owner r :
  no_nul owner → clean_row r → clean_row (give_owner rowId owner r).
Proof. intros Ho [Hm Hr]. unfold give_owner. by destruct (r_id r =? rowId). Qed.

Lemma give_owner_split db old owner l1 l2 :
  d_tags db = l1 ++ old :: l2 → (∀ r, r ∈ l1 ++ l2 → r ∈ d_tags db ∧ r_id r ≠ r_id old) →
  give_owner (r_id old) owner <$> d_tags db = l1 ++ set_owner owner old :: l2.
Proof.
  intros El Ho. rewrite El, fmap_app, fmap_cons.
  assert (∀ l : list row, (∀ r, r ∈ l → r_id r ≠ r_id old) → give_owner (r_id old) owner <$> l = l) as Hsame.
  { intros l Hl. rewrite <- (list_fmap_id l) at 2. apply list_fmap_ext. intros j r Hr.
    apply give_owner_other, Hl. by eapply list_elem_of_lookup_2. }
  f_equal; [|f_equal].
  - apply Hsame. intros r Hr. apply Ho. set_solver.
  - unfold give_owner. by rewrite Z.eqb_refl.
  - apply Hsame. intros r Hr. apply Ho. set_solver.
Qed.

(** Giving an orphan an owner no other row conflicts with. *)
Lemma give_owner_wf db old owner :
  db_wf db → no_nul owner → old ∈ d_tags db → r_owner old = None →
  (∀ r, r ∈ d_tags db → r_id r ≠ r_id old → conflicts (set_owner owner old) r = false) →
  db_wf (with_tags (give_owner (r_id old) owner <$> d_tags db) db).
Proof.
  intros Hw Hcl Hold Eo Hc.
  apply rewrite_rows_wf;
    [done|apply give_owner_place|apply give_owner_id|intros; by apply give_owner_clean|].
  destruct (split_row db old Hw Hold) as (l1 & l2 & El & Hothers).
  erewrite give_owner_split by done.
  pose proof (wf_composites _ Hw) as Hco. rewrite El, omap_app in Hco. rewrite omap_app. cbn in *.
  assert (composite old = None) as Eco.
  { destruct (composite old) eqn:E; [|done]. apply composite_some in E as (_ & o & E & _). congruence. }
  rewrite Eco in Hco. destruct (composite (set_owner owner old)) as [c|] eqn:Ecn; [|done].
  rewrite <- Permutation_middle. apply NoDup_cons. split; [|done].
  rewrite elem_of_app, !omap_composite_in.
  assert (∀ r, r ∈ l1 ++ l2 → composite r ≠ Some c) as Hne.
  { intros r [Hr Hid]%Hothers. apply (Hc r Hr) in Hid. apply conflicts_false in Hid as [_ Hid]. auto. }
  intros [(r & Hr & Er)|(r & Hr & Er)]; apply (Hne r); set_solver.
Qed.

Lemma same_place db r1 r2 :
  db_wf db → r1 ∈ d_tags db → r2 ∈ d_tags db → place r1 = place r2 → r1 = r2.
Proof.
  intros Hw [i Hi]%list_elem_of_lookup [j Hj]%list_elem_of_lookup E.
  assert (i = j) as ->; [|congruence].
  eapply (NoDup_lookup _ i j (place r1) (wf_places _ Hw)); rewrite list_lookup_fmap.
  - by rewrite Hi.
  - by rewrite Hj, E.
Qed.

Lemma give_owner_numbering db old owner :
  db_wf db → old ∈ d_tags db →
  db_wf (with_tags (give_owner (r_id old) owner <$> d_tags db) db) →
  numbering_of (with_tags (give_owner (r_id old) owner <$> d_tags db) db)
  = <[place old := ident_of (set_owner owner old)]> (numbering_of db).
Proof.
  intros Hw Hold Hw'. apply map_eq. intros [s n]. apply option_eq. intros i.
  rewrite numbering_lookup by done. cbn.
  assert (give_owner (r_id old) owner old = set_owner owner old) as Eg
    by (unfold give_owner; by rewrite Z.eqb_refl).
  destruct (decide (place old = (s, n))) as [Ep|Hne].
  - rewrite Ep, lookup_insert_eq. split.
    + intros (r & (r0 & -> & Hr0)%list_elem_of_fmap & Er & <-). rewrite give_owner_place in Er.
      assert (r0 = old) as -> by (apply (same_place db); [done..|congruence]). by rewrite Eg.
    + intros [= <-]. exists (set_owner owner old). split; [|done].
      rewrite <- Eg. by apply list_elem_of_fmap_2.
  - rewrite lookup_insert_ne, numbering_lookup by done.
    assert (∀ r, place r = (s, n) → r ∈ d_tags db → r_id r ≠ r_id old) as Hid.
    { intros r Er Hr E. apply Hne. by rewrite <- (same_id db r old). }
    split.
    + intros (r & (r0 & -> & Hr0)%list_elem_of_fmap & Er & <-). rewrite give_owner_place in Er.
      exists r0. by rewrite give_owner_other by auto.
    + intros (r & Hr & Er & <-). exists r. split; [|done].
      rewrite <- (give_owner_other (r_id old) owner r) by auto. by apply list_elem_of_fmap_2.
Qed.

Lemma adopt_spec rowId owner db b db' :
  db_wf db → no_nul owner → adoptNullOwnerToolTag rowId owner db = Ok (b, db') →
  (b = false ∧ db' = db) ∨
  (b = true ∧ db_wf db' ∧ ∃ old, old ∈ d_tags db ∧ r_id old = rowId ∧ r_owner old = None ∧
     d_tags db' = give_owner rowId owner <$> d_tags db ∧
     (r_type old = tool → unclaimed (numbering_of db) (r_session old) owner (r_message old)) ∧
     numbering_of db' = <[place old := ident_of (set_owner owner old)]> (numbering_of db)).
Proof.
  intros Hw Hcl. unfold adoptNullOwnerToolTag.
  destruct (head _) as [old|] eqn:Eh; [|intros [= <- <-]; by left].
  apply filter_head in Eh as [Hold Hn]. unfold row_null_owner in Hn.
  apply andb_true_iff in Hn as [Eid%Z.eqb_eq Hn]. subst rowId.
  destruct (r_owner old) as [|] eqn:Eo; [done|].
  destruct (existsb _ _) eqn:Ec; [done|]. intros [= <- <-]. right.
  assert (∀ r, r ∈ d_tags db → r_id r ≠ r_id old → conflicts (set_owner owner old) r = false) as Hc.
  { intros r Hr Hne. rewrite existsb_false in Ec. specialize (Ec r Hr).
    apply Z.eqb_neq in Hne. by rewrite Hne in Ec. }
  pose proof (give_owner_wf db old owner Hw Hcl Hold Eo Hc) as Hw'.
  split; [done|]. split; [done|]. exists old. do 4 (split; [done|]). split.
  - intros Ht. apply (no_conflict_admissible db (set_owner owner old) Hw); try done.
    cbn. intros r Hr E. by rewrite (same_id db r old).
  - by apply give_owner_numbering.
Qed.

(** ** Lemmas: what a database keeps *)

Lemma backfill_wf s n counts db :
  db_wf db → db_wf (backfillTagTokenCounts s n counts db) ∧
  numbering_of (backfillTagTokenCounts s n counts db) = numbering_of db.
Proof.
  intros Hw. unfold backfillTagTokenCounts. set (g := fun r =>
    if at_number s n r && match tokenCount (r_counts r) with None => true | Some _ => false end
    then set_counts counts r else r).
  assert (∀ r, place (g r) = place r ∧ r_id (g r) = r_id r ∧ ident_of (g r) = ident_of r ∧
               composite (g r) = composite r) as Hg by (intros r; unfold g; by case_match).
  split.
  - apply rewrite_rows_wf; [done|intros; apply Hg|intros; apply Hg|intros r; unfold g; by case_match|].
    assert (omap composite (g <$> d_tags db) = omap composite (d_tags db)) as ->;
      [|apply (wf_composites _ Hw)].
    induction (d_tags db) as [|r l IH]; [done|]. cbn.
    destruct (Hg r) as (_ & _ & _ & ->). by rewrite IH.
  - unfold numbering_of. cbn. f_equal. rewrite <- list_fmap_compose. apply list_fmap_ext.
    intros i r _. cbn. destruct (Hg r) as (-> & _ & -> & _). done.
Qed.

(** Rows stay, with their ids, places and messages; an owner once given stays. *)
Definition row_le (r r' : row) : Prop :=
  r_id r' = r_id r ∧ place r' = place r ∧ r_message r' = r_message r ∧ r_type r' = r_type r ∧
  (∀ o, r_owner r = Some o → r_owner r' = Some o).

Definition db_le (db db' : database) : Prop :=
  ∀ r, r ∈ d_tags db → ∃ r', r' ∈ d_tags db' ∧ row_le r r'.

Definition db_steps (db db' : database) : Prop :=
  evolves (numbering_of db) (numbering_of db') ∧ db_le db db'.

Lemma row_le_refl r : row_le r r.
Proof. by repeat split. Qed.

#[export] Instance db_steps_preorder : PreOrder db_steps.
Proof.
  split.
  - intros db. split; [apply rtc_refl|]. intros r Hr. exists r. split; [done|apply row_le_refl].
  - intros d1 d2 d3 [E1 L1] [E2 L2]. split; [by etrans|]. intros r Hr.
    destruct (L1 r Hr) as (r2 & Hr2 & A1 & A2 & A3 & A4 & A5).
    destruct (L2 r2 Hr2) as (r3 & Hr3 & B1 & B2 & B3 & B4 & B5).
    exists r3. split; [done|]. unfold row_le. split_and!; try congruence. auto.
Qed.

Lemma rewrite_rows_le db g :
  (∀ r, row_le r (g r)) → db_le db (with_tags (g <$> d_tags db) db).
Proof. intros Hg r Hr. exists (g r). split; [by apply list_elem_of_fmap_2|done]. Qed.

Lemma backfill_steps s n counts db :
  db_wf db → db_wf (backfillTagTokenCounts s n counts db) ∧
  db_steps db (backfillTagTokenCounts s n counts db).
Proof.
  intros Hw. destruct (backfill_wf s n counts db Hw) as [Hw' E]. split; [done|].
  split; [rewrite E; apply rtc_refl|]. apply rewrite_rows_le. intros r.
  case_match; [by repeat split|apply row_le_refl].
Qed.

(** A change of the other columns: counters and versions. *)
Lemma same_tags_steps db db' :
  d_tags db' = d_tags db → d_next_id db' = d_next_id db →
  db_wf db → db_wf db' ∧ db_steps db db'.
Proof.
  intros Et En [H1 H2 H3 H4 H5]. split; [constructor; rewrite ?Et, ?En; done|]. split.
  - unfold numbering_of. rewrite Et. apply rtc_refl.
  - intros r Hr. rewrite Et. exists r. split; [done|apply row_le_refl].
Qed.

Lemma insert_steps new db db' :
  db_wf db → clean_row new → insertTag new db = Ok db' → db_wf db' ∧ db_steps db db'.
Proof.
  intros Hw Hcl Hi. destruct (insertTag_ok _ _ _ Hw Hcl Hi) as (Hw' & Hfree & Hadm & E).
  split; [done|]. split.
  - rewrite E. apply rtc_once. unfold place in *. by apply step_insert.
  - unfold insertTag in Hi. case_match; [done|]. injection Hi as <-. intros r Hr. exists r.
    split; [cbn; set_solver|apply row_le_refl].
Qed.

Lemma adopt_steps rowId owner db b db' :
  db_wf db → no_nul owner → (∃ r, r ∈ d_tags db ∧ r_id r = rowId ∧ r_type r = tool) →
  adoptNullOwnerToolTag rowId owner db = Ok (b, db') → db_wf db' ∧ db_steps db db'.
Proof.
  intros Hw Hcl (r & Hr & Hid & Ht) Ha.
  destruct (adopt_spec _ _ _ _ _ Hw Hcl Ha) as [[-> ->]|(-> & Hw' & old & Hold & Eid & Eo & Etags & Hun & En)].
  { done. }
  assert (r = old) as -> by (apply (same_id db); [done..|congruence]).
  split; [done|]. split.
  - rewrite En. apply rtc_once. unfold place, ident_of, set_owner. cbn. rewrite Ht.
    apply step_adopt; [|by apply Hun].
    apply numbering_lookup; [done|]. exists old. unfold ident_of. by rewrite Ht, Eo.
  - intros r' Hr'. rewrite Etags. exists (give_owner rowId owner r').
    split; [by apply list_elem_of_fmap_2|]. unfold give_owner. destruct (r_id r' =? rowId) eqn:E.
    + assert (r' = old) as -> by (apply (same_id db); [done..|apply Z.eqb_eq in E; congruence]).
      repeat split. intros o Ho. congruence.
    + apply row_le_refl.
Qed.

Lemma foreign_steps f db : db_wf db → clean_foreign f → db_wf (apply_foreign db f) ∧ db_steps db (apply_foreign db f).
Proof.
  intros Hw Hcl. unfold apply_foreign. set (db1 := match f with f_insert _ => _ | _ => _ end).
  assert (db_wf db1 ∧ db_steps db db1) as [Hw1 Hs1].
  { subst db1. destruct f as [new|rowId owner|s n counts|s v h].
    - destruct (insertTag new db) eqn:E; [by eapply insert_steps|done].
    - destruct (existsb _ _) eqn:Ex; [|done]. apply existsb_exists in Ex as (r & Hr & Hb).
      apply list_elem_of_In in Hr. bool_hyps. unfold is_tool in *. case_bool_decide; [|done].
      destruct (adoptNullOwnerToolTag _ _ _) as [[b db1]|] eqn:E; [|done].
      eapply adopt_steps; [done|done| |done]. exists r. split_and!; [done|lia|done].
    - by apply backfill_steps.
    - by apply same_tags_steps. }
  destruct (same_tags_steps db1 (bump db1)) as [? ?]; [done..|]. split; [done|by etrans].
Qed.

Lemma foreigns_steps l db :
  db_wf db → Forall clean_foreign l → db_wf (foldl apply_foreign db l) ∧ db_steps db (foldl apply_foreign db l).
Proof.
  intros Hw Hl. revert db Hw. induction Hl as [|f l Hf Hl IH]; intros db Hw; cbn; [done|].
  destruct (foreign_steps f db Hw Hf) as [Hw1 Hs1]. destruct (IH _ Hw1) as [? ?].
  split; [done|by etrans].
Qed.

(** ** Lemmas: numberings *)

Lemma num_step_mono l f f' s n e i :
  num_step l f f' → f !! (s, n) = Some i → matches e i → ∃ i', f' !! (s, n) = Some i' ∧ matches e i'.
Proof.
  intros Hstep Hi Hm. destruct Hstep as [f s' n' i'|f s' n' c o|f s' n' e' i'|f s' n' c o|f s' n' e' i'];
    try (eexists; split; [eassumption|done]);
    (destruct (decide ((s, n) = (s', n'))) as [E|E];
      [rewrite <- E in *; try congruence|by rewrite lookup_insert_ne; eauto]).
  all: rewrite lookup_insert_eq; simplify_eq; eexists; split; [done|].
  all: destruct e; cbn in *; naive_solver.
Qed.

Lemma evolves_mono f f' s n e i :
  evolves f f' → f !! (s, n) = Some i → matches e i → ∃ i', f' !! (s, n) = Some i' ∧ matches e i'.
Proof.
  intros H. revert i. induction H as [|f f1 f' Hs _ IH]; intros i Hi Hm; [eauto|].
  destruct (num_step_mono _ _ _ _ _ _ _ Hs Hi Hm) as (i1 & Hi1 & Hm1). eauto.
Qed.

Lemma evolves_dom f f' s n : evolves f f' → is_Some (f !! (s, n)) → is_Some (f' !! (s, n)).
Proof.
  intros He [i Hi]. destruct (evolves_mono f f' s n (Bare (i_message i)) i He Hi eq_refl) as (i' & ? & _).
  eauto.
Qed.

(** An owned tool call holds one number at most. *)
Definition tool_unique (f : numbering) : Prop :=
  ∀ s n1 n2 i1 i2 o c, f !! (s, n1) = Some i1 → f !! (s, n2) = Some i2 →
    matches (ToolCall o c) i1 → matches (ToolCall o c) i2 → n1 = n2.

Lemma insert_tool_unique f s n i :
  tool_unique f → admissible f s i → tool_unique (<[(s, n) := i]> f).
Proof.
  intros Hu Ha s' n1 n2 i1 i2 o c H1 H2 M1 M2.
  destruct (decide ((s, n) = (s', n1))) as [E1|E1], (decide ((s, n) = (s', n2))) as [E2|E2];
    try congruence.
  - rewrite E1, lookup_insert_eq in H1. rewrite lookup_insert_ne in H2 by done.
    exfalso. simplify_eq. destruct M1 as (? & <- & ?). by eapply Ha.
  - rewrite E2, lookup_insert_eq in H2. rewrite lookup_insert_ne in H1 by done.
    exfalso. simplify_eq. destruct M2 as (? & <- & ?). by eapply Ha.
  - rewrite lookup_insert_ne in H1, H2 by done. by eapply Hu.
Qed.

Lemma num_step_unique l f f' : num_step l f f' → tool_unique f → tool_unique f'.
Proof.
  destruct 1; intros Hu; try done; (apply insert_tool_unique; [done|]); try done;
    intros o' _ [= <-]; done.
Qed.

Lemma db_tool_unique db : db_wf db → tool_unique (numbering_of db).
Proof.
  intros Hw s n1 n2 i1 i2 o c H1 H2 (T1 & M1 & O1) (T2 & M2 & O2).
  apply numbering_lookup in H1 as (r1 & Hr1 & P1 & <-), H2 as (r2 & Hr2 & P2 & <-); [|done..].
  cbn in *. unfold place in *. simplify_eq.
  assert (r1 = r2) as ->; [|done].
  destruct (proj1 (list_elem_of_lookup _ _) Hr1) as [i Hi].
  destruct (list_elem_of_split _ _ Hr1) as (l1 & l2 & El).
  pose proof (wf_composites _ Hw) as Hc. rewrite El in Hr2, Hc. rewrite omap_app in Hc. cbn in Hc.
  assert (composite r1 = Some (r_session r1, r_message r1, o)) as C1 by (apply composite_some; eauto).
  assert (composite r2 = Some (r_session r1, r_message r1, o)) as C2.
  { apply composite_some. split; [done|]. exists o. split; [done|]. congruence. }
  rewrite C1, <- Permutation_middle in Hc. apply NoDup_cons in Hc as [Hc _].
  apply elem_of_app in Hr2 as [Hr2|[->|Hr2]%elem_of_cons]; [|done|];
    exfalso; apply Hc, elem_of_app; [left|right]; apply omap_composite_in; eauto.
Qed.

(** ** Lemmas: a logic for the calls

    [spec P m R]: from a sound world whose database satisfies [P], [m] ends in a
    sound world, its database having only grown, and its result satisfies [R]
    with the databases before and after. *)

Definition clean_pause (p : pause) : Prop := Forall clean_foreign (p_commits p).

Definition sound (w : world) : Prop :=
  db_wf (w_db w) ∧ coherent (w_mem w) (numbering_of (w_db w)) ∧ Forall clean_pause (w_pauses w).

Definition spec {A} (P : database → Prop) (m : M A) (R : database → A → database → Prop) : Prop :=
  ∀ w r w', sound w → P (w_db w) → m w = (r, w') →
    sound w' ∧ db_steps (w_db w) (w_db w') ∧ ∀ a, r = Ok a → R (w_db w) a (w_db w').

(** The table backs a number as an entity's. *)
Definition backed (s : string) (e : entity) (n : Z) (db : database) : Prop :=
  ∃ i, numbering_of db !! (s, n) = Some i ∧ matches e i.

Lemma backed_steps s e n db db' : db_steps db db' → backed s e n db → backed s e n db'.
Proof. intros [He _] (i & Hi & Hm). by apply (evolves_mono _ _ _ _ _ _ He Hi). Qed.

Lemma coherent_steps m db db' :
  db_steps db db' → coherent m (numbering_of db) → coherent m (numbering_of db').
Proof. intros Hs Hc s key n Hk. apply (backed_steps _ _ _ db); [done|]. by apply Hc. Qed.

Lemma coherent_bind m db s key n :
  coherent m (numbering_of db) → backed s (entity_of_key key) n db →
  coherent (bind_key s key n m) (numbering_of db).
Proof.
  intros Hc Hb s' key' n'. unfold bind_key, with_assignments, getSessionAssignments. cbn.
  destruct (decide (s = s')) as [<-|Hne].
  - rewrite lookup_insert_eq. cbn. destruct (decide (key = key')) as [<-|Hk].
    + rewrite lookup_insert_eq. intros [= <-]. exact Hb.
    + rewrite lookup_insert_ne by done. apply Hc.
  - rewrite lookup_insert_ne by done. apply Hc.
Qed.

Section rules.
Context {A B : Type}.
Implicit Types (P : database → Prop).

Lemma spec_weaken P P' (m : M A) (R R' : database → A → database → Prop) :
  spec P m R → (∀ db, P' db → P db) →
  (∀ db a db', P' db → db_steps db db' → R db a db' → R' db a db') → spec P' m R'.
Proof.
  intros Hm HP HR w r w' Hs Hp E. destruct (Hm w r w' Hs (HP _ Hp) E) as (? & ? & Hr).
  split; [done|]. split; [done|]. intros a Ha. by apply HR; [| |apply Hr].
Qed.

Lemma spec_post P (m : M A) (R R' : database → A → database → Prop) :
  spec P m R → (∀ db a db', P db → db_steps db db' → R db a db' → R' db a db') → spec P m R'.
Proof. intros Hm HR. by eapply spec_weaken. Qed.

Lemma spec_ret P (a : A) R : (∀ db, P db → R db a db) → spec P (mret a) R.
Proof. intros HR w r w' Hs Hp [= <- <-]. split; [done|]. split; [done|]. intros ? [= <-]. by apply HR. Qed.

Lemma spec_throw P e R : spec P (throw e : M A) R.
Proof. intros w r w' Hs _ [= <- <-]. by split. Qed.

Lemma spec_bind P (m : M A) (k : A → M B) R1 R2 :
  spec P m R1 →
  (∀ a db0, P db0 → spec (fun db => db_steps db0 db ∧ R1 db0 a db) (k a)
                      (fun _ b db' => R2 db0 b db')) →
  spec P (m ≫= k) R2.
Proof.
  intros Hm Hk w r w' Hs Hp E. unfold mbind, M_bind in E.
  destruct (m w) as [[a|e] w1] eqn:Em.
  - destruct (Hm w _ w1 Hs Hp Em) as (Hs1 & Hst1 & Hr1).
    destruct (Hk a (w_db w) Hp w1 r w' Hs1 (conj Hst1 (Hr1 a eq_refl)) E) as (Hs' & Hst' & Hr').
    split; [done|]. split; [by etrans|done].
  - simplify_eq. destruct (Hm w _ w' Hs Hp Em) as (? & ? & _). by split.
Qed.

Lemma spec_catch P (m : M A) h R :
  spec P m R →
  (∀ e db0, P db0 → spec (fun db => db_steps db0 db) (h e) (fun _ a db' => R db0 a db')) →
  spec P (catch m h) R.
Proof.
  intros Hm Hh w r w' Hs Hp E. unfold catch in E.
  destruct (m w) as [[a|e] w1] eqn:Em.
  - simplify_eq. by apply (Hm w _ w').
  - destruct (Hm w _ w1 Hs Hp Em) as (Hs1 & Hst1 & _).
    destruct (Hh e (w_db w) Hp w1 r w' Hs1 Hst1 E) as (Hs' & Hst' & Hr').
    split; [done|]. split; [by etrans|done].
Qed.

Lemma spec_gets P (g : memory → A) (R : database → A → database → Prop) :
  (∀ m db, P db → coherent m (numbering_of db) → R db (g m) db) → spec P (gets g) R.
Proof.
  intros HR w r w' Hs Hp [= <- <-]. split; [done|]. split; [done|]. intros ? [= <-].
  apply HR; [done|apply Hs].
Qed.

Lemma spec_access P (f : database → result tagger_error (A * database)) R :
  (∀ db db1, P db → db_wf db1 → db_steps db db1 →
     ∀ a db2, f db1 = Ok (a, db2) → db_wf db2 ∧ db_steps db1 db2 ∧ R db a db2) →
  spec P (access f) R.
Proof.
  intros Hf w r w' (Hw & Hc & Hps) Hp E. unfold access in E.
  set (p := default no_pause _) in *.
  assert (clean_pause p ∧ Forall clean_pause (tail (w_pauses w))) as [Hpc Hps'].
  { subst p. destruct Hps; [by repeat constructor|done]. }
  destruct (foreigns_steps (p_commits p) (w_db w) Hw Hpc) as [Hw1 Hs1].
  set (db1 := foldl _ _ _) in *.
  assert (sound {| w_mem := w_mem w; w_db := db1; w_pauses := tail (w_pauses w) |}) as Hsound1.
  { split; [done|]. split; [|done]. by eapply coherent_steps. }
  destruct (p_fault p); [simplify_eq; by split|].
  destruct (f db1) as [[a db2]|e] eqn:Ef; simplify_eq; [|by split].
  destruct (Hf (w_db w) db1 Hp Hw1 Hs1 a db2 Ef) as (Hw2 & Hs2 & HR). cbn.
  assert (db_steps (w_db w) db2) by by etrans.
  split; [split; [done|split; [by eapply coherent_steps|done]]|]. split; [done|]. by intros ? [= <-].
Qed.

Lemma spec_query P (f : database → A) :
  spec P (query f) (fun db a db' => db_wf db' ∧ a = f db').
Proof. apply spec_access. intros db db1 _ Hw Hs a db2 [= <- <-]. by split. Qed.

End rules.

Lemma spec_update P (f : database → database) :
  (∀ db, db_wf db → db_wf (f db) ∧ db_steps db (f db)) →
  spec P (update f) (fun _ _ _ => True).
Proof.
  intros Hf. apply spec_access. intros db db1 _ Hw _ a db2 [= <- <-].
  destruct (Hf db1 Hw). done.
Qed.

Lemma spec_modify P g :
  (∀ m db, P db → coherent m (numbering_of db) → coherent (g m) (numbering_of db)) →
  spec P (modify g) (fun db _ db' => db' = db).
Proof.
  intros Hg w r w' (Hw & Hc & Hps) Hp [= <- <-]. split; [|done].
  split; [done|]. split; [by apply Hg|done].
Qed.

Lemma upsert_steps s v h db : db_wf db → db_wf (upsertCounter s v h db) ∧ db_steps db (upsertCounter s v h db).
Proof. by apply same_tags_steps. Qed.

(** Operations of which only that they are sound matters. *)
Abbreviation quiet m := (∀ P, spec P m (fun _ _ _ => True)).

Lemma quiet_any {A} P (m : M A) R : spec P m R → spec P m (fun _ _ _ => True).
Proof. intros H. by eapply spec_weaken. Qed.

Section calls.
Context (harness : string).

Lemma sync_quiet s n : quiet (syncCounterAtLeast harness s n).
Proof.
  intros P. unfold syncCounterAtLeast. case_match; [by apply spec_ret|].
  eapply spec_bind; [by apply (spec_gets P _ (fun _ _ _ => True))|]. intros c db0 _. cbn.
  eapply spec_bind; [apply spec_modify; by intros|]. intros u db1 _. cbn.
  apply spec_update. intros. by apply upsert_steps.
Qed.

Lemma thunk_quiet t : quiet (call_thunk t).
Proof. intros P. destruct t; [by apply spec_ret|apply spec_throw]. Qed.

Lemma backfill_update_quiet s n counts : quiet (update (backfillTagTokenCounts s n counts)).
Proof. intros P. apply spec_update. intros. by apply backfill_steps. Qed.

Lemma fill_quiet s n t :
  quiet (counts ← call_thunk t; update (backfillTagTokenCounts s n counts)).
Proof.
  intros P. eapply spec_bind; [apply thunk_quiet|]. intros counts db0 _. cbn.
  apply backfill_update_quiet.
Qed.

Lemma backfillTool_quiet s n t : quiet (backfillToolTokensIfNull s n t).
Proof.
  intros P. unfold backfillToolTokensIfNull. destruct t as [t|]; [|by apply spec_ret].
  apply spec_catch; [|intros; by apply spec_ret].
  eapply spec_bind; [eapply quiet_any, spec_query|]. intros b db0 _. cbn.
  destruct b; [apply fill_quiet|by apply spec_ret].
Qed.

Lemma backfill_existing_quiet s n t : quiet (backfill_existing s n t).
Proof.
  intros P. unfold backfill_existing. destruct t as [t|]; [|by apply spec_ret].
  eapply spec_bind; [eapply quiet_any, spec_query|]. intros b db0 _. cbn.
  destruct b; [|by apply spec_ret]. apply spec_catch; [apply fill_quiet|intros; by apply spec_ret].
Qed.

(** A number granted between two databases. *)
Definition granted (s : string) (e : entity) (n : Z) (db db' : database) : Prop :=
  ∃ h f1 f2,
    evolves (numbering_of db) f1 ∧
    num_step (Some {| g_how := h; g_session := s; g_entity := e; g_number := n |}) f1 f2 ∧
    evolves f2 (numbering_of db') ∧
    (h = Allocated → ∀ m, is_Some (numbering_of db !! (s, m)) → m < n).

Lemma granted_before s e n db db1 db2 :
  db_steps db db1 → granted s e n db1 db2 → granted s e n db db2.
Proof.
  intros [He _] (h & f1 & f2 & E1 & Hs & E2 & Hf). exists h, f1, f2.
  split; [by etrans|]. split; [done|]. split; [done|]. intros Hh m Hm. apply (Hf Hh).
  by eapply evolves_dom.
Qed.

Lemma granted_after s e n db db1 db2 :
  granted s e n db db1 → db_steps db1 db2 → granted s e n db db2.
Proof.
  intros (h & f1 & f2 & E1 & Hs & E2 & Hf) [He _]. exists h, f1, f2.
  split; [done|]. split; [done|]. split; [by etrans|done].
Qed.

Lemma granted_found s e n db : backed s e n db → granted s e n db db.
Proof.
  intros (i & Hi & Hm). exists Found, (numbering_of db), (numbering_of db).
  split; [apply rtc_refl|]. split; [by eapply step_found|]. split; [apply rtc_refl|done].
Qed.

Lemma granted_backed s e n db db' : granted s e n db db' → backed s e n db'.
Proof.
  intros (h & f1 & f2 & _ & Hs & E2 & _).
  assert (∃ i, f2 !! (s, n) = Some i ∧ matches e i) as (i & Hi & Hm).
  { inversion Hs; subst; [eauto|..]; eexists; (split; [apply lookup_insert_eq|]); done. }
  by apply (evolves_mono _ _ _ _ _ _ E2 Hi).
Qed.

(** A claim that went through. *)
Definition claimed_in (s : string) (i : ident) (n : Z) (db db' : database) : Prop :=
  ∃ db1, db_steps db db1 ∧ numbering_of db1 !! (s, n) = None ∧
         admissible (numbering_of db1) s i ∧ numbering_of db' = <[(s, n) := i]> (numbering_of db1).

Lemma claim_spec P s new :
  r_session new = s → clean_row new →
  spec P (access (claim harness s new))
    (fun db _ db' => claimed_in s (ident_of new) (r_number new) db db').
Proof.
  intros <- Hcl. apply spec_access. intros db db1 _ Hw Hs [] db2 E. unfold claim in E. inv_ok.
  match goal with H : insertTag _ _ = Ok ?x |- _ => rename x into db3; rename H into Ei end.
  destruct (insertTag_ok _ _ _ Hw Hcl Ei) as (_ & Hfree & Hadm & En).
  destruct (insert_steps _ _ _ Hw Hcl Ei) as [Hw3 Hs3].
  destruct (upsert_steps (r_session new) (r_number new) harness db3 Hw3) as [? ?].
  simplify_eq/=. split; [done|]. split; [by etrans|]. exists db1. done.
Qed.

Lemma granted_claimed s e i n db0 db db' :
  db_steps db0 db → (∀ m, is_Some (numbering_of db0 !! (s, m)) → m < n) → matches e i →
  claimed_in s i n db db' → granted s e n db0 db'.
Proof.
  intros [He0 _] Hmax Hm (db1 & [He1 _] & Hfree & Hadm & En).
  exists Allocated, (numbering_of db1), (numbering_of db').
  split; [by etrans|]. split; [rewrite En; by apply step_allocated|]. split; [apply rtc_refl|done].
Qed.

Lemma foldl_max_le l n k : k ≤ n ∨ (∃ x, x ∈ l ∧ k ≤ x) → k ≤ foldl Z.max n l.
Proof.
  revert n. induction l as [|y l IH]; intros n H; cbn.
  - destruct H as [?|(x & Hx & _)]; [done|]. by apply not_elem_of_nil in Hx.
  - apply IH. destruct H as [?|(x & [->|Hx]%elem_of_cons & ?)]; [left; lia|left; lia|right; eauto].
Qed.

(** The greatest number bounds every number of the session. *)
Lemma max_bounds s db n : db_wf db → is_Some (numbering_of db !! (s, n)) → n ≤ getMaxTagNumberBySession s db.
Proof.
  intros Hw [i Hi]. apply numbering_lookup in Hi as (r & Hr & [= Es En] & _); [|done].
  unfold getMaxTagNumberBySession.
  assert (n ∈ r_number <$> select (in_session s) db) as Hin.
  { rewrite <- En. apply list_elem_of_fmap_2, select_in. split; [|done].
    unfold in_session. by apply String.eqb_eq. }
  destruct (r_number <$> select (in_session s) db) as [|x l]; [by apply not_elem_of_nil in Hin|].
  cbn. apply foldl_max_le. apply elem_of_cons in Hin as [->|Hin]; [by left|].
  right. exists n. split; [done|lia].
Qed.

Section one_call.
Context (s key : string) (e : entity) (c : tag_columns) (lookup : database → option Z)
  (Hkey : entity_of_key key = e)
  (Hcols : matches e {| i_type := tc_type c; i_message := tc_message c; i_owner := tc_owner c |})
  (Hclean : ∀ n counts, clean_row (new_row harness s c n counts))
  (Hlookup : ∀ db n, db_wf db → lookup db = Some n → backed s e n db).

Lemma bind_backed P n :
  (∀ db, P db → backed s e n db) → spec P (modify (bind_key s key n)) (fun db _ db' => db' = db).
Proof. intros HP. apply spec_modify. intros m db Hp Hc. apply coherent_bind; [done|]. rewrite Hkey. auto. Qed.

(** Binding a number the table backs grants it, whatever quiet work follows. *)
Lemma grant_rest {A} P n (k : M A) a :
  (∀ P', spec P' k (fun _ x _ => x = a)) → (∀ db, P db → backed s e n db) →
  spec P (modify (bind_key s key n);; k) (fun db x db' => x = a ∧ granted s e n db db').
Proof.
  intros Hk HP. eapply spec_bind; [by apply bind_backed|]. intros [] db0 Hp. cbn.
  eapply spec_post; [apply Hk|]. intros db x db' [_ ->] Hs ->. split; [done|].
  eapply granted_after; [by apply granted_found, HP|done].
Qed.

Lemma attempt_spec P counts :
  spec P (attempt harness s c key lookup counts)
    (fun db a db' => ∀ n, a = Some n → granted s e n db db').
Proof.
  unfold attempt.
  eapply spec_bind; [by apply (spec_gets P _ (fun db _ db' => db' = db))|]. intros memC db0 Hp0. cbn.
  eapply spec_bind; [apply spec_query|]. intros dbMax db1 [Hs1 ->]. cbn.
  set (next := Z.max memC dbMax + 1).
  set (i := {| i_type := tc_type c; i_message := tc_message c; i_owner := tc_owner c |}).
  eapply (spec_bind _ _ _ (fun db b db' => b = true → claimed_in s i next db db')).
  { apply spec_catch.
    - eapply spec_bind; [by apply claim_spec, Hclean|]. intros [] db2 _. by apply spec_ret; intros db [_ ?].
    - intros err db2 _. destruct (is_unique err); [by apply spec_ret|apply spec_throw]. }
  intros claimed db2 (Hs2 & Hw2 & Emax). destruct claimed.
  - assert (∀ db, db_steps db2 db ∧ (true = true → claimed_in s i next db2 db) →
                  granted s e next db0 db) as Hg.
    { intros db [_ Hc]. apply (granted_claimed _ _ i _ _ db2); [exact Hs2| |exact Hcols|auto].
      intros m Hm. assert (m ≤ dbMax); [|unfold next; lia]. rewrite Emax.
      apply max_bounds; [done|]. eapply evolves_dom; [apply Hs2|done]. }
    eapply spec_bind; [by apply spec_modify|]. intros [] db3 H3. cbn.
    eapply spec_bind; [apply bind_backed|].
    { intros db [_ ->]. eapply granted_backed. auto. }
    intros [] db4 [_ ->]. cbn.
    eapply (spec_bind _ _ _ (fun db _ db' => db' = db)).
    { destruct (tc_type c); [by apply spec_ret|by apply spec_modify|by apply spec_ret]. }
    intros [] db5 [_ ->]. apply spec_ret. intros db [_ ->] n [= <-]. auto.
  - eapply spec_bind; [apply spec_query|]. intros raced db3 [Hs3 _]. cbn. destruct raced as [n|].
    + eapply (spec_weaken (backed s e n)); [apply (grant_rest _ n _ (Some n))| |].
      * intros P'. eapply spec_bind; [apply sync_quiet|]. intros [] db4 _. by apply spec_ret.
      * done.
      * intros db (_ & Hw4 & El). by apply Hlookup.
      * intros db a db' (Hs4 & _) _ [-> Hg] n' [= <-].
        apply (granted_before _ _ _ _ db); [|done]. etrans; [exact Hs2|]. by etrans.
    + eapply spec_bind; [apply spec_query|]. intros adv db4 _. cbn.
      eapply spec_bind; [by apply spec_modify|]. intros [] db5 _. by apply spec_ret.
Qed.

Lemma attempts_spec fuel P counts :
  spec P (attempts harness fuel s c key lookup counts) (fun db n db' => granted s e n db db').
Proof.
  revert P. induction fuel as [|fuel IH]; intros P; cbn [attempts]; [apply spec_throw|].
  eapply spec_bind; [apply attempt_spec|]. intros [n|] db0 _.
  - apply spec_ret. intros db [_ Hg]. by apply Hg.
  - eapply spec_post; [apply IH|]. intros db n db' [Hs _] _ Hg. by eapply granted_before.
Qed.

Lemma allocateTag_spec P tokenThunk :
  spec P (allocateTag harness s c key lookup tokenThunk) (fun db n db' => granted s e n db db').
Proof.
  unfold allocateTag.
  eapply (spec_bind _ _ _ (fun db a db' => db' = db ∧ ∀ n, a = Some n → backed s e n db)).
  { apply spec_gets. intros m db _ Hc. split; [done|]. intros n Hn. rewrite <- Hkey. by apply Hc. }
  intros [n|] db0 _.
  { apply spec_ret. intros db (_ & -> & Hb). by apply granted_found, Hb. }
  eapply spec_bind; [apply spec_query|]. intros dbExisting db1 (_ & -> & _). cbn.
  destruct dbExisting as [n|].
  - eapply (spec_weaken (backed s e n)); [apply (grant_rest _ n _ n)| |].
    + intros P'. eapply spec_bind; [apply sync_quiet|]. intros [] db2 _.
      eapply spec_bind; [apply backfill_existing_quiet|]. intros [] db3 _. by apply spec_ret.
    + done.
    + intros db (_ & Hw & El). by apply Hlookup.
    + intros db a db' (Hs & _) _ [-> Hg]. by eapply granted_before.
  - eapply (spec_bind _ _ _ (fun _ _ _ => True)).
    { destruct tokenThunk as [t|]; [|by apply spec_ret].
      eapply spec_bind; [apply thunk_quiet|]. intros counts db2 _. by apply spec_ret. }
    intros counts db2 (Hs2 & _). eapply spec_post; [apply (attempts_spec MAX_TAG_ALLOC_RETRIES)|].
    intros db n db' [Hs _] _ Hg. eapply granted_before; [|done]. by etrans.
Qed.

End one_call.

(** *** What the lookups find *)

Lemma foldl_min_in l n : foldl Z.min n l = n ∨ foldl Z.min n l ∈ l.
Proof.
  revert n. induction l as [|x l IH]; intros n; cbn; [by left|].
  destruct (IH (Z.min n x)) as [E|E]; [|set_solver].
  rewrite E. destruct (Z.min_spec n x) as [[_ ->]|[_ ->]]; set_solver.
Qed.

Lemma least_in l n : least l = Some n → n ∈ l.
Proof. destruct l as [|x l]; [done|]. cbn. intros [= <-]. destruct (foldl_min_in l x) as [->|?]; set_solver. Qed.

Lemma in_session_true s r : in_session s r = true ↔ r_session r = s.
Proof. apply String.eqb_eq. Qed.

(** A row of the session backs its number. *)
Lemma row_backed s db r e :
  db_wf db → r ∈ d_tags db → r_session r = s → matches e (ident_of r) → backed s e (r_number r) db.
Proof.
  intros Hw Hr Hs Hm. exists (ident_of r). split; [|done]. apply numbering_lookup; [done|].
  exists r. unfold place. by rewrite Hs.
Qed.

Lemma message_lookup_backed s m db n :
  db_wf db → getTagNumberByMessageId s m db = Some n → backed s (Bare m) n db.
Proof.
  intros Hw (r & -> & Hr)%least_in%list_elem_of_fmap. apply select_in in Hr as [Hp Hr].
  apply andb_true_iff in Hp as [Hs%in_session_true Hm%String.eqb_eq]. by apply row_backed.
Qed.

Lemma owned_by_true s c o r :
  owned_by s c o r = true ↔ r_session r = s ∧ matches (ToolCall o c) (ident_of r).
Proof.
  unfold owned_by, is_tool, is_owner. rewrite !andb_true_iff, in_session_true, String.eqb_eq, bool_decide_eq_true.
  cbn. destruct (r_owner r) as [x|]; [rewrite String.eqb_eq|]; naive_solver.
Qed.

Lemma owner_lookup_backed s c o db n :
  db_wf db → getToolTagNumberByOwner s c o db = Some n → backed s (ToolCall o c) n db.
Proof.
  intros Hw. unfold getToolTagNumberByOwner. destruct (head _) as [r|] eqn:Eh; [|done].
  intros [= <-]. apply filter_head in Eh as [Hr [Hs Hm]%owned_by_true]. by apply row_backed.
Qed.

Lemma orphan_lookup s c db id n :
  getNullOwnerToolTag s c db = Some (id, n) →
  ∃ r, r ∈ d_tags db ∧ r_id r = id ∧ place r = (s, n) ∧ r_message r = c ∧ r_type r = tool ∧
       r_owner r = None.
Proof.
  unfold getNullOwnerToolTag. destruct (least _) as [k|]; [|done]. cbn.
  destruct (head _) as [r|] eqn:Eh; [|done]. intros [= <- <-]. exists r.
  apply filter_head in Eh as [[Hp Hr]%select_in _]. unfold orphan_of, is_tool in Hp. bool_hyps.
  split; [done|]. split; [done|]. unfold place.
  rewrite in_session_true, String.eqb_eq, bool_decide_eq_true in *.
  destruct (r_owner r); [done|]. by simplify_eq.
Qed.

(** *** Keys *)

Lemma before_nul_none l : 0 ∉ l → before_nul l = None.
Proof.
  induction l as [|u l IH]; [done|]. intros H. cbn.
  rewrite (proj2 (Z.eqb_neq u 0)) by set_solver. by rewrite IH by set_solver.
Qed.

Lemma before_nul_app a b : 0 ∉ a → before_nul (a ++ 0 :: b) = Some (a, b).
Proof.
  induction a as [|u a IH]; [done|]. intros H. cbn.
  rewrite (proj2 (Z.eqb_neq u 0)) by set_solver. by rewrite IH by set_solver.
Qed.

Lemma key_bare m : no_nul m → entity_of_key m = Bare m.
Proof. intros H. unfold entity_of_key. by rewrite before_nul_none. Qed.

Lemma key_tool o c : no_nul o → entity_of_key (makeToolCompositeKey o c) = ToolCall o c.
Proof.
  intros H. unfold entity_of_key, makeToolCompositeKey. rewrite !code_units_app.
  change (code_units TOOL_COMPOSITE_KEY_SEP) with [0]. cbn [app].
  by rewrite before_nul_app, !of_code_units_units.
Qed.

(** *** Adoption and the calls *)

Lemma adopt_access_spec s c o id n :
  no_nul o →
  spec (fun db => ∃ r, r ∈ d_tags db ∧ r_id r = id ∧ place r = (s, n) ∧ r_message r = c ∧ r_type r = tool)
    (access (adoptNullOwnerToolTag id o))
    (fun db b db' => b = true → granted s (ToolCall o c) n db db').
Proof.
  intros Ho. apply spec_access. intros db db1 (r & Hr & Hid & Hp & Hm & Ht) Hw [He Hle] b db2 Ea.
  destruct (Hle r Hr) as (r1 & Hr1 & Hid1 & Hp1 & Hm1 & Ht1 & _).
  destruct (adopt_steps id o db1 b db2 Hw Ho ltac:(exists r1; split_and!; [done|congruence|congruence]) Ea)
    as [Hw2 Hs2].
  split; [done|]. split; [done|]. intros ->.
  destruct (adopt_spec _ _ _ _ _ Hw Ho Ea) as [[? _]|(_ & _ & old & Hold & Eid & Eo & _ & Hun & En)]; [done|].
  assert (r1 = old) as <- by (apply (same_id db1); [done..|congruence]).
  assert (r_type r1 = tool) as Ht' by congruence. assert (r_message r1 = c) as Hm' by congruence.
  assert (place r1 = (s, n)) as Hp' by congruence. assert (r_session r1 = s) as Hs' by by injection Hp'.
  exists Adopted, (numbering_of db1), (numbering_of db2). split; [done|]. split; [|split; [apply rtc_refl|done]].
  rewrite En, Hp'. unfold ident_of, set_owner. cbn. rewrite Ht', Hm'. apply step_adopted.
  - apply numbering_lookup; [done|]. exists r1. split; [done|]. split; [done|].
    unfold ident_of. congruence.
  - rewrite <- Hs', <- Hm'. by apply Hun.
Qed.

Lemma settle_spec s o c P n t :
  no_nul o → (∀ db, P db → backed s (ToolCall o c) n db) →
  spec P (settle_tool harness s (makeToolCompositeKey o c) n t)
    (fun db x db' => x = n ∧ granted s (ToolCall o c) n db db').
Proof.
  intros Ho HP. unfold settle_tool. apply grant_rest; [by apply key_tool| |done].
  intros P'. eapply spec_bind; [apply sync_quiet|]. intros [] db1 _. cbn.
  eapply spec_bind; [apply backfillTool_quiet|]. intros [] db2 _. by apply spec_ret.
Qed.

Lemma adopt_loop_spec fuel s o c P t :
  no_nul o →
  spec P (adopt_loop harness fuel s c o (makeToolCompositeKey o c) t)
    (fun db a db' => ∀ n, a = Some n → granted s (ToolCall o c) n db db').
Proof.
  intros Ho. revert P. induction fuel as [|fuel IH]; intros P; cbn [adopt_loop]; [by apply spec_ret|].
  eapply spec_bind; [apply spec_query|]. intros [[id n]|] db0 _; [|by apply spec_ret].
  eapply spec_bind.
  { eapply spec_weaken; [apply (adopt_access_spec s c o id n Ho)| |].
    - intros db (_ & _ & E). symmetry in E.
      apply orphan_lookup in E as (r & ? & ? & ? & ? & ? & _). eauto 10.
    - intros db b db' _ _ Hg. exact Hg. }
  intros [] db1 [Hs1 _].
  - eapply spec_bind; [apply settle_spec; [done|]|].
    { intros db [_ Hg]. eapply granted_backed. by apply Hg. }
    intros x db2 [Hs2 _]. apply spec_ret. intros db (_ & -> & Hg) n' [= <-].
    eapply granted_before; [|done]. by etrans.
  - eapply spec_bind; [apply spec_query|]. intros [k|] db2 [Hs2 _].
    + eapply spec_bind; [apply settle_spec; [done|]|].
      { intros db (_ & Hw & E). by apply owner_lookup_backed. }
      intros x db3 [Hs3 _]. apply spec_ret. intros db (_ & -> & Hg) n' [= <-].
      eapply granted_before; [|done]. etrans; [exact Hs1|]. by etrans.
    + eapply spec_post; [apply IH|]. intros db a db' [Hs3 _] _ Hg n' E.
      eapply granted_before; [|by apply Hg]. etrans; [exact Hs1|]. by etrans.
Qed.

Lemma assignTag_spec s m ty bs rbs tn ibs fp t P :
  no_nul m →
  spec P (assignTag harness s m ty bs rbs tn ibs fp t) (fun db n db' => granted s (Bare m) n db db').
Proof.
  intros Hm. unfold assignTag. case_bool_decide; [apply spec_throw|].
  apply allocateTag_spec; [by apply key_bare|done|done|].
  intros db n. apply message_lookup_backed.
Qed.

Lemma assignToolTag_spec s c o bs rbs tn ibs t P :
  no_nul o → no_nul c →
  spec P (assignToolTag harness s c o bs rbs tn ibs t)
    (fun db n db' => granted s (ToolCall o c) n db db').
Proof.
  intros Ho Hc. unfold assignToolTag.
  eapply (spec_bind _ _ _ (fun db a db' => db' = db ∧ ∀ n, a = Some n → backed s (ToolCall o c) n db)).
  { apply spec_gets. intros m db _ Hco. split; [done|]. intros n Hn. rewrite <- (key_tool o c Ho). by apply Hco. }
  intros [n|] db0 _.
  { apply spec_ret. intros db (_ & -> & Hb). by apply granted_found, Hb. }
  eapply spec_bind; [apply spec_query|]. intros [n|] db1 (_ & -> & _).
  - eapply spec_weaken; [apply (settle_spec s o c (backed s (ToolCall o c) n) n); done| |].
    + intros db (_ & Hw & E). by apply owner_lookup_backed.
    + intros db a db' (Hs & _) _ [-> Hg]. by eapply granted_before.
  - eapply spec_bind; [by apply adopt_loop_spec|]. intros [n|] db2 [Hs2 _].
    + apply spec_ret. intros db [_ Hg]. eapply granted_before; [exact Hs2|]. by apply Hg.
    + eapply spec_post.
      * apply (allocateTag_spec s _ (ToolCall o c)); [by apply key_tool|done|done|].
        intros db n. apply owner_lookup_backed.
      * intros db n db' [Hs _] _ Hg. eapply granted_before; [|exact Hg]. by etrans.
Qed.

(** *** Loading and forgetting *)

Lemma load_key_in rows a key n :
  foldl load_key a rows !! key = Some n →
  a !! key = Some n ∨ ∃ r, r ∈ rows ∧ row_key r = Some key ∧ r_number r = n.
Proof.
  revert a. induction rows as [|r rows IH]; intros a H; cbn in *; [by left|].
  destruct (IH _ H) as [Ha|(r' & ? & ?)]; [|right; exists r'; set_solver].
  unfold load_key in Ha. destruct (row_key r) as [k|] eqn:Ek; [|by left].
  destruct (decide (k = key)) as [->|Hk].
  - rewrite lookup_insert_eq in Ha. simplify_eq. right. exists r. set_solver.
  - rewrite lookup_insert_ne in Ha by done. by left.
Qed.

Lemma row_key_matches r key : clean_row r → row_key r = Some key → matches (entity_of_key key) (ident_of r).
Proof.
  intros [Hm Ho] Hk. unfold row_key in Hk.
  destruct (r_type r) eqn:Et; [simplify_eq; by rewrite key_bare| |simplify_eq; by rewrite key_bare].
  destruct (r_owner r) as [o|] eqn:Eo; [|done]. cbn in Hk. simplify_eq. rewrite key_tool by done. done.
Qed.

Lemma assignment_rows_in s floor db r :
  r ∈ assignment_rows s floor db → r ∈ d_tags db ∧ r_session r = s ∧ isAssignmentRow r = true.
Proof.
  unfold assignment_rows. rewrite list_elem_of_In, List.filter_In, <- list_elem_of_In, js_sort_in, select_in.
  intros ([Hp Hr] & Ha). apply andb_true_iff in Hp as [Hs%in_session_true _]. done.
Qed.

(** The loaded assignments are backed by the table they were read from. *)
Lemma coherent_load m db0 db s floor :
  db_wf db0 → db_steps db0 db → coherent m (numbering_of db) →
  coherent (with_assignments s (foldl load_key ∅ (assignment_rows s floor db0)) m) (numbering_of db).
Proof.
  intros Hw Hs Hc s' key n. unfold with_assignments, getSessionAssignments. cbn.
  destruct (decide (s = s')) as [<-|Hne]; [|rewrite lookup_insert_ne by done; apply Hc].
  rewrite lookup_insert_eq. cbn. intros [H|(r & Hr & Hk & <-)]%load_key_in.
  - by rewrite lookup_empty in H.
  - apply assignment_rows_in in Hr as (Hr & Es & _). apply (backed_steps _ _ _ db0); [done|].
    apply row_backed; [done..|]. apply row_key_matches; [|done].
    pose proof (wf_clean _ Hw) as Hcl. rewrite Forall_forall in Hcl. auto.
Qed.

Lemma coherent_forget s counters m f : coherent m f → coherent (forget s counters m) f.
Proof.
  intros Hc s' key n. unfold forget, getSessionAssignments. cbn.
  destruct (decide (s = s')) as [<-|Hne].
  - by rewrite lookup_delete_eq.
  - rewrite lookup_delete_ne by done. apply Hc.
Qed.

Lemma initFromDb_quiet s dbid floor : quiet (initFromDb s dbid floor).
Proof.
  intros P. unfold initFromDb.
  eapply spec_bind; [eapply quiet_any, spec_query|]. intros version db0 _. cbn.
  eapply spec_bind; [by apply (spec_gets _ _ (fun _ _ _ => True))|]. intros cached db1 _. cbn.
  case_match; [by apply spec_ret|].
  eapply spec_bind; [eapply quiet_any, spec_query|]. intros meta db2 _. cbn.
  eapply spec_bind; [apply spec_query|]. intros rows db3 _. cbn.
  eapply spec_bind.
  { apply spec_modify. intros m db (_ & Hw & ->) Hc. by apply coherent_load. }
  intros [] db4 _. cbn.
  eapply spec_bind; [by apply spec_modify|]. intros [] db5 _. cbn.
  eapply spec_bind; [by apply spec_modify|]. intros [] db6 _. cbn.
  eapply quiet_any. by apply spec_modify.
Qed.

Lemma cleanup_quiet s : quiet (cleanup s).
Proof. intros P. eapply quiet_any. apply spec_modify. intros. by apply coherent_forget. Qed.

Lemma resetCounter_quiet s : quiet (resetCounter harness s).
Proof.
  intros P. unfold resetCounter. eapply spec_bind.
  - apply spec_modify. intros. by apply coherent_forget.
  - intros [] db0 _. cbn. apply spec_update. intros. by apply same_tags_steps.
Qed.

(** *** Sequences of calls *)

Lemma run_call_spec x :
  clean_call x →
  spec (fun _ => True) (run_call harness x)
    (fun db a db' => ∀ s e n, a = Some (s, e, n) → granted s e n db db').
Proof.
  destruct x as [s m ty bs rbs tn ibs fp t|s c o bs rbs tn ibs t|s d fl|s|s]; cbn; intros Hcl.
  - eapply spec_bind; [by apply assignTag_spec|]. intros n db0 _. apply spec_ret.
    intros db [_ Hg] ??? [= <- <- <-]. done.
  - destruct Hcl. eapply spec_bind; [by apply assignToolTag_spec|]. intros n db0 _. apply spec_ret.
    intros db [_ Hg] ??? [= <- <- <-]. done.
  - eapply spec_bind; [apply initFromDb_quiet|]. intros [] db0 _. by apply spec_ret.
  - eapply spec_bind; [apply resetCounter_quiet|]. intros [] db0 _. by apply spec_ret.
  - eapply spec_bind; [apply cleanup_quiet|]. intros [] db0 _. by apply spec_ret.
Qed.

Lemma trace_silent f f1 f2 l : evolves f f1 → num_trace l f1 f2 → num_trace l f f2.
Proof. induction 1; [done|]. intros. eapply trace_other; eauto. Qed.

Lemma run_calls_trace l w answers w' :
  sound w → Forall clean_call l → run_calls harness l w = (answers, w') →
  sound w' ∧ num_trace answers (numbering_of (w_db w)) (numbering_of (w_db w')).
Proof.
  intros Hs Hl. revert w answers w' Hs.
  induction Hl as [|x l Hx Hl IH]; intros w answers w' Hs E; cbn in E.
  - simplify_eq. split; [done|constructor].
  - destruct (run_call harness x w) as [r w1] eqn:Ex.
    destruct (run_calls harness l w1) as [rest w2] eqn:El. simplify_eq.
    destruct (run_call_spec x Hx w r w1 Hs I Ex) as (Hs1 & [He _] & Hr).
    destruct (IH w1 rest w' Hs1 El) as [Hs2 Ht]. split; [done|].
    destruct r as [[[[s e] n]|]|err]; cbn; try by eapply trace_silent.
    destruct (Hr _ eq_refl s e n eq_refl) as (h & f1 & f2 & E1 & Hstep & E2 & _).
    eapply trace_silent; [exact E1|]. eapply trace_mine; [exact Hstep|]. by eapply trace_silent.
Qed.

End calls.

Lemma trace_backed l f f' s e n :
  num_trace l f f' → (s, e, n) ∈ l → ∃ i, f' !! (s, n) = Some i ∧ matches e i.
Proof.
  assert (∀ l f f', num_trace l f f' → ∀ i, f !! (s, n) = Some i → matches e i →
            ∃ i', f' !! (s, n) = Some i' ∧ matches e i') as Hmono.
  { clear. induction 1; intros i Hi Hm; [eauto|..];
      (edestruct num_step_mono as (? & ? & ?); [eassumption..|]); eauto. }
  induction 1 as [f|f f1 f2 l Hs Ht IH|f f1 f2 h s' e' n' l Hs Ht IH]; intros Hin.
  - by apply not_elem_of_nil in Hin.
  - auto.
  - apply elem_of_cons in Hin as [E|Hin]; [|auto]. simplify_eq.
    assert (∃ i, f1 !! (s', n') = Some i ∧ matches e' i) as (i & Hi & Hm).
    { inversion Hs; subst; [eauto|..]; eexists; (split; [apply lookup_insert_eq|]); done. }
    eauto.
Qed.

(** ** Lemmas: calls that nothing interrupts *)

(** [m] succeeds from [w] without meeting a pause. *)
Definition runs {A} (m : M A) (w : world) (Q : A → world → Prop) : Prop :=
  ∃ a w', m w = (Ok a, w') ∧ Q a w'.

Definition calm (w : world) : Prop := w_pauses w = [].

Definition at_db (w : world) (db : database) : world :=
  {| w_mem := w_mem w; w_db := db; w_pauses := [] |}.

Section runs.
Context {A B : Type}.

Lemma runs_ret (a : A) w (Q : A → world → Prop) : Q a w → runs (mret a) w Q.
Proof. intros HQ. by exists a, w. Qed.

Lemma runs_bind (m : M A) (k : A → M B) w Q :
  runs m w (fun a w1 => runs (k a) w1 Q) → runs (m ≫= k) w Q.
Proof.
  intros (a & w1 & E & b & w2 & E2 & HQ). exists b, w2. split; [|done].
  unfold mbind, M_bind. by rewrite E.
Qed.

Lemma runs_mono (m : M A) w (Q1 Q2 : A → world → Prop) :
  runs m w Q1 → (∀ a w', Q1 a w' → Q2 a w') → runs m w Q2.
Proof. intros (a & w' & E & H) HQ. exists a, w'. auto. Qed.

Lemma runs_gets (g : memory → A) w (Q : A → world → Prop) : Q (g (w_mem w)) w → runs (gets g) w Q.
Proof. intros HQ. by exists (g (w_mem w)), w. Qed.

Lemma runs_access (f : database → result tagger_error (A * database)) w a db Q :
  calm w → f (w_db w) = Ok (a, db) → Q a (at_db w db) → runs (access f) w Q.
Proof.
  intros Hc Ef HQ. exists a, (at_db w db). split; [|done]. unfold access, calm in *.
  rewrite Hc. cbn. by rewrite Ef.
Qed.

Lemma runs_query (f : database → A) w Q : calm w → Q (f (w_db w)) w → runs (query f) w Q.
Proof.
  intros Hc HQ. eapply runs_access; [done|done|]. destruct w as [m d ps]. unfold calm in Hc. cbn in *.
  by subst.
Qed.

End runs.

Lemma runs_modify g w (Q : unit → world → Prop) :
  Q () {| w_mem := g (w_mem w); w_db := w_db w; w_pauses := w_pauses w |} → runs (modify g) w Q.
Proof. intros HQ. by eexists _, _. Qed.

Lemma runs_update f w (Q : unit → world → Prop) :
  calm w → Q () (at_db w (f (w_db w))) → runs (update f) w Q.
Proof. intros Hc HQ. by eapply runs_access. Qed.

Lemma runs_catch {A} (m : M A) h w (Q : A → world → Prop) :
  (∀ r w', m w = (r, w') → calm w' ∧ w_mem w' = w_mem w) → calm w →
  (∀ a w', calm w' → w_mem w' = w_mem w → Q a w') →
  (∀ e w', calm w' → w_mem w' = w_mem w → runs (h e) w' Q) →
  runs (catch m h) w Q.
Proof.
  intros Hm Hc HQ Hh. destruct (m w) as [[a|e] w'] eqn:E; destruct (Hm _ _ eq_refl) as [Hc' Hm'].
  - exists a, w'. unfold catch. rewrite E. auto.
  - destruct (Hh e w' Hc' Hm') as (a & w2 & E2 & H2). exists a, w2. unfold catch. rewrite E. auto.
Qed.

(** What a call leaves that only reads, or writes other columns. *)
Definition keeps (w w' : world) : Prop :=
  calm w' ∧ mem_assignments (w_mem w') = mem_assignments (w_mem w).

Lemma fill_keeps s n t w r w' :
  calm w → (counts ← call_thunk t; update (backfillTagTokenCounts s n counts)) w = (r, w') →
  calm w' ∧ w_mem w' = w_mem w.
Proof.
  intros Hc. destruct t as [counts|e]; [|by intros [= <- <-]].
  change (update (backfillTagTokenCounts s n counts) w = (r, w') → calm w' ∧ w_mem w' = w_mem w).
  destruct (runs_update (backfillTagTokenCounts s n counts) w
              (fun _ w' => calm w' ∧ w_mem w' = w_mem w) Hc) as ([] & w2 & -> & ?); [done|].
  by intros [= <- <-].
Qed.

Lemma query_calm {A} (f : database → A) w : calm w → query f w = (Ok (f (w_db w)), w).
Proof.
  intros Hc. destruct (runs_query f w (fun a w' => a = f (w_db w) ∧ w' = w) Hc) as (a & w' & E & -> & ->).
  { done. } done.
Qed.

Lemma backfillTool_runs s n t w :
  calm w → runs (backfillToolTokensIfNull s n t) w (fun _ w' => keeps w w').
Proof.
  intros Hc. unfold backfillToolTokensIfNull. destruct t as [t|]; [|by apply runs_ret].
  apply runs_catch; [|done|by intros a w' ? E; split; [|rewrite E]|].
  - intros r w'. unfold mbind at 1, M_bind at 1. rewrite query_calm by done.
    destruct (tagTokenCountIsNull _ _ _); [by apply fill_keeps|by intros [= <- <-]].
  - intros e w' ? E. apply runs_ret. split; [done|by rewrite E].
Qed.

Lemma backfill_existing_runs s n t w :
  calm w → runs (backfill_existing s n t) w (fun _ w' => keeps w w').
Proof.
  intros Hc. unfold backfill_existing. destruct t as [t|]; [|by apply runs_ret].
  apply runs_bind, runs_query; [done|]. destruct (tagTokenCountIsNull _ _ _); [|by apply runs_ret].
  apply runs_catch; [|done|by intros a w' ? E; split; [|rewrite E]|].
  - intros r w'. by apply fill_keeps.
  - intros e w' ? E. apply runs_ret. split; [done|by rewrite E].
Qed.

Section calls_run.
Context (harness : string).

Lemma sync_runs s n w :
  calm w → runs (syncCounterAtLeast harness s n) w (fun _ w' => keeps w w').
Proof.
  intros Hc. unfold syncCounterAtLeast. case_match; [by apply runs_ret|].
  apply runs_bind, runs_gets, runs_bind, runs_modify. by apply runs_update.
Qed.

(** The cache holds a number under a key. *)
Definition cached (s key : string) (n : Z) (w : world) : Prop :=
  calm w ∧ getSessionAssignments s (w_mem w) !! key = Some n.

Lemma cached_keeps s key n w w' : cached s key n w → keeps w w' → cached s key n w'.
Proof. intros [_ Hk] [Hc E]. split; [done|]. unfold getSessionAssignments. by rewrite E. Qed.

Lemma bind_runs s key n w (Q : unit → world → Prop) :
  calm w → (∀ w', cached s key n w' → Q () w') → runs (modify (bind_key s key n)) w Q.
Proof.
  intros Hc HQ. apply runs_modify, HQ. split; [done|]. unfold bind_key, with_assignments, getSessionAssignments.
  cbn. rewrite lookup_insert_eq. cbn. apply lookup_insert_eq.
Qed.

Lemma settle_runs s key n t w :
  calm w → runs (settle_tool harness s key n t) w (fun x w' => cached s key x w').
Proof.
  intros Hc. unfold settle_tool. apply runs_bind, bind_runs; [done|]. intros w1 H1.
  apply runs_bind. eapply runs_mono; [apply sync_runs, H1|]. intros [] w2 H2. cbn.
  pose proof (cached_keeps _ _ _ _ _ H1 H2) as H3.
  apply runs_bind. eapply runs_mono; [apply backfillTool_runs, H3|]. intros [] w3 H4. cbn.
  apply runs_ret. by eapply cached_keeps.
Qed.

(** *** The claim of a number goes through *)

Lemma insertTag_free new db :
  (∀ r, r ∈ d_tags db → r_session r = r_session new → r_number r < r_number new) →
  (∀ r x, r ∈ d_tags db → composite new = Some x → composite r ≠ Some x) →
  ∃ db', insertTag new db = Ok db'.
Proof.
  intros Hn Hc. unfold insertTag.
  assert (existsb (conflicts new) (d_tags db) = false) as ->; [|eauto].
  apply existsb_false. intros r Hr. apply conflicts_false. split; [|eauto].
  intros [= Es En]. specialize (Hn r Hr Es). lia.
Qed.

Lemma row_below_max s db r :
  db_wf db → r ∈ d_tags db → r_session r = s → r_number r ≤ getMaxTagNumberBySession s db.
Proof.
  intros Hw Hr Hs. apply max_bounds; [done|]. exists (ident_of r). apply numbering_lookup; [done|].
  exists r. unfold place. by rewrite Hs.
Qed.

Lemma allocate_runs s c key lookup t w :
  calm w → db_wf (w_db w) →
  (∀ n counts r x, lookup (w_db w) = None → r ∈ d_tags (w_db w) →
     composite (new_row harness s c n counts) = Some x → composite r ≠ Some x) →
  (∀ e, t ≠ Some (Err e)) →
  runs (allocateTag harness s c key lookup t) w (fun n w' => cached s key n w').
Proof.
  intros Hc Hw Hfree Ht. unfold allocateTag. apply runs_bind, runs_gets.
  destruct (getSessionAssignments s (w_mem w) !! key) as [n|] eqn:Ek; [by apply runs_ret|].
  apply runs_bind, runs_query; [done|]. destruct (lookup (w_db w)) as [n|] eqn:El.
  - apply runs_bind, bind_runs; [done|]. intros w1 H1.
    apply runs_bind. eapply runs_mono; [apply sync_runs, H1|]. intros [] w2 H2. cbn.
    pose proof (cached_keeps _ _ _ _ _ H1 H2) as H3.
    apply runs_bind. eapply runs_mono; [apply backfill_existing_runs, H3|]. intros [] w3 H4. cbn.
    apply runs_ret. by eapply cached_keeps.
  - apply runs_bind. eapply (runs_mono _ _ (fun _ w' => w' = w)).
    { destruct t as [[counts|e]|]; [|by destruct (Ht e)|by apply runs_ret].
      by apply runs_bind, runs_ret, runs_ret. }
    intros counts ? ->. unfold MAX_TAG_ALLOC_RETRIES. cbn [attempts]. apply runs_bind. unfold attempt.
    apply runs_bind, runs_gets, runs_bind, runs_query; [done|].
    set (next := Z.max _ _ + 1). set (new := new_row harness s c next counts).
    destruct (insertTag_free new (w_db w)) as [db' Ei].
    { intros r Hr Es. pose proof (row_below_max s (w_db w) r Hw Hr Es). cbn. lia. }
    { intros r x Hr. by apply (Hfree next counts). }
    apply runs_bind. eapply (runs_mono _ _ (fun b w' => b = true ∧ calm w')).
    { destruct (runs_access (claim harness s new) w () (upsertCounter s next harness db')
                  (fun _ w' => calm w') Hc) as ([] & w1 & E1 & Hc1); [|done|].
      - unfold claim. by rewrite Ei.
      - exists true, w1. split; [|done]. unfold catch. unfold mbind, M_bind. by rewrite E1. }
    intros ? w1 [-> Hc1]. apply runs_bind, runs_modify, runs_bind, bind_runs; [done|].
    intros w2 H2. apply runs_bind. eapply (runs_mono _ _ (fun _ w' => keeps w2 w')).
    { destruct (tc_type c); [by apply runs_ret; split; [apply H2|]|
        |by apply runs_ret; split; [apply H2|]].
      apply runs_modify. split; [apply H2|done]. }
    intros [] w3 H3. apply runs_ret, runs_ret. by eapply cached_keeps.
Qed.

(** No row is the tool call's when the lookup finds none. *)
Lemma owner_lookup_none s c o db r :
  getToolTagNumberByOwner s c o db = None → r ∈ d_tags db → owned_by s c o r = false.
Proof.
  unfold getToolTagNumberByOwner. destruct (select _ db) as [|r' l] eqn:E; [|done]. intros _ Hr.
  apply not_true_is_false. intros Ho.
  assert (r ∈ select (owned_by s c o) db) as Hin by by apply select_in.
  rewrite E in Hin. by apply not_elem_of_nil in Hin.
Qed.

(** So no row has its columns in the unique index. *)
Lemma owner_index_free s c o db r x r' :
  getToolTagNumberByOwner s c o db = None → r ∈ d_tags db →
  r_session r' = s → r_message r' = c → r_owner r' = Some o →
  composite r' = Some x → composite r ≠ Some x.
Proof.
  intros El Hr Es Em Eo [_ (o1 & E1 & ->)]%composite_some [Ht (o2 & E2 & [= F1 F2 F3])]%composite_some.
  pose proof (owner_lookup_none _ _ _ _ _ El Hr) as Hn.
  assert (owned_by s c o r = true); [|congruence].
  apply owned_by_true. cbn. split_and!; congruence.
Qed.

Lemma assignTag_runs s m ty bs rbs tn ibs fp t w :
  calm w → db_wf (w_db w) → ty ≠ tool → (∀ e, t ≠ Some (Err e)) →
  runs (assignTag harness s m ty bs rbs tn ibs fp t) w (fun n w' => cached s m n w').
Proof.
  intros Hc Hw Hty Ht. unfold assignTag. rewrite bool_decide_eq_false_2 by done.
  apply allocate_runs; [done..| |done].
  intros n counts r x _ _ [_ (o & [=] & _)]%composite_some.
Qed.

Lemma orphan_claim s c o id n db :
  db_wf db → getToolTagNumberByOwner s c o db = None → getNullOwnerToolTag s c db = Some (id, n) →
  ∃ db', adoptNullOwnerToolTag id o db = Ok (true, db').
Proof.
  intros Hw El (r & Hr & Hid & Hp & Hm & Ht & Ho)%orphan_lookup. unfold adoptNullOwnerToolTag.
  destruct (head (select (row_null_owner id) db)) as [old|] eqn:Eh.
  - apply filter_head in Eh as [Hold Hn]. unfold row_null_owner in Hn.
    apply andb_true_iff in Hn as [Ei%Z.eqb_eq _].
    assert (old = r) as -> by (apply (same_id db); [done..|congruence]).
    assert (existsb (fun r0 => negb (r_id r0 =? id) && conflicts (set_owner o r) r0) (d_tags db) = false)
      as ->; [|eauto].
    apply existsb_false. intros r0 Hr0. destruct (r_id r0 =? id) eqn:E0; [done|]. cbn [negb andb].
    apply conflicts_false. split.
    + intros E. change (place (set_owner o r)) with (place r) in E.
      assert (r0 = r) as -> by by apply (same_place db). apply Z.eqb_neq in E0. congruence.
    + intros x. eapply owner_index_free; [done|done|by injection Hp|done|done].
  - exfalso. assert (r ∈ select (row_null_owner id) db) as Hin.
    { apply select_in. split; [|done]. unfold row_null_owner. rewrite Hid, Z.eqb_refl, Ho. done. }
    destruct (select _ db); [by apply not_elem_of_nil in Hin|done].
Qed.

Lemma assignToolTag_runs s c o bs rbs tn ibs t w :
  calm w → db_wf (w_db w) → (∀ e, t ≠ Some (Err e)) →
  runs (assignToolTag harness s c o bs rbs tn ibs t) w
    (fun n w' => cached s (makeToolCompositeKey o c) n w').
Proof.
  intros Hc Hw Ht. unfold assignToolTag. apply runs_bind, runs_gets.
  destruct (_ !! _) as [n|] eqn:Ek; [by apply runs_ret|].
  apply runs_bind, runs_query; [done|].
  destruct (getToolTagNumberByOwner s c o (w_db w)) as [n|] eqn:El; [by apply settle_runs|].
  apply runs_bind. unfold MAX_TAG_ALLOC_RETRIES. cbn [adopt_loop].
  apply runs_bind, runs_query; [done|].
  destruct (getNullOwnerToolTag s c (w_db w)) as [[id n]|] eqn:Eo.
  - destruct (orphan_claim s c o id n (w_db w) Hw El Eo) as [db' Ea].
    eapply runs_bind, runs_access; [done|exact Ea|].
    apply runs_bind. eapply runs_mono; [by apply settle_runs|]. intros x w' H.
    by apply runs_ret, runs_ret.
  - apply runs_ret. apply allocate_runs; [done..| |done].
    intros n counts r x _ Hr Hx. by eapply owner_index_free; [|done|..|exact Hx].
Qed.

End calls_run.

(** The key an entity is cached under. *)
Definition key_of (e : entity) : string :=
  match e with Bare m => m | ToolCall o c => makeToolCompositeKey o c end.

(** What a call asks a number for, when it may be answered. *)
Definition asks (x : call) : option (string * entity) :=
  match x with
  | c_assignTag s m ty _ _ _ _ _ t =>
      match ty, t with
      | tool, _ | _, Some (Err _) => None
      | _, _ => Some (s, Bare m)
      end
  | c_assignToolTag s c o _ _ _ _ t =>
      match t with Some (Err _) => None | _ => Some (s, ToolCall o c) end
  | _ => None
  end.

(** ** Properties *)



(** C29: undisturbed, every request for a number is answered: from a sound world
    whose other connections are quiet, a call whose thunk does not throw (and
    that is not a tool tag by the wrong door) returns a number the table backs,
    caches it under its key, and leaves a sound world. *)
Theorem requests_answered harness x w s e :
  sound w → w_pauses w = [] → clean_call x → asks x = Some (s, e) →
  ∃ n w', run_call harness x w = (Ok (Some (s, e, n)), w') ∧ sound w' ∧ backed s e n (w_db w') ∧
    getSessionAssignments s (w_mem w') !! key_of e = Some n.
Proof.
  intros Hs Hp Hcl Ha. pose proof Hs as [Hw _].
  assert (runs (run_call harness x) w (fun a w' =>
            ∃ n, a = Some (s, e, n) ∧ cached s (key_of e) n w')) as (a & w' & E & n & -> & _ & Hk).
  { destruct x as [s' m ty bs rbs tn ibs fp t|s' c o bs rbs tn ibs t|s' d fl|s'|s']; cbn in *; try done.
    - assert (ty ≠ tool ∧ ∀ err, t ≠ Some (Err err)) as [Hty Ht]
        by (destruct ty, t as [[]|]; naive_solver).
      assert (s' = s ∧ e = Bare m) as [-> ->] by (destruct ty, t as [[]|]; naive_solver).
      apply runs_bind. eapply runs_mono; [by apply assignTag_runs|]. intros n w1 H1.
      apply runs_ret. eauto.
    - assert (∀ err, t ≠ Some (Err err)) as Ht by (destruct t as [[]|]; naive_solver).
      assert (s' = s ∧ e = ToolCall o c) as [-> ->] by (destruct t as [[]|]; naive_solver).
      apply runs_bind. eapply runs_mono; [by apply assignToolTag_runs|]. intros n w1 H1.
      apply runs_ret. eauto. }
  exists n, w'. split; [done|].
  destruct (run_call_spec harness x Hcl w _ w' Hs I E) as (Hs' & _ & Hr).
  split; [done|]. split; [|done]. by apply (granted_backed s e n (w_db w)), (Hr _ eq_refl s e n eq_refl).
Qed.

(** ** Examples *)

Definition sample_row (number : Z) (message : string) (type : TagType) (owner : option string) : row :=
  {| r_id := number; r_session := "s"; r_message := message; r_type := type; r_number := number;
     r_owner := owner; r_byte_size := Some 10; r_input_byte_size := Some 0;
     r_reasoning_byte_size := 0; r_tool_name := None; r_fingerprint := None; r_harness := "pi";
     r_counts := no_counts |}.

(** An orphaned tool call; another connection takes the next number while a
    message is being tagged, and adopting the orphan fails once. *)
Definition sample_world (pauses : list pause) : world :=
  {| w_mem := createTagger;
     w_db := {| d_tags := [sample_row 1 "call-1" tool None]; d_next_id := 2; d_meta := ∅;
                d_version := 7 |};
     w_pauses := pauses |}.

Definition sample_pauses : list pause :=
  [no_pause; no_pause;
   {| p_commits := [f_insert (sample_row 2 "m0" message None)]; p_fault := None |};
   no_pause; no_pause; no_pause; no_pause; no_pause; no_pause;
   {| p_commits := []; p_fault := Some "SQLITE_BUSY" |}].

Definition sample_calls : list call :=
  [c_assignTag "s" "m1" message 5 0 None 0 None None;
   c_assignToolTag "s" "call-1" "msg-1" 5 0 None 0 None;
   c_cleanup "s";
   c_assignToolTag "s" "call-1" "msg-2" 5 0 None 0 None;
   c_assignToolTag "s" "call-1" "msg-1" 5 0 None 0 None;
   c_initFromDb "s" 0 0;
   c_assignTag "s" "m1" message 5 0 None 0 None None;
   c_assignToolTag "s" "call-1" "msg-1" 5 0 None 0 None].

Definition sample_answers : list answer :=
  [("s", Bare "m1", 3); ("s", ToolCall "msg-2" "call-1", 1); ("s", ToolCall "msg-1" "call-1", 4);
   ("s", Bare "m1", 3); ("s", ToolCall "msg-1" "call-1", 4)].

Lemma no_nul_dec s : bool_decide (no_nul s) = true → no_nul s.
Proof. apply bool_decide_eq_true. Qed.

Lemma sample_sound pauses : Forall clean_pause pauses → sound (sample_world pauses).
Proof.
  intros Hp. split; [|split; [|done]].
  - constructor; cbn; [apply NoDup_singleton|apply NoDup_nil_2|apply NoDup_singleton| |];
      apply Forall_singleton; cbn; [lia|].
    split; [apply no_nul_dec; vm_compute; reflexivity|done].
  - intros s key n. unfold getSessionAssignments. cbn. rewrite lookup_empty. cbn. by rewrite lookup_empty.
Qed.

Lemma sample_pauses_clean : Forall clean_pause sample_pauses.
Proof.
  unfold sample_pauses, clean_pause. repeat (apply List.Forall_cons || apply List.Forall_nil); cbn;
    repeat (apply List.Forall_cons || apply List.Forall_nil); (split; [|done]);
    apply no_nul_dec; vm_compute; reflexivity.
Qed.

Lemma sample_calls_clean : Forall clean_call sample_calls.
Proof.
  repeat (apply List.Forall_cons || apply List.Forall_nil); cbn; try done; try split;
    apply no_nul_dec; vm_compute; reflexivity.
Qed.



Lemma requests_answered_witness :
  ∃ n w', run_call "opencode" (c_assignToolTag "s" "call-1" "msg-1" 5 0 None 0 None) (sample_world [])
          = (Ok (Some ("s", ToolCall "msg-1" "call-1", n)), w') ∧ sound w' ∧
          backed "s" (ToolCall "msg-1" "call-1") n (w_db w') ∧
          getSessionAssignments "s" (w_mem w') !! key_of (ToolCall "msg-1" "call-1") = Some n.
Proof.
  apply (requests_answered "opencode" (c_assignToolTag "s" "call-1" "msg-1" 5 0 None 0 None)
           (sample_world []) "s" (ToolCall "msg-1" "call-1") (sample_sound [] (List.Forall_nil _))
           eq_refl ltac:(split; apply no_nul_dec; vm_compute; reflexivity) eq_refl).
Defined.
