(* ===== verification/Reclaim.v ===== *)
(** * Reclaiming tool output

    Models the planners that decide which tagged tool calls leave the context:
    packages/plugin/src/hooks/magic-context/emergency-drop.ts, tool-reclaim.ts,
    supersession-reclaim.ts and edit-marker.ts, with
    features/magic-context/reclaim-protection.ts and the age query of
    storage-tags.ts.  Sizes in bytes are integers; token totals that meet usage
    figures are doubles. *)

From stdpp Require Import sorting.
From S2P Require Import Prelude JsNumber JsMap JsValue JsString Tagger.

(** ** Tags *)

Inductive TagStatus := active | dropped | compacted.

#[export] Instance TagStatus_eq_dec : EqDecision TagStatus.
Proof. solve_decision. Defined.

(** The columns of a tag the planners read. *)
Record TagEntry := {
  t_tagNumber : Z;
  t_type : TagType;
  t_status : TagStatus;
  t_toolName : option string;
  t_byteSize : Z;
  t_inputByteSize : Z;
  t_reasoningByteSize : Z;
  t_tokenCount : option Z;
  t_inputTokenCount : option Z
}.

Definition is_active_tool (t : TagEntry) : bool :=
  bool_decide (t_status t = active) && bool_decide (t_type t = tool).

Definition named (name : string) (t : TagEntry) : bool :=
  match t_toolName t with Some n => String.eqb n name | None => false end.

Definition newest_first (a b : TagEntry) : Z := t_tagNumber b - t_tagNumber a.
Definition oldest_first (a b : TagEntry) : Z := t_tagNumber a - t_tagNumber b.

Definition CTX_REDUCE_KEEP : Z := 3.

Definition newestCtxReduceTagNumbers (tags : list TagEntry) : list Z :=
  t_tagNumber <$> slice_to CTX_REDUCE_KEEP
    (js_sort newest_first (filter (fun t => named "ctx_reduce" t = true) tags)).

Definition set_of (l : list Z) (n : Z) : bool := existsb (Z.eqb n) l.

(** ** The emergency planner *)

Definition TARGET_FRACTION : num := nlit 3 10.
Definition TIER_RECENCY_RESERVE : num := nlit 2 10.
Definition EMERGENCY_REARM_MIN_TOKENS : num := nofZ 2000.

Inductive Tier := T1 | T2 | T3.

#[export] Instance Tier_eq_dec : EqDecision Tier.
Proof. solve_decision. Defined.

Definition T1_TOOLS : list string := ["read"; "todowrite"; "task"; "aft_outline"; "aft_zoom"].
Definition T2_TOOLS : list string := ["edit"; "write"; "apply_patch"; "grep"; "glob"; "aft_search"].

Definition normalizeToolName (toolName : option string) : string :=
  match toolName with
  | None | Some EmptyString => ""
  | Some toolName =>
      let name := toLowerCase toolName in
      if startsWith name "mcp_" then of_code_units (drop 4 (code_units name)) else name
  end.

Definition resolveToolTier (toolName : option string) : Tier :=
  let name := normalizeToolName toolName in
  if existsb (String.eqb name) T1_TOOLS then T1
  else if existsb (String.eqb name) T2_TOOLS then T2
  else T3.

Definition tier (t : TagEntry) : Tier := resolveToolTier (t_toolName t).

Definition tagReclaimBytes (t : TagEntry) : Z :=
  t_byteSize t + t_inputByteSize t + t_reasoningByteSize t.

(** [Math.round(bytes * 0.25)]: quarters are exact, halves go up. *)
Definition estimateEmergencyDropReclaimTokens (t : TagEntry) : Z := (tagReclaimBytes t + 2) / 4.

Inductive drop_reason :=
| unknown_ceiling | unknown_usage | same_input_sample | reclaim_below_minimum | no_candidates
| tiered_drop (count reclaimed : Z).

Record EmergencyDropPlan := {
  pl_shouldDrop : bool; pl_tagNumbers : list Z; pl_reclaimTokens : num; pl_reason : drop_reason
}.

Record drop_input := {
  di_tags : list TagEntry;
  di_floorTags : list TagEntry;
  di_maxTag : Z;
  di_protectedTags : Z;
  di_currentTotalInputTokens : num;
  di_ceilingTokens : num;
  di_priorInputSample : num;
  di_hasPriorDrop : bool
}.

Definition noop (reason : drop_reason) : EmergencyDropPlan :=
  {| pl_shouldDrop := false; pl_tagNumbers := []; pl_reclaimTokens := nofZ 0; pl_reason := reason |}.

Definition fixed_floor (i : drop_input) : num :=
  let tailTokens := sumZ estimateEmergencyDropReclaimTokens
    (filter (fun t => t_status t = active) (di_floorTags i)) in
  nmax (nsub (di_currentTotalInputTokens i) (nofZ tailTokens)) (nofZ 0).

Definition reclaim_tokens (i : drop_input) : num :=
  let fixedFloor := fixed_floor i in
  let workingSpan := nmax (nsub (di_ceilingTokens i) fixedFloor) (nofZ 0) in
  let target := nadd fixedFloor (nmul TARGET_FRACTION workingSpan) in
  nround (nsub (di_currentTotalInputTokens i) target).

(** The newest fifth, rounded up, of the active tool tags of a tier. *)
Definition tier_reserve (tags : list TagEntry) (k : Tier) : list Z :=
  let nums := t_tagNumber <$> js_sort newest_first
    (filter (fun t => is_active_tool t = true ∧ tier t = k) tags) in
  match nums with
  | [] => []
  | _ => slice_to (floorZ (nceil (nmul TIER_RECENCY_RESERVE (nofZ (lengthZ nums))))) nums
  end.

Definition reserved_tags (tags : list TagEntry) : list Z := tier_reserve tags T1 ++ tier_reserve tags T2.

Definition protected_reduce (i : drop_input) : list Z :=
  newestCtxReduceTagNumbers (filter (fun t => is_active_tool t = true) (di_floorTags i)).

Definition evictable (i : drop_input) (t : TagEntry) : bool :=
  is_active_tool t &&
  negb (di_maxTag i - di_protectedTags i <? t_tagNumber t) &&
  negb (set_of (protected_reduce i) (t_tagNumber t)) &&
  negb (negb (bool_decide (tier t = T3)) && set_of (reserved_tags (di_tags i)) (t_tagNumber t)).

Definition tier_group (i : drop_input) (k : Tier) : list TagEntry :=
  js_sort oldest_first (filter (fun t => evictable i t = true ∧ tier t = k) (di_tags i)).

(** The inner loop; the flag is the [break outer]. *)
Fixpoint drop_group (target : num) (group : list TagEntry) (selected : list Z) (reclaimed : Z)
    : list Z * Z * bool :=
  match group with
  | [] => (selected, reclaimed, false)
  | t :: group =>
      let selected := selected ++ [t_tagNumber t] in
      let reclaimed := reclaimed + estimateEmergencyDropReclaimTokens t in
      if nleb target (nofZ reclaimed) then (selected, reclaimed, true)
      else drop_group target group selected reclaimed
  end.

Fixpoint drop_groups (target : num) (groups : list (list TagEntry)) (selected : list Z)
    (reclaimed : Z) : list Z * Z :=
  match groups with
  | [] => (selected, reclaimed)
  | group :: groups =>
      let '(selected, reclaimed, stop) := drop_group target group selected reclaimed in
      if stop then (selected, reclaimed) else drop_groups target groups selected reclaimed
  end.

Definition planEmergencyDrop (i : drop_input) : EmergencyDropPlan :=
  if negb (isFinite (di_ceilingTokens i)) || nleb (di_ceilingTokens i) (nofZ 0) then
    noop unknown_ceiling
  else if negb (isFinite (di_currentTotalInputTokens i)) ||
          nleb (di_currentTotalInputTokens i) (nofZ 0) then noop unknown_usage
  else if di_hasPriorDrop i && neqb (di_currentTotalInputTokens i) (di_priorInputSample i) then
    noop same_input_sample
  else
    let reclaimTokens := reclaim_tokens i in
    if nleb reclaimTokens EMERGENCY_REARM_MIN_TOKENS then noop reclaim_below_minimum
    else
      let '(selected, reclaimed) :=
        drop_groups reclaimTokens (tier_group i <$> [T3; T2; T1]) [] 0 in
      match selected with
      | [] => noop no_candidates
      | _ =>
          {| pl_shouldDrop := true; pl_tagNumbers := selected; pl_reclaimTokens := reclaimTokens;
             pl_reason := tiered_drop (lengthZ selected) reclaimed |}
      end.

(** ** Operations the planners queue *)

Record PendingOp := {
  po_id : Z; po_sessionId : string; po_tagId : Z; po_queuedAt : Z
}.

(** A drop the planner makes up. *)
Definition synthetic (sessionId : string) (tagId : Z) : PendingOp :=
  {| po_id := 0; po_sessionId := sessionId; po_tagId := tagId; po_queuedAt := 0 |}.

(** What a target answers: [canDrop?.()] and [readInput?.()]. *)
Record TagTarget := { tt_canDrop : option bool; tt_readInput : option (list (string * value)) }.

Abbreviation targets := (gmap Z TagTarget).

Definition droppable (ts : targets) (tagId : Z) : bool :=
  match ts !! tagId with Some t => match tt_canDrop t with Some b => b | None => false end | None => false end.

Definition input_of (ts : targets) (tagId : Z) : option (list (string * value)) :=
  t ← ts !! tagId; tt_readInput t.

(** May be queued: no real operation is pending on it, and its target agrees. *)
Definition queueable (pending : list Z) (ts : targets) (tagId : Z) : bool :=
  negb (set_of pending tagId) && droppable ts tagId.

(** *** By age *)

Definition AGE_RECLAIM_MIN_TOKENS : Z := 250.

Definition reclaimableTokens (t : TagEntry) : option Z :=
  match t_tokenCount t, t_inputTokenCount t with
  | None, None => None
  | output, input => Some (default 0 output + default 0 input)
  end.

(** The query over a session's tags: the active tool tags, oldest first, but the
    newest [ctx_reduce] ones. *)
Definition getActiveToolTagsForAgeReclaim (session : list TagEntry) : list TagEntry :=
  let tags := js_sort oldest_first (filter (fun t => is_active_tool t = true) session) in
  filter (fun t => set_of (newestCtxReduceTagNumbers tags) (t_tagNumber t) = false) tags.

Definition newest_todowrite (tags : list TagEntry) : option Z :=
  foldl (fun newest t =>
    if named "todowrite" t &&
       match newest with None => true | Some n => n <? t_tagNumber t end
    then Some (t_tagNumber t) else newest) None tags.

Definition age_target (watermark : Z) (todo : option Z) (t : TagEntry) : bool :=
  negb (watermark <? t_tagNumber t) &&
  negb (match reclaimableTokens t with Some n => n <? AGE_RECLAIM_MIN_TOKENS | None => false end) &&
  negb (bool_decide (todo = Some (t_tagNumber t))).

Definition buildSyntheticToolReclaimOps (session : list TagEntry) (sessionId : string) (ts : targets)
    (watermark : Z) (pending : list Z) : list PendingOp :=
  let watermark := Z.max 0 watermark in
  if watermark <=? 0 then []
  else
    let tags := getActiveToolTagsForAgeReclaim session in
    let todo := newest_todowrite tags in
    (fun t => synthetic sessionId (t_tagNumber t)) <$>
      filter (fun t => age_target watermark todo t && queueable pending ts (t_tagNumber t) = true) tags.

(** *** By supersession *)

Definition TODOWRITE_KEEP : Z := 1.
Definition ZERO_VALUE_META_TOOLS : list string := ["bash_status"; "bash_kill"].
Definition CTX_NOTE_ZERO_VALUE_ACTIONS : list string := ["read"; "dismiss"].

Definition zero_value_note (ts : targets) (tagId : Z) : bool :=
  match input_of ts tagId with
  | Some input =>
      match field input "action" with
      | VStr action => existsb (String.eqb action) CTX_NOTE_ZERO_VALUE_ACTIONS
      | _ => false
      end
  | None => false
  end.

(** Newest first: what earlier (newer) tags were seen decides. *)
Fixpoint supersession_targets (ts : targets) (todowriteSeen ctxReduceSeen : Z) (tags : list TagEntry)
    : list Z :=
  match tags with
  | [] => []
  | t :: tags =>
      let push (isTarget : bool) rest := if isTarget then t_tagNumber t :: rest else rest in
      match t_toolName t with
      | None | Some EmptyString => supersession_targets ts todowriteSeen ctxReduceSeen tags
      | Some name =>
          if String.eqb name "todowrite" then
            push (TODOWRITE_KEEP <? todowriteSeen + 1)
              (supersession_targets ts (todowriteSeen + 1) ctxReduceSeen tags)
          else if String.eqb name "ctx_reduce" then
            push (CTX_REDUCE_KEEP <? ctxReduceSeen + 1)
              (supersession_targets ts todowriteSeen (ctxReduceSeen + 1) tags)
          else
            push (existsb (String.eqb name) ZERO_VALUE_META_TOOLS ||
                  (String.eqb name "ctx_note" && zero_value_note ts (t_tagNumber t)))
              (supersession_targets ts todowriteSeen ctxReduceSeen tags)
      end
  end.

Definition buildSupersessionReclaimOps (session : list TagEntry) (sessionId : string) (ts : targets)
    (pending : list Z) : list PendingOp :=
  let toolTags := js_sort newest_first (filter (fun t => is_active_tool t = true) session) in
  synthetic sessionId <$>
    filter (fun tagId => queueable pending ts tagId = true) (supersession_targets ts 0 0 toolTags).

Definition isEditTool (name : option string) : bool :=
  match name with Some n => String.eqb n "edit" || String.eqb n "write" | None => false end.

Definition FILE_PATH_KEYS : list string := ["filePath"; "file_path"; "path"].

Definition path_under (input : list (string * value)) (key : string) : option string :=
  match field input key with
  | VStr EmptyString => None
  | VStr path => Some path
  | _ => None
  end.

Definition readFilePath (ts : targets) (tagId : Z) : option string :=
  input ← input_of ts tagId;
  foldr (fun key rest => match path_under input key with Some p => Some p | None => rest end)
    None FILE_PATH_KEYS.

Fixpoint edit_targets (ts : targets) (pending : list Z) (seenFile : list string)
    (tags : list TagEntry) : list Z :=
  match tags with
  | [] => []
  | t :: tags =>
      match readFilePath ts (t_tagNumber t) with
      | None => edit_targets ts pending seenFile tags
      | Some path =>
          if existsb (String.eqb path) seenFile then
            (if queueable pending ts (t_tagNumber t) then [t_tagNumber t] else []) ++
            edit_targets ts pending seenFile tags
          else edit_targets ts pending (path :: seenFile) tags
      end
  end.

Definition is_edit_tag (t : TagEntry) : bool := is_active_tool t && isEditTool (t_toolName t).

(** The operations, and the tags that become edit markers. *)
Definition buildEditSupersessionReclaim (session : list TagEntry) (sessionId : string) (ts : targets)
    (pending : list Z) : list PendingOp * list Z :=
  let ids := edit_targets ts pending []
    (js_sort newest_first (filter (fun t => is_edit_tag t = true) session)) in
  (synthetic sessionId <$> ids, ids).

(** *** Edit markers *)

Definition TRUNCATION_SENTINEL : string := "...[truncated]".
Definition EDIT_REGION_HINT_LEN : nat := 40.
Definition PATH_KEYS : list string := ["filePath"; "file_path"; "path"].
Definition DIFF_KEYS : list string := ["oldString"; "newString"; "content"; "old_string"; "new_string"].

Definition safeSlice (units : list Z) (maxLen : nat) : list Z :=
  if Nat.leb (length units) maxLen then units
  else match units !! (maxLen - 1)%nat with
       | Some u => if (55296 <=? u) && (u <=? 56319) then take (maxLen - 1) units else take maxLen units
       | None => take maxLen units
       end.

(** [s.endsWith(suffix)]. *)
Definition ends_with (l suffix : list Z) : bool :=
  bool_decide (drop (length l - length suffix) l = suffix).

Definition mark_value (key : string) (v : value) : value :=
  if existsb (String.eqb key) PATH_KEYS then v
  else match v with
       | VStr s =>
           let units := code_units s in
           if negb (existsb (String.eqb key) DIFF_KEYS) then v
           else if ends_with units (code_units TRUNCATION_SENTINEL) then v
           else if Nat.ltb EDIT_REGION_HINT_LEN (length units) then
             VStr (of_code_units (safeSlice units EDIT_REGION_HINT_LEN ++ code_units TRUNCATION_SENTINEL))
           else v
       | _ => v
       end.

Definition applyEditMarkerToInput (input : list (string * value)) : list (string * value) :=
  (fun e => (e.1, mark_value e.1 e.2)) <$> input.

(** ** Specification *)

Definition tier_rank (k : Tier) : Z := match k with T1 => 1 | T2 => 2 | T3 => 3 end.

(** The order of eviction: the third tier first, the oldest of a tier first. *)
Definition evicted_before (a b : TagEntry) : Prop :=
  tier_rank (tier b) < tier_rank (tier a) ∨ (tier a = tier b ∧ t_tagNumber a ≤ t_tagNumber b).

Definition reclaim_of (l : list TagEntry) : Z := sumZ estimateEmergencyDropReclaimTokens l.

(** ** Lemmas: sorting tags *)

Lemma newest_first_total a b : newest_first a b ≤ 0 ∨ newest_first b a ≤ 0.
Proof. unfold newest_first. lia. Qed.
Lemma newest_first_trans a b c : newest_first a b ≤ 0 → newest_first b c ≤ 0 → newest_first a c ≤ 0.
Proof. unfold newest_first. lia. Qed.
Lemma oldest_first_total a b : oldest_first a b ≤ 0 ∨ oldest_first b a ≤ 0.
Proof. unfold oldest_first. lia. Qed.
Lemma oldest_first_trans a b c : oldest_first a b ≤ 0 → oldest_first b c ≤ 0 → oldest_first a c ≤ 0.
Proof. unfold oldest_first. lia. Qed.

Lemma newest_sorted l : StronglySorted (fun a b => newest_first a b ≤ 0) (js_sort newest_first l).
Proof. apply (js_sort_sorted _ newest_first_total newest_first_trans). Qed.

Lemma oldest_sorted l : StronglySorted (fun a b => oldest_first a b ≤ 0) (js_sort oldest_first l).
Proof. apply (js_sort_sorted _ oldest_first_total oldest_first_trans). Qed.

Lemma set_of_true l n : set_of l n = true ↔ n ∈ l.
Proof.
  unfold set_of. rewrite existsb_exists. setoid_rewrite <- list_elem_of_In. setoid_rewrite Z.eqb_eq.
  split; [by intros (? & ? & ->)|eauto].
Qed.

Lemma StronglySorted_app_2 {A} (R : A → A → Prop) l1 l2 :
  StronglySorted R l1 → StronglySorted R l2 → (∀ a b, a ∈ l1 → b ∈ l2 → R a b) →
  StronglySorted R (l1 ++ l2).
Proof.
  intros H1 H2 H. induction H1 as [|x l1 Hs IH Hx]; [done|]. cbn. constructor.
  - apply IH. intros a b Ha Hb. apply H; [by right|done].
  - apply Forall_app. split; [done|]. apply Forall_forall. intros y Hy. apply H; [left|done].
Qed.

Lemma StronglySorted_weaken {A} (R1 R2 : A → A → Prop) l :
  StronglySorted R1 l → (∀ a b, a ∈ l → b ∈ l → R1 a b → R2 a b) → StronglySorted R2 l.
Proof.
  induction 1 as [|x l Hs IH Hx]; intros H; constructor.
  - apply IH. intros a b Ha Hb. apply H; by right.
  - rewrite Forall_forall in Hx |- *. intros y Hy. apply H; [left|by right|auto].
Qed.

(** ** Lemmas: the emergency planner *)

Lemma reclaim_cons t l : reclaim_of (t :: l) = estimateEmergencyDropReclaimTokens t + reclaim_of l.
Proof. done. Qed.

(** The two loops are one loop over the concatenation. *)
Lemma drop_group_flag target group selected reclaimed :
  let '(s, r, stop) := drop_group target group selected reclaimed in
  stop = false → s = selected ++ (t_tagNumber <$> group) ∧ r = reclaimed + reclaim_of group.
Proof.
  revert selected reclaimed. induction group as [|t group IH]; intros selected reclaimed; cbn [drop_group].
  - intros _. rewrite app_nil_r. split; [done|]. unfold reclaim_of. cbn. lia.
  - destruct (nleb _ _); [done|].
    specialize (IH (selected ++ [t_tagNumber t]) (reclaimed + estimateEmergencyDropReclaimTokens t)).
    destruct (drop_group _ _ _ _) as [[s r] stop]. intros Hs. destruct (IH Hs) as [-> ->].
    rewrite <- app_assoc, reclaim_cons. cbn [fmap list_fmap app]. split; [done|]. lia.
Qed.

Lemma drop_group_app target g1 g2 selected reclaimed :
  drop_group target (g1 ++ g2) selected reclaimed =
  let '(s, r, stop) := drop_group target g1 selected reclaimed in
  if stop then (s, r, true) else drop_group target g2 s r.
Proof.
  revert selected reclaimed. induction g1 as [|t g1 IH]; intros selected reclaimed; [done|].
  cbn [drop_group app]. destruct (nleb _ _); [done|]. apply IH.
Qed.

Lemma drop_groups_concat target groups selected reclaimed :
  drop_groups target groups selected reclaimed =
  (drop_group target (concat groups) selected reclaimed).1.
Proof.
  revert selected reclaimed. induction groups as [|g groups IH]; intros selected reclaimed; [done|].
  cbn [concat drop_groups]. rewrite drop_group_app.
  destruct (drop_group target g selected reclaimed) as [[s r] []]; [done|]. apply IH.
Qed.

(** It stops at the first prefix that reaches the target. *)
Lemma drop_group_prefix target l selected reclaimed :
  ∃ k, (k ≤ length l)%nat ∧
    (drop_group target l selected reclaimed).1 =
      (selected ++ (t_tagNumber <$> take k l), reclaimed + reclaim_of (take k l)) ∧
    (∀ j, (0 < j < k)%nat → nleb target (nofZ (reclaimed + reclaim_of (take j l))) = false) ∧
    ((k < length l)%nat → (0 < k)%nat ∧ nleb target (nofZ (reclaimed + reclaim_of (take k l))) = true).
Proof.
  revert selected reclaimed. induction l as [|t l IH]; intros selected reclaimed; cbn [drop_group].
  - exists 0%nat. split; [done|]. cbn. rewrite app_nil_r, Z.add_0_r. split; [done|]. split; lia.
  - assert (∀ j, reclaim_of (take (S j) (t :: l)) =
                 estimateEmergencyDropReclaimTokens t + reclaim_of (take j l)) as Hr by done.
    destruct (nleb target _) eqn:E.
    + exists 1%nat. split; [cbn; lia|]. cbn [fst]. rewrite Hr. cbn [take reclaim_of].
      change (reclaim_of []) with 0. rewrite Z.add_0_r. split; [done|]. split; [lia|]. split; [lia|done].
    + destruct (IH (selected ++ [t_tagNumber t]) (reclaimed + estimateEmergencyDropReclaimTokens t))
        as (k & Hk & -> & Hlt & Hstop).
      exists (S k). split; [cbn; lia|]. rewrite Hr, Z.add_assoc. cbn [take fmap list_fmap].
      split; [by rewrite <- app_assoc|]. split.
      * intros j Hj. destruct j as [|j]; [lia|]. rewrite Hr, Z.add_assoc. destruct j as [|j].
        -- cbn [take]. change (reclaim_of []) with 0. by rewrite Z.add_0_r.
        -- apply Hlt. lia.
      * cbn [length]. intros Hl. destruct (Hstop ltac:(lia)) as [_ Ht]. split; [lia|done].
Qed.

Lemma tier_group_in i k t :
  t ∈ tier_group i k ↔ t ∈ di_tags i ∧ evictable i t = true ∧ tier t = k.
Proof. unfold tier_group. rewrite js_sort_in, list_elem_of_filter. tauto. Qed.

Definition eviction_order (i : drop_input) : list TagEntry :=
  concat (tier_group i <$> [T3; T2; T1]).

Lemma eviction_order_perm i :
  eviction_order i ≡ₚ filter (fun t => evictable i t = true) (di_tags i).
Proof.
  unfold eviction_order, tier_group. cbn. rewrite app_nil_r, !js_sort_perm.
  induction (di_tags i) as [|t l IH]; [done|]. rewrite !filter_cons.
  destruct (decide (evictable i t = true)) as [He|He].
  - rewrite <- IH. destruct (tier t); repeat case_decide; try (exfalso; naive_solver).
    + rewrite !app_assoc. symmetry. apply Permutation_middle.
    + symmetry. apply Permutation_middle.
    + done.
  - rewrite !decide_False by (intros [? _]; done). done.
Qed.

Lemma eviction_order_sorted i : StronglySorted evicted_before (eviction_order i).
Proof.
  assert (∀ k, StronglySorted evicted_before (tier_group i k)) as Hk.
  { intros k. eapply StronglySorted_weaken; [apply oldest_sorted|].
    intros a b (_ & _ & Ha)%tier_group_in (_ & _ & Hb)%tier_group_in Hab.
    right. split; [congruence|]. unfold oldest_first in Hab. lia. }
  assert (∀ j k a b, a ∈ tier_group i j → b ∈ tier_group i k → tier_rank k < tier_rank j →
            evicted_before a b) as Hjk.
  { intros j k a b (_ & _ & Ha)%tier_group_in (_ & _ & Hb)%tier_group_in Hlt. left. by rewrite Ha, Hb. }
  unfold eviction_order. cbn. rewrite app_nil_r.
  apply StronglySorted_app_2; [done| |].
  - apply StronglySorted_app_2; [done..|]. intros a b Ha Hb. by eapply Hjk.
  - intros a b Ha [Hb|Hb]%elem_of_app; by eapply Hjk.
Qed.

(** ** Lemmas: supersession *)

(** How often a name occurs. *)
Definition count (name : string) (l : list TagEntry) : Z :=
  lengthZ (filter (fun t => named name t = true) l).

Lemma count_cons name t l : count name (t :: l) = (if named name t then 1 else 0) + count name l.
Proof.
  unfold count, lengthZ. rewrite filter_cons.
  destruct (named name t); [rewrite decide_True by done|rewrite decide_False by done]; cbn [length]; lia.
Qed.

Lemma named_true name t : named name t = true ↔ t_toolName t = Some name.
Proof. unfold named. destruct (t_toolName t); [rewrite String.eqb_eq|]; naive_solver. Qed.

Lemma named_other name name' t : t_toolName t = Some name' → named name t = String.eqb name' name.
Proof. intros E. unfold named. by rewrite E. Qed.

(** A target is a tag, and if it bears a kept name enough newer ones do. *)
Lemma targets_spec ts a b l id :
  id ∈ supersession_targets ts a b l →
  ∃ l1 t l2, l = l1 ++ t :: l2 ∧ t_tagNumber t = id ∧
    (named "todowrite" t = true → TODOWRITE_KEEP ≤ a + count "todowrite" l1) ∧
    (named "ctx_reduce" t = true → CTX_REDUCE_KEEP ≤ b + count "ctx_reduce" l1).
Proof.
  revert a b. induction l as [|t l IH]; intros a b Hin; cbn [supersession_targets] in Hin;
    [by apply not_elem_of_nil in Hin|].
  assert (∀ a' b', id ∈ supersession_targets ts a' b' l →
    a' = a + (if named "todowrite" t then 1 else 0) → b' = b + (if named "ctx_reduce" t then 1 else 0) →
    ∃ l1 t' l2, t :: l = l1 ++ t' :: l2 ∧ t_tagNumber t' = id ∧
      (named "todowrite" t' = true → TODOWRITE_KEEP ≤ a + count "todowrite" l1) ∧
      (named "ctx_reduce" t' = true → CTX_REDUCE_KEEP ≤ b + count "ctx_reduce" l1)) as Hrest.
  { intros a' b' Hr -> ->. destruct (IH _ _ Hr) as (l1 & t' & l2 & -> & Hid & Ht & Hc).
    exists (t :: l1), t', l2. rewrite !count_cons. split; [done|]. split; [done|].
    split; intros Hn; [specialize (Ht Hn)|specialize (Hc Hn)]; lia. }
  assert (∀ p : bool, id ∈ (if p then t_tagNumber t :: [] else []) →
    (named "todowrite" t = true → p = true → TODOWRITE_KEEP ≤ a) →
    (named "ctx_reduce" t = true → p = true → CTX_REDUCE_KEEP ≤ b) →
    ∃ l1 t' l2, t :: l = l1 ++ t' :: l2 ∧ t_tagNumber t' = id ∧
      (named "todowrite" t' = true → TODOWRITE_KEEP ≤ a + count "todowrite" l1) ∧
      (named "ctx_reduce" t' = true → CTX_REDUCE_KEEP ≤ b + count "ctx_reduce" l1)) as Hhere.
  { intros p Hp Ht Hc. destruct p; [|by apply not_elem_of_nil in Hp].
    apply list_elem_of_singleton in Hp as ->. exists [], t, l. do 2 (split; [done|]).
    unfold count, lengthZ. cbn. split; intros Hn; [specialize (Ht Hn eq_refl)|specialize (Hc Hn eq_refl)]; lia. }
  assert (∀ (p : bool) rest, id ∈ (if p then t_tagNumber t :: rest else rest) →
    id ∈ (if p then [t_tagNumber t] else []) ∨ id ∈ rest) as Hsplit.
  { intros [] rest Hp; [|by right]. apply elem_of_cons in Hp as [->|Hp]; [left; left|by right]. }
  destruct (t_toolName t) as [name|] eqn:En.
  2:{ apply (Hrest _ _ Hin); unfold named; rewrite En; lia. }
  pose proof (named_other "todowrite" _ _ En) as Nt. pose proof (named_other "ctx_reduce" _ _ En) as Nc.
  destruct name as [|c name'].
  { apply (Hrest _ _ Hin); rewrite ?Nt, ?Nc; cbn; lia. }
  set (name := String c name') in *.
  destruct (String.eqb name "todowrite") eqn:E1; [|destruct (String.eqb name "ctx_reduce") eqn:E2].
  - apply String.eqb_eq in E1. rewrite E1 in Nc. cbn in Nc.
    apply Hsplit in Hin as [Hin|Hin]; [apply (Hhere _ Hin)|apply (Hrest _ _ Hin)];
      rewrite ?Nt, ?Nc; try done; try lia.
  - apply Hsplit in Hin as [Hin|Hin]; [apply (Hhere _ Hin)|apply (Hrest _ _ Hin)];
      rewrite ?Nt, ?Nc; try done; try lia.
  - apply Hsplit in Hin as [Hin|Hin]; [apply (Hhere _ Hin)|apply (Hrest _ _ Hin)];
      rewrite ?Nt, ?Nc; try done; lia.
Qed.

(** The numbers of a list of tags taken apart. *)
Lemma number_apart l1 t l2 u :
  NoDup (t_tagNumber <$> l1 ++ t :: l2) → u ∈ l1 → t_tagNumber u ≠ t_tagNumber t.
Proof.
  rewrite fmap_app. intros (_ & Hd & _)%NoDup_app Hu E. apply (Hd (t_tagNumber u)).
  - by apply list_elem_of_fmap_2.
  - rewrite E. left.
Qed.

Lemma filter_numbers (P : TagEntry → Prop) `{∀ t, Decision (P t)} (l : list TagEntry) :
  NoDup (t_tagNumber <$> l) → NoDup (t_tagNumber <$> filter P l).
Proof. intros Hl. eapply sublist_NoDup; [exact Hl|]. apply fmap_sublist, sublist_filter. Qed.

Lemma sorted_numbers l : NoDup (t_tagNumber <$> l) → NoDup (t_tagNumber <$> js_sort newest_first l).
Proof. by rewrite js_sort_perm. Qed.

Lemma newest_reduce_sorted l :
  newestCtxReduceTagNumbers l =
  t_tagNumber <$> take 3 (filter (fun t => named "ctx_reduce" t = true) (js_sort newest_first l)).
Proof.
  unfold newestCtxReduceTagNumbers.
  rewrite (js_sort_filter _ newest_first_total newest_first_trans). done.
Qed.

(** The newest [ctx_reduce] calls and the newest [todowrite] call are no targets. *)
Lemma targets_keep ts l id :
  NoDup (t_tagNumber <$> l) → id ∈ supersession_targets ts 0 0 (js_sort newest_first l) →
  id ∉ newestCtxReduceTagNumbers l ∧
  ∀ t, t ∈ l → t_tagNumber t = id → named "todowrite" t = true →
    ∃ u, u ∈ l ∧ named "todowrite" u = true ∧ t_tagNumber t < t_tagNumber u.
Proof.
  intros Hd (l1 & t & l2 & El & Hid & Ht & Hc)%targets_spec.
  pose proof (sorted_numbers l Hd) as Hds. rewrite El in Hds.
  assert (∀ u, u ∈ l → t_tagNumber u = id → u = t) as Huniq.
  { intros u Hu E. assert (u ∈ js_sort newest_first l) as Hu' by by apply js_sort_in.
    rewrite El in Hu'. apply elem_of_app in Hu' as [Hu'|[->|Hu']%elem_of_cons]; [|done|].
    - exfalso. apply (number_apart l1 t l2 u Hds Hu'). congruence.
    - exfalso. rewrite fmap_app in Hds. apply NoDup_app in Hds as (_ & _ & [Hn _]%NoDup_cons).
      apply Hn. rewrite Hid, <- E. by apply list_elem_of_fmap_2. }
  split.
  - rewrite newest_reduce_sorted, El. intros (u & E & Hu)%list_elem_of_fmap.
    assert (u ∈ filter (fun t => named "ctx_reduce" t = true) (l1 ++ t :: l2)) as Hf.
    { rewrite <- (take_drop 3). apply elem_of_app. by left. }
    apply list_elem_of_filter in Hf as [Hn Hf].
    assert (u = t) as ->.
    { apply Huniq; [|done]. rewrite <- El in Hf. by apply js_sort_in in Hf. }
    specialize (Hc Hn). unfold CTX_REDUCE_KEEP, count, lengthZ in Hc.
    rewrite filter_app, take_app_le in Hu by lia.
    assert (t ∈ filter (fun t => named "ctx_reduce" t = true) l1) as Hin.
    { rewrite <- (take_drop 3). apply elem_of_app. by left. }
    apply list_elem_of_filter in Hin as [_ Hin]. by apply (number_apart l1 t l2 t Hds Hin).
  - intros t' Hin E Hn. rewrite (Huniq t' Hin E) in *. specialize (Ht Hn).
    unfold TODOWRITE_KEEP, count, lengthZ in Ht.
    destruct (filter (fun t => named "todowrite" t = true) l1) as [|u us] eqn:Ef; [cbn in Ht; lia|].
    assert (u ∈ filter (fun t => named "todowrite" t = true) l1) as Hu by (rewrite Ef; left).
    apply list_elem_of_filter in Hu as [Hun Hu]. exists u. split; [|split; [done|]].
    + apply (js_sort_in newest_first). rewrite El. set_solver.
    + pose proof (newest_sorted l) as Hs. rewrite El in Hs.
      assert (newest_first u t ≤ 0) as Hle.
      { apply list_elem_of_split in Hu as (m1 & m2 & ->). clear -Hs.
        induction m1 as [|x m1 IH]; cbn in Hs; apply StronglySorted_inv in Hs as [Hs Hf].
        - rewrite Forall_forall in Hf. apply Hf. set_solver.
        - auto. }
      pose proof (number_apart l1 t l2 u Hds Hu). unfold newest_first in Hle. lia.
Qed.

(** ** Lemmas: edits *)

Lemma existsb_eqb (p : string) l : existsb (String.eqb p) l = true ↔ p ∈ l.
Proof.
  rewrite existsb_exists. setoid_rewrite <- list_elem_of_In. setoid_rewrite String.eqb_eq.
  split; [by intros (? & ? & ->)|eauto].
Qed.

Lemma edit_targets_spec ts pending seen l id :
  id ∈ edit_targets ts pending seen l ↔
  ∃ l1 t l2 p, l = l1 ++ t :: l2 ∧ t_tagNumber t = id ∧ readFilePath ts id = Some p ∧
    (p ∈ seen ∨ ∃ u, u ∈ l1 ∧ readFilePath ts (t_tagNumber u) = Some p) ∧
    queueable pending ts id = true.
Proof.
  revert seen. induction l as [|t l IH]; intros seen; cbn [edit_targets].
  { split; [by intros ?%not_elem_of_nil|]. intros ([|] & ? & ? & ? & [=] & _). }
  assert (∀ seen', (∀ p, p ∈ seen' ↔ p ∈ seen ∨ readFilePath ts (t_tagNumber t) = Some p) →
    (id ∈ edit_targets ts pending seen' l ↔
     ∃ l1 t' l2 p, t :: l = (t :: l1) ++ t' :: l2 ∧ t_tagNumber t' = id ∧ readFilePath ts id = Some p ∧
       (p ∈ seen ∨ ∃ u, u ∈ t :: l1 ∧ readFilePath ts (t_tagNumber u) = Some p) ∧
       queueable pending ts id = true)) as Hrest.
  { intros seen' Hseen. rewrite IH. split.
    - intros (l1 & t' & l2 & p & -> & Hid & Hp & Hs & Hq). exists l1, t', l2, p.
      split_and!; try done. rewrite Hseen in Hs. destruct Hs as [[?|?]|(u & Hu & ?)];
        [by left|right; exists t; split; [left|done]|right; exists u; split; [by right|done]].
    - intros (l1 & t' & l2 & p & [= ->] & Hid & Hp & Hs & Hq). exists l1, t', l2, p.
      split_and!; try done. rewrite Hseen.
      destruct Hs as [?|(u & [->|Hu]%elem_of_cons & ?)]; eauto. }
  assert ((∃ l1 t' l2 p, t :: l = l1 ++ t' :: l2 ∧ t_tagNumber t' = id ∧
      readFilePath ts id = Some p ∧ (p ∈ seen ∨ ∃ u, u ∈ l1 ∧ readFilePath ts (t_tagNumber u) = Some p) ∧
      queueable pending ts id = true) ↔
    (t_tagNumber t = id ∧ ∃ p, readFilePath ts id = Some p ∧ p ∈ seen ∧ queueable pending ts id = true) ∨
    (∃ l1 t' l2 p, t :: l = (t :: l1) ++ t' :: l2 ∧ t_tagNumber t' = id ∧ readFilePath ts id = Some p ∧
       (p ∈ seen ∨ ∃ u, u ∈ t :: l1 ∧ readFilePath ts (t_tagNumber u) = Some p) ∧
       queueable pending ts id = true)) as Hcase.
  { split.
    - intros ([|x l1] & t' & l2 & p & [= -> ->] & Hid & Hp & Hs & Hq).
      + left. split; [done|]. exists p. split_and!; try done.
        destruct Hs as [?|(u & Hu & _)]; [done|by apply not_elem_of_nil in Hu].
      + right. exists l1, t', l2, p. done.
    - intros [(Hid & p & Hp & Hs & Hq)|(l1 & t' & l2 & p & E & Hr)].
      + exists [], t, l, p. split_and!; eauto.
      + exists (t :: l1), t', l2, p. done. }
  rewrite Hcase.
  destruct (readFilePath ts (t_tagNumber t)) as [path|] eqn:Ep.
  - destruct (existsb (String.eqb path) seen) eqn:Es.
    + apply existsb_eqb in Es. rewrite elem_of_app, <- (Hrest seen) by naive_solver.
      apply or_iff_compat_r. destruct (queueable pending ts (t_tagNumber t)) eqn:Eq; split.
      * intros ->%list_elem_of_singleton. eauto.
      * intros (-> & _). left.
      * by intros ?%not_elem_of_nil.
      * intros (<- & p & _ & _ & Hq). congruence.
    + apply not_true_iff_false in Es. rewrite existsb_eqb in Es.
      rewrite <- (Hrest (path :: seen)) by (intros p; rewrite elem_of_cons; naive_solver).
      split; [by right|]. intros [(<- & p & Hp & Hs & _)|?]; [|done]. congruence.
  - rewrite <- (Hrest seen) by naive_solver. split; [by right|].
    intros [(<- & p & Hp & _)|?]; [congruence|done].
Qed.

Lemma sorted_before l1 t l2 u :
  StronglySorted (fun a b => newest_first a b ≤ 0) (l1 ++ t :: l2) → u ∈ l1 → newest_first u t ≤ 0.
Proof.
  intros Hs Hu. apply list_elem_of_split in Hu as (m1 & m2 & ->).
  induction m1 as [|x m1 IH]; cbn in Hs; apply StronglySorted_inv in Hs as [Hs Hf]; [|auto].
  rewrite Forall_forall in Hf. apply Hf. set_solver.
Qed.

Lemma sorted_after l1 t l2 u :
  StronglySorted (fun a b => newest_first a b ≤ 0) (l1 ++ t :: l2) → u ∈ l2 → newest_first t u ≤ 0.
Proof.
  intros Hs Hu. induction l1 as [|x l1 IH]; cbn in Hs; apply StronglySorted_inv in Hs as [Hs Hf]; [|auto].
  rewrite Forall_forall in Hf. by apply Hf.
Qed.

Lemma number_inj l t u :
  NoDup (t_tagNumber <$> l) → t ∈ l → u ∈ l → t_tagNumber t = t_tagNumber u → t = u.
Proof.
  intros Hd [i Hi]%list_elem_of_lookup [j Hj]%list_elem_of_lookup E.
  assert (i = j) as ->; [|congruence].
  eapply (NoDup_lookup _ i j (t_tagNumber t) Hd); rewrite list_lookup_fmap; [by rewrite Hi|by rewrite Hj, E].
Qed.

Lemma fmap_sorted l :
  StronglySorted (fun a b : Z => b ≤ a) (t_tagNumber <$> js_sort newest_first l).
Proof.
  pose proof (newest_sorted l) as Hs. induction Hs as [|t m Hs IH Hf]; cbn; constructor; [done|].
  apply Forall_fmap. eapply Forall_impl; [exact Hf|]. intros u. unfold newest_first. cbn. lia.
Qed.

(** The numbers of a sorted list depend on the numbers alone, not on the order the
    tags came in. *)
Lemma newest_reduce_perm l1 l2 :
  l1 ≡ₚ l2 → newestCtxReduceTagNumbers l1 = newestCtxReduceTagNumbers l2.
Proof.
  intros Hp. unfold newestCtxReduceTagNumbers, slice_to. rewrite !fmap_take.
  set (p := fun t => named "ctx_reduce" t = true). f_equal.
  assert (AntiSymm eq (fun a b : Z => b ≤ a)) as Hanti by (intros a b ? ?; lia).
  apply (StronglySorted_unique (fun a b : Z => b ≤ a)).
  - apply fmap_sorted.
  - apply fmap_sorted.
  - rewrite !js_sort_perm. by rewrite Hp.
Qed.

Lemma todowrite_found l t : t ∈ l → named "todowrite" t = true → newest_todowrite l ≠ None.
Proof.
  unfold newest_todowrite. induction l as [|u l IH] using rev_ind; [by intros ?%not_elem_of_nil|].
  intros [Ht| ->%list_elem_of_singleton]%elem_of_app Hn; rewrite foldl_app; cbn.
  - specialize (IH Ht Hn). destruct (foldl _ None l); [|done]. by destruct (_ && _).
  - rewrite Hn. cbn. destruct (foldl _ None l); [|done]. by destruct (_ <? _).
Qed.

(** ** Lemmas: the planners' choices *)

Lemma emergency_evicts i n :
  n ∈ pl_tagNumbers (planEmergencyDrop i) →
  ∃ t, t ∈ di_tags i ∧ evictable i t = true ∧ t_tagNumber t = n.
Proof.
  unfold planEmergencyDrop.
  repeat (match goal with |- n ∈ pl_tagNumbers (if ?b then _ else _) → _ => destruct b end;
          [by intros ?%not_elem_of_nil|]).
  rewrite drop_groups_concat. fold (eviction_order i).
  destruct (drop_group_prefix (reclaim_tokens i) (eviction_order i) [] 0) as (k & _ & -> & _).
  cbn [app]. intros Hin.
  assert (n ∈ t_tagNumber <$> take k (eviction_order i)) as (t & -> & Ht)%list_elem_of_fmap
    by by destruct (t_tagNumber <$> take k (eviction_order i)).
  assert (t ∈ eviction_order i) as Hto.
  { rewrite <- (take_drop k (eviction_order i)). apply elem_of_app. by left. }
  rewrite eviction_order_perm, list_elem_of_filter in Hto. exists t. tauto.
Qed.

(** The newest [todowrite] of a list is one of greatest number. *)
Lemma newest_todowrite_spec l n :
  newest_todowrite l = Some n →
  (∃ t, t ∈ l ∧ named "todowrite" t = true ∧ t_tagNumber t = n) ∧
  ∀ t, t ∈ l → named "todowrite" t = true → t_tagNumber t ≤ n.
Proof.
  unfold newest_todowrite.
  induction l as [|t l IH] using rev_ind in n |- *; [done|].
  rewrite foldl_app. cbn. set (best := foldl _ None l) in *.
  destruct (named "todowrite" t) eqn:En; cbn [andb].
  - destruct best as [m|] eqn:Eb.
    + destruct (IH m eq_refl) as [(u & Hu & Hun & Hum) Hmax]. destruct (m <? t_tagNumber t) eqn:El; intros [= <-].
      * split; [exists t; split; [set_solver|done]|]. intros v [Hv| ->%list_elem_of_singleton]%elem_of_app Hvn; [|done].
        specialize (Hmax v Hv Hvn). lia.
      * split; [exists u; split; [set_solver|done]|]. intros v [Hv| ->%list_elem_of_singleton]%elem_of_app Hvn; [by apply Hmax|lia].
    + intros [= <-]. split; [exists t; split; [set_solver|done]|].
      intros v [Hv| ->%list_elem_of_singleton]%elem_of_app Hvn; [|done].
      exfalso. by apply (todowrite_found l v Hv Hvn).
  - intros E. destruct (IH n E) as [(u & Hu & Hun & Hum) Hmax].
    split; [exists u; split; [set_solver|done]|]. intros v [Hv| ->%list_elem_of_singleton]%elem_of_app Hvn; [by apply Hmax|congruence].
Qed.

(** What the age planner queues; of a todowrite call only one that a newer one follows. *)
Lemma by_age_spec session sessionId ts watermark pending n :
  let active_tools := filter (fun t => is_active_tool t = true) session in
  n ∈ po_tagId <$> buildSyntheticToolReclaimOps session sessionId ts watermark pending →
  ∃ t, t ∈ active_tools ∧ t_tagNumber t = n ∧ n ∉ newestCtxReduceTagNumbers active_tools ∧
    queueable pending ts n = true ∧
    (named "todowrite" t = true →
     ∃ u, u ∈ active_tools ∧ named "todowrite" u = true ∧ t_tagNumber t < t_tagNumber u).
Proof.
  intros active_tools. unfold buildSyntheticToolReclaimOps.
  destruct (_ <=? 0); [by intros ?%not_elem_of_nil|].
  set (tags := getActiveToolTagsForAgeReclaim session).
  rewrite <- list_fmap_compose. intros (t & -> & Ht)%list_elem_of_fmap.
  apply list_elem_of_filter in Ht as [Hp Ht]. cbn.
  assert (∀ u, u ∈ tags → u ∈ active_tools ∧
            t_tagNumber u ∉ newestCtxReduceTagNumbers active_tools) as Htags.
  { intros u Hu. unfold tags, getActiveToolTagsForAgeReclaim in Hu. fold active_tools in Hu.
    apply list_elem_of_filter in Hu as [Hn Hu]. apply js_sort_in in Hu. split; [done|].
    rewrite <- set_of_true. rewrite (newest_reduce_perm _ active_tools) in Hn by apply js_sort_perm. congruence. }
  destruct (Htags t Ht) as [Hta Hnot]. apply andb_true_iff in Hp as [Hage Hq].
  exists t. split_and!; try done. intros Hn. unfold age_target in Hage. bool_hyps.
  match goal with H : bool_decide _ = false |- _ => apply bool_decide_eq_false in H; rename H into Hne end.
  destruct (newest_todowrite tags) as [m|] eqn:Em.
  - destruct (newest_todowrite_spec tags m Em) as [(u & Hu & Hun & Hum) Hmax].
    exists u. split; [by apply Htags|]. split; [done|]. specialize (Hmax t Ht Hn).
    assert (t_tagNumber t ≠ m) by congruence. lia.
  - exfalso. by apply (todowrite_found tags t Ht Hn).
Qed.

(** ** Properties *)

(** What the emergency planner drops is the shortest prefix of the eviction
    order (third tier, then second, then first, oldest first) that reaches the
    reclaim target, or everything evictable when nothing does; the order holds
    exactly the active tool tags outside the protected tail, the tier reserves and
    the kept [ctx_reduce] calls.  It drops only when the target exceeds the
    minimum and the usage sample is fresh; it declines only for a limit or usage
    it does not know, a stale sample, a small target, or nothing evictable. *)
Theorem emergency_plan (i : drop_input) :
  let plan := planEmergencyDrop i in
  if pl_shouldDrop plan then
    ∃ order k, order ≡ₚ filter (fun t => evictable i t = true) (di_tags i) ∧
      StronglySorted evicted_before order ∧
      pl_tagNumbers plan = t_tagNumber <$> take k order ∧ (0 < k ≤ length order)%nat ∧
      (∀ j, (0 < j < k)%nat → nleb (reclaim_tokens i) (nofZ (reclaim_of (take j order))) = false) ∧
      ((k < length order)%nat → nleb (reclaim_tokens i) (nofZ (reclaim_of (take k order))) = true) ∧
      nleb (reclaim_tokens i) EMERGENCY_REARM_MIN_TOKENS = false ∧
      (di_hasPriorDrop i = true → neqb (di_currentTotalInputTokens i) (di_priorInputSample i) = false)
  else
    pl_tagNumbers plan = [] ∧
    (isFinite (di_ceilingTokens i) = false ∨ nleb (di_ceilingTokens i) (nofZ 0) = true ∨
     isFinite (di_currentTotalInputTokens i) = false ∨
     nleb (di_currentTotalInputTokens i) (nofZ 0) = true ∨
     (di_hasPriorDrop i = true ∧ neqb (di_currentTotalInputTokens i) (di_priorInputSample i) = true) ∨
     nleb (reclaim_tokens i) EMERGENCY_REARM_MIN_TOKENS = true ∨
     ∀ t, t ∈ di_tags i → evictable i t = false).
Proof.
  unfold planEmergencyDrop.
  destruct (negb (isFinite (di_ceilingTokens i)) || _) eqn:E1.
  { cbn. split; [done|]. apply orb_true_iff in E1 as [E1%negb_true_iff|E1]; auto. }
  destruct (negb (isFinite (di_currentTotalInputTokens i)) || _) eqn:E2.
  { cbn. split; [done|]. apply orb_true_iff in E2 as [E2%negb_true_iff|E2]; auto 6. }
  destruct (di_hasPriorDrop i && _) eqn:E3.
  { cbn. split; [done|]. apply andb_true_iff in E3. auto 7. }
  destruct (nleb (reclaim_tokens i) EMERGENCY_REARM_MIN_TOKENS) eqn:E4; [cbn; split; auto 8|].
  rewrite drop_groups_concat. fold (eviction_order i).
  destruct (drop_group_prefix (reclaim_tokens i) (eviction_order i) [] 0) as (k & Hk & -> & Hlt & Hstop).
  cbn [app]. setoid_rewrite Z.add_0_l in Hlt. rewrite Z.add_0_l in Hstop |- *.
  destruct (t_tagNumber <$> take k (eviction_order i)) as [|n ns] eqn:Es; cbn [pl_shouldDrop pl_tagNumbers noop].
  - split; [done|]. do 6 right. intros t Ht. apply not_true_is_false. intros He.
    assert (t ∈ eviction_order i) as Hin by (rewrite eviction_order_perm; by apply list_elem_of_filter).
    apply fmap_nil_inv in Es. destruct (eviction_order i) as [|x l]; [by apply not_elem_of_nil in Hin|].
    destruct k; [|done]. cbn in Hstop. destruct (Hstop ltac:(lia)). lia.
  - exists (eviction_order i), k. split; [apply eviction_order_perm|]. split; [apply eviction_order_sorted|].
    split; [done|]. split; [split; [destruct k; [done|lia]|done]|]. split; [done|].
    split; [by intros Hl; apply Hstop|]. split; [done|]. intros Hp. by rewrite Hp in E3.
Qed.

(** The newest calls are kept by every planner.  None of the emergency, age
    and supersession planners drops one of the three newest active [ctx_reduce]
    calls of the session, neither the age nor the supersession planner drops the
    newest active [todowrite] call, and each drop those two queue is of an active
    tool call that can be dropped and has no operation pending. *)
Theorem newest_calls_kept session sessionId ts pending watermark i :
  NoDup (t_tagNumber <$> session) → di_floorTags i = session →
  let active_tools := filter (fun t => is_active_tool t = true) session in
  let by_age := po_tagId <$> buildSyntheticToolReclaimOps session sessionId ts watermark pending in
  let superseded := po_tagId <$> buildSupersessionReclaimOps session sessionId ts pending in
  (∀ n, n ∈ newestCtxReduceTagNumbers active_tools →
     n ∉ pl_tagNumbers (planEmergencyDrop i) ∧ n ∉ by_age ∧ n ∉ superseded) ∧
  (∀ t, t ∈ active_tools → named "todowrite" t = true →
     (∀ u, u ∈ active_tools → named "todowrite" u = true → t_tagNumber u ≤ t_tagNumber t) →
     t_tagNumber t ∉ by_age ∧ t_tagNumber t ∉ superseded) ∧
  (∀ n, n ∈ by_age ∨ n ∈ superseded →
     n ∉ pending ∧ droppable ts n = true ∧ ∃ t, t ∈ active_tools ∧ t_tagNumber t = n).
Proof.
  intros Hd Hfloor active_tools by_age superseded.
  assert (NoDup (t_tagNumber <$> active_tools)) as Hda by by apply filter_numbers.
  assert (∀ n, n ∈ superseded ↔ queueable pending ts n = true ∧
            n ∈ supersession_targets ts 0 0 (js_sort newest_first active_tools)) as Hsup.
  { intros n. unfold superseded, buildSupersessionReclaimOps.
    rewrite <- list_fmap_compose, (list_fmap_ext (po_tagId ∘ synthetic sessionId) id) by done.
    rewrite list_fmap_id, list_elem_of_filter. done. }
  pose proof (by_age_spec session sessionId ts watermark pending) as Hage. cbv zeta in Hage.
  change (filter (fun t => is_active_tool t = true) session) with active_tools in Hage.
  split; [|split].
  - intros n Hn. split; [|split].
    + intros Hin%emergency_evicts. destruct Hin as (t & _ & He & <-). unfold evictable in He. bool_hyps.
      unfold protected_reduce in *. rewrite Hfloor in *.
      apply set_of_true in Hn. unfold active_tools in *. congruence.
    + intros Hin%Hage. destruct Hin as (t & _ & <- & Hnot & _). done.
    + intros [_ Hin]%Hsup. by apply (targets_keep ts active_tools n Hda) in Hin as [Hin _].
  - intros t Ht Hn Hmax. split.
    + intros Hin%Hage. destruct Hin as (u & Hu & E & _ & _ & Hold).
      rewrite (number_inj active_tools u t Hda Hu Ht E) in Hold. destruct (Hold Hn) as (v & Hv & Hvn & Hlt).
      specialize (Hmax v Hv Hvn). lia.
    + intros [_ Hin]%Hsup. destruct (targets_keep ts active_tools _ Hda Hin) as [_ Hold].
      destruct (Hold t Ht eq_refl Hn) as (v & Hv & Hvn & Hlt). specialize (Hmax v Hv Hvn). lia.
  - assert (∀ n, queueable pending ts n = true → n ∉ pending ∧ droppable ts n = true) as Hq.
    { intros n Hq. unfold queueable in Hq. bool_hyps. split; [|done]. rewrite <- set_of_true. congruence. }
    intros n [Hin|Hin].
    + apply Hage in Hin as (t & Ht & E & _ & Hqn & _). apply Hq in Hqn as [? ?]. eauto.
    + apply Hsup in Hin as [Hqn Hin]. apply Hq in Hqn as [? ?]. do 2 (split; [done|]).
      apply targets_spec in Hin as (l1 & t & l2 & E & <- & _). exists t. split; [|done].
      apply (js_sort_in newest_first). rewrite E. set_solver.
Qed.

(** An edit is compressed exactly when it is superseded: a tag is queued as
    an edit marker if and only if it is an active edit or write call on a known
    file, a newer active one is on the same file, no operation is pending on it
    and its target can be dropped; so each file keeps its newest edit. *)
Theorem superseded_edits session sessionId ts pending :
  NoDup (t_tagNumber <$> session) →
  let '(ops, markers) := buildEditSupersessionReclaim session sessionId ts pending in
  po_tagId <$> ops = markers ∧
  ∀ n, n ∈ markers ↔
    ∃ t u p, t ∈ session ∧ is_edit_tag t = true ∧ t_tagNumber t = n ∧ readFilePath ts n = Some p ∧
      u ∈ session ∧ is_edit_tag u = true ∧ readFilePath ts (t_tagNumber u) = Some p ∧
      n < t_tagNumber u ∧ queueable pending ts n = true.
Proof.
  intros Hd. unfold buildEditSupersessionReclaim.
  set (edits := filter (fun t => is_edit_tag t = true) session).
  assert (NoDup (t_tagNumber <$> edits)) as Hde by by apply filter_numbers.
  pose proof (sorted_numbers edits Hde) as Hds. pose proof (newest_sorted edits) as Hs.
  assert (∀ t, t ∈ js_sort newest_first edits ↔ t ∈ session ∧ is_edit_tag t = true) as Hin.
  { intros t. rewrite js_sort_in. unfold edits. rewrite list_elem_of_filter. tauto. }
  split.
  { by rewrite <- list_fmap_compose, (list_fmap_ext (po_tagId ∘ synthetic sessionId) id), list_fmap_id by done. }
  intros n. rewrite edit_targets_spec. split.
  - intros (l1 & t & l2 & p & El & Hn & Hp & [H0|(u & Hu & Hup)] & Hq); [by apply not_elem_of_nil in H0|].
    exists t, u, p.
    assert (u ∈ session ∧ is_edit_tag u = true) as [? ?] by (apply Hin; rewrite El; set_solver).
    assert (t ∈ session ∧ is_edit_tag t = true) as [? ?] by (apply Hin; rewrite El; set_solver).
    split_and!; try done. rewrite El in Hds, Hs. pose proof (number_apart l1 t l2 u Hds Hu).
    pose proof (sorted_before l1 t l2 u Hs Hu) as Hle. unfold newest_first in Hle. lia.
  - intros (t & u & p & Ht & Het & Hn & Hp & Hu & Heu & Hup & Hlt & Hq).
    assert (t ∈ js_sort newest_first edits) as Htin by by apply Hin.
    apply list_elem_of_split in Htin as (l1 & l2 & El). exists l1, t, l2, p.
    split_and!; try done. right. exists u. split; [|done].
    assert (u ∈ js_sort newest_first edits) as Huin by by apply Hin.
    rewrite El in Huin, Hs. apply elem_of_app in Huin as [?|[->|Hu2]%elem_of_cons]; [done|lia|].
    pose proof (sorted_after l1 t l2 u Hs Hu2) as Hle. unfold newest_first in Hle. lia.
Qed.

(** ** Lemmas: edit markers *)

(** Marking an input again changes nothing. *)
Lemma edit_marker_idempotent input :
  applyEditMarkerToInput (applyEditMarkerToInput input) = applyEditMarkerToInput input.
Proof.
  unfold applyEditMarkerToInput. rewrite <- list_fmap_compose. apply list_fmap_ext.
  intros _ [key v] _. cbn. f_equal. unfold mark_value.
  destruct (existsb (String.eqb key) PATH_KEYS); [done|]. destruct v; try done.
  destruct (existsb (String.eqb key) DIFF_KEYS); [cbn [negb]|done].
  destruct (ends_with (code_units s) _) eqn:E1; [by rewrite E1|].
  destruct (Nat.ltb EDIT_REGION_HINT_LEN _) eqn:E2; [|by rewrite E1, E2].
  rewrite code_units_of.
  - unfold ends_with. rewrite length_app, Nat.add_sub, drop_app_length. by rewrite bool_decide_eq_true_2.
  - apply Forall_app. split; [|by apply code_units_bound].
    assert (∀ k, Forall (fun u => 0 ≤ u < 256) (take k (code_units s))) as Ht
      by (intros; apply Forall_take, code_units_bound).
    unfold safeSlice. repeat case_match; auto using code_units_bound.
Qed.

(** ** Examples *)

Definition tag (number : Z) (name : string) (bytes : Z) : TagEntry :=
  {| t_tagNumber := number; t_type := tool; t_status := active; t_toolName := Some name;
     t_byteSize := bytes; t_inputByteSize := 0; t_reasoningByteSize := 0; t_tokenCount := Some 300;
     t_inputTokenCount := None |}.

Definition sample_session : list TagEntry :=
  [tag 1 "edit" 40000; tag 2 "bash" 40000; tag 3 "ctx_reduce" 400; tag 4 "mcp_Read" 80000;
   tag 5 "todowrite" 400; tag 6 "ctx_reduce" 400; tag 7 "edit" 40000; tag 8 "todowrite" 400;
   tag 9 "ctx_reduce" 400; tag 10 "ctx_reduce" 400; tag 11 "bash" 20000].

Definition sample_input : drop_input :=
  {| di_tags := sample_session; di_floorTags := sample_session; di_maxTag := 11;
     di_protectedTags := 1; di_currentTotalInputTokens := nofZ 70000;
     di_ceilingTokens := nofZ 80000; di_priorInputSample := nofZ 0; di_hasPriorDrop := false |}.

(** The unknown tools and the [ctx_reduce] call no longer kept first, then the older edit. *)
Example emergency_example :
  pl_tagNumbers (planEmergencyDrop sample_input) = [2; 3; 1; 4] ∧
  pl_reason (planEmergencyDrop sample_input) = tiered_drop 4 40100.
Proof. vm_compute. split; reflexivity. Qed.

Definition sample_targets : targets :=
  list_to_map ((fun n => (n, {| tt_canDrop := Some true;
    tt_readInput := Some [("filePath", VStr "a.ts")] |})) <$> [1; 2; 3; 4; 5; 6; 7; 8; 9; 10]).

Lemma sample_numbers : NoDup (t_tagNumber <$> sample_session).
Proof. apply (bool_decide_unpack _). vm_compute. exact I. Qed.

Lemma newest_calls_kept_witness :
  let session := sample_session in
  let superseded := po_tagId <$> buildSupersessionReclaimOps session "s" sample_targets [] in
  let by_age := po_tagId <$> buildSyntheticToolReclaimOps session "s" sample_targets 8 [] in
  superseded = [5; 3] ∧ by_age = [1; 2; 3; 4; 5; 7] ∧
  newestCtxReduceTagNumbers (filter (fun t => is_active_tool t = true) session) = [10; 9; 6] ∧
  ∀ n, n ∈ newestCtxReduceTagNumbers (filter (fun t => is_active_tool t = true) session) →
    n ∉ pl_tagNumbers (planEmergencyDrop sample_input) ∧ n ∉ by_age ∧ n ∉ superseded.
Proof.
  cbv zeta. split; [vm_compute; reflexivity|]. split; [vm_compute; reflexivity|].
  split; [vm_compute; reflexivity|].
  exact (proj1 (newest_calls_kept sample_session "s" sample_targets [] 8 sample_input
                  sample_numbers eq_refl)).
Defined.

Lemma superseded_edits_witness :
  (buildEditSupersessionReclaim sample_session "s" sample_targets []).2 = [1] ∧
  let '(ops, markers) := buildEditSupersessionReclaim sample_session "s" sample_targets [] in
  po_tagId <$> ops = markers ∧
  ∀ n, n ∈ markers ↔
    ∃ t u p, t ∈ sample_session ∧ is_edit_tag t = true ∧ t_tagNumber t = n ∧
      readFilePath sample_targets n = Some p ∧ u ∈ sample_session ∧ is_edit_tag u = true ∧
      readFilePath sample_targets (t_tagNumber u) = Some p ∧ n < t_tagNumber u ∧
      queueable [] sample_targets n = true.
Proof.
  split; [vm_compute; reflexivity|].
  exact (superseded_edits sample_session "s" sample_targets [] sample_numbers).
Defined.
