(* ===== verification/SearchBounds.v ===== *)
(** * Bounds on search queries

    Models packages/plugin/src/features/magic-context/search-bounds.ts: the byte,
    atom and token caps on queries, UTF-8 truncation and slicing, the binary
    search the truncation uses, and the limits of result lists.

    A text is the list of its UTF-16 code units.  The token estimate is a
    parameter. *)

From S2P Require Import Prelude JsNumber JsMap JsValue JsString FrameChannel.

(** ** Code points *)

(** [for (const char of text)]: surrogate pairs stay together. *)
Fixpoint chars (text : list Z) : list (list Z) :=
  match text with
  | [] => []
  | u :: rest =>
      match rest with
      | v :: rest' =>
          if is_high_surrogate u && is_low_surrogate v then [u; v] :: chars rest'
          else [u] :: chars rest
      | [] => [[u]]
      end
  end.

(** [Buffer.byteLength(char, "utf8")]: a lone surrogate becomes U+FFFD. *)
Definition char_bytes (char : list Z) : Z :=
  match char with
  | [u] => if u <? 128 then 1 else if u <? 2048 then 2 else 3
  | _ => 4
  end.

Definition byteLength (text : list Z) : Z := sumZ char_bytes (chars text).

(** ** Caps *)

Definition MAX_QUERY_BYTES : Z := 16 * 1024.
Definition MAX_QUERY_TOKENS : Z := 512.
Definition MAX_QUERY_ATOMS : Z := 64.
Definition DEFAULT_SEARCH_RESULT_LIMIT : Z := 10.
Definition MAX_SEARCH_RESULT_LIMIT : Z := 50.
Definition MAX_CANDIDATE_DEPTH : Z := 100.
Definition MAX_RENDER_FIELD_BYTES : Z := 1024.
Definition ID_SHAPED_QUERY_MAX_TOKENS : Z := 5.

Inductive QueryBoundsViolation := bytes | tokens | atoms.

Record QueryBoundsDetail := {
  qd_violation : QueryBoundsViolation; qd_limit : Z; qd_actual : Z
}.

Inductive bounds_error :=
| max_bytes_not_positive
| code_point_too_large
| candidate_depth (requested : num).

(** ** Truncation and slicing *)

(** The code units of the longest prefix that fits. *)
Fixpoint prefix_end (maxBytes bytes : Z) (cs : list (list Z)) : nat :=
  match cs with
  | [] => 0
  | c :: cs =>
      let charBytes := char_bytes c in
      if maxBytes <? bytes + charBytes then 0
      else (length c + prefix_end maxBytes (bytes + charBytes) cs)%nat
  end.

Definition utf8PrefixEnd (text : list Z) (maxBytes : Z) (start : nat) : nat :=
  (start + prefix_end maxBytes 0 (chars (drop start text)))%nat.

Definition truncateUtf8Bytes (text : list Z) (maxBytes : Z) : list Z :=
  if byteLength text <=? maxBytes then text else take (utf8PrefixEnd text maxBytes 0) text.

Definition boundDynamicField (text : list Z) : list Z :=
  truncateUtf8Bytes text MAX_RENDER_FIELD_BYTES.

(** [text.slice(start, end)]. *)
Definition slice_between (text : list Z) (start end_ : nat) : list Z :=
  drop start (take end_ text).

(** The loop from [start] on: every turn takes a code unit at least. *)
Fixpoint slices_from (fuel : nat) (text : list Z) (maxBytes : Z) (start : nat)
    : result bounds_error (list (list Z)) :=
  match fuel with
  | O => mret []
  | S fuel =>
      if (start <? length text)%nat then
        let end_ := utf8PrefixEnd text maxBytes start in
        throw_if (end_ =? start)%nat code_point_too_large;;
        rest ← slices_from fuel text maxBytes end_;
        mret (slice_between text start end_ :: rest)
      else mret []
  end.

Definition splitUtf8Bytes (text : list Z) (maxBytes : num) : result bounds_error (list (list Z)) :=
  throw_if (negb (is_integral maxBytes) || nltb maxBytes (nofZ 1)) max_bytes_not_positive;;
  let maxBytes := floorZ maxBytes in
  if byteLength text <=? maxBytes then mret [text]
  else slices_from (length text) text maxBytes 0.

(** ** Atoms *)

Fixpoint count_atoms (inAtom : bool) (cs : list (list Z)) : Z :=
  match cs with
  | [] => 0
  | c :: cs =>
      if existsb is_space c then count_atoms false cs
      else (if inAtom then 0 else 1) + count_atoms true cs
  end.

Definition countQueryAtoms (query : list Z) : Z := count_atoms false (chars query).

(** The ends of the matches of [/\S+/g]. *)
Fixpoint atom_ends (index : nat) (inAtom : bool) (text : list Z) : list nat :=
  match text with
  | [] => if inAtom then [index] else []
  | u :: text =>
      if is_space u then (if inAtom then [index] else []) ++ atom_ends (S index) false text
      else atom_ends (S index) true text
  end.

Definition atomEndOffsets (text : list Z) : list nat := atom_ends 0 false text.

Fixpoint offsets_from (index : nat) (cs : list (list Z)) : list nat :=
  match cs with
  | [] => []
  | c :: cs => index :: offsets_from (index + length c) cs
  end.

Definition codePointOffsets (text : list Z) : list nat := offsets_from 0 (chars text).

(** ** The binary search *)

Fixpoint largest_fit (fuel : nat) (fits : Z → bool) (low high best : Z) : Z :=
  match fuel with
  | O => best
  | S fuel =>
      if low <=? high then
        let mid := Z.shiftr (int32 (low + high)) 1 in
        if fits mid then largest_fit fuel fits (mid + 1) high mid
        else largest_fit fuel fits low (mid - 1) best
      else best
  end.

Definition binarySearchLargestFit (upper : Z) (fits : Z → bool) : Z :=
  largest_fit (Z.to_nat (upper + 1)) fits 0 upper (-1).

(** ** Queries *)

Section queries.
Context `{Engine} (estimateTokens : list Z → Z).

Definition describeQueryBoundsViolation (detail : QueryBoundsDetail) : string :=
  let actual := numberToString (nofZ (qd_actual detail)) in
  let limit := numberToString (nofZ (qd_limit detail)) in
  match qd_violation detail with
  | bytes => "query is too large: " ++ actual ++ " bytes of UTF-8 exceeds the " ++ limit
             ++ "-byte maximum"
  | tokens => "query is too large: ~" ++ actual ++ " estimated tokens exceeds the " ++ limit
              ++ "-token maximum"
  | atoms => "query is too complex: " ++ actual ++ " search terms exceeds the " ++ limit
             ++ "-term maximum"
  end%string.

Definition prepareExplicitQuery (raw : list Z) : result QueryBoundsDetail (list Z) :=
  let actual := byteLength raw in
  throw_if (MAX_QUERY_BYTES <? actual)
    {| qd_violation := bytes; qd_limit := MAX_QUERY_BYTES; qd_actual := actual |};;
  let trimmed := trim_units raw in
  let actual := countQueryAtoms trimmed in
  throw_if (MAX_QUERY_ATOMS <? actual)
    {| qd_violation := atoms; qd_limit := MAX_QUERY_ATOMS; qd_actual := actual |};;
  let actual := estimateTokens trimmed in
  throw_if (MAX_QUERY_TOKENS <? actual)
    {| qd_violation := tokens; qd_limit := MAX_QUERY_TOKENS; qd_actual := actual |};;
  mret trimmed.

(** [text.slice(0, ends[i])]; without such an entry the whole text. *)
Definition slice_at (text : list Z) (ends : list nat) (i : Z) : list Z :=
  take (default (length text) (at_index ends i)) text.

Definition tokens_fit (text : list Z) : bool := estimateTokens text <=? MAX_QUERY_TOKENS.

Definition prepareAutomaticQuery (raw : list Z) : list Z :=
  let text := trim_units (truncateUtf8Bytes raw MAX_QUERY_BYTES) in
  if lengthZ text =? 0 then []
  else
    let ends := atomEndOffsets text in
    let text := if MAX_QUERY_ATOMS <? lengthZ ends then slice_at text ends (MAX_QUERY_ATOMS - 1)
                else text in
    if tokens_fit text then text
    else
      let boundedEnds := atomEndOffsets text in
      let bestAtom := binarySearchLargestFit (lengthZ boundedEnds - 1)
                        (fun index => tokens_fit (slice_at text boundedEnds index)) in
      if 0 <=? bestAtom then trim_units (slice_at text boundedEnds bestAtom)
      else
        let offsets := codePointOffsets (slice_at text boundedEnds 0) in
        let bestChar := binarySearchLargestFit (lengthZ offsets - 1)
                          (fun index => tokens_fit (slice_at text offsets index)) in
        if 0 <=? bestChar then trim_units (slice_at text offsets bestChar) else [].

End queries.

(** ** Limits *)

Definition normalizeCandidateDepth (depth : option num) : result bounds_error (option num) :=
  match depth with
  | None => mret None
  | Some depth =>
      throw_if (negb (is_integral depth) || nltb depth (nofZ 1) || nltb (nofZ MAX_CANDIDATE_DEPTH) depth)
        (candidate_depth depth);;
      mret (Some depth)
  end.

Definition normalizeSearchResultLimit (limit : option num) : num :=
  match limit with
  | Some limit =>
      if isFinite limit
      then nmin (nofZ MAX_SEARCH_RESULT_LIMIT) (nmax (nofZ 1) (nfloor limit))
      else nofZ DEFAULT_SEARCH_RESULT_LIMIT
  | None => nofZ DEFAULT_SEARCH_RESULT_LIMIT
  end.

(** ** Queries that are ids *)

(** [split(/[\s,]+/)], without its empty parts. *)
Definition id_tokens (query : list Z) : list (list Z) :=
  List.filter (fun token => negb (lengthZ token =? 0))
    (split_units 44 [] ((fun u => if is_space u then 44 else u) <$> query)).

(** [token.replace(/^#/, "")]. *)
Definition without_hash_sign (token : list Z) : list Z :=
  match token with u :: rest => if u =? 35 then rest else token | [] => [] end.

(** An id that matches [/^#?\d+$/] and is a finite positive number. *)
Definition parse_id (token : list Z) : option num :=
  match decimal (without_hash_sign token) with
  | Some v => let parsed := nofZ v in
              if negb (isFinite parsed) || nleb parsed (nofZ 0) then None else Some parsed
  | None => None
  end.

Definition parseIdShapedQuery (query : list Z) : option (list num) :=
  let trimmed := trim_units query in
  if lengthZ trimmed =? 0 then None
  else
    let tokens := id_tokens trimmed in
    if (lengthZ tokens =? 0) || (ID_SHAPED_QUERY_MAX_TOKENS <? lengthZ tokens) then None
    else mapM parse_id tokens.

(** ** Lemmas: code points *)

Lemma is_space_not_surrogate u : is_space u = true → is_high_surrogate u = false ∧ is_low_surrogate u = false.
Proof.
  unfold is_space, is_high_surrogate, is_low_surrogate. cbn [existsb]. intros H.
  repeat (apply orb_prop in H as [H|H]); bool_hyps; split; lia.
Qed.

(** A text is its first code point and the rest. *)
Lemma chars_cons l :
  l ≠ [] → ∃ c rest, l = c ++ rest ∧ chars l = c :: chars rest ∧ (1 ≤ length c ≤ 2)%nat.
Proof.
  destruct l as [|u [|v l]]; [done|intros _; exists [u], []; split_and!; cbn; [done..|lia|lia]|].
  intros _. cbn [chars].
  destruct (is_high_surrogate u && is_low_surrogate v).
  - exists [u; v], l. split_and!; cbn; [done..|lia|lia].
  - exists [u], (v :: l). split_and!; cbn; [done..|lia|lia].
Qed.

Lemma chars_ind (P : list Z → Prop) :
  P [] → (∀ c rest, chars (c ++ rest) = c :: chars rest → (1 ≤ length c ≤ 2)%nat → P rest → P (c ++ rest)) →
  ∀ l, P l.
Proof.
  intros Hnil Hcons l. induction l as [l IH] using (induction_ltof1 _ (@length Z)).
  destruct (decide (l = [])) as [->|Hne]; [done|].
  destruct (chars_cons l Hne) as (c & rest & -> & E & Hc). apply Hcons; [done..|].
  apply IH. unfold ltof. rewrite length_app. lia.
Qed.

Lemma concat_chars l : concat (chars l) = l.
Proof. induction l as [|c rest E Hc IH] using chars_ind; [done|]. rewrite E. cbn. by rewrite IH. Qed.

Lemma chars_pieces l c : c ∈ chars l → (1 ≤ length c ≤ 2)%nat.
Proof.
  induction l as [|c' rest E Hc IH] using chars_ind; [set_solver|]. rewrite E.
  intros [->|Hin]%elem_of_cons; auto.
Qed.

(** A cut that does not divide a surrogate pair divides the code points. *)
Definition boundary (l1 l2 : list Z) : Prop :=
  ∀ u v, last l1 = Some u → head l2 = Some v → is_high_surrogate u && is_low_surrogate v = false.

Lemma boundary_tail u l1 l2 : boundary (u :: l1) l2 → boundary l1 l2.
Proof. intros Hb x y Hx. apply Hb. by destruct l1. Qed.

Lemma chars_boundary_app l1 l2 : boundary l1 l2 → chars (l1 ++ l2) = chars l1 ++ chars l2.
Proof.
  induction l1 as [l1 IH] using (induction_ltof1 _ (@length Z)). intros Hb.
  destruct l1 as [|u [|v l1]]; [done|..].
  - destruct l2 as [|v l2]; [done|]. cbn. by rewrite (Hb u v).
  - apply boundary_tail in Hb as Hb1. apply boundary_tail in Hb1 as Hb2.
    change (chars ((u :: v :: l1) ++ l2)) with
      (if is_high_surrogate u && is_low_surrogate v then [u; v] :: chars (l1 ++ l2)
       else [u] :: chars ((v :: l1) ++ l2)).
    change (chars (u :: v :: l1)) with
      (if is_high_surrogate u && is_low_surrogate v then [u; v] :: chars l1
       else [u] :: chars (v :: l1)).
    destruct (is_high_surrogate u && is_low_surrogate v); cbn [app]; f_equal;
      [apply (IH l1) | apply (IH (v :: l1))]; try done; unfold ltof; cbn; lia.
Qed.

Lemma boundary_space_l l1 u l2 : is_space u = true → boundary l1 (u :: l2).
Proof.
  intros Hu x y _ [= <-]. apply is_space_not_surrogate in Hu as [_ ->]. apply andb_false_r.
Qed.

Lemma boundary_space_r l1 u l2 : is_space u = true → boundary (l1 ++ [u]) l2.
Proof.
  intros Hu x y Hx _. rewrite last_snoc in Hx. injection Hx as <-.
  by apply is_space_not_surrogate in Hu as [-> _].
Qed.

Lemma boundary_nil_l l : boundary [] l. Proof. by intros ?. Qed.
Lemma boundary_nil_r l : boundary l []. Proof. by intros ???. Qed.

(** A run of the code points of [l] is the code points of a text. *)
Definition run_of (cs : list (list Z)) (l : list Z) : Prop := ∃ a b, chars l = a ++ cs ++ b.

Lemma chars_prefix l : ∀ a b, chars l = a ++ b → chars (concat a) = a.
Proof.
  induction l as [|c rest E Hc IH] using chars_ind; intros a b.
  - intros [= ?]. by destruct a.
  - rewrite E. destruct a as [|c' a]; [done|]. intros [= <- Ha]. cbn [concat].
    assert (chars (concat a) = a) as IHa by eauto.
    rewrite chars_boundary_app.
    + rewrite IHa. apply (f_equal (fun l => default [] (head l))) in E as E'.
      destruct c as [|u [|v [|]]]; cbn in Hc; try lia; [done|].
      cbn. cbn in E. destruct (is_high_surrogate u && is_low_surrogate v); [done|].
      destruct rest; discriminate E.
    + destruct a as [|c' a]; [apply boundary_nil_r|].
      assert (∃ u l', c' = u :: l') as (u & l' & ->).
      { assert (c' ∈ chars rest) as Hin by (rewrite Ha; set_solver).
        apply chars_pieces in Hin. destruct c'; cbn in Hin; [lia|eauto]. }
      assert (∃ r, rest = u :: r) as [r ->].
      { rewrite <- (concat_chars rest), Ha. cbn. eauto. }
      intros x y Hx [= <-]. destruct c as [|x1 [|x2 [|]]]; cbn in Hc; try lia.
      * cbn in Hx. injection Hx as ->. cbn in E.
        destruct (is_high_surrogate x && is_low_surrogate u); [discriminate E|done].
      * cbn in Hx, E. injection Hx as ->.
        destruct (is_high_surrogate x1 && is_low_surrogate x) eqn:Ex; [|discriminate E].
        apply andb_prop in Ex as [_ Ex]. unfold is_high_surrogate, is_low_surrogate in *. lia.
Qed.

Lemma chars_suffix l : ∀ a b, chars l = a ++ b → chars (concat b) = b.
Proof.
  induction l as [|c rest E Hc IH] using chars_ind; intros a b Hab.
  - destruct a, b; done || discriminate Hab.
  - destruct a as [|c' a].
    + cbn in Hab. by rewrite <- Hab, concat_chars.
    + rewrite E in Hab. injection Hab as _ Hab. eauto.
Qed.

Lemma run_of_chars cs l : run_of cs l → chars (concat cs) = cs.
Proof.
  intros (a & b & E). apply chars_suffix in E. eapply chars_prefix. exact E.
Qed.

Lemma run_of_refl l : run_of (chars l) l.
Proof. exists [], []. by rewrite app_nil_r. Qed.

Lemma run_of_trans l1 l2 l3 : run_of (chars l1) l2 → run_of (chars l2) l3 → run_of (chars l1) l3.
Proof.
  intros (a1 & b1 & E1) (a2 & b2 & E2). exists (a2 ++ a1), (b1 ++ b2).
  by rewrite E2, E1, <- !app_assoc.
Qed.

Lemma run_of_take n cs l : run_of cs l → run_of (take n cs) l.
Proof.
  intros (a & b & E). exists a, (drop n cs ++ b).
  by rewrite E, (app_assoc (take n cs)), take_drop.
Qed.

Lemma run_of_prefix l1 l2 : boundary l1 l2 → run_of (chars l1) (l1 ++ l2).
Proof. intros Hb. exists [], (chars l2). by rewrite chars_boundary_app. Qed.

Lemma run_of_suffix l1 l2 : boundary l1 l2 → run_of (chars l2) (l1 ++ l2).
Proof. intros Hb. exists (chars l1), []. by rewrite chars_boundary_app, app_nil_r. Qed.

Lemma char_bytes_pos c : 1 ≤ char_bytes c ≤ 4.
Proof. unfold char_bytes. repeat case_match; lia. Qed.

Lemma bytes_nonneg cs : 0 ≤ sumZ char_bytes cs.
Proof. apply sumZ_nonneg. intros c _. pose proof (char_bytes_pos c). lia. Qed.

Lemma run_of_bytes l1 l2 : run_of (chars l1) l2 → byteLength l1 ≤ byteLength l2.
Proof.
  intros (a & b & E). unfold byteLength. rewrite E, !sumZ_app.
  pose proof (bytes_nonneg a). pose proof (bytes_nonneg b). lia.
Qed.

Lemma length_le_bytes l : lengthZ l ≤ byteLength l.
Proof.
  unfold byteLength. induction l as [|c rest E Hc IH] using chars_ind; [done|].
  rewrite E, lengthZ_app. cbn -[char_bytes]. fold (sumZ char_bytes (chars rest)).
  assert (lengthZ c ≤ char_bytes c); [|lia].
  destruct c as [|u [|v [|]]]; cbn in Hc; try lia; unfold lengthZ; cbn; repeat case_match; lia.
Qed.

(** ** Lemmas: trimming and atoms *)

Lemma boundary_spaces_r s l : Forall (fun u => is_space u = true) s → boundary s l.
Proof.
  intros Hs. destruct s as [|u s _] using rev_ind; [apply boundary_nil_l|].
  apply Forall_app in Hs as [_ [? _]%Forall_cons]. by apply boundary_space_r.
Qed.

Lemma boundary_spaces_l l s : Forall (fun u => is_space u = true) s → boundary l s.
Proof.
  intros Hs. destruct s as [|u s]; [apply boundary_nil_r|].
  apply Forall_cons in Hs as [? _]. by apply boundary_space_l.
Qed.

Lemma trim_run l : run_of (chars (trim_units l)) l.
Proof.
  destruct (trim_units_split l) as (s1 & s2 & E & Hs1 & Hs2 & _ & _). rewrite E at 2.
  eapply run_of_trans; [|apply run_of_suffix; by apply boundary_spaces_r].
  apply run_of_prefix. by apply boundary_spaces_l.
Qed.

(** Counting atoms by code units. *)
Fixpoint unit_atoms (inAtom : bool) (l : list Z) : Z :=
  match l with
  | [] => 0
  | u :: l => if is_space u then unit_atoms false l
              else (if inAtom then 0 else 1) + unit_atoms true l
  end.

Lemma count_atoms_units b l : count_atoms b (chars l) = unit_atoms b l.
Proof.
  revert b. induction l as [|c rest E Hc IH] using chars_ind; intros b; [done|]. rewrite E.
  destruct c as [|u [|v [|]]]; cbn in Hc; try lia; cbn -[is_space].
  - rewrite orb_false_r, !IH. done.
  - cbn -[is_high_surrogate is_low_surrogate] in E.
    destruct (is_high_surrogate u && is_low_surrogate v) eqn:Hp; [|discriminate E].
    apply andb_prop in Hp as [Hu Hv].
    assert (is_space u = false) as -> by (apply not_true_is_false; intros []%is_space_not_surrogate; congruence).
    assert (is_space v = false) as -> by (apply not_true_is_false; intros []%is_space_not_surrogate; congruence).
    cbn. rewrite IH. lia.
Qed.

Lemma unit_atoms_nonneg b l : 0 ≤ unit_atoms b l.
Proof. revert b. induction l as [|u l IH]; intros b; cbn; [lia|]. pose proof (IH true). pose proof (IH false). repeat case_match; lia. Qed.

Lemma unit_atoms_take b n l : unit_atoms b (take n l) ≤ unit_atoms b l.
Proof.
  revert b n. induction l as [|u l IH]; intros b [|n]; cbn; [lia..| |].
  - pose proof (unit_atoms_nonneg true l). pose proof (unit_atoms_nonneg false l). repeat case_match; lia.
  - pose proof (IH true n). pose proof (IH false n). case_match; lia.
Qed.

(** There are as many ends as atoms. *)
Lemma atom_ends_count i b l : lengthZ (atom_ends i b l) = (if b then 1 else 0) + unit_atoms b l.
Proof.
  revert i b. induction l as [|u l IH]; intros i b; cbn.
  - by destruct b.
  - case_match; rewrite ?lengthZ_app, IH; destruct b; unfold lengthZ; cbn; lia.
Qed.

(** The [k]-th end lies behind [k + 1] atoms, after an atom and before a space. *)
Lemma atom_ends_at l : ∀ i b k e, atom_ends i b l !! k = Some e →
  (i ≤ e)%nat ∧ unit_atoms b (take (e - i) l) = Z.of_nat k + (if b then 0 else 1) ∧
  unspaced_last (take (e - i) l) ∧ (∀ u, head (drop (e - i) l) = Some u → is_space u = true).
Proof.
  induction l as [|u l IH]; intros i b k e He; cbn in He.
  - destruct b; [|done]. destruct k; [|done]. injection He as <-. rewrite Nat.sub_diag. done.
  - assert (∀ b' k', atom_ends (S i) b' l !! k' = Some e → (i < e)%nat ∧
      take (e - i) (u :: l) = u :: take (e - S i) l ∧ drop (e - i) (u :: l) = drop (e - S i) l) as Hcut.
    { intros b' k' He'. apply IH in He' as [? _]. replace (e - i)%nat with (S (e - S i)) by lia. done. }
    destruct (is_space u) eqn:Hu.
    + destruct (decide (b = true ∧ k = 0%nat)) as [[-> ->]|Hk].
      * injection He as <-. rewrite Nat.sub_diag. cbn. split_and!; [lia|done|done|]. by intros ? [= <-].
      * assert (∃ k', atom_ends (S i) false l !! k' = Some e ∧
          Z.of_nat k + (if b then 0 else 1) = Z.of_nat k' + 1) as (k' & He' & Ek).
        { destruct b; [|by exists k]. destruct k as [|k]; [naive_solver|]. exists k. split; [done|lia]. }
        destruct (Hcut _ _ He') as (? & -> & ->). apply IH in He' as (_ & Ha & Hl & Hd).
        split_and!; [lia| |..|done].
        -- cbn. by rewrite Hu, Ha.
        -- intros x Hx. destruct (take (e - S i) l) eqn:Et; [cbn in Ha; lia|]. by apply Hl.
    + destruct (Hcut _ _ He) as (? & -> & ->). apply IH in He as (_ & Ha & Hl & Hd).
      split_and!; [lia| |..|done].
      * cbn. rewrite Hu, Ha. destruct b; lia.
      * intros x Hx. destruct (take (e - S i) l); [cbn in Hx; congruence|]. by apply Hl.
Qed.

Lemma atom_ends_first l : ∀ i e, atom_ends i true l !! 0%nat = Some e →
  (i ≤ e)%nat ∧ Forall (fun u => is_space u = false) (take (e - i) l).
Proof.
  induction l as [|u l IH]; intros i e He; cbn in He.
  - injection He as <-. by rewrite Nat.sub_diag.
  - destruct (is_space u) eqn:Hu.
    + injection He as <-. by rewrite Nat.sub_diag.
    + apply IH in He as [? He]. split; [lia|]. replace (e - i)%nat with (S (e - S i)) by lia.
      by constructor.
Qed.

(** The text up to an end: a run of the code points with so many atoms, trimmed. *)
Lemma atom_cut text i e :
  at_index (atomEndOffsets text) i = Some e → unspaced_head text →
  run_of (chars (take e text)) text ∧ countQueryAtoms (take e text) = i + 1 ∧
  unspaced_head (take e text) ∧ unspaced_last (take e text).
Proof.
  unfold at_index, countQueryAtoms. destruct (i <? 0) eqn:Hi; [done|]. intros He Hh.
  apply atom_ends_at in He as (_ & Ha & Hl & Hd). rewrite Nat.sub_0_r in *.
  rewrite count_atoms_units, Ha. split_and!; [|lia| |done].
  - rewrite <- (take_drop e text) at 2. apply run_of_prefix.
    destruct (drop e text) as [|v r]; [apply boundary_nil_r|]. apply boundary_space_l. by apply Hd.
  - intros u Hu. apply Hh. by destruct text, e.
Qed.

(** ** Lemmas: the binary search *)

Section search.
Context (fits : Z → bool).

Lemma mid_between low high :
  0 ≤ low ≤ high → high < 2 ^ 30 → low ≤ Z.shiftr (int32 (low + high)) 1 ≤ high.
Proof.
  intros ? ?. rewrite int32_small by lia. rewrite <- Z.div2_spec, Z.div2_div. split; [apply Z.div_le_lower_bound | apply Z.div_le_upper_bound]; lia.
Qed.

Lemma largest_fit_sound fuel : ∀ low high best, 0 ≤ low → high < 2 ^ 30 →
  let r := largest_fit fuel fits low high best in
  r = best ∨ (low ≤ r ≤ high ∧ fits r = true).
Proof.
  induction fuel as [|fuel IH]; intros low high best Hlow Hhigh; cbn; [by left|].
  destruct (low <=? high) eqn:Hle; [|by left].
  pose proof (mid_between low high ltac:(lia) Hhigh) as Hmid.
  set (mid := Z.shiftr (int32 (low + high)) 1) in *. clearbody mid. destruct (fits mid) eqn:Hf.
  - destruct (IH (mid + 1) high mid ltac:(lia) Hhigh) as [->|[? ?]]; right; split; done || lia.
  - destruct (IH low (mid - 1) best ltac:(lia) ltac:(lia)) as [->|[? ?]]; [by left|right; split; done || lia].
Qed.

Lemma largest_fit_greatest fuel : (∀ i j, 0 ≤ i ≤ j → fits j = true → fits i = true) →
  ∀ low high best, 0 ≤ low → high < 2 ^ 30 → high - low < Z.of_nat fuel → best < low →
  ∀ i, low ≤ i ≤ high → fits i = true → i ≤ largest_fit fuel fits low high best.
Proof.
  intros Hmono. induction fuel as [|fuel IH]; intros low high best Hlow Hhigh Hfuel Hbest i Hi Hf; cbn.
  { lia. }
  rewrite (proj2 (Z.leb_le low high)) by lia.
  pose proof (mid_between low high ltac:(lia) Hhigh) as Hmid.
  set (mid := Z.shiftr (int32 (low + high)) 1) in *. clearbody mid. destruct (fits mid) eqn:Hfm.
  - destruct (decide (i ≤ mid)).
    + destruct (largest_fit_sound fuel (mid + 1) high mid) as [->|[? _]]; lia.
    + apply IH; done || lia.
  - apply IH; try done; try lia. split; [lia|]. destruct (decide (i < mid)); [lia|].
    rewrite (Hmono mid i) in Hfm; [done|lia|done].
Qed.

Lemma search_sound upper :
  upper < 2 ^ 30 → 0 <= binarySearchLargestFit upper fits →
  binarySearchLargestFit upper fits ≤ upper ∧ fits (binarySearchLargestFit upper fits) = true.
Proof.
  intros Hu H0. unfold binarySearchLargestFit in *.
  destruct (largest_fit_sound (Z.to_nat (upper + 1)) 0 upper (-1) ltac:(lia) Hu) as [E|[? ?]]; [lia|].
  by split; [lia|].
Qed.
End search.

(** ** Lemmas: byte prefixes *)

Lemma prefix_end_spec maxBytes cs : ∀ b, ∃ k,
  prefix_end maxBytes b cs = length (concat (take k cs)) ∧
  (b ≤ maxBytes → b + sumZ char_bytes (take k cs) ≤ maxBytes) ∧
  (∀ c, cs !! k = Some c → maxBytes < b + sumZ char_bytes (take k cs) + char_bytes c).
Proof.
  induction cs as [|c cs IH]; intros b; cbn.
  - exists 0%nat. cbn. split_and!; [done|lia|done].
  - destruct (maxBytes <? b + char_bytes c) eqn:Hm.
    + exists 0%nat. cbn. split_and!; [done|lia|]. intros ? [= <-]. lia.
    + destruct (IH (b + char_bytes c)) as (k & -> & Hle & Hgt). exists (S k). cbn.
      rewrite length_app. fold (sumZ char_bytes (take k cs)). split_and!; [done|lia|].
      intros c' Hc'. specialize (Hgt c' Hc'). lia.
Qed.

Lemma take_concat_chars k l : take (length (concat (take k (chars l)))) l = concat (take k (chars l)).
Proof.
  rewrite <- (concat_chars l) at 2. rewrite <- (take_drop k (chars l)) at 2.
  rewrite concat_app. by rewrite take_app_length.
Qed.

Lemma truncate_spec l maxBytes : 0 ≤ maxBytes →
  run_of (chars (truncateUtf8Bytes l maxBytes)) l ∧ byteLength (truncateUtf8Bytes l maxBytes) ≤ maxBytes.
Proof.
  intros H0. unfold truncateUtf8Bytes. case_match; [split; [apply run_of_refl|lia]|].
  unfold utf8PrefixEnd. cbn [Nat.add]. rewrite drop_0.
  destruct (prefix_end_spec maxBytes (chars l) 0) as (k & -> & Hle & _).
  rewrite take_concat_chars. pose proof (run_of_take k _ _ (run_of_refl l)) as Hrun.
  pose proof (run_of_chars _ _ Hrun) as E. unfold byteLength. rewrite E. split; [done|]. by apply Hle.
Qed.

Lemma offsets_from_at cs : ∀ i k o,
  offsets_from i cs !! k = Some o → o = (i + length (concat (take k cs)))%nat.
Proof.
  induction cs as [|c cs IH]; intros i k o Ho; cbn in Ho; [done|]. destruct k as [|k].
  - injection Ho as <-. cbn. lia.
  - apply IH in Ho as ->. cbn. rewrite length_app. lia.
Qed.

Lemma at_index_lookup {A} (l : list A) i x : at_index l i = Some x → l !! Z.to_nat i = Some x ∧ 0 ≤ i.
Proof. unfold at_index. destruct (i <? 0) eqn:?; [done|]. split; [done|lia]. Qed.

Lemma at_index_is_Some {A} (l : list A) i : 0 ≤ i < lengthZ l → ∃ x, at_index l i = Some x.
Proof.
  unfold at_index, lengthZ. intros Hi. rewrite (proj2 (Z.ltb_ge i 0)) by lia.
  apply lookup_lt_is_Some. lia.
Qed.

(** ** Properties *)

Section properties.
Context (estimateTokens : list Z → Z).

(** What an automatic query is: within the caps, trimmed, and a run of the code
    points of the raw text. *)
Record bounded_cut (raw q : list Z) : Prop := {
  bc_run : run_of (chars q) raw;
  bc_bytes : byteLength q ≤ MAX_QUERY_BYTES;
  bc_atoms : countQueryAtoms q ≤ MAX_QUERY_ATOMS;
  bc_head : unspaced_head q;
  bc_last : unspaced_last q
}.

Lemma bounded_cut_nil raw : bounded_cut raw [].
Proof.
  split; try done. exists [], (chars raw). done.
Qed.

Lemma bounded_cut_step raw t q :
  bounded_cut raw t → run_of (chars q) t → countQueryAtoms q ≤ MAX_QUERY_ATOMS →
  unspaced_head q → unspaced_last q → bounded_cut raw q.
Proof.
  intros [] Hrun Hatoms ??. split; try done; [by eapply run_of_trans|].
  apply run_of_bytes in Hrun. lia.
Qed.

Lemma ends_count t : lengthZ (atomEndOffsets t) = countQueryAtoms t.
Proof. unfold atomEndOffsets, countQueryAtoms. by rewrite atom_ends_count, count_atoms_units. Qed.

(** The cut after the atom cap. *)
Lemma atoms_cut raw t :
  run_of (chars t) raw → byteLength t ≤ MAX_QUERY_BYTES → unspaced_head t → unspaced_last t →
  bounded_cut raw (if MAX_QUERY_ATOMS <? lengthZ (atomEndOffsets t)
                   then slice_at t (atomEndOffsets t) (MAX_QUERY_ATOMS - 1) else t).
Proof.
  intros Hrun Hbytes Hh Hl. rewrite ends_count. destruct (MAX_QUERY_ATOMS <? countQueryAtoms t) eqn:Hm.
  - destruct (at_index_is_Some (atomEndOffsets t) (MAX_QUERY_ATOMS - 1)) as [e He].
    { rewrite ends_count. unfold MAX_QUERY_ATOMS in *. lia. }
    unfold slice_at. rewrite He. cbn [from_option id].
    destruct (atom_cut t _ _ He Hh) as (Hcut & Ha & Hh' & Hl').
    split; try done; [by eapply run_of_trans| |lia].
    apply run_of_bytes in Hcut. lia.
  - split; done || lia.
Qed.

(** The prefix of the text up to a code point of its first atom. *)
Lemma code_point_cut t i o :
  unspaced_head t → t ≠ [] →
  at_index (codePointOffsets (slice_at t (atomEndOffsets t) 0)) i = Some o →
  run_of (chars (take o t)) t ∧ Forall (fun u => is_space u = false) (take o t).
Proof.
  intros Hh Hne Ho. destruct t as [|u t]; [done|].
  assert (is_space u = false) as Hu by by apply Hh.
  destruct (at_index_is_Some (atomEndOffsets (u :: t)) 0) as [e He].
  { rewrite ends_count. unfold countQueryAtoms. rewrite count_atoms_units. cbn. rewrite Hu.
    pose proof (unit_atoms_nonneg true t). lia. }
  unfold slice_at in Ho. rewrite He in Ho. cbn [from_option id] in Ho.
  destruct (atom_cut _ _ _ He Hh) as (Hrun & _).
  assert (Forall (fun v => is_space v = false) (take e (u :: t))) as Hns.
  { apply at_index_lookup in He as [He _]. unfold atomEndOffsets in He. cbn in He. rewrite Hu in He.
    apply atom_ends_first in He as [? He]. replace e with (S (e - 1)) by lia. by constructor. }
  set (a := take e (u :: t)) in *.
  apply at_index_lookup in Ho as [Ho _]. apply offsets_from_at in Ho as ->. cbn [Nat.add].
  set (k := Z.to_nat i).
  assert (take (length (concat (take k (chars a)))) (u :: t) = concat (take k (chars a))) as ->.
  { pose proof (take_concat_chars k a) as Ek. rewrite <- Ek at 2.
    apply (f_equal length) in Ek. rewrite length_take in Ek.
    set (n := length (concat (take k (chars a)))) in *. clearbody n.
    unfold a in *. rewrite length_take in Ek. rewrite take_take. f_equal. lia. }
  pose proof (run_of_take k _ _ (run_of_refl a)) as Hk. rewrite (run_of_chars _ _ Hk). split.
  - pose proof (run_of_trans (concat (take k (chars a))) a (u :: t)) as Ht.
    rewrite (run_of_chars _ _ Hk) in Ht. by apply Ht.
  - rewrite <- take_concat_chars. by apply Forall_take.
Qed.

Lemma nonspace_ends l : Forall (fun u => is_space u = false) l → unspaced_head l ∧ unspaced_last l.
Proof.
  intros Hl. rewrite Forall_forall in Hl. split; intros u Hu; apply Hl.
  - destruct l; [done|]. injection Hu as ->. left.
  - by apply last_Some_elem_of.
Qed.

Lemma chars_length_le l : lengthZ (chars l) ≤ byteLength l.
Proof.
  unfold byteLength. induction (chars l) as [|c cs IH]; [done|]. rewrite lengthZ_cons. cbn -[char_bytes].
  fold (sumZ char_bytes cs). pose proof (char_bytes_pos c). lia.
Qed.

Lemma offsets_length i cs : lengthZ (offsets_from i cs) = lengthZ cs.
Proof. revert i. induction cs as [|c cs IH]; intros i; [done|]. cbn. by rewrite !lengthZ_cons, IH. Qed.

Lemma automatic_sound raw :
  let q := prepareAutomaticQuery estimateTokens raw in
  bounded_cut raw q ∧ (q = [] ∨ tokens_fit estimateTokens q = true).
Proof.
  cbn zeta. unfold prepareAutomaticQuery.
  destruct (truncate_spec raw MAX_QUERY_BYTES ltac:(done)) as [Hrun0 Hbytes0].
  set (t0 := truncateUtf8Bytes raw MAX_QUERY_BYTES) in *.
  pose proof (trim_run t0) as Hrun1. apply run_of_bytes in Hrun1 as Hbytes1.
  destruct (trim_units_split t0) as (_ & _ & _ & _ & _ & Hh & Hl).
  set (t1 := trim_units t0) in *. eapply run_of_trans in Hrun0; [|exact Hrun1].
  case_match eqn:Hempty; [split; [apply bounded_cut_nil|by left]|].
  pose proof (atoms_cut raw t1 Hrun0 ltac:(lia) Hh Hl) as Hcut.
  set (t2 := if MAX_QUERY_ATOMS <? _ then _ else _) in *. clearbody t2.
  destruct (tokens_fit estimateTokens t2) eqn:Hfit; [split; [done|by right]|].
  destruct (decide (t2 = [])) as [->|Hne].
  { cbn. split; [apply bounded_cut_nil|by left]. }
  pose proof (bc_head _ _ Hcut) as Hh2. pose proof (bc_atoms _ _ Hcut) as Ha2.
  case_match eqn:Hatom.
  - apply Z.leb_le in Hatom. pose proof Hatom as H0. apply search_sound in H0 as [Hle Hf];
      [|rewrite ends_count; unfold MAX_QUERY_ATOMS in *; lia].
    set (i := binarySearchLargestFit _ _) in *. clearbody i.
    destruct (at_index_is_Some (atomEndOffsets t2) i) as [e He]; [lia|].
    unfold slice_at in *. rewrite He in *. cbn [from_option id] in *.
    destruct (atom_cut _ _ _ He Hh2) as (Hr & Ha & Hh' & Hl').
    rewrite trim_units_id by done. split; [|by right].
    rewrite ends_count in Hle. apply (bounded_cut_step raw t2); try done. lia.
  - clear Hatom. case_match eqn:Hchar; [|split; [apply bounded_cut_nil|by left]].
    apply Z.leb_le in Hchar. pose proof Hchar as H0. apply search_sound in H0 as [Hle Hf].
    2: { unfold codePointOffsets. rewrite offsets_length.
         set (a := slice_at t2 _ 0). pose proof (chars_length_le a).
         assert (byteLength a ≤ MAX_QUERY_BYTES); [|unfold MAX_QUERY_BYTES in *; lia].
         pose proof (bc_bytes _ _ Hcut). unfold a, slice_at.
         destruct (at_index (atomEndOffsets t2) 0) as [e|] eqn:He; cbn [from_option id].
         - destruct (atom_cut _ _ _ He Hh2) as (Hr & _). apply run_of_bytes in Hr. lia.
         - by rewrite take_ge. }
    set (i := binarySearchLargestFit _ _) in *. clearbody i.
    destruct (at_index_is_Some (codePointOffsets (slice_at t2 (atomEndOffsets t2) 0)) i) as [o Ho]; [lia|].
    assert (slice_at t2 (codePointOffsets (slice_at t2 (atomEndOffsets t2) 0)) i = take o t2) as Es.
    { unfold slice_at at 1. by rewrite Ho. }
    rewrite Es in *.
    destruct (code_point_cut t2 i o Hh2 Hne Ho) as [Hr Hns].
    apply nonspace_ends in Hns as [Hh' Hl'].
    rewrite trim_units_id by done. split; [|by right]. apply (bounded_cut_step raw t2); try done.
    unfold countQueryAtoms in *. rewrite count_atoms_units in *.
    pose proof (unit_atoms_take false o t2). lia.
Qed.
End properties.

(** ** Slicing *)

(** No slice could have taken the first code point of the next one. *)
Fixpoint greedy (maxBytes : Z) (slices : list (list Z)) : Prop :=
  match slices with
  | s :: rest =>
      match rest with
      | s' :: _ => ∀ c, head (chars s') = Some c → maxBytes < byteLength s + char_bytes c
      | [] => True
      end ∧ greedy maxBytes rest
  | [] => True
  end.

Definition fits_bytes (maxBytes : Z) (s : list Z) : Prop := s ≠ [] ∧ byteLength s ≤ maxBytes.

Lemma chars_nil l : chars l = [] → l = [].
Proof. intros E. by rewrite <- (concat_chars l), E. Qed.

Lemma concat_chars_nil text a c : chars text = a ++ c → concat c = [] → c = [].
Proof.
  intros E Hc. destruct c as [|x c]; [done|]. exfalso.
  assert (x ∈ chars text) as Hx by (rewrite E; set_solver). apply chars_pieces in Hx.
  cbn in Hc. apply app_nil in Hc as [-> _]. cbn in Hx. lia.
Qed.

Lemma slices_from_spec text maxBytes : ∀ fuel a b, chars text = a ++ b →
  (length (concat b) ≤ fuel)%nat →
  match slices_from fuel text maxBytes (length (concat a)) with
  | Ok slices => slices ≫= chars = b ∧ Forall (fits_bytes maxBytes) slices ∧ greedy maxBytes slices
  | Err e => e = code_point_too_large ∧ ∃ c, c ∈ b ∧ maxBytes < char_bytes c
  end.
Proof.
  intros fuel. induction fuel as [|fuel IH]; intros a b E Hfuel.
  { cbn. assert (concat b = []) as Hb by (destruct (concat b); [done|cbn in Hfuel; lia]).
    apply (concat_chars_nil text a) in Hb as ->; done. }
  assert (text = concat a ++ concat b) as Etext by (rewrite <- concat_app, <- E; by rewrite concat_chars).
  cbn [slices_from]. assert (length text = length (concat a) + length (concat b))%nat as Elen
    by by rewrite Etext, length_app at 1.
  destruct (decide (b = [])) as [->|Hne].
  { cbn in Elen. assert ((length (concat a) <? length text)%nat = false) as -> by (apply Nat.ltb_ge; lia). done. }
  assert (concat b ≠ []) as Hcb by (intros Hb; by apply (concat_chars_nil text a) in Hb).
  assert (length (concat b) ≠ 0)%nat as Hlb by (by destruct (concat b)).
  assert ((length (concat a) <? length text)%nat = true) as -> by (apply Nat.ltb_lt; lia).
  assert (drop (length (concat a)) text = concat b) as Ed by by rewrite Etext, drop_app_length.
  unfold utf8PrefixEnd. rewrite Ed, (chars_suffix text a b E).
  destruct (prefix_end_spec maxBytes b 0) as (k & Ek & Hle & Hgt). rewrite Ek.
  destruct b as [|c b]; [done|].
  destruct (decide (k = 0%nat)) as [->|Hk].
  { cbn [take concat length]. rewrite Nat.add_0_r, Nat.eqb_refl. cbn. split; [done|].
    exists c. split; [left|]. specialize (Hgt c eq_refl). cbn in Hgt. lia. }
  set (s := take k (c :: b)) in *.
  assert (1 ≤ length (concat s))%nat as Hs.
  { assert (c ∈ chars text) as Hc by (rewrite E; set_solver). apply chars_pieces in Hc.
    unfold s. destruct k; [done|]. cbn. rewrite length_app. lia. }
  assert ((length (concat a) + length (concat s) =? length (concat a))%nat = false) as ->
    by (apply Nat.eqb_neq; lia).
  assert (chars text = (a ++ s) ++ drop k (c :: b)) as E'
    by (rewrite E, <- app_assoc; unfold s; by rewrite take_drop).
  assert (chars (concat s) = s) as Es.
  { apply (run_of_chars s text). exists a, (drop k (c :: b)). by rewrite E', <- app_assoc. }
  assert (maxBytes < 0 ∨ 0 ≤ maxBytes) as [Hneg|Hpos] by lia.
  { exfalso. cbn [prefix_end] in Ek. pose proof (char_bytes_pos c).
    rewrite (proj2 (Z.ltb_lt maxBytes (0 + char_bytes c))) in Ek by lia. lia. }
  assert (fits_bytes maxBytes (concat s)) as Hfits.
  { split; [intros Hnil; rewrite Hnil in Hs; cbn in Hs; lia|]. unfold byteLength. rewrite Es. apply Hle. lia. }
  specialize (IH (a ++ s) (drop k (c :: b)) E').
  rewrite concat_app, length_app in IH.
  assert (length (concat (drop k (c :: b))) ≤ fuel)%nat as Hfuel'.
  { pose proof (f_equal (fun l => length (concat l)) (take_drop k (c :: b))) as Et. cbv beta in Et.
    fold s in Et. rewrite concat_app, length_app in Et. lia. }
  specialize (IH Hfuel').
  assert (slice_between text (length (concat a)) (length (concat a) + length (concat s)) = concat s) as ->.
  { unfold slice_between. rewrite Etext, take_app_add'; [|done]. rewrite drop_app_length.
    rewrite <- (take_drop k (c :: b)), concat_app. fold s. apply take_app_length. }
  cbn. destruct (slices_from fuel text maxBytes _) as [slices|e]; cbn.
  - destruct IH as (Eb & Hall & Hgreedy). split_and!.
    + rewrite Es, Eb. apply take_drop.
    + by constructor.
    + destruct slices as [|s' slices]; [done|]. intros c' Hc'. unfold byteLength. rewrite Es.
      assert ((c :: b) !! k = Some c') as Hk'.
      { rewrite <- (Nat.add_0_r k), <- lookup_drop, <- Eb. cbn. by destruct (chars s'). }
      specialize (Hgt c' Hk'). fold s in Hgt. lia.
    + done.
  - destruct IH as (-> & c' & Hin & Hc'). split; [done|]. exists c'. split; [|done].
    rewrite <- (take_drop k (c :: b)). apply elem_of_app. by right.
Qed.

Lemma greedy_one maxBytes s : greedy maxBytes [s].
Proof. done. Qed.

Lemma splitUtf8Bytes_ok text maxBytes slices :
  splitUtf8Bytes text maxBytes = Ok slices →
  concat slices = text ∧ (text = [] ∨ Forall (fits_bytes (floorZ maxBytes)) slices).
Proof.
  unfold splitUtf8Bytes. intros E. inv_ok. destruct (byteLength text <=? floorZ maxBytes) eqn:Hle; inv_ok.
  - cbn. rewrite app_nil_r. split; [done|]. destruct (decide (text = [])); [by left|right].
    constructor; [split; [done|lia]|done].
  - pose proof (slices_from_spec text (floorZ maxBytes) (length text) [] (chars text) eq_refl) as Hs.
    rewrite concat_chars in Hs. specialize (Hs ltac:(done)). cbn [concat length] in Hs. rewrite E in Hs.
    destruct Hs as (Hc & Hall & _). split; [|by right]. rewrite <- (concat_chars text), <- Hc. clear.
    induction slices as [|s slices IH]; [done|]. cbn. by rewrite concat_app, concat_chars, <- IH.
Qed.

(** Four bytes take any code point. *)
Lemma splitUtf8Bytes_total text maxBytes :
  is_integral maxBytes = true → nltb maxBytes (nofZ 1) = false → 4 ≤ floorZ maxBytes →
  ∃ slices, splitUtf8Bytes text maxBytes = Ok slices.
Proof.
  intros Hi Hp H4. unfold splitUtf8Bytes. rewrite Hi, Hp. cbn [negb orb throw_if].
  change (Ok () ≫= ?k) with (k ()). cbv beta zeta. destruct (byteLength text <=? floorZ maxBytes); [by eexists|].
  pose proof (slices_from_spec text (floorZ maxBytes) (length text) [] (chars text) eq_refl) as Hs.
  rewrite concat_chars in Hs. specialize (Hs ltac:(done)). cbn [concat length] in Hs.
  destruct (slices_from _ _ _ _) as [slices|e]; [by eexists|].
  destruct Hs as (_ & c & _ & Hc). pose proof (char_bytes_pos c). lia.
Qed.

(** ** Main properties *)

Section main.
Context (estimateTokens : list Z → Z).

(** Automatic queries are acceptable: whatever the raw text and the estimator, the
    query cut from it is a run of its code points that the explicit validator
    accepts unchanged, and a raw text the validator accepts is not cut but only
    trimmed. *)
Theorem automatic_query_accepted raw :
  estimateTokens [] ≤ MAX_QUERY_TOKENS →
  let q := prepareAutomaticQuery estimateTokens raw in
  prepareExplicitQuery estimateTokens q = Ok q ∧
  run_of (chars q) raw ∧
  (∀ q', prepareExplicitQuery estimateTokens raw = Ok q' → q = q').
Proof.
  intros Hnil q. destruct (automatic_sound estimateTokens raw) as [[Hrun Hb Ha Hh Hl] Ht].
  fold q in Hrun, Hb, Ha, Hh, Hl, Ht.
  assert (estimateTokens q ≤ MAX_QUERY_TOKENS) as Hq.
  { destruct Ht as [->|Ht]; [done|]. unfold tokens_fit in Ht. lia. }
  split_and!; [|done|].
  - unfold prepareExplicitQuery. rewrite trim_units_id by done.
    by rewrite !(proj2 (Z.ltb_ge _ _)) by done.
  - intros q' Hex. unfold prepareExplicitQuery in Hex. inv_ok.
    unfold q, prepareAutomaticQuery, truncateUtf8Bytes, tokens_fit.
    rewrite (proj2 (Z.leb_le (byteLength raw) _)) by lia. case_match eqn:He.
    { apply Z.eqb_eq in He. unfold lengthZ in He. by destruct (trim_units raw). }
    rewrite ends_count. rewrite (proj2 (Z.ltb_ge MAX_QUERY_ATOMS _)) by lia.
    by rewrite (proj2 (Z.leb_le _ _)) by lia.
Qed.

End main.

(** Slicing loses nothing: the slices are, in order, the code points of the text,
    none empty, none over the limit and each as long as it can be; it throws
    exactly when the limit is not a positive integer, or the text is over it and
    has a code point that alone is. *)
Theorem utf8_slices text maxBytes :
  match splitUtf8Bytes text maxBytes with
  | Ok slices =>
      slices ≫= chars = chars text ∧ concat slices = text ∧
      (text = [] ∨ Forall (fits_bytes (floorZ maxBytes)) slices) ∧
      greedy (floorZ maxBytes) slices
  | Err max_bytes_not_positive => is_integral maxBytes = false ∨ nltb maxBytes (nofZ 1) = true
  | Err e => e = code_point_too_large ∧ floorZ maxBytes < byteLength text ∧
             ∃ c, c ∈ chars text ∧ floorZ maxBytes < char_bytes c
  end.
Proof.
  unfold splitUtf8Bytes. destruct (negb (is_integral maxBytes) || nltb maxBytes (nofZ 1)) eqn:Hbad.
  { cbn. apply orb_prop in Hbad as [Hbad|]; [left; by apply negb_true_iff|by right]. }
  cbn [throw_if]. change (Ok () ≫= ?k) with (k ()). cbv beta zeta.
  destruct (byteLength text <=? floorZ maxBytes) eqn:Hle.
  - unfold mret, result_ret. cbn. rewrite !app_nil_r. split_and!; try done. destruct (decide (text = [])); [by left|right].
    constructor; [split; [done|lia]|done].
  - pose proof (slices_from_spec text (floorZ maxBytes) (length text) [] (chars text) eq_refl) as Hs.
    rewrite concat_chars in Hs. specialize (Hs ltac:(done)). cbn [concat length] in Hs.
    destruct (slices_from _ _ _ _) as [slices|e].
    + destruct Hs as (Hc & Hall & Hg). split_and!; [done| |by right|done].
      rewrite <- (concat_chars text), <- Hc. clear.
      induction slices as [|s slices IH]; [done|]. cbn. by rewrite concat_app, concat_chars, IH.
    + destruct Hs as [-> (c & Hin & Hc)]. split_and!; [done|lia|]. by exists c.
Qed.

(** The binary search terminates with the largest index whose prefix fits: over a
    monotone test the indices that fit are those up to its result, -1 when there
    is none; over any test the result, when there is one, fits. *)
Theorem binary_search_decides fits upper :
  upper < 2 ^ 30 →
  let r := binarySearchLargestFit upper fits in
  (r = -1 ∨ (0 ≤ r ≤ upper ∧ fits r = true)) ∧
  ((∀ i j, 0 ≤ i ≤ j → fits j = true → fits i = true) →
   ∀ i, 0 ≤ i ≤ upper → (fits i = true ↔ i ≤ r)).
Proof.
  intros Hu r. assert (r = -1 ∨ (0 ≤ r ≤ upper ∧ fits r = true)) as Hr
    by (apply largest_fit_sound; done || lia).
  split; [done|]. intros Hmono i Hi. split.
  - intros Hf. apply largest_fit_greatest; done || lia.
  - intros Hle. destruct Hr as [Hr|[_ Hr]]; [lia|]. eapply Hmono; [|exact Hr]. lia.
Qed.

(** The byte count is the length of the encoding FrameChannel writes. *)
Lemma byteLength_utf8 text : is_units text → byteLength text = lengthZ (utf8 text).
Proof.
  unfold byteLength, utf8, utf8_scalars, is_units.
  induction text as [|c rest E Hc IH] using chars_ind; intros Hu; [done|].
  rewrite E. cbn [sumZ fold_right]. fold (sumZ char_bytes (chars rest)).
  apply Forall_app in Hu as [Hu Hrest]. rewrite (IH Hrest).
  destruct c as [|u [|v [|]]]; cbn in Hc; try lia.
  - apply Forall_cons in Hu as [Hu _].
    assert (scalars ([u] ++ rest) = (scalar_of u, 1%nat) :: scalars rest) as ->.
    { destruct rest as [|v rest]; [done|]. cbn in E |- *.
      destruct (is_high_surrogate u && is_low_surrogate v); [discriminate E|done]. }
    cbn [mbind list_bind]. rewrite lengthZ_app. f_equal.
    unfold char_bytes, utf8_scalar, scalar_of. cbv beta zeta.
    destruct ((55296 <=? u) && (u <=? 57343)) eqn:Es; bool_hyps.
    + rewrite !(proj2 (Z.ltb_ge u _)) by lia. done.
    + repeat case_match; done || lia.
  - cbn -[is_high_surrogate is_low_surrogate] in E. cbn [app scalars].
    destruct (is_high_surrogate u && is_low_surrogate v) eqn:Ep; [|discriminate E].
    unfold is_high_surrogate, is_low_surrogate in Ep. bool_hyps.
    cbn [mbind list_bind]. rewrite lengthZ_app. f_equal.
    unfold char_bytes, utf8_scalar. rewrite !(proj2 (Z.ltb_ge _ _)) by lia. done.
Qed.

(** An id query names one to five positive numbers. *)
Lemma id_query_sound query ids :
  parseIdShapedQuery query = Some ids →
  1 ≤ lengthZ ids ≤ ID_SHAPED_QUERY_MAX_TOKENS ∧
  Forall (fun id => isFinite id = true ∧ nleb id (nofZ 0) = false) ids.
Proof.
  unfold parseIdShapedQuery. repeat (case_match; [done|]). intros Hm.
  apply mapM_Some in Hm. pose proof (Forall2_length _ _ _ Hm) as El. bool_hyps.
  unfold lengthZ in *. split; [lia|]. apply Forall_forall. intros id Hin.
  eapply Forall2_Forall_r with (Q := fun id => isFinite id = true ∧ nleb id (nofZ 0) = false) in Hm.
  - rewrite Forall_forall in Hm. by apply Hm.
  - apply Forall_forall. intros token _ id'. unfold parse_id. case_match; [|done].
    destruct (isFinite _) eqn:Hf; [|done]. destruct (nleb _ _) eqn:Hn; [done|]. by intros [= <-].
Qed.

(** ** Witnesses *)

(** A word of 600 letters at a token each is cut to 512 of them. *)
Lemma automatic_query_accepted_witness :
  prepareAutomaticQuery lengthZ (32 :: repeat 97 600) = repeat 97 512 ∧
  prepareExplicitQuery lengthZ (prepareAutomaticQuery lengthZ (32 :: repeat 97 600)) =
  Ok (prepareAutomaticQuery lengthZ (32 :: repeat 97 600)).
Proof.
  split; [vm_compute; reflexivity|].
  apply (automatic_query_accepted lengthZ (32 :: repeat 97 600)). vm_compute. discriminate.
Defined.

Lemma binary_search_decides_witness :
  binarySearchLargestFit 9 (fun i => i <=? 6) = 6 ∧
  (binarySearchLargestFit 9 (fun i => i <=? 6) = -1 ∨
   (0 ≤ binarySearchLargestFit 9 (fun i => i <=? 6) ≤ 9 ∧
    (binarySearchLargestFit 9 (fun i => i <=? 6) <=? 6) = true)).
Proof.
  split; [vm_compute; reflexivity|].
  apply (binary_search_decides (fun i => i <=? 6) 9). reflexivity.
Defined.
