(* ===== verification/TextSplitter.v ===== *)
(** * The recursive text splitter

    Models packages/plugin/src/features/magic-context/recursive-text-splitter.ts.
    A text is the list of its UTF-16 code units; the length function is a
    parameter, as in the code. *)

From S2P Require Import Prelude JsNumber JsMap JsValue JsString.

(** [separators.length - 1] of no separators is out of range: the separator is
    undefined, and reading its length throws. *)
Inductive split_error := separator_undefined.

Abbreviation text := (list Z).

Definition DEFAULT_SEPARATORS : list text := [[10; 10]; [10]; [32]; []].

(** [text.includes(s)]. *)
Definition text_includes (t s : text) : bool :=
  match after_first Z.eqb s t with Some _ => true | None => false end.

(** [l.join(separator)]. *)
Fixpoint join_units (separator : text) (l : list text) : text :=
  match l with
  | [] => []
  | [s] => s
  | s :: l => s ++ separator ++ join_units separator l
  end.

Definition nonempty (s : text) : bool := match s with [] => false | _ => true end.

Definition splitOnSeparator (t : text) (separator : option text) : list text :=
  List.filter nonempty
    match separator with
    | Some ((_ :: _) as separator) => split_seq (length t) separator [] t
    | _ => (fun u => [u]) <$> t
    end.

Section splitter.
Context (chunkSize : Z) (lengthFunction : text → Z).

(** *** Merging

    [splits.slice(start, end)] with the lengths is the list [cur]. *)

Definition joinDocs (separator : text) (cur : list (text * Z)) : list text :=
  match trim_units (join_units separator cur.*1) with [] => [] | joined => [joined] end.

(** [while (total > 0 && end - start > 0)]. *)
Fixpoint drain (cur : list (text * Z)) (total : Z) : list (text * Z) * Z :=
  match cur with
  | (_, len) :: rest => if 0 <? total then drain rest (total - len) else (cur, total)
  | [] => ([], total)
  end.

Fixpoint merge_loop (separator : text) (docs : list text) (cur : list (text * Z)) (total : Z)
    (splits : list (text * Z)) : list text :=
  match splits with
  | [] => docs ++ joinDocs separator cur
  | (s, len) :: splits =>
      let '(docs, cur, total) :=
        if (chunkSize <? total + len + lengthZ cur * lengthZ separator) && (0 <? lengthZ cur)
        then let '(cur', total') := drain cur total in (docs ++ joinDocs separator cur, cur', total')
        else (docs, cur, total) in
      merge_loop separator docs (cur ++ [(s, len)]) (total + len) splits
  end.

Definition mergeSplits (splits : list (text * Z)) (separator : option text)
    : result split_error (list text) :=
  match separator with
  | None => Err separator_undefined
  | Some separator => mret (merge_loop separator [] [] 0 splits)
  end.

Definition merge_good (good : list (text * Z)) (separator : option text)
    : result split_error (list text) :=
  match good with [] => mret [] | _ => mergeSplits good separator end.

(** *** Recursion *)

(** The loop over the fragments: [deeper] splits one that is too long, when later
    separators remain. *)
Fixpoint gather (separator : option text) (deeper : option (text → result split_error (list text)))
    (good : list (text * Z)) (splits : list text) : result split_error (list text) :=
  match splits with
  | [] => merge_good good separator
  | s :: splits =>
      let len := lengthFunction s in
      if len <? chunkSize then gather separator deeper (good ++ [(s, len)]) splits
      else
        merged ← merge_good good separator;
        sub ← match deeper with None => mret [s] | Some f => f s end;
        rest ← gather separator deeper [] splits;
        mret (merged ++ sub ++ rest)
  end.

(** The first separator that is empty or occurs in the text decides; without one
    it is the last, and none remain. *)
Fixpoint split_by (separators : list text) (fallback : option text) (t : text)
    : result split_error (list text) :=
  match separators with
  | [] => gather fallback None [] (splitOnSeparator t fallback)
  | [] :: _ => gather (Some []) None [] (splitOnSeparator t (Some []))
  | s :: rest =>
      if text_includes t s
      then gather (Some s) (Some (split_by rest (last rest))) [] (splitOnSeparator t (Some s))
      else split_by rest fallback t
  end.

Definition splitTextRecursive (t : text) (separators : list text) : result split_error (list text) :=
  split_by separators (last separators) t.

End splitter.

Definition recursiveCharacterSplit (t : text) (chunkSize : Z) (lengthFunction : option (text → Z))
    (separators : option (list text)) : result split_error (list text) :=
  if lengthZ t =? 0 then mret []
  else splitTextRecursive chunkSize (default lengthZ lengthFunction) t
         (default DEFAULT_SEPARATORS separators).

(** ** Specification *)

(** The text without its white space. *)
Definition strip (t : text) : text := List.filter (fun u => negb (is_space u)) t.

(** A length function like the number of code units: positive on fragments,
    subadditive, at most the number of units, and not larger after trimming. *)
Record measure (M : text → Z) : Prop := {
  ms_pos s : s ≠ [] → 0 < M s;
  ms_app a b : M (a ++ b) ≤ M a + M b;
  ms_units s : M s ≤ lengthZ s;
  ms_trim s : M (trim_units s) ≤ M s
}.

Lemma trim_units_length s : lengthZ (trim_units s) ≤ lengthZ s.
Proof.
  destruct (trim_units_split s) as (a & b & E & _). rewrite E at 2. rewrite !lengthZ_app.
  pose proof (lengthZ_nonneg a). pose proof (lengthZ_nonneg b). lia.
Qed.

Lemma lengthZ_measure : measure lengthZ.
Proof.
  split; [|intros; rewrite lengthZ_app; lia|lia|apply trim_units_length].
  intros [|u s]; [done|]. rewrite lengthZ_cons. pose proof (lengthZ_nonneg s). lia.
Qed.

(** ** Lemmas: content *)

Lemma strip_app a b : strip (a ++ b) = strip a ++ strip b.
Proof. apply List.filter_app. Qed.

Lemma strip_spaces s : Forall (fun u => is_space u = true) s → strip s = [].
Proof. induction 1 as [|u s Hu _ IH]; [done|]. cbn. by rewrite Hu. Qed.

Lemma strip_trim s : strip (trim_units s) = strip s.
Proof.
  destruct (trim_units_split s) as (a & b & E & Ha & Hb & _). rewrite E at 2.
  by rewrite !strip_app, (strip_spaces a), (strip_spaces b), app_nil_r.
Qed.

Definition spaces (s : text) : Prop := Forall (fun u => is_space u = true) s.

Lemma strip_join separator l : spaces separator → strip (join_units separator l) = strip (concat l).
Proof.
  intros Hs. induction l as [|s [|s' l] IH]; [done|by cbn; rewrite app_nil_r|].
  change (join_units separator (s :: s' :: l)) with (s ++ separator ++ join_units separator (s' :: l)).
  cbn [concat]. by rewrite !strip_app, IH, (strip_spaces separator), <- strip_app.
Qed.

Lemma strip_prefix_Some p l rest : strip_prefix Z.eqb p l = Some rest → l = p ++ rest.
Proof.
  revert l. induction p as [|x p IH]; intros l H; cbn in H; [by injection H as ->|].
  destruct l as [|y l]; [done|]. destruct (x =? y) eqn:E; [|done].
  apply Z.eqb_eq in E as ->. cbn. f_equal. auto.
Qed.

Lemma split_seq_join fuel : ∀ separator cur l, separator ≠ [] →
  join_units separator (split_seq fuel separator cur l) = cur ++ l.
Proof.
  induction fuel as [|fuel IH]; intros separator cur l Hs; [done|].
  destruct l as [|u l]; [done|]. cbn [split_seq].
  destruct (strip_prefix Z.eqb separator (u :: l)) as [rest|] eqn:E.
  - apply strip_prefix_Some in E. rewrite E.
    assert (∃ p ps, split_seq fuel separator [] rest = p :: ps) as (p & ps & Ep).
    { pose proof (IH separator [] rest Hs) as Hj.
      destruct (split_seq fuel separator [] rest) eqn:Ep; [|eauto].
      exfalso. revert Ep. generalize (@nil Z). clear. revert rest.
      induction fuel as [|fuel IH]; intros rest cur; cbn; [done|].
      destruct rest; [done|]. case_match; [done|apply IH]. }
    rewrite Ep.
    change (join_units separator (cur :: p :: ps)) with (cur ++ separator ++ join_units separator (p :: ps)).
    by rewrite <- Ep, IH.
  - rewrite IH by done. by rewrite <- app_assoc.
Qed.

Lemma strip_filter l : strip (concat (List.filter nonempty l)) = strip (concat l).
Proof. induction l as [|[|u s] l IH]; cbn; [done|done|]. by rewrite !strip_app, IH. Qed.

Lemma splitOnSeparator_strip t separator :
  spaces separator → strip (concat (splitOnSeparator t (Some separator))) = strip t.
Proof.
  intros Hs. unfold splitOnSeparator. rewrite strip_filter. destruct separator as [|x separator].
  - f_equal. induction t as [|u t IH]; [done|]. cbn. by rewrite IH.
  - change (strip (concat (split_seq (length t) (x :: separator) [] t)) = strip t).
    rewrite <- (strip_join (x :: separator)) by done. by rewrite split_seq_join.
Qed.

Lemma splitOnSeparator_nonempty t separator : Forall (fun s => s ≠ []) (splitOnSeparator t separator).
Proof.
  apply Forall_forall. intros s Hs. unfold splitOnSeparator in Hs.
  apply list_elem_of_In, List.filter_In in Hs as [_ Hs]. by destruct s.
Qed.

Lemma splitOnSeparator_units t : splitOnSeparator t (Some []) = (fun u => [u]) <$> t.
Proof.
  unfold splitOnSeparator. induction t as [|u t IH]; [done|]. cbn. by rewrite IH.
Qed.

(** ** Lemmas: merging *)

Section merging.
(** The splitter emits the trimmed joins of fragments that fit, and the single
    units that do not: chunks of any kind [good] that covers both. *)
Context (chunkSize : Z) (M : text → Z) (good : text → Prop).
Hypothesis Mpos : ∀ s, s ≠ [] → 0 < M s.

(** Fragments with their lengths, as [gather] collects them. *)
Definition measured (l : list (text * Z)) : Prop :=
  Forall (fun x => x.2 = M x.1 ∧ x.1 ≠ [] ∧ x.2 < chunkSize) l.

Definition total_of (l : list (text * Z)) : Z := sumZ snd l.

(** The fragments of [cur] fit. *)
Definition fitting (separator : text) (cur : list (text * Z)) : Prop :=
  cur = [] ∨ total_of cur + (lengthZ cur - 1) * lengthZ separator ≤ chunkSize.

Hypothesis good_join : ∀ separator cur,
  measured cur → fitting separator cur → trim_units (join_units separator cur.*1) ≠ [] →
  good (trim_units (join_units separator cur.*1)).
Hypothesis good_unit : ∀ u, good [u].

Lemma measured_pos l : measured l → Forall (fun x => 0 < x.2) l.
Proof.
  intros Hl. eapply Forall_impl; [exact Hl|]. intros x (-> & Hne & _). by apply Mpos.
Qed.

Lemma drain_all l : Forall (fun x => 0 < x.2) l → drain l (total_of l) = ([], 0).
Proof.
  unfold total_of. induction l as [|[s len] l IH]; intros Hl; [done|].
  apply Forall_cons in Hl as [Hlen Hl]. cbn in *.
  assert (0 ≤ sumZ snd l) as Hnn.
  { apply sumZ_nonneg. intros x Hx. rewrite Forall_forall in Hl. specialize (Hl x Hx). lia. }
  fold (sumZ snd l). rewrite (proj2 (Z.ltb_lt 0 (len + sumZ snd l))) by lia.
  replace (len + sumZ snd l - len) with (sumZ snd l) by lia. auto.
Qed.

Lemma joinDocs_strip separator cur :
  spaces separator → strip (concat (joinDocs separator cur)) = strip (concat cur.*1).
Proof.
  intros Hs. unfold joinDocs. rewrite <- (strip_join separator cur.*1) by done.
  rewrite <- (strip_trim (join_units separator cur.*1)).
  destruct (trim_units (join_units separator cur.*1)); [done|]. cbn. by rewrite app_nil_r.
Qed.

Lemma joinDocs_good separator cur :
  measured cur → fitting separator cur → Forall good (joinDocs separator cur).
Proof.
  intros Hm Hsize. pose proof (good_join separator cur Hm Hsize) as Hg. unfold joinDocs.
  destruct (trim_units (join_units separator cur.*1)); constructor; [by apply Hg|constructor].
Qed.

Lemma merge_docs_spec separator : spaces separator → ∀ splits docs cur,
  measured splits → measured cur → fitting separator cur → Forall good docs →
  let out := merge_loop chunkSize separator docs cur (total_of cur) splits in
  strip (concat out) = strip (concat docs) ++ strip (concat cur.*1) ++ strip (concat splits.*1) ∧
  Forall good out.
Proof.
  intros Hsep splits. induction splits as [|[s len] splits IH]; intros docs cur Hs Hc Hsize Hd; cbn zeta.
  - cbn [merge_loop]. rewrite concat_app, strip_app, joinDocs_strip by done. cbn. rewrite app_nil_r.
    split; [done|]. apply Forall_app. split; [done|by apply joinDocs_good].
  - apply Forall_cons in Hs as [Hx Hs]. cbn [merge_loop].
    assert (∀ l, total_of (l ++ [(s, len)]) = total_of l + len) as Htot
      by (intros l; unfold total_of; rewrite sumZ_app; cbn; lia).
    destruct ((chunkSize <? total_of cur + len + lengthZ cur * lengthZ separator) && (0 <? lengthZ cur))
      eqn:Eover.
    + rewrite drain_all by by apply measured_pos. cbn [app].
      specialize (IH (docs ++ joinDocs separator cur) [(s, len)] Hs).
      change (0 + len) with (total_of [] + len). rewrite <- (Htot []). cbn [app].
      destruct IH as [E Hall].
      * by constructor.
      * right. change (lengthZ [(s, len)]) with 1. destruct Hx as (_ & _ & Hx). cbn in Hx. unfold total_of. cbn. lia.
      * apply Forall_app. split; [done|by apply joinDocs_good].
      * split; [|done]. rewrite E, concat_app, strip_app, joinDocs_strip by done.
        cbn. by rewrite !strip_app, app_nil_r, <- !app_assoc.
    + rewrite <- Htot. specialize (IH docs (cur ++ [(s, len)]) Hs).
      destruct IH as [E Hall]; [by apply Forall_app; split; [|constructor]| |done|].
      * right. rewrite Htot, lengthZ_app. change (lengthZ [(s, len)]) with 1.
        replace (lengthZ cur + 1 - 1) with (lengthZ cur) by lia.
        apply andb_false_iff in Eover as [Eover|Eover]; [lia|].
        assert (lengthZ cur = 0) as E0 by (pose proof (lengthZ_nonneg cur); lia).
        destruct cur; [|rewrite lengthZ_cons in E0; pose proof (lengthZ_nonneg cur); lia].
        destruct Hx as (_ & _ & Hx). cbn in Hx. unfold total_of. cbn. lia.
      * split; [|done]. rewrite E, fmap_app, concat_app, strip_app. cbn.
        by rewrite !strip_app, app_nil_r, <- !app_assoc.
Qed.

Lemma merge_good_spec separator l :
  spaces separator → measured l →
  ∃ docs, merge_good chunkSize l (Some separator) = Ok docs ∧
    strip (concat docs) = strip (concat l.*1) ∧ Forall good docs.
Proof.
  intros Hsep Hl. unfold merge_good. destruct l as [|x l]; [by exists []|].
  eexists. split; [done|].
  destruct (merge_docs_spec separator Hsep (x :: l) [] []) as [E Hall]; [done|constructor|by left|constructor|].
  split; [exact E|exact Hall].
Qed.

(** ** Lemmas: recursion *)

(** What the splitter promises of a text. *)
Definition splits_into (t : text) (r : result split_error (list text)) : Prop :=
  ∃ chunks, r = Ok chunks ∧ strip (concat chunks) = strip t ∧ Forall good chunks.

Lemma gather_spec separator deeper : spaces separator → ∀ splits l,
  Forall (fun s => s ≠ []) splits →
  (∀ s, s ∈ splits → chunkSize ≤ M s →
     match deeper with None => good s | Some f => splits_into s (f s) end) →
  measured l →
  splits_into (concat l.*1 ++ concat splits) (gather chunkSize M (Some separator) deeper l splits).
Proof.
  intros Hsep splits. induction splits as [|s splits IH]; intros l Hne Hdeep Hl; cbn [gather].
  - destruct (merge_good_spec separator l Hsep Hl) as (docs & -> & E & Hall).
    exists docs. cbn. rewrite app_nil_r. done.
  - apply Forall_cons in Hne as [Hs Hne]. destruct (M s <? chunkSize) eqn:Hlen.
    + destruct (IH (l ++ [(s, M s)]) Hne) as (chunks & E & Hstrip & Hall).
      * intros s' Hs'. apply Hdeep. by right.
      * apply Forall_app. split; [done|]. constructor; [|constructor]. cbn. split_and!; done || lia.
      * exists chunks. split_and!; [done| |done]. rewrite Hstrip, fmap_app, concat_app. cbn.
        by rewrite app_nil_r, <- app_assoc.
    + destruct (merge_good_spec separator l Hsep Hl) as (docs & -> & E & Hall).
      assert (splits_into s match deeper with None => mret [s] | Some f => f s end) as (sub & -> & Esub & Hsub).
      { specialize (Hdeep s ltac:(by left) ltac:(lia)). destruct deeper as [f|]; [done|].
        exists [s]. split_and!; [done|by cbn; rewrite app_nil_r|]. constructor; [done|constructor]. }
      destruct (IH [] Hne) as (rest & -> & Erest & Hrest);
        [intros s' Hs'; apply Hdeep; by right|constructor|].
      exists (docs ++ sub ++ rest). split_and!; [done| |by rewrite !Forall_app].
      rewrite !concat_app, !strip_app, E, Esub, Erest. cbn. by rewrite !strip_app.
Qed.

Lemma split_by_spec : ∀ separators fallback t,
  Forall spaces separators → [] ∈ separators →
  splits_into t (split_by chunkSize M separators fallback t).
Proof.
  intros separators. induction separators as [|s rest IH]; intros fallback t Hall Hin; [set_solver|].
  apply Forall_cons in Hall as [Hs Hall].
  assert (∀ deeper, (∀ p, p ∈ splitOnSeparator t (Some s) → chunkSize ≤ M p →
       match deeper with None => good p | Some f => splits_into p (f p) end) →
     splits_into t (gather chunkSize M (Some s) deeper [] (splitOnSeparator t (Some s)))) as Hg.
  { intros deeper Hd.
    destruct (gather_spec s deeper Hs (splitOnSeparator t (Some s)) []) as (chunks & E & Hstrip & Hc);
      [apply splitOnSeparator_nonempty|done|constructor|].
    exists chunks. split_and!; [done| |done]. rewrite Hstrip. cbn. by apply splitOnSeparator_strip. }
  destruct s as [|x s]; cbn [split_by].
  - apply Hg. intros p Hp _. rewrite splitOnSeparator_units in Hp.
    apply list_elem_of_fmap in Hp as (u & -> & _). apply good_unit.
  - apply elem_of_cons in Hin as [|Hin]; [done|]. destruct (text_includes t (x :: s)); [|by apply IH].
    apply Hg. intros p _ _. by apply IH.
Qed.

Lemma recursive_split_spec separators t :
  Forall spaces separators → [] ∈ separators →
  splits_into t (recursiveCharacterSplit t chunkSize (Some M) (Some separators)).
Proof.
  intros Hall Hin. unfold recursiveCharacterSplit. destruct (lengthZ t =? 0) eqn:Ht.
  - assert (t = []) as ->; [|by exists []].
    destruct t as [|u t]; [done|]. rewrite lengthZ_cons in Ht. pose proof (lengthZ_nonneg t). lia.
  - by apply split_by_spec.
Qed.

End merging.

(** Nothing but white space is lost for any length function that is positive on
    fragments. *)
Lemma recursive_split_content M chunkSize separators t :
  (∀ s, s ≠ [] → 0 < M s) → Forall spaces separators → [] ∈ separators →
  splits_into (fun c => c ≠ []) t (recursiveCharacterSplit t chunkSize (Some M) (Some separators)).
Proof. intros HM. apply recursive_split_spec; done. Qed.

Lemma DEFAULT_SEPARATORS_spaces : Forall spaces DEFAULT_SEPARATORS ∧ [] ∈ DEFAULT_SEPARATORS.
Proof. unfold DEFAULT_SEPARATORS. split; [repeat constructor|do 3 right; left]. Qed.

(** A measure bounds the joins that fit. *)
Lemma join_measure chunkSize M separator l : measure M →
  measured chunkSize M l → l ≠ [] →
  M (join_units separator l.*1) ≤ total_of l + (lengthZ l - 1) * lengthZ separator.
Proof.
  unfold total_of. induction l as [|[s len] l IH]; intros HM Hl Hne; [done|].
  apply Forall_cons in Hl as [(Hlen & _ & _) Hl]. cbn in Hlen. subst len.
  destruct l as [|y l].
  - cbn. rewrite lengthZ_cons. unfold lengthZ at 1. cbn. lia.
  - specialize (IH HM Hl ltac:(done)).
    change (join_units separator ((s, M s) :: y :: l).*1)
      with (s ++ separator ++ join_units separator (y :: l).*1).
    pose proof (ms_app M HM s (separator ++ join_units separator (y :: l).*1)).
    pose proof (ms_app M HM separator (join_units separator (y :: l).*1)).
    pose proof (ms_units M HM separator). rewrite lengthZ_cons.
    change (sumZ snd ((s, M s) :: y :: l)) with (M s + sumZ snd (y :: l)). lia.
Qed.


(** ** The property *)

(** The splitter ends, loses nothing but white space and keeps to its size: over
    white-space separators ending in the empty one, and a length function like
    the number of code units, it returns chunks that are not empty, are at most
    the size long and whose other characters are those of the text in order. *)
Theorem split_sound chunkSize M separators t :
  1 ≤ chunkSize → measure M → Forall spaces separators → [] ∈ separators →
  ∃ chunks, recursiveCharacterSplit t chunkSize (Some M) (Some separators) = Ok chunks ∧
    strip (concat chunks) = strip t ∧ Forall (fun c => c ≠ [] ∧ M c ≤ chunkSize) chunks.
Proof.
  intros Hsize HM. apply (recursive_split_spec chunkSize M (fun c => c ≠ [] ∧ M c ≤ chunkSize)).
  - apply HM.
  - intros separator cur Hm Hfit Hne. split; [done|]. destruct Hfit as [->|Hfit]; [done|].
    destruct cur as [|x cur]; [done|].
    pose proof (ms_trim M HM (join_units separator (x :: cur).*1)).
    pose proof (join_measure chunkSize M separator (x :: cur) HM Hm ltac:(done)). lia.
  - intros u. split; [done|]. pose proof (ms_units M HM [u]) as Hu. change (lengthZ [u]) with 1 in Hu. lia.
Qed.

(** Twelve units at most: the words of two paragraphs, and a word that is too long. *)
Lemma split_sound_witness :
  recursiveCharacterSplit (code_units "to be or not to be"%string ++ [10; 10] ++ repeat 97 14) 12 (Some lengthZ)
    (Some DEFAULT_SEPARATORS) =
  Ok [code_units "to be or not"; code_units "to be"; repeat 97 12; repeat 97 2]%string ∧
  ∃ chunks, recursiveCharacterSplit (code_units "to be or not to be"%string ++ [10; 10] ++ repeat 97 14) 12
              (Some lengthZ) (Some DEFAULT_SEPARATORS) = Ok chunks ∧
    strip (concat chunks) = strip (code_units "to be or not to be"%string ++ [10; 10] ++ repeat 97 14) ∧
    Forall (fun c => c ≠ [] ∧ lengthZ c ≤ 12) chunks.
Proof.
  split; [vm_compute; reflexivity|]. apply (split_sound 12 lengthZ); [lia|apply lengthZ_measure|apply DEFAULT_SEPARATORS_spaces..].
Defined.
