(* ===== verification/EmbeddingChunks.v ===== *)
(** * Embedding windows of compartments

    Models the text side of
    packages/plugin/src/features/magic-context/compartment-chunk-embedding.ts: the
    canonical text of a compartment, from indexed rows or from a chunk in memory,
    and its division into windows an embedding provider accepts.

    A text is the list of its UTF-16 code units.  The token estimate, the hash and
    the printing of numbers are parameters.  Ordinals are doubles, as they are
    parsed; token counts and lengths are integers. *)

From S2P Require Import Prelude JsNumber JsMap JsValue JsString FrameChannel SearchBounds TextSplitter.

Definition DEFAULT_COMPARTMENT_CHUNK_MAX_INPUT_TOKENS : num := nofZ 512.
Definition CHUNK_WINDOW_SAFETY_RATIO : num := nlit 9 10.

Record FtsChunkRow := { fr_messageOrdinal : value; fr_role : text; fr_content : option text }.

Record CompartmentChunkWindow := {
  cw_windowIndex : Z; cw_startOrdinal : num; cw_endOrdinal : num; cw_text : text; cw_chunkHash : text
}.

(** ** Normalizing *)

Definition isFinitePositiveInteger (v : value) : option num :=
  match v with
  | VNum n => if isFinite n && nltb (nofZ 0) n then Some n else None
  | _ => None
  end.

Definition normalizeCompartmentChunkMaxInputTokens (v : value) : num :=
  match isFinitePositiveInteger v with
  | None => DEFAULT_COMPARTMENT_CHUNK_MAX_INPUT_TOKENS
  | Some n => nmax (nofZ 1) (nfloor n)
  end.

(** [replace(/\s+/g, " ")]. *)
Fixpoint collapse (inSpace : bool) (t : text) : text :=
  match t with
  | [] => []
  | u :: t =>
      if is_space u then (if inSpace then [] else [32]) ++ collapse true t
      else u :: collapse false t
  end.

Definition normalizeContent (t : text) : text := trim_units (collapse false t).

Inductive role_prefix := U | A.
#[export] Instance role_prefix_eq_dec : EqDecision role_prefix.
Proof. solve_decision. Defined.

Definition prefix_unit (r : role_prefix) : Z := match r with U => 85 | A => 65 end.

Definition rolePrefix (role : text) : option role_prefix :=
  if decide (role = code_units "user") then Some U
  else if decide (role = code_units "assistant") then Some A
  else None.

(** The leading digits of a text. *)
Fixpoint take_digits (t : text) : text * text :=
  match t with
  | u :: t' => if is_digit u then let '(ds, rest) := take_digits t' in (u :: ds, rest) else ([], t)
  | [] => ([], [])
  end.

(** [Number.parseInt] of decimal digits. *)
Definition digits_number (ds : text) : num := nofZ (digits_value ds).

(** [Number.parseInt(s, 10)]: leading white space, a sign, then digits. *)
Definition parse_int (t : text) : num :=
  let t := drop_spaces t in
  let '(negative, t) :=
    match t with
    | u :: t' => if u =? 45 then (true, t') else if u =? 43 then (false, t') else (false, t)
    | [] => (false, [])
    end in
  match (take_digits t).1 with
  | [] => NaN
  | ds => if negative then nofZ (- digits_value ds) else digits_number ds
  end.

(** [/^\[(\d+)(?:-(\d+))?\]\s+[UA]:/]: the ordinals, the white space, the role and
    the rest. *)
Definition match_header (t : text) : option (text * option text * text * Z * text) :=
  match t with
  | 91 :: t =>
      let '(first, t) := take_digits t in
      let '(second, t) :=
        match t with
        | 45 :: t' => let '(ds, t'') := take_digits t' in
                      if nonempty ds then (Some ds, t'') else (None, t)
        | _ => (None, t)
        end in
      match first, t with
      | _ :: _, 93 :: t =>
          let rest := drop_spaces t in
          let spaces := take (length t - length rest) t in
          match spaces, rest with
          | _ :: _, r :: 58 :: rest =>
              if (r =? 85) || (r =? 65) then Some (first, second, spaces, r, rest) else None
          | _, _ => None
          end
      | _, _ => None
      end
  | _ => None
  end.

Definition header_range (first : text) (second : option text) : num * num :=
  let start := digits_number first in
  (start, match second with Some ds => digits_number ds | None => start end).

Definition parseCanonicalLineRange (line : text) : option (num * num) :=
  match match_header (trim_units line) with
  | None => None
  | Some (first, second, _, _, _) =>
      let '(start, end_) := header_range first second in
      if negb (isFinite start) || negb (isFinite end_) then None else Some (start, end_)
  end.

(** [split(/\r?\n/)]. *)
Fixpoint split_lines (cur t : text) : list text :=
  match t with
  | [] => [cur]
  | u :: t =>
      if u =? 10 then cur :: split_lines [] t
      else match t with
           | v :: t' => if (u =? 13) && (v =? 10) then cur :: split_lines [] t' else split_lines (cur ++ [u]) t
           | [] => [cur ++ [u]]
           end
  end.

Section engine.
Context `{Engine}.

Definition number_units (n : num) : text := code_units (numberToString n).

Definition formatOrdinalRange (start end_ : num) : text :=
  if neqb start end_ then [91] ++ number_units start ++ [93]
  else [91] ++ number_units start ++ [45] ++ number_units end_ ++ [93].

(** *** Canonical text from indexed rows *)

Definition parseOrdinal (v : value) : option num :=
  let parsed :=
    match v with
    | VNum n => n
    | _ => parse_int (code_units (js_String (coalesce v (VStr ""))))
    end in
  if isFinite parsed && nltb (nofZ 0) parsed then Some parsed else None.

Record open_line := { ol_role : role_prefix; ol_start : num; ol_end : num; ol_parts : list text }.

Definition render_line (line : open_line) : text :=
  formatOrdinalRange (ol_start line) (ol_end line) ++ [32; prefix_unit (ol_role line); 58; 32] ++
  join_units [32; 47; 32] (ol_parts line).

(** [flush]. *)
Definition flush_line (lines : list text) (current : option open_line) : list text :=
  match current with
  | None => lines
  | Some line => match ol_parts line with [] => lines | _ => lines ++ [render_line line] end
  end.

Fixpoint build_lines (lines : list text) (current : option open_line) (rows : list FtsChunkRow)
    : list text :=
  match rows with
  | [] => flush_line lines current
  | row :: rows =>
      let ordinal := parseOrdinal (fr_messageOrdinal row) in
      let prefix := rolePrefix (fr_role row) in
      let content := match fr_content row with Some c => normalizeContent c | None => [] end in
      match ordinal, prefix, content with
      | Some ordinal, Some prefix, _ :: _ =>
          let opened := {| ol_role := prefix; ol_start := ordinal; ol_end := ordinal;
                           ol_parts := [content] |} in
          match current with
          | Some line =>
              if decide (ol_role line = prefix) then
                build_lines lines
                  (Some {| ol_role := prefix; ol_start := ol_start line; ol_end := ordinal;
                           ol_parts := ol_parts line ++ [content] |}) rows
              else build_lines (flush_line lines current) (Some opened) rows
          | None => build_lines lines (Some opened) rows
          end
      | _, _, _ => build_lines lines current rows
      end
  end.

(** [rows] is what the statement selects: the session's user and assistant rows
    between the ordinals, in order. *)
Definition buildCanonicalChunkTextFromFts (rows : list FtsChunkRow) (startOrdinal endOrdinal : num)
    : text :=
  if nltb endOrdinal startOrdinal then [] else join_units [10] (build_lines [] None rows).

(** The row of the compartment; a column that is not a string is [None]. *)
Definition buildCompartmentSummaryFallbackText
    (row : option (option text * option text * option text)) : text :=
  match row with
  | None => []
  | Some (title, p1, content) =>
      let title := match title with Some s => trim_units s | None => [] end in
      let p1 := match p1 with Some s => trim_units s | None => [] end in
      let body := if 0 <? lengthZ p1 then p1
                  else match content with Some s => trim_units s | None => [] end in
      join_units [10] (List.filter nonempty [title; body])
  end.

(** *** Canonical text from a chunk in memory *)

Definition is_line_terminator (u : Z) : bool := existsb (Z.eqb u) [10; 13; 0x2028; 0x2029].

Definition is_tool_call (part : text) : bool :=
  match strip_prefix Z.eqb (code_units "TC:") part with Some _ => true | None => false end.

(** [startOrdinal != null && ordinal < startOrdinal], and the other bound. *)
Definition below (bound : option num) (ordinal : num) : bool :=
  match bound with Some b => nltb ordinal b | None => false end.
Definition above (bound : option num) (ordinal : num) : bool :=
  match bound with Some b => nltb b ordinal | None => false end.

Fixpoint numbered (lineStart : num) (index : Z) (parts : list text) : list (num * text) :=
  match parts with
  | [] => []
  | part :: parts => (nadd lineStart (nofZ index), part) :: numbered lineStart (index + 1) parts
  end.

Definition canonical_line (startOrdinal endOrdinal : option num) (line : text) : list text :=
  match match_header line with
  | None => []
  | Some (first, second, spaces, r, rest) =>
      let content := drop_spaces rest in
      let '(lineStart, lineEnd) := header_range first second in
      if existsb is_line_terminator content then []
      else if below startOrdinal lineEnd then []
      else if above endOrdinal lineStart then []
      else
        let rawParts := List.filter nonempty
                          (normalizeContent <$> split_seq (length content) [32; 47; 32] [] content) in
        let ordinalSpan := nadd (nsub lineEnd lineStart) (nofZ 1) in
        let header := [91] ++ first ++ match second with Some ds => 45 :: ds | None => [] end
                      ++ [93] ++ spaces ++ [r; 58] in
        let roleLabel := drop 1 spaces ++ [r; 58] in
        if neqb ordinalSpan (nofZ (lengthZ rawParts)) then
          let retained := List.filter (fun op => negb (is_tool_call op.2) &&
                            negb (below startOrdinal op.1) && negb (above endOrdinal op.1))
                            (numbered lineStart 0 rawParts) in
          match head retained, last retained with
          | Some firstPart, Some lastPart =>
              [formatOrdinalRange firstPart.1 lastPart.1 ++ [32] ++ roleLabel ++ [32] ++
               join_units [32; 47; 32] retained.*2]
          | _, _ => []
          end
        else
          match List.filter (fun part => negb (is_tool_call part)) rawParts with
          | [] => []
          | parts => [header ++ [32] ++ join_units [32; 47; 32] parts]
          end
  end.

Definition canonicalizeInMemoryChunkTextForEmbedding (chunkText : text)
    (startOrdinal endOrdinal : option num) : text :=
  join_units [10]
    (concat ((fun rawLine => canonical_line startOrdinal endOrdinal (trim_units rawLine)) <$>
             split_lines [] chunkText)).

End engine.

(** ** Windows *)

Section windows.
Context (estimateTokens : text → Z) (sha256_hex : text → text).

Definition hashChunkText (t : text) : text := sha256_hex t.

(** The inner loop of [charBudgetSplit]: the slice after the halvings. *)
Fixpoint halve (fuel : nat) (effectiveMax : Z) (t : text) (n : nat) : nat :=
  match fuel with
  | O => n
  | S fuel =>
      if (1 <? n)%nat && (effectiveMax <? estimateTokens (take n t))
      then halve fuel effectiveMax t (Nat.max 1 (n / 2))
      else n
  end.

Fixpoint char_slices (fuel : nat) (effectiveMax sliceChars : Z) (t : text) : list text :=
  match fuel with
  | O => []
  | S fuel =>
      match t with
      | [] => []
      | _ =>
          let n := Z.to_nat (Z.min (lengthZ t) sliceChars) in
          let n := halve n effectiveMax t n in
          take n t :: char_slices fuel effectiveMax sliceChars (drop n t)
      end
  end.

Definition charBudgetSplit (t : text) (effectiveMax : Z) : list text :=
  let totalTokens := Z.max 1 (estimateTokens t) in
  let charsPerToken := Z.max 1 (lengthZ t / totalTokens) in
  let sliceChars := Z.max 1 (effectiveMax * charsPerToken) in
  char_slices (length t) effectiveMax sliceChars t.

(** [pushChecked]. *)
Definition checked_slices (effectiveMax : Z) (slice : text) : list text :=
  if (effectiveMax <? estimateTokens slice) && (1 <? lengthZ slice)
  then charBudgetSplit slice effectiveMax else [slice].

Definition safe_slices (effectiveMax : Z) (slice : text) : list text :=
  if estimateTokens slice <=? effectiveMax then [slice]
  else concat (checked_slices effectiveMax <$> charBudgetSplit slice effectiveMax).

Definition splitOversizedLine (line : text) (effectiveMax : Z) : list text :=
  let slices :=
    match recursiveCharacterSplit line effectiveMax (Some estimateTokens) None with
    | Ok slices => slices
    | Err _ => []
    end in
  let slices := match slices with [] => charBudgetSplit line effectiveMax | _ => slices end in
  List.filter nonempty (concat (safe_slices effectiveMax <$> slices)).

(** *** Packing *)

(** [currentLines], [currentStart] and [currentEnd]; no current lines is [None]. *)
Record open_window := { ow_lines : list text; ow_start : num; ow_end : num; ow_tokens : Z }.

Definition push_window (windows : list CompartmentChunkWindow) (start end_ : num) (t : text)
    : list CompartmentChunkWindow :=
  windows ++ [{| cw_windowIndex := lengthZ windows + 1; cw_startOrdinal := start;
                 cw_endOrdinal := end_; cw_text := t; cw_chunkHash := hashChunkText t |}].

(** [flush]. *)
Definition flush_window (windows : list CompartmentChunkWindow) (current : option open_window)
    : list CompartmentChunkWindow :=
  match current with
  | None => windows
  | Some w => push_window windows (ow_start w) (ow_end w) (join_units [10] (ow_lines w))
  end.

Definition line_range (startOrdinal : num) (line : text) : num * num :=
  match parseCanonicalLineRange line with
  | Some range => range
  | None => (startOrdinal, startOrdinal)
  end.

Fixpoint pack_lines (startOrdinal : num) (effectiveMax : Z) (windows : list CompartmentChunkWindow)
    (current : option open_window) (lines : list text) : list CompartmentChunkWindow :=
  match lines with
  | [] => flush_window windows current
  | line :: lines =>
      let '(lineStart, lineEnd) := line_range startOrdinal line in
      let lineTokens := estimateTokens line in
      if effectiveMax <? lineTokens then
        pack_lines startOrdinal effectiveMax
          (foldl (fun windows slice => push_window windows lineStart lineEnd slice)
             (flush_window windows current) (splitOversizedLine line effectiveMax))
          None lines
      else
        let opened := {| ow_lines := [line]; ow_start := lineStart; ow_end := lineEnd;
                         ow_tokens := lineTokens |} in
        match current with
        | None => pack_lines startOrdinal effectiveMax windows (Some opened) lines
        | Some w =>
            if effectiveMax <? ow_tokens w + lineTokens
            then pack_lines startOrdinal effectiveMax (flush_window windows current) (Some opened) lines
            else pack_lines startOrdinal effectiveMax windows
                   (Some {| ow_lines := ow_lines w ++ [line]; ow_start := ow_start w;
                            ow_end := lineEnd; ow_tokens := ow_tokens w + lineTokens |}) lines
        end
  end.

(** *** The byte limit *)

Fixpoint renumber (index : Z) (slices : list (num * num * text)) : list CompartmentChunkWindow :=
  match slices with
  | [] => []
  | (start, end_, t) :: slices =>
      {| cw_windowIndex := index + 1; cw_startOrdinal := start; cw_endOrdinal := end_; cw_text := t;
         cw_chunkHash := hashChunkText t |} :: renumber (index + 1) slices
  end.

Fixpoint split_windows (maxInputBytes : num) (windows : list CompartmentChunkWindow)
    : result bounds_error (list (num * num * text)) :=
  match windows with
  | [] => mret []
  | w :: windows =>
      slices ← splitUtf8Bytes (cw_text w) maxInputBytes;
      rest ← split_windows maxInputBytes windows;
      mret (((fun t => (cw_startOrdinal w, cw_endOrdinal w, t)) <$> slices) ++ rest)
  end.

Definition constrainWindowsByUtf8Bytes (windows : list CompartmentChunkWindow)
    (maxInputBytes : option num) : result bounds_error (list CompartmentChunkWindow) :=
  match maxInputBytes with
  | None => mret windows
  | Some maxInputBytes =>
      if negb (is_integral maxInputBytes) || nltb maxInputBytes (nofZ 1) ||
         forallb (fun w => byteLength (cw_text w) <=? floorZ maxInputBytes) windows
      then mret windows
      else
        slices ← split_windows maxInputBytes windows;
        mret (renumber 0 slices)
  end.

Definition text_lines (canonicalText : text) : list text :=
  List.filter (fun line => 0 <? lengthZ line) (trim_units <$> split_lines [] canonicalText).

Definition effective_max (maxInputTokens : num) : Z :=
  Z.max 1 (floorZ (nmul (normalizeCompartmentChunkMaxInputTokens (VNum maxInputTokens))
                     CHUNK_WINDOW_SAFETY_RATIO)).

Definition chunkCanonicalText (canonicalText : text) (startOrdinal endOrdinal maxInputTokens : num)
    (maxInputBytes : option num) : result bounds_error (list CompartmentChunkWindow) :=
  let lines := text_lines canonicalText in
  match lines with
  | [] => mret []
  | _ =>
      if nltb endOrdinal startOrdinal then mret []
      else
        let effectiveMax := effective_max maxInputTokens in
        let fullText := join_units [10] lines in
        if estimateTokens fullText <=? effectiveMax then
          constrainWindowsByUtf8Bytes
            [{| cw_windowIndex := 0; cw_startOrdinal := startOrdinal; cw_endOrdinal := endOrdinal;
                cw_text := fullText; cw_chunkHash := hashChunkText fullText |}] maxInputBytes
        else
          constrainWindowsByUtf8Bytes (pack_lines startOrdinal effectiveMax [] None lines) maxInputBytes
  end.

End windows.

(** ** Lemmas: slices *)

Section slices.
Context (est : text → Z).

(** A slice the budget allows: within it, or a single unit. *)
Definition small (effectiveMax : Z) (s : text) : Prop := est s ≤ effectiveMax ∨ lengthZ s = 1.

Lemma halve_spec effectiveMax t : ∀ fuel n, (n ≤ fuel)%nat → (1 ≤ n ≤ length t)%nat →
  let k := halve est fuel effectiveMax t n in
  (1 ≤ k ≤ n)%nat ∧ small effectiveMax (take k t).
Proof.
  intros fuel. induction fuel as [|fuel IH]; intros n Hn Hb; [lia|]. cbn [halve].
  destruct ((1 <? n)%nat && (effectiveMax <? est (take n t))) eqn:E.
  - apply andb_true_iff in E as [E _]. apply Nat.ltb_lt in E.
    assert (n / 2 < n)%nat as Hlt by (apply Nat.div_lt; lia).
    assert (1 ≤ n / 2)%nat as Hge by (apply Nat.div_le_lower_bound; lia).
    rewrite Nat.max_r by done. destruct (IH (n / 2)%nat) as [Hk Hs]; [lia..|]. split; [lia|done].
  - split; [lia|]. apply andb_false_iff in E as [E|E].
    + right. apply Nat.ltb_ge in E. unfold lengthZ. rewrite length_take. lia.
    + left. lia.
Qed.

Lemma char_slices_spec effectiveMax sliceChars : 1 ≤ sliceChars → ∀ fuel t, (length t ≤ fuel)%nat →
  let out := char_slices est fuel effectiveMax sliceChars t in
  concat out = t ∧ Forall (fun s => s ≠ [] ∧ small effectiveMax s) out.
Proof.
  intros Hchars fuel. induction fuel as [|fuel IH]; intros t Hlen.
  { cbn. destruct t; [done|cbn in Hlen; lia]. }
  destruct t as [|u t]; [done|]. cbn [char_slices]. cbv zeta.
  set (n := Z.to_nat (Z.min (lengthZ (u :: t)) sliceChars)).
  assert (1 ≤ n ≤ length (u :: t))%nat as Hn by (unfold n, lengthZ; cbn [length]; lia).
  destruct (halve_spec effectiveMax (u :: t) n n ltac:(lia) Hn) as [Hk Hsmall]. cbv zeta in *.
  set (k := halve est n effectiveMax (u :: t) n) in *.
  destruct (IH (drop k (u :: t))) as [Hc Hall]; [rewrite length_drop; lia|].
  cbv zeta in *. cbn [concat]. split; [by rewrite Hc, take_drop|].
  constructor; [|done]. split; [|done]. destruct k; [lia|done].
Qed.

Lemma charBudgetSplit_spec t effectiveMax :
  concat (charBudgetSplit est t effectiveMax) = t ∧
  Forall (fun s => s ≠ [] ∧ small effectiveMax s) (charBudgetSplit est t effectiveMax).
Proof. unfold charBudgetSplit. apply char_slices_spec; lia. Qed.

Lemma checked_slices_spec effectiveMax s : s ≠ [] →
  concat (checked_slices est effectiveMax s) = s ∧
  Forall (fun s => s ≠ [] ∧ small effectiveMax s) (checked_slices est effectiveMax s).
Proof.
  intros Hs. unfold checked_slices. destruct ((effectiveMax <? est s) && (1 <? lengthZ s)) eqn:E.
  - apply charBudgetSplit_spec.
  - cbn. rewrite app_nil_r. split; [done|]. constructor; [|done]. split; [done|]. unfold small.
    apply andb_false_iff in E as [E|E]; [lia|]. right. destruct s; [done|]. rewrite lengthZ_cons in *.
    pose proof (lengthZ_nonneg s). lia.
Qed.

(** Splitting every piece of a text into good pieces splits the text. *)
Lemma concat_pieces (P : text → Prop) (f : text → list text) l :
  Forall (fun s => concat (f s) = s ∧ Forall P (f s)) l →
  concat (concat (f <$> l)) = concat l ∧ Forall P (concat (f <$> l)).
Proof.
  induction 1 as [|s l [Hs Hp] _ [IHc IHp]]; [done|]. cbn.
  rewrite concat_app, Hs, IHc. split; [done|]. by apply Forall_app.
Qed.

Lemma safe_slices_spec effectiveMax s : s ≠ [] →
  concat (safe_slices est effectiveMax s) = s ∧
  Forall (fun s => s ≠ [] ∧ small effectiveMax s) (safe_slices est effectiveMax s).
Proof.
  intros Hs. unfold safe_slices. destruct (est s <=? effectiveMax) eqn:E.
  - cbn. rewrite app_nil_r. split; [done|]. constructor; [|done]. split; [done|]. left. lia.
  - destruct (charBudgetSplit_spec s effectiveMax) as [Hc Hall]. rewrite <- Hc at 2.
    apply concat_pieces. eapply Forall_impl; [exact Hall|]. intros x [Hx _]. by apply checked_slices_spec.
Qed.

Lemma filter_nonempty_id l : Forall (fun s => s ≠ []) l → List.filter nonempty l = l.
Proof. induction 1 as [|[|u s] l Hs _ IH]; [done..|]. cbn. by rewrite IH. Qed.

Lemma splitOversizedLine_spec line effectiveMax :
  (∀ s, s ≠ [] → 0 < est s) →
  strip (concat (splitOversizedLine est line effectiveMax)) = strip line ∧
  Forall (fun s => s ≠ [] ∧ small effectiveMax s) (splitOversizedLine est line effectiveMax).
Proof.
  intros Hpos. unfold splitOversizedLine.
  destruct DEFAULT_SEPARATORS_spaces as [Hsp Hin].
  destruct (recursive_split_content est effectiveMax DEFAULT_SEPARATORS line Hpos Hsp Hin)
    as (chunks & E & Hstrip & Hne).
  change (recursiveCharacterSplit line effectiveMax (Some est) None)
    with (recursiveCharacterSplit line effectiveMax (Some est) (Some DEFAULT_SEPARATORS)).
  rewrite E.
  assert (∃ slices, match chunks with [] => charBudgetSplit est line effectiveMax | _ => chunks end = slices ∧
    strip (concat slices) = strip line ∧ Forall (fun s => s ≠ []) slices) as (slices & -> & Hst & Hall).
  { destruct chunks as [|c chunks]; [|eexists; split; [done|]; by split].
    destruct (charBudgetSplit_spec line effectiveMax) as [Hc Hall]. eexists; split; [done|].
    rewrite Hc. split; [done|]. eapply Forall_impl; [exact Hall|]. by intros ? []. }
  destruct (concat_pieces (fun s => s ≠ [] ∧ small effectiveMax s) (safe_slices est effectiveMax) slices)
    as [Hc Hs].
  { eapply Forall_impl; [exact Hall|]. intros s. apply safe_slices_spec. }
  rewrite filter_nonempty_id; [|eapply Forall_impl; [exact Hs|]; by intros ? []].
  by rewrite Hc.
Qed.

End slices.

(** ** Lemmas: lines *)

Lemma split_lines_strip t : ∀ cur, strip (concat (split_lines cur t)) = strip (cur ++ t).
Proof.
  assert (∀ n t cur, (length t ≤ n)%nat → strip (concat (split_lines cur t)) = strip (cur ++ t)) as H;
    [|intros; by apply (H (length t))].
  intros n. induction n as [|n IH]; intros [|u t'] cur Hn; cbn in Hn;
    try lia; try (cbn; by rewrite app_nil_r).
  cbn [split_lines]. destruct (u =? 10) eqn:Eu.
  { cbn. rewrite !strip_app, IH by lia. f_equal. apply Z.eqb_eq in Eu as ->. done. }
  destruct t' as [|v t'']; [cbn; by rewrite app_nil_r|]. destruct ((u =? 13) && (v =? 10)) eqn:Ev.
  - apply andb_true_iff in Ev as [->%Z.eqb_eq ->%Z.eqb_eq]. cbn in Hn. cbn. rewrite !strip_app, IH by lia. done.
  - rewrite IH by lia. by rewrite <- app_assoc.
Qed.

Lemma strip_text_lines t : strip (concat (text_lines t)) = strip t.
Proof.
  unfold text_lines. rewrite <- (split_lines_strip t [] : strip (concat _) = strip t). generalize (split_lines [] t) as l.
  induction l as [|s l IH]; [done|]. cbn [fmap list_fmap concat List.filter].
  rewrite strip_app, <- IH, <- (strip_trim s).
  destruct (trim_units s) as [|u s'] eqn:E; [done|].
  rewrite lengthZ_cons. rewrite (proj2 (Z.ltb_lt _ _)) by (pose proof (lengthZ_nonneg s'); lia).
  cbn [concat]. by rewrite strip_app.
Qed.

(** A line as [text_lines] keeps it. *)
Definition trimmed (s : text) : Prop := s ≠ [] ∧ unspaced_head s ∧ unspaced_last s.

Lemma text_lines_trimmed t : Forall trimmed (text_lines t).
Proof.
  apply Forall_forall. intros s Hs. unfold text_lines in Hs.
  apply list_elem_of_In, List.filter_In in Hs as [Hs Hl].
  apply list_elem_of_In, list_elem_of_fmap in Hs as (x & -> & _).
  destruct (trim_units_split x) as (? & ? & _ & _ & _ & Hh & Hla). split; [|done].
  destruct (trim_units x); [discriminate Hl|done].
Qed.

(** ** Lemmas: packing *)

Section packing.
Context (est : text → Z) (sha256_hex : text → text) (startOrdinal : num) (effectiveMax : Z).

Local Abbreviation push := (push_window sha256_hex).
Local Abbreviation pack := (pack_lines est sha256_hex startOrdinal effectiveMax).

(** Windows are numbered from one and carry their text's hash. *)
Definition numbered_from (first : Z) (ws : list CompartmentChunkWindow) : Prop :=
  ∀ i w, ws !! i = Some w →
    cw_windowIndex w = Z.of_nat i + first ∧ cw_chunkHash w = sha256_hex (cw_text w).

(** The text of a window is a small slice, or lines whose estimates fit together. *)
Definition in_budget (t : text) : Prop :=
  small est effectiveMax t ∨ ∃ ls, t = join_units [10] ls ∧ sumZ est ls ≤ effectiveMax.

Definition good_window (w : CompartmentChunkWindow) : Prop := cw_text w ≠ [] ∧ in_budget (cw_text w).

Definition good_open (current : option open_window) : Prop :=
  match current with
  | None => True
  | Some w => ow_lines w ≠ [] ∧ Forall (fun l => l ≠ []) (ow_lines w) ∧
              ow_tokens w = sumZ est (ow_lines w) ∧ ow_tokens w ≤ effectiveMax
  end.

Definition open_text (current : option open_window) : text :=
  match current with None => [] | Some w => concat (ow_lines w) end.

Definition windows_text (ws : list CompartmentChunkWindow) : text := concat (cw_text <$> ws).

Lemma push_numbered ws s e t : numbered_from 1 ws → numbered_from 1 (push ws s e t).
Proof.
  intros H i w Hw. apply lookup_app_Some in Hw as [Hw|[Hi Hw]]; [by apply H|].
  apply list_lookup_singleton_Some in Hw as [Hz <-]. cbn. unfold hashChunkText, lengthZ. split; [lia|done].
Qed.

Lemma windows_text_push ws s e t : windows_text (push ws s e t) = windows_text ws ++ t.
Proof. unfold windows_text, push_window. rewrite fmap_app, concat_app. cbn. by rewrite app_nil_r. Qed.

Lemma join_lines_nonempty l : l ≠ [] → Forall (fun s => s ≠ []) l → join_units [10] l ≠ [].
Proof.
  intros Hl Hall. destruct l as [|[|u s] [|s' l]]; try done; apply Forall_cons in Hall as [? _]; done.
Qed.

Lemma newline_spaces : spaces [10].
Proof. by constructor. Qed.

(** What a list of windows is after some text. *)
Definition packed (ws : list CompartmentChunkWindow) (consumed : text) : Prop :=
  numbered_from 1 ws ∧ Forall good_window ws ∧ strip (windows_text ws) = consumed.

Lemma flush_packed ws current t :
  packed ws t → good_open current →
  packed (flush_window sha256_hex ws current) (t ++ strip (open_text current)).
Proof.
  intros (Hn & Hg & Hs) Hc. destruct current as [w|]; cbn; [|by rewrite app_nil_r].
  destruct Hc as (Hne & Hall & Htok & Hmax). split_and!.
  - by apply push_numbered.
  - apply Forall_app. split; [done|]. constructor; [|done]. split; cbn; [by apply join_lines_nonempty|].
    right. exists (ow_lines w). split; [done|lia].
  - rewrite windows_text_push, strip_app, Hs. f_equal. apply strip_join, newline_spaces.
Qed.

Lemma push_slices_packed s e slices : ∀ ws t,
  Forall (fun s => s ≠ [] ∧ small est effectiveMax s) slices → packed ws t →
  packed (foldl (fun ws slice => push ws s e slice) ws slices) (t ++ strip (concat slices)).
Proof.
  induction slices as [|x slices IH]; intros ws t Hall Hp; cbn [foldl concat]; [by rewrite app_nil_r|].
  apply Forall_cons in Hall as [[Hne Hx] Hall]. rewrite strip_app, app_assoc. apply IH; [done|].
  destruct Hp as (Hn & Hg & Hs). split_and!; [by apply push_numbered| |].
  - apply Forall_app. split; [done|]. constructor; [|done]. split; [done|by left].
  - by rewrite windows_text_push, strip_app, Hs.
Qed.

Lemma pack_lines_packed : (∀ s, s ≠ [] → 0 < est s) → ∀ lines ws current t,
  Forall (fun l => l ≠ []) lines → packed ws t → good_open current →
  packed (pack ws current lines) (t ++ strip (open_text current) ++ strip (concat lines)).
Proof.
  intros Hpos lines. induction lines as [|line lines IH]; intros ws current t Hne Hp Hc.
  { cbn. rewrite app_nil_r. by apply flush_packed. }
  apply Forall_cons in Hne as [Hline Hne]. cbn [pack_lines concat]. rewrite strip_app.
  destruct (line_range startOrdinal line) as [ls le]. cbv zeta beta.
  pose proof (flush_packed ws current t Hp Hc) as Hf.
  destruct (effectiveMax <? est line) eqn:Hbig.
  - destruct (splitOversizedLine_spec est line effectiveMax Hpos) as [Hst Hall].
    pose proof (push_slices_packed ls le _ _ _ Hall Hf) as Hslices. rewrite Hst in Hslices.
    pose proof (IH _ None _ Hne Hslices I) as IHn. cbn [open_text] in IHn. by rewrite <- !app_assoc in IHn.
  - assert (good_open (Some {| ow_lines := [line]; ow_start := ls; ow_end := le; ow_tokens := est line |}))
      as Hopen by (cbn; split_and!; [done|by constructor|lia|lia]).
    destruct current as [w|].
    + destruct (effectiveMax <? ow_tokens w + est line) eqn:Hover.
      * pose proof (IH _ _ _ Hne Hf Hopen) as IHn. cbn [open_text ow_lines concat] in IHn.
        by rewrite app_nil_r, <- !app_assoc in IHn.
      * destruct Hc as (Hwne & Hwall & Htok & Hmax).
        pose proof (IH ws (Some {| ow_lines := ow_lines w ++ [line]; ow_start := ow_start w; ow_end := le;
          ow_tokens := ow_tokens w + est line |}) t Hne Hp) as IHn. cbn [open_text ow_lines] in IHn.
        rewrite concat_app, strip_app in IHn. cbn [concat] in IHn. rewrite app_nil_r, <- !app_assoc in IHn.
        apply IHn. cbn [good_open ow_lines ow_tokens]. split_and!; [by destruct (ow_lines w)|by apply Forall_app; split; [|constructor]| |lia].
        rewrite sumZ_app. cbn. lia.
    + pose proof (IH ws _ t Hne Hp Hopen) as IHn. cbn [open_text ow_lines concat] in IHn.
      by rewrite app_nil_r in IHn.
Qed.

End packing.

(** ** Lemmas: the byte limit *)

(** [t] is a piece of [t']. *)
Definition piece_of (t t' : text) : Prop := ∃ a b, t' = a ++ t ++ b.

Lemma concat_pieces_of (l : list text) : Forall (fun t => piece_of t (concat l)) l.
Proof.
  apply Forall_forall. intros t Ht. apply list_elem_of_split in Ht as (l1 & l2 & ->).
  exists (concat l1), (concat l2). by rewrite concat_app.
Qed.

Lemma split_windows_spec limit ws slices :
  split_windows limit ws = Ok slices →
  Forall (fun w => cw_text w ≠ []) ws →
  concat slices.*2 = windows_text ws ∧
  Forall (fun t => fits_bytes (floorZ limit) t ∧ ∃ w, w ∈ ws ∧ piece_of t (cw_text w)) slices.*2.
Proof.
  revert slices. induction ws as [|w ws IH]; intros slices E Hne; cbn [split_windows] in E; inv_ok; [done|].
  apply Forall_cons in Hne as [Hw Hne]. unfold windows_text. cbn [fmap list_fmap concat].
  match goal with H : splitUtf8Bytes _ _ = Ok ?x |- _ => rename H into Hs; rename x into s end.
  apply splitUtf8Bytes_ok in Hs as [Hc [|Hf]]; [done|].
  match goal with H : split_windows _ _ = Ok ?x |- _ => specialize (IH x H Hne) as [IHc IHf] end.
  assert (((fun t => (cw_startOrdinal w, cw_endOrdinal w, t)) <$> s).*2 = s) as Es
    by (clear; induction s as [|x s IH]; [done|cbn; by f_equal]).
  rewrite fmap_app, Es, concat_app, Hc, IHc. split; [done|]. apply Forall_app. split.
  - pose proof (concat_pieces_of s) as Hp. rewrite Hc in Hp. rewrite Forall_forall in Hp, Hf |- *.
    intros t Ht. split; [by apply Hf|]. exists w. split; [by left|by apply Hp].
  - eapply Forall_impl; [exact IHf|]. intros t (Hfit & w' & Hin & Hp). split; [done|].
    exists w'. split; [by right|done].
Qed.

Lemma split_windows_total limit ws :
  is_integral limit = true → nltb limit (nofZ 1) = false → 4 ≤ floorZ limit →
  ∃ slices, split_windows limit ws = Ok slices.
Proof.
  intros Hi Hp H4. induction ws as [|w ws [rest IH]]; [by eexists|]. cbn [split_windows].
  destruct (splitUtf8Bytes_total (cw_text w) limit Hi Hp H4) as [s ->]. rewrite IH. by eexists.
Qed.

Lemma renumber_text sha256_hex i slices : windows_text (renumber sha256_hex i slices) = concat slices.*2.
Proof.
  unfold windows_text. revert i. induction slices as [|[[s e] t] slices IH]; intros i; [done|].
  cbn. f_equal. apply IH.
Qed.

Lemma renumber_texts sha256_hex i slices : cw_text <$> renumber sha256_hex i slices = slices.*2.
Proof. revert i. induction slices as [|[[s e] t] slices IH]; intros i; [done|]. cbn. by rewrite IH. Qed.

Lemma renumber_numbered sha256_hex slices : ∀ n,
  numbered_from sha256_hex (n + 1) (renumber sha256_hex n slices).
Proof.
  induction slices as [|[[s e] t] slices IH]; intros n i w Hw; [done|]. destruct i as [|i].
  - cbn in Hw. injection Hw as <-. cbn. unfold hashChunkText. split; [lia|done].
  - cbn in Hw. destruct (IH (n + 1) i w Hw) as [-> ->]. split; [lia|done].
Qed.

(** The byte limit in effect. *)
Definition byte_limit (maxInputBytes : option num) : option Z :=
  match maxInputBytes with
  | Some limit => if is_integral limit && negb (nltb limit (nofZ 1)) then Some (floorZ limit) else None
  | None => None
  end.

(** What [chunkCanonicalText] promises of its windows: numbered from [first], none
    empty, each a piece of a text in the token budget (the whole of it without a
    byte limit) and within the byte limit. *)
Record good_windows (est : text → Z) (sha256_hex : text → text) (effectiveMax : Z)
    (limit : option Z) (first : Z) (ws : list CompartmentChunkWindow) : Prop := {
  gw_numbered : numbered_from sha256_hex first ws;
  gw_nonempty : Forall (fun w => cw_text w ≠ []) ws;
  gw_bytes : ∀ bytes, limit = Some bytes → Forall (fun w => byteLength (cw_text w) ≤ bytes) ws;
  gw_budget : Forall (fun w => ∃ t, in_budget est effectiveMax t ∧ piece_of (cw_text w) t ∧
                                    (limit = None → cw_text w = t)) ws
}.

Section constrained.
Context (est : text → Z) (sha256_hex : text → text) (effectiveMax : Z).

Lemma piece_of_refl t : piece_of t t.
Proof. exists [], []. by rewrite app_nil_r. Qed.

Lemma unconstrained first ws limit :
  numbered_from sha256_hex first ws → Forall (good_window est effectiveMax) ws →
  (∀ bytes, limit = Some bytes → Forall (fun w => byteLength (cw_text w) ≤ bytes) ws) →
  good_windows est sha256_hex effectiveMax limit first ws.
Proof.
  intros Hn Hg Hb. split; [done| |done|].
  - eapply Forall_impl; [exact Hg|]. by intros w [].
  - eapply Forall_impl; [exact Hg|]. intros w [_ Hw]. exists (cw_text w). split_and!; auto using piece_of_refl.
Qed.

Lemma constrain_spec first ws maxInputBytes :
  numbered_from sha256_hex first ws → Forall (good_window est effectiveMax) ws → first = 0 ∨ first = 1 →
  (∀ bytes, byte_limit maxInputBytes = Some bytes → 4 ≤ bytes) →
  ∃ out first', constrainWindowsByUtf8Bytes sha256_hex ws maxInputBytes = Ok out ∧
    windows_text out = windows_text ws ∧ (first' = 0 ∨ first' = 1) ∧
    good_windows est sha256_hex effectiveMax (byte_limit maxInputBytes) first' out.
Proof.
  intros Hn Hg Hfirst H4. destruct maxInputBytes as [limit|]; cbn [constrainWindowsByUtf8Bytes].
  2: { exists ws, first. split_and!; [done..|]. by apply unconstrained. }
  unfold byte_limit in *. destruct (is_integral limit) eqn:Hi; cbn [negb andb orb].
  2: { exists ws, first. split_and!; [done..|]. by apply unconstrained. }
  destruct (nltb limit (nofZ 1)) eqn:Hl; cbn [negb andb orb].
  { exists ws, first. split_and!; [done..|]. by apply unconstrained. }
  destruct (forallb _ ws) eqn:Hall.
  { exists ws, first. split_and!; [done..|]. apply unconstrained; [done..|]. intros bytes [= <-].
    apply Forall_forall. intros w Hw. rewrite forallb_forall in Hall.
    apply Z.leb_le, Hall. by apply list_elem_of_In. }
  destruct (split_windows_total limit ws Hi Hl (H4 _ eq_refl)) as [slices Hs]. rewrite Hs.
  assert (Forall (fun w => cw_text w ≠ []) ws) as Hne by (eapply Forall_impl; [exact Hg|]; by intros w []).
  destruct (split_windows_spec limit ws slices Hs Hne) as [Hc Hf].
  exists (renumber sha256_hex 0 slices), 1. split_and!; [done| |by right|].
  { by rewrite renumber_text. }
  rewrite <- (renumber_texts sha256_hex 0 slices), Forall_fmap in Hf. split.
  - apply (renumber_numbered sha256_hex slices 0).
  - eapply Forall_impl; [exact Hf|]. by intros w [[? _] _].
  - intros bytes [= <-]. eapply Forall_impl; [exact Hf|]. by intros w [[_ ?] _].
  - eapply Forall_impl; [exact Hf|]. intros w [_ (w' & Hin & Hp)]. exists (cw_text w').
    split_and!; [|done|done]. rewrite Forall_forall in Hg. by apply Hg.
Qed.

End constrained.

Section main.
Context (est : text → Z) (sha256_hex : text → text).

(** C19: The windows of a compartment carry all of its text within the provider's
    limits: whatever the tokenizer, as long as no fragment counts zero tokens, and
    for a byte limit that holds any code point, chunking succeeds, the windows'
    texts are those of the canonical text in order up to white space, none is
    empty, each is at most the byte limit long and a piece of a text in the token
    budget, they are numbered consecutively and hashed. *)
Theorem windows_keep_text canonicalText startOrdinal endOrdinal maxInputTokens maxInputBytes :
  (∀ s, s ≠ [] → 0 < est s) → nltb endOrdinal startOrdinal = false →
  (∀ bytes, byte_limit maxInputBytes = Some bytes → 4 ≤ bytes) →
  ∃ ws first, chunkCanonicalText est sha256_hex canonicalText startOrdinal endOrdinal maxInputTokens
                maxInputBytes = Ok ws ∧
    strip (windows_text ws) = strip canonicalText ∧ (first = 0 ∨ first = 1) ∧
    good_windows est sha256_hex (effective_max maxInputTokens) (byte_limit maxInputBytes) first ws.
Proof.
  intros Hpos Hord H4. rewrite <- (strip_text_lines canonicalText).
  pose proof (text_lines_trimmed canonicalText) as Htr. unfold chunkCanonicalText.
  destruct (text_lines canonicalText) as [|line lines] eqn:El.
  { exists [], 0. split_and!; [done|done|by left|]. apply unconstrained; [done..|]. intros; constructor. }
  rewrite Hord. cbv zeta. rewrite <- El in *.
  assert (Forall (fun l => l ≠ []) (text_lines canonicalText)) as Hne
    by (eapply Forall_impl; [exact Htr|]; by intros l []).
  assert (text_lines canonicalText ≠ []) as Hnn by by rewrite El.
  destruct (est (join_units [10] (text_lines canonicalText)) <=? effective_max maxInputTokens) eqn:Hfit.
  - destruct (constrain_spec est sha256_hex (effective_max maxInputTokens) 0
      [{| cw_windowIndex := 0; cw_startOrdinal := startOrdinal; cw_endOrdinal := endOrdinal;
          cw_text := join_units [10] (text_lines canonicalText);
          cw_chunkHash := hashChunkText sha256_hex (join_units [10] (text_lines canonicalText)) |}]
      maxInputBytes) as (ws & first & E & Ht & Hf & Hw); [| |by left|done|].
    + intros i w Hw. apply list_lookup_singleton_Some in Hw as [-> <-]. done.
    + constructor; [|done]. split; [by apply join_lines_nonempty|]. left. left. cbn [cw_text]. lia.
    + exists ws, first. split_and!; [exact E| |done|done]. rewrite Ht. unfold windows_text. cbn [fmap list_fmap concat cw_text].
      rewrite app_nil_r. apply strip_join, newline_spaces.
  - destruct (pack_lines_packed est sha256_hex startOrdinal (effective_max maxInputTokens) Hpos
      (text_lines canonicalText) [] None [] Hne) as (Hn & Hg & Hs); [|done|].
    { split_and!; [by intros i w Hw|constructor|done]. }
    destruct (constrain_spec est sha256_hex (effective_max maxInputTokens) 1 _ maxInputBytes Hn Hg (or_intror eq_refl) H4)
      as (ws & first & E & Ht & Hf & Hw).
    exists ws, first. split_and!; [exact E| |done|done]. by rewrite Ht, Hs.
Qed.

End main.

(** ** Lemmas: canonical lines

    The engine prints a safe integer with its decimal digits. *)
Section printing.
Context `{Engine}.
Context (numberToString_decimal :
  ∀ n, 0 < n < 2 ^ 53 → code_units (numberToString (nofZ n)) = decimal_units n).

Lemma take_digits_app ds u t :
  Forall (fun u => is_digit u = true) ds → is_digit u = false →
  take_digits (ds ++ u :: t) = (ds, u :: t).
Proof.
  intros Hds Hu. induction Hds as [|d ds Hd _ IH]; cbn; [by rewrite Hu|]. by rewrite Hd, IH.
Qed.

Lemma match_header_plain ds sep r t :
  Forall (fun u => is_digit u = true) ds → ds ≠ [] → r = 85 ∨ r = 65 → sep = [93; 32; r; 58] →
  match_header ([91] ++ ds ++ sep ++ t) = Some (ds, None, [32], r, t).
Proof.
  intros Hds Hne Hr ->. unfold match_header. cbn [app].
  rewrite take_digits_app by done. destruct ds as [|d ds]; [done|].
  destruct Hr as [-> | ->]; cbn [drop_spaces]; cbn -[length Nat.sub]; cbn [length];
    by replace (S (S (S (length t))) - S (S (length t)))%nat with 1%nat by lia.
Qed.

Lemma match_header_range ds1 ds2 sep r t :
  Forall (fun u => is_digit u = true) ds1 → ds1 ≠ [] →
  Forall (fun u => is_digit u = true) ds2 → ds2 ≠ [] → r = 85 ∨ r = 65 → sep = [93; 32; r; 58] →
  match_header ([91] ++ ds1 ++ [45] ++ ds2 ++ sep ++ t) = Some (ds1, Some ds2, [32], r, t).
Proof.
  intros Hds Hne Hds2 Hne2 Hr ->. unfold match_header. cbn [app].
  rewrite take_digits_app by done. rewrite take_digits_app by done.
  destruct ds1 as [|d ds1]; [done|]. destruct ds2 as [|d2 ds2]; [done|]. cbn [nonempty].
  destruct Hr as [-> | ->]; cbn [drop_spaces]; cbn -[length Nat.sub]; cbn [length];
    by replace (S (S (S (length t))) - S (S (length t)))%nat with 1%nat by lia.
Qed.

(** A part of a line: words between single blanks. *)
Definition normalized (p : text) : Prop :=
  trimmed p ∧ Forall (fun u => is_space u = true → u = 32) p.

Lemma collapse_spaces t : ∀ b, Forall (fun u => is_space u = true → u = 32) (collapse b t).
Proof.
  induction t as [|u t IH]; intros b; cbn; [constructor|]. destruct (is_space u) eqn:Hu.
  - destruct b; cbn; [apply IH|]. constructor; [done|apply IH].
  - constructor; [by rewrite Hu|apply IH].
Qed.

Lemma normalizeContent_normalized t : normalizeContent t ≠ [] → normalized (normalizeContent t).
Proof.
  intros Hne. unfold normalizeContent in *.
  destruct (trim_units_split (collapse false t)) as (s1 & s2 & E & _ & _ & Hh & Hl).
  split; [by split|]. pose proof (collapse_spaces t false) as Hc. rewrite E in Hc.
  rewrite !Forall_app in Hc. apply Hc.
Qed.

(** The line of a run of messages with ordinals from [s] to [e]. *)
Definition good_line (line : open_line) (s e : Z) : Prop :=
  ol_start line = nofZ s ∧ ol_end line = nofZ e ∧ 0 < s ≤ e ∧ e < 2 ^ 53 ∧
  ol_parts line ≠ [] ∧ Forall normalized (ol_parts line).

Lemma formatOrdinalRange_shape s e t r : 0 < s ≤ e → e < 2 ^ 53 → r = 85 ∨ r = 65 →
  ∃ first second, match_header (formatOrdinalRange (nofZ s) (nofZ e) ++ [32; r; 58; 32] ++ t)
      = Some (first, second, [32], r, 32 :: t) ∧ header_range first second = (nofZ s, nofZ e) ∧
    Forall (fun u => is_space u = false) (formatOrdinalRange (nofZ s) (nofZ e)).
Proof.
  intros Hse He Hr. unfold formatOrdinalRange, number_units.
  rewrite neqb_nofZ, !numberToString_decimal by lia.
  destruct (decimal_units_spec s) as (Vs & Ds & Ns); [lia|].
  destruct (decimal_units_spec e) as (Ve & De & Ne); [lia|].
  assert (∀ ds, Forall (fun u => is_digit u = true) ds → Forall (fun u => is_space u = false) ds) as Hsp.
  { intros ds Hds. eapply Forall_impl; [exact Hds|]. intros u. unfold is_digit, is_space. cbn. lia. }
  destruct (s =? e) eqn:Ese.
  - apply Z.eqb_eq in Ese as <-. exists (decimal_units s), None. split_and!.
    + rewrite <- !app_assoc. by apply (match_header_plain (decimal_units s) [93; 32; r; 58] r (32 :: t)).
    + unfold header_range, digits_number. by rewrite Vs.
    + rewrite !Forall_app. split_and!; auto.
  - exists (decimal_units s), (Some (decimal_units e)). split_and!.
    + rewrite <- !app_assoc.
      by apply (match_header_range (decimal_units s) (decimal_units e) [93; 32; r; 58] r (32 :: t)).
    + unfold header_range, digits_number. by rewrite Vs, Ve.
    + rewrite !Forall_app. split_and!; auto.
Qed.

Lemma prefix_unit_cases r : prefix_unit r = 85 ∨ prefix_unit r = 65.
Proof. destruct r; cbn; auto. Qed.

Lemma join_parts parts : parts ≠ [] → Forall normalized parts →
  normalized (join_units [32; 47; 32] parts).
Proof.
  intros Hne Hall. induction Hall as [|p parts Hp Hall IH]; [done|].
  destruct parts as [|p' parts]; [done|]. specialize (IH ltac:(done)).
  destruct Hp as [(Hpne & Hh & Hl) Hsp], IH as [(Hne' & Hh' & Hl') Hsp'].
  change (join_units [32; 47; 32] (p :: p' :: parts))
    with (p ++ [32; 47; 32] ++ join_units [32; 47; 32] (p' :: parts)).
  split; [split_and!|].
  - by destruct p.
  - by destruct p.
  - intros u Hu. apply Hl'. rewrite app_assoc, last_app in Hu.
    destruct (last (join_units [32; 47; 32] (p' :: parts))) eqn:E; [done|].
    by apply last_None in E.
  - rewrite !Forall_app. split_and!; [done| |done]. repeat constructor; by intros.
Qed.

(** A rendered line is trimmed, on one line, and its header parses back. *)
Lemma rendered_line line s e : good_line line s e →
  trimmed (render_line line) ∧ Forall (fun u => u ≠ 10 ∧ u ≠ 13) (render_line line) ∧
  parseCanonicalLineRange (render_line line) = Some (nofZ s, nofZ e).
Proof.
  intros (Es & Ee & Hse & He & Hne & Hall). unfold render_line. rewrite Es, Ee.
  destruct (join_parts (ol_parts line) Hne Hall) as [(Hjne & Hjh & Hjl) Hjs].
  set (body := join_units [32; 47; 32] (ol_parts line)) in *.
  destruct (formatOrdinalRange_shape s e body (prefix_unit (ol_role line)) Hse He (prefix_unit_cases _))
    as (first & second & Em & Er & Hsp).
  set (whole := formatOrdinalRange (nofZ s) (nofZ e) ++ [32; prefix_unit (ol_role line); 58; 32] ++ body) in *.
  assert (trimmed whole) as Htr.
  { split_and!.
    - intros E. unfold whole in E. apply app_nil in E as [_ E]. done.
    - intros u Hu. unfold whole, formatOrdinalRange in Hu.
      destruct (neqb _ _); cbn in Hu; injection Hu as <-; done.
    - intros u Hu. apply Hjl. unfold whole in Hu. rewrite app_assoc, last_app in Hu.
      destruct (last body) eqn:E; [done|]. by apply last_None in E. }
  split; [done|]. split.
  - unfold whole. rewrite !Forall_app. split_and!.
    + eapply Forall_impl; [exact Hsp|]. intros u Hu. split; intros ->; discriminate Hu.
    + destruct (prefix_unit_cases (ol_role line)) as [-> | ->]; repeat constructor; lia.
    + eapply Forall_impl; [exact Hjs|]. intros u Hu. split; intros ->; specialize (Hu eq_refl); lia.
  - unfold parseCanonicalLineRange. destruct Htr as (_ & Hh & Hl). rewrite trim_units_id by done.
    rewrite Em, Er.
    destruct (isFinite_nofZ s) as [-> _]; [lia|]. by destruct (isFinite_nofZ e) as [-> _]; [lia|].
Qed.

End printing.

(** ** Lemmas: the order of windows *)

Definition one_line (l : text) : Prop := Forall (fun u => u ≠ 10 ∧ u ≠ 13) l.

Lemma split_lines_app l t : one_line l → ∀ cur, split_lines cur (l ++ 10 :: t) = (cur ++ l) :: split_lines [] t.
Proof.
  induction 1 as [|u l [H10 H13] Hl IH]; intros cur; cbn [app split_lines].
  - rewrite app_nil_r. done.
  - rewrite (proj2 (Z.eqb_neq u 10)), (proj2 (Z.eqb_neq u 13)) by done. cbn [andb].
    specialize (IH (cur ++ [u])). rewrite <- app_assoc in IH. cbn [app] in IH. rewrite <- IH.
    by destruct (l ++ 10 :: t) eqn:E; [apply app_nil in E as [_ [=]]|].
Qed.

Lemma split_lines_one l : one_line l → ∀ cur, split_lines cur l = [cur ++ l].
Proof.
  induction 1 as [|u l [H10 H13] Hl IH]; intros cur; cbn [split_lines]; [by rewrite app_nil_r|].
  rewrite (proj2 (Z.eqb_neq u 10)), (proj2 (Z.eqb_neq u 13)) by done. cbn [andb].
  specialize (IH (cur ++ [u])). rewrite <- app_assoc in IH. cbn [app] in IH.
  destruct l as [|v l]; [by rewrite <- IH|]. by rewrite <- IH.
Qed.

Lemma text_lines_join ls : Forall (fun l => trimmed l ∧ one_line l) ls → text_lines (join_units [10] ls) = ls.
Proof.
  unfold text_lines. induction 1 as [|l ls [(Hne & Hh & Hl) Hone] Hls IH]; [done|].
  assert (∀ t, List.filter (fun line => 0 <? lengthZ line) (trim_units <$> (l :: t)) =
               l :: List.filter (fun line => 0 <? lengthZ line) (trim_units <$> t)) as Hstep.
  { intros t. cbn. rewrite trim_units_id by done. destruct l as [|u l]; [done|]. rewrite lengthZ_cons.
    by rewrite (proj2 (Z.ltb_lt _ _)) by (pose proof (lengthZ_nonneg l); lia). }
  destruct ls as [|l' ls].
  - cbn [join_units]. rewrite split_lines_one by done. cbn [app]. by rewrite Hstep.
  - change (join_units [10] (l :: l' :: ls)) with (l ++ 10 :: join_units [10] (l' :: ls)).
    rewrite split_lines_app by done. cbn [app]. by rewrite Hstep, IH.
Qed.

(** Ranges of ordinals that follow each other. *)
Fixpoint following (low : Z) (spans : list (Z * Z)) : Prop :=
  match spans with
  | [] => True
  | (s, e) :: spans => low < s ∧ s ≤ e ∧ following e spans
  end.

Section order.
Context `{Engine} (est : text → Z) (sha256_hex : text → text).
Context (numberToString_decimal :
  ∀ n, 0 < n < 2 ^ 53 → code_units (numberToString (nofZ n)) = decimal_units n).
Context (a b : Z) (Ha : 0 < a) (Hb : b < 2 ^ 53).

Definition rendered (l : text) (sp : Z * Z) : Prop :=
  ∃ line, l = render_line line ∧ good_line line sp.1 sp.2.

(** Rows as the statement returns them: ordinals between [a] and [b], ascending. *)
Definition indexed (low : Z) (rows : list FtsChunkRow) (ns : list Z) : Prop :=
  fr_messageOrdinal <$> rows = (fun n => VNum (nofZ n)) <$> ns ∧
  Forall (fun n => a ≤ n ≤ b) ns ∧ StronglySorted Z.lt (low :: ns).

Lemma indexed_cons low row rows ns : indexed low (row :: rows) ns →
  ∃ n ns', ns = n :: ns' ∧ parseOrdinal (fr_messageOrdinal row) = Some (nofZ n) ∧
    a ≤ n ≤ b ∧ low < n ∧ indexed n rows ns' ∧ indexed low rows ns'.
Proof.
  intros (E & Hr & Hs). destruct ns as [|n ns]; [done|]. injection E as En E.
  apply Forall_cons in Hr as [Hn Hr]. apply StronglySorted_inv in Hs as [Hs Hlow].
  pose proof Hs as Hs0. apply StronglySorted_inv in Hs0 as [Hs' Hn'].
  apply Forall_cons in Hlow as [Hlow Hlow'].
  exists n, ns. split_and!; try done; try lia.
  - rewrite En. unfold parseOrdinal. destruct (isFinite_nofZ n) as [-> _]; [lia|].
    by rewrite nltb_nofZ, (proj2 (Z.ltb_lt 0 n)) by lia.
  - split_and!; [done..|]. by constructor.
Qed.

Lemma build_lines_acc rows : ∀ lines current,
  build_lines lines current rows = lines ++ build_lines [] current rows.
Proof.
  assert (∀ lines current, flush_line lines current = lines ++ flush_line [] current) as Hf.
  { intros lines [line|]; cbn; [|by rewrite app_nil_r]. destruct (ol_parts line); [by rewrite app_nil_r|done]. }
  induction rows as [|row rows IH]; intros lines current; cbn [build_lines]; [apply Hf|].
  destruct (parseOrdinal (fr_messageOrdinal row)), (rolePrefix (fr_role row)), (match fr_content row with Some c => normalizeContent c | None => [] end);
    try apply IH.
  destruct current as [line|]; [|apply IH]. destruct (decide _); [apply IH|].
  rewrite IH, Hf, (IH (flush_line [] (Some line))). by rewrite app_assoc.
Qed.

Lemma build_lines_spec rows : ∀ ns low low0 current,
  indexed low rows ns →
  match current with
  | None => low = low0
  | Some line => ∃ s, good_line line s low ∧ low0 < s ∧ low ≤ b
  end →
  ∃ spans, Forall2 rendered (build_lines [] current rows) spans ∧ following low0 spans ∧
    Forall (fun sp => sp.2 ≤ b) spans.
Proof.
  assert (∀ line s low low0, good_line line s low → low0 < s → low ≤ b →
    ∃ l, flush_line [] (Some line) = [l] ∧ rendered l (s, low) ∧ s ≤ low) as Hflush.
  { intros line s low low0 Hg Hs Hlow. pose proof Hg as (_ & _ & Hse & _ & Hne & _).
    cbn. destruct (ol_parts line) eqn:E; [done|]. exists (render_line line). split_and!; [done| |lia]. by exists line. }
  induction rows as [|row rows IH]; intros ns low low0 current Hi Hc.
  { cbn [build_lines]. destruct current as [line|]; [|by exists []; split_and!; constructor].
    destruct Hc as (s & Hg & Hs & Hlow). destruct (Hflush line s low low0 Hg Hs Hlow) as (l & -> & Hl & Hle).
    exists [(s, low)]. split_and!; [by constructor|done|by constructor]. }
  apply indexed_cons in Hi as (n & ns' & -> & Hp & Hn & Hlt & Hi & Hi').
  cbn [build_lines]. rewrite Hp. destruct (rolePrefix (fr_role row)) as [r|]; [|by eapply IH].
  assert (∀ content, match fr_content row with Some c => normalizeContent c | None => [] end = content →
    content = [] ∨ normalized content) as Hcontent.
  { intros content <-. destruct (fr_content row) as [c|]; [|by left].
    destruct (decide (normalizeContent c = [])); [by left|right]. by apply normalizeContent_normalized. }
  destruct (match fr_content row with Some c => normalizeContent c | None => [] end) as [|u c] eqn:Ec; [by eapply IH|].
  destruct (Hcontent _ eq_refl) as [|Hnorm]; [done|].
  set (opened := {| ol_role := r; ol_start := nofZ n; ol_end := nofZ n; ol_parts := [u :: c] |}).
  assert (good_line opened n n) as Hopened.
  { split_and!; cbn; try done; try lia. by constructor. }
  destruct current as [line|].
  - destruct Hc as (s & Hg & Hs & Hlow). destruct (decide (ol_role line = r)) as [Er|Er].
    + eapply IH; [exact Hi|]. exists s. destruct Hg as (E1 & E2 & Hse & He & Hne & Hall).
      split_and!; [|done|lia]. split_and!; cbn; try done; try lia.
      * by destruct (ol_parts line).
      * apply Forall_app. split; [done|]. by constructor.
    + rewrite build_lines_acc. destruct (Hflush line s low low0 Hg Hs Hlow) as (l & -> & Hl & Hle).
      destruct (IH ns' n low (Some opened) Hi) as (spans & Hsp & Hfo & Hend).
      { exists n. split_and!; [done|lia|lia]. }
      exists ((s, low) :: spans). cbn [app]. split_and!; [by constructor|done| ]. by constructor.
  - subst low. eapply IH; [exact Hi|]. exists n. split_and!; [done|lia|lia].
Qed.

Lemma rendered_lines ls spans : Forall2 rendered ls spans →
  Forall (fun l => trimmed l ∧ one_line l) ls ∧
  Forall2 (fun l sp => ∀ start, line_range start l = (nofZ sp.1, nofZ sp.2)) ls spans.
Proof.
  induction 1 as [|l sp ls spans (line & -> & Hg) _ [IH1 IH2]]; [by split; constructor|].
  destruct (rendered_line numberToString_decimal line _ _ Hg) as (Htr & Hone & Hp).
  split; constructor; try done. intros start. unfold line_range. by rewrite Hp.
Qed.

(** Windows follow each other, or share the range of one line. *)
Definition before (r r' : Z * Z) : Prop := r = r' ∨ r.2 < r'.1.

Definition window_range (w : CompartmentChunkWindow) : num * num := (cw_startOrdinal w, cw_endOrdinal w).
Definition num_range (r : Z * Z) : num * num := (nofZ r.1, nofZ r.2).

Definition ordered_windows (ws : list (num * num)) (low high : Z) : Prop :=
  ∃ rs, ws = num_range <$> rs ∧ StronglySorted before rs ∧
    Forall (fun r => low ≤ r.1 ∧ r.1 ≤ r.2 ∧ r.2 ≤ high) rs.

Lemma sorted_snoc (rs : list (Z * Z)) r :
  StronglySorted before rs → Forall (fun x => before x r) rs → StronglySorted before (rs ++ [r]).
Proof.
  induction 1 as [|x rs Hrs IH Hx]; intros Hr; cbn; [by repeat constructor|].
  apply Forall_cons in Hr as [Hxr Hr]. constructor; [by apply IH|]. apply Forall_app. by split; [|constructor].
Qed.

Lemma ordered_push ws low mid s e t :
  ordered_windows (window_range <$> ws) low mid → low ≤ s ≤ e →
  mid < s →
  ordered_windows (window_range <$> push_window sha256_hex ws (nofZ s) (nofZ e) t) low e.
Proof.
  intros (rs & E & Hs & Hr) Hse Hmid. exists (rs ++ [(s, e)]). split_and!.
  - unfold push_window. rewrite !fmap_app, E. done.
  - apply sorted_snoc; [done|]. eapply Forall_impl; [exact Hr|]. cbn. intros x Hx. right. cbn. lia.
  - apply Forall_app. split; [eapply Forall_impl; [exact Hr|]; cbn; lia|]. repeat constructor; cbn; lia.
Qed.

Lemma ordered_weaken ws low high high' :
  ordered_windows ws low high → high ≤ high' → ordered_windows ws low high'.
Proof.
  intros (rs & E & Hs & Hr) Hle. exists rs. split_and!; [done..|].
  eapply Forall_impl; [exact Hr|]. cbn. lia.
Qed.

(** The slices of one line share its range. *)
Lemma ordered_push_slices low mid s e slices : low ≤ s ≤ e → mid < s → ∀ ws,
  ordered_windows (window_range <$> ws) low mid →
  ordered_windows (window_range <$>
    foldl (fun ws slice => push_window sha256_hex ws (nofZ s) (nofZ e) slice) ws slices) low e.
Proof.
  intros Hse Hmid ws0 Hws. assert (∀ slices ws k rs, window_range <$> ws = num_range <$> (rs ++ repeat (s, e) k) →
    window_range <$> foldl (fun ws slice => push_window sha256_hex ws (nofZ s) (nofZ e) slice) ws slices =
    num_range <$> (rs ++ repeat (s, e) (k + length slices))) as H'.
  { clear. induction slices as [|x slices IH]; intros ws k rs E; cbn [foldl length].
    - by rewrite Nat.add_0_r.
    - rewrite (IH _ (S k) rs); [by rewrite Nat.add_succ_r|]. unfold push_window.
      rewrite fmap_app, E. cbn [repeat]. rewrite repeat_cons, app_assoc, (fmap_app _ (rs ++ repeat (s, e) k)). done. }
  destruct Hws as (rs & E & Hs & Hr).
  exists (rs ++ repeat (s, e) (length slices)). split_and!.
  - apply (H' slices ws0 0%nat). cbn. by rewrite app_nil_r.
  - generalize (length slices) as k. induction k as [|k IHk]; cbn; [by rewrite app_nil_r|].
    rewrite repeat_cons, app_assoc. apply sorted_snoc; [done|]. apply Forall_app. split.
    + eapply Forall_impl; [exact Hr|]. cbn. intros x Hx. right. cbn. lia.
    + apply Forall_forall. intros x Hx%list_elem_of_In%repeat_spec. by left.
  - apply Forall_app. split; [eapply Forall_impl; [exact Hr|]; cbn; lia|].
    apply Forall_forall. intros x Hx%list_elem_of_In%repeat_spec. subst x. cbn. lia.
Qed.

Lemma pack_lines_ordered startOrdinal effectiveMax ls spans :
  Forall2 (fun l sp => ∀ start, line_range start l = (nofZ sp.1, nofZ sp.2)) ls spans →
  Forall (fun sp => sp.2 ≤ b) spans → ∀ ws current mid,
  a - 1 ≤ mid ≤ b → ordered_windows (window_range <$> ws) a mid →
  match current with
  | None => following mid spans
  | Some w => ∃ s e, ow_start w = nofZ s ∧ ow_end w = nofZ e ∧ mid < s ∧ s ≤ e ≤ b ∧ following e spans
  end →
  ordered_windows (window_range <$> pack_lines est sha256_hex startOrdinal effectiveMax ws current ls) a b.
Proof.
  induction 1 as [|line sp ls spans Hrange _ IH]; intros Hend ws current mid Hmid Hws Hc.
  { cbn [pack_lines]. destruct current as [w|]; cbn [flush_window].
    - destruct Hc as (s & e & Es & Ee & Hs & Hse & _). rewrite Es, Ee.
      apply (ordered_weaken _ _ e); [|lia]. apply (ordered_push ws a mid); done || lia.
    - apply (ordered_weaken _ _ mid); done || lia. }
  apply Forall_cons in Hend as [Hspb Hend]. cbn [pack_lines]. rewrite Hrange. destruct sp as [s e].
  cbn [fst snd] in *. cbv zeta beta.
  (* The windows once the open one is flushed. *)
  assert (∃ mid', mid ≤ mid' ≤ b ∧
    ordered_windows (window_range <$> flush_window sha256_hex ws current) a mid' ∧
    following mid' ((s, e) :: spans)) as (mid' & Hmid' & Hflush & Hfo).
  { destruct current as [w|]; cbn [flush_window]; [|by exists mid; split_and!; done || lia].
    destruct Hc as (s0 & e0 & Es & Ee & Hs & Hse & Hfo). exists e0. rewrite Es, Ee. split_and!; [lia..| |done].
    apply (ordered_push ws a mid); done || lia. }
  cbn [following] in Hfo. destruct Hfo as (Hs & Hse & Hfo).
  destruct (effectiveMax <? est line).
  - apply (IH Hend _ None e); [lia| |done]. apply (ordered_push_slices a mid'); done || lia.
  - destruct current as [w|].
    + destruct (effectiveMax <? ow_tokens w + est line).
      * apply (IH Hend _ (Some _) mid'); [lia|done|]. exists s, e. cbn. split_and!; done || lia.
      * apply (IH Hend ws (Some _) mid); [done..|]. destruct Hc as (s0 & e0 & Es & Ee & Hs0 & Hse0 & Hfo0).
        cbn [following] in Hfo0. exists s0, e. cbn. split_and!; done || lia.
    + apply (IH Hend ws (Some _) mid); [done..|]. cbn [following] in Hc. exists s, e. cbn.
      split_and!; done || lia.
Qed.

Lemma renumber_ranges slices : ∀ i, window_range <$> renumber sha256_hex i slices = slices.*1.
Proof. induction slices as [|[[s e] t] slices IH]; intros i; [done|]. cbn. by rewrite IH. Qed.

(** Cutting windows by bytes repeats their ranges. *)
Lemma split_windows_ordered limit ws slices low high :
  split_windows limit ws = Ok slices →
  ordered_windows (window_range <$> ws) low high → ordered_windows slices.*1 low high.
Proof.
  intros E (rs & Er & Hs & Hr).
  assert (∃ rs', slices.*1 = num_range <$> rs' ∧ StronglySorted before rs' ∧ (∀ r, r ∈ rs' → r ∈ rs))
    as (rs' & E' & Hs' & Hin').
  2: { exists rs'. split_and!; [done..|]. apply Forall_forall. intros r Hin. rewrite Forall_forall in Hr. auto. }
  clear Hr low high. revert slices rs E Er Hs. induction ws as [|w ws IH]; intros slices rs E Er Hs;
    cbn [split_windows] in E; inv_ok.
  { exists []. split_and!; [done|constructor|set_solver]. }
  match goal with H : split_windows _ _ = Ok ?x |- _ => rename H into Er'; rename x into rest end.
  match goal with H : splitUtf8Bytes _ _ = Ok ?x |- _ => rename x into pieces; clear H end.
  destruct rs as [|r rs]; [discriminate Er|]. injection Er as Ew1 Ew2 Er. apply StronglySorted_inv in Hs as [Hs Hrs].
  destruct (IH rest rs Er' Er Hs) as (rs' & E' & Hs' & Hin').
  exists (repeat r (length pieces) ++ rs'). split_and!.
  - rewrite !fmap_app, E'. f_equal. clear -Ew1 Ew2. induction pieces as [|p pieces IHp]; [done|].
    cbn. rewrite IHp, Ew1, Ew2. done.
  - clear -Hs' Hrs Hin'. induction (length pieces) as [|k IHk]; [done|]. cbn. constructor; [done|].
    apply Forall_app. split; apply Forall_forall.
    + intros x Hx%list_elem_of_In%repeat_spec. by left.
    + intros x Hx. rewrite Forall_forall in Hrs. auto.
  - intros x [Hx|Hx]%elem_of_app; [|right; auto]. apply list_elem_of_In, repeat_spec in Hx as ->. by left.
Qed.

Lemma constrain_ordered ws limit out low high :
  constrainWindowsByUtf8Bytes sha256_hex ws limit = Ok out →
  ordered_windows (window_range <$> ws) low high → ordered_windows (window_range <$> out) low high.
Proof.
  intros E Hws. unfold constrainWindowsByUtf8Bytes in E. destruct limit as [limit|]; [|by inv_ok].
  destruct (_ || _); inv_ok; [done|]. rewrite renumber_ranges. by eapply split_windows_ordered.
Qed.

(** The windows of indexed messages point back to them in order: with the rows the
    index holds between two ordinals, each window's range lies between the
    ordinals, and a later window starts after an earlier one ends or shares the
    one line both were cut from. *)
Theorem indexed_windows_ordered rows ns maxInputTokens maxInputBytes ws :
  a ≤ b → indexed (a - 1) rows ns →
  chunkCanonicalText est sha256_hex (buildCanonicalChunkTextFromFts rows (nofZ a) (nofZ b))
    (nofZ a) (nofZ b) maxInputTokens maxInputBytes = Ok ws →
  ordered_windows (window_range <$> ws) a b.
Proof.
  intros Hab Hi. unfold chunkCanonicalText, buildCanonicalChunkTextFromFts.
  rewrite nltb_nofZ, (proj2 (Z.ltb_ge b a)) by lia.
  destruct (build_lines_spec rows ns (a - 1) (a - 1) None Hi eq_refl) as (spans & Hr & Hfo & Hend).
  destruct (rendered_lines _ _ Hr) as [Hlines Hranges]. rewrite text_lines_join by done.
  intros E. destruct (build_lines [] None rows) as [|l ls] eqn:El.
  { injection E as <-. exists []. split_and!; [done|constructor..]. }
  cbv zeta in E. rewrite <- El in *.
  destruct (est _ <=? _) eqn:Hfit; eapply constrain_ordered; [exact E| |exact E|].
  - exists [(a, b)]. split_and!; [done|by repeat constructor|]. repeat constructor; cbn; lia.
  - eapply pack_lines_ordered; [exact Hranges|exact Hend| | |exact Hfo]; [lia|].
    exists []. split_and!; [done|constructor..].
Qed.

End order.

(** ** Witnesses *)

#[local] Instance decimal_engine : Engine :=
  {| numberToString := fun n => of_code_units (decimal_units (floorZ n)) |}.

Lemma decimal_engine_prints n : 0 < n < 2 ^ 53 → code_units (numberToString (nofZ n)) = decimal_units n.
Proof.
  intros Hn. cbn. rewrite floorZ_nofZ by lia. apply code_units_of.
  destruct (decimal_units_spec n) as (_ & Hd & _); [lia|].
  eapply Forall_impl; [exact Hd|]. intros u. unfold is_digit. lia.
Qed.

Definition sample_rows : list FtsChunkRow :=
  [ {| fr_messageOrdinal := VNum (nofZ 3); fr_role := code_units "user";
       fr_content := Some (code_units "find   the bug") |};
    {| fr_messageOrdinal := VNum (nofZ 5); fr_role := code_units "assistant";
       fr_content := Some (code_units "looking") |};
    {| fr_messageOrdinal := VNum (nofZ 6); fr_role := code_units "assistant";
       fr_content := Some (code_units "fixed it") |} ]%string.

Definition sample_text : text := Eval vm_compute in buildCanonicalChunkTextFromFts sample_rows (nofZ 3) (nofZ 9).

Example sample_text_lines :
  of_code_units sample_text =
  ("[3] U: find the bug" ++ of_code_units [10] ++ "[5-6] A: looking / fixed it")%string.
Proof. vm_compute. reflexivity. Qed.

(** Twenty-one tokens: the second line is cut in two, sixteen bytes cut further. *)
Lemma windows_keep_text_witness :
  cw_text <$> match chunkCanonicalText lengthZ id sample_text (nofZ 3) (nofZ 9) (nofZ 24) (Some (nofZ 16)) with
              | Ok ws => ws | Err _ => [] end =
    code_units <$> ["[3] U: find the "; "bug"; "[5-6] A: looking"; " /"; "fixed it"]%string ∧
  ∃ ws first, chunkCanonicalText lengthZ id sample_text (nofZ 3) (nofZ 9) (nofZ 24) (Some (nofZ 16)) = Ok ws ∧
    strip (windows_text ws) = strip sample_text ∧ (first = 0 ∨ first = 1) ∧
    good_windows lengthZ id (effective_max (nofZ 24)) (byte_limit (Some (nofZ 16))) first ws.
Proof.
  split; [vm_compute; reflexivity|].
  apply (windows_keep_text lengthZ id sample_text (nofZ 3) (nofZ 9) (nofZ 24) (Some (nofZ 16))).
  - intros s Hs. destruct s; [done|]. rewrite lengthZ_cons. pose proof (lengthZ_nonneg s). lia.
  - vm_compute. reflexivity.
  - intros bytes E. vm_compute in E. injection E as <-. lia.
Defined.

Lemma indexed_windows_ordered_witness :
  ordered_windows (window_range <$>
    match chunkCanonicalText lengthZ id (buildCanonicalChunkTextFromFts sample_rows (nofZ 3) (nofZ 9))
            (nofZ 3) (nofZ 9) (nofZ 24) (Some (nofZ 16)) with Ok ws => ws | Err _ => [] end) 3 9.
Proof.
  destruct (chunkCanonicalText lengthZ id (buildCanonicalChunkTextFromFts sample_rows (nofZ 3) (nofZ 9))
    (nofZ 3) (nofZ 9) (nofZ 24) (Some (nofZ 16))) as [ws|e] eqn:E;
    [|vm_compute in E; discriminate E].
  apply (indexed_windows_ordered lengthZ id decimal_engine_prints 3 9 ltac:(lia) ltac:(lia)
           sample_rows [3; 5; 6] (nofZ 24) (Some (nofZ 16)) ws); [lia| |exact E].
  split_and!; [reflexivity|repeat constructor; lia|repeat constructor; lia].
Defined.
