(* ===== verification/SearchPool.v ===== *)
(** * The decoded search pool

    Models the stored side of
    packages/plugin/src/features/magic-context/compartment-chunk-embedding.ts: the
    rows of compartment_chunk_embeddings, replacing a compartment's windows, and the
    process-wide cache of decoded vectors a search reads from, validated against the
    database by row count and greatest row id.

    The statements of the source are functions on the tables.  The columns are
    typed as the schema declares them, so the type tests on selected rows hold. *)

From S2P Require Import Prelude JsNumber JsMap JsValue JsString JsJson FrameChannel SearchBounds TextSplitter EmbeddingChunks.

(** ** Tables *)

(** The columns of compartments the statements read. *)
Record compartment_row := {
  co_id : Z; co_session : string; co_title : string; co_start : Z; co_end : Z
}.

Record chunk_row := {
  ce_id : Z; ce_compartment : Z; ce_session : string; ce_project : string; ce_harness : string;
  ce_windowIndex : Z; ce_start : num; ce_end : num; ce_hash : text; ce_model : string;
  ce_dims : Z; ce_vector : list Z; ce_createdAt : Z
}.

(** Both tables number their rows with AUTOINCREMENT. *)
Record database := {
  db_compartments : list compartment_row; db_compartment_seq : Z;
  db_chunks : list chunk_row; db_chunk_seq : Z
}.

Inductive sql_error := unique_violation | foreign_key_violation.

Definition same_chunk_key (a b : chunk_row) : bool :=
  (ce_compartment a =? ce_compartment b) && bool_decide (ce_model a = ce_model b) &&
  (ce_windowIndex a =? ce_windowIndex b).

Definition find_compartment (db : database) (id : Z) : option compartment_row :=
  List.find (fun c => co_id c =? id) (db_compartments db).

Definition with_chunks (db : database) (chunks : list chunk_row) : database :=
  {| db_compartments := db_compartments db; db_compartment_seq := db_compartment_seq db;
     db_chunks := chunks; db_chunk_seq := db_chunk_seq db |}.

(** Inserting a row: its id is the next of the sequence. *)
Definition insert_chunk (db : database) (row : chunk_row) : result sql_error database :=
  throw_if (existsb (same_chunk_key row) (db_chunks db)) unique_violation;;
  throw_if (match find_compartment db (ce_compartment row) with None => true | Some _ => false end)
    foreign_key_violation;;
  let id := db_chunk_seq db + 1 in
  mret {| db_compartments := db_compartments db; db_compartment_seq := db_compartment_seq db;
          db_chunks := db_chunks db ++
            [{| ce_id := id; ce_compartment := ce_compartment row; ce_session := ce_session row;
                ce_project := ce_project row; ce_harness := ce_harness row;
                ce_windowIndex := ce_windowIndex row; ce_start := ce_start row; ce_end := ce_end row;
                ce_hash := ce_hash row; ce_model := ce_model row; ce_dims := ce_dims row;
                ce_vector := ce_vector row; ce_createdAt := ce_createdAt row |}];
          db_chunk_seq := id |}.

Definition delete_chunks (db : database) (gone : chunk_row → bool) : database :=
  with_chunks db (List.filter (fun r => negb (gone r)) (db_chunks db)).

Definition getDeleteByCompartmentStatement (db : database) (compartmentId : Z) (modelId : string)
    : database :=
  delete_chunks db (fun r => (ce_compartment r =? compartmentId) && bool_decide (ce_model r = modelId)).

Definition insert_compartment (db : database) (session title : string) (start end_ : Z) : database :=
  let id := db_compartment_seq db + 1 in
  {| db_compartments := db_compartments db ++
       [{| co_id := id; co_session := session; co_title := title; co_start := start; co_end := end_ |}];
     db_compartment_seq := id; db_chunks := db_chunks db; db_chunk_seq := db_chunk_seq db |}.

(** Deleting compartments: the chunk rows that reference them go with them. *)
Definition delete_compartments (db : database) (gone : compartment_row → bool) : database :=
  let kept := List.filter (fun c => negb (gone c)) (db_compartments db) in
  {| db_compartments := kept; db_compartment_seq := db_compartment_seq db;
     db_chunks := List.filter (fun r => existsb (fun c => co_id c =? ce_compartment r) kept) (db_chunks db);
     db_chunk_seq := db_chunk_seq db |}.

(** ** Vectors *)

(** A Float32Array, by the bit patterns of its elements. *)
Abbreviation vector32 := (list Z).

Definition word_bytes (w : Z) : list Z :=
  [w mod 256; w / 256 mod 256; w / 65536 mod 256; w / 16777216].

Definition vectorBlob (v : vector32) : list Z := v ≫= word_bytes.

(** [new Float32Array(buffer)] throws a RangeError unless the length is a multiple
    of four. *)
Fixpoint toFloat32Array (bytes : list Z) : option vector32 :=
  match bytes with
  | [] => Some []
  | b0 :: b1 :: b2 :: b3 :: rest =>
      match toFloat32Array rest with
      | Some v => Some (b0 + 256 * b1 + 65536 * b2 + 16777216 * b3 :: v)
      | None => None
      end
  | _ => None
  end.

Definition byte_length (v : vector32) : Z := 4 * lengthZ v.

(** ** Writing *)

Record SaveCompartmentChunkEmbeddingInput := {
  si_compartmentId : Z; si_sessionId : string; si_projectPath : string;
  si_window : CompartmentChunkWindow; si_modelId : string; si_vector : vector32;
  si_createdAt : option Z
}.

Definition inserted_row (harness : string) (now : Z) (row : SaveCompartmentChunkEmbeddingInput) : chunk_row :=
  {| ce_id := 0; ce_compartment := si_compartmentId row; ce_session := si_sessionId row;
     ce_project := si_projectPath row; ce_harness := harness;
     ce_windowIndex := cw_windowIndex (si_window row); ce_start := cw_startOrdinal (si_window row);
     ce_end := cw_endOrdinal (si_window row); ce_hash := cw_chunkHash (si_window row);
     ce_model := si_modelId row; ce_dims := lengthZ (si_vector row);
     ce_vector := vectorBlob (si_vector row); ce_createdAt := default now (si_createdAt row) |}.

Fixpoint insert_all (db : database) (rows : list chunk_row) : result sql_error database :=
  match rows with
  | [] => mret db
  | row :: rows => db ← insert_chunk db row; insert_all db rows
  end.

(** ** Existing windows *)

Definition by_window (a b : chunk_row) : Z := ce_windowIndex a - ce_windowIndex b.

Definition getExistingHashStatement (db : database) (compartmentId : Z) (modelId : string)
    (projectPath : option string) : list chunk_row :=
  js_sort by_window
    (List.filter (fun r => (ce_compartment r =? compartmentId) && bool_decide (ce_model r = modelId) &&
       match projectPath with Some p => bool_decide (ce_project r = p) | None => true end)
     (db_chunks db)).

Definition getExistingChunkHashes (db : database) (compartmentId : Z) (modelId : string)
    (projectPath : option string) : jsmap Z text :=
  let scoped := match projectPath with Some (String _ _) => projectPath | _ => None end in
  foldl (fun m r => JsMap.set m (ce_windowIndex r) (ce_hash r)) []
    (getExistingHashStatement db compartmentId modelId scoped).

Definition chunkEmbeddingWindowsAreCurrent (db : database) (compartmentId : Z) (modelId : string)
    (windows : list CompartmentChunkWindow) (projectPath : option string) : bool :=
  let existing := getExistingChunkHashes db compartmentId modelId projectPath in
  (JsMap.size existing =? lengthZ windows) &&
  forallb (fun w => bool_decide (JsMap.get existing (cw_windowIndex w) = Some (cw_chunkHash w))) windows.

(** ** Reading *)

Record StoredCompartmentChunkEmbedding := {
  st_compartmentId : Z; st_sessionId : string; st_title : string; st_startOrdinal : Z;
  st_endOrdinal : Z; st_windowIndex : Z; st_windowStartOrdinal : num; st_windowEndOrdinal : num;
  st_chunkHash : text; st_modelId : string; st_dims : Z; st_vector : vector32
}.

Definition in_pool (sessionId projectPath modelId : string) (r : chunk_row) : bool :=
  bool_decide (ce_session r = sessionId) && bool_decide (ce_project r = projectPath) &&
  bool_decide (ce_model r = modelId).

Definition pool_rows (db : database) (sessionId projectPath modelId : string) : list chunk_row :=
  List.filter (in_pool sessionId projectPath modelId) (db_chunks db).

(** [COUNT] and [MAX(id)]; an absent maximum is read as 0. *)
Definition getSearchPoolProbeStatement (db : database) (sessionId projectPath modelId : string) : Z * Z :=
  let rows := pool_rows db sessionId projectPath modelId in
  (lengthZ rows, foldl (fun m r => Z.max m (ce_id r)) 0 rows).

Definition by_compartment_window (a b : chunk_row) : Z :=
  if ce_compartment a =? ce_compartment b then ce_windowIndex a - ce_windowIndex b
  else ce_compartment a - ce_compartment b.

(** The joined rows, in order. *)
Definition getSearchRowsStatement (db : database) (sessionId projectPath modelId : string)
    : list (chunk_row * compartment_row) :=
  js_sort by_compartment_window (pool_rows db sessionId projectPath modelId) ≫= fun r =>
  match find_compartment db (ce_compartment r) with Some c => [(r, c)] | None => [] end.

Definition decode_row (rc : chunk_row * compartment_row) : option StoredCompartmentChunkEmbedding :=
  let '(r, c) := rc in
  match toFloat32Array (ce_vector r) with
  | None => None
  | Some v =>
      Some {| st_compartmentId := ce_compartment r; st_sessionId := ce_session r; st_title := co_title c;
              st_startOrdinal := co_start c; st_endOrdinal := co_end c;
              st_windowIndex := ce_windowIndex r; st_windowStartOrdinal := ce_start r;
              st_windowEndOrdinal := ce_end r; st_chunkHash := ce_hash r; st_modelId := ce_model r;
              st_dims := ce_dims r; st_vector := v |}
  end.

(** ** The cache *)

(** Entries are objects: [en_id] is their identity, [en_db] the connection whose
    map [pool] is. *)
Record DecodedSearchPoolEntry := {
  en_id : nat; en_db : nat; en_key : string; en_rowCount : Z; en_maxRowId : Z;
  en_rows : list StoredCompartmentChunkEmbedding; en_byteSize : Z
}.

Record cache := {
  decodedSearchPools : jsmap nat (jsmap string DecodedSearchPoolEntry);
  decodedSearchPoolLru : list DecodedSearchPoolEntry;
  decodedSearchPoolBytes : Z;
  next_entry : nat
}.

Definition DECODED_SEARCH_POOL_CACHE_MAX_BYTES : Z := 256 * 1024 * 1024.

Definition searchPoolKey (sessionId projectPath modelId : string) : string :=
  ("[" ++ json_string sessionId ++ "," ++ json_string projectPath ++ "," ++ json_string modelId ++ "]")%string.

(** [JSON.parse] of a key: three strings in brackets. *)
Definition parse_string_then (u : Z) (l : list Z) : option (string * list Z) :=
  match l with
  | 34 :: l =>
      match parse_literal l with
      | Some (s, v :: after) => if v =? u then Some (of_code_units s, after) else None
      | _ => None
      end
  | _ => None
  end.

Definition parse_key (key : string) : option (string * string * string) :=
  match code_units key with
  | 91 :: l =>
      match parse_string_then 44 l with
      | Some (s, l) =>
          match parse_string_then 44 l with
          | Some (p, l) =>
              match parse_string_then 93 l with
              | Some (m, []) => Some (s, p, m)
              | _ => None
              end
          | None => None
          end
      | None => None
      end
  | _ => None
  end.

Definition pool_of (c : cache) (h : nat) : jsmap string DecodedSearchPoolEntry :=
  default [] (JsMap.get (decodedSearchPools c) h).

(** [getDecodedSearchPool]: the connection's map, made when it has none. *)
Definition getDecodedSearchPool (c : cache) (h : nat) : cache :=
  match JsMap.get (decodedSearchPools c) h with
  | Some _ => c
  | None => {| decodedSearchPools := JsMap.set (decodedSearchPools c) h [];
               decodedSearchPoolLru := decodedSearchPoolLru c;
               decodedSearchPoolBytes := decodedSearchPoolBytes c; next_entry := next_entry c |}
  end.

Definition removeDecodedSearchPoolEntry (c : cache) (e : DecodedSearchPoolEntry) : cache :=
  let pools :=
    match JsMap.get (decodedSearchPools c) (en_db e) with
    | Some pool =>
        match JsMap.get pool (en_key e) with
        | Some e' => if (en_id e' =? en_id e)%nat
                     then JsMap.set (decodedSearchPools c) (en_db e) (JsMap.delete pool (en_key e))
                     else decodedSearchPools c
        | None => decodedSearchPools c
        end
    | None => decodedSearchPools c
    end in
  let lru := List.filter (fun x => negb (en_id x =? en_id e)%nat) (decodedSearchPoolLru c) in
  {| decodedSearchPools := pools;
     decodedSearchPoolLru := lru;
     decodedSearchPoolBytes :=
       if existsb (fun x => (en_id x =? en_id e)%nat) (decodedSearchPoolLru c)
       then decodedSearchPoolBytes c - en_byteSize e else decodedSearchPoolBytes c;
     next_entry := next_entry c |}.

Definition touchDecodedSearchPoolEntry (c : cache) (e : DecodedSearchPoolEntry) : cache :=
  {| decodedSearchPools := decodedSearchPools c;
     decodedSearchPoolLru :=
       List.filter (fun x => negb (en_id x =? en_id e)%nat) (decodedSearchPoolLru c) ++ [e];
     decodedSearchPoolBytes := decodedSearchPoolBytes c; next_entry := next_entry c |}.

Definition estimateDecodedSearchPoolBytes (rows : list StoredCompartmentChunkEmbedding) : Z :=
  sumZ (fun row => byte_length (st_vector row) + 256 +
                   2 * (str_length (st_sessionId row) + str_length (st_title row) +
                        lengthZ (st_chunkHash row) + str_length (st_modelId row))) rows.

(** [while (decodedSearchPoolBytes > MAX)]: an entry goes at every turn. *)
Fixpoint evict (fuel : nat) (c : cache) : cache :=
  match fuel with
  | O => c
  | S fuel =>
      if DECODED_SEARCH_POOL_CACHE_MAX_BYTES <? decodedSearchPoolBytes c then
        match decodedSearchPoolLru c with
        | [] => c
        | oldest :: _ => evict fuel (removeDecodedSearchPoolEntry c oldest)
        end
      else c
  end.

Definition cacheDecodedSearchPool (c : cache) (h : nat) (key : string) (rowCount maxRowId : Z)
    (rows : list StoredCompartmentChunkEmbedding) : cache :=
  let c := match JsMap.get (pool_of c h) key with
           | Some existing => removeDecodedSearchPoolEntry c existing
           | None => c
           end in
  let entry := {| en_id := next_entry c; en_db := h; en_key := key; en_rowCount := rowCount;
                  en_maxRowId := maxRowId; en_rows := rows;
                  en_byteSize := estimateDecodedSearchPoolBytes rows |} in
  let c := {| decodedSearchPools :=
                JsMap.set (decodedSearchPools c) h (JsMap.set (pool_of c h) key entry);
              decodedSearchPoolLru := decodedSearchPoolLru c ++ [entry];
              decodedSearchPoolBytes := decodedSearchPoolBytes c + en_byteSize entry;
              next_entry := S (next_entry c) |} in
  evict (length (decodedSearchPoolLru c)) c.

Definition invalidateDecodedSearchPools (c : cache) (h : nat)
    (predicate : string * string * string → bool) : cache :=
  match JsMap.get (decodedSearchPools c) h with
  | None => c
  | Some pool =>
      foldl (fun c ke =>
               match parse_key ke.1 with
               | None => removeDecodedSearchPoolEntry c ke.2
               | Some parts => if predicate parts then removeDecodedSearchPoolEntry c ke.2 else c
               end) c pool
  end.

(** [_resetCompartmentChunkSearchCacheForTests]. *)
Definition resetCompartmentChunkSearchCache (c : cache) : cache :=
  let c := foldl removeDecodedSearchPoolEntry c (decodedSearchPoolLru c) in
  {| decodedSearchPools := decodedSearchPools c; decodedSearchPoolLru := [];
     decodedSearchPoolBytes := 0; next_entry := next_entry c |}.

Definition empty_cache : cache :=
  {| decodedSearchPools := []; decodedSearchPoolLru := []; decodedSearchPoolBytes := 0; next_entry := 0 |}.

(** ** Operations *)

(** The transaction either commits or leaves the tables, and the cache, alone. *)
Definition replaceCompartmentChunkEmbeddings (harness : string) (now : Z) (db : database) (c : cache)
    (h : nat) (rows : list SaveCompartmentChunkEmbeddingInput) : result sql_error (database * cache) :=
  match rows with
  | [] => mret (db, c)
  | first :: _ =>
      db ← insert_all (getDeleteByCompartmentStatement db (si_compartmentId first) (si_modelId first))
             (inserted_row harness now <$> rows);
      mret (db, invalidateDecodedSearchPools c h (fun '(sessionId, projectPath, cachedModelId) =>
        bool_decide (sessionId = si_sessionId first) && bool_decide (projectPath = si_projectPath first) &&
        bool_decide (cachedModelId = si_modelId first)))
  end.

Definition deleteCompartmentChunkEmbeddingsForModel (db : database) (c : cache) (h : nat)
    (compartmentId : Z) (modelId : string) : database * cache :=
  (getDeleteByCompartmentStatement db compartmentId modelId,
   invalidateDecodedSearchPools c h (fun '(_, _, cachedModelId) => bool_decide (cachedModelId = modelId))).

(** What [onVectorLoad] is told. *)
Record vector_load := {
  vl_decodedBytes : Z; vl_cachedBytes : Z; vl_vectorCount : Z; vl_cacheHit : bool
}.

Inductive load_error := model_id_missing | vector_length_invalid.

Definition searchPoolVectorBytes (rows : list StoredCompartmentChunkEmbedding) : Z :=
  sumZ (fun row => byte_length (st_vector row)) rows.

Definition loadCompartmentChunkEmbeddingsForSearch (db : database) (c : cache) (h : nat)
    (sessionId projectPath modelId : string) (touchedMaxOrdinal : option Z)
    : cache * result load_error (list StoredCompartmentChunkEmbedding * vector_load) :=
  if bool_decide (modelId = EmptyString) then (c, Err model_id_missing)
  else
    let key := searchPoolKey sessionId projectPath modelId in
    let c := getDecodedSearchPool c h in
    let '(rowCount, maxRowId) := getSearchPoolProbeStatement db sessionId projectPath modelId in
    let cached := JsMap.get (pool_of c h) key in
    let miss (c : cache) :=
      match mapM decode_row (getSearchRowsStatement db sessionId projectPath modelId) with
      | None => (c, Err vector_length_invalid)
      | Some decodedRows =>
          (cacheDecodedSearchPool c h key rowCount maxRowId decodedRows,
           Ok (decodedRows, {| vl_decodedBytes := searchPoolVectorBytes decodedRows; vl_cachedBytes := 0;
                               vl_vectorCount := lengthZ decodedRows; vl_cacheHit := false |}))
      end in
    match cached with
    | Some e =>
        if (en_rowCount e =? rowCount) && (en_maxRowId e =? maxRowId) then
          let touched := match touchedMaxOrdinal with
                         | None => en_rows e
                         | Some high => List.filter (fun row => st_endOrdinal row <=? high) (en_rows e)
                         end in
          (touchDecodedSearchPoolEntry c e,
           Ok (en_rows e, {| vl_decodedBytes := 0; vl_cachedBytes := searchPoolVectorBytes touched;
                             vl_vectorCount := lengthZ touched; vl_cacheHit := true |}))
        else miss (removeDecodedSearchPoolEntry c e)
    | None => miss c
    end.

(** ** Lemmas: keys *)

Lemma parse_string_then_json u s l :
  parse_string_then u (code_units (json_string s) ++ u :: l) = Some (s, l).
Proof.
  unfold json_string, quote. rewrite !code_units_app, !code_units_single by lia.
  rewrite <- !app_assoc. cbn [app parse_string_then].
  rewrite parse_literal_units by apply code_units_bound. by rewrite Z.eqb_refl, of_code_units_units.
Qed.

(** A key parses back to its parts. *)
Lemma parse_key_json s p m : parse_key (searchPoolKey s p m) = Some (s, p, m).
Proof.
  unfold parse_key, searchPoolKey. rewrite !code_units_app.
  change (code_units "[") with [91]. change (code_units ",") with [44]. change (code_units "]") with [93].
  cbn [app]. by rewrite !parse_string_then_json.
Qed.

Lemma searchPoolKey_inj s p m s' p' m' :
  searchPoolKey s p m = searchPoolKey s' p' m' → s = s' ∧ p = p' ∧ m = m'.
Proof.
  intros E. pose proof (parse_key_json s p m) as H. rewrite E, parse_key_json in H. by injection H as -> -> ->.
Qed.

(** ** Lemmas: vectors *)

Definition words (v : vector32) : Prop := Forall (fun w => 0 ≤ w < 2 ^ 32) v.

Lemma vector_roundtrip v : words v → toFloat32Array (vectorBlob v) = Some v.
Proof.
  induction 1 as [|w v Hw _ IH]; [done|]. change (vectorBlob (w :: v)) with (word_bytes w ++ vectorBlob v).
  cbn [word_bytes app toFloat32Array]. rewrite IH.
  do 2 f_equal.
  pose proof (Z.div_mod w 256 ltac:(lia)). pose proof (Z.div_mod (w / 256) 256 ltac:(lia)).
  pose proof (Z.div_mod (w / 65536) 256 ltac:(lia)).
  assert (w / 65536 = w / 256 / 256) as E1 by by rewrite Z.div_div by lia.
  assert (w / 16777216 = w / 65536 / 256) as E2 by by rewrite Z.div_div by lia.
  lia.
Qed.

(** ** The database *)

Record db_ok (d : database) : Prop := {
  ok_seq : 0 ≤ db_chunk_seq d;
  ok_ids : Forall (fun r => 0 < ce_id r ≤ db_chunk_seq d) (db_chunks d);
  ok_unique : NoDup (co_id <$> db_compartments d);
  ok_compartments : Forall (fun c => co_id c ≤ db_compartment_seq d) (db_compartments d);
  ok_references : Forall (fun r => is_Some (find_compartment d (ce_compartment r))) (db_chunks d)
}.

(** The tables after some writes: rows went, rows came with fresh ids, and no
    compartment row changed. *)
Record evolves (d d' : database) : Prop := {
  ev_chunks : ∃ olds news, db_chunks d' = olds ++ news ∧ sublist olds (db_chunks d) ∧
                Forall (fun r => db_chunk_seq d < ce_id r) news;
  ev_seq : db_chunk_seq d ≤ db_chunk_seq d';
  ev_compartments : ∀ id c, id ≤ db_compartment_seq d →
    find_compartment d' id = Some c → find_compartment d id = Some c;
  ev_compartment_seq : db_compartment_seq d ≤ db_compartment_seq d'
}.

Lemma evolves_refl d : evolves d d.
Proof.
  split; try done. exists (db_chunks d), []. split_and!; [by rewrite app_nil_r|done|constructor].
Qed.

Lemma evolves_trans d1 d2 d3 : evolves d1 d2 → evolves d2 d3 → evolves d1 d3.
Proof.
  intros [(o1 & n1 & E1 & S1 & F1) Hs1 Hc1 Hq1] [(o2 & n2 & E2 & S2 & F2) Hs2 Hc2 Hq2].
  split; [|lia| |lia].
  - rewrite E1 in S2. apply sublist_app_r in S2 as (p & q & -> & Hp & Hq).
    exists p, (q ++ n2). split_and!.
    + by rewrite E2, app_assoc.
    + by etrans.
    + apply Forall_app. split.
      * apply Forall_forall. intros r Hr. rewrite Forall_forall in F1. apply F1.
        by eapply elem_of_sublist.
      * eapply Forall_impl; [exact F2|]. cbn. lia.
  - intros id c Hid Hf. apply Hc1; [done|]. apply Hc2; [lia|done].
Qed.

#[export] Instance evolves_preorder : PreOrder evolves.
Proof. split; [exact evolves_refl|exact evolves_trans]. Qed.

(** An operation on the tables that keeps them well formed and lets them evolve. *)
Definition grows (d d' : database) : Prop := db_ok d → db_ok d' ∧ evolves d d'.

Lemma grows_trans d1 d2 d3 : grows d1 d2 → grows d2 d3 → grows d1 d3.
Proof. intros H1 H2 Hd. destruct (H1 Hd) as [Hd2 E1]. destruct (H2 Hd2) as [Hd3 E2]. split; [done|by etrans]. Qed.

Lemma filter_sublist {A} (f : A → bool) l : sublist (List.filter f l) l.
Proof. induction l as [|x l IH]; cbn; [constructor|]. destruct (f x); by constructor. Qed.

Lemma Forall_filter_bool {A} (P : A → Prop) (f : A → bool) l : Forall P l → Forall P (List.filter f l).
Proof. induction 1 as [|x l Hx _ IH]; cbn; [constructor|]. destruct (f x); by try constructor. Qed.

Lemma sublist_evolves d chunks :
  sublist chunks (db_chunks d) → grows d (with_chunks d chunks).
Proof.
  intros Hs [Hq Hi Hu Hc Hf]. split; [split; cbn; try done|split; cbn; try done].
  - apply Forall_forall. intros r Hr. rewrite Forall_forall in Hi. eapply Hi, elem_of_sublist; done.
  - apply Forall_forall. intros r Hr. rewrite Forall_forall in Hf. eapply Hf, elem_of_sublist; done.
  - exists chunks, []. split_and!; [by rewrite app_nil_r|done|constructor].
Qed.

Lemma delete_chunks_grows d gone : grows d (delete_chunks d gone).
Proof. apply sublist_evolves, filter_sublist. Qed.

Lemma insert_chunk_grows d row d' : insert_chunk d row = Ok d' → grows d d'.
Proof.
  intros E [Hq Hi Hu Hc Hf]. unfold insert_chunk in E. inv_ok. split; split; cbn; try done; try lia.
  - apply Forall_app. split; [eapply Forall_impl; [exact Hi|]; cbn; intros; lia|]. constructor; [cbn; lia|constructor].
  - apply Forall_app. split; [done|]. constructor; [|constructor]. cbn.
    unfold find_compartment in *. cbn. destruct (List.find _ _); [by eexists|done].
  - eexists _, _. split_and!; [done|done|]. constructor; [cbn; lia|constructor].
Qed.

Lemma insert_all_grows rows : ∀ d d', insert_all d rows = Ok d' → grows d d'.
Proof.
  induction rows as [|row rows IH]; intros d d' E; cbn [insert_all] in E; inv_ok.
  - intros Hd. split; [done|reflexivity].
  - eapply grows_trans; [by eapply insert_chunk_grows|by apply IH].
Qed.

Lemma find_app {A} (f : A → bool) l1 l2 :
  List.find f (l1 ++ l2) = match List.find f l1 with Some x => Some x | None => List.find f l2 end.
Proof. induction l1 as [|x l1 IH]; cbn; [done|]. by destruct (f x). Qed.

Lemma insert_compartment_grows d session title start end_ :
  grows d (insert_compartment d session title start end_).
Proof.
  intros [Hq Hi Hu Hc Hf]. split; split; cbn; try done; try lia.
  - rewrite fmap_app. apply NoDup_app. split_and!; [done| |apply NoDup_singleton].
    intros id (c & -> & Hin)%list_elem_of_fmap. rewrite Forall_forall in Hc. specialize (Hc c Hin).
    cbn. rewrite list_elem_of_singleton. lia.
  - apply Forall_app. split; [eapply Forall_impl; [exact Hc|]; cbn; intros; lia|]. constructor; [cbn; lia|constructor].
  - eapply Forall_impl; [exact Hf|]. intros r [c Hr]. unfold find_compartment in *. cbn. rewrite find_app, Hr. by eexists.
  - exists (db_chunks d), []. split_and!; [by rewrite app_nil_r|done|constructor].
  - intros id c Hid Hx. unfold find_compartment in *. cbn in Hx. rewrite find_app in Hx.
    destruct (List.find (fun c => co_id c =? id) (db_compartments d)) eqn:E; [done|]. cbn in Hx.
    destruct (db_compartment_seq d + 1 =? id) eqn:Ei; [lia|done].
Qed.

Lemma find_exists id (l : list compartment_row) :
  existsb (fun c => co_id c =? id) l = true → is_Some (List.find (fun c => co_id c =? id) l).
Proof. induction l as [|c l IH]; cbn; [done|]. destruct (co_id c =? id); [by eexists|done]. Qed.

(** Ids are unique, so what is found among fewer rows is what was found before. *)
Lemma find_filter (P : compartment_row → bool) id c l : NoDup (co_id <$> l) →
  List.find (fun c => co_id c =? id) (List.filter P l) = Some c →
  List.find (fun c => co_id c =? id) l = Some c.
Proof.
  induction l as [|x l IH]; cbn; [done|]. intros [Hx Hnd]%NoDup_cons Hf. destruct (P x); cbn in Hf.
  - destruct (co_id x =? id); [done|auto].
  - destruct (co_id x =? id) eqn:E; [|auto]. exfalso. apply Hx.
    apply List.find_some in Hf as [Hin Hc]. apply List.filter_In in Hin as [Hin _].
    apply list_elem_of_fmap. exists c. split; [lia|by apply list_elem_of_In].
Qed.

Lemma delete_compartments_grows d gone : grows d (delete_compartments d gone).
Proof.
  intros [Hq Hi Hu Hc Hf]. split; split; cbn; try done.
  - by apply Forall_filter_bool.
  - eapply sublist_NoDup; [exact Hu|]. apply fmap_sublist, filter_sublist.
  - by apply Forall_filter_bool.
  - apply Forall_forall. intros r Hr. apply list_elem_of_In, List.filter_In in Hr as [_ Hr].
    by apply find_exists in Hr.
  - eexists _, []. split_and!; [by rewrite app_nil_r|apply filter_sublist|constructor].
  - intros id c _ Hx. by eapply find_filter.
Qed.

(** ** Validation by count and greatest id *)

Section probe.
Context (sessionId projectPath modelId : string).
Local Abbreviation rows d := (pool_rows d sessionId projectPath modelId).
Local Abbreviation probe d := (getSearchPoolProbeStatement d sessionId projectPath modelId).

Definition max_id (l : list chunk_row) : Z := foldl (fun m r => Z.max m (ce_id r)) 0 l.

Lemma max_id_from l : ∀ m, 0 ≤ m → foldl (fun m r => Z.max m (ce_id r)) m l = Z.max m (max_id l).
Proof.
  unfold max_id. induction l as [|r l IH]; intros m Hm; cbn [foldl]; [lia|].
  rewrite IH, (IH (Z.max 0 (ce_id r))) by lia. lia.
Qed.

Lemma max_id_ge l r : r ∈ l → ce_id r ≤ max_id l.
Proof.
  induction l as [|x l IH]; [set_solver|]. intros Hr. unfold max_id. cbn [foldl].
  rewrite max_id_from by lia. apply elem_of_cons in Hr as [->|Hr]; [lia|]. specialize (IH Hr). lia.
Qed.

Lemma max_id_le l b : 0 ≤ b → Forall (fun r => ce_id r ≤ b) l → max_id l ≤ b.
Proof.
  intros Hb. induction 1 as [|x l Hx _ IH]; [done|]. unfold max_id. cbn [foldl].
  rewrite max_id_from by lia. lia.
Qed.

Lemma sublist_same_length {A} (l1 l2 : list A) : sublist l1 l2 → (length l2 ≤ length l1)%nat → l1 = l2.
Proof.
  induction 1 as [|x l1 l2 _ IH|x l1 l2 Hs IH]; cbn; intros Hl; [done|f_equal; apply IH; lia|].
  apply sublist_length in Hs. lia.
Qed.

Lemma sublist_filter_bool {A} (f : A → bool) (l1 l2 : list A) :
  sublist l1 l2 → sublist (List.filter f l1) (List.filter f l2).
Proof. induction 1 as [|x l1 l2 _ IH|x l1 l2 _ IH]; cbn; [done|..]; destruct (f x); try done; by constructor. Qed.

(** While count and greatest id stay the same the rows do. *)
Lemma same_probe_same_rows d d' :
  db_ok d → evolves d d' → probe d = probe d' → rows d = rows d'.
Proof.
  intros Hd [(olds & news & E & Hs & Hn) _ _ _] Hp. unfold getSearchPoolProbeStatement in Hp.
  injection Hp as Hlen Hmax. fold (max_id (rows d)) in Hmax. fold (max_id (rows d')) in Hmax.
  unfold pool_rows in *. rewrite E, List.filter_app in *.
  set (f := in_pool sessionId projectPath modelId) in *.
  assert (List.filter f news = []) as En.
  { destruct (List.filter f news) as [|r l] eqn:Er; [done|]. exfalso.
    assert (r ∈ List.filter f news) as Hr by (rewrite Er; left).
    assert (max_id (List.filter f (db_chunks d)) ≤ db_chunk_seq d) as Hle.
    { apply max_id_le; [apply Hd|]. apply Forall_filter_bool.
      eapply Forall_impl; [apply Hd|]. cbn. intros x Hx. lia. }
    assert (ce_id r ≤ max_id (List.filter f olds ++ r :: l)) as Hge by (apply max_id_ge; set_solver).
    apply list_elem_of_In, List.filter_In in Hr as [Hr _]. apply list_elem_of_In in Hr.
    rewrite Forall_forall in Hn. specialize (Hn r Hr). lia. }
  rewrite En, app_nil_r in *. symmetry. apply sublist_same_length.
  - by apply sublist_filter_bool.
  - unfold lengthZ in Hlen. lia.
Qed.

Lemma same_probe_same_search d d' :
  db_ok d → db_ok d' → evolves d d' → probe d = probe d' →
  getSearchRowsStatement d sessionId projectPath modelId = getSearchRowsStatement d' sessionId projectPath modelId.
Proof.
  intros Hd Hd' Hev Hp. pose proof (same_probe_same_rows d d' Hd Hev Hp) as E.
  unfold getSearchRowsStatement. rewrite <- E.
  assert (∀ r, r ∈ rows d → find_compartment d (ce_compartment r) = find_compartment d' (ce_compartment r)) as Hf.
  { intros r Hr. assert (r ∈ db_chunks d ∧ r ∈ db_chunks d') as [H1 H2].
    { split; [|rewrite E in Hr]; by apply list_elem_of_In, List.filter_In in Hr as [Hr%list_elem_of_In _]. }
    pose proof (proj1 (Forall_forall _ _) (ok_compartments d Hd)) as Hc.
    destruct (proj1 (Forall_forall _ _) (ok_references d Hd) r H1) as [c Ec].
    destruct (proj1 (Forall_forall _ _) (ok_references d' Hd') r H2) as [c' Ec']. rewrite Ec'.
    apply (ev_compartments d d' Hev); [|done].
    unfold find_compartment in Ec. apply List.find_some in Ec as [Hin Heq].
    specialize (Hc c ltac:(by apply list_elem_of_In)). cbn in Hc. lia. }
  assert (∀ l, (∀ r, r ∈ l → r ∈ rows d) →
    (l ≫= fun r => match find_compartment d (ce_compartment r) with Some c => [(r, c)] | None => [] end) =
    (l ≫= fun r => match find_compartment d' (ce_compartment r) with Some c => [(r, c)] | None => [] end)) as Hb.
  { induction l as [|r l IH]; intros Hl; [done|]. cbn. rewrite (Hf r) by (apply Hl; left).
    f_equal. apply IH. intros x Hx. apply Hl. by right. }
  apply Hb. intros r. by rewrite js_sort_in.
Qed.

End probe.

(** ** The cache's entries *)

Definition entry_in (c : cache) (h : nat) (k : string) (e : DecodedSearchPoolEntry) : Prop :=
  JsMap.get (pool_of c h) k = Some e.

Lemma get_set_cases {K V} `{EqDecision K} (m : jsmap K V) k v k' :
  JsMap.get (JsMap.set m k v) k' = if decide (k = k') then Some v else JsMap.get m k'.
Proof.
  destruct (decide (k = k')) as [->|Hk]; [apply JsMap.get_set_eq|by apply JsMap.get_set_ne].
Qed.

Lemma get_delete_cases {K V} `{EqDecision K} (m : jsmap K V) k k' :
  JsMap.get (JsMap.delete m k) k' = if decide (k = k') then None else JsMap.get m k'.
Proof.
  destruct (decide (k = k')) as [->|Hk]; [apply JsMap.get_delete_eq|by apply JsMap.get_delete_ne].
Qed.

Lemma entry_in_pool c h0 h k e : entry_in (getDecodedSearchPool c h0) h k e ↔ entry_in c h k e.
Proof.
  unfold entry_in, getDecodedSearchPool, pool_of. destruct (JsMap.get (decodedSearchPools c) h0) eqn:E; [done|].
  cbn. rewrite get_set_cases. destruct (decide (h0 = h)) as [->|]; [by rewrite E|done].
Qed.

(** Removing an entry takes it, by identity, out of its own map. *)
Lemma entry_in_remove c e h k x :
  entry_in (removeDecodedSearchPoolEntry c e) h k x ↔
  entry_in c h k x ∧ ¬ (h = en_db e ∧ k = en_key e ∧ en_id x = en_id e).
Proof.
  unfold entry_in, removeDecodedSearchPoolEntry, pool_of. cbn.
  destruct (JsMap.get (decodedSearchPools c) (en_db e)) as [pool|] eqn:Ep.
  2: { split; [|by intros []]. intros Hx. split; [done|]. intros (-> & _). by rewrite Ep in Hx. }
  destruct (JsMap.get pool (en_key e)) as [e'|] eqn:Ek.
  2: { split; [|by intros []]. intros Hx. split; [done|]. intros (-> & -> & _). rewrite Ep in Hx. cbn in Hx. congruence. }
  destruct (en_id e' =? en_id e)%nat eqn:Ei.
  - apply Nat.eqb_eq in Ei. rewrite get_set_cases. destruct (decide (en_db e = h)) as [<-|Hh].
    + rewrite Ep. cbn [default from_option id]. rewrite get_delete_cases.
      destruct (decide (en_key e = k)) as [<-|Hk]; [|naive_solver].
      rewrite Ek. split; [done|]. intros [[= <-] Hn]. naive_solver.
    + naive_solver.
  - apply Nat.eqb_neq in Ei. split; [|by intros []]. intros Hx. split; [done|]. intros (-> & -> & Hid).
    rewrite Ep in Hx. cbn [default from_option id] in Hx. congruence.
Qed.

(** ** The ledger *)

Record ledger (c : cache) : Prop := {
  lg_ids : NoDup (en_id <$> decodedSearchPoolLru c);
  lg_bytes : decodedSearchPoolBytes c = sumZ en_byteSize (decodedSearchPoolLru c);
  lg_entries : ∀ h k e, entry_in c h k e ↔ e ∈ decodedSearchPoolLru c ∧ en_db e = h ∧ en_key e = k;
  lg_fresh : Forall (fun e => (en_id e < next_entry c)%nat) (decodedSearchPoolLru c);
  lg_sizes : Forall (fun e => 0 ≤ en_byteSize e) (decodedSearchPoolLru c);
  lg_wf : ∀ h pool, JsMap.get (decodedSearchPools c) h = Some pool → JsMap.wf pool
}.

Definition without (e : DecodedSearchPoolEntry) (l : list DecodedSearchPoolEntry) :=
  List.filter (fun x => negb (en_id x =? en_id e)%nat) l.

Lemma elem_without e l x : x ∈ without e l ↔ x ∈ l ∧ en_id x ≠ en_id e.
Proof.
  unfold without. rewrite !list_elem_of_In, List.filter_In, negb_true_iff, Nat.eqb_neq. done.
Qed.

Lemma sum_without e l : NoDup (en_id <$> l) → (∀ x, x ∈ l → en_id x = en_id e → x = e) →
  sumZ en_byteSize l = sumZ en_byteSize (without e l) +
    if existsb (fun x => (en_id x =? en_id e)%nat) l then en_byteSize e else 0.
Proof.
  induction l as [|x l IH]; [done|]. cbn [fmap list_fmap]. intros [Hx Hnd]%NoDup_cons He.
  change (sumZ en_byteSize (x :: l)) with (en_byteSize x + sumZ en_byteSize l).
  rewrite IH; [|done|intros y Hy; apply He; by right].
  change (without e (x :: l)) with (if negb (en_id x =? en_id e)%nat then x :: without e l else without e l).
  cbn [existsb].
  destruct (en_id x =? en_id e)%nat eqn:E; cbn [negb orb].
  - apply Nat.eqb_eq in E. assert (x = e) as -> by (apply He; [left|done]).
    destruct (existsb _ l) eqn:Ex; [|lia].
    exfalso. apply Hx. apply existsb_exists in Ex as (y & Hy & Hid). apply list_elem_of_fmap. exists y.
    apply Nat.eqb_eq in Hid. split; [done|by apply list_elem_of_In].
  -
    change (sumZ en_byteSize (x :: without e l)) with (en_byteSize x + sumZ en_byteSize (without e l)). lia.
Qed.

Lemma id_unique l x y : NoDup (en_id <$> l) → x ∈ l → y ∈ l → en_id x = en_id y → x = y.
Proof.
  induction l as [|z l IH]; [set_solver|]. cbn [fmap list_fmap]. intros [Hz Hnd]%NoDup_cons Hx Hy E.
  apply elem_of_cons in Hx as [->|Hx], Hy as [->|Hy]; [done|..|auto]; exfalso; apply Hz;
    apply list_elem_of_fmap; eauto.
Qed.

(** [e] is the object with its identity. *)
Definition identified (c : cache) (e : DecodedSearchPoolEntry) : Prop :=
  ∀ x, x ∈ decodedSearchPoolLru c → en_id x = en_id e → x = e.

Lemma remove_lru_eq c e :
  decodedSearchPoolLru (removeDecodedSearchPoolEntry c e) = without e (decodedSearchPoolLru c).
Proof. done. Qed.

Lemma remove_bytes_eq c e :
  decodedSearchPoolBytes (removeDecodedSearchPoolEntry c e) =
  if existsb (fun x => (en_id x =? en_id e)%nat) (decodedSearchPoolLru c)
  then decodedSearchPoolBytes c - en_byteSize e else decodedSearchPoolBytes c.
Proof. done. Qed.

Lemma remove_ledger c e : ledger c → identified c e → ledger (removeDecodedSearchPoolEntry c e).
Proof.
  intros [Hids Hb He Hf Hs Hw] Hid. split; rewrite ?remove_lru_eq.
  - eapply sublist_NoDup; [exact Hids|]. apply fmap_sublist, filter_sublist.
  - rewrite remove_bytes_eq, Hb, (sum_without e) by done. destruct (existsb _ _); lia.
  - intros h k x. rewrite entry_in_remove, He, elem_without. split.
    + intros [(Hx & <- & <-) Hn]. split_and!; try done. intros E. apply Hn. split_and!; try done;
        by rewrite (Hid x Hx E).
    + intros ((Hx & Hne) & <- & <-). split; [done|]. by intros (_ & _ & ?).
  - by apply Forall_filter_bool.
  - by apply Forall_filter_bool.
  - intros h pool Hp. unfold removeDecodedSearchPoolEntry in Hp. cbn in Hp.
    destruct (JsMap.get (decodedSearchPools c) (en_db e)) as [pool0|] eqn:E0; [|eauto].
    destruct (JsMap.get pool0 (en_key e)); [|eauto]. destruct (_ =? _)%nat; [|eauto].
    rewrite get_set_cases in Hp. destruct (decide _); [|eauto]. injection Hp as <-.
    apply JsMap.wf_delete. eauto.
Qed.

Lemma remove_lru c e x :
  x ∈ decodedSearchPoolLru (removeDecodedSearchPoolEntry c e) ↔ x ∈ decodedSearchPoolLru c ∧ en_id x ≠ en_id e.
Proof. cbn. apply elem_without. Qed.

Lemma remove_identified c e e' : identified c e' → identified (removeDecodedSearchPoolEntry c e) e'.
Proof. intros H x [Hx _]%remove_lru. by apply H. Qed.

Lemma lru_identified c e : ledger c → e ∈ decodedSearchPoolLru c → identified c e.
Proof. intros Hl He x Hx E. eapply id_unique; [apply Hl|done..]. Qed.

Lemma evict_ledger fuel : ∀ c, ledger c → ledger (evict fuel c) ∧
  (∀ h k e, entry_in (evict fuel c) h k e → entry_in c h k e) ∧
  ((length (decodedSearchPoolLru c) ≤ fuel)%nat →
   decodedSearchPoolBytes (evict fuel c) ≤ DECODED_SEARCH_POOL_CACHE_MAX_BYTES).
Proof.
  induction fuel as [|fuel IH]; intros c Hl; cbn [evict].
  - split_and!; [done..|]. intros Hn. rewrite (lg_bytes c Hl). destruct (decodedSearchPoolLru c); [done|cbn in Hn; lia].
  - destruct (DECODED_SEARCH_POOL_CACHE_MAX_BYTES <? decodedSearchPoolBytes c) eqn:E.
    2: { split_and!; [done..|]. lia. }
    destruct (decodedSearchPoolLru c) as [|oldest l] eqn:El.
    { split_and!; [done..|]. rewrite (lg_bytes c Hl), El. done. }
    destruct (IH (removeDecodedSearchPoolEntry c oldest)) as (Hl' & He & Hb).
    { apply remove_ledger; [done|]. apply lru_identified; [done|]. rewrite El. left. }
    split_and!; [done| |].
    + intros h k e Hin. apply He, entry_in_remove in Hin. by destruct Hin.
    + intros Hn. apply Hb. cbn. rewrite El. cbn. rewrite Nat.eqb_refl. cbn.
      pose proof (sublist_length _ _ (filter_sublist (fun x => negb (en_id x =? en_id oldest)%nat) l)).
      cbn in Hn. lia.
Qed.

Lemma byte_size_nonneg rows : 0 ≤ estimateDecodedSearchPoolBytes rows.
Proof.
  apply sumZ_nonneg. intros r _. unfold byte_length, str_length, lengthZ. lia.
Qed.

Definition bounded (c : cache) : Prop :=
  ledger c ∧ decodedSearchPoolBytes c ≤ DECODED_SEARCH_POOL_CACHE_MAX_BYTES.

(** Removals lower the bytes. *)
Lemma remove_bounded c e : bounded c → identified c e → bounded (removeDecodedSearchPoolEntry c e).
Proof.
  intros [Hl Hb] Hid. split; [by apply remove_ledger|]. pose proof (remove_ledger c e Hl Hid) as Hl'.
  rewrite (lg_bytes _ Hl'), remove_lru_eq. rewrite (lg_bytes c Hl), (sum_without e) in Hb by (done || apply Hl).
  destruct (existsb _ _) eqn:Ex; [|lia].
  apply existsb_exists in Ex as (x & Hx%list_elem_of_In & E%Nat.eqb_eq).
  pose proof (proj1 (Forall_forall _ _) (lg_sizes c Hl) x Hx) as Hs. rewrite (Hid x Hx E) in Hs. lia.
Qed.

Lemma remove_all_spec (f : string * DecodedSearchPoolEntry → bool) l : ∀ c,
  bounded c → Forall (fun ke => identified c ke.2) l →
  let c' := foldl (fun c ke => if f ke then removeDecodedSearchPoolEntry c ke.2 else c) c l in
  bounded c' ∧ (∀ h k e, entry_in c' h k e → entry_in c h k e).
Proof.
  induction l as [|ke l IH]; intros c Hb Hid; [done|]. cbn [foldl].
  apply Forall_cons in Hid as [Hk Hid]. destruct (f ke); [|by apply IH].
  destruct (IH (removeDecodedSearchPoolEntry c ke.2)) as [Hb' He].
  - by apply remove_bounded.
  - eapply Forall_impl; [exact Hid|]. intros x. apply remove_identified.
  - split; [done|]. intros h k e Hin. apply He, entry_in_remove in Hin. by destruct Hin.
Qed.

(** *** The operations on the cache *)

Lemma pool_identified c h pool : ledger c → JsMap.get (decodedSearchPools c) h = Some pool →
  Forall (fun ke => identified c ke.2) pool.
Proof.
  intros Hl Hp. apply Forall_forall. intros [k e] Hin. apply lru_identified; [done|].
  apply (lg_entries c Hl h k e). unfold entry_in, pool_of. rewrite Hp. apply JsMap.get_in; [by eapply lg_wf|done].
Qed.

Lemma pool_bounded c h : bounded c → bounded (getDecodedSearchPool c h).
Proof.
  intros [[Hids Hb He Hf Hs Hw] Hmax]. unfold bounded.
  assert (ledger (getDecodedSearchPool c h) ∧
    decodedSearchPoolBytes (getDecodedSearchPool c h) = decodedSearchPoolBytes c) as [Hl ->]; [|by split].
  pose proof (entry_in_pool c h) as Hin. unfold getDecodedSearchPool in *.
  destruct (JsMap.get (decodedSearchPools c) h) eqn:E; [done|]. split; [|done]. split; try done.
  - intros h' k e. by rewrite Hin, He.
  - intros h' pool Hp. cbn in Hp. rewrite get_set_cases in Hp. destruct (decide _); [|eauto].
    injection Hp as <-. constructor.
Qed.

Lemma touch_bounded c e : bounded c → e ∈ decodedSearchPoolLru c → bounded (touchDecodedSearchPoolEntry c e).
Proof.
  intros [Hl Hmax] Hin. pose proof (lru_identified c e Hl Hin) as Hid. pose proof (remove_ledger c e Hl Hid) as Hr.
  destruct Hl as [Hids Hb He Hf Hs Hw]. split; [|done]. unfold touchDecodedSearchPoolEntry.
  pose proof (lg_ids _ Hr) as Hrids. rewrite remove_lru_eq in Hrids.
  fold (without e (decodedSearchPoolLru c)).
  split; cbn [decodedSearchPoolLru decodedSearchPoolBytes decodedSearchPools next_entry].
  - rewrite fmap_app. apply NoDup_app. split_and!; [done| |apply NoDup_singleton].
    intros i (x & -> & Hx)%list_elem_of_fmap. apply elem_without in Hx as [_ Hx].
    cbn. by rewrite list_elem_of_singleton.
  - rewrite Hb, sumZ_app, (sum_without e) by done. rewrite (proj2 (existsb_exists _ _)); [cbn; lia|].
    exists e. split; [by apply list_elem_of_In|by apply Nat.eqb_eq].
  - intros h k x. change (entry_in c h k x ↔ x ∈ without e (decodedSearchPoolLru c) ++ [e] ∧ en_db x = h ∧ en_key x = k).
    rewrite He, elem_of_app, list_elem_of_singleton, elem_without. split.
    + intros (Hx & ? & ?). split_and!; [|done..]. destruct (decide (en_id x = en_id e)) as [E|E]; [right|by left].
      by apply Hid.
    + intros ([[Hx _]| ->] & ? & ?); done.
  - apply Forall_app. split; [by apply Forall_filter_bool|]. constructor; [|constructor].
    rewrite Forall_forall in Hf. by apply Hf.
  - apply Forall_app. split; [by apply Forall_filter_bool|]. constructor; [|constructor].
    rewrite Forall_forall in Hs. by apply Hs.
  - done.
Qed.

(** The entry [cacheDecodedSearchPool] makes. *)
Definition new_entry (c : cache) (h : nat) (key : string) (rowCount maxRowId : Z)
    (rows : list StoredCompartmentChunkEmbedding) : DecodedSearchPoolEntry :=
  {| en_id := next_entry c; en_db := h; en_key := key; en_rowCount := rowCount; en_maxRowId := maxRowId;
     en_rows := rows; en_byteSize := estimateDecodedSearchPoolBytes rows |}.

Definition add_entry (c : cache) (e : DecodedSearchPoolEntry) : cache :=
  {| decodedSearchPools := JsMap.set (decodedSearchPools c) (en_db e) (JsMap.set (pool_of c (en_db e)) (en_key e) e);
     decodedSearchPoolLru := decodedSearchPoolLru c ++ [e];
     decodedSearchPoolBytes := decodedSearchPoolBytes c + en_byteSize e;
     next_entry := S (next_entry c) |}.

Lemma entry_in_add c e h k x :
  entry_in (add_entry c e) h k x ↔ (x = e ∧ h = en_db e ∧ k = en_key e) ∨
    (entry_in c h k x ∧ ¬ (h = en_db e ∧ k = en_key e)).
Proof.
  unfold entry_in, pool_of. cbn. rewrite get_set_cases. destruct (decide (en_db e = h)) as [<-|Hh].
  - cbn [default from_option id]. rewrite get_set_cases. unfold pool_of.
    destruct (decide (en_key e = k)) as [<-|Hk]; naive_solver.
  - naive_solver.
Qed.

Lemma add_ledger c e : ledger c → en_id e = next_entry c → 0 ≤ en_byteSize e →
  JsMap.get (pool_of c (en_db e)) (en_key e) = None → ledger (add_entry c e).
Proof.
  intros [Hids Hb He Hf Hs Hw] Hid Hsize Hnone. rewrite Forall_forall in Hf.
  split; cbn [add_entry decodedSearchPoolLru decodedSearchPoolBytes decodedSearchPools next_entry].
  - rewrite fmap_app. apply NoDup_app. split_and!; [done| |apply NoDup_singleton].
    intros i (x & -> & Hx)%list_elem_of_fmap. cbn. rewrite list_elem_of_singleton, Hid.
    specialize (Hf x Hx). cbn in Hf. lia.
  - rewrite Hb, sumZ_app. cbn. lia.
  - intros h k x. rewrite entry_in_add, He, elem_of_app, list_elem_of_singleton. split.
    + intros [(-> & -> & ->)|[(Hx & <- & <-) _]]; auto.
    + intros ([Hx| ->] & <- & <-); [|auto]. right. split; [auto|]. intros (E1 & E2).
      assert (entry_in c (en_db e) (en_key e) x) as Hin by (by apply He).
      unfold entry_in in Hin. congruence.
  - apply Forall_app. split; [|constructor; [cbn; lia|constructor]]. apply Forall_forall. intros x Hx.
    specialize (Hf x Hx). cbn in *. lia.
  - apply Forall_app. split; [done|]. by constructor.
  - intros h pool Hp. rewrite get_set_cases in Hp. destruct (decide _); [|eauto]. injection Hp as <-.
    apply JsMap.wf_set. unfold pool_of. destruct (JsMap.get (decodedSearchPools c) (en_db e)) eqn:E; [eauto|constructor].
Qed.

Lemma cache_pool_spec c h key rowCount maxRowId rows :
  bounded c →
  let c' := cacheDecodedSearchPool c h key rowCount maxRowId rows in
  bounded c' ∧ ∀ h' k e, entry_in c' h' k e →
    entry_in c h' k e ∨ (k = key ∧ en_rowCount e = rowCount ∧ en_maxRowId e = maxRowId ∧ en_rows e = rows).
Proof.
  intros Hb. unfold cacheDecodedSearchPool. cbv zeta.
  set (c1 := match JsMap.get (pool_of c h) key with Some _ => _ | None => _ end).
  assert (bounded c1 ∧ (∀ h' k e, entry_in c1 h' k e → entry_in c h' k e) ∧ JsMap.get (pool_of c1 h) key = None)
    as ([Hl1 Hm1] & Hin1 & Hnone).
  { unfold c1. destruct (JsMap.get (pool_of c h) key) as [e|] eqn:E; [|done].
    assert (entry_in c h key e) as Hin by done. pose proof (lg_entries c (proj1 Hb) h key e) as Hchar.
    apply Hchar in Hin as (Hlru & Hdb & Hkey). split_and!.
    - apply remove_bounded; [done|]. apply lru_identified; [apply Hb|done].
    - intros h' k x Hx%entry_in_remove. by destruct Hx.
    - destruct (JsMap.get (pool_of (removeDecodedSearchPoolEntry c e) h) key) as [x|] eqn:Ex; [|done].
      assert (entry_in (removeDecodedSearchPoolEntry c e) h key x) as Hx by done.
      apply entry_in_remove in Hx as [Hx Hn]. exfalso. apply Hn. unfold entry_in in Hx.
      rewrite E in Hx. injection Hx as <-. done. }
  fold (new_entry c1 h key rowCount maxRowId rows). set (e := new_entry c1 h key rowCount maxRowId rows).
  change {| decodedSearchPools := JsMap.set (decodedSearchPools c1) h (JsMap.set (pool_of c1 h) key e);
            decodedSearchPoolLru := decodedSearchPoolLru c1 ++ [e];
            decodedSearchPoolBytes := decodedSearchPoolBytes c1 + en_byteSize e;
            next_entry := S (next_entry c1) |} with (add_entry c1 e).
  assert (ledger (add_entry c1 e)) as Hl by (apply add_ledger; [done|done|apply byte_size_nonneg|done]).
  destruct (evict_ledger (length (decodedSearchPoolLru (add_entry c1 e))) (add_entry c1 e) Hl) as (Hl' & Hin & Hmax).
  split; [split; [done|by apply Hmax]|]. intros h' k x Hx%Hin%entry_in_add.
  destruct Hx as [(-> & -> & ->)|[Hx _]]; [by right|left; auto].
Qed.

Lemma invalidate_spec c h predicate : bounded c →
  bounded (invalidateDecodedSearchPools c h predicate) ∧
  ∀ h' k e, entry_in (invalidateDecodedSearchPools c h predicate) h' k e → entry_in c h' k e.
Proof.
  intros Hb. unfold invalidateDecodedSearchPools. destruct (JsMap.get (decodedSearchPools c) h) as [pool|] eqn:Ep; [|done].
  pose proof (remove_all_spec (fun ke => match parse_key ke.1 with None => true | Some parts => predicate parts end)
    pool c Hb (pool_identified c h pool (proj1 Hb) Ep)) as Hall. cbv zeta in Hall.
  assert (∀ l c0, foldl (fun c ke => match parse_key ke.1 with
            | None => removeDecodedSearchPoolEntry c ke.2
            | Some parts => if predicate parts then removeDecodedSearchPoolEntry c ke.2 else c end) c0 l =
          foldl (fun c ke => if match parse_key ke.1 with None => true | Some parts => predicate parts end
                             then removeDecodedSearchPoolEntry c ke.2 else c) c0 l) as E.
  { clear. induction l as [|ke l IH]; intros c0; [done|]. cbn [foldl]. rewrite IH.
    by destruct (parse_key ke.1). }
  by rewrite E.
Qed.

Lemma remove_list_lru l : ∀ c x,
  x ∈ decodedSearchPoolLru (foldl removeDecodedSearchPoolEntry c l) →
  x ∈ decodedSearchPoolLru c ∧ ∀ e, e ∈ l → en_id x ≠ en_id e.
Proof.
  induction l as [|e l IH]; intros c x Hx; [split; [done|set_solver]|].
  apply IH in Hx as [Hx Hl]. apply remove_lru in Hx as [Hx He]. split; [done|].
  intros e' [->|Hin]%elem_of_cons; auto.
Qed.

Lemma reset_spec c : bounded c →
  bounded (resetCompartmentChunkSearchCache c) ∧
  ∀ h k e, ¬ entry_in (resetCompartmentChunkSearchCache c) h k e.
Proof.
  intros Hb. unfold resetCompartmentChunkSearchCache.
  set (c1 := foldl removeDecodedSearchPoolEntry c (decodedSearchPoolLru c)).
  assert (ledger c1) as Hl1.
  { unfold c1. assert (Forall (identified c) (decodedSearchPoolLru c)) as Hall
      by (apply Forall_forall; intros e; apply lru_identified, Hb).
    destruct Hb as [Hl _]. revert Hall Hl. generalize (decodedSearchPoolLru c) as l. clear.
    intros l. revert c. induction l as [|e l IH]; intros c Hall Hl; [done|].
    apply Forall_cons in Hall as [He Hall]. cbn. apply IH; [|by apply remove_ledger].
    eapply Forall_impl; [exact Hall|]. intros x. apply remove_identified. }
  assert (decodedSearchPoolLru c1 = []) as Elru.
  { destruct (decodedSearchPoolLru c1) as [|x l] eqn:E; [done|]. exfalso.
    assert (x ∈ decodedSearchPoolLru c1) as Hx by (rewrite E; left).
    unfold c1 in Hx. apply remove_list_lru in Hx as [Hx Hn]. by apply (Hn x). }
  assert (∀ h k e, ¬ entry_in c1 h k e) as Hnone.
  { intros h k e Hin. apply (lg_entries c1 Hl1) in Hin as (Hin & _). rewrite Elru in Hin. set_solver. }
  split; [|exact Hnone]. split; [|done]. destruct Hl1 as [_ _ _ _ _ Hw]. split; cbn; try constructor; try done.
  - intros Hin. by apply Hnone in Hin.
  - intros (Hin & _). set_solver.
Qed.

(** ** Reachable states

    The process's connections share one database file with other processes. Writes
    of others insert and delete rows; what they do not do is move rows between
    projects. *)

Record world := { w_db : database; w_cache : cache }.

Inductive step : world → world → Prop :=
| step_insert_compartment w session title start end_ :
    step w {| w_db := insert_compartment (w_db w) session title start end_; w_cache := w_cache w |}
| step_delete_compartments w gone :
    step w {| w_db := delete_compartments (w_db w) gone; w_cache := w_cache w |}
| step_insert_chunk w row d :
    insert_chunk (w_db w) row = Ok d → step w {| w_db := d; w_cache := w_cache w |}
| step_delete_chunks w gone :
    step w {| w_db := delete_chunks (w_db w) gone; w_cache := w_cache w |}
| step_replace w harness now h rows d c :
    replaceCompartmentChunkEmbeddings harness now (w_db w) (w_cache w) h rows = Ok (d, c) →
    step w {| w_db := d; w_cache := c |}
| step_delete_for_model w h compartmentId modelId d c :
    deleteCompartmentChunkEmbeddingsForModel (w_db w) (w_cache w) h compartmentId modelId = (d, c) →
    step w {| w_db := d; w_cache := c |}
| step_load w h sessionId projectPath modelId touched c r :
    loadCompartmentChunkEmbeddingsForSearch (w_db w) (w_cache w) h sessionId projectPath modelId touched = (c, r) →
    step w {| w_db := w_db w; w_cache := c |}
| step_reset w :
    step w {| w_db := w_db w; w_cache := resetCompartmentChunkSearchCache (w_cache w) |}.

(** A process starts on a well-formed database with an empty cache. *)
Inductive reachable : world → Prop :=
| reachable_start d : db_ok d → reachable {| w_db := d; w_cache := empty_cache |}
| reachable_step w w' : reachable w → step w w' → reachable w'.

(** What a search has to get: the rows as the database holds them, decoded. *)
Definition stored_rows (d : database) (sessionId projectPath modelId : string)
    : option (list StoredCompartmentChunkEmbedding) :=
  mapM decode_row (getSearchRowsStatement d sessionId projectPath modelId).

(** *** Coherence *)

(** An entry holds the rows of a database this one evolved from, with the probe it
    had then. *)
Definition entry_ok (d : database) (key : string) (e : DecodedSearchPoolEntry) : Prop :=
  ∃ sessionId projectPath modelId d0,
    key = searchPoolKey sessionId projectPath modelId ∧ db_ok d0 ∧ evolves d0 d ∧
    getSearchPoolProbeStatement d0 sessionId projectPath modelId = (en_rowCount e, en_maxRowId e) ∧
    stored_rows d0 sessionId projectPath modelId = Some (en_rows e).

Definition coherent (w : world) : Prop :=
  db_ok (w_db w) ∧ bounded (w_cache w) ∧ ∀ h k e, entry_in (w_cache w) h k e → entry_ok (w_db w) k e.

Lemma coherent_grow d d' c c' :
  coherent {| w_db := d; w_cache := c |} → grows d d' → bounded c' →
  (∀ h k e, entry_in c' h k e → entry_in c h k e) → coherent {| w_db := d'; w_cache := c' |}.
Proof.
  intros (Hd & _ & Hok) Hg Hb Hin. destruct (Hg Hd) as [Hd' Hev]. split_and!; [done..|].
  intros h k e He. destruct (Hok h k e (Hin h k e He)) as (s & p & m & d0 & Hk & H0 & Hev0 & Hp & Hs).
  exists s, p, m, d0. split_and!; [done|done|by etrans|done|done].
Qed.

(** A validated entry is what the database holds. *)
Lemma valid_entry d sessionId projectPath modelId e :
  db_ok d → entry_ok d (searchPoolKey sessionId projectPath modelId) e →
  getSearchPoolProbeStatement d sessionId projectPath modelId = (en_rowCount e, en_maxRowId e) →
  stored_rows d sessionId projectPath modelId = Some (en_rows e).
Proof.
  intros Hd (s & p & m & d0 & Hk & H0 & Hev & Hp & Hs) Hprobe.
  apply searchPoolKey_inj in Hk as (-> & -> & ->). unfold stored_rows in *.
  rewrite <- (same_probe_same_search s p m d0 d); [done..|]. by rewrite Hp, Hprobe.
Qed.

Lemma load_spec d c h sessionId projectPath modelId touched :
  coherent {| w_db := d; w_cache := c |} → modelId ≠ EmptyString →
  let '(c', r) := loadCompartmentChunkEmbeddingsForSearch d c h sessionId projectPath modelId touched in
  coherent {| w_db := d; w_cache := c' |} ∧
  match stored_rows d sessionId projectPath modelId with
  | Some rows => ∃ load, r = Ok (rows, load)
  | None => r = Err vector_length_invalid
  end.
Proof.
  intros (Hd & Hb & Hok) Hm. cbn in Hd, Hb, Hok. unfold loadCompartmentChunkEmbeddingsForSearch.
  rewrite bool_decide_false by done. cbv zeta.
  set (key := searchPoolKey sessionId projectPath modelId).
  pose proof (pool_bounded c h Hb) as Hb1.
  assert (∀ h' k e, entry_in (getDecodedSearchPool c h) h' k e → entry_ok d k e) as Hok1
    by (intros h' k e Hin%entry_in_pool; by eapply Hok).
  set (c1 := getDecodedSearchPool c h) in *.
  destruct (getSearchPoolProbeStatement d sessionId projectPath modelId) as [rowCount maxRowId] eqn:Eprobe.
  fold (stored_rows d sessionId projectPath modelId).
  (* A miss reads the rows and caches them. *)
  assert (∀ c2, bounded c2 → (∀ h' k e, entry_in c2 h' k e → entry_ok d k e) →
    let '(c', r) :=
      match stored_rows d sessionId projectPath modelId with
      | None => (c2, Err vector_length_invalid)
      | Some decodedRows =>
          (cacheDecodedSearchPool c2 h key rowCount maxRowId decodedRows,
           Ok (decodedRows, {| vl_decodedBytes := searchPoolVectorBytes decodedRows; vl_cachedBytes := 0;
                               vl_vectorCount := lengthZ decodedRows; vl_cacheHit := false |}))
      end in
    coherent {| w_db := d; w_cache := c' |} ∧
    match stored_rows d sessionId projectPath modelId with
    | Some rows => ∃ load, r = Ok (rows, load)
    | None => r = Err vector_length_invalid
    end) as Hmiss.
  { intros c2 Hb2 Hok2. destruct (stored_rows d sessionId projectPath modelId) as [rows|] eqn:Erows; [|done].
    destruct (cache_pool_spec c2 h key rowCount maxRowId rows Hb2) as [Hb' Hin].
    split; [|by eexists]. split_and!; [done..|]. intros h' k e He. cbn in He.
    destruct (Hin h' k e He) as [He'|(-> & E1 & E2 & E3)]; [eauto|].
    exists sessionId, projectPath, modelId, d. rewrite E1, E2, E3. split_and!; try done. }
  destruct (JsMap.get (pool_of c1 h) key) as [e|] eqn:Ecached; [|by apply Hmiss].
  assert (entry_in c1 h key e) as Hin by done.
  destruct ((en_rowCount e =? rowCount) && (en_maxRowId e =? maxRowId)) eqn:Evalid.
  - apply andb_true_iff in Evalid as [E1%Z.eqb_eq E2%Z.eqb_eq].
    rewrite (valid_entry d sessionId projectPath modelId e Hd (Hok1 h key e Hin)) by by rewrite Eprobe, E1, E2.
    split; [|by eexists].
    assert (e ∈ decodedSearchPoolLru c1) as Hlru by (by apply (lg_entries c1 (proj1 Hb1) h key e) in Hin as [? _]).
    split_and!; [done|by apply touch_bounded|done].
  - apply Hmiss.
    + apply remove_bounded; [done|]. apply lru_identified; [apply Hb1|].
      by apply (lg_entries c1 (proj1 Hb1) h key e) in Hin as [? _].
    + intros h' k x Hx%entry_in_remove. destruct Hx as [Hx _]. eauto.
Qed.

Lemma load_no_model d c h sessionId projectPath touched :
  loadCompartmentChunkEmbeddingsForSearch d c h sessionId projectPath EmptyString touched = (c, Err model_id_missing).
Proof. done. Qed.

Lemma step_coherent w w' : coherent w → step w w' → coherent w'.
Proof.
  intros Hw Hs. destruct Hs as [[d c] session title start end_|[d c] gone|[d c] row d' E|[d c] gone|
    [d c] harness now h rows d' c' E|[d c] h compartmentId modelId d' c' E|[d c] h s p m t c' r E|[d c]];
    cbn [w_db w_cache] in *; pose proof (proj1 (proj2 Hw)) as Hb; cbn [w_cache] in Hb.
  - eapply coherent_grow; [exact Hw|apply insert_compartment_grows|done|done].
  - eapply coherent_grow; [exact Hw|apply delete_compartments_grows|done|done].
  - eapply coherent_grow; [exact Hw|by eapply insert_chunk_grows|done|done].
  - eapply coherent_grow; [exact Hw|apply delete_chunks_grows|done|done].
  - unfold replaceCompartmentChunkEmbeddings in E. destruct rows as [|first rows]; inv_ok; [done|].
    eapply coherent_grow; [exact Hw| |apply invalidate_spec, Hb|apply invalidate_spec, Hb].
    eapply grows_trans; [apply delete_chunks_grows|by eapply insert_all_grows].
  - injection E as <- <-.
    eapply coherent_grow; [exact Hw|apply delete_chunks_grows|apply invalidate_spec, Hb|apply invalidate_spec, Hb].
  - destruct (decide (m = EmptyString)) as [->|Hm].
    + rewrite load_no_model in E. by injection E as <- _.
    + pose proof (load_spec d c h s p m t Hw Hm) as Hl. rewrite E in Hl. apply Hl.
  - destruct (reset_spec c Hb) as [Hb' Hnone]. destruct Hw as (Hd & _ & _).
    split_and!; [done..|]. intros h k e Hin. by apply Hnone in Hin.
Qed.

Lemma empty_bounded : bounded empty_cache.
Proof.
  split; [|done]. split; [apply NoDup_nil_2|done| |by constructor|by constructor|done].
  intros h k e. split; [done|]. intros (Hin & _). set_solver.
Qed.

Lemma reachable_coherent w : reachable w → coherent w.
Proof.
  induction 1 as [d Hd|w w' _ IH Hs]; [|by eapply step_coherent].
  split_and!; [done|apply empty_bounded|]. intros h k e Hin. done.
Qed.

(** C14: Searching reads what is stored: whatever the connections of the process, and
    other processes, inserted, replaced, deleted and loaded before, a load returns
    the decoded rows the database holds now, from the cache or not, and fails only
    when a stored vector cannot be decoded. *)
Theorem search_pool_coherent w h sessionId projectPath modelId touched :
  reachable w → modelId ≠ EmptyString →
  let r := (loadCompartmentChunkEmbeddingsForSearch (w_db w) (w_cache w) h sessionId projectPath modelId touched).2 in
  match stored_rows (w_db w) sessionId projectPath modelId with
  | Some rows => ∃ load, r = Ok (rows, load)
  | None => r = Err vector_length_invalid
  end.
Proof.
  intros Hr Hm r. pose proof (reachable_coherent w Hr) as Hc. destruct w as [d c].
  pose proof (load_spec d c h sessionId projectPath modelId touched Hc Hm) as Hl.
  unfold r. cbn [w_db w_cache] in *. destruct (loadCompartmentChunkEmbeddingsForSearch _ _ _ _ _ _ _) as [c' r'].
  apply Hl.
Qed.

(** The cache keeps its books: in every reachable state the byte count is the sum
    of the entries', it is within the limit, the recency list holds exactly the
    entries the connections' maps hold, and no entry twice. *)
Theorem search_pool_ledger w :
  reachable w →
  decodedSearchPoolBytes (w_cache w) = sumZ en_byteSize (decodedSearchPoolLru (w_cache w)) ∧
  decodedSearchPoolBytes (w_cache w) ≤ DECODED_SEARCH_POOL_CACHE_MAX_BYTES ∧
  NoDup (en_id <$> decodedSearchPoolLru (w_cache w)) ∧
  (∀ h k e, entry_in (w_cache w) h k e ↔
     e ∈ decodedSearchPoolLru (w_cache w) ∧ en_db e = h ∧ en_key e = k).
Proof.
  intros Hr. destruct (reachable_coherent w Hr) as (_ & [Hl Hmax] & _).
  split_and!; [apply Hl|done|apply Hl|apply Hl].
Qed.

(** ** Replacing a compartment's windows *)

Definition chunk_key (r : chunk_row) : Z * string * Z := (ce_compartment r, ce_model r, ce_windowIndex r).

Lemma same_chunk_key_iff a b : same_chunk_key a b = true ↔ chunk_key a = chunk_key b.
Proof.
  unfold same_chunk_key, chunk_key. rewrite !andb_true_iff, !Z.eqb_eq, bool_decide_eq_true.
  split; [by intros [[-> ->] ->]|by intros [= -> -> ->]].
Qed.

(** A row with the id it was given. *)
Definition stored_as (row r : chunk_row) : Prop :=
  chunk_key r = chunk_key row ∧ ce_session r = ce_session row ∧ ce_project r = ce_project row ∧
  ce_start r = ce_start row ∧ ce_end r = ce_end row ∧ ce_hash r = ce_hash row ∧ ce_vector r = ce_vector row.

Lemma insert_chunk_ok d row :
  is_Some (find_compartment d (ce_compartment row)) → chunk_key row ∉ chunk_key <$> db_chunks d →
  ∃ d' r, insert_chunk d row = Ok d' ∧ db_chunks d' = db_chunks d ++ [r] ∧ stored_as row r ∧
    db_compartments d' = db_compartments d.
Proof.
  intros [c Hc] Hk. unfold insert_chunk. rewrite Hc.
  destruct (existsb (same_chunk_key row) (db_chunks d)) eqn:Ex.
  { exfalso. apply Hk. apply existsb_exists in Ex as (x & Hx & Hs). apply same_chunk_key_iff in Hs.
    rewrite Hs. apply list_elem_of_fmap. exists x. split; [done|by apply list_elem_of_In]. }
  eexists _, _. split_and!; [done|done| |done]. by split_and!.
Qed.

Lemma insert_all_ok rows : ∀ d,
  Forall (fun row => is_Some (find_compartment d (ce_compartment row))) rows →
  NoDup (chunk_key <$> rows) → (∀ row, row ∈ rows → chunk_key row ∉ chunk_key <$> db_chunks d) →
  ∃ d' news, insert_all d rows = Ok d' ∧ db_chunks d' = db_chunks d ++ news ∧ Forall2 stored_as rows news.
Proof.
  induction rows as [|row rows IH]; intros d Hf Hnd Hk; cbn [insert_all].
  { exists d, []. rewrite app_nil_r. by split_and!. }
  apply Forall_cons in Hf as [Hf Hfs]. cbn in Hnd. apply NoDup_cons in Hnd as [Hn Hnd].
  destruct (insert_chunk_ok d row Hf) as (d1 & r & -> & E & Hr & Ec); [apply Hk; left|].
  destruct (IH d1) as (d' & news & E' & Ed & Hnews).
  - eapply Forall_impl; [exact Hfs|]. intros x. unfold find_compartment. by rewrite Ec.
  - done.
  - intros x Hx. rewrite E, fmap_app, not_elem_of_app. split; [apply Hk; by right|]. cbn.
    rewrite list_elem_of_singleton. destruct Hr as [-> _]. intros Hxk. apply Hn. rewrite <- Hxk.
    by apply list_elem_of_fmap_2.
  - exists d', (r :: news). split_and!; [exact E'| |by constructor]. by rewrite Ed, E, <- app_assoc.
Qed.

(** Setting the entries of a list with distinct keys. *)
Lemma foldl_set_spec (l : list chunk_row) : ∀ m,
  NoDup (ce_windowIndex <$> l) → (∀ r, r ∈ l → ce_windowIndex r ∉ JsMap.keys m) →
  foldl (fun m r => JsMap.set m (ce_windowIndex r) (ce_hash r)) m l =
  m ++ ((fun r => (ce_windowIndex r, ce_hash r)) <$> l).
Proof.
  induction l as [|r l IH]; intros m Hnd Hk; cbn [foldl fmap list_fmap]; [by rewrite app_nil_r|].
  cbn in Hnd. apply NoDup_cons in Hnd as [Hr Hnd].
  rewrite JsMap.set_absent by (apply Hk; left). rewrite IH; [by rewrite <- app_assoc|done|].
  intros x Hx. unfold JsMap.keys. rewrite fmap_app, not_elem_of_app. split; [apply Hk; by right|].
  cbn. rewrite list_elem_of_singleton. intros E. apply Hr. rewrite <- E. by apply list_elem_of_fmap_2.
Qed.

Lemma filter_perm_bool {A} (f : A → bool) l1 l2 : List.filter f (l1 ++ l2) = List.filter f l1 ++ List.filter f l2.
Proof. apply List.filter_app. Qed.

Lemma filter_true {A} (f : A → bool) l : Forall (fun x => f x = true) l → List.filter f l = l.
Proof. induction 1 as [|x l Hx _ IH]; cbn; [done|]. by rewrite Hx, IH. Qed.

Lemma filter_false {A} (f : A → bool) l : Forall (fun x => f x = false) l → List.filter f l = [].
Proof. induction 1 as [|x l Hx _ IH]; cbn; [done|]. by rewrite Hx. Qed.

Lemma numbered_unique sha256_hex first ws :
  numbered_from sha256_hex first ws → NoDup (cw_windowIndex <$> ws).
Proof.
  intros Hn. apply NoDup_alt. intros i j x Hi Hj. rewrite list_lookup_fmap in Hi, Hj.
  destruct (ws !! i) as [w|] eqn:Ei; [|done]. destruct (ws !! j) as [w'|] eqn:Ej; [|done].
  cbn in Hi, Hj. injection Hi as <-. injection Hj as E.
  destruct (Hn i w Ei) as [E1 _], (Hn j w' Ej) as [E2 _]. lia.
Qed.

Section replace.
Context (compartmentId : Z) (sessionId projectPath modelId : string).

(** The rows the embedder writes for a compartment's windows and their vectors. *)
Definition rows_for (windows : list (CompartmentChunkWindow * vector32)) : list SaveCompartmentChunkEmbeddingInput :=
  (fun wv => {| si_compartmentId := compartmentId; si_sessionId := sessionId; si_projectPath := projectPath;
                si_window := wv.1; si_modelId := modelId; si_vector := wv.2; si_createdAt := None |}) <$> windows.

(** The row a window is stored as. *)
Definition window_row (wv : CompartmentChunkWindow * vector32) (r : chunk_row) : Prop :=
  ce_compartment r = compartmentId ∧ ce_session r = sessionId ∧ ce_project r = projectPath ∧
  ce_model r = modelId ∧ ce_windowIndex r = cw_windowIndex wv.1 ∧ ce_start r = cw_startOrdinal wv.1 ∧
  ce_end r = cw_endOrdinal wv.1 ∧ ce_hash r = cw_chunkHash wv.1 ∧ toFloat32Array (ce_vector r) = Some wv.2.

Lemma stored_window harness now windows news :
  Forall (fun wv => words wv.2) windows →
  Forall2 stored_as (inserted_row harness now <$> rows_for windows) news → Forall2 window_row windows news.
Proof.
  unfold rows_for. revert news. induction windows as [|[w v] windows IH]; intros news Hw Hs; cbn in Hs.
  - apply Forall2_nil_inv_l in Hs as ->. constructor.
  - apply Forall2_cons_inv_l in Hs as (r & news' & Hr & Hs & ->). apply Forall_cons in Hw as [Hv Hw].
    constructor; [|by apply IH]. destruct Hr as (Hk & E1 & E2 & E3 & E4 & E5 & E6).
    unfold chunk_key in Hk. cbn in Hk, E1, E2, E3, E4, E5, E6. injection Hk as F1 F2 F3.
    unfold window_row. rewrite F1, F2, F3, E1, E2, E3, E4, E5, E6.
    split_and!; try done. by apply vector_roundtrip.
Qed.

Lemma current_windows d olds news windows project :
  db_chunks d = olds ++ news → Forall (fun r => chunk_key r ∉ chunk_key <$> news ∧
    negb ((ce_compartment r =? compartmentId) && bool_decide (ce_model r = modelId)) = true) olds →
  Forall2 window_row windows news → NoDup (cw_windowIndex <$> windows.*1) →
  project = None ∨ project = Some projectPath →
  chunkEmbeddingWindowsAreCurrent d compartmentId modelId windows.*1 project = true.
Proof.
  intros E Hold Hnew Hnd Hproject. unfold chunkEmbeddingWindowsAreCurrent, getExistingChunkHashes.
  set (scoped := match project with Some (String _ _) => project | _ => None end).
  assert (scoped = None ∨ scoped = Some projectPath) as Hscoped.
  { unfold scoped. destruct Hproject as [-> | ->]; [by left|]. destruct projectPath; auto. }
  unfold getExistingHashStatement. rewrite E, List.filter_app, filter_false, filter_true; cbn [app].
  - set (sorted := js_sort by_window news).
    assert (sorted ≡ₚ news) as Hperm by apply js_sort_perm.
    assert (ce_windowIndex <$> news = cw_windowIndex <$> windows.*1) as Ei.
    { clear -Hnew. induction Hnew as [|[w v] r windows news Hr _ IH]; [done|]. cbn. rewrite IH.
      by destruct Hr as (_ & _ & _ & _ & -> & _). }
    assert (NoDup (ce_windowIndex <$> sorted)) as Hnds by (by rewrite Hperm, Ei).
    rewrite foldl_set_spec; [|done|intros r _; apply not_elem_of_nil]. cbn [app].
    apply andb_true_iff. split.
    + apply Z.eqb_eq. unfold JsMap.size, lengthZ. rewrite length_fmap, Hperm, length_fmap.
      by rewrite (Forall2_length _ _ _ Hnew).
    + apply forallb_forall. intros w Hw. apply bool_decide_eq_true.
      apply list_elem_of_In, list_elem_of_fmap in Hw as (wv & -> & Hw).
      apply list_elem_of_lookup in Hw as (i & Hi). destruct (Forall2_lookup_l _ _ _ _ _ Hnew Hi) as (r & Hr & Hwr).
      apply JsMap.get_in.
      * unfold JsMap.wf, JsMap.keys. rewrite <- list_fmap_compose. exact Hnds.
      * apply list_elem_of_fmap. exists r. destruct Hwr as (_ & _ & _ & _ & -> & _ & _ & -> & _).
        split; [done|]. rewrite Hperm. by eapply list_elem_of_lookup_2.
  - clear -Hnew Hscoped. induction Hnew as [|wv r windows news Hr _ IH]; constructor; [|done].
    destruct Hr as (E1 & _ & E2 & E3 & _). cbv beta. rewrite E1, E2, E3, Z.eqb_refl, bool_decide_true by done.
    destruct Hscoped as [-> | ->]; [done|]. by rewrite bool_decide_true.
  - eapply Forall_impl; [exact Hold|]. intros r [_ Hr]. apply negb_true_iff in Hr. by rewrite Hr.
Qed.

(** Writing a compartment's windows makes them current: for an existing
    compartment, numbered windows and vectors of 32-bit elements the replacement
    succeeds, afterwards the windows count as current, scoped to the project or
    not, and each is stored with its ordinals, hash and a vector that decodes to
    the one given; no other row of the compartment and model remains. *)
Theorem replaced_windows_current sha256_hex first harness now d c h windows :
  is_Some (find_compartment d compartmentId) →
  windows ≠ [] → numbered_from sha256_hex first windows.*1 → Forall (fun wv => words wv.2) windows →
  ∃ d' c' news, replaceCompartmentChunkEmbeddings harness now d c h (rows_for windows) = Ok (d', c') ∧
    (∀ project, project = None ∨ project = Some projectPath →
       chunkEmbeddingWindowsAreCurrent d' compartmentId modelId windows.*1 project = true) ∧
    Forall2 window_row windows news ∧
    List.filter (fun r => (ce_compartment r =? compartmentId) && bool_decide (ce_model r = modelId))
      (db_chunks d') = news.
Proof.
  intros Hc Hne Hnum Hw. apply numbered_unique in Hnum as Hnd.
  set (d1 := getDeleteByCompartmentStatement d compartmentId modelId).
  set (rows := inserted_row harness now <$> rows_for windows).
  assert (∀ row, row ∈ rows → ce_compartment row = compartmentId ∧ ce_model row = modelId) as Hrows.
  { intros row. unfold rows, rows_for. rewrite !list_elem_of_fmap. intros (x & -> & Hx).
    apply list_elem_of_fmap in Hx as (wv & -> & _). done. }
  assert (∀ r, r ∈ db_chunks d1 →
    negb ((ce_compartment r =? compartmentId) && bool_decide (ce_model r = modelId)) = true) as Hgone.
  { intros r Hr. by apply list_elem_of_In, List.filter_In in Hr as [_ Hr]. }
  destruct (insert_all_ok rows d1) as (d' & news & E & Ed & Hs).
  - apply Forall_forall. intros row Hrow. destruct (Hrows row Hrow) as [-> _]. done.
  - assert (chunk_key <$> rows = (fun i => (compartmentId, modelId, i)) <$> (cw_windowIndex <$> windows.*1)) as ->.
    { unfold rows, rows_for. rewrite <- !list_fmap_compose. done. }
    apply NoDup_fmap; [|done]. by intros i j [= ->].
  - intros row Hrow (r & Hk & Hr)%list_elem_of_fmap. destruct (Hrows row Hrow) as [E1 E2].
    unfold chunk_key in Hk. injection Hk as Hk1 Hk2 _. specialize (Hgone r Hr).
    rewrite <- Hk1, <- Hk2, E1, E2, Z.eqb_refl, bool_decide_true in Hgone by done. done.
  - pose proof (stored_window harness now windows news Hw Hs) as Hnew.
    assert (∃ f rest, rows_for windows = f :: rest ∧ si_compartmentId f = compartmentId ∧ si_modelId f = modelId)
      as (f & rest & Ef & Ec & Em) by (destruct windows; [done|by eexists _, _]).
    exists d'. eexists _, news. split_and!.
    + unfold replaceCompartmentChunkEmbeddings. unfold rows in E. rewrite Ef in *. rewrite Ec, Em.
      fold d1. rewrite E. reflexivity.
    + intros project Hp. eapply current_windows; [exact Ed| |exact Hnew|exact Hnd|exact Hp].
      apply Forall_forall. intros r Hr. split; [|by apply Hgone].
      intros (r' & Hk & Hr')%list_elem_of_fmap. apply list_elem_of_lookup in Hr' as (i & Hi).
      destruct (Forall2_lookup_r _ _ _ _ _ Hnew Hi) as (wv & _ & (E1 & _ & _ & E2 & _)).
      specialize (Hgone r Hr). unfold chunk_key in Hk. injection Hk as Hk1 Hk2 _.
      rewrite Hk1, Hk2, E1, E2, Z.eqb_refl, bool_decide_true in Hgone by done. done.
    + done.
    + rewrite Ed, List.filter_app, filter_false, filter_true; [done| |].
      * clear -Hnew. induction Hnew as [|wv r windows news Hr _ IH]; constructor; [|done].
        destruct Hr as (E1 & _ & _ & E2 & _). cbv beta. by rewrite E1, E2, Z.eqb_refl, bool_decide_true by done.
      * apply Forall_forall. intros r Hr. specialize (Hgone r Hr). by apply negb_true_iff in Hgone.
Qed.

End replace.

(** ** Witnesses *)

Definition sample_window (index : Z) (t : string) : CompartmentChunkWindow :=
  {| cw_windowIndex := index; cw_startOrdinal := nofZ index; cw_endOrdinal := nofZ index;
     cw_text := code_units t; cw_chunkHash := code_units t |}.

Definition sample_windows : list (CompartmentChunkWindow * vector32) :=
  [(sample_window 1 "one"%string, [1065353216; 0]); (sample_window 2 "two"%string, [0; 3212836864])].

Definition sample_db : database :=
  insert_compartment {| db_compartments := []; db_compartment_seq := 0; db_chunks := []; db_chunk_seq := 0 |}
    "s" "first" 1 9.

Lemma sample_db_ok : db_ok sample_db.
Proof.
  apply (insert_compartment_grows {| db_compartments := []; db_compartment_seq := 0; db_chunks := []; db_chunk_seq := 0 |}).
  split; cbn; try constructor. done.
Qed.

Definition sample_replaced : database * cache :=
  match replaceCompartmentChunkEmbeddings "opencode" 7 sample_db empty_cache 0 (rows_for 1 "s" "p" "m" sample_windows) with
  | Ok r => r
  | Err _ => (sample_db, empty_cache)
  end.

(** The windows are written and searched; then another process deletes one row, and
    a second connection searches. *)
Definition sample_world : world :=
  let '(d, c) := sample_replaced in
  let '(c, _) := loadCompartmentChunkEmbeddingsForSearch d c 0 "s" "p" "m" None in
  {| w_db := delete_chunks d (fun r => ce_id r =? 2); w_cache := c |}.

Lemma sample_world_reachable : reachable sample_world.
Proof.
  assert (reachable {| w_db := sample_replaced.1; w_cache := sample_replaced.2 |}) as H1.
  { eapply reachable_step; [apply reachable_start, sample_db_ok|].
    eapply (step_replace {| w_db := sample_db; w_cache := empty_cache |} "opencode" 7 0
              (rows_for 1 "s" "p" "m" sample_windows)). vm_compute. reflexivity. }
  assert (reachable {| w_db := sample_replaced.1;
    w_cache := (loadCompartmentChunkEmbeddingsForSearch sample_replaced.1 sample_replaced.2 0 "s" "p" "m" None).1 |}) as H2.
  { eapply reachable_step; [exact H1|].
    eapply (step_load {| w_db := sample_replaced.1; w_cache := sample_replaced.2 |} 0 "s" "p" "m" None).
    apply surjective_pairing. }
  exact (reachable_step _ _ H2 (step_delete_chunks _ (fun r => ce_id r =? 2))).
Qed.

Lemma search_pool_coherent_witness :
  (st_windowIndex <$> match stored_rows (w_db sample_world) "s" "p" "m" with Some rows => rows | None => [] end) = [1] ∧
  length (decodedSearchPoolLru (w_cache sample_world)) = 1%nat ∧
  match stored_rows (w_db sample_world) "s" "p" "m" with
  | Some rows => ∃ load, (loadCompartmentChunkEmbeddingsForSearch (w_db sample_world) (w_cache sample_world) 0
                            "s" "p" "m" None).2 = Ok (rows, load)
  | None => (loadCompartmentChunkEmbeddingsForSearch (w_db sample_world) (w_cache sample_world) 0
               "s" "p" "m" None).2 = Err vector_length_invalid
  end.
Proof.
  split_and!; [vm_compute; reflexivity..|].
  apply (search_pool_coherent sample_world 0 "s" "p" "m" None); [apply sample_world_reachable|discriminate].
Defined.

Lemma search_pool_ledger_witness :
  decodedSearchPoolBytes (w_cache sample_world) = sumZ en_byteSize (decodedSearchPoolLru (w_cache sample_world)).
Proof. apply (search_pool_ledger sample_world), sample_world_reachable. Defined.

Lemma replaced_windows_current_witness :
  ∃ d' c' news, replaceCompartmentChunkEmbeddings "opencode" 7 sample_db empty_cache 0
                  (rows_for 1 "s" "p" "m" sample_windows) = Ok (d', c') ∧
    (∀ project, project = None ∨ project = Some "p"%string →
       chunkEmbeddingWindowsAreCurrent d' 1 "m" sample_windows.*1 project = true) ∧
    Forall2 (window_row 1 "s" "p" "m") sample_windows news ∧
    List.filter (fun r => (ce_compartment r =? 1) && bool_decide (ce_model r = "m"%string)) (db_chunks d') = news.
Proof.
  apply (replaced_windows_current 1 "s" "p" "m" id 1 "opencode" 7 sample_db empty_cache 0 sample_windows).
  - vm_compute. by eexists.
  - done.
  - intros i w Hw. destruct i as [|[|i]]; cbn in Hw; [injection Hw as <-; split; reflexivity..|].
    by destruct i.
  - repeat constructor; done.
Defined.

(** What the steps leave out matters: moving a row from another project
    (features/magic-context/session-project-storage.ts does) after a row went
    leaves count and greatest id as they were, and the cache answers with the row
    that is gone. *)
Definition move_row (d : database) (id : Z) (project : string) : database :=
  with_chunks d ((fun r => if ce_id r =? id then
    {| ce_id := ce_id r; ce_compartment := ce_compartment r; ce_session := ce_session r;
       ce_project := project; ce_harness := ce_harness r; ce_windowIndex := ce_windowIndex r;
       ce_start := ce_start r; ce_end := ce_end r; ce_hash := ce_hash r; ce_model := ce_model r;
       ce_dims := ce_dims r; ce_vector := ce_vector r; ce_createdAt := ce_createdAt r |}
    else r) <$> db_chunks d).

Example moved_row_missed :
  let row index project := {| ce_id := 0; ce_compartment := 1; ce_session := "s"; ce_project := project;
    ce_harness := "opencode"; ce_windowIndex := index; ce_start := nofZ 1; ce_end := nofZ 1; ce_hash := [];
    ce_model := "m"; ce_dims := 0; ce_vector := []; ce_createdAt := 0 |} in
  match insert_all sample_db [row 1 "p"%string; row 2 "q"%string; row 3 "p"%string] with
  | Err _ => False
  | Ok d =>
      let '(c, _) := loadCompartmentChunkEmbeddingsForSearch d empty_cache 0 "s" "p" "m" None in
      let d' := move_row (delete_chunks d (fun r => ce_id r =? 1)) 2 "p" in
      match (loadCompartmentChunkEmbeddingsForSearch d' c 0 "s" "p" "m" None).2 with
      | Ok (rows, _) => List.map st_windowIndex rows = [1; 3]
      | Err _ => False
      end ∧
      match stored_rows d' "s" "p" "m" with
      | Some rows => List.map st_windowIndex rows = [2; 3]
      | None => False
      end
  end.
Proof. vm_compute. by split. Qed.
