(* ===== verification/SearchTrace.v ===== *)
(** * Search traces

    Models packages/plugin/src/features/magic-context/search-trace.ts: the recorder
    of spans, the accounting of a completed trace (covered and exclusive time, the
    critical dependency path), and the checks on candidate depth.

    Time stamps are whole ticks of the clock, so sums and differences are exact and
    the finiteness test holds; [conservation_rounds] shows what rounding does to the
    accounting identity on fractional milliseconds. *)

From S2P Require Import Prelude JsNumber JsMap JsValue.

Definition SEARCH_TRACE_SCHEMA_VERSION : Z := 1.

Inductive SearchTraceStage :=
| st_root | st_query_inference | st_generation_lookup | st_filter_construction | st_lexical_scan
| st_vector_scan | st_top_k | st_metadata_hydration | st_fusion | st_reranking | st_packing.

Inductive SearchTraceLane :=
| ln_unified | ln_query | ln_memory | ln_message | ln_compartment | ln_git_commit | ln_primer | ln_note.

Inductive SearchTraceStatus := status_ok | status_failed | status_cancelled | status_not_applicable.

Record SearchTraceCounters := {
  sc_decodedVectorBytes : option Z; sc_cachedVectorBytes : option Z; sc_vectorCount : option Z;
  sc_cacheHit : option bool; sc_rows : option Z; sc_candidatesIn : option Z;
  sc_candidatesOut : option Z; sc_requestedK : option Z; sc_effectiveK : option Z
}.

Definition no_counters : SearchTraceCounters :=
  {| sc_decodedVectorBytes := None; sc_cachedVectorBytes := None; sc_vectorCount := None;
     sc_cacheHit := None; sc_rows := None; sc_candidatesIn := None; sc_candidatesOut := None;
     sc_requestedK := None; sc_effectiveK := None |}.

Record SearchTraceSpan := {
  sp_id : Z; sp_parentId : option Z; sp_dependsOn : list Z; sp_stage : SearchTraceStage;
  sp_lane : SearchTraceLane; sp_startMs : Z; sp_endMs : Z; sp_status : SearchTraceStatus;
  sp_counters : SearchTraceCounters; sp_clockDomain : string
}.

Definition is_root (s : SearchTraceSpan) : bool :=
  match sp_stage s with st_root => true | _ => false end.

Definition duration (s : SearchTraceSpan) : Z := sp_endMs s - sp_startMs s.

(** ** The recorder

    A handle is the closure [begin] returns. *)

Record handle := {
  hd_id : Z; hd_parentId : option Z; hd_dependsOn : list Z; hd_stage : SearchTraceStage;
  hd_lane : SearchTraceLane; hd_startMs : Z; hd_ended : bool
}.

Record recorder := {
  rc_nextId : Z; rc_openSpans : Z; rc_handles : list handle; rc_clockDomain : string;
  rc_emitted : list SearchTraceSpan
}.

Definition createSearchTraceRecorder (clockDomain : string) : recorder :=
  {| rc_nextId := 1; rc_openSpans := 0; rc_handles := []; rc_clockDomain := clockDomain; rc_emitted := [] |}.

(** [now] is the clock's reading; the new handle is the last one. *)
Definition begin (stage : SearchTraceStage) (lane : SearchTraceLane) (parent : option Z)
    (dependsOn : list Z) (now : Z) (r : recorder) : recorder :=
  {| rc_nextId := rc_nextId r + 1; rc_openSpans := rc_openSpans r + 1;
     rc_handles := rc_handles r ++
       [{| hd_id := rc_nextId r; hd_parentId := parent; hd_dependsOn := dependsOn; hd_stage := stage;
           hd_lane := lane; hd_startMs := now; hd_ended := false |}];
     rc_clockDomain := rc_clockDomain r; rc_emitted := rc_emitted r |}.

(** Whether the sink accepts the span or throws does not concern the recorder:
    [accepted] says so. *)
Definition emit (accepted : bool) (span : SearchTraceSpan) (r : recorder) : recorder :=
  if accepted then
    {| rc_nextId := rc_nextId r; rc_openSpans := rc_openSpans r; rc_handles := rc_handles r;
       rc_clockDomain := rc_clockDomain r; rc_emitted := rc_emitted r ++ [span] |}
  else r.

Definition end_handle (h : handle) : handle :=
  {| hd_id := hd_id h; hd_parentId := hd_parentId h; hd_dependsOn := hd_dependsOn h;
     hd_stage := hd_stage h; hd_lane := hd_lane h; hd_startMs := hd_startMs h; hd_ended := true |}.

Definition end_span (i : nat) (status : SearchTraceStatus) (counters : SearchTraceCounters)
    (now : Z) (accepted : bool) (r : recorder) : recorder :=
  match rc_handles r !! i with
  | None => r
  | Some h =>
      if hd_ended h then r
      else
        emit accepted
          {| sp_id := hd_id h; sp_parentId := hd_parentId h; sp_dependsOn := hd_dependsOn h;
             sp_stage := hd_stage h; sp_lane := hd_lane h; sp_startMs := hd_startMs h; sp_endMs := now;
             sp_status := status; sp_counters := counters; sp_clockDomain := rc_clockDomain r |}
          {| rc_nextId := rc_nextId r; rc_openSpans := rc_openSpans r - 1;
             rc_handles := <[i := end_handle h]> (rc_handles r); rc_clockDomain := rc_clockDomain r;
             rc_emitted := rc_emitted r |}
  end.

Definition notApplicable (stage : SearchTraceStage) (lane : SearchTraceLane) (parent : option Z)
    (at_ : Z) (accepted : bool) (r : recorder) : recorder :=
  emit accepted
    {| sp_id := rc_nextId r; sp_parentId := parent; sp_dependsOn := []; sp_stage := stage;
       sp_lane := lane; sp_startMs := at_; sp_endMs := at_; sp_status := status_not_applicable;
       sp_counters := no_counters; sp_clockDomain := rc_clockDomain r |}
    {| rc_nextId := rc_nextId r + 1; rc_openSpans := rc_openSpans r; rc_handles := rc_handles r;
       rc_clockDomain := rc_clockDomain r; rc_emitted := rc_emitted r |}.

Definition hasOpenSpans (r : recorder) : bool := 0 <? rc_openSpans r.

(** ** Intervals *)

Abbreviation Interval := (Z * Z)%type.

Definition by_start (a b : Interval) : Z := a.1 - b.1.

(** The loop over the sorted intervals after the first. *)
Fixpoint union_loop (total currentStart currentEnd : Z) (rest : list Interval) : Z :=
  match rest with
  | [] => total + (currentEnd - currentStart)
  | (start, end_) :: rest =>
      if currentEnd <? start then union_loop (total + (currentEnd - currentStart)) start end_ rest
      else union_loop total currentStart (if currentEnd <? end_ then end_ else currentEnd) rest
  end.

Definition unionLength (intervals : list Interval) : Z :=
  match js_sort by_start intervals with
  | [] => 0
  | (start, end_) :: rest => union_loop 0 start end_ rest
  end.

Definition clip (span : SearchTraceSpan) (windowStart windowEnd : Z) : option Interval :=
  let start := Z.max (sp_startMs span) windowStart in
  let end_ := Z.min (sp_endMs span) windowEnd in
  if start <? end_ then Some (start, end_) else None.

(** ** The critical path *)

Inductive trace_error :=
| trace_empty
| mixed_clock_domains
| negative_duration (id : Z)
| root_count (found : Z)
| dependency_cycle (id : Z)
| unknown_span (id : Z).

Abbreviation chain_result := (Z * list Z)%type.

Section critical.
Context (byId : jsmap Z SearchTraceSpan).

(** [visit]: [visiting] holds the ids entered and not left, [memo] the results.
    Every call enters an id of the map that was not entered, so the number of spans
    bounds the depth. *)
Fixpoint visit (fuel : nat) (visiting : list Z) (id : Z) (memo : jsmap Z chain_result)
    : result trace_error (chain_result * jsmap Z chain_result) :=
  match JsMap.get memo id with
  | Some cached => mret (cached, memo)
  | None =>
      if bool_decide (id ∈ visiting) then Err (dependency_cycle id)
      else
        match JsMap.get byId id with
        | None => Err (unknown_span id)
        | Some span =>
            match fuel with
            | O => Err (dependency_cycle id)
            | S fuel =>
                '(best, memo) ←
                  (fix each (deps : list Z) (best : chain_result) (memo : jsmap Z chain_result) :=
                     match deps with
                     | [] => mret (best, memo)
                     | d :: deps =>
                         '(r, memo) ← visit fuel (id :: visiting) d memo;
                         each deps (if best.1 <? r.1 then r else best) memo
                     end) (sp_dependsOn span) (0, []) memo;
                let r := (best.1 + duration span, best.2 ++ [id]) in
                mret (r, JsMap.set memo id r)
            end
        end
  end.

Fixpoint visit_all (fuel : nat) (spans : list SearchTraceSpan) (best : chain_result)
    (memo : jsmap Z chain_result) : result trace_error chain_result :=
  match spans with
  | [] => mret best
  | span :: spans =>
      if is_root span then visit_all fuel spans best memo
      else
        '(r, memo) ← visit fuel [] (sp_id span) memo;
        visit_all fuel spans (if best.1 <? r.1 then r else best) memo
  end.

End critical.

(** [new Map(spans.map((span) => [span.id, span]))]: a later span with an id wins. *)
Definition by_id (spans : list SearchTraceSpan) : jsmap Z SearchTraceSpan :=
  foldl (fun m s => JsMap.set m (sp_id s) s) [] spans.

Definition computeCriticalPath (spans : list SearchTraceSpan) : result trace_error chain_result :=
  visit_all (by_id spans) (length spans) spans (0, []) [].

(** ** Analysis *)

Record SearchTraceAnalysis := {
  an_rootId : Z; an_rootDurationMs : Z; an_coveredMs : Z; an_uncoveredMs : Z;
  an_inclusiveSumMs : Z; an_overlapMs : Z; an_exclusiveMsBySpan : jsmap Z Z;
  an_criticalPathMs : Z; an_criticalPath : list Z
}.

Fixpoint check_spans (spans : list SearchTraceSpan) : result trace_error unit :=
  match spans with
  | [] => mret ()
  | span :: spans =>
      throw_if (sp_endMs span <? sp_startMs span) (negative_duration (sp_id span));;
      check_spans spans
  end.

Definition children_of (spans : list SearchTraceSpan) (span : SearchTraceSpan) : list Interval :=
  omap (fun candidate =>
          if bool_decide (sp_parentId candidate = Some (sp_id span))
          then clip candidate (sp_startMs span) (sp_endMs span) else None) spans.

Definition analyzeSearchTrace (spans : list SearchTraceSpan) : result trace_error SearchTraceAnalysis :=
  match spans with
  | [] => Err trace_empty
  | first :: _ =>
      throw_if (negb (forallb (fun s => bool_decide (sp_clockDomain s = sp_clockDomain first)) spans))
        mixed_clock_domains;;
      check_spans spans;;
      match List.filter is_root spans with
      | [root] =>
          let rootDurationMs := duration root in
          let inRoot := omap (fun span => if negb (sp_id span =? sp_id root)
                                          then clip span (sp_startMs root) (sp_endMs root) else None) spans in
          let inclusiveSumMs := sumZ (fun i => i.2 - i.1) inRoot in
          let coveredMs := unionLength inRoot in
          let exclusiveMsBySpan :=
            foldl (fun m span => JsMap.set m (sp_id span) (duration span - unionLength (children_of spans span)))
              [] spans in
          critical ← computeCriticalPath spans;
          mret {| an_rootId := sp_id root; an_rootDurationMs := rootDurationMs; an_coveredMs := coveredMs;
                  an_uncoveredMs := rootDurationMs - coveredMs; an_inclusiveSumMs := inclusiveSumMs;
                  an_overlapMs := inclusiveSumMs - coveredMs; an_exclusiveMsBySpan := exclusiveMsBySpan;
                  an_criticalPathMs := critical.1; an_criticalPath := critical.2 |}
      | roots => Err (root_count (lengthZ roots))
      end
  end.

(** ** Candidate depth and vector loads *)

Inductive depth_error :=
| incomplete_evidence (id : Z) | executed_mismatch (id requested executed : Z)
| recorded_mismatch (id recorded requested : Z).

Fixpoint assertCandidateDepthSatisfied (spans : list SearchTraceSpan) (requestedK : option Z)
    : result depth_error unit :=
  match spans with
  | [] => mret ()
  | span :: spans =>
      match sc_requestedK (sp_counters span), sc_effectiveK (sp_counters span) with
      | None, None => assertCandidateDepthSatisfied spans requestedK
      | Some spanRequested, Some effectiveK =>
          throw_if (negb (spanRequested =? effectiveK)) (executed_mismatch (sp_id span) spanRequested effectiveK);;
          throw_if (match requestedK with Some k => negb (spanRequested =? k) | None => false end)
            (recorded_mismatch (sp_id span) spanRequested (default 0 requestedK));;
          assertCandidateDepthSatisfied spans requestedK
      | _, _ => Err (incomplete_evidence (sp_id span))
      end
  end.

Record VectorLoadEvent := {
  ve_decodedBytes : Z; ve_cachedBytes : Z; ve_vectorCount : Z; ve_cacheHit : bool
}.

Definition vectorLoadCounters (event : option VectorLoadEvent) : SearchTraceCounters :=
  match event with
  | None => no_counters
  | Some e =>
      {| sc_decodedVectorBytes := Some (ve_decodedBytes e); sc_cachedVectorBytes := Some (ve_cachedBytes e);
         sc_vectorCount := Some (ve_vectorCount e); sc_cacheHit := Some (ve_cacheHit e); sc_rows := None;
         sc_candidatesIn := None; sc_candidatesOut := None; sc_requestedK := None; sc_effectiveK := None |}
  end.

Definition accumulateVectorLoad (prev : option VectorLoadEvent) (event : VectorLoadEvent) : VectorLoadEvent :=
  match prev with
  | None => event
  | Some p =>
      {| ve_decodedBytes := ve_decodedBytes p + ve_decodedBytes event;
         ve_cachedBytes := ve_cachedBytes p + ve_cachedBytes event;
         ve_vectorCount := ve_vectorCount p + ve_vectorCount event;
         ve_cacheHit := ve_cacheHit p && ve_cacheHit event |}
  end.

(** ** Dependency chains *)

Section chains.
Context (byId : jsmap Z SearchTraceSpan).

(** [x] depends on [y]. *)
Definition depends (x y : Z) : Prop :=
  ∃ span, JsMap.get byId x = Some span ∧ y ∈ sp_dependsOn span.

(** A chain of dependencies in execution order, ending in [id], and its duration. *)
Inductive chain : Z → list Z → Z → Prop :=
| chain_one id span : JsMap.get byId id = Some span → chain id [id] (duration span)
| chain_more id span d p t :
    JsMap.get byId id = Some span → d ∈ sp_dependsOn span → chain d p t →
    chain id (p ++ [id]) (t + duration span).

(** Everything [id] waits for, directly or not, is known and waits for no itself. *)
Definition fine (id : Z) : Prop :=
  ∀ x, rtc depends id x → is_Some (JsMap.get byId x) ∧ ¬ tc depends x x.

(** The longest chain that ends in [id]. *)
Definition longest (id : Z) (r : chain_result) : Prop :=
  chain id r.2 r.1 ∧ ∀ p t, chain id p t → t ≤ r.1.

Definition memo_ok (memo : jsmap Z chain_result) : Prop :=
  ∀ id r, JsMap.get memo id = Some r → fine id ∧ longest id r.

Lemma fine_dep id span d : fine id → JsMap.get byId id = Some span → d ∈ sp_dependsOn span → fine d.
Proof.
  intros Hf Hs Hd x Hx. apply Hf. eapply rtc_l; [|exact Hx]. by exists span.
Qed.

Lemma fine_from_deps id span :
  JsMap.get byId id = Some span → (∀ d, d ∈ sp_dependsOn span → fine d) → fine id.
Proof.
  intros Hs Hd. assert (∀ y, depends id y → fine y) as Hdep.
  { intros y (span' & Hs' & Hy). rewrite Hs in Hs'. injection Hs' as <-. auto. }
  intros x Hx. apply rtc_inv in Hx as [<-|(y & Hy & Hyx)]; [|by apply (Hdep y Hy)].
  split; [by eexists|]. intros Hc.
  assert (∃ y, depends id y ∧ rtc depends y id) as (y & Hy & Hyid)
    by (inversion Hc; subst; eauto using tc_rtc, rtc_refl).
  apply (proj2 (Hdep y Hy y (rtc_refl _ _))). eapply tc_rtc_l; [exact Hyid|]. by apply tc_once.
Qed.

Lemma chain_inv id p t : chain id p t →
  ∃ span, JsMap.get byId id = Some span ∧
    ((p = [id] ∧ t = duration span) ∨
     ∃ d p' t', d ∈ sp_dependsOn span ∧ chain d p' t' ∧ p = p' ++ [id] ∧ t = t' + duration span).
Proof. intros [i span Hs|i span d p' t' Hs Hd Hc]; exists span; split; eauto 10. Qed.

(** The best result so far among some dependencies; the empty chain counts for
    nothing. *)
Definition best_of (deps : list Z) (r : chain_result) : Prop :=
  ((r.1 = 0 ∧ r.2 = []) ∨ ∃ d, d ∈ deps ∧ chain d r.2 r.1) ∧
  (∀ d p t, d ∈ deps → chain d p t → t ≤ r.1) ∧ 0 ≤ r.1.

Lemma best_of_nil : best_of [] (0, []).
Proof. split_and!; [by left|intros d p t Hd; by apply elem_of_nil in Hd|done]. Qed.

Lemma best_of_snoc deps d best r : best_of deps best → longest d r →
  best_of (deps ++ [d]) (if best.1 <? r.1 then r else best).
Proof.
  intros (Hb & Hmax & Hnn) [Hc Hl]. destruct (best.1 <? r.1) eqn:E.
  - split_and!; [right; exists d; split; [set_solver|done]| |lia].
    intros d' p t Hd' Hp. apply elem_of_app in Hd' as [Hd'|Hd'].
    + specialize (Hmax d' p t Hd' Hp). lia.
    + apply list_elem_of_singleton in Hd' as ->. by eapply Hl.
  - split_and!; [|intros d' p t Hd' Hp|done].
    + destruct Hb as [Hb|(d' & Hd' & Hb)]; [by left|right]. exists d'. split; [set_solver|done].
    + apply elem_of_app in Hd' as [Hd'|Hd']; [by eapply Hmax|].
      apply list_elem_of_singleton in Hd' as ->. specialize (Hl p t Hp). lia.
Qed.

Lemma longest_from_best id span best :
  JsMap.get byId id = Some span → 0 ≤ duration span → best_of (sp_dependsOn span) best →
  longest id (best.1 + duration span, best.2 ++ [id]).
Proof.
  intros Hs Hdur (Hb & Hmax & Hnn). split; cbn.
  - destruct Hb as [[E1 E2]|(d & Hd & Hc)]; [|by econstructor].
    rewrite E1, E2. cbn. by constructor.
  - intros p t (span' & Hs' & Hcase)%chain_inv. rewrite Hs in Hs'. injection Hs' as <-.
    destruct Hcase as [[_ ->]|(d & p' & t' & Hd & Hc & _ & ->)]; [lia|]. specialize (Hmax d p' t' Hd Hc). lia.
Qed.

Context (Hdur : ∀ id span, JsMap.get byId id = Some span → 0 ≤ duration span).

(** What a visit gives. *)
Definition visit_spec (id : Z) (r : result trace_error (chain_result * jsmap Z chain_result)) : Prop :=
  match r with
  | Ok (res, memo) => fine id ∧ longest id res ∧ memo_ok memo
  | Err _ => ¬ fine id
  end.

(** The loop over the dependencies, named. *)
Definition each (go : Z → jsmap Z chain_result → result trace_error (chain_result * jsmap Z chain_result)) :=
  fix each (deps : list Z) (best : chain_result) (memo : jsmap Z chain_result) :=
    match deps with
    | [] => mret (best, memo)
    | d :: deps => '(r, memo) ← go d memo; each deps (if best.1 <? r.1 then r else best) memo
    end.

Lemma each_spec go deps : ∀ past best memo,
  (∀ d memo, d ∈ deps → memo_ok memo → visit_spec d (go d memo)) →
  best_of past best → (∀ d, d ∈ past → fine d) → memo_ok memo →
  match each go deps best memo with
  | Ok (best', memo') =>
      best_of (past ++ deps) best' ∧ memo_ok memo' ∧ ∀ d, d ∈ past ++ deps → fine d
  | Err _ => ∃ d, d ∈ deps ∧ ¬ fine d
  end.
Proof.
  induction deps as [|d deps IH]; intros past best memo Hgo Hbest Hpast Hmemo; cbn [each].
  - rewrite app_nil_r. by split_and!.
  - pose proof (Hgo d memo ltac:(left) Hmemo) as Hd. destruct (go d memo) as [[r memo1]|e]; cbn in *.
    + destruct Hd as (Hf & Hl & Hm).
      specialize (IH (past ++ [d]) (if best.1 <? r.1 then r else best) memo1).
      rewrite <- app_assoc in IH. cbn [app] in IH.
      destruct (each go deps _ memo1) as [[best' memo']|e].
      * apply IH; [intros; apply Hgo; [by right|done]|by apply best_of_snoc| |done].
        intros x [Hx|Hx]%elem_of_app; [auto|]. by apply list_elem_of_singleton in Hx as ->.
      * destruct IH as (x & Hx & Hn); [intros; apply Hgo; [by right|done]|by apply best_of_snoc| |done|].
        { intros x [Hx|Hx]%elem_of_app; [auto|]. by apply list_elem_of_singleton in Hx as ->. }
        exists x. split; [by right|done].
    + exists d. split; [left|done].
Qed.

Lemma NoDup_length_le (l m : list Z) : NoDup l → (∀ x, x ∈ l → x ∈ m) → (length l ≤ length m)%nat.
Proof. intros Hn Hs. apply submseteq_length, NoDup_submseteq; done. Qed.

Lemma visit_correct : ∀ fuel visiting id memo,
  memo_ok memo → NoDup visiting → (∀ v, v ∈ visiting → v ∈ JsMap.keys byId ∧ tc depends v id) →
  (length (JsMap.keys byId) ≤ fuel + length visiting)%nat →
  visit_spec id (visit byId fuel visiting id memo).
Proof.
  intros fuel. induction fuel as [|fuel IH]; intros visiting id memo Hm Hnd Hv Hfuel;
    cbn [visit]; (destruct (JsMap.get memo id) as [cached|] eqn:Ecached;
      [destruct (Hm id cached Ecached); split_and!; done|]);
    (destruct (bool_decide (id ∈ visiting)) eqn:Evis;
      [apply bool_decide_eq_true in Evis; intros Hf; apply (proj2 (Hf id (rtc_refl _ _))); by apply Hv|]);
    apply bool_decide_eq_false in Evis;
    (destruct (JsMap.get byId id) as [span|] eqn:Espan;
      [|intros Hf; destruct (Hf id (rtc_refl _ _)) as [[? ?] _]; congruence]);
    assert (id ∈ JsMap.keys byId) as Hkey
      by (destruct (decide (id ∈ JsMap.keys byId)) as [|Hn]; [done|];
          apply JsMap.get_None in Hn; congruence).
  - exfalso. assert (length (id :: visiting) ≤ length (JsMap.keys byId))%nat as Hle; [|cbn in *; lia].
    apply NoDup_length_le; [by constructor|]. intros x [->|Hx]%elem_of_cons; [done|by apply Hv].
  - change (visit_spec id ('(best, memo) ← each (fun d memo => visit byId fuel (id :: visiting) d memo)
      (sp_dependsOn span) (0, []) memo;
      mret ((best.1 + duration span, best.2 ++ [id]),
            JsMap.set memo id (best.1 + duration span, best.2 ++ [id])))).
    pose proof (each_spec (fun d memo => visit byId fuel (id :: visiting) d memo) (sp_dependsOn span)
      [] (0, []) memo) as He.
    assert (∀ d memo, d ∈ sp_dependsOn span → memo_ok memo →
      visit_spec d (visit byId fuel (id :: visiting) d memo)) as Hgo.
    { intros d memo' Hd Hmemo'. assert (depends id d) as Hdep by by exists span.
      apply IH; [done|by constructor| |cbn; lia].
      intros v [->|Hin]%elem_of_cons; [split; [done|by apply tc_once]|].
      destruct (Hv v Hin). split; [done|by eapply tc_r]. }
    specialize (He Hgo best_of_nil ltac:(intros d Hd; by apply elem_of_nil in Hd) Hm). cbn [app] in He.
    destruct (each _ _ _ _) as [[best memo']|e]; cbn.
    + destruct He as (Hbest & Hmemo' & Hfine).
      assert (fine id) as Hf by by eapply fine_from_deps.
      assert (longest id (best.1 + duration span, best.2 ++ [id])) as Hl
        by (eapply longest_from_best; eauto).
      split_and!; [done|done|]. intros x r Hr.
      destruct (decide (id = x)) as [<-|Hx].
      * rewrite JsMap.get_set_eq in Hr. by injection Hr as <-.
      * rewrite JsMap.get_set_ne in Hr by done. by apply Hmemo'.
    + destruct He as (d & Hd & Hn). intros Hf. apply Hn. by eapply fine_dep.
Qed.

(** *** All spans *)

Lemma visit_all_correct fuel spans : (length (JsMap.keys byId) ≤ fuel)%nat → ∀ past best memo,
  memo_ok memo → best_of past best → (∀ d, d ∈ past → fine d) →
  match visit_all byId fuel spans best memo with
  | Ok r => best_of (past ++ (sp_id <$> List.filter (fun s => negb (is_root s)) spans)) r ∧
            ∀ d, d ∈ past ++ (sp_id <$> List.filter (fun s => negb (is_root s)) spans) → fine d
  | Err _ => ∃ s, s ∈ spans ∧ is_root s = false ∧ ¬ fine (sp_id s)
  end.
Proof.
  intros Hfuel. induction spans as [|span spans IH]; intros past best memo Hm Hb Hp; cbn [visit_all List.filter].
  - cbn. rewrite app_nil_r. done.
  - destruct (is_root span) eqn:Er; cbn [negb].
    + specialize (IH past best memo Hm Hb Hp). destruct (visit_all _ _ _ _ _) as [r|e]; [done|].
      destruct IH as (s & Hs & Hx). exists s. split; [by right|done].
    + pose proof (visit_correct fuel [] (sp_id span) memo Hm (NoDup_nil_2) ltac:(intros v Hv; by apply elem_of_nil in Hv) ltac:(cbn; lia)) as Hv.
      destruct (visit _ _ _ _ _) as [[r memo']|e]; cbn in Hv |- *.
      2: { exists span. split_and!; [left|done|done]. }
      destruct Hv as (Hf & Hl & Hm').
      specialize (IH (past ++ [sp_id span]) (if best.1 <? r.1 then r else best) memo' Hm').
      rewrite <- app_assoc in IH. cbn [app fmap list_fmap] in IH.
      assert (∀ d, d ∈ past ++ [sp_id span] → fine d) as Hp'
        by (intros x [Hx|Hx]%elem_of_app; [auto|by apply list_elem_of_singleton in Hx as ->]).
      specialize (IH ltac:(by apply best_of_snoc) Hp').
      destruct (visit_all _ _ _ _ _) as [r'|e]; [done|].
      destruct IH as (s & Hs & Hx). exists s. split; [by right|done].
Qed.

End chains.

(** ** Time as ticks *)

(** How many ticks from [lo] to [hi] satisfy a test. *)
Definition ticks (lo hi : Z) (P : Z → bool) : Z := lengthZ (List.filter P (seqZ lo (hi - lo))).

(** The tick is inside one of the intervals. *)
Definition inside (t : Z) (i : Interval) : bool := (i.1 <=? t) && (t <? i.2).
Definition covers (l : list Interval) (t : Z) : bool := existsb (inside t) l.

Lemma ticks_ext lo hi P Q : (∀ t, lo ≤ t < hi → P t = Q t) → ticks lo hi P = ticks lo hi Q.
Proof.
  intros HPQ. unfold ticks. f_equal. apply List.filter_ext_in. intros t Ht.
  apply HPQ. apply list_elem_of_In, elem_of_seqZ in Ht. lia.
Qed.

Lemma ticks_split lo mid hi P : lo ≤ mid ≤ hi → ticks lo hi P = ticks lo mid P + ticks mid hi P.
Proof.
  intros H. unfold ticks. replace (hi - lo) with ((mid - lo) + (hi - mid)) by lia.
  rewrite seqZ_app by lia. replace (lo + (mid - lo)) with mid by lia.
  by rewrite List.filter_app, lengthZ_app.
Qed.

Lemma ticks_all lo hi P : lo ≤ hi → (∀ t, lo ≤ t < hi → P t = true) → ticks lo hi P = hi - lo.
Proof.
  intros Hle HP. rewrite (ticks_ext lo hi P (fun _ => true)) by done. unfold ticks.
  assert (List.filter (fun _ : Z => true) (seqZ lo (hi - lo)) = seqZ lo (hi - lo)) as ->.
  { generalize (seqZ lo (hi - lo)). intros l. induction l as [|x l IH]; cbn; [done|by rewrite IH]. }
  unfold lengthZ. rewrite length_seqZ. lia.
Qed.

Lemma ticks_none lo hi P : (∀ t, lo ≤ t < hi → P t = false) → ticks lo hi P = 0.
Proof.
  intros HP. rewrite (ticks_ext lo hi P (fun _ => false)) by done. unfold ticks.
  generalize (seqZ lo (hi - lo)). intros l. by induction l.
Qed.

Lemma ticks_negb lo hi P : lo ≤ hi → ticks lo hi P + ticks lo hi (fun t => negb (P t)) = hi - lo.
Proof.
  intros Hle. assert (lengthZ (seqZ lo (hi - lo)) = hi - lo) as <- by (unfold lengthZ; rewrite length_seqZ; lia).
  unfold ticks. generalize (seqZ lo (hi - lo)). intros l. induction l as [|x l IH]; [done|]. cbn.
  destruct (P x); cbn; rewrite !lengthZ_cons; lia.
Qed.

Lemma covers_elem l t : covers l t = true ↔ ∃ i, i ∈ l ∧ i.1 ≤ t < i.2.
Proof.
  unfold covers, inside. rewrite existsb_exists. split; intros (i & Hi & Ht); exists i;
    (split; [by apply list_elem_of_In|lia]).
Qed.

Lemma covers_ext l1 l2 t : (∀ i, i.1 ≤ t < i.2 → i ∈ l1 ↔ i ∈ l2) → covers l1 t = covers l2 t.
Proof.
  intros H. apply eq_true_iff_eq. rewrite !covers_elem.
  split; intros (i & Hi & Ht); exists i; (split; [by apply H|done]).
Qed.

(** The loop counts the ticks inside the current interval or a later one. *)
Lemma union_loop_ticks rest : ∀ total cs ce hi,
  cs ≤ ce ≤ hi → StronglySorted (fun a b : Interval => by_start a b ≤ 0) rest →
  Forall (fun i => cs ≤ i.1 ∧ i.1 ≤ i.2 ∧ i.2 ≤ hi) rest →
  union_loop total cs ce rest = total + ticks cs hi (covers ((cs, ce) :: rest)).
Proof.
  induction rest as [|[start end_] rest IH]; intros total cs ce hi Hc Hs Hr; cbn [union_loop].
  - rewrite (ticks_split cs ce hi) by lia. rewrite ticks_all, ticks_none; [lia| |lia|].
    + intros t Ht. unfold covers, inside. cbn. lia.
    + intros t Ht. unfold covers, inside. cbn. lia.
  - apply Forall_cons in Hr as [Hi Hr]. apply StronglySorted_inv in Hs as [Hs Hall]. cbn in Hi.
    assert (Forall (fun i => start ≤ i.1 ∧ i.1 ≤ i.2 ∧ i.2 ≤ hi) rest) as Hr'.
    { rewrite Forall_forall in Hall, Hr |- *. intros i Hin. specialize (Hall i Hin). specialize (Hr i Hin).
      unfold by_start in Hall. cbn in Hall. lia. }
    destruct (ce <? start) eqn:E.
    + rewrite (IH _ start end_ hi) by (done || lia).
      rewrite (ticks_split cs ce hi), (ticks_split ce start hi) by lia.
      rewrite (ticks_all cs ce) by (lia || (intros t Ht; unfold covers, inside; cbn; lia)).
      rewrite (ticks_none ce start).
      2: { intros t Ht. destruct (covers _ t) eqn:Ec; [|done]. apply covers_elem in Ec as (i & Hin & Hit).
           apply elem_of_cons in Hin as [->|Hin]; [cbn in *; lia|].
           apply elem_of_cons in Hin as [->|Hin]; [cbn in *; lia|].
           rewrite Forall_forall in Hr'. specialize (Hr' i Hin). lia. }
      rewrite (ticks_ext start hi (covers ((cs, ce) :: (start, end_) :: rest)) (covers ((start, end_) :: rest))); [lia|].
      intros t Ht. unfold covers. cbn [existsb].
      by assert (inside t (cs, ce) = false) as -> by (unfold inside; cbn; lia).
    + rewrite (IH _ cs _ hi); [|destruct (ce <? end_); lia|done|done].
      f_equal. apply ticks_ext. intros t Ht. unfold covers. cbn [existsb].
      rewrite !orb_assoc. f_equal. unfold inside. cbn.
      destruct (ce <? end_) eqn:E2; lia.
Qed.

Lemma by_start_total (a b : Interval) : by_start a b ≤ 0 ∨ by_start b a ≤ 0.
Proof. unfold by_start. lia. Qed.

Lemma by_start_trans (a b c : Interval) : by_start a b ≤ 0 → by_start b c ≤ 0 → by_start a c ≤ 0.
Proof. unfold by_start. lia. Qed.

(** The length of a union is the number of ticks inside it. *)
Lemma unionLength_ticks lo hi l : lo ≤ hi →
  Forall (fun i => lo ≤ i.1 ∧ i.1 ≤ i.2 ∧ i.2 ≤ hi) l → unionLength l = ticks lo hi (covers l).
Proof.
  intros Hle Hl. unfold unionLength.
  pose proof (js_sort_perm by_start l) as Hp.
  pose proof (js_sort_sorted by_start by_start_total by_start_trans l) as Hs.
  assert (Forall (fun i => lo ≤ i.1 ∧ i.1 ≤ i.2 ∧ i.2 ≤ hi) (js_sort by_start l)) as Hl' by by rewrite Hp.
  rewrite (ticks_ext lo hi (covers l) (covers (js_sort by_start l))).
  2: { intros t _. apply covers_ext. intros i _. by rewrite Hp. }
  destruct (js_sort by_start l) as [|[start end_] rest].
  - by rewrite ticks_none.
  - apply Forall_cons in Hl' as [Hi Hr]. apply StronglySorted_inv in Hs as [Hs Hall]. cbn in Hi.
    rewrite (union_loop_ticks rest 0 start end_ hi); [|lia|done|].
    2: { rewrite Forall_forall in Hall, Hr |- *. intros i Hin. specialize (Hall i Hin). specialize (Hr i Hin).
         unfold by_start in Hall. cbn in Hall. lia. }
    rewrite (ticks_split lo start hi) by lia. rewrite (ticks_none lo start); [lia|].
    intros t Ht. destruct (covers _ t) eqn:Ec; [|done]. apply covers_elem in Ec as (i & Hin & Hit).
    apply elem_of_cons in Hin as [->|Hin]; [cbn in *; lia|].
    rewrite Forall_forall in Hall. specialize (Hall i Hin). unfold by_start in Hall. cbn in *. lia.
Qed.

(** Counting by intervals or by ticks. *)
Lemma sum_lengths_ticks lo hi l : lo ≤ hi →
  Forall (fun i => lo ≤ i.1 ∧ i.1 ≤ i.2 ∧ i.2 ≤ hi) l →
  sumZ (fun i => i.2 - i.1) l = sumZ (fun t => lengthZ (List.filter (inside t) l)) (seqZ lo (hi - lo)).
Proof.
  intros Hle Hl. induction Hl as [|i l Hi _ IH].
  - generalize (seqZ lo (hi - lo)). intros m. induction m as [|t m IHm]; [done|]. exact IHm.
  - rewrite sumZ_cons, IH. assert (i.2 - i.1 = ticks lo hi (fun t => inside t i)) as ->.
    { rewrite (ticks_split lo i.1 hi), (ticks_split i.1 i.2 hi) by lia.
      rewrite (ticks_none lo i.1), (ticks_all i.1 i.2), (ticks_none i.2 hi); [lia| |lia| |];
        intros t Ht; unfold inside; [apply andb_false_iff; right|apply andb_true_iff|apply andb_false_iff; left];
        lia. }
    unfold ticks. generalize (seqZ lo (hi - lo)). intros m. clear. induction m as [|t m IHm]; [done|].
    rewrite !sumZ_cons, <- IHm.
    change (List.filter (fun t => inside t i) (t :: m))
      with (if inside t i then t :: List.filter (fun t => inside t i) m else List.filter (fun t => inside t i) m).
    change (List.filter (inside t) (i :: l))
      with (if inside t i then i :: List.filter (inside t) l else List.filter (inside t) l).
    destruct (inside t i); rewrite ?lengthZ_cons; lia.
Qed.

(** ** Accounting *)

(** The span runs at a tick. *)
Definition active (t : Z) (s : SearchTraceSpan) : bool := (sp_startMs s <=? t) && (t <? sp_endMs s).

(** Some span of a kind runs at a tick. *)
Definition busy (P : SearchTraceSpan → bool) (spans : list SearchTraceSpan) (t : Z) : bool :=
  existsb (fun s => P s && active t s) spans.

Definition running (P : SearchTraceSpan → bool) (spans : list SearchTraceSpan) (t : Z) : Z :=
  lengthZ (List.filter (fun s => P s && active t s) spans).

Section clipped.
Context (P : SearchTraceSpan → bool) (lo hi : Z).
Local Abbreviation clipped spans := (omap (fun s => if P s then clip s lo hi else None) spans).

Lemma clip_Some s i : clip s lo hi = Some i →
  (lo ≤ i.1 ∧ i.1 ≤ i.2 ∧ i.2 ≤ hi) ∧ ∀ t, lo ≤ t < hi → inside t i = active t s.
Proof.
  unfold clip. destruct (_ <? _) eqn:E; [|done]. intros [= <-]. cbn. split; [lia|].
  intros t Ht. unfold inside, active. cbn. lia.
Qed.

Lemma clip_None s t : clip s lo hi = None → lo ≤ t < hi → active t s = false.
Proof. unfold clip. destruct (_ <? _) eqn:E; [done|]. intros _ Ht. unfold active. lia. Qed.

Lemma clipped_bounds spans : Forall (fun i => lo ≤ i.1 ∧ i.1 ≤ i.2 ∧ i.2 ≤ hi) (clipped spans).
Proof.
  induction spans as [|s spans IH]; cbn; [constructor|]. destruct (P s); [|done].
  destruct (clip s lo hi) as [i|] eqn:E; [|done]. constructor; [by apply (clip_Some s)|done].
Qed.

Lemma clipped_covers spans t : lo ≤ t < hi → covers (clipped spans) t = busy P spans t.
Proof.
  intros Ht. unfold busy. induction spans as [|s spans IH]; [done|]. cbn. destruct (P s); cbn; [|done].
  destruct (clip s lo hi) as [i|] eqn:E; cbn.
  - rewrite <- IH. destruct (clip_Some s i E) as [_ ->]; done.
  - by rewrite (clip_None s t E Ht).
Qed.

Lemma clipped_running spans t : lo ≤ t < hi →
  lengthZ (List.filter (inside t) (clipped spans)) = running P spans t.
Proof.
  intros Ht. unfold running. induction spans as [|s spans IH]; [done|]. cbn. destruct (P s); cbn; [|done].
  destruct (clip s lo hi) as [i|] eqn:E; cbn.
  - destruct (clip_Some s i E) as [_ Hin]. rewrite (Hin t Ht). destruct (active t s); [rewrite !lengthZ_cons; by f_equal|done].
  - by rewrite (clip_None s t E Ht).
Qed.

Lemma clipped_union spans : lo ≤ hi → unionLength (clipped spans) = ticks lo hi (busy P spans).
Proof.
  intros Hle. rewrite (unionLength_ticks lo hi) by (done || apply clipped_bounds).
  apply ticks_ext. intros t Ht. by apply clipped_covers.
Qed.

Lemma clipped_sum spans : lo ≤ hi →
  sumZ (fun i => i.2 - i.1) (clipped spans) = sumZ (running P spans) (seqZ lo (hi - lo)).
Proof.
  intros Hle. rewrite (sum_lengths_ticks lo hi) by (done || apply clipped_bounds).
  apply sumZ_ext. intros t Ht%elem_of_seqZ. apply clipped_running. lia.
Qed.

End clipped.

Lemma busy_running P spans t : busy P spans t = (0 <? running P spans t).
Proof.
  unfold busy, running. induction spans as [|s spans IH]; [done|]. cbn [existsb List.filter].
  destruct (P s && active t s); cbn [orb]; [|done]. rewrite lengthZ_cons.
  pose proof (lengthZ_nonneg (List.filter (fun s => P s && active t s) spans)). symmetry. apply Z.ltb_lt. lia.
Qed.

Lemma ticks_sum lo hi Q : ticks lo hi Q = sumZ (fun t => if Q t then 1 else 0) (seqZ lo (hi - lo)).
Proof.
  unfold ticks. generalize (seqZ lo (hi - lo)). intros m. induction m as [|t m IH]; [done|].
  rewrite sumZ_cons, <- IH. cbn. destruct (Q t); rewrite ?lengthZ_cons; lia.
Qed.

Lemma sumZ_sub {A} (f g : A → Z) l : sumZ f l - sumZ g l = sumZ (fun x => f x - g x) l.
Proof. induction l as [|x l IH]; [done|]. rewrite !sumZ_cons. lia. Qed.

Lemma overlap_sum P spans lo hi :
  sumZ (running P spans) (seqZ lo (hi - lo)) - ticks lo hi (busy P spans) =
  sumZ (fun t => Z.max 0 (running P spans t - 1)) (seqZ lo (hi - lo)).
Proof.
  rewrite ticks_sum, sumZ_sub. apply sumZ_ext. intros t _. rewrite busy_running.
  pose proof (lengthZ_nonneg (List.filter (fun s => P s && active t s) spans)).
  fold (running P spans t) in *. destruct (0 <? running P spans t) eqn:E; lia.
Qed.

(** Maps filled alike. *)
Lemma get_foldl_set {B} (f : SearchTraceSpan → B) spans : ∀ m1 m2,
  (∀ k, JsMap.get m1 k = f <$> JsMap.get m2 k) →
  ∀ k, JsMap.get (foldl (fun m s => JsMap.set m (sp_id s) (f s)) m1 spans) k =
       f <$> JsMap.get (foldl (fun m s => JsMap.set m (sp_id s) s) m2 spans) k.
Proof.
  induction spans as [|s spans IH]; intros m1 m2 Hm k; cbn; [apply Hm|]. apply IH. intros k'.
  destruct (decide (sp_id s = k')) as [<-|Hk].
  - by rewrite !JsMap.get_set_eq.
  - by rewrite !JsMap.get_set_ne by done.
Qed.

Lemma by_id_in spans id span : JsMap.get (by_id spans) id = Some span → span ∈ spans ∧ sp_id span = id.
Proof.
  unfold by_id. assert (∀ spans m, JsMap.get (foldl (fun m s => JsMap.set m (sp_id s) s) m spans) id = Some span →
    (span ∈ spans ∧ sp_id span = id) ∨ JsMap.get m id = Some span) as H.
  { clear. induction spans as [|s spans IH]; intros m Hg; [by right|]. cbn in Hg.
    destruct (IH _ Hg) as [[Hin Hid]|Hm]; [left; split; [by right|done]|].
    destruct (decide (sp_id s = id)) as [Hid|Hid].
    - rewrite Hid, JsMap.get_set_eq in Hm. injection Hm as <-. left. split; [left|done].
    - rewrite JsMap.get_set_ne in Hm by done. by right. }
  intros Hg. destruct (H spans [] Hg) as [?|?]; done.
Qed.

Lemma by_id_known spans s : s ∈ spans → is_Some (JsMap.get (by_id spans) (sp_id s)).
Proof.
  unfold by_id. assert (∀ spans m, s ∈ spans ∨ is_Some (JsMap.get m (sp_id s)) →
    is_Some (JsMap.get (foldl (fun m s => JsMap.set m (sp_id s) s) m spans) (sp_id s))) as H;
    [|intros Hs; apply H; by left].
  clear. induction spans as [|x spans IH]; intros m [Hs|Hs]; cbn; [by apply elem_of_nil in Hs|done|..]; apply IH.
  - apply elem_of_cons in Hs as [->|Hs]; [|by left]. right. rewrite JsMap.get_set_eq. by eexists.
  - right. destruct (decide (sp_id x = sp_id s)) as [E|E].
    + rewrite E, JsMap.get_set_eq. by eexists.
    + by rewrite JsMap.get_set_ne.
Qed.

Lemma by_id_length spans : (length (JsMap.keys (by_id spans)) ≤ length spans)%nat.
Proof.
  unfold by_id. assert (∀ m : jsmap Z SearchTraceSpan,
    (length (JsMap.keys (foldl (fun m s => JsMap.set m (sp_id s) s) m spans)) ≤ length (JsMap.keys m) + length spans)%nat) as H;
    [|apply (H [])].
  induction spans as [|s spans IH]; intros m; cbn [foldl length]; [lia|]. etrans; [apply IH|].
  destruct (JsMap.get m (sp_id s)) eqn:E.
  - rewrite JsMap.keys_set_present; [lia|]. destruct (decide (sp_id s ∈ JsMap.keys m)) as [|Hn]; [done|].
    apply JsMap.get_None in Hn. congruence.
  - apply JsMap.get_None in E. rewrite JsMap.set_absent by done. unfold JsMap.keys.
    rewrite fmap_app, length_app. cbn. lia.
Qed.

(** Durations are not negative. *)
Definition forward (spans : list SearchTraceSpan) : Prop := Forall (fun s => sp_startMs s ≤ sp_endMs s) spans.

Lemma check_spans_ok spans : check_spans spans = Ok () ↔ forward spans.
Proof.
  unfold forward. induction spans as [|s spans IH]; cbn [check_spans]; [by split|].
  rewrite throw_if_bind_ok, IH, Forall_cons, Z.ltb_ge. done.
Qed.

Definition non_roots (spans : list SearchTraceSpan) : list Z :=
  sp_id <$> List.filter (fun s => negb (is_root s)) spans.

Lemma critical_spec spans : forward spans →
  match computeCriticalPath spans with
  | Ok r => best_of (by_id spans) (non_roots spans) r ∧ ∀ id, id ∈ non_roots spans → fine (by_id spans) id
  | Err _ => ∃ id, id ∈ non_roots spans ∧ ¬ fine (by_id spans) id
  end.
Proof.
  intros Hf. unfold computeCriticalPath.
  assert (∀ id span, JsMap.get (by_id spans) id = Some span → 0 ≤ duration span) as Hdur.
  { intros id span Hg. apply by_id_in in Hg as [Hin _]. unfold forward in Hf. rewrite Forall_forall in Hf.
    specialize (Hf span Hin). cbn in Hf. unfold duration. lia. }
  pose proof (visit_all_correct (by_id spans) Hdur (length spans) spans (by_id_length spans) [] (0, []) []
    ltac:(done) (best_of_nil _) ltac:(intros d Hd; by apply elem_of_nil in Hd)) as Hv.
  destruct (visit_all _ _ _ _ _) as [r|e]; [done|]. destruct Hv as (s & Hs & Hr & Hn).
  exists (sp_id s). split; [|done]. apply list_elem_of_fmap. exists s. split; [done|].
  apply list_elem_of_In, List.filter_In. split; [by apply list_elem_of_In|by rewrite Hr].
Qed.

(** What an accounting says of a trace with this root. *)
Definition accounts (spans : list SearchTraceSpan) (root : SearchTraceSpan) (a : SearchTraceAnalysis) : Prop :=
  let other s := negb (sp_id s =? sp_id root) in
  let lo := sp_startMs root in
  let hi := sp_endMs root in
  an_rootId a = sp_id root ∧ an_rootDurationMs a = hi - lo ∧
  an_coveredMs a = ticks lo hi (busy other spans) ∧
  an_uncoveredMs a = ticks lo hi (fun t => negb (busy other spans t)) ∧
  an_inclusiveSumMs a = sumZ (running other spans) (seqZ lo (hi - lo)) ∧
  an_overlapMs a = sumZ (fun t => Z.max 0 (running other spans t - 1)) (seqZ lo (hi - lo)) ∧
  (∀ id span, JsMap.get (by_id spans) id = Some span →
     JsMap.get (an_exclusiveMsBySpan a) id =
     Some (ticks (sp_startMs span) (sp_endMs span)
             (fun t => negb (busy (fun c => bool_decide (sp_parentId c = Some id)) spans t)))) ∧
  best_of (by_id spans) (non_roots spans) (an_criticalPathMs a, an_criticalPath a).

Lemma exclusive_ticks spans span : sp_startMs span ≤ sp_endMs span →
  duration span - unionLength (children_of spans span) =
  ticks (sp_startMs span) (sp_endMs span)
    (fun t => negb (busy (fun c => bool_decide (sp_parentId c = Some (sp_id span))) spans t)).
Proof.
  intros Hle. unfold children_of. rewrite clipped_union by done.
  pose proof (ticks_negb (sp_startMs span) (sp_endMs span)
    (busy (fun c => bool_decide (sp_parentId c = Some (sp_id span))) spans) Hle). unfold duration. lia.
Qed.

Lemma analysis_accounts spans root r :
  forward spans → root ∈ spans → best_of (by_id spans) (non_roots spans) r →
  accounts spans root
    (let inRoot := omap (fun span => if negb (sp_id span =? sp_id root)
                                     then clip span (sp_startMs root) (sp_endMs root) else None) spans in
     {| an_rootId := sp_id root; an_rootDurationMs := duration root; an_coveredMs := unionLength inRoot;
        an_uncoveredMs := duration root - unionLength inRoot;
        an_inclusiveSumMs := sumZ (fun i => i.2 - i.1) inRoot;
        an_overlapMs := sumZ (fun i => i.2 - i.1) inRoot - unionLength inRoot;
        an_exclusiveMsBySpan :=
          foldl (fun m span => JsMap.set m (sp_id span) (duration span - unionLength (children_of spans span))) [] spans;
        an_criticalPathMs := r.1; an_criticalPath := r.2 |}).
Proof.
  intros Hf Hroot Hbest. unfold forward in Hf. rewrite Forall_forall in Hf.
  pose proof (Hf root Hroot) as Hle. cbn in Hle. unfold accounts. cbv zeta.
  cbn [an_rootId an_rootDurationMs an_coveredMs an_uncoveredMs an_inclusiveSumMs an_overlapMs
       an_exclusiveMsBySpan an_criticalPathMs an_criticalPath].
  rewrite clipped_union, clipped_sum by done. split_and!; try done.
  - pose proof (ticks_negb (sp_startMs root) (sp_endMs root)
      (busy (fun s => negb (sp_id s =? sp_id root)) spans) Hle). unfold duration. lia.
  - apply overlap_sum.
  - intros id span Hg. rewrite (get_foldl_set (fun s => duration s - unionLength (children_of spans s)) spans [] []) by done.
    fold (by_id spans). rewrite Hg. cbn. f_equal. apply by_id_in in Hg as [Hin <-].
    apply exclusive_ticks. by apply (Hf span).
Qed.

(** A trace the analysis has to accept: one clock, no negative duration, one root,
    and no dependency that is unknown or runs in a circle. *)
Definition well_traced (spans : list SearchTraceSpan) : Prop :=
  (∀ s s', s ∈ spans → s' ∈ spans → sp_clockDomain s = sp_clockDomain s') ∧ forward spans ∧
  (∃ root, List.filter is_root spans = [root]) ∧
  (∀ id, id ∈ non_roots spans → fine (by_id spans) id).

Lemma one_domain first spans :
  forallb (fun s => bool_decide (sp_clockDomain s = sp_clockDomain first)) (first :: spans) = true ↔
  ∀ s s', s ∈ first :: spans → s' ∈ first :: spans → sp_clockDomain s = sp_clockDomain s'.
Proof.
  rewrite forallb_forall. split.
  - intros H s s' Hs Hs'. apply list_elem_of_In, H, bool_decide_eq_true in Hs.
    apply list_elem_of_In, H, bool_decide_eq_true in Hs'. congruence.
  - intros H s Hs. apply bool_decide_eq_true, H; [by apply list_elem_of_In|left].
Qed.

Lemma analysis_decides spans :
  match analyzeSearchTrace spans with
  | Ok a => well_traced spans ∧ ∃ root, List.filter is_root spans = [root] ∧ accounts spans root a
  | Err _ => ¬ well_traced spans
  end.
Proof.
  unfold analyzeSearchTrace. destruct spans as [|first rest].
  { intros (_ & _ & [root Hr] & _). done. }
  set (spans := first :: rest). pose proof (one_domain first rest) as Hdom. fold spans in Hdom.
  destruct (forallb _ spans) eqn:Edom; cbn [negb throw_if].
  2: { intros (Hd & _). apply Hdom in Hd. done. }
  change (Ok () ≫= ?k) with (k ()). cbv beta.
  destruct (check_spans spans) as [[]|e] eqn:Echeck.
  2: { intros (_ & Hf & _). apply check_spans_ok in Hf. cbn. congruence. }
  apply check_spans_ok in Echeck as Hf. change (Ok () ≫= ?k) with (k ()). cbv beta.
  destruct (List.filter is_root spans) as [|root [|root' roots]] eqn:Eroots;
    [intros (_ & _ & [r Hr] & _); congruence| |intros (_ & _ & [r Hr] & _); congruence].
  cbv zeta. pose proof (critical_spec spans Hf) as Hc.
  destruct (computeCriticalPath spans) as [r|e].
  2: { cbn. intros (_ & _ & _ & Hfine). destruct Hc as (id & Hid & Hn). by apply Hn, Hfine. }
  cbn [mbind result_bind]. destruct Hc as [Hbest Hfine]. split.
  - split_and!; [by apply Hdom|done|by eexists|done].
  - exists root. split; [done|].
    assert (root ∈ spans) as Hin.
    { assert (root ∈ List.filter is_root spans) as Hx by (rewrite Eroots; left).
      by apply list_elem_of_In, List.filter_In in Hx as [Hx%list_elem_of_In _]. }
    apply (analysis_accounts spans root r Hf Hin Hbest).
Qed.

(** The accounting of a trace is exact, and given exactly for the traces that have
    one: the covered time is the time some other span runs inside the root, the
    uncovered time the rest, the overlap what the spans run beyond one at a time, a
    span's exclusive time that in which no child of it runs, and the critical path
    the longest chain of dependencies; the analysis throws just when a trace is
    empty, mixes clocks, runs backwards, has not one root, or depends on something
    unknown or on itself. *)
Theorem trace_accounting spans :
  match analyzeSearchTrace spans with
  | Ok a => well_traced spans ∧ ∃ root, List.filter is_root spans = [root] ∧ accounts spans root a
  | Err _ => ¬ well_traced spans
  end.
Proof. apply analysis_decides. Qed.

(** ** Recorded traces *)

(** The states of a recorder under a clock that does not run backwards, whose spans
    depend on spans already emitted. The sink may drop any span. *)
Inductive recording : Z → recorder → Prop :=
| recording_start now domain : recording now (createSearchTraceRecorder domain)
| recording_begin now now' r stage lane parent dependsOn :
    recording now r → now ≤ now' → (∀ d, d ∈ dependsOn → d ∈ sp_id <$> rc_emitted r) →
    recording now' (begin stage lane parent dependsOn now' r)
| recording_end now now' r i status counters accepted :
    recording now r → now ≤ now' → recording now' (end_span i status counters now' accepted r)
| recording_not_applicable now now' r stage lane parent accepted :
    recording now r → now ≤ now' → recording now' (notApplicable stage lane parent now' accepted r).

Definition is_open (h : handle) : bool := negb (hd_ended h).

Record recorded (now : Z) (r : recorder) : Prop := {
  re_ids : NoDup (sp_id <$> rc_emitted r);
  re_handle_ids : NoDup (hd_id <$> rc_handles r);
  re_spans : Forall (fun s => sp_id s < rc_nextId r ∧ sp_startMs s ≤ sp_endMs s ∧
               sp_clockDomain s = rc_clockDomain r ∧
               ∀ d, d ∈ sp_dependsOn s → d < sp_id s ∧ d ∈ sp_id <$> rc_emitted r) (rc_emitted r);
  re_handles : Forall (fun h => hd_id h < rc_nextId r ∧ hd_startMs h ≤ now ∧
                 (is_open h = true → hd_id h ∉ sp_id <$> rc_emitted r) ∧
                 ∀ d, d ∈ hd_dependsOn h → d < hd_id h ∧ d ∈ sp_id <$> rc_emitted r) (rc_handles r);
  re_open : rc_openSpans r = lengthZ (List.filter is_open (rc_handles r))
}.

(** Emitting a span that is new and sound keeps the record sound. *)
Lemma emit_recorded now accepted s r :
  recorded now r → sp_id s ∉ sp_id <$> rc_emitted r → Forall (fun h => is_open h = true → hd_id h ≠ sp_id s) (rc_handles r) →
  sp_id s < rc_nextId r → sp_startMs s ≤ sp_endMs s → sp_clockDomain s = rc_clockDomain r →
  (∀ d, d ∈ sp_dependsOn s → d < sp_id s ∧ d ∈ sp_id <$> rc_emitted r) →
  recorded now (emit accepted s r).
Proof.
  intros [Hids Hhids Hspans Hhandles Hopen] Hnew Hno Hnext Hfw Hdom Hdeps. destruct accepted; [|done].
  assert (sp_id <$> rc_emitted (emit true s r) = (sp_id <$> rc_emitted r) ++ [sp_id s]) as Ee
    by (cbn; by rewrite fmap_app).
  split; rewrite ?Ee; cbn [emit rc_emitted rc_handles rc_nextId rc_clockDomain rc_openSpans]; try done.
  - apply NoDup_app. split_and!; [done| |apply NoDup_singleton]. intros x Hx Hs.
    apply list_elem_of_singleton in Hs as ->. done.
  - apply Forall_app. split.
    + eapply Forall_impl; [exact Hspans|]. intros x (H1 & H2 & H3 & H4). split_and!; try done.
      intros d Hd. destruct (H4 d Hd). split; [done|]. apply elem_of_app. by left.
    + constructor; [|constructor]. split_and!; try done.
      intros d Hd. destruct (Hdeps d Hd). split; [done|]. apply elem_of_app. by left.
  - rewrite Forall_forall in Hhandles, Hno |- *. intros h Hh. destruct (Hhandles h Hh) as (H1 & H2 & H3 & H4).
    split_and!; try done.
    + intros Ho [Hx|Hx]%elem_of_app; [by apply H3|]. apply list_elem_of_singleton in Hx. by apply (Hno h Hh).
    + intros d Hd. destruct (H4 d Hd). split; [done|]. apply elem_of_app. by left.
Qed.

Lemma recorded_later now now' r : recorded now r → now ≤ now' → recorded now' r.
Proof.
  intros [Hids Hhids Hspans Hhandles Hopen] Hle. split; try done.
  eapply Forall_impl; [exact Hhandles|]. intros h (H1 & H2 & H3 & H4). split_and!; done || lia.
Qed.

Lemma begin_recorded now r stage lane parent dependsOn :
  recorded now r → (∀ d, d ∈ dependsOn → d ∈ sp_id <$> rc_emitted r) →
  recorded now (begin stage lane parent dependsOn now r).
Proof.
  intros [Hids Hhids Hspans Hhandles Hopen] Hdeps.
  assert (∀ d, d ∈ sp_id <$> rc_emitted r → d < rc_nextId r) as Hlt.
  { intros d (s & -> & Hs)%list_elem_of_fmap. rewrite Forall_forall in Hspans. by apply Hspans. }
  split; cbn [begin rc_emitted rc_handles rc_nextId rc_clockDomain rc_openSpans]; try done.
  - rewrite fmap_app. apply NoDup_app. split_and!; [done| |apply NoDup_singleton].
    intros x (h & -> & Hh)%list_elem_of_fmap Hx. apply list_elem_of_singleton in Hx. cbn in Hx.
    rewrite Forall_forall in Hhandles. destruct (Hhandles h Hh). lia.
  - eapply Forall_impl; [exact Hspans|]. intros s (H1 & H2 & H3 & H4). split_and!; done || lia.
  - apply Forall_app. split.
    + eapply Forall_impl; [exact Hhandles|]. intros h (H1 & H2 & H3 & H4). split_and!; done || lia.
    + constructor; [|constructor]. cbn. split_and!; [lia|lia| |].
      * intros _ Hx. specialize (Hlt _ Hx). lia.
      * intros d Hd. split; [by apply Hlt, Hdeps|by apply Hdeps].
  - rewrite Hopen, List.filter_app, lengthZ_app. done.
Qed.

Lemma filter_insert_open (l : list handle) i h :
  l !! i = Some h → is_open h = true →
  lengthZ (List.filter is_open (<[i := end_handle h]> l)) = lengthZ (List.filter is_open l) - 1.
Proof.
  revert i. induction l as [|x l IH]; intros [|i] Hi Ho; cbn in Hi; [done|done|..].
  - injection Hi as ->. cbn. rewrite Ho, lengthZ_cons. lia.
  - cbn. destruct (is_open x); rewrite ?lengthZ_cons, IH by done; lia.
Qed.

Lemma end_recorded now r i status counters accepted :
  recorded now r → recorded now (end_span i status counters now accepted r).
Proof.
  intros Hr. unfold end_span. destruct (rc_handles r !! i) as [h|] eqn:Ei; [|done].
  destruct (hd_ended h) eqn:Ee; [done|].
  destruct Hr as [Hids Hhids Hspans Hhandles Hopen].
  assert (is_open h = true) as Ho by (unfold is_open; by rewrite Ee).
  assert (h ∈ rc_handles r) as Hin by by eapply list_elem_of_lookup_2.
  pose proof (proj1 (Forall_forall _ _) Hhandles h Hin) as (H1 & H2 & H3 & H4).
  assert (∀ x, x ∈ <[i := end_handle h]> (rc_handles r) → (x = end_handle h) ∨ (x ∈ rc_handles r ∧ hd_id x ≠ hd_id h)) as Hins.
  { intros x (j & Hj)%list_elem_of_lookup. destruct (decide (i = j)) as [<-|Hij].
    - rewrite list_lookup_insert_eq in Hj by by eapply lookup_lt_Some. injection Hj as <-. by left.
    - rewrite list_lookup_insert_ne in Hj by done. right. split; [by eapply list_elem_of_lookup_2|].
      intros E. apply Hij. eapply (NoDup_lookup _ i j (hd_id h)); [exact Hhids| |];
        rewrite list_lookup_fmap; [by rewrite Ei|by rewrite Hj; cbn; rewrite E]. }
  apply emit_recorded; cbn; try done.
  - split; cbn; try done.
    + rewrite list_fmap_insert. cbn. rewrite list_insert_id; [done|]. by rewrite list_lookup_fmap, Ei.
    + apply Forall_forall. intros x [->|[Hx Hne]]%Hins.
      * cbn. split_and!; done.
      * rewrite Forall_forall in Hhandles. by apply Hhandles.
    + rewrite (filter_insert_open _ i h) by done. lia.
  - by apply H3.
  - apply Forall_forall. intros x [->|[Hx Hne]]%Hins; [done|done].
Qed.

Lemma not_applicable_recorded now r stage lane parent accepted :
  recorded now r → recorded now (notApplicable stage lane parent now accepted r).
Proof.
  intros [Hids Hhids Hspans Hhandles Hopen]. apply emit_recorded; cbn; try done; try lia.
  - split; cbn; try done.
    + eapply Forall_impl; [exact Hspans|]. intros s (H1 & H2 & H3 & H4). split_and!; done || lia.
    + eapply Forall_impl; [exact Hhandles|]. intros h (H1 & H2 & H3 & H4). split_and!; done || lia.
  - intros (s & E & Hs)%list_elem_of_fmap. rewrite Forall_forall in Hspans. destruct (Hspans s Hs). lia.
  - eapply Forall_impl; [exact Hhandles|]. intros h (H1 & _). intros _. lia.
  - intros d Hd. by apply elem_of_nil in Hd.
Qed.

Lemma recording_recorded now r : recording now r → recorded now r.
Proof.
  induction 1 as [now domain|now now' r stage lane parent deps _ IH Hle Hd|now now' r i status counters acc _ IH Hle|
    now now' r stage lane parent acc _ IH Hle].
  - split; cbn; try apply NoDup_nil_2; try constructor; done.
  - apply begin_recorded; [by eapply recorded_later|done].
  - apply end_recorded. by eapply recorded_later.
  - apply not_applicable_recorded. by eapply recorded_later.
Qed.

Lemma recorded_fine now r id : recorded now r → id ∈ sp_id <$> rc_emitted r → fine (by_id (rc_emitted r)) id.
Proof.
  intros [Hids _ Hspans _ _] Hid. set (spans := rc_emitted r) in *.
  assert (∀ x y, depends (by_id spans) x y → y < x ∧ y ∈ sp_id <$> spans) as Hdep.
  { intros x y (span & Hg & Hy). apply by_id_in in Hg as [Hin <-]. rewrite Forall_forall in Hspans.
    by apply (Hspans span Hin). }
  assert (∀ x, rtc (depends (by_id spans)) id x → x ∈ sp_id <$> spans) as Hreach.
  { intros x. apply (rtc_ind_r (fun x => x ∈ sp_id <$> spans)); [done|].
    intros y z _ Hyz _. by apply (Hdep y z). }
  intros x Hx. split.
  - apply Hreach in Hx. apply list_elem_of_fmap in Hx as (s & -> & Hs). by apply by_id_known.
  - intros Hc. assert (∀ a b, tc (depends (by_id spans)) a b → b < a) as Hlt.
    { induction 1 as [a b Hab|a b c Hab _ IH]; [by apply Hdep|]. destruct (Hdep a b Hab). lia. }
    specialize (Hlt x x Hc). lia.
Qed.

(** What a recorder emits can be analyzed: whatever is begun and ended, ended twice
    or never, and whatever the sink drops, ids are unique, a span is emitted at most
    once, the count of open spans is that of the handles not ended, and a trace with
    one root, whose spans depend on emitted ones, passes the analysis. *)
Theorem recorded_traces_analyzed now r :
  recording now r →
  NoDup (sp_id <$> rc_emitted r) ∧
  rc_openSpans r = lengthZ (List.filter is_open (rc_handles r)) ∧
  ∀ root, List.filter is_root (rc_emitted r) = [root] → is_ok (analyzeSearchTrace (rc_emitted r)) = true.
Proof.
  intros Hr. pose proof (recording_recorded now r Hr) as Hrec. split_and!; [apply Hrec|apply Hrec|].
  intros root Hroot. pose proof (analysis_decides (rc_emitted r)) as Hd.
  destruct (analyzeSearchTrace (rc_emitted r)) as [a|e]; [done|]. exfalso. apply Hd.
  pose proof (proj1 (Forall_forall _ _) (re_spans now r Hrec)) as Hs. split_and!.
  - intros s s' Hin Hin'. destruct (Hs s Hin) as (_ & _ & -> & _). by destruct (Hs s' Hin') as (_ & _ & -> & _).
  - apply Forall_forall. intros s Hin. by apply Hs.
  - by exists root.
  - intros id Hid. eapply recorded_fine; [exact Hrec|].
    apply list_elem_of_fmap in Hid as (s & -> & Hin). apply list_elem_of_In, List.filter_In in Hin as [Hin _].
    apply list_elem_of_fmap_2. by apply list_elem_of_In.
Qed.

(** ** Witnesses *)

(** A root with a query, two overlapping lanes that wait for it, and a fusion that
    waits for both. *)
Definition sample_recorder : recorder :=
  let r := createSearchTraceRecorder "pid:7" in
  let r := begin st_root ln_unified None [] 0 r in
  let r := begin st_query_inference ln_query (Some 1) [] 1 r in
  let r := end_span 1 status_ok no_counters 4 true r in
  let r := begin st_lexical_scan ln_message (Some 1) [2] 4 r in
  let r := begin st_vector_scan ln_message (Some 1) [2] 5 r in
  let r := end_span 2 status_ok no_counters 9 true r in
  let r := end_span 3 status_failed no_counters 14 true r in
  let r := end_span 3 status_ok no_counters 15 true r in
  let r := begin st_fusion ln_unified (Some 1) [3; 4] 16 r in
  let r := notApplicable st_reranking ln_unified (Some 1) 17 true r in
  let r := end_span 4 status_ok no_counters 18 true r in
  end_span 0 status_ok no_counters 20 true r.

Lemma sample_recording : recording 20 sample_recorder.
Proof.
  unfold sample_recorder. cbv zeta.
  eapply recording_end with (now := 18); [|lia]. eapply recording_end with (now := 17); [|lia].
  eapply recording_not_applicable with (now := 16); [|lia].
  eapply recording_begin with (now := 15); [|lia|].
  2: { intros d Hd. vm_compute. rewrite !elem_of_cons in Hd. destruct Hd as [->|[->|Hd]];
         [do 1 right; left|do 2 right; left|by apply elem_of_nil in Hd]. }
  eapply recording_end with (now := 14); [|lia]. eapply recording_end with (now := 9); [|lia].
  eapply recording_end with (now := 5); [|lia].
  eapply recording_begin with (now := 4); [|lia|].
  2: { intros d Hd. vm_compute. rewrite !elem_of_cons in Hd. destruct Hd as [->|Hd]; [left|by apply elem_of_nil in Hd]. }
  eapply recording_begin with (now := 4); [|lia|].
  2: { intros d Hd. vm_compute. rewrite !elem_of_cons in Hd. destruct Hd as [->|Hd]; [left|by apply elem_of_nil in Hd]. }
  eapply recording_end with (now := 1); [|lia].
  eapply recording_begin with (now := 0); [|lia|intros d Hd; by apply elem_of_nil in Hd].
  eapply recording_begin with (now := 0); [|lia|intros d Hd; by apply elem_of_nil in Hd].
  apply recording_start.
Qed.

Lemma recorded_traces_analyzed_witness :
  NoDup (sp_id <$> rc_emitted sample_recorder) ∧
  rc_openSpans sample_recorder = lengthZ (List.filter is_open (rc_handles sample_recorder)) ∧
  is_ok (analyzeSearchTrace (rc_emitted sample_recorder)) = true.
Proof.
  destruct (recorded_traces_analyzed 20 sample_recorder sample_recording) as (H1 & H2 & H3).
  split_and!; [exact H1|exact H2|]. eapply H3. vm_compute. reflexivity.
Defined.

Example sample_accounting :
  match analyzeSearchTrace (rc_emitted sample_recorder) with
  | Ok a => (an_rootDurationMs a, an_coveredMs a, an_uncoveredMs a, an_overlapMs a) = (20, 15, 5, 4) ∧
            an_criticalPath a = [2; 4; 5] ∧ an_criticalPathMs a = 14
  | Err _ => False
  end.
Proof. vm_compute. by split_and!. Qed.

(** On fractional milliseconds [coveredMs + uncoveredMs === rootDurationMs] can fail
    by rounding: 0.9 of which 0.2 are covered. *)
Example conservation_rounds :
  let rootDurationMs := nlit 9 10 in
  let coveredMs := nlit 2 10 in
  let uncoveredMs := nsub rootDurationMs coveredMs in
  neqb (nadd coveredMs uncoveredMs) rootDurationMs = false.
Proof. vm_compute. reflexivity. Qed.
