(* ===== verification/WindowGeometry.v ===== *)
(** * Context windows of models

    Models packages/plugin/src/shared/window-geometry.ts: the overlay of window
    facts, its parser, and the derivation of the usable soft and hard windows of a
    model. Log lines and the text of a derivation are not modelled, nor is the
    reading of the overlay file. *)

From S2P Require Import Prelude JsNumber JsExact JsMap JsValue JsString ModelKeys.

Definition WINDOW_OVERLAY_SCHEMA : string := "fusiform-window-overlay/v1".
Definition PROMPT_WALL_MARGIN : num := nofZ 4096.
Definition PI_OUTPUT_FLOOR : num := nofZ 4096.
Definition OPENCODE_OUTPUT_CAP : num := nofZ 32000.
Definition MIN_PLAUSIBLE_CONTEXT_LIMIT : num := nofZ 1024.
Definition OUTPUT_RESERVE_CAP_RATIO : num := nlit 1 4.

Inductive WindowGeometry := shared_upfront | shared_truncating | separate.
Inductive WindowReserveSource := output_catalog | output_config | wall_margin | rs_none.
Inductive WindowOverlayGrade :=
  provider_asserted_runtime | measured | provider_asserted_doc | catalog | grade_unknown.
Inductive WindowOverlayUnits := units_provider | units_estimate.
Inductive WindowOverlayBoundary := Observed | Asserted | Corrected.
Inductive WindowOverlayUnknownWhy :=
  placeholder_output_equals_context | placeholder_zero | never_measured | not_single_valued_at_key | retracted.

Inductive stated_value := stated_number (n : num) | stated_text (s : string).

Inductive WindowOverlayFactValue :=
| fact_stated (value : stated_value)
| fact_bracket (at_least below : option num)
| fact_unknown (why : WindowOverlayUnknownWhy).

(** [fa_fields] are the fields the record had, the unknown ones included. *)
Record WindowOverlayFact := {
  fa_value : WindowOverlayFactValue; fa_grade : WindowOverlayGrade; fa_units : WindowOverlayUnits;
  fa_boundary : WindowOverlayBoundary; fa_source_ref : string; fa_observed_at : string;
  fa_fields : list (string * value)
}.

Record WindowOverlayCell := {
  ce_provider_id : string; ce_model_id : string; ce_facts : jsmap string WindowOverlayFact
}.

Record WindowOverlay := {
  ov_generated_at : string; ov_minted_provider_ids : list string; ov_cells : list WindowOverlayCell
}.

Abbreviation ResolvedWindowOverlayFacts := (jsmap string WindowOverlayFact).

Record WindowDerivation := {
  wd_window : num; wd_reserve : num; wd_reserveSource : WindowReserveSource; wd_geometry : WindowGeometry
}.

Record WindowGeometryResult := {
  wr_usableSoft : num; wr_usableHard : num; wr_geometry : WindowGeometry; wr_derivation : WindowDerivation
}.

Record ModelLimit := { ml_context : option num; ml_input : option num; ml_output : option num }.

Inductive harness_kind := opencode | pi.

Record DeriveWindowGeometryOptions := {
  dw_overlay : option ResolvedWindowOverlayFacts;
  dw_providerLimit : option ModelLimit;
  dw_outputReserveOverride : option num;
  dw_harness : option harness_kind;
  dw_contextCap : option num
}.

Definition PROVIDER_GEOMETRY : jsmap string WindowGeometry :=
  [("anthropic", shared_truncating); ("xai", shared_truncating); ("google", separate);
   ("google-antigravity", separate)]%string.

Definition GRADES : jsmap string WindowOverlayGrade :=
  [("provider_asserted_runtime", provider_asserted_runtime); ("measured", measured);
   ("provider_asserted_doc", provider_asserted_doc); ("catalog", catalog); ("unknown", grade_unknown)]%string.
Definition UNITS : jsmap string WindowOverlayUnits :=
  [("provider", units_provider); ("estimate", units_estimate)]%string.
Definition BOUNDARIES : jsmap string WindowOverlayBoundary :=
  [("Observed", Observed); ("Asserted", Asserted); ("Corrected", Corrected)]%string.
Definition UNKNOWN_REASONS : jsmap string WindowOverlayUnknownWhy :=
  [("placeholder_output_equals_context", placeholder_output_equals_context);
   ("placeholder_zero", placeholder_zero); ("never_measured", never_measured);
   ("not_single_valued_at_key", not_single_valued_at_key); ("retracted", retracted)]%string.
Definition NUMERIC_FACT_KEYS : list string :=
  ["window.advertised"; "window.enforced"; "output.advertised"; "output.enforced"; "output.default"]%string.
Definition GEOMETRIES : jsmap string WindowGeometry :=
  [("shared_upfront", shared_upfront); ("shared_truncating", shared_truncating); ("separate", separate)]%string.

(** A member of a set of names. *)
Definition named {A} (names : jsmap string A) (v : value) : option A :=
  match v with VStr s => JsMap.get names s | _ => None end.

Definition finite_positive (x : num) : bool := isFinite x && nltb (nofZ 0) x.

(** [isFinitePositive]: the number, when there is one. *)
Definition isFinitePositive (x : option num) : option num :=
  match x with Some n => if finite_positive n then Some n else None | None => None end.

Definition scalarizeFact (v : WindowOverlayFactValue) : option num :=
  match v with
  | fact_stated (stated_number n) => isFinitePositive (Some n)
  | fact_stated (stated_text _) => None
  | fact_bracket at_least _ => isFinitePositive at_least
  | fact_unknown _ => None
  end.

(** ** Parsing *)

Definition nonempty_text (v : value) : option string :=
  match v with VStr s => if is_empty s then None else Some s | _ => None end.

(** A bound of a bracket: absent, a positive number, or refused. *)
Definition bracket_bound (v : value) : option (option num) :=
  match v with
  | VUndefined => Some None
  | VNum n => if finite_positive n then Some (Some n) else None
  | _ => None
  end.

Definition parseFactValue (v : value) : option WindowOverlayFactValue :=
  record ← isRecord v;
  match field record "kind" with
  | VStr kind =>
      if String.eqb kind "stated" then
        match field record "value" with
        | VNum n => if isFinite n then Some (fact_stated (stated_number n)) else None
        | VStr s => Some (fact_stated (stated_text s))
        | _ => None
        end
      else if String.eqb kind "bracket" then
        at_least ← bracket_bound (field record "at_least");
        below ← bracket_bound (field record "below");
        match at_least, below with
        | Some a, Some b => if nleb b a then None else Some (fact_bracket at_least below)
        | _, _ => Some (fact_bracket at_least below)
        end
      else if String.eqb kind "unknown" then
        why ← named UNKNOWN_REASONS (field record "why");
        Some (fact_unknown why)
      else None
  | _ => None
  end.

(** What the key demands of a stated value. *)
Definition fits_key (key : string) (v : WindowOverlayFactValue) : bool :=
  match v with
  | fact_stated stated =>
      (if bool_decide (key ∈ NUMERIC_FACT_KEYS)
       then match stated with stated_number n => finite_positive n | stated_text _ => false end else true) &&
      (if String.eqb key "geometry"
       then match stated with stated_number _ => false | stated_text s => JsMap.has GEOMETRIES s end else true)
  | _ => true
  end.

Definition parseFact (key : string) (v : value) : option WindowOverlayFact :=
  record ← isRecord v;
  parsedValue ← parseFactValue (field record "value");
  grade ← named GRADES (field record "grade");
  units ← named UNITS (field record "units");
  boundary ← named BOUNDARIES (field record "boundary");
  source_ref ← nonempty_text (field record "source_ref");
  observed_at ← nonempty_text (field record "observed_at");
  if fits_key key parsedValue then
    Some {| fa_value := parsedValue; fa_grade := grade; fa_units := units; fa_boundary := boundary;
            fa_source_ref := source_ref; fa_observed_at := observed_at; fa_fields := record |}
  else None.

Fixpoint parse_facts (facts : jsmap string WindowOverlayFact) (entries : list (string * value))
    : option (jsmap string WindowOverlayFact) :=
  match entries with
  | [] => Some facts
  | (key, rawFact) :: entries =>
      fact ← parseFact key rawFact;
      parse_facts (JsMap.set facts key fact) entries
  end.

Definition parse_cell (rawCell : value) : option WindowOverlayCell :=
  record ← isRecord rawCell;
  provider_id ← nonempty_text (field record "provider_id");
  model_id ← nonempty_text (field record "model_id");
  rawFacts ← isRecord (field record "facts");
  facts ← parse_facts [] rawFacts;
  Some {| ce_provider_id := provider_id; ce_model_id := model_id; ce_facts := facts |}.

(** The loop over the cells: those that parse, and how many do not. *)
Fixpoint parse_cells (cells : list WindowOverlayCell) (badCells : Z) (raw : list value)
    : list WindowOverlayCell * Z :=
  match raw with
  | [] => (cells, badCells)
  | rawCell :: raw =>
      match parse_cell rawCell with
      | Some cell => parse_cells (cells ++ [cell]) badCells raw
      | None => parse_cells cells (badCells + 1) raw
      end
  end.

Inductive overlay_refusal := root_not_object | unrecognized_schema (schema : value) | invalid_envelope.

Definition text_items (v : value) : option (list string) :=
  match v with VArr items => mapM nonempty_text items | _ => None end.

Definition parseWindowOverlay (v : value) : result overlay_refusal (WindowOverlay * Z) :=
  match isRecord v with
  | None => Err root_not_object
  | Some record =>
      match field record "schema" with
      | VStr schema =>
          if String.eqb schema WINDOW_OVERLAY_SCHEMA then
            match field record "generated_at", text_items (field record "minted_provider_ids"),
                  field record "cells" with
            | VStr generated_at, Some minted, VArr raw =>
                let '(cells, badCells) := parse_cells [] 0 raw in
                Ok ({| ov_generated_at := generated_at; ov_minted_provider_ids := minted; ov_cells := cells |},
                    badCells)
            | _, _, _ => Err invalid_envelope
            end
          else Err (unrecognized_schema (VStr schema))
      | schema => Err (unrecognized_schema schema)
      end
  end.

(** ** Facts of a model *)

Definition cut_colon (modelID : string) : option string :=
  match cut_last ":" modelID with
  | Some (bareModel, _) => if is_empty bareModel then None else Some bareModel
  | None => None
  end.

(** What [ref.slice(ref.indexOf("/") + 1)] is. *)
Definition model_of (ref : string) : string :=
  match cut "/" ref with Some (_, model) => model | None => ref end.

(** [Object.assign(target, source)]. *)
Definition object_assign {A} (target source : jsmap string A) : jsmap string A :=
  foldl (fun m e => JsMap.set m e.1 e.2) target source.

(** The loop over the cells, with the wildcard and the specific facts so far. *)
Definition cell_step (providerCandidates modelCandidates : list string)
    (acc : jsmap string WindowOverlayFact * jsmap string WindowOverlayFact) (cell : WindowOverlayCell)
    : jsmap string WindowOverlayFact * jsmap string WindowOverlayFact :=
  if bool_decide (ce_provider_id cell ∈ providerCandidates) then
    if String.eqb (ce_model_id cell) "*" then (object_assign acc.1 (ce_facts cell), acc.2)
    else if bool_decide (ce_model_id cell ∈ modelCandidates)
         then (acc.1, object_assign acc.2 (ce_facts cell))
         else acc
  else acc.

Definition resolveWindowOverlayFacts (providerID modelID : string) (overlay : option WindowOverlay)
    : option ResolvedWindowOverlayFacts :=
  overlay ← overlay;
  let modelRefs := modelRefLookupOrder (providerID ++ "/" ++ modelID) in
  let providerCandidates := List.map provider_of modelRefs in
  let modelCandidates := modelID :: List.map model_of modelRefs ++
    match cut_colon modelID with Some bareModel => [bareModel] | None => [] end in
  let '(wildcardFacts, specificFacts) :=
    foldl (cell_step providerCandidates modelCandidates) ([], []) (ov_cells overlay) in
  match object_assign wildcardFacts specificFacts with
  | [] => None
  | facts => Some facts
  end.

Definition numericOverlayFact (overlay : option ResolvedWindowOverlayFacts) (key : string) : option num :=
  facts ← overlay;
  fact ← JsMap.get facts key;
  scalarizeFact (fa_value fact).

Inductive geometry_fact := geometry_stated (g : WindowGeometry) | geometry_unknown.

Definition overlayGeometry (overlay : option ResolvedWindowOverlayFacts) : option geometry_fact :=
  facts ← overlay;
  fact ← JsMap.get facts "geometry"%string;
  match fa_value fact with
  | fact_unknown _ => Some geometry_unknown
  | fact_stated (stated_text s) => g ← JsMap.get GEOMETRIES s; Some (geometry_stated g)
  | _ => None
  end.

Definition placeholderFilteredOutput (output context : option num) : option num :=
  o ← isFinitePositive output;
  match isFinitePositive context with
  | Some c => if nleb c o then None else Some o
  | None => Some o
  end.

Definition mergePositive (overlayValue providerValue : option num) : option num :=
  match isFinitePositive providerValue with Some p => Some p | None => overlayValue end.

(** [a ?? b]. *)
Definition or_else {A} (a b : option A) : option A := match a with Some _ => a | None => b end.

(** ** Derivation *)

(** [Math.min(context, cap)], or the cap when there is no context. *)
Definition capped (context : option num) (contextCap : option num) : option num :=
  match isFinitePositive contextCap with
  | Some cap => match isFinitePositive context with Some c => Some (nmin c cap) | None => Some cap end
  | None => context
  end.

(** The reserve kept from eating the half-window floor. *)
Definition floored_reserve (window reserve : num) : num :=
  let floor := nmax MIN_PLAUSIBLE_CONTEXT_LIMIT (nmul window (nlit 1 2)) in
  nmin reserve (nmax (nofZ 0) (nsub window floor)).

Definition usable_of (window reserve : num) : num := nfloor (nsub window (floored_reserve window reserve)).

(** The arguments of the derivation once the sources are merged. *)
Record merged_limits := {
  mg_soft : option num; mg_hard : option num; mg_input : option num; mg_output : option num;
  mg_geometry : WindowGeometry; mg_geometryOverride : bool
}.

Definition merge_limits (providerID : string) (catalogLimit : option ModelLimit)
    (options : DeriveWindowGeometryOptions) : merged_limits :=
  let overlay := dw_overlay options in
  let providerLimit := dw_providerLimit options in
  let catalogContext := isFinitePositive (catalogLimit ≫= ml_context) in
  let advertised := numericOverlayFact overlay "window.advertised" in
  let enforced := numericOverlayFact overlay "window.enforced" in
  let soft := mergePositive (or_else enforced (or_else advertised catalogContext)) (providerLimit ≫= ml_context) in
  let hard := mergePositive (or_else enforced soft) (providerLimit ≫= ml_context) in
  let softContext := capped soft (dw_contextCap options) in
  let hardContext := capped hard (dw_contextCap options) in
  let input := mergePositive (isFinitePositive (catalogLimit ≫= ml_input)) (providerLimit ≫= ml_input) in
  let catalogOutput :=
    match overlay, providerLimit with
    | None, None => isFinitePositive (catalogLimit ≫= ml_output)
    | _, _ => placeholderFilteredOutput (catalogLimit ≫= ml_output) softContext
    end in
  let overlayOutput :=
    placeholderFilteredOutput
      (or_else (numericOverlayFact overlay "output.enforced")
         (or_else (numericOverlayFact overlay "output.default")
            (numericOverlayFact overlay "output.advertised"))) softContext in
  let providerOutput := placeholderFilteredOutput (providerLimit ≫= ml_output) softContext in
  {| mg_soft := softContext; mg_hard := hardContext; mg_input := input;
     mg_output := or_else providerOutput (or_else overlayOutput catalogOutput);
     mg_geometry := match overlayGeometry overlay with
                    | Some (geometry_stated g) => g
                    | Some geometry_unknown => shared_upfront
                    | None => default shared_upfront (JsMap.get PROVIDER_GEOMETRY providerID)
                    end;
     mg_geometryOverride := match overlayGeometry overlay with Some (geometry_stated _) => true | _ => false end |}.

Definition is_pi (options : DeriveWindowGeometryOptions) : bool :=
  match dw_harness options with Some pi => true | _ => false end.

Definition preCarvedInput (m : merged_limits) : option num :=
  match isFinitePositive (mg_input m) with
  | None => None
  | Some input =>
      match isFinitePositive (mg_soft m) with
      | Some soft => if nltb input soft then Some input else None
      | None => Some input
      end
  end.

Definition output_override (options : DeriveWindowGeometryOptions) : option num :=
  match dw_outputReserveOverride options with
  | Some r => if isFinite r && nleb (nofZ 0) r then Some r else None
  | None => None
  end.

(** What the catalog's output reserves of a window that is not carved yet. *)
Definition catalog_reserve (m : merged_limits) (options : DeriveWindowGeometryOptions) (soft : num)
    : num * WindowReserveSource :=
  let no_overlay := match dw_overlay options with None => true | Some _ => false end in
  if (match mg_geometry m with separate => true | _ => false end) &&
     (no_overlay || is_pi options || mg_geometryOverride m)
  then (nofZ 0, rs_none)
  else
    let cap := nmul soft OUTPUT_RESERVE_CAP_RATIO in
    (nmin (default (nofZ 0) (mg_output m))
       (if is_pi options || no_overlay then cap else nmin cap OPENCODE_OUTPUT_CAP),
     match mg_output m with None => rs_none | Some _ => output_catalog end).

(** The soft window: the window it is carved from, its size and what reserved the
    rest. *)
Definition derive_soft (m : merged_limits) (options : DeriveWindowGeometryOptions)
    : option (num * num * WindowReserveSource) :=
  match output_override options with
  | Some override =>
      reserveWindow ← isFinitePositive (or_else (preCarvedInput m) (or_else (mg_soft m) (mg_input m)));
      Some (reserveWindow, usable_of reserveWindow override, output_config)
  | None =>
      match preCarvedInput m with
      | Some input =>
          Some (default input (or_else (mg_soft m) (mg_input m)), input,
                match isFinitePositive (mg_soft m) with Some _ => output_catalog | None => rs_none end)
      | None =>
          match isFinitePositive (mg_soft m) with
          | Some soft =>
              let '(reserve, source) := catalog_reserve m options soft in
              Some (soft, usable_of soft reserve, source)
          | None => input ← mg_input m; Some (input, input, rs_none)
          end
      end
  end.

(** What the hard window loses to the output. *)
Definition hard_margin (providerID : string) (m : merged_limits) (options : DeriveWindowGeometryOptions) : num :=
  match mg_geometry m with
  | separate => nofZ 0
  | shared_truncating => PROMPT_WALL_MARGIN
  | shared_upfront =>
      if is_pi options then
        if String.eqb providerID "openai-codex" then default OPENCODE_OUTPUT_CAP (mg_output m)
        else PI_OUTPUT_FLOOR
      else nmin (default OPENCODE_OUTPUT_CAP (mg_output m)) OPENCODE_OUTPUT_CAP
  end.

Definition derive_hard (providerID : string) (m : merged_limits) (options : DeriveWindowGeometryOptions)
    (hardWindow usableSoft : num) : num :=
  let usable := match mg_geometry m with
                | separate => hardWindow
                | _ => nsub hardWindow (hard_margin providerID m options)
                end in
  let usableHard := nmax MIN_PLAUSIBLE_CONTEXT_LIMIT (nfloor usable) in
  if nltb usableHard usableSoft then usableSoft else usableHard.

Definition deriveWindowGeometry (providerID : string) (catalogLimit : option ModelLimit)
    (options : DeriveWindowGeometryOptions) : option WindowGeometryResult :=
  match catalogLimit, dw_providerLimit options with
  | None, None => None
  | _, _ =>
      let m := merge_limits providerID catalogLimit options in
      match isFinitePositive (mg_soft m), isFinitePositive (mg_input m) with
      | None, None => None
      | _, _ =>
          '(resolvedWindow, usableSoft, reserveSource) ← derive_soft m options;
          hardWindow ← isFinitePositive (or_else (mg_hard m) (or_else (mg_soft m) (mg_input m)));
          Some {| wr_usableSoft := usableSoft;
                  wr_usableHard := derive_hard providerID m options hardWindow usableSoft;
                  wr_geometry := mg_geometry m;
                  wr_derivation :=
                    {| wd_window := nfloor resolvedWindow;
                       wd_reserve := nfloor (nmax (nofZ 0) (nsub resolvedWindow usableSoft));
                       wd_reserveSource := reserveSource; wd_geometry := mg_geometry m |} |}
      end
  end.

(** ** Lemmas: whole tokens

    Token counts are whole and below 2^50; their halves and quarters are then exact,
    and the derivation computes what it computes on integers. *)

Definition quarters (n : Z) : num := dyadic n (-2).

Lemma nofZ_quarters n : 0 ≤ n < 2 ^ 50 → nofZ n = quarters (4 * n).
Proof.
  intros Hn. unfold quarters. replace (4 * n) with (n * 2 ^ 2) by lia. by rewrite dyadic_scale by lia.
Qed.

Lemma half_quarters n : 0 ≤ n < 2 ^ 50 → nmul (nofZ n) (nlit 1 2) = quarters (2 * n).
Proof.
  intros Hn. assert (nlit 1 2 = dyadic 1 (-1)) as -> by (vm_compute; done).
  rewrite nofZ_dyadic, mul_dyadic by lia. unfold quarters.
  replace (2 * n) with (n * 1 * 2 ^ 1) by lia. by rewrite dyadic_scale by lia.
Qed.

Lemma quarter_quarters n : 0 ≤ n < 2 ^ 50 → nmul (nofZ n) OUTPUT_RESERVE_CAP_RATIO = quarters n.
Proof.
  intros Hn. assert (OUTPUT_RESERVE_CAP_RATIO = dyadic 1 (-2)) as -> by (vm_compute; done).
  rewrite nofZ_dyadic, mul_dyadic by lia. unfold quarters. f_equal. lia.
Qed.

Lemma nmin_quarters a b : 0 ≤ a < 2 ^ 53 → 0 ≤ b < 2 ^ 53 → nmin (quarters a) (quarters b) = quarters (Z.min a b).
Proof. intros. by apply nmin_dyadic. Qed.

Lemma nmin_nofZ a b : 0 ≤ a < 2 ^ 53 → 0 ≤ b < 2 ^ 53 → nmin (nofZ a) (nofZ b) = nofZ (Z.min a b).
Proof. intros. by apply nmin_dyadic. Qed.

Lemma nmax_sub_nofZ a b : 0 ≤ a < 2 ^ 53 → 0 ≤ b < 2 ^ 53 →
  nmax (nofZ 0) (nsub (nofZ a) (nofZ b)) = nofZ (Z.max 0 (a - b)).
Proof. intros Ha Hb. apply (nmax_sub a b 0); lia. Qed.

Lemma nfloor_nofZ n : 0 ≤ n < 2 ^ 53 → nfloor (nofZ n) = nofZ n.
Proof.
  intros Hn. rewrite (nofZ_dyadic n) at 1. change (dyadic n 0) with (dyadic n (- 0)).
  by rewrite nfloor_dyadic, Z.div_1_r by lia.
Qed.

Lemma finite_positive_nofZ n : 0 ≤ n < 2 ^ 53 → finite_positive (nofZ n) = (0 <? n).
Proof. intros Hn. unfold finite_positive. rewrite nltb_nofZ by lia. by destruct (isFinite_nofZ n Hn) as [-> _]. Qed.

(** The reserve that is left of [r] quarters, and the window that is left. *)
Definition usable_tokens (w r : Z) : Z := (4 * w - Z.min r (Z.max 0 (4 * w - Z.max 4096 (2 * w)))) / 4.

Lemma usable_of_tokens w r : 0 < w < 2 ^ 50 → 0 ≤ r < 2 ^ 53 →
  usable_of (nofZ w) (quarters r) = nofZ (usable_tokens w r).
Proof.
  intros Hw Hr. unfold usable_of, floored_reserve.
  rewrite half_quarters, (nofZ_quarters w) by lia.
  change MIN_PLAUSIBLE_CONTEXT_LIMIT with (nofZ 1024). rewrite (nofZ_quarters 1024) by lia.
  unfold quarters. rewrite nmax_dyadic by lia. rewrite nmax_sub by lia. rewrite nmin_dyadic by lia.
  rewrite sub_dyadic by lia. change (-2) with (- (2)). rewrite nfloor_dyadic by lia. done.
Qed.

Lemma usable_tokens_bounds w r : 0 < w → 0 ≤ r →
  0 < usable_tokens w r ≤ w ∧ w ≤ 2 * usable_tokens w r + 1 ∧ (r = 0 → usable_tokens w r = w).
Proof.
  intros Hw Hr. unfold usable_tokens.
  set (v := 4 * w - Z.min r _). pose proof (Z.div_mod v 4 ltac:(lia)). pose proof (Z.mod_pos_bound v 4 ltac:(lia)).
  lia.
Qed.

(** Nothing, or a positive whole number of tokens. *)
Definition tokens (o : option num) : Prop := o = None ∨ ∃ n, 0 < n < 2 ^ 50 ∧ o = Some (nofZ n).

Lemma tokens_None : tokens None.
Proof. by left. Qed.

Lemma tokens_Some n : 0 < n < 2 ^ 50 → tokens (Some (nofZ n)).
Proof. right. by exists n. Qed.

Lemma isFinitePositive_tokens o : tokens o → isFinitePositive o = o.
Proof.
  intros [->|(n & Hn & ->)]; [done|]. cbn. rewrite finite_positive_nofZ by lia.
  by rewrite (proj2 (Z.ltb_lt _ _)) by lia.
Qed.

Lemma positive_tokens n : 0 < n < 2 ^ 50 → tokens (isFinitePositive (Some (nofZ n))).
Proof. intros Hn. rewrite isFinitePositive_tokens; by apply tokens_Some. Qed.

Lemma or_else_tokens a b : tokens a → tokens b → tokens (or_else a b).
Proof. destruct a; [done|]. done. Qed.

Lemma merge_tokens a b : tokens a → tokens (isFinitePositive b) → tokens (mergePositive a b).
Proof. intros Ha Hb. unfold mergePositive. by destruct (isFinitePositive b). Qed.

Lemma merge_Some a b x : mergePositive a b = Some x → isFinitePositive b = Some x ∨ a = Some x.
Proof. unfold mergePositive. destruct (isFinitePositive b); [intros [= ->]; by left|by right]. Qed.

Lemma placeholder_tokens o c : tokens (isFinitePositive o) → tokens (placeholderFilteredOutput o c).
Proof.
  intros Ho. unfold placeholderFilteredOutput. destruct (isFinitePositive o) as [x|]; [|done]. cbn.
  destruct (isFinitePositive c) as [y|]; [|done]. destruct (nleb y x); [by left|done].
Qed.

(** What a cap leaves: at most the cap, and something when there is one. *)
Lemma capped_tokens o cap : tokens o → tokens (isFinitePositive cap) →
  tokens (capped o cap) ∧ (o ≠ None → capped o cap ≠ None) ∧
  ∀ c, 0 < c < 2 ^ 50 → isFinitePositive cap = Some (nofZ c) →
    ∃ n, 0 < n ≤ c ∧ capped o cap = Some (nofZ n).
Proof.
  intros Ho Hc. unfold capped. destruct Hc as [->|(c & Hc & ->)]; [done|].
  assert (∃ n, 0 < n ≤ c ∧ match isFinitePositive o with
    | Some x => Some (nmin x (nofZ c)) | None => Some (nofZ c) end = Some (nofZ n)) as (n & Hn & ->).
  { rewrite isFinitePositive_tokens by done. destruct Ho as [->|(n & Hn & ->)]; [by exists c; split; [lia|]|].
    exists (Z.min n c). rewrite nmin_nofZ by lia. split; [lia|done]. }
  split_and!; [apply tokens_Some; lia|done|]. intros c' Hc' [= E].
  assert (c' = c) as ->. { rewrite <- (floorZ_nofZ c'), <- E, floorZ_nofZ by lia. done. }
  by exists n.
Qed.

(** ** Lemmas: derivation *)

(** Every source a derivation reads is a whole number of tokens where it is a
    positive number at all. *)
Record whole_sources (catalogLimit : option ModelLimit) (options : DeriveWindowGeometryOptions) : Prop := {
  ws_limits l : catalogLimit = Some l ∨ dw_providerLimit options = Some l →
    tokens (isFinitePositive (ml_context l)) ∧ tokens (isFinitePositive (ml_input l)) ∧
    tokens (isFinitePositive (ml_output l));
  ws_facts key : tokens (numericOverlayFact (dw_overlay options) key);
  ws_override r : output_override options = Some r → ∃ n, 0 ≤ n < 2 ^ 50 ∧ r = nofZ n;
  ws_cap : tokens (isFinitePositive (dw_contextCap options))
}.

Section derivation.
Context (providerID : string) (catalogLimit : option ModelLimit) (options : DeriveWindowGeometryOptions).
Context (Hws : whole_sources catalogLimit options).
Let m := merge_limits providerID catalogLimit options.

Lemma limit_field (f : ModelLimit → option num) o :
  (∀ l, o = Some l → tokens (isFinitePositive (f l))) → tokens (isFinitePositive (o ≫= f)).
Proof. destruct o as [l|]; intros H; [by apply H|apply tokens_None]. Qed.

Lemma catalog_field (f : ModelLimit → option num) :
  f = ml_context ∨ f = ml_input ∨ f = ml_output → tokens (isFinitePositive (catalogLimit ≫= f)).
Proof.
  intros Hf. apply limit_field. intros l El. destruct (ws_limits _ _ Hws l (or_introl El)) as (H1 & H2 & H3).
  by destruct Hf as [->|[->| ->]].
Qed.

Lemma provider_field (f : ModelLimit → option num) :
  f = ml_context ∨ f = ml_input ∨ f = ml_output → tokens (isFinitePositive (dw_providerLimit options ≫= f)).
Proof.
  intros Hf. apply limit_field. intros l El. destruct (ws_limits _ _ Hws l (or_intror El)) as (H1 & H2 & H3).
  by destruct Hf as [->|[->| ->]].
Qed.

(** The merged context windows before the cap. *)
Definition raw_soft : option num :=
  mergePositive (or_else (numericOverlayFact (dw_overlay options) "window.enforced")
    (or_else (numericOverlayFact (dw_overlay options) "window.advertised")
       (isFinitePositive (catalogLimit ≫= ml_context)))) (dw_providerLimit options ≫= ml_context).
Definition raw_hard : option num :=
  mergePositive (or_else (numericOverlayFact (dw_overlay options) "window.enforced") raw_soft)
    (dw_providerLimit options ≫= ml_context).

Lemma raw_soft_tokens : tokens raw_soft.
Proof.
  apply merge_tokens; [|apply provider_field; by left].
  apply or_else_tokens; [apply Hws|]. apply or_else_tokens; [apply Hws|]. apply catalog_field. by left.
Qed.

Lemma raw_hard_tokens : tokens raw_hard.
Proof.
  apply merge_tokens; [|apply provider_field; by left]. apply or_else_tokens; [apply Hws|apply raw_soft_tokens].
Qed.

Lemma soft_capped : mg_soft m = capped raw_soft (dw_contextCap options).
Proof. done. Qed.

Lemma hard_capped : mg_hard m = capped raw_hard (dw_contextCap options).
Proof. done. Qed.

Lemma soft_tokens : tokens (mg_soft m).
Proof. rewrite soft_capped. apply capped_tokens; [apply raw_soft_tokens|apply Hws]. Qed.

Lemma hard_tokens : tokens (mg_hard m).
Proof. rewrite hard_capped. apply capped_tokens; [apply raw_hard_tokens|apply Hws]. Qed.

(** The hard window is known when the soft one is. *)
Lemma hard_known : mg_soft m ≠ None → mg_hard m ≠ None.
Proof.
  rewrite soft_capped, hard_capped. unfold capped. destruct (isFinitePositive (dw_contextCap options)).
  { by destruct (isFinitePositive raw_hard). }
  unfold raw_hard, raw_soft, mergePositive.
  destruct (isFinitePositive (dw_providerLimit options ≫= ml_context)); [done|].
  by destruct (numericOverlayFact (dw_overlay options) "window.enforced").
Qed.

Lemma input_tokens : tokens (mg_input m).
Proof.
  apply merge_tokens; [apply catalog_field; by right; left|apply provider_field; by right; left].
Qed.

Lemma output_tokens : tokens (mg_output m).
Proof.
  unfold m, merge_limits. cbn [mg_output].
  apply or_else_tokens; [apply placeholder_tokens, provider_field; by right; right|].
  apply or_else_tokens.
  - apply placeholder_tokens. rewrite isFinitePositive_tokens.
    all: apply or_else_tokens; [apply Hws|]; apply or_else_tokens; apply Hws.
  - pose proof (catalog_field ml_output ltac:(by right; right)) as Hc.
    destruct (dw_overlay options), (dw_providerLimit options); try by apply placeholder_tokens. done.
Qed.

(** A window of [w] tokens of which [s] are usable. *)
Record soft_window (w s : Z) : Prop := {
  sw_positive : 0 < s ≤ w;
  sw_small : w < 2 ^ 50;
  sw_half : preCarvedInput m = None ∨ output_override options ≠ None → w ≤ 2 * s + 1;
  sw_cap c : 0 < c < 2 ^ 50 → isFinitePositive (dw_contextCap options) = Some (nofZ c) → s ≤ c
}.

Lemma precarved_spec : preCarvedInput m = None ∨
  ∃ i, 0 < i < 2 ^ 50 ∧ preCarvedInput m = Some (nofZ i) ∧ mg_input m = Some (nofZ i) ∧
       (mg_soft m = None ∨ ∃ s, i < s < 2 ^ 50 ∧ mg_soft m = Some (nofZ s)).
Proof.
  unfold preCarvedInput. rewrite !isFinitePositive_tokens by first [apply input_tokens|apply soft_tokens].
  destruct input_tokens as [->|(i & Hi & ->)]; [by left|].
  destruct soft_tokens as [->|(s & Hs & ->)]; [right; exists i; by auto|].
  rewrite nltb_nofZ by lia. destruct (Z.ltb_spec i s); [|by left].
  right. exists i. split_and!; [lia|lia|done|done|]. right. exists s. split; [lia|done].
Qed.

Lemma soft_capped_le s c : mg_soft m = Some (nofZ s) → 0 < s < 2 ^ 50 → 0 < c < 2 ^ 50 →
  isFinitePositive (dw_contextCap options) = Some (nofZ c) → s ≤ c.
Proof.
  intros Es Hs Hc Ec. rewrite soft_capped in Es.
  destruct (capped_tokens _ _ raw_soft_tokens (ws_cap _ _ Hws)) as (_ & _ & H).
  destruct (H c Hc Ec) as (n & Hn & En). rewrite En in Es. injection Es as Es.
  apply (f_equal floorZ) in Es. rewrite !floorZ_nofZ in Es by lia. lia.
Qed.

Lemma soft_known_by_cap c : isFinitePositive (dw_contextCap options) = Some c → mg_soft m ≠ None.
Proof. rewrite soft_capped. unfold capped. intros ->. by destruct (isFinitePositive raw_soft). Qed.

Lemma catalog_reserve_tokens s : 0 < s < 2 ^ 50 →
  ∃ r, 0 ≤ r < 2 ^ 53 ∧ (catalog_reserve m options (nofZ s)).1 = quarters r.
Proof.
  intros Hs. unfold catalog_reserve. destruct (_ && _); [exists 0; split; [lia|done]|]. cbn [fst].
  rewrite quarter_quarters by lia. change OPENCODE_OUTPUT_CAP with (nofZ 32000). rewrite (nofZ_quarters 32000) by lia.
  assert (∃ o, 0 ≤ o < 2 ^ 52 ∧ default (nofZ 0) (mg_output m) = quarters o) as (o & Ho & ->).
  { destruct output_tokens as [->|(o & Ho & ->)]; [by exists 0|]. exists (4 * o). cbn [default].
    rewrite nofZ_quarters by lia. split; [lia|done]. }
  destruct (is_pi options || _).
  - exists (Z.min o s). rewrite nmin_quarters by lia. split; [lia|done].
  - exists (Z.min o (Z.min s (4 * 32000))). rewrite !nmin_quarters by lia. split; [lia|done].
Qed.

Lemma usable_window w r : 0 < w < 2 ^ 50 → 0 ≤ r < 2 ^ 53 →
  (∀ c, 0 < c < 2 ^ 50 → isFinitePositive (dw_contextCap options) = Some (nofZ c) → w ≤ c) →
  soft_window w (usable_tokens w r).
Proof.
  intros Hw Hr Hc. pose proof (usable_tokens_bounds w r ltac:(lia) ltac:(lia)) as (H1 & H2 & _).
  split; [done|lia|lia|]. intros c Hc' Ec. specialize (Hc c Hc' Ec). lia.
Qed.

Lemma derive_soft_spec : mg_soft m ≠ None ∨ mg_input m ≠ None →
  ∃ w s source, derive_soft m options = Some (nofZ w, nofZ s, source) ∧ soft_window w s.
Proof.
  intros Hk. unfold derive_soft.
  assert (∀ i, mg_input m = Some (nofZ i) → mg_soft m = None →
    ∀ c, isFinitePositive (dw_contextCap options) = Some c → False) as Hno.
  { intros i _ Es c Ec. by apply (soft_known_by_cap c) in Ec. }
  destruct (output_override options) as [r|] eqn:Er.
  - destruct (ws_override _ _ Hws r Er) as (n & Hn & ->).
    assert (∃ w, 0 < w < 2 ^ 50 ∧ or_else (preCarvedInput m) (or_else (mg_soft m) (mg_input m)) = Some (nofZ w) ∧
      ∀ c, 0 < c < 2 ^ 50 → isFinitePositive (dw_contextCap options) = Some (nofZ c) → w ≤ c) as (w & Hw & -> & Hc).
    { destruct precarved_spec as [->|(i & Hi & -> & Ei & Hs)].
      - cbn [or_else]. destruct soft_tokens as [Es|(s & Hs & Es)].
        + rewrite Es in *. destruct input_tokens as [Ei|(i & Hi & Ei)]; [by destruct Hk|].
          exists i. rewrite Ei. split_and!; [lia|lia|done|]. intros c _ Ec. by destruct (Hno i Ei eq_refl _ Ec).
        + exists s. rewrite Es. split_and!; [lia|lia|done|]. intros c. by apply soft_capped_le.
      - exists i. split_and!; [lia|lia|done|]. intros c Hc Ec. destruct Hs as [Es|(s & Hs & Es)].
        + by destruct (Hno i Ei Es _ Ec).
        + pose proof (soft_capped_le s c Es ltac:(lia) Hc Ec). lia. }
    rewrite isFinitePositive_tokens by by apply tokens_Some. cbn.
    rewrite (nofZ_quarters n), usable_of_tokens by lia.
    exists w, (usable_tokens w (4 * n)), output_config. split; [done|]. apply usable_window; [done|lia|done].
  - destruct precarved_spec as [Ep|(i & Hi & Ep & Ei & Hs)].
    + rewrite Ep. rewrite isFinitePositive_tokens by apply soft_tokens.
      destruct soft_tokens as [Es|(s & Hs & Es)]; rewrite Es in *.
      * destruct input_tokens as [Ei|(i & Hi & Ei)]; [by destruct Hk|]. exfalso.
        unfold preCarvedInput in Ep. by rewrite Ei, Es, isFinitePositive_tokens in Ep by by apply tokens_Some.
      * destruct (catalog_reserve_tokens s Hs) as (r & Hr & E).
        destruct (catalog_reserve m options (nofZ s)) as [reserve source]. cbn [fst] in E. subst reserve.
        rewrite usable_of_tokens by lia. exists s, (usable_tokens s r), source. split; [done|].
        apply usable_window; [done|lia|]. intros c. by apply soft_capped_le.
    + rewrite Ep. destruct Hs as [Es|(s & Hs & Es)]; rewrite Es; cbn [or_else default].
      * rewrite Ei. exists i, i, rs_none. split; [done|]. split; [lia|lia|lia|].
        intros c _ Ec. by destruct (Hno i Ei Es _ Ec).
      * eexists s, i, _. split; [done|]. split; [lia|lia| |].
        { rewrite Ep, Er. by intros [?|?]. }
        intros c Hc Ec. pose proof (soft_capped_le s c Es ltac:(lia) Hc Ec). lia.
Qed.

Lemma derive_hard_spec h s : 0 < h < 2 ^ 50 → 0 < s < 2 ^ 50 →
  ∃ hard, derive_hard providerID m options (nofZ h) (nofZ s) = nofZ hard ∧ s ≤ hard ∧ 1024 ≤ hard < 2 ^ 50 ∧
          (hard ≤ Z.max 1024 h ∨ hard = s) ∧ (mg_geometry m = separate → hard = Z.max (Z.max 1024 h) s).
Proof.
  intros Hh Hs. unfold derive_hard.
  assert (∃ d, 0 ≤ d < 2 ^ 50 ∧
    nmax MIN_PLAUSIBLE_CONTEXT_LIMIT
      (nfloor match mg_geometry m with separate => nofZ h | _ => nsub (nofZ h) (hard_margin providerID m options) end)
      = nofZ (Z.max 1024 (h - d)) ∧ (mg_geometry m = separate → d = 0)) as (d & Hd & -> & Hsep).
  { change MIN_PLAUSIBLE_CONTEXT_LIMIT with (nofZ 1024).
    assert (∃ d, 0 ≤ d < 2 ^ 50 ∧ (mg_geometry m = separate ∧ d = 0 ∨
              mg_geometry m ≠ separate ∧ hard_margin providerID m options = nofZ d)) as (d & Hd & Hm).
    { unfold hard_margin. change OPENCODE_OUTPUT_CAP with (nofZ 32000).
      assert (∃ o, 0 ≤ o < 2 ^ 50 ∧ default (nofZ 32000) (mg_output m) = nofZ o) as (o & Ho & ->).
      { destruct output_tokens as [->|(o & Ho & ->)]; [by exists 32000|]. exists o. split; [lia|done]. }
      destruct (mg_geometry m).
      - destruct (is_pi options); [destruct (String.eqb providerID "openai-codex")|].
        + exists o. auto.
        + exists 4096. split; [lia|]. by right.
        + exists (Z.min o 32000). rewrite nmin_nofZ by lia. split; [lia|]. by right.
      - exists 4096. split; [lia|]. by right.
      - exists 0. split; [lia|]. by left. }
    exists d. split; [done|]. destruct Hm as [[-> ->]|[Hne Em]].
    - rewrite nfloor_nofZ by lia. split; [|done]. unfold nofZ. fold (dyadic 1024 0) (dyadic h 0).
      rewrite nmax_dyadic by lia. unfold dyadic. do 2 f_equal. lia.
    - rewrite Em. split; [|done]. destruct (mg_geometry m); [| |done]; apply nmax_floor_sub; lia. }
  rewrite nltb_nofZ by lia. destruct (Z.ltb_spec (Z.max 1024 (h - d)) s).
  - exists s. split_and!; [done|lia|lia|lia|by right|]. intros ->%Hsep. lia.
  - exists (Z.max 1024 (h - d)). split_and!; [done|lia|lia|lia|left; lia|]. intros ->%Hsep. lia.
Qed.

End derivation.

(** ** Properties *)

(** The sources a window can come from. *)
Definition window_sources (catalogLimit : option ModelLimit) (options : DeriveWindowGeometryOptions)
    : list (option num) :=
  [catalogLimit ≫= ml_context; catalogLimit ≫= ml_input;
   dw_providerLimit options ≫= ml_context; dw_providerLimit options ≫= ml_input].

Lemma unknown_window providerID catalogLimit options :
  let m := merge_limits providerID catalogLimit options in
  mg_soft m = None → mg_input m = None →
  Forall (fun source => isFinitePositive source = None) (window_sources catalogLimit options).
Proof.
  cbn zeta. cbn [mg_soft mg_input merge_limits]. unfold capped, mergePositive.
  destruct (isFinitePositive (dw_contextCap options)); [by destruct (isFinitePositive _)|].
  destruct (isFinitePositive (dw_providerLimit options ≫= ml_context)) eqn:E1; [done|].
  destruct (isFinitePositive (dw_providerLimit options ≫= ml_input)) eqn:E2; [done|].
  unfold or_else at 1. destruct (numericOverlayFact _ "window.enforced"); [done|].
  destruct (numericOverlayFact _ "window.advertised"); [done|]. cbn [or_else]. intros E3 E4.
  repeat constructor; done.
Qed.

(** What a derivation promises of a window. *)
Definition sound_geometry (providerID : string) (catalogLimit : option ModelLimit)
    (options : DeriveWindowGeometryOptions) (r : WindowGeometryResult) : Prop :=
  let m := merge_limits providerID catalogLimit options in
  ∃ window soft hard,
    wd_window (wr_derivation r) = nofZ window ∧ wr_usableSoft r = nofZ soft ∧ wr_usableHard r = nofZ hard ∧
    wd_reserve (wr_derivation r) = nofZ (window - soft) ∧
    0 < soft ≤ window ∧ soft ≤ hard ∧ 1024 ≤ hard ∧
    (if output_override options
     then window ≤ 2 * soft + 1
     else match preCarvedInput m with
          | Some input => nofZ soft = input
          | None => window ≤ 2 * soft + 1
          end) ∧
    (∀ cap, 0 < cap < 2 ^ 50 → isFinitePositive (dw_contextCap options) = Some (nofZ cap) →
       soft ≤ cap ∧ hard ≤ Z.max 1024 cap).

Lemma geometry_sound providerID catalogLimit options :
  whole_sources catalogLimit options →
  match deriveWindowGeometry providerID catalogLimit options with
  | Some r => sound_geometry providerID catalogLimit options r
  | None => Forall (fun source => isFinitePositive source = None) (window_sources catalogLimit options)
  end.
Proof.
  intros Hws. pose (m := merge_limits providerID catalogLimit options).
  pose proof (soft_tokens providerID catalogLimit options Hws : tokens (mg_soft m)) as Hsoft.
  pose proof (input_tokens providerID catalogLimit options Hws : tokens (mg_input m)) as Hinput.
  assert (mg_soft m ≠ None ∨ mg_input m ≠ None →
    ∃ r, sound_geometry providerID catalogLimit options r ∧
      ('(resolvedWindow, usableSoft, reserveSource) ← derive_soft m options;
       hardWindow ← isFinitePositive (or_else (mg_hard m) (or_else (mg_soft m) (mg_input m)));
       Some {| wr_usableSoft := usableSoft; wr_usableHard := derive_hard providerID m options hardWindow usableSoft;
               wr_geometry := mg_geometry m;
               wr_derivation := {| wd_window := nfloor resolvedWindow;
                 wd_reserve := nfloor (nmax (nofZ 0) (nsub resolvedWindow usableSoft));
                 wd_reserveSource := reserveSource; wd_geometry := mg_geometry m |} |}) = Some r) as Hdo.
  { intros Hk. destruct (derive_soft_spec providerID catalogLimit options Hws Hk) as (w & s & source & E & Hw).
    fold m in E. rewrite E. cbn [mbind option_bind].
    pose proof (hard_tokens providerID catalogLimit options Hws : tokens (mg_hard m)) as Hhard.
    assert (∃ h, 0 < h < 2 ^ 50 ∧ or_else (mg_hard m) (or_else (mg_soft m) (mg_input m)) = Some (nofZ h) ∧
      ∀ cap, 0 < cap < 2 ^ 50 → isFinitePositive (dw_contextCap options) = Some (nofZ cap) → h ≤ cap)
      as (h & Hh & Eh & Hcap).
    { destruct Hhard as [En|(h & Hh & En)].
      - assert (mg_soft m = None) as Es.
        { destruct (mg_soft m) eqn:Es; [|done]. exfalso. apply (hard_known providerID catalogLimit options); [|done].
          fold m. by rewrite Es. }
        destruct Hinput as [Ei|(i & Hi & Ei)]; [by destruct Hk|]. exists i. rewrite En, Es, Ei.
        split_and!; [lia|lia|done|]. intros cap _ Ec.
        by apply (soft_known_by_cap providerID catalogLimit options) in Ec.
      - exists h. rewrite En. split_and!; [lia|lia|done|]. intros cap Hc Ec.
        rewrite (hard_capped providerID catalogLimit options : mg_hard m = _) in En.
        destruct (capped_tokens _ _ (raw_hard_tokens catalogLimit options Hws) (ws_cap _ _ Hws)) as (_ & _ & H).
        destruct (H cap Hc Ec) as (n & Hn & En'). rewrite En' in En. injection En as En.
        apply (f_equal floorZ) in En. rewrite !floorZ_nofZ in En by lia. lia. }
    rewrite Eh, isFinitePositive_tokens by by apply tokens_Some. cbn [mbind option_bind].
    destruct Hw as [Hs Hsmall Hhalf Hle].
    destruct (derive_hard_spec providerID catalogLimit options Hws h s Hh ltac:(lia)) as (hard & Ehard & H1 & H2 & H3 & _).
    fold m in Ehard. rewrite Ehard. eexists. split; [|done].
    exists w, s, hard. cbn [wr_derivation wd_window wd_reserve wr_usableSoft wr_usableHard].
    rewrite (nfloor_nofZ w), nmax_sub_nofZ, nfloor_nofZ, Z.max_r by lia.
    split_and!; try done; try lia.
    { revert E. unfold derive_soft. destruct (output_override options) eqn:Eo; [intros _; apply Hhalf; by right|].
      fold m. destruct (preCarvedInput m) as [input|] eqn:Ei; [by intros [= _ <- _]|]. intros _. apply Hhalf. by left. }
    intros cap Hc Ec. specialize (Hle cap Hc Ec). specialize (Hcap cap Hc Ec). lia. }
  unfold deriveWindowGeometry. fold m. rewrite !isFinitePositive_tokens by done.
  assert (mg_soft m = None → mg_input m = None →
    Forall (fun source => isFinitePositive source = None) (window_sources catalogLimit options)) as Hno
    by apply unknown_window.
  destruct (match mg_soft m, mg_input m with None, None => true | _, _ => false end) eqn:Ek.
  - destruct (mg_soft m); [by destruct (mg_input m)|]. destruct (mg_input m); [done|].
    specialize (Hno eq_refl eq_refl). by destruct catalogLimit, (dw_providerLimit options).
  - destruct (mg_soft m) as [x|] eqn:Es.
    + destruct Hdo as (r & Hr & ->); [by left|]. destruct catalogLimit, (dw_providerLimit options) eqn:Ep; try done.
      unfold window_sources. rewrite Ep. by repeat constructor.
    + destruct (mg_input m) as [y|] eqn:Ei; [|done]. pose proof (isFinitePositive_tokens _ Hinput) as Ey.
      destruct Hdo as (r & Hr & ->); [by right|]. rewrite Ey. destruct catalogLimit, (dw_providerLimit options) eqn:Ep; try done.
      unfold window_sources. rewrite Ep. by repeat constructor.
Qed.


(** ** Witnesses *)

Definition sample_limit : ModelLimit :=
  {| ml_context := Some (nofZ 200000); ml_input := None; ml_output := Some (nofZ 64000) |}.

Definition sample_options : DeriveWindowGeometryOptions :=
  {| dw_overlay := None; dw_providerLimit := None; dw_outputReserveOverride := None;
     dw_harness := Some opencode; dw_contextCap := Some (nofZ 150001) |}.

Lemma sample_sources : whole_sources (Some sample_limit) sample_options.
Proof.
  split.
  - intros l [[= <-]|[=]]. split_and!; [apply positive_tokens; lia|by left|apply positive_tokens; lia].
  - intros key. by left.
  - intros r [=].
  - apply positive_tokens. lia.
Qed.

