(* ===== verification/ModelLimits.v ===== *)
(** * The cache of model limits

    Models packages/plugin/src/shared/models-dev-cache.ts: the limits a provider
    catalog reports, their persistence over restarts, and the limits they resolve
    to.  The catalog's answers, the clock and whether a write to disk succeeds are
    arguments; what the encoder of JSON loses is a hypothesis. *)

From S2P Require Import Prelude JsNumber JsExact JsMap JsValue JsString JsJson ModelKeys WindowGeometry.
From Stdlib Require Import SpecFloat.

Definition MIN_SANE_LIMIT : num := nofZ 20000.
Definition MAX_SANE_LIMIT : num := nofZ 3000000.

Definition sane (x : num) : bool := nleb MIN_SANE_LIMIT x && nleb x MAX_SANE_LIMIT.

(** [isSaneLimit]: the number, when there is one. *)
Definition isSaneLimit (x : option num) : option num :=
  match x with Some n => if sane n then Some n else None | None => None end.

(** A number for every model, or one per key with "default" among them. *)
Inductive OutputReserveConfig :=
| reserve_number (n : num)
| reserve_keys (keys : jsmap string num).

Record CachedModelMetadata := {
  cm_limit : option num; cm_contextLimit : option num; cm_inputLimit : option num;
  cm_outputLimit : option num; cm_vision : option bool
}.

Abbreviation api_cache := (jsmap string CachedModelMetadata).

(** The module's variables, and the file that persists the cache. *)
Record limits_state := {
  ls_outputReserveConfig : option OutputReserveConfig;
  ls_apiCache : option api_cache;
  ls_apiLoadedAt : num;
  ls_persistSeedLoaded : bool;
  ls_authRewarmDone : bool;
  ls_file : option value
}.

Definition initial_limits (file : option value) : limits_state :=
  {| ls_outputReserveConfig := None; ls_apiCache := None; ls_apiLoadedAt := nofZ 0;
     ls_persistSeedLoaded := false; ls_authRewarmDone := false; ls_file := file |}.

Definition with_cache (c : option api_cache) (st : limits_state) : limits_state :=
  {| ls_outputReserveConfig := ls_outputReserveConfig st; ls_apiCache := c;
     ls_apiLoadedAt := ls_apiLoadedAt st; ls_persistSeedLoaded := ls_persistSeedLoaded st;
     ls_authRewarmDone := ls_authRewarmDone st; ls_file := ls_file st |}.

Definition setOutputReserveConfig (config : option OutputReserveConfig) (st : limits_state) : limits_state :=
  {| ls_outputReserveConfig := config; ls_apiCache := ls_apiCache st;
     ls_apiLoadedAt := ls_apiLoadedAt st; ls_persistSeedLoaded := ls_persistSeedLoaded st;
     ls_authRewarmDone := ls_authRewarmDone st; ls_file := ls_file st |}.

(** ** Persistence *)

Definition num_field (record : list (string * value)) (key : string) : option num :=
  match field record key with VNum n => Some n | _ => None end.

(** One persisted entry. Reading a property of null throws. *)
Definition load_entry (persisted : value) : option (option CachedModelMetadata) :=
  match persisted with
  | VNull | VUndefined => None
  | _ =>
      let get key := match persisted with VObj record => num_field record key | _ => None end in
      let limit := match persisted with VNum n => Some n | _ => get "limit"%string end in
      let vision := match persisted with
                    | VObj record => match field record "vision" with VBool b => b | _ => false end
                    | _ => false
                    end in
      match isSaneLimit (get "contextLimit"%string), isSaneLimit limit with
      | None, None => Some None
      | contextLimit, limit =>
          Some (Some {| cm_limit := limit; cm_contextLimit := contextLimit;
                        cm_inputLimit := isSaneLimit (get "inputLimit"%string);
                        cm_outputLimit := isFinitePositive (get "outputLimit"%string);
                        cm_vision := Some vision |})
      end
  end.

(** The loop over the persisted entries; [None] is a throw. *)
Fixpoint load_entries (map : api_cache) (entries : list (string * value)) : option api_cache :=
  match entries with
  | [] => Some map
  | (key, persisted) :: entries =>
      loaded ← load_entry persisted;
      load_entries (match loaded with Some m => JsMap.set map key m | None => map end) entries
  end.

Definition index_key (i : nat) : string := of_code_units (decimal_units (Z.of_nat i)).

(** [Object.entries] of what the file holds; [None] is a throw. *)
Definition file_entries (v : value) : option (list (string * value)) :=
  match v with
  | VObj entries => Some entries
  | VArr items => Some (imap (fun i item => (index_key i, item)) items)
  | VStr s => Some (imap (fun i u => (index_key i, VStr (str_of_unit u))) (code_units s))
  | VNull | VUndefined => None
  | VBool _ | VNum _ => Some []
  end.

Definition loadPersistedApiCacheOnce (st : limits_state) : limits_state :=
  match ls_persistSeedLoaded st, ls_apiCache st with
  | false, None =>
      let st' := {| ls_outputReserveConfig := ls_outputReserveConfig st; ls_apiCache := None;
                    ls_apiLoadedAt := ls_apiLoadedAt st; ls_persistSeedLoaded := true;
                    ls_authRewarmDone := ls_authRewarmDone st; ls_file := ls_file st |} in
      match (obj ← ls_file st; entries ← file_entries obj; load_entries [] entries) with
      | Some ((_ :: _) as map) => with_cache (Some map) st'
      | _ => st'
      end
  | _, _ => st
  end.

Definition opt_num (key : string) (x : option num) : list (string * value) :=
  match x with Some n => [(key, VNum n)] | None => [] end.

(** The object of one entry; [JSON.stringify] leaves out what is undefined. *)
Definition persisted_entry (m : CachedModelMetadata) (limit : num) : value :=
  VObj (("limit"%string, VNum limit) ::
        opt_num "contextLimit" (isSaneLimit (cm_contextLimit m)) ++
        opt_num "inputLimit" (isSaneLimit (cm_inputLimit m)) ++
        opt_num "outputLimit" (isFinitePositive (cm_outputLimit m)) ++
        [("vision"%string, VBool (default false (cm_vision m)))]).

Definition persisted_cache (cache : api_cache) : value :=
  VObj (omap (fun e => limit ← isSaneLimit (cm_limit e.2); Some (e.1, persisted_entry e.2 limit)) cache).

Definition persistApiCache (written : bool) (st : limits_state) : limits_state :=
  match ls_apiCache st with
  | None => st
  | Some cache =>
      if written then
        {| ls_outputReserveConfig := ls_outputReserveConfig st; ls_apiCache := ls_apiCache st;
           ls_apiLoadedAt := ls_apiLoadedAt st; ls_persistSeedLoaded := ls_persistSeedLoaded st;
           ls_authRewarmDone := ls_authRewarmDone st; ls_file := Some (persisted_cache cache) |}
      else st
  end.

(** ** Refreshing *)

Section refresh.
Context `{Engine}.

Definition mentions_vision (v : value) : bool :=
  let text := toLowerCase (default EmptyString (json_stringify (coalesce v (VStr EmptyString)))) in
  includes text "image" || includes text "vision".

(** [model?.key]. *)
Definition opt_field (v : value) (key : string) : value :=
  match v with VObj record => field record key | _ => VUndefined end.

Definition num_of (v : value) : option num := match v with VNum n => Some n | _ => None end.

(** [Object.entries] of an object or array; nothing for what is neither. *)
Definition object_entries (v : value) : list (string * value) :=
  match v with VObj _ | VArr _ => default [] (file_entries v) | _ => [] end.

Definition setCachedModelMetadata (cache : api_cache) (key : string) (model : value) : api_cache :=
  let limit := opt_field model "limit" in
  let contextLimit := num_of (opt_field limit "context") in
  let inputLimit := num_of (opt_field limit "input") in
  let outputLimit := num_of (opt_field limit "output") in
  match or_else (isSaneLimit contextLimit) (isSaneLimit inputLimit) with
  | None => cache
  | Some rawLimit =>
      let vision := existsb mentions_vision
        [opt_field model "capabilities"; opt_field model "modalities"; opt_field model "input";
         opt_field model "attachment"] in
      let m := {| cm_limit := Some rawLimit; cm_contextLimit := isSaneLimit contextLimit;
                  cm_inputLimit := isSaneLimit inputLimit; cm_outputLimit := isFinitePositive outputLimit;
                  cm_vision := Some vision |} in
      let cache := JsMap.set cache key m in
      foldl (fun cache mode => JsMap.set cache (key ++ "-" ++ mode.1)%string m) cache
        (object_entries (opt_field (opt_field model "experimental") "modes"))
  end.

(** One provider of the payload. *)
Definition add_provider (map : api_cache) (entry : value) : api_cache :=
  match opt_field entry "id" with
  | VStr id =>
      if is_empty id then map
      else foldl (fun map e => setCachedModelMetadata map (id ++ "/" ++ e.1)%string e.2) map
             (object_entries (opt_field entry "models"))
  | _ => map
  end.

(** What [config.providers()] answers: [None] when it throws. *)
Abbreviation providers_answer := (option value).

Definition refreshModelLimitsOnce (answer : providers_answer) (now : num) (written : bool) (st : limits_state)
    : limits_state * bool :=
  match (r ← answer; Some (opt_field (opt_field r "data") "providers")) with
  | Some (VArr ((_ :: _) as providers)) =>
      let map := foldl add_provider [] providers in
      (persistApiCache written
         {| ls_outputReserveConfig := ls_outputReserveConfig st; ls_apiCache := Some map;
            ls_apiLoadedAt := now; ls_persistSeedLoaded := ls_persistSeedLoaded st;
            ls_authRewarmDone := ls_authRewarmDone st; ls_file := ls_file st |}, true)
  | _ => (st, false)
  end.

(** The attempts of [refreshModelLimitsFromApi], over the answers they meet. *)
Fixpoint refresh_attempts (attempts : nat) (answers : list (providers_answer * num * bool)) (st : limits_state)
    : limits_state * nat :=
  match attempts, answers with
  | S attempts, (answer, now, written) :: answers =>
      let '(st, ok) := refreshModelLimitsOnce answer now written st in
      if ok : bool then (st, 1%nat)
      else let '(st, calls) := refresh_attempts attempts answers st in (st, S calls)
  | _, _ => (st, O)
  end.

Definition refreshModelLimitsFromApi (retries : option Z) (answers : list (providers_answer * num * bool))
    (st : limits_state) : limits_state * nat :=
  refresh_attempts (Z.to_nat (Z.max 1 (default 0 retries + 1))) answers st.

Definition with_latch (b : bool) (st : limits_state) : limits_state :=
  {| ls_outputReserveConfig := ls_outputReserveConfig st; ls_apiCache := ls_apiCache st;
     ls_apiLoadedAt := ls_apiLoadedAt st; ls_persistSeedLoaded := ls_persistSeedLoaded st;
     ls_authRewarmDone := b; ls_file := ls_file st |}.

(** Before and after the await of [refreshModelLimitsAfterAuthOnce]: the latch is
    set at once; whether the call went on to refresh. *)
Definition auth_refresh_start (st : limits_state) : limits_state * bool :=
  if ls_authRewarmDone st then (st, false) else (with_latch true st, true).

Definition auth_refresh_finish (answer : providers_answer) (now : num) (written : bool) (st : limits_state)
    : limits_state :=
  let '(st, ok) := refreshModelLimitsOnce answer now written st in
  if ok : bool then st else with_latch false st.

End refresh.

Definition clearModelsDevCache (st : limits_state) : limits_state :=
  {| ls_outputReserveConfig := ls_outputReserveConfig st; ls_apiCache := None; ls_apiLoadedAt := nofZ 0;
     ls_persistSeedLoaded := false; ls_authRewarmDone := ls_authRewarmDone st; ls_file := ls_file st |}.

(** ** Resolving *)

(** [modelKeyLookupOrder] of models-dev-cache.ts. *)
Definition reserveKeyOrder (providerID modelID : string) : list string :=
  js_set (modelRefLookupOrder (providerID ++ "/" ++ modelID) ++ [modelID] ++
          match cut_colon modelID with
          | Some bareModel => modelRefLookupOrder (providerID ++ "/" ++ bareModel) ++ [bareModel]
          | None => []
          end).

Definition usable_reserve (x : option num) : option num :=
  match x with Some n => if isFinite n && nleb (nofZ 0) n then Some n else None | None => None end.

Fixpoint first_reserve (keys : jsmap string num) (candidates : list string) : option num :=
  match candidates with
  | [] => None
  | c :: candidates =>
      match usable_reserve (JsMap.get keys c) with
      | Some v => Some v
      | None => first_reserve keys candidates
      end
  end.

Definition resolveOutputReserve (providerID modelID : string) (config : option OutputReserveConfig) : option num :=
  match config with
  | Some (reserve_number n) => usable_reserve (Some n)
  | None => None
  | Some (reserve_keys keys) =>
      or_else (first_reserve keys (reserveKeyOrder providerID modelID))
        (usable_reserve (JsMap.get keys "default"%string))
  end.

Definition SEPARATE_OUTPUT_QUOTA_PROVIDERS : list string := ["google"; "google-antigravity"]%string.

Definition resolveLimit (limit : option ModelLimit) (providerID modelID : string)
    (reserveConfig : option OutputReserveConfig) : option num :=
  limit ← limit;
  let context := isFinitePositive (ml_context limit) in
  let input := isFinitePositive (ml_input limit) in
  match input, context with
  | Some i, None => Some i
  | None, None => None
  | _, Some c =>
      if match input with Some i => nltb i c | None => false end then input
      else
        let reserve :=
          match resolveOutputReserve providerID modelID reserveConfig with
          | Some configuredReserve => configuredReserve
          | None =>
              if bool_decide (providerID ∈ SEPARATE_OUTPUT_QUOTA_PROVIDERS) then nofZ 0
              else nmin (default (nofZ 0) (isFinitePositive (ml_output limit))) (nmul c OUTPUT_RESERVE_CAP_RATIO)
          end in
        let floor := nmax MIN_PLAUSIBLE_CONTEXT_LIMIT (nmul c (nlit 1 2)) in
        let maxReserve := nmax (nofZ 0) (nsub c floor) in
        Some (nfloor (nsub c (if nltb maxReserve reserve then maxReserve else reserve)))
  end.

Definition lookupMetadataWithTagFallback (cache : option api_cache) (providerID modelID : string)
    : option CachedModelMetadata :=
  cache ← cache;
  match JsMap.get cache (providerID ++ "/" ++ modelID)%string with
  | Some found => Some found
  | None => bareModel ← cut_colon modelID; JsMap.get cache (providerID ++ "/" ++ bareModel)%string
  end.

Inductive ContextLimitProvenance := prompt_only | combined | provenance_unknown.

Definition normalizeContextLimitProvenance (v : value) : ContextLimitProvenance :=
  match v with
  | VStr s => if String.eqb s "prompt_only" then prompt_only
              else if String.eqb s "combined" then combined else provenance_unknown
  | _ => provenance_unknown
  end.

Definition is_prompt_only (p : option ContextLimitProvenance) : bool :=
  match p with Some prompt_only => true | _ => false end.

Definition promptOnlyDetected (detected : option num) (provenance : option ContextLimitProvenance) : option num :=
  if is_prompt_only provenance then isFinitePositive detected else None.

(** [overlay] is what [getWindowOverlay] answers. *)
Definition getSdkWindowGeometry (overlay : option WindowOverlay) (providerID modelID : string)
    (detectedContextLimit : option num) (provenance : option ContextLimitProvenance)
    (harness : option harness_kind) (st : limits_state) : limits_state * option WindowGeometryResult :=
  let st := loadPersistedApiCacheOnce st in
  (st,
   metadata ← lookupMetadataWithTagFallback (ls_apiCache st) providerID modelID;
   let rawContext := or_else (cm_contextLimit metadata) (cm_limit metadata) in
   let promptOnly := promptOnlyDetected detectedContextLimit provenance in
   result ← deriveWindowGeometry providerID
     (Some {| ml_context := rawContext; ml_input := cm_inputLimit metadata; ml_output := cm_outputLimit metadata |})
     {| dw_overlay := resolveWindowOverlayFacts providerID modelID overlay;
        dw_providerLimit := None;
        dw_outputReserveOverride := resolveOutputReserve providerID modelID (ls_outputReserveConfig st);
        dw_harness := Some (default opencode harness);
        dw_contextCap := match promptOnly with None => isFinitePositive detectedContextLimit | Some _ => None end |};
   match promptOnly with
   | None => Some result
   | Some usableSoft =>
       Some {| wr_usableSoft := usableSoft;
               wr_usableHard := nmax usableSoft (nmin (wr_usableHard result) usableSoft);
               wr_geometry := wr_geometry result; wr_derivation := wr_derivation result |}
   end).

(** [Math.min] of the finite positive candidates, if any. *)
Definition least_input (a b : option num) : option num :=
  match isFinitePositive a, isFinitePositive b with
  | Some a, Some b => Some (nmin a b)
  | Some a, None => Some a
  | None, b => b
  end.

(** [unreserved] is the reservation "none". *)
Definition getSdkContextLimit (overlay : option WindowOverlay) (providerID modelID : string)
    (detectedContextLimit : option num) (unreserved : bool) (provenance : option ContextLimitProvenance)
    (st : limits_state) : limits_state * option num :=
  if negb unreserved then
    let '(st, result) := getSdkWindowGeometry overlay providerID modelID detectedContextLimit provenance None st in
    (st, wr_usableSoft <$> result)
  else
    let st := loadPersistedApiCacheOnce st in
    (st,
     metadata ← lookupMetadataWithTagFallback (ls_apiCache st) providerID modelID;
     let rawContext := or_else (cm_contextLimit metadata) (cm_limit metadata) in
     let promptOnly := promptOnlyDetected detectedContextLimit provenance in
     let context := match promptOnly, isFinitePositive detectedContextLimit with
                    | None, Some d => match isFinitePositive rawContext with
                                      | Some c => Some (nmin c d)
                                      | None => Some d
                                      end
                    | _, _ => rawContext
                    end in
     resolveLimit
       (Some {| ml_context := context; ml_input := least_input (cm_inputLimit metadata) promptOnly;
                ml_output := cm_outputLimit metadata |})
       providerID modelID (Some (reserve_number (nofZ 0)))).

Definition has_vision (m : option CachedModelMetadata) : bool :=
  match m ≫= cm_vision with Some true => true | _ => false end.

Definition modelSupportsVision (providerID modelID : string) (st : limits_state) : limits_state * bool :=
  let st := loadPersistedApiCacheOnce st in
  (st, match ls_apiCache st with
       | None => false
       | Some cache =>
           has_vision (JsMap.get cache (providerID ++ "/" ++ modelID)%string) ||
           match cut_colon modelID with
           | Some bareModel => has_vision (JsMap.get cache (providerID ++ "/" ++ bareModel)%string)
           | None => false
           end
       end).

Definition getSdkInputLimit (providerID modelID : string) (st : limits_state) : limits_state * option num :=
  let st := loadPersistedApiCacheOnce st in
  (st,
   cache ← ls_apiCache st;
   or_else (isSaneLimit (JsMap.get cache (providerID ++ "/" ++ modelID)%string ≫= cm_inputLimit))
     (match cut ":" modelID with
      | Some (tagless, _) =>
          if is_empty tagless then None
          else isSaneLimit (JsMap.get cache (providerID ++ "/" ++ tagless)%string ≫= cm_inputLimit)
      | None => None
      end)).

(** ** Lemmas: limits *)

Lemma isFinitePositive_idem o : isFinitePositive (isFinitePositive o) = isFinitePositive o.
Proof. destruct o as [x|]; [|done]. cbn. destruct (finite_positive x) eqn:E; [|done]. cbn. by rewrite E. Qed.

Lemma isFinitePositive_spec o x : isFinitePositive o = Some x → finite_positive x = true.
Proof. destruct o as [y|]; [|done]. cbn. destruct (finite_positive y) eqn:E; [|done]. by intros [= <-]. Qed.

Lemma finite_positive_form x : finite_positive x = true → ∃ m e, x = S754_finite false m e.
Proof. destruct x as [[]|[]| |[] m e]; try done. by exists m, e. Qed.

(** Taking the smaller of two reserves one way or the other leaves the same. *)
Lemma nsub_nmin c r mx : finite_positive c = true → isNaN r = false → isNaN mx = false →
  nsub c (nmin r mx) = nsub c (if nltb mx r then mx else r).
Proof.
  intros (m & e & ->)%finite_positive_form Hr Hm.
  destruct r as [s1|s1| |s1 m1 e1], mx as [s2|s2| |s2 m2 e2]; try done; by destruct s1, s2.
Qed.

Lemma nsub_finite_nan x y : isFinite x = true → isNaN y = false → isNaN (nsub x y) = false.
Proof.
  intros Hx Hy. destruct y as [s|s| |s m e]; [by apply nsub_nan| |done|by apply nsub_nan].
  by destruct x.
Qed.

Lemma nmul_finite_nan x y : isFinite x = true → isFinite y = true → isNaN (nmul x y) = false.
Proof.
  destruct x as [s1|s1| |s1 m1 e1], y as [s2|s2| |s2 m2 e2]; try done. intros _ _. cbn [nmul SFmul].
  pose proof (round_aux_signed (xorb s1 s2) (Zpos (m1 * m2)) (e1 + e2) loc_Exact ltac:(lia)) as H.
  by destruct (binary_round_aux _ _ _ _ _ _).
Qed.

Lemma max_reserve_nan c : finite_positive c = true →
  isNaN (nmax (nofZ 0) (nsub c (nmax MIN_PLAUSIBLE_CONTEXT_LIMIT (nmul c (nlit 1 2))))) = false.
Proof.
  intros Hc. unfold finite_positive in Hc. apply andb_true_iff in Hc as [Hc _].
  rewrite nmax_nan. cbn [isNaN nofZ binary_normalize orb]. apply nsub_finite_nan; [done|].
  rewrite nmax_nan. rewrite nmul_finite_nan; [done|done|by vm_compute].
Qed.

Lemma usable_of_spec c r : finite_positive c = true → isNaN r = false →
  usable_of c r =
  nfloor (nsub c (let mx := nmax (nofZ 0) (nsub c (nmax MIN_PLAUSIBLE_CONTEXT_LIMIT (nmul c (nlit 1 2)))) in
                  if nltb mx r then mx else r)).
Proof. intros Hc Hr. unfold usable_of, floored_reserve. rewrite nsub_nmin; [done|done|done|by apply max_reserve_nan]. Qed.

Lemma usable_reserve_spec o r : usable_reserve o = Some r → isFinite r && nleb (nofZ 0) r = true ∧ isNaN r = false.
Proof.
  destruct o as [x|]; [|done]. cbn [usable_reserve]. destruct (isFinite x && nleb (nofZ 0) x) eqn:E; [|done].
  intros [= <-]. split; [done|]. apply andb_true_iff in E as [E _]. by destruct x.
Qed.

Lemma first_reserve_spec keys l r : first_reserve keys l = Some r → ∃ o, usable_reserve o = Some r.
Proof.
  induction l as [|c l IH]; [done|]. cbn. destruct (usable_reserve (JsMap.get keys c)) eqn:E; [|done].
  intros [= <-]. by eexists.
Qed.

Lemma resolveOutputReserve_spec p m config r : resolveOutputReserve p m config = Some r →
  isFinite r && nleb (nofZ 0) r = true ∧ isNaN r = false.
Proof.
  intros H. assert (∃ o, usable_reserve o = Some r) as [o Ho]; [|by eapply usable_reserve_spec].
  destruct config as [[n|keys]|]; [by exists (Some n)| |done]. unfold resolveOutputReserve in H.
  destruct (first_reserve keys (reserveKeyOrder p m)) eqn:E; [|by eexists].
  cbn in H. injection H as ->. by eapply first_reserve_spec.
Qed.

Lemma separate_providers p :
  (match default shared_upfront (JsMap.get PROVIDER_GEOMETRY p) with separate => true | _ => false end) =
  bool_decide (p ∈ SEPARATE_OUTPUT_QUOTA_PROVIDERS).
Proof.
  destruct (decide (p = "anthropic")%string) as [->|H1]; [by vm_compute|].
  destruct (decide (p = "xai")%string) as [->|H2]; [by vm_compute|].
  destruct (decide (p = "google")%string) as [->|H3]; [by vm_compute|].
  destruct (decide (p = "google-antigravity")%string) as [->|H4]; [by vm_compute|].
  rewrite bool_decide_eq_false_2 by (unfold SEPARATE_OUTPUT_QUOTA_PROVIDERS; set_solver).
  unfold PROVIDER_GEOMETRY. cbn [JsMap.get fst snd]. by repeat case_decide.
Qed.

(** The options [getSdkWindowGeometry] passes when there is neither an overlay nor a
    detected limit. *)
Definition plain_options (override : option num) (harness : option harness_kind) : DeriveWindowGeometryOptions :=
  {| dw_overlay := None; dw_providerLimit := None; dw_outputReserveOverride := override;
     dw_harness := harness; dw_contextCap := None |}.

Definition pre_carved (limit : ModelLimit) : bool :=
  match isFinitePositive (ml_input limit), isFinitePositive (ml_context limit) with
  | Some i, Some c => nltb i c
  | Some _, None => true
  | None, _ => false
  end.

Lemma plain_merge p limit override harness :
  merge_limits p (Some limit) (plain_options override harness) =
  {| mg_soft := isFinitePositive (ml_context limit); mg_hard := isFinitePositive (ml_context limit);
     mg_input := isFinitePositive (ml_input limit); mg_output := isFinitePositive (ml_output limit);
     mg_geometry := default shared_upfront (JsMap.get PROVIDER_GEOMETRY p); mg_geometryOverride := false |}.
Proof. done. Qed.

(** The reserve both routines settle on. *)
Lemma catalog_reserve_plain p limit override harness c :
  (catalog_reserve (merge_limits p (Some limit) (plain_options override harness)) (plain_options override harness) c).1 =
  if bool_decide (p ∈ SEPARATE_OUTPUT_QUOTA_PROVIDERS) then nofZ 0
  else nmin (default (nofZ 0) (isFinitePositive (ml_output limit))) (nmul c OUTPUT_RESERVE_CAP_RATIO).
Proof.
  rewrite plain_merge. unfold catalog_reserve. cbn [mg_geometry mg_output mg_geometryOverride dw_overlay plain_options].
  rewrite separate_providers.
  destruct (bool_decide _); cbn [andb orb fst]; [done|]. by rewrite orb_true_r.
Qed.

Lemma catalog_reserve_nan p limit c : finite_positive c = true →
  isNaN (if bool_decide (p ∈ SEPARATE_OUTPUT_QUOTA_PROVIDERS) then nofZ 0
         else nmin (default (nofZ 0) (isFinitePositive (ml_output limit))) (nmul c OUTPUT_RESERVE_CAP_RATIO)) = false.
Proof.
  intros Hc. destruct (bool_decide _); [done|]. rewrite nmin_nan. unfold finite_positive in Hc.
  apply andb_true_iff in Hc as [Hc _]. rewrite nmul_finite_nan by (done || by vm_compute). rewrite orb_false_r.
  destruct (isFinitePositive (ml_output limit)) as [o|] eqn:Eo; [|done].
  apply isFinitePositive_spec, finite_positive_form in Eo as (? & ? & ->). done.
Qed.

(** Both routines on a window that is carved here. *)
Lemma carve_agrees limit p m config harness c :
  isFinitePositive (ml_context limit) = Some c → pre_carved limit = false →
  resolveLimit (Some limit) p m config =
  wr_usableSoft <$> deriveWindowGeometry p (Some limit) (plain_options (resolveOutputReserve p m config) harness).
Proof.
  intros Ec Hp. pose proof (isFinitePositive_spec _ _ Ec) as Hc.
  pose (reserve := match resolveOutputReserve p m config with
    | Some r => r
    | None => if bool_decide (p ∈ SEPARATE_OUTPUT_QUOTA_PROVIDERS) then nofZ 0
              else nmin (default (nofZ 0) (isFinitePositive (ml_output limit))) (nmul c OUTPUT_RESERVE_CAP_RATIO)
    end).
  assert (isNaN reserve = false) as Hn.
  { unfold reserve. destruct (resolveOutputReserve p m config) as [r|] eqn:Er; [|by apply catalog_reserve_nan].
    by apply resolveOutputReserve_spec in Er as [_ ?]. }
  assert (isFinitePositive (Some c) = Some c) as Ec' by (cbn; by rewrite Hc).
  transitivity (Some (usable_of c reserve)).
  - rewrite usable_of_spec by done. unfold resolveLimit. cbn [mbind option_bind]. rewrite Ec. unfold pre_carved in Hp. rewrite Ec in Hp.
    fold reserve. destruct (isFinitePositive (ml_input limit)) as [i|]; [by rewrite Hp|done].
  - unfold deriveWindowGeometry. cbn [dw_providerLimit plain_options].
    pose proof (catalog_reserve_plain p limit (resolveOutputReserve p m config) harness c) as Hcat.
    set (o := plain_options _ _) in *. set (g := merge_limits _ _ _) in *.
    assert (mg_soft g = Some c ∧ mg_hard g = Some c ∧ preCarvedInput g = None) as (Es & Eh & Ei).
    { unfold g, o. rewrite plain_merge. cbn [mg_soft mg_hard]. split_and!; [done|done|].
      unfold preCarvedInput. cbn [mg_soft mg_input]. rewrite !isFinitePositive_idem, Ec.
      unfold pre_carved in Hp. rewrite Ec in Hp. destruct (isFinitePositive (ml_input limit)); [by rewrite Hp|done]. }
    assert (∃ source, derive_soft g o = Some (c, usable_of c reserve, source)) as [source Ed].
    { unfold derive_soft. rewrite Ei, Es. cbn [or_else]. rewrite Ec'. unfold output_override, o.
      cbn [dw_outputReserveOverride plain_options]. fold o. unfold reserve.
      destruct (resolveOutputReserve p m config) as [r|] eqn:Er.
      - apply resolveOutputReserve_spec in Er as [-> _]. by eexists.
      - destruct (catalog_reserve g o c) as [r source]. cbn [fst] in Hcat. subst r. by eexists. }
    rewrite Ed, Es, Eh, Ec'. cbn [or_else mbind option_bind]. rewrite Ec'. by destruct (isFinitePositive (mg_input g)).
Qed.

Lemma legacy_limit_spec limit p m config harness :
  resolveOutputReserve p m config = None ∨ pre_carved limit = false →
  resolveLimit (Some limit) p m config =
  wr_usableSoft <$> deriveWindowGeometry p (Some limit) (plain_options (resolveOutputReserve p m config) harness).
Proof.
  intros Hcond. destruct (pre_carved limit) eqn:Hp.
  - destruct Hcond as [Hr|]; [|done]. rewrite Hr. unfold pre_carved in Hp.
    destruct (isFinitePositive (ml_input limit)) as [i|] eqn:Ei; [|done].
    assert (isFinitePositive (Some i) = Some i) as Ei' by (rewrite <- Ei; apply isFinitePositive_idem).
    unfold resolveLimit, deriveWindowGeometry. rewrite plain_merge. cbn [mbind option_bind dw_providerLimit plain_options].
    unfold derive_soft, output_override, preCarvedInput. cbn [mg_soft mg_hard mg_input dw_outputReserveOverride plain_options].
    rewrite !isFinitePositive_idem, Ei. destruct (isFinitePositive (ml_context limit)) as [c|] eqn:Ec.
    + rewrite Hp. cbn [or_else default mbind option_bind]. by rewrite <- Ec, isFinitePositive_idem, Ec.
    + cbn [or_else default mbind option_bind]. by rewrite Ei'.
  - destruct (isFinitePositive (ml_context limit)) as [c|] eqn:Ec; [by eapply carve_agrees|].
    unfold pre_carved in Hp. rewrite Ec in Hp. destruct (isFinitePositive (ml_input limit)) as [i|] eqn:Ei; [done|].
    unfold resolveLimit, deriveWindowGeometry. rewrite plain_merge. cbn [mbind option_bind dw_providerLimit plain_options mg_soft mg_input].
    by rewrite !isFinitePositive_idem, Ei, Ec.
Qed.

(** ** Lemmas: persistence *)

(** An entry as the refresh stores it. *)
Definition entry_ok (m : CachedModelMetadata) : Prop :=
  (∃ limit, cm_limit m = Some limit ∧ isSaneLimit (Some limit) = Some limit) ∧
  isSaneLimit (cm_contextLimit m) = cm_contextLimit m ∧ isSaneLimit (cm_inputLimit m) = cm_inputLimit m ∧
  isFinitePositive (cm_outputLimit m) = cm_outputLimit m ∧ is_Some (cm_vision m).

Definition cache_ok (c : api_cache) : Prop := JsMap.wf c ∧ Forall (fun e => entry_ok e.2) c.

Lemma load_persisted m limit : entry_ok m → isSaneLimit (cm_limit m) = Some limit →
  load_entry (persisted_entry m limit) = Some (Some m).
Proof.
  intros ((l & El & Hl) & Hc & Hi & Ho & [b Hb]) Hlim.
  assert (l = limit) as -> by (rewrite El, Hl in Hlim; by injection Hlim).
  unfold persisted_entry. rewrite Hc, Hi, Ho, Hb. destruct m as [ml mc mi mo mv].
  cbn [cm_limit cm_contextLimit cm_inputLimit cm_outputLimit cm_vision] in *. subst ml mv.
  unfold load_entry.
  assert (∀ fields, field (("limit"%string, VNum limit) :: fields) "limit" = VNum limit) as Hf by done.
  destruct mc as [c|], mi as [i|], mo as [o|]; unfold opt_num; cbn [app default];
    repeat match goal with |- context [num_field ?r ?k] =>
      let v := eval vm_compute in (num_field r k) in change (num_field r k) with v end;
    repeat match goal with |- context [field ?r ?k] =>
      let v := eval vm_compute in (field r k) in change (field r k) with v end;
    rewrite ?Hc, ?Hi, ?Ho, ?Hl; done.
Qed.

Lemma load_persisted_entries c : ∀ map,
  Forall (fun e => entry_ok e.2) c → NoDup (JsMap.keys map ++ JsMap.keys c) →
  load_entries map (omap (fun e => limit ← isSaneLimit (cm_limit e.2); Some (e.1, persisted_entry e.2 limit)) c)
    = Some (map ++ c).
Proof.
  induction c as [|[k m] c IH]; intros map Hok Hnd; cbn [omap list_omap]; [by rewrite app_nil_r|].
  apply Forall_cons in Hok as [Hm Hok]. cbn [fst snd] in *. pose proof Hm as ((l & El & Hl) & _).
  rewrite El, Hl. cbn [mbind option_bind load_entries].
  rewrite load_persisted by (done || by rewrite El). cbn [mbind option_bind].
  cbn [JsMap.keys fmap list_fmap fst] in Hnd.
  rewrite JsMap.set_absent.
  - rewrite IH; [by rewrite <- app_assoc|done|]. unfold JsMap.keys in *. rewrite fmap_app, <- app_assoc. done.
  - apply NoDup_app in Hnd as (_ & Hd & _). intros Hk. by apply (Hd k Hk); left.
Qed.

Section refreshed.
Context `{Engine}.

Lemma cache_ok_set c k m : cache_ok c → entry_ok m → cache_ok (JsMap.set c k m).
Proof.
  intros [Hw Hf] Hm. split; [by apply JsMap.wf_set|]. clear Hw.
  induction Hf as [|[k' m'] c Hm' Hf IH]; cbn [JsMap.set]; [by apply Forall_singleton|].
  cbn [fst snd]. case_decide; constructor; auto.
Qed.

Lemma isSaneLimit_idem o : isSaneLimit (isSaneLimit o) = isSaneLimit o.
Proof.
  destruct o as [x|]; [|done]. cbn [isSaneLimit]. destruct (sane x) eqn:E; [|done].
  cbn [isSaneLimit]. by rewrite E.
Qed.

Lemma set_metadata_ok c key model : cache_ok c → cache_ok (setCachedModelMetadata c key model).
Proof.
  intros Hc. unfold setCachedModelMetadata.
  set (cl := num_of (opt_field (opt_field model "limit") "context")).
  set (il := num_of (opt_field (opt_field model "limit") "input")).
  destruct (or_else (isSaneLimit cl) (isSaneLimit il)) as [raw|] eqn:E; [|done].
  set (m := {| cm_limit := Some raw |}).
  assert (entry_ok m) as Hm.
  { split; [|unfold m; cbn [cm_contextLimit cm_inputLimit cm_outputLimit cm_vision];
               rewrite !isSaneLimit_idem, isFinitePositive_idem; by eauto].
    exists raw. split; [done|]. rewrite <- E. unfold or_else.
    destruct (isSaneLimit cl) eqn:Ec; [by rewrite <- Ec, isSaneLimit_idem|]. by rewrite isSaneLimit_idem. }
  pose proof (cache_ok_set c key m Hc Hm) as Hc'.
  generalize dependent (JsMap.set c key m). induction (object_entries _) as [|mode l IH]; intros c' Hc'; [done|].
  cbn [foldl]. apply IH. by apply cache_ok_set.
Qed.

Lemma add_provider_ok c entry : cache_ok c → cache_ok (add_provider c entry).
Proof.
  intros Hc. unfold add_provider. destruct (opt_field entry "id") as [| | | |id| |]; try done.
  destruct (is_empty id); [done|].
  revert c Hc. induction (object_entries _) as [|e l IH]; intros c Hc; [done|]. cbn [foldl]. apply IH. by apply set_metadata_ok.
Qed.

Lemma providers_ok providers : ∀ c, cache_ok c → cache_ok (foldl add_provider c providers).
Proof. induction providers as [|p l IH]; intros c Hc; [done|]. cbn [foldl]. apply IH. by apply add_provider_ok. Qed.

Lemma refresh_spec answer now written st st' :
  refreshModelLimitsOnce answer now written st = (st', true) →
  ∃ map, cache_ok map ∧ ls_apiCache st' = Some map ∧ (written = true → ls_file st' = Some (persisted_cache map)).
Proof.
  unfold refreshModelLimitsOnce. destruct answer as [r|]; [|done]. cbn [mbind option_bind].
  destruct (opt_field (opt_field r "data") "providers") as [| | | | |[|p l]|]; try done. intros [= <-].
  exists (foldl add_provider [] (p :: l)). split; [apply providers_ok; split; [apply NoDup_nil_2|constructor]|].
  unfold persistApiCache. cbn [ls_apiCache]. by destruct written.
Qed.

Lemma load_written file map : cache_ok map → ls_file file = Some (persisted_cache map) →
  ls_persistSeedLoaded file = false → ls_apiCache file = None →
  ls_apiCache (loadPersistedApiCacheOnce file) = match map with [] => None | _ => Some map end.
Proof.
  intros [Hw Hok] Hf Hs Hc. unfold loadPersistedApiCacheOnce. rewrite Hs, Hc, Hf. cbn [mbind option_bind].
  unfold persisted_cache. cbn [file_entries mbind option_bind].
  rewrite load_persisted_entries by done. by destruct map.
Qed.

End refreshed.

(** *** The latch of the refresh after authentication *)

(** The calls of [refreshModelLimitsAfterAuthOnce], which overlap: each starts, and
    those that go on finish with some answer; the startup refresh and cache resets
    happen in between. [inflight] calls have started and not finished, [refreshed]
    have succeeded. *)
Inductive auth_trace `{Engine} : nat → nat → limits_state → Prop :=
| auth_init file : auth_trace 0 0 (initial_limits file)
| auth_start inflight refreshed st st' went_on :
    auth_trace inflight refreshed st → auth_refresh_start st = (st', went_on) →
    auth_trace (if went_on then S inflight else inflight) refreshed st'
| auth_finish inflight refreshed st answer now written :
    auth_trace (S inflight) refreshed st →
    auth_trace inflight (if (refreshModelLimitsOnce answer now written st).2 then S refreshed else refreshed)
      (auth_refresh_finish answer now written st)
| auth_startup inflight refreshed st retries answers :
    auth_trace inflight refreshed st →
    auth_trace inflight refreshed (refreshModelLimitsFromApi retries answers st).1
| auth_load inflight refreshed st :
    auth_trace inflight refreshed st → auth_trace inflight refreshed (loadPersistedApiCacheOnce st)
| auth_clear inflight refreshed st :
    auth_trace inflight refreshed st → auth_trace inflight refreshed (clearModelsDevCache st).

Section latch.
Context `{Engine}.

Lemma persist_latch w st : ls_authRewarmDone (persistApiCache w st) = ls_authRewarmDone st.
Proof. unfold persistApiCache. by destruct (ls_apiCache st), w. Qed.

Lemma refresh_latch answer now w st :
  ls_authRewarmDone (refreshModelLimitsOnce answer now w st).1 = ls_authRewarmDone st.
Proof.
  unfold refreshModelLimitsOnce. destruct (r ← answer; _) as [[| | | | |[|p l]|]|]; try done.
  cbn [fst]. by rewrite persist_latch.
Qed.

Lemma attempts_latch answers : ∀ n st, ls_authRewarmDone (refresh_attempts n answers st).1 = ls_authRewarmDone st.
Proof.
  induction answers as [|[[answer now] w] answers IH]; intros [|n] st; try done. cbn [refresh_attempts].
  pose proof (refresh_latch answer now w st) as Hl. destruct (refreshModelLimitsOnce answer now w st) as [st' ok].
  destruct ok; [done|]. specialize (IH n st'). destruct (refresh_attempts n answers st') as [st'' calls].
  cbn [fst] in *. congruence.
Qed.

Lemma load_latch st : ls_authRewarmDone (loadPersistedApiCacheOnce st) = ls_authRewarmDone st.
Proof.
  unfold loadPersistedApiCacheOnce. destruct (ls_persistSeedLoaded st), (ls_apiCache st); try done.
  by destruct (_ ≫= _) as [[|]|].
Qed.

(** The latch is set exactly while a call is under way or after one succeeded. *)
Lemma auth_trace_inv inflight refreshed st : auth_trace inflight refreshed st →
  (inflight + refreshed)%nat = if ls_authRewarmDone st then 1%nat else 0%nat.
Proof.
  induction 1 as [file|i r st st' went Ht IH E|i r st answer now w Ht IH|i r st retries answers Ht IH|i r st Ht IH|i r st Ht IH].
  - done.
  - unfold auth_refresh_start in E. destruct (ls_authRewarmDone st) eqn:El; simplify_eq; [by rewrite El|]. cbn. lia.
  - unfold auth_refresh_finish. pose proof (refresh_latch answer now w st) as Hl.
    destruct (refreshModelLimitsOnce answer now w st) as [st' ok]. cbn [fst snd] in *.
    destruct ok; cbn [with_latch ls_authRewarmDone]; [rewrite Hl|]; destruct (ls_authRewarmDone st); lia.
  - unfold refreshModelLimitsFromApi. by rewrite attempts_latch.
  - by rewrite load_latch.
  - done.
Qed.

End latch.

(** ** Properties *)

(** The routine for unreserved limits and the derivation of geometries agree: without
    an overlay and a detected limit, and unless a configured reserve meets a catalog
    input cap, the limit the one resolves is the usable soft window of the other, on
    every number. *)
Theorem legacy_limit_agrees limit p m config harness :
  resolveOutputReserve p m config = None ∨ pre_carved limit = false →
  resolveLimit (Some limit) p m config =
  wr_usableSoft <$> deriveWindowGeometry p (Some limit) (plain_options (resolveOutputReserve p m config) harness).
Proof. apply legacy_limit_spec. Qed.

(** C31: Limits survive a restart: what a successful refresh stored, when the file was
    written, is what a new process reads back, for every model. *)
Theorem limits_survive_restart `{Engine} answer now st st' p m :
  refreshModelLimitsOnce answer now true st = (st', true) →
  lookupMetadataWithTagFallback (ls_apiCache (loadPersistedApiCacheOnce (initial_limits (ls_file st')))) p m =
  lookupMetadataWithTagFallback (ls_apiCache st') p m.
Proof.
  intros (map & Hok & Hc & Hf)%refresh_spec. rewrite (Hf eq_refl).
  rewrite (load_written (initial_limits (Some (persisted_cache map))) map) by done. rewrite Hc.
  destruct map; [|done]. unfold lookupMetadataWithTagFallback. cbn. by destruct (cut_colon m).
Qed.

(** However calls overlap with each other, the startup refresh and cache resets, at
    most one refresh after authentication is under way, none starts after one
    succeeded, and a failed one lets the next call try again. *)
Theorem auth_refresh_single `{Engine} inflight refreshed st :
  auth_trace inflight refreshed st →
  (inflight + refreshed ≤ 1)%nat ∧
  (auth_refresh_start st).2 = bool_decide (inflight + refreshed = 0)%nat.
Proof.
  intros Ht%auth_trace_inv. unfold auth_refresh_start. rewrite Ht.
  destruct (ls_authRewarmDone st); (split; [lia|done]).
Qed.

(** ** Witnesses *)

#[local] Instance plain_engine : Engine := {| numberToString _ := "0"%string |}.

Definition sample_catalog : value :=
  VObj [("data", VObj [("providers", VArr [VObj [("id", VStr "openai"); ("models", VObj
    [("gpt-5.4", VObj [("limit", VObj [("context", VNum (nofZ 272000)); ("output", VNum (nofZ 128000))]);
                       ("attachment", VArr [VStr "Image"]);
                       ("experimental", VObj [("modes", VObj [("fast", VNull)])])])])]])])]%string.

Lemma legacy_limit_agrees_witness :
  let limit := {| ml_context := Some (nofZ 272000); ml_input := None; ml_output := Some (nofZ 128000) |} in
  resolveLimit (Some limit) "openai" "gpt-5.4" None = Some (nofZ 204000) ∧
  resolveLimit (Some limit) "openai" "gpt-5.4" None =
    wr_usableSoft <$> deriveWindowGeometry "openai" (Some limit) (plain_options None None).
Proof.
  intros limit. split; [vm_compute; reflexivity|].
  apply (legacy_limit_agrees limit "openai" "gpt-5.4" None None). by left.
Defined.

Lemma limits_survive_restart_witness :
  let st' := (refreshModelLimitsOnce (Some sample_catalog) (nofZ 5) true (initial_limits None)).1 in
  cm_vision <$> lookupMetadataWithTagFallback (ls_apiCache st') "openai" "gpt-5.4-fast:beta" = Some (Some true) ∧
  lookupMetadataWithTagFallback (ls_apiCache (loadPersistedApiCacheOnce (initial_limits (ls_file st'))))
    "openai" "gpt-5.4-fast:beta" =
  lookupMetadataWithTagFallback (ls_apiCache st') "openai" "gpt-5.4-fast:beta".
Proof.
  intros st'. split; [vm_compute; reflexivity|].
  apply (limits_survive_restart (Some sample_catalog) (nofZ 5) (initial_limits None)). vm_compute. reflexivity.
Defined.

Lemma auth_refresh_single_witness :
  let st := (auth_refresh_start (initial_limits None)).1 in
  auth_trace 1 0 st ∧ (auth_refresh_start st).2 = bool_decide (1 + 0 = 0)%nat.
Proof.
  intros st. assert (auth_trace 1 0 st) as Ht by exact (auth_start 0 0 _ _ true (auth_init None) eq_refl).
  split; [exact Ht|]. apply (auth_refresh_single 1 0 st Ht).
Defined.
