(* ===== verification/Thresholds.v ===== *)
(** * Execute thresholds and the scheduler

    Models packages/plugin/src/hooks/magic-context/event-resolvers.ts: the context
    limit of a model, its cache TTL and the threshold at which queued operations
    execute; and packages/plugin/src/features/magic-context/scheduler.ts, which
    decides between executing and deferring.

    Warnings are not modelled. What the session's tables answer (or that reading them
    throws) is an argument. *)

From S2P Require Import Prelude JsNumber JsExact JsMap JsValue JsString Budgets ModelKeys WindowGeometry ModelLimits.
From Stdlib Require Import SpecFloat.

Definition DEFAULT_CONTEXT_LIMIT : num := nofZ 128000.

(** ** Context limits *)

(** What [getOverflowState] answers of a session. *)
Record overflow_answer := { oa_limit : num; oa_provenance : ContextLimitProvenance }.

(** The overflow state of a context's session by model key, when there are a database
    and a session; [None] is a throw. *)
Abbreviation overflow_reader := (option (option string → option overflow_answer)).

Definition readDetectedLimit (ctx : overflow_reader) (modelKey : option string)
    : option num * ContextLimitProvenance :=
  match (read ← ctx; read modelKey) with
  | Some overflow =>
      if nltb (nofZ 0) (oa_limit overflow) then (Some (oa_limit overflow), oa_provenance overflow)
      else (None, provenance_unknown)
  | None => (None, provenance_unknown)
  end.

(** Both ids, when neither is missing or empty. *)
Definition both_ids (providerID modelID : option string) : option (string * string) :=
  match providerID, modelID with
  | Some p, Some m => if is_empty p || is_empty m then None else Some (p, m)
  | _, _ => None
  end.

Definition resolveContextWindowGeometry (overlay : option WindowOverlay) (providerID modelID : option string)
    (ctx : overflow_reader) (st : limits_state) : limits_state * option WindowGeometryResult :=
  match both_ids providerID modelID with
  | None => (st, None)
  | Some (p, m) =>
      let '(detected, provenance) := readDetectedLimit ctx (resolveModelKey providerID modelID) in
      getSdkWindowGeometry overlay p m detected (Some provenance) (Some opencode) st
  end.

Definition sdk_limit (overlay : option WindowOverlay) (providerID modelID : option string)
    (detected : option num) (provenance : ContextLimitProvenance) (unreserved : bool) (st : limits_state)
    : limits_state * option num :=
  match both_ids providerID modelID with
  | None => (st, None)
  | Some (p, m) => getSdkContextLimit overlay p m detected unreserved (Some provenance) st
  end.

Definition resolveContextLimit (overlay : option WindowOverlay) (providerID modelID : option string)
    (ctx : overflow_reader) (unreserved : bool) (st : limits_state) : limits_state * num :=
  let '(detected, provenance) := readDetectedLimit ctx (resolveModelKey providerID modelID) in
  let '(st, fromModelsDev) := sdk_limit overlay providerID modelID detected provenance unreserved st in
  (st, default DEFAULT_CONTEXT_LIMIT (or_else fromModelsDev detected)).

(** What [loadPersistedUsage] answers: the model last observed and the limit it
    reported. *)
Record persisted_usage := { pu_lastObservedModelKey : option string; pu_lastUsageContextLimit : num }.

(** [persisted] is the answer, [None] when there is none, no session, or a throw. *)
Definition resolveTrustedContextLimit (overlay : option WindowOverlay) (providerID modelID : option string)
    (ctx : overflow_reader) (persisted : option persisted_usage) (st : limits_state)
    : limits_state * option num :=
  let modelKey := resolveModelKey providerID modelID in
  let '(detected, provenance) := readDetectedLimit ctx modelKey in
  let '(st, fromModelsDev) := sdk_limit overlay providerID modelID detected provenance false st in
  (st,
   match (l ← fromModelsDev; if nltb (nofZ 0) l then Some l else None) with
   | Some l => Some l
   | None =>
       match detected with
       | Some d => Some d
       | None =>
           k ← modelKey;
           p ← persisted;
           if String.eqb (piModelRefToCanonical (default EmptyString (pu_lastObservedModelKey p)))
                (piModelRefToCanonical k)
           then isSaneLimit (Some (pu_lastUsageContextLimit p)) else None
       end
   end).

(** ** Cache TTL *)

Inductive CacheTtlConfig := ttl_text (s : string) | ttl_keys (keys : jsmap string string).

Definition resolveCacheTtl (cacheTtl : CacheTtlConfig) (modelKey : option string) : string :=
  match cacheTtl with
  | ttl_text s => s
  | ttl_keys keys => resolveModelConfigOrDefault keys modelKey (default "5m"%string (JsMap.get keys "default"%string))
  end.

(** ** Thresholds *)

Inductive ExecuteThresholdConfig := threshold_number (n : num) | threshold_keys (keys : jsmap string num).

Record ExecuteThresholdOptions := {
  to_tokensConfig : option (jsmap string num);
  to_contextLimit : option num
}.

Inductive ExecuteThresholdMode := mode_percentage | mode_tokens.

Record ExecuteThresholdDetail := {
  td_percentage : num; td_mode : ExecuteThresholdMode; td_absoluteTokens : option num;
  td_matchedKey : option string; td_clamped : bool; td_configuredValue : option num
}.

(** The loop over the candidates: the first key with an entry. *)
Fixpoint first_key (keys : jsmap string num) (candidates : list string) : option (num * string) :=
  match candidates with
  | [] => None
  | c :: candidates =>
      match JsMap.get keys c with
      | Some v => Some (v, c)
      | None => first_key keys candidates
      end
  end.

(** A missing key and the empty one are alike. *)
Definition given_key (modelKey : option string) : option string :=
  k ← modelKey; if is_empty k then None else Some k.

Definition keyed_value (keys : jsmap string num) (modelKey : option string) : option (num * string) :=
  k ← given_key modelKey; first_key keys (thresholdKeyOrder k).

Definition default_value (keys : jsmap string num) : option (num * string) :=
  v ← JsMap.get keys "default"%string; Some (v, "default"%string).

Definition resolveTokensMatchWithKey (tokensConfig : option (jsmap string num)) (modelKey : option string)
    : option (num * string) :=
  keys ← tokensConfig;
  or_else (keyed_value keys modelKey) (default_value keys).

(** The threshold in tokens, when one applies. *)
Definition tokens_detail (modelKey : option string) (options : option ExecuteThresholdOptions)
    : option ExecuteThresholdDetail :=
  o ← options;
  contextLimit ← isFinitePositive (to_contextLimit o);
  '(configured, matchedKey) ← resolveTokensMatchWithKey (to_tokensConfig o) modelKey;
  value ← isFinitePositive (Some configured);
  let cap := nmul contextLimit (ndiv Budgets.MAX_EXECUTE_THRESHOLD (nofZ 100)) in
  let effectiveTokens := nmin value cap in
  let percentage := nmul (ndiv effectiveTokens contextLimit) (nofZ 100) in
  let clamped := nltb effectiveTokens value in
  Some {| td_percentage := nmin percentage Budgets.MAX_EXECUTE_THRESHOLD; td_mode := mode_tokens;
          td_absoluteTokens := Some (nfloor effectiveTokens); td_matchedKey := Some matchedKey;
          td_clamped := clamped; td_configuredValue := if clamped then Some value else None |}.

(** The configured percentage and its key. *)
Definition configured_percentage (config : ExecuteThresholdConfig) (modelKey : option string) (fallback : num)
    : num * option string :=
  match config with
  | threshold_number n => (n, None)
  | threshold_keys keys =>
      match or_else (keyed_value keys modelKey) (default_value keys) with
      | Some (v, key) => (v, Some key)
      | None => (fallback, None)
      end
  end.

Definition resolveExecuteThresholdDetail (config : ExecuteThresholdConfig) (modelKey : option string)
    (fallback : num) (options : option ExecuteThresholdOptions) : ExecuteThresholdDetail :=
  match tokens_detail modelKey options with
  | Some detail => detail
  | None =>
      let '(configured, matchedKey) := configured_percentage config modelKey fallback in
      let resolved := if negb (isFinite configured) || nltb configured (nofZ 0) then fallback else configured in
      let cappedPercentage := nmin resolved Budgets.MAX_EXECUTE_THRESHOLD in
      let clamped := nltb cappedPercentage resolved in
      {| td_percentage := cappedPercentage; td_mode := mode_percentage; td_absoluteTokens := None;
         td_matchedKey := matchedKey; td_clamped := clamped;
         td_configuredValue := if clamped then Some resolved else None |}
  end.

Definition resolveExecuteThreshold (config : ExecuteThresholdConfig) (modelKey : option string)
    (fallback : num) (options : option ExecuteThresholdOptions) : num :=
  td_percentage (resolveExecuteThresholdDetail config modelKey fallback options).

Definition resolveSessionId (properties : option value) : option string :=
  match properties with
  | Some p =>
      match opt_field p "sessionID" with
      | VStr s => Some s
      | _ =>
          match opt_field p "info" with
          | VObj record =>
              match field record "sessionID", field record "id" with
              | VStr s, _ => Some s
              | _, VStr s => Some s
              | _, _ => None
              end
          | _ => None
          end
      end
  | None => None
  end.

(** ** The scheduler *)

Definition UNIT_TO_MS (unit : Z) : option Z :=
  if unit =? 115 then Some 1000
  else if unit =? 109 then Some (60 * 1000)
  else if unit =? 104 then Some (60 * 60 * 1000) else None.

(** [None] is the throw. *)
Definition parseCacheTtl (ttl : string) : option num :=
  let normalizedTtl := trim ttl in
  if String.eqb (toLowerCase normalizedTtl) "never" then Some PosInf
  else
    let units := code_units normalizedTtl in
    match decimal units with
    | Some n => Some (nofZ n)
    | None =>
        unit ← last units;
        ms ← UNIT_TO_MS unit;
        n ← decimal (take (length units - 1) units);
        Some (nmul (nofZ n) (nofZ ms))
    end.

Inductive SchedulerDecision := execute | defer.

Record SchedulerConfig := {
  sch_percentage : ExecuteThresholdConfig;
  sch_tokens : option (jsmap string num)
}.

Record ContextUsage := { cu_percentage : num; cu_inputTokens : num }.

(** The context limit the caller gives, or the one the usage implies. *)
Definition effectiveContextLimit (usage : ContextUsage) (contextLimit : option num) : option num :=
  or_else contextLimit
    (if nltb (nofZ 0) (cu_percentage usage) && nltb (nofZ 0) (cu_inputTokens usage)
     then Some (ndiv (cu_inputTokens usage) (ndiv (cu_percentage usage) (nofZ 100))) else None).

Definition scheduler_threshold (config : SchedulerConfig) (usage : ContextUsage) (modelKey : option string)
    (contextLimit : option num) : num :=
  resolveExecuteThreshold (sch_percentage config) modelKey (nofZ 65)
    (Some {| to_tokensConfig := sch_tokens config; to_contextLimit := effectiveContextLimit usage contextLimit |}).

(** The TTL, or five minutes for one that does not parse. *)
Definition ttl_ms (cacheTtl : string) : num :=
  match parseCacheTtl cacheTtl with
  | Some ms => ms
  | None => default (nofZ 0) (parseCacheTtl "5m")
  end.

Definition shouldExecute (config : SchedulerConfig) (lastResponseTime : num) (cacheTtl : string)
    (usage : ContextUsage) (currentTime : num) (modelKey : option string) (contextLimit : option num)
    : SchedulerDecision :=
  if neqb (cu_percentage usage) (nofZ 0) && neqb lastResponseTime (nofZ 0) then defer
  else if nleb (scheduler_threshold config usage modelKey contextLimit) (cu_percentage usage) then execute
  else if nltb (ttl_ms cacheTtl) (nsub currentTime lastResponseTime) then execute
  else defer.

(** ** Lemmas: thresholds *)

Lemma signed_nle x : signed false x → nle (nofZ 0) x.
Proof. intros Hx. apply nleb_nle. destruct x as [s|s| |s m e]; cbn in Hx; try done; by subst s. Qed.

Lemma ndiv_signed x y : isFinite x = true → finite_positive y = true → signed false x → signed false (ndiv x y).
Proof.
  intros Hx (m & e & ->)%finite_positive_form Hs. destruct x as [s|s| |s m' e']; cbn in Hs; try done; subst s; [done|].
  cbn [ndiv SFdiv]. unfold SFdiv_core_binary.
  set (m'' := match _ with Z0 => _ | Zpos _ => _ | Zneg _ => _ end).
  assert (0 ≤ m'') as Hm. { unfold m''. destruct (_ - _); [lia|apply Z.shiftl_nonneg; lia|lia]. }
  pose proof (Z.div_pos m'' (Zpos m) Hm ltac:(lia)) as Hq.
  unfold Z.div in Hq. destruct (Z.div_eucl m'' (Zpos m)) as [q r]. by apply round_aux_signed.
Qed.

Lemma nmul_hundred x : signed false x → signed false (nmul x (nofZ 100)).
Proof.
  intros Hx. destruct x as [s|s| |s m e]; cbn in Hx; try done; subst s; [done|done|].
  by apply (nmul_signed (S754_finite false m e) (nofZ 100)).
Qed.

Lemma nmin_positive x y : finite_positive x = true → signed false y →
  isFinite (nmin x y) = true ∧ signed false (nmin x y).
Proof.
  intros (m & e & ->)%finite_positive_form Hy. destruct y as [s|s| |s m' e']; cbn in Hy; try done; subst s; try done.
  unfold nmin. by destruct (nltb _ _).
Qed.

Lemma nmin_ninety x : nle (nofZ 0) x →
  nle (nofZ 0) (nmin x Budgets.MAX_EXECUTE_THRESHOLD) ∧
  nle (nmin x Budgets.MAX_EXECUTE_THRESHOLD) Budgets.MAX_EXECUTE_THRESHOLD.
Proof.
  intros Hx. split; [apply nmin_glb; [done|nle_const]|]. apply nmin_r; [apply Hx|done].
Qed.

Lemma nltb_nonneg x : isFinite x = true → nltb x (nofZ 0) = false → nle (nofZ 0) x.
Proof. intros Hx Hl. apply nltb_nle; [by destruct x|done|done]. Qed.

Lemma tokens_detail_bounds modelKey options d : tokens_detail modelKey options = Some d →
  nle (nofZ 0) (td_percentage d) ∧ nle (td_percentage d) Budgets.MAX_EXECUTE_THRESHOLD ∧ td_mode d = mode_tokens.
Proof.
  unfold tokens_detail. intros H.
  apply bind_Some in H as (o & _ & H). apply bind_Some in H as (c & Hc & H).
  apply bind_Some in H as ([configured k] & _ & H). apply bind_Some in H as (v & Hv & H). injection H as <-.
  cbn [td_percentage td_mode]. apply isFinitePositive_spec in Hc, Hv.
  assert (signed false (nmul c (ndiv Budgets.MAX_EXECUTE_THRESHOLD (nofZ 100)))) as Hcap.
  { apply nmul_signed; [unfold finite_positive in Hc; by apply andb_true_iff in Hc as [? _]|by vm_compute| |by vm_compute].
    by apply finite_positive_form in Hc as (? & ? & ->). }
  destruct (nmin_positive v _ Hv Hcap) as [Hf Hs].
  pose proof (nmul_hundred _ (ndiv_signed _ _ Hf Hc Hs)) as Hp. apply signed_nle in Hp.
  split_and!; [by apply nmin_ninety..|done].
Qed.

(** ** Lemmas: the TTL *)

Lemma decimal_digits l : l ≠ [] → Forall (fun u => is_digit u = true) l → decimal l = Some (digits_value l).
Proof.
  intros Hne Hd. assert (forallb is_digit l = true) as Hf.
  { apply forallb_forall. intros u Hu. rewrite Forall_forall in Hd. apply Hd. by apply list_elem_of_In. }
  destruct l as [|u l]; [done|]. unfold decimal. by rewrite Hf.
Qed.

Lemma digit_not_space u : is_digit u = true → is_space u = false.
Proof. unfold is_digit, is_space. cbn [existsb]. lia. Qed.

Lemma lower_digit u : is_digit u = true → lower_unit u = u.
Proof. unfold is_digit, lower_unit. intros H. destruct (_ || _) eqn:E; lia. Qed.

Lemma lower_bound u : 0 ≤ u < 256 → 0 ≤ lower_unit u < 256.
Proof. unfold lower_unit. intros H. destruct (_ || _) eqn:E; lia. Qed.

Lemma unit_spec unit ms : UNIT_TO_MS unit = Some ms →
  (unit = 115 ∨ unit = 109 ∨ unit = 104) ∧ 0 < ms < 4000000 ∧ is_digit unit = false ∧ is_space unit = false.
Proof.
  unfold UNIT_TO_MS. intros H.
  destruct (Z.eqb_spec unit 115) as [->|]; [injection H as <-; split_and!; try done; [by left|lia..]|].
  destruct (Z.eqb_spec unit 109) as [->|]; [injection H as <-; split_and!; try done; [by right; left|lia..]|].
  destruct (Z.eqb_spec unit 104) as [->|]; [injection H as <-; split_and!; try done; [by right; right|lia..]|done].
Qed.

Definition ttl_string (n unit : Z) : string := of_code_units (decimal_units n ++ [unit]).

Lemma ttl_units n unit ms : 0 ≤ n → UNIT_TO_MS unit = Some ms →
  code_units (ttl_string n unit) = decimal_units n ++ [unit].
Proof.
  intros Hn Hu. unfold ttl_string. apply code_units_of.
  destruct (decimal_units_spec n Hn) as (_ & Hd & _). apply unit_spec in Hu as (Hu & _).
  apply Forall_app. split; [|repeat constructor; lia]. eapply Forall_impl; [exact Hd|].
  unfold is_digit. intros u Hu'. lia.
Qed.

Lemma trim_string s : trim_units (code_units s) = code_units s → trim s = s.
Proof. intros E. unfold trim. by rewrite E, of_code_units_units. Qed.

Lemma ttl_parses n unit ms : 0 ≤ n → UNIT_TO_MS unit = Some ms → n * ms < 2 ^ 53 →
  parseCacheTtl (ttl_string n unit) = Some (nofZ (n * ms)).
Proof.
  intros Hn Hu Hb. pose proof (ttl_units n unit ms Hn Hu) as Ecu.
  destruct (decimal_units_spec n Hn) as (Hv & Hd & Hne). pose proof (unit_spec unit ms Hu) as (_ & Hms & Hdig & Hsp).
  destruct (decimal_units n) as [|d ds] eqn:Edu; [done|].
  assert (is_digit d = true) as Hd0 by (by apply Forall_cons in Hd as [? _]).
  assert (trim (ttl_string n unit) = ttl_string n unit) as Et.
  { apply trim_string. rewrite Ecu. apply trim_units_id.
    - intros u [= <-]. by apply digit_not_space.
    - intros u. rewrite last_snoc. by intros [= <-]. }
  unfold parseCacheTtl. rewrite Et, Ecu.
  assert (String.eqb (toLowerCase (ttl_string n unit)) "never" = false) as ->.
  { apply String.eqb_neq. intros E. apply (f_equal code_units) in E. unfold toLowerCase in E.
    rewrite Ecu in E. rewrite code_units_of in E.
    - vm_compute (code_units "never") in E. injection E as E _. rewrite lower_digit in E by done.
      unfold is_digit in Hd0. lia.
    - apply Forall_fmap. rewrite <- Ecu. eapply Forall_impl; [apply code_units_bound|].
      intros u Hu'. by apply lower_bound. }
  assert (decimal ((d :: ds) ++ [unit]) = None) as ->.
  { unfold decimal. cbn [app]. rewrite app_comm_cons, forallb_app. cbn [forallb]. by rewrite Hdig, andb_false_r. }
  rewrite last_snoc. cbn [mbind option_bind]. rewrite Hu. cbn [mbind option_bind].
  rewrite length_app, Nat.add_sub, take_app_length, decimal_digits, Hv by done. cbn [mbind option_bind].
  rewrite !nofZ_dyadic, mul_dyadic by nia. done.
Qed.

Lemma nsub_nofZ a b : 0 ≤ b ≤ a → a < 2 ^ 53 → nsub (nofZ a) (nofZ b) = nofZ (a - b).
Proof. intros. apply (sub_dyadic a b 0); lia. Qed.

(** ** Properties *)

(** Whatever the configuration holds, an execute threshold is a percentage between 0
    and 90, and what was reduced is reported: a clamped threshold keeps the
    configured value, which in percent was above 90. *)
Theorem execute_threshold_bounded config modelKey fallback options :
  nle (nofZ 0) fallback → nle fallback Budgets.MAX_EXECUTE_THRESHOLD →
  let d := resolveExecuteThresholdDetail config modelKey fallback options in
  nle (nofZ 0) (td_percentage d) ∧ nle (td_percentage d) Budgets.MAX_EXECUTE_THRESHOLD ∧
  (td_mode d = mode_percentage → td_clamped d = true →
     td_percentage d = Budgets.MAX_EXECUTE_THRESHOLD ∧
     ∃ v, td_configuredValue d = Some v ∧ nltb Budgets.MAX_EXECUTE_THRESHOLD v = true).
Proof.
  intros H0 H90 d. unfold d, resolveExecuteThresholdDetail.
  destruct (tokens_detail modelKey options) as [t|] eqn:Et.
  { apply tokens_detail_bounds in Et as (H1 & H2 & H3). split_and!; [done|done|]. by rewrite H3. }
  destruct (configured_percentage config modelKey fallback) as [c k]. cbn [td_percentage td_mode td_clamped td_configuredValue].
  set (resolved := if negb (isFinite c) || nltb c (nofZ 0) then fallback else c).
  assert (nle (nofZ 0) resolved) as Hr.
  { unfold resolved. destruct (negb (isFinite c) || nltb c (nofZ 0)) eqn:E; [done|]. bool_hyps.
    by apply nltb_nonneg. }
  destruct (nmin_ninety resolved Hr) as [Hm1 Hm2]. split_and!; [done|done|]. intros _ Hc. rewrite Hc.
  assert (nmin resolved Budgets.MAX_EXECUTE_THRESHOLD =
          if nltb Budgets.MAX_EXECUTE_THRESHOLD resolved then Budgets.MAX_EXECUTE_THRESHOLD else resolved) as E.
  { destruct Hr as (_ & Hn & _). by destruct resolved as [[]|[]| |[] m e]. }
  destruct (nltb Budgets.MAX_EXECUTE_THRESHOLD resolved) eqn:El; [split; [done|]; by exists resolved|].
  rewrite E in Hc. exfalso. destruct resolved as [[]|[]| |[] m e]; try done;
    unfold nltb, SFltb, SFcompare in Hc; rewrite Z.compare_refl, pos_compare_cont, Z.compare_refl in Hc; done.
Qed.

(** C32: The scheduler executes exactly when the usage has reached the threshold or more
    than the TTL has passed since the last response: for a TTL written as a number of
    seconds, minutes or hours, whole instants and a session that has responded. *)
Theorem scheduler_decides config usage modelKey contextLimit n unit ms lastResponse now :
  UNIT_TO_MS unit = Some ms → 0 ≤ n → n * ms < 2 ^ 53 → 0 < lastResponse ≤ now → now < 2 ^ 53 →
  shouldExecute config (nofZ lastResponse) (ttl_string n unit) usage (nofZ now) modelKey contextLimit = execute ↔
  nleb (scheduler_threshold config usage modelKey contextLimit) (cu_percentage usage) = true ∨
  n * ms < now - lastResponse.
Proof.
  intros Hu Hn Hb Hl Hnow. pose proof (unit_spec unit ms Hu) as (_ & Hms & _).
  unfold shouldExecute. change (nofZ 0) with (nofZ 0). rewrite (neqb_nofZ lastResponse 0) by lia.
  rewrite (proj2 (Z.eqb_neq _ _)), andb_false_r by lia.
  unfold ttl_ms. rewrite (ttl_parses n unit ms) by done. rewrite nsub_nofZ, nltb_nofZ by nia.
  destruct (nleb _ _); [split; [by left|done]|]. destruct (Z.ltb_spec (n * ms) (now - lastResponse)).
  - split; [by right|done].
  - split; [done|]. intros [?|?]; [done|lia].
Qed.

(** ** Witnesses *)

Lemma execute_threshold_bounded_witness :
  let d := resolveExecuteThresholdDetail (threshold_keys [("default", nofZ 65); ("gpt-5.4", nofZ 97)]%string)
             (Some "openai/gpt-5.4-fast"%string) (nofZ 65) None in
  td_matchedKey d = Some "gpt-5.4"%string ∧ td_clamped d = true ∧
  td_percentage d = Budgets.MAX_EXECUTE_THRESHOLD.
Proof.
  intros d. split_and!; [vm_compute; reflexivity|vm_compute; reflexivity|].
  apply (execute_threshold_bounded (threshold_keys [("default", nofZ 65); ("gpt-5.4", nofZ 97)]%string)
           (Some "openai/gpt-5.4-fast"%string) (nofZ 65) None);
    [nle_const|nle_const|vm_compute; reflexivity|vm_compute; reflexivity].
Defined.

Lemma scheduler_decides_witness :
  shouldExecute {| sch_percentage := threshold_number (nofZ 65); sch_tokens := None |} (nofZ 1000)
    (ttl_string 5 109) {| cu_percentage := nofZ 20; cu_inputTokens := nofZ 40000 |} (nofZ 301001) None None = execute.
Proof.
  apply (scheduler_decides {| sch_percentage := threshold_number (nofZ 65); sch_tokens := None |}
           {| cu_percentage := nofZ 20; cu_inputTokens := nofZ 40000 |} None None 5 109 60000 1000 301001);
    [reflexivity|lia|lia|lia|lia|right; lia].
Defined.

Example ttl_examples :
  ttl_string 5 109 = "5m"%string ∧ parseCacheTtl " Never " = Some PosInf ∧ parseCacheTtl "1500" = Some (nofZ 1500) ∧
  parseCacheTtl "5x" = None.
Proof. by vm_compute. Qed.
