(* ===== verification/Access.v ===== *)
(** * Calls on a shared database

    A call of a process as a sequence of accesses to a database that other processes
    write to: every statement or transaction is one access, and any access may fail.
    What happens before an access is read off a list of pauses, an argument of the
    model.  The memory of the process is state of its own, which a failed transaction
    does not roll back.  Calls that keep a relation between databases, whatever other
    processes that keep it do meanwhile, are the guarded ones. *)

From S2P Require Import Prelude.

Section access.
Context {E D R : Type}.

(** What happens around an access: what the other processes commit before it, and
    whether it fails: at once, or only when its statements have run. *)
Inductive fault := early (e : E) | late (e : E).
Record pause := { p_commits : list (D → D); p_fault : option fault }.
Definition no_pause : pause := {| p_commits := []; p_fault := None |}.

Record world := { w_db : D; w_reg : R; w_pauses : list pause }.

Definition M (A : Type) : Type := world → result E A * world.

#[export] Instance M_ret : MRet M := fun A a w => (Ok a, w).
#[export] Instance M_bind : MBind M :=
  fun A B k m w => match m w with (Ok a, w) => k a w | (Err e, w) => (Err e, w) end.

Definition throw {A} (e : E) : M A := fun w => (Err e, w).

(** [try { m } catch (e) { h(e) }]. *)
Definition catch_with {A} (m : M A) (h : E → M A) : M A :=
  fun w => match m w with (Ok a, w) => (Ok a, w) | (Err e, w) => h e w end.

(** [try { m } catch { h }]. *)
Definition catch {A} (m : M A) (h : M A) : M A := catch_with m (fun _ => h).

(** [try { m } finally { h }]: an error of [h] replaces the outcome. *)
Definition finally {A} (m : M A) (h : M unit) : M A :=
  fun w => let '(r, w) := m w in
           match h w with (Ok _, w) => (r, w) | (Err e, w) => (Err e, w) end.

Definition gets {A} (f : R → A) : M A := fun w => (Ok (f (w_reg w)), w).
Definition modify (f : R → R) : M unit :=
  fun w => (Ok (), {| w_db := w_db w; w_reg := f (w_reg w); w_pauses := w_pauses w |}).

(** A transaction whose body also changes the memory: the database changes only when it
    succeeds, the memory whenever its body ran. *)
Definition transaction {A} (f : D → R → result E (A * D) * R) : M A :=
  fun w =>
    let p := default no_pause (head (w_pauses w)) in
    let db := foldl (fun db commit => commit db) (w_db w) (p_commits p) in
    let after db reg := {| w_db := db; w_reg := reg; w_pauses := tail (w_pauses w) |} in
    match p_fault p with
    | Some (early e) => (Err e, after db (w_reg w))
    | Some (late e) => (Err e, after db (f db (w_reg w)).2)
    | None =>
        let '(r, reg) := f db (w_reg w) in
        match r with Ok (a, db') => (Ok a, after db' reg) | Err e => (Err e, after db reg) end
    end.

(** A statement or a transaction on the database alone. *)
Definition access {A} (f : D → result E (A * D)) : M A := transaction (fun db reg => (f db, reg)).

Definition query {A} (f : D → A) : M A := access (fun db => Ok (f db, db)).
Definition write (f : D → D) : M unit := access (fun db => Ok ((), f db)).

(** ** Lemmas: accesses *)

Lemma bind_run {A B} (m : M A) (k : A → M B) w :
  (m ≫= k) w = match m w with (Ok a, w') => k a w' | (Err e, w') => (Err e, w') end.
Proof. done. Qed.

Lemma ret_run {A} (a : A) (w : world) : (mret a : M A) w = (Ok a, w).
Proof. done. Qed.

(** The database the next access of a call finds. *)
Definition committed (w : world) : D :=
  foldl (fun db commit => commit db) (w_db w) (p_commits (default no_pause (head (w_pauses w)))).

Definition rest (w : world) (db : D) (reg : R) : world :=
  {| w_db := db; w_reg := reg; w_pauses := tail (w_pauses w) |}.

(** The three ways a transaction ends. *)
Lemma transaction_cases {A} (f : D → R → result E (A * D) * R) w :
  (∃ e, transaction f w = (Err e, rest w (committed w) (w_reg w))) ∨
  (∃ e, transaction f w = (Err e, rest w (committed w) (f (committed w) (w_reg w)).2)) ∨
  (∃ a db, (f (committed w) (w_reg w)).1 = Ok (a, db) ∧
     transaction f w = (Ok a, rest w db (f (committed w) (w_reg w)).2)).
Proof.
  unfold transaction, rest. fold (committed w). destruct (p_fault _) as [[e|e]|].
  - left. by eexists.
  - right. left. by eexists.
  - destruct (f (committed w) (w_reg w)) as [[[a db]|e] reg]; cbn [fst snd]; right; [right; by exists a, db|left; by eexists].
Qed.

Lemma access_cases {A} (f : D → result E (A * D)) w :
  (∃ e, access f w = (Err e, rest w (committed w) (w_reg w))) ∨
  (∃ a db, f (committed w) = Ok (a, db) ∧ access f w = (Ok a, rest w db (w_reg w))).
Proof.
  unfold access. destruct (transaction_cases (fun db reg => (f db, reg)) w) as [(e & ->)|[(e & ->)|(a & db & Ef & ->)]];
    cbn [fst snd] in *; [left; by eexists..|]. right. by exists a, db.
Qed.

(** The databases the accesses of a call may find, when it writes nothing itself. *)
Inductive meets : world → D → Prop :=
| meets_now w : meets w (committed w)
| meets_later w db : meets (rest w (committed w) (w_reg w)) db → meets w db.

Lemma query_cases {A} (f : D → A) w :
  (∃ e, query f w = (Err e, rest w (committed w) (w_reg w))) ∨
  query f w = (Ok (f (committed w)), rest w (committed w) (w_reg w)).
Proof.
  unfold query. destruct (access_cases (fun db => Ok (f db, db)) w) as [(e & ->)|(a & db & [= <- <-] & ->)];
    [left; by eexists|by right].
Qed.

(** ** Guarded calls *)

Section guarded.
Context (rel : relation D) `{!PreOrder rel}.

(** What the other processes commit around the accesses of a call keeps the relation. *)
Definition honest (w : world) : Prop :=
  Forall (fun p => Forall (fun commit : D → D => ∀ db, rel db (commit db)) (p_commits p)) (w_pauses w).

Lemma honest_committed w : honest w → rel (w_db w) (committed w).
Proof.
  unfold honest, committed. destruct (w_pauses w) as [|p ps]; cbn [head from_option id]; [done|].
  intros [Hp _]%Forall_cons. revert Hp. generalize (w_db w) as db. induction (p_commits p) as [|f fs IH]; intros db Hp;
    cbn [foldl]; [done|].
  apply Forall_cons in Hp as [Hf Hfs]. transitivity (f db); [apply Hf|by apply IH].
Qed.

Lemma honest_rest w db reg : honest w → honest (rest w db reg).
Proof. unfold honest, rest. cbn [w_pauses]. by destruct (w_pauses w) as [|p ps]; [|intros [_ Hps]%Forall_cons]. Qed.

(** A call that keeps the relation, whatever honest processes do meanwhile. *)
Definition guarded {A} (m : M A) : Prop := ∀ w, honest w → rel (w_db w) (w_db (m w).2) ∧ honest (m w).2.

Lemma guarded_ret {A} (a : A) : guarded (mret a).
Proof. by split. Qed.

Lemma guarded_throw {A} e : guarded (throw (A := A) e).
Proof. by split. Qed.

Lemma guarded_gets {A} (f : R → A) : guarded (gets f).
Proof. by split. Qed.

Lemma guarded_modify f : guarded (modify f).
Proof. by split. Qed.

Lemma guarded_bind {A B} (m : M A) (k : A → M B) : guarded m → (∀ a, guarded (k a)) → guarded (m ≫= k).
Proof.
  intros Hm Hk w Hw. unfold mbind, M_bind. destruct (Hm w Hw) as [Hg Hw']. destruct (m w) as [[a|e] w']; [|done].
  destruct (Hk a w' Hw') as [Hg' Hw'']. split; [by transitivity (w_db w')|done].
Qed.

Lemma guarded_catch_with {A} (m : M A) h : guarded m → (∀ e, guarded (h e)) → guarded (catch_with m h).
Proof.
  intros Hm Hh w Hw. unfold catch_with. destruct (Hm w Hw) as [Hg Hw']. destruct (m w) as [[a|e] w']; [done|].
  destruct (Hh e w' Hw') as [Hg' Hw'']. split; [by transitivity (w_db w')|done].
Qed.

Lemma guarded_catch {A} (m h : M A) : guarded m → guarded h → guarded (catch m h).
Proof. intros Hm Hh. by apply guarded_catch_with. Qed.

Lemma guarded_finally {A} (m : M A) h : guarded m → guarded h → guarded (finally m h).
Proof.
  intros Hm Hh w Hw. unfold finally. destruct (Hm w Hw) as [Hg Hw']. destruct (m w) as [r w'].
  destruct (Hh w' Hw') as [Hg' Hw'']. destruct (h w') as [[a|e] w'']; (split; [by transitivity (w_db w')|done]).
Qed.

(** An answer of a statement, and a database it keeps the relation to. *)
Definition keeps {A} (r : result E (A * D)) (db : D) : Prop :=
  match r with Ok (_, db') => rel db db' | Err _ => True end.

Lemma guarded_transaction {A} (f : D → R → result E (A * D) * R) :
  (∀ db reg, keeps (f db reg).1 db) → guarded (transaction f).
Proof.
  intros Hf w Hw. pose proof (honest_committed w Hw) as Hc.
  destruct (transaction_cases f w) as [(e & ->)|[(e & ->)|(a & db & Ef & ->)]]; cbn [snd rest w_db];
    (split; [|by apply honest_rest]); [done..|].
  specialize (Hf (committed w) (w_reg w)). rewrite Ef in Hf. by transitivity (committed w).
Qed.

Lemma guarded_access {A} (f : D → result E (A * D)) : (∀ db, keeps (f db) db) → guarded (access f).
Proof. intros Hf. apply guarded_transaction. intros db reg. apply Hf. Qed.

Lemma guarded_query {A} (f : D → A) : guarded (query f).
Proof. apply guarded_access. intros db. cbn [keeps]. reflexivity. Qed.

(** What follows a query knows that the answer is one. *)
Lemma guarded_query_bind {A B} (f : D → A) (k : A → M B) : (∀ db, guarded (k (f db))) → guarded (query f ≫= k).
Proof.
  intros Hk w Hw. unfold mbind, M_bind. pose proof (honest_committed w Hw) as Hc.
  destruct (query_cases f w) as [(e & ->)| ->]; [by split; [|apply honest_rest]|].
  destruct (Hk (committed w) (rest w (committed w) (w_reg w))) as [Hg Hw']; [by apply honest_rest|].
  split; [by transitivity (committed w)|done].
Qed.

Lemma guarded_write f : (∀ db, rel db (f db)) → guarded (write f).
Proof. intros Hf. apply guarded_access. intros db. apply Hf. Qed.

(** *** Statements of a transaction *)

Lemma keeps_from {A} (r : result E (A * D)) db db' : rel db db' → keeps r db' → keeps r db.
Proof. intros Hg. destruct r as [[a db'']|e]; [|done]. cbn [keeps]. intros Hk. by transitivity db'. Qed.

Lemma keeps_bind {A B} (r : result E (A * D)) (k : A * D → result E (B * D)) db :
  keeps r db → (∀ a db', keeps (k (a, db')) db') → keeps (r ≫= k) db.
Proof. intros Hr Hk. destruct r as [[a db']|e]; [|done]. apply (keeps_from (k (a, db')) db db'); [exact Hr|apply Hk]. Qed.

Definition keeps_db (r : result E D) (db : D) : Prop := match r with Ok db' => rel db db' | Err _ => True end.

Lemma keeps_bind_db {B} (r : result E D) (k : D → result E (B * D)) db :
  keeps_db r db → (∀ db', keeps (k db') db') → keeps (r ≫= k) db.
Proof. intros Hr Hk. destruct r as [db'|e]; [|done]. apply (keeps_from (k db') db db'); [exact Hr|apply Hk]. Qed.

Lemma keeps_db_bind {A} (r : result E (A * D)) db : keeps r db → keeps_db (r ≫= fun '(_, db') => Ok db') db.
Proof. by destruct r as [[a db']|e]. Qed.

End guarded.

(** ** Calls of a process alone

    No other process commits, but any access may fail: what a call does is a matter of
    the database it starts from. *)

Definition alone (w : world) : Prop := honest eq w.

(** Whatever fails, the call ends with an answer and a database that meet [Q]. *)
Definition wp {A} (m : M A) (db : D) (Q : result E A → D → Prop) : Prop :=
  ∀ w, alone w → w_db w = db → alone (m w).2 ∧ Q (m w).1 (w_db (m w).2).

Lemma alone_committed w : alone w → committed w = w_db w.
Proof. intros Hw. symmetry. by apply (honest_committed eq). Qed.

Lemma alone_rest w db reg : alone w → alone (rest w db reg).
Proof. apply honest_rest. Qed.

Lemma wp_ret {A} (a : A) db Q : Q (Ok a) db → wp (mret a) db Q.
Proof. intros HQ w Hw <-. by split. Qed.

Lemma wp_throw {A} e db (Q : result E A → D → Prop) : Q (Err e) db → wp (throw e) db Q.
Proof. intros HQ w Hw <-. by split. Qed.

Lemma wp_gets {A} (f : R → A) db Q : (∀ a, Q (Ok a) db) → wp (gets f) db Q.
Proof. intros HQ w Hw <-. split; [done|apply HQ]. Qed.

Lemma wp_modify f db Q : Q (Ok ()) db → wp (modify f) db Q.
Proof. intros HQ w Hw <-. by split. Qed.

Lemma wp_mono {A} (m : M A) db (P Q : result E A → D → Prop) : wp m db P → (∀ r db', P r db' → Q r db') → wp m db Q.
Proof. intros Hm HPQ w Hw Hdb. destruct (Hm w Hw Hdb) as [Hw' HP]. split; [done|by apply HPQ]. Qed.

Lemma wp_bind {A B} (m : M A) (k : A → M B) db Q :
  wp m db (fun r db' => match r with Ok a => wp (k a) db' Q | Err e => Q (Err e) db' end) → wp (m ≫= k) db Q.
Proof.
  intros Hm w Hw Hdb. destruct (Hm w Hw Hdb) as [Hw' HQ]. unfold mbind, M_bind.
  destruct (m w) as [[a|e] w']; [by apply HQ|done].
Qed.

Lemma wp_catch {A} (m h : M A) db Q :
  wp m db (fun r db' => match r with Ok a => Q (Ok a) db' | Err e => wp h db' Q end) → wp (catch m h) db Q.
Proof.
  intros Hm w Hw Hdb. destruct (Hm w Hw Hdb) as [Hw' HQ]. unfold catch, catch_with.
  destruct (m w) as [[a|e] w']; [done|by apply HQ].
Qed.

Lemma wp_access {A} (f : D → result E (A * D)) db Q : (∀ e, Q (Err e) db) →
  (∀ a db', f db = Ok (a, db') → Q (Ok a) db') → wp (access f) db Q.
Proof.
  intros He Hf w Hw <-. pose proof (alone_committed w Hw) as Hc.
  destruct (access_cases f w) as [(e & ->)|(a & db & Ef & ->)]; (split; [by apply alone_rest|]); cbn [fst snd rest w_db].
  - rewrite Hc. apply He.
  - rewrite Hc in Ef. by apply Hf.
Qed.

Lemma wp_query {A} (f : D → A) db Q : (∀ e, Q (Err e) db) → Q (Ok (f db)) db → wp (query f) db Q.
Proof. intros He Hf. apply wp_access; [done|]. intros a db' Eq. injection Eq as <- <-. exact Hf. Qed.

Lemma wp_write f db Q : (∀ e, Q (Err e) db) → Q (Ok ()) (f db) → wp (write f) db Q.
Proof. intros He Hf. apply wp_access; [done|]. intros a db' Eq. injection Eq as <- <-. exact Hf. Qed.

(** Without faults a statement answers. *)
Lemma quiet_query {A} (f : D → A) (w : world) : w_pauses w = [] → query f w = (Ok (f (w_db w)), w).
Proof. destruct w as [db reg p]. cbn [w_pauses]. by intros ->. Qed.

Lemma quiet_access {A} (f : D → result E (A * D)) (w : world) a db' : w_pauses w = [] → f (w_db w) = Ok (a, db') →
  access f w = (Ok a, {| w_db := db'; w_reg := w_reg w; w_pauses := [] |}).
Proof. intros Hw Hf. unfold access, transaction. rewrite Hw. cbn. rewrite Hf. done. Qed.

Lemma quiet_write (f : D → D) (w : world) : w_pauses w = [] →
  write f w = (Ok (), {| w_db := f (w_db w); w_reg := w_reg w; w_pauses := [] |}).
Proof. intros Hw. by apply quiet_access. Qed.

(** *** Calls that end *)

(** The call answers, and leaves a world without faults that meets [Q]. *)
Definition ends {A} (m : M A) (w : world) (Q : A → world → Prop) : Prop :=
  ∃ a w', m w = (Ok a, w') ∧ w_pauses w' = [] ∧ Q a w'.

Lemma ends_ret {A} (a : A) w Q : w_pauses w = [] → Q a w → ends (mret a) w Q.
Proof. intros Hw HQ. by exists a, w. Qed.

Lemma ends_bind {A B} (m : M A) (k : A → M B) w Q :
  ends m w (fun a w' => w_pauses w' = [] → ends (k a) w' Q) → ends (m ≫= k) w Q.
Proof.
  intros (a & w1 & E1 & Hw1 & Hk). destruct (Hk Hw1) as (b & w2 & E2 & Hw2 & HQ). exists b, w2.
  by rewrite bind_run, E1.
Qed.

Lemma ends_mono {A} (m : M A) w (P Q : A → world → Prop) :
  ends m w P → (∀ a w', w_pauses w' = [] → P a w' → Q a w') → ends m w Q.
Proof. intros (a & w' & E1 & Hw' & HP) HPQ. exists a, w'. split; [done|]. split; [done|]. by apply HPQ. Qed.

Lemma ends_catch {A} (m h : M A) w Q : ends m w Q → ends (catch m h) w Q.
Proof. intros (a & w' & E1 & Hw' & HQ). exists a, w'. unfold catch, catch_with. by rewrite E1. Qed.

Lemma ends_gets {A} (f : R → A) w Q : w_pauses w = [] → Q (f (w_reg w)) w → ends (gets f) w Q.
Proof. intros Hw HQ. by exists (f (w_reg w)), w. Qed.

Lemma ends_modify f w Q : w_pauses w = [] →
  Q () {| w_db := w_db w; w_reg := f (w_reg w); w_pauses := w_pauses w |} → ends (modify f) w Q.
Proof. intros Hw HQ. by eexists _, _. Qed.

Lemma ends_query {A} (f : D → A) w Q : w_pauses w = [] → Q (f (w_db w)) w → ends (query f) w Q.
Proof. intros Hw HQ. exists (f (w_db w)), w. by rewrite quiet_query. Qed.

Lemma ends_access {A} (f : D → result E (A * D)) w a db' Q : w_pauses w = [] → f (w_db w) = Ok (a, db') →
  Q a {| w_db := db'; w_reg := w_reg w; w_pauses := [] |} → ends (access f) w Q.
Proof. intros Hw Hf HQ. eexists a, _. by rewrite (quiet_access f w a db'). Qed.

Lemma ends_write f w Q : w_pauses w = [] → Q () {| w_db := f (w_db w); w_reg := w_reg w; w_pauses := [] |} →
  ends (write f) w Q.
Proof. intros Hw HQ. by eapply ends_access. Qed.

(** ** What a call can answer

    Whatever the world, an answer meets [P]. *)
Definition yields {A} (m : M A) (P : A → Prop) : Prop := ∀ w a, (m w).1 = Ok a → P a.

Lemma yields_any {A} (m : M A) : yields m (fun _ => True).
Proof. done. Qed.

Lemma yields_mono {A} (m : M A) (P Q : A → Prop) : yields m P → (∀ a, P a → Q a) → yields m Q.
Proof. intros Hm HPQ w a Ha. by eapply HPQ, Hm. Qed.

Lemma yields_ret {A} (a : A) (P : A → Prop) : P a → yields (mret a) P.
Proof. by intros HP w a' [= <-]. Qed.

Lemma yields_bind {A B} (m : M A) (k : A → M B) (P : A → Prop) Q :
  yields m P → (∀ a, P a → yields (k a) Q) → yields (m ≫= k) Q.
Proof.
  intros Hm Hk w b. unfold mbind, M_bind. specialize (Hm w). destruct (m w) as [[a|e] w']; [|done].
  apply Hk. by apply Hm.
Qed.

(** The answer of the first call does not matter. *)
Lemma yields_then {A B} (m : M A) (k : A → M B) Q : (∀ a, yields (k a) Q) → yields (m ≫= k) Q.
Proof. intros Hk. eapply yields_bind; [apply yields_any|]. intros a _. apply Hk. Qed.

Lemma yields_catch {A} (m h : M A) P : yields m P → yields h P → yields (catch m h) P.
Proof.
  intros Hm Hh w a. unfold catch, catch_with. specialize (Hm w). destruct (m w) as [[a'|e] w']; [apply Hm|apply Hh].
Qed.

Lemma yields_finally {A} (m : M A) h P : yields m P → yields (finally m h) P.
Proof.
  intros Hm w a. unfold finally. specialize (Hm w). destruct (m w) as [r w']. destruct (h w') as [[u|e] w'']; [apply Hm|done].
Qed.

End access.

Arguments fault : clear implicits.
Arguments pause : clear implicits.
Arguments world : clear implicits.
Arguments M : clear implicits.
