(* ===== verification/SessionRow.v ===== *)
(** * Rows of session_meta

    The table packages/plugin/src/features/magic-context/storage-session-runtime-schema.ts
    creates, one row of dynamically typed cells per session, the insertion of a
    session's row by storage-meta-shared.ts, and the calls that run against it:
    every statement or transaction is one access to a database other processes
    write to, and any access may fail.  What happens before an access is read off a
    list of pauses, an argument of the model.

    A number is stored as it is; SQLite turns NaN into NULL.  Blob columns and the
    columns no modelled operation reads are left out. *)

From S2P Require Import Prelude JsNumber JsMap JsValue Access.

(** ** Cells and rows *)

Inductive cell := SqlNull | SqlNum (n : num) | SqlText (s : string).

Abbreviation row := (gmap string cell).
Abbreviation database := (gmap string row).

(** Binding a number to a statement. *)
Definition bind_num (n : num) : cell := if isNaN n then SqlNull else SqlNum n.

(** Binding a string or null. *)
Definition bind_text (s : option string) : cell := match s with Some s => SqlText s | None => SqlNull end.

Definition column (r : row) (c : string) : cell := default SqlNull (r !! c).

(** [typeof cell === "number"]. *)
Definition num_cell (c : cell) : option num := match c with SqlNum n => Some n | _ => None end.

(** [typeof cell === "string"]. *)
Definition text_cell (c : cell) : option string := match c with SqlText s => Some s | _ => None end.

(** [typeof cell === "string" || cell === null]: the string, if it is one. *)
Definition nullable_text (c : cell) : option (option string) :=
  match c with SqlText s => Some (Some s) | SqlNull => Some None | SqlNum _ => None end.

Definition nullable_num (c : cell) : option (option num) :=
  match c with SqlNum n => Some (Some n) | SqlNull => Some None | SqlText _ => None end.

#[export] Instance num_eq_dec : EqDecision num.
Proof. solve_decision. Defined.

#[export] Instance cell_eq_dec : EqDecision cell.
Proof. solve_decision. Defined.

(** [a = b] of SQL: not true when one is NULL; integers and reals compare as numbers. *)
Definition sql_eq (a b : cell) : bool :=
  match a, b with
  | SqlNum x, SqlNum y => neqb x y
  | SqlText x, SqlText y => String.eqb x y
  | _, _ => false
  end.

(** [a IS b]. *)
Definition sql_is (a b : cell) : bool :=
  match a, b with SqlNull, SqlNull => true | _, _ => sql_eq a b end.

(** [a < b] of SQL between numbers; a text is above every number. *)
Definition sql_lt (a b : cell) : bool :=
  match a, b with
  | SqlNum x, SqlNum y => nltb x y
  | SqlNum _, SqlText _ => true
  | SqlText x, SqlText y => str_cmp x y <? 0
  | _, _ => false
  end.

Definition sql_coalesce (a : cell) (b : num) : cell := match a with SqlNull => SqlNum b | _ => a end.

(** [MAX(a, b)]: NULL when one is. *)
Definition sql_max (a b : cell) : cell :=
  match a, b with
  | SqlNull, _ | _, SqlNull => SqlNull
  | SqlNum x, SqlNum y => SqlNum (nmax x y)
  | _, _ => if sql_lt a b then b else a
  end.

(** [a + b]; a text that is no number counts as zero. *)
Definition sql_num (a : cell) : option num :=
  match a with SqlNum n => Some n | SqlText _ => Some (nofZ 0) | SqlNull => None end.

Definition sql_add (a b : cell) : cell :=
  match sql_num a, sql_num b with Some x, Some y => bind_num (nadd x y) | _, _ => SqlNull end.

Definition sql_sub (a b : cell) : cell :=
  match sql_num a, sql_num b with Some x, Some y => bind_num (nsub x y) | _, _ => SqlNull end.

(** ** The table *)

(** Columns declared NOT NULL. *)
Definition NOT_NULL_COLUMNS : gset string := list_to_set
  ["harness"; "note_nudge_anchors"; "auto_search_hint_decisions"; "todo_permission_denied";
   "detected_context_limit_provenance"; "observed_safe_input_tokens"; "cache_alert_sent"; "new_work_tokens";
   "total_input_tokens"; "last_usage_context_limit"; "prior_boundary_ordinal"; "protected_tail_policy_version";
   "protected_tail_drain_window_started_at"; "protected_tail_drain_tokens"; "recovery_no_eligible_head_count";
   "force_emergency_bypass_window_start"; "force_emergency_bypass_used"; "emergency_drain_active";
   "historian_drain_failure_at"; "upgrade_reminder_count"]%string.

Definition zero : cell := SqlNum (nofZ 0).
Definition empty_text : cell := SqlText EmptyString.

(** The default of every column that has one; the others are NULL. *)
Definition column_defaults : row := list_to_map
  [("harness", SqlText "opencode"); ("counter", zero); ("last_nudge_tokens", zero); ("last_nudge_band", empty_text);
   ("last_nudge_undropped", zero); ("last_nudge_level", empty_text); ("channel2_nudge_state", empty_text);
   ("channel2_nudge_claimed_at", zero); ("channel2_nudge_claim_token", empty_text);
   ("last_emergency_input_sample", zero); ("last_transform_error", empty_text); ("nudge_anchor_message_id", empty_text);
   ("nudge_anchor_text", empty_text); ("sticky_turn_reminder_text", empty_text);
   ("sticky_turn_reminder_message_id", empty_text); ("note_nudge_trigger_pending", zero);
   ("note_nudge_trigger_message_id", empty_text); ("note_nudge_sticky_text", empty_text);
   ("note_nudge_sticky_message_id", empty_text); ("note_nudge_anchors", SqlText "[]");
   ("auto_search_hint_decisions", SqlText "[]"); ("last_todo_state", empty_text);
   ("todo_permission_denied", SqlNum (nofZ 2)); ("todo_synthetic_call_id", empty_text);
   ("todo_synthetic_anchor_message_id", empty_text); ("todo_synthetic_state_json", empty_text); ("is_subagent", zero);
   ("last_context_percentage", zero); ("last_input_tokens", zero);
   ("detected_context_limit_provenance", SqlText "unknown"); ("observed_safe_input_tokens", zero);
   ("cache_alert_sent", zero); ("times_execute_threshold_reached", zero); ("compartment_in_progress", zero);
   ("historian_failure_count", zero); ("system_prompt_hash", empty_text); ("memory_block_cache", empty_text);
   ("memory_block_count", zero); ("memory_block_ids", empty_text); ("memory_block_hashes", empty_text);
   ("new_work_tokens", zero); ("total_input_tokens", zero); ("last_usage_context_limit", zero);
   ("prior_boundary_ordinal", SqlNum (nofZ 1)); ("protected_tail_policy_version", zero);
   ("protected_tail_drain_window_started_at", zero); ("protected_tail_drain_tokens", zero);
   ("recovery_no_eligible_head_count", zero); ("force_emergency_bypass_window_start", zero);
   ("force_emergency_bypass_used", zero); ("emergency_drain_active", zero); ("historian_drain_failure_at", zero);
   ("note_last_read_at", zero); ("cleared_reasoning_through_tag", zero); ("tool_reclaim_watermark", zero);
   ("stripped_placeholder_ids", empty_text); ("stale_reduce_stripped_ids", empty_text);
   ("processed_image_stripped_ids", empty_text); ("merged_reasoning_stripped_ids", empty_text);
   ("trailing_blank_decisions", empty_text); ("system_prompt_tokens", zero); ("compaction_marker_state", empty_text);
   ("key_files", empty_text); ("conversation_tokens", zero); ("tool_call_tokens", zero);
   ("recomp_partial_range_start", zero); ("recomp_partial_range_end", zero); ("detected_context_limit", zero);
   ("needs_emergency_recovery", zero); ("emergency_recovery_origin", empty_text); ("upgrade_reminder_count", zero)]%string.

(** The values [ensureSessionMetaRow] inserts, those of [getDefaultSessionMeta]; [harness]
    is what [getHarness] answers. *)
Definition new_row (harness : string) : row :=
  list_to_map
    [("harness", SqlText harness); ("last_response_time", zero); ("cache_ttl", SqlText "5m"); ("counter", zero);
     ("last_nudge_tokens", zero); ("last_nudge_band", empty_text); ("last_transform_error", empty_text);
     ("is_subagent", zero); ("last_context_percentage", zero); ("last_input_tokens", zero);
     ("observed_safe_input_tokens", zero); ("cache_alert_sent", zero); ("times_execute_threshold_reached", zero);
     ("compartment_in_progress", zero); ("system_prompt_hash", empty_text); ("cleared_reasoning_through_tag", zero)]%string
  ∪ column_defaults.

Inductive sql_error := sqlite_error (code : string) | not_null_failed (column : string) | invalid_record.

(** INSERT OR IGNORE. *)
Definition ensure_row (harness sessionId : string) (db : database) : database :=
  match db !! sessionId with Some _ => db | None => <[sessionId := new_row harness]> db end.

Definition set_columns (sets : list (string * cell)) (r : row) : row :=
  foldl (fun r e => <[e.1 := e.2]> r) r sets.

(** The first NOT NULL column an assignment would set to NULL. *)
Fixpoint null_violation (sets : list (string * cell)) : option string :=
  match sets with
  | [] => None
  | (c, SqlNull) :: sets => if decide (c ∈ NOT_NULL_COLUMNS) then Some c else null_violation sets
  | _ :: sets => null_violation sets
  end.

(** UPDATE session_meta SET sets WHERE session_id = sessionId AND guard: whether the row
    changed.  The right-hand sides see the old row. *)
Definition update_row (sessionId : string) (guard : row → bool) (sets : row → list (string * cell)) (db : database)
    : result sql_error (bool * database) :=
  match db !! sessionId with
  | None => Ok (false, db)
  | Some r =>
      if guard r then
        match null_violation (sets r) with
        | Some c => Err (not_null_failed c)
        | None => Ok (true, <[sessionId := set_columns (sets r) r]> db)
        end
      else Ok (false, db)
  end.

Definition always (r : row) : bool := true.

(** ** Calls *)

(** The registries of a process: the sessions whose recovery it armed, when, and those
    whose overflow was reported again. *)
Record registries := {
  armedSessions : gset string;
  armedAt : gmap string num;
  reconfirmedSessions : gset string
}.

Definition no_registries : registries := {| armedSessions := ∅; armedAt := ∅; reconfirmedSessions := ∅ |}.

(** The calls of this process on the table (Access.v). *)
Abbreviation pause := (Access.pause sql_error database).
Abbreviation world := (Access.world sql_error database registries).
Abbreviation M := (Access.M sql_error database registries).

(** A transaction that ensures the row and updates it. *)
Definition ensured_update (harness sessionId : string) (guard : row → bool) (sets : row → list (string * cell))
    : M bool :=
  access (fun db => update_row sessionId guard sets (ensure_row harness sessionId db)).

(** ** Lemmas: rows *)

(** The value an assignment gives a column, if it sets it. *)
Fixpoint assigned (sets : list (string * cell)) (c : string) : option cell :=
  match sets with
  | [] => None
  | (k, v) :: sets => match assigned sets c with
                      | Some w => Some w
                      | None => if String.eqb k c then Some v else None
                      end
  end.

Lemma column_set sets c : ∀ r, column (set_columns sets r) c = default (column r c) (assigned sets c).
Proof.
  unfold set_columns. induction sets as [|[k v] sets IH]; intros r; [done|]. cbn [foldl assigned fst snd].
  rewrite IH. destruct (assigned sets c); [done|]. cbn [from_option id]. unfold column.
  destruct (String.eqb_spec k c) as [->|Hne]; cbn [from_option id].
  - by rewrite lookup_insert_eq.
  - by rewrite lookup_insert_ne.
Qed.

Lemma ensure_row_Some harness sessionId db : ∃ r, ensure_row harness sessionId db !! sessionId = Some r.
Proof.
  unfold ensure_row. destruct (db !! sessionId) as [r|] eqn:E; [by exists r|].
  exists (new_row harness). by rewrite lookup_insert_eq.
Qed.

Lemma ensure_row_present harness sessionId db r : db !! sessionId = Some r → ensure_row harness sessionId db = db.
Proof. unfold ensure_row. by intros ->. Qed.

Lemma ensure_row_other harness sessionId db s : s ≠ sessionId → ensure_row harness sessionId db !! s = db !! s.
Proof. intros Hne. unfold ensure_row. destruct (db !! sessionId); [done|]. by rewrite lookup_insert_ne. Qed.

Lemma ensure_row_idem harness sessionId db :
  ensure_row harness sessionId (ensure_row harness sessionId db) = ensure_row harness sessionId db.
Proof. destruct (ensure_row_Some harness sessionId db) as [r Hr]. by apply (ensure_row_present _ _ _ r). Qed.

(** What an update of an existing row does. *)
Lemma update_row_Some sessionId guard sets db r : db !! sessionId = Some r →
  update_row sessionId guard sets db =
    if guard r then
      match null_violation (sets r) with
      | Some c => Err (not_null_failed c)
      | None => Ok (true, <[sessionId := set_columns (sets r) r]> db)
      end
    else Ok (false, db).
Proof. unfold update_row. by intros ->. Qed.

(** An update that succeeds changes no other row, and its row only where its guard held. *)
Lemma update_row_Ok sessionId guard sets db b db' : update_row sessionId guard sets db = Ok (b, db') →
  (b = false ∧ db' = db) ∨
  (b = true ∧ ∃ r, db !! sessionId = Some r ∧ guard r = true ∧ db' = <[sessionId := set_columns (sets r) r]> db).
Proof.
  unfold update_row. destruct (db !! sessionId) as [r|]; [|intros [= <- <-]; by left].
  destruct (guard r) eqn:Eg; [|intros [= <- <-]; by left].
  destruct (null_violation (sets r)); [done|]. intros [= <- <-]. right. split; [done|]. by exists r.
Qed.
