(* ===== verification/SessionMeta.v ===== *)
(** * Session state

    Models packages/plugin/src/features/magic-context/storage-meta-persisted.ts but for
    the columns that hold lists merged by compare-and-swap (SessionBlobs.v): usage, the
    protected tail and its drain budget, the wrap-up lease, the compaction mode, the
    nudges, the historian's failures and overflow recovery.  [now] is what [Date.now]
    answers; [harness] is what [getHarness] answers.  Log lines are left out. *)

From S2P Require Import Prelude JsNumber JsExact JsMap JsValue JsString JsJson Budgets ModelKeys WindowGeometry ModelLimits Access SessionRow.

Section columns.
Context (harness : string).

Abbreviation update_always sid sets := (ensured_update harness sid always (fun _ => sets%string)).

(** ** Usage *)

Record PersistedUsageState := {
  us_percentage : num; us_inputTokens : num; us_updatedAt : num;
  us_lastObservedModelKey : option string; us_lastUsageContextLimit : num
}.

Record PersistedUsageRow := {
  ur_percentage : num; ur_inputTokens : num; ur_responseTime : num;
  ur_modelKey : option string; ur_contextLimit : option num
}.

Definition isPersistedUsageRow (r : row) : option PersistedUsageRow :=
  p ← num_cell (column r "last_context_percentage");
  i ← num_cell (column r "last_input_tokens");
  t ← num_cell (column r "last_response_time");
  k ← nullable_text (column r "last_observed_model_key");
  l ← nullable_num (column r "last_usage_context_limit");
  Some {| ur_percentage := p; ur_inputTokens := i; ur_responseTime := t; ur_modelKey := k; ur_contextLimit := l |}.

Definition usage_of (now : num) (db : database) (sessionId : string) : option PersistedUsageState :=
  u ← (db !! sessionId ≫= isPersistedUsageRow);
  if neqb (ur_percentage u) (nofZ 0) && neqb (ur_inputTokens u) (nofZ 0) then None
  else Some {| us_percentage := ur_percentage u; us_inputTokens := ur_inputTokens u;
               us_updatedAt := if neqb (ur_responseTime u) (nofZ 0) || isNaN (ur_responseTime u) then now
                               else ur_responseTime u;
               us_lastObservedModelKey := ur_modelKey u;
               us_lastUsageContextLimit := default (nofZ 0) (ur_contextLimit u) |}.

Definition loadPersistedUsage (sessionId : string) (now : num) : M (option PersistedUsageState) :=
  query (fun db => usage_of now db sessionId).

(** ** The protected tail *)

Record ProtectedTailMeta := {
  priorBoundaryOrdinal : num; protectedTailPolicyVersion : num; protectedTailDrainWindowStartedAt : num;
  protectedTailDrainTokens : num; recoveryNoEligibleHeadCount : num; forceEmergencyBypassWindowStart : num;
  forceEmergencyBypassUsed : num; emergencyDrainActive : num; historianDrainFailureAt : num
}.

(** [numberOr(value, fallback)]. *)
Definition numberOr (c : cell) (fallback : num) : num :=
  match c with SqlNum n => if isFinite n then n else fallback | _ => fallback end.

Definition DEFAULT_PROTECTED_TAIL_META : ProtectedTailMeta :=
  {| priorBoundaryOrdinal := nofZ 1; protectedTailPolicyVersion := nofZ 0;
     protectedTailDrainWindowStartedAt := nofZ 0; protectedTailDrainTokens := nofZ 0;
     recoveryNoEligibleHeadCount := nofZ 0; forceEmergencyBypassWindowStart := nofZ 0;
     forceEmergencyBypassUsed := nofZ 0; emergencyDrainActive := nofZ 0; historianDrainFailureAt := nofZ 0 |}.

Definition toProtectedTailMeta (r : option row) : ProtectedTailMeta :=
  match r with
  | None => DEFAULT_PROTECTED_TAIL_META
  | Some r =>
      {| priorBoundaryOrdinal := nmax (nofZ 1) (numberOr (column r "prior_boundary_ordinal") (nofZ 1));
         protectedTailPolicyVersion := numberOr (column r "protected_tail_policy_version") (nofZ 0);
         protectedTailDrainWindowStartedAt := numberOr (column r "protected_tail_drain_window_started_at") (nofZ 0);
         protectedTailDrainTokens := numberOr (column r "protected_tail_drain_tokens") (nofZ 0);
         recoveryNoEligibleHeadCount := numberOr (column r "recovery_no_eligible_head_count") (nofZ 0);
         forceEmergencyBypassWindowStart := numberOr (column r "force_emergency_bypass_window_start") (nofZ 0);
         forceEmergencyBypassUsed := numberOr (column r "force_emergency_bypass_used") (nofZ 0);
         emergencyDrainActive := numberOr (column r "emergency_drain_active") (nofZ 0);
         historianDrainFailureAt := numberOr (column r "historian_drain_failure_at") (nofZ 0) |}
  end.

Definition loadProtectedTailMeta (sessionId : string) : M ProtectedTailMeta :=
  write (ensure_row harness sessionId);;
  query (fun db => toProtectedTailMeta (db !! sessionId)).

(** [Math.max(1, Math.floor(n))]. *)
Definition ordinal_arg (n : num) : num := nmax (nofZ 1) (nfloor n).

(** The transaction of markProtectedTailPolicyV3Seeded. *)
Definition seed_policy (sessionId : string) (prior : num) (db : database) : result sql_error (bool * database) :=
  let db := ensure_row harness sessionId db in
  if nltb (protectedTailPolicyVersion (toProtectedTailMeta (db !! sessionId))) (nofZ 3) then
    '(_, db) ← update_row sessionId
      (fun r => sql_lt (column r "protected_tail_policy_version") (SqlNum (nofZ 3)))
      (fun _ => [("prior_boundary_ordinal", bind_num (ordinal_arg prior));
                 ("protected_tail_policy_version", SqlNum (nofZ 3))]%string) db;
    Ok (true, db)
  else Ok (false, db).

Definition markProtectedTailPolicyV3Seeded (sessionId : string) (prior : num) : M (ProtectedTailMeta * bool) :=
  seeded ← access (seed_policy sessionId prior);
  meta ← loadProtectedTailMeta sessionId;
  mret (meta, seeded).

Definition recordProtectedTailPublicationFloor (sessionId : string) (floorOrdinal : num) : M bool :=
  ensured_update harness sessionId always (fun r =>
    [("prior_boundary_ordinal", sql_max (sql_coalesce (column r "prior_boundary_ordinal") (nofZ 1))
                                  (bind_num (ordinal_arg floorOrdinal)));
     ("recovery_no_eligible_head_count", zero)]%string).

Definition recordProtectedTailNoEligibleHead (sessionId : string) : M num :=
  ensured_update harness sessionId always (fun r =>
    [("recovery_no_eligible_head_count",
      sql_add (sql_coalesce (column r "recovery_no_eligible_head_count") (nofZ 0)) (SqlNum (nofZ 1)))]%string);;
  meta ← loadProtectedTailMeta sessionId;
  mret (recoveryNoEligibleHeadCount meta).

Definition resetProtectedTailNoEligibleHead (sessionId : string) : M bool :=
  update_always sessionId [("recovery_no_eligible_head_count", zero)].

Definition DRAIN_WINDOW_MS : num := nofZ (10 * 60 * 1000).

Definition protectedTailWindowBudget (usagePercentage usable perRunCap : num) : num :=
  if nleb (nofZ 95) usagePercentage then
    nmin (nofZ 1000000) (nmax (nmul (nofZ 4) perRunCap) (nround (nmul (nlit 1 2) usable)))
  else if nleb (nofZ 80) usagePercentage then
    nmin (nofZ 750000) (nmax (nmul (nofZ 3) perRunCap) (nround (nmul (nlit 35 100) usable)))
  else nmin (nofZ 500000) (nmax perRunCap (nround (nmul (nlit 2 10) usable))).

Definition EMERGENCY_DRAIN_EXIT_MARGIN : num := nofZ 10.
Definition EMERGENCY_DRAIN_FALLBACK_EXIT_PERCENTAGE : num := nofZ 55.
Definition EMERGENCY_DRAIN_FAILURE_BACKOFF_MS : num := nofZ 60000.
Definition EMERGENCY_DRAIN_MAX_LATCH_MS : num := nofZ (30 * 60 * 1000).

Definition emergencyDrainExitThreshold (executeThresholdPercentage : num) : num :=
  if negb (isFinite executeThresholdPercentage) || nleb executeThresholdPercentage (nofZ 0)
  then EMERGENCY_DRAIN_FALLBACK_EXIT_PERCENTAGE
  else nmax (nofZ 0) (nsub executeThresholdPercentage EMERGENCY_DRAIN_EXIT_MARGIN).

Record ProtectedTailDrainReservation := { rv_sessionId : string; rv_runId : string; rv_tokens : num }.

Record ProtectedTailDrainReserveResult := {
  rr_ok : bool; rr_reservedTokens : num; rr_overQuotaBypass : bool;
  rr_reservation : option ProtectedTailDrainReservation; rr_skippedReason : option string
}.

Record drain_args := {
  da_runId : string; da_trueRawTokens : num; da_usagePercentage : num; da_usable : num; da_perRunCap : num;
  da_executeThresholdPercentage : num
}.

(** The window, started anew when it is over. *)
Definition roll_window (sessionId : string) (now : num) (db : database) : result sql_error database :=
  let meta := toProtectedTailMeta (db !! sessionId) in
  if nltb DRAIN_WINDOW_MS (nsub now (protectedTailDrainWindowStartedAt meta)) then
    '(_, db) ← update_row sessionId always
      (fun _ => [("protected_tail_drain_window_started_at", bind_num now);
                 ("protected_tail_drain_tokens", zero)]%string) db;
    Ok db
  else Ok db.

(** When the emergency latch was set, or zero; [since] is its former value. *)
Definition next_latch (a : drain_args) (now since : num) : num :=
  let exitThreshold := emergencyDrainExitThreshold (da_executeThresholdPercentage a) in
  let force := eb_forceMaterializationPercentage (escalationBands (da_executeThresholdPercentage a)) in
  if nleb force (da_usagePercentage a) then (if nleb since (nofZ 0) then now else since)
  else if nltb (nofZ 0) since then
    let expired := nltb EMERGENCY_DRAIN_MAX_LATCH_MS (nsub now since) in
    if nltb (da_usagePercentage a) exitThreshold || expired then nofZ 0 else since
  else since.

Definition set_latch (sessionId : string) (latch former : num) (db : database) : result sql_error database :=
  if neqb latch former then Ok db
  else '(_, db) ← update_row sessionId always (fun _ => [("emergency_drain_active", bind_num latch)]%string) db; Ok db.

(** The tokens to reserve, and whether over the budget. *)
Definition drain_share (a : drain_args) (now requested latch : num) (meta : ProtectedTailMeta) : num * bool :=
  let budget := protectedTailWindowBudget (da_usagePercentage a) (da_usable a) (da_perRunCap a) in
  let remaining := nmax (nofZ 0) (nsub budget (protectedTailDrainTokens meta)) in
  let reserved := nmin (nmin requested (da_perRunCap a)) remaining in
  let inFailureBackoff :=
    nltb (nofZ 0) (historianDrainFailureAt meta) &&
    nltb (nsub now (historianDrainFailureAt meta)) EMERGENCY_DRAIN_FAILURE_BACKOFF_MS in
  if nleb reserved (nofZ 0) && nltb (nofZ 0) latch && negb inFailureBackoff
  then (nmin requested (da_perRunCap a), true) else (reserved, false).

Definition quota_exhausted : ProtectedTailDrainReserveResult :=
  {| rr_ok := false; rr_reservedTokens := nofZ 0; rr_overQuotaBypass := false; rr_reservation := None;
     rr_skippedReason := Some "quota exhausted"%string |}.

(** The transaction of a reservation. *)
Definition reserve_in (sessionId : string) (a : drain_args) (now requested : num) (db : database)
    : result sql_error (ProtectedTailDrainReserveResult * database) :=
  let db := ensure_row harness sessionId db in
  db ← roll_window sessionId now db;
  let meta := toProtectedTailMeta (db !! sessionId) in
  let latch := next_latch a now (emergencyDrainActive meta) in
  db ← set_latch sessionId latch (emergencyDrainActive meta) db;
  let '(reserved, bypass) := drain_share a now requested latch meta in
  if nleb reserved (nofZ 0) then Ok (quota_exhausted, db)
  else
    '(_, db) ← update_row sessionId always (fun r =>
      [("protected_tail_drain_window_started_at",
        if sql_eq (column r "protected_tail_drain_window_started_at") zero then bind_num now
        else column r "protected_tail_drain_window_started_at");
       ("protected_tail_drain_tokens",
        sql_add (sql_coalesce (column r "protected_tail_drain_tokens") (nofZ 0)) (bind_num reserved))]%string) db;
    Ok ({| rr_ok := true; rr_reservedTokens := reserved; rr_overQuotaBypass := bypass;
           rr_reservation := Some {| rv_sessionId := sessionId; rv_runId := da_runId a; rv_tokens := reserved |};
           rr_skippedReason := None |}, db).

Definition reserveProtectedTailDrainTokens (sessionId : string) (a : drain_args) (now : num)
    : M ProtectedTailDrainReserveResult :=
  let requested := nmax (nofZ 0) (nfloor (da_trueRawTokens a)) in
  if neqb requested (nofZ 0) then
    mret {| rr_ok := true; rr_reservedTokens := nofZ 0; rr_overQuotaBypass := false; rr_reservation := None;
            rr_skippedReason := None |}
  else access (reserve_in sessionId a now requested).

Definition clearEmergencyDrainLatch (sessionId : string) : M bool :=
  update_always sessionId [("emergency_drain_active", zero)].

Definition recordHistorianDrainFailure (sessionId : string) (now : num) : M bool :=
  update_always sessionId [("historian_drain_failure_at", bind_num now)].

Definition clearHistorianDrainFailure (sessionId : string) : M bool :=
  update_always sessionId [("historian_drain_failure_at", zero)].

Definition rollbackProtectedTailDrainReservation (reservation : option ProtectedTailDrainReservation) : M bool :=
  match reservation with
  | None => mret false
  | Some rv =>
      if nleb (rv_tokens rv) (nofZ 0) then mret false
      else ensured_update harness (rv_sessionId rv) always (fun r =>
        [("protected_tail_drain_tokens",
          sql_max zero (sql_sub (sql_coalesce (column r "protected_tail_drain_tokens") (nofZ 0))
                                (bind_num (rv_tokens rv))))]%string)
  end.

(** ** The compaction mode *)

Inductive CompactionModeRecord := mode_on | mode_off | on_notice_pending | off_notice_pending | off_cleanup_pending.
Inductive ResolvedCompactionModeRecord := resolved_on | resolved_off.

Definition COMPACTION_MODE_RECORD_VALUES : jsmap string CompactionModeRecord :=
  [("on", mode_on); ("off", mode_off); ("on_notice_pending", on_notice_pending);
   ("off_notice_pending", off_notice_pending); ("off_cleanup_pending", off_cleanup_pending)]%string.

Definition normalizeCompactionModeRecord (c : cell) : option CompactionModeRecord :=
  s ← text_cell c; JsMap.get COMPACTION_MODE_RECORD_VALUES s.

Definition resolveCompactionModeRecord (record : option CompactionModeRecord) : option ResolvedCompactionModeRecord :=
  match record with
  | Some (mode_on | on_notice_pending) => Some resolved_on
  | Some (mode_off | off_notice_pending | off_cleanup_pending) => Some resolved_off
  | None => None
  end.

Definition getCompactionModeRecord (sessionId : string) : M (option CompactionModeRecord) :=
  query (fun db => r ← db !! sessionId; normalizeCompactionModeRecord (column r "compaction_mode_record")).

(** [value] as the caller passes it; a value that is no record throws. *)
Definition setCompactionModeRecord (sessionId : string) (value : option string) : M unit :=
  match value with
  | Some s =>
      match JsMap.get COMPACTION_MODE_RECORD_VALUES s with
      | None => throw invalid_record
      | Some _ =>
          write (ensure_row harness sessionId);;
          access (update_row sessionId always (fun _ => [("compaction_mode_record", SqlText s)]%string));;
          mret ()
      end
  | None =>
      write (ensure_row harness sessionId);;
      access (update_row sessionId always (fun _ => [("compaction_mode_record", SqlNull)]%string));;
      mret ()
  end.

(** ** Watermarks and nudges *)

(** The number in a column of a session's row, zero when there is none. *)
Definition number_in (c sessionId : string) (db : database) : num :=
  default (nofZ 0) (r ← db !! sessionId; num_cell (column r c)).

Definition getPersistedReasoningWatermark (sessionId : string) : M num :=
  query (number_in "cleared_reasoning_through_tag" sessionId).

Definition setPersistedReasoningWatermark (sessionId : string) (tagNumber : num) : M unit :=
  write (ensure_row harness sessionId);;
  access (update_row sessionId always (fun _ => [("cleared_reasoning_through_tag", bind_num tagNumber)]%string));;
  mret ().

Definition clearPersistedReasoningWatermark (sessionId : string) : M unit :=
  setPersistedReasoningWatermark sessionId (nofZ 0).

Definition getEmergencyInputSample (sessionId : string) : M num :=
  query (number_in "last_emergency_input_sample" sessionId).

(** [Math.max(0, Math.round(n))]. *)
Definition rounded_arg (n : num) : num := nmax (nofZ 0) (nround n).

Definition setEmergencyDropSample (sessionId : string) (inputSample : num) : M bool :=
  update_always sessionId [("last_emergency_input_sample", bind_num (rounded_arg inputSample))].

Definition clearEmergencyDropSample (sessionId : string) : M bool :=
  update_always sessionId [("last_emergency_input_sample", zero)].

Inductive PersistedChannel1NudgeLevel := level_none | gentle | firm | urgent.

Definition level_text (l : PersistedChannel1NudgeLevel) : string :=
  match l with level_none => EmptyString | gentle => "gentle" | firm => "firm" | urgent => "urgent" end.

Definition normalizeLastNudgeLevel (s : string) : PersistedChannel1NudgeLevel :=
  if String.eqb s "gentle" then gentle else if String.eqb s "firm" then firm
  else if String.eqb s "urgent" then urgent else level_none.

Definition getLastNudgeUndropped (sessionId : string) : M num :=
  query (number_in "last_nudge_undropped" sessionId).

Definition setLastNudgeUndropped (sessionId : string) (n : num) : M bool :=
  update_always sessionId [("last_nudge_undropped", bind_num (rounded_arg n))].

Definition getLastNudgeLevel (sessionId : string) : M PersistedChannel1NudgeLevel :=
  query (fun db => default level_none
    (r ← db !! sessionId; s ← text_cell (column r "last_nudge_level"); Some (normalizeLastNudgeLevel s))).

Definition setLastNudgeLevel (sessionId : string) (l : PersistedChannel1NudgeLevel) : M bool :=
  update_always sessionId [("last_nudge_level", SqlText (level_text l))].

Definition resetLastNudgeCycle (sessionId : string) : M bool :=
  update_always sessionId [("last_nudge_undropped", zero); ("last_nudge_level", empty_text)].

Definition resetLastNudgeCycleIfTailShrank (sessionId : string) (measuredUndropped : num) : M bool :=
  ensured_update harness sessionId
    (fun r => sql_lt (bind_num (rounded_arg measuredUndropped)) (column r "last_nudge_undropped"))
    (fun _ => [("last_nudge_undropped", zero); ("last_nudge_level", empty_text)]%string).

(** ** The second nudge channel *)

Inductive Channel2NudgeState := ch_none | ch_pending | ch_claimed | ch_delivered.

#[export] Instance Channel2NudgeState_eq_dec : EqDecision Channel2NudgeState.
Proof. solve_decision. Defined.

Definition channel2_text (s : Channel2NudgeState) : string :=
  match s with ch_none => EmptyString | ch_pending => "pending" | ch_claimed => "claimed" | ch_delivered => "delivered" end.

Definition channel2_state (c : cell) : Channel2NudgeState :=
  match text_cell c with
  | Some s => if String.eqb s "pending" then ch_pending else if String.eqb s "claimed" then ch_claimed
              else if String.eqb s "delivered" then ch_delivered else ch_none
  | None => ch_none
  end.

Definition channel2_in (sessionId : string) (db : database) : Channel2NudgeState :=
  match db !! sessionId with Some r => channel2_state (column r "channel2_nudge_state") | None => ch_none end.

Definition getChannel2NudgeState (sessionId : string) : M Channel2NudgeState := query (channel2_in sessionId).

Definition getChannel2NudgeClaimedAt (sessionId : string) : M num :=
  query (number_in "channel2_nudge_claimed_at" sessionId).

Record Channel2NudgeClaim := { cl_state : Channel2NudgeState; cl_claimedAt : num; cl_claimToken : string }.

Definition claim_in (sessionId : string) (db : database) : Channel2NudgeClaim :=
  {| cl_state := channel2_in sessionId db;
     cl_claimedAt := number_in "channel2_nudge_claimed_at" sessionId db;
     cl_claimToken := default EmptyString
       (r ← db !! sessionId; text_cell (column r "channel2_nudge_claim_token")) |}.

Definition getChannel2NudgeClaim (sessionId : string) : M Channel2NudgeClaim := query (claim_in sessionId).

(** The three columns of the channel. *)
Definition channel2_sets (s : Channel2NudgeState) (now : num) (token : string) : list (string * cell) :=
  [("channel2_nudge_state", SqlText (channel2_text s));
   ("channel2_nudge_claimed_at", bind_num (match s with ch_claimed => now | _ => nofZ 0 end));
   ("channel2_nudge_claim_token", SqlText token)]%string.

Definition in_channel2 (s : Channel2NudgeState) (r : row) : bool :=
  sql_eq (column r "channel2_nudge_state") (SqlText (channel2_text s)).

Definition claimed_by (token : string) (r : row) : bool :=
  in_channel2 ch_claimed r && sql_eq (column r "channel2_nudge_claim_token") (SqlText token).

Definition setChannel2NudgeState (sessionId : string) (s : Channel2NudgeState) (now : num) : M bool :=
  ensured_update harness sessionId always (fun _ => channel2_sets s now EmptyString).

Definition casChannel2NudgeState (sessionId : string) (from to : Channel2NudgeState) (now : num) : M bool :=
  ensured_update harness sessionId (in_channel2 from) (fun _ => channel2_sets to now EmptyString).

Definition claimChannel2NudgeState (sessionId claimToken : string) (now : num) : M bool :=
  ensured_update harness sessionId (in_channel2 ch_pending) (fun _ => channel2_sets ch_claimed now claimToken).

Definition casChannel2NudgeClaim (sessionId : string) (to : Channel2NudgeState) (claimToken : string) (now : num)
    : M bool :=
  ensured_update harness sessionId (claimed_by claimToken)
    (fun _ => channel2_sets to now (match to with ch_claimed => claimToken | _ => EmptyString end)).

Definition CHANNEL2_CLAIM_TTL_MS : num := nofZ (10 * 60000).

(** A claim no timestamp protects any more. *)
Definition stale_claim (staleBefore : num) (r : row) : bool :=
  let claimedAt := column r "channel2_nudge_claimed_at" in
  in_channel2 ch_claimed r &&
  (sql_is claimedAt SqlNull || sql_eq claimedAt zero ||
   negb (sql_lt (bind_num staleBefore) claimedAt) && negb (isNaN staleBefore)).

(** At start, over every session; a failure is ignored. *)
Definition healWedgedChannel2Claims (now : num) : M unit :=
  let staleBefore := nsub now CHANNEL2_CLAIM_TTL_MS in
  catch (write (fun db => (fun r =>
           if stale_claim staleBefore r then set_columns (channel2_sets ch_none now EmptyString) r else r) <$> db))
    (mret ()).

(** ** Note nudges, todos and notes *)

Record PersistedNoteNudge := {
  nn_triggerPending : bool; nn_triggerMessageId : option string; nn_stickyText : option string;
  nn_stickyMessageId : option string
}.

Definition getDefaultPersistedNoteNudge : PersistedNoteNudge :=
  {| nn_triggerPending := false; nn_triggerMessageId := None; nn_stickyText := None; nn_stickyMessageId := None |}.

(** [s.length > 0 ? s : null]. *)
Definition nonempty (s : string) : option string := if is_empty s then None else Some s.

(** The row when [isPersistedNoteNudgeRow] accepts it. *)
Definition note_nudge_row (r : row) : option PersistedNoteNudge :=
  pending ← num_cell (column r "note_nudge_trigger_pending");
  trigger ← text_cell (column r "note_nudge_trigger_message_id");
  sticky ← text_cell (column r "note_nudge_sticky_text");
  stickyId ← text_cell (column r "note_nudge_sticky_message_id");
  Some {| nn_triggerPending := neqb pending (nofZ 1); nn_triggerMessageId := nonempty trigger;
          nn_stickyText := nonempty sticky; nn_stickyMessageId := nonempty stickyId |}.

Definition getPersistedNoteNudge (sessionId : string) : M PersistedNoteNudge :=
  query (fun db => default getDefaultPersistedNoteNudge (db !! sessionId ≫= note_nudge_row)).

Definition setPersistedNoteNudgeTrigger (sessionId triggerMessageId : string) : M bool :=
  update_always sessionId [("note_nudge_trigger_pending", SqlNum (nofZ 1));
                           ("note_nudge_trigger_message_id", SqlText triggerMessageId)].

Definition setPersistedNoteNudgeTriggerMessageId (sessionId triggerMessageId : string) : M bool :=
  update_always sessionId [("note_nudge_trigger_message_id", SqlText triggerMessageId)].

Definition clearPersistedNoteNudge (sessionId : string) : M bool :=
  access (update_row sessionId always (fun _ =>
    [("note_nudge_trigger_pending", zero); ("note_nudge_trigger_message_id", empty_text);
     ("note_nudge_sticky_text", empty_text); ("note_nudge_sticky_message_id", empty_text)]%string)).

Definition getPersistedTodoPermissionDenied (sessionId : string) : M (option bool) :=
  query (fun db =>
    n ← (r ← db !! sessionId; num_cell (column r "todo_permission_denied"));
    if neqb n (nofZ 1) then Some true else if neqb n (nofZ 0) then Some false else None).

Definition setPersistedTodoPermissionDenied (sessionId : string) (denied : bool) : M unit :=
  write (ensure_row harness sessionId);;
  access (update_row sessionId always (fun _ =>
    [("todo_permission_denied", SqlNum (nofZ (if denied then 1 else 0)))]%string));;
  mret ().

Record PersistedTodoSyntheticAnchor := { ta_callId : string; ta_messageId : string; ta_stateJson : string }.

Definition todo_anchor_row (r : row) : option PersistedTodoSyntheticAnchor :=
  callId ← text_cell (column r "todo_synthetic_call_id");
  messageId ← text_cell (column r "todo_synthetic_anchor_message_id");
  stateJson ← text_cell (column r "todo_synthetic_state_json");
  if is_empty callId || is_empty messageId then None
  else Some {| ta_callId := callId; ta_messageId := messageId; ta_stateJson := stateJson |}.

Definition getPersistedTodoSyntheticAnchor (sessionId : string) : M (option PersistedTodoSyntheticAnchor) :=
  query (fun db => db !! sessionId ≫= todo_anchor_row).

Definition todo_sets (callId messageId stateJson : string) : list (string * cell) :=
  [("todo_synthetic_call_id", SqlText callId); ("todo_synthetic_anchor_message_id", SqlText messageId);
   ("todo_synthetic_state_json", SqlText stateJson)]%string.

Definition setPersistedTodoSyntheticAnchor (sessionId callId messageId stateJson : string) : M bool :=
  ensured_update harness sessionId always (fun _ => todo_sets callId messageId stateJson).

Definition clearPersistedTodoSyntheticAnchor (sessionId : string) : M bool :=
  access (update_row sessionId always (fun _ => todo_sets EmptyString EmptyString EmptyString)).

Definition getNoteLastReadAt (sessionId : string) : M num :=
  catch (query (fun db => default (nofZ 0)
           (r ← db !! sessionId; n ← num_cell (column r "note_last_read_at"); if isFinite n then Some n else None)))
    (mret (nofZ 0)).

Definition setNoteLastReadAt (sessionId : string) (at_ : num) : M bool :=
  update_always sessionId [("note_last_read_at", bind_num at_)].

(** ** Failures of the historian *)

Record PersistedHistorianFailureState := {
  hf_failureCount : num; hf_lastError : option string; hf_lastFailureAt : option num
}.

Definition getDefaultHistorianFailureState : PersistedHistorianFailureState :=
  {| hf_failureCount := nofZ 0; hf_lastError := None; hf_lastFailureAt := None |}.

Definition historian_failure_row (r : row) : option PersistedHistorianFailureState :=
  count ← num_cell (column r "historian_failure_count");
  err ← nullable_text (column r "historian_last_error");
  failedAt ← nullable_num (column r "historian_last_failure_at");
  Some {| hf_failureCount := count; hf_lastError := err ≫= nonempty; hf_lastFailureAt := failedAt |}.

Definition historian_failure_in (sessionId : string) (db : database) : PersistedHistorianFailureState :=
  default getDefaultHistorianFailureState (db !! sessionId ≫= historian_failure_row).

Definition getHistorianFailureState (sessionId : string) : M PersistedHistorianFailureState :=
  query (historian_failure_in sessionId).

Definition incrementHistorianFailure (sessionId error : string) (now : num) : M num :=
  access (fun db =>
    let db := ensure_row harness sessionId db in
    let nextCount := nadd (hf_failureCount (historian_failure_in sessionId db)) (nofZ 1) in
    '(_, db) ← update_row sessionId always (fun _ =>
      [("historian_failure_count", bind_num nextCount); ("historian_last_error", SqlText error);
       ("historian_last_failure_at", bind_num now)]%string) db;
    Ok (nextCount, db)).

Definition clearHistorianFailureState (sessionId : string) : M bool :=
  update_always sessionId [("historian_failure_count", zero); ("historian_last_error", SqlNull);
                           ("historian_last_failure_at", SqlNull)].

(** ** Overflow recovery *)

Inductive EmergencyRecoveryOrigin := provider_overflow | proactive_model_shrink.

Definition origin_text (o : EmergencyRecoveryOrigin) : string :=
  match o with provider_overflow => "provider_overflow" | proactive_model_shrink => "proactive_model_shrink" end.

Definition normalizeEmergencyRecoveryOrigin (c : cell) : option EmergencyRecoveryOrigin :=
  s ← text_cell c;
  if String.eqb s "provider_overflow" then Some provider_overflow
  else if String.eqb s "proactive_model_shrink" then Some proactive_model_shrink else None.

Definition provenance_text (p : ContextLimitProvenance) : string :=
  match p with prompt_only => "prompt_only" | combined => "combined" | provenance_unknown => "unknown" end.

Definition provenance_cell (c : cell) : ContextLimitProvenance :=
  normalizeContextLimitProvenance (match c with SqlText s => VStr s | SqlNum n => VNum n | SqlNull => VNull end).

Definition normalizeDetectedLimitModelKey (modelKey : option string) : option string :=
  k ← modelKey; if is_empty k then None else Some (piModelRefToCanonical k).

Record PersistedOverflowState := {
  os_detectedContextLimit : num; os_detectedContextLimitModelKey : option string;
  os_detectedContextLimitProvenance : ContextLimitProvenance; os_needsEmergencyRecovery : bool;
  os_emergencyRecoveryOrigin : option EmergencyRecoveryOrigin
}.

(** A number above zero in a column. *)
Definition positive_in (c : string) (r : row) : option num :=
  n ← num_cell (column r c); if nltb (nofZ 0) n then Some n else None.

Definition is_some {A} (o : option A) : bool := match o with Some _ => true | None => false end.

Definition overflow_row (r : row) (modelKey : option string) : PersistedOverflowState :=
  let storedModelKey := normalizeDetectedLimitModelKey (text_cell (column r "detected_context_limit_model_key")) in
  let requestedModelKey := normalizeDetectedLimitModelKey modelKey in
  let limit := positive_in "detected_context_limit" r in
  let modelMatches :=
    match limit, requestedModelKey, storedModelKey with
    | Some _, Some requested, Some stored => String.eqb requested stored
    | _, _, _ => true
    end in
  let needs := is_some (positive_in "needs_emergency_recovery" r) in
  {| os_detectedContextLimit := if modelMatches then default (nofZ 0) limit else nofZ 0;
     os_detectedContextLimitModelKey := storedModelKey;
     os_detectedContextLimitProvenance := provenance_cell (column r "detected_context_limit_provenance");
     os_needsEmergencyRecovery := needs;
     os_emergencyRecoveryOrigin :=
       if needs then
         or_else (normalizeEmergencyRecoveryOrigin (column r "emergency_recovery_origin"))
           (if is_some limit then Some provider_overflow else None)
       else None |}.

Definition no_overflow : PersistedOverflowState :=
  {| os_detectedContextLimit := nofZ 0; os_detectedContextLimitModelKey := None;
     os_detectedContextLimitProvenance := provenance_unknown; os_needsEmergencyRecovery := false;
     os_emergencyRecoveryOrigin := None |}.

Definition overflow_in (sessionId : string) (modelKey : option string) (db : database) : PersistedOverflowState :=
  match db !! sessionId with Some r => overflow_row r modelKey | None => no_overflow end.

Definition getOverflowState (sessionId : string) (modelKey : option string) : M PersistedOverflowState :=
  query (overflow_in sessionId modelKey).

Definition isEmergencyRecoveryArmed (sessionId : string) : M bool :=
  gets (fun reg => bool_decide (sessionId ∈ armedSessions reg)).

Definition isProviderOverflowReconfirmed (sessionId : string) : M bool :=
  gets (fun reg => bool_decide (sessionId ∈ reconfirmedSessions reg)).

Definition getEmergencyRecoveryArmedAt (sessionId : string) : M (option num) :=
  gets (fun reg => armedAt reg !! sessionId).

Definition resetEmergencyRecoveryRegistryForTest : M unit := modify (fun _ => no_registries).

Definition arm (sessionId : string) (now : num) (reg : registries) : registries :=
  {| armedSessions := {[sessionId]} ∪ armedSessions reg; armedAt := <[sessionId := now]> (armedAt reg);
     reconfirmedSessions := reconfirmedSessions reg |}.

Definition reconfirm (sessionId : string) (reg : registries) : registries :=
  {| armedSessions := armedSessions reg; armedAt := armedAt reg;
     reconfirmedSessions := {[sessionId]} ∪ reconfirmedSessions reg |}.

Definition disarm (sessionId : string) (reg : registries) : registries :=
  {| armedSessions := armedSessions reg ∖ {[sessionId]}; armedAt := base.delete sessionId (armedAt reg);
     reconfirmedSessions := reconfirmedSessions reg ∖ {[sessionId]} |}.

(** The columns of a detected limit. *)
Definition limit_sets (limit : num) (modelKey : option string) (provenance : ContextLimitProvenance)
    : list (string * cell) :=
  [("detected_context_limit", bind_num limit);
   ("detected_context_limit_model_key", bind_text (normalizeDetectedLimitModelKey modelKey));
   ("detected_context_limit_provenance", SqlText (provenance_text provenance))]%string.

Definition recovery_sets (origin : EmergencyRecoveryOrigin) : list (string * cell) :=
  [("needs_emergency_recovery", SqlNum (nofZ 1)); ("emergency_recovery_origin", SqlText (origin_text origin))]%string.

Definition alert_sets : list (string * cell) :=
  [("observed_safe_input_tokens", zero); ("cache_alert_sent", zero)]%string.

Definition recordOverflowDetected (sessionId : string) (reportedLimit : option num) (modelKey : option string)
    (origin : EmergencyRecoveryOrigin) (provenance : ContextLimitProvenance) (now : num) : M bool :=
  modify (arm sessionId now);;
  transaction (fun db reg =>
    let db := ensure_row harness sessionId db in
    let armed := is_some (db !! sessionId ≫= positive_in "needs_emergency_recovery") in
    let reg := match origin with
               | provider_overflow => if armed then reconfirm sessionId reg else reg
               | proactive_model_shrink => reg
               end in
    (update_row sessionId always (fun _ =>
       match reportedLimit with
       | Some limit =>
           if nltb (nofZ 0) limit then limit_sets limit modelKey provenance ++ recovery_sets origin ++ alert_sets
           else recovery_sets origin ++ alert_sets
       | None => recovery_sets origin ++ alert_sets
       end) db, reg)).

Definition recordDetectedContextLimit (sessionId : string) (reportedLimit : num) (modelKey : option string)
    (provenance : ContextLimitProvenance) : M bool :=
  if nltb (nofZ 0) reportedLimit
  then ensured_update harness sessionId always (fun _ => limit_sets reportedLimit modelKey provenance ++ alert_sets)
  else mret false.

Definition cleared_sets : list (string * cell) :=
  [("needs_emergency_recovery", zero); ("emergency_recovery_origin", empty_text)]%string.

(** [firstUpdate] is the error the first UPDATE of the transaction throws, if it does:
    it is caught, and the second UPDATE leaves the head counter alone.  The error leaves
    the transaction open. *)
Definition clearEmergencyRecovery (sessionId : string) (firstUpdate : option sql_error) : M unit :=
  access (fun db =>
    let db := ensure_row harness sessionId db in
    let first :=
      match firstUpdate with
      | Some e => Err e
      | None => update_row sessionId always
                  (fun _ => cleared_sets ++ [("recovery_no_eligible_head_count"%string, zero)]) db
      end in
    match first with
    | Ok r => Ok r
    | Err _ => update_row sessionId always (fun _ => cleared_sets) db
    end);;
  modify (disarm sessionId).

Definition clearDetectedContextLimit (sessionId : string) : M bool :=
  update_always sessionId [("detected_context_limit", zero); ("detected_context_limit_model_key", SqlNull);
                           ("detected_context_limit_provenance", SqlText "unknown")].

(** ** Work metrics *)

Definition setSessionWorkMetrics (sessionId : string) (newWorkTokens totalInputTokens : num) : M unit :=
  write (ensure_row harness sessionId);;
  access (update_row sessionId always (fun _ =>
    [("new_work_tokens", bind_num (nmax (nofZ 0) (nfloor newWorkTokens)));
     ("total_input_tokens", bind_num (nmax (nofZ 0) (nfloor totalInputTokens)))]%string));;
  mret ().

Definition getSessionWorkMetrics (sessionId : string) : M (num * num) :=
  query (fun db => (number_in "new_work_tokens" sessionId db, number_in "total_input_tokens" sessionId db)).

End columns.

(** ** The wrap-up lease *)

Section wrapup.
Context `{JsonEngine} (harness : string).

Definition WRAPUP_IN_PROGRESS_TTL_MS : num := nofZ (5 * 60 * 1000).

(** What the holder reports; fields outside the interface are not represented. *)
Record WrapupProgress := {
  wp_messagesToKeep : num; wp_anchorRawMessageCount : num; wp_targetEligibleEndOrdinal : num;
  wp_lastCompartmentEnd : num; wp_chunkIndex : num; wp_expectedChunks : num
}.

Record WrapupInProgressState := {
  ws_holderId : string; ws_acquiredAt : num; ws_expiresAt : num; ws_progress : WrapupProgress; ws_updatedAt : num
}.

Definition wrapup_value (s : WrapupInProgressState) : value :=
  let p := ws_progress s in
  VObj [("holderId", VStr (ws_holderId s)); ("acquiredAt", VNum (ws_acquiredAt s)); ("expiresAt", VNum (ws_expiresAt s));
        ("messagesToKeep", VNum (wp_messagesToKeep p)); ("anchorRawMessageCount", VNum (wp_anchorRawMessageCount p));
        ("targetEligibleEndOrdinal", VNum (wp_targetEligibleEndOrdinal p));
        ("lastCompartmentEnd", VNum (wp_lastCompartmentEnd p)); ("chunkIndex", VNum (wp_chunkIndex p));
        ("expectedChunks", VNum (wp_expectedChunks p)); ("updatedAt", VNum (ws_updatedAt s))]%string.

Definition finite_field (record : list (string * value)) (key : string) : option num :=
  match field record key with VNum n => if isFinite n then Some n else None | _ => None end.

Definition wrapup_record (record : list (string * value)) : option WrapupInProgressState :=
  holderId ← match field record "holderId" with VStr s => nonempty s | _ => None end;
  acquiredAt ← finite_field record "acquiredAt";
  expiresAt ← finite_field record "expiresAt";
  messagesToKeep ← finite_field record "messagesToKeep";
  anchorRawMessageCount ← finite_field record "anchorRawMessageCount";
  targetEligibleEndOrdinal ← finite_field record "targetEligibleEndOrdinal";
  lastCompartmentEnd ← finite_field record "lastCompartmentEnd";
  chunkIndex ← finite_field record "chunkIndex";
  expectedChunks ← finite_field record "expectedChunks";
  updatedAt ← finite_field record "updatedAt";
  Some {| ws_holderId := holderId; ws_acquiredAt := acquiredAt; ws_expiresAt := expiresAt;
          ws_progress := {| wp_messagesToKeep := messagesToKeep; wp_anchorRawMessageCount := anchorRawMessageCount;
                            wp_targetEligibleEndOrdinal := targetEligibleEndOrdinal;
                            wp_lastCompartmentEnd := lastCompartmentEnd; wp_chunkIndex := chunkIndex;
                            wp_expectedChunks := expectedChunks |};
          ws_updatedAt := updatedAt |}.

Definition parseWrapupState (c : cell) : option WrapupInProgressState :=
  s ← text_cell c;
  if is_empty (trim s) then None
  else record ← (json_parse s ≫= isRecord); wrapup_record record.

Definition readRawWrapupState (sessionId : string) (db : database) : option WrapupInProgressState :=
  r ← db !! sessionId; parseWrapupState (column r "wrapup_in_progress_state").

Definition set_wrapup (sessionId : string) (c : cell) (db : database) : result sql_error (bool * database) :=
  update_row sessionId always (fun _ => [("wrapup_in_progress_state", c)]%string) db.

(** A statement that takes the write lock and changes nothing. *)
Definition begin_immediate : M unit := query (fun _ => ()).

(** An expired state is none; when the lock can be had its blob is removed. *)
Definition getWrapupInProgressState (sessionId : string) (now : num) : M (option WrapupInProgressState) :=
  state ← query (readRawWrapupState sessionId);
  match state with
  | None => mret None
  | Some s =>
      if nltb now (ws_expiresAt s) then mret (Some s)
      else
        locked ← catch (begin_immediate;; mret true) (mret false);
        if locked : bool then
          access (fun db =>
            match readRawWrapupState sessionId db with
            | Some current => if nleb (ws_expiresAt current) now then set_wrapup sessionId SqlNull db else Ok (false, db)
            | None => Ok (false, db)
            end);;
          mret None
        else mret None
  end.

Definition isWrapupInProgress (sessionId : string) (now : num) : M bool :=
  state ← getWrapupInProgressState sessionId now; mret (is_some state).

(** The state held, and whether the caller holds it. *)
Definition acquireWrapupInProgress (sessionId holderId : string) (progress : WrapupProgress) (now : num)
    : M (bool * WrapupInProgressState) :=
  let next := {| ws_holderId := holderId; ws_acquiredAt := now; ws_expiresAt := nadd now WRAPUP_IN_PROGRESS_TTL_MS;
                 ws_progress := progress; ws_updatedAt := now |} in
  access (fun db =>
    let db := ensure_row harness sessionId db in
    let take := '(_, db) ← set_wrapup sessionId (SqlText (stableStringify (wrapup_value next))) db;
                Ok ((true, next), db) in
    match readRawWrapupState sessionId db with
    | Some current =>
        if nltb now (ws_expiresAt current) && negb (String.eqb (ws_holderId current) holderId)
        then Ok ((false, current), db) else take
    | None => take
    end).

(** [updates] gives the progress after the update. *)
Definition updateWrapupInProgress (sessionId holderId : string) (updates : WrapupProgress → WrapupProgress) (now : num)
    : M (option WrapupInProgressState) :=
  access (fun db =>
    match readRawWrapupState sessionId db with
    | Some current =>
        if negb (String.eqb (ws_holderId current) holderId) || nleb (ws_expiresAt current) now then Ok (None, db)
        else
          let next := {| ws_holderId := holderId; ws_acquiredAt := ws_acquiredAt current;
                         ws_expiresAt := nadd now WRAPUP_IN_PROGRESS_TTL_MS;
                         ws_progress := updates (ws_progress current); ws_updatedAt := now |} in
          '(_, db) ← set_wrapup sessionId (SqlText (stableStringify (wrapup_value next))) db;
          Ok (Some next, db)
    | None => Ok (None, db)
    end).

Definition releaseWrapupInProgress (sessionId holderId : string) : M bool :=
  access (fun db =>
    match readRawWrapupState sessionId db with
    | Some current =>
        if String.eqb (ws_holderId current) holderId then set_wrapup sessionId SqlNull db else Ok (false, db)
    | None => Ok (false, db)
    end).

End wrapup.

(** ** Lemmas: single updates *)

(** A call on its own: its answer and the database it leaves. *)
Definition run {A} (m : M A) (db : database) : result sql_error A * database :=
  let '(r, w) := m {| w_db := db; w_reg := no_registries; w_pauses := [] |} in (r, w_db w).

(** A call that ensures the row and sets columns that may be null, whatever happens
    around it: it throws and writes nothing, or the row holds the new columns. *)
Lemma ensured_cases harness sessionId sets w :
  (∀ r, null_violation (sets r) = None) →
  (∃ e, ensured_update harness sessionId always sets w = (Err e, rest w (committed w) (w_reg w))) ∨
  (∃ r, ensure_row harness sessionId (committed w) !! sessionId = Some r ∧
     ensured_update harness sessionId always sets w =
       (Ok true, rest w (<[sessionId := set_columns (sets r) r]> (ensure_row harness sessionId (committed w))) (w_reg w))).
Proof.
  intros Hn. unfold ensured_update.
  destruct (ensure_row_Some harness sessionId (committed w)) as [r Hr].
  match goal with |- context [access ?f w] => destruct (access_cases f w) as [(e & ->)|(a & db & E & ->)] end.
  - left. by exists e.
  - right. exists r. split; [done|]. rewrite (update_row_Some _ _ _ _ r), Hn in E by done. cbn in E. by injection E as <- <-.
Qed.

(** ** Lemmas: overflow *)

Lemma bind_positive n : nltb (nofZ 0) n = true → bind_num n = SqlNum n.
Proof. unfold bind_num. destruct n as [| | |]; [done..|]. by cbn. Qed.

Lemma one_positive : nltb (nofZ 0) (nofZ 1) = true.
Proof. reflexivity. Qed.

Lemma provenance_text_cell p : provenance_cell (SqlText (provenance_text p)) = p.
Proof. by destruct p. Qed.

Lemma origin_text_cell o : normalizeEmergencyRecoveryOrigin (SqlText (origin_text o)) = Some o.
Proof. by destruct o. Qed.

(** The columns [recordOverflowDetected] sets. *)
Definition overflow_sets (reportedLimit : option num) (modelKey : option string) (origin : EmergencyRecoveryOrigin)
    (provenance : ContextLimitProvenance) : list (string * cell) :=
  match reportedLimit with
  | Some limit =>
      if nltb (nofZ 0) limit then limit_sets limit modelKey provenance ++ recovery_sets origin ++ alert_sets
      else recovery_sets origin ++ alert_sets
  | None => recovery_sets origin ++ alert_sets
  end.

Lemma limit_sets_null limit key prov l : nltb (nofZ 0) limit = true → null_violation l = None →
  null_violation (limit_sets limit key prov ++ l) = None.
Proof.
  intros Hl Hn. unfold limit_sets. rewrite bind_positive by done. cbn [app null_violation].
  destruct (bind_text _); [|done..]. rewrite decide_False; [done|]. vm_compute. done.
Qed.

Lemma overflow_sets_null limit key origin prov : null_violation (overflow_sets limit key origin prov) = None.
Proof.
  unfold overflow_sets. destruct limit as [l|]; [|done]. destruct (nltb (nofZ 0) l) eqn:El; [|done].
  by apply limit_sets_null.
Qed.

(** What a row says after a limit was recorded. *)
Lemma limit_recorded limit key prov l r : nltb (nofZ 0) limit = true →
  assigned l "detected_context_limit" = None → assigned l "detected_context_limit_model_key" = None →
  assigned l "detected_context_limit_provenance" = None →
  let s := overflow_row (set_columns (limit_sets limit key prov ++ l) r) key in
  os_detectedContextLimit s = limit ∧ os_detectedContextLimitProvenance s = prov.
Proof.
  intros Hl H1 H2 H3. cbn zeta. unfold overflow_row, positive_in. rewrite !column_set.
  unfold limit_sets. rewrite bind_positive by done. cbn [app assigned String.eqb Ascii.eqb Bool.eqb].
  rewrite H1, H2, H3. cbn [from_option id num_cell mbind option_bind]. rewrite Hl, provenance_text_cell.
  cbn [os_detectedContextLimit os_detectedContextLimitProvenance from_option id]. split; [|done].
  unfold bind_text. destruct (normalizeDetectedLimitModelKey key) as [k|] eqn:Ek; cbn [text_cell]; [|done].
  destruct (normalizeDetectedLimitModelKey (Some k)) as [k'|] eqn:Ek'; [|done].
  replace k' with k; [by rewrite String.eqb_refl|].
  unfold normalizeDetectedLimitModelKey in Ek, Ek'. cbn in Ek'. destruct (is_empty k); [done|]. injection Ek' as <-.
  destruct key as [key|]; [|done]. cbn in Ek. destruct (is_empty key); [done|]. injection Ek as <-.
  symmetry. apply canonical_idem.
Qed.

Lemma needs_recorded origin l r : assigned l "needs_emergency_recovery" = None →
  assigned l "emergency_recovery_origin" = None → ∀ l', let s := overflow_row (set_columns (l' ++ recovery_sets origin ++ l) r) None in
  os_needsEmergencyRecovery s = true ∧ os_emergencyRecoveryOrigin s = Some origin.
Proof.
  intros H1 H2 l'. cbn zeta.
  assert (∀ a b c, assigned (a ++ b) c = match assigned b c with Some v => Some v | None => assigned a c end) as Happ.
  { intros a b c. induction a as [|[k v] a IH]; cbn [app assigned]; [by destruct (assigned b c)|]. rewrite IH.
    by destruct (assigned b c). }
  unfold overflow_row. cbn [os_needsEmergencyRecovery os_emergencyRecoveryOrigin].
  unfold positive_in. rewrite !column_set, !Happ, H1, H2. unfold recovery_sets.
  cbn [assigned String.eqb Ascii.eqb Bool.eqb from_option id num_cell mbind option_bind].
  rewrite one_positive. cbn [is_some]. rewrite origin_text_cell. by split.
Qed.

Lemma overflow_recorded limit key origin prov r :
  let row := set_columns (overflow_sets limit key origin prov) r in
  os_needsEmergencyRecovery (overflow_row row None) = true ∧
  os_emergencyRecoveryOrigin (overflow_row row None) = Some origin ∧
  ∀ l, limit = Some l → nltb (nofZ 0) l = true →
    os_detectedContextLimit (overflow_row row key) = l ∧ os_detectedContextLimitProvenance (overflow_row row key) = prov.
Proof.
  cbn zeta. split_and!.
  - unfold overflow_sets. destruct limit as [l|]; [destruct (nltb _ l)|];
      by apply (needs_recorded origin alert_sets r eq_refl eq_refl (_ ++ [])) || by apply (needs_recorded origin alert_sets r eq_refl eq_refl []) ||
      by apply (needs_recorded origin alert_sets r eq_refl eq_refl (limit_sets l key prov)).
  - unfold overflow_sets. destruct limit as [l|]; [destruct (nltb _ l)|];
      by apply (needs_recorded origin alert_sets r eq_refl eq_refl []) ||
      by apply (needs_recorded origin alert_sets r eq_refl eq_refl (limit_sets l key prov)).
  - intros l -> Hl. unfold overflow_sets. rewrite Hl. by apply limit_recorded.
Qed.

Lemma cleared_row sets r : assigned sets "needs_emergency_recovery" = Some zero →
  os_needsEmergencyRecovery (overflow_row (set_columns sets r) None) = false ∧
  os_emergencyRecoveryOrigin (overflow_row (set_columns sets r) None) = None.
Proof.
  intros Hs. unfold overflow_row, positive_in. cbn [os_needsEmergencyRecovery os_emergencyRecoveryOrigin].
  rewrite !column_set, Hs. by split.
Qed.

(** A clear with either UPDATE: both end the recovery of the row and of the process. *)
Lemma clear_ends_recovery harness sessionId firstUpdate w :
  let '(r, w') := clearEmergencyRecovery harness sessionId firstUpdate w in
  match r with
  | Ok _ => sessionId ∉ armedSessions (w_reg w') ∧ sessionId ∉ reconfirmedSessions (w_reg w') ∧
            armedAt (w_reg w') !! sessionId = None ∧
            os_needsEmergencyRecovery (overflow_in sessionId None (w_db w')) = false ∧
            os_emergencyRecoveryOrigin (overflow_in sessionId None (w_db w')) = None
  | Err _ => w_reg w' = w_reg w ∧ w_db w' = committed w
  end.
Proof.
  unfold clearEmergencyRecovery. unfold mbind, M_bind.
  match goal with |- context [access ?f w] => set (F := f) end.
  destruct (access_cases F w) as [(e & ->)|(b & db & Ef & ->)]; [done|].
  assert (os_needsEmergencyRecovery (overflow_in sessionId None db) = false ∧
          os_emergencyRecoveryOrigin (overflow_in sessionId None db) = None) as [??].
  { revert Ef. unfold F. destruct (ensure_row_Some harness sessionId (committed w)) as [r Hr].
    destruct firstUpdate as [e|]; rewrite (update_row_Some _ _ _ _ r) by done;
      cbn [always null_violation cleared_sets app zero empty_text]; intros [= _ <-];
      unfold overflow_in; rewrite lookup_insert_eq.
    - exact (cleared_row cleared_sets r eq_refl).
    - exact (cleared_row (cleared_sets ++ [("recovery_no_eligible_head_count"%string, zero)]) r eq_refl). }
  cbn [modify w_reg w_db disarm rest armedSessions reconfirmedSessions armedAt].
  split_and!; [set_solver|set_solver|by rewrite lookup_delete_eq|done..].
Qed.

(** ** Overflow recovery fails closed *)

(** C25: Recovery fails closed: whatever statement or transaction fails while an overflow
    is recorded, the process has the session armed afterwards; when the record is written
    the row asks for recovery with its origin, and a reported positive limit is the one
    the model is then answered, with its provenance; when it is not, the call throws and
    writes nothing.  Recovery ends in memory only together with the row: a clear that
    returns, by its first UPDATE or by the one it falls back to when the first throws
    (and leaves the transaction open), ends both; a clear that throws leaves both as they
    were. *)
Theorem recovery_fails_closed harness sessionId limit key origin prov now w :
  let '(r, w1) := recordOverflowDetected harness sessionId limit key origin prov now w in
  (sessionId ∈ armedSessions (w_reg w1) ∧ armedAt (w_reg w1) !! sessionId = Some now ∧
   match r with
   | Ok _ =>
       os_needsEmergencyRecovery (overflow_in sessionId None (w_db w1)) = true ∧
       os_emergencyRecoveryOrigin (overflow_in sessionId None (w_db w1)) = Some origin ∧
       ∀ l, limit = Some l → nltb (nofZ 0) l = true →
         os_detectedContextLimit (overflow_in sessionId key (w_db w1)) = l ∧
         os_detectedContextLimitProvenance (overflow_in sessionId key (w_db w1)) = prov
   | Err _ => w_db w1 = committed w
   end) ∧
  ∀ firstUpdate w2, let '(r, w3) := clearEmergencyRecovery harness sessionId firstUpdate w2 in
  match r with
  | Ok _ => sessionId ∉ armedSessions (w_reg w3) ∧ sessionId ∉ reconfirmedSessions (w_reg w3) ∧
            armedAt (w_reg w3) !! sessionId = None ∧
            os_needsEmergencyRecovery (overflow_in sessionId None (w_db w3)) = false ∧
            os_emergencyRecoveryOrigin (overflow_in sessionId None (w_db w3)) = None
  | Err _ => w_reg w3 = w_reg w2 ∧ w_db w3 = committed w2
  end.
Proof.
  destruct (recordOverflowDetected _ _ _ _ _ _ _ _) as [r1 w1] eqn:E.
  split; [|intros; apply clear_ends_recovery].
  revert E. unfold recordOverflowDetected, mbind, M_bind. unfold modify. cbv beta iota.
  set (w0 := {| w_db := w_db w; w_reg := arm sessionId now (w_reg w); w_pauses := w_pauses w |}).
  change (committed w) with (committed w0).
  assert (∀ reg' : registries, (reg' = arm sessionId now (w_reg w) ∨ reg' = reconfirm sessionId (arm sessionId now (w_reg w))) →
    sessionId ∈ armedSessions reg' ∧ armedAt reg' !! sessionId = Some now) as Hreg.
  { intros reg' [->| ->]; cbn; (split; [set_solver|by rewrite lookup_insert_eq]). }
  match goal with |- context [transaction ?f w0] => set (F := f) end.
  assert ((F (committed w0) (w_reg w0)).2 = arm sessionId now (w_reg w) ∨
    (F (committed w0) (w_reg w0)).2 = reconfirm sessionId (arm sessionId now (w_reg w))) as HF.
  { unfold F. cbn [snd]. destruct origin; [|by left]. destruct (is_some _); [by right|by left]. }
  destruct (transaction_cases F w0) as [(e & ->)|[(e & ->)|(b & db & Ef & ->)]]; intros [= <- <-];
    cbn [rest w_reg w_db].
  - split; [|split; [|done]]; apply Hreg; by left.
  - destruct (Hreg _ HF) as [? ?]. by split_and!.
  - destruct (Hreg _ HF) as [? ?]. split_and!; [done|done|..]; revert Ef; unfold F; cbn [fst];
      destruct (ensure_row_Some harness sessionId (committed w0)) as [r Hr];
      rewrite (update_row_Some _ _ _ _ r) by done; fold (overflow_sets limit key origin prov);
      rewrite overflow_sets_null; intros [= <- <-]; unfold overflow_in; rewrite lookup_insert_eq; apply overflow_recorded.
Qed.

(** ** The second nudge channel *)

Section channel2.
Context (harness sessionId : string).

(** What processes do with the channel of a session, each at its time. *)
Inductive channel2_op :=
| c_set (s : Channel2NudgeState)
| c_cas (from to : Channel2NudgeState)
| c_claim (token : string)
| c_settle (to : Channel2NudgeState) (token : string)
| c_heal.

Definition succeeds (m : M bool) (db : database) : bool * database :=
  let '(r, w) := m {| w_db := db; w_reg := no_registries; w_pauses := [] |} in
  (match r with Ok b => b | Err _ => false end, w_db w).

Definition channel2_step (op : channel2_op) (now : num) : database → bool * database :=
  succeeds match op with
           | c_set s => setChannel2NudgeState harness sessionId s now
           | c_cas from to => casChannel2NudgeState harness sessionId from to now
           | c_claim token => claimChannel2NudgeState harness sessionId token now
           | c_settle to token => casChannel2NudgeClaim harness sessionId to token now
           | c_heal => healWedgedChannel2Claims now;; mret true
           end.

(** A history: the operations in the order of their transactions, with their answers. *)
Fixpoint channel2_run (ops : list (channel2_op * num)) (db : database) : list (channel2_op * bool) :=
  match ops with
  | [] => []
  | (op, now) :: ops => let '(b, db) := channel2_step op now db in (op, b) :: channel2_run ops db
  end.

Definition row_of (db : database) : row := default column_defaults (db !! sessionId).

(** The channel of a row: its state and token. *)
Definition is_open (r : row) : bool := in_channel2 ch_pending r || in_channel2 ch_claimed r.

Definition opens (s : Channel2NudgeState) : bool := match s with ch_pending | ch_claimed => true | _ => false end.

Definition claims_by (token : string) (e : channel2_op * bool) : Z :=
  match e with (c_claim t, true) => if String.eqb t token then 1 else 0 | _ => 0 end.

(** The claimer gives the claim up or confirms its delivery. *)
Definition settles_by (token : string) (e : channel2_op * bool) : Z :=
  match e with
  | (c_settle to t, true) => if String.eqb t token && negb (bool_decide (to = ch_claimed)) then 1 else 0
  | _ => 0
  end.

Definition deliveries (e : channel2_op * bool) : Z :=
  match e with (c_settle ch_delivered _, true) => 1 | _ => 0 end.

(** An intent is recorded: from nothing, or by force. *)
Definition arms (e : channel2_op * bool) : Z :=
  match e with
  | (c_set s, true) => if opens s then 1 else 0
  | (c_cas from to, true) => if opens to && negb (opens from) then 1 else 0
  | _ => 0
  end.

(** *** Lemmas *)

(** Counts of one answer, over the cases of what is left. *)
Ltac counted :=
  cbn [settles_by claims_by deliveries arms opens andb negb Z.b2z];
  repeat match goal with |- context [Z.b2z ?b] => destruct b; cbn [Z.b2z] end; lia.

Lemma channel2_text_inj s t : channel2_text s = channel2_text t → s = t.
Proof. by destruct s, t. Qed.

Lemma in_channel2_sets s t now token r :
  in_channel2 t (set_columns (channel2_sets s now token) r) = bool_decide (s = t).
Proof. unfold in_channel2. rewrite column_set. by destruct s, t. Qed.

Lemma claimed_by_sets s now token t r :
  claimed_by t (set_columns (channel2_sets s now token) r) = bool_decide (s = ch_claimed) && String.eqb token t.
Proof. unfold claimed_by. rewrite in_channel2_sets, column_set. by destruct s. Qed.

Lemma channel2_sets_null s now token : null_violation (channel2_sets s now token) = None.
Proof. unfold channel2_sets, bind_num. cbn [null_violation]. by destruct s, (isNaN now). Qed.

Lemma open_channel r s : in_channel2 s r = true → is_open r = opens s.
Proof.
  unfold is_open, in_channel2. destruct (column r "channel2_nudge_state") as [|n|t]; [done..|]. cbn [sql_eq].
  intros ->%String.eqb_eq. by destruct s.
Qed.

(** A guarded update of the channel: refused, or of the row it saw. *)
Lemma channel2_update guard sets db : (∀ r, null_violation (sets r) = None) →
  let db' := ensure_row harness sessionId db in
  (succeeds (ensured_update harness sessionId guard sets) db = (false, db') ∧ guard (row_of db') = false) ∨
  (guard (row_of db') = true ∧
   succeeds (ensured_update harness sessionId guard sets) db =
     (true, <[sessionId := set_columns (sets (row_of db')) (row_of db')]> db')).
Proof.
  intros Hn. cbn zeta. destruct (ensure_row_Some harness sessionId db) as [r Hr].
  assert (row_of (ensure_row harness sessionId db) = r) as Er by (unfold row_of; by rewrite Hr).
  unfold succeeds, ensured_update, access, transaction. cbn [w_db w_pauses head from_option id p_commits no_pause foldl p_fault].
  rewrite (update_row_Some _ _ _ _ r) by done. rewrite Er. destruct (guard r) eqn:Eg.
  - right. by rewrite Hn.
  - by left.
Qed.

Lemma ensured_channel db : column (row_of (ensure_row harness sessionId db)) "channel2_nudge_state" =
    column (row_of db) "channel2_nudge_state" ∧
  column (row_of (ensure_row harness sessionId db)) "channel2_nudge_claim_token" =
    column (row_of db) "channel2_nudge_claim_token".
Proof.
  unfold row_of, ensure_row. destruct (db !! sessionId) as [r|] eqn:E; [by rewrite E|].
  rewrite lookup_insert_eq. cbn [from_option id]. by split.
Qed.

Lemma ensured_guards db : let r := row_of (ensure_row harness sessionId db) in
  (∀ s, in_channel2 s r = in_channel2 s (row_of db)) ∧ is_open r = is_open (row_of db) ∧
  (∀ t, claimed_by t r = claimed_by t (row_of db)).
Proof.
  cbn zeta. destruct (ensured_channel db) as [E1 E2].
  assert (∀ s, in_channel2 s (row_of (ensure_row harness sessionId db)) = in_channel2 s (row_of db)) as Hs
    by (intros s; unfold in_channel2; by rewrite E1).
  split_and!; [done|unfold is_open; by rewrite !Hs|]. intros t. unfold claimed_by. by rewrite Hs, E2.
Qed.

Lemma row_of_insert r db : row_of (<[sessionId := r]> db) = r.
Proof. unfold row_of. by rewrite lookup_insert_eq. Qed.

Lemma is_open_sets s now token r : is_open (set_columns (channel2_sets s now token) r) = opens s.
Proof. unfold is_open. rewrite !in_channel2_sets. by destruct s. Qed.

(** What healing leaves of a row. *)
Lemma heal_row now db : let db' := (channel2_step c_heal now db).2 in
  row_of db' = row_of db ∨ ∃ r, row_of db' = set_columns (channel2_sets ch_none now EmptyString) r.
Proof.
  cbn zeta. unfold channel2_step, succeeds, healWedgedChannel2Claims, mbind, M_bind, catch, catch_with, write, access, transaction.
  cbn [w_db w_pauses w_reg head from_option id p_commits no_pause foldl p_fault fst snd mret M_ret].
  unfold row_of. rewrite lookup_fmap. destruct (db !! sessionId) as [r|]; cbn [fmap option_fmap option_map from_option id]; [|by left].
  destruct (stale_claim _ r); [right; by eexists|by left].
Qed.

Lemma step_token token op now db : token ≠ EmptyString →
  let '(b, db') := channel2_step op now db in
  settles_by token (op, b) + Z.b2z (claimed_by token (row_of db')) ≤
  claims_by token (op, b) + Z.b2z (claimed_by token (row_of db)).
Proof.
  intros Ht. assert (String.eqb EmptyString token = false) as Et by (by apply String.eqb_neq).
  destruct (ensured_guards db) as (Hs & _ & Hc).
  destruct op as [s|from to|t|to t|].
  5: { pose proof (heal_row now db) as Hh. destruct (channel2_step c_heal now db) as [b db']. cbn [snd] in Hh. cbn [settles_by claims_by].
       destruct Hh as [->|[r ->]]; [lia|]. rewrite claimed_by_sets, Et, andb_false_r. counted. }
  all: unfold channel2_step; cbv iota beta.
  - destruct (channel2_update always (fun _ => channel2_sets s now EmptyString) db) as [[E Hg]|[Hg E]];
      [intros; apply channel2_sets_null|done|]. unfold setChannel2NudgeState. rewrite E, row_of_insert, claimed_by_sets, Et.
    rewrite andb_false_r; counted.
  - destruct (channel2_update (in_channel2 from) (fun _ => channel2_sets to now EmptyString) db) as [[E Hg]|[Hg E]];
      [intros; apply channel2_sets_null| |]; unfold casChannel2NudgeState; rewrite E; [by rewrite Hc|].
    rewrite row_of_insert, claimed_by_sets, Et, andb_false_r. counted.
  - destruct (channel2_update (in_channel2 ch_pending) (fun _ => channel2_sets ch_claimed now t) db) as [[E Hg]|[Hg E]];
      [intros; apply channel2_sets_null| |]; unfold claimChannel2NudgeState; rewrite E; [by rewrite Hc|].
    rewrite row_of_insert, claimed_by_sets. cbn [settles_by claims_by]. rewrite bool_decide_true by done. cbn [andb].
    destruct (String.eqb t token), (claimed_by token _); cbn; lia.
  - destruct (channel2_update (claimed_by t)
      (fun _ => channel2_sets to now (match to with ch_claimed => t | _ => EmptyString end)) db) as [[E Hg]|[Hg E]];
      [intros; apply channel2_sets_null| |]; unfold casChannel2NudgeClaim; rewrite E; [by rewrite Hc|].
    rewrite row_of_insert, claimed_by_sets. cbn [settles_by claims_by].
    destruct (String.eqb_spec t token) as [->|Hne].
    + rewrite <- (Hc token), Hg. destruct to; rewrite ?Et, ?String.eqb_refl; repeat case_bool_decide; try done; cbn; lia.
    + cbn [andb]. destruct to; cbn [bool_decide decide andb]; try (rewrite ?bool_decide_false by done; counted).
      rewrite bool_decide_true by done. cbn [andb]. apply String.eqb_neq in Hne as ->.
      counted.
Qed.

Lemma step_open op now db :
  let '(b, db') := channel2_step op now db in
  deliveries (op, b) + Z.b2z (is_open (row_of db')) ≤ arms (op, b) + Z.b2z (is_open (row_of db)).
Proof.
  destruct (ensured_guards db) as (Hs & Ho & Hc).
  destruct op as [s|from to|t|to t|].
  5: { pose proof (heal_row now db) as Hh. destruct (channel2_step c_heal now db) as [b db']. cbn [snd] in Hh. cbn [deliveries arms].
       destruct Hh as [->|[r ->]]; [lia|]. rewrite is_open_sets. counted. }
  all: unfold channel2_step; cbv iota beta.
  - destruct (channel2_update always (fun _ => channel2_sets s now EmptyString) db) as [[E Hg]|[Hg E]];
      [intros; apply channel2_sets_null|done|]. unfold setChannel2NudgeState. rewrite E, row_of_insert, is_open_sets.
    destruct s; counted.
  - destruct (channel2_update (in_channel2 from) (fun _ => channel2_sets to now EmptyString) db) as [[E Hg]|[Hg E]];
      [intros; apply channel2_sets_null| |]; unfold casChannel2NudgeState; rewrite E; [rewrite Ho; counted|].
    rewrite row_of_insert, is_open_sets, <- Ho, (open_channel _ from) by done.
    destruct from, to; counted.
  - destruct (channel2_update (in_channel2 ch_pending) (fun _ => channel2_sets ch_claimed now t) db) as [[E Hg]|[Hg E]];
      [intros; apply channel2_sets_null| |]; unfold claimChannel2NudgeState; rewrite E; [rewrite Ho; counted|].
    rewrite row_of_insert, is_open_sets, <- Ho, (open_channel _ ch_pending) by done. counted.
  - destruct (channel2_update (claimed_by t)
      (fun _ => channel2_sets to now (match to with ch_claimed => t | _ => EmptyString end)) db) as [[E Hg]|[Hg E]];
      [intros; apply channel2_sets_null| |]; unfold casChannel2NudgeClaim; rewrite E; [rewrite Ho; destruct to; counted|].
    rewrite row_of_insert, is_open_sets, <- Ho, (open_channel _ ch_claimed) by (by apply andb_prop in Hg as [? _]).
    destruct to; counted.
Qed.

(** C26: Whatever processes do with a session's channel, in any order of their
    transactions: a token settles its claim, by confirming or giving up, at most as
    often as it claimed the channel, so a sender that was given up as dead cannot
    confirm over another's delivery; and every recorded intent is delivered at most
    once. *)
Theorem channel2_delivers_once ops db token : token ≠ EmptyString →
  claimed_by token (row_of db) = false → is_open (row_of db) = false →
  sumZ (settles_by token) (channel2_run ops db) ≤ sumZ (claims_by token) (channel2_run ops db) ∧
  sumZ deliveries (channel2_run ops db) ≤ sumZ arms (channel2_run ops db).
Proof.
  intros Ht Hc Ho.
  assert (∀ ops db, sumZ (settles_by token) (channel2_run ops db) ≤
    sumZ (claims_by token) (channel2_run ops db) + Z.b2z (claimed_by token (row_of db)) ∧
    sumZ deliveries (channel2_run ops db) ≤ sumZ arms (channel2_run ops db) + Z.b2z (is_open (row_of db))) as Hrun.
  { clear -Ht. intros ops. induction ops as [|[op now] ops IH]; intros db; cbn [channel2_run].
    - unfold sumZ. cbn [List.map foldr]. destruct (claimed_by _ _), (is_open _); cbn; lia.
    - pose proof (step_token token op now db Ht) as H1. pose proof (step_open op now db) as H2.
      destruct (channel2_step op now db) as [b db']. destruct (IH db') as [H3 H4].
      rewrite !sumZ_cons. lia. }
  destruct (Hrun ops db) as [H1 H2]. rewrite Hc in H1. rewrite Ho in H2. cbn in H1, H2. lia.
Qed.

End channel2.

(** ** The wrap-up lease *)

Section wrapup_lease.
Context `{JsonEngine} (harness sessionId : string).

(** The numbers of a state, as the engine prints and reads them. *)
Definition printable (s : WrapupInProgressState) : Prop :=
  numeral_ok (ws_acquiredAt s) ∧ numeral_ok (ws_expiresAt s) ∧ numeral_ok (ws_updatedAt s) ∧
  let p := ws_progress s in
  numeral_ok (wp_messagesToKeep p) ∧ numeral_ok (wp_anchorRawMessageCount p) ∧
  numeral_ok (wp_targetEligibleEndOrdinal p) ∧ numeral_ok (wp_lastCompartmentEnd p) ∧
  numeral_ok (wp_chunkIndex p) ∧ numeral_ok (wp_expectedChunks p).

Lemma wrapup_plain s : printable s → plain (wrapup_value s).
Proof.
  intros (H1 & H2 & H3 & H4 & H5 & H6 & H7 & H8 & H9). unfold wrapup_value.
  split; [|cbn [List.fold_right snd plain]; tauto].
  cbn [JsMap.keys fmap list_fmap fst]. apply (bool_decide_unpack (NoDup _)). vm_compute. reflexivity.
Qed.

(** The text of an object is not blank. *)
Lemma object_not_blank entries : plain (VObj entries) → is_empty (trim (stableStringify (VObj entries))) = false.
Proof.
  intros Hp. destruct (plain_normal _ _ (le_n _) Hp) as [Hn E]. rewrite E. cbn [normal] in *.
  pose proof (text_obj _ Hn) as Ht. unfold trim. rewrite Ht.
  rewrite trim_units_id.
  - done.
  - by intros u [= <-].
  - intros u Hu. rewrite last_cons, last_snoc in Hu. by injection Hu as <-.
Qed.

Lemma finite_field_normal entries k n : NoDup (JsMap.keys entries) → field entries k = VNum n → isFinite n = true →
  finite_field (match normal (VObj entries) with VObj e => e | _ => [] end) k = Some n.
Proof. intros Hd Hf Hn. unfold finite_field. rewrite normal_field, Hf by done. cbn. by rewrite Hn. Qed.

(** A stored state is read back as it was. *)
Lemma parse_wrapup s : printable s → ws_holderId s ≠ EmptyString →
  parseWrapupState (SqlText (stableStringify (wrapup_value s))) = Some s.
Proof.
  intros Hp Hh. pose proof (wrapup_plain s Hp) as Hplain. unfold parseWrapupState. cbn [text_cell mbind option_bind].
  rewrite (object_not_blank _ Hplain : is_empty (trim (stableStringify (wrapup_value s))) = false).
  rewrite (stable_roundtrip _ Hplain). cbn [mbind option_bind].
  destruct Hplain as [Hd _]. destruct Hp as ([H1 _] & [H2 _] & [H3 _] & [H4 _] & [H5 _] & [H6 _] & [H7 _] & [H8 _] & [H9 _]).
  unfold wrapup_value in *. cbn [isRecord normal mbind option_bind].
  match goal with |- wrapup_record ?e = _ => set (sorted := e) end.
  assert (∀ k n, field (match wrapup_value s with VObj e => e | _ => [] end) k = VNum n → isFinite n = true →
    finite_field sorted k = Some n) as Hf by (intros k n Hk Hn; by apply (finite_field_normal _ k n Hd)).
  assert (field sorted "holderId" = VStr (ws_holderId s)) as Eh by (apply (normal_field _ "holderId" Hd)).
  unfold wrapup_record. rewrite Eh. unfold nonempty.
  assert (is_empty (ws_holderId s) = false) as -> by by apply is_empty_false.
  cbn [mbind option_bind].
  rewrite (Hf "acquiredAt" (ws_acquiredAt s)), (Hf "expiresAt" (ws_expiresAt s)),
    (Hf "messagesToKeep" (wp_messagesToKeep (ws_progress s))),
    (Hf "anchorRawMessageCount" (wp_anchorRawMessageCount (ws_progress s))),
    (Hf "targetEligibleEndOrdinal" (wp_targetEligibleEndOrdinal (ws_progress s))),
    (Hf "lastCompartmentEnd" (wp_lastCompartmentEnd (ws_progress s))),
    (Hf "chunkIndex" (wp_chunkIndex (ws_progress s))), (Hf "expectedChunks" (wp_expectedChunks (ws_progress s))),
    (Hf "updatedAt" (ws_updatedAt s)) by done.
  cbn [mbind option_bind]. by destruct s as [? ? ? [] ?].
Qed.

(** What a process does with the lease. *)
Inductive wrapup_op :=
| wu_acquire (holderId : string) (progress : WrapupProgress)
| wu_update (holderId : string) (updates : WrapupProgress → WrapupProgress)
| wu_release (holderId : string)
| wu_get.

Inductive wrapup_answer :=
| wa_acquired (ok : bool) (state : WrapupInProgressState)
| wa_updated (state : option WrapupInProgressState)
| wa_state (state : option WrapupInProgressState)
| wa_released
| wa_error.

Definition answered {A} (f : A → wrapup_answer) (r : result sql_error A * database) : wrapup_answer * database :=
  (match r.1 with Ok a => f a | Err _ => wa_error end, r.2).

Definition wrapup_step (op : wrapup_op) (now : num) (db : database) : wrapup_answer * database :=
  match op with
  | wu_acquire h p => answered (fun a => wa_acquired a.1 a.2) (run (acquireWrapupInProgress harness sessionId h p now) db)
  | wu_update h f => answered wa_updated (run (updateWrapupInProgress sessionId h f now) db)
  | wu_release h => answered (fun _ => wa_released) (run (releaseWrapupInProgress sessionId h) db)
  | wu_get => answered wa_state (run (getWrapupInProgressState sessionId now) db)
  end.

Fixpoint wrapup_run (ops : list (wrapup_op * num)) (db : database) : list wrapup_answer * database :=
  match ops with
  | [] => ([], db)
  | (op, now) :: ops =>
      let '(a, db) := wrapup_step op now db in
      let '(answers, db) := wrapup_run ops db in (a :: answers, db)
  end.

(** An operation of a process that does not hold the lease, before it lapses. *)
Definition foreign_op (s : WrapupInProgressState) (e : wrapup_op * num) : Prop :=
  nltb e.2 (ws_expiresAt s) = true ∧
  match e.1 with
  | wu_acquire h _ | wu_update h _ | wu_release h => h ≠ ws_holderId s
  | wu_get => True
  end.

(** What such an operation is answered. *)
Definition refused (s : WrapupInProgressState) (a : wrapup_answer) : Prop :=
  match a with
  | wa_acquired ok state => ok = false ∧ state = s
  | wa_updated state => state = None
  | wa_state state => state = Some s
  | wa_released => True
  | wa_error => False
  end.

Lemma raw_present s db : readRawWrapupState sessionId db = Some s → ∃ r, db !! sessionId = Some r.
Proof. unfold readRawWrapupState. destruct (db !! sessionId) as [r|]; [by exists r|done]. Qed.

Lemma foreign_step s op now db : readRawWrapupState sessionId db = Some s → foreign_op s (op, now) →
  refused s (wrapup_step op now db).1 ∧ (wrapup_step op now db).2 = db.
Proof.
  intros Hs [Ht Ho]. destruct (raw_present s db Hs) as [r Hr]. cbn [fst snd] in Ht, Ho.
  assert (ensure_row harness sessionId db = db) as He by by apply (ensure_row_present _ _ _ r).
  assert (nleb (ws_expiresAt s) now = false) as Hle.
  { destruct (nleb (ws_expiresAt s) now) eqn:E; [|done]. exfalso. apply nleb_nle in E.
    pose proof (nltb_true_nle _ _ Ht) as Hlt. by apply (nltb_not_nle now (ws_expiresAt s)). }
  destruct op as [h p|h f|h|]; cbn [wrapup_step]; unfold answered, run, acquireWrapupInProgress, updateWrapupInProgress,
    releaseWrapupInProgress, getWrapupInProgressState, mbind, M_bind, query, access, transaction;
    cbn [w_db w_pauses w_reg head from_option id p_commits no_pause foldl p_fault fst snd mret M_ret];
    rewrite ?He, Hs, ?Ht; cbn [andb negb].
  - destruct (String.eqb_spec (ws_holderId s) h) as [Heq|Hne]; [congruence|]. cbn. by split.
  - destruct (String.eqb_spec (ws_holderId s) h) as [Heq|Hne]; [congruence|]. cbn. by split.
  - destruct (String.eqb_spec (ws_holderId s) h) as [Heq|Hne]; [congruence|]. cbn. by split.
  - by split.
Qed.

(** What an acquisition leaves behind. *)
Lemma acquired_state h p now db s db' : h ≠ EmptyString →
  wrapup_step (wu_acquire h p) now db = (wa_acquired true s, db') → printable s →
  ws_holderId s = h ∧ ws_expiresAt s = nadd now WRAPUP_IN_PROGRESS_TTL_MS ∧
  readRawWrapupState sessionId db' = Some s.
Proof.
  intros Hh. cbn [wrapup_step]. unfold answered, run, acquireWrapupInProgress, access, transaction, set_wrapup.
  cbn [w_db w_pauses w_reg head from_option id p_commits no_pause foldl p_fault fst snd].
  destruct (ensure_row_Some harness sessionId db) as [r Hr].
  rewrite (update_row_Some _ _ _ _ r) by done. change (always r) with true. cbv iota.
  set (next := {| ws_holderId := h |}).
  assert (∀ X : wrapup_answer * database,
    X = (wa_acquired true next, <[sessionId := set_columns [("wrapup_in_progress_state"%string, SqlText (stableStringify (wrapup_value next)))] r]>
           (ensure_row harness sessionId db)) →
    X = (wa_acquired true s, db') → printable s →
    ws_holderId s = h ∧ ws_expiresAt s = nadd now WRAPUP_IN_PROGRESS_TTL_MS ∧ readRawWrapupState sessionId db' = Some s) as Hdo.
  { intros X -> HX Hp. assert (s = next) as -> by (by injection HX). pose proof (f_equal snd HX) as Hd. cbn [snd] in Hd.
    subst db'. clear HX. split_and!; [done|done|]. unfold readRawWrapupState. rewrite lookup_insert_eq.
    cbn [mbind option_bind]. rewrite column_set. cbn [assigned String.eqb Ascii.eqb Bool.eqb from_option id].
    by apply parse_wrapup. }
  destruct (readRawWrapupState sessionId (ensure_row harness sessionId db)) as [c|]; [|by apply Hdo].
  destruct (nltb now (ws_expiresAt c) && _); [by intros [=]|]. by apply Hdo.
Qed.

(** C27: While a wrap-up lease lasts nobody else gets or changes it: whatever processes
    other than its holder try before it expires, in any order, each acquisition is
    refused with the holder's state, each update and release leaves it, and every
    reader sees it.  Once it has lapsed the next acquisition succeeds. *)
Theorem wrapup_lease_exclusive h p now db s db' ops :
  h ≠ EmptyString → wrapup_step (wu_acquire h p) now db = (wa_acquired true s, db') → printable s →
  Forall (foreign_op s) ops →
  Forall (refused s) (wrapup_run ops db').1 ∧ (wrapup_run ops db').2 = db' ∧
  readRawWrapupState sessionId db' = Some s ∧
  ∀ h' p' later, nltb later (ws_expiresAt s) = false →
    ∃ s', (wrapup_step (wu_acquire h' p') later (wrapup_run ops db').2).1 = wa_acquired true s' ∧ ws_holderId s' = h'.
Proof.
  intros Hh Ha Hp Hops. destruct (acquired_state h p now db s db' Hh Ha Hp) as (_ & _ & Hs). clear Ha.
  assert (Forall (refused s) (wrapup_run ops db').1 ∧ (wrapup_run ops db').2 = db') as [H1 H2].
  { induction Hops as [|[op t] ops Hop Hops IH]; [done|]. cbn [wrapup_run].
    destruct (foreign_step s op t db' Hs Hop) as [Hr Hd]. destruct (wrapup_step op t db') as [a db2]. cbn [fst snd] in *.
    subst db2. destruct (wrapup_run ops db') as [answers db3]. cbn [fst snd] in *. destruct IH. split; [by constructor|done]. }
  split_and!; [done..|]. intros h' p' later Hl. rewrite H2. destruct (raw_present s db' Hs) as [r Hr].
  eexists. cbn [wrapup_step]. unfold answered, run, acquireWrapupInProgress, access, transaction, set_wrapup.
  cbn [w_db w_pauses w_reg head from_option id p_commits no_pause foldl p_fault fst snd].
  rewrite (ensure_row_present _ _ _ r), Hs, Hl by done. cbn [andb].
  rewrite (update_row_Some _ _ _ _ r) by done. change (always r) with true. cbn. done.
Qed.

End wrapup_lease.

(** ** The drain budget *)

Section drain.
Context (harness sessionId : string).

(** A row whose drain columns are whole numbers: the start of the window, the tokens
    drained in it, when the latch was set and when the historian failed. *)
Record drain_row (r : row) (start tokens latch failed : Z) : Prop := {
  dr_start : column r "protected_tail_drain_window_started_at" = SqlNum (nofZ start);
  dr_tokens : column r "protected_tail_drain_tokens" = SqlNum (nofZ tokens);
  dr_latch : column r "emergency_drain_active" = SqlNum (nofZ latch);
  dr_failed : column r "historian_drain_failure_at" = SqlNum (nofZ failed);
  dr_bounds : 0 ≤ start < 2 ^ 50 ∧ 0 ≤ tokens < 2 ^ 50 ∧ 0 ≤ latch < 2 ^ 50 ∧ 0 ≤ failed < 2 ^ 50
}.

Lemma numberOr_nofZ n d : 0 ≤ n < 2 ^ 50 → numberOr (SqlNum (nofZ n)) d = nofZ n.
Proof. intros Hn. cbn. destruct (isFinite_nofZ n) as [-> _]; [lia|done]. Qed.

Lemma bind_nofZ n : 0 ≤ n < 2 ^ 53 → bind_num (nofZ n) = SqlNum (nofZ n).
Proof. intros Hn. unfold bind_num. by destruct (isFinite_nofZ n) as [_ ->]. Qed.

Lemma drain_meta r s k l f : drain_row r s k l f →
  let m := toProtectedTailMeta (Some r) in
  protectedTailDrainWindowStartedAt m = nofZ s ∧ protectedTailDrainTokens m = nofZ k ∧
  emergencyDrainActive m = nofZ l ∧ historianDrainFailureAt m = nofZ f.
Proof.
  intros [Hs Hk Hl Hf Hb]. cbn zeta. cbn [toProtectedTailMeta protectedTailDrainWindowStartedAt protectedTailDrainTokens
    emergencyDrainActive historianDrainFailureAt]. rewrite Hs, Hk, Hl, Hf, !numberOr_nofZ by lia. done.
Qed.

(** The tokens counted once the window has been rolled. *)
Definition rolled (t s k : Z) : Z := if 600000 <? t - s then 0 else k.

(** Comparisons with the difference of two whole numbers. *)
Lemma nltb_gap a t s : 0 ≤ a < 2 ^ 53 → 0 ≤ t < 2 ^ 53 → 0 ≤ s < 2 ^ 53 →
  nltb (nofZ a) (nsub (nofZ t) (nofZ s)) = (a <? t - s).
Proof.
  intros Ha Ht Hs. rewrite (nofZ_dyadic t), (nofZ_dyadic s). destruct (decide (s ≤ t)) as [Hle|Hgt].
  - rewrite sub_dyadic, <- nofZ_dyadic by lia. by rewrite nltb_nofZ by lia.
  - destruct (sub_dyadic_neg t s 0) as (p & Ep & ->); [lia..|]. rewrite dyadic_neg by lia.
    replace (a <? t - s) with false by lia. destruct a as [|a|a]; [done| |lia].
    rewrite nofZ_dyadic, dyadic_pos by lia. done.
Qed.

Lemma gap_nltb b t s : 0 < b < 2 ^ 53 → 0 ≤ t < 2 ^ 53 → 0 ≤ s < 2 ^ 53 →
  nltb (nsub (nofZ t) (nofZ s)) (nofZ b) = (t - s <? b).
Proof.
  intros Hb Ht Hs. rewrite (nofZ_dyadic t), (nofZ_dyadic s). destruct (decide (s ≤ t)) as [Hle|Hgt].
  - rewrite sub_dyadic, <- nofZ_dyadic by lia. by rewrite nltb_nofZ by lia.
  - destruct (sub_dyadic_neg t s 0) as (p & Ep & ->); [lia..|]. rewrite dyadic_neg by lia.
    replace (t - s <? b) with true by lia. destruct b as [|b|b]; [lia| |lia].
    rewrite nofZ_dyadic, dyadic_pos by lia. done.
Qed.

(** An update of a row in the table, all of whose values are numbers. *)
Lemma update_whole r sets db : db !! sessionId = Some r → null_violation (sets r) = None →
  update_row sessionId always sets db = Ok (true, <[sessionId := set_columns (sets r) r]> db).
Proof. intros Hr Hn. by rewrite (update_row_Some _ _ _ _ r), Hn. Qed.

Lemma roll_spec r s k l f t db : drain_row r s k l f → 0 ≤ t < 2 ^ 50 → db !! sessionId = Some r →
  ∃ db' r', roll_window sessionId (nofZ t) db = Ok db' ∧ db' !! sessionId = Some r' ∧
    drain_row r' (if 600000 <? t - s then t else s) (rolled t s k) l f.
Proof.
  intros Hd Ht Hr. destruct (drain_meta r s k l f Hd) as (Es & _). pose proof (dr_bounds _ _ _ _ _ Hd) as Hb.
  unfold roll_window. rewrite Hr, Es. unfold DRAIN_WINDOW_MS. change (10 * 60 * 1000) with 600000.
  rewrite nltb_gap by lia. unfold rolled. destruct (600000 <? t - s); [|by exists db, r].
  rewrite (update_whole r) by (done || (rewrite bind_nofZ by lia; done)). cbn [mbind result_bind].
  eexists _, _. split; [done|]. split; [by rewrite lookup_insert_eq|].
  destruct Hd as [_ _ Hl Hf _]. split; rewrite ?column_set; cbn [assigned String.eqb Ascii.eqb Bool.eqb from_option id];
    [by rewrite bind_nofZ by lia|done|done|done|lia].
Qed.

(** The latch after a call, of a whole time. *)
Lemma latch_whole a t l : 0 ≤ t < 2 ^ 50 → 0 ≤ l < 2 ^ 50 →
  ∃ l', 0 ≤ l' < 2 ^ 50 ∧ next_latch a (nofZ t) (nofZ l) = nofZ l'.
Proof.
  intros Ht Hl. unfold next_latch. repeat case_match; solve [by exists t | by exists l | by exists 0].
Qed.

Lemma latch_spec r s k l f l' db : drain_row r s k l f → 0 ≤ l' < 2 ^ 50 → db !! sessionId = Some r →
  ∃ db' r', set_latch sessionId (nofZ l') (nofZ l) db = Ok db' ∧ db' !! sessionId = Some r' ∧ drain_row r' s k l' f.
Proof.
  intros Hd Hl' Hr. pose proof (dr_bounds _ _ _ _ _ Hd) as Hb. unfold set_latch. rewrite neqb_nofZ by lia.
  destruct (l' =? l) eqn:E; [apply Z.eqb_eq in E as ->; by exists db, r|].
  rewrite (update_whole r) by (done || (rewrite bind_nofZ by lia; done)). cbn [mbind result_bind].
  eexists _, _. split; [done|]. split; [by rewrite lookup_insert_eq|].
  destruct Hd as [Hs Hk _ Hf _]. split; rewrite ?column_set; cbn [assigned String.eqb Ascii.eqb Bool.eqb from_option id];
    [done|done|by rewrite bind_nofZ by lia|done|lia].
Qed.

(** The share of a request of [n] tokens when [k] of [b] are drained and a run takes at
    most [c]: what fits, or a whole run when nothing fits but the latch is set and the
    historian has not just failed. *)
Definition share (n c b k : Z) (latched backing_off : bool) : Z * bool :=
  let fits := Z.min (Z.min n c) (Z.max 0 (b - k)) in
  if (fits =? 0) && latched && negb backing_off then (Z.min n c, true) else (fits, false).

Definition backing_off (t f : Z) : bool := (0 <? f) && (t - f <? 60000).

Lemma share_spec a r s k l f t n c b l' : drain_row r s k l f → 0 ≤ t < 2 ^ 50 → 0 ≤ n < 2 ^ 50 → 0 ≤ c < 2 ^ 50 →
  0 ≤ b < 2 ^ 50 → 0 ≤ l' < 2 ^ 50 → da_perRunCap a = nofZ c →
  protectedTailWindowBudget (da_usagePercentage a) (da_usable a) (da_perRunCap a) = nofZ b →
  drain_share a (nofZ t) (nofZ n) (nofZ l') (toProtectedTailMeta (Some r)) =
    (nofZ (share n c b k (0 <? l') (backing_off t f)).1, (share n c b k (0 <? l') (backing_off t f)).2).
Proof.
  intros Hd Ht Hn Hc Hb Hl' Ec Eb. destruct (drain_meta r s k l f Hd) as (_ & Ek & _ & Ef).
  pose proof (dr_bounds _ _ _ _ _ Hd) as Hbd. unfold drain_share. rewrite Eb, Ek, Ef, Ec.
  unfold EMERGENCY_DRAIN_FAILURE_BACKOFF_MS. rewrite !nltb_nofZ, gap_nltb by lia.
  rewrite (nmin_nofZ n c), nmax_sub_nofZ, nmin_nofZ by lia. fold (backing_off t f).
  assert (nleb (nofZ (Z.min (Z.min n c) (Z.max 0 (b - k)))) (nofZ 0) = (Z.min (Z.min n c) (Z.max 0 (b - k)) =? 0)) as ->.
  { destruct (Z.eqb_spec (Z.min (Z.min n c) (Z.max 0 (b - k))) 0) as [->|Hne]; [done|].
    destruct (nleb _ _) eqn:E; [|done]. exfalso. apply nleb_nle in E. revert E. apply nltb_not_nle.
    rewrite nltb_nofZ by lia. lia. }
  unfold share. by destruct (_ && _ && _).
Qed.

(** Reserving drain tokens on whole numbers always answers, and grants what the
    budget of the ten-minute window leaves of the request and of a run, starting the
    window anew when it is over; only while the emergency latch is set and no failure of
    the historian is a minute old does it grant a run beyond a spent budget, and says
    so.  The tokens granted are the ones counted. *)
Theorem drain_budget_respected a db r t s k l f n c b :
  db !! sessionId = Some r → drain_row r s k l f → k < 2 ^ 49 → 0 ≤ t < 2 ^ 50 → 0 < n < 2 ^ 49 → 0 ≤ c < 2 ^ 50 →
  0 ≤ b < 2 ^ 50 → da_trueRawTokens a = nofZ n → da_perRunCap a = nofZ c →
  protectedTailWindowBudget (da_usagePercentage a) (da_usable a) (da_perRunCap a) = nofZ b →
  let k0 := rolled t s k in
  ∃ l' res db' r', next_latch a (nofZ t) (nofZ l) = nofZ l' ∧
    run (reserveProtectedTailDrainTokens harness sessionId a (nofZ t)) db = (Ok res, db') ∧
    let q := (share n c b k0 (0 <? l') (backing_off t f)).1 in
    rr_ok res = (0 <? q) ∧ rr_reservedTokens res = nofZ q ∧ db' !! sessionId = Some r' ∧
    drain_row r' (if (if 600000 <? t - s then t else s) =? 0 then (if 0 <? q then t else 0)
                  else if 600000 <? t - s then t else s) (k0 + q) l' f ∧
    0 ≤ q ≤ n ∧ q ≤ c ∧ (rr_overQuotaBypass res = false → k0 + q ≤ Z.max k0 b) ∧
    (rr_overQuotaBypass res = true → b ≤ k0 ∧ q = Z.min n c ∧ 0 < l' ∧ backing_off t f = false).
Proof.
  intros Hr Hd Hk Ht Hn Hc Hb En Ec Eb. cbn zeta. pose proof (dr_bounds _ _ _ _ _ Hd) as Hbd.
  destruct (latch_whole a t l) as (l' & Hl' & El); [lia..|]. exists l'.
  destruct (roll_spec r s k l f t db Hd Ht Hr) as (db1 & r1 & E1 & Hr1 & Hd1).
  destruct (latch_spec r1 _ _ l f l' db1 Hd1 Hl' Hr1) as (db2 & r2 & E2 & Hr2 & Hd2).
  pose proof (share_spec a r1 _ _ l f t n c b l' Hd1 Ht ltac:(lia) Hc Hb Hl' Ec Eb) as Es.
  pose proof (dr_bounds _ _ _ _ _ Hd2) as Hbd2. set (s' := if 600000 <? t - s then t else s) in *.
  set (k0 := rolled t s k) in *. assert (k0 < 2 ^ 49) by (unfold k0, rolled; case_match; lia).
  set (q := (share n c b k0 (0 <? l') (backing_off t f)).1) in *.
  set (bypass := (share n c b k0 (0 <? l') (backing_off t f)).2) in *.
  assert (0 ≤ q ≤ n ∧ q ≤ c ∧ (bypass = false → k0 + q ≤ Z.max k0 b) ∧
    (bypass = true → 0 < q → b ≤ k0 ∧ q = Z.min n c ∧ 0 < l' ∧ backing_off t f = false)) as (Hq & Hqc & Hno & Hyes).
  { unfold q, bypass, share. destruct (_ && _ && _) eqn:E; cbn [fst snd]; split_and!; try lia; try done.
    intros _ Hpos. apply andb_prop in E as [E E3]. apply andb_prop in E as [E4 E5]. apply negb_true_iff in E3.
    split_and!; [lia..|done]. }
  assert (run (reserveProtectedTailDrainTokens harness sessionId a (nofZ t)) db =
    (let '(r0, w) := access (reserve_in harness sessionId a (nofZ t) (nofZ n))
       {| w_db := db; w_reg := no_registries; w_pauses := [] |} in (r0, w_db w))) as Erun.
  { unfold run, reserveProtectedTailDrainTokens. rewrite En, nfloor_nofZ by lia.
    assert (nmax (nofZ 0) (nofZ n) = nofZ n) as ->.
    { rewrite !nofZ_dyadic, nmax_dyadic by lia. f_equal. lia. }
    rewrite neqb_nofZ by lia. by replace (n =? 0) with false by lia. }
  rewrite Erun. unfold access, transaction.
  cbn [w_db w_pauses w_reg head from_option id p_commits no_pause foldl p_fault].
  unfold reserve_in. rewrite (ensure_row_present _ _ _ r) by done. rewrite E1. cbn [mbind result_bind].
  destruct (drain_meta r1 _ _ _ _ Hd1) as (_ & _ & El1 & _). rewrite Hr1, El1, El, E2. cbn [mbind result_bind].
  rewrite Es. cbn iota beta zeta.
  assert (nleb (nofZ q) (nofZ 0) = negb (0 <? q)) as ->.
  { destruct (Z.ltb_spec 0 q); cbn [negb].
    - destruct (nleb _ _) eqn:E; [|done]. exfalso. apply nleb_nle in E. revert E. apply nltb_not_nle.
      rewrite nltb_nofZ by lia. lia.
    - by replace q with 0 by lia. }
  destruct (Z.ltb_spec 0 q) as [Hpos|Hzero]; cbn [negb].
  - rewrite (update_whole r2).
    + eexists _, _, _. split; [done|]. cbn [mbind result_bind w_db rr_ok rr_reservedTokens rr_overQuotaBypass].
      split; [done|]. split; [done|]. split; [done|]. split; [by rewrite lookup_insert_eq|].
      split; [|split_and!; [lia|lia|lia|exact Hno|intros HB; by apply Hyes]].
      destruct Hd2 as [Hs2 Hk2 Hl2 Hf2 _]. split; rewrite ?column_set;
        cbn [assigned String.eqb Ascii.eqb Bool.eqb from_option id]; try done.
      * rewrite Hs2. unfold zero. cbn [sql_eq]. rewrite neqb_nofZ by lia. destruct (s' =? 0); [|done].
        by rewrite bind_nofZ by lia.
      * rewrite Hk2. cbn [sql_coalesce]. rewrite bind_nofZ by lia. unfold sql_add. cbn [sql_num].
        rewrite !nofZ_dyadic, add_dyadic, <- nofZ_dyadic by lia. by rewrite bind_nofZ by lia.
      * split_and!; try lia; destruct (s' =? 0); lia.
    + done.
    + destruct Hd2 as [Hs2 Hk2 _ _ _]. rewrite Hs2, Hk2. unfold zero. cbn [sql_eq sql_coalesce].
      rewrite neqb_nofZ, !bind_nofZ by lia. unfold sql_add. cbn [sql_num].
      rewrite !(nofZ_dyadic k0), (nofZ_dyadic q), add_dyadic, <- nofZ_dyadic, bind_nofZ by lia. by destruct (s' =? 0).
  - assert (q = 0) as Eq0 by lia. eexists _, _, _. split; [done|]. cbn [w_db]. split; [done|]. rewrite Eq0, Z.add_0_r.
    cbn [quota_exhausted rr_ok rr_reservedTokens rr_overQuotaBypass]. split; [done|]. split; [done|]. split; [done|].
    split; [|split_and!; [lia|lia|lia|intros; lia|done]]. destruct (s' =? 0) eqn:E0; [|done]. by replace 0 with s' by lia.
Qed.

End drain.

(** ** Witnesses *)

Lemma channel2_delivers_once_witness :
  let ops := [(c_cas ch_none ch_pending, nofZ 1); (c_claim "a", nofZ 2); (c_heal, nofZ 700000);
              (c_cas ch_none ch_pending, nofZ 700001); (c_claim "b", nofZ 700002); (c_settle ch_delivered "a", nofZ 700003);
              (c_settle ch_delivered "b", nofZ 700004)]%string in
  (channel2_run "opencode" "s" ops ∅).*2 = [true; true; true; true; true; false; true] ∧
  sumZ (settles_by "b") (channel2_run "opencode" "s" ops ∅) ≤ sumZ (claims_by "b") (channel2_run "opencode" "s" ops ∅).
Proof.
  intros ops. split; [vm_compute; reflexivity|].
  destruct (channel2_delivers_once "opencode" "s" ops ∅ "b") as [E _];
    [done|vm_compute; reflexivity|vm_compute; reflexivity|exact E].
Defined.

Definition sample_progress : WrapupProgress :=
  {| wp_messagesToKeep := nofZ 10; wp_anchorRawMessageCount := nofZ 200; wp_targetEligibleEndOrdinal := nofZ 190;
     wp_lastCompartmentEnd := nofZ 120; wp_chunkIndex := nofZ 1; wp_expectedChunks := nofZ 4 |}.

Definition sample_wrapup : WrapupInProgressState :=
  {| ws_holderId := "A"; ws_acquiredAt := nofZ 1000; ws_expiresAt := nofZ 301000; ws_progress := sample_progress;
     ws_updatedAt := nofZ 1000 |}.

Definition sample_wrapup_db : database :=
  (@wrapup_step integer_engine "opencode" "s" (wu_acquire "A" sample_progress) (nofZ 1000) ∅).2.

Lemma wrapup_lease_exclusive_witness :
  (@wrapup_step integer_engine "opencode" "s" (wu_acquire "A" sample_progress) (nofZ 1000) ∅).1 = wa_acquired true sample_wrapup ∧
  (@wrapup_run integer_engine "opencode" "s" [(wu_acquire "B" sample_progress, nofZ 2000); (wu_release "B", nofZ 300000)]
     sample_wrapup_db).2 = sample_wrapup_db.
Proof.
  split; [vm_compute; reflexivity|].
  edestruct (@wrapup_lease_exclusive integer_engine "opencode" "s" "A" sample_progress (nofZ 1000) ∅ sample_wrapup
    sample_wrapup_db [(wu_acquire "B" sample_progress, nofZ 2000); (wu_release "B", nofZ 300000)]) as (_ & E & _);
    [| | | |exact E].
  - done.
  - apply injective_projections; [vm_compute; reflexivity|reflexivity].
  - unfold printable, numeral_ok. cbn zeta. split_and!; vm_compute; reflexivity.
  - constructor; [|constructor; [|constructor]]; (split; [vm_compute; reflexivity|done]).
Defined.

Definition sample_args (usage : Z) : drain_args :=
  {| da_runId := "r1"; da_trueRawTokens := nofZ 30000; da_usagePercentage := nofZ usage; da_usable := nofZ 200000;
     da_perRunCap := nofZ 20000; da_executeThresholdPercentage := nofZ 65 |}.

Lemma drain_budget_respected_witness :
  ∃ res db', run (reserveProtectedTailDrainTokens "opencode" "s" (sample_args 90) (nofZ 5000)) {["s" := new_row "opencode"]} = (Ok res, db') ∧
    (rr_overQuotaBypass res = false → 0 + (share 30000 20000 70000 0 true false).1 ≤ Z.max 0 70000).
Proof.
  destruct (drain_budget_respected "opencode" "s" (sample_args 90) {["s" := new_row "opencode"]} (new_row "opencode")
    5000 0 0 0 0 30000 20000 70000) as (l' & res & db' & r' & El & Er & _ & _ & _ & _ & _ & _ & Hno & _);
    [reflexivity|split; [vm_compute; reflexivity..|lia]|lia|lia|lia|lia|lia|reflexivity|reflexivity|vm_compute; reflexivity|].
  exists res, db'. split; [exact Er|]. intros Hb. vm_compute. discriminate.
Defined.

(** The rollback of a reservation made in an earlier window is credited to the current
    one: of 20000 tokens drained in it, none are counted afterwards. *)
Definition rollback_script : M num :=
  first ← reserveProtectedTailDrainTokens "opencode" "s" (sample_args 50) (nofZ 1000);
  reserveProtectedTailDrainTokens "opencode" "s" (sample_args 50) (nofZ 700000);;
  rollbackProtectedTailDrainReservation "opencode" (rr_reservation first);;
  meta ← loadProtectedTailMeta "opencode" "s";
  mret (protectedTailDrainTokens meta).

Example rollback_credits_other_window : (run rollback_script ∅).1 = Ok (nofZ 0).
Proof. vm_compute. reflexivity. Qed.
