(* ===== verification/SessionBlobs.v ===== *)
(** * Lists in session rows

    Models the columns of packages/plugin/src/features/magic-context/storage-meta-persisted.ts
    that hold JSON text: the lists several processes extend by compare-and-swap (note
    anchors, search decisions, the ids of stripped messages, blank decisions) and the
    markers one process leaves for another.  A list entry is the parsed value itself, so
    fields the code does not know survive a rewrite.  Log lines are left out. *)

From S2P Require Import Prelude JsNumber JsExact JsMap JsValue JsString JsJson ModelKeys ModelLimits Access SessionRow SessionMeta.

Definition CAS_RETRY_LIMIT : nat := 5.

Definition CAS_JSON_ARRAY_COLUMNS : list string :=
  ["note_nudge_anchors"; "auto_search_hint_decisions"; "merged_reasoning_stripped_ids";
   "stale_reduce_stripped_ids"; "processed_image_stripped_ids"]%string.

Section blobs.
Context `{JsonEngine} (harness : string).

(** ** Entries *)

(** A string field of an entry. *)
Definition str_of (v : value) (key : string) : option string :=
  match v with VObj record => match field record key with VStr s => Some s | _ => None end | _ => None end.

Definition nonempty_str (v : value) (key : string) : bool :=
  match str_of v key with Some s => negb (is_empty s) | None => false end.

Definition isValidNoteNudgeAnchor (v : value) : bool := nonempty_str v "messageId" && nonempty_str v "text".

Definition AUTO_SEARCH_NO_HINT_REASONS : list string :=
  ["below-threshold"; "timeout"; "empty"; "error"; "stacked"; "too-short"; "policy-reset"]%string.

Definition valid_fragment (v : value) : bool :=
  match v with
  | VObj record =>
      match field record "id", field record "hash" with
      | VNum n, VStr _ => is_integral n
      | _, _ => false
      end
  | _ => false
  end.

Definition isValidAutoSearchHintDecision (v : value) : bool :=
  match v with
  | VObj record =>
      nonempty_str v "messageId" &&
      match field record "nativeBlockId" with VUndefined | VStr _ => true | _ => false end &&
      match field record "decision" with
      | VStr d =>
          if String.eqb d "hint" then
            nonempty_str v "text" &&
            match field record "memoryFragments" with
            | VUndefined => true
            | VArr fragments => forallb valid_fragment fragments
            | _ => false
            end
          else if String.eqb d "no-hint" then
            match str_of v "reason" with
            | Some reason => bool_decide (reason ∈ AUTO_SEARCH_NO_HINT_REASONS)
            | None => false
            end
          else false
      | _ => false
      end
  | _ => false
  end.

Definition isStrippedId (v : value) : bool := match v with VStr _ => true | _ => false end.

(** A text that is no JSON array counts as an empty one. *)
Definition parseJsonArray (json : string) (validator : value → bool) : list value :=
  if is_empty json then []
  else match json_parse json with Some (VArr items) => List.filter validator items | _ => [] end.

(** ** Compare and swap *)

(** The cell of a session's column; NULL when there is no row. *)
Definition cell_of (sessionId c : string) (db : database) : cell :=
  match db !! sessionId with Some r => column r c | None => SqlNull end.

Definition swap_cell (sessionId c : string) (from : cell) (to : string) : M bool :=
  access (update_row sessionId (fun r => sql_is (column r c) from) (fun _ => [(c, SqlText to)])).

Section cas.
Context {S : Type} (validator : value → bool) (mutate : list value → option (list value) * S).

(** [mutate] gives the next list, or none to leave it, and what its closure stages; the
    stage of the last attempt is returned. *)
Fixpoint cas_loop (attempts : nat) (sessionId c : string) (staged : option S) : M (bool * option S) :=
  match attempts with
  | O => mret (false, staged)
  | Datatypes.S attempts =>
      raw ← query (cell_of sessionId c);
      let currentBlob := match raw with SqlText s => s | _ => "[]"%string end in
      let '(next, stage) := mutate (parseJsonArray currentBlob validator) in
      match next with
      | None => mret (true, Some stage)
      | Some next =>
          let nextBlob := stableStringify (VArr next) in
          if String.eqb nextBlob currentBlob then mret (true, Some stage)
          else
            changed ← swap_cell sessionId c raw nextBlob;
            if changed : bool then mret (true, Some stage) else cas_loop attempts sessionId c (Some stage)
      end
  end.

Definition casUpdateJsonArrayColumn (ensureRow : bool) (sessionId c : string) : M (bool * option S) :=
  if negb (bool_decide (c ∈ CAS_JSON_ARRAY_COLUMNS)) then throw invalid_record
  else if ensureRow then
    write (ensure_row harness sessionId);;
    cas_loop CAS_RETRY_LIMIT sessionId c None
  else
    exists_ ← query (fun db => is_some (db !! sessionId));
    if negb exists_ then mret (true, None) else cas_loop CAS_RETRY_LIMIT sessionId c None.

End cas.

(** ** Anchors of note nudges *)

Definition getNoteNudgeAnchors (sessionId : string) : M (list value) :=
  query (fun db => match cell_of sessionId "note_nudge_anchors" db with
                   | SqlText s => parseJsonArray s isValidNoteNudgeAnchor
                   | _ => []
                   end).

Definition has_str (v : value) (key s : string) : bool :=
  match str_of v key with Some t => String.eqb t s | None => false end.

Definition new_anchor (messageId text : string) : value :=
  VObj [("messageId", VStr messageId); ("text", VStr text)]%string.

Inductive delivery_plan := plan_appended | plan_present | plan_conflict.

(** The same anchor, another one of the message, or a new one. *)
Definition plan_anchor (messageId text : string) (current : list value) : option (list value) * delivery_plan :=
  if existsb (fun a => has_str a "messageId" messageId && has_str a "text" text) current then (None, plan_present)
  else if existsb (fun a => has_str a "messageId" messageId) current then (None, plan_conflict)
  else (Some (current ++ [new_anchor messageId text]), plan_appended).

Definition appendNoteNudgeAnchor (sessionId messageId text : string) : M bool :=
  if is_empty messageId || is_empty text then mret false
  else
    r ← casUpdateJsonArrayColumn isValidNoteNudgeAnchor (plan_anchor messageId text) true sessionId "note_nudge_anchors";
    mret (fst r).

Inductive NoteNudgeDeliveryOutcome := nd_appended | nd_already_present | nd_conflict | nd_cas_exhausted.

Definition deliverNoteNudgeAtomic (sessionId messageId text : string) : M NoteNudgeDeliveryOutcome :=
  r ← casUpdateJsonArrayColumn isValidNoteNudgeAnchor (plan_anchor messageId text) true sessionId "note_nudge_anchors";
  let finish outcome :=
    access (update_row sessionId always (fun _ =>
      [("note_nudge_trigger_pending", zero); ("note_nudge_trigger_message_id", empty_text)]%string));;
    mret outcome in
  match r with
  | (true, Some plan_appended) => finish nd_appended
  | (true, Some plan_present) => finish nd_already_present
  | (true, Some plan_conflict) => mret nd_conflict
  | (true, None) | (false, _) => mret nd_cas_exhausted
  end.

(** The entries of the visible messages, and how many others there were. *)
Definition keep_visible (visible : gset string) (current : list value) : option (list value) * Z :=
  let next := List.filter (fun a => match str_of a "messageId" with
                                    | Some id => bool_decide (id ∈ visible) | None => false end) current in
  let pruned := lengthZ current - lengthZ next in
  (if 0 <? pruned then Some next else None, pruned).

Definition drop_message (messageId : string) (current : list value) : option (list value) * bool :=
  let next := List.filter (fun a => negb (has_str a "messageId" messageId)) current in
  let removed := negb (lengthZ next =? lengthZ current) in
  (if removed then Some next else None, removed).

Definition pruneNoteNudgeAnchors (sessionId : string) (visible : gset string) : M Z :=
  r ← casUpdateJsonArrayColumn isValidNoteNudgeAnchor (keep_visible visible) true sessionId "note_nudge_anchors";
  mret (default 0 (snd r)).

Definition removeNoteNudgeAnchorByMessageId (sessionId messageId : string) : M bool :=
  r ← casUpdateJsonArrayColumn isValidNoteNudgeAnchor (drop_message messageId) false sessionId "note_nudge_anchors";
  mret (fst r && default false (snd r)).

(** ** Decisions of the automatic search *)

Definition getAutoSearchHintDecisions (sessionId : string) : M (list value) :=
  query (fun db => match cell_of sessionId "auto_search_hint_decisions" db with
                   | SqlText s => parseJsonArray s isValidAutoSearchHintDecision
                   | _ => []
                   end).

(** The first decision of the message with the block id set, unless it has it. *)
Fixpoint set_block (messageId nativeBlockId : string) (current : list value) : option (list value) :=
  match current with
  | [] => None
  | v :: current =>
      if has_str v "messageId" messageId then
        match v with
        | VObj record =>
            if has_str v "nativeBlockId" nativeBlockId then None
            else Some (VObj (JsMap.set record "nativeBlockId"%string (VStr nativeBlockId)) :: current)
        | _ => None
        end
      else next ← set_block messageId nativeBlockId current; Some (v :: next)
  end.

Definition recordAutoSearchHintNativeBlockId (sessionId messageId nativeBlockId : string) : M unit :=
  casUpdateJsonArrayColumn isValidAutoSearchHintDecision (fun current => (set_block messageId nativeBlockId current, ()))
    false sessionId "auto_search_hint_decisions";;
  mret ().

Inductive AppendAutoSearchHintOutcome :=
| ah_appended (decision : value) | ah_already_present (decision : value) | ah_cas_exhausted.

Definition plan_decision (entry : value) (messageId : string) (current : list value)
    : option (list value) * AppendAutoSearchHintOutcome :=
  match List.find (fun d => has_str d "messageId" messageId) current with
  | Some existing => (None, ah_already_present existing)
  | None => (Some (current ++ [entry]), ah_appended entry)
  end.

Definition appendAutoSearchHintDecision (sessionId : string) (entry : value) : M AppendAutoSearchHintOutcome :=
  match str_of entry "messageId" ≫= nonempty with
  | None => mret ah_cas_exhausted
  | Some messageId =>
      r ← casUpdateJsonArrayColumn isValidAutoSearchHintDecision (plan_decision entry messageId) true sessionId
            "auto_search_hint_decisions";
      mret (match r with (true, Some outcome) => outcome | _ => ah_cas_exhausted end)
  end.

Definition pruneAutoSearchHintDecisions (sessionId : string) (visible : gset string) : M Z :=
  r ← casUpdateJsonArrayColumn isValidAutoSearchHintDecision (keep_visible visible) true sessionId
        "auto_search_hint_decisions";
  mret (default 0 (snd r)).

Definition removeAutoSearchHintDecisionByMessageId (sessionId messageId : string) : M bool :=
  r ← casUpdateJsonArrayColumn isValidAutoSearchHintDecision (drop_message messageId) false sessionId
        "auto_search_hint_decisions";
  mret (fst r && default false (snd r)).

(** ** Ids of stripped messages *)

Definition strings_of (items : list value) : list string :=
  omap (fun v => match v with VStr s => Some s | _ => None end) items.

(** The strings of a JSON array; nothing for another text. *)
Definition parseStrippedBlob (c : cell) : list string :=
  match c with
  | SqlText s => if is_empty s then [] else match json_parse s with Some (VArr items) => strings_of items | _ => [] end
  | _ => []
  end.

(** [set.add(id)] on an insertion-ordered set. *)
Definition set_add (ids : list string) (id : string) : list string :=
  if bool_decide (id ∈ ids) then ids else ids ++ [id].

Definition set_delete (ids : list string) (id : string) : list string := List.filter (fun x => negb (String.eqb x id)) ids.

Definition merge_ids (add : list string) (current : list value) : option (list value) * unit :=
  let before := js_set (strings_of current) in
  let merged := foldl set_add before add in
  (if bool_decide (merged = before) then None else Some (VStr <$> merged), ()).

Definition casMergeStrippedIds (sessionId c : string) (ids : list string) : M bool :=
  match ids with
  | [] => mret true
  | _ => r ← casUpdateJsonArrayColumn isStrippedId (merge_ids ids) true sessionId c; mret (fst r)
  end.

Definition stripped_ids (c sessionId : string) : M (list string) :=
  query (fun db => js_set (parseStrippedBlob (cell_of sessionId c db))).

Definition getMergedReasoningStrippedIds : string → M (list string) := stripped_ids "merged_reasoning_stripped_ids".
Definition getStaleReduceStrippedIds : string → M (list string) := stripped_ids "stale_reduce_stripped_ids".
Definition getProcessedImageStrippedIds : string → M (list string) := stripped_ids "processed_image_stripped_ids".

Definition addMergedReasoningStrippedIds (sessionId : string) : list string → M bool :=
  casMergeStrippedIds sessionId "merged_reasoning_stripped_ids".
Definition addStaleReduceStrippedIds (sessionId : string) : list string → M bool :=
  casMergeStrippedIds sessionId "stale_reduce_stripped_ids".
Definition addProcessedImageStrippedIds (sessionId : string) : list string → M bool :=
  casMergeStrippedIds sessionId "processed_image_stripped_ids".

Definition getStrippedPlaceholderIds : string → M (list string) := stripped_ids "stripped_placeholder_ids".

(** The text of a set: empty for none. *)
Definition ids_blob (ids : list string) : string :=
  match ids with [] => EmptyString | _ => text (VArr (VStr <$> ids)) end.

Definition setStrippedPlaceholderIds (sessionId : string) (ids : list string) : M unit :=
  write (ensure_row harness sessionId);;
  access (update_row sessionId always (fun _ => [("stripped_placeholder_ids"%string, SqlText (ids_blob ids))]));;
  mret ().

Definition apply_delta (add remove ids : list string) : list string := foldl set_delete (foldl set_add ids add) remove.

Fixpoint delta_loop (attempts : nat) (sessionId : string) (add remove : list string) : M bool :=
  match attempts with
  | O => mret false
  | S attempts =>
      rawStored ← query (cell_of sessionId "stripped_placeholder_ids");
      let nextBlob := ids_blob (apply_delta add remove (js_set (parseStrippedBlob rawStored))) in
      if String.eqb nextBlob (match rawStored with SqlText s => s | _ => EmptyString end) then mret true
      else
        changed ← swap_cell sessionId "stripped_placeholder_ids" rawStored nextBlob;
        if changed : bool then mret true else delta_loop attempts sessionId add remove
  end.

Definition applyStrippedPlaceholderDelta (sessionId : string) (add remove : list string) : M bool :=
  match add, remove with
  | [], [] => mret true
  | _, _ => write (ensure_row harness sessionId);; delta_loop CAS_RETRY_LIMIT sessionId add remove
  end.

Definition removeStrippedPlaceholderId (sessionId messageId : string) : M bool :=
  before ← getStrippedPlaceholderIds sessionId;
  if bool_decide (messageId ∈ before) then applyStrippedPlaceholderDelta sessionId [] [messageId];; mret true
  else mret false.

(** ** Decisions on trailing blanks *)

Inductive PersistedTrailingBlankDecision := keep | keep_count (n : Z) | strip.

Definition decision_text (d : PersistedTrailingBlankDecision) : string :=
  match d with
  | keep => "keep"
  | keep_count n => ("keep:" ++ of_code_units (decimal_units n))%string
  | strip => "strip"
  end.

(** [/^[1-9]\d*$/] and a count between 2 and 10000. *)
Definition blank_count (l : list Z) : option Z :=
  match l with
  | [] => None
  | d :: _ => if d =? 48 then None
              else n ← decimal l; if (1 <? n) && (n <=? 10000) then Some n else None
  end.

Definition isPersistedTrailingBlankDecision (v : value) : option PersistedTrailingBlankDecision :=
  match v with
  | VStr s =>
      if String.eqb s "keep" then Some keep
      else if String.eqb s "strip" then Some strip
      else count ← strip_prefix Z.eqb (code_units "keep:") (code_units s);
           n ← blank_count count; Some (keep_count n)
  | _ => None
  end.

Definition parseTrailingBlankDecisions (c : cell) : jsmap string PersistedTrailingBlankDecision :=
  match c with
  | SqlText s =>
      match (if is_empty s then None else json_parse s) with
      | Some (VObj entries) =>
          foldl (fun m e => match isPersistedTrailingBlankDecision e.2 with
                            | Some d => if is_empty e.1 then m else JsMap.set m e.1 d
                            | None => m
                            end) [] entries
      | _ => []
      end
  | _ => []
  end.

Definition getTrailingBlankDecisions (sessionId : string) : M (jsmap string PersistedTrailingBlankDecision) :=
  query (fun db => parseTrailingBlankDecisions (cell_of sessionId "trailing_blank_decisions" db)).

#[local] Instance decision_eq_dec : EqDecision PersistedTrailingBlankDecision.
Proof. solve_decision. Defined.

(** A decision is kept; only the message to overwrite may change its own. *)
Definition add_decision (overwrite : option string) (st : jsmap string PersistedTrailingBlankDecision * bool)
    (e : string * PersistedTrailingBlankDecision) : jsmap string PersistedTrailingBlankDecision * bool :=
  let '(current, changed) := st in
  match JsMap.get current e.1 with
  | None => (JsMap.set current e.1 e.2, true)
  | Some d => if bool_decide (overwrite = Some e.1) && negb (bool_decide (d = e.2))
              then (JsMap.set current e.1 e.2, true) else (current, changed)
  end.

Definition decisions_blob (m : jsmap string PersistedTrailingBlankDecision) : string :=
  text (VObj ((fun e => (e.1, VStr (decision_text e.2))) <$> m)).

Fixpoint blanks_loop (attempts : nat) (sessionId : string) (overwrite : option string)
    (additions : list (string * PersistedTrailingBlankDecision)) : M bool :=
  match attempts with
  | O => mret false
  | S attempts =>
      rawStored ← query (cell_of sessionId "trailing_blank_decisions");
      let '(current, changed) := foldl (add_decision overwrite) (parseTrailingBlankDecisions rawStored, false) additions in
      if negb changed then mret true
      else
        swapped ← swap_cell sessionId "trailing_blank_decisions" rawStored (decisions_blob current);
        if swapped : bool then mret true else blanks_loop attempts sessionId overwrite additions
  end.

Definition addTrailingBlankDecisions (sessionId : string) (additions : list (string * PersistedTrailingBlankDecision))
    (overwriteMessageId : option string) : M bool :=
  match additions with
  | [] => mret true
  | _ => write (ensure_row harness sessionId);; blanks_loop CAS_RETRY_LIMIT sessionId overwriteMessageId additions
  end.

(** ** Markers *)

Record PersistedCompactionMarkerState := {
  cms_boundaryMessageId : string; cms_summaryMessageId : string; cms_compactionPartId : string;
  cms_summaryPartId : string; cms_boundaryOrdinal : num; cms_targetEndMessageId : option string
}.

Definition marker_state_value (s : PersistedCompactionMarkerState) : value :=
  VObj [("boundaryMessageId", VStr (cms_boundaryMessageId s)); ("summaryMessageId", VStr (cms_summaryMessageId s));
        ("compactionPartId", VStr (cms_compactionPartId s)); ("summaryPartId", VStr (cms_summaryPartId s));
        ("boundaryOrdinal", VNum (cms_boundaryOrdinal s));
        ("targetEndMessageId", match cms_targetEndMessageId s with Some t => VStr t | None => VNull end)]%string.

(** [v] parsed, with the target column; other fields are not represented. *)
Definition marker_state_of (v : value) (target : cell) : option PersistedCompactionMarkerState :=
  boundaryMessageId ← str_of v "boundaryMessageId";
  summaryMessageId ← str_of v "summaryMessageId";
  compactionPartId ← str_of v "compactionPartId";
  summaryPartId ← str_of v "summaryPartId";
  boundaryOrdinal ← num_of (opt_field v "boundaryOrdinal");
  Some {| cms_boundaryMessageId := boundaryMessageId; cms_summaryMessageId := summaryMessageId;
          cms_compactionPartId := compactionPartId; cms_summaryPartId := summaryPartId;
          cms_boundaryOrdinal := boundaryOrdinal;
          cms_targetEndMessageId := match text_cell target ≫= nonempty with
                                    | Some t => Some t
                                    | None => str_of v "targetEndMessageId" ≫= nonempty
                                    end |}.

(** The value of a text column that is neither NULL nor empty. *)
Definition blob_value (c : cell) : option value := s ← text_cell c; t ← nonempty s; json_parse t.

Definition getPersistedCompactionMarkerState (sessionId : string) : M (option PersistedCompactionMarkerState) :=
  query (fun db =>
    v ← blob_value (cell_of sessionId "compaction_marker_state" db);
    marker_state_of v (cell_of sessionId "compaction_marker_target_end_message_id" db)).

Definition setPersistedCompactionMarkerState (sessionId : string) (state : option PersistedCompactionMarkerState) : M unit :=
  write (ensure_row harness sessionId);;
  access (update_row sessionId always (fun _ =>
    [("compaction_marker_state", SqlText (match state with Some s => text (marker_state_value s) | None => EmptyString end));
     ("compaction_marker_target_end_message_id", bind_text (s ← state; cms_targetEndMessageId s))]%string));;
  mret ().

Record PendingCompactionMarker := { pm_ordinal : num; pm_endMessageId : string; pm_publishedAt : num }.

Definition pending_value (m : PendingCompactionMarker) : value :=
  VObj [("ordinal", VNum (pm_ordinal m)); ("endMessageId", VStr (pm_endMessageId m));
        ("publishedAt", VNum (pm_publishedAt m))]%string.

Definition isPendingCompactionMarker (v : value) : option PendingCompactionMarker :=
  ordinal ← num_of (opt_field v "ordinal");
  endMessageId ← str_of v "endMessageId";
  publishedAt ← num_of (opt_field v "publishedAt");
  Some {| pm_ordinal := ordinal; pm_endMessageId := endMessageId; pm_publishedAt := publishedAt |}.

Definition pending_in (sessionId : string) (db : database) : option PendingCompactionMarker :=
  blob_value (cell_of sessionId "pending_compaction_marker_state" db) ≫= isPendingCompactionMarker.

Definition getPendingCompactionMarkerState (sessionId : string) : M (option PendingCompactionMarker) :=
  query (pending_in sessionId).

(** Stores the text of a value, or NULL. *)
Definition set_blob (sessionId c : string) (v : option value) : M unit :=
  write (ensure_row harness sessionId);;
  access (update_row sessionId always (fun _ => [(c, bind_text (stableStringify <$> v))]));;
  mret ().

(** Clears a column that holds exactly the text of a value. *)
Definition clear_blob_if (sessionId c : string) (expected : value) : M bool :=
  access (update_row sessionId (fun r => sql_eq (column r c) (SqlText (stableStringify expected)))
    (fun _ => [(c, SqlNull)])).

Definition setPendingCompactionMarkerState (sessionId : string) (state : option PendingCompactionMarker) : M unit :=
  set_blob sessionId "pending_compaction_marker_state" (pending_value <$> state).

Definition clearPendingCompactionMarkerStateIf (sessionId : string) (expected : PendingCompactionMarker) : M bool :=
  clear_blob_if sessionId "pending_compaction_marker_state" (pending_value expected).

Record PendingPiCompactionMarker := {
  pp_firstKeptEntryId : string; pp_endMessageId : string; pp_ordinal : num; pp_tokensBefore : num; pp_summary : string;
  pp_publishedAt : num
}.

Definition pi_pending_value (m : PendingPiCompactionMarker) : value :=
  VObj [("firstKeptEntryId", VStr (pp_firstKeptEntryId m)); ("endMessageId", VStr (pp_endMessageId m));
        ("ordinal", VNum (pp_ordinal m)); ("tokensBefore", VNum (pp_tokensBefore m)); ("summary", VStr (pp_summary m));
        ("publishedAt", VNum (pp_publishedAt m))]%string.

Definition isPendingPiCompactionMarker (v : value) : option PendingPiCompactionMarker :=
  firstKeptEntryId ← str_of v "firstKeptEntryId";
  endMessageId ← str_of v "endMessageId";
  ordinal ← num_of (opt_field v "ordinal");
  tokensBefore ← num_of (opt_field v "tokensBefore");
  summary ← str_of v "summary";
  publishedAt ← num_of (opt_field v "publishedAt");
  Some {| pp_firstKeptEntryId := firstKeptEntryId; pp_endMessageId := endMessageId; pp_ordinal := ordinal;
          pp_tokensBefore := tokensBefore; pp_summary := summary; pp_publishedAt := publishedAt |}.

(** A text that is no marker is removed, unless it was replaced meanwhile. *)
Definition getPendingPiCompactionMarkerState (sessionId : string) : M (option PendingPiCompactionMarker) :=
  raw ← query (cell_of sessionId "pending_pi_compaction_marker_state");
  match text_cell raw ≫= nonempty with
  | None => mret None
  | Some s =>
      match json_parse s ≫= isPendingPiCompactionMarker with
      | Some m => mret (Some m)
      | None =>
          access (update_row sessionId (fun r => sql_eq (column r "pending_pi_compaction_marker_state") (SqlText s))
            (fun _ => [("pending_pi_compaction_marker_state"%string, SqlNull)]));;
          mret None
      end
  end.

Definition setPendingPiCompactionMarkerState (sessionId : string) (state : option PendingPiCompactionMarker) : M unit :=
  set_blob sessionId "pending_pi_compaction_marker_state" (pi_pending_value <$> state).

Definition clearPendingPiCompactionMarkerStateIf (sessionId : string) (expected : PendingPiCompactionMarker) : M bool :=
  clear_blob_if sessionId "pending_pi_compaction_marker_state" (pi_pending_value expected).

(** The sessions whose row has a text in a column. *)
Definition sessions_with (c : string) : M (list string) :=
  query (fun db => (List.filter (fun e => match text_cell (column e.2 c) ≫= nonempty with Some _ => true | None => false end)
                      (map_to_list db)).*1).

Definition getSessionsWithPendingPiMarker : M (list string) := sessions_with "pending_pi_compaction_marker_state".
Definition getSessionsWithPendingMarker : M (list string) := sessions_with "pending_compaction_marker_state".

(** ** Deferred executions *)

Record DeferredExecutePayload := { de_id : string; de_reason : string; de_recordedAt : num }.

Definition deferred_value (p : DeferredExecutePayload) : value :=
  VObj [("id", VStr (de_id p)); ("reason", VStr (de_reason p)); ("recordedAt", VNum (de_recordedAt p))]%string.

(** The parsed text, whatever it is. *)
Definition peekDeferredExecutePending (sessionId : string) : M (option value) :=
  query (fun db => blob_value (cell_of sessionId "deferred_execute_state" db)).

Definition setDeferredExecutePendingIfAbsent (sessionId : string) (payload : DeferredExecutePayload) : M bool :=
  write (ensure_row harness sessionId);;
  access (update_row sessionId (fun r => sql_is (column r "deferred_execute_state") SqlNull)
    (fun _ => [("deferred_execute_state"%string, SqlText (stableStringify (deferred_value payload)))])).

Definition clearDeferredExecutePendingIfMatches (sessionId : string) (expected : DeferredExecutePayload) : M bool :=
  clear_blob_if sessionId "deferred_execute_state" (deferred_value expected).

End blobs.

(** ** Lemmas: compare and swap *)

Section swaps.
Context `{JsonEngine} (harness : string) {S : Type} (validator : value → bool)
  (mutate : list value → option (list value) * S) (sessionId c : string).

Definition blob_of (x : cell) : string := match x with SqlText s => s | _ => "[]" end.

(** The update as one atomic step: what it stages and the database it leaves. *)
Definition cas_spec (db : database) : S * database :=
  let blob := blob_of (cell_of sessionId c db) in
  let '(next, stage) := mutate (parseJsonArray blob validator) in
  match next with
  | Some next =>
      let nextBlob := stableStringify (VArr next) in
      if String.eqb nextBlob blob then (stage, db)
      else match db !! sessionId with
           | Some r => (stage, <[sessionId := set_columns [(c, SqlText nextBlob)] r]> db)
           | None => (stage, db)
           end
  | None => (stage, db)
  end.

(** Every attempt was overtaken: between its read and its write another process changed
    the column or removed the row. *)
Fixpoint contended (attempts : nat) (w : world) : Prop :=
  match attempts with
  | O => True
  | Datatypes.S attempts =>
      let w1 := rest w (committed w) (w_reg w) in
      (committed w1 !! sessionId = None ∨
       sql_is (cell_of sessionId c (committed w1)) (cell_of sessionId c (committed w)) = false) ∧
      contended attempts (rest w1 (committed w1) (w_reg w1))
  end.

Lemma sql_is_blob a b : sql_is a b = true → blob_of a = blob_of b.
Proof. destruct a, b; cbn; try done. by intros ->%String.eqb_eq. Qed.

(** A swap: an error, a miss that says why, or a hit on what was read. *)
Lemma swap_cases from to w : let w' := rest w (committed w) (w_reg w) in
  (∃ e, swap_cell sessionId c from to w = (Err e, w')) ∨
  (swap_cell sessionId c from to w = (Ok false, w') ∧
   (committed w !! sessionId = None ∨ sql_is (cell_of sessionId c (committed w)) from = false)) ∨
  (∃ r, committed w !! sessionId = Some r ∧ sql_is (column r c) from = true ∧
   swap_cell sessionId c from to w =
     (Ok true, rest w (<[sessionId := set_columns [(c, SqlText to)] r]> (committed w)) (w_reg w))).
Proof.
  cbn zeta. unfold swap_cell.
  match goal with |- context [access ?f w] => destruct (access_cases f w) as [(e & ->)|(a & db & E & ->)] end.
  - left. by exists e.
  - right. unfold update_row in E. unfold cell_of. destruct (committed w !! sessionId) as [r|] eqn:Er.
    + destruct (sql_is (column r c) from) eqn:Eg.
      * right. exists r. cbn [null_violation] in E. by injection E as <- <-.
      * left. injection E as <- <-. split; [done|by right].
    + left. injection E as <- <-. split; [done|by left].
Qed.

Lemma cas_loop_spec attempts : ∀ w staged,
  let '(r, w') := cas_loop validator mutate attempts sessionId c staged w in
  match r with
  | Ok (true, Some stage) => ∃ db, meets w db ∧ cas_spec db = (stage, w_db w')
  | Ok (true, None) => False
  | Ok (false, _) => contended attempts w ∧ (attempts ≠ O → meets w (w_db w'))
  | Err _ => meets w (w_db w')
  end.
Proof.
  induction attempts as [|attempts IH]; intros w staged; cbn [cas_loop]; [done|].
  unfold mbind at 1, M_bind at 1.
  destruct (query_cases (cell_of sessionId c) w) as [(e & ->)| ->]; [constructor|].
  change (match cell_of sessionId c (committed w) with SqlText s => s | _ => "[]"%string end)
    with (blob_of (cell_of sessionId c (committed w))).
  set (w1 := rest w (committed w) (w_reg w)).
  destruct (mutate (parseJsonArray (blob_of (cell_of sessionId c (committed w))) validator)) as [[next|] stage] eqn:Em.
  2: { exists (committed w). split; [constructor|]. unfold cas_spec. by rewrite Em. }
  destruct (String.eqb (stableStringify (VArr next)) _) eqn:Eb.
  { exists (committed w). split; [constructor|]. unfold cas_spec. by rewrite Em, Eb. }
  unfold mbind, M_bind.
  destruct (swap_cases (cell_of sessionId c (committed w)) (stableStringify (VArr next)) w1)
    as [(e & ->)|[(-> & Hmiss)|(r & Hr & Hg & ->)]].
  - apply meets_later. constructor.
  - set (w2 := rest w1 (committed w1) (w_reg w1)). specialize (IH w2 (Some stage)).
    destruct (cas_loop validator mutate attempts sessionId c (Some stage) w2) as [[[b st]|e] w'] eqn:El.
    + destruct b, st as [st|]; try done.
      * destruct IH as (db & Hm & Hs). exists db. split; [by do 2 apply meets_later|done].
      * destruct IH as [Hc Hm]. split; [by split|]. intros _. destruct attempts as [|n]; [|by do 2 apply meets_later; apply Hm].
        injection El as <- <-. apply meets_later. constructor.
      * destruct IH as [Hc Hm]. split; [by split|]. intros _. destruct attempts as [|n]; [|by do 2 apply meets_later; apply Hm].
        done.
    + by do 2 apply meets_later.
  - exists (committed w1). split; [apply meets_later; constructor|]. unfold cas_spec.
    assert (cell_of sessionId c (committed w1) = column r c) as -> by (unfold cell_of; by rewrite Hr).
    rewrite (sql_is_blob _ _ Hg), Em, Eb, Hr. done.
Qed.

End swaps.

Section linearize.
Context `{JsonEngine} (harness : string) {S : Type} (validator : value → bool)
  (mutate : list value → option (list value) * S) (sessionId c : string).

(** The world after the first access of a call, which makes the row or looks for it. *)
Definition entered (ensureRow : bool) (w : world) : world :=
  rest w (if ensureRow then ensure_row harness sessionId (committed w) else committed w) (w_reg w).

Lemma sql_is_refl a : num_cell a = None → sql_is a a = true.
Proof. destruct a; cbn; [done|done|]. by rewrite String.eqb_refl. Qed.

(** Without interference the first attempt succeeds. *)
Lemma quiet_loop db reg staged r : db !! sessionId = Some r → num_cell (column r c) = None →
  ∃ stage, (cas_loop validator mutate CAS_RETRY_LIMIT sessionId c staged
    {| w_db := db; w_reg := reg; w_pauses := [] |}).1 = Ok (true, Some stage).
Proof.
  intros Hr Hn. unfold CAS_RETRY_LIMIT. cbn [cas_loop]. unfold mbind at 1, M_bind at 1, query, access, transaction.
  cbn [w_db w_pauses w_reg head from_option id p_commits no_pause foldl p_fault tail].
  destruct (mutate _) as [[next|] stage]; [|by exists stage]. destruct (String.eqb _ _); [by exists stage|].
  unfold mbind at 1, M_bind at 1, swap_cell, access, transaction.
  cbn [w_db w_pauses w_reg head from_option id p_commits no_pause foldl p_fault tail].
  rewrite (update_row_Some _ _ _ _ r) by done. unfold cell_of. rewrite Hr, sql_is_refl by done. cbn [null_violation].
  by exists stage.
Qed.

(** C2: A merge into a list column takes effect at one instant: if it succeeds, there
    is a database its accesses met such that it did exactly what the update does to
    that database in one step, so nothing another process wrote is lost; it fails only
    when each of its five attempts was overtaken by another writer of the column, and
    then, as when a statement throws, it wrote nothing beyond the session's row.
    Without interference it succeeds. *)
Theorem cas_update_linearizes ensureRow w :
  (let '(r, w') := casUpdateJsonArrayColumn harness validator mutate ensureRow sessionId c w in
   match r with
   | Ok (true, Some stage) =>
       ∃ db, meets (entered ensureRow w) db ∧ cas_spec validator mutate sessionId c db = (stage, w_db w')
   | Ok (true, None) => ensureRow = false ∧ committed w !! sessionId = None ∧ w_db w' = committed w
   | Ok (false, _) => contended sessionId c CAS_RETRY_LIMIT (entered ensureRow w) ∧ meets (entered ensureRow w) (w_db w')
   | Err _ => w' = w ∨ w_db w' = committed w ∨ meets (entered ensureRow w) (w_db w')
   end) ∧
  (w_pauses w = [] → c ∈ CAS_JSON_ARRAY_COLUMNS →
   (∀ r, ensure_row harness sessionId (w_db w) !! sessionId = Some r → num_cell (column r c) = None) →
   ∃ stage, (casUpdateJsonArrayColumn harness validator mutate true sessionId c w).1 = Ok (true, Some stage)).
Proof.
  split.
  - unfold casUpdateJsonArrayColumn. destruct (bool_decide (c ∈ _)); cbn [negb]; [|by left].
    assert (∀ w0, (let '(r, w') := cas_loop validator mutate CAS_RETRY_LIMIT sessionId c None w0 in
      match r with
      | Ok (true, Some stage) => ∃ db, meets w0 db ∧ cas_spec validator mutate sessionId c db = (stage, w_db w')
      | Ok (true, None) => False
      | Ok (false, _) => contended sessionId c CAS_RETRY_LIMIT w0 ∧ meets w0 (w_db w')
      | Err _ => meets w0 (w_db w')
      end)) as Hloop.
    { intros w0. pose proof (cas_loop_spec validator mutate sessionId c CAS_RETRY_LIMIT w0 None) as Hs.
      destruct (cas_loop _ _ _ _ _ _ w0) as [[[[|] [stage|]]|e] w']; try exact Hs;
        destruct Hs as [? Hm]; (split; [done|]); by apply Hm. }
    destruct ensureRow; unfold mbind, M_bind.
    + unfold write. match goal with |- context [access ?f w] => destruct (access_cases f w) as [(e & ->)|(a & db & E & ->)] end.
      * right. by left.
      * injection E as <- <-. specialize (Hloop (entered true w)). unfold entered in *.
        destruct (cas_loop _ _ _ _ _ _ _) as [[[[|] [stage|]]|e] w']; try exact Hloop; [done|]. by right; right.
    + destruct (query_cases (fun db => is_some (db !! sessionId)) w) as [(e & ->)| ->]; [right; by left|].
      destruct (committed w !! sessionId) as [r|] eqn:Er; cbn [is_some negb]; [|done].
      specialize (Hloop (entered false w)). unfold entered in *.
      destruct (cas_loop _ _ _ _ _ _ _) as [[[[|] [stage|]]|e] w']; try exact Hloop; [done|]. by right; right.
  - intros Hw Hc Hn. unfold casUpdateJsonArrayColumn. rewrite bool_decide_true by done. cbn [negb].
    destruct (ensure_row_Some harness sessionId (w_db w)) as [r Hr]. unfold mbind, M_bind, write, access, transaction.
    rewrite Hw. cbn [head from_option id p_commits no_pause foldl p_fault tail].
    apply (quiet_loop _ _ None r Hr). by apply Hn.
Qed.

End linearize.
