(* ===== verification/SessionCalls.v ===== *)
(** * The calls on a session's row together

    Every call of packages/plugin/src/features/magic-context/storage-meta-persisted.ts
    that changes a row, as one list, and what all of them preserve while other
    processes run the same calls: the ids of stripped messages, which a provider's
    prompt cache relies on, are only ever added to. *)

From S2P Require Import Prelude JsNumber JsExact JsMap JsValue JsString JsJson ModelKeys ModelLimits Access SessionRow SessionMeta SessionBlobs.

(** A literal that is not in a literal list or set. *)
Ltac not_listed := apply (bool_decide_eq_true_1 _); vm_compute; reflexivity.

(** ** The stored ids *)

(** The columns whose ids must not be taken back. *)
Definition frozen_columns : list string :=
  ["merged_reasoning_stripped_ids"; "stale_reduce_stripped_ids"; "processed_image_stripped_ids"]%string.

Section frozen.
Context `{JsonEngine} (harness : string).

Definition ids_in (c sessionId : string) (db : database) : list string := parseStrippedBlob (cell_of sessionId c db).

(** Every id a frozen column of the one database has, the other's has too. *)
Definition grows (db db' : database) : Prop :=
  ∀ c sessionId, c ∈ frozen_columns → ids_in c sessionId db ⊆ ids_in c sessionId db'.

#[local] Instance grows_preorder : PreOrder grows.
Proof. split; [intros db c s _ x Hx; exact Hx|]. intros a b d Hab Hbd c s Hc x Hx. apply Hbd, Hab; done. Qed.

Lemma grows_refl db : grows db db.
Proof. reflexivity. Qed.

(** What the other processes commit around the accesses of a call takes no id back. *)
Abbreviation honest := (Access.honest grows).

(** A call that takes no id back, whatever honest processes do meanwhile. *)
Abbreviation guarded := (Access.guarded grows).
Abbreviation keeps := (Access.keeps grows).
Abbreviation keeps_db := (Access.keeps_db grows).

(** ** Statements *)

Lemma cell_of_insert c s sessionId r db :
  cell_of s c (<[sessionId := r]> db) = if decide (s = sessionId) then column r c else cell_of s c db.
Proof.
  unfold cell_of. case_decide as Hs; [subst; by rewrite lookup_insert_eq|by rewrite lookup_insert_ne].
Qed.

(** A row replaced by one that has the ids. *)
Lemma grows_insert sessionId r r' db : db !! sessionId = Some r →
  (∀ c, c ∈ frozen_columns → parseStrippedBlob (column r c) ⊆ parseStrippedBlob (column r' c)) →
  grows db (<[sessionId := r']> db).
Proof.
  intros Hr Hc c s Hin x. unfold ids_in. rewrite cell_of_insert. case_decide as Hs; [subst|done].
  unfold cell_of. rewrite Hr. by apply Hc.
Qed.

Lemma grows_ensure sessionId db : grows db (ensure_row harness sessionId db).
Proof.
  unfold ensure_row. destruct (db !! sessionId) eqn:E; [exact (grows_refl _)|].
  intros c s _ x. unfold ids_in. rewrite cell_of_insert. case_decide as Hs; [subst|done].
  unfold cell_of. rewrite E. cbn [parseStrippedBlob]. by intros ?%not_elem_of_nil.
Qed.

(** The assignments leave the frozen columns alone. *)
Definition spares (sets : list (string * cell)) : Prop := Forall (fun c => assigned sets c = None) frozen_columns.

Lemma spares_column sets r c : spares sets → c ∈ frozen_columns → column (set_columns sets r) c = column r c.
Proof. intros Hs Hc. rewrite column_set. unfold spares in Hs. rewrite Forall_forall in Hs. by rewrite (Hs c Hc). Qed.

Lemma keeps_update sessionId guard sets db : (∀ r, spares (sets r)) → keeps (update_row sessionId guard sets db) db.
Proof.
  intros Hs. destruct (update_row _ _ _ _) as [[b db']|e] eqn:E; [|done].
  destruct (update_row_Ok _ _ _ _ _ _ E) as [[_ ->]|(_ & r & Hr & _ & ->)]; [exact (grows_refl _)|].
  apply (grows_insert _ r); [done|]. intros c Hc x. by rewrite spares_column.
Qed.

Lemma guarded_ensured sessionId guard sets : (∀ r, spares (sets r)) → guarded (ensured_update harness sessionId guard sets).
Proof.
  intros Hs. apply (guarded_access grows). intros db. apply (keeps_from grows _ _ (ensure_row harness sessionId db)).
  - apply grows_ensure.
  - by apply keeps_update.
Qed.

(** ** Merging ids *)

Lemma strings_of_VStr ids : strings_of (VStr <$> ids) = ids.
Proof. unfold strings_of. induction ids as [|i ids IH]; [done|]. cbn [fmap list_fmap omap list_omap]. f_equal. exact IH. Qed.

Lemma plain_strings ids : plain (VArr (VStr <$> ids)).
Proof. cbn [plain]. rewrite fold_forall, Forall_fmap. by apply Forall_true. Qed.

Lemma normal_strings ids : normal (VArr (VStr <$> ids)) = VArr (VStr <$> ids).
Proof. cbn [normal]. f_equal. induction ids as [|i ids IH]; [done|]. cbn [fmap list_fmap List.map normal]. f_equal. exact IH. Qed.

(** A printed list of ids is read back. *)
Lemma ids_roundtrip ids : parseStrippedBlob (SqlText (stableStringify (VArr (VStr <$> ids)))) = ids.
Proof.
  pose proof (stable_roundtrip _ (plain_strings ids)) as E. rewrite normal_strings in E. 
  destruct (stableStringify (VArr (VStr <$> ids))) as [|a s]; [by vm_compute in E|].
  cbn [parseStrippedBlob is_empty]. rewrite E. apply strings_of_VStr.
Qed.

Lemma ids_add_in x ids id : x ∈ set_add ids id ↔ x ∈ ids ∨ x = id.
Proof.
  unfold set_add. case_bool_decide as Hin; [|by rewrite elem_of_app, list_elem_of_singleton].
  split; [by left|]. by intros [?| ->].
Qed.

Lemma merged_in x add : ∀ ids, x ∈ foldl set_add ids add ↔ x ∈ ids ∨ x ∈ add.
Proof.
  induction add as [|a add IH]; intros ids; cbn [foldl].
  - split; [by left|by intros [?|?%not_elem_of_nil]].
  - rewrite IH, ids_add_in, elem_of_cons. tauto.
Qed.

(** The ids the code parses for a merge are the stored ones. *)
Lemma parsed_strings x : strings_of (parseJsonArray (blob_of x) isStrippedId) = parseStrippedBlob x.
Proof.
  unfold parseJsonArray. destruct x as [|n|s]; cbn [blob_of parseStrippedBlob]; [by vm_compute..|].
  destruct (is_empty s); [done|]. destruct (json_parse s) as [[]|]; try done.
  induction items as [|v items IH]; [done|]. unfold strings_of in *. cbn [List.filter omap list_omap].
  destruct v; cbn [isStrippedId]; try exact IH. cbn [omap list_omap]. f_equal. exact IH.
Qed.

(** What a merge makes of the stored ids. *)
Definition merged (add stored : list string) : list string := foldl set_add (js_set stored) add.

Lemma merge_ids_spec add x : merge_ids add (parseJsonArray (blob_of x) isStrippedId) =
  (if bool_decide (merged add (parseStrippedBlob x) = js_set (parseStrippedBlob x)) then None
   else Some (VStr <$> merged add (parseStrippedBlob x)), ()).
Proof. unfold merge_ids, merged. by rewrite parsed_strings. Qed.

Lemma merged_spec x add stored : x ∈ merged add stored ↔ x ∈ stored ∨ x ∈ add.
Proof. unfold merged. by rewrite merged_in, js_set_in. Qed.

(** A blob that prints a list holds it. *)
Lemma blob_holds x ids : stableStringify (VArr (VStr <$> ids)) = blob_of x → parseStrippedBlob x = ids.
Proof.
  intros E. pose proof (ids_roundtrip ids) as Hr. rewrite E in Hr.
  destruct x; cbn [blob_of] in Hr; [vm_compute in Hr; exact Hr..|exact Hr].
Qed.

Lemma parse_sql_is a b : sql_is a b = true → parseStrippedBlob a = parseStrippedBlob b.
Proof. destruct a, b; try done. cbn [sql_is sql_eq]. by intros ->%String.eqb_eq. Qed.

Lemma merge_loop sessionId c add attempts : c ∈ frozen_columns → ∀ w staged, honest w →
  let '(r, w') := cas_loop isStrippedId (merge_ids add) attempts sessionId c staged w in
  grows (w_db w) (w_db w') ∧ honest w' ∧
  match r with Ok (true, _) => ∀ x, x ∈ add → x ∈ ids_in c sessionId (w_db w') | _ => True end.
Proof.
  intros Hc. induction attempts as [|attempts IH]; intros w staged Hw; cbn [cas_loop]; [by split_and!|].
  pose proof (honest_committed grows w Hw) as Hg. unfold mbind at 1, M_bind at 1.
  destruct (query_cases (cell_of sessionId c) w) as [(e & ->)| ->]; [by split_and!; [|apply (honest_rest grows)|]|].
  set (w1 := rest w (committed w) (w_reg w)). assert (honest w1) as Hw1 by by apply (honest_rest grows).
  set (raw := cell_of sessionId c (committed w)).
  change (match raw with SqlText s => s | _ => "[]"%string end) with (blob_of raw). rewrite merge_ids_spec.
  set (next := merged add (parseStrippedBlob raw)).
  assert (∀ x, x ∈ add → x ∈ next) as Hin by (intros x Hx; apply merged_spec; by right).
  case_bool_decide as Hsame.
  { split_and!; [done..|]. intros x Hx%Hin. rewrite Hsame in Hx. exact (proj1 (js_set_in _ _) Hx). }
  destruct (String.eqb (stableStringify (VArr (VStr <$> next))) (blob_of raw)) eqn:Eb.
  { apply String.eqb_eq in Eb. split_and!; [done..|]. intros x Hx%Hin. change (x ∈ parseStrippedBlob raw).
    by rewrite (blob_holds _ _ Eb). }
  unfold mbind, M_bind. pose proof (honest_committed grows w1 Hw1) as Hg1.
  destruct (swap_cases sessionId c raw (stableStringify (VArr (VStr <$> next))) w1)
    as [(e & ->)|[(-> & _)|(r & Hr & Hguard & ->)]].
  - split_and!; [by transitivity (committed w)|by apply (honest_rest grows)|done].
  - set (w2 := rest w1 (committed w1) (w_reg w1)). specialize (IH w2 (Some ()) (honest_rest grows _ _ _ Hw1)).
    destruct (cas_loop _ _ attempts _ _ _ w2) as [a w']. destruct IH as (Hg2 & Hw' & Ha).
    split_and!; [|done..]. transitivity (committed w); [done|]. by transitivity (committed w1).
  - assert (parseStrippedBlob (column (set_columns [(c, SqlText (stableStringify (VArr (VStr <$> next))))] r) c) = next) as Ec.
    { rewrite column_set. cbn [assigned]. rewrite String.eqb_refl. apply ids_roundtrip. }
    split_and!; [|by apply (honest_rest grows)|].
    + transitivity (committed w); [done|]. transitivity (committed w1); [done|]. apply (grows_insert _ r); [done|].
      intros k Hk. destruct (decide (k = c)) as [->|Hne].
      * rewrite Ec. intros x Hx. apply merged_spec. left. by rewrite <- (parse_sql_is _ _ Hguard).
      * intros x. rewrite column_set. cbn [assigned]. by rewrite (proj2 (String.eqb_neq c k)) by done.
    + intros x Hx%Hin. unfold ids_in. cbn [rest w_db]. rewrite cell_of_insert, decide_True by done. by rewrite Ec.
Qed.

(** A merge takes no id back, and stores the ids when it says so. *)
Lemma merge_spec sessionId c add w : c ∈ frozen_columns → honest w →
  let '(r, w') := casMergeStrippedIds harness sessionId c add w in
  grows (w_db w) (w_db w') ∧ honest w' ∧
  (r = Ok true → ∀ x, x ∈ add → x ∈ ids_in c sessionId (w_db w')).
Proof.
  intros Hc Hw. unfold casMergeStrippedIds. destruct add as [|a add]; [split_and!; [exact (grows_refl _)|done|]|].
  { by intros _ x ?%not_elem_of_nil. }
  unfold casUpdateJsonArrayColumn. rewrite bool_decide_true by (revert Hc; clear; unfold frozen_columns, CAS_JSON_ARRAY_COLUMNS; set_solver).
  cbn [negb]. unfold mbind at 1, M_bind at 1. unfold mbind at 1, M_bind at 1.
  destruct (guarded_write grows _ (grows_ensure sessionId) w Hw) as [Hg Hw1].
  destruct (write (ensure_row harness sessionId) w) as [[[]|e] w1]; [|by split_and!].
  pose proof (merge_loop sessionId c (a :: add) CAS_RETRY_LIMIT Hc w1 None Hw1) as Hl.
  destruct (cas_loop _ _ _ _ _ _ w1) as [[[b st]|e] w']; destruct Hl as (Hg' & Hw' & Ha);
    (split_and!; [by transitivity (w_db w1)|done|]); [|done].
  cbn [fst mret M_ret]. intros [= ->]. exact Ha.
Qed.

Lemma guarded_merge sessionId c add : c ∈ frozen_columns → guarded (casMergeStrippedIds harness sessionId c add).
Proof.
  intros Hc w Hw. pose proof (merge_spec sessionId c add w Hc Hw) as Hm.
  destruct (casMergeStrippedIds _ _ _ _ w) as [r w']. by destruct Hm as (? & ? & _).
Qed.

(** ** Other lists *)

Lemma guarded_swap sessionId c from to : c ∉ frozen_columns → guarded (swap_cell sessionId c from to).
Proof.
  intros Hc. apply (guarded_access grows). intros db. apply keeps_update. intros _. apply Forall_forall. intros k Hk.
  cbn [assigned]. by destruct (String.eqb_spec c k) as [->|].
Qed.

Lemma guarded_cas {S} validator (mutate : list value → option (list value) * S) ensureRow sessionId c :
  c ∉ frozen_columns → guarded (casUpdateJsonArrayColumn harness validator mutate ensureRow sessionId c).
Proof.
  intros Hc.
  assert (∀ attempts staged, guarded (cas_loop validator mutate attempts sessionId c staged)) as Hl.
  { induction attempts as [|attempts IH]; intros staged; cbn [cas_loop]; [apply (guarded_ret grows)|].
    apply (guarded_bind grows); [apply (guarded_query grows)|]. intros raw. destruct (mutate _) as [[next|] stage]; [|apply (guarded_ret grows)].
    case_match; [apply (guarded_ret grows)|]. apply (guarded_bind grows); [by apply guarded_swap|]. intros []; [apply (guarded_ret grows)|apply IH]. }
  unfold casUpdateJsonArrayColumn. case_match; [apply (guarded_throw grows)|]. destruct ensureRow.
  - apply (guarded_bind grows); [apply (guarded_write grows), grows_ensure|done].
  - apply (guarded_bind grows); [apply (guarded_query grows)|]. intros []; [apply Hl|apply (guarded_ret grows)].
Qed.

(** ** Every call *)

(** The calls that can change a row. *)
Inductive session_call :=
| c_loadProtectedTailMeta (sessionId : string)
| c_markProtectedTailPolicyV3Seeded (sessionId : string) (prior : num)
| c_recordProtectedTailPublicationFloor (sessionId : string) (floorOrdinal : num)
| c_recordProtectedTailNoEligibleHead (sessionId : string)
| c_resetProtectedTailNoEligibleHead (sessionId : string)
| c_reserveProtectedTailDrainTokens (sessionId : string) (a : drain_args) (now : num)
| c_clearEmergencyDrainLatch (sessionId : string)
| c_recordHistorianDrainFailure (sessionId : string) (now : num)
| c_clearHistorianDrainFailure (sessionId : string)
| c_rollbackProtectedTailDrainReservation (reservation : option ProtectedTailDrainReservation)
| c_setCompactionModeRecord (sessionId : string) (record : option string)
| c_setPersistedReasoningWatermark (sessionId : string) (tagNumber : num)
| c_setEmergencyDropSample (sessionId : string) (inputSample : num)
| c_clearEmergencyDropSample (sessionId : string)
| c_setLastNudgeUndropped (sessionId : string) (n : num)
| c_setLastNudgeLevel (sessionId : string) (l : PersistedChannel1NudgeLevel)
| c_resetLastNudgeCycle (sessionId : string)
| c_resetLastNudgeCycleIfTailShrank (sessionId : string) (measuredUndropped : num)
| c_setChannel2NudgeState (sessionId : string) (s : Channel2NudgeState) (now : num)
| c_casChannel2NudgeState (sessionId : string) (from : Channel2NudgeState) (to : Channel2NudgeState) (now : num)
| c_claimChannel2NudgeState (sessionId : string) (claimToken : string) (now : num)
| c_casChannel2NudgeClaim (sessionId : string) (to : Channel2NudgeState) (claimToken : string) (now : num)
| c_healWedgedChannel2Claims (now : num)
| c_setPersistedNoteNudgeTrigger (sessionId : string) (triggerMessageId : string)
| c_setPersistedNoteNudgeTriggerMessageId (sessionId : string) (triggerMessageId : string)
| c_clearPersistedNoteNudge (sessionId : string)
| c_setPersistedTodoPermissionDenied (sessionId : string) (denied : bool)
| c_setPersistedTodoSyntheticAnchor (sessionId : string) (callId : string) (messageId : string) (stateJson : string)
| c_clearPersistedTodoSyntheticAnchor (sessionId : string)
| c_setNoteLastReadAt (sessionId : string) (at_ : num)
| c_incrementHistorianFailure (sessionId : string) (error : string) (now : num)
| c_clearHistorianFailureState (sessionId : string)
| c_recordOverflowDetected (sessionId : string) (reportedLimit : option num) (modelKey : option string) (origin : EmergencyRecoveryOrigin) (provenance : ContextLimitProvenance) (now : num)
| c_recordDetectedContextLimit (sessionId : string) (reportedLimit : num) (modelKey : option string) (provenance : ContextLimitProvenance)
| c_clearEmergencyRecovery (sessionId : string) (firstUpdate : option sql_error)
| c_clearDetectedContextLimit (sessionId : string)
| c_setSessionWorkMetrics (sessionId : string) (newWorkTokens : num) (totalInputTokens : num)
| c_getWrapupInProgressState (sessionId : string) (now : num)
| c_acquireWrapupInProgress (sessionId : string) (holderId : string) (progress : WrapupProgress) (now : num)
| c_updateWrapupInProgress (sessionId : string) (holderId : string) (updates : WrapupProgress → WrapupProgress) (now : num)
| c_releaseWrapupInProgress (sessionId : string) (holderId : string)
| c_appendNoteNudgeAnchor (sessionId : string) (messageId : string) (text : string)
| c_deliverNoteNudgeAtomic (sessionId : string) (messageId : string) (text : string)
| c_pruneNoteNudgeAnchors (sessionId : string) (visible : gset string)
| c_removeNoteNudgeAnchorByMessageId (sessionId : string) (messageId : string)
| c_recordAutoSearchHintNativeBlockId (sessionId : string) (messageId : string) (nativeBlockId : string)
| c_appendAutoSearchHintDecision (sessionId : string) (entry : value)
| c_pruneAutoSearchHintDecisions (sessionId : string) (visible : gset string)
| c_removeAutoSearchHintDecisionByMessageId (sessionId : string) (messageId : string)
| c_addMergedReasoningStrippedIds (sessionId : string) (ids : list string)
| c_addStaleReduceStrippedIds (sessionId : string) (ids : list string)
| c_addProcessedImageStrippedIds (sessionId : string) (ids : list string)
| c_setStrippedPlaceholderIds (sessionId : string) (ids : list string)
| c_applyStrippedPlaceholderDelta (sessionId : string) (add : list string) (remove : list string)
| c_removeStrippedPlaceholderId (sessionId : string) (messageId : string)
| c_addTrailingBlankDecisions (sessionId : string) (additions : list (string * PersistedTrailingBlankDecision)) (overwrite : option string)
| c_setPersistedCompactionMarkerState (sessionId : string) (state : option PersistedCompactionMarkerState)
| c_setPendingCompactionMarkerState (sessionId : string) (state : option PendingCompactionMarker)
| c_clearPendingCompactionMarkerStateIf (sessionId : string) (expected : PendingCompactionMarker)
| c_getPendingPiCompactionMarkerState (sessionId : string)
| c_setPendingPiCompactionMarkerState (sessionId : string) (state : option PendingPiCompactionMarker)
| c_clearPendingPiCompactionMarkerStateIf (sessionId : string) (expected : PendingPiCompactionMarker)
| c_setDeferredExecutePendingIfAbsent (sessionId : string) (payload : DeferredExecutePayload)
| c_clearDeferredExecutePendingIfMatches (sessionId : string) (expected : DeferredExecutePayload).

(** The call, its answer left out. *)
Definition perform (c : session_call) : M unit :=
  match c with
  | c_loadProtectedTailMeta sessionId => loadProtectedTailMeta harness sessionId;; mret ()
  | c_markProtectedTailPolicyV3Seeded sessionId prior => markProtectedTailPolicyV3Seeded harness sessionId prior;; mret ()
  | c_recordProtectedTailPublicationFloor sessionId floorOrdinal => recordProtectedTailPublicationFloor harness sessionId floorOrdinal;; mret ()
  | c_recordProtectedTailNoEligibleHead sessionId => recordProtectedTailNoEligibleHead harness sessionId;; mret ()
  | c_resetProtectedTailNoEligibleHead sessionId => resetProtectedTailNoEligibleHead harness sessionId;; mret ()
  | c_reserveProtectedTailDrainTokens sessionId a now => reserveProtectedTailDrainTokens harness sessionId a now;; mret ()
  | c_clearEmergencyDrainLatch sessionId => clearEmergencyDrainLatch harness sessionId;; mret ()
  | c_recordHistorianDrainFailure sessionId now => recordHistorianDrainFailure harness sessionId now;; mret ()
  | c_clearHistorianDrainFailure sessionId => clearHistorianDrainFailure harness sessionId;; mret ()
  | c_rollbackProtectedTailDrainReservation reservation => rollbackProtectedTailDrainReservation harness reservation;; mret ()
  | c_setCompactionModeRecord sessionId record => setCompactionModeRecord harness sessionId record;; mret ()
  | c_setPersistedReasoningWatermark sessionId tagNumber => setPersistedReasoningWatermark harness sessionId tagNumber;; mret ()
  | c_setEmergencyDropSample sessionId inputSample => setEmergencyDropSample harness sessionId inputSample;; mret ()
  | c_clearEmergencyDropSample sessionId => clearEmergencyDropSample harness sessionId;; mret ()
  | c_setLastNudgeUndropped sessionId n => setLastNudgeUndropped harness sessionId n;; mret ()
  | c_setLastNudgeLevel sessionId l => setLastNudgeLevel harness sessionId l;; mret ()
  | c_resetLastNudgeCycle sessionId => resetLastNudgeCycle harness sessionId;; mret ()
  | c_resetLastNudgeCycleIfTailShrank sessionId measuredUndropped => resetLastNudgeCycleIfTailShrank harness sessionId measuredUndropped;; mret ()
  | c_setChannel2NudgeState sessionId s now => setChannel2NudgeState harness sessionId s now;; mret ()
  | c_casChannel2NudgeState sessionId from to now => casChannel2NudgeState harness sessionId from to now;; mret ()
  | c_claimChannel2NudgeState sessionId claimToken now => claimChannel2NudgeState harness sessionId claimToken now;; mret ()
  | c_casChannel2NudgeClaim sessionId to claimToken now => casChannel2NudgeClaim harness sessionId to claimToken now;; mret ()
  | c_healWedgedChannel2Claims now => healWedgedChannel2Claims now;; mret ()
  | c_setPersistedNoteNudgeTrigger sessionId triggerMessageId => setPersistedNoteNudgeTrigger harness sessionId triggerMessageId;; mret ()
  | c_setPersistedNoteNudgeTriggerMessageId sessionId triggerMessageId => setPersistedNoteNudgeTriggerMessageId harness sessionId triggerMessageId;; mret ()
  | c_clearPersistedNoteNudge sessionId => clearPersistedNoteNudge sessionId;; mret ()
  | c_setPersistedTodoPermissionDenied sessionId denied => setPersistedTodoPermissionDenied harness sessionId denied;; mret ()
  | c_setPersistedTodoSyntheticAnchor sessionId callId messageId stateJson => setPersistedTodoSyntheticAnchor harness sessionId callId messageId stateJson;; mret ()
  | c_clearPersistedTodoSyntheticAnchor sessionId => clearPersistedTodoSyntheticAnchor sessionId;; mret ()
  | c_setNoteLastReadAt sessionId at_ => setNoteLastReadAt harness sessionId at_;; mret ()
  | c_incrementHistorianFailure sessionId error now => incrementHistorianFailure harness sessionId error now;; mret ()
  | c_clearHistorianFailureState sessionId => clearHistorianFailureState harness sessionId;; mret ()
  | c_recordOverflowDetected sessionId reportedLimit modelKey origin provenance now => recordOverflowDetected harness sessionId reportedLimit modelKey origin provenance now;; mret ()
  | c_recordDetectedContextLimit sessionId reportedLimit modelKey provenance => recordDetectedContextLimit harness sessionId reportedLimit modelKey provenance;; mret ()
  | c_clearEmergencyRecovery sessionId firstUpdate => clearEmergencyRecovery harness sessionId firstUpdate;; mret ()
  | c_clearDetectedContextLimit sessionId => clearDetectedContextLimit harness sessionId;; mret ()
  | c_setSessionWorkMetrics sessionId newWorkTokens totalInputTokens => setSessionWorkMetrics harness sessionId newWorkTokens totalInputTokens;; mret ()
  | c_getWrapupInProgressState sessionId now => getWrapupInProgressState sessionId now;; mret ()
  | c_acquireWrapupInProgress sessionId holderId progress now => acquireWrapupInProgress harness sessionId holderId progress now;; mret ()
  | c_updateWrapupInProgress sessionId holderId updates now => updateWrapupInProgress sessionId holderId updates now;; mret ()
  | c_releaseWrapupInProgress sessionId holderId => releaseWrapupInProgress sessionId holderId;; mret ()
  | c_appendNoteNudgeAnchor sessionId messageId text => appendNoteNudgeAnchor harness sessionId messageId text;; mret ()
  | c_deliverNoteNudgeAtomic sessionId messageId text => deliverNoteNudgeAtomic harness sessionId messageId text;; mret ()
  | c_pruneNoteNudgeAnchors sessionId visible => pruneNoteNudgeAnchors harness sessionId visible;; mret ()
  | c_removeNoteNudgeAnchorByMessageId sessionId messageId => removeNoteNudgeAnchorByMessageId harness sessionId messageId;; mret ()
  | c_recordAutoSearchHintNativeBlockId sessionId messageId nativeBlockId => recordAutoSearchHintNativeBlockId harness sessionId messageId nativeBlockId;; mret ()
  | c_appendAutoSearchHintDecision sessionId entry => appendAutoSearchHintDecision harness sessionId entry;; mret ()
  | c_pruneAutoSearchHintDecisions sessionId visible => pruneAutoSearchHintDecisions harness sessionId visible;; mret ()
  | c_removeAutoSearchHintDecisionByMessageId sessionId messageId => removeAutoSearchHintDecisionByMessageId harness sessionId messageId;; mret ()
  | c_addMergedReasoningStrippedIds sessionId ids => addMergedReasoningStrippedIds harness sessionId ids;; mret ()
  | c_addStaleReduceStrippedIds sessionId ids => addStaleReduceStrippedIds harness sessionId ids;; mret ()
  | c_addProcessedImageStrippedIds sessionId ids => addProcessedImageStrippedIds harness sessionId ids;; mret ()
  | c_setStrippedPlaceholderIds sessionId ids => setStrippedPlaceholderIds harness sessionId ids;; mret ()
  | c_applyStrippedPlaceholderDelta sessionId add remove => applyStrippedPlaceholderDelta harness sessionId add remove;; mret ()
  | c_removeStrippedPlaceholderId sessionId messageId => removeStrippedPlaceholderId harness sessionId messageId;; mret ()
  | c_addTrailingBlankDecisions sessionId additions overwrite => addTrailingBlankDecisions harness sessionId additions overwrite;; mret ()
  | c_setPersistedCompactionMarkerState sessionId state => setPersistedCompactionMarkerState harness sessionId state;; mret ()
  | c_setPendingCompactionMarkerState sessionId state => setPendingCompactionMarkerState harness sessionId state;; mret ()
  | c_clearPendingCompactionMarkerStateIf sessionId expected => clearPendingCompactionMarkerStateIf sessionId expected;; mret ()
  | c_getPendingPiCompactionMarkerState sessionId => getPendingPiCompactionMarkerState sessionId;; mret ()
  | c_setPendingPiCompactionMarkerState sessionId state => setPendingPiCompactionMarkerState harness sessionId state;; mret ()
  | c_clearPendingPiCompactionMarkerStateIf sessionId expected => clearPendingPiCompactionMarkerStateIf sessionId expected;; mret ()
  | c_setDeferredExecutePendingIfAbsent sessionId payload => setDeferredExecutePendingIfAbsent harness sessionId payload;; mret ()
  | c_clearDeferredExecutePendingIfMatches sessionId expected => clearDeferredExecutePendingIfMatches sessionId expected;; mret ()
  end.

(** Assignments of literal columns. *)
Ltac spare := intros; unfold spares, frozen_columns; repeat case_match;
  repeat first [apply List.Forall_nil | apply List.Forall_cons; [reflexivity|]].

(** Statements of a transaction, one after the other. *)
Ltac keep :=
  repeat first
    [ apply keeps_update; spare
    | match goal with |- keeps ?r ?db => match r with context [ensure_row ?h ?s db] =>
        apply (keeps_from grows _ _ (ensure_row h s db)); [apply grows_ensure|]; generalize (ensure_row h s db); intros
      end end
    | apply (keeps_bind grows); [|intros]
    | apply (keeps_bind_db grows); [|intros]
    | apply (keeps_db_bind grows)
    | progress unfold set_wrapup
    | progress unfold seed_policy
    | case_match
    | exact (grows_refl _) ].

Ltac head_of m := lazymatch m with ?f _ => head_of f | _ => m end.

(** The rule of a call's outermost construct; a call of another call is unfolded. *)
Ltac guarded_step :=
  lazymatch goal with
  | |- guarded (mret _) => apply (guarded_ret grows)
  | |- guarded (throw _) => apply (guarded_throw grows)
  | |- guarded (gets _) => apply (guarded_gets grows)
  | |- guarded (modify _) => apply (guarded_modify grows)
  | |- guarded (query _) => apply (guarded_query grows)
  | |- guarded (_ ≫= _) => apply (guarded_bind grows); [|intros]
  | |- guarded (catch _ _) => apply (guarded_catch grows)
  | |- guarded (write (ensure_row _ _)) => apply (guarded_write grows); intros; apply grows_ensure
  | |- guarded (ensured_update _ _ _ _) => apply guarded_ensured; spare
  | |- guarded (casUpdateJsonArrayColumn _ _ _ _ _ _) => apply guarded_cas; not_listed
  | |- guarded (casMergeStrippedIds _ _ _ _) => apply guarded_merge; unfold frozen_columns; set_solver
  | |- guarded (swap_cell _ _ _ _) => apply guarded_swap; not_listed
  | |- guarded (access _) => apply (guarded_access grows); intros; solve [keep]
  | |- guarded (transaction _) => apply (guarded_transaction grows); intros; cbn [fst]; solve [keep]
  | |- guarded (match _ with _ => _ end) => case_match
  | |- guarded (let _ := _ in _) => cbv zeta
  | |- guarded ?m => let h := head_of m in unfold h
  end.

Ltac guarded_steps := repeat guarded_step.

Lemma guarded_reserve sessionId a now : guarded (reserveProtectedTailDrainTokens harness sessionId a now).
Proof.
  unfold reserveProtectedTailDrainTokens. case_match; [apply (guarded_ret grows)|]. apply (guarded_access grows). intros db. unfold reserve_in.
  apply (keeps_from grows _ _ (ensure_row harness sessionId db)); [apply grows_ensure|].
  apply (keeps_bind_db grows); [unfold roll_window|intros db'; apply (keeps_bind_db grows); [unfold set_latch|intros db'']]; keep.
Qed.

Lemma guarded_heal now : guarded (healWedgedChannel2Claims now).
Proof.
  unfold healWedgedChannel2Claims. apply (guarded_catch grows); [|apply (guarded_ret grows)]. apply (guarded_write grows). intros db c s Hc x.
  unfold ids_in, cell_of. rewrite lookup_fmap. destruct (db !! s) as [r|]; [|done]. cbn [fmap option_fmap option_map].
  case_match; [|done]. rewrite spares_column; [done|spare|done].
Qed.

Lemma guarded_delta sessionId add remove : guarded (applyStrippedPlaceholderDelta harness sessionId add remove).
Proof.
  assert (∀ attempts, guarded (delta_loop attempts sessionId add remove)) as Hd.
  { induction attempts as [|attempts IH]; cbn [delta_loop]; repeat (apply IH || guarded_step). }
  unfold applyStrippedPlaceholderDelta. destruct add, remove; [apply (guarded_ret grows)|..];
    (apply (guarded_bind grows); [apply (guarded_write grows), grows_ensure|intros; apply Hd]).
Qed.

Lemma guarded_blanks sessionId additions overwrite : guarded (addTrailingBlankDecisions harness sessionId additions overwrite).
Proof.
  assert (∀ attempts, guarded (blanks_loop attempts sessionId overwrite additions)) as Hb.
  { induction attempts as [|attempts IH]; cbn [blanks_loop]; repeat (apply IH || guarded_step). }
  unfold addTrailingBlankDecisions. destruct additions; [apply (guarded_ret grows)|].
  apply (guarded_bind grows); [apply (guarded_write grows), grows_ensure|intros; apply Hb].
Qed.

Lemma guarded_clear_recovery sessionId firstUpdate : guarded (clearEmergencyRecovery harness sessionId firstUpdate).
Proof.
  unfold clearEmergencyRecovery. apply (guarded_bind grows); [|intros; apply (guarded_modify grows)].
  apply (guarded_access grows). intros db. cbv zeta.
  apply (keeps_from grows _ _ (ensure_row harness sessionId db)); [apply grows_ensure|].
  set (db' := ensure_row harness sessionId db).
  assert (∀ sets, spares sets → keeps (update_row sessionId always (fun _ => sets) db') db') as Hu
    by (intros sets Hs; by apply keeps_update).
  destruct firstUpdate as [e|]; [apply Hu; spare|].
  match goal with |- keeps (match ?r with Ok _ => _ | Err _ => _ end) _ =>
    assert (keeps r db') as Hr by (apply Hu; spare); destruct r end; [exact Hr|apply Hu; spare].
Qed.

Lemma guarded_perform c : guarded (perform c).
Proof.
  destruct c; cbn [perform]; (apply (guarded_bind grows); [|intros; apply (guarded_ret grows)]);
    repeat lazymatch goal with
      | |- guarded (reserveProtectedTailDrainTokens _ _ _ _) => apply guarded_reserve
      | |- guarded (healWedgedChannel2Claims _) => apply guarded_heal
      | |- guarded (clearEmergencyRecovery _ _ _) => apply guarded_clear_recovery
      | |- guarded (applyStrippedPlaceholderDelta _ _ _ _) => apply guarded_delta
      | |- guarded (addTrailingBlankDecisions _ _ _ _) => apply guarded_blanks
      | _ => guarded_step
      end.
Qed.

(** Calls one after the other; one that fails does not keep the others from running. *)
Fixpoint perform_all (calls : list session_call) (w : world) : world :=
  match calls with [] => w | c :: calls => perform_all calls (perform c w).2 end.

Lemma guarded_all calls : ∀ w, honest w → grows (w_db w) (w_db (perform_all calls w)) ∧ honest (perform_all calls w).
Proof.
  induction calls as [|c calls IH]; intros w Hw; cbn [perform_all]; [by split|].
  destruct (guarded_perform c w Hw) as [Hg Hw']. destruct (IH _ Hw') as [Hg' Hw'']. split; [|done].
  by transitivity (w_db (perform c w).2).
Qed.

(** C3: No sequence of calls, interleaved with what other processes commit and with
    failures at any access, takes back an id of a message whose reasoning, stale
    reductions or images were stripped, as long as the others do not either; and a call
    that reports its ids stored has stored every one of them, to stay.  A process that
    runs these calls, quietly or not, is such another one. *)
Theorem frozen_ids_never_shrink calls w : honest w →
  grows (w_db w) (w_db (perform_all calls w)) ∧
  (∀ sessionId c ids w', c ∈ frozen_columns → casMergeStrippedIds harness sessionId c ids w = (Ok true, w') →
     ∀ x, x ∈ ids → x ∈ ids_in c sessionId (w_db (perform_all calls w'))) ∧
  (∀ pauses reg, honest {| w_db := w_db w; w_reg := reg; w_pauses := pauses |} →
     honest {| w_db := w_db w; w_reg := reg;
               w_pauses := {| p_commits := [fun db =>
                                w_db (perform_all calls {| w_db := db; w_reg := reg; w_pauses := pauses |})];
                              p_fault := None |} :: pauses |}).
Proof.
  intros Hw. split; [by apply guarded_all|]. split.
  - intros sessionId c ids w' Hc E x Hx. pose proof (merge_spec sessionId c ids w Hc Hw) as Hm. rewrite E in Hm.
    destruct Hm as (_ & Hw' & Hin). destruct (guarded_all calls w' Hw') as [Hg _]. apply Hg; [done|]. by apply Hin.
  - intros pauses reg Hp. unfold honest in *. cbn [w_pauses] in *. constructor; [|done]. constructor; [|constructor].
    intros db. by apply (guarded_all calls {| w_db := db; w_reg := reg; w_pauses := pauses |}).
Qed.

End frozen.

(** ** Markers left for another process *)

Inductive slot_op (T : Type) := slot_put (m : T) | slot_clear | slot_take (m : T) | slot_look.
Inductive slot_answer (T : Type) := sa_done | sa_taken (b : bool) | sa_seen (m : option T) | sa_error.
Arguments slot_put {T}. Arguments slot_clear {T}. Arguments slot_take {T}. Arguments slot_look {T}.
Arguments sa_done {T}. Arguments sa_taken {T}. Arguments sa_seen {T}. Arguments sa_error {T}.

(** What a slot for one marker promises: the last marker put is seen until it is taken,
    and only who names it takes it. *)
Definition slot_step {T} `{EqDecision T} (op : slot_op T) (st : option T) : slot_answer T * option T :=
  match op with
  | slot_put m => (sa_done, Some m)
  | slot_clear => (sa_done, None)
  | slot_take m => if decide (st = Some m) then (sa_taken true, None) else (sa_taken false, st)
  | slot_look => (sa_seen st, st)
  end.

Fixpoint slot_spec {T} `{EqDecision T} (ops : list (slot_op T)) (st : option T) : list (slot_answer T) :=
  match ops with
  | [] => []
  | op :: ops => let '(a, st) := slot_step op st in a :: slot_spec ops st
  end.

Definition slot_answered {A T} (f : A → slot_answer T) (r : result sql_error A * database) : slot_answer T * database :=
  (match r.1 with Ok a => f a | Err _ => sa_error end, r.2).

Section slots.
Context {T : Type} (set : option T → M unit) (take : T → M bool) (look : M (option T)).

Definition slot_call (op : slot_op T) (db : database) : slot_answer T * database :=
  match op with
  | slot_put m => slot_answered (fun _ => sa_done) (run (set (Some m)) db)
  | slot_clear => slot_answered (fun _ => sa_done) (run (set None) db)
  | slot_take m => slot_answered sa_taken (run (take m) db)
  | slot_look => slot_answered sa_seen (run look db)
  end.

Fixpoint slot_run (ops : list (slot_op T)) (db : database) : list (slot_answer T) :=
  match ops with
  | [] => []
  | op :: ops => let '(a, db) := slot_call op db in a :: slot_run ops db
  end.

End slots.

#[export] Instance PendingCompactionMarker_eq_dec : EqDecision PendingCompactionMarker.
Proof. solve_decision. Defined.

#[export] Instance PendingPiCompactionMarker_eq_dec : EqDecision PendingPiCompactionMarker.
Proof. solve_decision. Defined.

Section handoff.
Context `{JsonEngine} (harness sessionId c : string) {T : Type} `{EqDecision T} (encode : T → value)
  (decode : value → option T) (ok : T → Prop) (look : M (option T)).

Definition ok_op (op : slot_op T) : Prop := match op with slot_put m | slot_take m => ok m | _ => True end.

(** The column holds exactly the text of the marker, or nothing. *)
Definition slot_holds (db : database) (st : option T) : Prop :=
  cell_of sessionId c db = bind_text (stableStringify ∘ encode <$> st) ∧ match st with Some m => ok m | None => True end.

Hypothesis nullable : c ∉ NOT_NULL_COLUMNS.
Hypothesis encode_plain : ∀ m, ok m → plain (encode m).
Hypothesis decode_encode : ∀ m, ok m → decode (normal (encode m)) = Some m.
Hypothesis look_reads : ∀ db st, slot_holds db st → run look db = (Ok st, db).

Lemma encode_inj m m' : ok m → ok m' → stableStringify (encode m) = stableStringify (encode m') → m = m'.
Proof.
  intros Hm Hm' E. pose proof (stable_roundtrip _ (encode_plain m Hm)) as E1.
  rewrite E, (stable_roundtrip _ (encode_plain m' Hm')) in E1. injection E1 as E1.
  pose proof (decode_encode m Hm) as D. rewrite <- E1, (decode_encode m' Hm') in D. by injection D.
Qed.

Lemma null_ok x : null_violation [(c, x)] = None.
Proof. cbn [null_violation]. destruct x; [by rewrite decide_False|done..]. Qed.

Lemma set_runs db st st' : slot_holds db st → match st' with Some m => ok m | None => True end →
  ∃ db', run (set_blob harness sessionId c (encode <$> st')) db = (Ok (), db') ∧ slot_holds db' st'.
Proof.
  intros _ Hok. unfold run, set_blob, write, access, transaction, mbind, M_bind.
  cbn [w_db w_pauses w_reg head from_option id p_commits no_pause foldl p_fault tail].
  destruct (ensure_row_Some harness sessionId db) as [r Hr]. rewrite (update_row_Some _ _ _ _ r), null_ok by done.
  cbn [always]. eexists. split; [reflexivity|]. cbn [w_db]. split; [|done]. rewrite cell_of_insert, decide_True, column_set by done.
  cbn [assigned]. rewrite String.eqb_refl. cbn [from_option id]. by rewrite <- option_fmap_compose.
Qed.

Lemma take_runs db st m : slot_holds db st → ok m →
  ∃ db', run (clear_blob_if sessionId c (encode m)) db = (Ok (bool_decide (st = Some m)), db') ∧
    slot_holds db' (if decide (st = Some m) then None else st).
Proof.
  intros [Hc Hst] Hm. unfold run, clear_blob_if, access, transaction.
  cbn [w_db w_pauses w_reg head from_option id p_commits no_pause foldl p_fault tail].
  unfold update_row. unfold cell_of in Hc. destruct (db !! sessionId) as [r|] eqn:Er.
  - rewrite Hc. destruct st as [m'|]; cbn [fmap option_fmap option_map bind_text sql_eq compose].
    + destruct (String.eqb_spec (stableStringify (encode m')) (stableStringify (encode m))) as [E|Hne].
      * apply encode_inj in E as ->; [|done..]. rewrite bool_decide_true, decide_True by done. rewrite null_ok.
        eexists. split; [reflexivity|]. cbn [w_db]. split; [|done]. rewrite cell_of_insert, decide_True, column_set by done.
        cbn [assigned]. by rewrite String.eqb_refl.
      * rewrite bool_decide_false, decide_False by congruence. eexists. split; [reflexivity|]. cbn [w_db].
        split; [|done]. unfold cell_of. by rewrite Er.
    + eexists. split; [reflexivity|]. cbn [w_db]. split; [|done]. unfold cell_of. by rewrite Er.
  - destruct st as [m'|]; [done|]. eexists. split; [reflexivity|]. cbn [w_db]. split; [|done]. unfold cell_of. by rewrite Er.
Qed.

Lemma slot_refines ops : Forall ok_op ops → ∀ db st, slot_holds db st →
  slot_run (fun st => set_blob harness sessionId c (encode <$> st)) (fun m => clear_blob_if sessionId c (encode m)) look ops db =
  slot_spec ops st.
Proof.
  induction 1 as [|op ops Hop _ IH]; intros db st Hs; [done|]. cbn [slot_run slot_spec].
  destruct op as [m| |m|]; cbn [slot_call slot_step ok_op] in *.
  - destruct (set_runs db st (Some m) Hs Hop) as (db' & E & Hs'). cbn [fmap option_fmap option_map] in *. rewrite E.
    unfold slot_answered. cbn [fst snd]. f_equal. by apply IH.
  - destruct (set_runs db st None Hs I) as (db' & E & Hs'). cbn [fmap option_fmap option_map] in *. rewrite E.
    unfold slot_answered. cbn [fst snd]. f_equal. by apply IH.
  - destruct (take_runs db st m Hs Hop) as (db' & E & Hs'). rewrite E. unfold slot_answered. cbn [fst snd].
    case_bool_decide as Hd; case_decide; try done; f_equal; by apply IH.
  - rewrite (look_reads db st Hs). unfold slot_answered. cbn [fst snd]. f_equal. by apply IH.
Qed.

End handoff.

Section markers.
Context `{JsonEngine} (harness sessionId : string).

Definition marker_ok (m : PendingCompactionMarker) : Prop := numeral_ok (pm_ordinal m) ∧ numeral_ok (pm_publishedAt m).

Definition pi_marker_ok (m : PendingPiCompactionMarker) : Prop :=
  numeral_ok (pp_ordinal m) ∧ numeral_ok (pp_tokensBefore m) ∧ numeral_ok (pp_publishedAt m).

Lemma stable_nonempty v : plain v → stableStringify v ≠ EmptyString.
Proof. intros Hp E. pose proof (stable_roundtrip v Hp) as Hr. rewrite E in Hr. by vm_compute in Hr. Qed.

Lemma blob_value_text v : plain v → blob_value (SqlText (stableStringify v)) = Some (normal v).
Proof.
  intros Hp. unfold blob_value, nonempty. cbn [text_cell mbind option_bind].
  destruct (is_empty (stableStringify v)) eqn:E; [|by apply stable_roundtrip].
  exfalso. apply (stable_nonempty v Hp). by destruct (stableStringify v).
Qed.

Lemma marker_plain m : marker_ok m → plain (pending_value m).
Proof.
  intros [? ?]. split; [|cbn [List.fold_right snd plain]; tauto].
  cbn [JsMap.keys fmap list_fmap fst]. apply (bool_decide_unpack (NoDup _)). vm_compute. reflexivity.
Qed.

Lemma pi_marker_plain m : pi_marker_ok m → plain (pi_pending_value m).
Proof.
  intros (? & ? & ?). split; [|cbn [List.fold_right snd plain]; tauto].
  cbn [JsMap.keys fmap list_fmap fst]. apply (bool_decide_unpack (NoDup _)). vm_compute. reflexivity.
Qed.

Lemma marker_back m : isPendingCompactionMarker (normal (pending_value m)) = Some m.
Proof. by destruct m. Qed.

Lemma marker_nonempty v : plain v → nonempty (stableStringify v) = Some (stableStringify v).
Proof. intros Hp. pose proof (stable_nonempty v Hp). unfold nonempty. by destruct (stableStringify v). Qed.

Lemma pi_marker_back m : isPendingPiCompactionMarker (normal (pi_pending_value m)) = Some m.
Proof. by destruct m. Qed.

Lemma look_marker db st : slot_holds sessionId "pending_compaction_marker_state" pending_value marker_ok db st →
  run (getPendingCompactionMarkerState sessionId) db = (Ok st, db).
Proof.
  intros [Hc Hok]. unfold run, getPendingCompactionMarkerState, query, access, transaction, pending_in.
  cbn [w_db w_pauses w_reg head from_option id p_commits no_pause foldl p_fault tail]. rewrite Hc.
  destruct st as [m|]; cbn [fmap option_fmap option_map bind_text compose]; [|done].
  rewrite blob_value_text by by apply marker_plain. cbn [mbind option_bind]. by rewrite marker_back.
Qed.

Lemma look_pi_marker db st : slot_holds sessionId "pending_pi_compaction_marker_state" pi_pending_value pi_marker_ok db st →
  run (getPendingPiCompactionMarkerState sessionId) db = (Ok st, db).
Proof.
  intros [Hc Hok]. unfold run, getPendingPiCompactionMarkerState. unfold mbind at 1, M_bind at 1. unfold query, access, transaction.
  cbn [w_db w_pauses w_reg head from_option id p_commits no_pause foldl p_fault tail]. rewrite Hc.
  destruct st as [m|]; cbn [fmap option_fmap option_map bind_text compose text_cell mbind option_bind]; [|done].
  pose proof (pi_marker_plain m Hok) as Hp. rewrite marker_nonempty, stable_roundtrip by done.
  cbn [mbind option_bind]. by rewrite pi_marker_back.
Qed.

(** C28: The columns that hand a compaction marker from the process that publishes it to
    the one that applies it behave as a slot for one marker, for both hosts: whatever
    the order of the calls, a look sees the last marker put, field by field, until a
    take that names exactly that marker empties the slot; a take of an older marker
    leaves a newer one in place. *)
Theorem pending_markers_refine db :
  (∀ ops, Forall (ok_op marker_ok) ops → cell_of sessionId "pending_compaction_marker_state" db = SqlNull →
   slot_run (setPendingCompactionMarkerState harness sessionId) (clearPendingCompactionMarkerStateIf sessionId)
     (getPendingCompactionMarkerState sessionId) ops db = slot_spec ops None) ∧
  (∀ ops, Forall (ok_op pi_marker_ok) ops → cell_of sessionId "pending_pi_compaction_marker_state" db = SqlNull →
   slot_run (setPendingPiCompactionMarkerState harness sessionId) (clearPendingPiCompactionMarkerStateIf sessionId)
     (getPendingPiCompactionMarkerState sessionId) ops db = slot_spec ops None).
Proof.
  split; intros ops Hops Hc.
  - by apply (slot_refines harness sessionId "pending_compaction_marker_state" pending_value isPendingCompactionMarker
      marker_ok); [not_listed|apply marker_plain|intros; apply marker_back|apply look_marker| |].
  - by apply (slot_refines harness sessionId "pending_pi_compaction_marker_state" pi_pending_value isPendingPiCompactionMarker
      pi_marker_ok); [not_listed|apply pi_marker_plain|intros; apply pi_marker_back|apply look_pi_marker| |].
Qed.

End markers.

(** ** Witnesses *)

Definition sample_marker (ordinal : Z) : PendingCompactionMarker :=
  {| pm_ordinal := nofZ ordinal; pm_endMessageId := "msg_9"; pm_publishedAt := nofZ 1700000000 |}.

Lemma pending_markers_refine_witness :
  slot_run (@setPendingCompactionMarkerState integer_engine "opencode" "s")
    (@clearPendingCompactionMarkerStateIf integer_engine "s") (@getPendingCompactionMarkerState integer_engine "s")
    [slot_put (sample_marker 4); slot_look; slot_put (sample_marker 9); slot_take (sample_marker 4); slot_look;
     slot_take (sample_marker 9); slot_look] ∅ =
  [sa_done; sa_seen (Some (sample_marker 4)); sa_done; sa_taken false; sa_seen (Some (sample_marker 9));
   sa_taken true; sa_seen None].
Proof.
  destruct (@pending_markers_refine integer_engine "opencode" "s" ∅) as [E _]. rewrite E; [vm_compute; reflexivity| |reflexivity].
  repeat (constructor; [cbn [ok_op]; first [exact I | (unfold marker_ok, numeral_ok; split_and!; vm_compute; reflexivity)]|]). constructor.
Defined.

(** Another process adds ids between a read and its write; an access fails. *)
Definition sample_world : world :=
  {| w_db := ∅; w_reg := no_registries;
     w_pauses := [no_pause; no_pause;
                  {| p_commits := [fun db => (@perform integer_engine "opencode"
                       (c_addStaleReduceStrippedIds "s" ["b"])
                       {| w_db := db; w_reg := no_registries; w_pauses := [] |}).2.(w_db)]; p_fault := None |}] |}%string.

Lemma frozen_ids_never_shrink_witness :
  (run (@getStaleReduceStrippedIds integer_engine "s")
     (w_db (@perform_all integer_engine "opencode" [c_addStaleReduceStrippedIds "s" ["a"]] sample_world))).1 = Ok ["b"; "a"]%string ∧
  @grows integer_engine (w_db sample_world)
    (w_db (@perform_all integer_engine "opencode" [c_addStaleReduceStrippedIds "s" ["a"]] sample_world)).
Proof.
  split; [vm_compute; reflexivity|].
  apply (@frozen_ids_never_shrink integer_engine "opencode" [c_addStaleReduceStrippedIds "s" ["a"]%string] sample_world).
  unfold honest. cbn [w_pauses sample_world]. repeat (constructor; [|]); try constructor.
  intros db. apply (@guarded_perform integer_engine "opencode" (c_addStaleReduceStrippedIds "s" ["b"]%string)
    {| w_db := db; w_reg := no_registries; w_pauses := [] |}). constructor.
Defined.
