(* ===== verification/TaskScheduler.v ===== *)
(** * The dreamer's task scheduler

    Models packages/plugin/src/features/magic-context/dreamer/task-registry.ts,
    storage-task-schedule.ts and task-scheduler.ts: the row of every (project, task),
    the reconciliation of the rows with the configuration, the tasks that are due, and
    the run of the tasks of one lease domain under its lease (Leases.v), while other
    processes and the other domains of the same tick commit between the accesses.  Every statement is
    an access that may fail.  The gates of the tasks (task-gates.ts) and the executor
    are calls, arguments of the model; [Date.now] reads an arbitrary clock.  The
    promises of a tick are the calls it starts.  Log lines, the backlogs of a manual run
    and the configuration only the executor reads are left out. *)

From S2P Require Import Prelude JsNumber JsMap JsValue JsString JsJson Cron Leases Access.

(** ** The registry of tasks *)

Inductive DreamTaskName :=
| map_memories | verify | verify_broad | curate | compress_cues | classify_memories | retrospective | maintain_docs
| evaluate_smart_notes | review_user_memories | promote_primers | refresh_primers.

#[export] Instance DreamTaskName_eq_dec : EqDecision DreamTaskName.
Proof. solve_decision. Defined.

Definition CANONICAL_DREAM_TASKS : list DreamTaskName :=
  [map_memories; verify; verify_broad; curate; compress_cues; classify_memories; retrospective; maintain_docs;
   evaluate_smart_notes; review_user_memories; promote_primers; refresh_primers].

Definition task_text (t : DreamTaskName) : string :=
  match t with
  | map_memories => "map-memories" | verify => "verify" | verify_broad => "verify-broad" | curate => "curate"
  | compress_cues => "compress-cues" | classify_memories => "classify-memories" | retrospective => "retrospective"
  | maintain_docs => "maintain-docs" | evaluate_smart_notes => "evaluate-smart-notes"
  | review_user_memories => "review-user-memories" | promote_primers => "promote-primers"
  | refresh_primers => "refresh-primers"
  end.

Definition MEMORY_DOMAIN_TASKS : list DreamTaskName :=
  [map_memories; verify; verify_broad; curate; compress_cues; classify_memories; retrospective; promote_primers;
   refresh_primers].

Inductive LeaseKind := kind_memory | kind_maintain_docs | kind_evaluate_smart_notes | kind_user_memories.

#[export] Instance LeaseKind_eq_dec : EqDecision LeaseKind.
Proof. solve_decision. Defined.

Definition leaseKindFor (task : DreamTaskName) : LeaseKind :=
  if bool_decide (task ∈ MEMORY_DOMAIN_TASKS) then kind_memory
  else match task with
       | review_user_memories => kind_user_memories
       | promote_primers | refresh_primers => kind_memory
       | maintain_docs => kind_maintain_docs
       | evaluate_smart_notes => kind_evaluate_smart_notes
       | _ => kind_memory
       end.

Definition kind_text (k : LeaseKind) : string :=
  match k with
  | kind_memory => "memory" | kind_maintain_docs => "maintain-docs"
  | kind_evaluate_smart_notes => "evaluate-smart-notes" | kind_user_memories => "user-memories"
  end.

Definition leaseKeyFor (task : DreamTaskName) (projectIdentity : string) : string :=
  match leaseKindFor task with
  | kind_user_memories => "user-memories"
  | kind => (kind_text kind ++ ":" ++ projectIdentity)%string
  end.

Definition isCanonicalDreamTask (v : string) : bool := bool_decide (v ∈ task_text <$> CANONICAL_DREAM_TASKS).

(** [CANONICAL_DREAM_TASKS.indexOf(task)]; every task is in the list. *)
Definition task_index (t : DreamTaskName) : Z :=
  match list_find (eq t) CANONICAL_DREAM_TASKS with Some (i, _) => Z.of_nat i | None => -1 end.

Definition compareTaskOrder (a b : DreamTaskName) : Z := task_index a - task_index b.

(** ** The rows *)

(** What the code writes; the two fields it may leave out are left out as none. *)
Record TaskScheduleStateRow := {
  ts_projectPath : string; ts_task : DreamTaskName; ts_lastRunAt : option Z; ts_nextDueAt : option Z;
  ts_schedule : option string; ts_lastStatus : option string; ts_lastError : option string; ts_retryCount : Z;
  ts_lastCheckedCommit : option string; ts_lastBroadRunAt : option (option Z); ts_retrospectiveWatermarkMs : option Z
}.

(** A row of task_schedule_state; its key is the map's. *)
Record RawRow := {
  last_run_at : option Z; next_due_at : option Z; schedule : option string; last_status : option string;
  last_error : option string; retry_count : Z; last_checked_commit : option string; last_broad_run_at : option Z;
  retrospective_watermark_ms : option Z
}.

(** The tables the scheduler reads and writes. *)
Record store := { st_tasks : gmap (string * string) RawRow; st_dream : DreamLease.dream_state }.

Definition toRow (projectPath : string) (task : DreamTaskName) (r : RawRow) : TaskScheduleStateRow :=
  {| ts_projectPath := projectPath; ts_task := task; ts_lastRunAt := last_run_at r; ts_nextDueAt := next_due_at r;
     ts_schedule := schedule r; ts_lastStatus := last_status r; ts_lastError := last_error r;
     ts_retryCount := retry_count r; ts_lastCheckedCommit := last_checked_commit r;
     ts_lastBroadRunAt := Some (last_broad_run_at r); ts_retrospectiveWatermarkMs := retrospective_watermark_ms r |}.

Definition state_in (projectPath : string) (task : DreamTaskName) (st : store) : option TaskScheduleStateRow :=
  toRow projectPath task <$> st_tasks st !! (projectPath, task_text task).

Definition with_tasks (f : gmap (string * string) RawRow → gmap (string * string) RawRow) (st : store) : store :=
  {| st_tasks := f (st_tasks st); st_dream := st_dream st |}.

Definition with_dream (d : DreamLease.dream_state) (st : store) : store := {| st_tasks := st_tasks st; st_dream := d |}.

(** The rows of a project whose task the configuration does not name. *)
Definition retired (projectPath : string) (canonicalTasks : list DreamTaskName) (k : string * string) : bool :=
  String.eqb k.1 projectPath && negb (bool_decide (k.2 ∈ task_text <$> canonicalTasks)).

Definition prune (projectPath : string) (canonicalTasks : list DreamTaskName) (st : store) : store :=
  match canonicalTasks with
  | [] => st
  | _ => with_tasks (filter (fun e => retired projectPath canonicalTasks e.1 = false)) st
  end.

Definition seed_row (nextDueAt lastRunAt : option Z) (schedule : string) : RawRow :=
  {| last_run_at := lastRunAt; next_due_at := nextDueAt; schedule := Some schedule; last_status := None;
     last_error := None; retry_count := 0; last_checked_commit := None; last_broad_run_at := None;
     retrospective_watermark_ms := None |}.

(** INSERT ... ON CONFLICT DO NOTHING. *)
Definition seed_in (projectPath : string) (task : DreamTaskName) (nextDueAt lastRunAt : option Z) (schedule : string)
    (st : store) : store :=
  match st_tasks st !! (projectPath, task_text task) with
  | Some _ => st
  | None => with_tasks (<[(projectPath, task_text task) := seed_row nextDueAt lastRunAt schedule]>) st
  end.

(** [COALESCE(a, b)]. *)
Definition coalesce {A} (a b : option A) : option A := match a with Some _ => a | None => b end.

(** The row an upsert leaves, given the stored one. *)
Definition written (row : TaskScheduleStateRow) (old : option RawRow) : RawRow :=
  {| last_run_at := ts_lastRunAt row; next_due_at := ts_nextDueAt row; schedule := ts_schedule row;
     last_status := ts_lastStatus row; last_error := ts_lastError row; retry_count := ts_retryCount row;
     last_checked_commit := coalesce (ts_lastCheckedCommit row) (old ≫= last_checked_commit);
     last_broad_run_at := match ts_lastBroadRunAt row with Some v => v | None => old ≫= last_broad_run_at end;
     retrospective_watermark_ms := coalesce (ts_retrospectiveWatermarkMs row) (old ≫= retrospective_watermark_ms) |}.

Definition write_in (row : TaskScheduleStateRow) (st : store) : store :=
  let k := (ts_projectPath row, task_text (ts_task row)) in
  with_tasks (<[k := written row (st_tasks st !! k)]>) st.

(** ** Calls *)

(** What the process remembers: how far its clock was read. *)
Record memory := { mem_clock : nat → Z; mem_reads : nat }.

Abbreviation M := (Access.M string store memory).
Abbreviation world := (Access.world string store memory).

Definition Date_now : M Z :=
  t ← gets (fun m => mem_clock m (mem_reads m));
  modify (fun m => {| mem_clock := mem_clock m; mem_reads := S (mem_reads m) |});;
  mret t.

Definition getTaskScheduleState (projectPath : string) (task : DreamTaskName) : M (option TaskScheduleStateRow) :=
  query (state_in projectPath task).

Definition pruneNonCanonicalTaskRows (projectPath : string) (canonicalTasks : list DreamTaskName) : M unit :=
  match canonicalTasks with [] => mret () | _ => write (prune projectPath canonicalTasks) end.

Definition seedTaskScheduleState (projectPath : string) (task : DreamTaskName) (nextDueAt lastRunAt : option Z)
    (schedule : string) : M unit := write (seed_in projectPath task nextDueAt lastRunAt schedule).

Definition writeTaskScheduleState (row : TaskScheduleStateRow) : M unit := write (write_in row).

Definition deleteTaskScheduleRowsForProject (projectPath : string) : M Z :=
  access (fun st =>
    let kept := filter (fun e => e.1.1 ≠ projectPath) (st_tasks st) in
    Ok (Z.of_nat (size (st_tasks st)) - Z.of_nat (size kept), with_tasks (fun _ => kept) st)).

(** The greatest last run of a project, if it is positive. *)
Definition getMostRecentTaskRunAt (projectPath : string) : M (option Z) :=
  query (fun st =>
    let runs := omap (fun e => if bool_decide (e.1.1 = projectPath) then last_run_at e.2 else None)
                  (map_to_list (st_tasks st)) in
    v ← foldl (fun m t => Some (match m with Some u => Z.max u t | None => t end)) None runs;
    if 0 <? v then Some v else None).

(** ** The scheduler *)

Definition MAX_TASK_RETRIES : Z := 3.

Record DreamTaskRuntimeConfig := { rc_task : DreamTaskName; rc_schedule : string; rc_promotionThreshold : option Z }.

#[export] Instance DreamTaskRuntimeConfig_eq_dec : EqDecision DreamTaskRuntimeConfig.
Proof. solve_decision. Defined.

Inductive task_status := completed | failed | skipped.

Definition status_text (s : task_status) : string :=
  match s with completed => "completed" | failed => "failed" | skipped => "skipped" end.

(** What an executor reports; a failure is transient or not. *)
Inductive TaskExecOutcome :=
| exec_completed (retrospectiveWatermarkMs : option Z)
| exec_failed (transient : bool) (error : option string).

Record TaskExecutorContext := {
  xc_projectIdentity : string; xc_holderId : string; xc_leaseKey : string; xc_leaseAcquisition : DreamLease.LeaseAcquisition
}.

Record DueTask := { du_config : DreamTaskRuntimeConfig; du_scheduledAt : Z }.

Record gate_args := {
  ga_projectIdentity : string; ga_lastRunAt : option Z; ga_retrospectiveWatermarkMs : option Z; ga_promotionThreshold : Z
}.

(** What the callbacks of a run report, in order. *)
Inductive report := onRan (t : DreamTaskName) | onFailed (t : DreamTaskName) (error : option string) | onBusy (t : DreamTaskName).

Definition LEASE_WAIT_POLL_MS : Z := 2000.
Definition MANUAL_RUN_LEASE_WAIT_MS : Z := 60000.

Section scheduler.
Context `{Engine} (local : Z → civil) (evaluateTaskGate : DreamTaskName → gate_args → M bool)
  (executor : DreamTaskRuntimeConfig → TaskExecutorContext → M TaskExecOutcome).

Definition next_due (expression : string) (afterMs : Z) (consumed : option Z) : option Z :=
  nextDueAtMs local expression afterMs consumed MAX_SEARCH_MS.

Definition blank (s : string) : bool := match trim_units (code_units s) with [] => true | _ => false end.

(** The last run a project had before the tasks had rows of their own. *)
Definition legacy_run (projectIdentity : string) (st : store) : option Z :=
  v ← DreamLease.getDreamState (st_dream st) ("last_dream_at:" ++ projectIdentity)%string;
  n ← (if String.eqb v EmptyString then None else DreamLease.Number_of v);
  if n =? 0 then None else Some n.

Definition ensureSeeded (projectIdentity : string) (config : DreamTaskRuntimeConfig) (now : Z) : M unit :=
  state ← getTaskScheduleState projectIdentity (rc_task config);
  match state with
  | Some _ => mret ()
  | None =>
      lastRunAt ← query (legacy_run projectIdentity);
      seedTaskScheduleState projectIdentity (rc_task config) (next_due (rc_schedule config) now None) lastRunAt
        (rc_schedule config)
  end.

(** The stored row with another schedule, and its next due instant and retries. *)
Definition rescheduled (stored : TaskScheduleStateRow) (schedule : string) (nextDueAt : option Z) (retryCount : Z)
    : TaskScheduleStateRow :=
  {| ts_projectPath := ts_projectPath stored; ts_task := ts_task stored; ts_lastRunAt := ts_lastRunAt stored;
     ts_nextDueAt := nextDueAt; ts_schedule := Some schedule; ts_lastStatus := ts_lastStatus stored;
     ts_lastError := ts_lastError stored; ts_retryCount := retryCount;
     ts_lastCheckedCommit := ts_lastCheckedCommit stored; ts_lastBroadRunAt := ts_lastBroadRunAt stored;
     ts_retrospectiveWatermarkMs := ts_retrospectiveWatermarkMs stored |}.

Definition reconcileSchedule (projectIdentity : string) (config : DreamTaskRuntimeConfig) (now : Z) : M unit :=
  ensureSeeded projectIdentity config now;;
  state ← getTaskScheduleState projectIdentity (rc_task config);
  match state with
  | None => mret ()
  | Some stored =>
      if bool_decide (ts_schedule stored = Some (rc_schedule config)) then mret ()
      else if blank (rc_schedule config) then
        writeTaskScheduleState (rescheduled stored (rc_schedule config) None (ts_retryCount stored))
      else
        match ts_schedule stored, ts_nextDueAt stored with
        | None, Some _ =>
            writeTaskScheduleState (rescheduled stored (rc_schedule config) (ts_nextDueAt stored) (ts_retryCount stored))
        | _, _ =>
            writeTaskScheduleState (rescheduled stored (rc_schedule config) (next_due (rc_schedule config) now None) 0)
        end
  end.

Fixpoint due_loop (projectIdentity : string) (tasks : list DreamTaskRuntimeConfig) (now : Z) : M (list DueTask) :=
  match tasks with
  | [] => mret []
  | config :: tasks =>
      reconcileSchedule projectIdentity config now;;
      state ← getTaskScheduleState projectIdentity (rc_task config);
      due ← due_loop projectIdentity tasks now;
      mret (match state ≫= ts_nextDueAt with
            | Some at_ => if at_ <=? now then {| du_config := config; du_scheduledAt := at_ |} :: due else due
            | None => due
            end)
  end.

Definition planDueTasks (projectIdentity : string) (tasks : list DreamTaskRuntimeConfig) (now : Z) : M (list DueTask) :=
  pruneNonCanonicalTaskRows projectIdentity (rc_task <$> tasks);;
  due_loop projectIdentity tasks now.

Definition readLastRunAt (projectIdentity : string) (task : DreamTaskName) : M (option Z) :=
  state ← getTaskScheduleState projectIdentity task; mret (state ≫= ts_lastRunAt).

Definition readRetrospectiveWatermark (projectIdentity : string) (task : DreamTaskName) : M (option Z) :=
  state ← getTaskScheduleState projectIdentity task; mret (state ≫= ts_retrospectiveWatermarkMs).

Definition task_row (projectIdentity : string) (due : DueTask) (lastRunAt nextDueAt : option Z) (status : task_status)
    (error : option string) (retryCount : Z) (watermark : option Z) : TaskScheduleStateRow :=
  {| ts_projectPath := projectIdentity; ts_task := rc_task (du_config due); ts_lastRunAt := lastRunAt;
     ts_nextDueAt := nextDueAt; ts_schedule := Some (rc_schedule (du_config due));
     ts_lastStatus := Some (status_text status); ts_lastError := error; ts_retryCount := retryCount;
     ts_lastCheckedCommit := None; ts_lastBroadRunAt := None; ts_retrospectiveWatermarkMs := watermark |}.

Definition advanceAfterRun (projectIdentity : string) (due : DueTask) (finishedAt : Z) (status : task_status)
    (error : option string) (watermark : option Z) : M unit :=
  lastRunAt ← match status with
              | completed => mret (Some finishedAt)
              | _ => readLastRunAt projectIdentity (rc_task (du_config due))
              end;
  writeTaskScheduleState (task_row projectIdentity due lastRunAt
    (next_due (rc_schedule (du_config due)) finishedAt (Some (du_scheduledAt due))) status error 0 watermark).

Definition recordTransientFailure (projectIdentity : string) (due : DueTask) (finishedAt : Z) (error : option string)
    : M unit :=
  prior ← getTaskScheduleState projectIdentity (rc_task (du_config due));
  let retryCount := default 0 (ts_retryCount <$> prior) + 1 in
  let priorLastRun := prior ≫= ts_lastRunAt in
  if MAX_TASK_RETRIES <? retryCount then
    writeTaskScheduleState (task_row projectIdentity due priorLastRun
      (next_due (rc_schedule (du_config due)) finishedAt (Some (du_scheduledAt due))) failed error 0 None)
  else
    writeTaskScheduleState (task_row projectIdentity due priorLastRun
      (if blank (rc_schedule (du_config due)) then None
       else Some (default (du_scheduledAt due) (prior ≫= ts_nextDueAt))) failed error retryCount None).

(** Evaluates the gate of a task on its row. *)
Definition gate (projectIdentity : string) (due : DueTask) : M bool :=
  lastRunAt ← readLastRunAt projectIdentity (rc_task (du_config due));
  watermark ← readRetrospectiveWatermark projectIdentity (rc_task (du_config due));
  evaluateTaskGate (rc_task (du_config due))
    {| ga_projectIdentity := projectIdentity; ga_lastRunAt := lastRunAt; ga_retrospectiveWatermarkMs := watermark;
       ga_promotionThreshold := default 3 (rc_promotionThreshold (du_config due)) |}.

(** The lease calls, each one access; the ownership test reads its rows at once. *)
Definition acquire (holderId leaseKey : string) : M (option DreamLease.LeaseAcquisition) :=
  checkedAt ← Date_now; now ← Date_now;
  access (fun st => let '(d, a) := DreamLease.acquireLeaseWithAcquisition (st_dream st) holderId leaseKey checkedAt now in
                    Ok (a, with_dream d st)).

Definition owns (holderId : string) (generation : Z) (leaseKey : string) : M bool :=
  now ← Date_now;
  query (fun st => DreamLease.leaseOwnershipMatches (st_dream st) holderId generation leaseKey now).

Definition release (holderId leaseKey : string) : M unit :=
  write (fun st => with_dream (DreamLease.releaseLease (st_dream st) holderId leaseKey) st).

(** The polls of a busy lease until the deadline. *)
Fixpoint wait_lease (polls : nat) (deadline : Z) (holderId leaseKey : string) : M (option DreamLease.LeaseAcquisition) :=
  match polls with
  | O => mret None
  | S polls =>
      now ← Date_now;
      if now <? deadline then
        acquisition ← acquire holderId leaseKey;
        match acquisition with Some a => mret (Some a) | None => wait_lease polls deadline holderId leaseKey end
      else mret None
  end.

(** One task of a group: false when the lease is lost. *)
Definition run_task (projectIdentity holderId leaseKey : string) (a : DreamLease.LeaseAcquisition) (forceGate : bool)
    (due : DueTask) : M (bool * list report) :=
  let task := rc_task (du_config due) in
  own ← owns holderId (DreamLease.la_generation a) leaseKey;
  if negb own then mret (false, [])
  else
    pass ← if forceGate then (mret true : M bool) else gate projectIdentity due;
    if negb pass then
      now ← Date_now; advanceAfterRun projectIdentity due now skipped None None;; mret (true, [])
    else
      outcome ← catch_with
        (executor (du_config due) {| xc_projectIdentity := projectIdentity; xc_holderId := holderId;
                                     xc_leaseKey := leaseKey; xc_leaseAcquisition := a |})
        (fun e => mret (exec_failed true (Some e)));
      finishedAt ← Date_now;
      match outcome with
      | exec_completed watermark =>
          advanceAfterRun projectIdentity due finishedAt completed None watermark;; mret (true, [onRan task])
      | exec_failed true error =>
          recordTransientFailure projectIdentity due finishedAt error;; mret (true, [onFailed task error])
      | exec_failed false error =>
          advanceAfterRun projectIdentity due finishedAt failed error None;; mret (true, [onFailed task error])
      end.

Fixpoint run_tasks (projectIdentity holderId leaseKey : string) (a : DreamLease.LeaseAcquisition) (forceGate : bool)
    (group : list DueTask) : M (list report) :=
  match group with
  | [] => mret []
  | due :: group =>
      '(go, reports) ← run_task projectIdentity holderId leaseKey a forceGate due;
      if go : bool then
        more ← run_tasks projectIdentity holderId leaseKey a forceGate group; mret (reports ++ more)
      else mret reports
  end.

Definition by_task_order (a b : DueTask) : Z := compareTaskOrder (rc_task (du_config a)) (rc_task (du_config b)).

(** [leaseWaitMs], if the caller waits, with a bound on the polls it makes. *)
Definition runDomainGroup (projectIdentity holderId : string) (group : list DueTask) (forceGate : bool)
    (leaseWait : option (Z * nat)) : M (list report) :=
  match group with
  | [] => mret []
  | first :: _ =>
      let leaseKey := leaseKeyFor (rc_task (du_config first)) projectIdentity in
      acquisition ← acquire holderId leaseKey;
      acquisition ← match acquisition, leaseWait with
                    | None, Some (leaseWaitMs, polls) =>
                        now ← Date_now; wait_lease polls (now + leaseWaitMs) holderId leaseKey
                    | _, _ => mret acquisition
                    end;
      match acquisition with
      | None => mret ((fun due => onBusy (rc_task (du_config due))) <$> group)
      | Some a =>
          finally (run_tasks projectIdentity holderId leaseKey a forceGate (js_sort by_task_order group))
            (release holderId leaseKey)
      end
  end.

(** The groups of a list by lease kind, in the order the kinds appear. *)
Definition add_to_group (groups : jsmap LeaseKind (list DueTask)) (d : DueTask) : jsmap LeaseKind (list DueTask) :=
  let kind := leaseKindFor (rc_task (du_config d)) in
  JsMap.set groups kind (default [] (JsMap.get groups kind) ++ [d]).

Definition group_by_kind (due : list DueTask) : list (list DueTask) := (foldl add_to_group [] due).*2.

Fixpoint gate_due (projectIdentity : string) (due : list DueTask) (now : Z) : M (list DueTask) :=
  match due with
  | [] => mret []
  | d :: due =>
      pass ← gate projectIdentity d;
      (if pass : bool then mret () else advanceAfterRun projectIdentity d now skipped None None);;
      gated ← gate_due projectIdentity due now;
      mret (if pass : bool then d :: gated else gated)
  end.

(** The groups a tick starts; it answers how many tasks they hold. *)
Definition runDueTasksForProject (projectIdentity : string) (tasks : list DreamTaskRuntimeConfig) (now : Z)
    : M (Z * list (list DueTask)) :=
  due ← planDueTasks projectIdentity tasks now;
  match due with
  | [] => mret (0, [])
  | _ =>
      gated ← gate_due projectIdentity due now;
      mret (lengthZ gated, group_by_kind gated)
  end.

(** ** Manual runs *)

Record ManualRunResult := { mr_ran : list DreamTaskName; mr_skippedNoWork : list DreamTaskName;
  mr_deferredBusy : list DreamTaskName; mr_failed : list DreamTaskName; mr_failureDetails : list string }.

Definition no_manual_result : ManualRunResult :=
  {| mr_ran := []; mr_skippedNoWork := []; mr_deferredBusy := []; mr_failed := []; mr_failureDetails := [] |}.

(** What the callbacks do to the result. *)
Definition note_report (res : ManualRunResult) (r : report) : ManualRunResult :=
  match r with
  | onRan t => {| mr_ran := mr_ran res ++ [t]; mr_skippedNoWork := mr_skippedNoWork res;
                  mr_deferredBusy := mr_deferredBusy res; mr_failed := mr_failed res;
                  mr_failureDetails := mr_failureDetails res |}
  | onFailed t error =>
      {| mr_ran := mr_ran res; mr_skippedNoWork := mr_skippedNoWork res; mr_deferredBusy := mr_deferredBusy res;
         mr_failed := mr_failed res ++ [t];
         mr_failureDetails := match error with
                              | Some e => if String.eqb e EmptyString then mr_failureDetails res
                                          else mr_failureDetails res ++ [(task_text t ++ ": " ++ e)%string]
                              | None => mr_failureDetails res
                              end |}
  | onBusy t => {| mr_ran := mr_ran res; mr_skippedNoWork := mr_skippedNoWork res;
                   mr_deferredBusy := mr_deferredBusy res ++ [t]; mr_failed := mr_failed res;
                   mr_failureDetails := mr_failureDetails res |}
  end.

Definition manual_selection (tasks : list DreamTaskRuntimeConfig) (task : option DreamTaskName)
    : list DreamTaskRuntimeConfig * bool :=
  match task with
  | Some t => match List.find (fun c => bool_decide (rc_task c = t)) tasks with Some c => ([c], true) | None => ([], false) end
  | None => (List.filter (fun c => negb (blank (rc_schedule c))) tasks, false)
  end.

Fixpoint seed_all (projectIdentity : string) (selected : list DreamTaskRuntimeConfig) (now : Z) : M unit :=
  match selected with
  | [] => mret ()
  | config :: selected => ensureSeeded projectIdentity config now;; seed_all projectIdentity selected now
  end.

Fixpoint manual_gate (projectIdentity : string) (forceGate : bool) (due : list DueTask)
    : M (list DueTask * list DreamTaskName) :=
  match due with
  | [] => mret ([], [])
  | d :: due =>
      pass ← if forceGate then (mret true : M bool) else gate projectIdentity d;
      '(gated, skippedNoWork) ← manual_gate projectIdentity forceGate due;
      mret (if pass : bool then (d :: gated, skippedNoWork) else (gated, rc_task (du_config d) :: skippedNoWork))
  end.

(** The groups a manual run starts, whether it forces their gates, and the tasks without
    work; the result is that of the reports, in the order they are made. *)
Definition runManualDream (projectIdentity : string) (tasks : list DreamTaskRuntimeConfig) (task : option DreamTaskName)
    : M (list (list DueTask) * bool * ManualRunResult) :=
  now ← Date_now;
  let '(selected, forceGate) := manual_selection tasks task in
  match selected with
  | [] => mret ([], forceGate, no_manual_result)
  | _ =>
      seed_all projectIdentity selected now;;
      '(gated, skippedNoWork) ← manual_gate projectIdentity forceGate
        ((fun config => {| du_config := config; du_scheduledAt := now |}) <$> selected);
      mret (group_by_kind gated, forceGate,
            {| mr_ran := []; mr_skippedNoWork := skippedNoWork; mr_deferredBusy := []; mr_failed := []; mr_failureDetails := [] |})
  end.

End scheduler.

(** ** Lemmas: rows follow the configuration *)

Section followed.
Context `{Engine} (local : Z → civil) (evaluateTaskGate : DreamTaskName → gate_args → M bool)
  (executor : DreamTaskRuntimeConfig → TaskExecutorContext → M TaskExecOutcome)
  (projectIdentity : string) (tasks : list DreamTaskRuntimeConfig).

(** Each task is configured once. *)
Definition one_config : Prop := ∀ c c', c ∈ tasks → c' ∈ tasks → rc_task c = rc_task c' → c = c'.

Definition row_of (config : DreamTaskRuntimeConfig) (st : store) : option RawRow :=
  st_tasks st !! (projectIdentity, task_text (rc_task config)).

Definition present (config : DreamTaskRuntimeConfig) (st : store) : Prop := is_Some (row_of config st).

(** The row of a task has the configured schedule. *)
Definition agreed (config : DreamTaskRuntimeConfig) (st : store) : Prop :=
  ∃ r, row_of config st = Some r ∧ schedule r = Some (rc_schedule config).

(** A row with a blank schedule is never due. *)
Definition sound (config : DreamTaskRuntimeConfig) (st : store) : Prop :=
  ∀ r s, row_of config st = Some r → schedule r = Some s → blank s = true → next_due_at r = None.

(** What a process that shares the configuration does to the rows: it removes none,
    undoes no schedule and makes no disabled task due. *)
Definition follows (st st' : store) : Prop :=
  ∀ c, c ∈ tasks → (present c st → present c st') ∧ (agreed c st → agreed c st') ∧ (sound c st → sound c st').

#[export] Instance follows_preorder : PreOrder follows.
Proof.
  split; [by intros st c|]. intros a b d Hab Hbd c Hc. destruct (Hab c Hc) as (?&?&?), (Hbd c Hc) as (?&?&?). split_and!; auto.
Qed.

Lemma next_due_blank s t consumed : blank s = true → next_due local s t consumed = None.
Proof. unfold blank, next_due, nextDueAtMs. by destruct (trim_units (code_units s)). Qed.

Lemma task_text_inj t t' : task_text t = task_text t' → t = t'.
Proof. by destruct t, t'. Qed.

(** Rows of tasks that share a configuration. *)
Lemma same_row c c' : one_config → c ∈ tasks → c' ∈ tasks →
  (projectIdentity, task_text (rc_task c)) = (projectIdentity, task_text (rc_task c')) → c = c'.
Proof. intros Ho Hc Hc' [= E%task_text_inj]. by apply Ho. Qed.

Lemma row_of_write c row st : row_of c (write_in row st) =
  if decide ((ts_projectPath row, task_text (ts_task row)) = (projectIdentity, task_text (rc_task c)))
  then Some (written row (row_of c st)) else row_of c st.
Proof.
  unfold row_of, write_in, with_tasks. cbn [st_tasks]. case_decide as E; [rewrite E; by rewrite lookup_insert_eq|].
  by rewrite lookup_insert_ne.
Qed.

(** What an upsert by the configuration of a task must be. *)
Definition configured (c : DreamTaskRuntimeConfig) (row : TaskScheduleStateRow) : Prop :=
  ts_projectPath row = projectIdentity ∧ ts_task row = rc_task c ∧ ts_schedule row = Some (rc_schedule c) ∧
  (blank (rc_schedule c) = true → ts_nextDueAt row = None).

Lemma write_settles c row st : configured c row → agreed c (write_in row st) ∧ sound c (write_in row st).
Proof.
  intros (Hp & Ht & Hs & Hb). unfold agreed, sound. rewrite row_of_write, decide_True by (by rewrite Hp, Ht).
  split; [by eexists|]. intros r s [= <-]. cbn [written schedule next_due_at]. rewrite Hs. intros [= <-]. exact Hb.
Qed.

Lemma write_follows c row st : one_config → c ∈ tasks → configured c row → follows st (write_in row st).
Proof.
  intros Ho Hc Hcf c' Hc'. destruct (decide (c' = c)) as [->|Hne].
  - destruct (write_settles c row st Hcf) as [Ha Hs]. split_and!; [|done..]. intros _. destruct Ha as (r & Hr & _). by exists r.
  - assert (row_of c' (write_in row st) = row_of c' st) as E.
    { rewrite row_of_write, decide_False; [done|]. destruct Hcf as (-> & -> & _). intros E. apply Hne. symmetry.
      by apply same_row. }
    unfold present, agreed, sound. by rewrite E.
Qed.

(** A table that keeps the rows of the configured tasks. *)
Lemma rows_follow st st' : (∀ c, c ∈ tasks → row_of c st' = row_of c st) → follows st st'.
Proof. intros Hr c Hc. unfold present, agreed, sound. by rewrite (Hr c Hc). Qed.

Lemma seed_follows task now lastRunAt s st :
  follows st (seed_in projectIdentity task (next_due local s now None) lastRunAt s st).
Proof.
  intros c Hc. unfold seed_in. destruct (st_tasks st !! (projectIdentity, task_text task)) eqn:E; [by split_and!|].
  unfold present, agreed, sound, row_of. cbn [with_tasks st_tasks].
  destruct (decide ((projectIdentity, task_text task) = (projectIdentity, task_text (rc_task c)))) as [Ek|Hne].
  - rewrite Ek, lookup_insert_eq in *. rewrite E. split_and!; [by eexists|by intros (r & ? & _)|].
    intros _ r s' [= <-] [= <-] Hb. cbn [seed_row next_due_at]. by apply next_due_blank.
  - by rewrite lookup_insert_ne.
Qed.

Lemma prune_follows st : follows st (prune projectIdentity (rc_task <$> tasks) st).
Proof.
  apply rows_follow. intros c Hc. unfold prune, row_of. destruct (rc_task <$> tasks) eqn:E; [done|].
  rewrite <- E. cbn [with_tasks st_tasks]. rewrite map_lookup_filter. destruct (st_tasks st !! _) as [r|]; [|done].
  cbn [mbind option_bind]. case_guard as Hr; [done|]. exfalso. apply Hr. unfold retired. cbn [fst snd].
  rewrite String.eqb_refl, bool_decide_true; [done|]. apply list_elem_of_fmap. eexists. split; [reflexivity|].
  apply list_elem_of_fmap. by eexists.
Qed.

Lemma dream_follows d st : follows st (with_dream d st).
Proof. by apply rows_follow. Qed.

Abbreviation guarded := (Access.guarded follows).
Abbreviation honest := (Access.honest follows).

Hypothesis one : one_config.
Hypothesis gate_follows : ∀ t a, guarded (evaluateTaskGate t a).
Hypothesis executor_follows : ∀ c x, guarded (executor c x).

Lemma guarded_now : guarded Date_now.
Proof. apply (guarded_bind follows); [apply (guarded_gets follows)|]. intros t.
  apply (guarded_bind follows); [apply (guarded_modify follows)|]. intros _. apply (guarded_ret follows). Qed.

Ltac head_of m := lazymatch m with ?f _ => head_of f | _ => m end.

(** The rule of a call's outermost construct; a call of another call is unfolded. *)
Ltac step :=
  lazymatch goal with
  | |- guarded (mret _) => apply (guarded_ret follows)
  | |- guarded (query _) => apply (guarded_query follows)
  | |- guarded Date_now => apply guarded_now
  | |- guarded (evaluateTaskGate _ _) => apply gate_follows
  | |- guarded (executor _ _) => apply executor_follows
  | |- guarded (seedTaskScheduleState _ _ _ _ _) => apply (guarded_write follows); intros; apply seed_follows
  | |- guarded (_ ≫= _) => apply (guarded_bind follows); [|intros]
  | |- guarded (catch_with _ _) => apply (guarded_catch_with follows); [|intros]
  | |- guarded (finally _ _) => apply (guarded_finally follows)
  | |- guarded (release _ _) => apply (guarded_write follows); intros; apply dream_follows
  | |- guarded (access _) => apply (guarded_access follows); intros; case_match; apply dream_follows
  | |- guarded (writeTaskScheduleState _) => apply (guarded_write follows); intros
  | |- guarded (match _ with _ => _ end) => case_match
  | |- guarded (let _ := _ in _) => cbv zeta
  | |- guarded ?m => let h := head_of m in unfold h
  end.

Lemma guarded_write_row c row : c ∈ tasks → configured c row → guarded (writeTaskScheduleState row).
Proof. intros. apply (guarded_write follows). intros st. by apply (write_follows c). Qed.

Lemma configured_row d lastRunAt nextDueAt status error retryCount watermark :
  (blank (rc_schedule (du_config d)) = true → nextDueAt = None) →
  configured (du_config d) (task_row projectIdentity d lastRunAt nextDueAt status error retryCount watermark).
Proof. by intros Hb. Qed.

Lemma configured_rescheduled c r nextDueAt retryCount : (blank (rc_schedule c) = true → nextDueAt = None) →
  configured c (rescheduled (toRow projectIdentity (rc_task c) r) (rc_schedule c) nextDueAt retryCount).
Proof. by intros Hb. Qed.

Lemma guarded_seeded c now : guarded (ensureSeeded local projectIdentity c now).
Proof. repeat step. Qed.

(** What the reconciliation writes, given the stored row. *)
Definition reconciled (c : DreamTaskRuntimeConfig) (now : Z) (r : RawRow) : option TaskScheduleStateRow :=
  let stored := toRow projectIdentity (rc_task c) r in
  if bool_decide (schedule r = Some (rc_schedule c)) then None
  else if blank (rc_schedule c) then Some (rescheduled stored (rc_schedule c) None (retry_count r))
  else match schedule r, next_due_at r with
       | None, Some _ => Some (rescheduled stored (rc_schedule c) (next_due_at r) (retry_count r))
       | _, _ => Some (rescheduled stored (rc_schedule c) (next_due local (rc_schedule c) now None) 0)
       end.

Lemma reconciled_configured c now r row : reconciled c now r = Some row → configured c row.
Proof.
  unfold reconciled. case_bool_decide; [done|]. destruct (blank (rc_schedule c)) eqn:Hb.
  - intros [= <-]. by apply configured_rescheduled.
  - repeat case_match; intros [= <-]; apply configured_rescheduled; by rewrite Hb.
Qed.

(** The reconciliation of a seeded row. *)
Lemma reconcile_call c now r :
  (if bool_decide (ts_schedule (toRow projectIdentity (rc_task c) r) = Some (rc_schedule c)) then mret ()
   else if blank (rc_schedule c) then
     writeTaskScheduleState (rescheduled (toRow projectIdentity (rc_task c) r) (rc_schedule c) None
       (ts_retryCount (toRow projectIdentity (rc_task c) r)))
   else
     match ts_schedule (toRow projectIdentity (rc_task c) r), ts_nextDueAt (toRow projectIdentity (rc_task c) r) with
     | None, Some _ =>
         writeTaskScheduleState (rescheduled (toRow projectIdentity (rc_task c) r) (rc_schedule c)
           (ts_nextDueAt (toRow projectIdentity (rc_task c) r)) (ts_retryCount (toRow projectIdentity (rc_task c) r)))
     | _, _ =>
         writeTaskScheduleState (rescheduled (toRow projectIdentity (rc_task c) r) (rc_schedule c)
           (next_due local (rc_schedule c) now None) 0)
     end) =
  match reconciled c now r with Some row => writeTaskScheduleState row | None => mret () end.
Proof. unfold reconciled. cbn [toRow ts_schedule ts_nextDueAt ts_retryCount]. by repeat case_match. Qed.

Lemma guarded_reconcile c now : c ∈ tasks → guarded (reconcileSchedule local projectIdentity c now).
Proof.
  intros Hc. unfold reconcileSchedule. apply (guarded_bind follows); [apply guarded_seeded|intros _].
  unfold getTaskScheduleState. apply (guarded_query_bind follows). intros st. unfold state_in.
  destruct (st_tasks st !! _) as [r|]; cbn [fmap option_fmap option_map]; [|apply (guarded_ret follows)].
  rewrite reconcile_call. destruct (reconciled c now r) as [row|] eqn:E; [|apply (guarded_ret follows)].
  apply (guarded_write_row c); [done|]. by apply (reconciled_configured c now r).
Qed.

Lemma guarded_advance d now status error watermark : du_config d ∈ tasks →
  guarded (advanceAfterRun local projectIdentity d now status error watermark).
Proof.
  intros Hd. unfold advanceAfterRun. apply (guarded_bind follows); [repeat step|]. intros lastRunAt.
  apply (guarded_write_row (du_config d)); [done|]. apply configured_row, next_due_blank.
Qed.

Lemma guarded_transient d now error : du_config d ∈ tasks →
  guarded (recordTransientFailure local projectIdentity d now error).
Proof.
  intros Hd. unfold recordTransientFailure. apply (guarded_bind follows); [repeat step|]. intros prior. cbv zeta.
  case_match; (apply (guarded_write_row (du_config d)); [done|]); apply configured_row; [apply next_due_blank|].
  by intros ->.
Qed.

Lemma guarded_run_task holderId leaseKey a forceGate d : du_config d ∈ tasks →
  guarded (run_task local evaluateTaskGate executor projectIdentity holderId leaseKey a forceGate d).
Proof.
  intros Hd. unfold run_task.
  repeat first [apply guarded_advance; done|apply guarded_transient; done|step].
Qed.

Lemma guarded_run_tasks holderId leaseKey a forceGate group : Forall (fun d => du_config d ∈ tasks) group →
  guarded (run_tasks local evaluateTaskGate executor projectIdentity holderId leaseKey a forceGate group).
Proof.
  induction 1 as [|d group Hd _ IH]; cbn [run_tasks]; [apply (guarded_ret follows)|].
  apply (guarded_bind follows); [by apply guarded_run_task|]. intros [[] reports]; repeat (exact IH || step).
Qed.

Lemma guarded_group holderId group forceGate leaseWait : Forall (fun d => du_config d ∈ tasks) group →
  guarded (runDomainGroup local evaluateTaskGate executor projectIdentity holderId group forceGate leaseWait).
Proof.
  intros Hg. assert (∀ polls deadline leaseKey, guarded (wait_lease polls deadline holderId leaseKey)) as Hwait.
  { induction polls as [|polls IH]; intros deadline leaseKey; cbn [wait_lease]; repeat (apply IH || step). }
  unfold runDomainGroup. destruct group as [|d group]; [apply (guarded_ret follows)|].
  repeat first [apply Hwait|apply guarded_run_tasks; by rewrite js_sort_perm|step].
Qed.

Lemma guarded_due_loop configs now : (∀ c, c ∈ configs → c ∈ tasks) →
  guarded (due_loop local projectIdentity configs now).
Proof.
  induction configs as [|c configs IH]; intros Hin; cbn [due_loop]; [apply (guarded_ret follows)|].
  apply (guarded_bind follows); [apply guarded_reconcile, Hin; by left|intros _].
  apply (guarded_bind follows); [repeat step|intros state].
  apply (guarded_bind follows); [apply IH; intros x Hx; apply Hin; by right|]. intros. apply (guarded_ret follows).
Qed.

Lemma guarded_plan now : guarded (planDueTasks local projectIdentity tasks now).
Proof.
  apply (guarded_bind follows); [|intros _; by apply guarded_due_loop].
  unfold pruneNonCanonicalTaskRows. destruct (rc_task <$> tasks) eqn:Et; [apply (guarded_ret follows)|]. rewrite <- Et.
  apply (guarded_write follows). intros st. apply prune_follows.
Qed.

Lemma guarded_gate_due due now : Forall (fun d => du_config d ∈ tasks) due →
  guarded (gate_due local evaluateTaskGate projectIdentity due now).
Proof.
  induction 1 as [|d due Hd _ IH]; cbn [gate_due]; [apply (guarded_ret follows)|].
  apply (guarded_bind follows); [repeat step|intros pass].
  apply (guarded_bind follows); [destruct pass; [apply (guarded_ret follows)|by apply guarded_advance]|intros _].
  apply (guarded_bind follows); [exact IH|]. intros. apply (guarded_ret follows).
Qed.

(** *** What a plan answers *)

Lemma seed_present c nextDueAt lastRunAt s st : present c (seed_in projectIdentity (rc_task c) nextDueAt lastRunAt s st).
Proof.
  unfold present, row_of, seed_in. destruct (st_tasks st !! (projectIdentity, task_text (rc_task c))) eqn:E.
  - rewrite E. by eexists.
  - cbn [with_tasks st_tasks]. rewrite lookup_insert_eq. by eexists.
Qed.

(** How a write ends. *)
Lemma write_answers (f : store → store) (w w' : world) : write f w = (Ok (), w') → w' = rest w (f (committed w)) (w_reg w).
Proof.
  unfold write. destruct (access_cases (fun db => Ok ((), f db)) w) as [(e & ->)|(a & st & [= <- <-] & ->)]; [done|].
  by intros [= <-].
Qed.

Lemma query_answers {A} (f : store → A) (w w' : world) a :
  query f w = (Ok a, w') → a = f (committed w) ∧ w' = rest w (committed w) (w_reg w).
Proof. destruct (query_cases f w) as [(e & ->)| ->]; [done|]. by intros [= <- <-]. Qed.

Lemma bind_answers {A B} (m : M A) (k : A → M B) (w w' : world) b :
  (m ≫= k) w = (Ok b, w') → ∃ a w1, m w = (Ok a, w1) ∧ k a w1 = (Ok b, w').
Proof. unfold mbind, M_bind. destruct (m w) as [[a|e] w1]; [|done]. intros E. by exists a, w1. Qed.

Lemma seeded_present c now w w' : honest w → c ∈ tasks → ensureSeeded local projectIdentity c now w = (Ok (), w') →
  present c (w_db w') ∧ honest w'.
Proof.
  intros Hw Hc E. destruct (guarded_seeded c now w Hw) as [_ Hw']. rewrite E in Hw'. split; [|done].
  apply bind_answers in E as (state & w1 & [-> ->]%query_answers & E). unfold state_in in E.
  destruct (st_tasks (committed w) !! _) as [r|] eqn:Er; cbn [fmap option_fmap option_map] in E.
  - injection E as <-. by exists r.
  - apply bind_answers in E as (lastRunAt & w2 & [-> ->]%query_answers & ->%write_answers). cbn [rest w_db].
    apply seed_present.
Qed.

Lemma reconcile_settles c now w w' : honest w → c ∈ tasks → reconcileSchedule local projectIdentity c now w = (Ok (), w') →
  agreed c (w_db w') ∧ honest w'.
Proof.
  intros Hw Hc E. destruct (guarded_reconcile c now Hc w Hw) as [_ Hw']. rewrite E in Hw'. split; [|done].
  apply bind_answers in E as ([] & w1 & E1 & E). destruct (seeded_present c now w w1 Hw Hc E1) as [Hp Hw1].
  apply bind_answers in E as (state & w2 & [-> ->]%query_answers & E).
  destruct (honest_committed follows w1 Hw1 c Hc) as [Hpres _]. destruct (Hpres Hp) as [r Hr].
  unfold state_in in E. unfold row_of in Hr. rewrite Hr in E. cbn [fmap option_fmap option_map] in E.
  rewrite reconcile_call in E. destruct (reconciled c now r) as [row|] eqn:Er.
  - apply write_answers in E as ->. cbn [rest w_db]. by apply write_settles, (reconciled_configured c now r).
  - injection E as <-. cbn [rest w_db]. exists r. split; [done|]. revert Er. unfold reconciled.
    case_bool_decide; [done|]. by repeat case_match.
Qed.

(** A task that is due: configured, enabled, and its instant is past. *)
Definition due_now (now : Z) (d : DueTask) : Prop :=
  du_config d ∈ tasks ∧ blank (rc_schedule (du_config d)) = false ∧ du_scheduledAt d ≤ now.

Lemma due_loop_spec now configs : (∀ c, c ∈ configs → c ∈ tasks) → ∀ w w' due, honest w →
  (∀ c, c ∈ tasks → sound c (w_db w)) → due_loop local projectIdentity configs now w = (Ok due, w') →
  follows (w_db w) (w_db w') ∧ honest w' ∧ (∀ c, c ∈ configs → agreed c (w_db w')) ∧ Forall (due_now now) due ∧
  (du_config <$> due) `sublist_of` configs.
Proof.
  induction configs as [|c configs IH]; intros Hin w w' due Hw Hs E.
  { injection E as <- <-. split_and!; [done|done|by intros c ?%not_elem_of_nil|constructor|constructor]. }
  cbn [due_loop] in E. assert (c ∈ tasks) as Hc by (apply Hin; by left).
  apply bind_answers in E as ([] & w1 & E1 & E). destruct (guarded_reconcile c now Hc w Hw) as [Hg1 Hw1].
  rewrite E1 in Hg1, Hw1. destruct (reconcile_settles c now w w1 Hw Hc E1) as [Ha _].
  apply bind_answers in E as (state & w2 & [-> ->]%query_answers & E). pose proof (honest_committed follows w1 Hw1) as Hg2.
  apply bind_answers in E as (due' & w3 & E3 & [= <- <-]).
  destruct (IH ltac:(intros x Hx; apply Hin; by right) _ _ _ (honest_rest follows _ _ _ Hw1)
    ltac:(intros x Hx; apply Hg2, Hg1, Hs; done) E3) as (Hg3 & Hw3 & Hag & Hdue & Hsub). cbn [rest w_db] in Hg3.
  split_and!; [|done| | |].
  - etransitivity; [exact Hg1|]. by etransitivity.
  - intros x [->|Hx]%elem_of_cons; [|by apply Hag]. by apply Hg3, Hg2.
  - destruct (state_in _ _ _ ≫= _) as [at_|] eqn:Est; [|done]. destruct (at_ <=? now) eqn:Eat; [|done].
    constructor; [|done]. split_and!; cbn [du_config du_scheduledAt]; [done| |lia].
    destruct (proj1 (proj2 (Hg2 c Hc)) Ha) as (r & Hr & Hsch). unfold state_in in Est. unfold row_of in Hr.
    rewrite Hr in Est. cbn [fmap option_fmap option_map mbind option_bind toRow ts_nextDueAt] in Est.
    destruct (blank (rc_schedule c)) eqn:Hb; [|done]. exfalso.
    assert (sound c (committed w1)) as Hsc by (apply Hg2, Hg1, Hs; done). rewrite (Hsc r _ Hr Hsch Hb) in Est. done.
  - destruct (state_in _ _ _ ≫= _) as [at_|]; [|by constructor]. destruct (at_ <=? now); by constructor.
Qed.

Lemma plan_spec now w w' due : honest w → (∀ c, c ∈ tasks → sound c (w_db w)) →
  planDueTasks local projectIdentity tasks now w = (Ok due, w') →
  honest w' ∧ (∀ c, c ∈ tasks → agreed c (w_db w')) ∧ Forall (due_now now) due.
Proof.
  intros Hw Hs E. apply bind_answers in E as ([] & w1 & E1 & E).
  assert (follows (w_db w) (w_db w1) ∧ honest w1) as [Hg1 Hw1].
  { revert E1. unfold pruneNonCanonicalTaskRows. destruct (rc_task <$> tasks) eqn:Et; [by intros [= <-]|]. rewrite <- Et.
    intros ->%write_answers. split; [|by apply (honest_rest follows)]. cbn [rest w_db]. transitivity (committed w); [by apply (honest_committed follows)|].
    apply prune_follows. }
  destruct (due_loop_spec now tasks ltac:(done) w1 w' due Hw1) as (_ & Hw' & Ha & Hd & _);
    [by intros c Hc; apply Hg1, Hs|done|by split_and!].
Qed.

Lemma gate_due_spec now due : Forall (due_now now) due → ∀ w w' gated, honest w →
  gate_due local evaluateTaskGate projectIdentity due now w = (Ok gated, w') →
  follows (w_db w) (w_db w') ∧ gated `sublist_of` due.
Proof.
  induction 1 as [|d due (Hd & _) _ IH]; intros w w' gated Hw E.
  { injection E as <- <-. by split_and!. }
  cbn [gate_due] in E. apply bind_answers in E as (pass & w1 & E1 & E).
  assert (guarded (gate evaluateTaskGate projectIdentity d)) as Hgate by repeat step.
  destruct (Hgate w Hw) as [Hg1 Hw1]. rewrite E1 in Hg1, Hw1.
  apply bind_answers in E as ([] & w2 & E2 & E).
  assert (guarded (if pass then mret () else advanceAfterRun local projectIdentity d now skipped None None)) as Hadv.
  { destruct pass; [apply (guarded_ret follows)|by apply guarded_advance]. }
  destruct (Hadv w1 Hw1) as [Hg2 Hw2]. rewrite E2 in Hg2, Hw2.
  apply bind_answers in E as (gated' & w3 & E3 & [= <- <-]). destruct (IH w2 w3 gated' Hw2 E3) as (Hg3 & Hsub).
  split; [|destruct pass; by constructor]. etransitivity; [exact Hg1|]. by etransitivity.
Qed.

End followed.

(** ** Lemmas: groups *)

Definition kind_of (d : DueTask) : LeaseKind := leaseKindFor (rc_task (du_config d)).

(** The tasks of a list are in one group per kind, in order. *)
Lemma groups_spec due : let groups := foldl add_to_group [] due in
  JsMap.wf groups ∧ (∀ kind, default [] (JsMap.get groups kind) = List.filter (fun d => bool_decide (kind_of d = kind)) due) ∧
  (∀ kind group, JsMap.get groups kind = Some group → group ≠ []).
Proof.
  cbn zeta. induction due as [|d due IH] using rev_ind; [by split_and!; [constructor|..]|].
  rewrite foldl_snoc. destruct IH as (Hwf & Hget & Hne). unfold add_to_group at 1 3 5. fold (kind_of d).
  split_and!; [by apply wf_set|..].
  - intros kind. rewrite List.filter_app. cbn [List.filter]. destruct (decide (kind_of d = kind)) as [<-|Hk].
    + rewrite get_set_eq, bool_decide_true by done. cbn [from_option id]. by rewrite Hget.
    + rewrite get_set_ne, bool_decide_false by done. by rewrite Hget, app_nil_r.
  - intros kind group. destruct (decide (kind_of d = kind)) as [<-|Hk].
    + rewrite get_set_eq. intros [= <-]. by destruct (default [] _).
    + rewrite get_set_ne by done. apply Hne.
Qed.

Lemma group_members due group : group ∈ group_by_kind due →
  ∃ kind, group = List.filter (fun d => bool_decide (kind_of d = kind)) due ∧ group ≠ [].
Proof.
  intros ([kind g] & -> & Hin)%list_elem_of_fmap. destruct (groups_spec due) as (Hwf & Hget & Hne).
  pose proof (get_in _ _ _ Hwf Hin) as E. exists kind. split; [|by apply (Hne kind)]. cbn [snd]. rewrite <- Hget. by rewrite E.
Qed.

Lemma concat_set (groups : jsmap LeaseKind (list DueTask)) kind d :
  List.concat (JsMap.set groups kind (default [] (JsMap.get groups kind) ++ [d])).*2 ≡ₚ List.concat groups.*2 ++ [d].
Proof.
  induction groups as [|[k g] groups IH]; [done|]. cbn [JsMap.set JsMap.get]. case_decide as Hk.
  - cbn [fmap list_fmap snd List.concat from_option id]. rewrite <- !app_assoc.
    apply Permutation_app_head, Permutation_app_comm.
  - cbn [fmap list_fmap snd List.concat]. rewrite <- app_assoc. by apply Permutation_app_head.
Qed.

(** The groups hold every task of the list once. *)
Lemma groups_perm due : List.concat (group_by_kind due) ≡ₚ due.
Proof.
  unfold group_by_kind. induction due as [|d due IH] using rev_ind; [done|]. rewrite foldl_snoc.
  unfold add_to_group at 1. rewrite concat_set. by rewrite IH.
Qed.

(** A tick, whether it returns or throws. *)
Lemma tick_follows `{Engine} local evaluateTaskGate (executor : DreamTaskRuntimeConfig → TaskExecutorContext → M TaskExecOutcome)
    projectIdentity tasks : one_config tasks →
  (∀ t a, guarded (follows projectIdentity tasks) (evaluateTaskGate t a)) →
  ∀ now w, honest (follows projectIdentity tasks) w → (∀ c, c ∈ tasks → sound projectIdentity c (w_db w)) →
  let '(_, w') := runDueTasksForProject local evaluateTaskGate projectIdentity tasks now w in
  follows projectIdentity tasks (w_db w) (w_db w') ∧ honest (follows projectIdentity tasks) w'.
Proof.
  intros Ho Hgate now w Hw Hs. unfold runDueTasksForProject, mbind, M_bind.
  destruct (guarded_plan local projectIdentity tasks Ho now w Hw) as [Hg1 Hw1].
  destruct (planDueTasks _ _ _ _ _) as [[due|e] w1] eqn:E1; cbn [snd] in *; [|done].
  destruct (plan_spec local projectIdentity tasks Ho now w w1 due Hw Hs E1) as (_ & _ & Hdue).
  destruct due as [|d due]; [done|].
  destruct (guarded_gate_due local evaluateTaskGate projectIdentity tasks Ho Hgate (d :: due) now
    ltac:(eapply Forall_impl; [exact Hdue|]; by intros x (Hx & _)) w1 Hw1) as [Hg2 Hw2].
  destruct (gate_due _ _ _ _ _ _) as [[gated|e] w2]; cbn [snd] in *; (split; [by etransitivity|done]).
Qed.

(** What a tick that returns has counted. *)
Lemma tick_answers `{Engine} local evaluateTaskGate projectIdentity tasks : one_config tasks →
  (∀ t a, guarded (follows projectIdentity tasks) (evaluateTaskGate t a)) →
  ∀ now w n groups w', honest (follows projectIdentity tasks) w →
  (∀ c, c ∈ tasks → sound projectIdentity c (w_db w)) →
  runDueTasksForProject local evaluateTaskGate projectIdentity tasks now w = (Ok (n, groups), w') →
  ∃ gated, (∀ c, c ∈ tasks → agreed projectIdentity c (w_db w')) ∧ Forall (due_now tasks now) gated ∧
    n = lengthZ gated ∧ groups = group_by_kind gated.
Proof.
  intros Ho Hgate now w n groups w' Hw Hs E. apply bind_answers in E as (due & w1 & E1 & E).
  destruct (plan_spec local projectIdentity tasks Ho now w w1 due Hw Hs E1) as (Hw1 & Ha & Hdue).
  destruct due as [|d due]; [injection E as <- <- <-; by exists []|].
  apply bind_answers in E as (gated & w2 & E2 & [= <- <- <-]). exists gated.
  destruct (gate_due_spec local evaluateTaskGate projectIdentity tasks Ho Hgate now (d :: due) Hdue w1 w2 gated Hw1 E2)
    as (Hg2 & Hsl). split_and!; [by intros c Hc; apply Hg2, Ha| |done..].
  rewrite !Forall_forall in *. intros x Hx. apply Hdue. by apply (elem_of_submseteq gated); [|apply sublist_submseteq].
Qed.

(** The lease a group is run under. *)
Definition group_key (projectIdentity : string) (group : list DueTask) : string :=
  match group with d :: _ => leaseKeyFor (rc_task (du_config d)) projectIdentity | [] => "" end.

Lemma leaseKey_kind t t' projectIdentity :
  leaseKeyFor t projectIdentity = leaseKeyFor t' projectIdentity ↔ leaseKindFor t = leaseKindFor t'.
Proof. unfold leaseKeyFor. split; [|by intros ->]. by destruct (leaseKindFor t), (leaseKindFor t'). Qed.

(** One group per lease, each of the tasks of its lease. *)
Lemma groups_keys projectIdentity due :
  NoDup (group_key projectIdentity <$> group_by_kind due) ∧
  Forall (fun group => group ≠ [] ∧
    Forall (fun d => leaseKeyFor (rc_task (du_config d)) projectIdentity = group_key projectIdentity group) group)
    (group_by_kind due).
Proof.
  destruct (groups_spec due) as (Hwf & Hget & Hne). unfold group_by_kind. set (groups := foldl _ _ _) in *.
  assert (∀ kind group, (kind, group) ∈ groups → group ≠ [] ∧ Forall (fun d => kind_of d = kind) group) as Hg.
  { intros kind group Hin%(get_in _ _ _ Hwf). split; [by apply (Hne kind)|].
    specialize (Hget kind). rewrite Hin in Hget. cbn in Hget. subst group. apply Forall_forall.
    intros d [_ Hd]%list_elem_of_In%filter_In. by apply bool_decide_eq_true in Hd. }
  unfold JsMap.wf, JsMap.keys in Hwf. clearbody groups. clear Hget Hne. induction groups as [|[kind group] groups IH].
  { split; constructor. }
  cbn [fmap list_fmap fst snd] in *. apply NoDup_cons in Hwf as [Hk Hwf].
  destruct (Hg kind group ltac:(by left)) as [Hgne Hgk]. destruct group as [|d group]; [done|].
  destruct IH as [IHn IHf]; [done|intros k g Hin; apply Hg; by right|]. split; constructor; [|done| |done].
  - intros (g & Eg & ([k g'] & Eg' & Hin)%list_elem_of_fmap)%list_elem_of_fmap. cbn [snd] in Eg'. subst g'.
    destruct (Hg k g ltac:(by right)) as [Hgn Hk']. destruct g as [|d' g]; [done|]. cbn [group_key] in Eg.
    apply leaseKey_kind in Eg. apply Hk, list_elem_of_fmap. exists (k, d' :: g). split; [|done]. cbn.
    apply Forall_cons in Hgk as [<- _]. apply Forall_cons in Hk' as [<- _]. done.
  - split; [done|]. eapply Forall_impl; [exact Hgk|]. intros d' Hd'. cbn [group_key]. apply leaseKey_kind.
    apply Forall_cons in Hgk as [Hd _]. unfold kind_of in *. congruence.
Qed.

(** C5: A tick follows the configuration of its project, in which no two entries name
    one task, whatever processes that share it commit meanwhile and whichever access
    throws; its gates and executors are calls of such processes. Whether the tick
    returns or throws, configured rows stay, a row that has its task's schedule keeps
    it, and, as before the tick, no row whose schedule is blank is due. When it returns,
    the row of every configured task has its schedule, so a disabled task is not due;
    the groups it starts hold exactly the tasks it counts, each configured, enabled and
    with its instant past; each group has tasks of one lease only, and no two groups
    have the same lease. A tick and the groups it starts are such processes themselves.
    *)
Theorem schedules_followed `{Engine} local evaluateTaskGate executor projectIdentity tasks now w r w' :
  one_config tasks →
  (∀ t a, guarded (follows projectIdentity tasks) (evaluateTaskGate t a)) →
  (∀ c x, guarded (follows projectIdentity tasks) (executor c x)) →
  honest (follows projectIdentity tasks) w → (∀ c, c ∈ tasks → sound projectIdentity c (w_db w)) →
  runDueTasksForProject local evaluateTaskGate projectIdentity tasks now w = (r, w') →
  follows projectIdentity tasks (w_db w) (w_db w') ∧ honest (follows projectIdentity tasks) w' ∧
  (∀ c, c ∈ tasks → sound projectIdentity c (w_db w')) ∧
  match r with
  | Err _ => True
  | Ok (n, groups) =>
      (∀ c, c ∈ tasks → agreed projectIdentity c (w_db w')) ∧
      n = lengthZ (List.concat groups) ∧
      Forall (due_now tasks now) (List.concat groups) ∧
      NoDup (group_key projectIdentity <$> groups) ∧
      Forall (fun group => group ≠ [] ∧
        Forall (fun d => leaseKeyFor (rc_task (du_config d)) projectIdentity = group_key projectIdentity group) group)
        groups ∧
      ∀ group holderId forceGate leaseWait, group ∈ groups →
        guarded (follows projectIdentity tasks)
          (runDomainGroup local evaluateTaskGate executor projectIdentity holderId group forceGate leaseWait)
  end.
Proof.
  intros Ho Hgate Hexec Hw Hs E.
  pose proof (tick_follows local evaluateTaskGate executor projectIdentity tasks Ho Hgate now w Hw Hs) as Hf.
  rewrite E in Hf. destruct Hf as [Hg Hw']. split_and!; [done|done|by intros c Hc; apply Hg, Hs|].
  destruct r as [[n groups]|]; [|done].
  destruct (tick_answers local evaluateTaskGate projectIdentity tasks Ho Hgate now w n groups w' Hw Hs E)
    as (gated & Ha & Hgd & -> & ->).
  destruct (groups_keys projectIdentity gated) as [Hn Hk].
  assert (Forall (due_now tasks now) (List.concat (group_by_kind gated))) as Hd by by rewrite groups_perm.
  split_and!; [done|by unfold lengthZ; rewrite groups_perm|done|done|done|].
  intros group holderId forceGate leaseWait Hin. apply guarded_group; [done..|].
  apply Forall_forall. intros d Hdg. rewrite Forall_forall in Hd. apply Hd, list_elem_of_In, in_concat.
  exists group. by rewrite <- !list_elem_of_In.
Qed.

(** ** The lease of a group *)

Section lease.
Context `{Engine} (local : Z → civil) (evaluateTaskGate : DreamTaskName → gate_args → M bool)
  (executor : DreamTaskRuntimeConfig → TaskExecutorContext → M TaskExecOutcome) (projectIdentity holderId leaseKey : string).

Definition not_held (st : store) : Prop := DreamLease.getLeaseHolder (st_dream st) leaseKey ≠ Some holderId.

(** Other processes do not hand the lease to the holder. *)
Definition withholds (st st' : store) : Prop := not_held st → not_held st'.

#[export] Instance withholds_preorder : PreOrder withholds.
Proof. split; [by intros st Hst|]. unfold withholds. intros a b d; auto. Qed.

Lemma acquire_refused d checkedAt now :
  (DreamLease.acquireLeaseWithAcquisition d holderId leaseKey checkedAt now).2 = None →
  (DreamLease.acquireLeaseWithAcquisition d holderId leaseKey checkedAt now).1 = d ∧
  DreamLease.getLeaseHolder d leaseKey ≠ Some holderId.
Proof.
  unfold DreamLease.acquireLeaseWithAcquisition. cbv zeta.
  destruct (DreamLease.isLeaseActive _ _ _ && _) eqn:E; [|by intros [=]].
  intros _. split; [done|]. apply andb_prop in E as [_ E]. destruct (DreamLease.getLeaseHolder d leaseKey) as [h|]; [|done].
  apply andb_prop in E as [_ E]. intros [= ->]. by rewrite String.eqb_refl in E.
Qed.

Lemma release_frees d : DreamLease.getLeaseHolder (DreamLease.releaseLease d holderId leaseKey) leaseKey ≠ Some holderId.
Proof.
  unfold DreamLease.releaseLease, DreamLease.holder_is. destruct (DreamLease.getLeaseHolder d leaseKey) as [h|] eqn:E; [|by rewrite E].
  destruct (String.eqb_spec h holderId) as [->|Hne]; [|by rewrite E; intros [= ->]].
  unfold DreamLease.getLeaseHolder, DreamLease.getDreamState, DreamLease.deleteDreamState. cbv zeta.
  intros Hs. apply lookup_delete_Some in Hs as [_ Hs]. apply lookup_delete_Some in Hs as [_ Hs].
  by apply lookup_delete_Some in Hs as [? _].
Qed.

(** Reading the clock. *)
Lemma now_run (w : world) : Date_now w =
  (Ok (mem_clock (w_reg w) (mem_reads (w_reg w))),
   {| w_db := w_db w; w_reg := {| mem_clock := mem_clock (w_reg w); mem_reads := S (mem_reads (w_reg w)) |};
      w_pauses := w_pauses w |}).
Proof. done. Qed.

(** A world whose processes withhold the lease, after a call that may have taken it. *)
Definition unless_taken (r : result string (option DreamLease.LeaseAcquisition)) (w : world) : Prop :=
  honest withholds w ∧ match r with Ok (Some _) => True | _ => not_held (w_db w) end.

Lemma acquire_cases w : honest withholds w → not_held (w_db w) →
  unless_taken (acquire holderId leaseKey w).1 (acquire holderId leaseKey w).2.
Proof.
  intros Hw Hn. unfold acquire, Date_now, gets, modify, mbind, M_bind, mret, M_ret.
  match goal with |- context [access ?f ?w] => set (g := f); set (w2 := w) end.
  assert (honest withholds w2) as Hw2 by exact Hw. pose proof (honest_committed withholds w2 Hw2 Hn) as Hc.
  destruct (access_cases g w2) as [(e & ->)|(a & db & Ef & ->)]; cbn [fst snd]; (split; [by apply honest_rest|]); [exact Hc|].
  destruct a as [a|]; [done|]. cbn [rest w_db]. unfold g in Ef.
  pose proof (acquire_refused (st_dream (committed w2)) (mem_clock (w_reg w) (mem_reads (w_reg w)))
    (mem_clock (w_reg w) (S (mem_reads (w_reg w))))) as Hr.
  cbn [w_reg mem_clock mem_reads] in Ef.
  destruct (DreamLease.acquireLeaseWithAcquisition _ _ _ _ _) as [d a]. injection Ef as -> <-.
  cbn [fst snd] in Hr. destruct (Hr eq_refl) as [-> _]. exact Hc.
Qed.

Lemma wait_cases polls deadline : ∀ w, honest withholds w → not_held (w_db w) →
  unless_taken (wait_lease polls deadline holderId leaseKey w).1 (wait_lease polls deadline holderId leaseKey w).2.
Proof.
  induction polls as [|polls IH]; intros w Hw Hn; cbn [wait_lease]; [by split|].
  unfold Date_now, gets, modify. unfold mbind, M_bind, mret, M_ret. cbn iota beta.
  match goal with |- context [if ?b then _ else _] => destruct b end; [|by split].
  match goal with |- context [acquire _ _ ?w] => set (w1 := w) end.
  destruct (acquire_cases w1 Hw Hn) as [Hw2 Hn2].
  destruct (acquire holderId leaseKey w1) as [[[a|]|e] w2]; [by split|by apply IH|by split].
Qed.

Lemma release_cases w : (∃ w', release holderId leaseKey w = (Ok (), w') ∧ not_held (w_db w')) ∨
  (∃ w' e, release holderId leaseKey w = (Err e, w')).
Proof.
  unfold release, write.
  match goal with |- context [access ?f w] => destruct (access_cases f w) as [(e & ->)|(a & db & [= <- <-] & ->)] end.
  - right. by eexists _, _.
  - left. eexists. split; [reflexivity|]. apply release_frees.
Qed.

End lease.

(** However the run of a group ends, the lease of its domain is not left behind: when
    it answers, none of its tasks holds the lease any more; when it throws, either no
    lease was taken, or it was given back, or the statement giving it back is the one
    that failed.  Whatever the executor does, and whatever other processes commit, short
    of handing the lease to this run. *)
Theorem group_releases_lease `{Engine} local evaluateTaskGate executor projectIdentity holderId first group forceGate leaseWait w :
  let leaseKey := leaseKeyFor (rc_task (du_config first)) projectIdentity in
  honest (withholds holderId leaseKey) w → not_held holderId leaseKey (w_db w) →
  let '(r, w') := runDomainGroup local evaluateTaskGate executor projectIdentity holderId (first :: group) forceGate leaseWait w in
  match r with
  | Ok _ => not_held holderId leaseKey (w_db w')
  | Err _ => not_held holderId leaseKey (w_db w') ∨ ∃ w1 e, release holderId leaseKey w1 = (Err e, w')
  end.
Proof.
  intros leaseKey Hw Hn. unfold runDomainGroup. fold leaseKey. unfold mbind, M_bind.
  destruct (acquire_cases holderId leaseKey w Hw Hn) as [Hw1 Hn1].
  destruct (acquire holderId leaseKey w) as [[acquisition|e] w1]; [|by left].
  assert (∀ acquisition w, unless_taken holderId leaseKey (Ok acquisition) w →
    let '(r, w') := match acquisition with
      | None => mret ((fun due => onBusy (rc_task (du_config due))) <$> first :: group)
      | Some a => finally (run_tasks local evaluateTaskGate executor projectIdentity holderId leaseKey a forceGate
                             (js_sort by_task_order (first :: group))) (release holderId leaseKey)
      end w in
    match r with
    | Ok _ => not_held holderId leaseKey (w_db w')
    | Err _ => not_held holderId leaseKey (w_db w') ∨ ∃ w1 e, release holderId leaseKey w1 = (Err e, w')
    end) as Hend.
  { intros [a|] w2 [_ H2]; [|exact H2]. unfold finally.
    destruct (run_tasks _ _ _ _ _ _ _ _ _ w2) as [r w3].
    destruct (release_cases holderId leaseKey w3) as [(w4 & -> & Hn4)|(w4 & e & E4)].
    - destruct r; [done|by left].
    - rewrite E4. right. by exists w3, e. }
  destruct acquisition as [a|], leaseWait as [[leaseWaitMs polls]|];
    [by apply (Hend (Some a) w1)|by apply (Hend (Some a) w1)| |by apply (Hend None w1)].
  rewrite now_run. match goal with |- context [wait_lease _ ?d _ _ ?w] => set (w2 := w); set (deadline := d) end.
  pose proof (wait_cases holderId leaseKey polls deadline w2 Hw1 Hn1) as Hwait.
  destruct (wait_lease polls deadline holderId leaseKey w2) as [[acquisition|e] w3]; [by apply Hend|].
  left. apply Hwait.
Qed.

(** ** The runs of one due instant *)

Section slot.
Context `{Engine} (local : Z → civil) (evaluateTaskGate : DreamTaskName → gate_args → M bool)
  (executor : DreamTaskRuntimeConfig → TaskExecutorContext → M TaskExecOutcome) (projectIdentity : string) (d : DueTask).

Abbreviation config := (du_config d).
Abbreviation row st := (row_of projectIdentity config st).

(** A call that, when nobody else writes and nothing fails, leaves the task's row alone. *)
Definition leaves_row {A} (m : M A) : Prop :=
  ∀ w, w_pauses w = [] → w_pauses (m w).2 = [] ∧ row (w_db (m w).2) = row (w_db w).

(** The instant is used up, or kept for one more try. *)
Definition used_up (f : Z) (r' : RawRow) : Prop :=
  next_due_at r' = next_due local (rc_schedule config) f (Some (du_scheduledAt d)) ∧ retry_count r' = 0.

Definition kept (r r' : RawRow) : Prop :=
  retry_count r < MAX_TASK_RETRIES ∧ retry_count r' = retry_count r + 1 ∧ next_due_at r' = Some (du_scheduledAt d).

Lemma row_written rw st : ts_projectPath rw = projectIdentity → ts_task rw = rc_task config →
  row (write_in rw st) = Some (written rw (row st)).
Proof. intros Hp Ht. rewrite row_of_write, decide_True; [done|]. by rewrite Hp, Ht. Qed.

Lemma advance_row f status error watermark w : w_pauses w = [] →
  ∃ w' r', advanceAfterRun local projectIdentity d f status error watermark w = (Ok (), w') ∧ w_pauses w' = [] ∧
    row (w_db w') = Some r' ∧ used_up f r'.
Proof.
  intros Hq. unfold advanceAfterRun, writeTaskScheduleState.
  assert (∀ lastRunAt, ∃ w' r', write (write_in (task_row projectIdentity d lastRunAt
    (next_due local (rc_schedule config) f (Some (du_scheduledAt d))) status error 0 watermark)) w = (Ok (), w') ∧
    w_pauses w' = [] ∧ row (w_db w') = Some r' ∧ used_up f r') as Hwrite.
  { intros lastRunAt. rewrite quiet_write by done. eexists _, _. split; [reflexivity|]. split; [done|].
    cbn [w_db]. rewrite row_written by done. by split. }
  unfold mbind, M_bind. destruct status; cbn [mret M_ret]; [apply Hwrite| |];
    unfold readLastRunAt, getTaskScheduleState; unfold mbind, M_bind; rewrite quiet_query by done; apply Hwrite.
Qed.

Lemma transient_row f error w r : w_pauses w = [] → row (w_db w) = Some r → next_due_at r = Some (du_scheduledAt d) →
  blank (rc_schedule config) = false →
  ∃ w' r', recordTransientFailure local projectIdentity d f error w = (Ok (), w') ∧ w_pauses w' = [] ∧
    row (w_db w') = Some r' ∧ (used_up f r' ∨ kept r r').
Proof.
  intros Hq Hr Hd Hb. unfold recordTransientFailure, getTaskScheduleState. unfold mbind, M_bind. rewrite quiet_query by done.
  unfold state_in. unfold row_of in Hr. rewrite Hr. cbn [fmap option_fmap option_map option_bind from_option id].
  cbn [toRow ts_retryCount ts_nextDueAt ts_lastRunAt]. unfold writeTaskScheduleState.
  destruct (Z.ltb_spec MAX_TASK_RETRIES (retry_count r + 1)); rewrite quiet_write by done;
    (eexists _, _; split; [reflexivity|]; split; [done|]; cbn [w_db]; rewrite row_written by done; split; [reflexivity|]).
  - by left.
  - right. unfold kept. cbn [written task_row ts_retryCount ts_nextDueAt retry_count next_due_at]. rewrite Hb, Hd.
    cbn [from_option id]. split_and!; [lia|done..].
Qed.

Hypothesis gate_leaves : ∀ t a, leaves_row (evaluateTaskGate t a).
Hypothesis executor_leaves : ∀ c x, leaves_row (executor c x).

Lemma run_task_row holderId leaseKey a forceGate w r : w_pauses w = [] → row (w_db w) = Some r →
  next_due_at r = Some (du_scheduledAt d) → blank (rc_schedule config) = false →
  let '(res, w') := run_task local evaluateTaskGate executor projectIdentity holderId leaseKey a forceGate d w in
  w_pauses w' = [] ∧
  match res with
  | Ok (true, _ :: _) => ∃ r', row (w_db w') = Some r' ∧ ((∃ f, used_up f r') ∨ kept r r')
  | Ok (true, []) => ∃ r' f, row (w_db w') = Some r' ∧ used_up f r'
  | Ok (false, reports) => reports = [] ∧ row (w_db w') = Some r
  | Err _ => row (w_db w') = Some r
  end.
Proof.
  intros Hq Hr Hd Hb. unfold run_task, owns. rewrite !bind_run, now_run, quiet_query by done. set (w1 := {| w_db := _; w_reg := _; w_pauses := _ |}).
  destruct (DreamLease.leaseOwnershipMatches _ _ _ _ _); cbn [negb]; [|by split].
  assert (w_pauses w1 = []) as Hq1 by done. assert (row (w_db w1) = Some r) as Hr1 by done. clearbody w1.
  assert (leaves_row (if forceGate then mret true else gate evaluateTaskGate projectIdentity d)) as Hgate.
  { destruct forceGate; [by split|]. intros w0 Hq0. unfold gate, readLastRunAt, readRetrospectiveWatermark, getTaskScheduleState.
    unfold mbind, M_bind. rewrite quiet_query by done. cbn [mret M_ret]. rewrite quiet_query by done. by apply gate_leaves. }
  rewrite bind_run. destruct (Hgate w1 Hq1) as [Hq2 Hr2].
  destruct ((if forceGate then mret true else gate evaluateTaskGate projectIdentity d) w1) as [[pass|e] w2]; cbn [snd] in *;
    [|split; [done|by rewrite Hr2]].
  rewrite Hr1 in Hr2. destruct pass; cbn [negb].
  - rewrite bind_run. unfold catch_with.
    match goal with |- context [executor ?c ?x w2] => destruct (executor_leaves c x w2 Hq2) as [Hq3 Hr3];
      destruct (executor c x w2) as [res w3] end.
    cbn [snd] in *. rewrite Hr2 in Hr3.
    assert (∀ outcome w4, w_pauses w4 = [] → row (w_db w4) = Some r →
      let '(res, w') := (finishedAt ← Date_now;
        match outcome with
        | exec_completed watermark =>
            advanceAfterRun local projectIdentity d finishedAt completed None watermark;; mret (true, [onRan (rc_task config)])
        | exec_failed true error =>
            recordTransientFailure local projectIdentity d finishedAt error;; mret (true, [onFailed (rc_task config) error])
        | exec_failed false error =>
            advanceAfterRun local projectIdentity d finishedAt failed error None;; mret (true, [onFailed (rc_task config) error])
        end) w4 in
      w_pauses w' = [] ∧
      match res with
      | Ok (true, _ :: _) => ∃ r', row (w_db w') = Some r' ∧ ((∃ f, used_up f r') ∨ kept r r')
      | Ok (true, []) => ∃ r' f, row (w_db w') = Some r' ∧ used_up f r'
      | Ok (false, reports) => reports = [] ∧ row (w_db w') = Some r
  | Err _ => row (w_db w') = Some r
      end) as Hend.
    { intros outcome w4 Hq4 Hr4. rewrite bind_run, now_run. set (f := mem_clock _ _).
      set (w5 := {| w_db := _; w_reg := _; w_pauses := _ |}).
      assert (w_pauses w5 = []) as Hq5 by done. assert (row (w_db w5) = Some r) as Hr5 by done. clearbody w5.
      unfold mbind, M_bind. destruct outcome as [watermark|[] error].
      - destruct (advance_row f completed None watermark w5 Hq5) as (w6 & r' & -> & Hq6 & Hr6 & Hu). cbn [mret M_ret].
        split; [done|]. exists r'. split; [done|]. left. by exists f.
      - destruct (transient_row f error w5 r Hq5 Hr5 Hd Hb) as (w6 & r' & -> & Hq6 & Hr6 & Hu). cbn [mret M_ret].
        split; [done|]. exists r'. split; [done|]. destruct Hu as [Hu|Hu]; [left; by exists f|by right].
      - destruct (advance_row f failed error None w5 Hq5) as (w6 & r' & -> & Hq6 & Hr6 & Hu). cbn [mret M_ret].
        split; [done|]. exists r'. split; [done|]. left. by exists f. }
    destruct res as [outcome|e]; [by apply (Hend outcome)|by apply (Hend (exec_failed true (Some e)))].
  - rewrite bind_run, now_run. set (f := mem_clock _ _).
    set (w3 := {| w_db := _; w_reg := _; w_pauses := _ |}). assert (w_pauses w3 = []) as Hq3 by done. clearbody w3.
    unfold mbind, M_bind.
    destruct (advance_row f skipped None None w3 Hq3) as (w4 & r' & -> & Hq4 & Hr4 & Hu). cbn [mret M_ret].
    split; [done|]. by exists r', f.
Qed.

(** The row is due in another civil minute, or not at all. *)
Definition other_minute (r' : RawRow) : Prop :=
  ∀ t, next_due_at r' = Some t → civilMinuteKey (local t) ≠ civilMinuteKey (local (du_scheduledAt d)).

Lemma used_up_other f r' : used_up f r' → other_minute r'.
Proof.
  intros [E _] t Et. rewrite E in Et. unfold next_due in Et.
  pose proof (next_due_spec local (rc_schedule config) f (Some (du_scheduledAt d)) MAX_SEARCH_MS) as Hs. rewrite Et in Hs.
  destruct Hs as (cron & _ & (_ & _ & _ & Hne) & _). by apply (Hne (du_scheduledAt d)).
Qed.

Lemma other_minute_due r' : other_minute r' → next_due_at r' ≠ Some (du_scheduledAt d).
Proof. intros Ho E. by apply (Ho _ E). Qed.

(** A run of the task: when, by whom, under which lease and acquisition, and whether the
    gate is skipped. *)
Record attempt := { at_clock : memory; at_holderId : string; at_leaseKey : string;
  at_acquisition : DreamLease.LeaseAcquisition; at_forceGate : bool }.

(** The runs of the task while its instant stays due, each under an acquisition of its own
    and with nobody else writing: how often the executor was called, and the tables
    afterwards. *)
Fixpoint slot_runs (attempts : list attempt) (st : store) : Z * store :=
  match attempts with
  | [] => (0, st)
  | x :: attempts =>
      if bool_decide ((row st ≫= next_due_at) = Some (du_scheduledAt d)) then
        let '(res, w) := run_task local evaluateTaskGate executor projectIdentity (at_holderId x) (at_leaseKey x)
                           (at_acquisition x) (at_forceGate x) d
                           {| w_db := st; w_reg := at_clock x; w_pauses := [] |} in
        let '(n, st') := slot_runs attempts (w_db w) in
        ((match res with Ok (_, _ :: _) => 1 | _ => 0 end) + n, st')
      else (0, st)
  end.

Lemma slot_stops attempts st r : row st = Some r → other_minute r → slot_runs attempts st = (0, st).
Proof.
  intros Hr Ho%other_minute_due. destruct attempts; cbn [slot_runs]; [done|].
  rewrite Hr. cbn [mbind option_bind]. by rewrite bool_decide_false.
Qed.

Lemma slot_runs_spec attempts : blank (rc_schedule config) = false → ∀ st r,
  row st = Some r → next_due_at r = Some (du_scheduledAt d) → 0 ≤ retry_count r ≤ MAX_TASK_RETRIES →
  let '(n, st') := slot_runs attempts st in
  0 ≤ n ∧ ∃ r', row st' = Some r' ∧
    ((next_due_at r' = Some (du_scheduledAt d) ∧ retry_count r' = retry_count r + n ∧ retry_count r' ≤ MAX_TASK_RETRIES) ∨
     (other_minute r' ∧ n ≤ MAX_TASK_RETRIES + 1 - retry_count r)).
Proof.
  intros Hb. induction attempts as [|x attempts IH]; intros st r Hr Hd Hretry; cbn [slot_runs].
  { split; [lia|]. exists r. split; [done|]. left. split_and!; [done|lia|lia]. }
  rewrite Hr. cbn [mbind option_bind]. rewrite bool_decide_true by done.
  pose proof (run_task_row (at_holderId x) (at_leaseKey x) (at_acquisition x) (at_forceGate x)
    {| w_db := st; w_reg := at_clock x; w_pauses := [] |} r eq_refl Hr Hd Hb) as Hrun.
  destruct (run_task _ _ _ _ _ _ _ _ _ _) as [res w]. destruct Hrun as [_ Hrun].
  assert (row (w_db w) = Some r → let '(n, st') := slot_runs attempts (w_db w) in
    0 ≤ n ∧ ∃ r', row st' = Some r' ∧
      ((next_due_at r' = Some (du_scheduledAt d) ∧ retry_count r' = retry_count r + n ∧ retry_count r' ≤ MAX_TASK_RETRIES) ∨
       (other_minute r' ∧ n ≤ MAX_TASK_RETRIES + 1 - retry_count r))) as Hsame by (intros; by apply IH).
  assert (∀ r1 f, row (w_db w) = Some r1 → used_up f r1 → slot_runs attempts (w_db w) = (0, w_db w) ∧ other_minute r1)
    as Hused by (intros r1 f Hr1 Hu%used_up_other; split; [by apply (slot_stops _ _ r1)|done]).
  unfold MAX_TASK_RETRIES in *.
  destruct res as [[[] [|rep reps]]|e]; [| | |by destruct Hrun|].
  - destruct Hrun as (r1 & f & Hr1 & Hu). destruct (Hused r1 f Hr1 Hu) as [-> Ho].
    split; [lia|]. exists r1. split; [done|]. right. split; [done|lia].
  - destruct Hrun as (r1 & Hr1 & [(f & Hu)|(Hlt & Hcount & Hd1)]).
    + destruct (Hused r1 f Hr1 Hu) as [-> Ho]. split; [lia|]. exists r1. split; [done|]. right. split; [done|lia].
    + unfold MAX_TASK_RETRIES in *. specialize (IH (w_db w) r1 Hr1 Hd1 ltac:(lia)). destruct (slot_runs _ _) as [n st'].
      destruct IH as (Hn & r' & Hr' & Hcases). split; [lia|]. exists r'. split; [done|].
      destruct Hcases as [(? & ? & ?)|[? ?]]; [left|right]; split_and!; (done || lia).
  - destruct Hrun as [_ Hrun]. specialize (Hsame Hrun). by destruct (slot_runs _ _).
  - specialize (Hsame Hrun). by destruct (slot_runs _ _).
Qed.

End slot.

(** C11: No due instant of an enabled task is run for ever.  From a row that is due with
    no failure counted, however often the task is run while that instant stays due - each
    run under a lease, an acquisition, a holder and a clock of its own, whatever the gate
    and the executor answer or throw - the executor is called at most four times; while
    the row stays due at that instant, as many failures are counted; otherwise it is due
    in another civil minute or not at all, and after four calls it is.  Nobody else
    writes during the runs, no access fails, and gate and executor leave the task's row
    alone. *)
Theorem slot_runs_bounded `{Engine} local evaluateTaskGate executor projectIdentity d attempts st r :
  (∀ t a, leaves_row projectIdentity d (evaluateTaskGate t a)) → (∀ c x, leaves_row projectIdentity d (executor c x)) →
  blank (rc_schedule (du_config d)) = false → row_of projectIdentity (du_config d) st = Some r →
  next_due_at r = Some (du_scheduledAt d) → retry_count r = 0 →
  let '(n, st') := slot_runs local evaluateTaskGate executor projectIdentity d attempts st in
  0 ≤ n ≤ 4 ∧ ∃ r', row_of projectIdentity (du_config d) st' = Some r' ∧
    (next_due_at r' = Some (du_scheduledAt d) ∧ n < 4 ∧ retry_count r' = n ∨ other_minute local d r').
Proof.
  intros Hgate Hexec Hb Hr Hd Hc.
  pose proof (slot_runs_spec local evaluateTaskGate executor projectIdentity d Hgate Hexec attempts Hb st r Hr Hd
    ltac:(unfold MAX_TASK_RETRIES; lia)) as Hs.
  destruct (slot_runs _ _ _ _ _ _ _) as [n st']. destruct Hs as (Hn & r' & Hr' & Hcases).
  unfold MAX_TASK_RETRIES in Hcases. split; [destruct Hcases as [(_ & ? & ?)|[_ ?]]; lia|]. exists r'. split; [done|].
  destruct Hcases as [(? & ? & ?)|[? _]]; [left; split_and!; [done|lia|lia]|by right].
Qed.

(** ** Witnesses *)

Definition sample_local (t : Z) : civil :=
  {| getFullYear := 2024; getMonth := 4; getDate := 1 + t / 86400000; getDay := 3; getHours := t / 3600000 mod 24;
     getMinutes := t / 60000 mod 60 |}.

#[local] Instance sample_engine : Engine := @json_engine integer_engine.

Definition sample_config : DreamTaskRuntimeConfig :=
  {| rc_task := curate; rc_schedule := "0 * * * *"; rc_promotionThreshold := None |}.

Definition sample_disabled : DreamTaskRuntimeConfig :=
  {| rc_task := verify; rc_schedule := " "; rc_promotionThreshold := None |}.

Definition sample_row : RawRow := seed_row (Some 3600000) None "0 * * * *".

Definition sample_store : store := {| st_tasks := {[("git:p", "curate") := sample_row]}%string; st_dream := ∅ |}.

Definition sample_clock : memory := {| mem_clock := fun n => 4000000 + Z.of_nat n; mem_reads := 0 |}.

(** Another process prunes the project's rows before the first statement. *)
Definition sample_world : world :=
  {| w_db := sample_store; w_reg := sample_clock;
     w_pauses := [{| p_commits := [prune "git:p" [curate; verify]]; p_fault := None |}] |}.

Definition open_gate : DreamTaskName → gate_args → M bool := fun _ _ => mret true.
Definition failing_executor : DreamTaskRuntimeConfig → TaskExecutorContext → M TaskExecOutcome := fun _ _ => throw "busy"%string.

Definition sample_due : DueTask := {| du_config := sample_config; du_scheduledAt := 3600000 |}.

Lemma sample_tasks_sound c : c ∈ [sample_config; sample_disabled] → sound "git:p" c (w_db sample_world).
Proof.
  intros Hc r s Hr Hs Hb. unfold row_of in Hr. cbn [sample_world sample_store w_db st_tasks] in Hr.
  apply lookup_singleton_Some in Hr as [_ <-]. cbn [sample_row seed_row schedule] in Hs. injection Hs as <-.
  by vm_compute in Hb.
Qed.

Lemma schedules_followed_witness :
  let tick := runDueTasksForProject sample_local open_gate "git:p" [sample_config; sample_disabled] 4000000 sample_world in
  tick.1 = Ok (1, [[sample_due]]) ∧
  agreed "git:p" sample_disabled (w_db tick.2).
Proof.
  assert (one_config [sample_config; sample_disabled]) as Hone.
  { intros c c' Hc Hc'. rewrite !elem_of_cons in Hc, Hc'. intros E.
    destruct Hc as [->|[->|?%elem_of_nil]], Hc' as [->|[->|?%elem_of_nil]]; done. }
  intros tick. assert (tick.1 = Ok (1, [[sample_due]])) as E1 by (vm_compute; reflexivity). split; [exact E1|].
  destruct (schedules_followed sample_local open_gate failing_executor "git:p" [sample_config; sample_disabled] 4000000
    sample_world (Ok (1, [[sample_due]])) tick.2 Hone) as (_ & _ & _ & Hall & _).
  - intros t a. apply (guarded_ret (follows "git:p" [sample_config; sample_disabled])).
  - intros c x. apply (guarded_throw (follows "git:p" [sample_config; sample_disabled])).
  - constructor; [|constructor]. constructor; [|constructor]. intros st.
    apply (prune_follows "git:p" [sample_config; sample_disabled] st).
  - exact sample_tasks_sound.
  - apply injective_projections; [exact E1|reflexivity].
  - apply (Hall sample_disabled). right. by left.
Defined.

Lemma group_releases_lease_witness :
  let w := {| w_db := sample_store; w_reg := sample_clock; w_pauses := [] |} in
  let run := runDomainGroup sample_local open_gate failing_executor "git:p" "h1" [sample_due] false None w in
  run.1 = Ok [onFailed curate (Some "busy"%string)] ∧ not_held "h1" "memory:git:p" (w_db run.2).
Proof.
  intros w run. assert (run.1 = Ok [onFailed curate (Some "busy"%string)]) as E by (vm_compute; reflexivity).
  split; [exact E|].
  pose proof (group_releases_lease sample_local open_gate failing_executor "git:p" "h1" sample_due [] false None w) as Hr.
  cbv zeta in Hr. fold run in Hr. destruct run as [r w']. cbn [fst snd] in *. subst r. apply Hr; [constructor|done].
Defined.

Lemma slot_runs_bounded_witness :
  let a := {| DreamLease.acquiredAt := 4000000; DreamLease.la_generation := 1 |} in
  let st := with_dream (DreamLease.acquireLeaseWithAcquisition ∅ "h1" "memory:git:p" 4000000 4000000).1 sample_store in
  let x := {| at_clock := sample_clock; at_holderId := "h1"; at_leaseKey := "memory:git:p"; at_acquisition := a;
              at_forceGate := false |}%string in
  let runs := slot_runs sample_local open_gate failing_executor "git:p" sample_due (replicate 6 x) st in
  runs.1 = 4 ∧ ∃ r, row_of "git:p" sample_config runs.2 = Some r ∧ other_minute sample_local sample_due r.
Proof.
  intros a st x runs. assert (runs.1 = 4) as E by (vm_compute; reflexivity). split; [exact E|].
  pose proof (slot_runs_bounded sample_local open_gate failing_executor "git:p" sample_due (replicate 6 x) st sample_row) as Hs.
  fold runs in Hs. destruct runs as [n st']. cbn [fst snd] in *. subst n.
  destruct Hs as (_ & r & Hr & Hn); [by split|by split|vm_compute; reflexivity|reflexivity|reflexivity|reflexivity|].
  exists r. split; [exact Hr|]. destruct Hn as [(_ & Hlt & _)|Ho]; [discriminate Hlt|exact Ho].
Defined.
