(* ===== verification/RawSession.v ===== *)
(** * Reading the raw messages of a session

    Models packages/plugin/src/hooks/magic-context/read-session-raw.ts and
    getRawSessionMessageCountFromDb of read-session-db.ts: the readers of the host's
    message and part tables.  A summary row takes no ordinal; a row whose data is no
    JSON object takes one but is left out by some readers.  SQLite's JSON functions are
    a parameter ([SqliteJson]).  The readers agree on which message has which ordinal
    ([readers_agree]), and reading a tail, from the database or from memory, gives the
    end of what reading everything gives ([tails_agree]). *)

From S2P Require Import Prelude JsNumber JsMap JsValue JsJson TokenEstimate SessionRow.

(** ** Rows *)

Record message_row := {
  mr_id : string; mr_session : string; mr_data : string; mr_time_created : Z; mr_time_updated : option Z
}.

Record part_row := {
  pr_id : string; pr_session : string; pr_message_id : string; pr_data : string;
  pr_time_created : Z; pr_time_updated : option Z
}.

(** The host's tables, in insertion order. *)
Record opencode_db := { oc_messages : list message_row; oc_parts : list part_row }.

(** What SQLite's JSON functions answer: whether a text is well-formed, and the value at
    a path of a well-formed text.  On another text [json_extract] raises.  The engine may
    evaluate a JSON condition of a WHERE clause before or after the others. *)
Class SqliteJson := {
  json_valid : string → bool;
  json_at : string → string → cell;
  json_first : bool
}.

(** A message as read, with its versions; the version of a part is not enumerable. *)
Record raw_message := {
  rw_message : RawMessage;
  rw_createdAt : option Z;
  rw_version : option Z;
  rw_partVersions : list (option Z)
}.

Abbreviation rw_ordinal m := (rm_ordinal (rw_message m)).
Abbreviation rw_id m := (rm_id (rw_message m)).

Record RawMessageParts := {
  rp_id : string; rp_role : string; rp_parts : list value; rp_createdAt : option Z;
  rp_version : option Z; rp_partVersions : list (option Z)
}.

Record RawMessageOrdinalAnchor := { ra_timeCreated : Z; ra_id : string }.

Record RawMessageOrdinalEntry := {
  re_id : string; re_timeCreated : Z; re_contributesOrdinal : bool; re_hasValidInfo : bool
}.

(** [ORDER BY time_created ASC, id ASC] and [(time_created, id) > (?, ?)]. *)
Definition row_cmp (t1 : Z) (id1 : string) (t2 : Z) (id2 : string) : Z :=
  if t1 <? t2 then -1 else if t2 <? t1 then 1 else str_cmp id1 id2.

Definition message_cmp (a b : message_row) : Z :=
  row_cmp (mr_time_created a) (mr_id a) (mr_time_created b) (mr_id b).

Definition part_cmp (a b : part_row) : Z :=
  row_cmp (pr_time_created a) (pr_id a) (pr_time_created b) (pr_id b).

Definition ordered_messages (db : opencode_db) (sessionId : string) : list message_row :=
  js_sort message_cmp (filter (fun r => mr_session r = sessionId) (oc_messages db)).

Definition ordered_parts (db : opencode_db) (sessionId : string) : list part_row :=
  js_sort part_cmp (filter (fun r => pr_session r = sessionId) (oc_parts db)).

Section readers.
Context `{JsonEngine} `{SqliteJson}.

(** ** Parsing *)

Definition parseJsonRecord (text : string) : option (list (string * value)) :=
  match json_parse text with Some (VObj entries) => Some entries | _ => None end.

Definition isRawCompactionSummaryInfo (info : option (list (string * value))) : bool :=
  match info with
  | Some candidate =>
      match field candidate "summary", field candidate "finish" with
      | VBool true, VStr finish => String.eqb finish "stop"
      | _, _ => false
      end
  | None => false
  end.

(** The version of a part, which only an object carries. *)
Definition part_version (v : value) (timeUpdated : option Z) : option Z :=
  match v with VObj _ => timeUpdated | _ => None end.

Definition parse_part (p : part_row) : value * option Z :=
  let v := default VNull (json_parse (pr_data p)) in (v, part_version v (pr_time_updated p)).

(** The parts of a list of rows by the message they belong to. *)
Definition group_parts (rows : list part_row) : jsmap string (list (value * option Z)) :=
  foldl (fun groups p =>
           JsMap.set groups (pr_message_id p) (default [] (JsMap.get groups (pr_message_id p)) ++ [parse_part p]))
        [] rows.

Definition role_of (info : option (list (string * value))) : string :=
  match info ≫= fun entries => Some (field entries "role") with Some (VStr role) => role | _ => "unknown" end.

Definition raw_of (parts : list (value * option Z)) (row : message_row)
    (info : option (list (string * value))) (ordinal : Z) : raw_message :=
  {| rw_message := {| rm_ordinal := ordinal; rm_id := mr_id row; rm_role := role_of info; rm_parts := parts.*1 |};
     rw_createdAt := Some (mr_time_created row); rw_version := mr_time_updated row; rw_partVersions := parts.*2 |}.

Definition to_raw (groups : jsmap string (list (value * option Z))) (row : message_row)
    (info : option (list (string * value))) (ordinal : Z) : raw_message :=
  raw_of (default [] (JsMap.get groups (mr_id row))) row info ordinal.

(** ** The whole session *)

Definition info_of (row : message_row) : option (list (string * value)) := parseJsonRecord (mr_data row).

Definition is_summary (row : message_row) : bool := isRawCompactionSummaryInfo (info_of row).

(** [filtered.flatMap((row, index) => ...)]. *)
Fixpoint number_rows (groups : jsmap string (list (value * option Z))) (index : Z) (rows : list message_row)
    : list raw_message :=
  match rows with
  | [] => []
  | row :: rows =>
      match info_of row with
      | None => number_rows groups (index + 1) rows
      | Some info => to_raw groups row (Some info) (index + 1) :: number_rows groups (index + 1) rows
      end
  end.

Definition readRawSessionMessagesFromDb (db : opencode_db) (sessionId : string) : list raw_message :=
  let partsByMessageId := group_parts (ordered_parts db sessionId) in
  number_rows partsByMessageId 0 (filter (fun row => is_summary row = false) (ordered_messages db sessionId)).

(** ** Pages *)

(** The value [json_extract] gives under the guard [json_valid(data) = 1]. *)
Definition guarded_extract (data path : string) (fallback : cell) : cell :=
  if json_valid data then match json_at data path with SqlNull => fallback | c => c end else fallback.

(** The SQL condition that recognises a summary. *)
Definition sql_summary (row : message_row) : bool :=
  sql_eq (guarded_extract (mr_data row) "$.summary" (SqlNum (nofZ 0))) (SqlNum (nofZ 1)) &&
  sql_eq (guarded_extract (mr_data row) "$.finish" empty_text) (SqlText "stop").

Definition counted_messages (db : opencode_db) (sessionId : string) : list message_row :=
  filter (fun row => sql_summary row = false) (ordered_messages db sessionId).

Definition parts_in (db : opencode_db) (sessionId : string) (ids : list string) : list part_row :=
  filter (fun p => pr_message_id p ∈ ids) (ordered_parts db sessionId).

Definition MAX_SAFE_INTEGER : Z := 2 ^ 53 - 1.

Definition readRawSessionMessagePageFromDb (db : opencode_db) (sessionId : string) (afterOrdinal limit : Z)
    (finalWatermark : option Z) : list raw_message :=
  let remaining := Z.max 0 (default MAX_SAFE_INTEGER finalWatermark - afterOrdinal) in
  let pageSize := Z.min (Z.max 1 limit) remaining in
  if pageSize =? 0 then []
  else
    let rows := take (Z.to_nat pageSize) (drop (Z.to_nat (Z.max 0 afterOrdinal)) (counted_messages db sessionId)) in
    let partsByMessageId := group_parts (parts_in db sessionId (mr_id <$> rows)) in
    imap (fun index row => to_raw partsByMessageId row (info_of row) (afterOrdinal + Z.of_nat index + 1)) rows.

(** ** Counts and single messages *)

Definition countRawSessionMessageOrdinalsFromDb (db : opencode_db) (sessionId : string) : Z :=
  lengthZ (counted_messages db sessionId).

Definition countStoredRawSessionMessagesFromDb (db : opencode_db) (sessionId : string) : Z :=
  lengthZ (ordered_messages db sessionId).

Definition malformed_json : string := "malformed JSON".

(** The condition without the guard: it raises on a text that is no JSON. *)
Definition unguarded_summary (row : message_row) : result string bool :=
  if json_valid (mr_data row) then Ok (sql_summary row) else Err malformed_json.

(** [COUNT] of the rows that are no summary, among those another condition selects. *)
Definition count_unguarded (selects : message_row → bool) (rows : list message_row) : result string Z :=
  let evaluated := if json_first then rows else filter (fun r => selects r = true) rows in
  if forallb (fun r => json_valid (mr_data r)) evaluated
  then Ok (lengthZ (filter (fun r => selects r && negb (sql_summary r) = true) rows))
  else Err malformed_json.

Definition getRawSessionMessageCountFromDb (db : opencode_db) (sessionId : string) : result string Z :=
  count_unguarded (fun _ => true) (ordered_messages db sessionId).

Definition readRawSessionMessageIdOrdinalsFromDb (db : opencode_db) (sessionId : string) : jsmap string Z :=
  (foldl (fun '(ordinalById, ordinal) row =>
            if is_summary row then (ordinalById, ordinal)
            else match info_of row with
                 | Some _ => (JsMap.set ordinalById (mr_id row) (ordinal + 1), ordinal + 1)
                 | None => (ordinalById, ordinal + 1)
                 end)
         ([], 0) (ordered_messages db sessionId)).1.

Definition after_anchor (anchor : RawMessageOrdinalAnchor) (row : message_row) : bool :=
  0 <? row_cmp (mr_time_created row) (mr_id row) (ra_timeCreated anchor) (ra_id anchor).

Definition readRawSessionMessageOrdinalPageFromDb (db : opencode_db) (sessionId : string)
    (after : option RawMessageOrdinalAnchor) (limit : Z) : list RawMessageOrdinalEntry :=
  let rows :=
    match after with
    | Some anchor => filter (fun r => after_anchor anchor r = true) (ordered_messages db sessionId)
    | None => ordered_messages db sessionId
    end in
  (fun row => {| re_id := mr_id row; re_timeCreated := mr_time_created row;
                 re_contributesOrdinal := negb (is_summary row);
                 re_hasValidInfo := match info_of row with Some _ => true | None => false end |})
    <$> take (Z.to_nat (Z.max 1 limit)) rows.

Definition find_message (db : opencode_db) (sessionId messageId : string) : option message_row :=
  head (filter (fun r => mr_session r = sessionId ∧ mr_id r = messageId) (oc_messages db)).

Definition not_after (row candidate : message_row) : bool := message_cmp candidate row <=? 0.

Definition readRawSessionMessagePartsByIdFromDb (db : opencode_db) (sessionId messageId : string)
    : option RawMessageParts :=
  row ← find_message db sessionId messageId;
  info ← info_of row;
  if isRawCompactionSummaryInfo (Some info) then None
  else
    let parts := parse_part <$> filter (fun p => pr_message_id p = messageId) (ordered_parts db sessionId) in
    Some {| rp_id := mr_id row; rp_role := role_of (Some info); rp_parts := parts.*1;
            rp_createdAt := Some (mr_time_created row); rp_version := mr_time_updated row;
            rp_partVersions := parts.*2 |}.

(** The join counts one candidate per target. *)
Definition readRawSessionMessageOrdinalByIdFromDb (db : opencode_db) (sessionId messageId : string) : option Z :=
  let rows := counted_messages db sessionId in
  let targets := filter (fun r => mr_id r = messageId) rows in
  let ordinal := sumZ (fun target => lengthZ (filter (fun c => not_after target c = true) rows)) targets in
  if 0 <? ordinal then Some ordinal else None.

Definition readRawSessionMessageByIdFromDb (db : opencode_db) (sessionId messageId : string)
    : result string (option raw_message) :=
  match find_message db sessionId messageId with
  | None => Ok None
  | Some row =>
      match info_of row with
      | None => Ok None
      | Some info =>
          if isRawCompactionSummaryInfo (Some info) then Ok None
          else
            ordinal ← count_unguarded (not_after row) (ordered_messages db sessionId);
            if ordinal <=? 0 then Ok None
            else
              let parts := parse_part <$> filter (fun p => pr_message_id p = messageId) (ordered_parts db sessionId) in
              Ok (Some (raw_of parts row (Some info) ordinal))
      end
  end.

(** ** Tails *)

(** [ids.slice(i, i + 800)] for [i] from 0 in steps of 800; [fuel] bounds the slices. *)
Definition PART_CHUNK : nat := 800.

Fixpoint slices (fuel : nat) (ids : list string) : list (list string) :=
  match fuel, ids with
  | S fuel, _ :: _ => take PART_CHUNK ids :: slices fuel (drop PART_CHUNK ids)
  | _, _ => []
  end.

Record raw_tail := { rt_messages : list raw_message; rt_absoluteMessageCount : Z }.

(** The loop over the rows: the messages and the ordinal past the last. *)
Fixpoint number_tail (groups : jsmap string (list (value * option Z))) (ord : Z) (rows : list message_row)
    : list raw_message * Z :=
  match rows with
  | [] => ([], ord)
  | row :: rows =>
      let '(messages, last) := number_tail groups (ord + 1) rows in
      match info_of row with
      | None => (messages, last)
      | Some info => (to_raw groups row (Some info) ord :: messages, last)
      end
  end.

Definition at_or_after (anchor row : message_row) : bool :=
  (mr_time_created anchor <? mr_time_created row) ||
  ((mr_time_created row =? mr_time_created anchor) && (0 <=? str_cmp (mr_id row) (mr_id anchor))).

Definition readRawSessionTailFromDb (db : opencode_db) (sessionId : string) (baseOrdinal : Z)
    (anchorMessageId : string) : option raw_tail :=
  anchor ← find_message db sessionId anchorMessageId;
  if is_summary anchor then None
  else
    let rows := filter (fun row => is_summary row = false)
                  (filter (fun row => at_or_after anchor row = true) (ordered_messages db sessionId)) in
    let ids := mr_id <$> rows in
    let groups := group_parts (List.concat ((fun slice => parts_in db sessionId slice) <$> slices (length ids) ids)) in
    let '(messages, ord) := number_tail groups baseOrdinal rows in
    Some {| rt_messages := messages; rt_absoluteMessageCount := Z.max 0 (ord - 1) |}.

(** *** Tails from memory *)

Record InMemoryMessageView := {
  iv_id : string; iv_role : string; iv_parts : list value; iv_summary : option bool; iv_finish : option string
}.

Record InMemoryTailResult := {
  it_messages : list RawMessage; it_absoluteMessageCount : Z; it_anchorFound : bool
}.

(** A message of the transform: [info] and [parts], either may be absent. *)
Record wire_message := { wm_info : value; wm_parts : value }.

Definition member (v : value) (key : string) : value := match v with VObj e => field e key | _ => VUndefined end.

Definition extractInMemoryMessageViews (messages : list wire_message) : list InMemoryMessageView :=
  (fun m =>
     let info := wm_info m in
     {| iv_id := match member info "id" with VStr id => id | _ => EmptyString end;
        iv_role := match member info "role" with VStr role => role | _ => "unknown" end;
        iv_parts := match wm_parts m with VArr parts => parts | _ => [] end;
        iv_summary := match member info "summary" with VBool true => Some true | _ => None end;
        iv_finish := match member info "finish" with VStr finish => Some finish | _ => None end |}) <$> messages.

Definition view_summary (m : InMemoryMessageView) : bool :=
  bool_decide (iv_summary m = Some true ∧ iv_finish m = Some "stop"%string).

(** The loop over the views. *)
Fixpoint number_views (ord : Z) (views : list InMemoryMessageView) : list RawMessage * Z :=
  match views with
  | [] => ([], ord)
  | m :: views =>
      let '(out, last) := number_views (ord + 1) views in
      if String.eqb (iv_id m) "" then (out, last)
      else ({| rm_ordinal := ord; rm_id := iv_id m; rm_role := iv_role m; rm_parts := iv_parts m |} :: out, last)
  end.

Definition buildInMemoryTailRawMessages (messages : list InMemoryMessageView) (lastCompartmentEnd : Z)
    (anchorMessageId : option string) : option InMemoryTailResult :=
  let filtered := filter (fun m => view_summary m = false) messages in
  match filtered with
  | [] => None
  | _ =>
      let anchor := match anchorMessageId with
                    | Some id => if String.eqb id "" then None else fst <$> list_find (fun m => iv_id m = id) filtered
                    | None => None
                    end in
      let '(startIndex, baseOrdinal, anchorFound) :=
        match anchor with
        | Some anchorIndex => (anchorIndex, lastCompartmentEnd, true)
        | None => (0%nat, Z.max 1 (lastCompartmentEnd + 1), false)
        end in
      let '(out, ord) := number_views baseOrdinal (drop startIndex filtered) in
      Some {| it_messages := out; it_absoluteMessageCount := Z.max 0 (ord - 1); it_anchorFound := anchorFound |}
  end.

End readers.

(** ** Specification *)

Section spec.
Context `{JsonEngine} `{SqliteJson}.

(** Ids are the primary key of the message table. *)
Definition keyed (db : opencode_db) : Prop := NoDup (mr_id <$> oc_messages db).

(** SQLite finds the same rows to be summaries as the code does. *)
Definition summaries_agree (db : opencode_db) : Prop :=
  ∀ row, row ∈ oc_messages db → sql_summary row = is_summary row.

(** What [json_extract] answers for a member, as SQLite documents it. *)
Definition reads_member (v : value) (c : cell) : Prop :=
  match v with
  | VUndefined | VNull => c = SqlNull
  | VBool b => c = SqlNum (nofZ (if b then 1 else 0))
  | VNum n => c = SqlNum n
  | VStr t => c = SqlText t
  | VArr _ | VObj _ => ∃ t, c = SqlText t ∧ t ≠ "stop"%string
  end.

(** SQLite accepts the texts [JSON.parse] does, and finds in them the two members a
    summary is recognised by. *)
Definition sqlite_reads (data : string) : Prop :=
  match json_parse data with
  | None => json_valid data = false
  | Some v => json_valid data = true ∧ reads_member (member v "summary") (json_at data "$.summary") ∧
              reads_member (member v "finish") (json_at data "$.finish")
  end.

(** The host writes [summary] as a boolean: at least, never as the number 1. *)
Definition summaries_not_one (db : opencode_db) : Prop :=
  ∀ row v n, row ∈ oc_messages db → json_parse (mr_data row) = Some v → member v "summary" = VNum n →
    neqb n (nofZ 1) = false.

Lemma summaries_recognised db :
  (∀ row, row ∈ oc_messages db → sqlite_reads (mr_data row)) → summaries_not_one db → summaries_agree db.
Proof.
  intros Hr Hn row Hrow. specialize (Hr row Hrow). unfold sqlite_reads in Hr. unfold sql_summary, is_summary, info_of,
    guarded_extract, parseJsonRecord. destruct (json_parse (mr_data row)) as [v|] eqn:E; [|by rewrite Hr].
  destruct Hr as (-> & Hs & Hf). specialize (Hn row v).
  assert (isRawCompactionSummaryInfo (match v with VObj e => Some e | _ => None end) =
          match member v "summary", member v "finish" with VBool true, VStr f => String.eqb f "stop" | _, _ => false end)
    as -> by by destruct v.
  assert (sql_eq (match json_at (mr_data row) "$.summary" with SqlNull => SqlNum (nofZ 0) | c => c end) (SqlNum (nofZ 1)) =
          match member v "summary" with VBool true => true | _ => false end) as ->.
  { destruct (member v "summary") as [| |[]|n| | |] eqn:Em; cbn [reads_member] in Hs; try rewrite Hs; try done.
    - by apply Hn.
    - destruct Hs as (t & -> & _). done.
    - destruct Hs as (t & -> & _). done. }
  destruct (member v "summary") as [| |[]| | | |]; try done. cbn [andb].
  destruct (member v "finish"); cbn [reads_member] in Hf; try (rewrite Hf; done);
    by destruct Hf as (t & -> & ?%String.eqb_neq).
Qed.

(** The rows that take an ordinal, in order. *)
Definition slots (db : opencode_db) (sessionId : string) : list message_row :=
  filter (fun row => is_summary row = false) (ordered_messages db sessionId).

Definition parts_for (db : opencode_db) (sessionId : string) (row : message_row) : list (value * option Z) :=
  parse_part <$> filter (fun p => pr_message_id p = mr_id row) (ordered_parts db sessionId).

Definition entry_at (db : opencode_db) (sessionId : string) (index : nat) (row : message_row)
    : message_row * raw_message :=
  (row, raw_of (parts_for db sessionId row) row (info_of row) (Z.of_nat index + 1)).

(** Every row that takes an ordinal with the message it stands for. *)
Definition reference (db : opencode_db) (sessionId : string) : list (message_row * raw_message) :=
  imap (entry_at db sessionId) (slots db sessionId).

Definition well_formed (e : message_row * raw_message) : bool :=
  match info_of e.1 with Some _ => true | None => false end.

Definition readable (l : list (message_row * raw_message)) : list raw_message :=
  (filter (fun e => well_formed e = true) l).*2.

(** A message of the wire shows what the database holds; one without an id stands for a
    row that is malformed. *)
Definition shows (v : InMemoryMessageView) (e : message_row * raw_message) : Prop :=
  if well_formed e then
    iv_id v = mr_id e.1 ∧ iv_id v ≠ ""%string ∧ iv_role v = rm_role (rw_message e.2) ∧
    iv_parts v = rm_parts (rw_message e.2)
  else iv_id v = ""%string.

(** ** Order *)

Lemma row_cmp_zero t1 id1 t2 id2 : row_cmp t1 id1 t2 id2 = 0 ↔ t1 = t2 ∧ id1 = id2.
Proof.
  unfold row_cmp. destruct (Z.ltb_spec t1 t2), (Z.ltb_spec t2 t1); try lia.
  rewrite str_cmp_eq. intuition lia.
Qed.

Lemma row_cmp_antisym t1 id1 t2 id2 : row_cmp t2 id2 t1 id1 = - row_cmp t1 id1 t2 id2.
Proof.
  unfold row_cmp. destruct (Z.ltb_spec t1 t2), (Z.ltb_spec t2 t1); try lia. apply str_cmp_antisym.
Qed.

Lemma row_cmp_trans t1 id1 t2 id2 t3 id3 :
  row_cmp t1 id1 t2 id2 ≤ 0 → row_cmp t2 id2 t3 id3 ≤ 0 → row_cmp t1 id1 t3 id3 ≤ 0.
Proof.
  unfold row_cmp.
  destruct (Z.ltb_spec t1 t2), (Z.ltb_spec t2 t1), (Z.ltb_spec t2 t3), (Z.ltb_spec t3 t2),
    (Z.ltb_spec t1 t3), (Z.ltb_spec t3 t1); try lia. apply str_cmp_trans.
Qed.

Lemma message_cmp_total a b : message_cmp a b ≤ 0 ∨ message_cmp b a ≤ 0.
Proof. unfold message_cmp. rewrite (row_cmp_antisym (mr_time_created a)). lia. Qed.

Lemma message_cmp_trans a b c : message_cmp a b ≤ 0 → message_cmp b c ≤ 0 → message_cmp a c ≤ 0.
Proof. apply row_cmp_trans. Qed.

Definition precedes (a b : message_row) : Prop := message_cmp a b < 0.

Lemma precedes_irrefl a : ¬ precedes a a.
Proof. unfold precedes, message_cmp. rewrite (proj2 (row_cmp_zero _ _ _ _)); [lia|done]. Qed.

Lemma precedes_not_after a b : precedes a b ↔ ¬ message_cmp b a ≤ 0.
Proof. unfold precedes, message_cmp. rewrite (row_cmp_antisym (mr_time_created a)). lia. Qed.

Lemma keyed_inj db a b : keyed db → a ∈ oc_messages db → b ∈ oc_messages db → mr_id a = mr_id b → a = b.
Proof.
  intros Hk [i Ha]%list_elem_of_lookup [j Hb]%list_elem_of_lookup E.
  assert (i = j) as ->; [|congruence].
  eapply NoDup_lookup; [exact Hk|by rewrite list_lookup_fmap, Ha|]. by rewrite list_lookup_fmap, Hb, E.
Qed.

Lemma in_ordered db s r : r ∈ ordered_messages db s ↔ r ∈ oc_messages db ∧ mr_session r = s.
Proof. unfold ordered_messages. rewrite js_sort_in, list_elem_of_filter. tauto. Qed.

Lemma sorted_strict (l : list message_row) :
  NoDup (mr_id <$> l) → StronglySorted (fun a b => message_cmp a b ≤ 0) l → StronglySorted precedes l.
Proof.
  intros Hnd Hs. induction Hs as [|a l Hs IH Ha]; [constructor|].
  apply NoDup_cons in Hnd as [Hn Hnd]. constructor; [by apply IH|].
  apply Forall_forall. intros b Hb. eapply Forall_forall in Ha; [|exact Hb]. unfold precedes.
  destruct (decide (message_cmp a b = 0)) as [E|]; [|lia].
  apply row_cmp_zero in E as [_ E]. destruct Hn. apply list_elem_of_fmap. by exists b.
Qed.

Lemma ordered_strict db s : keyed db → StronglySorted precedes (ordered_messages db s).
Proof.
  intros Hk. apply sorted_strict.
  - unfold ordered_messages. rewrite js_sort_perm.
    eapply sublist_NoDup; [exact Hk|]. apply fmap_sublist, sublist_filter.
  - apply js_sort_sorted; [apply message_cmp_total|apply message_cmp_trans].
Qed.

Lemma slots_strict db s : keyed db → StronglySorted precedes (slots db s).
Proof.
  intros Hk. pose proof (ordered_strict db s Hk) as Hs. unfold slots.
  induction Hs as [|a l Hs IH Ha]; [constructor|]. rewrite filter_cons. case_decide; [|done].
  constructor; [done|]. apply Forall_forall. intros b [_ Hb]%list_elem_of_filter. by eapply Forall_forall in Ha.
Qed.

(** In an ordered list the rows up to one are a prefix, those from it on a suffix. *)
Lemma prefix_upto l i x : StronglySorted precedes l → l !! i = Some x →
  filter (fun c => not_after x c = true) l = take (S i) l.
Proof.
  intros Hs. revert i. induction Hs as [|a l Hs IH Ha]; intros i Hx; [done|]. rewrite filter_cons. unfold not_after at 1.
  destruct i as [|i]; cbn in Hx.
  - injection Hx as ->. rewrite decide_True by (apply Z.leb_le; pose proof (precedes_irrefl x); unfold precedes in *; destruct (message_cmp_total x x); done).
    rewrite filter_none; [done|]. intros c Hc E%Z.leb_le. eapply Forall_forall in Ha; [|exact Hc].
    by apply precedes_not_after in Ha.
  - assert (message_cmp a x ≤ 0) as Hax.
    { eapply Forall_forall in Ha; [|by eapply list_elem_of_lookup_2]. unfold precedes in Ha. lia. }
    rewrite decide_True by by apply Z.leb_le. rewrite (IH i Hx). done.
Qed.

Lemma at_or_after_spec x c : at_or_after x c = true ↔ message_cmp x c ≤ 0.
Proof.
  unfold at_or_after, message_cmp, row_cmp. rewrite (str_cmp_antisym (mr_id x)).
  destruct (Z.ltb_spec (mr_time_created x) (mr_time_created c)), (Z.ltb_spec (mr_time_created c) (mr_time_created x)),
    (Z.eqb_spec (mr_time_created c) (mr_time_created x)); cbn; lia.
Qed.

Lemma suffix_from l i x : StronglySorted precedes l → l !! i = Some x →
  filter (fun c => at_or_after x c = true) l = drop i l.
Proof.
  intros Hs. revert i. induction Hs as [|a l Hs IH Ha]; intros i Hx; [done|]. rewrite filter_cons.
  destruct i as [|i]; cbn in Hx.
  - injection Hx as ->. rewrite decide_True by (apply at_or_after_spec; destruct (message_cmp_total x x); done).
    rewrite filter_all; [done|]. intros c Hc. apply at_or_after_spec. eapply Forall_forall in Ha; [|exact Hc].
    unfold precedes in Ha. lia.
  - rewrite decide_False; [by apply IH|]. rewrite at_or_after_spec. apply precedes_not_after.
    eapply Forall_forall in Ha; [done|]. by eapply list_elem_of_lookup_2.
Qed.

(** ** Entries *)

Section entries.
Context (db : opencode_db) (s : string).

Definition entries (start : Z) (rows : list message_row) : list (message_row * raw_message) :=
  imap (fun i row => (row, raw_of (parts_for db s row) row (info_of row) (start + Z.of_nat i + 1))) rows.

Lemma entries_cons start row rows :
  entries start (row :: rows) =
  (row, raw_of (parts_for db s row) row (info_of row) (start + 1)) :: entries (start + 1) rows.
Proof.
  unfold entries. rewrite imap_cons. f_equal; [by rewrite Z.add_0_r|].
  apply imap_ext. intros i x _. cbn. do 2 f_equal. lia.
Qed.

Lemma reference_entries : reference db s = entries 0 (slots db s).
Proof. done. Qed.

Lemma entries_length start rows : length (entries start rows) = length rows.
Proof. apply length_imap. Qed.

Lemma entries_take n : ∀ start rows, take n (entries start rows) = entries start (take n rows).
Proof.
  induction n as [|n IH]; intros start [|row rows]; [done..|]. cbn [take]. rewrite !entries_cons. cbn [take]. by rewrite IH.
Qed.

Lemma entries_drop n : ∀ start rows, drop n (entries start rows) = entries (start + Z.of_nat n) (drop n rows).
Proof.
  induction n as [|n IH]; intros start [|row rows]; cbn [drop]; try (rewrite ?Z.add_0_r; done).
  rewrite entries_cons. cbn [drop]. rewrite IH. f_equal. lia.
Qed.

Lemma entries_elem start rows row m : (row, m) ∈ entries start rows ↔
  ∃ i, rows !! i = Some row ∧ m = raw_of (parts_for db s row) row (info_of row) (start + Z.of_nat i + 1).
Proof.
  unfold entries. rewrite elem_of_lookup_imap. split.
  - intros (i & r & E & Hr). injection E as -> ->. by exists i.
  - intros (i & Hr & ->). by exists i, row.
Qed.

Lemma readable_cons e l : readable (e :: l) = if well_formed e then e.2 :: readable l else readable l.
Proof. unfold readable. rewrite filter_cons. by destruct (well_formed e). Qed.

(** ** Parts *)

Lemma group_get rows id :
  default [] (JsMap.get (group_parts rows) id) = parse_part <$> filter (fun p => pr_message_id p = id) rows.
Proof.
  unfold group_parts. change (parse_part <$> filter (fun p => pr_message_id p = id) rows) with
    (default [] (JsMap.get (@nil (string * list (value * option Z))) id) ++
     (parse_part <$> filter (fun p => pr_message_id p = id) rows)).
  generalize (@nil (string * list (value * option Z))). induction rows as [|p rows IH]; intros m; cbn [foldl].
  - by rewrite app_nil_r.
  - rewrite IH, filter_cons. case_decide as E.
    + rewrite <- E, get_set_eq. cbn [from_option Datatypes.id fmap list_fmap]. by rewrite <- app_assoc.
    + by rewrite get_set_ne.
Qed.

(** Groups that hold the parts of a list of rows. *)
Definition groups_for (groups : jsmap string (list (value * option Z))) (rows : list message_row) : Prop :=
  ∀ row, row ∈ rows → default [] (JsMap.get groups (mr_id row)) = parts_for db s row.

Lemma groups_all rows : groups_for (group_parts (ordered_parts db s)) rows.
Proof. intros row _. apply group_get. Qed.

Lemma parts_in_filter ids id : id ∈ ids →
  filter (fun p => pr_message_id p = id) (parts_in db s ids) =
  filter (fun p => pr_message_id p = id) (ordered_parts db s).
Proof.
  intros Hid. unfold parts_in. rewrite list_filter_filter. apply list_filter_iff. intros p. split; [tauto|]. by intros <-.
Qed.

Lemma groups_in rows : groups_for (group_parts (parts_in db s (mr_id <$> rows))) rows.
Proof.
  intros row Hrow. rewrite group_get, parts_in_filter; [done|]. apply list_elem_of_fmap. by exists row.
Qed.

Lemma parts_in_none ids id : id ∉ ids → filter (fun p => pr_message_id p = id) (parts_in db s ids) = [].
Proof. intros Hid. apply filter_none. intros p [Hp _]%list_elem_of_filter E. by rewrite E in Hp. Qed.

Lemma slices_in n : ∀ ids id, NoDup ids → (length ids ≤ n)%nat → 
  filter (fun p => pr_message_id p = id) (List.concat ((fun slice => parts_in db s slice) <$> slices n ids)) =
  if decide (id ∈ ids) then filter (fun p => pr_message_id p = id) (ordered_parts db s) else [].
Proof.
  induction n as [|n IH]; intros [|x ids] id Hnd Hlen; cbn [length] in Hlen; try lia; [done..|].
  cbn [slices fmap list_fmap List.concat]. rewrite filter_app.
  rewrite IH; [|by eapply sublist_NoDup, sublist_drop|rewrite length_drop; cbn; unfold PART_CHUNK; lia].
  pose proof Hnd as Hsplit. rewrite <- (take_drop PART_CHUNK (x :: ids)), NoDup_app in Hsplit.
  destruct Hsplit as (_ & Hdisj & _). assert (id ∈ x :: ids ↔ id ∈ take PART_CHUNK (x :: ids) ∨ id ∈ drop PART_CHUNK (x :: ids)) as Hin.
  { by rewrite <- elem_of_app, take_drop. }
  destruct (decide (id ∈ take PART_CHUNK (x :: ids))) as [Ht|Ht].
  - rewrite (decide_False (P := id ∈ drop _ _)) by by apply Hdisj. rewrite decide_True by tauto.
    by rewrite parts_in_filter, app_nil_r.
  - rewrite parts_in_none by done. apply decide_ext. tauto.
Qed.

Lemma groups_slices rows : NoDup (mr_id <$> rows) →
  groups_for (group_parts (List.concat ((fun slice => parts_in db s slice) <$> slices (length (mr_id <$> rows)) (mr_id <$> rows)))) rows.
Proof.
  intros Hnd row Hrow. rewrite group_get, slices_in; [|done..].
  rewrite decide_True; [done|]. apply list_elem_of_fmap. by exists row.
Qed.

(** ** Numbering *)

Lemma number_rows_entries groups rows : ∀ index, groups_for groups rows →
  number_rows groups index rows = readable (entries index rows).
Proof.
  induction rows as [|row rows IH]; intros index Hg; [done|]. cbn [number_rows].
  rewrite entries_cons, readable_cons, IH by (intros r Hr; apply Hg; by right).
  unfold well_formed. cbn [fst snd]. destruct (info_of row); [|done]. unfold to_raw. by rewrite Hg by left.
Qed.

Lemma number_tail_entries groups rows : ∀ ord, groups_for groups rows →
  number_tail groups ord rows = (readable (entries (ord - 1) rows), ord + lengthZ rows).
Proof.
  induction rows as [|row rows IH]; intros ord Hg; [cbn; by rewrite Z.add_0_r|]. cbn [number_tail].
  rewrite IH by (intros r Hr; apply Hg; by right).
  rewrite entries_cons, readable_cons, lengthZ_cons.
  replace (ord + 1 - 1) with ord by lia. replace (ord - 1 + 1) with ord by lia.
  replace (ord + 1 + lengthZ rows) with (ord + (1 + lengthZ rows)) by lia.
  unfold well_formed. cbn [fst snd]. destruct (info_of row); [|done]. unfold to_raw. by rewrite Hg by left.
Qed.

Lemma page_entries groups rows : ∀ after, groups_for groups rows →
  imap (fun index row => to_raw groups row (info_of row) (after + Z.of_nat index + 1)) rows = (entries after rows).*2.
Proof.
  intros after Hg. unfold entries. rewrite fmap_imap. apply imap_ext. intros i row Hi. cbn. unfold to_raw.
  by rewrite Hg by by eapply list_elem_of_lookup_2.
Qed.

Lemma number_views_entries rows : ∀ ord views,
  Forall2 shows views (entries (ord - 1) rows) →
  number_views ord views = (rw_message <$> readable (entries (ord - 1) rows), ord + lengthZ rows).
Proof.
  induction rows as [|row rows IH]; intros ord views Hv.
  - apply Forall2_nil_inv_r in Hv as ->. cbn. by rewrite Z.add_0_r.
  - rewrite entries_cons in *. apply Forall2_cons_inv_r in Hv as (v & views' & Hs & Hv & ->).
    replace (ord - 1 + 1) with (ord + 1 - 1) in Hv by lia. cbn [number_views]. rewrite (IH _ _ Hv).
    rewrite readable_cons, lengthZ_cons.
    replace (ord - 1 + 1) with (ord + 1 - 1) by lia.
    replace (ord + 1 + lengthZ rows) with (ord + (1 + lengthZ rows)) by lia.
    unfold shows in Hs. destruct (well_formed _).
    + destruct Hs as (Hid & Hne & Hrole & Hparts). cbn [fst snd rw_message raw_of rm_role rm_parts] in *.
      rewrite (proj2 (String.eqb_neq _ _) Hne). cbn [fmap list_fmap rw_message raw_of].
      do 2 f_equal. rewrite Hid, Hrole, Hparts. f_equal. lia.
    + by rewrite Hs.
Qed.

End entries.

(** ** The readers *)

Section session.
Context (db : opencode_db) (s : string) (Hkeyed : keyed db) (Hagree : summaries_agree db).

Lemma slots_keyed rows : rows `sublist_of` slots db s → NoDup (mr_id <$> rows).
Proof.
  intros Hsub. eapply sublist_NoDup; [|apply fmap_sublist; exact Hsub].
  eapply sublist_NoDup; [|apply fmap_sublist, sublist_filter]. unfold ordered_messages. rewrite js_sort_perm.
  eapply sublist_NoDup; [exact Hkeyed|]. apply fmap_sublist, sublist_filter.
Qed.

Lemma in_slots r : r ∈ slots db s ↔ r ∈ oc_messages db ∧ mr_session r = s ∧ is_summary r = false.
Proof. unfold slots. rewrite list_elem_of_filter, in_ordered. tauto. Qed.

Lemma counted_slots : counted_messages db s = slots db s.
Proof.
  unfold counted_messages, slots. assert (∀ r, r ∈ ordered_messages db s → sql_summary r = is_summary r) as Hall.
  { intros r [Hr _]%in_ordered. by apply Hagree. }
  induction (ordered_messages db s) as [|r l IH]; [done|]. rewrite !filter_cons, (Hall r) by left.
  rewrite IH by (intros x Hx; apply Hall; by right). done.
Qed.

Lemma reference_elem row m : (row, m) ∈ reference db s →
  ∃ i, slots db s !! i = Some row ∧ m = raw_of (parts_for db s row) row (info_of row) (Z.of_nat i + 1).
Proof. rewrite reference_entries. intros (i & Hi & ->)%entries_elem. by exists i. Qed.

Lemma full_read : readRawSessionMessagesFromDb db s = readable (reference db s).
Proof. apply number_rows_entries, groups_all. Qed.

Lemma page_read after limit finalWatermark : 0 ≤ after →
  readRawSessionMessagePageFromDb db s after limit finalWatermark =
  (take (Z.to_nat (Z.min (Z.max 1 limit) (Z.max 0 (default MAX_SAFE_INTEGER finalWatermark - after))))
     (drop (Z.to_nat after) (reference db s))).*2.
Proof.
  intros Hafter. unfold readRawSessionMessagePageFromDb. rewrite counted_slots.
  set (size := Z.min _ _). rewrite reference_entries, entries_drop, entries_take.
  destruct (Z.eqb_spec size 0) as [->|]; [done|].
  rewrite (page_entries db s) by apply groups_in. f_equal. rewrite !Z.max_r by lia. f_equal. lia.
Qed.

Lemma ordinal_by_id row m : (row, m) ∈ reference db s →
  readRawSessionMessageOrdinalByIdFromDb db s (mr_id row) = Some (rw_ordinal m).
Proof.
  intros (i & Hi & ->)%reference_elem. unfold readRawSessionMessageOrdinalByIdFromDb. rewrite counted_slots.
  assert (row ∈ slots db s) as Hin by by eapply list_elem_of_lookup_2.
  assert (filter (fun r => mr_id r = mr_id row) (slots db s) = [row]) as ->.
  { assert (Hnd := slots_keyed _ (reflexivity _)). revert Hin Hnd. clear. induction (slots db s) as [|a l IH]; intros Hin Hnd.
    { by apply not_elem_of_nil in Hin. }
    apply NoDup_cons in Hnd as [Hn Hnd]. rewrite filter_cons. apply elem_of_cons in Hin as [->|Hin].
    - rewrite decide_True by done. f_equal. apply filter_none. intros x Hx E. destruct Hn. rewrite <- E.
      apply list_elem_of_fmap. by exists x.
    - rewrite decide_False; [by apply IH|]. intros E. destruct Hn. rewrite E. apply list_elem_of_fmap. by exists row. }
  cbn [sumZ foldr]. rewrite (prefix_upto _ i) by (done || by apply slots_strict).
  apply lookup_lt_Some in Hi. unfold sumZ. cbn. unfold lengthZ. rewrite length_take, Nat.min_l by lia.
  replace (Z.of_nat (S i) + 0) with (Z.of_nat i + 1) by lia. by rewrite (proj2 (Z.ltb_lt _ _)) by lia.
Qed.

Lemma ordinal_by_id_none messageId : messageId ∉ mr_id <$> slots db s →
  readRawSessionMessageOrdinalByIdFromDb db s messageId = None.
Proof.
  intros Hn. unfold readRawSessionMessageOrdinalByIdFromDb. rewrite counted_slots.
  rewrite filter_none; [done|]. intros r Hr E. destruct Hn. rewrite <- E. apply list_elem_of_fmap. by exists r.
Qed.

(** *** The map of ordinals *)

Definition ordinal_step (st : jsmap string Z * Z) (row : message_row) : jsmap string Z * Z :=
  match info_of row with
  | Some _ => (JsMap.set st.1 (mr_id row) (st.2 + 1), st.2 + 1)
  | None => (st.1, st.2 + 1)
  end.

Lemma id_ordinals_fold : readRawSessionMessageIdOrdinalsFromDb db s = (foldl ordinal_step ([], 0) (slots db s)).1.
Proof.
  unfold readRawSessionMessageIdOrdinalsFromDb, slots. f_equal. generalize (@nil (string * Z), 0).
  induction (ordered_messages db s) as [|r l IH]; intros st; [done|]. cbn [foldl]. rewrite filter_cons.
  destruct st as [m o]. destruct (is_summary r); cbn [foldl]; [apply IH|].
  by rewrite IH.
Qed.

Lemma ordinal_fold_other rows : ∀ st id, id ∉ mr_id <$> rows →
  JsMap.get (foldl ordinal_step st rows).1 id = JsMap.get st.1 id.
Proof.
  induction rows as [|r rows IH]; intros st id Hn; [done|]. cbn [foldl]. apply not_elem_of_cons in Hn as [Hne Hn].
  rewrite IH by done. unfold ordinal_step. destruct (info_of r); [|done]. cbn. by rewrite get_set_ne.
Qed.

Lemma ordinal_fold_entry rows : ∀ st row m, NoDup (mr_id <$> rows) → JsMap.get st.1 (mr_id row) = None →
  (row, m) ∈ entries db s st.2 rows →
  JsMap.get (foldl ordinal_step st rows).1 (mr_id row) = if well_formed (row, m) then Some (rw_ordinal m) else None.
Proof.
  induction rows as [|r rows IH]; intros st row m Hnd Hst Hin; [by apply not_elem_of_nil in Hin|].
  apply NoDup_cons in Hnd as [Hn Hnd]. rewrite entries_cons in Hin. cbn [foldl].
  apply elem_of_cons in Hin as [E|Hin].
  - injection E as -> ->. rewrite ordinal_fold_other by done. unfold ordinal_step, well_formed. cbn [fst snd].
    destruct (info_of r); [|done]. cbn. by rewrite get_set_eq.
  - assert (mr_id row ≠ mr_id r) as Hne.
    { intros E. destruct Hn. rewrite <- E. apply entries_elem in Hin as (i & Hi & _).
      apply list_elem_of_fmap. exists row. split; [done|]. by eapply list_elem_of_lookup_2. }
    apply IH; [done|..].
    + unfold ordinal_step. destruct (info_of r); [|done]. cbn. by rewrite get_set_ne.
    + unfold ordinal_step. by destruct (info_of r).
Qed.

Lemma id_ordinals row m : (row, m) ∈ reference db s →
  JsMap.get (readRawSessionMessageIdOrdinalsFromDb db s) (mr_id row) =
  if well_formed (row, m) then Some (rw_ordinal m) else None.
Proof.
  intros Hin. rewrite id_ordinals_fold. apply ordinal_fold_entry; [|done|done]. by apply slots_keyed.
Qed.

(** *** Single messages *)

Lemma find_row row : row ∈ slots db s → find_message db s (mr_id row) = Some row.
Proof.
  intros (Hrow & Hs & _)%in_slots. unfold find_message.
  destruct (filter _ (oc_messages db)) as [|r l] eqn:E.
  - assert (row ∈ filter (fun r => mr_session r = s ∧ mr_id r = mr_id row) (oc_messages db)) as Hin
      by by apply list_elem_of_filter.
    rewrite E in Hin. by apply not_elem_of_nil in Hin.
  - assert (r ∈ filter (fun r => mr_session r = s ∧ mr_id r = mr_id row) (oc_messages db)) as Hin by (rewrite E; left).
    apply list_elem_of_filter in Hin as [[_ Eid] Hr]. cbn [head]. f_equal. by eapply keyed_inj.
Qed.

Lemma message_by_id row m : (∀ r, r ∈ ordered_messages db s → json_valid (mr_data r) = true) →
  (row, m) ∈ reference db s →
  readRawSessionMessageByIdFromDb db s (mr_id row) = Ok (if well_formed (row, m) then Some m else None).
Proof.
  intros Hvalid (i & Hi & ->)%reference_elem.
  assert (row ∈ slots db s) as Hin by by eapply list_elem_of_lookup_2.
  unfold readRawSessionMessageByIdFromDb. rewrite (find_row row Hin). unfold well_formed. cbn [fst].
  pose proof (proj1 (in_slots row) Hin) as (_ & _ & Hsum). unfold is_summary in Hsum.
  destruct (info_of row) as [info|] eqn:Einfo; [|done]. rewrite Hsum.
  unfold count_unguarded. set (evaluated := if json_first then _ else _).
  assert (forallb (fun r => json_valid (mr_data r)) evaluated = true) as ->.
  { apply forallb_forall. intros r Hr%list_elem_of_In. apply Hvalid.
    unfold evaluated in Hr. destruct json_first; [done|]. by apply list_elem_of_filter in Hr as [_ ?]. }
  assert (filter (fun r => not_after row r && negb (sql_summary r) = true) (ordered_messages db s) =
          take (S i) (slots db s)) as ->.
  { rewrite <- (prefix_upto _ i row (slots_strict db s Hkeyed) Hi), <- counted_slots.
    unfold counted_messages. rewrite list_filter_filter. apply list_filter_iff. intros r.
    rewrite andb_true_iff, negb_true_iff. tauto. }
  apply lookup_lt_Some in Hi. unfold lengthZ. rewrite length_take, Nat.min_l by lia.
  change (mret ?x) with (@Ok string Z x). cbn [mbind result_bind].
  replace (Z.of_nat (S i)) with (Z.of_nat i + 1) by lia. by rewrite (proj2 (Z.leb_gt _ _)) by lia.
Qed.

End session.

(** ** Tails *)

Lemma readable_none db s start rows n : (length rows ≤ n)%nat → readable (entries db s (start + Z.of_nat n) (drop n rows)) = [].
Proof. intros Hn. by rewrite drop_ge. Qed.

Lemma readable_from db s n : ∀ start rows,
  filter (fun x => start + Z.of_nat n + 1 ≤ rw_ordinal x) (readable (entries db s start rows)) =
  readable (entries db s (start + Z.of_nat n) (drop n rows)).
Proof.
  assert (∀ start' bound rows, bound ≤ start' + 1 →
    filter (fun x => bound ≤ rw_ordinal x) (readable (entries db s start' rows)) = readable (entries db s start' rows)) as Hall.
  { intros start' bound rows. revert start'. induction rows as [|r rows IH]; intros start' Hb; [done|].
    rewrite entries_cons, readable_cons. destruct (well_formed _); [|apply IH; lia].
    rewrite filter_cons, decide_True by (cbn; lia). f_equal. apply IH. lia. }
  induction n as [|n IH]; intros start rows.
  - rewrite Z.add_0_r. cbn [drop]. apply Hall. lia.
  - destruct rows as [|r rows]; [done|]. cbn [drop]. rewrite entries_cons, readable_cons.
    replace (start + Z.of_nat (S n)) with (start + 1 + Z.of_nat n) by lia. rewrite <- IH.
    destruct (well_formed _); [|done]. rewrite filter_cons, decide_False; [done|]. cbn. lia.
Qed.

Lemma tail_rows db s i row : keyed db → slots db s !! i = Some row →
  filter (fun r => is_summary r = false) (filter (fun r => at_or_after row r = true) (ordered_messages db s)) =
  drop i (slots db s).
Proof.
  intros Hk Hi. rewrite <- (suffix_from (slots db s) i row (slots_strict db s Hk) Hi). unfold slots.
  rewrite !list_filter_filter. apply list_filter_iff. tauto.
Qed.

Lemma tail_read db s row m : keyed db → (row, m) ∈ reference db s →
  readRawSessionTailFromDb db s (rw_ordinal m) (mr_id row) =
  Some {| rt_messages := readable (drop (Z.to_nat (rw_ordinal m - 1)) (reference db s));
          rt_absoluteMessageCount := lengthZ (reference db s) |}.
Proof.
  intros Hk (i & Hi & ->)%reference_elem. assert (row ∈ slots db s) as Hin by by eapply list_elem_of_lookup_2.
  unfold readRawSessionTailFromDb. rewrite (find_row db s Hk row Hin). cbn [mbind option_bind].
  pose proof (proj1 (in_slots db s row) Hin) as (_ & _ & ->). rewrite (tail_rows db s i row Hk Hi).
  rewrite (number_tail_entries db s) by (apply groups_slices, (slots_keyed db s Hk), sublist_drop).
  cbn [rw_message raw_of rm_ordinal]. rewrite Z.add_simpl_r, Nat2Z.id. f_equal.
  rewrite reference_entries, entries_drop. f_equal.
  apply lookup_lt_Some in Hi. unfold lengthZ. rewrite length_drop, entries_length. lia.
Qed.

Lemma memory_read db s row m views before shown : (row, m) ∈ reference db s → well_formed (row, m) = true →
  filter (fun v => view_summary v = false) views = before ++ shown →
  Forall (fun v => iv_id v ≠ mr_id row) before →
  Forall2 shows shown (drop (Z.to_nat (rw_ordinal m - 1)) (reference db s)) →
  buildInMemoryTailRawMessages views (rw_ordinal m) (Some (mr_id row)) =
  Some {| it_messages := rw_message <$> readable (drop (Z.to_nat (rw_ordinal m - 1)) (reference db s));
          it_absoluteMessageCount := lengthZ (reference db s); it_anchorFound := true |}.
Proof.
  intros (i & Hi & ->)%reference_elem Hwf Hviews Hbefore.
  cbn [rw_message raw_of rm_ordinal]. rewrite Z.add_simpl_r, Nat2Z.id, reference_entries, entries_drop. intros Hshown.
  unfold buildInMemoryTailRawMessages. rewrite Hviews.
  rewrite (drop_S _ _ _ Hi), entries_cons in Hshown. apply Forall2_cons_inv_r in Hshown as (v & shown' & Hv & Hshown & ->).
  pose proof Hv as Hv'. unfold shows in Hv'. unfold well_formed in Hv', Hwf. cbn [fst] in Hv', Hwf. rewrite Hwf in Hv'.
  destruct Hv' as (Hid & Hne & _). rewrite Hid in Hne. rewrite (proj2 (String.eqb_neq _ _) Hne).
  assert (list_find (fun v => iv_id v = mr_id row) (before ++ v :: shown') = Some (length before, v)) as ->.
  { apply list_find_app_Some. right. split; [done|]. split.
    - apply list_find_None. exact Hbefore.
    - cbn. rewrite decide_True by done. by rewrite Nat.sub_diag. }
  destruct (before ++ v :: shown') as [|v0 l] eqn:E; [by destruct before|]. rewrite <- E. clear E.
  cbn [fmap option_fmap option_map fst]. rewrite drop_app_length.
  rewrite (number_views_entries db s (drop i (slots db s))).
  - replace (Z.of_nat i + 1 - 1) with (0 + Z.of_nat i) by lia. do 2 f_equal.
    apply lookup_lt_Some in Hi. unfold lengthZ. rewrite length_drop, entries_length. lia.
  - rewrite (drop_S _ _ _ Hi), entries_cons. replace (Z.of_nat i + 1 - 1) with (0 + Z.of_nat i) by lia. by constructor.
Qed.

End spec.

(** ** Properties *)

(** C17: All readers of a session put the same message at the same ordinal, over a table
    with distinct ids whose rows never have the number 1 as [summary], the readers in
    SQL recognising a summary by what SQLite documents of [json_valid] and [json_extract].
    Reading everything gives the messages of the rows that are no summary and whose data
    is an object, numbered with the gaps of the rows whose data is none; a page is the
    stretch of rows asked for, these rows included; the count is the number of rows that
    take an ordinal; the ordinal of an id and the map of ordinals agree with that
    numbering, and so does the message read by its id when every row of the session is
    valid JSON (on another row that reader may raise). *)
Theorem readers_agree `{JsonEngine} `{SqliteJson} db s :
  keyed db → (∀ row, row ∈ oc_messages db → sqlite_reads (mr_data row)) → summaries_not_one db →
  readRawSessionMessagesFromDb db s = readable (reference db s) ∧
  countRawSessionMessageOrdinalsFromDb db s = lengthZ (reference db s) ∧
  (∀ after limit finalWatermark, 0 ≤ after →
     readRawSessionMessagePageFromDb db s after limit finalWatermark =
     (take (Z.to_nat (Z.min (Z.max 1 limit) (Z.max 0 (default MAX_SAFE_INTEGER finalWatermark - after))))
        (drop (Z.to_nat after) (reference db s))).*2) ∧
  (∀ row m, (row, m) ∈ reference db s →
     readRawSessionMessageOrdinalByIdFromDb db s (mr_id row) = Some (rw_ordinal m) ∧
     JsMap.get (readRawSessionMessageIdOrdinalsFromDb db s) (mr_id row) =
       (if well_formed (row, m) then Some (rw_ordinal m) else None) ∧
     ((∀ r, r ∈ ordered_messages db s → json_valid (mr_data r) = true) →
      readRawSessionMessageByIdFromDb db s (mr_id row) = Ok (if well_formed (row, m) then Some m else None))) ∧
  (∀ messageId, messageId ∉ mr_id <$> slots db s → readRawSessionMessageOrdinalByIdFromDb db s messageId = None).
Proof.
  intros Hk Hreads Hone. pose proof (summaries_recognised db Hreads Hone) as Ha. split_and!.
  - apply full_read.
  - unfold countRawSessionMessageOrdinalsFromDb. rewrite (counted_slots db s Ha), reference_entries.
    unfold lengthZ. by rewrite entries_length.
  - intros. by apply page_read.
  - intros row m Hin. split_and!; [by apply ordinal_by_id|by apply id_ordinals|]. intros Hv. by apply message_by_id.
  - intros. by apply ordinal_by_id_none.
Qed.

(** C18: Reading a tail is reading everything and keeping its end.  From an anchor message at
    its ordinal, the database gives the messages at that ordinal and later, under their
    ordinals in the whole session, and the number of all rows that take an ordinal; the
    messages of the transform, when they show the rows from the anchor on, give the same
    messages and the same number, whatever precedes the anchor. *)
Theorem tails_agree `{JsonEngine} `{SqliteJson} db s row m :
  keyed db → (row, m) ∈ reference db s →
  let tail := filter (fun x => rw_ordinal m ≤ rw_ordinal x) (readRawSessionMessagesFromDb db s) in
  readRawSessionTailFromDb db s (rw_ordinal m) (mr_id row) =
    Some {| rt_messages := tail; rt_absoluteMessageCount := lengthZ (reference db s) |} ∧
  (∀ views before shown, well_formed (row, m) = true →
     filter (fun v => view_summary v = false) views = before ++ shown →
     Forall (fun v => iv_id v ≠ mr_id row) before →
     Forall2 shows shown (drop (Z.to_nat (rw_ordinal m - 1)) (reference db s)) →
     buildInMemoryTailRawMessages views (rw_ordinal m) (Some (mr_id row)) =
       Some {| it_messages := rw_message <$> tail; it_absoluteMessageCount := lengthZ (reference db s);
               it_anchorFound := true |}).
Proof.
  intros Hk Hin tail.
  assert (tail = readable (drop (Z.to_nat (rw_ordinal m - 1)) (reference db s))) as ->.
  { unfold tail. rewrite full_read. apply reference_elem in Hin as (i & _ & ->). cbn [rw_message raw_of rm_ordinal].
    rewrite Z.add_simpl_r, Nat2Z.id, reference_entries, entries_drop. apply (readable_from db s i 0). }
  split; [by apply tail_read|]. intros. by eapply memory_read.
Qed.

(** ** Witnesses *)

(** SQLite's functions over the parser of JsJson. *)
Definition parsed_sqlite `{JsonEngine} : SqliteJson :=
  {| json_valid text := match json_parse text with Some _ => true | None => false end;
     json_at text path :=
       match json_parse text with
       | Some v =>
           match member v (if String.eqb path "$.summary" then "summary" else "finish")%string with
           | VBool b => SqlNum (nofZ (if b then 1 else 0))
           | VNum n => SqlNum n
           | VStr t => SqlText t
           | VNull | VUndefined => SqlNull
           | v => SqlText (JsJson.text v)
           end
       | None => SqlNull
       end;
     json_first := true |}.

#[local] Existing Instance integer_engine.
#[local] Existing Instance parsed_sqlite.

Definition session_row (id : string) (time : Z) (data : string) : message_row :=
  {| mr_id := id; mr_session := "s"; mr_data := data; mr_time_created := time; mr_time_updated := None |}.

(** A user message, a summary, a row that is no JSON, and an answer stored before it. *)
Definition sample_session_db : opencode_db :=
  {| oc_messages :=
       [session_row "u1" 1 (text (VObj [("role", VStr "user")]));
        session_row "c1" 2 (text (VObj [("role", VStr "assistant"); ("summary", VBool true); ("finish", VStr "stop")]));
        session_row "a1" 4 (text (VObj [("role", VStr "assistant")]));
        session_row "x1" 3 "oops"]%string;
     oc_parts :=
       [{| pr_id := "p1"; pr_session := "s"; pr_message_id := "a1"; pr_data := text (VStr "hello");
           pr_time_created := 4; pr_time_updated := None |}]%string |}.

Definition sample_anchor : message_row * raw_message :=
  default (session_row "" 0 "", raw_of [] (session_row "" 0 "") None 0) (reference sample_session_db "s" !! 0%nat).

Definition sample_view (id role : string) (parts : list value) : InMemoryMessageView :=
  {| iv_id := id; iv_role := role; iv_parts := parts; iv_summary := None; iv_finish := None |}.

(** The malformed row raises in the readers without the guard. *)
Example malformed_row_raises :
  getRawSessionMessageCountFromDb sample_session_db "s" = Err malformed_json ∧
  readRawSessionMessageByIdFromDb sample_session_db "s" "u1" = Err malformed_json ∧
  countRawSessionMessageOrdinalsFromDb sample_session_db "s" = 3.
Proof. split; [|split]; vm_compute; reflexivity. Qed.

(** A page holds the malformed row, the map of ordinals does not. *)
Example malformed_row_in_page :
  (fun m => (rw_id m, rw_ordinal m)) <$> readRawSessionMessagePageFromDb sample_session_db "s" 0 10 None =
    [("u1", 1); ("x1", 2); ("a1", 3)]%string ∧
  readRawSessionMessageIdOrdinalsFromDb sample_session_db "s" = [("u1", 1); ("a1", 3)]%string.
Proof. split; vm_compute; reflexivity. Qed.

Lemma sample_session_keyed : keyed sample_session_db.
Proof. unfold keyed. apply (bool_decide_unpack _). vm_compute. exact I. Qed.

Lemma sample_session_agrees : summaries_agree sample_session_db.
Proof. intros row Hrow. cbn in Hrow. repeat (apply elem_of_cons in Hrow as [->|Hrow]; [by vm_compute|]). by apply not_elem_of_nil in Hrow. Qed.

Lemma parsed_sqlite_reads data : sqlite_reads data.
Proof.
  unfold sqlite_reads. cbn [json_valid json_at parsed_sqlite]. destruct (json_parse data) as [v|]; [|done]. split; [done|].
  cbn [String.eqb Ascii.eqb Bool.eqb].
  split; (destruct (member v _) as [| |b|n|t|l|l]; cbn [reads_member]; try done;
    eexists; (split; [done|]); unfold text; cbn [json_stringify from_option id]; by destruct (join _ _)).
Qed.

Lemma sample_session_not_one : summaries_not_one sample_session_db.
Proof.
  intros row v n Hrow. cbn in Hrow. repeat (apply elem_of_cons in Hrow as [->|Hrow]; [by intros Hp Hm; vm_compute in Hp; simplify_eq; vm_compute in Hm|]).
  by apply not_elem_of_nil in Hrow.
Qed.

(** With the number 1 the SQL readers see a summary and the others a message. *)
Example numeric_summary_disagrees :
  let row := session_row "n1" 1 (text (VObj [("summary", VNum (nofZ 1)); ("finish", VStr "stop")])) in
  sql_summary row = true ∧ is_summary row = false.
Proof. vm_compute. by split. Qed.

Lemma readers_agree_witness :
  keyed sample_session_db ∧ summaries_not_one sample_session_db ∧
  countRawSessionMessageOrdinalsFromDb sample_session_db "s" = lengthZ (reference sample_session_db "s").
Proof.
  split_and!; [apply sample_session_keyed|apply sample_session_not_one|].
  apply (readers_agree sample_session_db "s" sample_session_keyed (fun row _ => parsed_sqlite_reads (mr_data row)) sample_session_not_one).
Defined.

Lemma tails_agree_witness :
  keyed sample_session_db ∧ sample_anchor ∈ reference sample_session_db "s" ∧
  buildInMemoryTailRawMessages [sample_view "u1" "user" []; sample_view "" "" []; sample_view "a1" "assistant" [VStr "hello"]]
    1 (Some "u1"%string) =
  Some {| it_messages := rw_message <$> filter (fun x => 1 ≤ rw_ordinal x) (readRawSessionMessagesFromDb sample_session_db "s");
          it_absoluteMessageCount := 3; it_anchorFound := true |}.
Proof.
  assert (sample_anchor ∈ reference sample_session_db "s") as Hin.
  { apply list_elem_of_lookup. exists 0%nat. vm_compute. reflexivity. }
  split_and!; [apply sample_session_keyed|exact Hin|].
  apply (tails_agree sample_session_db "s" sample_anchor.1 sample_anchor.2 sample_session_keyed Hin)
    with (before := []) (shown := [sample_view "u1" "user" []; sample_view "" "" []; sample_view "a1" "assistant" [VStr "hello"]]).
  - vm_compute. reflexivity.
  - vm_compute. reflexivity.
  - constructor.
  - match goal with |- Forall2 _ _ ?l => let l' := eval vm_compute in l in replace l with l' by (vm_compute; reflexivity) end.
    repeat (apply Forall2_cons; split; [vm_compute; by split_and?|]). constructor.
Defined.
