(* ===== verification/MessageIndex.v ===== *)
(** * The message index

    Models packages/plugin/src/features/magic-context/message-index.ts and the jobs of
    message-index-async.ts: the full-text rows of the messages of a session, the source
    records that tell whether they are current, and the progress row with its watermark
    and its dirty floor.  Every statement outside a transaction and every transaction is an
    access that may fail ([Access]).  The index answers for every ordinal up to the
    watermark but the dirty one, whatever fails ([index_covers]); reconciliation ends and
    leaves exactly the rows of the session ([reconciliation_completes]). *)

From stdpp Require Import pretty.
From S2P Require Import Prelude JsNumber JsMap JsValue JsString JsJson TokenEstimate SessionText SessionChunk RawSession Access.

(** ** Tables *)

(** A row of message_history_fts; nothing keeps rows from repeating. *)
Record fts_row := {
  fr_session : string; fr_ordinal : Z; fr_message_id : string; fr_role : string; fr_content : string
}.

#[export] Instance fts_row_eq_dec : EqDecision fts_row.
Proof. solve_decision. Defined.

(** message_history_source, keyed by session and message id. *)
Record MessageHistorySourceRow := {
  sr_message_ordinal : Z; sr_source_version : string; sr_normalized_content_hash : string; sr_role : string;
  sr_harness : string; sr_updated_at : Z
}.

(** message_history_index, keyed by session. *)
Record MessageHistoryIndexRow := {
  ir_last_indexed_ordinal : Z; ir_dirty_floor_ordinal : Z; ir_updated_at : Z; ir_harness : string
}.

Record MessageHistoryOrphanSweepRow := { os_cursor_session_id : string; os_last_swept_at : option Z }.

Record depth_row := { dr_session : string; dr_ordinal : Z; dr_depth : Z }.

Record index_db := {
  ix_fts : list fts_row;
  ix_source : gmap (string * string) MessageHistorySourceRow;
  ix_index : gmap string MessageHistoryIndexRow;
  ix_depth : list depth_row;
  ix_sweep : option MessageHistoryOrphanSweepRow
}.

Definition with_fts (f : list fts_row → list fts_row) (db : index_db) : index_db :=
  {| ix_fts := f (ix_fts db); ix_source := ix_source db; ix_index := ix_index db; ix_depth := ix_depth db; ix_sweep := ix_sweep db |}.

Definition with_source (f : gmap (string * string) MessageHistorySourceRow → gmap (string * string) MessageHistorySourceRow)
    (db : index_db) : index_db :=
  {| ix_fts := ix_fts db; ix_source := f (ix_source db); ix_index := ix_index db; ix_depth := ix_depth db; ix_sweep := ix_sweep db |}.

Definition with_index (f : gmap string MessageHistoryIndexRow → gmap string MessageHistoryIndexRow) (db : index_db) : index_db :=
  {| ix_fts := ix_fts db; ix_source := ix_source db; ix_index := f (ix_index db); ix_depth := ix_depth db; ix_sweep := ix_sweep db |}.

(** What the process remembers: the sessions and revisions known to be indexed, and how
    far its clock was read. *)
Record index_memory := {
  im_reconciledSessions : gset string;
  im_completedIncrementalKeys : gset (string * string * string);
  im_clock : nat → Z;
  im_reads : nat
}.

Abbreviation M := (Access.M string index_db index_memory).
Abbreviation world := (Access.world string index_db index_memory).

Section index.
Context `{JsonEngine} (sha256_hex : string → string) (harness : string).

Definition Date_now : M Z :=
  t ← gets (fun m => im_clock m (im_reads m));
  modify (fun m => {| im_reconciledSessions := im_reconciledSessions m;
                      im_completedIncrementalKeys := im_completedIncrementalKeys m;
                      im_clock := im_clock m; im_reads := S (im_reads m) |});;
  mret t.

(** ** The source of a row *)

Definition getIndexableContent (role : string) (parts : list value) : string :=
  let shown (clean : string → string) :=
    join " / " (filter (fun text => 0 < str_length text) ((fun text => normalizeText (clean text)) <$> extractTexts parts)) in
  if String.eqb role "user" then
    if hasMeaningfulUserText parts then shown cleanUserText else ""
  else if String.eqb role "assistant" then shown removeSystemReminders
  else "".

(** A version is a number, a string or null. *)
Definition normalizeSourceVersion (version : option (Z + string)) : string :=
  match version with
  | Some (inl n) => "number:" ++ str_of_Z n
  | Some (inr s) => "string:" ++ s
  | None => "null"
  end.

Record source_snapshot := {
  ss_ordinal : Z; ss_sourceVersion : string; ss_contentHash : string; ss_role : string; ss_content : string
}.

Definition getMessageSourceSnapshot (message : raw_message) : source_snapshot :=
  let m := rw_message message in
  let content := getIndexableContent (rm_role m) (rm_parts m) in
  {| ss_ordinal := rm_ordinal m; ss_sourceVersion := normalizeSourceVersion (inl <$> rw_version message);
     ss_contentHash := sha256_hex content; ss_role := rm_role m; ss_content := content |}.

Definition getMessageIndexSourceIdentity (message : raw_message) : string :=
  let source := getMessageSourceSnapshot message in
  default EmptyString (json_stringify (VArr [VNum (nofZ (ss_ordinal source)); VStr (ss_sourceVersion source);
                                             VStr (ss_contentHash source); VStr (ss_role source)])).

Definition isMessageIndexSourceCurrent (sessionId : string) (message : raw_message) (db : index_db) : bool :=
  let source := getMessageSourceSnapshot message in
  match ix_source db !! (sessionId, rw_id message) with
  | Some row =>
      (sr_message_ordinal row =? ss_ordinal source) && String.eqb (sr_source_version row) (ss_sourceVersion source) &&
      String.eqb (sr_normalized_content_hash row) (ss_contentHash source) && String.eqb (sr_role row) (ss_role source)
  | None => false
  end.

Definition setMessageSource (sessionId : string) (message : raw_message) (now : Z) (db : index_db) : string * index_db :=
  let source := getMessageSourceSnapshot message in
  (ss_content source,
   with_source (<[(sessionId, rw_id message) :=
     {| sr_message_ordinal := ss_ordinal source; sr_source_version := ss_sourceVersion source;
        sr_normalized_content_hash := ss_contentHash source; sr_role := ss_role source;
        sr_harness := harness; sr_updated_at := now |}]>) db).

(** ** Statements *)

Definition getLastIndexedOrdinal (sessionId : string) (db : index_db) : Z :=
  match ix_index db !! sessionId with Some row => ir_last_indexed_ordinal row | None => 0 end.

Definition getIndexedMessageCorpusSize (sessionId : string) (maxOrdinal : option Z) (db : index_db) : Z :=
  let watermark := getLastIndexedOrdinal sessionId db in
  match maxOrdinal with None => watermark | Some m => Z.min watermark (Z.max 0 m) end.

Definition getDirtyIndexFloor (sessionId : string) (db : index_db) : option Z :=
  match ix_index db !! sessionId with
  | Some row => if 0 <? ir_dirty_floor_ordinal row then Some (ir_dirty_floor_ordinal row) else None
  | None => None
  end.

(** INSERT INTO message_history_fts. *)
Definition insert_fts (sessionId : string) (message : raw_message) (content : string) (db : index_db) : index_db :=
  with_fts (fun rows => rows ++ [{| fr_session := sessionId; fr_ordinal := rw_ordinal message; fr_message_id := rw_id message;
                                    fr_role := rm_role (rw_message message); fr_content := content |}]) db.

Definition delete_fts (p : fts_row → bool) (db : index_db) : index_db := with_fts (filter (fun r => p r = false)) db.

Definition delete_source (p : string * string → MessageHistorySourceRow → bool) (db : index_db) : index_db :=
  with_source (filter (fun e => p e.1 e.2 = false)) db.

Definition of_message (sessionId messageId : string) (r : fts_row) : bool :=
  String.eqb (fr_session r) sessionId && String.eqb (fr_message_id r) messageId.

Definition between (low high n : Z) : bool := (low <=? n) && (n <=? high).

Definition countIndexedMessage (sessionId messageId : string) (db : index_db) : Z :=
  lengthZ (filter (fun r => of_message sessionId messageId r = true) (ix_fts db)).

Definition isMessageAlreadyIndexed (sessionId messageId : string) (db : index_db) : bool :=
  0 <? countIndexedMessage sessionId messageId db.

(** The upsert of the progress row. *)
Definition setIndexProgress (sessionId : string) (watermark : Z) (dirtyFloor : option Z) (now : Z) (db : index_db) : index_db :=
  with_index (fun index =>
    <[sessionId := {| ir_last_indexed_ordinal := Z.max 0 watermark; ir_dirty_floor_ordinal := default 0 dirtyFloor;
                      ir_updated_at := now;
                      ir_harness := match index !! sessionId with Some row => ir_harness row | None => harness end |}]> index) db.

(** The upsert of the dirty floor. *)
Definition upsertDirtyFloor (sessionId : string) (watermark floor now : Z) (db : index_db) : index_db :=
  with_index (fun index =>
    <[sessionId :=
        match index !! sessionId with
        | None => {| ir_last_indexed_ordinal := watermark; ir_dirty_floor_ordinal := floor; ir_updated_at := now;
                     ir_harness := harness |}
        | Some row =>
            {| ir_last_indexed_ordinal := Z.max (ir_last_indexed_ordinal row) watermark;
               ir_dirty_floor_ordinal :=
                 if ir_dirty_floor_ordinal row <=? 0 then floor
                 else if floor <=? 0 then ir_dirty_floor_ordinal row
                 else Z.min (ir_dirty_floor_ordinal row) floor;
               ir_updated_at := now; ir_harness := ir_harness row |}
        end]> index) db.

(** [clearIndexedMessages], one transaction. *)
Definition clear_index (sessionId : string) (db : index_db) : index_db :=
  {| ix_fts := filter (fun r => fr_session r ≠ sessionId) (ix_fts db);
     ix_source := filter (fun e => e.1.1 ≠ sessionId) (ix_source db);
     ix_index := base.delete sessionId (ix_index db);
     ix_depth := filter (fun r => dr_session r ≠ sessionId) (ix_depth db);
     ix_sweep := ix_sweep db |}.

Definition clearIndexedMessages (sessionId : string) : M unit := write (clear_index sessionId).

Definition deleteIndexedMessage (sessionId messageId : string) : M Z :=
  count ← query (countIndexedMessage sessionId messageId);
  clearIndexedMessages sessionId;;
  mret count.

Definition markMessageIndexDirty (sessionId : string) (floorOrdinal : Z) : M unit :=
  watermark ← query (getLastIndexedOrdinal sessionId);
  now ← Date_now;
  write (upsertDirtyFloor sessionId watermark (Z.max 1 floorOrdinal) now).

Definition getMessageIndexReconciliationStartOrdinal (sessionId : string) : M Z :=
  watermark ← query (getLastIndexedOrdinal sessionId);
  dirtyFloor ← query (getDirtyIndexFloor sessionId);
  mret (match dirtyFloor with None => watermark | Some floor => Z.min watermark (floor - 1) end).

Definition isMessageIndexReconciledThrough (sessionId : string) (finalWatermark : Z) : M bool :=
  dirtyFloor ← query (getDirtyIndexFloor sessionId);
  watermark ← query (getLastIndexedOrdinal sessionId);
  mret ((finalWatermark <=? watermark) && match dirtyFloor with None => true | Some _ => false end).

(** ** One message *)

Definition is_speaker (role : string) : bool := String.eqb role "user" || String.eqb role "assistant".

(** [db.prepare(INSERT)] when there is something to find. *)
Definition insert_if (wanted : bool) (sessionId : string) (message : raw_message) (content : string) (db : index_db)
    : index_db :=
  if wanted && (0 <? str_length content) && is_speaker (rm_role (rw_message message))
  then insert_fts sessionId message content db else db.

Definition settled_floor (dirtyFloorBeforeAttempt : option Z) (ordinal : Z) : option Z :=
  if bool_decide (dirtyFloorBeforeAttempt = Some ordinal) then None else dirtyFloorBeforeAttempt.

Definition indexSingleMessageInTransaction (sessionId : string) (message : raw_message) (now : Z)
    (dirtyFloorBeforeAttempt : option Z) (db : index_db) : bool * index_db :=
  let ordinal := rw_ordinal message in
  let currentWatermark := getLastIndexedOrdinal sessionId db in
  let dirtyFloor := getDirtyIndexFloor sessionId db in
  if ordinal <=? currentWatermark then
    if isMessageIndexSourceCurrent sessionId message db then (false, db)
    else
      let db := delete_fts (of_message sessionId (rw_id message)) db in
      let '(content, db) := setMessageSource sessionId message now db in
      let db := insert_if true sessionId message content db in
      (true, setIndexProgress sessionId currentWatermark (settled_floor dirtyFloorBeforeAttempt ordinal) now db)
  else if negb (ordinal =? currentWatermark + 1) ||
          match dirtyFloor with Some floor => negb (floor =? ordinal) | None => false end
  then (false, db)
  else
    let '(content, db) := setMessageSource sessionId message now db in
    let absent := negb (isMessageAlreadyIndexed sessionId (rw_id message) db) in
    let inserted := absent && (0 <? str_length content) && is_speaker (rm_role (rw_message message)) in
    let db := insert_if absent sessionId message content db in
    (inserted, setIndexProgress sessionId ordinal (settled_floor dirtyFloorBeforeAttempt ordinal) now db).

Definition indexSingleMessage (sessionId : string) (message : raw_message) : M bool :=
  currentWatermark ← query (getLastIndexedOrdinal sessionId);
  current ← if rw_ordinal message <=? currentWatermark
            then query (isMessageIndexSourceCurrent sessionId message) else mret false;
  if current : bool then mret false
  else
    dirtyFloorBeforeAttempt ← query (getDirtyIndexFloor sessionId);
    markMessageIndexDirty sessionId (Z.min (rw_ordinal message) (currentWatermark + 1));;
    now ← Date_now;
    access (fun db => Ok (indexSingleMessageInTransaction sessionId message now dirtyFloorBeforeAttempt db)).

(** ** A page of messages *)

(** [while (covered < final && messages.has(covered + 1)) covered += 1]. *)
Fixpoint cover (fuel : nat) (messagesByOrdinal : jsmap Z raw_message) (finalWatermark covered : Z) : Z :=
  match fuel with
  | O => covered
  | S fuel =>
      if (covered <? finalWatermark) && JsMap.has messagesByOrdinal (covered + 1)
      then cover fuel messagesByOrdinal finalWatermark (covered + 1) else covered
  end.

(** One ordinal of the page: the database and the number of rows inserted. *)
Definition index_ordinal (sessionId : string) (messagesByOrdinal : jsmap Z raw_message) (now : Z)
    (st : index_db * Z) (ordinal : Z) : index_db * Z :=
  match JsMap.get messagesByOrdinal ordinal with
  | None => st
  | Some message =>
      let '(content, db) := setMessageSource sessionId message now st.1 in
      if (str_length content =? 0) || negb (is_speaker (rm_role (rw_message message))) ||
         isMessageAlreadyIndexed sessionId (rw_id message) db
      then (db, st.2)
      else (insert_fts sessionId message content db, st.2 + 1)
  end.

(** The floor the range is rebuilt from, and the watermark the page starts at. *)
Definition page_start (sessionId : string) (db : index_db) : Z :=
  let currentWatermark := getLastIndexedOrdinal sessionId db in
  match getDirtyIndexFloor sessionId db with
  | None => currentWatermark
  | Some floor => Z.min currentWatermark (Z.max 0 (floor - 1))
  end.

Definition clear_range (sessionId : string) (finalWatermark : Z) (db : index_db) : index_db :=
  match getDirtyIndexFloor sessionId db with
  | Some floor =>
      if floor <=? finalWatermark then
        delete_source (fun k r => String.eqb k.1 sessionId && between floor finalWatermark (sr_message_ordinal r))
          (delete_fts (fun r => String.eqb (fr_session r) sessionId && between floor finalWatermark (fr_ordinal r)) db)
      else db
  | None => db
  end.

Definition by_ordinal (low high : Z) (messages : list raw_message) : jsmap Z raw_message :=
  foldl (fun m message => if (low <? rw_ordinal message) && (rw_ordinal message <=? high)
                          then JsMap.set m (rw_ordinal message) message else m) [] messages.

Definition next_floor (dirtyFloor : option Z) (covered finalWatermark : Z) : option Z :=
  let missingFloor := if covered <? finalWatermark then Some (covered + 1) else None in
  let preservedFloor := match dirtyFloor with
                        | Some floor => if finalWatermark <? floor then Some floor else None
                        | None => None
                        end in
  match missingFloor, preservedFloor with
  | None, _ => preservedFloor
  | Some m, None => Some m
  | Some m, Some p => Some (Z.min m p)
  end.

(** The body of the transaction of [indexMessagesAfterOrdinal]. *)
Definition index_page (sessionId : string) (messages : list raw_message) (finalWatermark now : Z) (db : index_db)
    : Z * index_db :=
  let dirtyFloor := getDirtyIndexFloor sessionId db in
  let effectiveWatermark := page_start sessionId db in
  let messagesByOrdinal := by_ordinal effectiveWatermark finalWatermark messages in
  let covered := cover (Z.to_nat (finalWatermark - effectiveWatermark)) messagesByOrdinal finalWatermark effectiveWatermark in
  let '(db, inserted) :=
    foldl (index_ordinal sessionId messagesByOrdinal now) (clear_range sessionId finalWatermark db, 0)
      (seqZ (effectiveWatermark + 1) (covered - effectiveWatermark)) in
  (inserted, setIndexProgress sessionId covered (next_floor dirtyFloor covered finalWatermark) now db).

Definition indexMessagesAfterOrdinal (sessionId : string) (messages : list raw_message) (finalWatermark : Z) : M Z :=
  now ← Date_now;
  access (fun db => Ok (index_page sessionId messages finalWatermark now db)).

Definition ensureMessagesIndexed (sessionId : string) (readMessages : M (list raw_message)) : M unit :=
  messages ← readMessages;
  match messages with
  | [] => clearIndexedMessages sessionId
  | _ =>
      last ← query (getLastIndexedOrdinal sessionId);
      last ← if lengthZ messages <? last then clearIndexedMessages sessionId;; mret 0 else mret last;
      covered ← if lengthZ messages <=? last then
                  dirtyFloor ← query (getDirtyIndexFloor sessionId);
                  mret (match dirtyFloor with None => true | Some _ => false end)
                else mret false;
      if covered : bool then mret ()
      else indexMessagesAfterOrdinal sessionId messages (lengthZ messages);; mret ()
  end.

(** ** The jobs *)

(** What reads the messages of the session: all of them, and a page and a count where the
    host has them. *)
Record ReadMessages := {
  rd_all : M (list raw_message);
  rd_page : option (Z → Z → Z → M (list raw_message));
  rd_count : option (M Z)
}.

Definition RECONCILIATION_BATCH_SIZE : Z := 100.

Definition set_reconciled (sessionId : string) (yes : bool) : M unit :=
  modify (fun m => {| im_reconciledSessions := if yes then {[sessionId]} ∪ im_reconciledSessions m
                                               else im_reconciledSessions m ∖ {[sessionId]};
                      im_completedIncrementalKeys := im_completedIncrementalKeys m;
                      im_clock := im_clock m; im_reads := im_reads m |}).

Definition isSessionReconciled (sessionId : string) : M bool :=
  gets (fun m => bool_decide (sessionId ∈ im_reconciledSessions m)).

Fixpoint reconcile_loop (fuel : nat) (sessionId : string) (source : ReadMessages) (snapshot : list raw_message)
    (finalWatermark cursor : Z) : M unit :=
  match fuel with
  | O => mret ()
  | S fuel =>
      if cursor <? finalWatermark then
        let pageEnd := Z.min finalWatermark (cursor + RECONCILIATION_BATCH_SIZE) in
        messages ← match rd_page source with
                   | Some readPage => readPage cursor RECONCILIATION_BATCH_SIZE finalWatermark
                   | None => mret (filter (fun m => cursor < rw_ordinal m ∧ rw_ordinal m ≤ pageEnd) snapshot)
                   end;
        indexMessagesAfterOrdinal sessionId messages pageEnd;;
        nextCursor ← getMessageIndexReconciliationStartOrdinal sessionId;
        if nextCursor <=? cursor then mret ()
        else reconcile_loop fuel sessionId source snapshot finalWatermark nextCursor
      else mret ()
  end.

Definition reconcileSessionIndex (sessionId : string) (source : ReadMessages) : M unit :=
  done ← isSessionReconciled sessionId;
  if done : bool then mret ()
  else
    '(finalWatermark, snapshot) ←
      match rd_count source with
      | Some getCount => n ← getCount; mret (n, [])
      | None => messages ← rd_all source; mret (lengthZ messages, messages)
      end;
    cursor ← getMessageIndexReconciliationStartOrdinal sessionId;
    reconcile_loop (Z.to_nat (finalWatermark - cursor)) sessionId source snapshot finalWatermark cursor;;
    through ← isMessageIndexReconciledThrough sessionId finalWatermark;
    if through : bool then set_reconciled sessionId true else mret ().

Definition complete_key (key : string * string * string) : M unit :=
  modify (fun m => {| im_reconciledSessions := im_reconciledSessions m;
                      im_completedIncrementalKeys := {[key]} ∪ im_completedIncrementalKeys m;
                      im_clock := im_clock m; im_reads := im_reads m |}).

Definition clearCompletedIncrementalKeys (sessionId : string) : M unit :=
  modify (fun m => {| im_reconciledSessions := im_reconciledSessions m;
                      im_completedIncrementalKeys := filter (fun k => k.1.1 ≠ sessionId) (im_completedIncrementalKeys m);
                      im_clock := im_clock m; im_reads := im_reads m |}).

(** The job of [scheduleIncrementalIndex], under the session's lock; an error ends it with
    the session no longer known to be reconciled. *)
Definition incremental_job (sessionId messageId : string) (source : M (option raw_message)) : M unit :=
  catch
    (message ← source;
     match message with
     | None => mret ()
     | Some message =>
         let revisionKey := (sessionId, messageId, getMessageIndexSourceIdentity message) in
         completed ← gets (fun m => bool_decide (revisionKey ∈ im_completedIncrementalKeys m));
         if completed : bool then mret ()
         else
           currentWatermark ← query (getLastIndexedOrdinal sessionId);
           current ← if rw_ordinal message <=? currentWatermark
                     then query (isMessageIndexSourceCurrent sessionId message) else mret false;
           if current : bool then complete_key revisionKey
           else
             wasReconciled ← isSessionReconciled sessionId;
             set_reconciled sessionId false;;
             indexSingleMessage sessionId message;;
             finalWatermark ← query (getLastIndexedOrdinal sessionId);
             through ← if wasReconciled : bool then isMessageIndexReconciledThrough sessionId finalWatermark else mret false;
             (if through : bool then set_reconciled sessionId true else mret ());;
             complete_key revisionKey
     end)
    (set_reconciled sessionId false).

(** The jobs of [scheduleClearAndReindex]. *)
Definition clear_and_reindex_job (sessionId : string) (source : ReadMessages) : M unit :=
  set_reconciled sessionId false;;
  clearCompletedIncrementalKeys sessionId;;
  catch
    (set_reconciled sessionId false;;
     clearCompletedIncrementalKeys sessionId;;
     clearIndexedMessages sessionId;;
     reconcileSessionIndex sessionId source)
    (set_reconciled sessionId false).

(** The job of [scheduleReconciliation]: errors are logged. *)
Definition reconciliation_job (sessionId : string) (source : ReadMessages) : M unit :=
  catch (reconcileSessionIndex sessionId source) (mret ()).

(** ** Sweeping the indexes of deleted sessions *)

Inductive sweep_status := swept | cooldown | source_unavailable.

Record MessageHistoryOrphanSweepResult := {
  sw_status : sweep_status; sw_scanned : Z; sw_deleted : Z; sw_cursor : string
}.

Record MessageHistoryOrphanSweepOptions := {
  so_batchSize : option Z; so_now : option Z; so_safetyAgeMs : option Z; so_cooldownMs : option Z;
  so_unavailableReprobeMs : option Z
}.

Definition MESSAGE_HISTORY_ORPHAN_SWEEP_BATCH_SIZE : Z := 200.
Definition MESSAGE_HISTORY_ORPHAN_SAFETY_AGE_MS : Z := 24 * 60 * 60 * 1000.
Definition MESSAGE_HISTORY_ORPHAN_SWEEP_COOLDOWN_MS : Z := 10 * 60 * 1000.
Definition MESSAGE_HISTORY_ORPHAN_UNAVAILABLE_REPROBE_MS : Z := 24 * 60 * 60 * 1000.

Definition persistMessageHistoryOrphanSweepState (cursor : string) (lastSweptAt : option Z) (db : index_db) : index_db :=
  {| ix_fts := ix_fts db; ix_source := ix_source db; ix_index := ix_index db; ix_depth := ix_depth db;
     ix_sweep := Some {| os_cursor_session_id := cursor; os_last_swept_at := lastSweptAt |} |}.

Definition sweepable (cutoff : Z) (row : MessageHistoryIndexRow) : bool :=
  String.eqb (ir_harness row) "opencode" && (ir_updated_at row <=? cutoff).

(** The sessions after the cursor, in the order of their ids, at most a batch. *)
Definition sweep_candidates (cutoff : Z) (cursor : string) (batchSize : Z) (db : index_db) : list string :=
  take (Z.to_nat batchSize)
    (js_sort str_cmp
       (filter (fun s => 0 < str_cmp s cursor)
          (filter (fun e => sweepable cutoff e.2 = true) (map_to_list (ix_index db))).*1)).

Definition sweep_session (cutoff : Z) (st : index_db * Z) (sessionId : string) : index_db * Z :=
  match ix_index st.1 !! sessionId with
  | Some row =>
      if sweepable cutoff row then
        (with_index (base.delete sessionId)
           (delete_source (fun k _ => String.eqb k.1 sessionId)
              (delete_fts (fun r => String.eqb (fr_session r) sessionId) st.1)), st.2 + 1)
      else st
  | None => st
  end.

Fixpoint missing_sessions (sessionExists : string → M bool) (candidates : list string) : M (list string) :=
  match candidates with
  | [] => mret []
  | s :: candidates =>
      exists_ ← sessionExists s;
      rest ← missing_sessions sessionExists candidates;
      mret (if exists_ : bool then rest else s :: rest)
  end.

(** [openCodeDb]: the test of a session's existence, when the host's database opens. *)
Definition sweepOrphanedOpenCodeMessageIndexes (openCodeDb : option (string → M bool))
    (options : MessageHistoryOrphanSweepOptions) : M MessageHistoryOrphanSweepResult :=
  now ← match so_now options with Some now => mret now | None => Date_now end;
  let batchSize := Z.max 1 (default MESSAGE_HISTORY_ORPHAN_SWEEP_BATCH_SIZE (so_batchSize options)) in
  let safetyAgeMs := Z.max 0 (default MESSAGE_HISTORY_ORPHAN_SAFETY_AGE_MS (so_safetyAgeMs options)) in
  let cooldownMs := Z.max 0 (default MESSAGE_HISTORY_ORPHAN_SWEEP_COOLDOWN_MS (so_cooldownMs options)) in
  let unavailableReprobeMs :=
    Z.max cooldownMs (default MESSAGE_HISTORY_ORPHAN_UNAVAILABLE_REPROBE_MS (so_unavailableReprobeMs options)) in
  state ← query ix_sweep;
  let cursor := match state with Some st => os_cursor_session_id st | None => EmptyString end in
  if match state ≫= os_last_swept_at with Some last => now <? last + cooldownMs | None => false end
  then mret {| sw_status := cooldown; sw_scanned := 0; sw_deleted := 0; sw_cursor := cursor |}
  else
    match openCodeDb with
    | None =>
        write (persistMessageHistoryOrphanSweepState cursor (Some (now + unavailableReprobeMs - cooldownMs)));;
        mret {| sw_status := source_unavailable; sw_scanned := 0; sw_deleted := 0; sw_cursor := cursor |}
    | Some sessionExists =>
        let cutoff := now - safetyAgeMs in
        candidates ← query (sweep_candidates cutoff cursor batchSize);
        missing ← missing_sessions sessionExists candidates;
        let complete := lengthZ candidates <? batchSize in
        let nextCursor := if complete then EmptyString else default cursor (last candidates) in
        deleted ← access (fun db =>
          let '(db, deleted) := foldl (sweep_session cutoff) (db, 0) missing in
          Ok (deleted, persistMessageHistoryOrphanSweepState nextCursor (if complete then Some now else None) db));
        mret {| sw_status := swept; sw_scanned := lengthZ candidates; sw_deleted := deleted; sw_cursor := nextCursor |}
    end.

End index.

(** ** Specification *)

Section spec.
Context `{JsonEngine} (sha256_hex : string → string) (harness : string) (s : string).

Abbreviation snapshot := (getMessageSourceSnapshot sha256_hex).
Abbreviation is_current := (isMessageIndexSourceCurrent sha256_hex s).
Abbreviation last_of := (getLastIndexedOrdinal s).
Abbreviation floor_of := (getDirtyIndexFloor s).

(** The row a message is found by, if it is. *)
Definition expected (m : raw_message) : list fts_row :=
  let content := ss_content (snapshot m) in
  if (0 <? str_length content) && is_speaker (rm_role (rw_message m))
  then [{| fr_session := s; fr_ordinal := rw_ordinal m; fr_message_id := rw_id m;
           fr_role := rm_role (rw_message m); fr_content := content |}]
  else [].

Definition rows_of (messageId : string) (db : index_db) : list fts_row :=
  filter (fun r => of_message s messageId r = true) (ix_fts db).

(** A session as its host has it: numbered from 1, an id for each message. *)
Record session_source (src : list raw_message) : Prop := {
  so_numbered : ∀ i m, src !! i = Some m → rw_ordinal m = Z.of_nat i + 1;
  so_ids : NoDup ((fun m => rw_id m) <$> src)
}.

Definition exact (m : raw_message) (db : index_db) : Prop :=
  rows_of (rw_id m) db = expected m ∧ is_current m db = true.

(** The index of a session against its source. *)
Record index_inv (src : list raw_message) (db : index_db) : Prop := {
  iv_bound : 0 ≤ last_of db ≤ lengthZ src;
  iv_floor : ∀ f, floor_of db = Some f → f ≤ lengthZ src;
  iv_rows : ∀ r, r ∈ ix_fts db → fr_session r = s →
              ∃ m, m ∈ src ∧ fr_message_id r = rw_id m ∧ fr_ordinal r = rw_ordinal m;
  iv_covered : ∀ m, m ∈ src → rw_ordinal m ≤ last_of db → exact m db ∨ floor_of db = Some (rw_ordinal m);
  iv_ahead : ∀ m, m ∈ src → last_of db < rw_ordinal m →
               rows_of (rw_id m) db = [] ∨ rows_of (rw_id m) db = expected m
}.

(** ** Sources *)

Section source.
Context (src : list raw_message) (Hsrc : session_source src).

Lemma source_ordinal m : m ∈ src → 1 ≤ rw_ordinal m ≤ lengthZ src.
Proof.
  intros (i & Hi)%list_elem_of_lookup. rewrite (so_numbered src Hsrc i m Hi). apply lookup_lt_Some in Hi.
  unfold lengthZ. lia.
Qed.

Lemma source_inj m m' : m ∈ src → m' ∈ src → rw_ordinal m = rw_ordinal m' → m = m'.
Proof.
  intros (i & Hi)%list_elem_of_lookup (j & Hj)%list_elem_of_lookup.
  rewrite (so_numbered src Hsrc i m Hi), (so_numbered src Hsrc j m' Hj). intros E.
  assert (i = j) as -> by lia. congruence.
Qed.

Lemma source_id_inj m m' : m ∈ src → m' ∈ src → rw_id m = rw_id m' → m = m'.
Proof.
  intros (i & Hi)%list_elem_of_lookup (j & Hj)%list_elem_of_lookup E.
  assert (i = j) as ->; [|congruence]. eapply NoDup_lookup; [apply (so_ids src Hsrc)|by rewrite list_lookup_fmap, Hi|].
  by rewrite list_lookup_fmap, Hj, E.
Qed.

Lemma source_at n : 1 ≤ n ≤ lengthZ src → ∃ m, m ∈ src ∧ rw_ordinal m = n.
Proof.
  intros Hn. unfold lengthZ in Hn. destruct (lookup_lt_is_Some_2 src (Z.to_nat (n - 1))) as [m Hm]; [lia|].
  exists m. split; [by eapply list_elem_of_lookup_2|]. rewrite (so_numbered src Hsrc _ m Hm). lia.
Qed.

End source.

(** ** Statements *)

Lemma current_get m db : is_current m db = true →
  ∃ row, ix_source db !! (s, rw_id m) = Some row ∧ sr_message_ordinal row = rw_ordinal m.
Proof.
  unfold isMessageIndexSourceCurrent. destruct (ix_source db !! (s, rw_id m)) as [row|]; [|done].
  intros E. exists row. split; [done|]. rewrite !andb_true_iff in E. destruct E as [[[E _] _] _]. by apply Z.eqb_eq in E.
Qed.

Lemma current_source m db db' : ix_source db' !! (s, rw_id m) = ix_source db !! (s, rw_id m) → is_current m db' = is_current m db.
Proof. unfold isMessageIndexSourceCurrent. by intros ->. Qed.

Lemma current_set m now db : is_current m (setMessageSource sha256_hex harness s m now db).2 = true.
Proof.
  unfold isMessageIndexSourceCurrent, setMessageSource. cbn [snd with_source ix_source]. rewrite lookup_insert_eq. cbn.
  by rewrite Z.eqb_refl, !String.eqb_refl.
Qed.

Lemma source_set_other m id now db : id ≠ rw_id m →
  ix_source (setMessageSource sha256_hex harness s m now db).2 !! (s, id) = ix_source db !! (s, id).
Proof. intros Hne. cbn [setMessageSource snd with_source ix_source]. rewrite lookup_insert_ne; [done|]. congruence. Qed.

Lemma rows_insert m db id : rows_of id (insert_fts s m (ss_content (snapshot m)) db) =
  rows_of id db ++ if decide (id = rw_id m) then
    [{| fr_session := s; fr_ordinal := rw_ordinal m; fr_message_id := rw_id m;
        fr_role := rm_role (rw_message m); fr_content := ss_content (snapshot m) |}] else [].
Proof.
  unfold rows_of, insert_fts. cbn [with_fts ix_fts]. rewrite filter_app, filter_cons, filter_nil. f_equal.
  unfold of_message. cbn [fr_session fr_message_id]. rewrite String.eqb_refl. cbn [andb].
  destruct (String.eqb_spec (rw_id m) id) as [->|Hne]; [by rewrite !decide_True by done|].
  by rewrite !decide_False by (done || congruence).
Qed.

Lemma rows_insert_if b m db id : rows_of id (insert_if b s m (ss_content (snapshot m)) db) =
  rows_of id db ++ if decide (id = rw_id m ∧ b = true) then expected m else [].
Proof.
  unfold insert_if, expected. destruct b; cbn [andb].
  - destruct ((0 <? _) && is_speaker _).
    + rewrite rows_insert. f_equal. apply decide_ext. tauto.
    + destruct (decide _); by rewrite app_nil_r.
  - rewrite decide_False by (intros [_ ?]; done). by rewrite app_nil_r.
Qed.

Lemma rows_delete id id' db : rows_of id' (delete_fts (of_message s id) db) = if decide (id' = id) then [] else rows_of id' db.
Proof.
  unfold rows_of, delete_fts. cbn [with_fts ix_fts]. rewrite list_filter_filter. case_decide as E.
  - subst. apply filter_none. intros r _ [E1 E2]. congruence.
  - apply list_filter_iff. intros r. unfold of_message. split; [tauto|]. intros Hr. split; [done|].
    apply andb_true_iff in Hr as [-> Hr%String.eqb_eq]. cbn [andb]. apply String.eqb_neq. congruence.
Qed.

Lemma elem_insert_if b m content db r : r ∈ ix_fts (insert_if b s m content db) →
  r ∈ ix_fts db ∨ (fr_message_id r = rw_id m ∧ fr_ordinal r = rw_ordinal m).
Proof.
  unfold insert_if. destruct (_ && _); [|by left]. cbn [insert_fts with_fts ix_fts].
  intros [Hr|Hr%list_elem_of_singleton]%elem_of_app; [by left|]. right. by subst.
Qed.

Lemma progress_last watermark floor now db : 0 ≤ watermark → last_of (setIndexProgress harness s watermark floor now db) = watermark.
Proof. intros Hw. unfold getLastIndexedOrdinal. cbn [setIndexProgress with_index ix_index]. rewrite lookup_insert_eq. cbn. lia. Qed.

Lemma progress_floor watermark floor now db : (∀ f, floor = Some f → 0 < f) →
  floor_of (setIndexProgress harness s watermark floor now db) = floor.
Proof.
  intros Hf. unfold getDirtyIndexFloor. cbn [setIndexProgress with_index ix_index]. rewrite lookup_insert_eq. cbn.
  destruct floor as [f|]; [|done]. cbn. by rewrite (proj2 (Z.ltb_lt _ _)) by by apply Hf.
Qed.

Lemma progress_floor_some watermark floor now db f :
  floor_of (setIndexProgress harness s watermark floor now db) = Some f → floor = Some f.
Proof.
  unfold getDirtyIndexFloor. cbn [setIndexProgress with_index ix_index]. rewrite lookup_insert_eq. cbn.
  destruct floor as [g|]; cbn; [|done]. by destruct (0 <? g).
Qed.

Lemma settled_some before o f : settled_floor before o = Some f → before = Some f.
Proof. unfold settled_floor. by case_bool_decide. Qed.

Lemma floor_pos db f : floor_of db = Some f → 0 < f.
Proof.
  unfold getDirtyIndexFloor. destruct (ix_index db !! s) as [row|]; [|done].
  destruct (Z.ltb_spec 0 (ir_dirty_floor_ordinal row)); [|done]. by intros [= <-].
Qed.

Lemma upsert_last floor now db : last_of (upsertDirtyFloor harness s (last_of db) floor now db) = last_of db.
Proof.
  unfold getLastIndexedOrdinal, upsertDirtyFloor. cbn [with_index ix_index]. rewrite lookup_insert_eq.
  destruct (ix_index db !! s) as [row|]; cbn; lia.
Qed.

Lemma upsert_floor floor now db : 0 < floor →
  floor_of (upsertDirtyFloor harness s (last_of db) floor now db) =
  Some (match floor_of db with Some f => Z.min f floor | None => floor end).
Proof.
  intros Hf. unfold getDirtyIndexFloor, upsertDirtyFloor. cbn [with_index ix_index]. rewrite lookup_insert_eq.
  destruct (ix_index db !! s) as [row|]; cbn.
  - rewrite (proj2 (Z.leb_gt floor 0)) by lia.
    destruct (Z.leb_spec (ir_dirty_floor_ordinal row) 0), (Z.ltb_spec 0 (ir_dirty_floor_ordinal row)); try lia.
    + by rewrite (proj2 (Z.ltb_lt _ _)).
    + by rewrite (proj2 (Z.ltb_lt _ _)) by lia.
  - by rewrite (proj2 (Z.ltb_lt _ _)).
Qed.

(** ** The invariant: clearing, marking, one message *)

Section inv.
Context (src : list raw_message) (Hsrc : session_source src).

(** What a step must say of each message. *)
Definition entry_ok (m : raw_message) (db : index_db) : Prop :=
  (rw_ordinal m ≤ last_of db → exact m db ∨ floor_of db = Some (rw_ordinal m)) ∧
  (last_of db < rw_ordinal m → rows_of (rw_id m) db = [] ∨ rows_of (rw_id m) db = expected m).

Lemma inv_intro db : 0 ≤ last_of db ≤ lengthZ src → (∀ f, floor_of db = Some f → f ≤ lengthZ src) →
  (∀ r, r ∈ ix_fts db → fr_session r = s → ∃ m, m ∈ src ∧ fr_message_id r = rw_id m ∧ fr_ordinal r = rw_ordinal m) →
  (∀ m, m ∈ src → entry_ok m db) → index_inv src db.
Proof. intros Hb Hf Hr He. constructor; [done..| |]; intros m Hm; by apply He. Qed.

Lemma inv_entry db m : index_inv src db → m ∈ src → entry_ok m db.
Proof. intros Hi Hm. split; [by apply (iv_covered src db Hi)|by apply (iv_ahead src db Hi)]. Qed.

Lemma exact_same m db db' : ix_fts db' = ix_fts db → ix_source db' = ix_source db → exact m db → exact m db'.
Proof. intros Hf Hs. unfold exact, rows_of, isMessageIndexSourceCurrent. by rewrite Hf, Hs. Qed.

Lemma clear_inv db : index_inv src (clear_index s db).
Proof.
  assert (last_of (clear_index s db) = 0) as Hw.
  { unfold getLastIndexedOrdinal. cbn [clear_index ix_index]. by rewrite lookup_delete_eq. }
  apply inv_intro.
  - rewrite Hw. unfold lengthZ. lia.
  - unfold getDirtyIndexFloor. cbn [clear_index ix_index]. by rewrite lookup_delete_eq.
  - intros r [Hr _]%list_elem_of_filter Hs. done.
  - intros m Hm. pose proof (source_ordinal src Hsrc m Hm). split; rewrite Hw; [lia|]. intros _. left.
    unfold rows_of. cbn [clear_index ix_fts]. rewrite list_filter_filter. apply filter_none. intros r _ [E Hne].
    unfold of_message in E. apply andb_true_iff in E as [E%String.eqb_eq _]. done.
Qed.

Lemma mark_inv db floor now : index_inv src db → 0 < floor ≤ lengthZ src →
  (∀ f, floor_of db = Some f → f ≤ last_of db → f ≤ floor) →
  index_inv src (upsertDirtyFloor harness s (last_of db) floor now db).
Proof.
  intros Hi Hpos Hf. apply inv_intro.
  - rewrite upsert_last. apply (iv_bound src db Hi).
  - intros f. rewrite upsert_floor by lia. intros [= <-]. destruct (floor_of db); lia.
  - apply (iv_rows src db Hi).
  - intros m Hm. destruct (inv_entry db m Hi Hm) as [Hc Ha].
    split; rewrite upsert_last; [|exact Ha]. intros Ho. destruct (Hc Ho) as [He|Hfl]; [left; by eapply exact_same|].
    right. rewrite upsert_floor, Hfl by lia. f_equal. pose proof (Hf _ Hfl Ho). lia.
Qed.

Lemma already_indexed id db : isMessageAlreadyIndexed s id db = negb (bool_decide (rows_of id db = [])).
Proof.
  unfold isMessageAlreadyIndexed, countIndexedMessage, lengthZ. fold (rows_of id db).
  destruct (rows_of id db) as [|r l]; [done|]. cbn [length]. rewrite bool_decide_false by done. cbn [negb]. apply Z.ltb_lt. lia.
Qed.

(** Filing a message: its record, and its row when it has none. *)
Lemma filed_exact m now db : rows_of (rw_id m) db = [] ∨ rows_of (rw_id m) db = expected m →
  let db1 := (setMessageSource sha256_hex harness s m now db).2 in
  exact m (insert_if (negb (isMessageAlreadyIndexed s (rw_id m) db1)) s m (ss_content (snapshot m)) db1).
Proof.
  intros Hrows db1. assert (rows_of (rw_id m) db1 = rows_of (rw_id m) db) as Hsame by done. split.
  - rewrite rows_insert_if, already_indexed, negb_involutive, Hsame.
    destruct (bool_decide_reflect (rows_of (rw_id m) db = [])) as [E|E].
    + by rewrite decide_True, E.
    + rewrite decide_False by (intros [_ ?]; done). rewrite app_nil_r. by destruct Hrows.
  - rewrite (current_source m db1); [apply current_set|]. unfold insert_if. by destruct (_ && _).
Qed.

Lemma filed_other b m m' now db : rw_id m' ≠ rw_id m →
  let db1 := (setMessageSource sha256_hex harness s m now db).2 in
  let db2 := insert_if b s m (ss_content (snapshot m)) db1 in
  rows_of (rw_id m') db2 = rows_of (rw_id m') db ∧ is_current m' db2 = is_current m' db.
Proof.
  intros Hne db1 db2. split.
  - unfold db2. rewrite rows_insert_if, decide_False by (intros [? _]; done). by rewrite app_nil_r.
  - apply current_source. transitivity (ix_source db1 !! (s, rw_id m')); [|by apply source_set_other].
    unfold db2, insert_if. by destruct (_ && _).
Qed.

Lemma exact_other m db db' : rows_of (rw_id m) db' = rows_of (rw_id m) db → is_current m db' = is_current m db →
  exact m db → exact m db'.
Proof. intros Hr Hc [He1 He2]. split; congruence. Qed.

(** The transaction for one message, when the floor recorded before it is known. *)
Lemma replace_inv db m before now : index_inv src db → m ∈ src → rw_ordinal m ≤ last_of db →
  floor_of db = Some (rw_ordinal m) → (∀ f, before = Some f → f ≤ lengthZ src) →
  index_inv src (indexSingleMessageInTransaction sha256_hex harness s m now before db).2.
Proof.
  intros Hi Hm Ho Hfloor Hbefore. unfold indexSingleMessageInTransaction. rewrite (proj2 (Z.leb_le _ _) Ho).
  destruct (is_current m db); [exact Hi|]. cbn [setMessageSource snd].
  set (db0 := delete_fts _ db). set (db1 := with_source _ db0). set (db2 := insert_if _ _ _ _ _). cbn [snd].
  pose proof (iv_bound src db Hi) as Hb.
  assert (∀ m', m' ∈ src → rw_id m' ≠ rw_id m →
    rows_of (rw_id m') db2 = rows_of (rw_id m') db ∧ is_current m' db2 = is_current m' db) as Hother.
  { intros m' Hm' Hne. destruct (filed_other true m m' now db0 Hne) as [H1 H2]. split.
    - etransitivity; [exact H1|]. unfold db0. rewrite rows_delete. by rewrite decide_False.
    - etransitivity; [exact H2|]. by apply current_source. }
  assert (exact m db2) as Hexact.
  { split.
    - unfold db2. rewrite rows_insert_if, decide_True by done. unfold db1.
      change (rows_of (rw_id m) (with_source _ db0)) with (rows_of (rw_id m) db0). unfold db0. rewrite rows_delete.
      by rewrite decide_True.
    - rewrite (current_source m db1); [apply current_set|]. unfold db2, insert_if. by destruct (_ && _). }
  apply inv_intro.
  - rewrite progress_last by lia. exact Hb.
  - by intros f ?%progress_floor_some%settled_some%Hbefore.
  - intros r Hr Hs. change (r ∈ ix_fts db2) in Hr. unfold db2 in Hr.
    apply elem_insert_if in Hr as [Hr|[H1 H2]]; [|by exists m].
    apply (iv_rows src db Hi r); [|done]. change (r ∈ filter (fun r => of_message s (rw_id m) r = false) (ix_fts db)) in Hr.
    by apply list_elem_of_filter in Hr as [_ ?].
  - intros m' Hm'. unfold entry_ok. rewrite progress_last by lia.
    destruct (inv_entry db m' Hi Hm') as [Hc Ha]. destruct (decide (rw_id m' = rw_id m)) as [Hid|Hid].
    + assert (m' = m) as -> by by eapply source_id_inj.
      split; [|lia]. intros _. left. exact Hexact.
    + destruct (Hother m' Hm' Hid) as [H1 H2]. split.
      * intros Ho'. destruct (Hc Ho') as [He|Hf]; [left; by eapply exact_other|].
        destruct Hid. f_equal. f_equal. eapply source_inj; [done..|]. congruence.
      * intros Ho'. change (rows_of (rw_id m') (setIndexProgress _ _ _ _ _ db2)) with (rows_of (rw_id m') db2).
        rewrite H1. by apply Ha.
Qed.

Lemma extend_inv db m before now : index_inv src db → m ∈ src → last_of db < rw_ordinal m →
  (∀ f, before = Some f → f ≤ lengthZ src) →
  index_inv src (indexSingleMessageInTransaction sha256_hex harness s m now before db).2.
Proof.
  intros Hi Hm Ho Hbefore. unfold indexSingleMessageInTransaction. rewrite (proj2 (Z.leb_gt _ _) Ho).
  destruct (Z.eqb_spec (rw_ordinal m) (last_of db + 1)) as [Enext|]; [|exact Hi]. cbn [negb orb].
  destruct (match floor_of db with Some floor => negb (floor =? rw_ordinal m) | None => false end) eqn:Efloor; [exact Hi|].
  cbn [setMessageSource]. set (db1 := with_source _ db). set (db2 := insert_if _ _ _ _ _). cbn [snd].
  pose proof (iv_bound src db Hi) as Hb. pose proof (source_ordinal src Hsrc m Hm) as Hm_ord.
  pose proof (filed_exact m now db) as Hexact.
  apply inv_intro.
  - rewrite progress_last by lia. lia.
  - by intros f ?%progress_floor_some%settled_some%Hbefore.
  - intros r Hr Hs. change (r ∈ ix_fts db2) in Hr. apply elem_insert_if in Hr as [Hr|[H1 H2]]; [|by exists m].
    by apply (iv_rows src db Hi r).
  - intros m' Hm'. unfold entry_ok. rewrite progress_last by lia.
    destruct (inv_entry db m' Hi Hm') as [Hc Ha]. destruct (decide (rw_id m' = rw_id m)) as [Hid|Hid].
    + assert (m' = m) as -> by by eapply source_id_inj.
      split; [|lia]. intros _. left. apply Hexact. by apply Ha.
    + destruct (filed_other (negb (isMessageAlreadyIndexed s (rw_id m) db1)) m m' now db Hid) as [H1 H2]. split.
      * intros Ho'. assert (rw_ordinal m' ≤ last_of db) as Hle.
        { assert (rw_ordinal m' ≠ rw_ordinal m) by (intros E; destruct Hid; by rewrite (source_inj src Hsrc m' m Hm' Hm E)). lia. }
        destruct (Hc Hle) as [He|Hf]; [left; by eapply exact_other|].
        exfalso. rewrite Hf in Efloor. apply negb_false_iff, Z.eqb_eq in Efloor. lia.
      * intros Ho'. change (rows_of (rw_id m') (setIndexProgress _ _ _ _ _ db2)) with (rows_of (rw_id m') db2).
        rewrite (H1 : rows_of (rw_id m') db2 = _). apply Ha. lia.
Qed.

Lemma wp_date db (Q : result string Z → index_db → Prop) : (∀ t, Q (Ok t) db) → wp Date_now db Q.
Proof.
  intros HQ. apply wp_bind, wp_gets. intros t. apply wp_bind, wp_modify. apply wp_ret, HQ.
Qed.

Lemma wp_mark floorOrdinal db (Q : result string unit → index_db → Prop) : (∀ e, Q (Err e) db) →
  (∀ now, Q (Ok ()) (upsertDirtyFloor harness s (last_of db) (Z.max 1 floorOrdinal) now db)) →
  wp (markMessageIndexDirty harness s floorOrdinal) db Q.
Proof.
  intros He HQ. unfold markMessageIndexDirty. apply wp_bind, wp_query; [done|]. apply wp_bind, wp_date. intros now.
  apply wp_write; [done|apply HQ].
Qed.

(** The call for one message: it answers, or it marks and runs its transaction. *)
Lemma wp_single m db (Q : result string bool → index_db → Prop) : (∀ e, Q (Err e) db) →
  (rw_ordinal m ≤ last_of db → is_current m db = true → Q (Ok false) db) →
  (∀ now, (rw_ordinal m ≤ last_of db → is_current m db = false) →
     let marked := upsertDirtyFloor harness s (last_of db) (Z.max 1 (Z.min (rw_ordinal m) (last_of db + 1))) now db in
     (∀ e, Q (Err e) marked) ∧
     ∀ now', let '(b, db') := indexSingleMessageInTransaction sha256_hex harness s m now' (floor_of db) marked in Q (Ok b) db') →
  wp (indexSingleMessage sha256_hex harness s m) db Q.
Proof.
  intros He Hcur Htxn. unfold indexSingleMessage. apply wp_bind, wp_query; [done|]. apply wp_bind.
  assert (∀ b, (rw_ordinal m ≤ last_of db → is_current m db = b) → (b = true → rw_ordinal m ≤ last_of db) →
    wp (if b then mret false else
         dirtyFloorBeforeAttempt ← query (getDirtyIndexFloor s);
         markMessageIndexDirty harness s (Z.min (rw_ordinal m) (last_of db + 1));;
         now ← Date_now;
         access (fun db => Ok (indexSingleMessageInTransaction sha256_hex harness s m now dirtyFloorBeforeAttempt db)))
       db Q) as Hrest.
  { intros [] Hb Ht; [apply wp_ret, Hcur; [by apply Ht|apply Hb; by apply Ht]|].
    apply wp_bind, wp_query; [done|]. apply wp_bind, wp_mark; [done|]. intros now.
    destruct (Htxn now Hb) as [Hm1 Hm2]. apply wp_bind, wp_date. intros now'. apply wp_access; [done|].
    intros b db' [= E]. specialize (Hm2 now'). by rewrite E in Hm2. }
  destruct (Z.leb_spec (rw_ordinal m) (last_of db)).
  - apply wp_query; [done|]. by apply Hrest.
  - apply wp_ret. apply (Hrest false); [lia|done].
Qed.

Lemma single_keeps m db : index_inv src db → m ∈ src →
  wp (indexSingleMessage sha256_hex harness s m) db (fun _ db' => index_inv src db').
Proof.
  intros Hi Hm. pose proof (iv_bound src db Hi) as Hb. pose proof (source_ordinal src Hsrc m Hm) as Ho.
  apply wp_single; [done|done|]. intros now Hcur marked.
  assert (index_inv src marked ∧ (rw_ordinal m ≤ last_of db → floor_of marked = Some (rw_ordinal m))) as [Hmarked Hfloor].
  { destruct (Z.le_gt_cases (rw_ordinal m) (last_of db)) as [Hle|Hgt].
    - assert (floor_of db = Some (rw_ordinal m)) as Hf.
      { destruct (iv_covered src db Hi m Hm Hle) as [[_ Hc]|]; [|done]. by rewrite Hcur in Hc. }
      split; [|intros _; unfold marked; rewrite upsert_floor, Hf by lia; f_equal; lia].
      apply mark_inv; [done|lia|]. intros f Hf' _. rewrite Hf in Hf'. injection Hf' as <-. lia.
    - split; [|lia]. apply mark_inv; [done|lia|]. intros f _ Hf. lia. }
  assert (last_of marked = last_of db) as Hlast by apply upsert_last.
  split; [done|]. intros now'. destruct (indexSingleMessageInTransaction _ _ _ _ _ _ _) as [b db'] eqn:E.
  change db' with ((b, db').2). rewrite <- E.
  destruct (Z.le_gt_cases (rw_ordinal m) (last_of db)) as [Hle|Hgt].
  - apply replace_inv; [done|done|lia|by apply Hfloor|apply (iv_floor src db Hi)].
  - apply extend_inv; [done|done|lia|apply (iv_floor src db Hi)].
Qed.

End inv.

(** ** Edits *)

Section edit.
Context (src : list raw_message) (Hsrc : session_source src) (i : nat) (m m' : raw_message) (Hm : src !! i = Some m)
  (Hid : rw_id m' = rw_id m) (Hord : rw_ordinal m' = rw_ordinal m).

Definition edited : list raw_message := <[i := m']> src.

Lemma edited_source : session_source edited.
Proof.
  split.
  - intros j x Hx. unfold edited in Hx. destruct (decide (i = j)) as [<-|Hne].
    + rewrite list_lookup_insert_eq in Hx by by eapply lookup_lt_Some. injection Hx as <-. rewrite Hord.
      by apply (so_numbered src Hsrc).
    + rewrite list_lookup_insert_ne in Hx by done. by apply (so_numbered src Hsrc).
  - unfold edited. rewrite list_fmap_insert, Hid, list_insert_id; [apply (so_ids src Hsrc)|]. by rewrite list_lookup_fmap, Hm.
Qed.

Lemma in_edited x : x ∈ edited → x = m' ∨ (x ∈ src ∧ rw_id x ≠ rw_id m).
Proof.
  intros (j & Hj)%list_elem_of_lookup. unfold edited in Hj. destruct (decide (i = j)) as [<-|Hne].
  - rewrite list_lookup_insert_eq in Hj by by eapply lookup_lt_Some. injection Hj as <-. by left.
  - rewrite list_lookup_insert_ne in Hj by done. right. split; [by eapply list_elem_of_lookup_2|]. intros E. destruct Hne.
    eapply NoDup_lookup; [apply (so_ids src Hsrc)|by rewrite list_lookup_fmap, Hm|]. by rewrite list_lookup_fmap, Hj; cbn; rewrite E.
Qed.

Lemma edited_new : m' ∈ edited.
Proof. apply list_elem_of_lookup. exists i. apply list_lookup_insert_eq. by eapply lookup_lt_Some. Qed.

Lemma edited_length : lengthZ edited = lengthZ src.
Proof. unfold lengthZ, edited. by rewrite length_insert. Qed.

(** No other message is dirty, the contents differ in their hashes, and a message ahead of
    the watermark has no row yet. *)
Record edit_ok (db : index_db) : Prop := {
  ed_floor : ∀ f, floor_of db = Some f → f ≤ last_of db → f = rw_ordinal m;
  ed_ahead : last_of db < rw_ordinal m → rows_of (rw_id m) db = [];
  ed_hash : ss_contentHash (snapshot m') = ss_contentHash (snapshot m) → ss_content (snapshot m') = ss_content (snapshot m)
}.

Lemma edited_inv db db' : index_inv src db → edit_ok db → ix_fts db' = ix_fts db → ix_source db' = ix_source db →
  last_of db' = last_of db → (∀ f, floor_of db' = Some f → f ≤ lengthZ src) → entry_ok m' db' → index_inv edited db'.
Proof.
  intros Hi Hok Hf Hs Hl Hfl He. apply inv_intro.
  - rewrite Hl, edited_length. apply (iv_bound src db Hi).
  - by rewrite edited_length.
  - intros r Hr Hses. rewrite Hf in Hr. destruct (iv_rows src db Hi r Hr Hses) as (x & Hx & H1 & H2).
    destruct (decide (rw_id x = rw_id m)) as [E|E].
    + assert (x = m) as -> by (eapply source_id_inj; [done..|by eapply list_elem_of_lookup_2|done]).
      exists m'. split; [apply edited_new|]. by rewrite Hid, Hord.
    + exists x. split; [|done]. apply list_elem_of_lookup in Hx as (j & Hj). apply list_elem_of_lookup. exists j.
      unfold edited. rewrite list_lookup_insert_ne; [done|]. intros <-. rewrite Hm in Hj. injection Hj as ->. done.
  - intros x [->|[Hx Hne]]%in_edited; [done|]. destruct (inv_entry src db x Hi Hx) as [Hc Ha].
    split; rewrite Hl.
    + intros Ho. destruct (Hc Ho) as [Hex|Hdirty]; [left; by eapply exact_same|].
      exfalso. pose proof (ed_floor db Hok _ Hdirty Ho) as Eo. destruct Hne. f_equal. f_equal.
      eapply source_inj; [done..|by eapply list_elem_of_lookup_2|done].
    + unfold rows_of. rewrite Hf. exact Ha.
Qed.

Lemma expected_edit db : exact m db → is_current m' db = true → edit_ok db → exact m' db.
Proof.
  intros [Hr Hc] Hc' Hok. split; [|done]. rewrite Hid, Hr. unfold isMessageIndexSourceCurrent in Hc, Hc'. rewrite Hid in Hc'.
  destruct (ix_source db !! (s, rw_id m)) as [row|]; [|done].
  rewrite !andb_true_iff, !String.eqb_eq in Hc, Hc'. destruct Hc as [[_ Hh] Hrole], Hc' as [[_ Hh'] Hrole'].
  cbn [ss_role getMessageSourceSnapshot] in Hrole, Hrole'.
  unfold expected. rewrite Hid, Hord, <- Hrole, <- Hrole', (ed_hash db Hok) by congruence. done.
Qed.

Lemma edit_keeps db : index_inv src db → edit_ok db →
  wp (indexSingleMessage sha256_hex harness s m') db (fun r db' => index_inv edited db' ∨ (db' = db ∧ ∃ e, r = Err e)).
Proof.
  intros Hi Hok. pose proof (iv_bound src db Hi) as Hb.
  assert (m ∈ src) as Hin by by eapply list_elem_of_lookup_2. pose proof (source_ordinal src Hsrc m Hin) as Ho.
  apply wp_single; [eauto|..].
  - intros Hle Hcur. left. apply (edited_inv db db); [done..|apply (iv_floor src db Hi)|]. split; [|lia]. intros _. rewrite Hord in *.
    destruct (iv_covered src db Hi m Hin Hle) as [He|Hf]; [left; by apply expected_edit|by right].
  - intros now Hcur marked. rewrite Hord in *.
    assert (last_of marked = last_of db) as Hlast by apply upsert_last.
    assert (rw_ordinal m ≤ last_of db → floor_of marked = Some (rw_ordinal m)) as Hfloor.
    { intros Hle. unfold marked. rewrite upsert_floor by lia. f_equal. destruct (floor_of db) as [f|] eqn:E; [|lia].
      destruct (Z.le_gt_cases f (last_of db)) as [Hf|Hf]; [rewrite (ed_floor db Hok f E Hf)|]; lia. }
    assert (index_inv edited marked) as Hmarked.
    { apply (edited_inv db marked); [done..| |].
      { intros f. unfold marked. rewrite upsert_floor by lia. pose proof (iv_floor src db Hi).
        intros [= <-]. destruct (floor_of db); lia. }
      split; rewrite Hlast, Hord.
      - intros Hle. right. by apply Hfloor.
      - intros Hgt. left. rewrite Hid. by apply (ed_ahead db Hok). }
    split; [by left|]. intros now'. destruct (indexSingleMessageInTransaction _ _ _ _ _ _ _) as [b db'] eqn:E. left.
    change db' with ((b, db').2). rewrite <- E.
    destruct (Z.le_gt_cases (rw_ordinal m) (last_of db)) as [Hle|Hgt].
    + apply replace_inv; [apply edited_source|done|apply edited_new|lia|rewrite Hord; by apply Hfloor|rewrite edited_length; apply (iv_floor src db Hi)].
    + apply extend_inv; [apply edited_source|done|apply edited_new|lia|rewrite edited_length; apply (iv_floor src db Hi)].
Qed.

End edit.

(** ** Pages *)

Section page.
Context (src : list raw_message) (Hsrc : session_source src).

Lemma cover_all byOrdinal finalWatermark fuel : ∀ covered, covered ≤ finalWatermark →
  (Z.to_nat (finalWatermark - covered) ≤ fuel)%nat →
  (∀ o, covered < o ≤ finalWatermark → JsMap.has byOrdinal o = true) →
  cover fuel byOrdinal finalWatermark covered = finalWatermark.
Proof.
  induction fuel as [|fuel IH]; intros covered Hle Hfuel Hall; cbn [cover]; [lia|].
  destruct (Z.ltb_spec covered finalWatermark); [|cbn; lia]. rewrite Hall by lia. cbn [andb].
  apply IH; [lia..|]. intros o Ho. apply Hall. lia.
Qed.

Lemma by_ordinal_get low high messages m : m ∈ messages → low < rw_ordinal m ≤ high →
  (∀ x, x ∈ messages → rw_ordinal x = rw_ordinal m → x = m) →
  JsMap.get (by_ordinal low high messages) (rw_ordinal m) = Some m.
Proof.
  intros Hm Ho Huniq. unfold by_ordinal.
  assert (m ∈ messages ∨ JsMap.get (@nil (Z * raw_message)) (rw_ordinal m) = Some m) as Hor by by left. revert Hor.
  clear Hm. generalize (@nil (Z * raw_message)). revert Huniq.
  induction messages as [|x messages IH]; intros Huniq acc Hor; cbn [foldl].
  - destruct Hor as [Hn|]; [by apply not_elem_of_nil in Hn|done].
  - apply IH; [intros y Hy; apply Huniq; by right|].
    destruct (decide (rw_ordinal x = rw_ordinal m)) as [E|E].
    + rewrite (Huniq x) by (done || left). right.
      rewrite (proj2 (Z.ltb_lt _ _)), (proj2 (Z.leb_le _ _)) by lia. cbn [andb]. by rewrite get_set_eq.
    + destruct Hor as [[->|Hm]%elem_of_cons|Hg]; [done|by left|right].
      destruct (_ && _); [by rewrite get_set_ne|done].
Qed.

(** *** The range *)

Lemma clear_range_spec finalWatermark db : index_inv src db →
  let db' := clear_range s finalWatermark db in
  ix_index db' = ix_index db ∧ (∀ r, r ∈ ix_fts db' → r ∈ ix_fts db) ∧
  ∀ m, m ∈ src →
    (rows_of (rw_id m) db' = if match floor_of db with Some f => between f finalWatermark (rw_ordinal m) | None => false end
                             then [] else rows_of (rw_id m) db) ∧
    (match floor_of db with Some f => between f finalWatermark (rw_ordinal m) | None => false end = false →
     is_current m db = true → is_current m db' = true).
Proof.
  intros Hi db'. unfold clear_range in db'. destruct (floor_of db) as [f|] eqn:Ef; [|by subst db'].
  destruct (Z.leb_spec f finalWatermark) as [Hle|Hgt].
  2:{ split_and!; [done..|]. intros m Hm. assert (between f finalWatermark (rw_ordinal m) = false) as ->; [|done].
      unfold between. destruct (Z.leb_spec f (rw_ordinal m)), (Z.leb_spec (rw_ordinal m) finalWatermark); (done || lia). }
  assert (ix_fts db' = filter (fun r => String.eqb (fr_session r) s && between f finalWatermark (fr_ordinal r) = false) (ix_fts db))
    as Hfts by done.
  split_and!; [done|intros r Hr; rewrite Hfts in Hr; by apply list_elem_of_filter in Hr as [_ ?]|].
  intros m Hm. split.
  - unfold rows_of. rewrite Hfts, list_filter_filter.
    assert (∀ r, r ∈ ix_fts db → of_message s (rw_id m) r = true → fr_session r = s ∧ fr_ordinal r = rw_ordinal m) as Hord.
    { intros r Hr [E1%String.eqb_eq E2%String.eqb_eq]%andb_true_iff. split; [done|].
      destruct (iv_rows src db Hi r Hr E1) as (x & Hx & Hx1 & ->). f_equal. f_equal. eapply source_id_inj; [done..|congruence]. }
    clear Hfts. revert Hord. induction (ix_fts db) as [|r rows IH]; intros Hord; [by destruct (between _ _ _)|].
    rewrite !filter_cons. specialize (IH (fun x Hx => Hord x ltac:(by right))).
    destruct (decide (of_message s (rw_id m) r = true)) as [E|E].
    + destruct (Hord r ltac:(left) E) as [-> ->]. rewrite String.eqb_refl. cbn [andb].
      destruct (between f finalWatermark (rw_ordinal m)) eqn:Eb.
      * rewrite decide_False by (intros [_ ?]; congruence). exact IH.
      * rewrite decide_True by done. by rewrite IH.
    + rewrite decide_False by (intros [? _]; done). exact IH.
  - intros Hb Hc. destruct (current_get m db Hc) as (row & Hrow & Ho). rewrite <- Hc. apply current_source.
    rewrite Hrow. apply map_lookup_filter_Some. split; [done|]. cbn [fst snd]. rewrite Ho, Hb. apply andb_false_r.
Qed.

(** *** The loop *)

Lemma index_ordinal_filed byOrdinal now st o m : JsMap.get byOrdinal o = Some m →
  let db1 := (setMessageSource sha256_hex harness s m now st.1).2 in
  (index_ordinal sha256_hex harness s byOrdinal now st o).1 =
  insert_if (negb (isMessageAlreadyIndexed s (rw_id m) db1)) s m (ss_content (snapshot m)) db1.
Proof.
  intros Hg db1. unfold index_ordinal. rewrite Hg. unfold insert_if. cbn [setMessageSource].
  change (with_source _ st.1) with db1.
  destruct (isMessageAlreadyIndexed s (rw_id m) db1); cbn [negb andb]; [by rewrite orb_true_r|]. rewrite orb_false_r.
  destruct (Z.eqb_spec (str_length (ss_content (snapshot m))) 0) as [->|Hne]; [done|].
  assert (0 <? str_length (ss_content (snapshot m)) = true) as ->.
  { apply Z.ltb_lt. unfold str_length in *. lia. }
  by destruct (is_speaker _).
Qed.

Lemma loop_spec byOrdinal now l : NoDup l → (∀ o, o ∈ l → ∃ m, m ∈ src ∧ rw_ordinal m = o ∧ JsMap.get byOrdinal o = Some m) →
  ∀ st, let st' := foldl (index_ordinal sha256_hex harness s byOrdinal now) st l in
  ix_index st'.1 = ix_index st.1 ∧
  (∀ r, r ∈ ix_fts st'.1 → r ∈ ix_fts st.1 ∨ ∃ m, m ∈ src ∧ fr_message_id r = rw_id m ∧ fr_ordinal r = rw_ordinal m) ∧
  ∀ m, m ∈ src →
    (rw_ordinal m ∉ l → rows_of (rw_id m) st'.1 = rows_of (rw_id m) st.1 ∧ is_current m st'.1 = is_current m st.1) ∧
    (rw_ordinal m ∈ l → rows_of (rw_id m) st.1 = [] ∨ rows_of (rw_id m) st.1 = expected m → exact m st'.1).
Proof.
  induction l as [|o l IH]; intros Hnd Hall st; cbn [foldl].
  { split_and!; [done|by left|]. intros m Hm. split; [done|]. intros Hn. by apply not_elem_of_nil in Hn. }
  apply NoDup_cons in Hnd as [Hn Hnd].
  destruct (Hall o) as (x & Hx & Hxo & Hget); [by left|].
  destruct (IH Hnd (fun o' Ho' => Hall o' ltac:(by right)) (index_ordinal sha256_hex harness s byOrdinal now st o))
    as (Hix & Hrows & Hent). clear IH.
  pose proof (index_ordinal_filed byOrdinal now st o x Hget) as Hstep. cbn zeta in Hstep. rewrite Hstep in Hix, Hrows, Hent.
  set (db1 := (setMessageSource sha256_hex harness s x now st.1).2) in *.
  split_and!.
  - rewrite Hix. unfold insert_if. by destruct (_ && _).
  - intros r Hr. destruct (Hrows r Hr) as [Hr'|Hr']; [|by right].
    apply elem_insert_if in Hr' as [Hr'|[H1 H2]]; [by left|]. right. by exists x.
  - intros m Hm. destruct (Hent m Hm) as [Hout Hin]. destruct (decide (rw_ordinal m = o)) as [E|E].
    + assert (m = x) as -> by (eapply source_inj; [done..|congruence]). split; [intros Hno; destruct Hno; rewrite E; by left|].
      intros _ Hr. rewrite E in Hout. destruct (Hout Hn) as [H1 H2].
      eapply exact_other; [exact H1|exact H2|]. exact (filed_exact x now st.1 Hr).
    + assert (rw_id m ≠ rw_id x) as Hne.
      { intros Ei. destruct E. rewrite <- Hxo. f_equal. f_equal. by eapply source_id_inj. }
      destruct (filed_other (negb (isMessageAlreadyIndexed s (rw_id x) db1)) x m now st.1 Hne) as [F1 F2]. split.
      * intros Hno. destruct Hout as [H1 H2]; [intros Hl; destruct Hno; by right|].
        split; (etransitivity; [eassumption|]); [exact F1|exact F2].
      * intros [?|Hl]%elem_of_cons Hr; [done|]. apply Hin; [done|].
        destruct Hr as [Hr|Hr]; [left|right]; (etransitivity; [exact F1|exact Hr]).
Qed.

Lemma page_start_le db : page_start s db ≤ last_of db.
Proof. unfold page_start. destruct (floor_of db); lia. Qed.

(** One message after the range was cleared ([db1]) and the loop went over it ([db2]). *)
Lemma page_entry db db1 db2 finalWatermark m : index_inv src db → m ∈ src →
  page_start s db ≤ finalWatermark → (∀ f, floor_of db = Some f → f ≤ last_of db → f ≤ finalWatermark) →
  let gone := match floor_of db with Some f => between f finalWatermark (rw_ordinal m) | None => false end in
  rows_of (rw_id m) db1 = (if gone then [] else rows_of (rw_id m) db) →
  (gone = false → is_current m db = true → is_current m db1 = true) →
  (¬ (page_start s db < rw_ordinal m ≤ finalWatermark) →
     rows_of (rw_id m) db2 = rows_of (rw_id m) db1 ∧ is_current m db2 = is_current m db1) →
  (page_start s db < rw_ordinal m ≤ finalWatermark →
     rows_of (rw_id m) db1 = [] ∨ rows_of (rw_id m) db1 = expected m → exact m db2) →
  (rw_ordinal m ≤ finalWatermark → exact m db2) ∧
  (finalWatermark < rw_ordinal m → rows_of (rw_id m) db2 = [] ∨ rows_of (rw_id m) db2 = expected m).
Proof.
  intros Hi Hm Hfinal Hfloor gone Hcrow Hccur Hout Hin. destruct (inv_entry src db m Hi Hm) as [Hc Ha].
  pose proof (source_ordinal src Hsrc m Hm) as Ho. pose proof (page_start_le db) as Hps.
  split; intros Hm_ord.
  + destruct (Z.le_gt_cases (rw_ordinal m) (page_start s db)) as [Hbefore|Hafter].
    * assert (gone = false) as Hgone.
      { unfold gone, between, page_start in *. destruct (floor_of db) as [f|] eqn:Ef; [|done].
        pose proof (floor_pos db f Ef). rewrite (proj2 (Z.leb_gt _ _)) by lia. done. }
      destruct Hout as [H1 H2]; [lia|]. rewrite Hgone in Hcrow.
      destruct (Hc ltac:(lia)) as [[He1 He2]|Hf].
      -- split; [by rewrite H1, Hcrow|]. rewrite H2. by apply Hccur.
      -- exfalso. unfold page_start in *. rewrite Hf in *. lia.
    * apply Hin; [done|]. rewrite Hcrow. destruct gone eqn:Hgone; [by left|].
      apply Ha. unfold gone, between, page_start in *. destruct (floor_of db) as [f|] eqn:Ef; [|lia].
      pose proof (floor_pos db f Ef). destruct (Z.le_gt_cases f (last_of db)) as [Hfl|Hfl]; [|lia].
      specialize (Hfloor f eq_refl Hfl). exfalso.
      rewrite (proj2 (Z.leb_le _ _)), (proj2 (Z.leb_le _ _)) in Hgone by lia. done.
  + destruct Hout as [-> _]; [lia|]. rewrite Hcrow. destruct gone eqn:Hgone; [by left|].
    destruct (Z.le_gt_cases (rw_ordinal m) (last_of db)) as [Hcov|Hah]; [|by apply Ha].
    destruct (Hc Hcov) as [[He _]|Hf]; [by right|]. specialize (Hfloor _ Hf Hcov). lia.
Qed.

Lemma page_inv db messages finalWatermark now : index_inv src db →
  (∀ m, m ∈ messages → m ∈ src) →
  (∀ m, m ∈ src → page_start s db < rw_ordinal m ≤ finalWatermark → m ∈ messages) →
  page_start s db ≤ finalWatermark ≤ lengthZ src → (∀ f, floor_of db = Some f → f ≤ last_of db → f ≤ finalWatermark) →
  let db' := (index_page sha256_hex harness s messages finalWatermark now db).2 in
  index_inv src db' ∧ last_of db' = finalWatermark ∧
  floor_of db' = match floor_of db with Some f => if finalWatermark <? f then Some f else None | None => None end.
Proof.
  intros Hi Hsub Hsup Hfinal Hfloor. pose proof (iv_bound src db Hi) as Hb. pose proof (page_start_le db) as Hps.
  assert (0 ≤ page_start s db) as Hps0 by (unfold page_start; destruct (floor_of db); lia).
  unfold index_page.
  assert (∀ m, m ∈ src → page_start s db < rw_ordinal m ≤ finalWatermark →
    JsMap.get (by_ordinal (page_start s db) finalWatermark messages) (rw_ordinal m) = Some m) as Hget.
  { intros m Hm Ho. apply by_ordinal_get; [by apply Hsup|done|]. intros x Hx E. eapply source_inj; [done|by apply Hsub|done..]. }
  rewrite cover_all; [|lia|lia|].
  2:{ intros o Ho. destruct (source_at src Hsrc o) as (m & Hm & <-); [lia|]. unfold JsMap.has. by rewrite Hget. }
  set (byOrdinal := by_ordinal _ _ _) in *.
  pose proof (clear_range_spec finalWatermark db Hi) as (Hcx & Hcr & Hce).
  pose proof (loop_spec byOrdinal now (seqZ (page_start s db + 1) (finalWatermark - page_start s db)) (NoDup_seqZ _ _)) as Hloop.
  specialize (Hloop (fun o Ho => match source_at src Hsrc o ltac:(apply elem_of_seqZ in Ho; lia) with
    | ex_intro _ m (conj Hm E) => ex_intro _ m (conj Hm (conj E (eq_ind _ (fun o => JsMap.get byOrdinal o = Some m) (Hget m Hm ltac:(apply elem_of_seqZ in Ho; lia)) _ E))) end)
    (clear_range s finalWatermark db, 0)). cbn zeta in Hloop.
  destruct (foldl _ _ _) as [db1 inserted]. destruct Hloop as (Hlx & Hlr & Hle). cbn [fst snd] in *.
  assert (next_floor (floor_of db) finalWatermark finalWatermark =
    match floor_of db with Some f => if finalWatermark <? f then Some f else None | None => None end) as Hnext.
  { unfold next_floor. rewrite Z.ltb_irrefl. done. }
  split_and!; [|by apply progress_last; lia|].
  2:{ rewrite progress_floor; [done|]. rewrite Hnext. intros f. destruct (floor_of db) as [f'|] eqn:Ef; [|done].
      destruct (_ <? _); [|done]. intros [= <-]. by eapply floor_pos. }
  apply inv_intro.
  - rewrite progress_last by lia. lia.
  - intros f ?%progress_floor_some. rewrite Hnext in *. destruct (floor_of db) as [g|] eqn:Eg; [|done].
    destruct (_ <? _); [|done]. simplify_eq. by apply (iv_floor src db Hi).
  - intros r Hr Hs. change (r ∈ ix_fts db1) in Hr. destruct (Hlr r Hr) as [Hr'|Hr']; [|done].
    by apply (iv_rows src db Hi); [apply Hcr|].
  - intros m Hm. unfold entry_ok. rewrite progress_last by lia.
    change (exact m (setIndexProgress _ _ _ _ _ db1)) with (exact m db1).
    change (rows_of (rw_id m) (setIndexProgress _ _ _ _ _ db1)) with (rows_of (rw_id m) db1).
    destruct (Hce m Hm) as [Hcrow Hccur]. destruct (Hle m Hm) as [Hout Hin]. rewrite elem_of_seqZ in Hout, Hin.
    destruct (page_entry db (clear_range s finalWatermark db) db1 finalWatermark m Hi Hm) as [Hcov Hah];
      [lia|done|done|done|intros Hn; apply Hout; lia|intros Hn; apply Hin; lia|].
    split; [left; by apply Hcov|done].
Qed.

(** ** Reconciliation *)

(** Reading leaves the index alone: it answers with what [P] allows, or fails. *)
Definition reads {A} (m : M A) (P : A → Prop) : Prop :=
  ∀ w, ∃ r, m w = (r, w) ∧ match r with Ok a => P a | Err _ => True end.

Lemma wp_reads {A} (m : M A) P db (Q : result string A → index_db → Prop) : reads m P →
  (∀ e, Q (Err e) db) → (∀ a, P a → Q (Ok a) db) → wp m db Q.
Proof.
  intros Hm He Ha w Hw <-. destruct (Hm w) as (r & -> & Hr). split; [done|]. cbn [fst snd].
  destruct r as [a|e]; [by apply Ha|apply He].
Qed.

Definition page_of (low high : Z) (messages : list raw_message) : Prop :=
  (∀ m, m ∈ messages → m ∈ src) ∧ ∀ m, m ∈ src → low < rw_ordinal m ≤ high → m ∈ messages.

(** A reader of the session: pages and the count come together, or everything is read. *)
Record serves (source : ReadMessages) : Prop := {
  sv_page : ∀ readPage, rd_page source = Some readPage → ∀ after limit finalWatermark,
    0 ≤ after → 1 ≤ limit → finalWatermark ≤ lengthZ src →
    reads (readPage after limit finalWatermark) (page_of after (Z.min finalWatermark (after + limit)));
  sv_count : ∀ getCount, rd_count source = Some getCount → reads getCount (fun n => n = lengthZ src);
  sv_all : rd_count source = None → reads (rd_all source) (fun messages => messages = src);
  sv_both : rd_count source = None ↔ rd_page source = None
}.

Lemma wp_start db (Q : result string Z → index_db → Prop) : (∀ e, Q (Err e) db) → Q (Ok (page_start s db)) db →
  wp (getMessageIndexReconciliationStartOrdinal s) db Q.
Proof.
  intros He HQ. unfold getMessageIndexReconciliationStartOrdinal. apply wp_bind, wp_query; [done|].
  apply wp_bind, wp_query; [done|]. apply wp_ret. unfold page_start in HQ.
  destruct (floor_of db) as [f|] eqn:Ef; [|done]. pose proof (floor_pos db f Ef). by rewrite Z.max_r in HQ by lia.
Qed.

Lemma wp_through n db (Q : result string bool → index_db → Prop) : (∀ r, Q r db) →
  wp (isMessageIndexReconciledThrough s n) db Q.
Proof.
  intros HQ. unfold isMessageIndexReconciledThrough. apply wp_bind, wp_query; [done|]. apply wp_bind, wp_query; [done|].
  by apply wp_ret.
Qed.

Lemma wp_through_if (b : bool) n db (Q : result string bool → index_db → Prop) : (∀ r, Q r db) →
  wp (if b then isMessageIndexReconciledThrough s n else mret false) db Q.
Proof. intros HQ. destruct b; [by apply wp_through|by apply wp_ret]. Qed.

(** The end of a page starting at the cursor is admissible for [page_inv]. *)
Lemma page_end db finalWatermark : index_inv src db → page_start s db < finalWatermark ≤ lengthZ src →
  let pageEnd := Z.min finalWatermark (page_start s db + RECONCILIATION_BATCH_SIZE) in
  page_start s db < pageEnd ≤ lengthZ src ∧ (∀ f, floor_of db = Some f → f ≤ last_of db → f ≤ pageEnd).
Proof.
  intros Hi Hf pageEnd. unfold pageEnd, RECONCILIATION_BATCH_SIZE. split; [lia|].
  intros f Ef Hle. pose proof (floor_pos db f Ef). unfold page_start in *. rewrite Ef in *. lia.
Qed.

Lemma page_start_nonneg db : index_inv src db → 0 ≤ page_start s db.
Proof. intros Hi. pose proof (iv_bound src db Hi). unfold page_start. destruct (floor_of db); lia. Qed.

(** The messages of one round of the loop. *)
Definition round_messages (source : ReadMessages) (snapshot : list raw_message) (finalWatermark cursor : Z)
    : M (list raw_message) :=
  match rd_page source with
  | Some readPage => readPage cursor RECONCILIATION_BATCH_SIZE finalWatermark
  | None => mret (filter (fun m => cursor < rw_ordinal m ∧ rw_ordinal m ≤ Z.min finalWatermark (cursor + RECONCILIATION_BATCH_SIZE)) snapshot)
  end.

Lemma round_reads source snapshot finalWatermark cursor : serves source → (rd_page source = None → snapshot = src) →
  0 ≤ cursor → finalWatermark ≤ lengthZ src →
  reads (round_messages source snapshot finalWatermark cursor)
    (page_of cursor (Z.min finalWatermark (cursor + RECONCILIATION_BATCH_SIZE))).
Proof.
  intros Hs Hsnap Hc Hf. unfold round_messages. destruct (rd_page source) as [readPage|] eqn:E.
  - by apply (sv_page source Hs).
  - intros w. eexists. split; [done|]. rewrite Hsnap by done. split.
    + intros m [_ Hm]%list_elem_of_filter. done.
    + intros m Hm Ho. by apply list_elem_of_filter.
Qed.

Lemma loop_keeps source snapshot finalWatermark : serves source → (rd_page source = None → snapshot = src) →
  finalWatermark ≤ lengthZ src → ∀ fuel db, index_inv src db →
  wp (reconcile_loop sha256_hex harness fuel s source snapshot finalWatermark (page_start s db)) db
    (fun _ db' => index_inv src db').
Proof.
  intros Hs Hsnap Hf. induction fuel as [|fuel IH]; intros db Hi; cbn [reconcile_loop]; [by apply wp_ret|].
  destruct (Z.ltb_spec (page_start s db) finalWatermark) as [Hlt|]; [|by apply wp_ret].
  destruct (page_end db finalWatermark Hi ltac:(lia)) as [Hend Hfl].
  apply wp_bind. eapply wp_reads; [by apply round_reads; [..|apply page_start_nonneg|]|done|].
  intros messages [Hsub Hsup]. apply wp_bind. unfold indexMessagesAfterOrdinal. apply wp_bind, wp_date. intros now.
  apply wp_access; [done|]. intros n db' [= E].
  destruct (page_inv db messages (Z.min finalWatermark (page_start s db + RECONCILIATION_BATCH_SIZE)) now Hi Hsub Hsup)
    as (Hi' & _ & _); [lia|done|]. rewrite E in Hi'. cbn [snd] in Hi'.
  apply wp_bind, wp_start; [done|]. case_match; [by apply wp_ret|by apply IH].
Qed.

Lemma reconcile_keeps source db : serves source → index_inv src db →
  wp (reconcileSessionIndex sha256_hex harness s source) db (fun _ db' => index_inv src db').
Proof.
  intros Hs Hi. unfold reconcileSessionIndex. apply wp_bind, wp_gets. intros [|]; [by apply wp_ret|].
  apply wp_bind.
  assert (∀ final snapshot, (rd_page source = None → snapshot = src) → final = lengthZ src →
    wp (cursor ← getMessageIndexReconciliationStartOrdinal s;
        reconcile_loop sha256_hex harness (Z.to_nat (final - cursor)) s source snapshot final cursor;;
        through ← isMessageIndexReconciledThrough s final;
        if through : bool then set_reconciled s true else mret ()) db (fun _ db' => index_inv src db')) as Hrest.
  { intros final snapshot Hsnap ->. apply wp_bind, wp_start; [done|]. apply wp_bind.
    eapply wp_mono; [by apply loop_keeps; [..|lia|]|]. intros [u|e] db' Hi'; [|done].
    apply wp_bind, wp_through. intros [[|]|e]; [by apply wp_modify|by apply wp_ret|done]. }
  destruct (rd_count source) as [getCount|] eqn:Ec.
  - apply wp_bind. eapply wp_reads; [by apply (sv_count source Hs)|done|]. intros n ->. apply wp_ret.
    apply Hrest; [|done]. intros Ep. apply (sv_both source Hs) in Ep. congruence.
  - apply wp_bind. eapply wp_reads; [by apply (sv_all source Hs)|done|]. intros messages ->. apply wp_ret.
    by apply Hrest.
Qed.

Lemma clear_keeps db : index_inv src db → wp (clearIndexedMessages s) db (fun _ db' => index_inv src db').
Proof. intros Hi. apply wp_write; [done|]. by apply clear_inv. Qed.

Lemma clear_job_keeps source db : serves source → index_inv src db →
  wp (clear_and_reindex_job sha256_hex harness s source) db (fun _ db' => index_inv src db').
Proof.
  intros Hs Hi. unfold clear_and_reindex_job. apply wp_bind, wp_modify. apply wp_bind, wp_modify. apply wp_catch.
  apply wp_bind, wp_modify. apply wp_bind, wp_modify. apply wp_bind.
  eapply wp_mono; [by apply clear_keeps|]. intros [[]|e] db' Hi'; [|by apply wp_modify].
  eapply wp_mono; [by apply reconcile_keeps|]. intros [u|e] db'' Hi''; [done|by apply wp_modify].
Qed.

Lemma incremental_keeps messageId message db : reads message (fun o => ∀ m, o = Some m → m ∈ src) → index_inv src db →
  wp (incremental_job sha256_hex harness s messageId message) db (fun _ db' => index_inv src db').
Proof.
  intros Hm Hi. unfold incremental_job. apply wp_catch, wp_bind. eapply wp_reads; [done|intros e; by apply wp_modify|].
  intros [m|] Hin; [|by apply wp_ret]. specialize (Hin m eq_refl).
  apply wp_bind, wp_gets. intros [|]; [by apply wp_ret|]. apply wp_bind, wp_query; [intros e; by apply wp_modify|].
  apply wp_bind. set (Q := fun (r : result string bool) db' => _).
  assert (∀ r, Q r db) as HQ; [|case_match; [by apply wp_query|by apply wp_ret]].
  intros [[|]|e]; cbn [Q]; [by apply wp_modify| |by apply wp_modify].
  apply wp_bind, wp_gets. intros was. apply wp_bind, wp_modify. apply wp_bind.
  eapply wp_mono; [by apply single_keeps|]. intros [b|e] db' Hi'; [|by apply wp_modify].
  apply wp_bind, wp_query; [intros e; by apply wp_modify|]. apply wp_bind.
  eapply wp_mono; [exact (wp_through_if was _ db' (fun _ d => d = db') (fun _ => eq_refl))|].
  intros [[|]|e] d ->; [apply wp_bind, wp_modify|apply wp_bind, wp_ret|]; by apply wp_modify.
Qed.

Lemma ensure_keeps read db : reads read (fun messages => messages = src) → index_inv src db →
  wp (ensureMessagesIndexed sha256_hex harness s read) db (fun _ db' => index_inv src db').
Proof.
  intros Hr Hi. unfold ensureMessagesIndexed. apply wp_bind. eapply wp_reads; [done|done|]. intros messages Hmessages.
  pose proof (iv_bound src db Hi) as Hb. destruct messages as [|m0 l]; [by apply clear_keeps|]. rewrite Hmessages.
  apply wp_bind, wp_query; [done|]. rewrite (proj2 (Z.ltb_ge _ _)) by lia. apply wp_bind, wp_ret. apply wp_bind.
  assert (∀ b, (wp (if b : bool then mret () else indexMessagesAfterOrdinal sha256_hex harness s src (lengthZ src);; mret ()) db
    (fun _ db' => index_inv src db'))) as Hrest.
  { intros [|]; [by apply wp_ret|]. apply wp_bind. unfold indexMessagesAfterOrdinal. apply wp_bind, wp_date. intros now.
    apply wp_access; [done|]. intros n db' [= E]. apply wp_ret.
    pose proof (page_start_le db).
    destruct (page_inv db src (lengthZ src) now Hi) as (Hi' & _); [tauto|tauto|lia| |by rewrite E in Hi'].
    intros f _ Hf. lia. }
  case_match; [|apply wp_ret, (Hrest false)]. apply wp_bind, wp_query; [done|]. apply wp_ret, Hrest.
Qed.

End page.

(** ** Reconciliation without faults *)

Section complete.
Context (src : list raw_message) (Hsrc : session_source src).

(** A reader that answers when nothing fails. *)
Record answers (source : ReadMessages) : Prop := {
  an_page : ∀ readPage after limit finalWatermark w, rd_page source = Some readPage → w_pauses w = [] →
    is_ok (readPage after limit finalWatermark w).1;
  an_count : ∀ getCount w, rd_count source = Some getCount → w_pauses w = [] → is_ok (getCount w).1;
  an_all : ∀ w, w_pauses w = [] → is_ok (rd_all source w).1
}.

Lemma ends_reads {A} (m : M A) P (w : world) Q : reads m P → is_ok (m w).1 → w_pauses w = [] → (∀ a, P a → Q a w) → ends m w Q.
Proof.
  intros Hm Hok Hw HQ. destruct (Hm w) as (r & E & Hr). rewrite E in Hok. destruct r as [a|e]; [|done].
  exists a, w. split; [done|]. split; [done|]. by apply HQ.
Qed.

Lemma ends_date (w : world) Q : w_pauses w = [] →
  (∀ t w', w_pauses w' = [] → w_db w' = w_db w → Q t w') → ends Date_now w Q.
Proof.
  intros Hw HQ. unfold Date_now. apply ends_bind, ends_gets; [done|]. intros _. apply ends_bind, ends_modify; [done|].
  intros _. apply ends_ret; [done|]. by apply HQ.
Qed.

Lemma ends_start (w : world) Q : w_pauses w = [] → Q (page_start s (w_db w)) w →
  ends (getMessageIndexReconciliationStartOrdinal s) w Q.
Proof.
  intros Hw HQ. unfold getMessageIndexReconciliationStartOrdinal. apply ends_bind, ends_query; [done|]. intros _.
  apply ends_bind, ends_query; [done|]. intros _. apply ends_ret; [done|]. unfold page_start in HQ.
  destruct (floor_of (w_db w)) as [f|] eqn:Ef; [|done]. pose proof (floor_pos _ f Ef). by rewrite Z.max_r in HQ by lia.
Qed.

(** Every page moves the cursor to its end, so that the rounds counted are enough. *)
Lemma loop_ends source snapshot : serves src source → answers source → (rd_page source = None → snapshot = src) →
  ∀ fuel (w : world), w_pauses w = [] → index_inv src (w_db w) →
  (Z.to_nat (lengthZ src - page_start s (w_db w)) ≤ fuel)%nat →
  ends (reconcile_loop sha256_hex harness fuel s source snapshot (lengthZ src) (page_start s (w_db w))) w
    (fun _ w' => index_inv src (w_db w') ∧ lengthZ src ≤ page_start s (w_db w')).
Proof.
  intros Hs Ha Hsnap. induction fuel as [|fuel IH]; intros w Hw Hi Hfuel; cbn [reconcile_loop].
  { apply ends_ret; [done|]. split; [done|]. lia. }
  destruct (Z.ltb_spec (page_start s (w_db w)) (lengthZ src)) as [Hlt|]; [|by apply ends_ret].
  destruct (page_end src (w_db w) (lengthZ src) Hi ltac:(lia)) as [Hend Hfl]. cbn zeta in Hend, Hfl.
  set (pageEnd := Z.min (lengthZ src) (page_start s (w_db w) + RECONCILIATION_BATCH_SIZE)) in *.
  apply ends_bind. eapply ends_reads; [apply (round_reads src source); [done..|by eapply page_start_nonneg|lia]| |done|].
  { unfold round_messages. destruct (rd_page source) as [readPage|] eqn:E; [by apply (an_page source Ha)|done]. }
  fold pageEnd. intros messages [Hsub Hsup] _. apply ends_bind. unfold indexMessagesAfterOrdinal.
  apply ends_bind, ends_date; [done|]. intros now w1 Hw1 Hdb _.
  destruct (page_inv src Hsrc (w_db w) messages pageEnd now Hi Hsub Hsup) as (Hi' & Hl' & Hf'); [lia|done|].
  eapply ends_access; [done|by rewrite Hdb, <- surjective_pairing|]. intros _.
  set (db' := (index_page _ _ _ _ _ _ _).2) in *.
  assert (page_start s db' = pageEnd) as Hps.
  { unfold page_start. rewrite Hl', Hf'. destruct (floor_of (w_db w)) as [f|]; [|done].
    destruct (Z.ltb_spec pageEnd f); lia. }
  apply ends_bind, ends_start; [done|]. intros _. cbn [w_db]. rewrite Hps, (proj2 (Z.leb_gt _ _)) by lia.
  rewrite <- Hps. apply (IH {| w_db := db'; w_reg := w_reg w1; w_pauses := [] |}); [done|done|]. cbn [w_db]. rewrite Hps.
  unfold RECONCILIATION_BATCH_SIZE in *. lia.
Qed.

(** *** What a complete index holds *)

Lemma Permutation_by_key {A B} `{EqDecision B} (key : A → B) (keys : list B) (l : list A) : NoDup keys →
  (∀ x, x ∈ l → key x ∈ keys) → l ≡ₚ keys ≫= (fun k => filter (fun x => key x = k) l).
Proof.
  revert l. induction keys as [|k keys IH]; intros l Hnd Hl.
  { destruct l as [|x l]; [done|]. destruct (not_elem_of_nil (key x)). apply Hl. by left. }
  apply NoDup_cons in Hnd as [Hk Hnd]. rewrite bind_cons. rewrite <- (filter_app_complement (fun x => key x = k) l) at 1.
  f_equiv. etransitivity; [apply (IH (filter (fun x => key x ≠ k) l)); [done|]|].
  - intros x [Hne Hx]%list_elem_of_filter. specialize (Hl x Hx). by apply elem_of_cons in Hl as [|].
  - clear -Hk. induction keys as [|j keys IH]; [done|]. apply not_elem_of_cons in Hk as [Hj Hk]. rewrite !bind_cons.
    rewrite (IH Hk). f_equiv. rewrite list_filter_filter.
    erewrite list_filter_iff; [done|]. intros x. split; [tauto|]. intros ->. by split.
Qed.

Definition complete (db : index_db) : Prop :=
  filter (fun r => fr_session r = s) (ix_fts db) ≡ₚ src ≫= expected ∧
  (∀ m, m ∈ src → is_current m db = true) ∧ last_of db = lengthZ src ∧ floor_of db = None.

Lemma inv_complete db : index_inv src db → lengthZ src ≤ page_start s db → complete db.
Proof.
  intros Hi Hps. pose proof (iv_bound src db Hi) as Hb. pose proof (page_start_le db) as Hle.
  assert (floor_of db = None) as Hf.
  { unfold page_start in Hps. destruct (floor_of db) as [f|] eqn:Ef; [|done]. exfalso.
    pose proof (iv_floor src db Hi f Ef). pose proof (floor_pos db f Ef). lia. }
  assert (∀ m, m ∈ src → exact m db) as Hex.
  { intros m Hm. pose proof (source_ordinal src Hsrc m Hm). destruct (iv_covered src db Hi m Hm) as [|E]; [lia|done|congruence]. }
  split; [|split; [by intros m Hm; apply Hex|split; [lia|done]]].
  etransitivity; [apply (Permutation_by_key fr_message_id ((fun m => rw_id m) <$> src)); [apply (so_ids src Hsrc)|]|].
  - intros r [Hs Hr]%list_elem_of_filter. destruct (iv_rows src db Hi r Hr Hs) as (m & Hm & -> & _).
    by apply (list_elem_of_fmap_2 (fun m => rw_id m)).
  - clear Hb Hle. assert (∀ l, (∀ m, m ∈ l → m ∈ src) →
      ((fun m => rw_id m) <$> l) ≫= (fun k => filter (fun r => fr_message_id r = k) (filter (fun r => fr_session r = s) (ix_fts db))) =
      l ≫= expected) as ->; [|done|done].
    induction l as [|m l IH]; intros Hl; [done|]. rewrite fmap_cons, !bind_cons. rewrite IH by (intros x Hx; apply Hl; by right).
    f_equal. destruct (Hex m) as [<- _]; [apply Hl; by left|]. unfold rows_of. rewrite list_filter_filter.
    apply list_filter_iff. intros r. unfold of_message. rewrite andb_true_iff, !String.eqb_eq. tauto.
Qed.

Lemma reconcile_ends source (w : world) : serves src source → answers source → w_pauses w = [] →
  index_inv src (w_db w) → s ∉ im_reconciledSessions (w_reg w) →
  ends (reconcileSessionIndex sha256_hex harness s source) w
    (fun _ w' => complete (w_db w') ∧ s ∈ im_reconciledSessions (w_reg w')).
Proof.
  intros Hs Ha Hw Hi Hn. unfold reconcileSessionIndex. apply ends_bind, ends_gets; [done|]. intros _.
  rewrite bool_decide_false by done. apply ends_bind.
  assert (∀ snapshot, (rd_page source = None → snapshot = src) →
    ends (cursor ← getMessageIndexReconciliationStartOrdinal s;
          reconcile_loop sha256_hex harness (Z.to_nat (lengthZ src - cursor)) s source snapshot (lengthZ src) cursor;;
          through ← isMessageIndexReconciledThrough s (lengthZ src);
          if through : bool then set_reconciled s true else mret ()) w
      (fun _ w' => complete (w_db w') ∧ s ∈ im_reconciledSessions (w_reg w'))) as Hrest.
  { intros snapshot Hsnap. apply ends_bind, ends_start; [done|]. intros _. apply ends_bind.
    eapply ends_mono; [by apply loop_ends|]. intros _ w1 Hw1 [Hi1 Hps] _. pose proof (inv_complete _ Hi1 Hps) as Hc.
    destruct Hc as (Hc1 & Hc2 & Hlast & Hfl). apply ends_bind. unfold isMessageIndexReconciledThrough.
    apply ends_bind, ends_query; [done|]. intros _. apply ends_bind, ends_query; [done|]. intros _. apply ends_ret; [done|].
    intros _. rewrite Hlast, Hfl, Z.leb_refl. cbn [andb]. apply ends_modify; [done|]. split; [done|]. cbn. set_solver. }
  destruct (rd_count source) as [getCount|] eqn:Ec.
  - apply ends_bind. eapply ends_reads; [by apply (sv_count src source Hs)|by apply (an_count source Ha)|done|].
    intros n -> _. apply ends_ret; [done|]. intros _. apply Hrest. intros Ep. apply (sv_both src source Hs) in Ep. congruence.
  - apply ends_bind. eapply ends_reads; [by apply (sv_all src source Hs)|by apply (an_all source Ha)|done|].
    intros messages -> _. apply ends_ret; [done|]. intros _. by apply Hrest.
Qed.

Lemma clear_job_ends source (w : world) : serves src source → answers source → w_pauses w = [] →
  ends (clear_and_reindex_job sha256_hex harness s source) w
    (fun _ w' => complete (w_db w') ∧ s ∈ im_reconciledSessions (w_reg w')).
Proof.
  intros Hs Ha Hw. unfold clear_and_reindex_job. apply ends_bind, ends_modify; [done|]. intros _.
  apply ends_bind, ends_modify; [done|]. intros _. apply ends_catch. apply ends_bind, ends_modify; [done|]. intros _.
  apply ends_bind, ends_modify; [done|]. intros _. apply ends_bind, ends_write; [done|]. intros _.
  apply reconcile_ends; [done..|apply clear_inv; done|]. cbn. set_solver.
Qed.

End complete.

(** ** The life of a session *)

(** A call of the process, alone on the database: any access may fail. *)
Definition calls {A} (m : M A) (db : index_db) (r : result string A) (db' : index_db) : Prop :=
  ∃ w, alone w ∧ w_db w = db ∧ (m w).1 = r ∧ w_db (m w).2 = db'.

Lemma wp_calls {A} (m : M A) db Q r db' : wp m db Q → calls m db r db' → Q r db'.
Proof. intros Hm (w & Hw & Hdb & <- & <-). by apply Hm. Qed.

(** What happens to a session and its index: a message arrives; one is indexed; one is
    edited under its id, and the call that follows answers or changes something; others
    are removed, and the index is cleared; the jobs run. *)
Inductive step : list raw_message * index_db → list raw_message * index_db → Prop :=
| step_append src db m : rw_ordinal m = lengthZ src + 1 → rw_id m ∉ (fun m => rw_id m) <$> src →
    step (src, db) (src ++ [m], db)
| step_single src db m r db' : m ∈ src → calls (indexSingleMessage sha256_hex harness s m) db r db' →
    step (src, db) (src, db')
| step_edit src db i m m' r db' : src !! i = Some m → rw_id m' = rw_id m → rw_ordinal m' = rw_ordinal m →
    edit_ok m m' db → calls (indexSingleMessage sha256_hex harness s m') db r db' → (is_ok r ∨ db' ≠ db) →
    step (src, db) (edited src i m', db')
| step_removed src src' db db' : session_source src' → calls (clearIndexedMessages s) db (Ok ()) db' →
    step (src, db) (src', db')
| step_incremental src db messageId message r db' : reads message (fun o => ∀ m, o = Some m → m ∈ src) →
    calls (incremental_job sha256_hex harness s messageId message) db r db' → step (src, db) (src, db')
| step_reconcile src db source r db' : serves src source →
    calls (reconciliation_job sha256_hex harness s source) db r db' → step (src, db) (src, db')
| step_rebuild src db source r db' : serves src source →
    calls (clear_and_reindex_job sha256_hex harness s source) db r db' → step (src, db) (src, db')
| step_ensure src db read r db' : reads read (fun messages => messages = src) →
    calls (ensureMessagesIndexed sha256_hex harness s read) db r db' → step (src, db) (src, db').

Definition good (st : list raw_message * index_db) : Prop := session_source st.1 ∧ index_inv st.1 st.2.

Lemma append_source src m : session_source src → rw_ordinal m = lengthZ src + 1 → rw_id m ∉ (fun m => rw_id m) <$> src →
  session_source (src ++ [m]).
Proof.
  intros Hsrc Ho Hid. split.
  - intros i x [Hx|[Hi Hx]]%lookup_app_Some; [by apply (so_numbered src Hsrc)|].
    apply list_lookup_singleton_Some in Hx as [Hi' ->]. unfold lengthZ in Ho. lia.
  - rewrite fmap_app. apply NoDup_app. split; [apply (so_ids src Hsrc)|]. split; [|apply NoDup_singleton].
    intros x Hx ->%list_elem_of_singleton. done.
Qed.

Lemma append_inv src db m : index_inv src db → rw_ordinal m = lengthZ src + 1 → rw_id m ∉ (fun m => rw_id m) <$> src →
  index_inv (src ++ [m]) db.
Proof.
  intros Hi Ho Hid. pose proof (iv_bound src db Hi) as Hb.
  assert (lengthZ (src ++ [m]) = lengthZ src + 1) as Hl by (unfold lengthZ; rewrite length_app; cbn; lia).
  apply inv_intro; rewrite ?Hl.
  - lia.
  - intros f Hf. pose proof (iv_floor src db Hi f Hf). lia.
  - intros r Hr Hs. destruct (iv_rows src db Hi r Hr Hs) as (x & Hx & E). exists x. split; [|done].
    apply elem_of_app. by left.
  - intros x [Hx|Hx]%elem_of_app; [by eapply inv_entry|]. apply list_elem_of_singleton in Hx as ->. split; [lia|].
    intros _. left. apply filter_none. intros r Hr [E1%String.eqb_eq E2%String.eqb_eq]%andb_true_iff.
    destruct (iv_rows src db Hi r Hr E1) as (x & Hx & E & _). apply Hid. rewrite <- E2, E.
    by apply (list_elem_of_fmap_2 (fun m => rw_id m)).
Qed.

Lemma step_good st st' : step st st' → good st → good st'.
Proof.
  intros Hstep [Hsrc Hi]. unfold good. destruct Hstep as
    [src db m Ho Hid|src db m r db' Hm Hc|src db i m m' r db' Hm Hid Ho Hok Hc Hr|src src' db db' Hsrc' Hc
    |src db messageId message r db' Hm Hc|src db source r db' Hs Hc|src db source r db' Hs Hc|src db read r db' Hr Hc];
    cbn [fst snd] in *.
  - split; [by apply append_source|by apply append_inv].
  - split; [done|]. exact (wp_calls _ _ _ _ _ (single_keeps src Hsrc m db Hi Hm) Hc).
  - split; [by eapply edited_source|].
    destruct (wp_calls _ _ _ _ _ (edit_keeps src Hsrc i m m' Hm Hid Ho db Hi Hok) Hc) as [|[-> (e & ->)]]; [done|].
    by destruct Hr.
  - split; [done|]. refine (wp_calls _ _ (fun r db' => r = Ok () → index_inv src' db') _ _ _ Hc eq_refl).
    apply wp_write; [done|]. intros _. by apply clear_inv.
  - split; [done|]. exact (wp_calls _ _ _ _ _ (incremental_keeps src Hsrc messageId message db Hm Hi) Hc).
  - split; [done|]. refine (wp_calls _ _ (fun _ db' => index_inv src db') _ _ _ Hc). apply wp_catch.
    eapply wp_mono; [by apply reconcile_keeps|]. intros [u|e] d Hd; [done|by apply wp_ret].
  - split; [done|]. exact (wp_calls _ _ _ _ _ (clear_job_keeps src Hsrc source db Hs Hi) Hc).
  - split; [done|]. exact (wp_calls _ _ _ _ _ (ensure_keeps src Hsrc read db Hr Hi) Hc).
Qed.

Definition untouched (db : index_db) : Prop :=
  (∀ r, r ∈ ix_fts db → fr_session r ≠ s) ∧ ix_index db !! s = None.

Lemma start_good db : untouched db → good ([], db).
Proof.
  intros [Hf Hn]. split; [split; [done|constructor]|].
  assert (last_of db = 0) as Hw by (unfold getLastIndexedOrdinal; by rewrite Hn).
  apply inv_intro; cbn [fst snd].
  - by rewrite Hw.
  - unfold getDirtyIndexFloor. by rewrite Hn.
  - intros r Hr Hs. by destruct (Hf r Hr).
  - intros m Hm. by apply not_elem_of_nil in Hm.
Qed.

Lemma steps_good st st' : rtc step st st' → good st → good st'.
Proof. induction 1 as [|st1 st2 st3 Hstep _ IH]; [done|]. intros Hg. by eapply IH, step_good. Qed.

End spec.

(** ** The host's database as a source *)

Section host.
Context `{JsonEngine} `{SqliteJson} (ocdb : opencode_db) (s : string) (Hkeyed : keyed ocdb) (Hagree : summaries_agree ocdb).

(** readRawSessionMessages with its readPage and getCount. *)
Definition opencode_source : ReadMessages :=
  {| rd_all := mret (readRawSessionMessagesFromDb ocdb s);
     rd_page := Some (fun after limit finalWatermark =>
       mret (readRawSessionMessagePageFromDb ocdb s after limit (Some finalWatermark)));
     rd_count := Some (mret (countRawSessionMessageOrdinalsFromDb ocdb s)) |}.

Definition host_messages : list raw_message := (reference ocdb s).*2.

Lemma host_lookup i m : host_messages !! i = Some m → ∃ row, slots ocdb s !! i = Some row ∧ rw_id m = mr_id row ∧ rw_ordinal m = Z.of_nat i + 1.
Proof.
  unfold host_messages, reference. rewrite list_lookup_fmap, list_lookup_imap.
  destruct (slots ocdb s !! i) as [row|]; [|done]. intros [= <-]. by exists row.
Qed.

Lemma host_source : session_source host_messages.
Proof.
  split; [intros i m (row & _ & _ & Ho)%host_lookup; done|].
  assert ((fun m => rw_id m) <$> host_messages = mr_id <$> slots ocdb s) as ->.
  { apply list_eq. intros i. unfold host_messages. rewrite !list_lookup_fmap. unfold reference. rewrite list_lookup_imap.
    by destruct (slots ocdb s !! i). }
  by apply slots_keyed with (db := ocdb) (s := s).
Qed.

Lemma host_serves : serves host_messages opencode_source.
Proof.
  pose proof host_source as Hsrc.
  assert (countRawSessionMessageOrdinalsFromDb ocdb s = lengthZ host_messages) as Hcount.
  { unfold countRawSessionMessageOrdinalsFromDb, host_messages, reference, lengthZ.
    by rewrite (counted_slots ocdb s Hagree), length_fmap, length_imap. }
  split; cbn [opencode_source rd_page rd_count rd_all]; [| |done|by split].
  - intros readPage [= <-] after limit finalWatermark Ha Hl Hf w. eexists. split; [done|].
    rewrite (page_read ocdb s Hagree) by done. rewrite fmap_take, fmap_drop. fold host_messages. cbn [default]. split.
    + intros m Hm%elem_of_take. destruct Hm as (i & Hi & _). rewrite lookup_drop in Hi. by eapply list_elem_of_lookup_2.
    + intros m Hm Ho. apply list_elem_of_lookup in Hm as (i & Hi). pose proof (so_numbered _ Hsrc i m Hi) as Hn.
      apply elem_of_take. exists (i - Z.to_nat after)%nat. rewrite lookup_drop.
      replace (Z.to_nat after + (i - Z.to_nat after))%nat with i by lia. split; [done|]. cbn. lia.
  - intros getCount [= <-] w. eexists. split; [done|]. exact Hcount.
Qed.

Lemma host_answers : answers opencode_source.
Proof. split; [by intros ? ? ? ? ? [= <-] _|by intros ? ? [= <-] _|done]. Qed.

End host.

(** ** Properties *)

(** C15: The index answers for what it claims to have covered. Start from a session
    without rows, with one process on the database; let messages arrive, be indexed one
    by one, be edited one at a time (no other message is at the dirty floor, a message
    past the watermark has no row yet, a new content has a new hash, the call that
    follows answers or changes something), be removed with a clear of the index that
    succeeds, and let reconciliation, rebuilds and full passes run over the messages the
    session has; any other statement or transaction may fail. Then every message up to
    the watermark is indexed by its present text and recorded as current, except the one
    at the dirty floor; a message beyond it has its own rows or none; and no row is left
    of a message the session does not have. *)
Theorem index_covers `{JsonEngine} sha256_hex harness s src db0 db :
  untouched s db0 → rtc (step sha256_hex harness s) ([], db0) (src, db) →
  (∀ m, m ∈ src → rw_ordinal m ≤ getLastIndexedOrdinal s db →
     getDirtyIndexFloor s db = Some (rw_ordinal m) ∨
     (rows_of s (rw_id m) db = expected sha256_hex s m ∧ isMessageIndexSourceCurrent sha256_hex s m db = true)) ∧
  (∀ m, m ∈ src → getLastIndexedOrdinal s db < rw_ordinal m →
     rows_of s (rw_id m) db = [] ∨ rows_of s (rw_id m) db = expected sha256_hex s m) ∧
  (∀ r, r ∈ ix_fts db → fr_session r = s → ∃ m, m ∈ src ∧ fr_message_id r = rw_id m ∧ fr_ordinal r = rw_ordinal m) ∧
  0 ≤ getLastIndexedOrdinal s db ≤ lengthZ src ∧ (∀ f, getDirtyIndexFloor s db = Some f → 1 ≤ f ≤ lengthZ src).
Proof.
  intros H0 Hsteps. destruct (steps_good _ _ _ _ _ Hsteps (start_good sha256_hex s db0 H0)) as [Hsrc Hi].
  cbn [fst snd] in *. split_and!.
  - intros m Hm Ho. by destruct (iv_covered _ _ _ _ Hi m Hm Ho) as [He|Hf]; [right|left].
  - apply (iv_ahead _ _ _ _ Hi).
  - apply (iv_rows _ _ _ _ Hi).
  - apply (iv_bound _ _ _ _ Hi).
  - apply (iv_bound _ _ _ _ Hi).
  - intros f Hf. pose proof (iv_floor _ _ _ _ Hi f Hf). pose proof (floor_pos _ _ _ Hf). lia.
Qed.

(** C16: Reconciliation of the host's session ends with the index of that session. The
    ids of the host's rows are distinct, and its SQL conditions recognise the summaries
    the code does. Without faults, from an index that answers for what it covers, the
    loop over the pages ends after at most as many rounds as there are messages, and the
    session's rows are exactly those of its messages, every message recorded as current,
    the watermark at their number, no dirty floor, and the session remembered as
    reconciled; a rebuild gets there from any database at all. *)
Theorem reconciliation_completes `{JsonEngine} `{SqliteJson} sha256_hex harness ocdb s (w : world) :
  keyed ocdb → summaries_agree ocdb → w_pauses w = [] →
  let src := host_messages ocdb s in
  let completes (job : M unit) := ∃ w', job w = (Ok (), w') ∧
    filter (fun r => fr_session r = s) (ix_fts (w_db w')) ≡ₚ src ≫= expected sha256_hex s ∧
    (∀ m, m ∈ src → isMessageIndexSourceCurrent sha256_hex s m (w_db w') = true) ∧
    getLastIndexedOrdinal s (w_db w') = lengthZ src ∧ getDirtyIndexFloor s (w_db w') = None ∧
    s ∈ im_reconciledSessions (w_reg w') in
  (index_inv sha256_hex s src (w_db w) → s ∉ im_reconciledSessions (w_reg w) →
   completes (reconciliation_job sha256_hex harness s (opencode_source ocdb s))) ∧
  completes (clear_and_reindex_job sha256_hex harness s (opencode_source ocdb s)).
Proof.
  intros Hk Ha Hw src completes. pose proof (host_source ocdb s Hk) as Hsrc.
  pose proof (host_serves ocdb s Hk Ha) as Hserves. pose proof (host_answers ocdb s) as Hans.
  assert (∀ job, ends job w (fun _ w' => complete sha256_hex s src (w_db w') ∧ s ∈ im_reconciledSessions (w_reg w')) →
    completes job) as Hends.
  { intros job ([] & w' & E & _ & (Hr & Hc & Hl & Hf) & Hm). exists w'. by split_and!. }
  split; [intros Hi Hn|]; apply Hends; [unfold reconciliation_job; apply ends_catch, reconcile_ends|apply clear_job_ends]; done.
Qed.

(** ** Witnesses *)

#[local] Existing Instance integer_engine.
#[local] Existing Instance parsed_sqlite.

Definition said (id role content : string) (ordinal : Z) : raw_message :=
  {| rw_message := {| rm_ordinal := ordinal; rm_id := id; rm_role := role;
                      rm_parts := [VObj [("type", VStr "text"); ("text", VStr content)]%string] |};
     rw_createdAt := None; rw_version := Some 1; rw_partVersions := [] |}.

Definition no_index : index_db :=
  {| ix_fts := []; ix_source := ∅; ix_index := ∅; ix_depth := []; ix_sweep := None |}.

Definition index_world (db : index_db) (pauses : list (pause string index_db)) : world :=
  {| w_db := db;
     w_reg := {| im_reconciledSessions := ∅; im_completedIncrementalKeys := ∅; im_clock := Z.of_nat; im_reads := 0 |};
     w_pauses := pauses |}.

Definition after {A} (m : M A) (db : index_db) (pauses : list (pause string index_db)) : index_db :=
  w_db (m (index_world db pauses)).2.

(** The pauses of a call whose access after [n] others fails. *)
Definition failing (n : nat) : list (pause string index_db) :=
  replicate n no_pause ++ [{| p_commits := []; p_fault := Some (late "locked"%string) |}].

Abbreviation hash := (fun content : string => content).
Abbreviation one := (indexSingleMessage hash "opencode" "s").

Definition list_source (src : list raw_message) : ReadMessages := {| rd_all := mret src; rd_page := None; rd_count := None |}.

Lemma list_serves src : serves src (list_source src).
Proof. split; [done|done| |done]. intros _ w. by eexists. Qed.

Definition u1 := said "u1" "user" "hello" 1.
Definition u1_edited := said "u1" "user" "hello again" 1.
Definition a2 := said "a2" "assistant" "world" 2.

(** A message whose transaction fails, indexed again, edited, then the next reconciled. *)
Definition life_1 : index_db := after (incremental_job hash "opencode" "s" "u1" (mret (Some u1))) no_index (failing 5).
Definition life_2 : index_db := after (one u1) life_1 [].
Definition life_3 : index_db := after (one u1_edited) life_2 [].
Definition life_4 : index_db := after (reconciliation_job hash "opencode" "s" (list_source [u1_edited; a2])) life_3 [].

Lemma after_calls {A} (m : M A) db pauses : alone (index_world db pauses) →
  calls m db (m (index_world db pauses)).1 (after m db pauses).
Proof. intros Hw. by exists (index_world db pauses). Qed.

Lemma index_life_steps : rtc (step hash "opencode" "s") ([], no_index) ([u1_edited; a2], life_4).
Proof.
  apply (rtc_l _ _ ([u1], no_index)); [apply (step_append _ _ _ []); [done|cbn; set_solver]|].
  apply (rtc_l _ _ ([u1], life_1)).
  { eapply (step_incremental _ _ _ _ _ "u1" (mret (Some u1))); [|apply after_calls; unfold alone, honest; by repeat constructor].
    intros w. eexists. split; [done|]. intros m [= <-]. by left. }
  apply (rtc_l _ _ ([u1], life_2)); [eapply step_single; [by left|by apply after_calls; constructor]|].
  apply (rtc_l _ _ ([u1_edited], life_3)).
  { eapply (step_edit _ _ _ [u1] _ 0%nat u1 u1_edited); [done..| |by apply after_calls; constructor|by left; vm_compute].
    split; [|by vm_compute|by vm_compute]. intros f Hf. vm_compute in Hf. done. }
  apply (rtc_l _ _ ([u1_edited; a2], life_3)); [apply (step_append _ _ _ [u1_edited]); [done|cbn; set_solver]|].
  apply rtc_once. eapply step_reconcile; [apply list_serves|by apply after_calls; constructor].
Qed.

Lemma index_covers_witness :
  untouched "s" (no_index) ∧
  rtc (step hash "opencode" "s") ([], no_index) ([u1_edited; a2], life_4) ∧
  rows_of "s" "u1" life_1 = [] ∧
  (getDirtyIndexFloor "s" life_4 = Some 1 ∨
   rows_of "s" "u1" life_4 = expected hash "s" u1_edited ∧
   isMessageIndexSourceCurrent hash "s" u1_edited life_4 = true).
Proof.
  assert (untouched "s" (no_index)) as H0 by (split; [intros r Hr; by apply not_elem_of_nil in Hr|done]).
  split; [exact H0|]. split; [apply index_life_steps|]. split; [vm_compute; reflexivity|].
  apply (proj1 (index_covers hash "opencode" "s" _ _ _ H0 index_life_steps) u1_edited); [by left|vm_compute; discriminate].
Defined.

Lemma reconciliation_completes_witness :
  keyed sample_session_db ∧ summaries_agree sample_session_db ∧
  let w := index_world life_4 [] in
  ∃ w', clear_and_reindex_job hash "opencode" "s" (opencode_source sample_session_db "s") w = (Ok (), w') ∧
    getLastIndexedOrdinal "s" (w_db w') = 3.
Proof.
  split; [apply sample_session_keyed|]. split; [apply sample_session_agrees|]. intros w.
  destruct (reconciliation_completes hash "opencode" sample_session_db "s" w sample_session_keyed sample_session_agrees eq_refl)
    as [_ (w' & E & _ & _ & Hl & _)].
  exists w'. split; [exact E|]. rewrite Hl. vm_compute. reflexivity.
Defined.

(** Two edits whose transactions fail, more than a page apart: the page that rebuilds the
    first drops the floor, and the row of the second stays while it is recorded as current. *)
Definition hundred : list raw_message := (fun i => said (pretty i) "user" ("old " ++ pretty i) i) <$> seqZ 1 102.
Definition edit_1 := said "1" "user" "new 1" 1.
Definition edit_102 := said "102" "user" "new 102" 102.
Definition hundred_edited : list raw_message := <[101%nat := edit_102]> (<[0%nat := edit_1]> hundred).

Example second_edit_lost :
  let indexed := after (reconciliation_job hash "opencode" "s" (list_source hundred)) no_index [] in
  let marked := after (one edit_102) (after (one edit_1) indexed (failing 5)) (failing 5) in
  let db := after (reconciliation_job hash "opencode" "s" (list_source hundred_edited)) marked [] in
  getDirtyIndexFloor "s" marked = Some 1 ∧
  getLastIndexedOrdinal "s" db = 102 ∧ getDirtyIndexFloor "s" db = None ∧
  fr_content <$> rows_of "s" "1" db = ["new 1"]%string ∧
  fr_content <$> rows_of "s" "102" db = ["old 102"]%string ∧
  isMessageIndexSourceCurrent hash "s" edit_102 db = true.
Proof. vm_compute. by split_and!. Qed.

(** Another process clears the index between the read of the watermark and the mark: the
    mark brings the watermark back, and the first message is never indexed again. *)
Example watermark_resurrected :
  let indexed := after (reconciliation_job hash "opencode" "s" (list_source [u1; a2])) no_index [] in
  let clearing := [no_pause; no_pause; no_pause; no_pause; {| p_commits := [clear_index "s"]; p_fault := None |}] in
  let marked := after (one (said "a2" "assistant" "world!" 2)) indexed clearing in
  let db := after (reconciliation_job hash "opencode" "s" (list_source [u1; said "a2" "assistant" "world!" 2])) marked [] in
  getLastIndexedOrdinal "s" db = 2 ∧ getDirtyIndexFloor "s" db = None ∧
  rows_of "s" "u1" db = [] ∧ fr_content <$> rows_of "s" "a2" db = ["world!"]%string.
Proof. vm_compute. by split_and!. Qed.
