(* ===== verification/SessionSource.v ===== *)
(** * Where the messages and the boundary context of a session come from

    Models the sources and caches of packages/plugin/src/hooks/magic-context/
    read-session-chunk.ts (withRawSessionMessageCache, the priming of tails,
    readRawSessionMessages), resolveBoundaryContext and getRawHistoryEligibility of
    protected-tail-boundary.ts, and the statements they run: the ends of
    features/magic-context/compartment-storage.ts, storage-ops.ts, and the scans of
    storage-tags.ts.  Every statement is an access to a database that other processes
    write to and may fail ([Access]). *)

From stdpp Require Import sorting.
From S2P Require Import Prelude JsNumber JsMap JsValue JsString JsJson TokenEstimate TokenIndex SessionText Budgets Boundary SessionChunk Tagger Reclaim SessionRow RawSession SessionMeta Access.

(** ** Tables *)

(** A row of [tags] with its status. *)
Record tag_row := { tg_row : Tagger.row; tg_status : TagStatus }.

Record PendingOpRow := {
  po_id : Z; po_session : string; po_tag : Z; po_operation : string; po_queued_at : Z; po_harness : string
}.

(** The columns of [compartments] these statements read. *)
Record compartment_end := { ce_session : string; ce_sequence : Z; ce_end_message : Z; ce_end_message_id : option string }.

(** The database of the plugin, and the host's when it exists. *)
Record session_db := {
  sd_meta : SessionRow.database;
  sd_tags : list tag_row;
  sd_pending : list PendingOpRow;
  sd_next_pending : Z;
  sd_compartments : list compartment_end;
  sd_host : option opencode_db
}.

Definition with_meta (meta : SessionRow.database) (db : session_db) : session_db :=
  {| sd_meta := meta; sd_tags := sd_tags db; sd_pending := sd_pending db; sd_next_pending := sd_next_pending db;
     sd_compartments := sd_compartments db;
     sd_host := sd_host db |}.

Definition with_pending (f : list PendingOpRow → list PendingOpRow) (next : Z) (db : session_db) : session_db :=
  {| sd_meta := sd_meta db; sd_tags := sd_tags db; sd_pending := f (sd_pending db); sd_next_pending := next;
     sd_compartments := sd_compartments db; sd_host := sd_host db |}.

(** A provider of the messages of a session; only readMessages is required. *)
Record RawMessageProvider := {
  pv_readMessages : result sql_error (list raw_message);
  pv_readMessagePage : option (Z → Z → Z → result sql_error (list raw_message));
  pv_readMessageById : option (string → result sql_error (option raw_message));
  pv_readMessagePartsById : option (string → result sql_error (option RawMessageParts));
  pv_readMessageOrdinalPage : option (option RawMessageOrdinalAnchor → Z → result sql_error (list RawMessageOrdinalEntry));
  pv_getMessageCount : option (result sql_error Z);
  pv_getStoredMessageCount : option (result sql_error Z)
}.

(** activeRawMessageCache and activeAbsoluteCountCache, which live and die together. *)
Record raw_caches := { rc_messages : gmap string (list RawMessage); rc_counts : gmap string Z }.

Record source_memory := {
  so_caches : option raw_caches;
  so_providers : gmap string RawMessageProvider;
  so_estimates : estimate_cache;
  so_blocks : block_memo;
  so_clock : nat → num;
  so_reads : nat
}.

Abbreviation M := (Access.M sql_error session_db source_memory).
Abbreviation world := (Access.world sql_error session_db source_memory).

Definition set_caches (caches : option raw_caches) : M unit :=
  modify (fun m => {| so_caches := caches; so_providers := so_providers m; so_estimates := so_estimates m;
                      so_blocks := so_blocks m; so_clock := so_clock m; so_reads := so_reads m |}).

Definition set_estimates (estimates : estimate_cache) : M unit :=
  modify (fun m => {| so_caches := so_caches m; so_providers := so_providers m; so_estimates := estimates;
                      so_blocks := so_blocks m; so_clock := so_clock m; so_reads := so_reads m |}).

Definition set_blocks (blocks : block_memo) : M unit :=
  modify (fun m => {| so_caches := so_caches m; so_providers := so_providers m; so_estimates := so_estimates m;
                      so_blocks := blocks; so_clock := so_clock m; so_reads := so_reads m |}).

Definition Date_now : M num :=
  t ← gets (fun m => so_clock m (so_reads m));
  modify (fun m => {| so_caches := so_caches m; so_providers := so_providers m; so_estimates := so_estimates m;
                      so_blocks := so_blocks m; so_clock := so_clock m; so_reads := S (so_reads m) |});;
  mret t.

(** An answer that may be an error. *)
Definition answer {A} (r : result sql_error A) : M A := match r with Ok a => mret a | Err e => throw e end.

(** ** Compartments and pending operations *)

Definition compartments_of (sessionId : string) (db : session_db) : list compartment_end :=
  filter (fun c => ce_session c = sessionId) (sd_compartments db).

Definition getLastCompartmentEndMessage (sessionId : string) (db : session_db) : Z :=
  default (-1) (greatest (ce_end_message <$> compartments_of sessionId db)).

(** [ORDER BY sequence DESC LIMIT 1]; an empty id is none. *)
Definition getLastCompartmentEndMessageId (sessionId : string) (db : session_db) : option string :=
  c ← head (js_sort (fun a b => ce_sequence b - ce_sequence a) (compartments_of sessionId db));
  id ← ce_end_message_id c;
  if String.eqb id EmptyString then None else Some id.

(** Ids are never used again (AUTOINCREMENT). *)
Definition queuePendingOp (harness sessionId : string) (tagId : Z) (operation : string) (queuedAt : Z) (db : session_db)
    : session_db :=
  with_pending (fun ops => ops ++ [{| po_id := sd_next_pending db; po_session := sessionId; po_tag := tagId;
                                      po_operation := operation; po_queued_at := queuedAt; po_harness := harness |}])
    (sd_next_pending db + 1) db.

(** [ORDER BY queued_at ASC, id ASC]. *)
Definition by_queue (a b : PendingOpRow) : Z :=
  if po_queued_at a =? po_queued_at b then po_id a - po_id b else po_queued_at a - po_queued_at b.

Definition getPendingOps (sessionId : string) (db : session_db) : list PendingOpRow :=
  filter (fun op => po_operation op = "drop"%string)
    (js_sort by_queue (filter (fun op => po_session op = sessionId) (sd_pending db))).

Definition clearPendingOps (sessionId : string) (db : session_db) : session_db :=
  with_pending (filter (fun op => po_session op ≠ sessionId)) (sd_next_pending db) db.

Definition removePendingOp (sessionId : string) (tagId : Z) (db : session_db) : session_db :=
  with_pending (filter (fun op => ¬ (po_session op = sessionId ∧ po_tag op = tagId))) (sd_next_pending db) db.

(** ** Scans of the tags *)

Fixpoint skip_digits (l : list Z) : list Z :=
  match l with
  | u :: l' => if is_digit u then skip_digits l' else l
  | [] => []
  end.

(** [id.replace(/:(?:p|file)\d+$/, "")]: the units are read from the end. *)
Definition strip_content_suffix (id : string) : string :=
  let units := rev (code_units id) in
  let before := skip_digits units in
  let marked suffix := strip_prefix Z.eqb (rev (code_units suffix)) before in
  if lengthZ before =? lengthZ units then id
  else match marked ":p"%string, marked ":file"%string with
       | Some rest, _ | None, Some rest => of_code_units (rev rest)
       | None, None => id
       end.

Definition ownerMessageIdForTagRow (r : Tagger.row) : string :=
  if is_tool r then default (r_message r) (r_owner r) else strip_content_suffix (r_message r).

(** [session_id = ?], and [tag_number >= ?] when there is a floor. *)
Definition scanned (sessionId : string) (floor : Z) (t : tag_row) : bool :=
  in_session sessionId (tg_row t) && ((floor <=? 0) || (floor <=? r_number (tg_row t))).

Definition is_live (t : tag_row) : bool :=
  bool_decide (tg_status t = Reclaim.active) || bool_decide (tg_status t = Reclaim.dropped).

Definition weight (c : TagTokenCounts) : Z :=
  default 0 (tokenCount c) + default 0 (inputTokenCount c) + default 0 (reasoningTokenCount c).

Definition live_rows (sessionId : string) (floor : Z) (db : session_db) : list tag_row :=
  filter (fun t => scanned sessionId floor t && is_live t = true) (sd_tags db).

Record TriggerBound := { tb_bound : Z; tb_nullCount : Z }.

Definition getTriggerTagTokenUpperBound (sessionId : string) (floor : Z) (db : session_db) : TriggerBound :=
  let rows := live_rows sessionId floor db in
  {| tb_bound := foldl (fun sum t => sum + weight (r_counts (tg_row t))) 0 rows;
     tb_nullCount := lengthZ (filter (fun t => tokenCount (r_counts (tg_row t)) = None) rows) |}.

(** One row of getAllStatusTagTokenTotalsFlat: the totals and the ids known to be null. *)
Definition total_row (st : jsmap string Z * gset string) (t : tag_row) : jsmap string Z * gset string :=
  let '(totals, nullMessageIds) := st in
  let r := tg_row t in
  if is_tool r && match r_owner r with None => true | Some _ => false end then st
  else
    let owner := ownerMessageIdForTagRow r in
    match tokenCount (r_counts r) with
    | None => (JsMap.delete totals owner, {[owner]} ∪ nullMessageIds)
    | Some _ =>
        if bool_decide (owner ∈ nullMessageIds) then st
        else (JsMap.set totals owner (default 0 (JsMap.get totals owner) + weight (r_counts r)), nullMessageIds)
    end.

Definition getAllStatusTagTokenTotalsFlat (sessionId : string) (floor : Z) (db : session_db)
    : jsmap string Z * gset string :=
  foldl total_row ([], ∅) (filter (fun t => scanned sessionId floor t = true) (sd_tags db)).

Definition getMinMessageTagNumberForRawId (sessionId rawId : string) (db : session_db) : option Z :=
  if includes rawId ":" then None
  else least ((fun t => r_number (tg_row t)) <$>
         filter (fun t => in_session sessionId (tg_row t) &&
                          (0 <=? str_cmp (r_message (tg_row t)) (rawId ++ ":")) &&
                          (str_cmp (r_message (tg_row t)) (rawId ++ ";") <? 0) = true) (sd_tags db)).

Definition TAGGER_FLOOR_SCAN_MESSAGES : Z := 8.
Definition TAGGER_FLOOR_MAX_PROBES : Z := 64.
Definition TAGGER_FLOOR_SAFETY_MARGIN : Z := 256.
Definition TAGGER_FLOOR_PER_SKIP_MARGIN : Z := 64.

(** The loop over the ids: the least number, the probes, the hits and the misses before the
    first hit. *)
Fixpoint probe_ids (sessionId : string) (rawIds : list string) (min : option Z) (probes hits skipped : Z)
    : M (option Z * Z) :=
  match rawIds with
  | [] => mret (min, skipped)
  | rawId :: rawIds =>
      if String.eqb rawId EmptyString then probe_ids sessionId rawIds min probes hits skipped
      else if TAGGER_FLOOR_MAX_PROBES <=? probes then mret (min, skipped)
      else
        m ← query (getMinMessageTagNumberForRawId sessionId rawId);
        match m with
        | None => probe_ids sessionId rawIds min (probes + 1) hits (if hits =? 0 then skipped + 1 else skipped)
        | Some m =>
            let min := Some (match min with Some n => Z.min n m | None => m end) in
            if TAGGER_FLOOR_SCAN_MESSAGES <=? hits + 1 then mret (min, skipped)
            else probe_ids sessionId rawIds min (probes + 1) (hits + 1) skipped
        end
  end.

Definition deriveTagLoadFloor (sessionId : string) (rawIds : list string) : M Z :=
  '(min, skippedBeforeFirstHit) ← probe_ids sessionId rawIds None 0 0 0;
  mret (match min with
        | None => 0
        | Some min => Z.max 0 (min - (TAGGER_FLOOR_SAFETY_MARGIN + skippedBeforeFirstHit * TAGGER_FLOOR_PER_SKIP_MARGIN))
        end).

Definition by_number (a b : tag_row) : Z :=
  if r_number (tg_row a) =? r_number (tg_row b) then r_id (tg_row a) - r_id (tg_row b)
  else r_number (tg_row a) - r_number (tg_row b).

(** The entry of a row; the columns selected hold no token counts. *)
Definition toTagEntry (t : tag_row) : option TagEntry :=
  let r := tg_row t in
  byteSize ← r_byte_size r;
  Some {| t_tagNumber := r_number r; t_type := r_type r; t_status := tg_status t; t_toolName := r_tool_name r;
          t_byteSize := byteSize; t_inputByteSize := default 0 (r_input_byte_size r);
          t_reasoningByteSize := r_reasoning_byte_size r; t_tokenCount := None; t_inputTokenCount := None |}.

Definition getActiveTagsBySession (sessionId : string) (db : session_db) : list TagEntry :=
  omap toTagEntry
    (js_sort by_number (filter (fun t => in_session sessionId (tg_row t) && bool_decide (tg_status t = Reclaim.active) = true)
                          (sd_tags db))).

(** ** The messages *)

Section source.
Context `{JsonEngine} `{SqliteJson} `{Engine} `{Tokenizer} (ellipsis harness : string).

Definition readRawSessionMessagesFromSource (sessionId : string) : M (list RawMessage) :=
  provider ← gets (fun m => so_providers m !! sessionId);
  match provider with
  | Some p => messages ← answer (pv_readMessages p); mret (rw_message <$> messages)
  | None =>
      query (fun db => match sd_host db with
                       | None => []
                       | Some host => rw_message <$> readRawSessionMessagesFromDb host sessionId
                       end)
  end.

Definition no_caches : raw_caches := {| rc_messages := ∅; rc_counts := ∅ |}.

Definition withRawSessionMessageCache {A} (fn : M A) : M A :=
  outerCache ← gets so_caches;
  match outerCache with
  | Some _ => fn
  | None => set_caches (Some no_caches);; finally fn (set_caches None)
  end.

(** Keeping the messages of a session, and their absolute number when they are a tail. *)
Definition keep_messages (sessionId : string) (messages : list RawMessage) (count : option Z) : M unit :=
  caches ← gets so_caches;
  match caches with
  | None => mret ()
  | Some c =>
      set_caches (Some {| rc_messages := <[sessionId := messages]> (rc_messages c);
                          rc_counts := match count with None => rc_counts c | Some n => <[sessionId := n]> (rc_counts c) end |})
  end.

Definition readRawSessionMessages (sessionId : string) : M (list RawMessage) :=
  cached ← gets (fun m => so_caches m ≫= fun c => rc_messages c !! sessionId);
  match cached with
  | Some messages => mret messages
  | None => messages ← readRawSessionMessagesFromSource sessionId; keep_messages sessionId messages None;; mret messages
  end.

(** Whether a tail may be kept: there is a cache, nothing in it, and no provider. *)
Definition primable (sessionId : string) (m : source_memory) : bool :=
  match so_caches m with
  | None => false
  | Some c => bool_decide (rc_messages c !! sessionId = None) && bool_decide (so_providers m !! sessionId = None)
  end.

Definition primeTailRawMessageCache (sessionId : string) (lastCompartmentEnd : Z) (anchorMessageId : option string) : M bool :=
  open ← gets (primable sessionId);
  match anchorMessageId with
  | Some anchor =>
      if negb open || (lastCompartmentEnd <? 1) || String.eqb anchor EmptyString then mret false
      else
        result ← query (fun db => host ← sd_host db; readRawSessionTailFromDb host sessionId lastCompartmentEnd anchor);
        match result with
        | None => mret false
        | Some tail =>
            keep_messages sessionId (rw_message <$> rt_messages tail) (Some (rt_absoluteMessageCount tail));; mret true
        end
  | None => mret false
  end.

Definition primeInMemoryTailRawMessageCache (sessionId : string) (messages : list RawMessage) (absoluteMessageCount : Z) : M bool :=
  open ← gets (primable sessionId);
  if open : bool then keep_messages sessionId messages (Some absoluteMessageCount);; mret true else mret false.

Definition getCachedAbsoluteMessageCount (sessionId : string) : M (option Z) :=
  gets (fun m => so_caches m ≫= fun c => rc_counts c !! sessionId).

(** readSessionChunk over what the caches hold. *)
Definition read_chunk (sessionId : string) (tokenBudget : num) (offset : Z) (eligibleEndOrdinal : option Z) : M SessionChunk :=
  messages ← readRawSessionMessages sessionId;
  count ← getCachedAbsoluteMessageCount sessionId;
  blocks ← gets so_blocks;
  let '(chunk, blocks) := readSessionChunk ellipsis messages count tokenBudget offset eligibleEndOrdinal blocks in
  set_blocks blocks;;
  mret chunk.

Definition PROTECTED_TAIL_USER_TURNS : Z := 5.

Definition getLegacyProtectedTailStartOrdinal (sessionId : string) : M Z :=
  messages ← readRawSessionMessages sessionId;
  let userOrdinals :=
    rm_ordinal <$> filter (fun m => String.eqb (rm_role m) "user" && hasMeaningfulUserText (rm_parts m) = true) messages in
  mret (if lengthZ userOrdinals <? PROTECTED_TAIL_USER_TURNS then 1
        else default 0 (userOrdinals !! Z.to_nat (lengthZ userOrdinals - PROTECTED_TAIL_USER_TURNS))).

(** ** The boundary context *)

Record RawHistoryEligibility := {
  rh_lastCompartmentEnd : Z; rh_offset : Z; rh_rawMessageCount : Z; rh_hasRawBeyondLastCompartment : bool
}.

Definition getRawHistoryEligibility (sessionId : string) : M RawHistoryEligibility :=
  lastCompartmentEnd ← query (getLastCompartmentEndMessage sessionId);
  let offset := Z.max 1 (lastCompartmentEnd + 1) in
  absoluteCount ← getCachedAbsoluteMessageCount sessionId;
  rawMessageCount ← match absoluteCount with
                    | Some n => mret n
                    | None => messages ← readRawSessionMessages sessionId; mret (lengthZ messages)
                    end;
  mret {| rh_lastCompartmentEnd := lastCompartmentEnd; rh_offset := offset; rh_rawMessageCount := rawMessageCount;
          rh_hasRawBeyondLastCompartment := offset <=? rawMessageCount |}.

(** A transaction on session_meta. *)
Definition on_meta {A} (f : SessionRow.database → result sql_error (A * SessionRow.database)) : M A :=
  access (fun db => '(a, meta) ← f (sd_meta db); Ok (a, with_meta meta db)).

Definition loadProtectedTailMeta (sessionId : string) : M ProtectedTailMeta :=
  on_meta (fun meta => Ok ((), ensure_row harness sessionId meta));;
  query (fun db => toProtectedTailMeta (sd_meta db !! sessionId)).

Definition markProtectedTailPolicyV3Seeded (sessionId : string) (prior : num) : M (ProtectedTailMeta * bool) :=
  seeded ← on_meta (seed_policy harness sessionId prior);
  meta ← loadProtectedTailMeta sessionId;
  mret (meta, seeded).

(** The arguments of resolveBoundaryContext. *)
Record boundary_args := {
  ba_sessionId : string;
  ba_mode : BoundaryMode;
  ba_contextLimit : num;
  ba_executeThresholdPercentage : num;
  ba_usage : option BoundaryUsage;
  ba_usageSource : option UsageSource;
  ba_emergencyTailScale : option EmergencyTailScale;
  ba_providerShapeVersion : option string;
  ba_cacheNamespace : option string;
  ba_taggerFloor : option Z
}.

(** The columns of the policy hold whole numbers: [floorZ] reads them as ordinals. *)
Definition resolveBoundaryContext (args : boundary_args) : M ResolvedBoundaryContext :=
  let sessionId := ba_sessionId args in
  lastCompartmentEndOrdinal ← query (getLastCompartmentEndMessage sessionId);
  let triggerBudget := deriveTriggerBudget (ba_contextLimit args) (ba_executeThresholdPercentage args) in
  meta ← loadProtectedTailMeta sessionId;
  '(meta, migrationFloorActive) ←
    if nltb (protectedTailPolicyVersion meta) (nofZ 3) then
      legacyBoundary ← catch (getLegacyProtectedTailStartOrdinal sessionId) (mret 1);
      markProtectedTailPolicyV3Seeded sessionId (nofZ (Z.max 1 legacyBoundary))
    else mret (meta, false);
  storedTokenTotals ←
    catch (totals ← query (getAllStatusTagTokenTotalsFlat sessionId (default 0 (ba_taggerFloor args))); mret (Some totals.1))
      (mret None);
  mret {| cx_sessionId := sessionId;
          cx_mode := ba_mode args;
          cx_contextLimit := ba_contextLimit args;
          cx_executeThresholdPercentage := ba_executeThresholdPercentage args;
          cx_triggerBudget := triggerBudget;
          cx_usage := ba_usage args;
          cx_usageSource := default (match ba_usage args with Some _ => us_live | None => us_provisional_zero end)
                              (ba_usageSource args);
          cx_lastCompartmentEndOrdinal := lastCompartmentEndOrdinal;
          cx_priorBoundaryOrdinal := floorZ (priorBoundaryOrdinal meta);
          cx_migrationFloorActive := migrationFloorActive;
          cx_emergencyTailScale := ba_emergencyTailScale args;
          cx_providerShapeVersion := default "opencode-v1"%string (ba_providerShapeVersion args);
          cx_cacheNamespace := default ("opencode:" ++ sessionId)%string (ba_cacheNamespace args);
          cx_createdAt := None;
          cx_storedTokenTotals := storedTokenTotals |}.

(** resolveProtectedTailBoundary over what the caches hold. *)
Definition resolve_boundary (ctx : ResolvedBoundaryContext) : M ProtectedTailBoundarySnapshot :=
  now ← match cx_createdAt ctx with Some t => mret t | None => Date_now end;
  messages ← readRawSessionMessages (cx_sessionId ctx);
  count ← getCachedAbsoluteMessageCount (cx_sessionId ctx);
  estimates ← gets so_estimates;
  let '(snapshot, estimates) :=
    resolveProtectedTailBoundary ctx {| bs_messages := messages; bs_absoluteMessageCount := count; bs_now := now |} estimates in
  set_estimates estimates;;
  mret snapshot.

Definition resolveOpenCodeProtectedTailBoundary (args : boundary_args) : M ProtectedTailBoundarySnapshot :=
  ctx ← resolveBoundaryContext args;
  resolve_boundary ctx.

(** ** The other readers of a session *)

(** A read of the host's database, which raises for a malformed text; a session without
    one has this answer. *)
Definition read_host {A} (absent : A) (f : opencode_db → result string A) : M A :=
  access (fun db => match sd_host db with
                    | None => Ok (absent, db)
                    | Some host => match f host with Ok a => Ok (a, db) | Err e => Err (SessionRow.sqlite_error e) end
                    end).

Definition provider_of (sessionId : string) : M (option RawMessageProvider) := gets (fun m => so_providers m !! sessionId).

Definition readRawSessionMessagePage (sessionId : string) (afterOrdinal limit finalWatermark : Z) : M (list raw_message) :=
  provider ← provider_of sessionId;
  match provider with
  | Some p =>
      match pv_readMessagePage p with
      | Some readPage => answer (readPage afterOrdinal limit finalWatermark)
      | None =>
          messages ← answer (pv_readMessages p);
          mret (take (Z.to_nat limit) (filter (fun m => afterOrdinal < rw_ordinal m ∧ rw_ordinal m ≤ finalWatermark) messages))
      end
  | None =>
      read_host [] (fun host => Ok (readRawSessionMessagePageFromDb host sessionId afterOrdinal limit (Some finalWatermark)))
  end.

(** The number of messages, by what counts it. *)
Definition count_messages (counts : RawMessageProvider → option (result sql_error Z)) (f : opencode_db → result string Z)
    (sessionId : string) : M Z :=
  provider ← provider_of sessionId;
  match provider with
  | Some p =>
      match counts p with
      | Some count => answer count
      | None => messages ← answer (pv_readMessages p); mret (lengthZ messages)
      end
  | None => read_host 0 f
  end.

Definition getRawSessionMessageOrdinalCount (sessionId : string) : M Z :=
  count_messages pv_getMessageCount (fun host => Ok (countRawSessionMessageOrdinalsFromDb host sessionId)) sessionId.

Definition getRawSessionStoredMessageCount (sessionId : string) : M Z :=
  count_messages pv_getStoredMessageCount (fun host => Ok (countStoredRawSessionMessagesFromDb host sessionId)) sessionId.

Definition getRawSessionMessageCount (sessionId : string) : M Z :=
  count_messages pv_getMessageCount (fun host => getRawSessionMessageCountFromDb host sessionId) sessionId.

(** The entry a provider's message stands for. *)
Definition entry_of_message (m : raw_message) : RawMessageOrdinalEntry :=
  {| re_id := rw_id m; re_timeCreated := default (rw_ordinal m) (rw_createdAt m); re_contributesOrdinal := true;
     re_hasValidInfo := true |}.

Definition after_entry (after : option RawMessageOrdinalAnchor) (e : RawMessageOrdinalEntry) : bool :=
  match after with
  | None => true
  | Some a => (ra_timeCreated a <? re_timeCreated e) ||
              ((re_timeCreated e =? ra_timeCreated a) && (0 <? str_cmp (re_id e) (ra_id a)))
  end.

(** [localeCompare] is the host's collation. *)
Definition readRawSessionMessageOrdinalPage (localeCompare : string → string → Z) (sessionId : string)
    (after : option RawMessageOrdinalAnchor) (limit : Z) : M (list RawMessageOrdinalEntry) :=
  provider ← provider_of sessionId;
  match provider with
  | Some p =>
      match pv_readMessageOrdinalPage p with
      | Some readPage => answer (readPage after limit)
      | None =>
          messages ← answer (pv_readMessages p);
          let by_time a b := if re_timeCreated a =? re_timeCreated b then localeCompare (re_id a) (re_id b)
                             else re_timeCreated a - re_timeCreated b in
          mret (take (Z.to_nat (Z.max 1 limit))
                  (js_sort by_time (filter (fun e => after_entry after e = true) (entry_of_message <$> messages))))
      end
  | None => read_host [] (fun host => Ok (readRawSessionMessageOrdinalPageFromDb host sessionId after limit))
  end.

Definition find_by_id (messageId : string) (messages : list raw_message) : option raw_message :=
  head (filter (fun m => rw_id m = messageId) messages).

Definition parts_of_message (m : raw_message) : RawMessageParts :=
  {| rp_id := rw_id m; rp_role := rm_role (rw_message m); rp_parts := rm_parts (rw_message m); rp_createdAt := rw_createdAt m;
     rp_version := rw_version m; rp_partVersions := rw_partVersions m |}.

Definition readRawSessionMessagePartsById (sessionId messageId : string) : M (option RawMessageParts) :=
  provider ← provider_of sessionId;
  match provider with
  | Some p =>
      match pv_readMessagePartsById p, pv_readMessageById p with
      | Some readParts, _ => answer (readParts messageId)
      | None, Some readById => m ← answer (readById messageId); mret (parts_of_message <$> m)
      | None, None => messages ← answer (pv_readMessages p); mret (parts_of_message <$> find_by_id messageId messages)
      end
  | None => read_host None (fun host => Ok (readRawSessionMessagePartsByIdFromDb host sessionId messageId))
  end.

Definition readRawSessionMessageById (sessionId messageId : string) : M (option raw_message) :=
  provider ← provider_of sessionId;
  match provider with
  | Some p =>
      match pv_readMessageById p with
      | Some readById => answer (readById messageId)
      | None => messages ← answer (pv_readMessages p); mret (find_by_id messageId messages)
      end
  | None => read_host None (fun host => readRawSessionMessageByIdFromDb host sessionId messageId)
  end.

(** ** Tag keys of the compacted messages *)

Inductive observation_kind := invocation | result_part.

Record ToolCallObservation := { oc_callId : string; oc_kind : observation_kind }.

Definition has_type (part : value) (type : string) : bool := bool_decide (string_prop part "type" = Some type).

Definition isTextPart (part : value) : bool := has_type part "text" && bool_decide (is_Some (string_prop part "text")).
Definition isFilePart (part : value) : bool := has_type part "file" && bool_decide (is_Some (string_prop part "url")).

Definition extractToolCallObservation (part : value) : option ToolCallObservation :=
  let observed (type key : string) (kind : observation_kind) : option ToolCallObservation :=
    if has_type part type then (fun id => {| oc_callId := id; oc_kind := kind |}) <$> truthy (string_prop part key) else None in
  match observed "tool" "callID" result_part with
  | Some o => Some o
  | None =>
      match observed "tool-invocation" "callID" invocation with
      | Some o => Some o
      | None =>
          match observed "tool_use" "id" invocation with
          | Some o => Some o
          | None => observed "tool_result" "tool_use_id" result_part
          end
      end
  end%string.

Record RawSessionTagKeys := { rk_messageFileKeys : gset string; rk_toolObservations : gmap string (gset string) }.

(** One part: the keys so far and the invocations still waiting for a result. *)
Definition part_keys (messageId : string) (st : RawSessionTagKeys * gmap string (list string)) (e : nat * value)
    : RawSessionTagKeys * gmap string (list string) :=
  let '(keys, waiting) := st in
  let '(partIndex, part) := e in
  let file_key infix := {| rk_messageFileKeys := {[messageId ++ infix ++ str_of_Z (Z.of_nat partIndex)]} ∪ rk_messageFileKeys keys;
                           rk_toolObservations := rk_toolObservations keys |}%string in
  if isTextPart part then (file_key ":p"%string, waiting)
  else if isFilePart part then (file_key ":file"%string, waiting)
  else
    match extractToolCallObservation part with
    | None => st
    | Some obs =>
        let queue := default [] (waiting !! oc_callId obs) in
        let '(ownerMsgId, waiting) :=
          match oc_kind obs, queue with
          | invocation, _ => (messageId, <[oc_callId obs := queue ++ [messageId]]> waiting)
          | result_part, [] => (messageId, waiting)
          | result_part, owner :: [] => (owner, base.delete (oc_callId obs) waiting)
          | result_part, owner :: queue => (owner, <[oc_callId obs := queue]> waiting)
          end in
        ({| rk_messageFileKeys := rk_messageFileKeys keys;
            rk_toolObservations :=
              <[oc_callId obs := {[ownerMsgId]} ∪ default ∅ (rk_toolObservations keys !! oc_callId obs)]> (rk_toolObservations keys) |},
         waiting)
    end.

(** The messages up to the first one past the index. *)
Fixpoint keys_through (upToMessageIndex : Z) (st : RawSessionTagKeys * gmap string (list string)) (messages : list RawMessage)
    : RawSessionTagKeys :=
  match messages with
  | [] => st.1
  | m :: messages =>
      if upToMessageIndex <? rm_ordinal m then st.1
      else keys_through upToMessageIndex (foldl (part_keys (rm_id m)) st (imap pair (rm_parts m))) messages
  end.

Definition getRawSessionTagKeysThrough (sessionId : string) (upToMessageIndex : Z) : M RawSessionTagKeys :=
  messages ← readRawSessionMessages sessionId;
  mret (keys_through upToMessageIndex ({| rk_messageFileKeys := ∅; rk_toolObservations := ∅ |}, ∅) messages).

(** ** The other entry points of the boundary *)

Definition resolve_wrapup_boundary (args : boundary_args) (messagesToKeep : Z) (anchorRawMessageCount : option Z)
    : M WrapupBoundaryPlan :=
  ctx ← resolveBoundaryContext {| ba_sessionId := ba_sessionId args; ba_mode := mode_manual_wrapup;
    ba_contextLimit := ba_contextLimit args; ba_executeThresholdPercentage := ba_executeThresholdPercentage args;
    ba_usage := ba_usage args; ba_usageSource := ba_usageSource args; ba_emergencyTailScale := ba_emergencyTailScale args;
    ba_providerShapeVersion := ba_providerShapeVersion args; ba_cacheNamespace := ba_cacheNamespace args;
    ba_taggerFloor := ba_taggerFloor args |};
  now ← match cx_createdAt ctx with Some t => mret t | None => Date_now end;
  messages ← readRawSessionMessages (cx_sessionId ctx);
  count ← getCachedAbsoluteMessageCount (cx_sessionId ctx);
  estimates ← gets so_estimates;
  let '(plan, estimates) :=
    resolveWrapupProtectedTailBoundary ctx {| bs_messages := messages; bs_absoluteMessageCount := count; bs_now := now |}
      messagesToKeep anchorRawMessageCount estimates in
  set_estimates estimates;;
  mret plan.

Definition recordHighPressureNoEligibleHead (snapshot : ProtectedTailBoundarySnapshot) : M num :=
  let force := eb_forceMaterializationPercentage (escalationBands (cf_executeThresholdPercentage (sn_ctx snapshot))) in
  if nltb (sn_usagePercentage snapshot) force && match cf_emergencyTailScale (sn_ctx snapshot) with None => true | Some _ => false end
  then mret (nofZ 0)
  else
    on_meta (fun meta => update_row (sn_sessionId snapshot) always (fun r =>
      [("recovery_no_eligible_head_count",
        sql_add (sql_coalesce (column r "recovery_no_eligible_head_count") (nofZ 0)) (SqlNum (nofZ 1)))]%string)
      (ensure_row harness (sn_sessionId snapshot) meta));;
    meta ← loadProtectedTailMeta (sn_sessionId snapshot);
    mret (recoveryNoEligibleHeadCount meta).

End source.
