(* ===== verification/CompartmentTrigger.v ===== *)
(** * When the historian is started

    Models packages/plugin/src/hooks/magic-context/compartment-trigger.ts: the cheap
    gate over the stored token counts, the inspection of the unsummarized tail, the
    projection of what pending drops will free, and the decision.  It runs over the
    sources of SessionSource, any access of which may fail, and composes Boundary,
    SessionChunk, Budgets and the policy row of SessionMeta.  A fired trigger always
    hands over a boundary with a head to summarise ([fired_trigger_has_head]); the tail
    read from memory and the one read from the host's database lead to the same decision
    ([tail_source_irrelevant]). *)

From S2P Require Import Prelude JsNumber JsExact JsMap JsValue JsString JsJson TokenEstimate TokenIndex SessionText Budgets Boundary SessionChunk Tagger Reclaim SessionRow RawSession SessionMeta Access SessionSource.

Definition PROACTIVE_TRIGGER_OFFSET_PERCENTAGE : num := nofZ 2.
Definition POST_DROP_TARGET_RATIO : num := nlit 3 4.
Definition MIN_PROACTIVE_TAIL_TOKEN_ESTIMATE : num := nofZ 6000.
Definition MIN_PROACTIVE_TAIL_MESSAGE_COUNT : Z := 12.
Definition DEFAULT_MIN_COMMIT_CLUSTERS_FOR_TRIGGER : Z := 3.
Definition TAIL_SIZE_TRIGGER_MULTIPLIER : num := nofZ 3.
Definition BLOCK_UNTIL_DONE_PERCENTAGE : num := nofZ 95.

Inductive trigger_reason := projected_headroom | force_band | commit_clusters | tail_size.

Record CompartmentTriggerResult := {
  cr_shouldFire : bool;
  cr_reason : option trigger_reason;
  cr_boundarySnapshot : option ProtectedTailBoundarySnapshot
}.

Definition no_fire : CompartmentTriggerResult :=
  {| cr_shouldFire := false; cr_reason := None; cr_boundarySnapshot := None |}.

Definition fire (reason : trigger_reason) (snapshot : option ProtectedTailBoundarySnapshot) : CompartmentTriggerResult :=
  {| cr_shouldFire := true; cr_reason := Some reason; cr_boundarySnapshot := snapshot |}.

Record InMemoryTailSource := { im_messages : list RawMessage; im_absoluteMessageCount : Z }.

Record ReasoningProjectionCapability := { rp_providerID : option string; rp_canClearReasoning : option bool }.

(** [InMemoryTailSource | LazyInMemoryTailSource | undefined]. *)
Inductive tail_argument :=
| no_tail
| known_tail (tail : InMemoryTailSource)
| lazy_tail (build : M (option InMemoryTailSource)).

(** The arguments of checkCompartmentTrigger, the two fields of the session's meta first. *)
Record trigger_args := {
  ta_compartmentInProgress : bool;
  ta_clearedReasoningThroughTag : option Z;
  ta_usage : BoundaryUsage;
  ta_executeThresholdPercentage : num;
  ta_triggerBudget : num;
  ta_clearReasoningAge : option Z;
  ta_commitClusterTrigger : option (bool * Z);
  ta_preloadedActiveTags : option (list TagEntry);
  ta_contextLimit : option num;
  ta_inMemoryTail : tail_argument;
  ta_taggerFloorOverride : option Z;
  ta_reasoningProjection : option ReasoningProjectionCapability
}.

Section trigger.
Context `{JsonEngine} `{SqliteJson} `{Engine} `{Tokenizer} (ellipsis harness : string) (node_env_test : bool).

(** ** The tail in memory *)

Definition tagOwnerMessageId (r : Tagger.row) : string :=
  if is_tool r then default (r_message r) (r_owner r) else strip_content_suffix (r_message r).

Definition getActiveOrDroppedTagOwnerMessageIds (sessionId : string) (floor : Z) (db : session_db) : gset string :=
  list_to_set ((fun t => tagOwnerMessageId (tg_row t)) <$> live_rows sessionId floor db).

Definition tail_estimate_options : TrueRawEstimateOptions :=
  {| o_providerShapeVersion := "opencode-v1"; o_imageTokenHeuristic := None |}.

Definition estimateUntaggedInMemoryTailUpperBound (sessionId : string) (inMemoryTail : InMemoryTailSource)
    (taggerFloor : Z) : M Z :=
  lastCompartmentEnd ← query (getLastCompartmentEndMessage sessionId);
  coveredOwnerMessageIds ← query (getActiveOrDroppedTagOwnerMessageIds sessionId taggerFloor);
  mret (foldl (fun total message =>
          if (rm_ordinal message <=? lastCompartmentEnd) || bool_decide (rm_id message ∈ coveredOwnerMessageIds) then total
          else total + b_total (estimateTrueRawMessageTokens message tail_estimate_options)) 0 (im_messages inMemoryTail)).

Definition buildTriggerInMemoryTail (sessionId : string) (messages : list InMemoryMessageView) : M (option InMemoryTailSource) :=
  match messages with
  | [] => mret None
  | _ =>
      lastCompartmentEnd ← query (getLastCompartmentEndMessage sessionId);
      anchorMessageId ← query (getLastCompartmentEndMessageId sessionId);
      let compacted := 1 <=? lastCompartmentEnd in
      mret (if compacted && match anchorMessageId with None => true | Some _ => false end then None
            else
              built ← buildInMemoryTailRawMessages messages lastCompartmentEnd anchorMessageId;
              if compacted && match anchorMessageId with Some _ => true | None => false end && negb (it_anchorFound built)
              then None
              else Some {| im_messages := it_messages built; im_absoluteMessageCount := it_absoluteMessageCount built |})
  end.

Definition getProactiveCompartmentTriggerPercentage (executeThresholdPercentage : num) : num :=
  nmax (nofZ 0) (nsub executeThresholdPercentage PROACTIVE_TRIGGER_OFFSET_PERCENTAGE).

(** ** What drops will free *)

Definition entry_bytes (t : TagEntry) : Z := t_byteSize t + t_reasoningByteSize t.

Definition sum_by (f : TagEntry → Z) (tags : list TagEntry) : Z := foldl (fun sum t => sum + f t) 0 tags.

(** Whether the reasoning of a tag will be cleared. *)
Definition clearable (pendingDropTagIds : list Z) (clearedReasoningThroughTag reasoningAgeCutoff : Z) (t : TagEntry) : bool :=
  bool_decide (t_type t = message) && negb (existsb (Z.eqb (t_tagNumber t)) pendingDropTagIds) &&
  (clearedReasoningThroughTag <? t_tagNumber t) && (t_tagNumber t <=? reasoningAgeCutoff) &&
  (0 <? t_reasoningByteSize t).

Definition droppable_bytes (activeTags : list TagEntry) (pendingDropTagIds : list Z)
    (clearReasoningAge clearedReasoningThroughTag : option Z) (canClearReasoning : bool) : Z :=
  let pending := sum_by entry_bytes (filter (fun t => existsb (Z.eqb (t_tagNumber t)) pendingDropTagIds = true) activeTags) in
  let maxTag := foldl (fun m t => Z.max m (t_tagNumber t)) 0 activeTags in
  match canClearReasoning, clearReasoningAge, clearedReasoningThroughTag with
  | true, Some age, Some through =>
      pending + sum_by t_reasoningByteSize (filter (fun t => clearable pendingDropTagIds through (maxTag - age) t = true) activeTags)
  | _, _, _ => pending
  end.

Definition estimateProjectedPostDropPercentage (sessionId : string) (usage : BoundaryUsage) (activeTags : list TagEntry)
    (clearReasoningAge clearedReasoningThroughTag : option Z) (canClearReasoning : bool) : M (option num) :=
  let totalActiveBytes := sum_by entry_bytes activeTags in
  if totalActiveBytes =? 0 then mret None
  else
    pendingDrops ← query (getPendingOps sessionId);
    let droppableBytes := droppable_bytes activeTags (po_tag <$> pendingDrops) clearReasoningAge clearedReasoningThroughTag
                            canClearReasoning in
    mret (if droppableBytes =? 0 then None
          else
            let dropRatio := nmin (ndiv (nofZ droppableBytes) (nofZ totalActiveBytes)) (nofZ 1) in
            Some (nmul (u_percentage usage) (nsub (nofZ 1) dropRatio))).

(** ** The unsummarized tail *)

Record TailInfo := {
  ti_nextStartOrdinal : Z;
  ti_hasNewRawHistory : bool;
  ti_hasProtectedEligibleHead : bool;
  ti_isMeaningful : bool;
  ti_tokenEstimate : num;
  ti_chunkHasMore : bool;
  ti_trueRawEligibleTokens : option Z;
  ti_commitClusterCount : Z;
  ti_boundarySnapshot : option ProtectedTailBoundarySnapshot
}.

(** TAIL_INFO_DEFAULTS with these fields. *)
Definition empty_tail (nextStartOrdinal : Z) (hasNewRawHistory : bool) (snapshot : option ProtectedTailBoundarySnapshot) : TailInfo :=
  {| ti_nextStartOrdinal := nextStartOrdinal; ti_hasNewRawHistory := hasNewRawHistory; ti_hasProtectedEligibleHead := false;
     ti_isMeaningful := false; ti_tokenEstimate := nofZ 0; ti_chunkHasMore := false; ti_trueRawEligibleTokens := Some 0;
     ti_commitClusterCount := 0; ti_boundarySnapshot := snapshot |}.

Definition TAIL_INFO_DEFAULTS : TailInfo := empty_tail 1 false None.

Definition resolveBoundaryContextLimit (usage : BoundaryUsage) (fallbackContextLimit : option num) : num :=
  let fallback := default (nofZ 0) fallbackContextLimit in
  if nltb (nofZ 0) fallback then fallback
  else if nltb (nofZ 0) (u_percentage usage) && nltb (nofZ 0) (u_inputTokens usage)
  then nmax (nofZ 1) (nround (ndiv (u_inputTokens usage) (ndiv (u_percentage usage) (nofZ 100))))
  else nofZ 128000.

(** createDefaultBoundarySnapshotForTests of protected-tail-boundary.ts. *)
Definition createDefaultBoundarySnapshotForTests (sessionId : string) : M ProtectedTailBoundarySnapshot :=
  messages ← readRawSessionMessages sessionId;
  let rawMessageCount := lengthZ messages in
  legacy ← getLegacyProtectedTailStartOrdinal sessionId;
  let protectedTailStart := Z.max 1 (Z.min (rawMessageCount + 1) legacy) in
  let cacheNamespace := ("test:" ++ sessionId)%string in
  estimates ← gets so_estimates;
  let '(index, estimates) :=
    buildTrueRawTokenIndex messages {| bo_estimate := tail_estimate_options; bo_cacheNamespace := cacheNamespace;
                                       bo_storedTotalForMessage := None; bo_absoluteMessageCount := None |} estimates in
  set_estimates estimates;;
  now ← Date_now;
  let messageIdAt ordinal := rm_id <$> find_ordinal messages ordinal in
  mret {| sn_sessionId := sessionId; sn_mode := mode_incremental_runner; sn_offset := 1; sn_offsetMessageId := messageIdAt 1;
          sn_protectedTailStart := protectedTailStart; sn_protectedTailStartMessageId := messageIdAt protectedTailStart;
          sn_eligibleEndOrdinal := protectedTailStart; sn_eligibleEndMessageId := messageIdAt (protectedTailStart - 1);
          sn_rawMessageCountAtTrigger := rawMessageCount; sn_rawLastMessageIdAtTrigger := messageIdAt rawMessageCount;
          sn_N := nofZ 0; sn_usagePercentage := nofZ 0; sn_usageInputTokens := nofZ 0;
          sn_ctx := {| cf_usageSource := us_provisional_zero; cf_contextLimit := nofZ 128000;
                       cf_executeThresholdPercentage := nofZ 65;
                       cf_triggerBudget := deriveTriggerBudget (nofZ 128000) (nofZ 65);
                       cf_priorBoundaryOrdinal := protectedTailStart; cf_migrationFloorActive := false;
                       cf_emergencyTailScale := None; cf_providerShapeVersion := "opencode-v1";
                       cf_cacheNamespace := cacheNamespace |};
          sn_createdAt := now; sn_rawRangeFingerprint := ""; sn_trueRawEligibleTokens := rangeTokens index 1 protectedTailStart;
          sn_oversizeAtomicUnit := false; sn_boundaryReason := "test-legacy" |}.

Definition trigger_boundary_args (sessionId : string) (usage : BoundaryUsage) (executeThresholdPercentage : num)
    (contextLimit : option num) (scale : option EmergencyTailScale) (taggerFloor : option Z) : boundary_args :=
  {| ba_sessionId := sessionId; ba_mode := mode_trigger; ba_contextLimit := resolveBoundaryContextLimit usage contextLimit;
     ba_executeThresholdPercentage := executeThresholdPercentage; ba_usage := Some usage; ba_usageSource := Some us_live;
     ba_emergencyTailScale := scale; ba_providerShapeVersion := None; ba_cacheNamespace := None;
     ba_taggerFloor := taggerFloor |}.

(** The tail goes to the caches: from memory, or from the host under the new policy. *)
Definition prime_tail (sessionId : string) (inMemoryTail : option InMemoryTailSource) : M unit :=
  memoryPrimed ← match inMemoryTail with
                 | Some tail => primeInMemoryTailRawMessageCache sessionId (im_messages tail) (im_absoluteMessageCount tail)
                 | None => mret false
                 end;
  if memoryPrimed : bool then mret ()
  else
    meta ← loadProtectedTailMeta harness sessionId;
    if nleb (nofZ 3) (protectedTailPolicyVersion meta) then
      lastCompartmentEnd ← query (getLastCompartmentEndMessage sessionId);
      anchorMessageId ← query (getLastCompartmentEndMessageId sessionId);
      primeTailRawMessageCache sessionId lastCompartmentEnd anchorMessageId;;
      mret ()
    else mret ().

(** What the inspection does once the tail is in the caches. *)
Definition inspect_tail (sessionId : string) (triggerBudget : num) (usage : BoundaryUsage) (executeThresholdPercentage : num)
    (contextLimit : option num) (taggerFloor : Z) : M TailInfo :=
  rawEligibility ← getRawHistoryEligibility sessionId;
  if negb (rh_hasRawBeyondLastCompartment rawEligibility) then mret (empty_tail (rh_offset rawEligibility) false None)
  else
    boundary ←
      if node_env_test then createDefaultBoundarySnapshotForTests sessionId
      else resolveOpenCodeProtectedTailBoundary harness
             (trigger_boundary_args sessionId usage executeThresholdPercentage contextLimit None (Some taggerFloor));
    let head := sn_offset boundary <? sn_protectedTailStart boundary in
    if negb head then mret (empty_tail (rh_offset rawEligibility) true (Some boundary))
    else
      let scanBudget := nmax MIN_PROACTIVE_TAIL_TOKEN_ESTIMATE (nmul triggerBudget TAIL_SIZE_TRIGGER_MULTIPLIER) in
      chunk ← read_chunk ellipsis sessionId scanBudget (rh_offset rawEligibility) (Some (sn_protectedTailStart boundary));
      mret {| ti_nextStartOrdinal := rh_offset rawEligibility;
              ti_hasNewRawHistory := true;
              ti_hasProtectedEligibleHead := head;
              ti_isMeaningful :=
                ch_hasMore chunk || tokens_ge (sn_trueRawEligibleTokens boundary) MIN_PROACTIVE_TAIL_TOKEN_ESTIMATE ||
                nleb MIN_PROACTIVE_TAIL_TOKEN_ESTIMATE (ch_tokenEstimate chunk) ||
                (MIN_PROACTIVE_TAIL_MESSAGE_COUNT <=? ch_messageCount chunk);
              ti_tokenEstimate := ch_tokenEstimate chunk;
              ti_chunkHasMore := ch_hasMore chunk;
              ti_trueRawEligibleTokens := sn_trueRawEligibleTokens boundary;
              ti_commitClusterCount := ch_commitClusterCount chunk;
              ti_boundarySnapshot := Some boundary |}.

Definition getUnsummarizedTailInfo (sessionId : string) (triggerBudget : num) (usage : BoundaryUsage)
    (executeThresholdPercentage : num) (contextLimit : option num) (inMemoryTail : option InMemoryTailSource)
    (taggerFloor : Z) : M TailInfo :=
  withRawSessionMessageCache
    (catch (prime_tail sessionId inMemoryTail;;
            inspect_tail sessionId triggerBudget usage executeThresholdPercentage contextLimit taggerFloor)
           (mret TAIL_INFO_DEFAULTS)).

(** ** The decision *)

(** The tail the caller handed over, under the new policy only; an error drops it. *)
Definition admitted_tail (sessionId : string) (tail : option InMemoryTailSource) : M (option InMemoryTailSource) :=
  match tail with
  | None => mret None
  | Some t =>
      catch (meta ← loadProtectedTailMeta harness sessionId;
             mret (if nltb (protectedTailPolicyVersion meta) (nofZ 3) then None else Some t))
            (mret None)
  end.

(** The tail of a lazy source, built under the new policy. *)
Definition built_tail (sessionId : string) (build : M (option InMemoryTailSource)) : M (option InMemoryTailSource) :=
  catch (meta ← loadProtectedTailMeta harness sessionId;
         if nleb (nofZ 3) (protectedTailPolicyVersion meta) then build else mret None)
        (mret None).

(** Whether the stored counts show that no size trigger is possible. *)
Definition cheap_gate (sessionId : string) (triggerBudget : num) (direct : option InMemoryTailSource) (is_lazy : bool)
    (taggerFloor : Z) : M bool :=
  catch
    (let boundFloor := if match direct with Some _ => true | None => is_lazy end then taggerFloor else 0 in
     bound ← query (getTriggerTagTokenUpperBound sessionId boundFloor);
     if tb_nullCount bound =? 0 then
       untaggedUpperBound ← match direct with
                            | Some t => estimateUntaggedInMemoryTailUpperBound sessionId t taggerFloor
                            | None => mret 0
                            end;
       mret (nltb (nofZ (tb_bound bound + untaggedUpperBound)) triggerBudget)
     else mret false)
    (mret false).

Definition at_most (projected : option num) (target : num) : bool :=
  match projected with Some p => nleb p target | None => false end.

Definition modelAcceptsEmptyContent (providerID : option string) : bool :=
  match providerID with Some id => String.eqb id "anthropic" | None => false end.

Definition can_clear (reasoningProjection : option ReasoningProjectionCapability) : bool :=
  match reasoningProjection ≫= rp_canClearReasoning with
  | Some b => b
  | None => modelAcceptsEmptyContent (reasoningProjection ≫= rp_providerID)
  end.

(** The boundary of a smaller tail, when the one inspected left nothing to run on. *)
Definition rescaled_trigger (sessionId : string) (a : trigger_args) (tail : option InMemoryTailSource)
    : M CompartmentTriggerResult :=
  let usage := ta_usage a in
  let scale := if nleb BLOCK_UNTIL_DONE_PERCENTAGE (u_percentage usage) then scale_quarter else scale_half in
  scaledBoundary ←
    withRawSessionMessageCache
      (match tail with
       | Some t => primeInMemoryTailRawMessageCache sessionId (im_messages t) (im_absoluteMessageCount t);; mret ()
       | None => mret ()
       end;;
       resolveOpenCodeProtectedTailBoundary harness
         (trigger_boundary_args sessionId usage (ta_executeThresholdPercentage a) (ta_contextLimit a) (Some scale) None));
  mret (if hasRunnableCompartmentWindow scaledBoundary then fire force_band (Some scaledBoundary) else no_fire).

Definition force_trigger (sessionId : string) (a : trigger_args) (tail : option InMemoryTailSource) (tailInfo : TailInfo)
    : M CompartmentTriggerResult :=
  match ti_boundarySnapshot tailInfo with
  | Some s => if hasRunnableCompartmentWindow s then mret (fire force_band (Some s)) else rescaled_trigger sessionId a tail
  | None => rescaled_trigger sessionId a tail
  end.

(** The branches below the force band. *)
Definition size_trigger (a : trigger_args) (tailInfo : TailInfo) (projected : option num) : CompartmentTriggerResult :=
  let usage := ta_usage a in
  let '(clusterEnabled, minClusters) := default (true, DEFAULT_MIN_COMMIT_CLUSTERS_FOR_TRIGGER) (ta_commitClusterTrigger a) in
  let snapshot := ti_boundarySnapshot tailInfo in
  if clusterEnabled && (minClusters <=? ti_commitClusterCount tailInfo) && nleb (ta_triggerBudget a) (ti_tokenEstimate tailInfo)
  then fire commit_clusters snapshot
  else if nleb (nmul (ta_triggerBudget a) TAIL_SIZE_TRIGGER_MULTIPLIER) (ti_tokenEstimate tailInfo) ||
          (ti_chunkHasMore tailInfo && nltb (nofZ 0) (ti_tokenEstimate tailInfo))
  then fire tail_size snapshot
  else if nltb (u_percentage usage) (getProactiveCompartmentTriggerPercentage (ta_executeThresholdPercentage a)) then no_fire
  else if at_most projected (nmul (ta_executeThresholdPercentage a) POST_DROP_TARGET_RATIO) then no_fire
  else if negb (ti_hasProtectedEligibleHead tailInfo) || negb (ti_isMeaningful tailInfo) then no_fire
  else fire projected_headroom snapshot.

(** What follows the gate. *)
Definition full_trigger (sessionId : string) (a : trigger_args) (tail : option InMemoryTailSource) (taggerFloor : Z)
    : M CompartmentTriggerResult :=
  let usage := ta_usage a in
  tailInfo ← getUnsummarizedTailInfo sessionId (ta_triggerBudget a) usage (ta_executeThresholdPercentage a) (ta_contextLimit a)
               tail taggerFloor;
  if negb (ti_hasNewRawHistory tailInfo) then
    catch (query (getLastCompartmentEndMessage sessionId);; mret ()) (mret ());;
    mret no_fire
  else
    tags ← match ta_preloadedActiveTags a with
           | Some tags => mret tags
           | None => query (getActiveTagsBySession sessionId)
           end;
    projected ← estimateProjectedPostDropPercentage sessionId usage tags (ta_clearReasoningAge a)
                  (ta_clearedReasoningThroughTag a) (can_clear (ta_reasoningProjection a));
    let force := eb_forceMaterializationPercentage (escalationBands (ta_executeThresholdPercentage a)) in
    if nleb force (u_percentage usage) then
      if at_most projected (nmul (ta_executeThresholdPercentage a) POST_DROP_TARGET_RATIO) then mret no_fire
      else force_trigger sessionId a tail tailInfo
    else mret (size_trigger a tailInfo projected).

Definition checkCompartmentTrigger (sessionId : string) (a : trigger_args) : M CompartmentTriggerResult :=
  if ta_compartmentInProgress a then mret no_fire
  else
    direct ← admitted_tail sessionId (match ta_inMemoryTail a with known_tail t => Some t | _ => None end);
    taggerFloor ←
      (let derived := match direct with
                      | Some t => deriveTagLoadFloor sessionId (rm_id <$> im_messages t)
                      | None => mret 0
                      end in
       match ta_taggerFloorOverride a with
       | Some floor => if 0 <? floor then mret floor else derived
       | None => derived
       end);
    skip ←
      if nltb (u_percentage (ta_usage a)) (getProactiveCompartmentTriggerPercentage (ta_executeThresholdPercentage a))
      then cheap_gate sessionId (ta_triggerBudget a) direct
             match ta_inMemoryTail a with lazy_tail _ => true | _ => false end taggerFloor
      else mret false;
    if skip : bool then mret no_fire
    else
      tail ← match ta_inMemoryTail a with
             | lazy_tail build => built_tail sessionId build
             | _ => mret direct
             end;
      full_trigger sessionId a tail taggerFloor.

End trigger.

(** ** What a fired trigger hands over *)

Section fired.
Context `{JsonEngine} `{SqliteJson} `{Engine} `{Tokenizer} (ellipsis harness : string) (node_env_test : bool) (sessionId : string).

(** The ordinals of a snapshot are those of the session. *)
Definition snapshot_ok (s : ProtectedTailBoundarySnapshot) : Prop :=
  1 ≤ sn_offset s ∧ sn_protectedTailStart s ≤ sn_rawMessageCountAtTrigger s + 1.

Lemma resolve_yields args : ba_mode args = mode_trigger →
  yields (resolveOpenCodeProtectedTailBoundary harness args) snapshot_ok.
Proof.
  intros Hmode. unfold resolveOpenCodeProtectedTailBoundary.
  apply (yields_bind _ _ (fun ctx => cx_mode ctx = mode_trigger)).
  { unfold resolveBoundaryContext. do 2 (apply yields_then; intros ?). apply yields_then. intros [meta active].
    apply yields_then. intros totals. by apply yields_ret. }
  intros ctx Hctx. unfold resolve_boundary. do 4 (apply yields_then; intros ?).
  destruct (resolveProtectedTailBoundary ctx _ _) as [s est] eqn:E. apply yields_then. intros _. apply yields_ret.
  match type of E with resolveProtectedTailBoundary _ ?store ?cache = _ =>
    pose proof (live_snapshot_ordered ctx store cache ltac:(by rewrite Hctx)) as Hl end.
  rewrite E in Hl. cbn [fst] in Hl. cbn zeta in Hl. destruct Hl as ([_ Hp] & Ho & _). by split.
Qed.

Lemma test_snapshot_yields : yields (createDefaultBoundarySnapshotForTests sessionId) snapshot_ok.
Proof.
  unfold createDefaultBoundarySnapshotForTests. apply yields_then. intros messages. do 2 (apply yields_then; intros ?).
  destruct (buildTrueRawTokenIndex _ _ _) as [index est]. do 2 (apply yields_then; intros ?). apply yields_ret.
  split; cbn [sn_offset sn_protectedTailStart sn_rawMessageCountAtTrigger]; unfold lengthZ; lia.
Qed.

(** A tail with a head carries its boundary; one without counts nothing. *)
Record tail_ok (t : TailInfo) : Prop := {
  to_head : ti_hasProtectedEligibleHead t = true →
    ∃ s, ti_boundarySnapshot t = Some s ∧ snapshot_ok s ∧ hasProtectedEligibleHead s = true;
  to_snapshot : ∀ s, ti_boundarySnapshot t = Some s → snapshot_ok s;
  to_none : ti_hasProtectedEligibleHead t = false → ti_tokenEstimate t = nofZ 0 ∧ ti_chunkHasMore t = false
}.

Lemma empty_tail_ok n b o : (∀ s, o = Some s → snapshot_ok s) → tail_ok (empty_tail n b o).
Proof. intros Ho. by split. Qed.

Lemma tail_yields budget usage threshold limit tail floor :
  yields (getUnsummarizedTailInfo ellipsis harness node_env_test sessionId budget usage threshold limit tail floor) tail_ok.
Proof.
  unfold getUnsummarizedTailInfo, withRawSessionMessageCache. apply yields_then. intros outer.
  assert (∀ m : M TailInfo, yields m tail_ok →
    yields (match outer with Some _ => m | None => set_caches (Some no_caches);; finally m (set_caches None) end) tail_ok) as Hcache.
  { intros m Hm. destruct outer; [done|]. apply yields_then. intros _. by apply yields_finally. }
  apply Hcache, yields_catch; [|by apply yields_ret, empty_tail_ok].
  apply yields_then. intros _. unfold inspect_tail. apply yields_then. intros rh.
  destruct (negb _); [by apply yields_ret, empty_tail_ok|].
  apply (yields_bind _ _ snapshot_ok).
  { destruct node_env_test; [apply test_snapshot_yields|by apply resolve_yields]. }
  intros s Hs. destruct (sn_offset s <? sn_protectedTailStart s) eqn:Eh; cbn [negb].
  2:{ apply yields_ret, empty_tail_ok. by intros s' [= <-]. }
  apply yields_then. intros chunk. apply yields_ret. split; cbn; [intros _; by exists s|by intros s' [= <-]|done].
Qed.

(** What the decision promises. *)
Definition handed_over (a : trigger_args) (r : CompartmentTriggerResult) : Prop :=
  cr_shouldFire r = true → ∃ reason s,
    cr_reason r = Some reason ∧ cr_boundarySnapshot r = Some s ∧
    1 ≤ sn_offset s < sn_protectedTailStart s ∧ sn_protectedTailStart s ≤ sn_rawMessageCountAtTrigger s + 1 ∧
    (reason = force_band ↔ nleb (eb_forceMaterializationPercentage (escalationBands (ta_executeThresholdPercentage a)))
                             (u_percentage (ta_usage a)) = true) ∧
    (reason = force_band → hasRunnableCompartmentWindow s = true) ∧
    (reason = projected_headroom →
       nltb (u_percentage (ta_usage a)) (getProactiveCompartmentTriggerPercentage (ta_executeThresholdPercentage a)) = false).

Lemma no_fire_handed a : handed_over a no_fire.
Proof. done. Qed.

Lemma runnable_head s : hasRunnableCompartmentWindow s = true → sn_offset s < sn_protectedTailStart s.
Proof. unfold hasRunnableCompartmentWindow. destruct (Z.leb_spec (sn_protectedTailStart s) (sn_offset s)); [done|lia]. Qed.

Lemma force_handed a s : snapshot_ok s → hasRunnableCompartmentWindow s = true →
  nleb (eb_forceMaterializationPercentage (escalationBands (ta_executeThresholdPercentage a))) (u_percentage (ta_usage a)) = true →
  handed_over a (fire force_band (Some s)).
Proof.
  intros [Ho Hp] Hr Hf _. pose proof (runnable_head s Hr). exists force_band, s. by split_and!; try lia.
Qed.

Lemma force_yields a tail t : tail_ok t →
  nleb (eb_forceMaterializationPercentage (escalationBands (ta_executeThresholdPercentage a))) (u_percentage (ta_usage a)) = true →
  yields (force_trigger harness sessionId a tail t) (handed_over a).
Proof.
  intros Ht Hf. assert (yields (rescaled_trigger harness sessionId a tail) (handed_over a)) as Hscaled.
  { unfold rescaled_trigger. apply (yields_bind _ _ snapshot_ok).
    - unfold withRawSessionMessageCache. apply yields_then. intros outer.
      assert (∀ h : M unit, yields (h;; resolveOpenCodeProtectedTailBoundary harness
        (trigger_boundary_args sessionId (ta_usage a) (ta_executeThresholdPercentage a) (ta_contextLimit a)
           (Some (if nleb BLOCK_UNTIL_DONE_PERCENTAGE (u_percentage (ta_usage a)) then scale_quarter else scale_half)) None)) snapshot_ok)
        as Hm by (intros h; apply yields_then; intros _; by apply resolve_yields).
      destruct outer; [apply Hm|]. apply yields_then. intros _. apply yields_finally, Hm.
    - intros s Hs. apply yields_ret. destruct (hasRunnableCompartmentWindow s) eqn:Er; [by apply force_handed|done]. }
  unfold force_trigger. destruct (ti_boundarySnapshot t) as [s|] eqn:Es; [|done].
  destruct (hasRunnableCompartmentWindow s) eqn:Er; [|done]. apply yields_ret, force_handed; [|done|done].
  by apply (to_snapshot t Ht).
Qed.

Lemma positive_above n : 0 < n < 2 ^ 53 → nleb (nofZ n) (nofZ 0) = false.
Proof.
  intros Hn. apply not_true_is_false. intros Hle%nleb_nle. eapply nltb_not_nle; [|exact Hle].
  rewrite nltb_nofZ by lia. apply Z.ltb_lt. lia.
Qed.

Lemma size_handed a t projected n : tail_ok t → ta_triggerBudget a = nofZ n → 0 < n < 2 ^ 50 →
  nleb (eb_forceMaterializationPercentage (escalationBands (ta_executeThresholdPercentage a))) (u_percentage (ta_usage a)) = false →
  handed_over a (size_trigger a t projected).
Proof.
  intros Ht Hbudget Hn Hf. unfold size_trigger.
  destruct (default _ (ta_commitClusterTrigger a)) as [enabled clusters].
  assert (∀ reason, reason ≠ force_band → ti_hasProtectedEligibleHead t = true →
    (reason = projected_headroom →
       nltb (u_percentage (ta_usage a)) (getProactiveCompartmentTriggerPercentage (ta_executeThresholdPercentage a)) = false) →
    handed_over a (fire reason (ti_boundarySnapshot t))) as Hfire.
  { intros reason Hne Hhead Hproj _. destruct (to_head t Ht Hhead) as (s & Es & [Ho Hp] & Hh%Z.ltb_lt).
    exists reason, s. rewrite Hf. by split_and!; try lia. }
  destruct (ti_hasProtectedEligibleHead t) eqn:Ehead.
  - repeat case_match; try apply no_fire_handed; by apply Hfire.
  - destruct (to_none t Ht Ehead) as [-> ->]. rewrite Hbudget.
    assert (nmul (nofZ n) TAIL_SIZE_TRIGGER_MULTIPLIER = nofZ (n * 3)) as ->
      by (unfold TAIL_SIZE_TRIGGER_MULTIPLIER; rewrite !nofZ_dyadic; apply mul_dyadic; lia).
    rewrite !positive_above by lia.
    rewrite andb_false_r. cbn [orb andb negb]. repeat case_match; apply no_fire_handed.
Qed.

Lemma full_yields a tail floor n : ta_triggerBudget a = nofZ n → 0 < n < 2 ^ 50 →
  yields (full_trigger ellipsis harness node_env_test sessionId a tail floor) (handed_over a).
Proof.
  intros Hbudget Hn. unfold full_trigger. eapply yields_bind; [apply tail_yields|]. intros t Ht.
  destruct (negb _); [apply yields_then; intros _; by apply yields_ret|]. do 2 (apply yields_then; intros ?).
  destruct (nleb _ (u_percentage (ta_usage a))) eqn:Ef; [|by eapply yields_ret, size_handed].
  destruct (at_most _ _); [by apply yields_ret|by apply force_yields].
Qed.

End fired.

(** ** Where the tail comes from *)

Section same_tail.
Context `{JsonEngine} `{SqliteJson} `{Engine} `{Tokenizer} (ellipsis harness : string) (node_env_test : bool) (sessionId : string).

(** The session is compacted up to a message of the host, whose tail the plugin may read. *)
Record compacted_to (ocdb : opencode_db) (row : message_row) (m : raw_message) (w : world) : Prop := {
  ct_quiet : w_pauses w = [];
  ct_caches : so_caches (w_reg w) = None;
  ct_provider : so_providers (w_reg w) !! sessionId = None;
  ct_host : sd_host (w_db w) = Some ocdb;
  ct_keyed : keyed ocdb;
  ct_anchor : (row, m) ∈ reference ocdb sessionId;
  ct_named : mr_id row ≠ EmptyString;
  ct_end : getLastCompartmentEndMessage sessionId (w_db w) = rw_ordinal m;
  ct_end_id : getLastCompartmentEndMessageId sessionId (w_db w) = Some (mr_id row);
  ct_policy : nleb (nofZ 3) (protectedTailPolicyVersion (toProtectedTailMeta (sd_meta (w_db w) !! sessionId))) = true
}.

Definition tail_messages (ocdb : opencode_db) (m : raw_message) : list RawMessage :=
  rw_message <$> readable (drop (Z.to_nat (rw_ordinal m - 1)) (reference ocdb sessionId)).

Definition host_tail (ocdb : opencode_db) (m : raw_message) : InMemoryTailSource :=
  {| im_messages := tail_messages ocdb m; im_absoluteMessageCount := lengthZ (reference ocdb sessionId) |}.

Lemma anchor_ordinal ocdb row m : (row, m) ∈ reference ocdb sessionId → 1 ≤ rw_ordinal m.
Proof. intros (i & _ & ->)%reference_elem. cbn. lia. Qed.

Lemma policy_row (db : session_db) : nleb (nofZ 3) (protectedTailPolicyVersion (toProtectedTailMeta (sd_meta db !! sessionId))) = true →
  with_meta (ensure_row harness sessionId (sd_meta db)) db = db.
Proof.
  unfold ensure_row. destruct (sd_meta db !! sessionId) as [r|]; [by destruct db|].
  assert (nleb (nofZ 3) (nofZ 0) = false) as E by (vm_compute; reflexivity).
  cbn [toProtectedTailMeta DEFAULT_PROTECTED_TAIL_META protectedTailPolicyVersion]. by rewrite E.
Qed.

Definition with_caches (caches : option raw_caches) (w : world) : world :=
  {| w_db := w_db w;
     w_reg := {| so_caches := caches; so_providers := so_providers (w_reg w); so_estimates := so_estimates (w_reg w);
                 so_blocks := so_blocks (w_reg w); so_clock := so_clock (w_reg w); so_reads := so_reads (w_reg w) |};
     w_pauses := w_pauses w |}.

Section compacted.
Context (ocdb : opencode_db) (row : message_row) (m : raw_message) (w : world) (Hc : compacted_to ocdb row m w).

Definition primed : world :=
  with_caches (Some {| rc_messages := {[sessionId := tail_messages ocdb m]};
                       rc_counts := {[sessionId := lengthZ (reference ocdb sessionId)]} |}) w.

Lemma keep_primed :
  keep_messages sessionId (tail_messages ocdb m) (Some (lengthZ (reference ocdb sessionId))) (with_caches (Some no_caches) w) =
  (Ok (), primed).
Proof. unfold keep_messages. rewrite bind_run. cbn. unfold primed, with_caches. cbn. by rewrite !insert_empty. Qed.

Lemma opened_primable : primable sessionId (w_reg (with_caches (Some no_caches) w)) = true.
Proof.
  unfold primable. cbn [with_caches w_reg so_caches so_providers no_caches rc_messages].
  by rewrite lookup_empty, (ct_provider _ _ _ _ Hc).
Qed.

Lemma prime_from_memory : prime_tail harness sessionId (Some (host_tail ocdb m)) (with_caches (Some no_caches) w) = (Ok (), primed).
Proof.
  unfold prime_tail, primeInMemoryTailRawMessageCache. rewrite !bind_run.
  change (gets (primable sessionId) _) with (@Ok sql_error _ (primable sessionId (w_reg (with_caches (Some no_caches) w))), with_caches (Some no_caches) w).
  rewrite opened_primable. rewrite bind_run. cbn [host_tail im_messages im_absoluteMessageCount]. by rewrite keep_primed.
Qed.

Lemma load_policy : loadProtectedTailMeta harness sessionId (with_caches (Some no_caches) w) =
  (Ok (toProtectedTailMeta (sd_meta (w_db w) !! sessionId)), with_caches (Some no_caches) w).
Proof.
  pose proof (ct_quiet _ _ _ _ Hc) as Hq. unfold loadProtectedTailMeta, on_meta. rewrite bind_run.
  rewrite (quiet_access _ _ () (w_db w)); [|exact Hq|].
  - rewrite quiet_query by done. cbn [w_db]. do 2 f_equal. unfold with_caches. by rewrite Hq.
  - cbn. by rewrite (policy_row (w_db w) (ct_policy _ _ _ _ Hc)).
Qed.

Lemma prime_from_host : prime_tail harness sessionId None (with_caches (Some no_caches) w) = (Ok (), primed).
Proof.
  pose proof (ct_quiet _ _ _ _ Hc) as Hq. pose proof (anchor_ordinal _ _ _ (ct_anchor _ _ _ _ Hc)) as Ho.
  unfold prime_tail. rewrite bind_run, ret_run. rewrite bind_run, load_policy, (ct_policy _ _ _ _ Hc).
  rewrite bind_run, quiet_query by exact Hq. rewrite bind_run, quiet_query by exact Hq. cbn [w_db with_caches].
  rewrite (ct_end _ _ _ _ Hc), (ct_end_id _ _ _ _ Hc). unfold primeTailRawMessageCache. rewrite !bind_run.
  change (gets (primable sessionId) _) with (@Ok sql_error _ (primable sessionId (w_reg (with_caches (Some no_caches) w))), with_caches (Some no_caches) w).
  rewrite opened_primable. cbn [negb orb].
  rewrite (proj2 (Z.ltb_ge _ _)) by lia. destruct (String.eqb_spec (mr_id row) "") as [E|_]; [by destruct (ct_named _ _ _ _ Hc)|].
  cbn [orb]. rewrite bind_run, quiet_query by exact Hq. cbn [w_db with_caches]. rewrite (ct_host _ _ _ _ Hc). cbn [mbind option_bind].
  rewrite (tail_read ocdb sessionId row m (ct_keyed _ _ _ _ Hc) (ct_anchor _ _ _ _ Hc)). cbn [rt_messages rt_absoluteMessageCount].
  rewrite bind_run. change (rw_message <$> readable _) with (tail_messages ocdb m). by rewrite keep_primed.
Qed.

(** The inspection does not see where the tail came from. *)
Lemma same_inspection budget usage threshold limit floor :
  getUnsummarizedTailInfo ellipsis harness node_env_test sessionId budget usage threshold limit (Some (host_tail ocdb m)) floor w =
  getUnsummarizedTailInfo ellipsis harness node_env_test sessionId budget usage threshold limit None floor w.
Proof.
  unfold getUnsummarizedTailInfo, withRawSessionMessageCache. rewrite !bind_run.
  change (gets so_caches w) with (@Ok sql_error _ (so_caches (w_reg w)), w). rewrite (ct_caches _ _ _ _ Hc). rewrite !bind_run.
  change (set_caches (Some no_caches) w) with (@Ok sql_error _ (), with_caches (Some no_caches) w).
  unfold finally, catch, catch_with. by rewrite !bind_run, prime_from_memory, prime_from_host.
Qed.

Lemma same_trigger a floor :
  nleb (eb_forceMaterializationPercentage (escalationBands (ta_executeThresholdPercentage a))) (u_percentage (ta_usage a)) = false →
  full_trigger ellipsis harness node_env_test sessionId a (Some (host_tail ocdb m)) floor w =
  full_trigger ellipsis harness node_env_test sessionId a None floor w.
Proof.
  intros Hf. unfold full_trigger. rewrite !bind_run, same_inspection.
  destruct (getUnsummarizedTailInfo _ _ _ _ _ _ _ _ _ _ w) as [[t|e] w']; [|done]. destruct (negb _); [done|].
  rewrite !bind_run. set (load := match ta_preloadedActiveTags a with Some tags => mret tags | None => query _ end).
  destruct (load w') as [[tags|e] w1]; [|done].
  rewrite !bind_run. destruct (estimateProjectedPostDropPercentage _ _ _ _ _ _ w1) as [[projected|e] w2]; [|done].
  by rewrite Hf.
Qed.

Lemma built_from_views views before shown : well_formed (row, m) = true →
  filter (fun v => view_summary v = false) views = before ++ shown →
  Forall (fun v => iv_id v ≠ mr_id row) before →
  Forall2 shows shown (drop (Z.to_nat (rw_ordinal m - 1)) (reference ocdb sessionId)) →
  buildTriggerInMemoryTail sessionId views w = (Ok (Some (host_tail ocdb m)), w).
Proof.
  intros Hwf Hviews Hbefore Hshown. pose proof (ct_quiet _ _ _ _ Hc) as Hq.
  pose proof (memory_read ocdb sessionId row m views before shown (ct_anchor _ _ _ _ Hc) Hwf Hviews Hbefore Hshown) as Hb.
  unfold buildTriggerInMemoryTail. destruct views as [|v views]; [by cbn in Hb|].
  rewrite bind_run, quiet_query by exact Hq. rewrite bind_run, quiet_query by exact Hq. rewrite ret_run.
  rewrite (ct_end _ _ _ _ Hc), (ct_end_id _ _ _ _ Hc), andb_false_r, Hb. cbn [mbind option_bind it_anchorFound negb andb it_messages it_absoluteMessageCount].
  by rewrite !andb_false_r.
Qed.

End compacted.
End same_tail.

(** ** Properties *)


(** C10: The inspection of the tail does not depend on where the tail comes from. Let
    nothing fail and nobody else write, no cached messages and no provider stand in for
    the host, the ids of the host's rows be distinct, the session be compacted up to a
    well-formed stored message, the plugin be able to read the host's tail and its
    protected-tail policy be seeded; and let the transform show the rows from that
    message on, and not that message before. Then the messages at hand become a tail,
    and with it the inspection of the tail, and the decision that follows the cheap gate
    (below the force band), give the same answer and leave the same state as when the
    tail is read from the database. The cheap gate itself is not part of it: it looks at
    the tail only when one is given. *)
Theorem tail_source_irrelevant `{JsonEngine} `{SqliteJson} `{Engine} `{Tokenizer} ellipsis harness node_env_test sessionId
    ocdb row m (w : world) views before shown :
  compacted_to sessionId ocdb row m w → well_formed (row, m) = true →
  filter (fun v => view_summary v = false) views = before ++ shown →
  Forall (fun v => iv_id v ≠ mr_id row) before →
  Forall2 shows shown (drop (Z.to_nat (rw_ordinal m - 1)) (reference ocdb sessionId)) →
  ∃ tail, buildTriggerInMemoryTail sessionId views w = (Ok (Some tail), w) ∧
    (∀ budget usage threshold limit floor,
       getUnsummarizedTailInfo ellipsis harness node_env_test sessionId budget usage threshold limit (Some tail) floor w =
       getUnsummarizedTailInfo ellipsis harness node_env_test sessionId budget usage threshold limit None floor w) ∧
    (∀ a floor,
       nleb (eb_forceMaterializationPercentage (escalationBands (ta_executeThresholdPercentage a))) (u_percentage (ta_usage a)) = false →
       full_trigger ellipsis harness node_env_test sessionId a (Some tail) floor w =
       full_trigger ellipsis harness node_env_test sessionId a None floor w).
Proof.
  intros Hc Hwf Hviews Hbefore Hshown. exists (host_tail sessionId ocdb m). split_and!.
  - by eapply built_from_views.
  - intros. by eapply same_inspection.
  - intros. by eapply same_trigger.
Qed.

(** ** Witnesses *)

#[local] Existing Instance integer_engine.
#[local] Existing Instance parsed_sqlite.

(** A counted tag of a message. *)
Definition counted_tag (number : Z) (messageId : string) (tokens : Z) : tag_row :=
  {| tg_row := {| r_id := number; r_session := "s"; r_message := (messageId ++ ":p0")%string; r_type := message; r_number := number;
                  r_owner := None; r_byte_size := Some 10; r_input_byte_size := None; r_reasoning_byte_size := 0;
                  r_tool_name := None; r_fingerprint := None; r_harness := "opencode";
                  r_counts := {| tokenCount := Some tokens; inputTokenCount := None; reasoningTokenCount := None |} |};
     tg_status := Reclaim.active |}.

Definition raw_user (m : RawMessage) : raw_message :=
  {| rw_message := m; rw_createdAt := None; rw_version := None; rw_partVersions := [] |}.

Definition plain_provider (messages : list raw_message) : RawMessageProvider :=
  {| pv_readMessages := Ok messages; pv_readMessagePage := None; pv_readMessageById := None; pv_readMessagePartsById := None;
     pv_readMessageOrdinalPage := None; pv_getMessageCount := None; pv_getStoredMessageCount := None |}.

Definition trigger_world (db : session_db) (provider : option RawMessageProvider) : world :=
  {| w_db := db;
     w_reg := {| so_caches := None; so_providers := match provider with Some p => {["s"%string := p]} | None => ∅ end;
                 so_estimates := empty_cache; so_blocks := []; so_clock := fun n => nofZ (Z.of_nat n); so_reads := 0 |};
     w_pauses := [] |}.

(** A session of three messages, not compacted, at 90% of its window. *)
Definition full_world : world :=
  trigger_world {| sd_meta := ∅; sd_tags := [counted_tag 1 "a" 3000; counted_tag 2 "b" 4000; counted_tag 3 "c" 2500];
                   sd_pending := []; sd_next_pending := 1; sd_compartments := []; sd_host := None |}
    (Some (plain_provider (raw_user <$> [user_msg 1 "a" "start"; user_msg 2 "b" "go on"; user_msg 3 "c" "now"]))).

Definition full_args : trigger_args :=
  {| ta_compartmentInProgress := false; ta_clearedReasoningThroughTag := None;
     ta_usage := {| u_percentage := nofZ 90; u_inputTokens := nofZ 18000 |}; ta_executeThresholdPercentage := nofZ 65;
     ta_triggerBudget := nofZ 5000; ta_clearReasoningAge := None; ta_commitClusterTrigger := None;
     ta_preloadedActiveTags := None; ta_contextLimit := Some (nofZ 20000); ta_inMemoryTail := no_tail;
     ta_taggerFloorOverride := None; ta_reasoningProjection := None |}.

Definition answer_of (c : result sql_error CompartmentTriggerResult * world) : CompartmentTriggerResult :=
  match c.1 with Ok r => r | Err _ => no_fire end.

Lemma answered_fire c : cr_shouldFire (answer_of c) = true → c = (Ok (answer_of c), c.2).
Proof. by destruct c as [[r|e] w]. Qed.

Abbreviation full_check := (checkCompartmentTrigger "." "opencode" false "s" full_args full_world).

Abbreviation full_result := (answer_of full_check).


(** The session of RawSession, compacted up to its first message under the new policy. *)
Definition compacted_world : world :=
  trigger_world {| sd_meta := {["s"%string := set_columns [("protected_tail_policy_version", SqlNum (nofZ 3))]%string (new_row "opencode")]};
                   sd_tags := []; sd_pending := []; sd_next_pending := 1;
                   sd_compartments := [{| ce_session := "s"; ce_sequence := 0; ce_end_message := 1; ce_end_message_id := Some "u1"%string |}];
                   sd_host := Some sample_session_db |} None.

Definition sample_views : list InMemoryMessageView :=
  [sample_view "u1" "user" []; sample_view "" "" []; sample_view "a1" "assistant" [VStr "hello"]].

Lemma sample_compacted : compacted_to "s" sample_session_db sample_anchor.1 sample_anchor.2 compacted_world.
Proof.
  split; [done|done|done|done|apply sample_session_keyed| |discriminate|vm_compute; reflexivity..].
  apply list_elem_of_lookup. exists 0%nat. vm_compute. reflexivity.
Qed.

Lemma tail_source_irrelevant_witness :
  compacted_to "s" sample_session_db sample_anchor.1 sample_anchor.2 compacted_world ∧
  ∃ tail, buildTriggerInMemoryTail "s" sample_views compacted_world = (Ok (Some tail), compacted_world) ∧
    getUnsummarizedTailInfo "." "opencode" false "s" (nofZ 5000) (ta_usage full_args) (nofZ 65) None (Some tail) 0 compacted_world =
    getUnsummarizedTailInfo "." "opencode" false "s" (nofZ 5000) (ta_usage full_args) (nofZ 65) None None 0 compacted_world.
Proof.
  split; [apply sample_compacted|].
  destruct (tail_source_irrelevant "." "opencode" false "s" sample_session_db sample_anchor.1 sample_anchor.2 compacted_world
    sample_views [] sample_views sample_compacted) as (tail & Hb & Hi & _).
  - vm_compute. reflexivity.
  - vm_compute. reflexivity.
  - constructor.
  - match goal with |- Forall2 _ _ ?l => let l' := eval vm_compute in l in replace l with l' by (vm_compute; reflexivity) end.
    repeat (apply Forall2_cons; split; [vm_compute; by split_and?|]). constructor.
  - exists tail. split; [exact Hb|]. apply Hi.
Defined.

(** The gate of a lazy tail does not count the messages without tags: it skips a tail that
    fires when it is handed over built. *)
Definition untagged_tail : InMemoryTailSource :=
  {| im_messages := (fun i => session_message i (if Z.even i then "assistant" else "user") [text_part "more"]) <$> seqZ 1 12;
     im_absoluteMessageCount := 12 |}.

Definition untagged_world : world :=
  trigger_world {| sd_meta := sd_meta (w_db compacted_world); sd_tags := []; sd_pending := []; sd_next_pending := 1;
                   sd_compartments := [{| ce_session := "s"; ce_sequence := 0; ce_end_message := 1; ce_end_message_id := Some "m1"%string |}];
                   sd_host := None |} None.

Definition untagged_args (tail : tail_argument) : trigger_args :=
  {| ta_compartmentInProgress := false; ta_clearedReasoningThroughTag := None;
     ta_usage := {| u_percentage := nofZ 30; u_inputTokens := nofZ 24000 |}; ta_executeThresholdPercentage := nofZ 65;
     ta_triggerBudget := nofZ 5000; ta_clearReasoningAge := None; ta_commitClusterTrigger := None;
     ta_preloadedActiveTags := None; ta_contextLimit := Some (nofZ 80000); ta_inMemoryTail := tail;
     ta_taggerFloorOverride := None; ta_reasoningProjection := None |}.

Definition heavy_tokenizer : Tokenizer := {| estimateTokens := fun _ => nofZ 3000 |}.

Example lazy_gate_skips :
  let check tail := (checkCompartmentTrigger (H2 := heavy_tokenizer) "." "opencode" false "s" (untagged_args tail) untagged_world).1 in
  (match check (known_tail untagged_tail) with Ok r => cr_reason r | Err _ => None end) = Some tail_size ∧
  (match check (lazy_tail (mret (Some untagged_tail))) with Ok r => cr_shouldFire r | Err _ => true end) = false.
Proof. split; vm_compute; reflexivity. Qed.
